(* ===== verification/_CoqProject ===== *)
-Q . S2P
Prelude.v
ByteStr.v
Diff.v
Merge.v
Model.v
FS.v
Storage.v
View.v
Descend.v
World.v
StorageOps.v
Flatten.v
Does.v
FlattenRead.v
FlattenSpec.v
Lease.v
Publish.v
Stack.v
Squash.v
SquashSpec.v
SquashCommit.v
LayerWrite.v
PublishRead.v
LateFault.v
Base.v
BaseSpec.v
BaseBuild.v
BaseHash.v
BaseShared.v
Tree.v
Capture.v
CaptureSpec.v
CaptureStats.v
Project.v
Delta.v
Archive.v
Export.v
ExportApply.v
ExportSafe.v
ExportHost.v
ExportSpec.v
ExportManager.v
ExportPage.v
ExportEmit.v
ExportEnd.v
ExportArchive.v
Lock.v
Autosquash.v
Ring.v
RingSpec.v
RingStore.v
ExecRegistry.v
Sessions.v
SessionsInv.v
SessionsSafe.v
SessionsThreads.v
