(* ===== verification/Prelude.v ===== *)
(** * Ephemeral Sandbox: a verification library

    Ephemeral Sandbox runs commands of agents in throw-away workspaces.  A
    workspace is an overlay mount over a stack of immutable layer directories;
    what a command changed is captured and published as a new layer.  The parts
    that are modelled here, and how they work together:

    - the layer stack ([src/crates/sandbox-runtime/layerstack]) keeps the layers,
      the manifest that orders them and the leases that pin them;
    - a base layer is built from a directory of the host and shared between stacks
      (same crate, directory [workspace_base]);
    - the capture ([src/crates/sandbox-runtime/workspace/src/overlay]) turns the
      upper directory of a mount into the changes that are published;
    - the session service ([src/crates/sandbox-runtime/operation], directory
      [workspace_session]) creates workspaces on a lease, admits commands,
      publishes and destroys;
    - the automatic squash (same crate, directory [layerstack]) has a worker
      thread that is notified of every published layer;
    - the execution registry ([src/crates/sandbox-runtime/namespace-execution])
      bounds the commands that run;
    - an export folds the layers above the base into a compressed archive in the
      sandbox ([projection/emit_stream.rs], [service/impls/export.rs]), which the
      manager pages and applies to a directory of the host or writes as a file
      ([src/crates/sandbox-manager], [export_changes.rs], [export_apply.rs]);
    - the resource ring ([src/crates/sandbox-manager/src/resource_ring.rs])
      keeps usage samples of every sandbox on disk.

    ** Files

    Foundations.
    - [Prelude] (this file): bytes, results, generic lemmas and tactics.
    - [ByteStr]: Rust strings as byte strings, number formats, [BTreeMap].
    - [FS]: a file system with links, modes and extended attributes, and path
      resolution as the kernel does it.
    - [World]: calls that change the file system, with a script of faults and the
      I/O monad [io]; [Does]: triples for code that fails only on a fault.

    Layer stack.
    - [Model] ([model/mod.rs]): layer paths, manifests, change sets, digests.
    - [Storage], [StorageOps] ([storage/fs.rs], [storage/whiteout.rs],
      [stack/layer/write.rs]): readers and writers of the storage root.
    - [View], [Descend] ([stack/projection/mod.rs], [stack/dir_list.rs]): reads
      through the layers, against an overlay lookup as reference.
    - [Project] ([projection/apply.rs], [projection/delta.rs]): layer walks;
      [Delta]: what the fold of the layers above the base means.
    - [Diff], [Merge] ([publish/merge.rs]): line diff and three-way merge.
    - [Publish] ([publish/]): planning and conflict resolution.
    - [Lease] ([stack/lease/]): leases, removal of layers, the boot sweep.
    - [Stack] ([stack/ops/], [stack/mod.rs], [observability.rs]): whole
      operations on a storage root.
    - [Flatten], [FlattenRead], [FlattenSpec], [Squash], [SquashSpec],
      [SquashCommit] ([stack/squash.rs], [squash/flatten.rs]): squashing.
    - [LayerWrite]: what a layer written from changes contains; [PublishRead]:
      what is read after a publish; [LateFault]: what a publish and a squash leave
      when the last call of the manifest write fails.
    - [Base] ([workspace_base/]): bases, their hashes and bindings; [BaseSpec]: what
      the copy of a workspace contains; [BaseBuild]: building and ensuring a base;
      [BaseHash]: what its hash determines; [BaseShared]: the cache of bases.
    - [Lock] ([storage/lock.rs]): the storage-root lock as steps of threads.

    Export.
    - [Archive]: what is used of the [tar] and [zstd] crates, as a class.
    - [Export] ([emit_stream.rs], [export.rs], [page_stream]): writing, sealing,
      serving and paging a spool.
    - [ExportApply] ([export_apply.rs]): the applier; [ExportManager]
      ([export_changes.rs]): the transaction around it.
    - [ExportSafe]: confinement and caps, for any archive; [ExportHost],
      [ExportSpec]: what the applier makes of a directory; [ExportPage]: paging;
      [ExportEmit]: the spool of a delta; [ExportEnd]: the whole export;
      [ExportArchive]: archives, failed exports.

    Capture ([workspace/src/overlay]).
    - [Tree] ([tree.rs]): the statistics of a tree; [Capture] ([capture.rs]): the
      walk of an upper directory; [CaptureSpec]: the changes against the mount
      they come from; [CaptureStats]: their statistics against those of [Tree].

    Sessions, executions, samples.
    - [Sessions]: the session service as programs of atomic actions;
      [SessionsInv]: what threads own; [SessionsSafe]: a program logic and a rule
      for every operation; [SessionsThreads]: the theorems on all schedules.
    - [Autosquash] ([operation/src/layerstack/autosquash_engine/worker.rs]): the
      notification queue, its worker and its callers as threads.
    - [ExecRegistry] ([namespace-execution/src/registry.rs]).
    - [Ring] ([resource_ring.rs]): the ring files and the store; [RingSpec]: their
      codec; [RingStore]: the store against a map of sample lists, and failures.

    ** Correspondence

    Definitions keep the names of the source.  A struct is a [Record], an enum an
    [Inductive], a fallible function returns [result], a function that does I/O is
    an [io] program over a [world]: every call that writes, syncs, creates, renames
    or removes consumes one entry of the world's fault script, so that a theorem
    over all scripts covers every finite pattern of failures of such calls, a write
    that stops halfway included.  Calls that read answer from the file system and
    fail only as it dictates; the exceptions are [Ring], where they consume entries
    as well, and the release of a lease, whose theorem covers every answer of the
    read of the manifest.  Where a header or a comment says that calls fail, it
    speaks of the calls that consume entries.  Machine
    integers are [Z] or [N] with saturation and wrapping written out.  Panics are
    values ([None], [Panicked]).  Methods that run under a mutex for their whole
    body are single steps; [Lock], [Sessions] and [Autosquash] split methods into their critical
    sections, run them on any number of threads, and treat a blocked thread as one
    that has no step.

    Outside code is a parameter with the laws that the code relies on: SHA-256,
    the JSON codec of a manifest (class [ManifestCodec]: decoding an encoding gives
    it back), the gitignore matcher, [lgetxattr] as the capture calls it, which
    reports the stored value or that the buffer is short, the JSON codec of a
    binding ([BindingCodec]), base64 ([Base64]: decoding an encoding gives it
    back), and archives and compression ([ExportCodec]: decompressing gives back
    what was compressed, entries come back as they were appended, contents are
    parts of the archive).  The daemon that the manager pages is an arbitrary
    function of a state.  The workspace runtime and the kernel, as the
    session service sees them, are an arbitrary environment [env] that is asked at
    every call; nothing is assumed of its answers.

    ** Theorems

    - Publishing: no concurrent change is lost ([publish_no_lost_update],
      [publish_replaced_dir_unchanged]), a publish on the head meets no conflict,
      reserved paths are refused; the merge is a decomposition into chunks.  What
      is published is what is read afterwards ([published_changes_are_read]), and
      a layer shows its changes as a reference definition applies them.  This and
      the following statements on reads are about paths above which no layer has a
      symbolic link, and whose names do not have the prefix of a whiteout.
    - Capturing: a session that is captured and published reads like its mount
      ([captured_session_reads]), and its statistics are those of the tree.
    - Bases: a built base reads like the workspace it was copied from
      ([built_base_reads_like_workspace]), ensuring one is idempotent, a shared base
      has the entries of the workspace that asked for it, and equal hashes mean
      equal workspaces up to a hash collision.  Workspaces have directories, files
      and links only, with names, and for the hashes link targets, that are text.
    - Exporting: the delta over the base is the stack
      ([delta_over_base_is_stack]), but for directories that replace a removal.
      A host directory that is a copy of the base shows the stack after the whole
      transaction ([exported_directory_shows_stack]), if no directory replaces a
      removal, link targets have at most 100 bytes, the caps allow the archive and
      no call of the daemon fails.  No archive, however hostile,
      touches anything outside the destination ([export_stays_in_destination]) or
      exceeds the caps; paging ends and is exact against any daemon, and delivers
      the spool of ours; an archive file is whole or absent; no export keeps a lease.
    - Reading: layer-by-layer search equals the overlay lookup, and the
      descendants of a directory are exactly those that it finds.
    - Squashing: reads of paths without a link above them are the same before and
      after, the planned blocks are the maximal runs, one squash at a time.
    - Failures: the manifest is replaced atomically whichever calls fail; a release
      never touches a layer that another lease or the manifest that it reads
      references, and the sweep none of the active manifest; an append to a ring
      that is not full and that fails after its header was read leaves the samples
      of before, with or without the new one, or a half-written header.
    - Concurrency: mutual exclusion and no lost wake-up in the lock; in the session
      service every schedule of operations ends without a deadlock, a workspace
      is destroyed at most once, and a session disappears only after its resources.
      In the automatic squash no notification is lost, nothing deadlocks, and a
      shutdown completes and is final.
    - Refinement: the ring store answers like a map of sample lists, in which a
      window read of samples whose times go back empties the list.
    - Defects are theorems as well: a failed sync after a manifest write, which
      makes every publish ([failed_publish_removes_live_layer]) and every squash
      ([failed_squash_loses_layers]) remove live layers, a failed read of a ring's
      header, which loses its samples, a clock that steps back, which does so too, a read that leaves its layer through a link, an execute bit that is
      lost, a nested read and a command that block themselves, a captured file
      that is lost to another name, a removed file that an export brings back, a
      worker that is not replaced after a panic, a base that hides or misplaces
      files with special names, and an export that skips a change of permissions,
      writes again what it promises to skip, or leaves its spool behind.

    ** Fuel and bounds

    Loops that are not structural take fuel.  [Diff] and [Merge] take the lengths
    of their inputs, and the theorems show that a result is returned.  Directory
    walks and the recursive merge of [Flatten] take the longest path of the file
    system, which bounds its nesting; [flatten_terminates] proves that this is
    enough.  The walks of [Tree] and [Capture] take the same bound, the walk of a
    layer in [Project] the number of nodes; the theorems on them show results, so
    the fuel does not run out.  The buffer of an extended attribute doubles at most
    57 times before its length leaves the machine word.  Path resolution follows at most 40 links, as the kernel does.  A
    recursive removal of the export takes the longest path of the host, which
    [does_remove_recursive] shows to be enough, and paging one request per announced
    byte, which [paging_is_exact] shows to be never used up.  The
    retry loops of [Sessions] have the bounds of the source (3 and 8 attempts).

    ** Not modelled

    - Base builds: the thread pool; directories and files are taken in order.
    - Exports: the JSON of requests and results, the list of live sessions, the
      exact size of a read before the cap (a read that passes the cap fails after
      the bytes up to it), and the variants for Windows.
    - What an automatic squash evaluates: in [Autosquash] an evaluation ends or
      panics; the squash itself is in [Squash].
    - Sessions: the live remount, which replaces the handle of a session, the
      lifecycle log, recovery artifacts, cgroup files, and telemetry.
    - The namespace holder, process supervision, transcripts, the overlay mount
      and everything else that is system calls on namespaces, cgroups, terminals
      and sockets.
    - Daemon, gateway, command line, configuration, observability database,
      wire protocol, container provider and build tool: glue around libraries and
      network I/O. *)

From stdpp Require Export base list list_numbers gmap strings sorting.
From stdpp Require Export options.
From Stdlib Require Export ZArith Lia.
From Stdlib Require Strings.Byte Strings.String Strings.Ascii.

#[global] Set Default Goal Selector "!".

(** ** Bytes and strings *)

Abbreviation byte := Byte.byte.
Abbreviation bytes := (list Byte.byte).

#[global] Instance byte_eq_dec : EqDecision byte := Byte.byte_eq_dec.

(** [b'\n'] and the NUL byte. *)
Definition newline : byte := Byte.x0a.
Definition nul : byte := Byte.x00.

(** A Rust string literal as bytes. *)
Definition bytes_of (s : string) : bytes := String.list_byte_of_string s.

(** ** Results: Rust's [Result<A, E>] *)

Inductive result (A E : Type) : Type :=
| Ok (a : A)
| Err (e : E).
Arguments Ok {A E} a.
Arguments Err {A E} e.

#[global] Instance result_eq_dec {A E} `{EqDecision A, EqDecision E} :
  EqDecision (result A E).
Proof. solve_decision. Defined.

Definition result_bind {A B E} (r : result A E) (k : A → result B E) : result B E :=
  match r with Ok a => k a | Err e => Err e end.

(** [Result::map_err]. *)
Definition map_err {A E F} (f : E → F) (r : result A E) : result A F :=
  match r with Ok a => Ok a | Err e => Err (f e) end.

Declare Scope result_scope.
Delimit Scope result_scope with result.
Notation "'let?' x ':=' c 'in' k" := (result_bind c (λ x, k))
  (at level 10, x binder, c at level 100, k at level 200)
  : result_scope.

Lemma result_bind_ok {A B E} (r : result A E) (k : A → result B E) b :
  result_bind r k = Ok b ↔ ∃ a, r = Ok a ∧ k a = Ok b.
Proof. destruct r; naive_solver. Qed.

Lemma result_bind_err {A B E} (r : result A E) (k : A → result B E) e :
  result_bind r k = Err e ↔ r = Err e ∨ ∃ a, r = Ok a ∧ k a = Err e.
Proof. destruct r; naive_solver. Qed.

(** ** Panics: [None] stands for an index, slice or underflow panic *)

(** [a - b] on [usize], panicking on underflow. *)
Definition usub (a b : nat) : option nat :=
  if decide (b ≤ a) then Some (a - b) else None.

(** [&l[i..j]]. *)
Definition slice {A} (l : list A) (i j : nat) : option (list A) :=
  if decide (i ≤ j ∧ j ≤ length l) then Some (take (j - i) (drop i l)) else None.

(** [l[i]] with a signed index converted by [as usize]: a negative index is a
    huge [usize], out of bounds of any vector. *)
Definition zget {A} (l : list A) (i : Z) : option A :=
  if decide (0 ≤ i)%Z then l !! Z.to_nat i else None.

(** [l[i] = x]. *)
Definition zset {A} (l : list A) (i : Z) (x : A) : option (list A) :=
  if decide (0 ≤ i ∧ i < Z.of_nat (length l))%Z then Some (<[Z.to_nat i := x]> l) else None.

Lemma usub_Some a b : b ≤ a → usub a b = Some (a - b).
Proof. unfold usub. by case_decide. Qed.

Lemma slice_Some {A} (l : list A) i j :
  i ≤ j → j ≤ length l → slice l i j = Some (take (j - i) (drop i l)).
Proof. unfold slice. case_decide; naive_solver. Qed.

Lemma zget_Some {A} (l : list A) i x :
  zget l i = Some x ↔ (0 ≤ i)%Z ∧ l !! Z.to_nat i = Some x.
Proof. unfold zget. case_decide; naive_solver. Qed.

Lemma zget_is_Some {A} (l : list A) i :
  (0 ≤ i < Z.of_nat (length l))%Z → is_Some (zget l i).
Proof.
  intros ?. unfold zget. rewrite decide_True by lia. apply lookup_lt_is_Some. lia.
Qed.

Lemma zset_Some {A} (l : list A) i x :
  (0 ≤ i < Z.of_nat (length l))%Z → zset l i x = Some (<[Z.to_nat i := x]> l).
Proof. unfold zset. case_decide; [done|lia]. Qed.

Lemma zget_insert_eq {A} (l : list A) i x :
  (0 ≤ i < Z.of_nat (length l))%Z → zget (<[Z.to_nat i := x]> l) i = Some x.
Proof.
  intros ?. apply zget_Some. split; [lia|]. apply list_lookup_insert_eq. lia.
Qed.

Lemma zget_insert_ne {A} (l : list A) i j x :
  (0 ≤ i)%Z → i ≠ j → zget (<[Z.to_nat i := x]> l) j = zget l j.
Proof.
  intros ??. unfold zget. case_decide; [|done]. apply list_lookup_insert_ne. lia.
Qed.

(** ** Lists *)

Section lists.
Context {A : Type}.
Implicit Types l : list A.

Lemma take_drop_add l i n m :
  take (n + m) (drop i l) = take n (drop i l) ++ take m (drop (i + n) l).
Proof. by rewrite <-(take_take_drop (drop i l) n m), drop_drop. Qed.

Lemma take_add_slice l i n : take (i + n) l = take i l ++ take n (drop i l).
Proof. by rewrite take_take_drop. Qed.

Lemma drop_lookup_cons l i x : l !! i = Some x → drop i l = x :: drop (S i) l.
Proof. intros. by apply drop_S. Qed.

Lemma Forall_filter_id (P : A → Prop) `{∀ x, Decision (P x)} l : Forall P l → filter P l = l.
Proof. induction 1 as [|x l Hx Hl IH]; [done|]. rewrite filter_cons_True by done. by f_equal. Qed.

Lemma filter_none (P : A → Prop) `{∀ x, Decision (P x)} l : (∀ x, x ∈ l → ¬ P x) → filter P l = [].
Proof.
  induction l as [|x l IH]; intros Hn; [done|].
  rewrite filter_cons_False by (apply Hn; by left). apply IH. intros. apply Hn. by right.
Qed.

Lemma elem_of_concat (ls : list (list A)) x : x ∈ concat ls ↔ ∃ l, x ∈ l ∧ l ∈ ls.
Proof. induction ls as [|l ls IH]; simpl; set_solver. Qed.

Lemma existsb_fmap {B} (g : B → bool) (h : A → B) l : existsb g (h <$> l) = existsb (λ x, g (h x)) l.
Proof. induction l as [|x l IH]; [done|]. csimpl. by rewrite IH. Qed.

Lemma existsb_none (g : A → bool) l : (∀ x, x ∈ l → g x = false) → existsb g l = false.
Proof.
  induction l as [|x l IH]; intros Hn; [done|]. csimpl. rewrite Hn by set_solver.
  apply IH. set_solver.
Qed.

Lemma filter_ext_in (P Q : A → Prop) `{∀ x, Decision (P x), ∀ x, Decision (Q x)} l :
  (∀ x, x ∈ l → P x ↔ Q x) → filter P l = filter Q l.
Proof.
  induction l as [|x l IH]; intros HPQ; [done|]. rewrite !filter_cons, IH by set_solver.
  pose proof (HPQ x ltac:(by left)). repeat case_decide; naive_solver.
Qed.

Lemma omap_ext_in {B} (g h : A → option B) l : (∀ x, x ∈ l → g x = h x) → omap g l = omap h l.
Proof.
  induction l as [|x l IH]; intros Hn; [done|]. csimpl. rewrite Hn by set_solver.
  rewrite IH by set_solver. done.
Qed.

Lemma existsb_ext_in (g h : A → bool) l :
  (∀ x, x ∈ l → g x = h x) → existsb g l = existsb h l.
Proof.
  induction l as [|x l IH]; intros Hn; [done|]. csimpl. rewrite Hn by set_solver. f_equal.
  apply IH. set_solver.
Qed.
End lists.

(** Case analysis on every [match]/[if] of the goal, keeping the equations. *)
Ltac split_matches :=
  repeat (case_match || case_decide || case_bool_decide); simplify_eq/=.
