(* ===== verification/ByteStr.v ===== *)
(** * Byte strings, number formatting and ordered maps

    Rust's [String]/[&str] are UTF-8 byte strings; they are modelled as
    [bytes].  This file holds what the program uses of them ([split], [join],
    [trim], prefix tests, lossy conversion, the byte-wise order), the [{:06}] and [{:08x}]
    formats, and [BTreeMap] as an association list sorted by its keys. *)

From S2P Require Import Prelude.

(** A Rust string literal. *)
Abbreviation lit := bytes_of.

Definition slash : byte := Byte.x2f.
Definition backslash : byte := Byte.x5c.

(** ** Splitting and joining *)

(** [s.split(c)]: never empty. *)
Fixpoint split_on (c : byte) (s : bytes) : list bytes :=
  match s with
  | [] => [[]]
  | x :: s =>
      if decide (x = c) then [] :: split_on c s
      else match split_on c s with
           | [] => [[x]]
           | l :: ls => (x :: l) :: ls
           end
  end.

(** [parts.join(c)] *)
Fixpoint join_with (c : byte) (ls : list bytes) : bytes :=
  match ls with
  | [] => []
  | [l] => l
  | l :: ls => l ++ c :: join_with c ls
  end.

Fixpoint starts_with (p s : bytes) : bool :=
  match p, s with
  | [], _ => true
  | x :: p, y :: s => bool_decide (x = y) && starts_with p s
  | _, [] => false
  end.

Fixpoint strip_prefix (p s : bytes) : option bytes :=
  match p, s with
  | [], _ => Some s
  | x :: p, y :: s => if decide (x = y) then strip_prefix p s else None
  | _, [] => None
  end.

Lemma split_on_cons c s : ∃ l ls, split_on c s = l :: ls.
Proof.
  induction s as [|x s (l & ls & IH)]; simpl; [eauto|]. case_decide; [eauto|]. rewrite IH. eauto.
Qed.

Lemma split_on_ne c s : split_on c s ≠ [].
Proof. by destruct (split_on_cons c s) as (l & ls & ->). Qed.

Lemma join_split_on c s : join_with c (split_on c s) = s.
Proof.
  induction s as [|x s IH]; [done|]. simpl. destruct (split_on_cons c s) as (l & ls & Hs).
  rewrite Hs in *. case_decide as Hx.
  - subst x. change (c :: join_with c (l :: ls) = c :: s). by rewrite IH.
  - rewrite <-IH. by destruct ls.
Qed.

Lemma split_on_free c s l : l ∈ split_on c s → c ∉ l.
Proof.
  revert l. induction s as [|x s IH]; intros l; simpl.
  { rewrite list_elem_of_singleton. intros ->. apply not_elem_of_nil. }
  destruct (split_on_cons c s) as (l' & ls & Hs). rewrite Hs in *. case_decide.
  - rewrite elem_of_cons. intros [->|Hl]; [apply not_elem_of_nil|auto].
  - rewrite elem_of_cons. intros [->|Hl]; [|apply IH; by right].
    rewrite not_elem_of_cons. split; [done|]. apply IH. by left.
Qed.

Lemma split_on_app c l s : c ∉ l → split_on c (l ++ c :: s) = l :: split_on c s.
Proof.
  induction l as [|x l IH]; intros Hc; simpl.
  - by rewrite decide_True.
  - rewrite decide_False, IH by set_solver. done.
Qed.

Lemma split_on_one c l : c ∉ l → split_on c l = [l].
Proof.
  induction l as [|x l IH]; intros Hc; simpl; [done|].
  by rewrite decide_False, IH by set_solver.
Qed.

Lemma split_join_with c ls :
  ls ≠ [] → Forall (λ l, c ∉ l) ls → split_on c (join_with c ls) = ls.
Proof.
  induction ls as [|l ls IH]; intros Hne Hf; [done|]. apply Forall_cons in Hf as [Hl Hf].
  destruct ls as [|l' ls]; [by apply split_on_one|].
  change (split_on c (l ++ c :: join_with c (l' :: ls)) = l :: l' :: ls).
  by rewrite split_on_app, IH.
Qed.

Lemma strip_prefix_Some p s r : strip_prefix p s = Some r ↔ s = p ++ r.
Proof.
  revert s. induction p as [|x p IH]; intros [|y s]; simpl; [naive_solver..|].
  case_decide; [rewrite IH|]; naive_solver.
Qed.

Lemma starts_with_app p s : starts_with p s = true ↔ ∃ r, s = p ++ r.
Proof.
  revert s. induction p as [|x p IH]; intros [|y s]; simpl; [naive_solver..|].
  rewrite andb_true_iff, IH, bool_decide_eq_true. naive_solver.
Qed.

(** ** UTF-8 *)

Definition in_range (lo hi : N) (x : byte) : bool :=
  (lo <=? Byte.to_N x)%N && (Byte.to_N x <=? hi)%N.

(** [std::str::from_utf8(data).is_ok()]: the well-formed byte sequences of the
    Unicode standard, table 3-7. *)
Fixpoint utf8_valid (data : bytes) : bool :=
  match data with
  | [] => true
  | x :: d1 =>
      if in_range 0x00 0x7f x then utf8_valid d1
      else match d1 with
      | [] => false
      | y :: d2 =>
          if in_range 0xc2 0xdf x && in_range 0x80 0xbf y then utf8_valid d2
          else match d2 with
          | [] => false
          | z :: d3 =>
              if (in_range 0xe0 0xe0 x && in_range 0xa0 0xbf y ||
                  in_range 0xe1 0xec x && in_range 0x80 0xbf y ||
                  in_range 0xed 0xed x && in_range 0x80 0x9f y ||
                  in_range 0xee 0xef x && in_range 0x80 0xbf y) && in_range 0x80 0xbf z
              then utf8_valid d3
              else match d3 with
              | [] => false
              | w :: d4 =>
                  (in_range 0xf0 0xf0 x && in_range 0x90 0xbf y ||
                   in_range 0xf1 0xf3 x && in_range 0x80 0xbf y ||
                   in_range 0xf4 0xf4 x && in_range 0x80 0x8f y) &&
                  in_range 0x80 0xbf z && in_range 0x80 0xbf w && utf8_valid d4
              end
          end
      end
  end.

(** [s.chars()]: the code points of a UTF-8 string. *)
Fixpoint chars (s : bytes) : list N :=
  match s with
  | [] => []
  | x :: s1 =>
      let x' := Byte.to_N x in
      if (x' <? 0x80)%N then x' :: chars s1
      else match s1 with
      | [] => []
      | y :: s2 =>
          let y' := (Byte.to_N y - 0x80)%N in
          if (x' <? 0xe0)%N then ((x' - 0xc0) * 0x40 + y')%N :: chars s2
          else match s2 with
          | [] => []
          | z :: s3 =>
              let z' := (Byte.to_N z - 0x80)%N in
              if (x' <? 0xf0)%N then (((x' - 0xe0) * 0x40 + y') * 0x40 + z')%N :: chars s3
              else match s3 with
              | [] => []
              | w :: s4 =>
                  ((((x' - 0xf0) * 0x40 + y') * 0x40 + z') * 0x40 + (Byte.to_N w - 0x80))%N
                  :: chars s4
              end
          end
      end
  end.

(** A Unicode scalar value. *)
Definition scalar (c : N) : Prop := (c < 0xd800 ∨ 0xe000 ≤ c < 0x110000)%N.

(** The UTF-8 encoding of a character. *)
Definition utf8_char (c : N) : bytes :=
  let b n := default nul (Byte.of_N n) in
  if (c <? 0x80)%N then [b c]
  else if (c <? 0x800)%N then [b (0xc0 + c / 0x40)%N; b (0x80 + c mod 0x40)%N]
  else if (c <? 0x10000)%N then
    [b (0xe0 + c / 0x1000)%N; b (0x80 + (c / 0x40) mod 0x40)%N; b (0x80 + c mod 0x40)%N]
  else
    [b (0xf0 + c / 0x40000)%N; b (0x80 + (c / 0x1000) mod 0x40)%N;
     b (0x80 + (c / 0x40) mod 0x40)%N; b (0x80 + c mod 0x40)%N].

Lemma in_range_spec lo hi x : in_range lo hi x = true ↔ (lo ≤ Byte.to_N x ≤ hi)%N.
Proof. unfold in_range. by rewrite andb_true_iff, !N.leb_le. Qed.

Lemma of_N_to_N x n : n = Byte.to_N x → default nul (Byte.of_N n) = x.
Proof. intros ->. by rewrite Byte.of_to_N. Qed.

Local Ltac Zify.zify_post_hook ::= Z.to_euclidean_division_equations.

(** One character of a valid string. *)
Lemma utf8_valid_cons x s :
  utf8_valid (x :: s) = true →
  ∃ c r, x :: s = utf8_char c ++ r ∧ scalar c ∧ chars (x :: s) = c :: chars r ∧
    utf8_valid r = true.
Proof.
  pose proof (Byte.to_N_bounded x) as Hx. cbn [utf8_valid chars].
  destruct (in_range 0 0x7f x) eqn:H1; [apply in_range_spec in H1|apply not_true_iff_false in H1; rewrite in_range_spec in H1].
  { intros Hv. exists (Byte.to_N x), s. unfold utf8_char, scalar.
    rewrite (proj2 (N.ltb_lt _ 0x80)) by lia. split_and!; [|lia|done|done]. simpl. by rewrite Byte.of_to_N. }
  rewrite (proj2 (N.ltb_ge _ 0x80)) by lia.
  destruct s as [|y s]; [done|].
  destruct (in_range 0xc2 0xdf x && in_range 0x80 0xbf y) eqn:H2.
  { apply andb_true_iff in H2 as [Ha Hb]. rewrite in_range_spec in Ha, Hb.
    rewrite (proj2 (N.ltb_lt _ 0xe0)) by lia. intros Hv. do 2 eexists. split_and!; [| |done|done].
    - unfold utf8_char.
      rewrite (proj2 (N.ltb_ge _ 0x80)), (proj2 (N.ltb_lt _ 0x800)) by lia. simpl.
      f_equal; [|f_equal]; symmetry; apply of_N_to_N; lia.
    - unfold scalar. lia. }
  destruct s as [|z s]; [done|].
  match goal with |- (if ?c then _ else _) = true → _ => destruct c eqn:H3 end.
  { rewrite andb_true_iff, !orb_true_iff, !andb_true_iff, !in_range_spec in H3.
    rewrite (proj2 (N.ltb_ge _ 0xe0)), (proj2 (N.ltb_lt _ 0xf0)) by lia.
    intros Hv. do 2 eexists. split_and!; [| |done|done].
    - unfold utf8_char. rewrite (proj2 (N.ltb_ge _ 0x80)), (proj2 (N.ltb_ge _ 0x800)),
        (proj2 (N.ltb_lt _ 0x10000)) by lia. simpl.
      f_equal; [|f_equal; [|f_equal]]; symmetry; apply of_N_to_N; lia.
    - unfold scalar. lia. }
  destruct s as [|w s]; [done|].
  rewrite !andb_true_iff, !orb_true_iff, !andb_true_iff, !in_range_spec.
  intros [[[H4 H5] H6] Hv]. rewrite (proj2 (N.ltb_ge _ 0xe0)), (proj2 (N.ltb_ge _ 0xf0)) by lia.
  do 2 eexists. split_and!; [| |done|done].
  - unfold utf8_char. rewrite (proj2 (N.ltb_ge _ 0x80)), (proj2 (N.ltb_ge _ 0x800)),
      (proj2 (N.ltb_ge _ 0x10000)) by lia. simpl.
    f_equal; [|f_equal; [|f_equal; [|f_equal]]]; symmetry; apply of_N_to_N; lia.
  - unfold scalar. lia.
Qed.

(** Decoding a valid string yields scalar values and loses nothing. *)
Lemma utf8_chars s :
  utf8_valid s = true → Forall scalar (chars s) ∧ chars s ≫= utf8_char = s.
Proof.
  remember (length s) as n eqn:Hn. revert s Hn.
  induction n as [n IH] using lt_wf_ind; intros [|x s] -> Hv; [done|].
  destruct (utf8_valid_cons x s Hv) as (c & r & Hs & Hc & Hch & Hr).
  destruct (IH (length r)) with (s := r) as [IH1 IH2]; [|done|done|].
  { rewrite Hs, length_app. unfold utf8_char. repeat case_match; simpl; lia. }
  rewrite Hch. split; [by constructor|]. csimpl. by rewrite IH2, <-Hs.
Qed.

Lemma utf8_valid_app a b : utf8_valid a = true → utf8_valid (a ++ b) = utf8_valid b.
Proof.
  remember (length a) as n eqn:Hn. revert a Hn. induction (lt_wf n) as [n _ IH]. intros a -> Ha.
  assert (∀ a', length a' < length a → utf8_valid a' = true → utf8_valid (a' ++ b) = utf8_valid b) as IH'
    by (intros; by eapply IH). clear IH.
  destruct a as [|x a]; [done|]. cbn [utf8_valid app] in *.
  destruct (in_range 0 127 x); [by apply IH'; [simpl; lia|]|].
  destruct a as [|y a]; [done|]. cbn [app] in *.
  destruct (in_range 194 223 x && in_range 128 191 y); [by apply IH'; [simpl; lia|]|].
  destruct a as [|z a]; [done|]. cbn [app] in *.
  case_match eqn:Hc; [by apply IH'; [simpl; lia|]|].
  destruct a as [|v a]; [done|]. cbn [app] in *.
  apply andb_true_iff in Ha as [-> Ha]. by apply IH'; [simpl; lia|].
Qed.

Lemma utf8_valid_join c ls :
  (Byte.to_N c < 0x80)%N → Forall (λ l, utf8_valid l = true) ls → utf8_valid (join_with c ls) = true.
Proof.
  intros Hc. induction 1 as [|l ls Hl Hls IH]; [done|]. destruct ls as [|l' ls]; [done|].
  change (utf8_valid (l ++ c :: join_with c (l' :: ls)) = true). rewrite utf8_valid_app by done.
  cbn [utf8_valid]. assert (in_range 0 0x7f c = true) as -> by (apply in_range_spec; lia).
  exact IH.
Qed.

Lemma chars_inj s t : utf8_valid s = true → utf8_valid t = true → chars s = chars t → s = t.
Proof.
  intros [_ Hs]%utf8_chars [_ Ht]%utf8_chars Heq. by rewrite <-Hs, <-Ht, Heq.
Qed.

(** ** Names that are not UTF-8 *)

(** U+FFFD in UTF-8 *)
Definition REPLACEMENT : bytes := [Byte.xef; Byte.xbf; Byte.xbd].

Definition continuation (x : byte) : bool := in_range 0x80 0xbf x.

(** The second byte of a character of three or of four bytes. *)
Definition second_of_three (x y : byte) : bool :=
  in_range 0xe0 0xe0 x && in_range 0xa0 0xbf y || in_range 0xe1 0xec x && continuation y ||
  in_range 0xed 0xed x && in_range 0x80 0x9f y || in_range 0xee 0xef x && continuation y.
Definition second_of_four (x y : byte) : bool :=
  in_range 0xf0 0xf0 x && in_range 0x90 0xbf y || in_range 0xf1 0xf3 x && continuation y ||
  in_range 0xf4 0xf4 x && in_range 0x80 0x8f y.

(** [OsStr::to_string_lossy]: every longest start of a character that is not
    completed is replaced. *)
Fixpoint to_string_lossy (s : bytes) : bytes :=
  match s with
  | [] => []
  | x :: s1 =>
      if in_range 0x00 0x7f x then x :: to_string_lossy s1
      else match s1 with
      | [] => REPLACEMENT
      | y :: s2 =>
          if in_range 0xc2 0xdf x && continuation y then x :: y :: to_string_lossy s2
          else if second_of_three x y then
            match s2 with
            | [] => REPLACEMENT
            | z :: s3 =>
                if continuation z then x :: y :: z :: to_string_lossy s3 else REPLACEMENT ++ to_string_lossy s2
            end
          else if second_of_four x y then
            match s2 with
            | [] => REPLACEMENT
            | z :: s3 =>
                if continuation z then
                  match s3 with
                  | [] => REPLACEMENT
                  | w :: s4 =>
                      if continuation w then x :: y :: z :: w :: to_string_lossy s4 else REPLACEMENT ++ to_string_lossy s3
                  end
                else REPLACEMENT ++ to_string_lossy s2
            end
          else REPLACEMENT ++ to_string_lossy s1
      end
  end.

Lemma lossy_valid s : utf8_valid s = true → to_string_lossy s = s.
Proof.
  remember (length s) as n eqn:Hn. revert s Hn. induction n as [n IH] using lt_wf_ind. intros [|x s] -> Hv; [done|].
  cbn [utf8_valid to_string_lossy] in *. destruct (in_range 0 0x7f x); [f_equal; apply (IH (length s)); simpl; (lia || done)|].
  destruct s as [|y s]; [done|]. unfold continuation in *.
  destruct (in_range 0xc2 0xdf x && in_range 0x80 0xbf y); [do 2 f_equal; apply (IH (length s)); simpl; (lia || done)|].
  destruct s as [|z s]; [done|]. unfold second_of_three, continuation.
  match goal with |- context [if ?c then match _ with _ => _ end else _] => destruct c eqn:H3 end.
  - cbn [andb] in Hv. destruct (in_range 0x80 0xbf z); cbn [andb] in Hv.
    + do 3 f_equal. apply (IH (length s)); simpl; (lia || done).
    + destruct s as [|w s]; [done|]. rewrite andb_false_r in Hv. done.
  - destruct s as [|w s]; [done|]. cbn [andb] in Hv. unfold second_of_four, continuation.
    apply andb_true_iff in Hv as [[[-> ->]%andb_true_iff ->]%andb_true_iff Hv]. do 4 f_equal. apply (IH (length s)); simpl; (lia || done).
Qed.

(** ** [str::trim]: the UTF-8 encodings of the [White_Space] characters *)

Definition whitespace : list bytes :=
  [[Byte.x09]; [Byte.x0a]; [Byte.x0b]; [Byte.x0c]; [Byte.x0d]; [Byte.x20];
   [Byte.xc2; Byte.x85]; [Byte.xc2; Byte.xa0]; [Byte.xe1; Byte.x9a; Byte.x80];
   [Byte.xe2; Byte.x80; Byte.x80]; [Byte.xe2; Byte.x80; Byte.x81];
   [Byte.xe2; Byte.x80; Byte.x82]; [Byte.xe2; Byte.x80; Byte.x83];
   [Byte.xe2; Byte.x80; Byte.x84]; [Byte.xe2; Byte.x80; Byte.x85];
   [Byte.xe2; Byte.x80; Byte.x86]; [Byte.xe2; Byte.x80; Byte.x87];
   [Byte.xe2; Byte.x80; Byte.x88]; [Byte.xe2; Byte.x80; Byte.x89];
   [Byte.xe2; Byte.x80; Byte.x8a]; [Byte.xe2; Byte.x80; Byte.xa8];
   [Byte.xe2; Byte.x80; Byte.xa9]; [Byte.xe2; Byte.x80; Byte.xaf];
   [Byte.xe2; Byte.x81; Byte.x9f]; [Byte.xe3; Byte.x80; Byte.x80]].

(** The rest of [s] after a leading character of [ws]. *)
Fixpoint strip_any (ws : list bytes) (s : bytes) : option bytes :=
  match ws with
  | [] => None
  | w :: ws => match strip_prefix w s with Some r => Some r | None => strip_any ws s end
  end.

Fixpoint trim_from (fuel : nat) (ws : list bytes) (s : bytes) : bytes :=
  match fuel with
  | O => s
  | S fuel => match strip_any ws s with Some r => trim_from fuel ws r | None => s end
  end.

Definition trim_start (s : bytes) : bytes := trim_from (length s) whitespace s.
Definition trim_end (s : bytes) : bytes :=
  reverse (trim_from (length s) (reverse <$> whitespace) (reverse s)).
Definition trim (s : bytes) : bytes := trim_end (trim_start s).

Lemma strip_any_Some ws s r :
  Forall (.≠ []) ws → strip_any ws s = Some r → ∃ w, w ∈ ws ∧ w ≠ [] ∧ s = w ++ r.
Proof.
  induction 1 as [|w ws Hw _ IH]; simpl; [done|]. intros H.
  destruct (strip_prefix w s) eqn:Hp; simplify_eq.
  - apply strip_prefix_Some in Hp. exists w. set_solver.
  - destruct (IH H) as (w' & ? & ? & ?). exists w'. set_solver.
Qed.

(** Trimming removes a prefix, and leaves nothing more to remove. *)
Lemma trim_from_spec ws fuel s :
  Forall (.≠ []) ws → length s ≤ fuel →
  strip_any ws (trim_from fuel ws s) = None ∧ ∃ p, s = p ++ trim_from fuel ws s.
Proof.
  intros Hws. revert s. induction fuel as [|fuel IH]; intros s Hf; simpl.
  - destruct s; [|simpl in Hf; lia]. split; [|by exists []].
    destruct (strip_any ws []) as [r|] eqn:Hs; [|done].
    apply strip_any_Some in Hs as (w & _ & Hw & Hr); [|done]. by destruct w.
  - destruct (strip_any ws s) as [r|] eqn:Hs; [|split; [done|by exists []]].
    apply strip_any_Some in Hs as (w & _ & Hw & ->); [|done].
    rewrite length_app in Hf. destruct w as [|x w]; [done|]. simpl in Hf.
    destruct (IH r) as (Hn & p & Hp); [lia|]. split; [done|].
    exists ((x :: w) ++ p). by rewrite <-(assoc_L (++)), <-Hp.
Qed.

Lemma trim_infix s : ∃ p q, s = p ++ trim s ++ q.
Proof.
  destruct (trim_from_spec whitespace (length s) s) as (_ & p & Hp);
    [by repeat constructor|done|].
  destruct (trim_from_spec (reverse <$> whitespace) (length (trim_start s)) (reverse (trim_start s)))
    as (_ & q & Hq); [by repeat constructor|by rewrite length_reverse|].
  exists p, (reverse q). unfold trim, trim_end. fold (trim_start s) in Hp.
  by rewrite <-reverse_app, <-Hq, reverse_involutive.
Qed.

(** Trimming keeps a string that starts and ends with other characters. *)
Lemma trim_id s :
  strip_any whitespace s = None → strip_any (reverse <$> whitespace) (reverse s) = None →
  trim s = s.
Proof.
  intros H1 H2. assert (trim_start s = s) as Hs.
  { unfold trim_start. destruct s as [|x s]; [done|]. cbn [length trim_from]. by rewrite H1. }
  unfold trim. rewrite Hs. unfold trim_end.
  destruct (length s); cbn [trim_from]; rewrite ?H2; by rewrite reverse_involutive.
Qed.

(** ** The byte-wise order of strings *)

Fixpoint bytes_ltb (s t : bytes) : bool :=
  match s, t with
  | _, [] => false
  | [], _ :: _ => true
  | x :: s, y :: t =>
      (Byte.to_N x <? Byte.to_N y)%N || (bool_decide (x = y) && bytes_ltb s t)
  end.

Definition bytes_lt (s t : bytes) : Prop := bytes_ltb s t = true.

#[global] Instance bytes_lt_dec s t : Decision (bytes_lt s t) := decide (bytes_ltb s t = true).

Lemma to_N_inj x y : Byte.to_N x = Byte.to_N y → x = y.
Proof. intros H. apply (f_equal Byte.of_N) in H. rewrite !Byte.of_to_N in H. by simplify_eq. Qed.

Lemma bytes_ltb_cons x s y t :
  bytes_ltb (x :: s) (y :: t) = true ↔
  (Byte.to_N x < Byte.to_N y)%N ∨ (x = y ∧ bytes_ltb s t = true).
Proof.
  simpl. by rewrite orb_true_iff, andb_true_iff, N.ltb_lt, bool_decide_eq_true.
Qed.

#[global] Instance bytes_lt_strict : StrictOrder bytes_lt.
Proof.
  split.
  - intros s. unfold complement, bytes_lt. induction s as [|x s IH]; [done|].
    rewrite bytes_ltb_cons. intros [?|[_ ?]]; [lia|auto].
  - intros s t u. unfold bytes_lt. revert t u.
    induction s as [|x s IH]; intros [|y t] [|z u]; try done.
    rewrite !bytes_ltb_cons. intros [?|[-> ?]] [?|[-> ?]]; [left; lia|left; lia|left; lia|].
    right. split; [done|]. eauto.
Qed.

#[global] Instance bytes_lt_trichotomy : TrichotomyT bytes_lt.
Proof.
  intros s t. destruct (bytes_ltb s t) eqn:H1; [by left; left|].
  destruct (decide (s = t)) as [->|Hne]; [by left; right|]. right. unfold bytes_lt.
  revert t H1 Hne. induction s as [|x s IH]; intros [|y t] H1 Hne; try done.
  apply bytes_ltb_cons. apply not_true_iff_false in H1. rewrite bytes_ltb_cons in H1.
  destruct (decide (x = y)) as [->|Hxy].
  - right. split; [done|]. apply IH; [|congruence]. apply not_true_iff_false. naive_solver.
  - left. assert (Byte.to_N x ≠ Byte.to_N y) by (by intros ?%to_N_inj). naive_solver lia.
Defined.

(** ** [BTreeMap<String, V>] *)

Section btree.
Context {V : Type}.
Implicit Types m : list (bytes * V).

(** [insert]: replaces the value of an existing key. *)
Fixpoint bt_insert (k : bytes) (v : V) m : list (bytes * V) :=
  match m with
  | [] => [(k, v)]
  | (k', v') :: m' =>
      if decide (k = k') then (k, v) :: m'
      else if decide (bytes_lt k k') then (k, v) :: m
      else (k', v') :: bt_insert k v m'
  end.

Fixpoint bt_lookup (k : bytes) m : option V :=
  match m with
  | [] => None
  | (k', v) :: m => if decide (k = k') then Some v else bt_lookup k m
  end.

Definition bt_sorted m : Prop := StronglySorted bytes_lt (fst <$> m).

Lemma bt_lookup_insert k v m : bt_lookup k (bt_insert k v m) = Some v.
Proof.
  induction m as [|[k' v'] m IH]; simpl; [by rewrite decide_True|].
  repeat case_decide; simpl; rewrite ?decide_True by done; try done.
  by rewrite decide_False.
Qed.

Lemma bt_lookup_insert_ne k k' v m : k ≠ k' → bt_lookup k' (bt_insert k v m) = bt_lookup k' m.
Proof.
  intros Hne. induction m as [|[k2 v2] m IH]; simpl; [by rewrite decide_False|].
  repeat case_decide; simpl; rewrite ?IH; repeat case_decide; congruence.
Qed.

Lemma bt_insert_keys k v m k' : k' ∈ (bt_insert k v m).*1 ↔ k' = k ∨ k' ∈ m.*1.
Proof.
  induction m as [|[k2 v2] m IH]; csimpl; [set_solver|].
  repeat case_decide; csimpl; subst; set_solver.
Qed.

Lemma bt_insert_sorted k v m : bt_sorted m → bt_sorted (bt_insert k v m).
Proof.
  unfold bt_sorted. induction m as [|[k' v'] m IH]; intros Hs; csimpl; [by repeat constructor|].
  inversion Hs as [|? ? Hs' Hf]; subst. repeat case_decide; csimpl.
  - subst. by constructor.
  - constructor; [done|]. constructor; [done|].
    eapply Forall_impl; [done|]. intros. by etrans.
  - constructor; [by apply IH|]. apply Forall_forall. intros k2 Hk2.
    apply bt_insert_keys in Hk2 as [->|Hk2].
    + destruct (trichotomyT bytes_lt k k') as [[?|?]|?]; done.
    + rewrite Forall_forall in Hf. auto.
Qed.

Lemma bt_lookup_elem m k v : bt_sorted m → bt_lookup k m = Some v ↔ (k, v) ∈ m.
Proof.
  unfold bt_sorted. induction m as [|[k' v'] m IH]; intros Hs; simpl; [set_solver|].
  inversion Hs as [|? ? Hs' Hf]; subst. rewrite elem_of_cons. case_decide as Hk.
  - subst k'. split; [intros; simplify_eq; by left|]. intros [?|Hin]; [by simplify_eq|].
    rewrite Forall_forall in Hf. apply (list_elem_of_fmap_2 fst) in Hin. simpl in Hin.
    apply Hf in Hin. by apply irreflexivity in Hin; [|apply _].
  - rewrite IH by done. naive_solver.
Qed.
End btree.

(** ** Number formats *)

Definition LOWER_HEX : bytes := lit "0123456789abcdef".

(** [LOWER_HEX[d]]; [None] would be an index panic. *)
Definition hex_char (d : N) : byte := default nul (LOWER_HEX !! N.to_nat d).

(** The digits of [n], most significant first; the recursion stops after at most
    [N.size_nat n] divisions. *)
Fixpoint digits_from (base : N) (fuel : nat) (n : N) (acc : list N) : list N :=
  let acc := (n mod base)%N :: acc in
  match fuel with
  | O => acc
  | S fuel => if (n <? base)%N then acc else digits_from base fuel (n / base) acc
  end.

Definition digits (base n : N) : list N := digits_from base (N.size_nat n) n [].

(** The number a digit sequence denotes. *)
Definition undigits (base : N) (ds : list N) : N := foldl (λ v d, v * base + d)%N 0%N ds.

(** [format!("{:0w}")] of the digits. *)
Definition pad (w : nat) (s : bytes) : bytes := replicate (w - length s) Byte.x30 ++ s.

Definition fmt_num (base n : N) : bytes := hex_char <$> digits base n.

(** [{:06}] of an [i64] and [{:08x}] of a [u64]. *)
Definition fmt_06 (v : Z) : bytes :=
  if decide (v < 0)%Z then Byte.x2d :: pad 5 (fmt_num 10 (Z.to_N (- v)))
  else pad 6 (fmt_num 10 (Z.to_N v)).
Definition fmt_08x (n : N) : bytes := pad 8 (fmt_num 16 n).

(** [n.to_string()] *)
Definition fmt_dec (n : N) : bytes := fmt_num 10 n.

(** The digit a character of [LOWER_HEX] stands for. *)
Definition char_digit (x : byte) : N :=
  default 0%N ((λ p, N.of_nat p.1) <$> list_find (λ y, y = x) LOWER_HEX).

Lemma undigits_acc base fuel n acc :
  (1 < base)%N → (n < 2 ^ N.of_nat fuel * base)%N →
  undigits base (digits_from base fuel n acc) = foldl (λ v d, v * base + d)%N n acc.
Proof.
  intros Hb. revert n acc. induction fuel as [|fuel IH]; intros n acc Hn.
  - simpl in Hn. unfold undigits. cbn [digits_from foldl]. f_equal.
    rewrite N.mod_small by lia. lia.
  - cbn [digits_from]. destruct (N.ltb_spec n base) as [Hlt|Hge].
    + unfold undigits. cbn [foldl]. f_equal. rewrite N.mod_small by lia. lia.
    + rewrite IH.
      * cbn [foldl]. f_equal. rewrite (N.mul_comm (n / base)). symmetry. apply N.div_mod. lia.
      * apply N.Div0.div_lt_upper_bound. rewrite Nat2N.inj_succ, N.pow_succ_r' in Hn.
        assert (2 * 2 ^ N.of_nat fuel * base ≤ base * (2 ^ N.of_nat fuel * base))%N by nia. lia.
Qed.

(** Printing loses nothing. *)
Lemma undigits_digits base n : (1 < base)%N → undigits base (digits base n) = n.
Proof.
  intros Hb. unfold digits. rewrite undigits_acc; [done|done|].
  pose proof (N.size_gt n) as Hn.
  assert (N.of_nat (N.size_nat n) = N.size n) as ->.
  { clear. destruct n as [|p]; [done|]. cbn [N.size_nat N.size].
    induction p; cbn [Pos.size_nat Pos.size]; lia. }
  nia.
Qed.

Lemma undigits_replicate base k ds : undigits base (replicate k 0%N ++ ds) = undigits base ds.
Proof.
  unfold undigits. rewrite foldl_app. f_equal. induction k as [|k IH]; [done|]. simpl. done.
Qed.

Lemma digits_from_lt base fuel n acc :
  (0 < base)%N → Forall (λ d, d < base)%N acc →
  Forall (λ d, d < base)%N (digits_from base fuel n acc).
Proof.
  intros Hb. revert n acc. induction fuel as [|fuel IH]; intros n acc Ha; simpl.
  - constructor; [apply N.mod_lt; lia|done].
  - assert (Forall (λ d, d < base)%N ((n mod base)%N :: acc)) by
      (constructor; [apply N.mod_lt; lia|done]).
    destruct (n <? base)%N; auto.
Qed.

Lemma char_digit_hex_char d : (d < 16)%N → char_digit (hex_char d) = d.
Proof.
  intros Hd. assert (Forall (λ d, char_digit (hex_char d) = d) (N.of_nat <$> seq 0 16)) as Hall
    by (repeat constructor).
  rewrite Forall_forall in Hall. apply Hall, list_elem_of_fmap.
  exists (N.to_nat d). split; [lia|]. apply elem_of_seq. lia.
Qed.

Lemma fmt_num_digits base n :
  (1 < base ≤ 16)%N → char_digit <$> fmt_num base n = digits base n.
Proof.
  intros Hb. unfold fmt_num. rewrite <-list_fmap_compose. rewrite <-(list_fmap_id (digits base n)) at 2.
  apply list_fmap_ext. intros i d Hd. apply char_digit_hex_char.
  assert (Forall (λ d, d < base)%N (digits base n)) as Hf by (apply digits_from_lt; [lia|done]).
  rewrite Forall_lookup in Hf. specialize (Hf _ _ Hd). cbn in *. unfold id. lia.
Qed.

(** The padded formats are injective, whatever the width. *)
Lemma pad_fmt_inj w base n m :
  (1 < base ≤ 16)%N → pad w (fmt_num base n) = pad w (fmt_num base m) → n = m.
Proof.
  intros Hb Heq. apply (f_equal (λ s, undigits base (char_digit <$> s))) in Heq.
  unfold pad in Heq. rewrite !fmap_app, !fmap_replicate, !fmt_num_digits in Heq by done.
  change (char_digit Byte.x30) with 0%N in Heq.
  rewrite !undigits_replicate in Heq. by rewrite !undigits_digits in Heq by apply Hb.
Qed.

Lemma fmt_08x_inj n m : fmt_08x n = fmt_08x m → n = m.
Proof. apply pad_fmt_inj. lia. Qed.

(** A number below [base ^ k] has at most [k] digits. *)
Lemma length_digits_from base fuel n acc k :
  (1 < base)%N → (n < base ^ N.of_nat k)%N → 1 ≤ k →
  length (digits_from base fuel n acc) ≤ length acc + k.
Proof.
  intros Hb. revert n acc k. induction fuel as [|fuel IH]; intros n acc k Hn Hk; simpl; [lia|].
  destruct (N.ltb_spec n base) as [Hlt|Hge]; [simpl; lia|].
  destruct k as [|[|k]]; [lia|simpl in Hn; lia|].
  etrans; [apply (IH _ _ (S k))|simpl; lia]; [|lia].
  apply N.Div0.div_lt_upper_bound. by rewrite Nat2N.inj_succ, N.pow_succ_r' in Hn.
Qed.

Lemma length_pad_fmt w base n :
  (1 < base)%N → (n < base ^ N.of_nat w)%N → 1 ≤ w → length (pad w (fmt_num base n)) = w.
Proof.
  intros Hb Hn Hw. unfold pad, fmt_num. rewrite length_app, length_replicate, length_fmap.
  pose proof (length_digits_from base (N.size_nat n) n [] w Hb Hn Hw) as Hl.
  unfold digits. simpl in Hl. lia.
Qed.
