(* ===== verification/Diff.v ===== *)
(** * Line diff of [publish/merge.rs]

    [diff] is the greedy Myers algorithm of
    [crates/sandbox-runtime/layerstack/src/stack/publish/merge.rs] with its
    [V] vector, per-round trace and [backtrack]; [regions] groups an edit
    script into replaced base ranges.  Every vector access goes through
    [zget]/[zset], so [None] is a Rust panic and the theorems show there is
    none.  The element type is any type with decidable equality (the code has
    byte slices). *)

From S2P Require Import Prelude.

(** [enum Kind { Eq, Del, Ins }] *)
Inductive Kind := KEq | KDel | KIns.

(** [struct EditOp { kind, b }] *)
Record EditOp := mkOp { op_kind : Kind; op_b : nat }.

(** [struct Region { b0, b1, repl }] *)
Record Region := mkRegion { b0 : nat; b1 : nat; repl : list nat }.

#[global] Instance Kind_eq_dec : EqDecision Kind.
Proof. solve_decision. Defined.
#[global] Instance EditOp_eq_dec : EqDecision EditOp.
Proof. solve_decision. Defined.
#[global] Instance Region_eq_dec : EqDecision Region.
Proof. solve_decision. Defined.

Definition MYERS_MAX_D : Z := 200000.

Section diff.
Context {A : Type} `{!EqDecision A}.
Implicit Types a b : list A.
Implicit Types v : list Z.

(** The test shared by the forward pass and [backtrack]:
    [k == -d || (k != d && v[k - 1 + off] < v[k + 1 + off])]. *)
Definition go_down (v : list Z) (off d k : Z) : option bool :=
  if decide (k = - d)%Z then Some true
  else if decide (k = d) then Some false
  else l ← zget v (k - 1 + off); r ← zget v (k + 1 + off); Some (bool_decide (l < r)%Z).

(** [while x < n && y < m && a[x] == b[y] { x += 1; y += 1; }] *)
Fixpoint snake (fuel : nat) (a b : list A) (x y : Z) : option (Z * Z) :=
  match fuel with
  | O => None
  | S fuel =>
      if decide (x < Z.of_nat (length a) ∧ y < Z.of_nat (length b))%Z then
        p ← zget a x; q ← zget b y;
        if decide (p = q) then snake fuel a b (x + 1) (y + 1) else Some (x, y)
      else Some (x, y)
  end.

(** [let mut x = if .. { v[k + 1 + off] } else { v[k - 1 + off] + 1 };] *)
Definition start_x (v : list Z) (off d k : Z) : option Z :=
  down ← go_down v off d k;
  if (down : bool) then zget v (k + 1 + off)
  else x ← zget v (k - 1 + off); Some (x + 1)%Z.

(** The body of [while k <= d], for one [k]. *)
Definition k_step (a b : list A) (off d k : Z) (v : list Z) : option (list Z * bool) :=
  x ← start_x v off d k;
  '(x, y) ← snake (S (length a)) a b x (x - k);
  v ← zset v (k + off) x;
  Some (v, bool_decide (Z.of_nat (length a) ≤ x ∧ Z.of_nat (length b) ≤ y)%Z).

(** [while k <= d { ..; k += 2; }], stopping at the first reached end. *)
Fixpoint k_loop (fuel : nat) (a b : list A) (off d k : Z) (v : list Z)
    : option (list Z * bool) :=
  match fuel with
  | O => None
  | S fuel =>
      if decide (k ≤ d)%Z then
        '(v, reached) ← k_step a b off d k v;
        if (reached : bool) then Some (v, true) else k_loop fuel a b off d (k + 2) v
      else Some (v, false)
  end.

(** [for d in 0..=max { trace.push(v.clone()); ..; if reached { break; } }];
    [rounds] counts the remaining values of [d]. *)
Fixpoint d_loop (rounds : nat) (a b : list A) (off d : Z) (v : list Z)
    (trace : list (list Z)) : option (bool * list (list Z)) :=
  match rounds with
  | O => Some (false, trace)
  | S rounds =>
      '(v', reached) ← k_loop (S (S (Z.to_nat d))) a b off d (- d) v;
      if (reached : bool) then Some (true, trace ++ [v])
      else d_loop rounds a b off (d + 1) v' (trace ++ [v])
  end.

(** [while x > prev_x && y > prev_y] of [backtrack]. *)
Fixpoint unsnake (fuel : nat) (prev_x prev_y x y : Z) (ops : list EditOp)
    : option (Z * Z * list EditOp) :=
  match fuel with
  | O => None
  | S fuel =>
      if decide (prev_x < x ∧ prev_y < y)%Z then
        unsnake fuel prev_x prev_y (x - 1) (y - 1) (mkOp KEq (Z.to_nat (y - 1)) :: ops)
      else Some (x, y, ops)
  end.

(** One round of [backtrack].  [ops] holds the pushed operations last first:
    the vector is only pushed to and reversed at the end. *)
Definition back_step (off d : Z) (v : list Z) (x y : Z) (ops : list EditOp)
    : option (Z * Z * list EditOp) :=
  let k := (x - y)%Z in
  down ← go_down v off d k;
  let prev_k := if (down : bool) then (k + 1)%Z else (k - 1)%Z in
  prev_x ← zget v (prev_k + off);
  let prev_y := (prev_x - prev_k)%Z in
  '(x, y, ops) ← unsnake (S (Z.to_nat x)) prev_x prev_y x y ops;
  let ops :=
    if decide (0 < d)%Z then
      (if decide (x = prev_x) then mkOp KIns (Z.to_nat (y - 1)) else mkOp KDel 0) :: ops
    else ops in
  Some (prev_x, prev_y, ops).

(** [for d in (0..trace.len()).rev()]: [rtrace] is the reversed trace and
    [length rtrace - 1] the current [d]. *)
Fixpoint back_loop (rtrace : list (list Z)) (off x y : Z) (ops : list EditOp)
    : option (list EditOp) :=
  match rtrace with
  | [] => Some ops
  | v :: rest =>
      '(x, y, ops) ← back_step off (Z.of_nat (length rest)) v x y ops;
      back_loop rest off x y ops
  end.

Definition backtrack (a b : list A) (trace : list (list Z)) (off : Z)
    : option (list EditOp) :=
  back_loop (reverse trace) off (Z.of_nat (length a)) (Z.of_nat (length b)) [].

Definition dels (n : nat) : list EditOp := replicate n (mkOp KDel 0).
Definition inss (n : nat) : list EditOp := mkOp KIns <$> seq 0 n.

Definition diff (a b : list A) : option (list EditOp) :=
  match a, b with
  | [], [] => Some []
  | [], _ => Some (inss (length b))
  | _, [] => Some (dels (length a))
  | _, _ =>
      let max := Z.min (Z.of_nat (length a) + Z.of_nat (length b)) MYERS_MAX_D in
      let off := max in
      let v := replicate (Z.to_nat (2 * max + 1)) 0%Z in
      '(reached, trace) ← d_loop (Z.to_nat (max + 1)) a b off 0 v [];
      if (reached : bool) then backtrack a b trace off
      else Some (dels (length a) ++ inss (length b))
  end.
End diff.

(** [regions]: the loop state is the closed regions, the base index and the
    open region ([get_or_insert]). *)
Definition region_step (st : list Region * nat * option Region) (op : EditOp)
    : list Region * nat * option Region :=
  let '(out, bi, open) := st in
  let r := default (mkRegion bi bi []) open in
  match op_kind op with
  | KEq => (out ++ option_list open, S bi, None)
  | KDel => (out, S bi, Some (mkRegion (b0 r) (bi + 1) (repl r)))
  | KIns => (out, bi, Some (mkRegion (b0 r) (b1 r) (repl r ++ [op_b op])))
  end.

Definition regions (ops : list EditOp) : list Region :=
  let '(out, _, open) := foldl region_step ([], 0, None) ops in
  out ++ option_list open.

(** ** Edit scripts

    [script a b i j ops]: [ops] turns [drop i a] into [drop j b]; every [KEq]
    and [KIns] names the position in [b] it is at. *)
Inductive script {A} (a b : list A) : nat → nat → list EditOp → Prop :=
| script_nil : script a b (length a) (length b) []
| script_eq i j c ops :
    a !! i = Some c → b !! j = Some c → script a b (S i) (S j) ops →
    script a b i j (mkOp KEq j :: ops)
| script_del i j ops :
    i < length a → script a b (S i) j ops → script a b i j (mkOp KDel 0 :: ops)
| script_ins i j ops :
    j < length b → script a b i (S j) ops → script a b i j (mkOp KIns j :: ops).

(** The number of deletions and insertions of a script. *)
Definition edits (ops : list EditOp) : nat :=
  length (filter (λ op, op_kind op ≠ KEq) ops).

(** ** The forward pass *)

Section forward.
Context {A : Type} `{!EqDecision A} (a b : list A) (off : Z).
Implicit Types v : list Z.

Local Abbreviation n := (Z.of_nat (length a)).
Local Abbreviation m := (Z.of_nat (length b)).

(** The entry of diagonal [k], and the diagonals of round [d]. *)
Definition V (v : list Z) (k : Z) : Z := default 0%Z (zget v (k + off)).
Definition diag (d k : Z) : Prop := ∃ j, (0 ≤ j ≤ d ∧ k = 2 * j - d)%Z.

(** [x] is the furthest point of diagonal [k] in round [d], from vector [v]. *)
Definition fwd (v : list Z) (d k x : Z) : Prop :=
  ∃ xs, start_x v off d k = Some xs ∧ (0 ≤ xs ≤ x ∧ k ≤ xs)%Z ∧
    (∀ t, (xs ≤ t < x)%Z → ∃ c, zget a t = Some c ∧ zget b (t - k) = Some c) ∧
    ¬ (x < n ∧ x - k < m ∧ zget a x = zget b (x - k))%Z.

(** What the vector satisfies at the start of round [d]: its entries of the
    parity of [d - 1] are round [d - 1]'s, the others round [d - 2]'s. *)
Record Inv (d : Z) (v : list Z) : Prop := {
  inv_len : (Z.of_nat (length v) = 2 * off + 1)%Z;
  inv_zero : d = 0%Z → V v 1 = 0%Z;
  inv_low : ∀ k, diag (d - 1) k → (Z.max 0 k ≤ V v k)%Z;
  inv_nr : ∀ k, diag (d - 1) k → ¬ (n ≤ V v k ∧ m ≤ V v k - k)%Z;
  inv_domD : ∀ k, diag (d - 1) k → diag (d - 2) (k - 1) → (V v (k - 1) + 1 ≤ V v k)%Z;
  inv_domI : ∀ k, diag (d - 1) k → diag (d - 2) (k + 1) → (V v (k + 1) ≤ V v k)%Z;
  inv_Qy : ∀ k, diag (d - 1) k → (m < V v k - k)%Z →
    diag (d - 2) (k + 1) ∧ (V v k ≤ V v (k + 1))%Z;
  inv_Qx : ∀ k, diag (d - 1) k → (n < V v k)%Z →
    diag (d - 2) (k - 1) ∧ (V v k - 1 ≤ V v (k - 1))%Z;
}.

Lemma diag_bounds d k : diag d k → (- d ≤ k ≤ d)%Z.
Proof. intros (j & ? & ->). lia. Qed.

Lemma zget_V v k :
  (Z.of_nat (length v) = 2 * off + 1)%Z → (- off ≤ k ≤ off)%Z →
  zget v (k + off) = Some (V v k).
Proof.
  intros Hlen Hk. unfold V. destruct (zget_is_Some v (k + off)) as [x Hx]; [lia|].
  by rewrite Hx.
Qed.

(** The three ways a round starts on a diagonal. *)
Inductive start_case (v : list Z) (d k xs : Z) : Prop :=
| start_first : d = 0%Z → k = 0%Z → xs = 0%Z → start_case v d k xs
| start_down :
    (0 < d)%Z → diag (d - 1) (k + 1) → xs = V v (k + 1) →
    (diag (d - 1) (k - 1) → V v (k - 1) + 1 ≤ xs)%Z → go_down v off d k = Some true →
    start_case v d k xs
| start_right :
    (0 < d)%Z → diag (d - 1) (k - 1) → xs = (V v (k - 1) + 1)%Z →
    (diag (d - 1) (k + 1) → V v (k + 1) < xs)%Z → go_down v off d k = Some false →
    start_case v d k xs.

Lemma start_x_case v d k :
  Inv d v → (0 ≤ d ≤ off)%Z → (0 < off)%Z → diag d k →
  ∃ xs, start_x v off d k = Some xs ∧ start_case v d k xs.
Proof.
  intros Hinv Hd Hoff Hk. pose proof (diag_bounds _ _ Hk) as Hb.
  pose proof (inv_len _ _ Hinv) as Hlen.
  unfold start_x, go_down. destruct (decide (k = - d)%Z) as [->|Hne]; simpl.
  { rewrite zget_V by lia. eexists; split; [done|].
    destruct (decide (d = 0)%Z) as [->|].
    - apply start_first; [done|done|]. by apply (inv_zero _ _ Hinv).
    - apply start_down; [lia|exists 0%Z; lia|done| |].
      + intros [j ?]. lia.
      + unfold go_down. by rewrite decide_True. }
  destruct (decide (k = d)) as [->|Hne']; simpl.
  { rewrite zget_V by lia. simpl. eexists; split; [done|].
    apply start_right; [lia|exists (d - 1)%Z; lia|done| |].
    - intros [j ?]. lia.
    - unfold go_down. rewrite decide_False by lia. by rewrite decide_True. }
  rewrite !zget_V by lia. simpl.
  destruct Hk as (j & Hj & ->).
  case_bool_decide as Hlt; simpl.
  - eexists; split; [done|].
    apply start_down; [lia|exists j; lia|done|lia|].
    unfold go_down. rewrite !decide_False by lia. rewrite !zget_V by lia. simpl.
    by rewrite bool_decide_true.
  - eexists; split; [done|].
    apply start_right; [lia|exists (j - 1)%Z; lia|done|lia|].
    unfold go_down. rewrite !decide_False by lia. rewrite !zget_V by lia. simpl.
    by rewrite bool_decide_false.
Qed.

Lemma snake_spec fuel x y :
  (0 ≤ x ∧ 0 ≤ y ∧ n - x < Z.of_nat fuel)%Z → 0 < fuel →
  ∃ x', snake fuel a b x y = Some (x', x' - x + y)%Z ∧ (x ≤ x')%Z ∧
    (∀ t, (x ≤ t < x')%Z → ∃ c, zget a t = Some c ∧ zget b (t - x + y) = Some c) ∧
    ¬ (x' < n ∧ x' - x + y < m ∧ zget a x' = zget b (x' - x + y))%Z.
Proof.
  revert x y. induction fuel as [|fuel IH]; intros x y Hb Hf; [lia|]. simpl.
  case_decide as Hin; [|exists x; split_and!; [do 2 f_equal; lia|lia|lia|lia]].
  destruct (zget_is_Some a x) as [p Hp]; [lia|].
  destruct (zget_is_Some b y) as [q Hq]; [lia|].
  rewrite Hp, Hq; simpl. case_decide as Hpq; [subst q|].
  - destruct (IH (x + 1) (y + 1))%Z as (x' & -> & Hx' & Heq & Hmax); [lia|lia|].
    exists x'. split_and!; [do 2 f_equal; lia|lia| |].
    + intros t Ht. destruct (decide (t = x)) as [->|].
      * exists p. split; [done|]. by replace (x - x + y)%Z with y by lia.
      * destruct (Heq t) as (c & ? & ?); [lia|]. exists c. split; [done|].
        by replace (t - x + y)%Z with (t - (x + 1) + (y + 1))%Z by lia.
    + by replace (x' - x + y)%Z with (x' - (x + 1) + (y + 1))%Z by lia.
  - exists x. split_and!; [do 2 f_equal; lia|lia|lia|].
    replace (x - x + y)%Z with y by lia. rewrite Hp, Hq. naive_solver.
Qed.

(** A point reached in round [d] inherits bounds from round [d - 1]: a point
    outside the grid is dominated by a neighbour that is. *)
Lemma fwd_facts v d k x :
  Inv d v → (0 ≤ d ≤ off)%Z → (0 < off)%Z → diag d k → fwd v d k x →
  (Z.max 0 k ≤ x)%Z ∧
  (diag (d - 1) (k - 1) → V v (k - 1) + 1 ≤ x)%Z ∧
  (diag (d - 1) (k + 1) → V v (k + 1) ≤ x)%Z ∧
  (m < x - k → diag (d - 1) (k + 1) ∧ x ≤ V v (k + 1))%Z ∧
  (n < x → diag (d - 1) (k - 1) ∧ x - 1 ≤ V v (k - 1))%Z.
Proof.
  intros Hinv Hd Hoff Hk (xs & Hxs & Hlow & Heq & _).
  destruct (start_x_case v d k) as (xs' & Hxs' & Hcase); [done..|]. simplify_eq.
  assert (Hin : (xs < x → x ≤ n ∧ x - k ≤ m)%Z).
  { intros ?. destruct (Heq (x - 1)%Z) as (c & [? Ha%lookup_lt_Some]%zget_Some
      & [? Hb%lookup_lt_Some]%zget_Some); lia. }
  split; [lia|].
  destruct Hcase as [-> -> -> |? Hk1 -> Hdom _|? Hk1 -> Hdom _].
  - split_and!; [by intros [??]; lia|by intros [??]; lia|lia|lia].
  - split_and!; [intros Hk2; specialize (Hdom Hk2); lia|lia|intros; split; [done|lia]|].
    intros Hx.
    assert (x = V v (k + 1)) as -> by lia.
    destruct (inv_Qx _ _ Hinv (k + 1)) as [Hk2 HV]; [done|lia|].
    replace (k + 1 - 1)%Z with k in * by lia.
    assert (diag (d - 1) (k - 1)) as Hk3.
    { destruct Hk2 as (j & ? & ->). exists j. lia. }
    split; [done|].
    pose proof (inv_domI _ _ Hinv (k - 1) Hk3) as Hd'.
    replace (k - 1 + 1)%Z with k in Hd' by lia. specialize (Hd' Hk2). lia.
  - split_and!; [lia| |..].
    + intros Hk2. specialize (Hdom Hk2). lia.
    + intros Hy. assert (x = V v (k - 1) + 1)%Z as -> by lia.
      destruct (inv_Qy _ _ Hinv (k - 1)) as [Hk2 HV]; [done|lia|].
      replace (k - 1 + 1)%Z with k in * by lia.
      assert (diag (d - 1) (k + 1)) as Hk3.
      { destruct Hk2 as (j & ? & ->). exists (j + 1)%Z. lia. }
      split; [done|].
      pose proof (inv_domD _ _ Hinv (k + 1) Hk3) as Hd'.
      replace (k + 1 - 1)%Z with k in Hd' by lia. specialize (Hd' Hk2). lia.
    + intros. split; [done|lia].
Qed.

(** The first point at or beyond the far corner is the corner. *)
Lemma fwd_reached v d k x :
  Inv d v → (0 ≤ d ≤ off)%Z → (0 < off)%Z → diag d k → fwd v d k x →
  (n ≤ x ∧ m ≤ x - k)%Z → x = n ∧ (x - k)%Z = m.
Proof.
  intros Hinv Hd Hoff Hk Hf [Hx Hy].
  destruct (fwd_facts v d k x) as (_ & _ & _ & HQy & HQx); [done..|].
  split.
  - destruct (decide (n < x)%Z) as [Hlt|]; [|lia].
    destruct (HQx Hlt) as [Hk' ?]. destruct (inv_nr _ _ Hinv _ Hk'). lia.
  - destruct (decide (m < x - k)%Z) as [Hlt|]; [|lia].
    destruct (HQy Hlt) as [Hk' ?]. destruct (inv_nr _ _ Hinv _ Hk'). lia.
Qed.

(** The vector in the middle of round [d], before diagonal [k]. *)
Record Mid (d : Z) (v0 : list Z) (k : Z) (v : list Z) : Prop := {
  mid_len : length v = length v0;
  mid_done : ∀ k', (k' < k)%Z → diag d k' →
    fwd v0 d k' (V v k') ∧ ¬ (n ≤ V v k' ∧ m ≤ V v k' - k')%Z;
  mid_rest : ∀ k', ¬ ((k' < k)%Z ∧ diag d k') → zget v (k' + off) = zget v0 (k' + off);
}.

Lemma start_x_mid d v0 k v :
  Mid d v0 k v → diag d k → start_x v off d k = start_x v0 off d k.
Proof.
  intros Hmid (j & ? & ->).
  assert (∀ s, (s = 1 ∨ s = -1)%Z →
    zget v (2 * j - d + s + off) = zget v0 (2 * j - d + s + off)) as Hsame.
  { intros s Hs. apply (mid_rest _ _ _ _ Hmid). intros [_ (j' & ? & ?)]. lia. }
  unfold start_x, go_down.
  pose proof (Hsame 1%Z ltac:(lia)) as H1. pose proof (Hsame (-1)%Z ltac:(lia)) as H2.
  replace (2 * j - d + -1 + off)%Z with (2 * j - d - 1 + off)%Z in H2 by lia.
  by rewrite H1, H2.
Qed.

Lemma k_step_spec d v0 k v :
  Inv d v0 → (0 ≤ d ≤ off)%Z → (0 < off)%Z → Mid d v0 k v → diag d k →
  ∃ v' r, k_step a b off d k v = Some (v', r) ∧
    if (r : bool) then ∃ x, fwd v0 d k x ∧ (n ≤ x ∧ m ≤ x - k)%Z
    else Mid d v0 (k + 2) v'.
Proof.
  intros Hinv Hd Hoff Hmid Hk.
  destruct (start_x_case v0 d k) as (xs & Hxs & Hcase); [done..|].
  assert (0 ≤ xs ∧ k ≤ xs)%Z as Hlow.
  { destruct Hcase as [-> -> -> |? Hk1 -> _ _|? Hk1 -> _ _]; [lia|..];
      pose proof (inv_low _ _ Hinv _ Hk1); lia. }
  unfold k_step. rewrite (start_x_mid d v0 k v), Hxs by done. cbn [mbind option_bind].
  destruct (snake_spec (S (length a)) xs (xs - k)) as (x & Hs & Hx & Heq & Hmax); [lia|lia|].
  rewrite Hs. simpl. replace (x - xs + (xs - k))%Z with (x - k)%Z in * by lia.
  assert (fwd v0 d k x) as Hf.
  { exists xs. split_and!; [done|lia..| |done]. intros t Ht.
    destruct (Heq t Ht) as (c & ? & ?). exists c. split; [done|].
    by replace (t - k)%Z with (t - xs + (xs - k))%Z by lia. }
  pose proof (diag_bounds _ _ Hk) as Hb. pose proof (inv_len _ _ Hinv) as Hlen.
  pose proof (mid_len _ _ _ _ Hmid) as Hlen'.
  rewrite zset_Some by lia. simpl. do 2 eexists. split; [done|].
  case_bool_decide as Hr; [by exists x|].
  assert (∀ k', (k' = k ∧ V (<[Z.to_nat (k + off):=x]> v) k' = x) ∨
    (k' ≠ k ∧ zget (<[Z.to_nat (k + off):=x]> v) (k' + off) = zget v (k' + off))) as Hget.
  { intros k'. destruct (decide (k' = k)) as [->|]; [left|right].
    - split; [done|]. unfold V. by rewrite zget_insert_eq by lia.
    - split; [done|]. apply zget_insert_ne; lia. }
  constructor.
  - by rewrite length_insert.
  - intros k' Hlt Hk'. destruct (Hget k') as [[-> ->]|[Hne HV]]; [done|].
    unfold V. rewrite HV. apply (mid_done _ _ _ _ Hmid); [|done].
    destruct Hk as (j & ? & ->), Hk' as (j' & ? & ->). lia.
  - intros k' Hn. destruct (Hget k') as [[-> _]|[Hne ->]].
    + destruct Hn. split; [lia|done].
    + apply (mid_rest _ _ _ _ Hmid). intros [??]. destruct Hn. split; [lia|done].
Qed.

Lemma k_loop_spec d v0 : Inv d v0 → (0 ≤ d ≤ off)%Z → (0 < off)%Z →
  ∀ fuel k v, Mid d v0 k v → (diag d k ∨ k = d + 2)%Z → (d - k + 2 < 2 * Z.of_nat fuel)%Z →
  ∃ v' r, k_loop fuel a b off d k v = Some (v', r) ∧
    if (r : bool) then ∃ k x, diag d k ∧ fwd v0 d k x ∧ (n ≤ x ∧ m ≤ x - k)%Z
    else Mid d v0 (d + 2) v'.
Proof.
  intros Hinv Hd Hoff fuel. induction fuel as [|fuel IH]; intros k v Hmid Hk Hf.
  { destruct Hk as [?%diag_bounds|]; lia. }
  simpl. case_decide as Hle.
  - destruct Hk as [Hk|]; [|lia].
    destruct (k_step_spec d v0 k v) as (v' & r & -> & Hr); [done..|]. simpl.
    destruct r.
    + destruct Hr as (x & ? & ?). do 2 eexists. split; [done|]. by exists k, x.
    + apply IH; [done| |lia]. destruct Hk as (j & ? & ->).
      destruct (decide (j = d)) as [->|]; [right; lia|left; exists (j + 1)%Z; lia].
  - destruct Hk as [Hk%diag_bounds| ->]; [lia|]. do 2 eexists. split; [done|]. done.
Qed.

(** A round that does not reach the corner establishes the next invariant. *)
Lemma Inv_step d v0 v :
  Inv d v0 → (0 ≤ d ≤ off)%Z → (0 < off)%Z → Mid d v0 (d + 2) v → Inv (d + 1) v.
Proof.
  intros Hinv Hd Hoff Hmid.
  assert (∀ k, diag d k → fwd v0 d k (V v k) ∧ ¬ (n ≤ V v k ∧ m ≤ V v k - k)%Z) as Hdone.
  { intros k Hk. apply (mid_done _ _ _ _ Hmid); [|done]. apply diag_bounds in Hk. lia. }
  assert (∀ k, diag (d - 1) k → V v k = V v0 k) as Hold.
  { intros k (j & ? & ->). unfold V.
    by rewrite (mid_rest _ _ _ _ Hmid) by (intros [_ (j' & ? & ?)]; lia). }
  pose proof (λ k Hk, fwd_facts v0 d k (V v k) Hinv Hd Hoff Hk (proj1 (Hdone k Hk)))
    as Hfacts.
  replace d with (d + 1 - 1)%Z in Hdone, Hfacts by lia.
  constructor; replace (d + 1 - 2)%Z with (d - 1)%Z by lia.
  - rewrite (mid_len _ _ _ _ Hmid). apply (inv_len _ _ Hinv).
  - lia.
  - intros k Hk. by apply Hfacts.
  - intros k Hk. by apply Hdone.
  - intros k Hk Hk'. rewrite (Hold (k - 1)%Z) by done.
    apply Hfacts; [done|]. by replace (d + 1 - 1 - 1)%Z with (d - 1)%Z by lia.
  - intros k Hk Hk'. rewrite (Hold (k + 1)%Z) by done.
    apply Hfacts; [done|]. by replace (d + 1 - 1 - 1)%Z with (d - 1)%Z by lia.
  - intros k Hk Hy. destruct (Hfacts k Hk) as (_ & _ & _ & HQ & _).
    replace (d + 1 - 1 - 1)%Z with (d - 1)%Z in HQ by lia.
    destruct (HQ Hy) as [Hk' ?]. by rewrite (Hold (k + 1)%Z).
  - intros k Hk Hx. destruct (Hfacts k Hk) as (_ & _ & _ & _ & HQ).
    replace (d + 1 - 1 - 1)%Z with (d - 1)%Z in HQ by lia.
    destruct (HQ Hx) as [Hk' ?]. by rewrite (Hold (k - 1)%Z).
Qed.

(** The trace, newest vector first: consecutive vectors are one round apart. *)
Inductive chain : list (list Z) → Prop :=
| chain_one v : Inv 0 v → chain [v]
| chain_cons v' v rest :
    chain (v :: rest) → Inv (Z.of_nat (length rest) + 1) v' →
    (∀ k, diag (Z.of_nat (length rest)) k → fwd v (Z.of_nat (length rest)) k (V v' k)) →
    chain (v' :: v :: rest).

Lemma chain_Inv v rest : chain (v :: rest) → Inv (Z.of_nat (length rest)) v.
Proof.
  inversion 1; subst; simpl; [done|].
  by replace (Z.of_nat (S (length rest0))) with (Z.of_nat (length rest0) + 1)%Z by lia.
Qed.

Lemma d_loop_spec : (0 < off)%Z → ∀ rounds v trace,
  chain (v :: reverse trace) → (Z.of_nat (length trace + rounds) ≤ off + 1)%Z →
  ∃ r trace', d_loop rounds a b off (Z.of_nat (length trace)) v trace = Some (r, trace') ∧
    if (r : bool) then ∃ v' rest, reverse trace' = v' :: rest ∧ chain (v' :: rest) ∧
      (Z.of_nat (length rest) ≤ off)%Z ∧ length trace ≤ length rest ∧
      diag (Z.of_nat (length rest)) (n - m) ∧ fwd v' (Z.of_nat (length rest)) (n - m) n
    else True.
Proof.
  intros Hoff rounds. induction rounds as [|rounds IH]; intros v trace Hc Hr.
  { by do 2 eexists. }
  pose proof (chain_Inv _ _ Hc) as Hinv. rewrite length_reverse in Hinv.
  assert (0 ≤ Z.of_nat (length trace) ≤ off)%Z as Hd by lia.
  cbn [d_loop]. set (d := Z.of_nat (length trace)) in *.
  destruct (k_loop_spec d v Hinv Hd Hoff (S (S (Z.to_nat d))) (- d)%Z v)
    as (v' & r & -> & Hk).
  - constructor; [done| |done]. intros k' ? ?%diag_bounds. lia.
  - left. exists 0%Z. lia.
  - lia.
  - cbn [mbind option_bind]. destruct r.
    + destruct Hk as (k & x & Hk & Hf & Hxy).
      destruct (fwd_reached v d k x) as [-> Hm]; [done..|].
      assert (k = n - m)%Z as -> by lia.
      do 2 eexists. split; [done|]. exists v, (reverse trace).
      rewrite reverse_snoc, length_reverse. split_and!; [done..|lia|lia|done|done].
    + destruct (IH v' (trace ++ [v])) as (r & trace' & Hl & Hres).
      * rewrite reverse_snoc. constructor; rewrite ?length_reverse.
        { done. }
        { by apply (Inv_step d v v'). }
        { intros k Hk'. apply (mid_done _ _ _ _ Hk); [|done]. apply diag_bounds in Hk'. lia. }
      * rewrite length_app. simpl. lia.
      * rewrite length_app in Hl, Hres. simpl in Hl, Hres.
        replace (Z.of_nat (length trace + 1)) with (d + 1)%Z in Hl by lia.
        exists r, trace'. split; [done|]. destruct r; [|done].
        destruct Hres as (v2 & rest & ? & ? & ? & ? & ? & ?).
        exists v2, rest. split_and!; [done..|lia|done|done].
Qed.

Lemma edits_cons op ops :
  edits (op :: ops) = (if decide (op_kind op = KEq) then 0 else 1) + edits ops.
Proof.
  unfold edits. rewrite filter_cons. repeat case_decide; naive_solver.
Qed.

Lemma unsnake_spec k xs px py : ∀ fuel x ops,
  (0 ≤ xs ≤ x ∧ k ≤ xs)%Z →
  (∀ t, (xs ≤ t ≤ x)%Z → (px < t ∧ py < t - k ↔ xs < t)%Z) →
  (∀ t, (xs ≤ t < x)%Z → ∃ c, zget a t = Some c ∧ zget b (t - k) = Some c) →
  (x - xs < Z.of_nat fuel)%Z →
  script a b (Z.to_nat x) (Z.to_nat (x - k)) ops →
  ∃ ops', unsnake fuel px py x (x - k) ops = Some (xs, (xs - k)%Z, ops') ∧
    script a b (Z.to_nat xs) (Z.to_nat (xs - k)) ops' ∧ edits ops' = edits ops.
Proof.
  induction fuel as [|fuel IH]; intros x ops Hb Hstop Heq Hf Hs; [lia|]. simpl.
  case_decide as Hc.
  - apply Hstop in Hc; [|lia].
    replace (x - k - 1)%Z with (x - 1 - k)%Z by lia.
    destruct (IH (x - 1)%Z (mkOp KEq (Z.to_nat (x - 1 - k)) :: ops))
      as (ops' & -> & Hs' & He); [lia|..].
    + intros. apply Hstop. lia.
    + intros. apply Heq. lia.
    + lia.
    + destruct (Heq (x - 1)%Z) as (c & [_ Ha]%zget_Some & [_ Hb']%zget_Some); [lia|].
      apply (script_eq _ _ _ _ c); [done|done|].
      replace (S (Z.to_nat (x - 1))) with (Z.to_nat x) by lia.
      by replace (S (Z.to_nat (x - 1 - k))) with (Z.to_nat (x - k)) by lia.
    + exists ops'. split_and!; [done..|]. by rewrite He, edits_cons.
  - rewrite Hstop in Hc by lia. assert (x = xs) as -> by lia. by exists ops.
Qed.

Lemma script_bounds i j ops : script a b i j ops → i ≤ length a ∧ j ≤ length b.
Proof. induction 1; simpl in *; lia. Qed.

Lemma back_loop_spec : (0 < off)%Z → ∀ rest v k x ops,
  chain (v :: rest) → (Z.of_nat (length rest) ≤ off)%Z →
  diag (Z.of_nat (length rest)) k → fwd v (Z.of_nat (length rest)) k x →
  script a b (Z.to_nat x) (Z.to_nat (x - k)) ops →
  ∃ ops', back_loop (v :: rest) off x (x - k) ops = Some ops' ∧
    script a b 0 0 ops' ∧ edits ops' = length rest + edits ops.
Proof.
  intros Hoff rest. induction rest as [|v2 rest IH]; intros v k x ops Hc Hd Hk Hf Hs.
  all: pose proof (chain_Inv _ _ Hc) as Hinv; pose proof (inv_len _ _ Hinv) as Hlen.
  all: destruct Hf as (xs & Hxs & Hlow & Heq & _).
  all: match type of Hk with diag ?d _ =>
         destruct (start_x_case v d k) as (xs' & Hxs' & Hcase); [done|lia|done..|] end.
  all: simplify_eq; cbn [back_loop]; unfold back_step.
  all: replace (x - (x - k))%Z with k by lia.
  - destruct Hcase as [_ -> -> | |]; [|simpl in *; lia..].
    unfold go_down. rewrite decide_True by done. cbn [mbind option_bind].
    change (0 + 1)%Z with 1%Z.
    rewrite zget_V by lia. rewrite (inv_zero _ _ Hinv) by done. cbn [mbind option_bind].
    destruct (unsnake_spec 0 0 0 (0 - 1) (S (Z.to_nat x)) x ops)
      as (ops' & -> & Hs' & He); [lia|lia|done|lia|done|].
    exists ops'. simpl. split_and!; [done|done|lia].
  - set (d := Z.of_nat (length (v2 :: rest))) in *.
    assert (d = Z.of_nat (length rest) + 1)%Z as Hd' by (subst d; simpl; lia).
    inversion Hc as [|? ? ? Hc2 _ Hlink]; subst.
    replace (Z.of_nat (length rest)) with (d - 1)%Z in Hlink, IH by lia.
    destruct Hcase as [|_ Hk1 -> _ Hgo|_ Hk1 -> _ Hgo]; [lia|..]; rewrite Hgo;
      cbn [mbind option_bind]; pose proof (diag_bounds _ _ Hk1);
      rewrite zget_V by lia; cbn [mbind option_bind].
    + destruct (unsnake_spec k (V v (k + 1)) (V v (k + 1)) (V v (k + 1) - (k + 1))
        (S (Z.to_nat x)) x ops) as (ops1 & -> & Hs1 & He1); [lia|lia|done|lia|done|].
      cbn [mbind option_bind]. rewrite decide_True by lia. rewrite decide_True by done.
      pose proof (inv_low _ _ Hinv _ Hk1).
      destruct (IH v2 (k + 1)%Z (V v (k + 1)) (mkOp KIns (Z.to_nat (V v (k + 1) - k - 1)) :: ops1))
        as (ops' & Hl & Hs' & He'); [done|lia|done|by apply Hlink|..].
      * replace (Z.to_nat (V v (k + 1) - k - 1)) with (Z.to_nat (V v (k + 1) - (k + 1))) by lia.
        pose proof (script_bounds _ _ _ Hs1).
        apply script_ins; [lia|].
        by replace (S (Z.to_nat (V v (k + 1) - (k + 1)))) with (Z.to_nat (V v (k + 1) - k)) by lia.
      * exists ops'. split_and!; [done|done|].
        rewrite He', edits_cons, He1, decide_False by done. simpl. lia.
    + destruct (unsnake_spec k (V v (k - 1) + 1) (V v (k - 1)) (V v (k - 1) - (k - 1))
        (S (Z.to_nat x)) x ops) as (ops1 & -> & Hs1 & He1); [lia|lia|done|lia|done|].
      cbn [mbind option_bind]. rewrite decide_True by lia. rewrite decide_False by lia.
      pose proof (inv_low _ _ Hinv _ Hk1).
      destruct (IH v2 (k - 1)%Z (V v (k - 1)) (mkOp KDel 0 :: ops1))
        as (ops' & Hl & Hs' & He'); [done|lia|done|by apply Hlink|..].
      * pose proof (script_bounds _ _ _ Hs1).
        apply script_del; [lia|].
        replace (S (Z.to_nat (V v (k - 1)))) with (Z.to_nat (V v (k - 1) + 1)) by lia.
        by replace (Z.to_nat (V v (k - 1) - (k - 1))) with (Z.to_nat (V v (k - 1) + 1 - k)) by lia.
      * exists ops'. split_and!; [done|done|].
        rewrite He', edits_cons, He1, decide_False by done. simpl. lia.
Qed.

End forward.

(** ** [diff] never panics and returns an edit script *)

Lemma Inv_init {A} (a b : list A) off :
  (0 < off)%Z → Inv a b off 0 (replicate (Z.to_nat (2 * off + 1)) 0%Z).
Proof.
  intros Hoff. assert (∀ d k, (d < 0)%Z → ¬ diag d k) as Hno by (intros ??? [??]; lia).
  constructor; try (intros k Hk; destruct (Hno (0 - 1)%Z k ltac:(lia) Hk)).
  - rewrite length_replicate. lia.
  - intros _. unfold V.
    rewrite (proj2 (zget_Some _ _ 0%Z)); [done|]. split; [lia|].
    apply lookup_replicate_2. lia.
Qed.

Lemma script_dels {A} (a b : list A) i j n ops :
  i + n ≤ length a → script a b (i + n) j ops → script a b i j (dels n ++ ops).
Proof.
  revert i. induction n as [|n IH]; intros i Hi Hs; [by rewrite Nat.add_0_r in Hs|].
  simpl. constructor; [lia|]. apply IH; [lia|]. by rewrite Nat.add_succ_comm.
Qed.

Lemma script_inss {A} (a b : list A) i j n ops :
  j + n ≤ length b → script a b i (j + n) ops →
  script a b i j ((mkOp KIns <$> seq j n) ++ ops).
Proof.
  revert j. induction n as [|n IH]; intros j Hj Hs; [by rewrite Nat.add_0_r in Hs|].
  simpl. constructor; [lia|]. apply IH; [lia|]. by rewrite Nat.add_succ_comm.
Qed.

Section diff_correct.
Context {A : Type} `{!EqDecision A}.
Implicit Types a b : list A.

Lemma diff_fallback_script a b : script a b 0 0 (dels (length a) ++ inss (length b)).
Proof.
  apply script_dels; [simpl; lia|]. rewrite <-(app_nil_r (inss _)).
  apply script_inss; [simpl; lia|]. constructor.
Qed.

Lemma backtrack_script a b trace v rest off :
  (0 < off)%Z → reverse trace = v :: rest → chain a b off (v :: rest) →
  (Z.of_nat (length rest) ≤ off)%Z →
  diag (Z.of_nat (length rest)) (Z.of_nat (length a) - Z.of_nat (length b)) →
  fwd a b off v (Z.of_nat (length rest)) (Z.of_nat (length a) - Z.of_nat (length b))
    (Z.of_nat (length a)) →
  ∃ ops, backtrack a b trace off = Some ops ∧ script a b 0 0 ops ∧ edits ops = length rest.
Proof.
  intros Hoff Htr Hc Hd Hk Hf. unfold backtrack. rewrite Htr.
  destruct (back_loop_spec a b off Hoff rest v _ _ [] Hc Hd Hk Hf) as (ops & Hl & Hs & He).
  - replace (Z.of_nat (length a) - (Z.of_nat (length a) - Z.of_nat (length b)))%Z
      with (Z.of_nat (length b)) by lia.
    rewrite !Nat2Z.id. constructor.
  - replace (Z.of_nat (length a) - (Z.of_nat (length a) - Z.of_nat (length b)))%Z
      with (Z.of_nat (length b)) in Hl by lia.
    exists ops. split_and!; [done..|]. rewrite He. by rewrite Nat.add_0_r.
Qed.

Lemma diff_script a b : ∃ ops, diff a b = Some ops ∧ script a b 0 0 ops.
Proof.
  pose proof (diff_fallback_script a b) as Hfall. unfold diff.
  destruct a as [|x a]; [destruct b as [|y b]|destruct b as [|y b]].
  1-3: eexists; split; [done|]; by rewrite ?app_nil_r in Hfall.
  set (a' := x :: a) in *. set (b' := y :: b) in *.
  set (max := Z.min _ _).
  assert (0 < max)%Z as Hmax by (subst max a' b'; unfold MYERS_MAX_D; simpl; lia).
  destruct (d_loop_spec a' b' max Hmax (Z.to_nat (max + 1))
    (replicate (Z.to_nat (2 * max + 1)) 0%Z) []) as (r & trace & Hl & Hr).
  - constructor. by apply Inv_init.
  - simpl. lia.
  - change (Z.of_nat (length [])) with 0%Z in Hl. rewrite Hl. cbn [mbind option_bind].
    destruct r; [|by eexists].
    destruct Hr as (v & rest & ? & ? & ? & ? & ? & ?).
    destruct (backtrack_script a' b' trace v rest max) as (ops & ? & ? & _); [done..|].
    by eexists.
Qed.

(** A script without edits is the identity script. *)
Lemma script_no_edits a b i j ops :
  script a b i j ops → edits ops = 0 → ops = mkOp KEq <$> seq j (length b - j).
Proof.
  induction 1 as [|i j c ops Ha Hb Hs IH|i j ops Hi Hs IH|i j ops Hj Hs IH];
    rewrite ?edits_cons; simpl.
  - by rewrite Nat.sub_diag.
  - intros He. apply lookup_lt_Some in Hb.
    replace (length b - j) with (S (length b - S j)) by lia. simpl. f_equal. by apply IH.
  - done.
  - done.
Qed.

Lemma diff_same a : diff a a = Some (mkOp KEq <$> seq 0 (length a)).
Proof.
  destruct a as [|x a]; [done|]. unfold diff. set (a' := x :: a) in *.
  set (max := Z.min _ _).
  assert (0 < max)%Z as Hmax by (subst max a'; unfold MYERS_MAX_D; simpl; lia).
  set (v := replicate _ 0%Z). assert (Inv a' a' max 0 v) as Hinv by by apply Inv_init.
  replace (Z.to_nat (max + 1)) with (S (Z.to_nat max)) by lia. cbn [d_loop].
  assert (diag 0 0) as Hd0 by (exists 0%Z; lia).
  destruct (k_loop_spec a' a' max 0 v Hinv ltac:(lia) Hmax 2 0 v)
    as (v' & r & Hk & Hr); [|by left|lia|].
  { constructor; [done| |done]. intros k' ? ?%diag_bounds. lia. }
  change (S (S (Z.to_nat 0))) with 2. change (- 0)%Z with 0%Z.
  rewrite Hk. cbn [mbind option_bind].
  destruct r; cycle 1.
  { exfalso. destruct (mid_done _ _ _ _ _ _ _ Hr 0) as [(xs & _ & Hlow & _ & Hm) Hn];
      [lia|done|].
    rewrite Z.sub_0_r in Hm, Hn. destruct Hm. split_and!; [lia..|done]. }
  destruct Hr as (k & x' & Hk' & Hf & Hxy).
  destruct (fwd_reached a' a' max v 0 k x') as [-> ?]; [done|lia|done..|].
  destruct (backtrack_script a' a' [v] v [] max) as (ops & Hb & Hs & He); [done|done| |simpl; lia| | |].
  - by constructor.
  - by rewrite Z.sub_diag.
  - replace (Z.of_nat (length a') - Z.of_nat (length a'))%Z with k by lia. done.
  - simpl. rewrite Hb. f_equal. apply script_no_edits in Hs; [|done].
    by rewrite Nat.sub_0_r in Hs.
Qed.
End diff_correct.

(** ** Regions

    [hunks base other i j rs]: from base line [i] and other line [j] on, [rs]
    are the replaced base ranges: equal lines up to the next range, whose
    replacement is a run of consecutive lines of [other]; two ranges are
    separated by at least one kept line. *)
Inductive hunks {A} (base other : list A) : nat → nat → list Region → Prop :=
| hunks_nil i j : drop i base = drop j other → i ≤ length base → j ≤ length other →
    hunks base other i j []
| hunks_cons i j n r rs :
    b0 r = i + n → take n (drop i base) = take n (drop j other) →
    b0 r ≤ b1 r ≤ length base → j + n + length (repl r) ≤ length other →
    repl r = seq (j + n) (length (repl r)) → (b0 r < b1 r ∨ repl r ≠ []) →
    (∀ r', head rs = Some r' → b1 r < b0 r') →
    hunks base other (b1 r) (j + n + length (repl r)) rs →
    hunks base other i j (r :: rs).

Section regions_correct.
Context {A : Type}.
Implicit Types base other : list A.

(** [regions] as a recursion on the script. *)
Fixpoint regions_from (bi : nat) (open : option Region) (ops : list EditOp) : list Region :=
  match ops with
  | [] => option_list open
  | op :: ops =>
      let r := default (mkRegion bi bi []) open in
      match op_kind op with
      | KEq => option_list open ++ regions_from (S bi) None ops
      | KDel => regions_from (S bi) (Some (mkRegion (b0 r) (bi + 1) (repl r))) ops
      | KIns => regions_from bi (Some (mkRegion (b0 r) (b1 r) (repl r ++ [op_b op]))) ops
      end
  end.

Lemma foldl_regions ops out bi open :
  (let '(out', _, open') := foldl region_step (out, bi, open) ops in
   out' ++ option_list open') = out ++ regions_from bi open ops.
Proof.
  revert out bi open. induction ops as [|[[] j] ops IH]; intros out bi open; simpl; [done|..].
  - by rewrite IH, (assoc_L (++)).
  - by rewrite IH.
  - by rewrite IH.
Qed.

Lemma hunks_head base other i j rs r :
  hunks base other i j rs → head rs = Some r → i ≤ b0 r.
Proof. destruct 1; simpl; intros; simplify_eq. lia. Qed.

Lemma hunks_bounds base other i j rs :
  hunks base other i j rs → i ≤ length base ∧ j ≤ length other.
Proof. destruct 1; lia. Qed.

Lemma hunks_keep base other i j c rs :
  base !! i = Some c → other !! j = Some c → hunks base other (S i) (S j) rs →
  hunks base other i j rs.
Proof.
  intros Hb Ho Hh. inversion Hh as [? ? Hd|? ? n r rs' ? Ht]; subst.
  - constructor; [|lia..]. by rewrite (drop_S base c i), (drop_S other c j), Hd by done.
  - econstructor 2 with (n := S n); [lia|..].
    + by rewrite (drop_S base c i), (drop_S other c j) by done; simpl; rewrite Ht.
    + done.
    + lia.
    + by replace (j + S n) with (S j + n) by lia.
    + done.
    + done.
    + by replace (j + S n) with (S j + n) by lia.
Qed.

Lemma regions_from_hunks base other i j ops :
  script base other i j ops →
  hunks base other i j (regions_from i None ops) ∧
  ∀ r j0, b1 r = i → b0 r ≤ i → repl r = seq j0 (length (repl r)) →
    j = j0 + length (repl r) → (b0 r < b1 r ∨ repl r ≠ []) →
    hunks base other (b0 r) j0 (regions_from i (Some r) ops).
Proof.
  induction 1 as [|i j c ops Hb Ho Hs [IH1 IH2]|i j ops Hi Hs [IH1 IH2]|i j ops Hj Hs [IH1 IH2]];
    simpl.
  - split.
    + constructor; [by rewrite !drop_all|lia..].
    + intros r j0 Hr1 Hr0 Hrepl Hj Hne.
      econstructor 2 with (n := 0); rewrite ?Nat.add_0_r; [done|done|lia|lia|done|done|done|].
      rewrite Hr1, <-Hj. constructor; [by rewrite !drop_all|lia..].
  - split; [by eapply hunks_keep|].
    intros r j0 Hr1 Hr0 Hrepl Hj Hne. apply lookup_lt_Some in Hb as Hb', Ho as Ho'.
    econstructor 2 with (n := 0); rewrite ?Nat.add_0_r; [done|done|lia|lia|done|done| |].
    + intros r' Hr'. eapply (hunks_head _ _ (S i)) in Hr'; [|exact IH1]. lia.
    + rewrite Hr1, <-Hj. by eapply hunks_keep.
  - assert (i + 1 = S i) as Hi1 by lia. split.
    + apply (IH2 (mkRegion i (i + 1) []) j); simpl; auto; lia.
    + intros r j0 Hr1 Hr0 Hrepl Hj Hne.
      apply (IH2 (mkRegion (b0 r) (i + 1) (repl r)) j0); simpl; auto; lia.
  - split.
    + apply (IH2 (mkRegion i i [j]) j); simpl; auto; lia.
    + intros r j0 Hr1 Hr0 Hrepl Hj0 Hne.
      apply (IH2 (mkRegion (b0 r) (b1 r) (repl r ++ [j])) j0); simpl; auto.
      * rewrite length_app. simpl. rewrite seq_app. simpl. by rewrite <-Hrepl, Hj0.
      * rewrite length_app. simpl. lia.
      * right. by destruct (repl r).
Qed.

Lemma regions_hunks base other ops :
  script base other 0 0 ops → hunks base other 0 0 (regions ops).
Proof.
  intros Hs. unfold regions. rewrite foldl_regions. simpl.
  by apply (regions_from_hunks _ _ 0 0).
Qed.

Lemma regions_same n : regions (mkOp KEq <$> seq 0 n) = [].
Proof.
  unfold regions. rewrite foldl_regions. simpl. generalize 0 at 2 as j.
  generalize 0 as i. induction n as [|n IH]; intros i j; simpl; [done|]. apply IH.
Qed.

(** The lines a region puts in place are a slice of the other side. *)
Lemma repl_lines other j n :
  j + n ≤ length other → mapM (λ i, other !! i) (seq j n) = Some (take n (drop j other)).
Proof.
  revert j. induction n as [|n IH]; intros j Hj; [done|]. simpl.
  destruct (lookup_lt_is_Some_2 other j) as [c Hc]; [lia|].
  rewrite Hc, (drop_S other c j) by done. simpl. by rewrite IH by lia.
Qed.

(** A hunk list can start later, at any kept line. *)
Lemma hunks_advance base other i j n rs :
  hunks base other i j rs → (∀ r, head rs = Some r → i + n ≤ b0 r) → i + n ≤ length base →
  take n (drop i base) = take n (drop j other) ∧ j + n ≤ length other ∧
  hunks base other (i + n) (j + n) rs.
Proof.
  intros Hh Hhd Hn. inversion Hh as [? ? Hd Hi Hj|? ? p r rs' Hb Ht Hb1 Hl Hr Hne Hgap Hrest]; subst.
  - assert (length (drop i base) = length (drop j other)) as Hlen by by rewrite Hd.
    rewrite !length_drop in Hlen. split_and!; [by rewrite Hd|lia|].
    constructor; [|lia..]. by rewrite <-!drop_drop, Hd.
  - specialize (Hhd r eq_refl). assert (p = n + (p - n)) as Hp by lia.
    split_and!; [|lia|].
    + apply (f_equal (take n)) in Ht. rewrite !take_take in Ht.
      by replace (n `min` p) with n in Ht by lia.
    + rewrite Hp in Ht. rewrite !take_drop_add in Ht.
      assert (take n (drop i base) = take n (drop j other) ∧
        take (p - n) (drop (i + n) base) = take (p - n) (drop (j + n) other)) as [_ Ht'].
      { apply app_inj_1; [|done]. rewrite !length_take, !length_drop. lia. }
      econstructor 2 with (n := p - n); [lia|done|done|lia| |done|done|].
      * by replace (j + n + (p - n)) with (j + p) by lia.
      * by replace (j + n + (p - n)) with (j + p) by lia.
Qed.
End regions_correct.

(** ** Patching *)

Section patch.
Context {A : Type} `{!EqDecision A}.
Implicit Types base other : list A.

(** [base] from line [i] on, with every region replaced by its lines. *)
Fixpoint patch base other (i : nat) (rs : list Region) : list A :=
  match rs with
  | [] => drop i base
  | r :: rs =>
      take (b0 r - i) (drop i base) ++ omap (other !!.) (repl r) ++ patch base other (b1 r) rs
  end.

Lemma omap_mapM {B} (g : B → option A) l ls : mapM g l = Some ls → omap g l = ls.
Proof.
  revert ls. induction l as [|x l IH]; intros ls; csimpl; [by intros [= <-]|].
  destruct (g x); [|done]. simpl. destruct (mapM g l); [|done]. simpl. intros [= <-].
  f_equal. by apply IH.
Qed.

Lemma hunks_patch base other i j rs :
  hunks base other i j rs → patch base other i rs = drop j other.
Proof.
  induction 1 as [i j Hd|i j n r rs Hb Ht Hb1 Hlen Hrepl Hne Hgap Hrest IH]; [done|]. cbn [patch].
  rewrite IH, Hrepl, (omap_mapM _ _ _ (repl_lines other (j + n) (length (repl r)) Hlen)).
  rewrite length_seq. replace (b0 r - i) with n by lia.
  rewrite Ht, <-!drop_drop. by rewrite !take_drop.
Qed.

(** C33: [diff] never panics and its regions are a patch: replacing each region of
    the old lines by the lines it names turns the old lines into the new ones;
    equal inputs have no regions. *)
Theorem diff_patches base other :
  ∃ ops, diff base other = Some ops ∧ script base other 0 0 ops ∧
    patch base other 0 (regions ops) = other ∧ (base = other → regions ops = []).
Proof.
  destruct (diff_script base other) as (ops & Hd & Hs). exists ops. split_and!; [done|done|..].
  - rewrite (hunks_patch _ _ _ 0); [done|by apply regions_hunks].
  - intros ->. rewrite diff_same in Hd. simplify_eq. apply regions_same.
Qed.
End patch.
