(* ===== verification/Merge.v ===== *)
(** * Three-way line merge of [publish/merge.rs]

    [three_way_merge] reconciles a base, an active and a command version of a
    file on line granularity and reports where each merged line comes from.
    The loop over base positions is [merge_loop], the inner loop that joins
    overlapping regions is [absorb]; [None] is a panic.  The theorems
    decompose a clean merge into chunks (kept, changed by one side, changed by
    both), show that the merge always returns, and relate the reported origins
    to the chunks. *)

From S2P Require Import Prelude ByteStr Diff.

(** ** Data *)

(** [enum Origin { Command, Active(usize) }] *)
Inductive Origin := Command | Active (i : nat).

(** [struct LineRange { start, len }] *)
Record LineRange := mkRange { r_start : nat; r_len : nat }.

#[global] Instance Origin_eq_dec : EqDecision Origin.
Proof. solve_decision. Defined.
#[global] Instance LineRange_eq_dec : EqDecision LineRange.
Proof. solve_decision. Defined.

(** [enum MergeOutcome], over merged lines or bytes. *)
Inductive MergeOutcome (T : Type) :=
| Clean (out : T) (origin : list (LineRange * Origin))
| Conflict
| Ineligible.
Arguments Clean {T} out origin.
Arguments Conflict {T}.
Arguments Ineligible {T}.

#[global] Instance MergeOutcome_eq_dec {T} `{EqDecision T} : EqDecision (MergeOutcome T).
Proof. solve_decision. Defined.

(** [struct OriginBuilder { ranges, next_line }] *)
Record OriginBuilder := mkBuilder {
  ranges : list (LineRange * Origin);
  next_line : nat;
}.

Definition builder_default : OriginBuilder := mkBuilder [] 0.

Definition butlast {A} (l : list A) : list A := take (pred (length l)) l.

Definition push_active (bd : OriginBuilder) (first_active_idx count : nat) : OriginBuilder :=
  if decide (count = 0) then bd
  else
    let line := next_line bd + 1 in
    let fresh :=
      mkBuilder (ranges bd ++ [(mkRange line count, Active first_active_idx)])
        (next_line bd + count) in
    match last (ranges bd) with
    | Some (range, Active base_idx) =>
        if decide (base_idx + r_len range = first_active_idx) then
          mkBuilder
            (butlast (ranges bd) ++
               [(mkRange (r_start range) (r_len range + count), Active base_idx)])
            (next_line bd + count)
        else fresh
    | _ => fresh
    end.

Definition push_command (bd : OriginBuilder) (count : nat) : OriginBuilder :=
  if decide (count = 0) then bd
  else
    let line := next_line bd + 1 in
    match last (ranges bd) with
    | Some (range, Command) =>
        mkBuilder
          (butlast (ranges bd) ++ [(mkRange (r_start range) (r_len range + count), Command)])
          (next_line bd + count)
    | _ =>
        mkBuilder (ranges bd ++ [(mkRange line count, Command)]) (next_line bd + count)
    end.

(** ** The merge loop *)

Section merge.
Context {A : Type} `{!EqDecision A}.

(** The state of the inner loop; [ab_ra] and [ab_rc] are the regions from [ia]
    and [ic] on. *)
Record absorbed := mkAbsorbed {
  ab_cb1 : nat;
  ab_a_lines : list A; ab_c_lines : list A;
  ab_saw_a : bool; ab_saw_c : bool;
  ab_ra : list Region; ab_rc : list Region;
}.

(** [r.b0 < cb1 || r.b0 == bi] *)
Definition overlaps (r : Region) (bi cb1 : nat) : bool :=
  bool_decide (b0 r < cb1 ∨ b0 r = bi).

Definition absorb_active (a : list A) (bi : nat) (st : absorbed) : option (absorbed * bool) :=
  match ab_ra st with
  | r :: ra =>
      if overlaps r bi (ab_cb1 st) then
        ls ← mapM (λ i, a !! i) (repl r);
        Some (mkAbsorbed (ab_cb1 st `max` b1 r) (ab_a_lines st ++ ls) (ab_c_lines st)
                true (ab_saw_c st) ra (ab_rc st), true)
      else Some (st, false)
  | [] => Some (st, false)
  end.

Definition absorb_command (c : list A) (bi : nat) (st : absorbed) : option (absorbed * bool) :=
  match ab_rc st with
  | r :: rc =>
      if overlaps r bi (ab_cb1 st) then
        ls ← mapM (λ i, c !! i) (repl r);
        Some (mkAbsorbed (ab_cb1 st `max` b1 r) (ab_a_lines st) (ab_c_lines st ++ ls)
                (ab_saw_a st) true (ab_ra st) rc, true)
      else Some (st, false)
  | [] => Some (st, false)
  end.

(** The inner [loop]: until neither side grew. *)
Fixpoint absorb (fuel : nat) (a c : list A) (bi : nat) (st : absorbed) : option absorbed :=
  match fuel with
  | O => None
  | S fuel =>
      '(st, grew_a) ← absorb_active a bi st;
      '(st, grew_c) ← absorb_command c bi st;
      if grew_a || grew_c : bool then absorb fuel a c bi st else Some st
  end.

(** [na.min(nc)], [None] being [usize::MAX]. *)
Definition next_start (ra rc : list Region) : option nat :=
  match head ra, head rc with
  | None, None => None
  | Some r, None => Some (b0 r)
  | None, Some r => Some (b0 r)
  | Some r, Some s => Some (b0 r `min` b0 s)
  end.

(** The outer [loop]. *)
Fixpoint merge_loop (fuel : nat) (b a c : list A) (bi a_cursor : nat)
    (ra rc : list Region) (out : list A) (bd : OriginBuilder)
    : option (MergeOutcome (list A)) :=
  match fuel with
  | O => None
  | S fuel =>
      match next_start ra rc with
      | None =>
          count ← usub (length b) bi;
          tail ← slice b bi (length b);
          Some (Clean (out ++ tail) (ranges (push_active bd a_cursor count)))
      | Some start =>
          '(out, bd, a_cursor, bi) ←
            (if decide (bi < start) then
               kept ← slice b bi start;
               Some (out ++ kept, push_active bd a_cursor (start - bi),
                     a_cursor + (start - bi), start)
             else Some (out, bd, a_cursor, bi));
          st ← absorb (S (length ra + length rc)) a c bi
                 (mkAbsorbed bi [] [] false false ra rc);
          base_len ← usub (ab_cb1 st) bi;
          let a_lines := ab_a_lines st in
          let c_lines := ab_c_lines st in
          let continue := λ cb1 a_cursor out bd,
            merge_loop fuel b a c (cb1 `min` length b) a_cursor (ab_ra st) (ab_rc st) out bd in
          match ab_saw_a st, ab_saw_c st with
          | true, false =>
              continue (ab_cb1 st) (a_cursor + length a_lines) (out ++ a_lines)
                (push_active bd a_cursor (length a_lines))
          | false, true =>
              continue (ab_cb1 st) (a_cursor + base_len) (out ++ c_lines)
                (push_command bd (length c_lines))
          | true, true =>
              if decide (a_lines = c_lines) then
                continue (ab_cb1 st) (a_cursor + length a_lines) (out ++ a_lines)
                  (push_active bd a_cursor (length a_lines))
              else Some Conflict
          | false, false =>
              match b !! bi with
              | Some l =>
                  continue (bi + 1) (a_cursor + 1) (out ++ [l]) (push_active bd a_cursor 1)
              | None => continue (bi + 1) a_cursor out bd
              end
          end
      end
  end.

(** [three_way_merge] after the eligibility test, on lines. *)
Definition merge_lines (b a c : list A) : option (MergeOutcome (list A)) :=
  ops_a ← diff b a;
  ops_c ← diff b c;
  let ra := regions ops_a in
  let rc := regions ops_c in
  merge_loop (S (length ra + length rc)) b a c 0 0 ra rc [] builder_default.

End merge.
Arguments absorbed A : clear implicits.

(** ** Bytes *)

Definition MERGE_MAX_BYTES : Z := 8 * 1024 * 1024.

Definition eligible (data : bytes) : bool :=
  (Z.of_nat (length data) <=? MERGE_MAX_BYTES)%Z
  && bool_decide (nul ∉ data) && utf8_valid data.

(** [split_lines]: the loop state is the closed lines and the line from
    [start] on. *)
Fixpoint split_lines_from (line : bytes) (data : bytes) : list bytes :=
  match data with
  | [] => if decide (line = []) then [] else [line]
  | x :: data =>
      if decide (x = newline) then (line ++ [x]) :: split_lines_from [] data
      else split_lines_from (line ++ [x]) data
  end.

Definition split_lines (data : bytes) : list bytes := split_lines_from [] data.

Definition join_lines (lines : list bytes) : bytes := concat lines.

Definition three_way_merge (base active command : bytes) : option (MergeOutcome bytes) :=
  if negb (eligible base) || negb (eligible active) || negb (eligible command)
  then Some Ineligible
  else
    r ← merge_lines (split_lines base) (split_lines active) (split_lines command);
    Some match r with
         | Clean out origin => Clean (join_lines out) origin
         | Conflict => Conflict
         | Ineligible => Ineligible
         end.

(** ** Chunks

    A clean merge cuts the three versions at the same places.  A chunk is kept
    by both sides, changed by one side, or changed by both sides; in the last
    case the code requires only that the two sides insert the same lines. *)

(** [edit_of b o ins]: [o] is [b] with some lines deleted and exactly the lines
    [ins], in order, inserted. *)
Inductive edit_of {A} : list A → list A → list A → Prop :=
| edit_nil : edit_of [] [] []
| edit_keep x b o ins : edit_of b o ins → edit_of (x :: b) (x :: o) ins
| edit_del x b o ins : edit_of b o ins → edit_of (x :: b) o ins
| edit_ins x b o ins : edit_of b o ins → edit_of b (x :: o) (x :: ins).

Inductive chunk (A : Type) :=
| Kept (l : list A)
| ActiveOnly (b a : list A)
| CommandOnly (b c : list A)
| Both (b a c merged : list A).
Arguments Kept {A} l.
Arguments ActiveOnly {A} b a.
Arguments CommandOnly {A} b c.
Arguments Both {A} b a c merged.

Section chunks.
Context {A : Type}.
Implicit Types k : chunk A.

Definition base_of k : list A :=
  match k with Kept l => l | ActiveOnly b _ => b | CommandOnly b _ => b | Both b _ _ _ => b end.
Definition active_of k : list A :=
  match k with Kept l => l | ActiveOnly _ a => a | CommandOnly b _ => b | Both _ a _ _ => a end.
Definition command_of k : list A :=
  match k with Kept l => l | ActiveOnly b _ => b | CommandOnly _ c => c | Both _ _ c _ => c end.
Definition merged_of k : list A :=
  match k with Kept l => l | ActiveOnly _ a => a | CommandOnly _ c => c | Both _ _ _ m => m end.

Definition chunk_ok k : Prop :=
  match k with Both b a c m => edit_of b a m ∧ edit_of b c m | _ => True end.

(** The origins the code reports for a chunk whose active cursor is [p], and
    the cursor after it: a chunk changed by both sides advances the cursor by
    the merged lines. *)
Definition chunk_origins (p : nat) k : list Origin * nat :=
  match k with
  | Kept l => (Active <$> seq p (length l), p + length l)
  | ActiveOnly _ a => (Active <$> seq p (length a), p + length a)
  | CommandOnly b c => (replicate (length c) Command, p + length b)
  | Both _ _ _ m => (Active <$> seq p (length m), p + length m)
  end.

Fixpoint origins (p : nat) (ks : list (chunk A)) : list Origin :=
  match ks with
  | [] => []
  | k :: ks => let '(os, p) := chunk_origins p k in os ++ origins p ks
  end.

(** [chunks_of ks b a c m]: [ks] decomposes the three versions and the merge. *)
Definition chunks_of (ks : list (chunk A)) (b a c m : list A) : Prop :=
  Forall chunk_ok ks ∧ concat (base_of <$> ks) = b ∧ concat (active_of <$> ks) = a ∧
  concat (command_of <$> ks) = c ∧ concat (merged_of <$> ks) = m.

(** A chunk the active side, or the command side, does not change. *)
Definition quiet_active k : Prop :=
  match k with Kept _ | CommandOnly _ _ => True | _ => False end.
Definition quiet_command k : Prop :=
  match k with Kept _ | ActiveOnly _ _ => True | _ => False end.

Lemma edit_of_keep (l : list A) : edit_of l l [].
Proof. induction l; by constructor. Qed.

Lemma edit_of_app (b1 o1 i1 b2 o2 i2 : list A) :
  edit_of b1 o1 i1 → edit_of b2 o2 i2 → edit_of (b1 ++ b2) (o1 ++ o2) (i1 ++ i2).
Proof. induction 1; simpl; intros; [done|constructor; auto..]. Qed.

Lemma edit_of_replace (b o : list A) : edit_of b o o.
Proof. induction b; [induction o; by constructor|by constructor]. Qed.

End chunks.

(** ** Origin ranges *)

(** The origin of every line a list of ranges covers. *)
Definition expand_origin (o : LineRange * Origin) : list Origin :=
  match o.2 with
  | Command => replicate (r_len o.1) Command
  | Active i => Active <$> seq i (r_len o.1)
  end.
Definition expand (rs : list (LineRange * Origin)) : list Origin := rs ≫= expand_origin.

(** Non-empty ranges that follow each other, from line [n]. *)
Fixpoint tiled (n : nat) (rs : list (LineRange * Origin)) : Prop :=
  match rs with
  | [] => True
  | (r, _) :: rs => r_start r = n ∧ 0 < r_len r ∧ tiled (n + r_len r) rs
  end.

(** The builder's invariant. *)
Definition builder_ok (bd : OriginBuilder) : Prop :=
  tiled 1 (ranges bd) ∧ length (expand (ranges bd)) = next_line bd.

Lemma expand_app rs1 rs2 : expand (rs1 ++ rs2) = expand rs1 ++ expand rs2.
Proof. apply bind_app. Qed.

Lemma length_expand_origin o : length (expand_origin o) = r_len o.1.
Proof.
  destruct o as [r []]; unfold expand_origin; simpl.
  - apply length_replicate.
  - by rewrite length_fmap, length_seq.
Qed.

Lemma tiled_app n rs1 rs2 :
  tiled n (rs1 ++ rs2) ↔ tiled n rs1 ∧ tiled (n + length (expand rs1)) rs2.
Proof.
  revert n. induction rs1 as [|[r o] rs1 IH]; intros n; simpl; [by rewrite Nat.add_0_r; naive_solver|].
  rewrite IH, length_app, length_expand_origin, Nat.add_assoc. naive_solver.
Qed.

Lemma last_butlast {A} (l : list A) x : last l = Some x → l = butlast l ++ [x].
Proof.
  intros H. destruct l as [|y l _] using rev_ind; [done|]. rewrite last_snoc in H.
  simplify_eq. unfold butlast. rewrite length_app. simpl.
  by rewrite Nat.add_comm; simpl; rewrite take_app_length.
Qed.

(** Growing the last range, or adding one. *)
Lemma builder_grow bd r o r' os :
  builder_ok bd → last (ranges bd) = Some (r, o) → r_start r' = r_start r → 0 < r_len r' →
  expand_origin (r', o) = expand_origin (r, o) ++ os →
  let bd' := mkBuilder (butlast (ranges bd) ++ [(r', o)]) (next_line bd + length os) in
  builder_ok bd' ∧ expand (ranges bd') = expand (ranges bd) ++ os.
Proof.
  intros [Ht Hl] Hlast Hs Hpos He. apply last_butlast in Hlast. simpl.
  assert (expand (butlast (ranges bd) ++ [(r', o)]) = expand (ranges bd) ++ os) as Hx.
  { rewrite Hlast at 2. rewrite !expand_app. unfold expand. simpl.
    by rewrite !app_nil_r, He, (assoc_L (++)). }
  split; [split|done].
  - rewrite Hlast in Ht. apply tiled_app in Ht as [Ht1 Ht2].
    apply tiled_app. split; [done|]. simpl in *. lia.
  - simpl. by rewrite Hx, length_app, Hl.
Qed.

Lemma builder_fresh bd r o :
  builder_ok bd → r_start r = next_line bd + 1 → 0 < r_len r →
  let bd' := mkBuilder (ranges bd ++ [(r, o)]) (next_line bd + r_len r) in
  builder_ok bd' ∧ expand (ranges bd') = expand (ranges bd) ++ expand_origin (r, o).
Proof.
  intros [Ht Hl] Hs Hpos. simpl.
  assert (expand (ranges bd ++ [(r, o)]) = expand (ranges bd) ++ expand_origin (r, o)) as Hx.
  { rewrite expand_app. unfold expand. simpl. by rewrite app_nil_r. }
  split; [split|done]; simpl.
  - apply tiled_app. split; [done|]. simpl. rewrite Hl. lia.
  - by rewrite Hx, length_app, length_expand_origin, Hl.
Qed.

Lemma push_active_ok bd p n :
  builder_ok bd → builder_ok (push_active bd p n) ∧
  expand (ranges (push_active bd p n)) = expand (ranges bd) ++ (Active <$> seq p n).
Proof.
  intros Hok. unfold push_active. case_decide as Hn.
  { subst n. simpl. by rewrite app_nil_r. }
  assert (builder_ok (mkBuilder (ranges bd ++ [(mkRange (next_line bd + 1) n, Active p)])
    (next_line bd + n)) ∧
    expand (ranges bd ++ [(mkRange (next_line bd + 1) n, Active p)]) =
    expand (ranges bd) ++ (Active <$> seq p n)) as Hfresh.
  { apply (builder_fresh bd (mkRange (next_line bd + 1) n) (Active p)); simpl; [done|done|lia]. }
  destruct (last (ranges bd)) as [[r [|i]]|] eqn:Hlast; [done| |done].
  case_decide as Hi; [|done]. subst p.
  assert (length (Active <$> seq (i + r_len r) n) = n) as Hlen
    by by rewrite length_fmap, length_seq.
  destruct (builder_grow bd r (Active i) (mkRange (r_start r) (r_len r + n))
    (Active <$> seq (i + r_len r) n)) as [H1 H2]; simpl; [done|done|done|lia| |].
  - unfold expand_origin. simpl. by rewrite seq_app, fmap_app.
  - rewrite Hlen in H1. simpl in *. by rewrite H2.
Qed.

Lemma push_command_ok bd n :
  builder_ok bd → builder_ok (push_command bd n) ∧
  expand (ranges (push_command bd n)) = expand (ranges bd) ++ replicate n Command.
Proof.
  intros Hok. unfold push_command. case_decide as Hn.
  { subst n. simpl. by rewrite app_nil_r. }
  assert (builder_ok (mkBuilder (ranges bd ++ [(mkRange (next_line bd + 1) n, Command)])
    (next_line bd + n)) ∧
    expand (ranges bd ++ [(mkRange (next_line bd + 1) n, Command)]) =
    expand (ranges bd) ++ replicate n Command) as Hfresh.
  { apply (builder_fresh bd (mkRange (next_line bd + 1) n) Command); simpl; [done|done|lia]. }
  destruct (last (ranges bd)) as [[r [|i]]|] eqn:Hlast; [|done|done].
  destruct (builder_grow bd r Command (mkRange (r_start r) (r_len r + n))
    (replicate n Command)) as [H1 H2]; simpl; [done|done|done|lia| |].
  - unfold expand_origin. simpl. by rewrite replicate_add.
  - rewrite length_replicate in H1. simpl in *. by rewrite H2.
Qed.

(** ** The inner loop *)

Section absorb_correct.
Context {A : Type} `{!EqDecision A}.
Implicit Types b o a c : list A.

(** The lines from [i] to [j]. *)
Definition sl (l : list A) (i j : nat) : list A := take (j - i) (drop i l).

Lemma sl_app (l : list A) i j k : i ≤ j → j ≤ k → sl l i k = sl l i j ++ sl l j k.
Proof.
  intros. unfold sl. replace (k - i) with ((j - i) + (k - j)) by lia.
  rewrite take_drop_add. by replace (i + (j - i)) with j by lia.
Qed.

Lemma sl_nil (l : list A) i : sl l i i = [].
Proof. unfold sl. by rewrite Nat.sub_diag. Qed.

Lemma drop_sl (l : list A) i j : i ≤ j → drop i l = sl l i j ++ drop j l.
Proof.
  intros. unfold sl. rewrite <-(take_drop (j - i) (drop i l)) at 1. rewrite drop_drop.
  by replace (i + (j - i)) with j by lia.
Qed.

(** One side of the inner loop: the regions up to base line [e] and own line
    [jo'] are absorbed, with the inserted lines [ls]. *)
Record Side (b o : list A) (bi jo : nat) (cb1 : nat) (ls : list A) (saw : bool)
    (rs : list Region) (e jo' : nat) : Prop := {
  side_hunks : hunks b o e jo' rs;
  side_e : bi ≤ e ≤ cb1;
  side_j : jo ≤ jo';
  side_edit : edit_of (sl b bi e) (sl o jo jo') ls;
  side_unseen : saw = false → e = bi ∧ jo' = jo ∧ ls = [];
}.

(** [Side] after a region is absorbed. *)
Lemma Side_absorb b o bi jo cb1 ls saw r rs e jo' :
  Side b o bi jo cb1 ls saw (r :: rs) e jo' →
  ∃ new jo2, mapM (λ i, o !! i) (repl r) = Some new ∧
    Side b o bi jo (cb1 `max` b1 r) (ls ++ new) true rs (b1 r) jo2 ∧ b0 r ≤ b1 r ∧
    (∀ r', head rs = Some r' → b1 r < b0 r') ∧
    (b0 r = e → sl o jo' jo2 = new).
Proof.
  intros [Hh He Hj Hedit _].
  inversion Hh as [|? ? n ? ? Hb0 Ht Hb1 Hlen Hrepl Hne Hgap Hrest]; subst.
  exists (take (length (repl r)) (drop (jo' + n) o)), (jo' + n + length (repl r)).
  split_and!; [|constructor|lia|done|].
  - rewrite Hrepl at 1. by rewrite repl_lines by lia.
  - done.
  - lia.
  - lia.
  - rewrite (sl_app b bi e (b1 r)), (sl_app b e (b0 r) (b1 r)) by lia.
    rewrite (sl_app o jo jo'), (sl_app o jo' (jo' + n)) by lia.
    apply edit_of_app; [done|]. rewrite <-(app_nil_l (take _ _)). apply edit_of_app.
    + unfold sl. rewrite Hb0. replace (e + n - e) with n by lia.
      replace (jo' + n - jo') with n by lia. rewrite Ht. apply edit_of_keep.
    + unfold sl. replace (jo' + n + length (repl r) - (jo' + n)) with (length (repl r)) by lia.
      apply edit_of_replace.
  - done.
  - intros ?. assert (n = 0) as -> by lia. rewrite Nat.add_0_r. unfold sl.
    by replace (jo' + length (repl r) - jo') with (length (repl r)) by lia.
Qed.

Lemma Side_mono b o bi jo cb1 cb1' ls saw rs e jo' :
  Side b o bi jo cb1 ls saw rs e jo' → cb1 ≤ cb1' → Side b o bi jo cb1' ls saw rs e jo'.
Proof. intros [????] ?. constructor; auto. lia. Qed.

(** The invariant of the inner loop, both sides. *)
Record Absorbing (b a c : list A) (bi ja jc : nat) (st : absorbed A) (ea ja' ec jc' : nat)
    : Prop := {
  abs_a : Side b a bi ja (ab_cb1 st) (ab_a_lines st) (ab_saw_a st) (ab_ra st) ea ja';
  abs_c : Side b c bi jc (ab_cb1 st) (ab_c_lines st) (ab_saw_c st) (ab_rc st) ec jc';
  abs_cb1 : ab_cb1 st = ea `max` ec;
  abs_only_a : ab_saw_a st = true → ab_saw_c st = false →
    sl a ja ja' = ab_a_lines st ∧ ∀ r, head (ab_ra st) = Some r → ea < b0 r;
  abs_only_c : ab_saw_c st = true → ab_saw_a st = false →
    sl c jc jc' = ab_c_lines st ∧ ∀ r, head (ab_rc st) = Some r → ec < b0 r;
}.

(** No region of the side is left in or at the chunk. *)
Definition settled (rs : list Region) (bi cb1 : nat) : Prop :=
  ∀ r, head rs = Some r → overlaps r bi cb1 = false.

Lemma settled_ge rs bi cb1 r : settled rs bi cb1 → head rs = Some r → cb1 ≤ b0 r.
Proof.
  intros Hs Hr. specialize (Hs r Hr). unfold overlaps in Hs.
  apply bool_decide_eq_false in Hs. lia.
Qed.

Lemma absorb_active_spec b a c bi ja jc st ea ja' ec jc' :
  Absorbing b a c bi ja jc st ea ja' ec jc' →
  ∃ st' grew, absorb_active a bi st = Some (st', grew) ∧
    (grew = false → st' = st ∧ settled (ab_ra st) bi (ab_cb1 st)) ∧
    length (ab_ra st) = (if grew then 1 else 0) + length (ab_ra st') ∧
    ab_rc st' = ab_rc st ∧ ab_saw_c st' = ab_saw_c st ∧
    ab_saw_a st' = ab_saw_a st || grew ∧
    ∃ ea2 ja2, Absorbing b a c bi ja jc st' ea2 ja2 ec jc'.
Proof.
  intros Hst. pose proof Hst as [Ha Hc Hcb Hoa Hoc]. unfold absorb_active.
  destruct (ab_ra st) as [|r ra] eqn:Hra.
  { exists st, false. rewrite ?Hra, ?Hrc, orb_false_r. split_and!; [done|by split|done..|eauto]. }
  destruct (overlaps r bi (ab_cb1 st)) eqn:Hov; cycle 1.
  { exists st, false. rewrite ?Hra, ?Hrc, orb_false_r. split_and!; [done| |done..|eauto].
    intros _. split; [done|]. intros r' ?. by simplify_eq/=. }
  pose proof (hunks_head _ _ _ _ _ r (side_hunks _ _ _ _ _ _ _ _ _ _ Ha) eq_refl) as Hhd.
  destruct (Side_absorb _ _ _ _ _ _ _ _ _ _ _ Ha) as (new & ja2 & -> & Ha2 & Hb & Hgap & Hnew).
  simpl. do 2 eexists. split_and!; [done..|by rewrite orb_true_r|].
  exists (b1 r), ja2. constructor; simpl.
  - done.
  - eapply Side_mono; [done|]. lia.
  - pose proof (side_e _ _ _ _ _ _ _ _ _ _ Ha). lia.
  - intros _ Hsc. unfold overlaps in Hov. apply bool_decide_eq_true in Hov.
    destruct (side_unseen _ _ _ _ _ _ _ _ _ _ Hc Hsc) as (-> & _ & _).
    pose proof (side_e _ _ _ _ _ _ _ _ _ _ Ha) as He.
    destruct (ab_saw_a st) eqn:Hsa.
    { destruct (Hoa eq_refl Hsc) as [_ Hlt]. specialize (Hlt r eq_refl). lia. }
    destruct (side_unseen _ _ _ _ _ _ _ _ _ _ Ha eq_refl) as (-> & -> & ->). simpl.
    split; [|done]. apply Hnew. lia.
  - done.
Qed.

Lemma absorb_command_spec b a c bi ja jc st ea ja' ec jc' :
  Absorbing b a c bi ja jc st ea ja' ec jc' →
  ∃ st' grew, absorb_command c bi st = Some (st', grew) ∧
    (grew = false → st' = st ∧ settled (ab_rc st) bi (ab_cb1 st)) ∧
    length (ab_rc st) = (if grew then 1 else 0) + length (ab_rc st') ∧
    ab_ra st' = ab_ra st ∧ ab_saw_a st' = ab_saw_a st ∧
    ab_saw_c st' = ab_saw_c st || grew ∧
    ∃ ec2 jc2, Absorbing b a c bi ja jc st' ea ja' ec2 jc2.
Proof.
  intros Hst. pose proof Hst as [Ha Hc Hcb Hoa Hoc]. unfold absorb_command.
  destruct (ab_rc st) as [|r rc] eqn:Hrc.
  { exists st, false. rewrite ?Hra, ?Hrc, orb_false_r. split_and!; [done|by split|done..|eauto]. }
  destruct (overlaps r bi (ab_cb1 st)) eqn:Hov; cycle 1.
  { exists st, false. rewrite ?Hra, ?Hrc, orb_false_r. split_and!; [done| |done..|eauto].
    intros _. split; [done|]. intros r' ?. by simplify_eq/=. }
  pose proof (hunks_head _ _ _ _ _ r (side_hunks _ _ _ _ _ _ _ _ _ _ Hc) eq_refl) as Hhd.
  destruct (Side_absorb _ _ _ _ _ _ _ _ _ _ _ Hc) as (new & jc2 & -> & Hc2 & Hb & Hgap & Hnew).
  simpl. do 2 eexists. split_and!; [done..|by rewrite orb_true_r|].
  exists (b1 r), jc2. constructor; simpl.
  - eapply Side_mono; [done|]. lia.
  - done.
  - pose proof (side_e _ _ _ _ _ _ _ _ _ _ Hc). lia.
  - done.
  - intros _ Hsa. unfold overlaps in Hov. apply bool_decide_eq_true in Hov.
    destruct (side_unseen _ _ _ _ _ _ _ _ _ _ Ha Hsa) as (-> & _ & _).
    pose proof (side_e _ _ _ _ _ _ _ _ _ _ Hc) as He.
    destruct (ab_saw_c st) eqn:Hsc.
    { destruct (Hoc eq_refl Hsa) as [_ Hlt]. specialize (Hlt r eq_refl). lia. }
    destruct (side_unseen _ _ _ _ _ _ _ _ _ _ Hc eq_refl) as (-> & -> & ->). simpl.
    split; [|done]. apply Hnew. lia.
Qed.

Lemma absorb_spec b a c bi ja jc : ∀ fuel st ea ja' ec jc',
  Absorbing b a c bi ja jc st ea ja' ec jc' →
  length (ab_ra st) + length (ab_rc st) < fuel →
  ∃ st' ea2 ja2 ec2 jc2, absorb fuel a c bi st = Some st' ∧
    Absorbing b a c bi ja jc st' ea2 ja2 ec2 jc2 ∧
    settled (ab_ra st') bi (ab_cb1 st') ∧ settled (ab_rc st') bi (ab_cb1 st') ∧
    (ab_saw_a st || ab_saw_c st = true → ab_saw_a st' || ab_saw_c st' = true) ∧
    (ab_ra st = [] → ab_ra st' = [] ∧ ab_saw_a st' = ab_saw_a st) ∧
    (ab_rc st = [] → ab_rc st' = [] ∧ ab_saw_c st' = ab_saw_c st) ∧
    (st' = st ∨ (ab_saw_a st' || ab_saw_c st' = true ∧
       length (ab_ra st') + length (ab_rc st') < length (ab_ra st) + length (ab_rc st))).
Proof.
  induction fuel as [|fuel IH]; intros st ea ja' ec jc' Hst Hf; [lia|]. simpl.
  destruct (absorb_active_spec _ _ _ _ _ _ _ _ _ _ _ Hst)
    as (st1 & ga & -> & Hga & Hla & Hrc1 & Hsc1 & Hma & ea2 & ja2 & Hst1). simpl.
  destruct (absorb_command_spec _ _ _ _ _ _ _ _ _ _ _ Hst1)
    as (st2 & gc & -> & Hgc & Hlc & Hra2 & Hsa2 & Hmc & ec2 & jc2 & Hst2). simpl.
  rewrite Hrc1 in Hlc. rewrite Hsc1 in Hmc. rewrite <-Hsa2 in Hma. rewrite <-Hra2 in Hla.
  destruct (ga || gc) eqn:Hg.
  - assert (length (ab_ra st2) + length (ab_rc st2) < length (ab_ra st) + length (ab_rc st))
      by (destruct ga, gc; simpl in *; [lia..|done]).
    assert (ab_saw_a st2 || ab_saw_c st2 = true) as Hsaw.
    { rewrite Hma, Hmc. by destruct ga, gc, (ab_saw_a st), (ab_saw_c st). }
    destruct (IH st2 ea2 ja2 ec2 jc2 Hst2)
      as (st' & ? & ? & ? & ? & H1 & H2 & H3 & H4 & H5 & Hna & Hnc & H6); [lia|].
    do 5 eexists. split_and!; [exact H1|exact H2|done|done|auto| | |].
    { intros Hnil. rewrite Hnil in Hla. destruct ga; [done|]. rewrite orb_false_r in Hma.
      rewrite <-Hma. by apply Hna, nil_length_inv. }
    { intros Hnil. rewrite Hnil in Hlc. destruct gc; [done|]. rewrite orb_false_r in Hmc.
      rewrite <-Hmc. by apply Hnc, nil_length_inv. }
    right. destruct H6 as [->|[? ?]]; split; auto; lia.
  - apply orb_false_iff in Hg as [-> ->].
    destruct (Hga eq_refl) as [-> Hsa], (Hgc eq_refl) as [-> Hsc].
    exists st, ea2, ja2, ec2, jc2. split_and!; auto.
Qed.

(** A side whose remaining regions start at [cb1] or later is at [cb1] itself
    after some more kept lines. *)
Lemma Side_close b o bi jo cb1 ls saw rs e jo' :
  Side b o bi jo cb1 ls saw rs e jo' → settled rs bi cb1 → cb1 ≤ length b →
  ∃ j, hunks b o cb1 j rs ∧ jo ≤ j ∧ edit_of (sl b bi cb1) (sl o jo j) ls ∧
    (saw = false → sl o jo j = sl b bi cb1) ∧ (e = cb1 → j = jo').
Proof.
  intros [Hh He Hj Hedit Hun] Hset Hlen.
  destruct (hunks_advance _ _ _ _ (cb1 - e) _ Hh) as (Ht & Hl & Hh').
  { intros r Hr. pose proof (settled_ge _ _ _ _ Hset Hr). lia. }
  { lia. }
  replace (e + (cb1 - e)) with cb1 in Hh' by lia.
  assert (sl b e cb1 = sl o jo' (jo' + (cb1 - e))) as Hk.
  { unfold sl. rewrite Ht. by replace (jo' + (cb1 - e) - jo') with (cb1 - e) by lia. }
  exists (jo' + (cb1 - e)). split_and!; [done|lia| | |lia].
  - rewrite (sl_app b bi e cb1), (sl_app o jo jo'), <-(app_nil_r ls), Hk by lia.
    apply edit_of_app; [done|apply edit_of_keep].
  - intros Hs. by destruct (Hun Hs) as (-> & -> & ->).
Qed.

(** The chunk a finished inner loop stands for. *)
Definition absorbed_chunk (st : absorbed A) (lb la lc : list A) : chunk A :=
  match ab_saw_a st, ab_saw_c st with
  | true, false => ActiveOnly lb (ab_a_lines st)
  | false, true => CommandOnly lb (ab_c_lines st)
  | true, true => Both lb la lc (ab_a_lines st)
  | false, false => Kept lb
  end.

Lemma Absorbing_chunk b a c bi ja jc st ea ja' ec jc' :
  Absorbing b a c bi ja jc st ea ja' ec jc' →
  settled (ab_ra st) bi (ab_cb1 st) → settled (ab_rc st) bi (ab_cb1 st) →
  ∃ ja2 jc2, bi ≤ ab_cb1 st ≤ length b ∧ ja ≤ ja2 ∧ jc ≤ jc2 ∧
    hunks b a (ab_cb1 st) ja2 (ab_ra st) ∧ hunks b c (ab_cb1 st) jc2 (ab_rc st) ∧
    let k := absorbed_chunk st (sl b bi (ab_cb1 st)) (sl a ja ja2) (sl c jc jc2) in
    base_of k = sl b bi (ab_cb1 st) ∧ active_of k = sl a ja ja2 ∧
    command_of k = sl c jc jc2 ∧ (ab_a_lines st = ab_c_lines st → chunk_ok k).
Proof.
  intros [Ha Hc Hcb Hoa Hoc] Hsa Hsc.
  pose proof (hunks_bounds _ _ _ _ _ (side_hunks _ _ _ _ _ _ _ _ _ _ Ha)) as [Hla _].
  pose proof (hunks_bounds _ _ _ _ _ (side_hunks _ _ _ _ _ _ _ _ _ _ Hc)) as [Hlc _].
  pose proof (side_e _ _ _ _ _ _ _ _ _ _ Ha) as Hea.
  pose proof (side_e _ _ _ _ _ _ _ _ _ _ Hc) as Hec.
  pose proof (side_unseen _ _ _ _ _ _ _ _ _ _ Ha) as Hua.
  pose proof (side_unseen _ _ _ _ _ _ _ _ _ _ Hc) as Huc.
  destruct (Side_close _ _ _ _ _ _ _ _ _ _ Ha Hsa) as (ja2 & Hha & ? & Hda & Hka & Hja); [lia|].
  destruct (Side_close _ _ _ _ _ _ _ _ _ _ Hc Hsc) as (jc2 & Hhc & ? & Hdc & Hkc & Hjc); [lia|].
  exists ja2, jc2. split_and!; [lia..|done|done|]. unfold absorbed_chunk.
  destruct (ab_saw_a st), (ab_saw_c st); simpl.
  - split_and!; [done..|]. intros Heq. by rewrite Heq in *.
  - destruct (Hoa eq_refl eq_refl) as [<- _], (Huc eq_refl) as (-> & _ & _).
    rewrite Hja by lia. by rewrite Hkc.
  - destruct (Hoc eq_refl eq_refl) as [<- _], (Hua eq_refl) as (-> & _ & _).
    rewrite Hjc by lia. by rewrite Hka.
  - by rewrite Hka, Hkc.
Qed.
End absorb_correct.

(** ** The outer loop *)

Section merge_correct.
Context {A : Type} `{!EqDecision A}.
Implicit Types b a c : list A.

Lemma chunks_of_cons (k : chunk A) ks b a c m i i' j j' l l' :
  i ≤ i' → j ≤ j' → l ≤ l' → chunk_ok k →
  base_of k = sl b i i' → active_of k = sl a j j' → command_of k = sl c l l' →
  chunks_of ks (drop i' b) (drop j' a) (drop l' c) m →
  chunks_of (k :: ks) (drop i b) (drop j a) (drop l c) (merged_of k ++ m).
Proof.
  intros ??? Hok Hb Ha Hc (Hoks & Hbs & Has & Hcs & Hms).
  rewrite (drop_sl b i i'), (drop_sl a j j'), (drop_sl c l l') by done.
  split; [by constructor|]. csimpl. by rewrite Hb, Ha, Hc, Hbs, Has, Hcs, Hms.
Qed.

(** What a call of [merge_loop] returns, given the positions it starts from. *)
Definition loop_result b a c (bi ja jc p : nat) (ra rc : list Region) (out : list A)
    (bd : OriginBuilder) (r : option (MergeOutcome (list A))) : Prop :=
  (r = Some Conflict ∧ ra ≠ [] ∧ rc ≠ []) ∨
  ∃ ks o rs, r = Some (Clean (out ++ o) rs) ∧
    chunks_of ks (drop bi b) (drop ja a) (drop jc c) o ∧
    tiled 1 rs ∧ expand rs = expand (ranges bd) ++ origins p ks ∧
    (ra = [] → Forall quiet_active ks) ∧ (rc = [] → Forall quiet_command ks).

Lemma loop_result_cons k os p' b a c bi bi' ja ja' jc jc' p ra ra' rc rc' out bd bd' r :
  bi ≤ bi' → ja ≤ ja' → jc ≤ jc' → chunk_ok k →
  base_of k = sl b bi bi' → active_of k = sl a ja ja' → command_of k = sl c jc jc' →
  chunk_origins p k = (os, p') → expand (ranges bd') = expand (ranges bd) ++ os →
  (ra = [] → ra' = [] ∧ quiet_active k) → (rc = [] → rc' = [] ∧ quiet_command k) →
  loop_result b a c bi' ja' jc' p' ra' rc' (out ++ merged_of k) bd' r →
  loop_result b a c bi ja jc p ra rc out bd r.
Proof.
  intros ??? Hok Hb Ha Hc Hk Hbd Hqa Hqc
    [(-> & ? & ?)|(ks & o & rs & -> & Hks & Ht & He & Hna & Hnc)]; [left; naive_solver|].
  right. exists (k :: ks), (merged_of k ++ o), rs.
  split_and!; [|by eapply chunks_of_cons|done|..].
  - by rewrite (assoc_L (++)).
  - simpl. by rewrite Hk, He, Hbd, (assoc_L (++)).
  - intros Hnil. constructor; naive_solver.
  - intros Hnil. constructor; naive_solver.
Qed.

Lemma kept_step b bi start out bd p :
  bi ≤ start ≤ length b →
  (if decide (bi < start) then
     kept ← slice b bi start;
     Some (out ++ kept, push_active bd p (start - bi), p + (start - bi), start)
   else Some (out, bd, p, bi)) =
  Some (out ++ sl b bi start, push_active bd p (start - bi), p + (start - bi), start).
Proof.
  intros ?. case_decide; [by rewrite slice_Some by lia|].
  assert (start = bi) as -> by lia. by rewrite sl_nil, Nat.sub_diag, app_nil_r, Nat.add_0_r.
Qed.

Lemma next_start_spec b a c bi ja jc ra rc start :
  hunks b a bi ja ra → hunks b c bi jc rc → next_start ra rc = Some start →
  bi ≤ start ≤ length b ∧
  (∀ r, head ra = Some r → start ≤ b0 r) ∧ (∀ r, head rc = Some r → start ≤ b0 r) ∧
  ¬ (settled ra start start ∧ settled rc start start).
Proof.
  intros Ha Hc. unfold next_start, settled, overlaps.
  destruct Ha as [|? ? ? r ra]; destruct Hc as [|? ? ? s rc]; simpl; intros; simplify_eq;
    (split_and!; [lia..|intros; simplify_eq; lia|intros; simplify_eq; lia|]);
    intros [Hs1 Hs2];
    try (specialize (Hs1 _ eq_refl); apply bool_decide_eq_false in Hs1);
    try (specialize (Hs2 _ eq_refl); apply bool_decide_eq_false in Hs2); lia.
Qed.

Lemma length_sl (l : list A) i j : i ≤ j ≤ length l → length (sl l i j) = j - i.
Proof. intros. unfold sl. rewrite length_take, length_drop. lia. Qed.

(** The kept lines in front of a chunk. *)
Lemma loop_result_kept b a c bi start ja jc p ra rc out bd r :
  hunks b a bi ja ra → hunks b c bi jc rc → next_start ra rc = Some start → builder_ok bd →
  (hunks b a start (ja + (start - bi)) ra → hunks b c start (jc + (start - bi)) rc →
   loop_result b a c start (ja + (start - bi)) (jc + (start - bi)) (p + (start - bi)) ra rc
     (out ++ sl b bi start) (push_active bd p (start - bi)) r) →
  loop_result b a c bi ja jc p ra rc out bd r.
Proof.
  intros Ha Hc Hst Hbd Hr.
  destruct (next_start_spec _ _ _ _ _ _ _ _ _ Ha Hc Hst) as (Hs & Hra & Hrc & _).
  destruct (hunks_advance _ _ _ _ (start - bi) _ Ha) as (Hta & Hja & Ha1);
    [intros q Hq; specialize (Hra q Hq); lia|lia|].
  destruct (hunks_advance _ _ _ _ (start - bi) _ Hc) as (Htc & Hjc & Hc1);
    [intros q Hq; specialize (Hrc q Hq); lia|lia|].
  replace (bi + (start - bi)) with start in * by lia.
  eapply (loop_result_cons (Kept (sl b bi start)));
    [..|exact (Hr Ha1 Hc1)]; [lia..|done|done| | |simpl; by rewrite length_sl| |done|done].
  - simpl. unfold sl. rewrite Hta. f_equal. lia.
  - simpl. unfold sl. rewrite Htc. f_equal. lia.
  - by apply push_active_ok.
Qed.

(** The tail after the last region. *)
Lemma loop_result_done b a c bi ja jc p ra rc out bd :
  hunks b a bi ja ra → hunks b c bi jc rc → next_start ra rc = None → builder_ok bd →
  loop_result b a c bi ja jc p ra rc out bd
    (count ← usub (length b) bi;
     tail ← slice b bi (length b);
     Some (Clean (out ++ tail) (ranges (push_active bd p count)))).
Proof.
  intros Ha Hc Hst Hbd. unfold next_start in Hst.
  destruct ra as [|? ?], rc as [|? ?]; simpl in Hst; simplify_eq.
  inversion Ha as [? ? Hda Hba|]; inversion Hc as [? ? Hdc|]; subst.
  rewrite usub_Some, slice_Some by lia. cbn [mbind option_bind].
  rewrite firstn_all2 by (rewrite length_drop; lia).
  destruct (push_active_ok bd p (length b - bi) Hbd) as [[Ht _] He].
  right. exists [Kept (drop bi b)], (drop bi b). eexists. split_and!; [done| |done| |by repeat constructor..].
  - split; [by repeat constructor|]. csimpl. by rewrite !app_nil_r, <-Hda, <-Hdc.
  - simpl. by rewrite app_nil_r, length_drop, He.
Qed.

Lemma merge_loop_spec b a c : ∀ fuel bi ja jc p ra rc out bd,
  hunks b a bi ja ra → hunks b c bi jc rc → builder_ok bd → length ra + length rc < fuel →
  loop_result b a c bi ja jc p ra rc out bd (merge_loop fuel b a c bi p ra rc out bd).
Proof.
  induction fuel as [|fuel IH]; intros bi ja jc p ra rc out bd Ha Hc Hbd Hf; [lia|].
  cbn [merge_loop]. destruct (next_start ra rc) as [start|] eqn:Hst;
    [|by apply loop_result_done].
  destruct (next_start_spec _ _ _ _ _ _ _ _ _ Ha Hc Hst) as (Hs & _ & _ & Hdead).
  rewrite kept_step by done. cbn [mbind option_bind].
  apply (loop_result_kept _ _ _ _ start); [done..|]. intros Ha1 Hc1.
  apply (push_active_ok bd p (start - bi)) in Hbd as [Hbd _].
  revert Ha1 Hc1 Hbd. generalize (push_active bd p (start - bi)), (ja + (start - bi)),
    (jc + (start - bi)), (p + (start - bi)), (out ++ sl b bi start).
  clear dependent ja jc out bd p. intros bd ja jc p out Ha Hc Hbd.
  destruct (absorb_spec b a c start ja jc (S (length ra + length rc))
    (mkAbsorbed start [] [] false false ra rc) start ja start jc)
    as (st & ea & ja2 & ec & jc2 & -> & Habs & Hsa & Hsc & _ & Hna & Hnc & Hprog).
  { split; simpl; [split|split|..]; rewrite ?sl_nil; try done; try lia; constructor. }
  { simpl. lia. }
  cbn [mbind option_bind].
  destruct Hprog as [->|[Hsaw Hlen]]; [by destruct Hdead|]. simpl in Hlen.
  destruct (Absorbing_chunk _ _ _ _ _ _ _ _ _ _ _ Habs Hsa Hsc)
    as (ja3 & jc3 & Hcb & Hj3 & Hc3 & Hha & Hhc & Hkb & Hka & Hkc & Hok).
  rewrite usub_Some by lia. cbn [mbind option_bind]. rewrite Nat.min_l by lia.
  assert (∀ lb la lc, ra = [] → ab_ra st = [] ∧ quiet_active (absorbed_chunk st lb la lc)) as Hqa.
  { intros ??? ->. destruct Hna as [-> Hs']; [done|]. split; [done|].
    unfold absorbed_chunk. rewrite Hs'. by destruct (ab_saw_c st). }
  assert (∀ lb la lc, rc = [] → ab_rc st = [] ∧ quiet_command (absorbed_chunk st lb la lc)) as Hqc.
  { intros ??? ->. destruct Hnc as [-> Hs']; [done|]. split; [done|].
    unfold absorbed_chunk. rewrite Hs'. by destruct (ab_saw_a st). }
  specialize (Hqa (sl b start (ab_cb1 st)) (sl a ja ja3) (sl c jc jc3)).
  specialize (Hqc (sl b start (ab_cb1 st)) (sl a ja ja3) (sl c jc jc3)).
  set (k := absorbed_chunk st _ _ _) in *.
  unfold absorbed_chunk in k. destruct (ab_saw_a st), (ab_saw_c st); [| | |done].
  - case_decide as Heq; [|left; naive_solver].
    destruct (push_active_ok bd p (length (ab_a_lines st)) Hbd) as [Hbd1 He1].
    eapply (loop_result_cons k _ _ _ _ _ start (ab_cb1 st) ja ja3 jc jc3);
      [lia|lia|lia|by apply Hok|done|done|done|done|done|done|done|apply IH; auto; lia].
  - destruct (push_active_ok bd p (length (ab_a_lines st)) Hbd) as [Hbd1 He1].
    eapply (loop_result_cons k _ _ _ _ _ start (ab_cb1 st) ja ja3 jc jc3);
      [lia|lia|lia|done|done|done|done|done|done|done|done|apply IH; auto; lia].
  - destruct (push_command_ok bd (length (ab_c_lines st)) Hbd) as [Hbd1 He1].
    eapply (loop_result_cons k _ _ _ _ _ start (ab_cb1 st) ja ja3 jc jc3);
      [lia|lia|lia|done|done|done|done|simpl; by rewrite length_sl|done|done|done|apply IH; auto; lia].
Qed.

(** [merge_lines] always returns, a conflict or a merge that decomposes into
    chunks and whose origin ranges tile its lines. *)
Lemma merge_lines_spec b a c :
  (merge_lines b a c = Some Conflict ∧ a ≠ b ∧ c ≠ b) ∨
  ∃ ks m rs, merge_lines b a c = Some (Clean m rs) ∧ chunks_of ks b a c m ∧
    tiled 1 rs ∧ expand rs = origins 0 ks ∧
    (a = b → Forall quiet_active ks) ∧ (c = b → Forall quiet_command ks).
Proof.
  unfold merge_lines.
  destruct (diff_script b a) as (ops_a & Hda & Ha), (diff_script b c) as (ops_c & Hdc & Hc).
  rewrite Hda, Hdc. cbn [mbind option_bind].
  assert (a = b → regions ops_a = []) as Hea.
  { intros ->. rewrite diff_same in Hda. simplify_eq. apply regions_same. }
  assert (c = b → regions ops_c = []) as Hec.
  { intros ->. rewrite diff_same in Hdc. simplify_eq. apply regions_same. }
  destruct (merge_loop_spec b a c (S (length (regions ops_a) + length (regions ops_c)))
    0 0 0 0 (regions ops_a) (regions ops_c) [] builder_default) as
    [?|(ks & m & rs & ? & ? & ? & ? & ? & ?)]; [by apply regions_hunks..|by split|lia| |].
  - naive_solver.
  - right. exists ks, m, rs. naive_solver.
Qed.

Lemma length_origins p (ks : list (chunk A)) :
  length (origins p ks) = length (concat (merged_of <$> ks)).
Proof.
  revert p. induction ks as [|k ks IH]; intros p; [done|]. csimpl.
  destruct (chunk_origins p k) as [os p'] eqn:Hk. rewrite !length_app, IH. f_equal.
  destruct k; simpl in *; simplify_eq; by rewrite ?length_fmap, ?length_seq, ?length_replicate.
Qed.

(** *** Both sides making the same change *)

Lemma absorb_same b o bi j r rs fuel :
  hunks b o bi j (r :: rs) → b0 r = bi → 1 < fuel →
  ∃ ls, mapM (λ i, o !! i) (repl r) = Some ls ∧
    absorb fuel o o bi (mkAbsorbed bi [] [] false false (r :: rs) (r :: rs)) =
    Some (mkAbsorbed (b1 r) ls ls true true rs rs) ∧
    ls = sl o j (j + length (repl r)) ∧ bi ≤ b1 r ≤ length b ∧
    hunks b o (b1 r) (j + length (repl r)) rs.
Proof.
  intros Hh Hb Hf. inversion Hh as [|? ? n ? ? Hb0 Ht Hb1 Hlen Hrepl Hne Hgap Hrest]; subst.
  assert (n = 0) as -> by lia. rewrite Nat.add_0_r in *.
  assert (∀ r', head rs = Some r' → overlaps r' (b0 r) (b1 r) = false) as Hover.
  { intros r' Hr'. specialize (Hgap r' Hr'). apply bool_decide_eq_false. lia. }
  eexists. split_and!; [rewrite Hrepl; by apply repl_lines| |by unfold sl; f_equal; lia|lia|lia|done].
  destruct fuel as [|[|fuel]]; [lia..|].
  cbn [absorb]. unfold absorb_active, absorb_command. cbn [ab_ra ab_rc ab_cb1].
  assert (overlaps r (b0 r) (b0 r) = true) as -> by (apply bool_decide_eq_true; lia).
  rewrite Hrepl at 1. rewrite repl_lines by done. cbn [mbind option_bind ab_rc ab_cb1].
  assert (overlaps r (b0 r) (b0 r `max` b1 r) = true) as -> by (apply bool_decide_eq_true; lia).
  rewrite Hrepl at 1. rewrite repl_lines by done. cbn [mbind option_bind orb ab_ra ab_rc ab_cb1].
  replace ((b0 r `max` b1 r) `max` b1 r) with (b1 r) by lia.
  destruct rs as [|r' rs]; cbn; [done|]. rewrite (Hover r' eq_refl). cbn.
  by rewrite (Hover r' eq_refl).
Qed.

Lemma merge_loop_same b o : ∀ fuel bi j rs out bd,
  hunks b o bi j rs → builder_ok bd → length rs < fuel →
  ∃ rs', merge_loop fuel b o o bi j rs rs out bd = Some (Clean (out ++ drop j o) rs') ∧
    tiled 1 rs' ∧ expand rs' = expand (ranges bd) ++ (Active <$> seq j (length o - j)).
Proof.
  induction fuel as [|fuel IH]; intros bi j rs out bd Hh Hbd Hf; [lia|]. cbn [merge_loop].
  destruct rs as [|r rs].
  { inversion Hh as [? ? Hd|]; subst. cbn [next_start head].
    rewrite usub_Some, slice_Some by lia. cbn [mbind option_bind].
    rewrite firstn_all2 by (rewrite length_drop; lia). rewrite Hd.
    destruct (push_active_ok bd j (length b - bi) Hbd) as [[Ht _] He].
    apply (f_equal length) in Hd. rewrite !length_drop in Hd.
    eexists. split_and!; [done|done|]. by rewrite He, Hd. }
  assert (next_start (r :: rs) (r :: rs) = Some (b0 r)) as Hns
    by (unfold next_start; cbn [head]; by rewrite Nat.min_id).
  rewrite Hns. destruct (next_start_spec _ _ _ _ _ _ _ _ _ Hh Hh Hns) as (Hs & _).
  rewrite kept_step by done. cbn [mbind option_bind].
  destruct (hunks_advance _ _ _ _ (b0 r - bi) _ Hh) as (Ht & Hj & Hh1);
    [intros ? [= ->]; lia|lia|].
  replace (bi + (b0 r - bi)) with (b0 r) in * by lia.
  destruct (push_active_ok bd j (b0 r - bi) Hbd) as [Hbd1 He1].
  destruct (absorb_same b o (b0 r) (j + (b0 r - bi)) r rs
    (S (length (r :: rs) + length (r :: rs)))) as (ls & _ & -> & Hls & Hb1 & Hh2); [done..|simpl; lia|].
  cbn [mbind option_bind ab_cb1 ab_ra ab_rc ab_a_lines ab_c_lines ab_saw_a ab_saw_c].
  rewrite usub_Some, decide_True, Nat.min_l by (done || lia). cbn [mbind option_bind].
  assert (length ls = length (repl r)) as Hlen.
  { rewrite Hls. apply hunks_bounds in Hh2. rewrite length_sl; lia. }
  rewrite Hlen. destruct (push_active_ok (push_active bd j (b0 r - bi)) (j + (b0 r - bi))
    (length (repl r)) Hbd1) as [Hbd2 He2].
  apply hunks_bounds in Hh2 as Hbnd. simpl in Hf.
  edestruct IH as (rs' & -> & Htile & Hexp); [exact Hh2|exact Hbd2|lia|].
  eexists. split_and!; [|done|].
  - do 2 f_equal. rewrite <-!(assoc_L (++)). f_equal. rewrite Hls, <-drop_sl by lia.
    rewrite (drop_sl o j (j + (b0 r - bi))) by lia. f_equal. unfold sl. rewrite Ht. f_equal. lia.
  - rewrite Hexp, He2, He1, <-!(assoc_L (++)), <-!fmap_app, <-!seq_app. do 3 f_equal. lia.
Qed.

Lemma merge_lines_same b o :
  ∃ rs, merge_lines b o o = Some (Clean o rs) ∧ tiled 1 rs ∧
    expand rs = Active <$> seq 0 (length o).
Proof.
  unfold merge_lines. destruct (diff_script b o) as (ops & -> & Ho). cbn [mbind option_bind].
  edestruct (merge_loop_same b o) as (rs & -> & Ht & He);
    [by apply regions_hunks|by split|by apply Nat.lt_succ_r, Nat.le_add_r|].
  exists rs. split_and!; [done|done|]. by rewrite He, Nat.sub_0_r.
Qed.

(** *** What the reported origins mean *)

(** A chunk both sides changed puts exactly the active side's lines in place. *)
Definition faithful (k : chunk A) : Prop :=
  match k with Both _ a _ m => m = a | _ => True end.

Lemma chunk_origins_sound p (k : chunk A) os p' :
  faithful k → chunk_origins p k = (os, p') →
  p' = p + length (active_of k) ∧ length os = length (merged_of k) ∧
  ∀ i j, os !! i = Some (Active j) → p ≤ j ∧ merged_of k !! i = active_of k !! (j - p).
Proof.
  intros Hf Hk. destruct k as [l|kb ka|kb kc|kb ka kc km]; simpl in *; simplify_eq;
    rewrite ?length_fmap, ?length_seq, ?length_replicate;
    (split_and!; [lia|done|]); intros i j Hi;
    try (apply list_lookup_fmap_Some in Hi as (? & ? & Hi); simplify_eq;
         apply lookup_seq in Hi as [-> ?]; split; [lia|]; f_equal; lia).
  by apply lookup_replicate in Hi as [? _].
Qed.

(** Where every chunk is faithful, a line with origin [Active j] is the active
    side's line [j]. *)
Lemma origins_sound (ks : list (chunk A)) : ∀ p i j,
  Forall faithful ks → origins p ks !! i = Some (Active j) →
  p ≤ j ∧ concat (merged_of <$> ks) !! i = concat (active_of <$> ks) !! (j - p).
Proof.
  induction ks as [|k ks IH]; intros p i j Hf Hi; [done|]. csimpl. simpl in Hi.
  inversion Hf as [|? ? Hk Hf']; subst.
  destruct (chunk_origins p k) as [os p'] eqn:Hos.
  destruct (chunk_origins_sound _ _ _ _ Hk Hos) as (-> & Hlen & Hsound).
  destruct (decide (i < length os)) as [Hlt|Hge].
  - rewrite lookup_app_l in Hi by done. destruct (Hsound _ _ Hi) as [Hp Hm].
    split; [done|]. rewrite lookup_app_l by lia. rewrite Hm. symmetry. apply lookup_app_l.
    apply lookup_lt_is_Some. rewrite <-Hm. apply lookup_lt_is_Some. lia.
  - rewrite lookup_app_r in Hi by lia. destruct (IH _ _ _ Hf' Hi) as [Hp Hm].
    split; [lia|]. rewrite !lookup_app_r by lia. rewrite <-Hlen, Hm. f_equal. lia.
Qed.
End merge_correct.

(** ** Lines and bytes *)

(** A line closed by a newline. *)
Definition line_ok (l : bytes) : Prop := ∃ body, l = body ++ [newline] ∧ newline ∉ body.

(** Closed lines, then at most one non-empty line without a newline. *)
Fixpoint well_split (ls : list bytes) : Prop :=
  match ls with
  | [] => True
  | [l] => line_ok l ∨ (l ≠ [] ∧ newline ∉ l)
  | l :: ls => line_ok l ∧ well_split ls
  end.

Lemma split_lines_from_join data : ∀ line, join_lines (split_lines_from line data) = line ++ data.
Proof.
  unfold join_lines. induction data as [|x data IH]; intros line; simpl.
  - case_decide; [by subst|]. simpl. done.
  - case_decide; simpl; rewrite IH; by rewrite <-(assoc_L (++)).
Qed.

Lemma well_split_cons l ls : line_ok l → well_split ls → well_split (l :: ls).
Proof. destruct ls; simpl; auto. Qed.

Lemma split_lines_from_wf data : ∀ line,
  newline ∉ line → well_split (split_lines_from line data).
Proof.
  induction data as [|x data IH]; intros line Hl; simpl.
  - case_decide; [done|]. simpl. auto.
  - case_decide; simplify_eq.
    + apply well_split_cons; [by exists line|]. apply IH. set_solver.
    + apply IH. set_solver.
Qed.

Lemma split_lines_from_body body line data :
  newline ∉ body → split_lines_from line (body ++ data) = split_lines_from (line ++ body) data.
Proof.
  revert line. induction body as [|x body IH]; intros line Hn; simpl; [by rewrite app_nil_r|].
  rewrite decide_False by set_solver. rewrite IH by set_solver. by rewrite <-(assoc_L (++)).
Qed.

Lemma split_lines_cons l data : line_ok l → split_lines (l ++ data) = l :: split_lines data.
Proof.
  intros (body & -> & Hn). unfold split_lines. rewrite <-(assoc_L (++)).
  by rewrite split_lines_from_body.
Qed.

Lemma split_lines_join ls : well_split ls → split_lines (join_lines ls) = ls.
Proof.
  induction ls as [|l ls IH]; intros Hw; [done|]. simpl.
  destruct (decide (ls = [])) as [->|Hne].
  - simpl in *. rewrite app_nil_r. destruct Hw as [Hl|[Hne Hn]].
    + rewrite <-(app_nil_r l) at 1. by rewrite split_lines_cons.
    + unfold split_lines. rewrite <-(app_nil_r l) at 1.
      rewrite split_lines_from_body by done. simpl. by rewrite decide_False.
  - destruct ls as [|l' ls]; [done|]. destruct Hw as [Hl Hw].
    by rewrite split_lines_cons, IH.
Qed.

Lemma split_lines_wf data : well_split (split_lines data).
Proof. apply split_lines_from_wf. set_solver. Qed.

Lemma join_split_lines data : join_lines (split_lines data) = data.
Proof. unfold split_lines. by rewrite split_lines_from_join. Qed.

(** [data] is empty or ends in a newline. *)
Definition terminated (data : bytes) : Prop := data = [] ∨ last data = Some newline.

Lemma split_lines_terminated data : terminated data → Forall line_ok (split_lines data).
Proof.
  intros Ht. pose proof (split_lines_wf data) as Hw. rewrite <-(join_split_lines data) in Ht.
  induction (split_lines data) as [|l ls IH]; [done|]. unfold join_lines in *. simpl in Ht.
  destruct ls as [|l' ls].
  - simpl in *. rewrite app_nil_r in Ht. constructor; [|done]. destruct Hw as [?|[Hne Hn]]; [done|].
    destruct Ht as [?|Ht]; [done|]. apply last_Some_elem_of in Ht. done.
  - destruct Hw as [Hl Hw]. constructor; [done|]. apply IH; [|done]. right.
    destruct Ht as [Ht|Ht]; [by destruct Hl as (? & -> & _); destruct x|].
    rewrite last_app in Ht. destruct (last (concat (l' :: ls))) eqn:Hlast; [done|].
    apply last_None in Hlast. exfalso. simpl in Hlast. apply app_nil in Hlast as [-> _].
    destruct ls; simpl in Hw; [destruct Hw as [Hw|[? _]]|destruct Hw as [Hw _]]; try done;
      destruct Hw as (body & Hw & _); by destruct body.
Qed.

Lemma Forall_line_ok_well_split ls : Forall line_ok ls → well_split ls.
Proof. induction 1; [done|]. by apply well_split_cons. Qed.

(** Every merged line of a chunk is an active or a command line. *)
Lemma merged_lines_elem {A} (ks : list (chunk A)) b a c m :
  chunks_of ks b a c m → ∀ l, l ∈ m → l ∈ a ∨ l ∈ c.
Proof.
  intros (Hok & <- & <- & <- & <-) l Hl.
  apply elem_of_concat in Hl as (ls & Hl & Hk). apply list_elem_of_fmap in Hk as (k & -> & Hk).
  assert (l ∈ active_of k ∨ l ∈ command_of k) as Hin.
  { rewrite Forall_forall in Hok. specialize (Hok k Hk). destruct k as [| | |kb ka kc km]; simpl in *; auto.
    left. destruct Hok as [He _]. clear -He Hl. induction He; set_solver. }
  rewrite !elem_of_concat.
  destruct Hin; [left|right]; eexists; (split; [done|]); by apply list_elem_of_fmap_2.
Qed.

(** ** Properties of [three_way_merge] *)

Lemma three_way_merge_eligible base active command :
  eligible base → eligible active → eligible command →
  three_way_merge base active command =
    r ← merge_lines (split_lines base) (split_lines active) (split_lines command);
    Some match r with
         | Clean out origin => Clean (join_lines out) origin
         | Conflict => Conflict
         | Ineligible => Ineligible
         end.
Proof.
  unfold three_way_merge. intros H1 H2 H3.
  by rewrite (Is_true_true_1 _ H1), (Is_true_true_1 _ H2), (Is_true_true_1 _ H3).
Qed.

Lemma three_way_merge_ineligible base active command :
  ¬ (eligible base ∧ eligible active ∧ eligible command) →
  three_way_merge base active command = Some Ineligible.
Proof.
  unfold three_way_merge. intros Hne.
  destruct (eligible base), (eligible active), (eligible command); simpl in *; naive_solver.
Qed.

(** A clean merge comes with its chunks. *)
Lemma three_way_merge_clean base active command out rs :
  three_way_merge base active command = Some (Clean out rs) →
  ∃ ks m, out = join_lines m ∧
    chunks_of ks (split_lines base) (split_lines active) (split_lines command) m ∧
    tiled 1 rs ∧ expand rs = origins 0 ks ∧ length (expand rs) = length m.
Proof.
  intros Hm. destruct (decide (eligible base ∧ eligible active ∧ eligible command))
    as [(Hb & Ha & Hc)|Hne]; [|by rewrite three_way_merge_ineligible in Hm].
  rewrite three_way_merge_eligible in Hm by done.
  destruct (merge_lines_spec (split_lines base) (split_lines active) (split_lines command))
    as [(Heq & _)|(ks & m & rs' & Heq & Hks & Ht & He & _)]; rewrite Heq in Hm; simplify_eq/=.
  exists ks, m. split_and!; [done..|]. rewrite He, length_origins.
  by destruct Hks as (_ & _ & _ & _ & ->).
Qed.

(** The merge never panics and never runs out of steps. *)
Lemma three_way_merge_total base active command : is_Some (three_way_merge base active command).
Proof.
  destruct (decide (eligible base ∧ eligible active ∧ eligible command)) as [(Hb & Ha & Hc)|Hne];
    [|by rewrite three_way_merge_ineligible].
  rewrite three_way_merge_eligible by done.
  destruct (merge_lines_spec (split_lines base) (split_lines active) (split_lines command))
    as [(-> & _)|(ks & m & rs & -> & _)]; by eexists.
Qed.

(** The outcome itself. *)
Definition merge_outcome (base active command : bytes) : MergeOutcome bytes :=
  is_Some_proj (three_way_merge_total base active command).

Lemma merge_outcome_Some base active command :
  three_way_merge base active command = Some (merge_outcome base active command).
Proof.
  unfold merge_outcome. generalize (three_way_merge_total base active command).
  by intros [o Ho]; destruct (three_way_merge base active command).
Qed.

(** C24: [three_way_merge] always returns.  It is ineligible exactly when one of
    the versions is; otherwise it conflicts, which needs both sides to differ
    from the base, or returns a merge that decomposes with the three versions
    into kept, one-sided and two-sided chunks, and its origin ranges tile the
    merged lines and report the origins of the chunks. *)
Theorem three_way_merge_chunks base active command :
  match three_way_merge base active command with
  | Some Ineligible => ¬ (eligible base ∧ eligible active ∧ eligible command)
  | Some Conflict => active ≠ base ∧ command ≠ base
  | Some (Clean out rs) =>
      ∃ ks m, out = join_lines m ∧
        chunks_of ks (split_lines base) (split_lines active) (split_lines command) m ∧
        tiled 1 rs ∧ expand rs = origins 0 ks ∧ length (expand rs) = length m
  | None => False
  end.
Proof.
  destruct (decide (eligible base ∧ eligible active ∧ eligible command)) as [(Hb & Ha & Hc)|Hne];
    [|by rewrite three_way_merge_ineligible].
  destruct (three_way_merge base active command) as [[out rs| |]|] eqn:Hm;
    [by apply three_way_merge_clean|..];
    rewrite three_way_merge_eligible in Hm by done;
    destruct (merge_lines_spec (split_lines base) (split_lines active) (split_lines command))
      as [(Heq & Hna & Hnc)|(ks & m & rs & Heq & _)]; rewrite Heq in Hm; simplify_eq/=.
  split; congruence.
Qed.

(** A side that did not change the file gives way to the other one: with the
    active version equal to the base the merge is the command version, byte for
    byte, and every line reported as active line [j] is that line of the base;
    with the command version equal to the base the merge is the active version
    with each line reported as itself. *)
Theorem three_way_merge_one_sided base x :
  eligible base → eligible x →
  (∃ rs, three_way_merge base base x = Some (Clean x rs) ∧ tiled 1 rs ∧
     length (expand rs) = length (split_lines x) ∧
     ∀ i j, expand rs !! i = Some (Active j) → split_lines x !! i = split_lines base !! j) ∧
  (∃ rs, three_way_merge base x base = Some (Clean x rs) ∧ tiled 1 rs ∧
     length (expand rs) = length (split_lines x) ∧
     ∀ i j, expand rs !! i = Some (Active j) → split_lines x !! i = split_lines x !! j).
Proof.
  intros Hb Hx. split.
  - rewrite three_way_merge_eligible by done.
    destruct (merge_lines_spec (split_lines base) (split_lines base) (split_lines x))
      as [(_ & ? & _)|(ks & m & rs & -> & (_ & Hkb & Hka & Hkc & Hkm) & Ht & He & Hq & _)]; [done|].
    cbn [mbind option_bind]. assert (m = split_lines x) as ->.
    { rewrite <-Hkc, <-Hkm. specialize (Hq eq_refl). clear -Hq.
      induction Hq as [|[] ks Hk _ IH]; csimpl; [done|..]; by rewrite ?IH. }
    exists rs. rewrite join_split_lines. split_and!; [done|done|by rewrite He, length_origins, Hkm|].
    intros i j Hi. rewrite He in Hi. apply origins_sound in Hi as [_ Hi].
    + by rewrite Hkm, Hka, Nat.sub_0_r in Hi.
    + eapply Forall_impl; [by apply Hq|]. by intros [].
  - rewrite three_way_merge_eligible by done.
    destruct (merge_lines_spec (split_lines base) (split_lines x) (split_lines base))
      as [(_ & _ & ?)|(ks & m & rs & -> & (_ & Hkb & Hka & Hkc & Hkm) & Ht & He & _ & Hq)]; [done|].
    cbn [mbind option_bind]. assert (m = split_lines x) as ->.
    { rewrite <-Hka, <-Hkm. specialize (Hq eq_refl). clear -Hq.
      induction Hq as [|[] ks Hk _ IH]; csimpl; [done|..]; by rewrite ?IH. }
    exists rs. rewrite join_split_lines. split_and!; [done|done|by rewrite He, length_origins, Hkm|].
    intros i j Hi. rewrite He in Hi. apply origins_sound in Hi as [_ Hi].
    + by rewrite Hkm, Hka, Nat.sub_0_r in Hi.
    + eapply Forall_impl; [by apply Hq|]. by intros [].
Qed.

(** Three small versions used by the witnesses. *)
Definition doc_base : bytes := bytes_of "a" ++ [newline] ++ bytes_of "b" ++ [newline].
Definition doc_edit : bytes := bytes_of "a" ++ [newline] ++ bytes_of "x" ++ [newline].

Lemma three_way_merge_one_sided_witness :
  ∃ rs, three_way_merge doc_base doc_base doc_edit = Some (Clean doc_edit rs).
Proof.
  destruct (three_way_merge_one_sided doc_base doc_edit) as [(rs & H & _) _];
    [vm_compute; done..|]. by exists rs.
Defined.

(** When both sides made the same change the merge is that version, never a
    conflict, and line [i] is reported as active line [i]. *)
Theorem three_way_merge_same_change base x :
  eligible base → eligible x →
  ∃ rs, three_way_merge base x x = Some (Clean x rs) ∧ tiled 1 rs ∧
    expand rs = Active <$> seq 0 (length (split_lines x)).
Proof.
  intros Hb Hx. rewrite three_way_merge_eligible by done.
  destruct (merge_lines_same (split_lines base) (split_lines x)) as (rs & -> & Ht & He).
  exists rs. cbn [mbind option_bind]. by rewrite join_split_lines.
Qed.

Lemma three_way_merge_same_change_witness :
  ∃ rs, three_way_merge doc_base doc_edit doc_edit = Some (Clean doc_edit rs).
Proof.
  destruct (three_way_merge_same_change doc_base doc_edit) as (rs & H & _);
    [vm_compute; done..|]. by exists rs.
Defined.

(** Where the two-sided chunks of a clean merge put exactly the active
    lines in place, the reported origins are right: a merged line with origin
    [Active j] is line [j] of the active version. *)
Theorem three_way_merge_origins base active command out rs :
  three_way_merge base active command = Some (Clean out rs) →
  ∃ ks m, out = join_lines m ∧
    chunks_of ks (split_lines base) (split_lines active) (split_lines command) m ∧
    (Forall faithful ks → ∀ i j, expand rs !! i = Some (Active j) →
       m !! i = split_lines active !! j).
Proof.
  intros Hm. apply three_way_merge_clean in Hm as (ks & m & Hout & Hks & _ & He & _).
  exists ks, m. split_and!; [done..|]. intros Hf i j Hi. rewrite He in Hi.
  apply origins_sound in Hi as [_ Hi]; [|done]. destruct Hks as (_ & _ & <- & _ & <-).
  by rewrite Nat.sub_0_r in Hi.
Qed.

Lemma three_way_merge_origins_witness :
  ∃ ks m, doc_edit = join_lines m ∧
    chunks_of ks (split_lines doc_base) (split_lines doc_base) (split_lines doc_edit) m.
Proof.
  destruct (three_way_merge_origins doc_base doc_base doc_edit doc_edit
    [(mkRange 1 1, Active 0); (mkRange 2 1, Command)]) as (ks & m & H1 & H2 & _).
  - vm_compute. reflexivity.
  - by exists ks, m.
Defined.

(** When the three versions end in a newline (or are empty), a clean merge
    splits back into whole lines, each of them a line of the active or of the
    command version. *)
Theorem three_way_merge_whole_lines base active command out rs :
  three_way_merge base active command = Some (Clean out rs) →
  terminated active → terminated command →
  length (split_lines out) = length (expand rs) ∧
  ∀ l, l ∈ split_lines out → l ∈ split_lines active ∨ l ∈ split_lines command.
Proof.
  intros Hm Ha Hc.
  apply three_way_merge_clean in Hm as (ks & m & -> & Hks & _ & _ & Hlen).
  pose proof (merged_lines_elem _ _ _ _ _ Hks) as Helem.
  rewrite split_lines_join; [done|]. apply Forall_line_ok_well_split, Forall_forall.
  intros l Hl. apply split_lines_terminated in Ha, Hc. rewrite Forall_forall in Ha, Hc.
  destruct (Helem l Hl); auto.
Qed.

Lemma three_way_merge_whole_lines_witness :
  length (split_lines doc_edit) = 2 ∧
  ∀ l, l ∈ split_lines doc_edit → l ∈ split_lines doc_base ∨ l ∈ split_lines doc_edit.
Proof.
  apply (three_way_merge_whole_lines doc_base doc_base doc_edit doc_edit
    [(mkRange 1 1, Active 0); (mkRange 2 1, Command)]); vm_compute; auto.
Defined.

(** [split_lines] is the one way to cut the bytes into lines: a list of
    lines is the split exactly when it joins back to the bytes and consists of
    newline-terminated lines, the last one possibly unterminated but not
    empty. *)
Theorem split_lines_unique data ls :
  split_lines data = ls ↔ join_lines ls = data ∧ well_split ls.
Proof.
  split.
  - intros <-. split; [apply join_split_lines|apply split_lines_wf].
  - intros [<- Hw]. by apply split_lines_join.
Qed.

(** *** Behaviours outside the properties above *)

(** Lines of single letters, each closed by a newline. *)
Definition letters (s : string) : bytes := bytes_of s ≫= λ x, [x; newline].

(** Two sides that insert the same lines over different base ranges merge
    cleanly with wrong origins: merged line 2 ("Y") is reported as line 1 of the
    active version, which is "q". *)
Theorem coincident_inserts_misattributed :
  three_way_merge (letters "pqrz") (letters "XqYz") (letters "XYz") =
    Some (Clean (letters "XYz") [(mkRange 1 3, Active 0)]) ∧
  split_lines (letters "XYz") !! 1 = Some (letters "Y") ∧
  split_lines (letters "XqYz") !! 1 = Some (letters "q").
Proof. vm_compute. done. Qed.

(** When the active version has no final newline the merge can join its last
    line with a command line: the result has a line of neither version, and
    fewer lines than the origins report. *)
Theorem missing_newline_glues_lines :
  three_way_merge (letters "aq") (letters "a" ++ bytes_of "L") (letters "aqz") =
    Some (Clean (letters "a" ++ bytes_of "L" ++ letters "z")
            [(mkRange 1 2, Active 0); (mkRange 3 1, Command)]) ∧
  split_lines (letters "a" ++ bytes_of "L" ++ letters "z") =
    [letters "a"; bytes_of "L" ++ letters "z"].
Proof. vm_compute. done. Qed.
