(* ===== verification/Model.v ===== *)
(** * The layer-stack data model of [model/mod.rs]

    Layer paths, manifests and layer changes, the JSON encoding and hash of a
    manifest, and the digest of a change set.  [sha2::Sha256] is the parameter
    [sha256]; a file read for the digest is the parameter [read_source]. *)

From S2P Require Import Prelude ByteStr.

(** An absolute path, by components. *)
Abbreviation path := (list bytes).

(** ** Errors and layer paths *)

(** [enum CasError] *)
Inductive CasError :=
| InvalidPath (p : bytes)
| UnsupportedSchemaVersion (v : Z).

#[global] Instance CasError_eq_dec : EqDecision CasError.
Proof. solve_decision. Defined.

(** [struct LayerPath(String)] *)
Record LayerPath := mkLayerPath { as_str : bytes }.

#[global] Instance LayerPath_eq_dec : EqDecision LayerPath.
Proof. solve_decision. Defined.

Definition dot : bytes := lit ".".
Definition dotdot : bytes := lit "..".

(** The loop over [raw.split('/')]; [None] is the early return on [..]. *)
Fixpoint path_parts (parts : list bytes) : option (list bytes) :=
  match parts with
  | [] => Some []
  | part :: parts =>
      if decide (part = [] ∨ part = dot) then path_parts parts
      else if decide (part = dotdot) then None
      else (part ::.) <$> path_parts parts
  end.

(** [path.replace('\\', "/")] *)
Definition slashes (s : bytes) : bytes :=
  (λ x, if decide (x = backslash) then slash else x) <$> s.

Definition parse (p : bytes) : result LayerPath CasError :=
  let raw := trim (slashes p) in
  if decide (nul ∈ raw) then Err (InvalidPath p)
  else if starts_with [slash] raw then Err (InvalidPath p)
  else match path_parts (split_on slash raw) with
       | None => Err (InvalidPath p)
       | Some [] => Err (InvalidPath p)
       | Some parts => Ok (mkLayerPath (join_with slash parts))
       end.

(** ** Manifests *)

Definition MANIFEST_SCHEMA_VERSION : Z := 1.

(** [struct LayerRef { layer_id, path }] *)
Record LayerRef := mkLayerRef { layer_id : bytes; lr_path : bytes }.

(** [struct Manifest { version, layers, schema_version }] *)
Record Manifest := mkManifest {
  version : Z;
  layers : list LayerRef;
  schema_version : Z;
}.

#[global] Instance LayerRef_eq_dec : EqDecision LayerRef.
Proof. solve_decision. Defined.
#[global] Instance Manifest_eq_dec : EqDecision Manifest.
Proof. solve_decision. Defined.

(** [Manifest::new] *)
Definition manifest_new (v : Z) (ls : list LayerRef) (schema : Z) : result Manifest CasError :=
  if decide (schema ≠ MANIFEST_SCHEMA_VERSION) then Err (UnsupportedSchemaVersion schema)
  else Ok (mkManifest v ls schema).

Definition depth (m : Manifest) : nat := length (layers m).

(** ** The JSON encoding hashed by [manifest_root_hash] *)

Definition quote : byte := Byte.x22.

Definition push_u_escape (value : N) : bytes :=
  lit "\u" ++
  [hex_char (N.land (N.shiftr value 12) 0x0f); hex_char (N.land (N.shiftr value 8) 0x0f);
   hex_char (N.land (N.shiftr value 4) 0x0f); hex_char (N.land value 0x0f)].

(** The escape of one character. *)
Definition escape_char (c : N) : bytes :=
  if (c =? 0x22)%N then [backslash; quote]
  else if (c =? 0x5c)%N then [backslash; backslash]
  else if (c =? 0x08)%N then lit "\b"
  else if (c =? 0x09)%N then lit "\t"
  else if (c =? 0x0a)%N then lit "\n"
  else if (c =? 0x0c)%N then lit "\f"
  else if (c =? 0x0d)%N then lit "\r"
  else if (0x20 <=? c)%N && (c <=? 0x7e)%N then [default nul (Byte.of_N c)]
  else if (c <? 0x20)%N then push_u_escape c
  else if (c <=? 0xffff)%N then push_u_escape c
  else
    let v := (c - 0x10000)%N in
    push_u_escape (0xd800 + N.shiftr v 10) ++ push_u_escape (0xdc00 + N.land v 0x3ff).

Definition push_json_ascii_escaped (s : bytes) : bytes := chars s ≫= escape_char.

Definition layer_json (l : LayerRef) : bytes :=
  lit "{" ++ [quote] ++ lit "layer_id" ++ [quote] ++ lit ":" ++ [quote] ++
  push_json_ascii_escaped (layer_id l) ++ [quote] ++ lit "," ++ [quote] ++ lit "path" ++ [quote] ++
  lit ":" ++ [quote] ++ push_json_ascii_escaped (lr_path l) ++ [quote] ++ lit "}".

(** The loop over the layers, a comma in front of every layer but the first. *)
Fixpoint layers_json (first : bool) (ls : list LayerRef) : bytes :=
  match ls with
  | [] => []
  | l :: ls => (if first then [] else lit ",") ++ layer_json l ++ layers_json false ls
  end.

Definition manifest_layers_json (ls : list LayerRef) : bytes :=
  lit "{" ++ [quote] ++ lit "layers" ++ [quote] ++ lit ":[" ++ layers_json true ls ++ lit "]}".

Definition hex_lower (bs : bytes) : bytes :=
  bs ≫= λ x, [hex_char (N.shiftr (Byte.to_N x) 4); hex_char (N.land (Byte.to_N x) 0x0f)].

(** ** Layer changes *)

(** [enum LayerChange] *)
Inductive LayerChange :=
| Write (p : LayerPath) (content : bytes)
| WriteFile (p : LayerPath) (source_path : path) (size : Z)
| Delete (p : LayerPath)
| SymlinkTo (p : LayerPath) (source_path : bytes)
| Directory (p : LayerPath)
| OpaqueDir (p : LayerPath).

#[global] Instance LayerChange_eq_dec : EqDecision LayerChange.
Proof. solve_decision. Defined.

Definition kind (c : LayerChange) : bytes :=
  match c with
  | Write _ _ | WriteFile _ _ _ => lit "write"
  | Delete _ => lit "delete"
  | SymlinkTo _ _ => lit "symlink"
  | Directory _ => lit "directory"
  | OpaqueDir _ => lit "opaque_dir"
  end.

Definition change_path (c : LayerChange) : LayerPath :=
  match c with
  | Write p _ | WriteFile p _ _ | Delete p | SymlinkTo p _ | Directory p | OpaqueDir p => p
  end.

(** [by_path.insert(change.path().clone(), change)] *)
Definition insert_change (m : list (bytes * LayerChange)) (c : LayerChange) :
    list (bytes * LayerChange) :=
  bt_insert (as_str (change_path c)) c m.

Definition aggregate_layer_changes (changes : list LayerChange) : list LayerChange :=
  (foldl insert_change [] changes).*2.

Definition U64_MAX : Z := 2 ^ 64 - 1.
Definition u64_saturating_add (a b : Z) : Z := (a + b) `min` U64_MAX.

Definition change_bytes (c : LayerChange) : Z :=
  match c with
  | Write _ content => Z.of_nat (length content) `min` U64_MAX
  | WriteFile _ _ size => size
  | Delete _ | SymlinkTo _ _ | Directory _ | OpaqueDir _ => 0
  end.

Definition published_layer_bytes (changes : list LayerChange) : Z :=
  foldl u64_saturating_add 0%Z (change_bytes <$> changes).

(** ** Digests *)

Section digests.
Context (sha256 : bytes → bytes).

Definition manifest_root_hash (m : Manifest) : bytes :=
  hex_lower (sha256 (manifest_layers_json (layers m))).

Context {io_error : Type} (read_source : path → result bytes io_error).

(** The bytes [update_digest] feeds to the hasher for one change. *)
Definition update_digest (c : LayerChange) : result bytes io_error :=
  (let? content :=
    match c with
    | Write _ content => Ok content
    | WriteFile _ source_path _ => read_source source_path
    | SymlinkTo _ source_path => Ok source_path
    | Delete _ | Directory _ | OpaqueDir _ => Ok []
    end in
  Ok (kind c ++ [nul] ++ as_str (change_path c) ++ [nul] ++ content ++ [nul]))%result.

Fixpoint digest_input (changes : list LayerChange) : result bytes io_error :=
  match changes with
  | [] => Ok []
  | c :: changes =>
      (let? x := update_digest c in
       let? rest := digest_input changes in
       Ok (x ++ rest))%result
  end.

Definition try_layer_digest (changes : list LayerChange) : result bytes io_error :=
  (let? input := digest_input (aggregate_layer_changes changes) in
   Ok (hex_lower (sha256 input)))%result.

(** [layer_digest]; [None] is the panic of [expect]. *)
Definition layer_digest (changes : list LayerChange) : option bytes :=
  match try_layer_digest changes with Ok d => Some d | Err _ => None end.
End digests.

(** ** Layer paths are safe relative paths *)

(** A path component that stays below its directory. *)
Definition comp_ok (c : bytes) : Prop :=
  c ≠ [] ∧ c ≠ dot ∧ c ≠ dotdot ∧ slash ∉ c ∧ nul ∉ c ∧ backslash ∉ c.

(** The components of a layer path. *)
Definition comps (p : LayerPath) : list bytes := split_on slash (as_str p).

Lemma path_parts_spec parts out :
  path_parts parts = Some out ↔
  dotdot ∉ parts ∧ out = filter (λ c, c ≠ [] ∧ c ≠ dot) parts.
Proof.
  revert out. induction parts as [|c parts IH]; intros out; simpl; [set_solver|].
  rewrite filter_cons. case_decide as H1.
  - rewrite decide_False by tauto. rewrite IH, not_elem_of_cons.
    assert (dotdot ≠ c) by (by destruct H1 as [->| ->]). naive_solver.
  - rewrite (decide_True (P := c ≠ [] ∧ c ≠ dot)) by tauto.
    rewrite not_elem_of_cons. case_decide as H2; [naive_solver|].
    rewrite fmap_Some. setoid_rewrite IH. naive_solver.
Qed.

Lemma slashes_backslash s : backslash ∉ slashes s.
Proof.
  unfold slashes. rewrite list_elem_of_fmap. intros (x & Hx & _). by case_decide.
Qed.

Lemma trim_elem s x : x ∈ trim s → x ∈ s.
Proof. destruct (trim_infix s) as (p & q & Hs). rewrite Hs at 2. set_solver. Qed.

Lemma join_with_elem c ls x l : l ∈ ls → x ∈ l → x ∈ join_with c ls.
Proof.
  induction ls as [|l' ls IH]; [set_solver|]. rewrite elem_of_cons.
  destruct ls as [|l2 ls]; [set_solver|]. cbn [join_with] in *. set_solver.
Qed.

Lemma split_on_elem c s l x : l ∈ split_on c s → x ∈ l → x ∈ s.
Proof. intros Hl Hx. rewrite <-(join_split_on c s). by eapply join_with_elem. Qed.

(** The components a successful parse keeps. *)
Lemma parse_Ok s p :
  parse s = Ok p →
  comps p = filter (λ c, c ≠ [] ∧ c ≠ dot) (split_on slash (trim (slashes s))) ∧
  Forall comp_ok (comps p).
Proof.
  unfold parse. case_decide as Hnul; [done|]. destruct (starts_with _ _) eqn:Hs; [done|].
  destruct (path_parts _) as [parts|] eqn:Hp; [|done].
  apply path_parts_spec in Hp as [Hdd ->].
  set (raw := trim (slashes s)) in *. set (cs := filter _ _) in *.
  destruct cs as [|c0 cs0] eqn:Hcs; [done|]. rewrite <-Hcs in *. intros [= <-].
  assert (Forall comp_ok cs) as Hok.
  { apply Forall_forall. intros c Hc. apply list_elem_of_filter in Hc as [[? ?] Hc].
    split_and!; [done|done|by intros ->| | |].
    - by eapply split_on_free.
    - intros Hn. by apply (split_on_elem _ _ _ _ Hc) in Hn.
    - intros Hn. apply (split_on_elem _ _ _ _ Hc), trim_elem in Hn. by apply slashes_backslash in Hn. }
  assert (comps (mkLayerPath (join_with slash cs)) = cs) as ->.
  { unfold comps. simpl. apply split_join_with; [by rewrite Hcs|].
    eapply Forall_impl; [done|]. intros c Hc. apply Hc. }
  done.
Qed.

Lemma slashes_id s : backslash ∉ s → slashes s = s.
Proof.
  induction s as [|x s IH]; intros Hn; [done|]. unfold slashes in *. csimpl.
  rewrite IH by set_solver. rewrite decide_False by set_solver. done.
Qed.

(** A path built of proper components parses to itself. *)
Lemma parse_self s : trim s = s → Forall comp_ok (split_on slash s) → parse s = Ok (mkLayerPath s).
Proof.
  intros Ht Hok. assert (nul ∉ s ∧ backslash ∉ s) as [Hn Hb].
  { rewrite <-(join_split_on slash s). generalize (split_on slash s) Hok.
    induction 1 as [|c [|c' cs] Hc Hcs IH]; [set_solver|by apply Hc|].
    cbn [join_with] in *. rewrite !not_elem_of_app, !not_elem_of_cons.
    destruct Hc as (_ & _ & _ & _ & ? & ?). naive_solver. }
  unfold parse. rewrite (slashes_id s), Ht by done. rewrite decide_False by done.
  destruct (split_on_cons slash s) as (c & cs & Hs).
  destruct (starts_with [slash] s) eqn:Hst.
  { apply starts_with_app in Hst as [r ->]. simpl in Hok.
    apply Forall_cons in Hok as [[? _] _]. done. }
  assert (path_parts (split_on slash s) = Some (split_on slash s)) as ->.
  { apply path_parts_spec. split.
    - intros Hin. rewrite Forall_forall in Hok. by apply Hok in Hin as (_ & _ & ? & _).
    - symmetry. apply Forall_filter_id. eapply Forall_impl; [done|]. intros ? Hc. split; apply Hc. }
  rewrite Hs. by rewrite <-Hs, join_split_on.
Qed.

(** [LayerPath::parse] accepts only paths that stay below the directory they
    are joined to: a non-empty sequence of components, none of them empty, [.]
    or [..], without a slash, backslash or NUL; and a path built of such
    components with no white space at its ends parses to itself. *)
Theorem parse_safe s :
  (∀ p, parse s = Ok p → comps p ≠ [] ∧ Forall comp_ok (comps p)) ∧
  (∀ e, parse s = Err e → e = InvalidPath s) ∧
  (trim s = s → Forall comp_ok (split_on slash s) → parse s = Ok (mkLayerPath s)).
Proof.
  split_and!.
  - intros p Hp. split; [apply split_on_ne|by apply parse_Ok in Hp as [_ ?]].
  - intros e. unfold parse. repeat case_match; intros; simplify_eq; done.
  - apply parse_self.
Qed.

(** Names that differ only in white space at the ends of the path, or in a
    backslash, are one layer path, and parsing a parsed path can change it
    again. *)
Theorem parse_conflates_names :
  parse (lit "notes ") = parse (lit "notes") ∧ parse (lit "a\b") = parse (lit "a/b") ∧
  parse (lit "./ notes") = Ok (mkLayerPath (lit " notes")) ∧
  parse (lit " notes") = Ok (mkLayerPath (lit "notes")).
Proof. vm_compute. done. Qed.

(** ** Aggregation: the last change of a path wins *)

Definition at_path (k : bytes) (c : LayerChange) : Prop := as_str (change_path c) = k.
#[global] Instance at_path_dec k c : Decision (at_path k c) := decide (as_str (change_path c) = k).

(** The map's keys are the changes' own paths. *)
Definition keyed (m : list (bytes * LayerChange)) : Prop :=
  Forall (λ kc, kc.1 = as_str (change_path kc.2)) m.

Lemma keyed_insert m c : keyed m → keyed (insert_change m c).
Proof.
  unfold keyed, insert_change. induction 1 as [|[k c'] m Hk Hm IH]; simpl; [by repeat constructor|].
  repeat case_decide; by repeat constructor.
Qed.

Lemma foldl_insert_change cs : ∀ m k,
  bt_lookup k (foldl insert_change m cs) =
  match last (filter (at_path k) cs) with Some c => Some c | None => bt_lookup k m end.
Proof.
  induction cs as [|c cs IH]; intros m k; [done|]. simpl. rewrite IH, filter_cons.
  unfold insert_change, at_path at 2. case_decide as Hk.
  - subst k. rewrite last_cons, bt_lookup_insert. by destruct (last _).
  - by rewrite bt_lookup_insert_ne.
Qed.

Lemma foldl_insert_change_ok cs : ∀ m,
  bt_sorted m → keyed m → bt_sorted (foldl insert_change m cs) ∧ keyed (foldl insert_change m cs).
Proof.
  induction cs as [|c cs IH]; intros m Hs Hk; [done|]. simpl. apply IH.
  - by apply bt_insert_sorted.
  - by apply keyed_insert.
Qed.

Lemma keyed_keys m : keyed m → m.*1 = (λ c, as_str (change_path c)) <$> m.*2.
Proof. induction 1 as [|[k c] m Hk Hm IH]; [done|]. csimpl. by f_equal. Qed.

Lemma aggregate_elem cs c :
  c ∈ aggregate_layer_changes cs ↔
  last (filter (at_path (as_str (change_path c))) cs) = Some c.
Proof.
  destruct (foldl_insert_change_ok cs []) as [Hs Hk]; [constructor..|].
  pose proof (foldl_insert_change cs [] (as_str (change_path c))) as Hl. simpl in Hl.
  unfold aggregate_layer_changes. rewrite list_elem_of_fmap. split.
  - intros ([k c'] & -> & Hin). simpl in *. assert (k = as_str (change_path c')) as ->.
    { unfold keyed in Hk. rewrite Forall_forall in Hk. by apply Hk in Hin. }
    apply bt_lookup_elem in Hin; [|done]. rewrite Hin in Hl. by destruct (last _).
  - intros Hlast. rewrite Hlast in Hl. apply bt_lookup_elem in Hl; [|done]. by eexists (_, _).
Qed.

Lemma bt_sorted_ext {V} (m1 m2 : list (bytes * V)) :
  bt_sorted m1 → bt_sorted m2 → (∀ k v, (k, v) ∈ m1 ↔ (k, v) ∈ m2) → m1 = m2.
Proof.
  unfold bt_sorted. revert m2. induction m1 as [|[k v] m1 IH]; intros [|[k' v'] m2] H1 H2 Heq.
  - done.
  - exfalso. apply (not_elem_of_nil (k', v')), Heq. by left.
  - exfalso. apply (not_elem_of_nil (k, v)), Heq. by left.
  - inversion H1 as [|? ? H1' F1]; inversion H2 as [|? ? H2' F2]; subst.
    rewrite Forall_forall in F1, F2.
    assert (∀ k2 v2, (k2, v2) ∈ m1 → bytes_lt k k2) as G1
      by (intros k2 v2 Hin; by apply F1, (list_elem_of_fmap_2 fst _ _ Hin)).
    assert (∀ k2 v2, (k2, v2) ∈ m2 → bytes_lt k' k2) as G2
      by (intros k2 v2 Hin; by apply F2, (list_elem_of_fmap_2 fst _ _ Hin)).
    assert ((k, v) = (k', v')) as [= -> ->].
    { pose proof (proj1 (Heq k v) ltac:(by left)) as E1.
      pose proof (proj2 (Heq k' v') ltac:(by left)) as E2.
      apply elem_of_cons in E1 as [?|E1%G2]; [done|]. apply elem_of_cons in E2 as [?|E2%G1]; [done|].
      exfalso. apply (irreflexivity bytes_lt k). by etrans. }
    f_equal. apply IH; [done..|]. intros k2 v2. specialize (Heq k2 v2). rewrite !elem_of_cons in Heq.
    split; intros Hin.
    + destruct (proj1 Heq (or_intror Hin)) as [[= -> ->]|?]; [|done].
      apply G1 in Hin. exfalso. by apply (irreflexivity bytes_lt k').
    + destruct (proj2 Heq (or_intror Hin)) as [[= -> ->]|?]; [|done].
      apply G2 in Hin. exfalso. by apply (irreflexivity bytes_lt k').
Qed.

Lemma aggregate_sorted cs :
  StronglySorted bytes_lt ((λ c, as_str (change_path c)) <$> aggregate_layer_changes cs).
Proof.
  destruct (foldl_insert_change_ok cs []) as [Hs Hk]; [constructor..|].
  unfold bt_sorted in Hs. by rewrite keyed_keys in Hs.
Qed.

(** Sorted lists of changes with the same members are equal. *)
Lemma changes_ext (l1 l2 : list LayerChange) :
  StronglySorted bytes_lt ((λ c, as_str (change_path c)) <$> l1) →
  StronglySorted bytes_lt ((λ c, as_str (change_path c)) <$> l2) →
  (∀ c, c ∈ l1 ↔ c ∈ l2) → l1 = l2.
Proof.
  intros H1 H2 Heq. set (f := λ c, (as_str (change_path c), c)).
  assert (f <$> l1 = f <$> l2) as Hf.
  { apply bt_sorted_ext; unfold bt_sorted; rewrite <-?list_fmap_compose; [done..|].
    intros k c. rewrite !list_elem_of_fmap. unfold f. split; intros (c' & [= -> ->] & Hc); naive_solver. }
  apply (f_equal (fmap snd)) in Hf. rewrite <-!list_fmap_compose in Hf. by rewrite !list_fmap_id in Hf.
Qed.

Lemma filter_at_path_sorted cs c :
  StronglySorted bytes_lt ((λ c, as_str (change_path c)) <$> cs) → c ∈ cs →
  filter (at_path (as_str (change_path c))) cs = [c].
Proof.
  induction cs as [|d cs IH]; intros Hs Hc; [set_solver|].
  inversion Hs as [|? ? Hs' Hf]; subst. rewrite Forall_fmap, Forall_forall in Hf. simpl in Hf.
  rewrite filter_cons. apply elem_of_cons in Hc as [->|Hc].
  - unfold at_path at 1. rewrite decide_True by done. f_equal. apply filter_none. intros e He Hp.
    apply Hf in He. unfold at_path in Hp. rewrite Hp in He. by apply (irreflexivity bytes_lt) in He.
  - unfold at_path at 1. rewrite decide_False; [by apply IH|]. intros Heq. apply Hf in Hc.
    rewrite Heq in Hc. by apply (irreflexivity bytes_lt) in Hc.
Qed.

(** [aggregate_layer_changes] keeps exactly the last change of every path, in
    strictly increasing path order, and aggregating again changes nothing. *)
Theorem aggregate_last_wins cs :
  (∀ c, c ∈ aggregate_layer_changes cs ↔
     last (filter (at_path (as_str (change_path c))) cs) = Some c) ∧
  StronglySorted bytes_lt ((λ c, as_str (change_path c)) <$> aggregate_layer_changes cs) ∧
  aggregate_layer_changes (aggregate_layer_changes cs) = aggregate_layer_changes cs.
Proof.
  split_and!; [apply aggregate_elem|apply aggregate_sorted|].
  apply changes_ext; [apply aggregate_sorted..|]. intros c.
  rewrite (aggregate_elem (aggregate_layer_changes cs)). split.
  - intros Hl. by apply last_Some_elem_of, list_elem_of_filter in Hl as [_ ?].
  - intros Hc. by rewrite filter_at_path_sorted by (done || apply aggregate_sorted).
Qed.

(** ** Published bytes *)

Lemma foldl_saturating zs n :
  (0 ≤ n ≤ U64_MAX)%Z → Forall (λ z, 0 ≤ z)%Z zs →
  foldl u64_saturating_add n zs = ((n + foldr Z.add 0 zs) `min` U64_MAX)%Z.
Proof.
  intros Hn Hz. revert n Hn. induction Hz as [|z zs Hz Hzs IH]; intros n Hn; simpl; [lia|].
  assert (0 ≤ foldr Z.add 0 zs)%Z by (clear -Hzs; induction Hzs; simpl; lia).
  rewrite IH; unfold u64_saturating_add, U64_MAX in *; lia.
Qed.

(** [published_layer_bytes] is the sum of the payload sizes, capped at
    [u64::MAX]: it never wraps. *)
Theorem published_layer_bytes_sum cs :
  Forall (λ c, match c with WriteFile _ _ size => (0 ≤ size ≤ U64_MAX)%Z | _ => True end) cs →
  published_layer_bytes cs = (foldr Z.add 0 (change_bytes <$> cs) `min` U64_MAX)%Z ∧
  (0 ≤ published_layer_bytes cs ≤ U64_MAX)%Z.
Proof.
  intros Hs. unfold published_layer_bytes.
  assert (Forall (λ z, 0 ≤ z)%Z (change_bytes <$> cs)) as Hz.
  { apply Forall_fmap. eapply Forall_impl; [done|]. intros [] ?; simpl in *; unfold U64_MAX in *; lia. }
  assert (0 ≤ foldr Z.add 0 (change_bytes <$> cs))%Z by (clear -Hz; induction Hz; simpl; lia).
  rewrite foldl_saturating by (unfold U64_MAX; done || lia). rewrite Z.add_0_l.
  unfold U64_MAX in *. lia.
Qed.

Lemma published_layer_bytes_sum_witness :
  published_layer_bytes
    [WriteFile (mkLayerPath (lit "a")) [] U64_MAX; Write (mkLayerPath (lit "b")) (lit "xy")] = U64_MAX.
Proof.
  destruct (published_layer_bytes_sum
    [WriteFile (mkLayerPath (lit "a")) [] U64_MAX; Write (mkLayerPath (lit "b")) (lit "xy")])
    as [-> _]; [|by vm_compute].
  repeat constructor; unfold U64_MAX; lia.
Defined.

(** ** The JSON encoding determines the layers *)

(** Four hexadecimal digits. *)
Definition read_hex4 (s : bytes) : option (N * bytes) :=
  match s with
  | a :: b :: c :: d :: r =>
      Some (char_digit a * 0x1000 + char_digit b * 0x100 + char_digit c * 0x10 + char_digit d, r)%N
  | _ => None
  end.

(** The character a two-character escape stands for. *)
Definition short_escapes : list (byte * N) :=
  [(Byte.x22, 0x22); (Byte.x5c, 0x5c); (Byte.x62, 0x08); (Byte.x74, 0x09);
   (Byte.x6e, 0x0a); (Byte.x66, 0x0c); (Byte.x72, 0x0d)]%N.

(** A JSON reader of one, possibly escaped, character (RFC 8259, section 7). *)
Definition read_char (s : bytes) : option (N * bytes) :=
  match s with
  | [] => None
  | x :: r =>
      if decide (x = backslash) then
        match r with
        | [] => None
        | e :: r =>
            match list_find (λ p, p.1 = e) short_escapes with
            | Some (_, (_, c)) => Some (c, r)
            | None =>
                '(hi, r) ← read_hex4 r;
                if ((0xd800 <=? hi) && (hi <? 0xdc00))%N then
                  '(lo, r) ← read_hex4 (drop 2 r);
                  Some (0x10000 + (hi - 0xd800) * 0x400 + (lo - 0xdc00), r)%N
                else Some (hi, r)
            end
        end
      else Some (Byte.to_N x, r)
  end.

Lemma land_15 n : N.land n 0x0f = (n mod 0x10)%N.
Proof. apply (N.land_ones n 4). Qed.

Local Ltac Zify.zify_post_hook ::= Z.to_euclidean_division_equations.

Lemma read_hex4_escape v r :
  (v < 0x10000)%N → read_hex4 (drop 2 (push_u_escape v) ++ r) = Some (v, r).
Proof.
  intros Hv. unfold push_u_escape. cbn [drop bytes_of String.list_byte_of_string app].
  unfold read_hex4.
  rewrite !land_15, !N.shiftr_div_pow2. do 2 f_equal.
  rewrite !char_digit_hex_char by (apply N.mod_lt; lia).
  change (2 ^ 12)%N with 4096%N. change (2 ^ 8)%N with 256%N. change (2 ^ 4)%N with 16%N. lia.
Qed.

Lemma push_u_escape_head v : push_u_escape v = Byte.x5c :: Byte.x75 :: drop 2 (push_u_escape v).
Proof. done. Qed.

Lemma read_char_u r :
  read_char (Byte.x5c :: Byte.x75 :: r) =
  '(hi, r) ← read_hex4 r;
  if ((0xd800 <=? hi) && (hi <? 0xdc00))%N then
    '(lo, r) ← read_hex4 (drop 2 r);
    Some (0x10000 + (hi - 0xd800) * 0x400 + (lo - 0xdc00), r)%N
  else Some (hi, r).
Proof. done. Qed.

Lemma printable_head c :
  (0x20 ≤ c ≤ 0x7e)%N → c ≠ 0x22%N → c ≠ 0x5c%N →
  ∃ x, default nul (Byte.of_N c) = x ∧ Byte.to_N x = c ∧ x ≠ Byte.x22 ∧ x ≠ Byte.x5c.
Proof.
  intros Hc H1 H2. destruct (Byte.of_N c) as [x|] eqn:Hx.
  - apply Byte.to_of_N in Hx. exists x. split_and!; [done|done|by intros ->..].
  - apply Byte.of_N_None_iff in Hx. lia.
Qed.

(** Reading an escaped character gives it back. *)
Lemma read_char_escape c r :
  scalar c → read_char (escape_char c ++ r) = Some (c, r) ∧ head (escape_char c ++ r) ≠ Some quote.
Proof.
  intros Hc. unfold escape_char.
  repeat match goal with |- context [(c =? ?k)%N] =>
    destruct (N.eqb_spec c k) as [->|?]; [by split|] end.
  destruct ((0x20 <=? c) && (c <=? 0x7e))%N eqn:Hp.
  { rewrite andb_true_iff, !N.leb_le in Hp.
    destruct (printable_head c) as (x & -> & Hx & Hq & Hb); [done..|]. simpl.
    split; [|by intros [= ->]]. unfold read_char. by rewrite decide_False, Hx. }
  assert (∀ v, (v < 0x10000)%N → ¬ (0xd800 ≤ v < 0xdc00)%N →
    read_char (push_u_escape v ++ r) = Some (v, r) ∧ head (push_u_escape v ++ r) ≠ Some quote) as Hu.
  { intros v Hv Hns. rewrite push_u_escape_head. split; [|done]. cbn [app].
    rewrite read_char_u, read_hex4_escape by done. cbn [mbind option_bind].
    destruct ((0xd800 <=? v) && (v <? 0xdc00))%N eqn:Hs; [|done].
    rewrite andb_true_iff, N.leb_le, N.ltb_lt in Hs. lia. }
  unfold scalar in Hc. destruct (N.ltb_spec c 0x20) as [Hlt|Hge]; [apply Hu; lia|].
  destruct (N.leb_spec c 0xffff) as [Hle|Hgt]; [apply Hu; lia|]. clear Hu.
  rewrite (push_u_escape_head (0xd800 + _)), (push_u_escape_head (0xdc00 + _)). split; [|done].
  rewrite <-(assoc_L (++)). cbn [app]. rewrite read_char_u. change 0x3ff%N with (N.ones 10).
  rewrite N.land_ones, N.shiftr_div_pow2. change (2 ^ 10)%N with 1024%N.
  rewrite read_hex4_escape by lia. cbn [mbind option_bind].
  rewrite (proj2 (N.leb_le _ _)), (proj2 (N.ltb_lt _ _)) by lia. cbn [andb app].
  rewrite !skipn_cons, drop_0, read_hex4_escape by lia. cbn [mbind option_bind]. do 2 f_equal. lia.
Qed.

(** An escaped string ends at the first quote. *)
Lemma escaped_inj cs1 cs2 r1 r2 :
  Forall scalar cs1 → Forall scalar cs2 →
  (cs1 ≫= escape_char) ++ quote :: r1 = (cs2 ≫= escape_char) ++ quote :: r2 →
  cs1 = cs2 ∧ r1 = r2.
Proof.
  intros H1. revert cs2. induction H1 as [|c cs1 Hc H1 IH]; intros cs2 H2 Heq.
  - destruct H2 as [|c2 cs2 Hc2 _]; [by simplify_eq/=|]. exfalso. csimpl in Heq.
    destruct (read_char_escape c2 ((cs2 ≫= escape_char) ++ quote :: r2) Hc2) as [_ Hh].
    apply Hh. by rewrite (assoc_L (++)), <-Heq.
  - destruct (read_char_escape c ((cs1 ≫= escape_char) ++ quote :: r1) Hc) as [Hr Hh].
    csimpl in Heq. rewrite <-(assoc_L (++)) in Heq. destruct H2 as [|c2 cs2 Hc2 H2].
    { exfalso. apply Hh. by rewrite Heq. }
    destruct (read_char_escape c2 ((cs2 ≫= escape_char) ++ quote :: r2) Hc2) as [Hr2 _].
    csimpl in Heq. rewrite <-(assoc_L (++)) in Heq. rewrite Heq, Hr2 in Hr. simplify_eq.
    destruct (IH cs2 H2) as [-> ->]; [congruence|done].
Qed.

Definition ref_valid (l : LayerRef) : Prop :=
  utf8_valid (layer_id l) = true ∧ utf8_valid (lr_path l) = true.

Lemma escaped_bytes_inj s t r1 r2 :
  utf8_valid s = true → utf8_valid t = true →
  push_json_ascii_escaped s ++ quote :: r1 = push_json_ascii_escaped t ++ quote :: r2 →
  s = t ∧ r1 = r2.
Proof.
  intros Hs Ht Heq. apply escaped_inj in Heq as [Hc ->]; [|by apply utf8_chars..].
  split; [|done]. by apply chars_inj.
Qed.

Lemma layer_json_inj l1 l2 r1 r2 :
  ref_valid l1 → ref_valid l2 → layer_json l1 ++ r1 = layer_json l2 ++ r2 → l1 = l2 ∧ r1 = r2.
Proof.
  intros [H1 H2] [H3 H4]. destruct l1 as [i1 p1], l2 as [i2 p2]. unfold layer_json.
  rewrite <-!(assoc_L (++)). cbn [layer_id lr_path] in *. intros Heq.
  repeat apply app_inv_head in Heq. apply (escaped_bytes_inj i1 i2) in Heq as [-> Heq]; [|done..].
  repeat apply app_inv_head in Heq. apply (escaped_bytes_inj p1 p2) in Heq as [-> Heq]; [|done..].
  by apply app_inv_head in Heq.
Qed.

Lemma layers_json_inj ls1 ls2 first r1 r2 :
  Forall ref_valid ls1 → Forall ref_valid ls2 →
  layers_json first ls1 ++ lit "]}" ++ r1 = layers_json first ls2 ++ lit "]}" ++ r2 → ls1 = ls2.
Proof.
  intros H1. revert first ls2. induction H1 as [|l1 ls1 Hl1 H1 IH]; intros first ls2 H2 Heq.
  { destruct H2 as [|l2 ls2 ? ?]; [done|]. by destruct first. }
  destruct H2 as [|l2 ls2 Hl2 H2]; [by destruct first|]. cbn [layers_json] in Heq.
  rewrite <-!(assoc_L (++)) in Heq. apply app_inv_head in Heq.
  apply layer_json_inj in Heq as [-> Heq]; [|done..]. f_equal. by eapply IH.
Qed.

Lemma hex_lower_inj s t : hex_lower s = hex_lower t → s = t.
Proof.
  unfold hex_lower. revert t. induction s as [|x s IH]; intros [|y t]; [done..|]. csimpl.
  intros [= H1 H2 Hst]. f_equal; [|by apply IH]. apply (f_equal char_digit) in H1, H2.
  pose proof (Byte.to_N_bounded x). pose proof (Byte.to_N_bounded y).
  rewrite !land_15, !N.shiftr_div_pow2 in *. change (2 ^ 4)%N with 16%N in *.
  rewrite !char_digit_hex_char in H1, H2 by lia. apply to_N_inj. lia.
Qed.

(** Two different inputs with the same hash. *)
Definition collision (h : bytes → bytes) : Prop := ∃ x y, x ≠ y ∧ h x = h y.

(** The JSON text behind [manifest_root_hash] determines the layer list: two
    manifests with the same root hash have the same layers, or the hash function
    has a collision. *)
Theorem manifest_root_hash_inj (sha256 : bytes → bytes) (m1 m2 : Manifest) :
  Forall ref_valid (layers m1) → Forall ref_valid (layers m2) →
  manifest_root_hash sha256 m1 = manifest_root_hash sha256 m2 →
  layers m1 = layers m2 ∨ collision sha256.
Proof.
  intros H1 H2 Heq. apply hex_lower_inj in Heq.
  destruct (decide (manifest_layers_json (layers m1) = manifest_layers_json (layers m2)))
    as [Hj|Hne]; [left|right; by do 2 eexists].
  unfold manifest_layers_json in Hj. repeat apply app_inv_head in Hj.
  apply (layers_json_inj _ _ true [] []); [done..|]. by rewrite !app_nil_r.
Qed.

Lemma manifest_root_hash_inj_witness :
  let m := mkManifest 3 [mkLayerRef (lit "L000003-00000000") (lit "layers/L000003-00000000")] 1 in
  manifest_root_hash id m = manifest_root_hash id (mkManifest 4 (layers m) 1) ∧
  (layers m = layers (mkManifest 4 (layers m) 1) ∨ collision id).
Proof.
  intros m. split; [reflexivity|].
  apply (manifest_root_hash_inj id m (mkManifest 4 (layers m) 1)); [by repeat constructor..|done].
Defined.

(** ** What the digest of a change set identifies *)

(** The three fields of a change the digest covers. *)
Definition fields {E} (read_source : path → result bytes E) (c : LayerChange) : list bytes :=
  [kind c; as_str (change_path c);
   match c with
   | Write _ content => content
   | WriteFile _ src _ => match read_source src with Ok x => x | Err _ => [] end
   | SymlinkTo _ target => target
   | _ => []
   end].

Definition terminate (segs : list bytes) : bytes := segs ≫= λ s, s ++ [nul].

Lemma terminate_inj segs1 segs2 :
  Forall (λ s, nul ∉ s) segs1 → Forall (λ s, nul ∉ s) segs2 →
  terminate segs1 = terminate segs2 → segs1 = segs2.
Proof.
  intros H1. revert segs2. induction H1 as [|s1 segs1 Hs1 H1 IH]; intros segs2 H2 Heq.
  { destruct H2 as [|s2 ? ? ?]; [done|]. unfold terminate in Heq. csimpl in Heq. by destruct s2. }
  destruct H2 as [|s2 segs2 Hs2 H2].
  { unfold terminate in Heq. csimpl in Heq. by destruct s1. }
  unfold terminate in Heq. csimpl in Heq. rewrite <-!(assoc_L (++)) in Heq. simpl in Heq.
  apply (f_equal (split_on nul)) in Heq as Hsp. rewrite !split_on_app in Hsp by done.
  injection Hsp as -> _. apply app_inv_head in Heq. f_equal. apply IH; [done|].
  by injection Heq.
Qed.

Lemma digest_input_fields {E} (read_source : path → result bytes E) cs x :
  digest_input read_source cs = Ok x → x = terminate (cs ≫= fields read_source).
Proof.
  revert x. induction cs as [|c cs IH]; intros x; [by intros [= <-]|].
  cbn [digest_input]. rewrite result_bind_ok. intros (y & Hy & Hx). apply result_bind_ok in Hx as (z & Hz & [= <-]).
  apply IH in Hz as ->. unfold update_digest in Hy. apply result_bind_ok in Hy as (w & Hw & [= <-]).
  unfold terminate. rewrite bind_cons, bind_app. f_equal.
  destruct c; simpl in *; simplify_eq; rewrite ?Hw; simpl; by rewrite <-?(assoc_L (++)).
Qed.

(** The digest is unambiguous where no field contains a NUL. *)
Definition nul_free {E} (read_source : path → result bytes E) (cs : list LayerChange) : Prop :=
  Forall (λ s, nul ∉ s) (aggregate_layer_changes cs ≫= fields read_source).

(** Change sets whose paths, link targets and contents have no NUL byte and
    whose digests are equal make the same changes, or the hash function has a
    collision: [publish] may treat the second one as already published. *)
Theorem layer_digest_inj {E} (sha256 : bytes → bytes) (read_source : path → result bytes E)
    cs1 cs2 d :
  nul_free read_source cs1 → nul_free read_source cs2 →
  try_layer_digest sha256 read_source cs1 = Ok d →
  try_layer_digest sha256 read_source cs2 = Ok d →
  aggregate_layer_changes cs1 ≫= fields read_source =
    aggregate_layer_changes cs2 ≫= fields read_source ∨ collision sha256.
Proof.
  unfold try_layer_digest. intros N1 N2 (x1 & Hx1 & [= <-])%result_bind_ok
    (x2 & Hx2 & [= Heq])%result_bind_ok. apply hex_lower_inj in Heq.
  destruct (decide (x1 = x2)) as [->|Hne]; [left|right; by exists x2, x1].
  apply digest_input_fields in Hx1, Hx2. apply terminate_inj; [done..|congruence].
Qed.

Definition no_source (p : path) : result bytes unit := Err ().

Lemma layer_digest_inj_witness :
  let cs := [Write (mkLayerPath (lit "a")) (lit "x")] in
  try_layer_digest id no_source cs =
    Ok (hex_lower (lit "write" ++ [nul] ++ lit "a" ++ [nul] ++ lit "x" ++ [nul])) ∧
  (aggregate_layer_changes cs ≫= fields no_source =
     aggregate_layer_changes cs ≫= fields no_source ∨ collision id).
Proof.
  intros cs. split; [reflexivity|].
  apply (layer_digest_inj id no_source cs cs
    (hex_lower (lit "write" ++ [nul] ++ lit "a" ++ [nul] ++ lit "x" ++ [nul])));
    [apply (bool_decide_unpack _); vm_compute; exact I..|reflexivity|reflexivity].
Defined.

(** With a NUL in a file's content the digest is ambiguous for every hash
    function: one file whose content spells out a second record has the digest
    of two files, so publishing the two files on top of it is taken for a
    repetition and dropped. *)
Theorem layer_digest_ambiguous (sha256 : bytes → bytes) :
  let a := mkLayerPath (lit "a") in
  let b := mkLayerPath (lit "b") in
  let one := [Write a (lit "x" ++ [nul] ++ lit "write" ++ [nul] ++ lit "b" ++ [nul] ++ lit "y")] in
  let two := [Write a (lit "x"); Write b (lit "y")] in
  try_layer_digest sha256 no_source one = try_layer_digest sha256 no_source two ∧
  aggregate_layer_changes one ≠ aggregate_layer_changes two.
Proof. split; [reflexivity|by vm_compute]. Qed.
