(* ===== verification/FS.v ===== *)
(** * The file system

    The part of [std::fs] and of the system calls behind it that the storage
    code uses.  A file system maps absolute paths to nodes; a path is resolved
    as the kernel does, component by component, following symbolic links in
    front of the last component (and at it, where the call follows links) at
    most 40 times.  The first part holds the calls that only read. *)

From S2P Require Import Prelude ByteStr Model.

#[global] Instance byte_countable : Countable byte.
Proof.
  apply (inj_countable Byte.to_N Byte.of_N). apply Byte.of_to_N.
Defined.

(** ** Nodes *)

(** [mode] holds the permission bits; [xattrs] the names of the extended
    attributes that are set. *)
Inductive node :=
| NFile (data : bytes) (mode : Z) (xattrs : gset bytes)
| NSymlink (target : bytes)
| NDir (mode : Z) (xattrs : gset bytes)
| NChar (rdev : Z)
| NOther.

#[global] Instance node_eq_dec : EqDecision node.
Proof. solve_decision. Defined.

(** Maps keyed by strings and by paths. *)
Abbreviation bytes_map :=
  (@gmap bytes (@list_eq_dec byte byte_eq_dec) (@list_countable byte byte_eq_dec byte_countable)).
Abbreviation fs :=
  (@gmap (list bytes) (@list_eq_dec bytes (@list_eq_dec byte byte_eq_dec))
     (@list_countable bytes (@list_eq_dec byte byte_eq_dec)
        (@list_countable byte byte_eq_dec byte_countable)) node).

(** [io::ErrorKind], as far as the code tells them apart. *)
Inductive errno := ENOENT | ENOTDIR | ELOOP | EEXIST | EISDIR | ENOTEMPTY | EINVAL | EPERM | EIO.

#[global] Instance errno_eq_dec : EqDecision errno.
Proof. solve_decision. Defined.

Definition n_is_dir (n : node) : bool := match n with NDir _ _ => true | _ => false end.
Definition n_is_file (n : node) : bool := match n with NFile _ _ _ => true | _ => false end.
Definition n_is_symlink (n : node) : bool := match n with NSymlink _ => true | _ => false end.

(** [meta.len()] of a regular file. *)
Definition n_len (n : node) : Z :=
  match n with NFile data _ _ => Z.of_nat (length data) | _ => 0 end.

Definition n_xattrs (n : node) : gset bytes :=
  match n with NFile _ _ xs => xs | NDir _ xs => xs | _ => ∅ end.

Definition dir_at (f : fs) (p : path) : bool :=
  match f !! p with Some n => n_is_dir n | None => false end.

(** ** Path resolution *)

Definition MAX_LINKS : nat := 40.

(** Whether a link target is absolute, and its components. *)
Definition link_parts (target : bytes) : bool * path :=
  (starts_with [slash] target, filter (λ c, c ≠ [] ∧ c ≠ dot) (split_on slash target)).

Definition parent (p : path) : path := take (pred (length p)) p.

(** The node a path denotes; only its last component may be missing. *)
Fixpoint walk (f : fs) (links : nat) (follow : bool) (cur rest : path) : result path errno :=
  (fix go (cur rest : path) : result path errno :=
     match rest with
     | [] => Ok cur
     | c :: rest' =>
         if dir_at f cur then
           if decide (c = dotdot) then go (parent cur) rest'
           else match f !! (cur ++ [c]) with
           | Some (NSymlink target) =>
               if bool_decide (rest' = []) && negb follow then Ok (cur ++ [c])
               else match links with
               | O => Err ELOOP
               | S links =>
                   let '(absolute, cs) := link_parts target in
                   walk f links follow (if absolute : bool then [] else cur) (cs ++ rest')
               end
           | None => if decide (rest' = []) then Ok (cur ++ [c]) else Err ENOENT
           | Some _ => go (cur ++ [c]) rest'
           end
         else Err ENOTDIR
     end) cur rest.

Definition resolve (f : fs) (follow : bool) (p : path) : result path errno :=
  walk f MAX_LINKS follow [] p.

(** ** Calls that read *)

Definition node_at (f : fs) (q : path) : result node errno :=
  match f !! q with Some n => Ok n | None => Err ENOENT end.

(** [std::fs::symlink_metadata] and [std::fs::metadata] *)
Definition symlink_metadata (f : fs) (p : path) : result node errno :=
  (let? q := resolve f false p in node_at f q)%result.
Definition metadata (f : fs) (p : path) : result node errno :=
  (let? q := resolve f true p in node_at f q)%result.

(** [Path::exists], [Path::is_dir] *)
Definition exists_ (f : fs) (p : path) : bool :=
  match metadata f p with Ok _ => true | Err _ => false end.
Definition is_dir (f : fs) (p : path) : bool :=
  match metadata f p with Ok n => n_is_dir n | Err _ => false end.

Definition read_link (f : fs) (p : path) : result bytes errno :=
  (let? n := symlink_metadata f p in
   match n with NSymlink t => Ok t | _ => Err EINVAL end)%result.

(** [std::fs::read]; opening a FIFO or a device is not modelled. *)
Definition read (f : fs) (p : path) : result bytes errno :=
  (let? n := metadata f p in
   match n with NFile data _ _ => Ok data | NDir _ _ => Err EISDIR | _ => Err EIO end)%result.

(** [std::fs::read_to_string] *)
Definition read_to_string (f : fs) (p : path) : result bytes errno :=
  (let? s := read f p in if utf8_valid s then Ok s else Err EINVAL)%result.

(** [lgetxattr(path, name).is_ok()] *)
Definition has_xattr (f : fs) (p : path) (name : bytes) : bool :=
  match symlink_metadata f p with Ok n => bool_decide (name ∈ n_xattrs n) | Err _ => false end.

(** The rest of [q] below the directory [d]. *)
Fixpoint below (d q : path) : option path :=
  match d, q with
  | [], _ => Some q
  | x :: d, y :: q => if decide (x = y) then below d q else None
  | _ :: _, [] => None
  end.

Definition bytes_le (s t : bytes) : Prop := s = t ∨ bytes_lt s t.
#[global] Instance bytes_le_dec s t : Decision (bytes_le s t) :=
  decide (s = t ∨ bytes_lt s t).

(** The names in a directory.  The order of a listing is unspecified; here it
    is the byte-wise order. *)
Definition names (f : fs) (d : path) : list bytes :=
  merge_sort bytes_le
    (omap (λ q, match below d q with Some [c] => Some c | _ => None end) (map_to_list f).*1).

(** [std::fs::read_dir], collected *)
Definition read_dir (f : fs) (p : path) : result (list bytes) errno :=
  (let? q := resolve f true p in
   let? n := node_at f q in
   if n_is_dir n then Ok (names f q) else Err ENOTDIR)%result.

(** ** Facts about resolution *)

(** A directory reached without links: it and all its ancestors are
    directories. *)
Definition plain_dir (f : fs) (d : path) : Prop :=
  dotdot ∉ d ∧ ∀ k, k ≤ length d → dir_at f (take k d) = true.

Lemma walk_eq f links follow cur rest :
  walk f links follow cur rest =
  match rest with
  | [] => Ok cur
  | c :: rest' =>
      if dir_at f cur then
        if decide (c = dotdot) then walk f links follow (parent cur) rest'
        else match f !! (cur ++ [c]) with
        | Some (NSymlink target) =>
            if bool_decide (rest' = []) && negb follow then Ok (cur ++ [c])
            else match links with
            | O => Err ELOOP
            | S links =>
                let '(absolute, cs) := link_parts target in
                walk f links follow (if absolute : bool then [] else cur) (cs ++ rest')
            end
        | None => if decide (rest' = []) then Ok (cur ++ [c]) else Err ENOENT
        | Some _ => walk f links follow (cur ++ [c]) rest'
        end
      else Err ENOTDIR
  end.
Proof. by destruct links, rest. Qed.

Lemma plain_dir_at f d : plain_dir f d → dir_at f d = true.
Proof. intros [_ Hd]. specialize (Hd (length d) (le_n _)). by rewrite take_ge in Hd. Qed.

Lemma plain_dir_app f d e : plain_dir f (d ++ e) → plain_dir f d.
Proof.
  intros [Hdd Hd]. split; [set_solver|]. intros k Hk. specialize (Hd k).
  rewrite length_app, take_app_le in Hd by done. apply Hd. lia.
Qed.

Lemma plain_dir_snoc f d c :
  plain_dir f d → dir_at f (d ++ [c]) = true → c ≠ dotdot → plain_dir f (d ++ [c]).
Proof.
  intros [Hdd Hd] Hc Hne. split; [set_solver|]. intros k Hk. rewrite length_app in Hk. simpl in Hk.
  destruct (decide (k = length d + 1)) as [->|].
  - by rewrite take_ge by (rewrite length_app; simpl; lia).
  - rewrite take_app_le by lia. apply Hd. lia.
Qed.

(** Resolution reaches a plain directory unchanged. *)
Lemma walk_plain f links follow d rest :
  plain_dir f d → walk f links follow [] (d ++ rest) = walk f links follow d rest.
Proof.
  revert rest. induction d as [|c d IH] using rev_ind; [done|]. intros rest Hd.
  apply plain_dir_app in Hd as Hd'. apply plain_dir_at in Hd as Hc. destruct Hd as [Hdd _].
  rewrite <-(assoc_L (++)), IH by done. simpl. rewrite walk_eq.
  rewrite (plain_dir_at f d), decide_False by (done || set_solver).
  unfold dir_at in Hc. by destruct (f !! (d ++ [c])) as [[]|].
Qed.

(** One step below a directory. *)
Lemma walk_step f links follow d c rest :
  dir_at f d = true → c ≠ dotdot →
  (∀ t, f !! (d ++ [c]) ≠ Some (NSymlink t)) →
  walk f links follow d (c :: rest) =
  match f !! (d ++ [c]) with
  | None => if decide (rest = []) then Ok (d ++ [c]) else Err ENOENT
  | Some _ => walk f links follow (d ++ [c]) rest
  end.
Proof.
  intros Hd Hc Hns. rewrite walk_eq, Hd, decide_False by done.
  destruct (f !! (d ++ [c])) as [[]|]; [done|naive_solver|done..].
Qed.

(** Below a node that is not a directory there is nothing. *)
Lemma walk_not_dir f links follow q c rest :
  dir_at f q = false → walk f links follow q (c :: rest) = Err ENOTDIR.
Proof. intros Hq. by rewrite walk_eq, Hq. Qed.

(** Following the last component changes nothing when it is no link. *)
Lemma walk_follow f links : ∀ cur rest q,
  walk f links false cur rest = Ok q → (∀ t, f !! q ≠ Some (NSymlink t)) →
  walk f links true cur rest = Ok q.
Proof.
  induction links as [|links IHl]; intros cur rest; revert cur;
    induction rest as [|c rest IH]; intros cur q Hw Hq; rewrite walk_eq in *; [done| |done|];
    (destruct (dir_at f cur); [|done]); (case_decide; [by apply IH|]);
    (destruct (f !! (cur ++ [c])) as [[data m xs|t|m xs|r|]|] eqn:Hn; [by apply IH| |by apply IH..|done]);
    cbn [negb] in *; rewrite andb_true_r in Hw; rewrite andb_false_r;
    case_bool_decide; simplify_eq; try (by destruct (Hq t)).
  destruct (link_parts t) as [absolute cs]. by apply IHl.
Qed.

Lemma metadata_of_symlink_metadata f p n :
  symlink_metadata f p = Ok n → n_is_symlink n = false → metadata f p = Ok n.
Proof.
  unfold symlink_metadata, metadata, resolve. intros (q & Hw & Hn)%result_bind_ok Hs.
  rewrite (walk_follow _ _ _ _ _ Hw); [done|]. intros t Ht. unfold node_at in Hn.
  rewrite Ht in Hn. by simplify_eq.
Qed.

(** A walk that meets no link ends at the path itself. *)
Lemma walk_no_links f links cs : ∀ d q,
  walk f links false d cs = Ok q → dotdot ∉ cs →
  (∀ k t, 0 < k < length cs → f !! (d ++ take k cs) ≠ Some (NSymlink t)) → q = d ++ cs.
Proof.
  induction cs as [|c cs IH]; intros d q Hw Hdd Hnl; rewrite walk_eq in Hw.
  { simplify_eq. by rewrite app_nil_r. }
  destruct (dir_at f d); [|done]. rewrite decide_False in Hw by set_solver.
  assert (∀ q, walk f links false (d ++ [c]) cs = Ok q → q = d ++ c :: cs) as Hrec.
  { intros q' Hq'. apply IH in Hq' as ->; [by rewrite <-(assoc_L (++))|set_solver|].
    intros k t Hk. rewrite <-(assoc_L (++)). apply (Hnl (S k)). simpl. lia. }
  destruct (f !! (d ++ [c])) as [[]|] eqn:Hn; [by apply Hrec| |by apply Hrec..|].
  - destruct (bool_decide_reflect (cs = [])) as [->|Hne]; simpl in Hw; [by simplify_eq|].
    exfalso. apply (Hnl 1 target); [destruct cs; simpl; (done || lia)|done].
  - case_decide; by simplify_eq.
Qed.

(** Plainness, checked on a concrete file system. *)
Definition plain_check (f : fs) (d : path) : bool :=
  bool_decide (dotdot ∉ d) && forallb (λ k, dir_at f (take k d)) (seq 0 (S (length d))).

Lemma plain_check_dir f d : plain_check f d = true → plain_dir f d.
Proof.
  unfold plain_check. rewrite andb_true_iff, forallb_forall, bool_decide_eq_true. intros [Hdd Hall].
  split; [done|]. intros k Hk. apply Hall, in_seq. lia.
Qed.

Lemma below_Some d q r : below d q = Some r ↔ q = d ++ r.
Proof.
  revert q. induction d as [|x d IH]; intros [|y q]; simpl; [naive_solver..|].
  case_decide; [rewrite IH|]; naive_solver.
Qed.

Lemma below_app d r : below d (d ++ r) = Some r.
Proof. by apply below_Some. Qed.

Lemma below_None d q : below d q = None ↔ ∀ r, q ≠ d ++ r.
Proof.
  destruct (below d q) as [r|] eqn:Hb; [apply below_Some in Hb as ->|]; [naive_solver|].
  split; [|done]. intros _ r ->. by rewrite below_app in Hb.
Qed.

Lemma below_self d : below d d = Some [].
Proof. apply below_Some. by rewrite app_nil_r. Qed.

(** The listing of a directory: its names, each once. *)
Lemma elem_of_names f d c : c ∈ names f d ↔ is_Some (f !! (d ++ [c])).
Proof.
  unfold names. rewrite (merge_sort_Permutation bytes_le), list_elem_of_omap. split.
  - intros (q & Hq & Hc). apply list_elem_of_fmap in Hq as ([q' n] & -> & Hq). simpl in *.
    apply elem_of_map_to_list in Hq. destruct (below d q') as [[|c' []]|] eqn:Hb; simplify_eq.
    apply below_Some in Hb. subst. by eexists.
  - intros [n Hn]. exists (d ++ [c]). rewrite (proj2 (below_Some d _ [c])) by done. split; [|done].
    apply list_elem_of_fmap. exists (d ++ [c], n). split; [done|]. by apply elem_of_map_to_list.
Qed.

Lemma NoDup_names f d : NoDup (names f d).
Proof.
  unfold names. rewrite (merge_sort_Permutation bytes_le). pose proof (NoDup_fst_map_to_list f) as Hnd.
  induction Hnd as [|q qs Hq _ IH]; [constructor|]. csimpl. destruct (below d q) as [[|c [|]]|] eqn:Hb; try done.
  apply NoDup_cons. split; [|done]. rewrite list_elem_of_omap. intros (q' & Hq' & Hc).
  destruct (below d q') as [[|c' [|]]|] eqn:Hb'; simplify_eq. apply below_Some in Hb, Hb'. by subst.
Qed.

Lemma is_dir_plain f d : plain_dir f d → is_dir f d = true.
Proof.
  intros Hd. unfold is_dir, metadata, resolve. rewrite <-(app_nil_r d) at 1. rewrite walk_plain, walk_eq by done. cbn [result_bind].
  apply plain_dir_at in Hd. unfold node_at, dir_at in *. by destruct (f !! d).
Qed.

Lemma is_dir_child f d c :
  plain_dir f d → c ≠ dotdot → (∀ t, f !! (d ++ [c]) ≠ Some (NSymlink t)) →
  is_dir f (d ++ [c]) = dir_at f (d ++ [c]).
Proof.
  intros Hd Hc Hns. unfold is_dir, metadata, resolve, dir_at. rewrite walk_plain by done.
  rewrite walk_step by (done || by apply plain_dir_at). unfold node_at.
  by destruct (f !! (d ++ [c])) eqn:Hn; simpl; rewrite Hn.
Qed.
