(* ===== verification/Storage.v ===== *)
(** * Errors, storage paths and whiteouts

    [error.rs], the publish rejections of [publish/model.rs], the readers of
    [storage/fs.rs] and [storage/whiteout.rs], and the manifest reader.  A
    format string of an error message is a constructor of a message type.
    [serde_json] is the class [ManifestCodec]: what the code relies on is that
    an encoded manifest decodes to itself. *)

From S2P Require Import Prelude ByteStr Model FS.

(** ** Publish rejections: [publish/model.rs] *)

Inductive LayerProtectedDropReason :=
| UnsupportedSpecialFile | InvalidLayerPath | CommandScratchPath.

Record LayerProtectedDrop := mkDrop {
  drop_path : bytes;
  drop_reason : LayerProtectedDropReason;
}.

Inductive PublishRejectReason :=
| InvalidBaseRevision | ProtectedPath | SourceConflictReason | OpaqueDirProtectedDescendant
| OpaqueDirMixedRoutes | OpaqueDirExpansionLimit | RoutePreparationFailed.

Inductive ContentFingerprint :=
| FpAbsent
| FpFile (digest : bytes) (executable : option bool)
| FpSymlink (target : bytes)
| FpDirectory.

Record SourceConflict := mkSourceConflict {
  sc_path : LayerPath;
  sc_expected : ContentFingerprint;
  sc_actual : ContentFingerprint;
}.

(** The messages of [PublishReject::with_message]. *)
Inductive reject_msg := BaseRevisionMismatch | RoutePreparation.

Record PublishReject := mkReject {
  rj_path : option LayerPath;
  rj_reason : PublishRejectReason;
  rj_source_conflict : option SourceConflict;
  rj_protected_drop : option LayerProtectedDrop;
  rj_message : option reject_msg;
}.

#[global] Instance LayerProtectedDropReason_eq_dec : EqDecision LayerProtectedDropReason.
Proof. solve_decision. Defined.
#[global] Instance LayerProtectedDrop_eq_dec : EqDecision LayerProtectedDrop.
Proof. solve_decision. Defined.
#[global] Instance ContentFingerprint_eq_dec : EqDecision ContentFingerprint.
Proof. solve_decision. Defined.

Definition reject_at_path (p : LayerPath) (reason : PublishRejectReason) : PublishReject :=
  mkReject (Some p) reason None None None.
Definition reject_with_message (reason : PublishRejectReason) (m : reject_msg) : PublishReject :=
  mkReject None reason None None (Some m).
Definition reject_protected_drop (d : LayerProtectedDrop) : PublishReject :=
  mkReject None ProtectedPath None (Some d) None.
Definition reject_source_conflict (c : SourceConflict) : PublishReject :=
  mkReject (Some (sc_path c)) SourceConflictReason (Some c) None None.

(** ** Errors: [error.rs] *)

Inductive storage_msg :=
| MissingLayer (l : LayerRef)
| StaleLayer (id rel : bytes) (err : option errno)
| DirectoryWhileReading (p : bytes)
| SpoolChanged (p : path)
| SpoolCopyMismatch (p : bytes)
| WhiteoutFailed (p : path)
| OpaqueFailed (p : path)
| InjectedPublishFailure
| SyncfsFailed
| NotUtf8
| FlattenBlockTooSmall (n : nat)
| FlattenOpen (p : path)
| FlattenErrno (name : bytes) (e : errno)
| FlattenVanished (name : bytes)
| FlattenUnsupported (name : bytes)
| FlattenOpaque (p : path)
| FlattenTooDeep
| RunNotInPlan (id : bytes)
| RunNotContiguous (id : bytes)
| SquashInFlight
| BaseLayerExists (p : path)
| BaseThreadPool
| BaseNotFullCopy (special : nat) (special_sample : bytes) (unstable : nat) (unstable_sample : bytes)
| BaseStateExists (p : path)
| SharedBaseInvalid (p : path)
| OtherStorage.

Inductive manifest_msg :=
| EmptyLayerPath | NulInLayerPath (p : bytes) | AbsoluteLayerPath (p : bytes)
| DotDotLayerPath (p : bytes) | EmptyLayerId | JsonError | NewerSchema (v : Z)
| StackNotEmpty (v : Z).

Inductive LayerStackError :=
| ManifestConflict (expected found : Z)
| StorageRootOwned (root : bytes)
| StorageWriterLockClosed
| InvalidLeaseOwner (msg : bytes)
| LockPoisoned (name : bytes)
| PublishRejected (r : PublishReject)
| LayerIdAllocation
| ManifestError (m : manifest_msg)
| WorkspaceBindingError (m : bytes)
| FileTooLarge (size limit : Z)
| Storage (m : storage_msg)
| Cas (e : CasError)
| Io (e : errno).

(** ** Paths of the storage root: [lib.rs], [storage/fs.rs] *)

Definition LAYERS_DIR : bytes := lit "layers".
Definition STAGING_DIR : bytes := lit "staging".
Definition ACTIVE_MANIFEST_FILE : bytes := lit "manifest.json".
Definition LAYER_METADATA_DIR : bytes := lit ".layer-metadata".

(** The components [Path::components] yields. *)
Definition path_comps (p : bytes) : path :=
  filter (λ c, c ≠ [] ∧ c ≠ dot) (split_on slash p).

Definition is_absolute (p : bytes) : bool := starts_with [slash] p.

Definition join_layer_path (root : path) (rel : bytes) : path :=
  foldl (λ p part, if decide (part = []) then p else p ++ [part]) root (split_on slash rel).

Definition check_layer_path (p : bytes) : result unit LayerStackError :=
  if decide (p = []) then Err (ManifestError EmptyLayerPath)
  else if decide (nul ∈ p) then Err (ManifestError (NulInLayerPath p))
  else if is_absolute p then Err (ManifestError (AbsoluteLayerPath p))
  else if decide (dotdot ∈ path_comps p) then Err (ManifestError (DotDotLayerPath p))
  else Ok ().

Definition validate_layer_ref (l : LayerRef) : result unit LayerStackError :=
  if decide (layer_id l = []) then Err (ManifestError EmptyLayerId)
  else check_layer_path (lr_path l).

Definition resolve_layer_path (storage_root : path) (p : bytes) : path :=
  if is_absolute p then path_comps p else storage_root ++ path_comps p.

Definition layer_digest_path (storage_root : path) (id : bytes) : path :=
  storage_root ++ [LAYER_METADATA_DIR; id ++ lit ".digest"].
Definition layer_bytes_path (storage_root : path) (id : bytes) : path :=
  storage_root ++ [LAYER_METADATA_DIR; id ++ lit ".bytes"].

(** ** The manifest file *)

(** [struct ManifestPayload]; the schema defaults to the current one. *)
Record ManifestPayload := mkPayload {
  pl_version : Z;
  pl_schema_version : Z;
  pl_layers : list LayerRef;
}.

(** [serde_json]: the encoder of [write_manifest] and the decoder of
    [read_manifest].  The encoded text is UTF-8 and decodes to what was
    encoded. *)
Class ManifestCodec := {
  encode_manifest : Manifest → bytes;
  decode_payload : bytes → option ManifestPayload;
  encode_utf8 m : utf8_valid (encode_manifest m) = true;
  decode_encoded m :
    decode_payload (encode_manifest m) =
    Some (mkPayload (version m) (schema_version m) (layers m));
}.

Fixpoint validate_layer_refs (ls : list LayerRef) : result unit LayerStackError :=
  match ls with
  | [] => Ok ()
  | l :: ls => (let? _ := validate_layer_ref l in validate_layer_refs ls)%result
  end.

Definition read_manifest `{ManifestCodec} (f : fs) (p : path) : result Manifest LayerStackError :=
  if negb (exists_ f p) then map_err Cas (manifest_new 0 [] MANIFEST_SCHEMA_VERSION)
  else
    (let? text := map_err Io (read_to_string f p) in
     match decode_payload text with
     | None => Err (ManifestError JsonError)
     | Some payload =>
         if decide (MANIFEST_SCHEMA_VERSION < pl_schema_version payload)%Z
         then Err (ManifestError (NewerSchema (pl_schema_version payload)))
         else
           let? _ := validate_layer_refs (pl_layers payload) in
           map_err Cas
             (manifest_new (pl_version payload) (pl_layers payload) (pl_schema_version payload))
     end)%result.

(** ** Whiteouts: [storage/whiteout.rs] *)

Definition LOGICAL_WHITEOUT_PREFIX : bytes := lit ".wh.".
Definition OPAQUE_MARKER : bytes := lit ".wh..wh..opq".
Definition TRUSTED_OVERLAY_WHITEOUT_XATTR : bytes := lit "trusted.overlay.whiteout".
Definition USER_OVERLAY_WHITEOUT_XATTR : bytes := lit "user.overlay.whiteout".
Definition TRUSTED_OVERLAY_OPAQUE_XATTR : bytes := lit "trusted.overlay.opaque".
Definition USER_OVERLAY_OPAQUE_XATTR : bytes := lit "user.overlay.opaque".

(** [path.file_name()] *)
Definition file_name (p : path) : bytes := default [] (last p).

Definition logical_whiteout_path_for_target (p : path) : path :=
  parent p ++ [LOGICAL_WHITEOUT_PREFIX ++ file_name p].

Definition is_kernel_whiteout_meta (f : fs) (p : path) (meta : node) : bool :=
  match meta with
  | NChar rdev => bool_decide (rdev = 0%Z)
  | NFile data _ _ =>
      bool_decide (data = []) &&
      (has_xattr f p TRUSTED_OVERLAY_WHITEOUT_XATTR || has_xattr f p USER_OVERLAY_WHITEOUT_XATTR)
  | _ => false
  end.

Definition is_kernel_whiteout (f : fs) (p : path) : bool :=
  match symlink_metadata f p with
  | Ok meta => is_kernel_whiteout_meta f p meta
  | Err _ => false
  end.

(** ** A manifest codec

    The interface is inhabited: a manifest printed as the binary number of its
    encoding as a positive number. *)

Lemma utf8_valid_ascii s : Forall (λ x, (Byte.to_N x < 0x80)%N) s → utf8_valid s = true.
Proof.
  induction 1 as [|x s Hx Hs IH]; [done|]. cbn [utf8_valid].
  assert (in_range 0 0x7f x = true) as -> by (apply in_range_spec; lia). done.
Qed.

Definition manifest_fields (m : Manifest) : Z * list (bytes * bytes) * Z :=
  (version m, (λ l, (layer_id l, lr_path l)) <$> layers m, schema_version m).

(** The bits of a number, lowest first. *)
Fixpoint print_bits (p : positive) : bytes :=
  match p with
  | xH => []
  | xO p => Byte.x30 :: print_bits p
  | xI p => Byte.x31 :: print_bits p
  end.

Fixpoint parse_bits (s : bytes) : positive :=
  match s with
  | [] => xH
  | x :: s => if decide (x = Byte.x30) then xO (parse_bits s) else xI (parse_bits s)
  end.

Lemma parse_print_bits p : parse_bits (print_bits p) = p.
Proof. induction p as [p IH|p IH|]; simpl; by rewrite ?IH. Qed.

Lemma print_bits_ascii p : Forall (λ x, (Byte.to_N x < 0x80)%N) (print_bits p).
Proof. induction p; by constructor. Qed.

Definition number_encode (m : Manifest) : bytes := print_bits (encode (manifest_fields m)).

Definition number_decode (s : bytes) : option ManifestPayload :=
  '(v, ls, schema) ← decode (A := Z * list (bytes * bytes) * Z) (parse_bits s);
  Some (mkPayload v schema ((λ l, mkLayerRef l.1 l.2) <$> ls)).

Lemma hex_char_ascii d : (Byte.to_N (hex_char d) < 0x80)%N.
Proof.
  unfold hex_char. destruct (LOWER_HEX !! N.to_nat d) as [x|] eqn:Hx; [|done]. simpl.
  assert (Forall (λ x, (Byte.to_N x < 0x80)%N) LOWER_HEX) as Hall by (by repeat constructor).
  rewrite Forall_lookup in Hall. by eapply Hall.
Qed.

Lemma fmt_dec_ascii n : Forall (λ x, (Byte.to_N x < 0x80)%N) (fmt_dec n).
Proof.
  unfold fmt_dec, fmt_num. apply Forall_fmap, Forall_forall. intros d _. apply hex_char_ascii.
Qed.

#[refine] Definition number_codec : ManifestCodec := {|
  encode_manifest := number_encode;
  decode_payload := number_decode;
|}.
Proof.
  - intros m. apply utf8_valid_ascii, print_bits_ascii.
  - intros m. unfold number_decode, number_encode. rewrite parse_print_bits, decode_encode. simpl.
    do 2 f_equal.
    destruct m as [v ls s]. simpl. rewrite <-list_fmap_compose. rewrite <-(list_fmap_id ls) at 2.
    apply list_fmap_ext. by intros i [] ?.
Defined.
