(* ===== verification/View.v ===== *)
(** * The merged view of a layer stack: [projection/mod.rs]

    [MergedView] reads one path through the layers of a manifest, topmost
    first.  The layers are searched one by one with the whole path; the
    theorems show that this is the overlay lookup that merges directories
    level by level, and describe the listing of a directory. *)

From S2P Require Import Prelude ByteStr Model FS Storage.

(** ** Data *)

(** [enum MergedEntry] *)
Inductive MergedEntry :=
| EAbsent
| EFile (data : bytes) (executable : bool)
| ESymlink (target : bytes)
| EDirectory.

#[global] Instance MergedEntry_eq_dec : EqDecision MergedEntry.
Proof. solve_decision. Defined.

(** [enum ManifestFileRead] *)
Inductive ManifestFileRead :=
| RAbsent
| RFile (data : bytes) (total_bytes : Z)
| RDirectory
| RSymlink
| RTooLarge (size limit : Z).

(** [enum ManifestDirEntryKind], [struct ManifestDirEntry], [enum ManifestDirList] *)
Inductive ManifestDirEntryKind := KFile | KDirectory | KSymlink | KOther.

Record ManifestDirEntry := mkDirEntry {
  de_name : bytes;
  de_kind : ManifestDirEntryKind;
  de_size : option Z;
}.

Inductive ManifestDirList :=
| LAbsent
| LNotDirectory
| LEntries (entries : list ManifestDirEntry) (truncated : bool).

(** ** Helpers *)

Definition stale_layer_error (l : LayerRef) (rel : bytes) (err : option errno) : LayerStackError :=
  Storage (StaleLayer (layer_id l) rel err).

(** [mode & 0o111 != 0] *)
Definition is_executable (mode : Z) : bool := negb (bool_decide (Z.land mode 0x49 = 0%Z)).

(** [file.take(n).read_to_end()] *)
Definition take_z (n : Z) (data : bytes) : bytes :=
  if decide (Z.of_nat (length data) ≤ n)%Z then data else take (Z.to_nat n) data.

(** [read_file_limited]; the file does not change between the calls. *)
Definition read_file_limited (f : fs) (p : path) (meta : node) (max_bytes : Z)
    : result bytes LayerStackError :=
  if decide (max_bytes < n_len meta)%Z then Err (FileTooLarge (n_len meta) max_bytes)
  else
    (let? data := map_err Io (read f p) in
     let data := take_z (max_bytes + 1) data in
     if decide (max_bytes < Z.of_nat (length data))%Z
     then Err (FileTooLarge (Z.of_nat (length data)) max_bytes)
     else Ok data)%result.

Definition is_whiteouted (f : fs) (layer_dir : path) (rel : bytes) : bool :=
  let target := join_layer_path layer_dir rel in
  is_kernel_whiteout f target || exists_ f (logical_whiteout_path_for_target target).

(** [parts[..index].join("/")] for [index] from 1 to [parts.len() - 1]. *)
Definition ancestors (rel : bytes) : list bytes :=
  let parts := split_on slash rel in
  (λ index, join_with slash (take index parts)) <$> seq 1 (length parts - 1).

Definition ancestor_blocks (f : fs) (layer_dir : path) (ancestor : bytes) : bool :=
  let p := join_layer_path layer_dir ancestor in
  is_whiteouted f layer_dir ancestor
  || match symlink_metadata f p with
     | Ok meta => n_is_file meta || n_is_symlink meta
     | Err _ => false
     end
  || exists_ f (p ++ [OPAQUE_MARKER]).

Definition lookup_blocked_by_layer (f : fs) (layer_dir : path) (rel : bytes) : bool :=
  existsb (ancestor_blocks f layer_dir) (ancestors rel).

Definition lookup_symlink_ancestor_by_layer (f : fs) (layer_dir : path) (rel : bytes) : bool :=
  existsb (λ ancestor,
    match symlink_metadata f (join_layer_path layer_dir ancestor) with
    | Ok meta => n_is_symlink meta
    | Err _ => false
    end) (ancestors rel).

(** [usize::MAX] *)
Definition USIZE_MAX : Z := 2 ^ 64 - 1.

(** ** [MergedView] *)

Section view.
Context (f : fs) (storage_root : path).

Definition layer_dir (l : LayerRef) : result path LayerStackError :=
  (let? _ := validate_layer_ref l in
   let p := resolve_layer_path storage_root (lr_path l) in
   if is_dir f p then Ok p else Err (Storage (MissingLayer l)))%result.

(** The loop of [read_entry_limited] over the layers. *)
Fixpoint read_entry_loop (ls : list LayerRef) (rel : bytes) (max_bytes : Z)
    : result MergedEntry LayerStackError :=
  match ls with
  | [] => Ok EAbsent
  | l :: ls =>
      (let? dir := layer_dir l in
       if is_whiteouted f dir rel then Ok EAbsent
       else
         let target := join_layer_path dir rel in
         let next :=
           if lookup_blocked_by_layer f dir rel then Ok EAbsent
           else read_entry_loop ls rel max_bytes in
         match symlink_metadata f target with
         | Ok (NSymlink _) =>
             let? t := map_err (λ e, stale_layer_error l rel (Some e)) (read_link f target) in
             Ok (ESymlink (to_string_lossy t))
         | Ok (NFile data mode xs) =>
             match read_file_limited f target (NFile data mode xs) max_bytes with
             | Ok data => Ok (EFile data (is_executable mode))
             | Err (FileTooLarge size limit) => Err (FileTooLarge size limit)
             | Err (Io e) => Err (stale_layer_error l rel (Some e))
             | Err _ => Err (stale_layer_error l rel None)
             end
         | Ok (NDir _ _) => Ok EDirectory
         | Ok _ => Err (stale_layer_error l rel None)
         | Err ENOENT => next
         | Err ENOTDIR =>
             if lookup_blocked_by_layer f dir rel then next
             else Err (stale_layer_error l rel (Some ENOTDIR))
         | Err e => Err (stale_layer_error l rel (Some e))
         end)%result
  end.

Definition read_entry_limited (p : bytes) (m : Manifest) (max_bytes : Z)
    : result MergedEntry LayerStackError :=
  (let? rel := map_err Cas (parse p) in
   read_entry_loop (layers m) (as_str rel) max_bytes)%result.

Definition read_entry (p : bytes) (m : Manifest) : result MergedEntry LayerStackError :=
  read_entry_limited p m USIZE_MAX.

Definition view_read_bytes_limited (p : bytes) (m : Manifest) (max_bytes : Z)
    : result (option bytes * bool) LayerStackError :=
  (let? e := read_entry_limited p m max_bytes in
   match e with
   | EAbsent => Ok (None, false)
   | EFile data _ => Ok (Some data, true)
   | ESymlink target => Ok (Some target, true)
   | EDirectory =>
       match layers m with
       | [] => Err (Storage (DirectoryWhileReading p))
       | l :: _ => Err (stale_layer_error l p None)
       end
   end)%result.

(** The loop of [read_classified]. *)
Fixpoint read_classified_loop (ls : list LayerRef) (rel : bytes) (max_bytes : Z)
    : result ManifestFileRead LayerStackError :=
  match ls with
  | [] => Ok RAbsent
  | l :: ls =>
      (let? dir := layer_dir l in
       if is_whiteouted f dir rel then Ok RAbsent
       else if lookup_symlink_ancestor_by_layer f dir rel then Ok RSymlink
       else
         let target := join_layer_path dir rel in
         let next :=
           if lookup_blocked_by_layer f dir rel then Ok RAbsent
           else read_classified_loop ls rel max_bytes in
         match symlink_metadata f target with
         | Ok (NSymlink _) => Ok RSymlink
         | Ok (NFile data mode xs) =>
             let total_bytes := n_len (NFile data mode xs) in
             if decide (max_bytes = 0%Z) then Ok (RFile [] total_bytes)
             else if decide (max_bytes < total_bytes)%Z then Ok (RTooLarge total_bytes max_bytes)
             else
               let? data := map_err (λ e, stale_layer_error l rel (Some e)) (read f target) in
               Ok (RFile data total_bytes)
         | Ok (NDir _ _) => Ok RDirectory
         | Ok _ => Err (stale_layer_error l rel None)
         | Err ENOENT => next
         | Err ENOTDIR =>
             if lookup_blocked_by_layer f dir rel then next
             else Err (stale_layer_error l rel (Some ENOTDIR))
         | Err e => Err (stale_layer_error l rel (Some e))
         end)%result
  end.

Definition view_read_classified (p : bytes) (m : Manifest) (max_bytes : Z)
    : result ManifestFileRead LayerStackError :=
  (let? rel := map_err Cas (parse p) in
   read_classified_loop (layers m) (as_str rel) max_bytes)%result.

(** The state of [collect_dir_level]: [seen], [hidden] and [truncated]. *)
Record dir_level := mkLevel {
  dl_seen : list (bytes * ManifestDirEntry);
  dl_hidden : gset bytes;
  dl_truncated : bool;
}.

Definition dir_entry (name : bytes) (meta : node) : ManifestDirEntry :=
  match meta with
  | NSymlink _ => mkDirEntry name KSymlink None
  | NDir _ _ => mkDirEntry name KDirectory None
  | NFile _ _ _ => mkDirEntry name KFile (Some (n_len meta))
  | _ => mkDirEntry name KOther None
  end.

(** The loop over the entries of one directory; [true] is the early return. *)
Fixpoint collect_names (dir : path) (limit : nat) (ns : list bytes) (st : dir_level)
    : dir_level :=
  match ns with
  | [] => st
  | name :: ns =>
      if negb (utf8_valid name) then collect_names dir limit ns st
      else if decide (name = OPAQUE_MARKER) then collect_names dir limit ns st
      else match strip_prefix LOGICAL_WHITEOUT_PREFIX name with
      | Some target =>
          collect_names dir limit ns
            (mkLevel (dl_seen st) ({[target]} ∪ dl_hidden st) (dl_truncated st))
      | None =>
          match symlink_metadata f (dir ++ [name]) with
          | Err _ => collect_names dir limit ns st
          | Ok meta =>
              if is_kernel_whiteout f (dir ++ [name]) then
                collect_names dir limit ns
                  (mkLevel (dl_seen st) ({[name]} ∪ dl_hidden st) (dl_truncated st))
              else if decide (name ∈ dl_hidden st ∨ is_Some (bt_lookup name (dl_seen st))) then
                collect_names dir limit ns st
              else if decide (limit ≤ length (dl_seen st)) then
                mkLevel (dl_seen st) (dl_hidden st) true
              else
                collect_names dir limit ns
                  (mkLevel (bt_insert name (dir_entry name meta) (dl_seen st)) (dl_hidden st)
                     (dl_truncated st))
          end
      end
  end.

Definition collect_dir_level (dir : path) (limit : nat) (st : dir_level)
    : result dir_level LayerStackError :=
  match read_dir f dir with
  | Ok ns => Ok (collect_names dir limit ns st)
  | Err ENOENT => Ok st
  | Err ENOTDIR => Ok st
  | Err e => Err (Io e)
  end.

(** The loop of [list_dir] over the layers. *)
Fixpoint list_dir_loop (rel : option LayerPath) (limit : nat) (ls : list LayerRef) (st : dir_level)
    : result dir_level LayerStackError :=
  match ls with
  | [] => Ok st
  | l :: ls =>
      (let? ldir := layer_dir l in
       let continue := λ dir,
         let? st := collect_dir_level dir limit st in
         if dl_truncated st || exists_ f (dir ++ [OPAQUE_MARKER]) then Ok st
         else list_dir_loop rel limit ls st in
       match rel with
       | None => continue ldir
       | Some rel' =>
           if is_whiteouted f ldir (as_str rel') || lookup_blocked_by_layer f ldir (as_str rel')
           then Ok st
           else
             let target := join_layer_path ldir (as_str rel') in
             match symlink_metadata f target with
             | Ok meta => if n_is_dir meta then continue target else Ok st
             | Err _ => list_dir_loop rel limit ls st
             end
       end)%result
  end.

Definition view_list_dir (rel : option LayerPath) (m : Manifest) (limit : nat)
    : result ManifestDirList LayerStackError :=
  let list :=
    (let? st := list_dir_loop rel limit (layers m) (mkLevel [] ∅ false) in
     Ok (LEntries (dl_seen st).*2 (dl_truncated st)))%result in
  match rel with
  | None => list
  | Some rel' =>
      (let? e := read_entry (as_str rel') m in
       match e with
       | EAbsent => Ok LAbsent
       | EFile _ _ | ESymlink _ => Ok LNotDirectory
       | EDirectory => list
       end)%result
  end.
End view.

(** ** The overlay lookup

    The reference: a directory of the merged view is a list of layer
    directories, topmost first.  Descending into a name keeps the directories
    of that name down to the first layer that hides the ones below. *)

Section overlay.
Context (f : fs).

(** What one layer directory says of a name. *)
Inductive slot := Nothing | Hidden | Here (n : node).

Definition present (d : path) (c : bytes) : bool := bool_decide (is_Some (f !! (d ++ [c]))).

(** A kernel whiteout: a device with number 0, or an empty file so marked. *)
Definition whiteout_node (n : node) : bool :=
  match n with
  | NChar rdev => bool_decide (rdev = 0%Z)
  | NFile data _ xs =>
      bool_decide (data = []) &&
      (bool_decide (TRUSTED_OVERLAY_WHITEOUT_XATTR ∈ xs) || bool_decide (USER_OVERLAY_WHITEOUT_XATTR ∈ xs))
  | _ => false
  end.

Definition slot_at (d : path) (c : bytes) : slot :=
  if present d (LOGICAL_WHITEOUT_PREFIX ++ c) then Hidden
  else match f !! (d ++ [c]) with
  | None => Nothing
  | Some n => if whiteout_node n then Hidden else Here n
  end.

Definition opaque (d : path) : bool := present d OPAQUE_MARKER.

Fixpoint find (c : bytes) (dirs : list path) : option node :=
  match dirs with
  | [] => None
  | d :: dirs =>
      match slot_at d c with
      | Nothing => find c dirs
      | Hidden => None
      | Here n => Some n
      end
  end.

Fixpoint descend (c : bytes) (dirs : list path) : list path :=
  match dirs with
  | [] => []
  | d :: dirs =>
      match slot_at d c with
      | Nothing => descend c dirs
      | Here (NDir _ _) => (d ++ [c]) :: if opaque (d ++ [c]) then [] else descend c dirs
      | _ => []
      end
  end.

Fixpoint overlay (dirs : list path) (cs : path) : option node :=
  match cs with
  | [] => None
  | [c] => find c dirs
  | c :: cs => overlay (descend c dirs) cs
  end.

(** *** One layer at a time *)

Inductive verdict := VFound (n : node) | VHidden | VNext.

Fixpoint judge (d : path) (cs : path) : verdict :=
  match cs with
  | [] => VNext
  | [c] =>
      match slot_at d c with Nothing => VNext | Hidden => VHidden | Here n => VFound n end
  | c :: cs =>
      match slot_at d c with
      | Nothing => VNext
      | Here (NDir _ _) =>
          match judge (d ++ [c]) cs with
          | VNext => if opaque (d ++ [c]) then VHidden else VNext
          | v => v
          end
      | _ => VHidden
      end
  end.

Lemma judge_cons2 d c c' cs :
  judge d (c :: c' :: cs) =
  match slot_at d c with
  | Nothing => VNext
  | Here (NDir _ _) =>
      match judge (d ++ [c]) (c' :: cs) with
      | VNext => if opaque (d ++ [c]) then VHidden else VNext
      | v => v
      end
  | _ => VHidden
  end.
Proof. done. Qed.

Lemma overlay_nil cs : overlay [] cs = None.
Proof. induction cs as [|c [|c' cs] IH]; [done..|]. cbn [overlay descend]. apply IH. Qed.

(** The overlay lookup asks the layers in turn. *)
Lemma overlay_cons cs : ∀ d dirs, cs ≠ [] →
  overlay (d :: dirs) cs =
  match judge d cs with VFound n => Some n | VHidden => None | VNext => overlay dirs cs end.
Proof.
  induction cs as [|c cs IH]; intros d dirs Hne; [done|].
  destruct cs as [|c' cs].
  { cbn [overlay find judge]. by destruct (slot_at d c). }
  change (overlay (d :: dirs) (c :: c' :: cs)) with (overlay (descend c (d :: dirs)) (c' :: cs)).
  rewrite judge_cons2.
  cbn [descend]. destruct (slot_at d c) as [| |[]]; rewrite ?overlay_nil; try done.
  rewrite IH by done. destruct (judge (d ++ [c]) (c' :: cs)); [done..|].
  destruct (opaque (d ++ [c])); by rewrite ?overlay_nil.
Qed.

(** *** Resolution inside a layer *)

(** What published layers guarantee about the tree below [d]: no special files
    other than whiteouts, no name beside its own logical whiteout, and no link
    under a marker's name. *)
Record layer_clean (d : path) : Prop := {
  clean_special cs n : f !! (d ++ cs) = Some n → n ≠ NOther ∧ (∀ r, n = NChar r → r = 0%Z);
  clean_whiteout cs c :
    is_Some (f !! (d ++ cs ++ [LOGICAL_WHITEOUT_PREFIX ++ c])) → f !! (d ++ cs ++ [c]) = None;
  clean_marker cs c t : f !! (d ++ cs ++ [LOGICAL_WHITEOUT_PREFIX ++ c]) ≠ Some (NSymlink t);
}.

Lemma layer_clean_app d e : layer_clean d → layer_clean (d ++ e).
Proof.
  intros [H1 H2 H3]. split; intros cs.
  - rewrite <-(assoc_L (++)). apply H1.
  - intros c. rewrite <-!(assoc_L (++) d e), !(assoc_L (++) e cs). apply H2.
  - intros c t. rewrite <-(assoc_L (++) d e), (assoc_L (++) e cs). apply H3.
Qed.

Lemma marker_not_dotdot s : LOGICAL_WHITEOUT_PREFIX ++ s ≠ dotdot.
Proof. by intros [=]. Qed.

Lemma resolve_plain follow d rest :
  plain_dir f d → resolve f follow (d ++ rest) = walk f MAX_LINKS follow d rest.
Proof. apply walk_plain. Qed.

Lemma lstat_child d c :
  plain_dir f d → c ≠ dotdot → symlink_metadata f (d ++ [c]) = node_at f (d ++ [c]).
Proof.
  intros Hd Hc. unfold symlink_metadata. rewrite resolve_plain by done. rewrite walk_eq.
  rewrite (plain_dir_at f d), decide_False by done.
  destruct (f !! (d ++ [c])) as [[]|] eqn:Hn; simpl; rewrite ?walk_eq; by rewrite ?Hn.
Qed.

(** A marker is seen exactly where there is a node of its name. *)
Lemma exists_child d c :
  plain_dir f d → c ≠ dotdot → exists_ f (d ++ [c]) = true → is_Some (f !! (d ++ [c])).
Proof.
  intros Hd Hc. unfold exists_, metadata. rewrite resolve_plain by done. rewrite walk_eq.
  rewrite (plain_dir_at f d), decide_False by done.
  destruct (f !! (d ++ [c])) eqn:Hn; [done|]. simpl. unfold node_at. by rewrite Hn.
Qed.

Lemma exists_child_iff d c :
  plain_dir f d → c ≠ dotdot → (∀ t, f !! (d ++ [c]) ≠ Some (NSymlink t)) →
  exists_ f (d ++ [c]) = bool_decide (is_Some (f !! (d ++ [c]))).
Proof.
  intros Hd Hc Hns. unfold exists_, metadata. rewrite resolve_plain by done.
  rewrite walk_step by (done || by apply plain_dir_at). unfold node_at.
  by destruct (f !! (d ++ [c])) eqn:Hn; simpl; rewrite Hn.
Qed.

(** Nothing is found below a missing name, a file or a device. *)
Lemma resolve_below follow d c rest :
  plain_dir f d → c ≠ dotdot → rest ≠ [] → dir_at f (d ++ [c]) = false →
  (∀ t, f !! (d ++ [c]) ≠ Some (NSymlink t)) →
  resolve f follow (d ++ c :: rest) = Err match f !! (d ++ [c]) with None => ENOENT | _ => ENOTDIR end.
Proof.
  intros Hd Hc Hrest Hnd Hns. rewrite resolve_plain by done.
  rewrite walk_step by (done || by apply plain_dir_at).
  destruct (f !! (d ++ [c])) as [n|] eqn:Hn; [|by rewrite decide_False].
  destruct rest as [|c' rest]; [done|]. by apply walk_not_dir.
Qed.

(** *** The code's three tests on one layer, by components *)

Definition whited (d cs : path) : bool :=
  is_kernel_whiteout f (d ++ cs) || exists_ f (logical_whiteout_path_for_target (d ++ cs)).

Definition blocks (d a : path) : bool :=
  whited d a
  || match symlink_metadata f (d ++ a) with
     | Ok meta => n_is_file meta || n_is_symlink meta
     | Err _ => false
     end
  || exists_ f ((d ++ a) ++ [OPAQUE_MARKER]).

Definition blocked (d cs : path) : bool :=
  existsb (λ k, blocks d (take k cs)) (seq 1 (length cs - 1)).

Lemma blocks_cons d c a : blocks d (c :: a) = blocks (d ++ [c]) a.
Proof. unfold blocks, whited. by rewrite <-!(assoc_L (++) d [c]). Qed.

Lemma blocked_cons d c c' cs :
  blocked d (c :: c' :: cs) = blocks d [c] || blocked (d ++ [c]) (c' :: cs).
Proof.
  unfold blocked. cbn [length]. rewrite !Nat.sub_succ, !Nat.sub_0_r.
  rewrite <-(cons_seq (length cs) 1). cbn [existsb take]. f_equal.
  rewrite <-fmap_S_seq, existsb_fmap. apply existsb_ext_in. intros k _. apply blocks_cons.
Qed.

Lemma logical_snoc d c : logical_whiteout_path_for_target (d ++ [c]) = d ++ [LOGICAL_WHITEOUT_PREFIX ++ c].
Proof.
  unfold logical_whiteout_path_for_target, parent, file_name.
  rewrite last_snoc, length_app. simpl. rewrite Nat.add_1_r. simpl. by rewrite take_app_length.
Qed.

Lemma kernel_whiteout_child d c :
  plain_dir f d → c ≠ dotdot →
  is_kernel_whiteout f (d ++ [c]) =
  match f !! (d ++ [c]) with Some n => whiteout_node n | None => false end.
Proof.
  intros Hd Hc. unfold is_kernel_whiteout, is_kernel_whiteout_meta, has_xattr.
  rewrite lstat_child by done. unfold node_at. by destruct (f !! (d ++ [c])) as [[]|].
Qed.

Lemma marker_child d c :
  plain_dir f d → layer_clean d →
  exists_ f (d ++ [LOGICAL_WHITEOUT_PREFIX ++ c]) = present d (LOGICAL_WHITEOUT_PREFIX ++ c).
Proof.
  intros Hd Hcl. apply exists_child_iff; [done|apply marker_not_dotdot|].
  intros t. apply (clean_marker _ Hcl []).
Qed.

Lemma opaque_child d :
  plain_dir f d → layer_clean d → exists_ f (d ++ [OPAQUE_MARKER]) = opaque d.
Proof. apply (marker_child d (lit ".wh..opq")). Qed.

Lemma whited_one d c :
  plain_dir f d → layer_clean d → c ≠ dotdot →
  whited d [c] = match slot_at d c with Hidden => true | _ => false end.
Proof.
  intros Hd Hcl Hc. unfold whited, slot_at. rewrite logical_snoc, marker_child by done.
  rewrite kernel_whiteout_child by done.
  destruct (present _ _); [apply orb_true_r|]. rewrite orb_false_r.
  destruct (f !! _) as [n|]; [|done]. by destruct (whiteout_node n).
Qed.

Lemma slot_here d c n :
  slot_at d c = Here n → f !! (d ++ [c]) = Some n ∧ whiteout_node n = false.
Proof.
  unfold slot_at. destruct (present _ _); [done|]. destruct (f !! _) as [n'|]; [|done].
  destruct (whiteout_node n') eqn:?; [done|]. by intros [= ->].
Qed.

Lemma slot_nothing d c : slot_at d c = Nothing → f !! (d ++ [c]) = None.
Proof.
  unfold slot_at. destruct (present _ _); [done|]. destruct (f !! _) as [n'|]; [|done].
  by destruct (whiteout_node n').
Qed.

(** Below a name that is missing or no directory every test fails to find. *)
Lemma below_tests d c rest :
  plain_dir f d → c ≠ dotdot → rest ≠ [] → dir_at f (d ++ [c]) = false →
  (∀ t, f !! (d ++ [c]) ≠ Some (NSymlink t)) →
  whited (d ++ [c]) rest = false ∧
  exists_ f ((d ++ [c]) ++ rest) = false ∧
  symlink_metadata f ((d ++ [c]) ++ rest) =
    Err match f !! (d ++ [c]) with None => ENOENT | _ => ENOTDIR end.
Proof.
  intros Hd Hc Hrest Hnd Hns.
  assert (∀ rest follow, rest ≠ [] → resolve f follow ((d ++ [c]) ++ rest) =
    Err match f !! (d ++ [c]) with None => ENOENT | _ => ENOTDIR end) as Hres.
  { intros rest' follow ?. rewrite <-(assoc_L (++)). by apply resolve_below. }
  assert (∀ rest, rest ≠ [] → exists_ f ((d ++ [c]) ++ rest) = false ∧
    symlink_metadata f ((d ++ [c]) ++ rest) =
    Err match f !! (d ++ [c]) with None => ENOENT | _ => ENOTDIR end) as Hall.
  { intros rest' ?. unfold exists_, metadata, symlink_metadata. by rewrite !Hres. }
  split; [|by apply Hall]. unfold whited, is_kernel_whiteout.
  rewrite (proj2 (Hall rest Hrest)). simpl.
  destruct rest as [|x rest _] using rev_ind; [done|]. rewrite (assoc_L (++)), logical_snoc.
  rewrite <-(assoc_L (++) _ rest). apply Hall. by destruct rest.
Qed.

Lemma blocked_below d c cs :
  plain_dir f d → c ≠ dotdot → dir_at f (d ++ [c]) = false →
  (∀ t, f !! (d ++ [c]) ≠ Some (NSymlink t)) → blocked (d ++ [c]) cs = false.
Proof.
  intros Hd Hc Hnd Hns. apply existsb_none. intros k Hk. apply elem_of_seq in Hk.
  assert (take k cs ≠ []) as Hne by (destruct k, cs; simpl in *; (done || lia)).
  destruct (below_tests d c (take k cs)) as (H1 & _ & H2); [done..|].
  destruct (below_tests d c (take k cs ++ [OPAQUE_MARKER])) as (_ & H3 & _);
    [done|done|by destruct (take k cs)|done..|].
  unfold blocks. rewrite H1, H2. by rewrite <-(assoc_L (++)), H3.
Qed.

Lemma whited_cons d c c' cs : whited d (c :: c' :: cs) = whited (d ++ [c]) (c' :: cs).
Proof. unfold whited. by rewrite <-!(assoc_L (++) d [c]). Qed.

(** A directory is not hidden in its own layer. *)
Lemma slot_dir_not_hidden d c :
  layer_clean d → dir_at f (d ++ [c]) = true → slot_at d c ≠ Hidden.
Proof.
  intros Hcl Hdir. unfold slot_at, present, dir_at in *. case_bool_decide as Hm.
  - apply (clean_whiteout _ Hcl []) in Hm. simpl in Hm. by rewrite Hm in Hdir.
  - by destruct (f !! (d ++ [c])) as [[]|].
Qed.

(** What the tests report, by the verdict of the layer. *)
Definition tests_match (d cs : path) (v : verdict) : Prop :=
  match v with
  | VFound n => whited d cs = false ∧ symlink_metadata f (d ++ cs) = Ok n
  | VHidden =>
      whited d cs = true ∨
      (blocked d cs = true ∧
       (symlink_metadata f (d ++ cs) = Err ENOENT ∨ symlink_metadata f (d ++ cs) = Err ENOTDIR))
  | VNext =>
      whited d cs = false ∧ blocked d cs = false ∧ symlink_metadata f (d ++ cs) = Err ENOENT
  end.

(** No proper ancestor of the path is a symbolic link in the layer. *)
Definition no_link_above (d cs : path) : Prop :=
  ∀ k t, 0 < k < length cs → f !! (d ++ take k cs) ≠ Some (NSymlink t).

Lemma judge_tests cs : ∀ d,
  plain_dir f d → layer_clean d → Forall comp_ok cs → cs ≠ [] → no_link_above d cs →
  tests_match d cs (judge d cs).
Proof.
  induction cs as [|c cs IH]; intros d Hd Hcl Hcs Hne Hnl; [done|].
  apply Forall_cons in Hcs as [(Hc1 & _ & Hc & _) Hcs].
  destruct cs as [|c' cs].
  { cbn [judge]. unfold tests_match. rewrite whited_one, lstat_child by done. unfold node_at.
    destruct (slot_at d c) eqn:Hs; [|by left|].
    - by rewrite (slot_nothing _ _ Hs).
    - by rewrite (proj1 (slot_here _ _ _ Hs)). }
  assert (∀ t, f !! (d ++ [c]) ≠ Some (NSymlink t)) as Hns.
  { intros t. apply (Hnl 1). simpl. lia. }
  assert (d ++ c :: c' :: cs = (d ++ [c]) ++ c' :: cs) as Happ by by rewrite <-(assoc_L (++)).
  rewrite judge_cons2.
  destruct (dir_at f (d ++ [c])) eqn:Hdir.
  - assert (plain_dir f (d ++ [c])) as Hd' by by apply plain_dir_snoc.
    assert (tests_match (d ++ [c]) (c' :: cs) (judge (d ++ [c]) (c' :: cs))) as Hrec.
    { apply IH; [done|by apply layer_clean_app|done|done|]. intros k t Hk.
      rewrite <-(assoc_L (++)). apply (Hnl (S k)). simpl in *. lia. }
    assert (slot_at d c ≠ Hidden) as Hnh by by apply slot_dir_not_hidden.
    destruct (slot_at d c) as [| |n] eqn:Hs; [|done|].
    { unfold dir_at in Hdir. by rewrite (slot_nothing _ _ Hs) in Hdir. }
    destruct (slot_here _ _ _ Hs) as [Hn _]. unfold dir_at in Hdir. rewrite Hn in Hdir.
    destruct n as [| |m xs| |]; try done.
    assert (blocks d [c] = opaque (d ++ [c])) as Hb.
    { unfold blocks. rewrite whited_one, Hs, lstat_child by done. unfold node_at. rewrite Hn. simpl.
      by apply opaque_child; [|apply layer_clean_app]. }
    unfold tests_match in *. rewrite !whited_cons, !Happ, !blocked_cons, Hb.
    destruct (judge (d ++ [c]) (c' :: cs)) as [n| |].
    + done.
    + destruct Hrec as [?|[-> ?]]; [by left|right]. by rewrite orb_true_r.
    + destruct Hrec as (-> & -> & ->). destruct (opaque (d ++ [c])); simpl; auto.
  - destruct (below_tests d c (c' :: cs)) as (Hw & _ & Hl); [done..|].
    unfold tests_match. rewrite !whited_cons, !Happ, !blocked_cons, Hw, Hl, blocked_below by done.
    rewrite orb_false_r. unfold blocks. rewrite whited_one, lstat_child by done. unfold node_at.
    destruct (slot_at d c) as [| |n] eqn:Hs.
    + rewrite (slot_nothing _ _ Hs).
      by destruct (below_tests d c [OPAQUE_MARKER]) as (_ & -> & _).
    + right. split; [done|]. destruct (f !! _); auto.
    + destruct (slot_here _ _ _ Hs) as [Hn Hwn].
      rewrite Hn. destruct n as [data m xs|t|m xs|r|]; [by right; auto|naive_solver| | |].
      * unfold dir_at in Hdir. by rewrite Hn in Hdir.
      * exfalso. destruct (clean_special _ Hcl [c] _ Hn) as [_ Hr]. specialize (Hr r eq_refl).
        by subst r.
      * by destruct (clean_special _ Hcl [c] _ Hn).
Qed.
End overlay.

(** ** The code and the overlay lookup agree *)

Lemma foldl_join (root : path) (parts : path) :
  Forall (λ c, c ≠ []) parts →
  foldl (λ p part, if decide (part = []) then p else p ++ [part]) root parts = root ++ parts.
Proof.
  intros Hp. revert root. induction Hp as [|c parts Hc Hp IH]; intros root; simpl.
  - by rewrite app_nil_r.
  - rewrite decide_False, IH by done. by rewrite <-(assoc_L (++)).
Qed.

Lemma comp_ok_ne cs : Forall comp_ok cs → Forall (λ c : bytes, c ≠ []) cs.
Proof. intros H. eapply Forall_impl; [done|]. by intros c [? _]. Qed.

Lemma join_layer_path_comps d cs :
  Forall comp_ok cs → cs ≠ [] → join_layer_path d (join_with slash cs) = d ++ cs.
Proof.
  intros Hcs Hne. unfold join_layer_path. rewrite split_join_with; [|done|].
  - by apply foldl_join, comp_ok_ne.
  - eapply Forall_impl; [done|]. by intros c (_ & _ & _ & ? & _).
Qed.

Lemma ancestors_comps cs :
  Forall comp_ok cs → cs ≠ [] →
  ancestors (join_with slash cs) = (λ k, join_with slash (take k cs)) <$> seq 1 (length cs - 1).
Proof.
  intros Hcs Hne. unfold ancestors. rewrite split_join_with; [done|done|].
  eapply Forall_impl; [done|]. by intros c (_ & _ & _ & ? & _).
Qed.

(** The layer conditions, checked on a concrete file system. *)
Definition node_clean (f : fs) (q : path) (n : node) : bool :=
  match n with NOther => false | NChar r => bool_decide (r = 0%Z) | _ => true end &&
  match strip_prefix LOGICAL_WHITEOUT_PREFIX (file_name q) with
  | Some c => bool_decide (f !! (parent q ++ [c]) = None) && negb (n_is_symlink n)
  | None => true
  end.

Definition fs_clean (f : fs) : bool := forallb (λ qn, node_clean f qn.1 qn.2) (map_to_list f).

Lemma parent_snoc (d : path) c : parent (d ++ [c]) = d.
Proof. unfold parent. rewrite length_app, Nat.add_1_r. simpl. by rewrite take_app_length. Qed.

Lemma file_name_snoc (d : path) c : file_name (d ++ [c]) = c.
Proof. unfold file_name. by rewrite last_snoc. Qed.

Lemma fs_clean_layers f d : fs_clean f = true → layer_clean f d.
Proof.
  unfold fs_clean. rewrite forallb_forall. intros Hall.
  assert (∀ q n, f !! q = Some n → node_clean f q n = true) as Hn.
  { intros q n Hq. apply (Hall (q, n)), list_elem_of_In, elem_of_map_to_list, Hq. }
  clear Hall. split.
  - intros cs n Hq. apply Hn in Hq. unfold node_clean in Hq. apply andb_true_iff in Hq as [Hq _].
    destruct n; try done. split; [done|]. intros r' [= ->]. by apply bool_decide_eq_true in Hq.
  - intros cs c [n Hq]. rewrite (assoc_L (++)) in Hq. apply Hn, andb_true_iff in Hq as [_ Hq].
    rewrite file_name_snoc, parent_snoc in Hq.
    rewrite (proj2 (strip_prefix_Some _ _ c)) in Hq by done.
    apply andb_true_iff in Hq as [Hq _]. apply bool_decide_eq_true in Hq. by rewrite (assoc_L (++)).
  - intros cs c t Hq. rewrite (assoc_L (++)) in Hq. apply Hn in Hq. unfold node_clean in Hq.
    rewrite file_name_snoc, (proj2 (strip_prefix_Some _ _ c)) in Hq by done.
    by rewrite !andb_false_r in Hq.
Qed.

Section code.
Context (f : fs).

Lemma is_whiteouted_comps d cs :
  Forall comp_ok cs → cs ≠ [] → is_whiteouted f d (join_with slash cs) = whited f d cs.
Proof. intros. unfold is_whiteouted. by rewrite join_layer_path_comps. Qed.

Lemma lookup_blocked_comps d cs :
  Forall comp_ok cs → cs ≠ [] →
  lookup_blocked_by_layer f d (join_with slash cs) = blocked f d cs.
Proof.
  intros Hcs Hne. unfold lookup_blocked_by_layer, blocked. rewrite ancestors_comps by done.
  rewrite existsb_fmap. apply existsb_ext_in. intros k Hk. apply elem_of_seq in Hk.
  assert (take k cs ≠ [] ∧ Forall comp_ok (take k cs)) as [? ?].
  { split; [destruct k, cs; simpl in *; (done || lia)|by apply Forall_take]. }
  unfold ancestor_blocks, blocks. by rewrite is_whiteouted_comps, join_layer_path_comps.
Qed.

(** The layers of a manifest and their directories. *)
Definition stack_ok (root : path) (ls : list LayerRef) (dirs : list path) : Prop :=
  Forall2 (λ l d, layer_dir f root l = Ok d ∧ plain_dir f d ∧ layer_clean f d) ls dirs.

(** The entry the code reports for a node; the target of a link as text. *)
Definition entry_result (max_bytes : Z) (n : option node) : result MergedEntry LayerStackError :=
  match n with
  | None => Ok EAbsent
  | Some (NFile data mode xs) =>
      if decide (max_bytes < Z.of_nat (length data))%Z
      then Err (FileTooLarge (Z.of_nat (length data)) max_bytes)
      else Ok (EFile data (is_executable mode))
  | Some (NSymlink t) => Ok (ESymlink (to_string_lossy t))
  | Some (NDir _ _) => Ok EDirectory
  | Some _ => Err (Storage OtherStorage)
  end.

Lemma read_file_limited_spec p data mode xs max_bytes :
  symlink_metadata f p = Ok (NFile data mode xs) →
  read_file_limited f p (NFile data mode xs) max_bytes =
  if decide (max_bytes < Z.of_nat (length data))%Z
  then Err (FileTooLarge (Z.of_nat (length data)) max_bytes) else Ok data.
Proof.
  intros Hp. unfold read_file_limited, n_len. case_decide; [done|].
  unfold read. rewrite (metadata_of_symlink_metadata _ _ _ Hp) by done. simpl.
  unfold take_z. rewrite (decide_True (P := (Z.of_nat (length data) ≤ max_bytes + 1)%Z)) by lia.
  by rewrite decide_False.
Qed.

(** A node found in a clean layer is a file, a link or a directory. *)
Lemma judge_found cs : ∀ d n,
  plain_dir f d → layer_clean f d → Forall comp_ok cs → judge f d cs = VFound n →
  n ≠ NOther ∧ ∀ r, n ≠ NChar r.
Proof.
  induction cs as [|c cs IH]; intros d n Hd Hcl Hcs; [done|].
  apply Forall_cons in Hcs as [(_ & _ & Hc & _) Hcs].
  assert (∀ n, slot_at f d c = Here n →
    f !! (d ++ [c]) = Some n ∧ n ≠ NOther ∧ ∀ r, n ≠ NChar r) as Hslot.
  { intros n' [Hn Hw]%slot_here. destruct (clean_special _ _ Hcl [c] _ Hn) as [Ho Hr].
    split_and!; [done|done|]. intros r ->. by rewrite (Hr r eq_refl) in Hw. }
  destruct cs as [|c' cs].
  - cbn [judge]. destruct (slot_at f d c) eqn:Hs; [done..|]. intros [= ->]. by apply Hslot.
  - rewrite judge_cons2. destruct (slot_at f d c) as [| |[]] eqn:Hs; try done.
    destruct (Hslot _ eq_refl) as [Hn _].
    assert (plain_dir f (d ++ [c])) as Hd'.
    { apply plain_dir_snoc; [done| |done]. unfold dir_at. by rewrite Hn. }
    specialize (IH (d ++ [c]) n Hd' (layer_clean_app _ _ _ Hcl) Hcs).
    destruct (judge f (d ++ [c]) (c' :: cs)); [by apply IH|done|by destruct (opaque f (d ++ [c]))].
Qed.

Lemma read_entry_loop_overlay root ls dirs cs max_bytes :
  stack_ok root ls dirs → Forall comp_ok cs → cs ≠ [] → Forall (λ d, no_link_above f d cs) dirs →
  read_entry_loop f root ls (join_with slash cs) max_bytes =
  entry_result max_bytes (overlay f dirs cs).
Proof.
  intros Hst Hcs Hne. induction Hst as [|l d ls dirs (Hl & Hd & Hcl) Hst IH]; intros Hnl.
  { by rewrite overlay_nil. }
  apply Forall_cons in Hnl as [Hnld Hnl]. specialize (IH Hnl).
  rewrite overlay_cons by done. cbn [read_entry_loop]. rewrite Hl. cbn [result_bind].
  pose proof (judge_tests f cs d Hd Hcl Hcs Hne Hnld) as Ht.
  rewrite is_whiteouted_comps, lookup_blocked_comps, join_layer_path_comps by done.
  destruct (judge f d cs) as [n| |] eqn:Hj; cbn [tests_match] in Ht.
  - destruct Ht as [-> Hm]. rewrite Hm.
    destruct (judge_found cs d n Hd Hcl Hcs Hj) as [Ho Hr].
    destruct n as [data mode xs|t| | |]; [|  |done|naive_solver|done].
    + rewrite read_file_limited_spec by done. simpl. by case_decide.
    + unfold read_link. by rewrite Hm.
  - destruct Ht as [->|[Hb Hm]]; [done|]. rewrite Hb. destruct (whited f d cs); [done|].
    by destruct Hm as [-> | ->].
  - destruct Ht as (-> & -> & ->). apply IH.
Qed.

Lemma no_link_symlink_ancestor d cs :
  plain_dir f d → Forall comp_ok cs → cs ≠ [] → no_link_above f d cs →
  lookup_symlink_ancestor_by_layer f d (join_with slash cs) = false.
Proof.
  intros Hd Hcs Hne Hnl. unfold lookup_symlink_ancestor_by_layer. rewrite ancestors_comps by done.
  rewrite existsb_fmap. apply existsb_none. intros k Hk. apply elem_of_seq in Hk.
  assert (take k cs ≠ [] ∧ Forall comp_ok (take k cs)) as [? Hok].
  { split; [destruct k, cs; simpl in *; (done || lia)|by apply Forall_take]. }
  rewrite join_layer_path_comps by done.
  destruct (symlink_metadata f (d ++ take k cs)) as [[| t| | |]|] eqn:Hm; try done. exfalso.
  unfold symlink_metadata in Hm. rewrite resolve_plain in Hm by done.
  apply result_bind_ok in Hm as (q & Hq & Hn). apply walk_no_links in Hq as ->.
  - unfold node_at in Hn. destruct (f !! _) eqn:Hf; simplify_eq. apply (Hnl k t); [lia|done].
  - intros Hin. rewrite Forall_forall in Hok. by apply Hok in Hin as (_ & _ & ? & _).
  - intros j t' Hj. rewrite length_take in Hj. rewrite take_take. apply Hnl. lia.
Qed.

(** The classification the code reports for a node. *)
Definition classify_result (max_bytes : Z) (n : option node) : result ManifestFileRead LayerStackError :=
  match n with
  | None => Ok RAbsent
  | Some (NFile data _ _) =>
      let size := Z.of_nat (length data) in
      if decide (max_bytes = 0%Z) then Ok (RFile [] size)
      else if decide (max_bytes < size)%Z then Ok (RTooLarge size max_bytes)
      else Ok (RFile data size)
  | Some (NSymlink _) => Ok RSymlink
  | Some (NDir _ _) => Ok RDirectory
  | Some _ => Err (Storage OtherStorage)
  end.

Lemma read_classified_loop_overlay root ls dirs cs max_bytes :
  stack_ok root ls dirs → Forall comp_ok cs → cs ≠ [] → Forall (λ d, no_link_above f d cs) dirs →
  read_classified_loop f root ls (join_with slash cs) max_bytes =
  classify_result max_bytes (overlay f dirs cs).
Proof.
  intros Hst Hcs Hne. induction Hst as [|l d ls dirs (Hl & Hd & Hcl) Hst IH]; intros Hnl.
  { by rewrite overlay_nil. }
  apply Forall_cons in Hnl as [Hnld Hnl]. specialize (IH Hnl).
  rewrite overlay_cons by done. cbn [read_classified_loop]. rewrite Hl. cbn [result_bind].
  pose proof (judge_tests f cs d Hd Hcl Hcs Hne Hnld) as Ht.
  rewrite is_whiteouted_comps, no_link_symlink_ancestor, lookup_blocked_comps,
    join_layer_path_comps by done.
  destruct (judge f d cs) as [n| |] eqn:Hj; cbn [tests_match] in Ht.
  - destruct Ht as [-> Hm]. rewrite Hm.
    destruct (judge_found cs d n Hd Hcl Hcs Hj) as [Ho Hr].
    destruct n as [data mode xs|t| | |]; [|done|done|naive_solver|done].
    simpl. do 2 (case_decide; [done|]). unfold read.
    by rewrite (metadata_of_symlink_metadata _ _ _ Hm).
  - destruct Ht as [->|[Hb Hm]]; [done|]. rewrite Hb. destruct (whited f d cs); [done|].
    by destruct Hm as [-> | ->].
  - destruct Ht as (-> & -> & ->). apply IH.
Qed.

Lemma parse_comps p rel :
  parse p = Ok rel →
  comps rel ≠ [] ∧ Forall comp_ok (comps rel) ∧ as_str rel = join_with slash (comps rel).
Proof.
  intros Hp. split_and!; [apply split_on_ne|by apply parse_Ok in Hp as [_ ?]|].
  unfold comps. by rewrite join_split_on.
Qed.
End code.

Lemma layer_check f root l d :
  layer_dir f root l = Ok d → plain_check f d = true → fs_clean f = true →
  layer_dir f root l = Ok d ∧ plain_dir f d ∧ layer_clean f d.
Proof. intros. split_and!; [done|by apply plain_check_dir|by apply fs_clean_layers]. Qed.

(** ** Properties *)

(** C23: reading a path through the layers, one layer at a time, is the overlay
    lookup.  In a stack of clean layers, where no layer has a symbolic link above
    the path, the entry (and the classification) reported is that of the node found
    by descending the merged directories level by level, with whiteouts and opaque
    directories cutting off the layers below, a link with its target as text; the
    read never fails otherwise than by size. *)
Theorem read_is_overlay_lookup f root (m : Manifest) dirs p rel max_bytes :
  parse p = Ok rel → stack_ok f root (layers m) dirs →
  Forall (λ d, no_link_above f d (comps rel)) dirs →
  read_entry_limited f root p m max_bytes =
    entry_result max_bytes (overlay f dirs (comps rel)) ∧
  view_read_classified f root p m max_bytes =
    classify_result max_bytes (overlay f dirs (comps rel)).
Proof.
  intros Hp Hst Hnl. apply parse_comps in Hp as Hc. destruct Hc as (Hne & Hok & Hstr).
  unfold read_entry_limited, view_read_classified. rewrite Hp. cbn [map_err result_bind].
  rewrite Hstr. split.
  - by apply read_entry_loop_overlay.
  - by apply read_classified_loop_overlay.
Qed.

(** A root with two layers: the lower one has [a/x] and [b], the upper one hides
    [b] and adds [a/y]. *)
Definition demo_root : path := [lit "s"].
Definition demo_upper : path := [lit "s"; lit "layers"; lit "L2"].
Definition demo_lower : path := [lit "s"; lit "layers"; lit "L1"].
Definition demo_dirs : fs :=
  {[ [] := NDir 0 ∅; [lit "s"] := NDir 0 ∅; [lit "s"; lit "layers"] := NDir 0 ∅;
     demo_upper := NDir 0 ∅; demo_lower := NDir 0 ∅ ]}.
Definition demo_fs : fs :=
  {[ demo_upper ++ [lit "a"] := NDir 0 ∅;
     demo_upper ++ [lit "a"; lit "y"] := NFile (lit "new") 0 ∅;
     demo_upper ++ [lit "b"] := NChar 0;
     demo_lower ++ [lit "a"] := NDir 0 ∅;
     demo_lower ++ [lit "a"; lit "x"] := NFile (lit "old") 0 ∅;
     demo_lower ++ [lit "b"] := NFile (lit "gone") 0 ∅ ]} ∪ demo_dirs.
Definition demo_manifest : Manifest :=
  mkManifest 2 [mkLayerRef (lit "L2") (lit "layers/L2"); mkLayerRef (lit "L1") (lit "layers/L1")] 1.

Lemma read_is_overlay_lookup_witness :
  read_entry_limited demo_fs demo_root (lit "a/x") demo_manifest 100 = Ok (EFile (lit "old") false) ∧
  view_read_classified demo_fs demo_root (lit "a/x") demo_manifest 100 = Ok (RFile (lit "old") 3).
Proof.
  destruct (read_is_overlay_lookup demo_fs demo_root demo_manifest [demo_upper; demo_lower]
    (lit "a/x") (mkLayerPath (lit "a/x")) 100) as [H1 H2].
  - reflexivity.
  - by do 2 (apply Forall2_cons_2; [apply layer_check; vm_compute; reflexivity|]).
  - assert (comps (mkLayerPath (lit "a/x")) = [lit "a"; lit "x"]) as -> by (vm_compute; reflexivity).
    by do 2 (apply Forall_cons_2;
      [intros k t Hk; simpl in Hk; assert (k = 1) as -> by lia; vm_compute; discriminate|]).
  - split; [etrans; [exact H1|]|etrans; [exact H2|]]; vm_compute; reflexivity.
Defined.

(** A symbolic link inside a layer takes [read_entry] out of the layer stack:
    below a published link to another directory it returns the files found
    there, while [read_classified] reports the link. *)
Theorem read_entry_follows_links :
  let f := {[ demo_lower ++ [lit "a"] := NSymlink (lit "/etc");
              [lit "etc"] := NDir 0 ∅; [lit "etc"; lit "passwd"] := NFile (lit "root") 0 ∅ ]}
           ∪ demo_dirs in
  let m := mkManifest 1 [mkLayerRef (lit "L1") (lit "layers/L1")] 1 in
  read_entry f demo_root (lit "a/passwd") m = Ok (EFile (lit "root") false) ∧
  view_read_classified f demo_root (lit "a/passwd") m 100 = Ok RSymlink.
Proof. vm_compute. done. Qed.

(** A directory below an opaque one is listed as empty, although its entries
    can be read: the listing gives up at a layer with an opaque ancestor before
    it collects that layer's own entries. *)
Theorem list_dir_below_opaque_is_empty :
  let f := {[ demo_lower ++ [lit "a"] := NDir 0 ∅;
              demo_lower ++ [lit "a"; OPAQUE_MARKER] := NChar 0;
              demo_lower ++ [lit "a"; lit "b"] := NDir 0 ∅;
              demo_lower ++ [lit "a"; lit "b"; lit "x"] := NFile (lit "data") 0 ∅ ]}
           ∪ demo_dirs in
  let m := mkManifest 1 [mkLayerRef (lit "L1") (lit "layers/L1")] 1 in
  view_list_dir f demo_root (Some (mkLayerPath (lit "a/b"))) m 100 = Ok (LEntries [] false) ∧
  read_entry f demo_root (lit "a/b/x") m = Ok (EFile (lit "data") false).
Proof. vm_compute. done. Qed.
