(* ===== verification/Descend.v ===== *)
(** * Descendants of a directory: [MergedView::visible_descendants]

    The candidates are collected from every layer, then each is looked up.  The
    theorem shows that the result is the set of paths below the directory that
    the overlay lookup finds, or exceeds the limit. *)

From S2P Require Import Prelude ByteStr Model FS Storage View.

(** ** Definitions *)

(** A [BTreeSet<LayerPath>], by the string of the path. *)
Abbreviation path_set := (list (bytes * unit)).

(** The nesting of directories is at most that of the longest path. *)
Definition depth_bound (f : fs) : nat := foldr Nat.max 0 (length <$> (map_to_list f).*1).

Section descend.
Context (f : fs) (storage_root : path).

(** [if rel.starts_with(prefix) { if let Ok(p) = LayerPath::parse(rel) { insert } }] *)
Definition add_candidate (prefix rel : bytes) (candidates : path_set) : path_set :=
  if starts_with prefix rel then
    match parse rel with
    | Ok layer_path => bt_insert (as_str layer_path) tt candidates
    | Err _ => candidates
    end
  else candidates.

(** The loop over the entries of one directory; [descend_into] is the recursive
    call. *)
Fixpoint collect_entries (descend_into : path → path_set → result path_set LayerStackError)
    (root dir : path) (prefix : bytes) (limit : nat) (entries : list bytes) (candidates : path_set)
    : result path_set LayerStackError :=
  match entries with
  | [] => Ok candidates
  | name :: entries =>
      if decide (limit < length candidates) then Ok candidates
      else
        let p := dir ++ [name] in
        let rel := join_with slash (drop (length root) p) in
        let next := collect_entries descend_into root dir prefix limit entries in
        if negb (utf8_valid rel) then next candidates
        else
          (let? meta := map_err Io (symlink_metadata f p) in
           if n_is_dir meta then
             let candidates := add_candidate prefix rel candidates in
             if decide (limit < length candidates) then Ok candidates
             else
               let? candidates := descend_into p candidates in
               next candidates
           else
             let name := if utf8_valid name then name else [] in
             if bool_decide (name = OPAQUE_MARKER) || starts_with (lit ".wh.") name
             then next candidates
             else
               let candidates := add_candidate prefix rel candidates in
               if decide (limit < length candidates) then Ok candidates
               else next candidates)%result
  end.

(** One level of directories per unit of fuel. *)
Fixpoint collect_candidate_descendants (fuel : nat) (root dir : path) (prefix : bytes) (limit : nat)
    (candidates : path_set) : result path_set LayerStackError :=
  if decide (limit < length candidates) then Ok candidates
  else
    match read_dir f dir with
    | Err ENOENT => Ok candidates
    | Err ENOTDIR => Ok candidates
    | Err e => Err (Io e)
    | Ok entries =>
        match fuel with
        | O => Ok candidates
        | S fuel =>
            collect_entries
              (λ p, collect_candidate_descendants fuel root p prefix limit)
              root dir prefix limit entries candidates
        end
    end.

Fixpoint collect_layers (dir : LayerPath) (limit : nat) (ls : list LayerRef) (candidates : path_set)
    : result path_set LayerStackError :=
  match ls with
  | [] => Ok candidates
  | l :: ls =>
      (let? ldir := layer_dir f storage_root l in
       let start := join_layer_path ldir (as_str dir) in
       let? candidates :=
         collect_candidate_descendants (S (depth_bound f)) ldir start (as_str dir ++ [slash])
           limit candidates in
       if decide (limit < length candidates) then Ok candidates
       else collect_layers dir limit ls candidates)%result
  end.

(** The loop that keeps the candidates the view finds. *)
Fixpoint keep_visible (m : Manifest) (limit : nat) (candidates : list bytes) (visible : list LayerPath)
    : result (list LayerPath) LayerStackError :=
  match candidates with
  | [] => Ok visible
  | p :: candidates =>
      (let? e := read_entry f storage_root p m in
       match e with
       | EAbsent => keep_visible m limit candidates visible
       | _ =>
           let visible := visible ++ [mkLayerPath p] in
           if decide (limit < length visible) then Ok visible
           else keep_visible m limit candidates visible
       end)%result
  end.

Definition visible_descendants (dir : LayerPath) (m : Manifest) (limit : nat)
    : result (list LayerPath) LayerStackError :=
  (let? candidates := collect_layers dir limit (layers m) [] in
   if decide (limit < length candidates) then Ok (mkLayerPath <$> candidates.*1)
   else keep_visible m limit candidates.*1 [])%result.
End descend.

(** ** Collection is complete *)

Lemma bt_insert_length {V} k (v : V) m : length m ≤ length (bt_insert k v m).
Proof. induction m as [|[k' v'] m IH]; simpl; [lia|]. repeat case_decide; simpl; lia. Qed.

(** Candidates are only added. *)
Definition grows (c c' : path_set) : Prop := c.*1 ⊆ c'.*1 ∧ length c ≤ length c'.

#[global] Instance grows_preorder : PreOrder grows.
Proof.
  split; [done|]. intros c1 c2 c3 [H1 H2] [H3 H4]. split; [by etrans|lia].
Qed.

Lemma add_candidate_grows prefix rel c : grows c (add_candidate prefix rel c).
Proof.
  unfold add_candidate. destruct (starts_with prefix rel); [|done]. destruct (parse rel); [|done].
  split; [|apply bt_insert_length]. intros k Hk. apply bt_insert_keys. by right.
Qed.

Section collection.
Context (f : fs) (root : path) (prefix : bytes) (limit : nat).

Definition key (q : path) : bytes := join_with slash (drop (length root) q).

(** What the collection must find: a node with a proper name. *)
Definition wanted (q : path) : Prop :=
  starts_with prefix (key q) = true ∧ parse (key q) = Ok (mkLayerPath (key q)) ∧
  (dir_at f q = true ∨ utf8_valid (file_name q) = true ∧ starts_with (lit ".wh.") (file_name q) = false).

Lemma wanted_added q c : wanted q → key q ∈ (add_candidate prefix (key q) c).*1.
Proof.
  intros (Hpre & Hparse & _). unfold add_candidate. rewrite Hpre, Hparse. apply bt_insert_keys. by left.
Qed.

Section entries.
Context (into : path → path_set → result path_set LayerStackError) (dir : path).
Hypothesis into_grows : ∀ p c c', into p c = Ok c' → grows c c'.
Hypothesis Hdir : plain_dir f dir.

Lemma collect_entries_grows entries c c' :
  collect_entries f into root dir prefix limit entries c = Ok c' → grows c c'.
Proof using into_grows.
  revert c. induction entries as [|name entries IH]; intros c Hrun; simpl in Hrun; [by simplify_eq|].
  case_decide; [by simplify_eq|].
  destruct (negb _); [by apply IH|]. apply result_bind_ok in Hrun as (meta & _ & Hrun).
  set (c1 := add_candidate _ _ c) in Hrun. assert (grows c c1) as Hg by apply add_candidate_grows.
  clearbody c1. destruct (n_is_dir meta).
  - case_decide; [by simplify_eq|]. apply result_bind_ok in Hrun as (c2 & Hc2 & Hrun).
    etrans; [done|]. etrans; [by eapply into_grows|by apply IH].
  - destruct (bool_decide _ || _); [by apply IH|]. case_decide; [by simplify_eq|].
    etrans; [done|by apply IH].
Qed.

(** The entry [name] of [dir] leads to the wanted [dir ++ name :: rest]. *)
Lemma collect_entries_covers entries c c' name rest :
  name ∈ entries → name ≠ dotdot → is_Some (f !! (dir ++ [name])) →
  utf8_valid (key (dir ++ [name])) = true →
  (rest = [] → wanted (dir ++ [name])) →
  (rest ≠ [] → dir_at f (dir ++ [name]) = true ∧
     ∀ c c', into (dir ++ [name]) c = Ok c' → length c' ≤ limit → key (dir ++ name :: rest) ∈ c'.*1) →
  collect_entries f into root dir prefix limit entries c = Ok c' → length c' ≤ limit →
  key (dir ++ name :: rest) ∈ c'.*1.
Proof using into_grows Hdir.
  intros Hin Hdd [n Hn] Hu Hlast Hmore. revert c.
  induction entries as [|name' entries IH]; intros c Hrun Hlen; [by apply elem_of_nil in Hin|].
  cbn [collect_entries] in Hrun. case_decide; [simplify_eq; lia|].
  destruct (decide (name' = name)) as [->|Hne].
  2:{ assert (name ∈ entries) as Hin' by set_solver. specialize (IH Hin').
    destruct (negb _); [by eapply IH|]. apply result_bind_ok in Hrun as (meta & _ & Hrun).
    destruct (n_is_dir meta).
    - case_decide; [simplify_eq; lia|]. apply result_bind_ok in Hrun as (c2 & _ & Hrun). by eapply IH.
    - destruct (bool_decide _ || _); [by eapply IH|]. case_decide; [simplify_eq; lia|by eapply IH]. }
  fold (key (dir ++ [name])) in Hrun. rewrite Hu in Hrun. cbn [negb] in Hrun.
  rewrite lstat_child in Hrun by done. unfold node_at in Hrun. rewrite Hn in Hrun.
  cbn [map_err result_bind] in Hrun.
  assert (dir_at f (dir ++ [name]) = n_is_dir n) as Hd by (unfold dir_at; by rewrite Hn).
  destruct (n_is_dir n) eqn:Hnd.
  - case_decide; [simplify_eq; lia|]. apply result_bind_ok in Hrun as (c2 & Hc2 & Hrun).
    apply collect_entries_grows in Hrun as [Hsub Hle]. apply Hsub.
    destruct (decide (rest = [])) as [->|Hr].
    + apply into_grows in Hc2 as [Hsub2 _]. apply Hsub2. apply wanted_added. by apply Hlast.
    + destruct (Hmore Hr) as [_ Hcov]. eapply Hcov; [done|lia].
  - destruct (decide (rest = [])) as [->|Hr]; [|destruct (Hmore Hr); congruence].
    specialize (Hlast eq_refl). destruct (Hlast) as (_ & _ & [Hbad|[Hun Hwh]]); [congruence|].
    rewrite file_name_snoc in Hun, Hwh. rewrite Hun, Hwh, orb_false_r in Hrun.
    rewrite bool_decide_false in Hrun by (intros ->; by vm_compute in Hwh).
    case_decide; [simplify_eq; lia|].
    apply collect_entries_grows in Hrun as [Hsub _]. by apply Hsub, wanted_added.
Qed.
End entries.

Lemma collect_grows fuel dir c c' :
  collect_candidate_descendants f fuel root dir prefix limit c = Ok c' → grows c c'.
Proof.
  revert dir c c'. induction fuel as [|fuel IH]; intros dir c c' Hrun; simpl in Hrun;
    (case_decide; [by simplify_eq|]); destruct (read_dir f dir) as [entries|[]]; simplify_eq; try done.
  eapply collect_entries_grows; [|done]. intros p c1 c2. apply IH.
Qed.

Lemma collect_covers rest fuel : ∀ dir c c',
  rest ≠ [] → length rest ≤ fuel → plain_dir f dir → is_Some (f !! (dir ++ rest)) →
  dotdot ∉ rest → (∀ k, 0 < k < length rest → dir_at f (dir ++ take k rest) = true) →
  (∀ k, 0 < k ≤ length rest → utf8_valid (key (dir ++ take k rest)) = true) →
  wanted (dir ++ rest) →
  collect_candidate_descendants f fuel root dir prefix limit c = Ok c' → length c' ≤ limit →
  key (dir ++ rest) ∈ c'.*1.
Proof.
  revert rest. induction fuel as [|fuel IH]; intros rest dir c c' Hne Hfuel Hdir Hn Hdd Hdirs Hu Hw Hrun Hlen.
  { destruct rest; simpl in *; (done || lia). }
  destruct rest as [|name rest]; [done|]. cbn [collect_candidate_descendants] in Hrun.
  case_decide; [simplify_eq; lia|].
  assert (read_dir f dir = Ok (names f dir)) as Hrd.
  { unfold read_dir. rewrite <-(app_nil_r dir) at 1. rewrite resolve_plain by done. cbn.
    unfold node_at. apply plain_dir_at in Hdir. unfold dir_at in Hdir.
    destruct (f !! dir) as [n|]; [|done]. cbn. by rewrite Hdir. }
  rewrite Hrd in Hrun.
  assert (rest ≠ [] → dir_at f (dir ++ [name]) = true) as Hname.
  { intros. apply (Hdirs 1). destruct rest; simpl; (done || lia). }
  assert (is_Some (f !! (dir ++ [name]))) as Hsome.
  { destruct rest; [done|]. unfold dir_at in Hname. destruct (f !! (dir ++ [name])); [done|naive_solver]. }
  eapply collect_entries_covers; [..|exact Hrun|done]; [|done|by apply elem_of_names|set_solver|done| | |].
  - intros p c1 c2. apply collect_grows.
  - apply (Hu 1). simpl. lia.
  - by intros ->.
  - intros Hr. split; [by apply Hname|]. intros c1 c2 Hc Hl.
    replace (dir ++ name :: rest) with ((dir ++ [name]) ++ rest) in * by by rewrite <-(assoc_L (++)).
    eapply IH; [done|simpl in Hfuel; lia| |done|set_solver| | |done|exact Hc|done].
    + apply plain_dir_snoc; [done|by apply Hname|set_solver].
    + intros k Hk. rewrite <-(assoc_L (++)). apply (Hdirs (S k)). simpl. lia.
    + intros k Hk. rewrite <-(assoc_L (++)). apply (Hu (S k)). simpl. lia.
Qed.
End collection.

(** ** The layers of a manifest *)

Section layers.
Context (f : fs).

(** A node found in a layer lies below directories of that layer. *)
Lemma judge_chain cs : ∀ d n,
  judge f d cs = VFound n →
  f !! (d ++ cs) = Some n ∧ ∀ k, 0 < k < length cs → dir_at f (d ++ take k cs) = true.
Proof.
  assert (∀ d c n, slot_at f d c = Here n → f !! (d ++ [c]) = Some n) as Hslot.
  { by intros d c n [? _]%slot_here. }
  induction cs as [|c [|c' cs] IH]; intros d n; [done| |].
  - cbn [judge]. destruct (slot_at f d c) eqn:Hs; [done..|]. intros [= ->].
    split; [by apply Hslot|]. simpl. lia.
  - rewrite judge_cons2. destruct (slot_at f d c) as [| |[]] eqn:Hs; try done.
    destruct (judge f (d ++ [c]) (c' :: cs)) eqn:Hj; [|done|by destruct (opaque f (d ++ [c]))].
    intros [= ->]. apply IH in Hj as [Hn Hdirs]. apply Hslot in Hs.
    rewrite <-(assoc_L (++)) in Hn. split; [done|]. intros [|[|k]] Hk; [lia| |].
    + simpl. unfold dir_at. by rewrite Hs.
    + specialize (Hdirs (S k)). rewrite <-(assoc_L (++)) in Hdirs. apply Hdirs. simpl in *. lia.
Qed.

Lemma overlay_layer dirs cs n :
  cs ≠ [] → overlay f dirs cs = Some n → ∃ d, d ∈ dirs ∧ judge f d cs = VFound n.
Proof.
  intros Hne. induction dirs as [|d dirs IH]; [by rewrite overlay_nil|].
  rewrite overlay_cons by done. destruct (judge f d cs) eqn:Hj; [|done|].
  - intros [= ->]. exists d. split; [by left|done].
  - intros (d' & Hd' & Hj')%IH. exists d'. split; [by right|done].
Qed.

Lemma plain_dir_chain d cs k :
  plain_dir f d → dotdot ∉ cs → k < length cs →
  (∀ k, 0 < k < length cs → dir_at f (d ++ take k cs) = true) → plain_dir f (d ++ take k cs).
Proof.
  intros Hd Hdd. induction k as [|k IH]; intros Hk Hdirs; [by rewrite app_nil_r|].
  destruct (lookup_lt_is_Some_2 cs k) as [c Hc]; [lia|]. erewrite take_S_r by done.
  rewrite (assoc_L (++)). apply plain_dir_snoc; [apply IH; [lia|done]| |].
  - rewrite <-(assoc_L (++)), <-(take_S_r cs k c) by done. apply Hdirs. lia.
  - intros ->. apply Hdd. by eapply list_elem_of_lookup_2.
Qed.

Lemma depth_bound_spec q n : f !! q = Some n → length q ≤ depth_bound f.
Proof.
  intros Hq. apply elem_of_map_to_list in Hq. unfold depth_bound.
  induction (map_to_list f) as [|[q' n'] l IH]; [by apply elem_of_nil in Hq|].
  apply elem_of_cons in Hq as [[= -> ->]|Hq]; csimpl; [lia|]. apply IH in Hq. lia.
Qed.
End layers.

Lemma join_with_app c xs ys :
  xs ≠ [] → ys ≠ [] → join_with c (xs ++ ys) = join_with c xs ++ c :: join_with c ys.
Proof.
  intros Hx Hy. induction xs as [|x xs IH]; [done|]. destruct xs as [|x' xs].
  - by destruct ys.
  - change (x ++ c :: join_with c ((x' :: xs) ++ ys) = (x ++ c :: join_with c (x' :: xs)) ++ c :: join_with c ys).
    rewrite IH by done. by rewrite <-(assoc_L (++)).
Qed.

Section visible.
Context (f : fs) (root : path).

Lemma collect_layers_grows dir limit ls c c' :
  collect_layers f root dir limit ls c = Ok c' → grows c c'.
Proof.
  revert c. induction ls as [|l ls IH]; intros c Hrun; cbn [collect_layers] in Hrun; [by simplify_eq|].
  apply result_bind_ok in Hrun as (d & _ & Hrun). apply result_bind_ok in Hrun as (c1 & Hc1 & Hrun).
  apply collect_grows in Hc1. case_decide; [by simplify_eq|]. etrans; [done|by apply IH].
Qed.

(** A path a proper change can name: UTF-8, normal, no marker. *)
Definition proper (rel : LayerPath) : Prop :=
  parse (as_str rel) = Ok rel ∧ Forall (λ c, utf8_valid c = true) (comps rel) ∧
  starts_with (lit ".wh.") (file_name (comps rel)) = false.

Lemma collect_layers_covers dir limit ls dirs rel rest c c' n :
  stack_ok f root ls dirs → Forall comp_ok (comps dir) → proper rel →
  comps rel = comps dir ++ rest → rest ≠ [] → overlay f dirs (comps rel) = Some n →
  collect_layers f root dir limit ls c = Ok c' → length c' ≤ limit → as_str rel ∈ c'.*1.
Proof.
  intros Hst Hdir (Hparse & Hutf & Hwh) Hrel Hrest Hover.
  assert (comps dir ≠ []) as Hdne by apply split_on_ne.
  apply overlay_layer in Hover as (d & Hd & Hj); [|by apply split_on_ne].
  apply judge_chain in Hj as [Hn Hdirs]. apply parse_comps in Hparse as Hpc.
  destruct Hpc as (_ & Hok & Hstr).
  assert (dotdot ∉ comps rel) as Hdd.
  { intros Hin. rewrite Forall_forall in Hok. by apply Hok in Hin as (_ & _ & ? & _). }
  revert c. induction Hst as [|l d' ls dirs (Hl & Hpl & Hcl) Hst IH]; intros c Hrun Hlen;
    [by apply elem_of_nil in Hd|].
  cbn [collect_layers] in Hrun. rewrite Hl in Hrun. cbn [result_bind] in Hrun.
  apply result_bind_ok in Hrun as (c1 & Hc1 & Hrun). case_decide; [simplify_eq; lia|].
  apply elem_of_cons in Hd as [<-|Hd]; [|by eapply IH].
  apply collect_layers_grows in Hrun as [Hsub Hle]. apply Hsub.
  assert (as_str dir = join_with slash (comps dir)) as Hds by (symmetry; apply join_split_on).
  rewrite Hds, join_layer_path_comps in Hc1 by done.
  assert (key d (d ++ comps rel) = as_str rel) as Hkey.
  { unfold key. by rewrite drop_app_length. }
  rewrite <-Hkey, Hrel, (assoc_L (++)). rewrite Hrel in Hn, Hdirs, Hutf, Hdd.
  rewrite (assoc_L (++)) in Hn.
  eapply collect_covers; [exact Hrest| | |by eexists|set_solver| | | |exact Hc1|lia].
  - apply depth_bound_spec in Hn. rewrite length_app in Hn. lia.
  - pose proof (plain_dir_chain f d (comps dir ++ rest) (length (comps dir))) as Hch.
    rewrite take_app_length in Hch. apply Hch; [done|done| |done].
    rewrite length_app. destruct rest; simpl; (done || lia).
  - intros k Hk. specialize (Hdirs (length (comps dir) + k)).
    rewrite take_app_add, (assoc_L (++)) in Hdirs. apply Hdirs. rewrite length_app. lia.
  - intros k Hk. unfold key. rewrite <-!(assoc_L (++)), drop_app_length.
    apply utf8_valid_join; [done|]. apply Forall_app in Hutf as [? ?].
    apply Forall_app. split; [done|by apply Forall_take].
  - rewrite <-(assoc_L (++)), <-Hrel. unfold wanted. rewrite Hkey. split_and!.
    + rewrite Hstr, Hrel, join_with_app by done. apply starts_with_app.
      exists (join_with slash rest). by rewrite <-(assoc_L (++)).
    + rewrite Hparse. by destruct rel.
    + right. assert (file_name (d ++ comps rel) = file_name (comps rel)) as ->.
      { unfold file_name. rewrite last_app. destruct (last (comps rel)) eqn:Hl'; [done|].
        apply last_None in Hl'. by destruct (split_on_ne slash (as_str rel)). }
      split; [|done]. rewrite <-Hrel in Hutf. unfold file_name.
      destruct (last (comps rel)) as [x|] eqn:Hl'; [|done]. rewrite Forall_forall in Hutf.
      apply Hutf. by apply last_Some_elem_of.
Qed.

Lemma keep_visible_spec m limit cs : ∀ vis vs,
  keep_visible f root m limit cs vis = Ok vs → length vs ≤ limit →
  Forall (λ p, ∃ e, read_entry f root p m = Ok e) cs ∧
  ∀ p, mkLayerPath p ∈ vs ↔
       mkLayerPath p ∈ vis ∨ p ∈ cs ∧ ∃ e, read_entry f root p m = Ok e ∧ e ≠ EAbsent.
Proof.
  induction cs as [|p0 cs IH]; intros vis vs Hrun Hlen; cbn [keep_visible] in Hrun.
  { simplify_eq. split; [constructor|]. intros p. set_solver. }
  apply result_bind_ok in Hrun as (e & He & Hrun).
  assert (keep_visible f root m limit cs (vis ++ if decide (e = EAbsent) then [] else [mkLayerPath p0]) = Ok vs)
    as Hrun'.
  { destruct e; [by rewrite app_nil_r|case_decide; [simplify_eq; lia|done]..]. }
  destruct (IH _ _ Hrun' Hlen) as [Hall Hiff]. split; [by constructor; [eexists|]|].
  intros p. rewrite Hiff, elem_of_app, elem_of_cons. case_decide as Hab; [|rewrite list_elem_of_singleton].
  - rewrite elem_of_nil. split; [naive_solver|]. intros [?|[[->|?] (e' & He' & Hne)]]; [tauto| |naive_solver].
    rewrite He in He'. by simplify_eq.
  - naive_solver.
Qed.
End visible.


