(* ===== verification/World.v ===== *)
(** * Calls that change the file system

    A [world] is the file system, the process-wide counter [NEXT_UNIQUE] and a
    script of faults: every call that writes or syncs takes one entry, and
    [Some k] makes it fail with an I/O error (after [k] bytes of a write, or
    after [k] removals of a recursive removal).  When the script is used up no
    call fails of itself, so a theorem over all scripts covers every finite
    pattern of failures.  Reads fail only as the file system dictates. *)

From S2P Require Import Prelude ByteStr Model FS.

Record world := mkWorld {
  w_fs : fs;
  w_unique : N;
  w_faults : list (option nat);
}.

(** ** The monad of fallible, stateful code *)

Definition io (E A : Type) : Type := world → result A E * world.

Definition ret {E A : Type} (a : A) : io E A := λ w, (Ok a, w).
Definition fail {E A : Type} (e : E) : io E A := λ w, (Err e, w).

Definition bind {E A B : Type} (c : io E A) (k : A → io E B) : io E B :=
  λ w, match c w with (Ok a, w) => k a w | (Err e, w) => (Err e, w) end.

(** The outcome as a value: [match c { Ok .. | Err .. }], [let _ = c]. *)
Definition attempt {E F A : Type} (c : io E A) : io F (result A E) := λ w, let '(r, w) := c w in (Ok r, w).

Definition lift_err {E F A : Type} (g : E → F) (c : io E A) : io F A :=
  λ w, let '(r, w) := c w in (map_err g r, w).

(** A value computed from the file system. *)
Definition reads {E A : Type} (g : fs → result A E) : io E A := λ w, (g (w_fs w), w).

Declare Scope io_scope.
Delimit Scope io_scope with io.
Notation "'do' x ':=' c 'in' k" := (bind c (λ x, k))
  (at level 10, x binder, c at level 100, k at level 200) : io_scope.
Notation "'run' c ';' k" := (bind c (λ _, k))
  (at level 10, c at level 100, k at level 200) : io_scope.

(** The next entry of the fault script. *)
Definition fault {E : Type} : io E (option nat) := λ w,
  match w_faults w with
  | [] => (Ok None, w)
  | x :: xs => (Ok x, mkWorld (w_fs w) (w_unique w) xs)
  end.

Definition set_fs {E : Type} (f : fs) : io E () := λ w, (Ok (), mkWorld f (w_unique w) (w_faults w)).

(** A call that either fails without effect or changes the file system. *)
Definition syscall {A : Type} (g : fs → result (A * fs) errno) : io errno A :=
  (do x := fault in
   match x with
   | Some _ => fail EIO
   | None => do r := reads g in run set_fs r.2; ret r.1
   end)%io.

(** [NEXT_UNIQUE.fetch_add(1)]: the [u64] counter wraps. *)
Definition next_unique {E : Type} : io E N := λ w,
  (Ok (w_unique w), mkWorld (w_fs w) ((w_unique w + 1) mod 2 ^ 64)%N (w_faults w)).

(** ** Trees *)

(** The nodes below [d], by relative path, and the rest. *)
Definition subtree (f : fs) (d : path) : fs :=
  list_to_map (omap (λ qn, (λ r, (r, qn.2)) <$> below d qn.1) (map_to_list f)).
Definition without (f : fs) (d : path) : fs := filter (λ qn, below d qn.1 = None) f.
Definition graft (f : fs) (d : path) (t : fs) : fs :=
  list_to_map ((λ rn, (d ++ rn.1, rn.2)) <$> map_to_list t) ∪ f.

(** ** System calls *)

Definition sys_mkdir (p : path) : io errno () :=
  syscall (λ f,
    (let? q := resolve f false p in
     if decide (f !! q = None) then Ok (tt, <[q := NDir 0x1ed ∅]> f) else Err EEXIST)%result).

(** [File::create]: the handle is the path of the file itself. *)
Definition file_create (p : path) : io errno path :=
  syscall (λ f,
    (let? q := resolve f true p in
     match f !! q with
     | None => Ok (q, <[q := NFile [] 0x1a4 ∅]> f)
     | Some (NFile _ mode xs) => Ok (q, <[q := NFile [] mode xs]> f)
     | Some (NDir _ _) => Err EISDIR
     | Some _ => Err EIO
     end)%result).

Definition put_data (f : fs) (q : path) (data : bytes) : fs :=
  match f !! q with Some (NFile _ mode xs) => <[q := NFile data mode xs]> f | _ => f end.

(** [write_all] on a fresh handle: a failing write leaves a prefix. *)
Definition write_all (q : path) (data : bytes) : io errno () :=
  (do x := fault in
   do f := reads (λ f, Ok f) in
   match x with
   | Some k => run set_fs (put_data f q (take k data)); fail EIO
   | None => set_fs (put_data f q data)
   end)%io.

(** [sync_all], [syncfs]: no effect on what is read back. *)
Definition sync : io errno () := syscall (λ f, Ok (tt, f)).

(** [File::open(p)?.sync_all()] *)
Definition open_sync (p : path) : io errno () :=
  (run reads (λ f, metadata f p); sync)%io.

(** [std::fs::write] *)
Definition fs_write (p : path) (data : bytes) : io errno () :=
  (do q := file_create p in write_all q data)%io.

(** [std::fs::copy]: contents and permission bits. *)
Definition fs_copy (src dst : path) : io errno () :=
  (do n := reads (λ f, metadata f src) in
   match n with
   | NFile data mode _ =>
       do q := file_create dst in
       run write_all q data;
       syscall (λ f, Ok (tt, match f !! q with
                             | Some (NFile d _ xs) => <[q := NFile d mode xs]> f
                             | _ => f
                             end))
   | _ => fail EINVAL
   end)%io.

Definition remove_file (p : path) : io errno () :=
  syscall (λ f,
    (let? q := resolve f false p in
     match f !! q with
     | None => Err ENOENT
     | Some (NDir _ _) => Err EISDIR
     | Some _ => Ok (tt, delete q f)
     end)%result).

Definition deeper (p q : path) : Prop := length q ≤ length p.
#[global] Instance deeper_dec p q : Decision (deeper p q) :=
  decide (length q ≤ length p).

(** [std::fs::remove_dir_all]: links are removed, not followed; a failing call
    has removed some of the deepest nodes. *)
Definition remove_dir_all (p : path) : io errno () :=
  (do x := fault in
   do f := reads (λ f, Ok f) in
   do q := reads (λ f, resolve f false p) in
   match f !! q with
   | None => fail ENOENT
   | Some (NSymlink _) =>
       match x with Some _ => fail EIO | None => set_fs (delete q f) end
   | Some (NDir _ _) =>
       match x with
       | None => set_fs (without f q)
       | Some k =>
           let victims := take k (merge_sort deeper (map_to_list (filter (λ qn, is_Some (below q qn.1)) f)).*1) in
           run set_fs (foldr delete f victims); fail EIO
       end
   | Some _ => fail ENOTDIR
   end)%io.

Definition has_children (f : fs) (q : path) : bool :=
  existsb (λ qn, match below q qn.1 with Some (_ :: _) => true | _ => false end) (map_to_list f).

(** [rename(2)] *)
Definition fs_rename (src dst : path) : io errno () :=
  syscall (λ f,
    (let? s := resolve f false src in
     let? d := resolve f false dst in
     match f !! s with
     | None => Err ENOENT
     | Some n =>
         let moved := graft (without (without f s) d) d (subtree f s) in
         if decide (s = d) then Ok (tt, f)
         else if decide (is_Some (below s d)) then Err EINVAL
         else match f !! d with
         | None => Ok (tt, moved)
         | Some (NDir _ _) =>
             if n_is_dir n then if has_children f d then Err ENOTEMPTY else Ok (tt, moved)
             else Err EISDIR
         | Some _ => if n_is_dir n then Err ENOTDIR else Ok (tt, moved)
         end
     end)%result).

Definition fs_symlink (target : bytes) (p : path) : io errno () :=
  syscall (λ f,
    (let? q := resolve f false p in
     if decide (f !! q = None) then Ok (tt, <[q := NSymlink target]> f) else Err EEXIST)%result).

(** [linkat] from an entry of an open directory; links are not followed.  A file
    of a layer is never changed in place, so the new name holds the same node. *)
Definition fs_linkat (dir : path) (name : bytes) (p : path) : io errno () :=
  syscall (λ f,
    match f !! (dir ++ [name]) with
    | None => Err ENOENT
    | Some (NDir _ _) => Err EPERM
    | Some n =>
        (let? q := resolve f false p in
         if decide (f !! q = None) then Ok (tt, <[q := n]> f) else Err EEXIST)%result
    end).

(** [std::fs::set_permissions] *)
Definition set_permissions (p : path) (mode : Z) : io errno () :=
  syscall (λ f,
    (let? q := resolve f true p in
     match f !! q with
     | None => Err ENOENT
     | Some (NFile data _ xs) => Ok (tt, <[q := NFile data mode xs]> f)
     | Some (NDir _ xs) => Ok (tt, <[q := NDir mode xs]> f)
     | Some _ => Ok (tt, f)
     end)%result).

(** [mknodat] of a character device *)
Definition fs_mknod (p : path) (rdev : Z) : io errno () :=
  syscall (λ f,
    (let? q := resolve f false p in
     if decide (f !! q = None) then Ok (tt, <[q := NChar rdev]> f) else Err EEXIST)%result).

Definition add_xattr (f : fs) (q : path) (name : bytes) : result (unit * fs) errno :=
  match f !! q with
  | None => Err ENOENT
  | Some (NFile data mode xs) => Ok (tt, <[q := NFile data mode ({[name]} ∪ xs)]> f)
  | Some (NDir mode xs) => Ok (tt, <[q := NDir mode ({[name]} ∪ xs)]> f)
  | Some _ => Err EPERM
  end.

(** [setxattr] follows links, [lsetxattr] does not. *)
Definition fs_setxattr (p : path) (name : bytes) : io errno () :=
  syscall (λ f, (let? q := resolve f true p in add_xattr f q name)%result).
Definition fs_lsetxattr (p : path) (name : bytes) : io errno () :=
  syscall (λ f, (let? q := resolve f false p in add_xattr f q name)%result).

(** [DirBuilder::create_dir_all]: one level per component. *)
Fixpoint create_dir_all_from (fuel : nat) (p : path) : io errno () :=
  if decide (p = []) then ret ()
  else
    (do r := attempt (sys_mkdir p) in
     match r with
     | Ok _ => ret ()
     | Err ENOENT =>
         match fuel with
         | O => fail ENOENT
         | S fuel =>
             run create_dir_all_from fuel (parent p);
             do r := attempt (sys_mkdir p) in
             match r with
             | Ok _ => ret ()
             | Err e => do d := reads (λ f, Ok (is_dir f p)) in if d : bool then ret () else fail e
             end
         end
     | Err e => do d := reads (λ f, Ok (is_dir f p)) in if d : bool then ret () else fail e
     end)%io.

Definition create_dir_all (p : path) : io errno () := create_dir_all_from (length p) p.

(** ** Trees: lookups *)

Lemma lookup_subtree f d r : subtree f d !! r = f !! (d ++ r).
Proof.
  unfold subtree. apply option_eq. intros n. rewrite <-elem_of_list_to_map.
  - rewrite list_elem_of_omap. split.
    + intros ([q n'] & Hin & Hq). apply elem_of_map_to_list in Hin. simpl in Hq.
      destruct (below d q) as [r'|] eqn:Hb; simplify_eq/=. by apply below_Some in Hb as ->.
    + intros Hn. exists (d ++ r, n). split; [by apply elem_of_map_to_list|]. simpl. by rewrite below_app.
  - assert (NoDup (map_to_list f).*1) as Hnd by apply NoDup_fst_map_to_list.
    induction (map_to_list f) as [|[q n'] l IH]; [constructor|]. csimpl.
    inversion Hnd as [|? ? Hnin Hnd']; subst.
    destruct (below d q) as [r'|] eqn:Hb; simpl; [|auto]. constructor; [|auto].
    intros Hin. apply Hnin. apply list_elem_of_fmap in Hin as ([r2 n2] & ? & Hin). simplify_eq/=.
    apply list_elem_of_omap in Hin as ([q2 n3] & Hin & Hq2). simpl in Hq2.
    destruct (below d q2) as [r3|] eqn:Hb2; simplify_eq/=.
    apply below_Some in Hb, Hb2. subst. apply list_elem_of_fmap. by exists (d ++ r2, n2).
Qed.

Lemma lookup_without f d q :
  without f d !! q = if decide (below d q = None) then f !! q else None.
Proof.
  unfold without. apply option_eq. intros n. rewrite map_lookup_filter_Some. simpl.
  case_decide; naive_solver.
Qed.

Lemma lookup_graft f d t q :
  graft f d t !! q =
  match below d q with
  | Some r => match t !! r with Some n => Some n | None => f !! q end
  | None => f !! q
  end.
Proof.
  unfold graft. assert (∀ q, (list_to_map ((λ rn, (d ++ rn.1, rn.2)) <$> map_to_list t) : fs) !! q =
    match below d q with Some r => t !! r | None => None end) as Hl.
  { clear q. intros q. apply option_eq. intros n. rewrite <-elem_of_list_to_map.
    - rewrite list_elem_of_fmap. split.
      + intros ([r n'] & ? & Hin). simplify_eq/=. rewrite below_app. by apply elem_of_map_to_list.
      + destruct (below d q) as [r|] eqn:Hb; [|done]. apply below_Some in Hb as ->.
        intros Hr. exists (r, n). split; [done|]. by apply elem_of_map_to_list.
    - assert (((λ rn : path * node, (d ++ rn.1, rn.2)) <$> map_to_list t).*1 =
        app d <$> (map_to_list t).*1) as -> by by rewrite <-!list_fmap_compose.
      apply NoDup_fmap_2; [apply _|apply NoDup_fst_map_to_list]. }
  rewrite lookup_union, Hl. destruct (below d q) as [r|]; [|by rewrite (left_id_L None (∪))].
  destruct (t !! r), (f !! q); done.
Qed.

(** ** Preservation: what a computation leaves true of the file system *)

Definition pres {E A : Type} (I : fs → Prop) (c : io E A) : Prop :=
  ∀ w r w', c w = (r, w') → I (w_fs w) → I (w_fs w').

Create HintDb pres.

Section pres.
Context (I : fs → Prop).

Lemma pres_ret {E A : Type} (a : A) : pres I (ret (E := E) a).
Proof. intros w r w' [= _ <-]. done. Qed.

Lemma pres_fail {E A : Type} (e : E) : pres I (fail (A := A) e).
Proof. intros w r w' [= _ <-]. done. Qed.

Lemma pres_reads {E A : Type} (g : fs → result A E) : pres I (reads g).
Proof. intros w r w' [= _ <-]. done. Qed.

Lemma pres_fault {E : Type} : pres I (fault (E := E)).
Proof. intros w r w'. unfold fault. destruct (w_faults w); by intros [= _ <-]. Qed.

Lemma pres_next_unique {E : Type} : pres I (next_unique (E := E)).
Proof. intros w r w' [= _ <-]. done. Qed.

Lemma pres_bind {E A B : Type} (c : io E A) (k : A → io E B) :
  pres I c → (∀ a, pres I (k a)) → pres I (bind c k).
Proof.
  intros Hc Hk w r w'. unfold bind. destruct (c w) as [[a|e] w1] eqn:Hw.
  - intros Hkw HI. eapply Hk; [done|]. by eapply Hc.
  - intros [= _ <-]. by eapply Hc.
Qed.

Lemma pres_attempt {E F A : Type} (c : io E A) : pres I c → pres I (attempt (F := F) c).
Proof.
  intros Hc w r w'. unfold attempt. destruct (c w) as [r1 w1] eqn:Hw. intros [= _ <-]. by eapply Hc.
Qed.

Lemma pres_lift_err {E F A : Type} (g : E → F) (c : io E A) : pres I c → pres I (lift_err g c).
Proof.
  intros Hc w r w'. unfold lift_err. destruct (c w) as [r1 w1] eqn:Hw. intros [= _ <-]. by eapply Hc.
Qed.

Lemma pres_syscall {A : Type} (g : fs → result (A * fs) errno) :
  (∀ f a f', g f = Ok (a, f') → I f → I f') → pres I (syscall g).
Proof.
  intros Hg. unfold syscall. apply pres_bind; [apply pres_fault|]. intros [k|]; [apply pres_fail|].
  intros w r w'. unfold bind, reads. destruct (g (w_fs w)) as [[a f']|e] eqn:Hgw.
  - simpl. intros [= _ <-] HI. simpl. by eapply Hg.
  - by intros [= _ <-].
Qed.

Lemma pres_if {E A : Type} (b : bool) (c1 c2 : io E A) :
  pres I c1 → pres I c2 → pres I (if b then c1 else c2).
Proof. by destruct b. Qed.

Lemma pres_sync : pres I sync.
Proof. apply pres_syscall. intros f a f' [= _ <-]. done. Qed.

Lemma pres_open_sync p : pres I (open_sync p).
Proof. apply pres_bind; [apply pres_reads|intros; apply pres_sync]. Qed.
End pres.

#[export] Hint Resolve pres_ret pres_fail pres_reads pres_fault pres_next_unique pres_bind
  pres_attempt pres_lift_err pres_if pres_sync pres_open_sync : pres.

(** ** Frames *)

(** [f] differs from [f0] at most in the region. *)
Definition outside (region : path → Prop) (f0 f : fs) : Prop :=
  ∀ q, ¬ region q → f !! q = f0 !! q.

Definition under (p : path) (q : path) : Prop := is_Some (below p q).

Lemma under_app p r : under p (p ++ r).
Proof. exists r. apply below_app. Qed.

Lemma not_under_prefix (d : path) c k : ¬ under (d ++ [c]) (take k d).
Proof.
  intros [r Hr]. apply below_Some in Hr. apply (f_equal length) in Hr.
  rewrite !length_app, length_take in Hr. simpl in Hr. lia.
Qed.

(** Changes below an entry of [d] leave [d] a plain directory. *)
Lemma plain_dir_outside f0 f d c :
  outside (under (d ++ [c])) f0 f → plain_dir f0 d → plain_dir f d.
Proof.
  intros Hout [Hdd Hd]. split; [done|]. intros k Hk. specialize (Hd k Hk). unfold dir_at in *.
  by rewrite Hout by apply not_under_prefix.
Qed.

Lemma resolve_child f d c :
  plain_dir f d → c ≠ dotdot → resolve f false (d ++ [c]) = Ok (d ++ [c]).
Proof.
  intros Hd Hc. unfold resolve. rewrite walk_plain by done. rewrite walk_eq.
  rewrite (plain_dir_at f d), decide_False by done.
  by destruct (f !! (d ++ [c])) as [[]|].
Qed.

Lemma outside_delete (region : path → Prop) f0 f q :
  region q → outside region f0 f → outside region f0 (delete q f).
Proof.
  intros Hq Hout q' Hq'. rewrite lookup_delete_ne by (by intros ->). by apply Hout.
Qed.

Lemma outside_insert (region : path → Prop) f0 f q n :
  region q → outside region f0 f → outside region f0 (<[q := n]> f).
Proof.
  intros Hq Hout q' Hq'. rewrite lookup_insert_ne by (by intros ->). by apply Hout.
Qed.

Lemma under_self p : under p p.
Proof. exists []. apply below_self. Qed.

Section frames.
Context (region : path → Prop) (f0 : fs) (d : path).
(** [d] stays a plain directory whatever happens in the region. *)
Hypothesis plain : ∀ f, outside region f0 f → plain_dir f d.

Lemma outside_without f p :
  (∀ q, under p q → region q) → outside region f0 f → outside region f0 (without f p).
Proof.
  intros Hp Hout q Hq. rewrite lookup_without. rewrite decide_True; [by apply Hout|].
  destruct (below p q) eqn:Hb; [|done]. destruct Hq. apply Hp. by eexists.
Qed.

Lemma pres_remove_file c :
  c ≠ dotdot → region (d ++ [c]) → pres (outside region f0) (remove_file (d ++ [c])).
Proof using plain.
  intros Hc Hr. apply pres_syscall. intros f a f' Hg Hout.
  rewrite resolve_child in Hg by auto. cbn [result_bind] in Hg.
  destruct (f !! (d ++ [c])) as [[]|]; simplify_eq; by apply outside_delete.
Qed.

Lemma pres_remove_dir_all c :
  c ≠ dotdot → (∀ q, under (d ++ [c]) q → region q) →
  pres (outside region f0) (remove_dir_all (d ++ [c])).
Proof using plain.
  intros Hc Hr w r w' Hrun Hout. unfold remove_dir_all, bind in Hrun.
  destruct (fault w) as [[x|e] w1] eqn:Hfault; [|by unfold fault in Hfault; destruct (w_faults w)].
  assert (w_fs w1 = w_fs w) as Hw1.
  { unfold fault in Hfault. destruct (w_faults w); by simplify_eq. }
  unfold reads in Hrun. rewrite Hw1, resolve_child in Hrun by auto.
  assert (region (d ++ [c])) as Hself by (apply Hr, under_self).
  destruct (w_fs w !! (d ++ [c])) as [[]|]; try (unfold fail in Hrun; simplify_eq; by rewrite Hw1).
  - destruct x; unfold fail, set_fs in Hrun; simplify_eq/=; [by rewrite Hw1|by apply outside_delete].
  - destruct x as [k|]; unfold fail, set_fs in Hrun; simplify_eq/=; [|by apply outside_without].
    set (vs := take k _).
    assert (Forall region vs) as Hvs.
    { apply Forall_take. apply Forall_forall. intros q Hq.
      rewrite (merge_sort_Permutation deeper) in Hq.
      apply list_elem_of_fmap in Hq as ([q' n] & -> & Hq). apply elem_of_map_to_list in Hq.
      apply map_lookup_filter_Some in Hq as [_ ?]. by apply Hr. }
    clearbody vs. induction Hvs as [|q vs Hq _ IH]; [done|]. simpl. by apply outside_delete.
Qed.
End frames.

(** ** Removals only remove *)

Lemma without_subseteq f d : without f d ⊆ f.
Proof. apply map_filter_subseteq. Qed.

Lemma foldr_delete_subseteq (f : fs) (vs : list path) : foldr delete f vs ⊆ f.
Proof.
  induction vs as [|v vs IH]; [done|]. simpl. etrans; [apply delete_subseteq|done].
Qed.

Lemma shrink_remove_file g p : pres (λ f, f ⊆ g) (remove_file p).
Proof.
  apply pres_syscall. intros f a f' Hg Hsub. apply result_bind_ok in Hg as (q & _ & Hg).
  destruct (f !! q) as [[]|]; simplify_eq; (etrans; [apply delete_subseteq|done]).
Qed.

Lemma shrink_remove_dir_all g p : pres (λ f, f ⊆ g) (remove_dir_all p).
Proof.
  intros w r w' Hrun Hsub. unfold remove_dir_all, bind in Hrun.
  destruct (fault w) as [[x|e] w1] eqn:Hfault; [|by unfold fault in Hfault; destruct (w_faults w)].
  assert (w_fs w1 = w_fs w) as Hw1.
  { unfold fault in Hfault. destruct (w_faults w); by simplify_eq. }
  unfold reads in Hrun. rewrite Hw1 in Hrun.
  destruct (resolve (w_fs w) false p) as [q|]; [|simplify_eq; by rewrite Hw1].
  destruct (w_fs w !! q) as [[]|]; try (unfold fail in Hrun; simplify_eq; by rewrite Hw1);
    destruct x; unfold fail, set_fs in Hrun; simplify_eq/=; try (by rewrite Hw1);
    (etrans; [|done]); first [apply delete_subseteq|apply foldr_delete_subseteq|apply without_subseteq].
Qed.

(** A successful removal of a directory leaves nothing of it. *)
Lemma remove_dir_all_gone w w' d c :
  plain_dir (w_fs w) d → c ≠ dotdot → dir_at (w_fs w) (d ++ [c]) = true →
  remove_dir_all (d ++ [c]) w = (Ok (), w') → ∀ q, w_fs w' !! ((d ++ [c]) ++ q) = None.
Proof.
  intros Hd Hc Hdir Hrun q. unfold remove_dir_all, bind in Hrun.
  destruct (fault w) as [[x|e] w1] eqn:Hfault; [|by unfold fault in Hfault; destruct (w_faults w)].
  assert (w_fs w1 = w_fs w) as Hw1.
  { unfold fault in Hfault. destruct (w_faults w); by simplify_eq. }
  unfold reads in Hrun. rewrite Hw1, resolve_child in Hrun by done. unfold dir_at in Hdir.
  destruct (w_fs w !! (d ++ [c])) as [[]|]; try done.
  destruct x; unfold fail, set_fs in Hrun; simplify_eq/=.
  rewrite lookup_without, below_app. by rewrite decide_False.
Qed.

(** ** Running reads *)

Lemma bind_reads {E A B : Type} (g : fs → result A E) (k : A → io E B) w :
  bind (reads g) k w = match g (w_fs w) with Ok a => k a w | Err e => (Err e, w) end.
Proof. unfold bind, reads. by destruct (g (w_fs w)). Qed.

Lemma bind_attempt_reads {E F A B : Type} (g : fs → result A E) (k : result A E → io F B) w :
  bind (attempt (reads g)) k w = k (g (w_fs w)) w.
Proof. done. Qed.

Lemma bind_lift_reads {E F A B : Type} (h : E → F) (g : fs → result A E) (k : A → io F B) w :
  bind (lift_err h (reads g)) k w =
  match g (w_fs w) with Ok a => k a w | Err e => (Err (h e), w) end.
Proof. unfold bind, lift_err, reads. by destruct (g (w_fs w)). Qed.

Lemma bind_Ok {E A B : Type} (c : io E A) (k : A → io E B) w b w' :
  bind c k w = (Ok b, w') → ∃ a w1, c w = (Ok a, w1) ∧ k a w1 = (Ok b, w').
Proof. unfold bind. destruct (c w) as [[a|e] w1]; naive_solver. Qed.

Lemma bind_run {E A B : Type} (c : io E A) (k : A → io E B) w a w1 :
  c w = (Ok a, w1) → bind c k w = k a w1.
Proof. unfold bind. by intros ->. Qed.

Lemma syscall_no_fault {A : Type} (g : fs → result (A * fs) errno) w :
  w_faults w = [] →
  syscall g w = match g (w_fs w) with
                | Ok (a, f) => (Ok a, mkWorld f (w_unique w) [])
                | Err e => (Err e, w)
                end.
Proof.
  intros Hf. unfold syscall, bind, fault, reads, set_fs, ret. rewrite Hf.
  destruct (g (w_fs w)) as [[a f]|e]; [|done]. by rewrite Hf.
Qed.

(** A call refused by the file system changes nothing. *)
Lemma syscall_err {A : Type} (g : fs → result (A * fs) errno) w e :
  g (w_fs w) = Err e →
  ∃ e' w', syscall g w = (Err e', w') ∧ (e' = e ∨ e' = EIO) ∧
    w_fs w' = w_fs w ∧ w_unique w' = w_unique w ∧ (w_faults w = [] → w_faults w' = []).
Proof.
  intros Hg. unfold syscall, bind, fault, reads. destruct (w_faults w) as [|[k|] xs] eqn:Hf; cbn;
    rewrite ?Hg; eexists _, _; split_and!; by eauto.
Qed.

(** ** Hoare triples: a state before, a value and state after, a state on error *)

Definition hoare {E A : Type} (P : fs → Prop) (c : io E A) (Q : A → fs → Prop) (R : fs → Prop) : Prop :=
  ∀ w r w', c w = (r, w') → P (w_fs w) →
  match r with Ok a => Q a (w_fs w') | Err _ => R (w_fs w') end.

Section hoare.
Context {E : Type}.
Implicit Types P R : fs → Prop.

Lemma hoare_ret {A} (a : A) (Q : A → fs → Prop) R : hoare (Q a) (ret (E := E) a) Q R.
Proof. by intros w r w' [= <- <-]. Qed.

Lemma hoare_fail {A} (e : E) (Q : A → fs → Prop) R : hoare R (fail e) Q R.
Proof. by intros w r w' [= <- <-]. Qed.

Lemma hoare_bind {A B} (c : io E A) (k : A → io E B) P Q Q' R :
  hoare P c Q R → (∀ a, hoare (Q a) (k a) Q' R) → hoare P (bind c k) Q' R.
Proof.
  intros Hc Hk w r w'. unfold bind. destruct (c w) as [[a|e] w1] eqn:Hw; intros Hr HP.
  - eapply Hk; [exact Hr|]. exact (Hc _ _ _ Hw HP).
  - simplify_eq. exact (Hc _ _ _ Hw HP).
Qed.

Lemma hoare_attempt {A F} (c : io F A) P Q R S :
  hoare P c Q R →
  hoare P (attempt (F := E) c) (λ r f, match r with Ok a => Q a f | Err _ => R f end) S.
Proof.
  intros Hc w r w'. unfold attempt. destruct (c w) as [r1 w1] eqn:Hw. intros [= <- <-] HP.
  exact (Hc _ _ _ Hw HP).
Qed.

Lemma hoare_lift_err {A F} (g : F → E) (c : io F A) P Q R :
  hoare P c Q R → hoare P (lift_err g c) Q R.
Proof.
  intros Hc w r w'. unfold lift_err. destruct (c w) as [r1 w1] eqn:Hw. intros [= <- <-] HP.
  specialize (Hc _ _ _ Hw HP). by destruct r1.
Qed.

Lemma hoare_reads {A} (g : fs → result A E) P (Q : A → fs → Prop) R :
  (∀ f, P f → match g f with Ok a => Q a f | Err _ => R f end) → hoare P (reads g) Q R.
Proof. intros Hg w r w' [= <- <-] HP. by apply Hg. Qed.

Lemma hoare_next_unique P R : hoare P (next_unique (E := E)) (λ _, P) R.
Proof. by intros w r w' [= <- <-]. Qed.

Lemma hoare_conseq {A} (c : io E A) (P P' : fs → Prop) (Q Q' : A → fs → Prop) (R R' : fs → Prop) :
  hoare P c Q R → (∀ f, P' f → P f) → (∀ a f, Q a f → Q' a f) → (∀ f, R f → R' f) →
  hoare P' c Q' R'.
Proof.
  intros Hc HP HQ HR w r w' Hw HP'. specialize (Hc _ _ _ Hw (HP _ HP')). destruct r; auto.
Qed.
End hoare.

Lemma hoare_syscall {A : Type} (g : fs → result (A * fs) errno) (P : fs → Prop)
    (Q : A → fs → Prop) (R : fs → Prop) :
  (∀ f, P f → R f) →
  (∀ f, P f → match g f with Ok (a, f') => Q a f' | Err _ => R f end) →
  hoare P (syscall g) Q R.
Proof.
  intros HR Hg w r w'. unfold syscall, bind, fault, reads, fail, set_fs, ret.
  destruct (w_faults w) as [|[k|] xs]; intros Hrun HP; specialize (Hg _ HP); simpl in *;
    try (destruct (g (w_fs w)) as [[a f']|e] eqn:Hgf); simplify_eq/=; auto; congruence.
Qed.

Lemma hoare_write_all q data (P : fs → Prop) (R Q : fs → Prop) :
  (∀ f k, P f → R (put_data f q (take k data))) → (∀ f, P f → Q (put_data f q data)) →
  hoare P (write_all q data) (λ _, Q) R.
Proof.
  intros HR HQ w r w'. unfold write_all, bind, fault, reads, fail, set_fs.
  destruct (w_faults w) as [|[k|] xs]; intros; simplify_eq/=; auto.
Qed.

Lemma hoare_sync (P : fs → Prop) : hoare P sync (λ _, P) P.
Proof. by apply hoare_syscall. Qed.
