(* ===== verification/StorageOps.v ===== *)
(** * Writers of the storage root

    The functions of [storage/fs.rs], [storage/whiteout.rs] and
    [stack/layer/write.rs] that change the file system.  The theorems show what
    survives any pattern of I/O failures: an atomic write leaves the old or the
    new content, a removal touches nothing outside its target. *)

From S2P Require Import Prelude ByteStr Model FS Storage World.

Section storage_ops.
(** [std::process::id()] *)
Context (pid : N).

(** ** [storage/fs.rs] *)

Definition remove_path (p : path) : io LayerStackError () :=
  (do m := attempt (F := LayerStackError) (reads (λ f, symlink_metadata f p)) in
   match m with
   | Ok n =>
       if n_is_symlink n || n_is_file n then lift_err Io (remove_file p)
       else if n_is_dir n then lift_err Io (remove_dir_all p)
       else ret ()
   | Err ENOENT => ret ()
   | Err e => fail (Io e)
   end)%io.

(** The candidate of one round of [allocate_layer_dirs]. *)
Definition new_layer_id (prefix : byte) (next_version : Z) (n : N) : bytes :=
  prefix :: fmt_06 next_version ++ lit "-" ++ fmt_08x n.

Definition staging_path (storage_root : path) (id : bytes) : path :=
  storage_root ++ [STAGING_DIR; id ++ lit ".staging"].
Definition layer_path (storage_root : path) (id : bytes) : path :=
  storage_root ++ [LAYERS_DIR; id].

Fixpoint allocate_loop (rounds : nat) (storage_root : path) (prefix : byte) (next_version : Z)
    : io LayerStackError (bytes * path * path) :=
  match rounds with
  | O => fail LayerIdAllocation
  | S rounds =>
      (do n := next_unique in
       let id := new_layer_id prefix next_version n in
       let staging_dir := staging_path storage_root id in
       let layer_dir := layer_path storage_root id in
       do free := reads (λ f, Ok (negb (exists_ f staging_dir) && negb (exists_ f layer_dir))) in
       if free : bool then ret (id, staging_dir, layer_dir)
       else allocate_loop rounds storage_root prefix next_version)%io
  end.

Definition allocate_layer_dirs (storage_root : path) (prefix : byte) (next_version : Z)
    : io LayerStackError (bytes * path * path) :=
  (run lift_err Io (create_dir_all (storage_root ++ [LAYERS_DIR]));
   run lift_err Io (create_dir_all (storage_root ++ [STAGING_DIR]));
   allocate_loop 100 storage_root prefix next_version)%io.

Definition write_bytes_fsynced (p : path) (data : bytes) : io LayerStackError () :=
  lift_err Io (do q := file_create p in run write_all q data; sync)%io.

Definition fsync_dir (p : path) : io LayerStackError () := lift_err Io (open_sync p).

(** [path.file_name().and_then(to_str).unwrap_or("layerstack")], in the name of
    the temporary file. *)
Definition tmp_name (name : bytes) (n : N) : bytes :=
  lit "." ++ (if utf8_valid name then name else lit "layerstack") ++ lit "." ++ fmt_dec pid ++ lit "." ++ fmt_dec n ++ lit ".tmp".

Definition write_atomic (p : path) (data : bytes) : io LayerStackError () :=
  (run lift_err Io (create_dir_all (parent p));
   do n := next_unique in
   let tmp := parent p ++ [tmp_name (file_name p) n] in
   do r := attempt (
     run write_bytes_fsynced tmp data;
     run lift_err Io (fs_rename tmp p);
     fsync_dir (parent p)) in
   match r with
   | Ok _ => ret ()
   | Err err => run attempt (F := LayerStackError) (remove_file tmp); fail err
   end)%io.

Definition syncfs_storage_root (storage_root : path) : io LayerStackError () :=
  (run lift_err Io (reads (λ f, metadata f storage_root));
   lift_err (λ _, Storage SyncfsFailed) sync)%io.

(** The recursion descends one directory level per unit of fuel. *)
Fixpoint fsync_tree_from (fuel : nat) (root : path) : io LayerStackError () :=
  match fuel with
  | O => ret ()
  | S fuel =>
      (do ns := lift_err Io (reads (λ f, read_dir f root)) in
       foldr (λ name rest,
         do n := lift_err Io (reads (λ f, symlink_metadata f (root ++ [name]))) in
         run (if n_is_dir n then fsync_tree_from fuel (root ++ [name])
              else if n_is_file n then lift_err Io (open_sync (root ++ [name]))
              else ret ());
         rest) (ret ()) ns)%io
  end.

Definition fsync_tree_files (root : path) : io LayerStackError () :=
  λ w, fsync_tree_from (S (size (w_fs w))) root w.

Definition write_manifest `{ManifestCodec} (p : path) (m : Manifest) : io LayerStackError () :=
  write_atomic p (encode_manifest m).

Definition write_layer_digest (storage_root : path) (id digest : bytes) : io LayerStackError () :=
  write_atomic (layer_digest_path storage_root id) digest.

Definition write_layer_bytes (storage_root : path) (id : bytes) (n : Z) : io LayerStackError () :=
  write_atomic (layer_bytes_path storage_root id) (fmt_dec (Z.to_N n)).

(** ** [storage/whiteout.rs], on Linux *)

Definition is_err {A E} (r : result A E) : bool := match r with Err _ => true | Ok _ => false end.

Definition write_kernel_whiteout (p : path) : io LayerStackError () :=
  (do mknod := attempt (fs_mknod p 0) in
   if is_err mknod then
     run lift_err Io (fs_write p []);
     do trusted := attempt (fs_setxattr p TRUSTED_OVERLAY_WHITEOUT_XATTR) in
     do user := attempt (fs_setxattr p USER_OVERLAY_WHITEOUT_XATTR) in
     if is_err trusted && is_err user then
       run attempt (F := LayerStackError) (remove_file p);
       fail (Storage (WhiteoutFailed p))
     else ret ()
   else ret ())%io.

Definition write_opaque_dir_marker (dir : path) : io LayerStackError () :=
  (run write_kernel_whiteout (dir ++ [OPAQUE_MARKER]);
   do trusted := attempt (fs_lsetxattr dir TRUSTED_OVERLAY_OPAQUE_XATTR) in
   do user := attempt (fs_lsetxattr dir USER_OVERLAY_OPAQUE_XATTR) in
   if is_err trusted && is_err user then fail (Storage (OpaqueFailed dir)) else ret ())%io.

(** ** [stack/layer/write.rs] *)

Definition prepare_layer_target (layer_dir : path) (p : bytes) : io LayerStackError path :=
  (let target := join_layer_path layer_dir p in
   run lift_err Io (create_dir_all (parent target));
   run remove_path target;
   ret target)%io.

Definition write_layer_change (layer_dir : path) (c : LayerChange) : io LayerStackError () :=
  match c with
  | Write p content =>
      (do target := prepare_layer_target layer_dir (as_str p) in
       lift_err Io (fs_write target content))%io
  | WriteFile p source_path size =>
      (do target := prepare_layer_target layer_dir (as_str p) in
       do source_meta := lift_err Io (reads (λ f, metadata f source_path)) in
       if negb (n_is_file source_meta) || negb (bool_decide (n_len source_meta = size)) then
         fail (Storage (SpoolChanged source_path))
       else
         run lift_err Io (fs_copy source_path target);
         do target_meta := lift_err Io (reads (λ f, metadata f target)) in
         if negb (bool_decide (n_len target_meta = size)) then
           fail (Storage (SpoolCopyMismatch (as_str p)))
         else ret ())%io
  | Delete p =>
      (do target := prepare_layer_target layer_dir (as_str p) in write_kernel_whiteout target)%io
  | SymlinkTo p source_path =>
      (do target := prepare_layer_target layer_dir (as_str p) in
       lift_err Io (fs_symlink source_path target))%io
  | Directory p => lift_err Io (create_dir_all (join_layer_path layer_dir (as_str p)))
  | OpaqueDir p =>
      (let dir := join_layer_path layer_dir (as_str p) in
       run lift_err Io (create_dir_all dir);
       write_opaque_dir_marker dir)%io
  end.

Fixpoint write_changes (layer_dir : path) (cs : list LayerChange) : io LayerStackError () :=
  match cs with
  | [] => ret ()
  | c :: cs => (run write_layer_change layer_dir c; write_changes layer_dir cs)%io
  end.

Definition write_layer_changes (layer_dir : path) (changes : list LayerChange)
    : io LayerStackError () :=
  write_changes layer_dir (aggregate_layer_changes changes).
End storage_ops.

(** ** Removals stay inside their target *)

Lemma pres_remove_path region f0 d c :
  (∀ f, outside region f0 f → plain_dir f d) → c ≠ dotdot →
  (∀ q, under (d ++ [c]) q → region q) →
  pres (outside region f0) (remove_path (d ++ [c])).
Proof.
  intros Hd Hc Hr. apply pres_bind; [apply pres_attempt, pres_reads|]. intros [n|[]]; auto with pres.
  apply pres_if; [|apply pres_if; [|apply pres_ret]]; apply pres_lift_err.
  - apply pres_remove_file; [done..|apply Hr, under_self].
  - by apply pres_remove_dir_all.
Qed.

Lemma shrink_remove_path g p : pres (λ f, f ⊆ g) (remove_path p).
Proof.
  apply pres_bind; [apply pres_attempt, pres_reads|]. intros [n|[]]; auto with pres.
  apply pres_if; [|apply pres_if; [|apply pres_ret]]; apply pres_lift_err;
    [apply shrink_remove_file|apply shrink_remove_dir_all].
Qed.

(** A removed directory is gone with everything below it. *)
Lemma remove_path_gone w w' d c :
  plain_dir (w_fs w) d → c ≠ dotdot →
  dir_at (w_fs w) (d ++ [c]) = true ∨ (∀ q, w_fs w !! ((d ++ [c]) ++ q) = None) →
  remove_path (d ++ [c]) w = (Ok (), w') → ∀ q, w_fs w' !! ((d ++ [c]) ++ q) = None.
Proof.
  intros Hd Hc Hcase Hrun q. unfold remove_path, bind, attempt, reads in Hrun.
  assert (symlink_metadata (w_fs w) (d ++ [c]) = node_at (w_fs w) (d ++ [c])) as Hm.
  { unfold symlink_metadata. by rewrite resolve_child. }
  rewrite Hm in Hrun. unfold node_at in Hrun. destruct Hcase as [Hdir|Hnone].
  - pose proof Hdir as Hdir'. unfold dir_at in Hdir'.
    destruct (w_fs w !! (d ++ [c])) as [[]|]; try done. simpl in Hrun. unfold lift_err in Hrun.
    destruct (remove_dir_all (d ++ [c]) w) as [[[]|] w1] eqn:Hr; simplify_eq/=.
    by eapply remove_dir_all_gone.
  - pose proof (Hnone []) as Hn. rewrite app_nil_r in Hn. rewrite Hn in Hrun.
    unfold ret in Hrun. simplify_eq. apply Hnone.
Qed.


(** ** Atomic writes *)

(** A tree: every node but the root is an entry of a directory. *)
Definition tree (f : fs) : Prop := ∀ q c, is_Some (f !! (q ++ [c])) → dir_at f q = true.

Lemma tree_below f q r : tree f → dir_at f q = false → r ≠ [] → f !! (q ++ r) = None.
Proof.
  intros Ht Hq. induction r as [|c r IH] using rev_ind; [done|]. intros _. rewrite (assoc_L (++)).
  destruct (f !! ((q ++ r) ++ [c])) eqn:Hn; [|done].
  assert (dir_at f (q ++ r) = true) as Hd by (by eapply Ht). destruct (decide (r = [])) as [->|Hr].
  - rewrite app_nil_r in Hd. congruence.
  - unfold dir_at in Hd. by rewrite IH in Hd.
Qed.

(** The directory is there already: nothing is created and nothing fails. *)
Lemma create_dir_all_plain d w :
  plain_dir (w_fs w) d →
  ∃ w', create_dir_all d w = (Ok (), w') ∧ w_fs w' = w_fs w ∧ w_unique w' = w_unique w ∧
    (w_faults w = [] → w_faults w' = []).
Proof.
  intros Hd. unfold create_dir_all.
  assert (∀ n, ∃ w', create_dir_all_from n d w = (Ok (), w') ∧
    w_fs w' = w_fs w ∧ w_unique w' = w_unique w ∧
    (w_faults w = [] → w_faults w' = [])) as H; [|apply H].
  intros n. assert (resolve (w_fs w) false d = Ok d) as Hres.
  { unfold resolve. rewrite <-(app_nil_r d) at 1. by rewrite walk_plain. }
  assert (w_fs w !! d ≠ None) as Hsome.
  { intros Hn. apply plain_dir_at in Hd. unfold dir_at in Hd. by rewrite Hn in Hd. }
  assert (is_dir (w_fs w) d = true) as Hdir.
  { unfold is_dir, metadata, resolve. rewrite <-(app_nil_r d), walk_plain by done. cbn.
    unfold node_at. apply plain_dir_at in Hd. unfold dir_at in Hd. by destruct (w_fs w !! d). }
  assert (∃ e w', attempt (F := errno) (sys_mkdir d) w = (Ok (Err e), w') ∧ e ≠ ENOENT ∧
    w_fs w' = w_fs w ∧ w_unique w' = w_unique w ∧
    (w_faults w = [] → w_faults w' = [])) as (e & w' & Hmk & He & Hfs & Hu & Hft).
  { destruct (syscall_err (λ f, (let? q := resolve f false d in
        if decide (f !! q = None) then Ok (tt, <[q := NDir 0x1ed ∅]> f) else Err EEXIST)%result)
        w EEXIST) as (e & w' & Hrun & Hor & ?).
    - rewrite Hres. cbn [result_bind]. by rewrite decide_False.
    - exists e, w'. unfold attempt, sys_mkdir. rewrite Hrun. split_and!; naive_solver. }
  destruct n; simpl; (case_decide; [by eexists|]); rewrite (bind_run _ _ _ _ _ Hmk);
    (destruct e; [done|..]; rewrite bind_reads, Hfs, Hdir; by eexists).
Qed.

Lemma tmp_name_ne pid name n : tmp_name pid name n ≠ name ∧ tmp_name pid name n ≠ dotdot.
Proof.
  unfold tmp_name. split; intros Heq.
  - destruct (utf8_valid name) eqn:Hu.
    + apply (f_equal length) in Heq. rewrite !length_app in Heq. simpl in Heq. lia.
    + rewrite <-Heq, utf8_valid_ascii in Hu; [done|].
      repeat (apply Forall_app_2 || apply fmt_dec_ascii || by repeat constructor).
  - apply (f_equal length) in Heq. rewrite !length_app in Heq. simpl in Heq. lia.
Qed.

Section write_atomic.
Context (d : path) (name tmp : bytes) (data : bytes) (f0 : fs).
Hypothesis Hd : plain_dir f0 d.
Hypothesis Htree : tree f0.
Hypothesis Hname : name ≠ dotdot.
Hypothesis Htmp : tmp ≠ name ∧ tmp ≠ dotdot.
Hypothesis Hfresh : f0 !! (d ++ [tmp]) = None.
Hypothesis Hfile : dir_at f0 (d ++ [name]) = false.

(** The temporary file holds [x]. *)
Definition partial (x : bytes) : fs := <[d ++ [tmp] := NFile x 0x1a4 ∅]> f0.
Definition replaced : fs := <[d ++ [name] := NFile data 0x1a4 ∅]> f0.

Lemma partial_plain x : plain_dir (partial x) d.
Proof using Hd.
  eapply plain_dir_outside; [|done]. by apply outside_insert; [apply under_self|].
Qed.

Lemma tmp_resolve f : plain_dir f d → f !! (d ++ [tmp]) = None → resolve f true (d ++ [tmp]) = Ok (d ++ [tmp]).
Proof using Htmp.
  intros Hf Hn. unfold resolve. rewrite walk_plain by done. rewrite walk_eq.
  by rewrite (plain_dir_at f d), decide_False, Hn by naive_solver.
Qed.

Lemma partial_rename :
  graft (without (without (partial data) (d ++ [tmp])) (d ++ [name])) (d ++ [name])
    (subtree (partial data) (d ++ [tmp])) = replaced.
Proof using Htree Htmp Hfresh Hfile.
  assert (∀ r, r ≠ [] → f0 !! ((d ++ [tmp]) ++ r) = None) as Htmp0.
  { intros r. apply tree_below; [done|]. unfold dir_at. by rewrite Hfresh. }
  assert (∀ r, r ≠ [] → f0 !! ((d ++ [name]) ++ r) = None) as Hname0.
  { intros r. by apply tree_below. }
  unfold replaced. apply map_eq. intros q. rewrite lookup_graft, !lookup_without.
  destruct (below (d ++ [name]) q) as [r|] eqn:Hb.
  - rewrite lookup_subtree. apply below_Some in Hb as ->. rewrite (decide_False (P := Some _ = None)) by done. unfold partial.
    destruct (decide (r = [])) as [->|Hr]; [by rewrite !app_nil_r, !lookup_insert_eq|].
    rewrite !lookup_insert_ne by (intros Heq%(f_equal length); rewrite !length_app in Heq;
      destruct r; simpl in *; (done || lia)).
    by rewrite Htmp0, Hname0.
  - rewrite decide_True by done. rewrite below_None in Hb.
    rewrite lookup_insert_ne by (intros <-; by apply (Hb []); rewrite app_nil_r).
    case_decide as Hq.
    + unfold partial. rewrite lookup_insert_ne; [done|]. intros <-. by rewrite below_self in Hq.
    + destruct (below (d ++ [tmp]) q) as [r|] eqn:Hb2; [|done]. apply below_Some in Hb2 as ->.
      destruct (decide (r = [])) as [->|]; [by rewrite app_nil_r|by rewrite Htmp0].
Qed.

Lemma write_bytes_hoare :
  hoare (λ f, f = f0) (write_bytes_fsynced (d ++ [tmp]) data) (λ _ f, f = partial data)
    (λ f, f = f0 ∨ ∃ x, f = partial x).
Proof using Hd Htmp Hfresh.
  apply hoare_lift_err. eapply (hoare_bind _ _ _ (λ q f, q = d ++ [tmp] ∧ f = partial [])).
  - apply hoare_syscall; [by left|]. intros f ->. rewrite tmp_resolve by done. cbn [result_bind].
    by rewrite Hfresh.
  - intros q. eapply (hoare_bind _ _ _ (λ _ f, f = partial data)).
    + apply hoare_write_all.
      * intros f k [-> ->]. right. eexists. unfold put_data, partial. rewrite lookup_insert_eq.
        by rewrite insert_insert_eq.
      * intros f [-> ->]. unfold put_data, partial. by rewrite lookup_insert_eq, insert_insert_eq.
    + intros ?. eapply hoare_conseq; [apply (hoare_sync (λ f, f = partial data))|done..|].
      intros f ->. right. by eexists.
Qed.

Lemma rename_hoare :
  hoare (λ f, f = partial data) (fs_rename (d ++ [tmp]) (d ++ [name])) (λ _ f, f = replaced)
    (λ f, f = partial data).
Proof using Hd Htree Hname Htmp Hfresh Hfile.
  apply hoare_syscall; [done|]. intros f ->.
  rewrite !resolve_child by (apply partial_plain || naive_solver). cbn [result_bind].
  assert (d ++ [tmp] ≠ d ++ [name]) as Hne by naive_solver.
  unfold partial at 1. rewrite lookup_insert_eq. rewrite decide_False by done.
  rewrite decide_False by (intros [r Hr%below_Some]; apply (f_equal (take (length d + 1))) in Hr as Hr';
    rewrite !take_ge in Hr' by (rewrite ?length_app; simpl; lia);
    rewrite (take_app_le (d ++ [tmp])) in Hr' by (rewrite length_app; simpl; lia);
    rewrite take_ge in Hr' by (rewrite ?length_app; simpl; lia); by simplify_list_eq).
  rewrite partial_rename. unfold partial at 1. rewrite lookup_insert_ne by done.
  unfold dir_at in Hfile. by destruct (f0 !! (d ++ [name])) as [[]|].
Qed.

Lemma remove_tmp_hoare f1 :
  f1 = f0 ∨ (∃ x, f1 = partial x) ∨ f1 = replaced →
  hoare (λ f, f = f1) (remove_file (d ++ [tmp]))
    (λ _ f, f = f0 ∨ f = replaced) (λ f, f = f0 ∨ f = replaced ∨ ∃ x, f = partial x).
Proof using Hd Htmp Hfresh.
  intros Hf1. apply hoare_syscall; [naive_solver|]. intros f ->.
  assert (plain_dir f1 d) as Hpl.
  { destruct Hf1 as [->|[[x ->]| ->]]; [done|apply partial_plain|].
    eapply plain_dir_outside; [|done]. by apply outside_insert; [apply under_self|]. }
  rewrite resolve_child by naive_solver. cbn [result_bind]. destruct Hf1 as [->|[[x ->]| ->]].
  - rewrite Hfresh. by left.
  - unfold partial. rewrite lookup_insert_eq, delete_insert_id by done. by left.
  - unfold replaced. rewrite lookup_insert_ne by naive_solver. rewrite Hfresh. naive_solver.
Qed.

Lemma install_hoare :
  hoare (λ f, f = f0)
    (run write_bytes_fsynced (d ++ [tmp]) data;
     run lift_err Io (fs_rename (d ++ [tmp]) (d ++ [name]));
     fsync_dir d)%io
    (λ _ f, f = replaced) (λ f, f = f0 ∨ (∃ x, f = partial x) ∨ f = replaced).
Proof using Hd Htree Hname Htmp Hfresh Hfile.
  eapply hoare_bind; [eapply hoare_conseq; [apply write_bytes_hoare|done|done|naive_solver]|].
  intros ?. eapply (hoare_bind _ _ _ (λ _ f, f = replaced)).
  - apply hoare_lift_err. eapply hoare_conseq; [apply rename_hoare|done|done|naive_solver].
  - intros ?. apply hoare_lift_err. eapply (hoare_bind _ _ _ (λ _ f, f = replaced)).
    + apply hoare_reads. intros f ->. destruct (metadata _ _); auto.
    + intros ?. eapply hoare_conseq; [apply (hoare_sync (λ f, f = replaced))|done|done|naive_solver].
Qed.
End write_atomic.

(** Whatever fails, an atomic write leaves the old files or the new ones, and
    at most a left-over temporary file. *)
Lemma install_cases pid d name data w r w' :
  plain_dir (w_fs w) d → tree (w_fs w) → name ≠ dotdot → dir_at (w_fs w) (d ++ [name]) = false →
  w_fs w !! (d ++ [tmp_name pid name (w_unique w)]) = None →
  (do n := next_unique in
   let tmp := d ++ [tmp_name pid name n] in
   do r := attempt (
     run write_bytes_fsynced tmp data;
     run lift_err Io (fs_rename tmp (d ++ [name]));
     fsync_dir d) in
   match r with
   | Ok _ => ret ()
   | Err err => run attempt (F := LayerStackError) (remove_file tmp); fail err
   end)%io w = (r, w') →
  (w_fs w' = replaced d name data (w_fs w)) ∨
  (is_err r = true ∧
   (w_fs w' = w_fs w ∨ ∃ x, w_fs w' = partial d (tmp_name pid name (w_unique w)) (w_fs w) x)).
Proof.
  intros Hd Htree Hname Hfile Hfresh Hrun.
  unfold bind at 1, next_unique in Hrun. cbv beta iota zeta in Hrun.
  pose proof (tmp_name_ne pid name (w_unique w)) as Htmp.
  set (tmp := tmp_name pid name (w_unique w)) in *. clearbody tmp.
  set (w2 := mkWorld _ _ _) in Hrun. assert (w_fs w2 = w_fs w) as Hfs2 by done. clearbody w2.
  revert Hrun. unfold bind at 1, attempt at 1. destruct (bind _ _ w2) as [r3 w3] eqn:Hinner.
  eapply (install_hoare d name tmp data (w_fs w)) in Hinner; [|done..].
  destruct r3 as [[]|e]; specialize (Hinner Hfs2); unfold ret, bind, attempt;
    [intros [= <- <-]; by left|].
  destruct (remove_file (d ++ [tmp]) w3) as [r4 w4] eqn:Hrm. intros [= <- <-].
  eapply (remove_tmp_hoare d name tmp data (w_fs w)) in Hrm; [|done..].
  specialize (Hrm eq_refl). destruct r4; naive_solver.
Qed.

(** The directory of the file is made first. *)
Lemma write_atomic_dir pid d name data w w1 :
  create_dir_all d w = (Ok (), w1) →
  write_atomic pid (d ++ [name]) data w =
  (do n := next_unique in
   let tmp := d ++ [tmp_name pid name n] in
   do r := attempt (
     run write_bytes_fsynced tmp data;
     run lift_err Io (fs_rename tmp (d ++ [name]));
     fsync_dir d) in
   match r with
   | Ok _ => ret ()
   | Err err => run attempt (F := LayerStackError) (remove_file tmp); fail err
   end)%io w1.
Proof.
  intros Hmk. unfold write_atomic, parent, file_name.
  rewrite last_snoc, length_app, Nat.add_comm. cbn [length pred Nat.add].
  rewrite take_app_length. change (default [] (Some name)) with name.
  unfold bind at 1, lift_err at 1. by rewrite Hmk.
Qed.

Lemma write_atomic_cases pid d name data w r w' :
  plain_dir (w_fs w) d → tree (w_fs w) → name ≠ dotdot → dir_at (w_fs w) (d ++ [name]) = false →
  w_fs w !! (d ++ [tmp_name pid name (w_unique w)]) = None →
  write_atomic pid (d ++ [name]) data w = (r, w') →
  (w_fs w' = replaced d name data (w_fs w)) ∨
  (is_err r = true ∧
   (w_fs w' = w_fs w ∨ ∃ x, w_fs w' = partial d (tmp_name pid name (w_unique w)) (w_fs w) x)).
Proof.
  intros Hd Htree Hname Hfile Hfresh Hrun.
  destruct (create_dir_all_plain d w) as (w1 & Hmk & Hfs1 & Hu1 & _); [done|].
  rewrite (write_atomic_dir _ _ _ _ _ _ Hmk) in Hrun. rewrite <-Hfs1, <-Hu1 in *. by eapply install_cases.
Qed.

(** ** The manifest file *)

(** A manifest the code can have built: [Manifest::new] accepts it, its layer
    references pass [validate_layer_ref]. *)
Definition manifest_ok (m : Manifest) : Prop :=
  schema_version m = MANIFEST_SCHEMA_VERSION ∧ validate_layer_refs (layers m) = Ok ().

(** An entry that is no link. *)
Definition linkless (f : fs) (p : path) : Prop := ∀ t, f !! p ≠ Some (NSymlink t).

Lemma metadata_child f d c :
  plain_dir f d → c ≠ dotdot → linkless f (d ++ [c]) → metadata f (d ++ [c]) = node_at f (d ++ [c]).
Proof.
  intros Hd Hc Hns. unfold metadata, resolve. rewrite walk_plain by done.
  rewrite walk_step by (done || by apply plain_dir_at). unfold node_at.
  by destruct (f !! (d ++ [c])) eqn:Hn; simpl; rewrite Hn.
Qed.

Section manifest_file.
Context `{ManifestCodec}.

Lemma read_manifest_ext f f' p : metadata f p = metadata f' p → read_manifest f p = read_manifest f' p.
Proof. intros Heq. unfold read_manifest, exists_, read_to_string, read. by rewrite Heq. Qed.

Lemma read_manifest_written f d c m mode xs :
  plain_dir f d → c ≠ dotdot → manifest_ok m →
  f !! (d ++ [c]) = Some (NFile (encode_manifest m) mode xs) → read_manifest f (d ++ [c]) = Ok m.
Proof.
  intros Hd Hc [Hs Hl] Hf.
  assert (metadata f (d ++ [c]) = Ok (NFile (encode_manifest m) mode xs)) as Hmeta.
  { rewrite metadata_child by (done || by intros t; rewrite Hf). unfold node_at. by rewrite Hf. }
  unfold read_manifest, exists_, read_to_string, read. rewrite Hmeta. cbn [negb result_bind map_err].
  rewrite encode_utf8. cbn [map_err result_bind]. rewrite decode_encoded. cbn.
  rewrite decide_False by (rewrite Hs; lia). rewrite Hl. cbn. unfold manifest_new.
  rewrite decide_False by naive_solver. by destruct m.
Qed.

(** C27: replacing the manifest file is atomic.  Whatever calls fail in between,
    the next reader of the file gets the old manifest or the new one; it gets
    the new one when the write reports success, and no other file of the
    storage root changes, a left-over temporary file aside. *)
Theorem write_manifest_atomic pid d name m w r w' :
  plain_dir (w_fs w) d → tree (w_fs w) → name ≠ dotdot → manifest_ok m →
  dir_at (w_fs w) (d ++ [name]) = false → linkless (w_fs w) (d ++ [name]) →
  w_fs w !! (d ++ [tmp_name pid name (w_unique w)]) = None →
  write_manifest pid (d ++ [name]) m w = (r, w') →
  (read_manifest (w_fs w') (d ++ [name]) = Ok m ∨
   is_err r = true ∧
   read_manifest (w_fs w') (d ++ [name]) = read_manifest (w_fs w) (d ++ [name])) ∧
  (∀ q, q ≠ d ++ [name] → q ≠ d ++ [tmp_name pid name (w_unique w)] → w_fs w' !! q = w_fs w !! q).
Proof.
  intros Hd Htree Hname Hm Hfile Hlink Hfresh Hrun.
  pose proof (tmp_name_ne pid name (w_unique w)) as [Htmp Hdd].
  assert (∀ c n, plain_dir (<[d ++ [c] := n]> (w_fs w)) d) as Hplain.
  { intros c n. eapply plain_dir_outside; [|done]. by apply outside_insert; [apply under_self|]. }
  apply write_atomic_cases in Hrun as [Hw'|[Herr [Hw'|[x Hw']]]]; try done; rewrite Hw'.
  - split; [left|by intros q ??; apply lookup_insert_ne].
    eapply read_manifest_written; [apply Hplain|done..|apply lookup_insert_eq].
  - split; [by right|done].
  - split; [right; split; [done|]|by intros q ??; apply lookup_insert_ne].
    assert (partial d (tmp_name pid name (w_unique w)) (w_fs w) x !! (d ++ [name]) = w_fs w !! (d ++ [name]))
      as Hsame by (apply lookup_insert_ne; naive_solver).
    apply read_manifest_ext. rewrite !metadata_child; try done.
    + unfold node_at. by rewrite Hsame.
    + apply Hplain.
    + intros t. rewrite Hsame. apply Hlink.
Qed.
End manifest_file.

(** The rename succeeds and the sync of the directory fails. *)
Definition atomic_fs : fs :=
  {[ [] := NDir 0x1ed ∅; [lit "s"] := NDir 0x1ed ∅;
     [lit "s"; lit "manifest.json"] := NFile [] 0x1a4 ∅ ]}.
Definition atomic_world : world := mkWorld atomic_fs 0 [None; None; None; None; None; Some 0].
Definition atomic_manifest : Manifest := mkManifest 7 [mkLayerRef (lit "L1") (lit "layers/L1")] 1.
Definition atomic_run : result () LayerStackError * world :=
  write_manifest (H := number_codec) 5 [lit "s"; lit "manifest.json"] atomic_manifest atomic_world.

Definition tree_check (f : fs) : bool :=
  forallb (λ q, bool_decide (q = []) || dir_at f (parent q)) (map_to_list f).*1.

Lemma tree_check_tree f : tree_check f = true → tree f.
Proof.
  unfold tree_check. rewrite forallb_forall. intros Hall q c [n Hn].
  specialize (Hall (q ++ [c])). rewrite <-list_elem_of_In in Hall.
  assert (parent (q ++ [c]) = q) as Hp.
  { unfold parent. rewrite length_app, Nat.add_comm. simpl. apply take_app_length. }
  rewrite Hp, bool_decide_false in Hall by (by destruct q).
  apply Hall. apply list_elem_of_fmap. exists (q ++ [c], n). split; [done|].
  by apply elem_of_map_to_list.
Qed.

Lemma write_manifest_atomic_witness :
  atomic_run.1 = Err (Io EIO) ∧
  (read_manifest (H := number_codec) (w_fs atomic_run.2) [lit "s"; lit "manifest.json"] =
     Ok atomic_manifest ∨
   is_err atomic_run.1 = true ∧
   read_manifest (H := number_codec) (w_fs atomic_run.2) [lit "s"; lit "manifest.json"] =
   read_manifest (H := number_codec) atomic_fs [lit "s"; lit "manifest.json"]).
Proof.
  split; [vm_compute; reflexivity|].
  destruct (write_manifest_atomic (H := number_codec) 5 [lit "s"] (lit "manifest.json")
    atomic_manifest atomic_world atomic_run.1 atomic_run.2) as [Hread _].
  - apply plain_check_dir. vm_compute. reflexivity.
  - apply tree_check_tree. vm_compute. reflexivity.
  - discriminate.
  - split; vm_compute; reflexivity.
  - vm_compute. reflexivity.
  - intros t Ht. vm_compute in Ht. discriminate Ht.
  - vm_compute. reflexivity.
  - apply surjective_pairing.
  - exact Hread.
Defined.
