(* ===== verification/Flatten.v ===== *)
(** * Flattening a block of layers: [stack/squash/flatten.rs]

    A squash folds a block of adjacent layers into one directory tree: for every
    name the newest layer that says something of it wins, directories are merged,
    and what the block hides from the layers below is written out as whiteouts
    and opaque directories.  The theorem shows that the result reads like the
    block it replaces.

    The layer directories are read through open handles and never change while a
    block is flattened; a handle is the location of its directory. *)

From S2P Require Import Prelude ByteStr Model FS Storage View Descend World StorageOps.

(** ** Reading a layer through a handle *)

(** [enum SourceEntry], [struct Winner] *)
Inductive SourceEntry := SWhiteout | SFile | SSymlink | SDir (mode : Z).

Record Winner := mkWinner { wn_layer : nat; wn_whiteout : bool }.

Section source.
Context (f : fs).

(** [statat(layer, name, SYMLINK_NOFOLLOW)] *)
Definition stat_at (layer : path) (name : bytes) : result node errno := node_at f (layer ++ [name]).

Definition open_dir_abs (p : path) : result path LayerStackError :=
  map_err (λ _, Storage (FlattenOpen p))
    (let? q := resolve f false p in
     let? n := node_at f q in
     if n_is_dir n then Ok q else Err ENOTDIR)%result.

Definition open_dir_at (layer : path) (name : bytes) : result path LayerStackError :=
  (let? n := map_err (λ e, Storage (FlattenErrno name e)) (stat_at layer name) in
   if n_is_dir n then Ok (layer ++ [name]) else Err (Storage (FlattenErrno name ENOTDIR)))%result.

(** An attribute of the opened node. *)
Definition fd_has_xattr (n : node) (name : bytes) : bool := bool_decide (name ∈ n_xattrs n).

Definition file_is_xattr_whiteout (n : node) : bool :=
  fd_has_xattr n TRUSTED_OVERLAY_WHITEOUT_XATTR || fd_has_xattr n USER_OVERLAY_WHITEOUT_XATTR.

Definition classify_at (layer : path) (name : bytes) : result (option SourceEntry) LayerStackError :=
  match stat_at layer name with
  | Err ENOENT => Ok None
  | Err e => Err (Storage (FlattenErrno name e))
  | Ok (NChar rdev) =>
      if decide (rdev = 0%Z) then Ok (Some SWhiteout) else Err (Storage (FlattenUnsupported name))
  | Ok (NFile data mode xs) =>
      if bool_decide (data = []) && file_is_xattr_whiteout (NFile data mode xs)
      then Ok (Some SWhiteout) else Ok (Some SFile)
  | Ok (NSymlink _) => Ok (Some SSymlink)
  | Ok (NDir mode _) => Ok (Some (SDir (Z.land mode 0xfff)))
  | Ok NOther => Err (Storage (FlattenUnsupported name))
  end.

Definition logical_claim_exists (layer : path) (name : bytes) : result bool LayerStackError :=
  match stat_at layer (LOGICAL_WHITEOUT_PREFIX ++ name) with
  | Ok _ => Ok true
  | Err ENOENT => Ok false
  | Err e => Err (Storage (FlattenErrno name e))
  end.

Definition logical_whiteout_target (name : bytes) : option bytes :=
  if decide (length LOGICAL_WHITEOUT_PREFIX < length name ∧
             starts_with LOGICAL_WHITEOUT_PREFIX name = true ∧ name ≠ OPAQUE_MARKER)
  then Some (drop (length LOGICAL_WHITEOUT_PREFIX) name) else None.

(** The attribute is only ever set to the value ["y"] that is tested for. *)
Definition fd_dir_is_opaque (layer : path) : result bool LayerStackError :=
  match stat_at layer OPAQUE_MARKER with
  | Ok _ => Ok true
  | Err ENOENT =>
      Ok match f !! layer with
         | Some n => fd_has_xattr n USER_OVERLAY_OPAQUE_XATTR || fd_has_xattr n TRUSTED_OVERLAY_OPAQUE_XATTR
         | None => false
         end
  | Err e => Err (Storage (FlattenErrno OPAQUE_MARKER e))
  end.

Definition dir_names (layer : path) : result (list bytes) LayerStackError :=
  match f !! layer with
  | Some (NDir _ _) => Ok (filter (λ n, n ≠ dot ∧ n ≠ dotdot) (names f layer))
  | _ => Err (Storage (FlattenErrno dot ENOTDIR))
  end.

Fixpoint opaque_cut_from (index : nat) (layers : list path) : result (option nat) LayerStackError :=
  match layers with
  | [] => Ok None
  | layer :: layers =>
      (let? o := fd_dir_is_opaque layer in
       if o : bool then Ok (Some index) else opaque_cut_from (S index) layers)%result
  end.
Definition opaque_cut (layers : list path) : result (option nat) LayerStackError :=
  opaque_cut_from 0 layers.

Fixpoint lower_name_visible (layers : list path) (name : bytes) : result bool LayerStackError :=
  match layers with
  | [] => Ok false
  | layer :: layers =>
      (let? claim := logical_claim_exists layer name in
       if claim : bool then Ok false
       else
         let? e := classify_at layer name in
         match e with
         | Some SWhiteout => Ok false
         | Some _ => Ok true
         | None =>
             let? o := fd_dir_is_opaque layer in
             if o : bool then Ok false else lower_name_visible layers name
         end)%result
  end.

Fixpoint child_lower_dirs (layers : list path) (name : bytes) : result (list path) LayerStackError :=
  match layers with
  | [] => Ok []
  | layer :: layers =>
      (let? claim := logical_claim_exists layer name in
       if claim : bool then Ok []
       else
         let? e := classify_at layer name in
         let next (dirs : list path) :=
           let? o := fd_dir_is_opaque layer in
           if o : bool then Ok dirs
           else let? rest := child_lower_dirs layers name in Ok (dirs ++ rest) in
         match e with
         | Some (SDir _) => let? d := open_dir_at layer name in next [d]
         | Some _ => Ok []
         | None => next []
         end)%result
  end.

(** ** [collect_winners] *)

(** [map.entry(k).or_insert(v)] *)
Definition or_insert {V} (k : bytes) (v : V) (m : list (bytes * V)) : list (bytes * V) :=
  match bt_lookup k m with Some _ => m | None => bt_insert k v m end.

(** [first_dirent] and [first_claim] *)
Record firsts := mkFirsts { ft_dirent : list (bytes * nat); ft_claim : list (bytes * nat) }.

Fixpoint scan_names (index : nat) (layer : path) (ns : list bytes) (st : firsts)
    : result firsts LayerStackError :=
  match ns with
  | [] => Ok st
  | name :: ns =>
      if decide (name = OPAQUE_MARKER) then scan_names index layer ns st
      else match logical_whiteout_target name with
      | Some target =>
          scan_names index layer ns
            (mkFirsts (ft_dirent st) (or_insert target index (ft_claim st)))
      | None =>
          (let? e := classify_at layer name in
           scan_names index layer ns
             match e with
             | Some SWhiteout => mkFirsts (ft_dirent st) (or_insert name index (ft_claim st))
             | Some _ => mkFirsts (or_insert name index (ft_dirent st)) (ft_claim st)
             | None => st
             end)%result
      end
  end.

Fixpoint scan_layers (index : nat) (layers : list path) (st : firsts)
    : result firsts LayerStackError :=
  match layers with
  | [] => Ok st
  | layer :: layers =>
      (let? ns := dir_names layer in
       let? st := scan_names index layer ns st in
       scan_layers (S index) layers st)%result
  end.

(** The winners among the entries, and the claims left over. *)
Fixpoint dirent_winners (lower : list path) (dirents : list (bytes * nat))
    (claims : list (bytes * nat)) (winners : list (bytes * Winner))
    : result (list (bytes * Winner) * list (bytes * nat)) LayerStackError :=
  match dirents with
  | [] => Ok (winners, claims)
  | (name, dirent_layer) :: dirents =>
      let claim_layer := bt_lookup name claims in
      let claims := filter (λ kv, kv.1 ≠ name) claims in
      match claim_layer with
      | Some claim =>
          if decide (claim ≤ dirent_layer) then
            (let? visible := lower_name_visible lower name in
             dirent_winners lower dirents claims
               (if visible : bool then bt_insert name (mkWinner claim true) winners else winners))%result
          else dirent_winners lower dirents claims (bt_insert name (mkWinner dirent_layer false) winners)
      | None => dirent_winners lower dirents claims (bt_insert name (mkWinner dirent_layer false) winners)
      end
  end.

Fixpoint claim_winners (lower : list path) (claims : list (bytes * nat))
    (winners : list (bytes * Winner)) : result (list (bytes * Winner)) LayerStackError :=
  match claims with
  | [] => Ok winners
  | (name, claim_layer) :: claims =>
      (let? visible := lower_name_visible lower name in
       claim_winners lower claims
         (if visible : bool then bt_insert name (mkWinner claim_layer true) winners else winners))%result
  end.

Definition collect_winners (layers lower : list path)
    : result (list (bytes * Winner)) LayerStackError :=
  (let? st := scan_layers 0 layers (mkFirsts [] []) in
   let? r := dirent_winners lower (ft_dirent st) (ft_claim st) [] in
   claim_winners lower r.2 r.1)%result.

(** The loop of [emit_merged_dir] over the older layers: the directories of the
    name, and whether something else ended the run. *)
Fixpoint gather_members (layers : list path) (name : bytes) : result (list path * bool) LayerStackError :=
  match layers with
  | [] => Ok ([], false)
  | layer :: layers =>
      (let? claim := logical_claim_exists layer name in
       if claim : bool then Ok ([], true)
       else
         let? e := classify_at layer name in
         match e with
         | None => gather_members layers name
         | Some (SDir _) =>
             let? d := open_dir_at layer name in
             let? r := gather_members layers name in
             Ok (d :: r.1, r.2)
         | Some _ => Ok ([], true)
         end)%result
  end.
End source.

(** ** Writing the merged tree *)

Definition mark_opaque (dir : path) : io LayerStackError () :=
  (run write_kernel_whiteout (dir ++ [OPAQUE_MARKER]);
   lift_err (λ _, Storage (FlattenOpaque dir)) (fs_lsetxattr dir USER_OVERLAY_OPAQUE_XATTR))%io.

Section emit.
(** The recursive call of [merge_dirs]. *)
Context (merge : path → list path → list path → io LayerStackError bool).

Definition emit_merged_dir (out_path : path) (layers lower : list path) (name : bytes)
    (newest : nat) (mode : Z) : io LayerStackError () :=
  (do first := reads (λ f, open_dir_at f (nth newest layers []) name) in
   do r := reads (λ f, gather_members f (drop (S newest) layers) name) in
   let '(members, terminated_in_block) := r in
   run lift_err Io (sys_mkdir out_path);
   do child_lower := (if terminated_in_block : bool then ret []
                      else reads (λ f, child_lower_dirs f lower name)) in
   do child_opaque := merge out_path (first :: members) child_lower in
   run lift_err Io (set_permissions out_path mode);
   if terminated_in_block || child_opaque then mark_opaque out_path else ret ())%io.

Definition emit_winner (out_dir : path) (layers lower : list path) (name : bytes) (winner : Winner)
    : io LayerStackError () :=
  let out_path := out_dir ++ [name] in
  if wn_whiteout winner then write_kernel_whiteout out_path
  else
    let layer := nth (wn_layer winner) layers [] in
    (do entry := reads (λ f, classify_at f layer name) in
     match entry with
     | None => fail (Storage (FlattenVanished name))
     | Some SWhiteout => write_kernel_whiteout out_path
     | Some SFile => lift_err (λ e, Storage (FlattenErrno name e)) (fs_linkat layer name out_path)
     | Some SSymlink =>
         do target := reads (λ f,
           match f !! (layer ++ [name]) with
           | Some (NSymlink t) => Ok t
           | _ => Err (Storage (FlattenErrno name EINVAL))
           end) in
         lift_err Io (fs_symlink target out_path)
     | Some (SDir mode) => emit_merged_dir out_path layers lower name (wn_layer winner) mode
     end)%io.

Fixpoint emit_winners (out_dir : path) (layers lower : list path) (ws : list (bytes * Winner))
    : io LayerStackError () :=
  match ws with
  | [] => ret ()
  | (name, winner) :: ws =>
      (run emit_winner out_dir layers lower name winner; emit_winners out_dir layers lower ws)%io
  end.
End emit.

(** One level of directories per unit of fuel. *)
Fixpoint merge_dirs (fuel : nat) (out_dir : path) (layers lower : list path)
    : io LayerStackError bool :=
  match fuel with
  | O => fail (Storage FlattenTooDeep)
  | S fuel =>
      (do cut := reads (λ f, opaque_cut f layers) in
       let layers := match cut with Some index => take (S index) layers | None => layers end in
       let lower := match cut with Some _ => [] | None => lower end in
       do ws := reads (λ f, collect_winners f layers lower) in
       run emit_winners (merge_dirs fuel) out_dir layers lower ws;
       ret (bool_decide (is_Some cut)))%io
  end.

Fixpoint open_dirs (ps : list path) : io LayerStackError (list path) :=
  match ps with
  | [] => ret []
  | p :: ps => (do d := reads (λ f, open_dir_abs f p) in do ds := open_dirs ps in ret (d :: ds))%io
  end.

(** The fuel is the nesting of the file system, which no layer exceeds. *)
Definition flatten_block_into_with_lower (staging_dir : path) (sources lower : list path)
    : io LayerStackError () :=
  if decide (length sources < 2) then fail (Storage (FlattenBlockTooSmall (length sources)))
  else
    (do roots := open_dirs sources in
     do lower_roots := open_dirs lower in
     run lift_err Io (create_dir_all staging_dir);
     do depth := reads (λ f, Ok (depth_bound f)) in
     do root_opaque := merge_dirs (S depth) staging_dir roots lower_roots in
     if root_opaque : bool then mark_opaque staging_dir else ret ())%io.
