(* ===== verification/Does.v ===== *)
(** * Triples for code that fails only on a fault

    [does P c Q]: from a file system in [P], the code [c] ends in [Q] with its
    value, and it reports an error only when the fault script still had an entry
    to inject.  In contrast to [hoare] this rules out errors of the code's own.
    The rules cover the monad and the calls that add one entry to a directory. *)

From S2P Require Import Prelude ByteStr Model FS Storage View Descend World StorageOps.

(** ** Triples for code that fails only on a fault *)

Definition does {E A : Type} (P : fs → Prop) (c : io E A) (Q : A → fs → Prop) : Prop :=
  ∀ w, P (w_fs w) →
  match c w with
  | (Ok a, w') => Q a (w_fs w') ∧ (w_faults w = [] → w_faults w' = [])
  | (Err _, _) => w_faults w ≠ []
  end.

Section does.
Context {E : Type}.
Implicit Types P : fs → Prop.

Lemma does_ret {A} (a : A) P (Q : A → fs → Prop) : (∀ f, P f → Q a f) → does P (ret (E := E) a) Q.
Proof. intros HQ w Hw. simpl. auto. Qed.

Lemma does_bind {A B} (c : io E A) (k : A → io E B) P Q R :
  does P c Q → (∀ a, does (Q a) (k a) R) → does P (bind c k) R.
Proof.
  intros Hc Hk w Hw. specialize (Hc w Hw). unfold bind. destruct (c w) as [[a|e] w1]; [|done].
  destruct Hc as [HQ Hf]. specialize (Hk a w1 HQ). destruct (k a w1) as [[b|e] w2]; naive_solver.
Qed.

Lemma does_lift_err {A F} (g : F → E) (c : io F A) P Q : does P c Q → does P (lift_err g c) Q.
Proof. intros Hc w Hw. specialize (Hc w Hw). unfold lift_err. by destruct (c w) as [[a|e] w1]. Qed.

Lemma does_reads {A} (g : fs → result A E) P (Q : A → fs → Prop) :
  (∀ f, P f → ∃ a, g f = Ok a ∧ Q a f) → does P (reads g) Q.
Proof. intros Hg w Hw. destruct (Hg _ Hw) as (a & Ha & HQ). unfold reads. by rewrite Ha. Qed.

Lemma does_bind_reads {A B} (g : fs → result A E) (k : A → io E B) f a R :
  g f = Ok a → does (λ h, h = f) (k a) R → does (λ h, h = f) (bind (reads g) k) R.
Proof.
  intros Hg Hk w Hw. specialize (Hk w Hw). rewrite bind_reads. by rewrite Hw, Hg.
Qed.

Lemma does_conseq {A} (c : io E A) P P' (Q Q' : A → fs → Prop) :
  does P c Q → (∀ f, P' f → P f) → (∀ a f, Q a f → Q' a f) → does P' c Q'.
Proof.
  intros Hc HP HQ w Hw. specialize (Hc w (HP _ Hw)). destruct (c w) as [[a|e] w1]; naive_solver.
Qed.
End does.

Lemma does_syscall {A : Type} (g : fs → result (A * fs) errno) (P : fs → Prop) (Q : A → fs → Prop) :
  (∀ f, P f → ∃ a f', g f = Ok (a, f') ∧ Q a f') → does P (syscall g) Q.
Proof.
  intros Hg w Hw. destruct (Hg _ Hw) as (a & f' & Ha & HQ). unfold syscall, bind, fault, reads.
  destruct (w_faults w) as [|[k|] xs] eqn:Hf; cbn; rewrite ?Ha; cbn; done.
Qed.

Lemma syscall_failed {A : Type} (g : fs → result (A * fs) errno) w e w' :
  syscall g w = (Err e, w') → w_fs w' = w_fs w.
Proof.
  unfold syscall, bind, fault, reads. destruct (w_faults w) as [|[k|] xs]; cbn;
    [|by intros [= _ <-]|]; destruct (g (w_fs w)) as [[a f']|e']; cbn; by intros [= _ <-].
Qed.

(** *** Entries of a plain directory *)

Section entries.
Context (f : fs) (d : path) (c : bytes).
Hypothesis Hd : plain_dir f d.
Hypothesis Hc : c ≠ dotdot.

Lemma resolve_new follow : f !! (d ++ [c]) = None → resolve f follow (d ++ [c]) = Ok (d ++ [c]).
Proof using Hd Hc.
  intros Hn. unfold resolve. rewrite walk_plain by done. rewrite walk_eq.
  by rewrite (plain_dir_at f d), decide_False, Hn by done.
Qed.

Lemma resolve_node n :
  f !! (d ++ [c]) = Some n → n_is_symlink n = false → resolve f true (d ++ [c]) = Ok (d ++ [c]).
Proof using Hd Hc.
  intros Hn Hs. unfold resolve. rewrite walk_plain by done. rewrite walk_step; [|by apply plain_dir_at|done|].
  - by rewrite Hn.
  - intros t Ht. rewrite Hn in Ht. by simplify_eq.
Qed.

Lemma does_symlink t :
  f !! (d ++ [c]) = None →
  does (λ g, g = f) (fs_symlink t (d ++ [c])) (λ _ f', f' = <[d ++ [c] := NSymlink t]> f).
Proof using Hd Hc.
  intros Hn. apply does_syscall. intros ? ->. rewrite resolve_new by done. cbn [result_bind].
  rewrite decide_True by done. eauto.
Qed.

Lemma does_mkdir :
  f !! (d ++ [c]) = None →
  does (λ g, g = f) (sys_mkdir (d ++ [c])) (λ _ f', f' = <[d ++ [c] := NDir 0x1ed ∅]> f).
Proof using Hd Hc.
  intros Hn. apply does_syscall. intros ? ->. rewrite resolve_new by done. cbn [result_bind].
  rewrite decide_True by done. eauto.
Qed.

Lemma does_linkat s x n :
  f !! (d ++ [c]) = None → f !! (s ++ [x]) = Some n → n_is_dir n = false →
  does (λ g, g = f) (fs_linkat s x (d ++ [c])) (λ _ f', f' = <[d ++ [c] := n]> f).
Proof using Hd Hc.
  intros Hn Hs Hnd. apply does_syscall. intros ? ->. rewrite Hs.
  destruct n; try done; rewrite resolve_new by done; cbn [result_bind]; rewrite decide_True by done; eauto.
Qed.

Lemma does_chmod mode m xs :
  f !! (d ++ [c]) = Some (NDir m xs) →
  does (λ g, g = f) (set_permissions (d ++ [c]) mode) (λ _ f', f' = <[d ++ [c] := NDir mode xs]> f).
Proof using Hd Hc.
  intros Hn. apply does_syscall. intros ? ->. erewrite resolve_node by done. cbn [result_bind].
  rewrite Hn. eauto.
Qed.

Lemma does_lsetxattr name m xs :
  f !! (d ++ [c]) = Some (NDir m xs) →
  does (λ g, g = f) (fs_lsetxattr (d ++ [c]) name) (λ _ f', f' = <[d ++ [c] := NDir m ({[name]} ∪ xs)]> f).
Proof using Hd Hc.
  intros Hn. apply does_syscall. intros ? ->. rewrite resolve_child by done. cbn [result_bind].
  unfold add_xattr. rewrite Hn. eauto.
Qed.

(** A whiteout by device or, where that is refused, by attribute. *)
Lemma hoare_setxattr name data mode xs :
  hoare (λ f', f' = <[d ++ [c] := NFile data mode xs]> f) (attempt (F := LayerStackError) (fs_setxattr (d ++ [c]) name))
    (λ r f', f' = <[d ++ [c] := NFile data mode (if is_err r then xs else {[name]} ∪ xs)]> f) (λ _, True).
Proof using Hd Hc.
  set (g := <[d ++ [c] := NFile data mode xs]> f).
  assert (plain_dir g d) as Hd'.
  { eapply plain_dir_outside; [|done]. by apply outside_insert; [apply under_self|]. }
  eapply hoare_conseq;
    [apply hoare_attempt with (S := λ _, True), (hoare_syscall _ (λ f', f' = g)
       (λ _ f', f' = <[d ++ [c] := NFile data mode ({[name]} ∪ xs)]> f) (λ f', f' = g))|done| |done].
  - done.
  - intros ? ->. unfold resolve. rewrite walk_plain by done. unfold g.
    rewrite walk_step; [|by apply (plain_dir_at g)|done|].
    + rewrite lookup_insert_eq. cbn. unfold add_xattr. rewrite lookup_insert_eq. by rewrite insert_insert_eq.
    + intros t. by rewrite lookup_insert_eq.
  - by intros [[]|e] f'.
Qed.

Lemma hoare_write_new :
  f !! (d ++ [c]) = None →
  hoare (eq f) (fs_write (d ++ [c]) []) (λ _ f', f' = <[d ++ [c] := NFile [] 0x1a4 ∅]> f) (λ _, True).
Proof using Hd Hc.
  intros Hn. eapply hoare_bind.
  - apply (hoare_syscall _ (eq f) (λ q f', q = d ++ [c] ∧ f' = <[d ++ [c] := NFile [] 0x1a4 ∅]> f)); [done|].
    intros ? <-. rewrite resolve_new by done. cbn. by rewrite Hn.
  - intros q. apply hoare_write_all; [done|]. intros ? [-> ->]. unfold put_data.
    by rewrite lookup_insert_eq, insert_insert_eq.
Qed.

Lemma does_whiteout :
  f !! (d ++ [c]) = None →
  does (λ g, g = f) (write_kernel_whiteout (d ++ [c]))
    (λ _ f', ∃ n, whiteout_node n = true ∧ f' = <[d ++ [c] := n]> f).
Proof using Hd Hc.
  intros Hn w Hw. unfold write_kernel_whiteout.
  assert (hoare (eq f)
    (run lift_err Io (fs_write (d ++ [c]) []);
     do trusted := attempt (fs_setxattr (d ++ [c]) TRUSTED_OVERLAY_WHITEOUT_XATTR) in
     do user := attempt (fs_setxattr (d ++ [c]) USER_OVERLAY_WHITEOUT_XATTR) in
     if is_err trusted && is_err user then
       run attempt (F := LayerStackError) (remove_file (d ++ [c]));
       fail (Storage (WhiteoutFailed (d ++ [c])))
     else ret ())%io
    (λ _ f', ∃ n, whiteout_node n = true ∧ f' = <[d ++ [c] := n]> f) (λ _, True)) as Hslow.
  { eapply hoare_bind; [by apply hoare_lift_err, hoare_write_new|]. intros ?.
    eapply hoare_bind; [apply hoare_setxattr|]. intros trusted.
    eapply hoare_bind; [apply hoare_setxattr|]. intros user.
    destruct (is_err trusted && is_err user) eqn:Herr.
    - apply hoare_bind with (Q := λ _ _, True); [|intros ?; apply hoare_fail].
      intros w1 r w2 _ _. by destruct r.
    - intros w1 r w2 [= <- <-] ->. eexists. split; [|done]. cbn [whiteout_node].
      apply andb_true_iff. split; [done|]. apply orb_true_iff. rewrite !bool_decide_eq_true.
      destruct (is_err trusted), (is_err user); set_solver. }
  assert (does (λ g, g = f) (fs_mknod (d ++ [c]) 0) (λ _ f', f' = <[d ++ [c] := NChar 0]> f)) as Hfast.
  { apply does_syscall. intros ? ->. rewrite resolve_new by done. cbn [result_bind].
    rewrite decide_True by done. eauto. }
  specialize (Hfast w Hw). unfold bind at 1, attempt at 1.
  destruct (fs_mknod (d ++ [c]) 0 w) as [[[]|e] w1] eqn:Hm; cbn [is_err].
  - destruct Hfast as [Hf Hff]. split; [|done]. exists (NChar 0). by split.
  - apply syscall_failed in Hm. set (slow := bind _ _) in *. destruct (slow w1) as [[[]|e'] w2] eqn:Hrun; [|done].
    split; [|done]. apply (Hslow _ _ _ Hrun). congruence.
Qed.
End entries.

Lemma does_bind_const {E A B} (c : io E A) (k : A → io E B) P a f R :
  does P c (λ x g, x = a ∧ g = f) → does (λ g, g = f) (k a) R → does P (bind c k) R.
Proof. intros Hc Hk. eapply does_bind; [done|]. intros x w [-> Hw]. by apply Hk. Qed.

Lemma does_create_dir_all f d : plain_dir f d → does (λ g, g = f) (create_dir_all d) (λ _ g, g = f).
Proof.
  intros Hd w Hw. destruct (create_dir_all_plain d w) as (w' & -> & Hfs & _ & Hff); [by rewrite Hw|].
  split; [congruence|done].
Qed.

Lemma does_pre {E A : Type} (c : io E A) P Q : (∀ g, P g → does (λ h, h = g) c Q) → does P c Q.
Proof. intros Hc w HP. by apply (Hc _ HP). Qed.

(** *** New files *)

Section new_file.
Context (f : fs) (d : path) (c : bytes).
Hypothesis Hd : plain_dir f d.
Hypothesis Hc : c ≠ dotdot.
Hypothesis Hn : f !! (d ++ [c]) = None.

Lemma does_write_all data old mode xs :
  does (λ g, g = <[d ++ [c] := NFile old mode xs]> f) (write_all (d ++ [c]) data)
    (λ _ g, g = <[d ++ [c] := NFile data mode xs]> f).
Proof using.
  intros w Hw. unfold write_all, bind, fault, reads, fail, set_fs.
  destruct (w_faults w) as [|[k|] ys] eqn:Hf; cbn; [|done|]; rewrite Hw; unfold put_data;
    rewrite lookup_insert_eq, insert_insert_eq; done.
Qed.

Lemma does_file_create :
  does (λ g, g = f) (file_create (d ++ [c])) (λ q g, q = d ++ [c] ∧ g = <[d ++ [c] := NFile [] 0x1a4 ∅]> f).
Proof using Hd Hc Hn.
  apply does_syscall. intros ? ->. rewrite resolve_new by done. cbn [result_bind]. rewrite Hn. eauto.
Qed.

Lemma does_write_new data :
  does (λ g, g = f) (fs_write (d ++ [c]) data) (λ _ g, g = <[d ++ [c] := NFile data 0x1a4 ∅]> f).
Proof using Hd Hc Hn.
  eapply does_bind; [apply does_file_create|]. intros q. apply does_pre. intros g [-> ->]. apply does_write_all.
Qed.

Lemma does_copy_new src data mode xs :
  metadata f src = Ok (NFile data mode xs) →
  does (λ g, g = f) (fs_copy src (d ++ [c])) (λ _ g, g = <[d ++ [c] := NFile data mode ∅]> f).
Proof using Hd Hc Hn.
  intros Hs. unfold fs_copy. eapply does_bind_reads; [exact Hs|].
  eapply does_bind; [apply does_file_create|]. intros q. apply does_pre. intros g [-> ->].
  eapply does_bind; [apply does_write_all|]. intros []. apply does_syscall. intros ? ->.
  rewrite lookup_insert_eq, insert_insert_eq. eauto.
Qed.
End new_file.

(** ** What a successful run ends in *)

Definition yields {E A : Type} (P : fs → Prop) (c : io E A) (Q : A → fs → Prop) : Prop :=
  hoare P c Q (λ _, True).

Lemma does_yields {E A : Type} P (c : io E A) Q : does P c Q → yields P c Q.
Proof. intros Hc w r w' Hrun HP. specialize (Hc w HP). rewrite Hrun in Hc. destruct r; naive_solver. Qed.

Lemma yields_bind {E A B : Type} (c : io E A) (k : A → io E B) P Q R :
  yields P c Q → (∀ a, yields (Q a) (k a) R) → yields P (bind c k) R.
Proof. apply hoare_bind. Qed.

Lemma yields_ret {E A : Type} (a : A) P (Q : A → fs → Prop) :
  (∀ f, P f → Q a f) → yields P (ret (E := E) a) Q.
Proof. by intros HQ w r w' [= <- <-] ?; apply HQ. Qed.

Lemma yields_pre {E A : Type} (c : io E A) P Q :
  (∀ g, P g → yields (λ h, h = g) c Q) → yields P c Q.
Proof. intros Hc w r w' Hrun HP. by apply (Hc _ HP _ _ _ Hrun). Qed.

(** *** A new directory *)

Lemma syscall_ok {A : Type} (g : fs → result (A * fs) errno) w a f' r w' :
  g (w_fs w) = Ok (a, f') → syscall g w = (r, w') →
  r = Ok a ∧ w_fs w' = f' ∧ (w_faults w = [] → w_faults w' = []) ∨
  r = Err EIO ∧ w_fs w' = w_fs w ∧ w_faults w ≠ [].
Proof.
  intros Hg. unfold syscall, bind, fault, reads. destruct (w_faults w) as [|[k|] xs] eqn:Hf; cbn;
    rewrite ?Hg; cbn; intros [= <- <-]; naive_solver.
Qed.

Lemma does_create_new f d c :
  plain_dir f d → c ≠ dotdot → f !! (d ++ [c]) = None →
  does (λ g, g = f) (create_dir_all (d ++ [c])) (λ _ g, g = <[d ++ [c] := NDir 0x1ed ∅]> f).
Proof.
  intros Hd Hc Hn w Hw.
  assert (resolve f false (d ++ [c]) = Ok (d ++ [c])) as Hres by by apply resolve_new.
  assert (is_dir f (d ++ [c]) = false) as Hdir.
  { unfold is_dir. rewrite metadata_child by (done || by intros t; rewrite Hn). unfold node_at. by rewrite Hn. }
  destruct (sys_mkdir (d ++ [c]) w) as [r w1] eqn:Hmk.
  assert (attempt (F := errno) (sys_mkdir (d ++ [c])) w = (Ok r, w1)) as Hatt by (unfold attempt; by rewrite Hmk).
  eapply syscall_ok in Hmk as Hr; [|rewrite Hw, Hres; cbn [result_bind]; by rewrite decide_True].
  rewrite Hw in Hr.
  assert (∀ k, create_dir_all_from k (d ++ [c]) w = (r, w1)) as Hrun.
  { intros k. destruct k; cbn [create_dir_all_from]; rewrite decide_False by (by destruct d);
      (destruct Hr as [(-> & _)|(-> & Hfs & _)]; rewrite (bind_run _ _ _ _ _ Hatt); [done|];
       rewrite bind_reads, Hfs, Hdir; done). }
  unfold create_dir_all. rewrite Hrun. by destruct Hr as [(-> & -> & Hff)|(-> & _ & ?)].
Qed.

Lemma fresh_child f d c :
  plain_dir f d → c ≠ dotdot → linkless f (d ++ [c]) → exists_ f (d ++ [c]) = false → f !! (d ++ [c]) = None.
Proof.
  intros Hd Hc Hl. unfold exists_. rewrite metadata_child by done. unfold node_at. by destruct (f !! (d ++ [c])).
Qed.
