(* ===== verification/FlattenRead.v ===== *)
(** * What flattening reads

    The handles of [Flatten] in terms of the slots of the reference overlay of
    [View]: what each of the reading functions of [squash/flatten.rs] returns,
    up to the map of winners of one directory. *)

From Stdlib Require Import Btauto.
From S2P Require Import Prelude ByteStr Model FS Storage View Descend World StorageOps Flatten.

(** ** Merged directories

    A handle list is read with the layers below the first opaque directory cut
    off. *)

Section merged.
Context (f : fs).

Fixpoint cut (dirs : list path) : list path :=
  match dirs with
  | [] => []
  | d :: dirs => d :: if opaque f d then [] else cut dirs
  end.

(** The directories of a name down to the first layer with something else. *)
Fixpoint members (c : bytes) (dirs : list path) : list path :=
  match dirs with
  | [] => []
  | d :: dirs =>
      match slot_at f d c with
      | Nothing => members c dirs
      | Here (NDir _ _) => (d ++ [c]) :: members c dirs
      | _ => []
      end
  end.

Fixpoint ended (c : bytes) (dirs : list path) : bool :=
  match dirs with
  | [] => false
  | d :: dirs =>
      match slot_at f d c with
      | Nothing | Here (NDir _ _) => ended c dirs
      | _ => true
      end
  end.

Lemma descend_members c dirs : descend f c dirs = cut (members c dirs).
Proof.
  induction dirs as [|d dirs IH]; [done|]. simpl. destruct (slot_at f d c) as [| |[]]; try done.
  simpl. by rewrite IH.
Qed.

Lemma members_app c dirs dirs' :
  members c (dirs ++ dirs') = members c dirs ++ if ended c dirs then [] else members c dirs'.
Proof.
  induction dirs as [|d dirs IH]; [done|]. simpl. destruct (slot_at f d c) as [| |[]]; try done.
  simpl. by rewrite IH.
Qed.

Lemma cut_app dirs dirs' :
  cut (dirs ++ dirs') = cut dirs ++ if existsb (opaque f) dirs then [] else cut dirs'.
Proof.
  induction dirs as [|d dirs IH]; [done|]. simpl. destruct (opaque f d); simpl; by rewrite ?IH.
Qed.

Lemma cut_id dirs : existsb (opaque f) dirs = false → cut dirs = dirs.
Proof. induction dirs as [|d dirs IH]; [done|]. simpl. by intros [-> ?%IH%(f_equal (cons d))]%orb_false_iff. Qed.

(** *** The overlay lookup, by what the first layer says of the first name *)

Lemma overlay_split c cs dirs :
  overlay f dirs (c :: cs) = if decide (cs = []) then find f c dirs else overlay f (descend f c dirs) cs.
Proof. by destruct cs. Qed.

Lemma overlay_skip c cs dirs dirs' :
  Forall (λ d, slot_at f d c = Nothing) dirs → overlay f (dirs ++ dirs') (c :: cs) = overlay f dirs' (c :: cs).
Proof.
  induction 1 as [|d dirs Hd _ IH]; [done|]. rewrite !overlay_split in *. simpl. by rewrite Hd.
Qed.

Lemma overlay_hidden c cs d dirs : slot_at f d c = Hidden → overlay f (d :: dirs) (c :: cs) = None.
Proof. intros Hd. rewrite overlay_split. simpl. rewrite Hd. case_decide; [done|]. apply overlay_nil. Qed.

Lemma overlay_leaf c cs d dirs n :
  slot_at f d c = Here n → n_is_dir n = false →
  overlay f (d :: dirs) (c :: cs) = if decide (cs = []) then Some n else None.
Proof.
  intros Hd Hn. rewrite overlay_split. simpl. rewrite Hd. case_decide; [done|].
  destruct n; try done; apply overlay_nil.
Qed.
End merged.

(** ** Layers as the code writes them *)

(** A name that a path may have. *)
Definition ordinary (c : bytes) : Prop :=
  c ≠ [] ∧ c ≠ dot ∧ c ≠ dotdot ∧ starts_with LOGICAL_WHITEOUT_PREFIX c = false.

(** In addition to [layer_clean]: a name with the whiteout prefix is the opaque
    marker or the whiteout of an ordinary name, an opaque attribute comes with
    the marker, and only directories have entries. *)
Record layer_pure (f : fs) (d : path) : Prop := {
  pure_clean : layer_clean f d;
  pure_name cs c :
    is_Some (f !! (d ++ cs ++ [c])) →
    ordinary c ∨ c = OPAQUE_MARKER ∨ ∃ c', c = LOGICAL_WHITEOUT_PREFIX ++ c' ∧ ordinary c';
  pure_opaque cs m xs :
    f !! (d ++ cs) = Some (NDir m xs) →
    USER_OVERLAY_OPAQUE_XATTR ∈ xs ∨ TRUSTED_OVERLAY_OPAQUE_XATTR ∈ xs →
    is_Some (f !! (d ++ cs ++ [OPAQUE_MARKER]));
  pure_tree cs c : is_Some (f !! (d ++ cs ++ [c])) → dir_at f (d ++ cs) = true;
}.

Lemma layer_pure_app f d e : layer_pure f d → layer_pure f (d ++ e).
Proof.
  intros [H1 H2 H3 H4]. split.
  - by apply layer_clean_app.
  - intros cs c. rewrite <-(assoc_L (++) d e), (assoc_L (++) e cs). apply H2.
  - intros cs m xs. rewrite <-!(assoc_L (++) d e), !(assoc_L (++) e cs). apply H3.
  - intros cs c. rewrite <-!(assoc_L (++) d e), !(assoc_L (++) e cs). apply H4.
Qed.

Lemma ordinary_not_marker c : ordinary c → LOGICAL_WHITEOUT_PREFIX ++ c ≠ OPAQUE_MARKER.
Proof.
  intros (_ & _ & _ & Hc) Heq. apply (f_equal (drop 4)) in Heq.
  change (c = lit ".wh..opq") in Heq. by subst c.
Qed.

Lemma ordinary_not_prefixed c c' : ordinary c → c ≠ LOGICAL_WHITEOUT_PREFIX ++ c'.
Proof. intros (_ & _ & _ & Hc) ->. by rewrite (proj2 (starts_with_app _ _)) in Hc by eauto. Qed.

Lemma ordinary_not_opaque c : ordinary c → c ≠ OPAQUE_MARKER.
Proof. apply (ordinary_not_prefixed c (lit ".wh..opq")). Qed.

(** ** What the code reads, in terms of slots *)

Definition entry_of (n : node) : SourceEntry :=
  if whiteout_node n then SWhiteout
  else match n with
  | NDir mode _ => SDir (Z.land mode 0xfff)
  | NSymlink _ => SSymlink
  | _ => SFile
  end.

Section reads.
Context (f : fs).
Implicit Types (d : path) (ds : list path).

Lemma claim_exists_spec d c :
  logical_claim_exists f d c = Ok (present f d (LOGICAL_WHITEOUT_PREFIX ++ c)).
Proof.
  unfold logical_claim_exists, stat_at, node_at, present.
  destruct (f !! (d ++ [LOGICAL_WHITEOUT_PREFIX ++ c])); by rewrite ?bool_decide_true, ?bool_decide_false by (by eexists || by intros []).
Qed.

Lemma classify_at_spec d c :
  layer_clean f d → classify_at f d c = Ok (entry_of <$> f !! (d ++ [c])).
Proof.
  intros Hcl. unfold classify_at, stat_at, node_at, entry_of.
  destruct (f !! (d ++ [c])) as [n|] eqn:Hn; [|done]. apply (clean_special _ _ Hcl [c]) in Hn as [Ho Hr].
  destruct n as [data m xs|t|m xs|r|]; [|done|done| |done].
  - cbn [fmap option_fmap option_map whiteout_node]. unfold file_is_xattr_whiteout, fd_has_xattr.
    cbn [n_xattrs]. by destruct (_ && _).
  - rewrite (Hr r) by done. done.
Qed.

Lemma dir_is_opaque_spec d : dir_at f d = true → layer_pure f d → fd_dir_is_opaque f d = Ok (opaque f d).
Proof.
  intros Hdir Hp. unfold fd_dir_is_opaque, stat_at, node_at, opaque, present, dir_at in *.
  destruct (f !! (d ++ [OPAQUE_MARKER])) eqn:Hm; [by rewrite bool_decide_true by (by eexists)|].
  rewrite bool_decide_false by by intros []. f_equal. destruct (f !! d) as [[]|] eqn:Hd; try done.
  apply orb_false_iff. split; apply bool_decide_eq_false; intros Hx;
    (destruct (pure_opaque f d Hp [] mode xattrs) as [? Hs]; [by rewrite app_nil_r|by auto|]);
    simpl in Hs; congruence.
Qed.

(** A handle of a directory of a pure layer. *)
Definition source d : Prop := dir_at f d = true ∧ layer_pure f d.

Lemma source_child d c m xs : source d → f !! (d ++ [c]) = Some (NDir m xs) → source (d ++ [c]).
Proof. intros [_ Hp] Hc. split; [unfold dir_at; by rewrite Hc|by apply layer_pure_app]. Qed.

Lemma slot_spec d c :
  slot_at f d c =
  if present f d (LOGICAL_WHITEOUT_PREFIX ++ c) then Hidden
  else match entry_of <$> f !! (d ++ [c]), f !! (d ++ [c]) with
  | None, _ | _, None => Nothing
  | Some SWhiteout, _ => Hidden
  | Some _, Some n => Here n
  end.
Proof.
  unfold slot_at, entry_of. destruct (present _ _ _); [done|]. destruct (f !! _) as [n|]; [|done]. simpl.
  destruct (whiteout_node n); [done|]. by destruct n.
Qed.

Lemma open_dir_at_spec d c m xs : f !! (d ++ [c]) = Some (NDir m xs) → open_dir_at f d c = Ok (d ++ [c]).
Proof. intros Hc. unfold open_dir_at, stat_at, node_at. by rewrite Hc. Qed.

(** Case analysis on a slot as the code does it. *)
Ltac slot_cases d c :=
  rewrite (slot_spec d c), ?claim_exists_spec; cbn [result_bind];
  destruct (present f d (LOGICAL_WHITEOUT_PREFIX ++ c)); [done|];
  rewrite ?classify_at_spec by (by apply pure_clean); cbn [result_bind];
  destruct (f !! (d ++ [c])) as [n|] eqn:?; cbn [fmap option_fmap option_map];
  [unfold entry_of; destruct (whiteout_node n) eqn:?; [|destruct n]|].

Lemma gather_members_spec c ds :
  Forall source ds → gather_members f ds c = Ok (members f c ds, ended f c ds).
Proof.
  induction 1 as [|d ds [Hd Hp] _ IH]; [done|]. cbn [gather_members members ended].
  slot_cases d c; try done.
  by erewrite open_dir_at_spec, IH by done.
Qed.

Lemma child_lower_dirs_spec c ds :
  Forall source ds → child_lower_dirs f ds c = Ok (members f c (cut f ds)).
Proof.
  induction 1 as [|d ds [Hd Hp] _ IH]; [done|]. cbn [child_lower_dirs members cut].
  slot_cases d c; try done; erewrite ?open_dir_at_spec by done; cbn [result_bind];
    rewrite dir_is_opaque_spec, IH by done; cbn [result_bind]; by destruct (opaque f d).
Qed.

Lemma lower_name_visible_spec c ds :
  Forall source ds → lower_name_visible f ds c = Ok (bool_decide (is_Some (find f c (cut f ds)))).
Proof.
  induction 1 as [|d ds [Hd Hp] _ IH]; [done|]. cbn [lower_name_visible find cut].
  slot_cases d c; try done. rewrite dir_is_opaque_spec, IH by done. cbn [result_bind].
  by destruct (opaque f d).
Qed.

Lemma opaque_cut_from_spec ds : ∀ i,
  Forall source ds →
  ∃ r, opaque_cut_from f i ds = Ok r ∧
  match r with
  | Some k => ∃ j, k = i + j ∧ take (S j) ds = cut f ds ∧ existsb (opaque f) ds = true
  | None => existsb (opaque f) ds = false
  end.
Proof.
  induction ds as [|d ds IH]; intros i Hds; [by eexists|]. apply Forall_cons in Hds as [[Hd Hp] Hds].
  cbn [opaque_cut_from cut existsb]. rewrite dir_is_opaque_spec by done. cbn [result_bind].
  destruct (opaque f d); simpl.
  - eexists. split; [done|]. exists 0. rewrite take_0. by rewrite Nat.add_0_r.
  - destruct (IH (S i) Hds) as ([k|] & -> & Hk); eexists; (split; [done|]); [|done].
    destruct Hk as (j & -> & Ht & ?). exists (S j). split_and!; [lia| |done]. simpl. f_equal. exact Ht.
Qed.
End reads.

(** ** The winners *)

Lemma lookup_or_insert {V} k k' (v : V) m :
  bt_lookup k (or_insert k' v m) =
  match bt_lookup k m with Some x => Some x | None => if decide (k = k') then Some v else None end.
Proof.
  unfold or_insert. destruct (bt_lookup k' m) eqn:Hk'.
  - destruct (decide (k = k')) as [->|]; [by rewrite Hk'|]. by destruct (bt_lookup k m).
  - destruct (decide (k = k')) as [->|].
    + by rewrite bt_lookup_insert, Hk'.
    + rewrite bt_lookup_insert_ne by done. by destruct (bt_lookup k m).
Qed.

Lemma or_insert_sorted {V} k (v : V) m : bt_sorted m → bt_sorted (or_insert k v m).
Proof. unfold or_insert. destruct (bt_lookup k m); [done|]. apply bt_insert_sorted. Qed.

Lemma or_insert_keys {V} (P : bytes → Prop) k (v : V) m :
  P k → Forall P m.*1 → Forall P (or_insert k v m).*1.
Proof.
  intros Hk Hm. unfold or_insert. destruct (bt_lookup k m); [done|].
  rewrite Forall_forall in *. intros k' [->|?]%bt_insert_keys; auto.
Qed.

(** The position of the first layer that satisfies [P]. *)
Fixpoint first_idx (P : path → bool) (i : nat) (ds : list path) : option nat :=
  match ds with [] => None | d :: ds => if P d then Some i else first_idx P (S i) ds end.

Lemma first_idx_Some P ds : ∀ i k,
  first_idx P i ds = Some k →
  ∃ pre d post, ds = pre ++ d :: post ∧ k = i + length pre ∧ P d = true ∧ Forall (λ d, P d = false) pre.
Proof.
  induction ds as [|d ds IH]; intros i k Hk; simpl in Hk; [done|]. destruct (P d) eqn:Hd.
  - simplify_eq. by exists [], d, ds.
  - apply IH in Hk as (pre & d' & post & -> & -> & ? & ?). exists (d :: pre), d', post.
    split_and!; [done|simpl; lia|done|by constructor].
Qed.

Section winners.
Context (f : fs).

Definition dirent (c : bytes) (d : path) : bool :=
  match f !! (d ++ [c]) with Some n => negb (whiteout_node n) | None => false end.
Definition claim (c : bytes) (d : path) : bool :=
  present f d (LOGICAL_WHITEOUT_PREFIX ++ c) ||
  match f !! (d ++ [c]) with Some n => whiteout_node n | None => false end.

Lemma slot_claim d c :
  slot_at f d c =
  if claim c d then Hidden else match f !! (d ++ [c]) with Some n => Here n | None => Nothing end.
Proof.
  unfold slot_at, claim. destruct (present _ _ _); [done|]. simpl. destruct (f !! _) as [n|]; [|done].
  by destruct (whiteout_node n).
Qed.

Definition firsts_ok (st : firsts) : Prop :=
  bt_sorted (ft_dirent st) ∧ bt_sorted (ft_claim st) ∧
  Forall ordinary (ft_dirent st).*1 ∧ Forall ordinary (ft_claim st).*1.

(** What one name of a layer adds for [c]. *)
Definition adds (d : path) (ns : list bytes) (c : bytes) : bool * bool :=
  (bool_decide (c ∈ ns) && dirent c d,
   bool_decide (LOGICAL_WHITEOUT_PREFIX ++ c ∈ ns) ||
   (bool_decide (c ∈ ns) && match f !! (d ++ [c]) with Some n => whiteout_node n | None => false end)).

Definition or_else (o : option nat) (b : bool) (i : nat) : option nat :=
  match o with Some x => Some x | None => if b then Some i else None end.

Lemma target_prefixed c : ordinary c → logical_whiteout_target (LOGICAL_WHITEOUT_PREFIX ++ c) = Some c.
Proof.
  intros Hc. unfold logical_whiteout_target. rewrite decide_True.
  - done.
  - split_and!; [|by apply starts_with_app; eauto|by apply ordinary_not_marker].
    rewrite length_app. destruct Hc as (Hne & _). destruct c; [done|simpl; lia].
Qed.

Lemma target_ordinary c : ordinary c → logical_whiteout_target c = None.
Proof.
  intros (_ & _ & _ & Hc). unfold logical_whiteout_target. rewrite decide_False; [done|].
  intros (_ & ? & _). congruence.
Qed.

Lemma or_else_or o b b' i : or_else (or_else o b i) b' i = or_else o (b || b') i.
Proof. by destruct o, b, b'. Qed.

Lemma scan_name_spec i d name st :
  layer_pure f d → is_Some (f !! (d ++ [name])) → firsts_ok st →
  ∃ st', (∀ ns, scan_names f i d (name :: ns) st = scan_names f i d ns st') ∧ firsts_ok st' ∧
  ∀ c, ordinary c →
    bt_lookup c (ft_dirent st') = or_else (bt_lookup c (ft_dirent st)) (adds d [name] c).1 i ∧
    bt_lookup c (ft_claim st') = or_else (bt_lookup c (ft_claim st)) (adds d [name] c).2 i.
Proof.
  intros Hp Hn (Hs1 & Hs2 & Ho1 & Ho2).
  assert (∀ c c' : bytes, bool_decide (c ∈ [c']) = bool_decide (c = c')) as Hin.
  { intros c c'. apply bool_decide_ext. set_solver. }
  assert (∀ o, o = or_else o false i) as Hid by by intros [].
  apply (pure_name f d Hp []) in Hn as Hname.
  destruct Hname as [Hord|[->|(t & -> & Ht)]].
  - assert (∀ c, ordinary c → bool_decide (LOGICAL_WHITEOUT_PREFIX ++ c = name) = false) as Hpre.
    { intros c _. apply bool_decide_eq_false. by apply not_eq_sym, ordinary_not_prefixed. }
    destruct Hn as [n Hn]. destruct (whiteout_node n) eqn:Hw.
    + exists (mkFirsts (ft_dirent st) (or_insert name i (ft_claim st))). split_and!.
      * intros ns. cbn [scan_names]. rewrite decide_False by by apply ordinary_not_opaque.
        rewrite target_ordinary, classify_at_spec by (done || by apply pure_clean). rewrite Hn.
        cbn. unfold entry_of. by rewrite Hw.
      * split_and!; [done|by apply or_insert_sorted|done|by apply or_insert_keys].
      * intros c Hc. unfold adds, dirent. cbn [fst snd ft_dirent ft_claim]. rewrite !Hin, Hpre, lookup_or_insert by done.
        case_bool_decide as Hcn; [subst c; rewrite Hn, Hw|]; simpl; (split; [apply Hid|]);
          by rewrite ?decide_True, ?decide_False by done.
    + exists (mkFirsts (or_insert name i (ft_dirent st)) (ft_claim st)). split_and!.
      * intros ns. cbn [scan_names]. rewrite decide_False by by apply ordinary_not_opaque.
        rewrite target_ordinary, classify_at_spec by (done || by apply pure_clean). rewrite Hn.
        cbn. unfold entry_of. rewrite Hw. by destruct n.
      * split_and!; [by apply or_insert_sorted|done|by apply or_insert_keys|done].
      * intros c Hc. unfold adds, dirent. cbn [fst snd ft_dirent ft_claim]. rewrite !Hin, Hpre, lookup_or_insert by done.
        case_bool_decide as Hcn; [subst c; rewrite Hn, Hw|]; simpl; (split; [|apply Hid]);
          by rewrite ?decide_True, ?decide_False by done.
  - exists st. split_and!; [|done|].
    + intros ns. cbn [scan_names]. by rewrite decide_True.
    + intros c Hc. unfold adds. cbn [fst snd ft_dirent ft_claim]. rewrite !Hin.
      rewrite !bool_decide_false by (by apply ordinary_not_marker || by apply ordinary_not_opaque).
      split; apply Hid.
  - exists (mkFirsts (ft_dirent st) (or_insert t i (ft_claim st))). split_and!.
    + intros ns. cbn [scan_names]. rewrite decide_False by by apply ordinary_not_marker.
      by rewrite target_prefixed.
    + split_and!; [done|by apply or_insert_sorted|done|by apply or_insert_keys].
    + intros c Hc. unfold adds. cbn [fst snd ft_dirent ft_claim]. rewrite !Hin, lookup_or_insert.
      rewrite (bool_decide_false (c = _)) by by apply ordinary_not_prefixed. simpl. split; [apply Hid|].
      case_bool_decide as Hct; [injection Hct as ->; by rewrite decide_True|].
      rewrite decide_False by congruence. done.
Qed.

Lemma scan_names_spec i d ns : ∀ st,
  layer_pure f d → Forall (λ n, is_Some (f !! (d ++ [n]))) ns → firsts_ok st →
  ∃ st', scan_names f i d ns st = Ok st' ∧ firsts_ok st' ∧
  ∀ c, ordinary c →
    bt_lookup c (ft_dirent st') = or_else (bt_lookup c (ft_dirent st)) (adds d ns c).1 i ∧
    bt_lookup c (ft_claim st') = or_else (bt_lookup c (ft_claim st)) (adds d ns c).2 i.
Proof.
  induction ns as [|name ns IH]; intros st Hp Hns Hst.
  { exists st. split_and!; [done..|]. intros c _. unfold adds.
    rewrite !bool_decide_false by set_solver. simpl. by destruct (bt_lookup _ _), (bt_lookup _ _). }
  apply Forall_cons in Hns as [Hn Hns].
  destruct (scan_name_spec i d name st Hp Hn Hst) as (st1 & Hrun & Hst1 & Hl1).
  destruct (IH st1 Hp Hns Hst1) as (st' & Hrun' & Hst' & Hl'). exists st'. rewrite Hrun.
  split_and!; [done..|]. intros c Hc. destruct (Hl1 c Hc) as [E1 E2], (Hl' c Hc) as [-> ->].
  rewrite E1, E2, !or_else_or.
  assert (∀ c : bytes, bool_decide (c ∈ name :: ns) = bool_decide (c ∈ [name]) || bool_decide (c ∈ ns)) as Hin.
  { intros c'. rewrite <-bool_decide_or. apply bool_decide_ext. set_solver. }
  unfold adds. cbn [fst snd ft_dirent ft_claim]. rewrite !Hin. split; f_equal; btauto.
Qed.

Lemma dir_names_spec d :
  source f d → ∃ ns, dir_names f d = Ok ns ∧ Forall (λ n, is_Some (f !! (d ++ [n]))) ns ∧
  ∀ c, ordinary c → adds d ns c = (dirent c d, claim c d).
Proof.
  intros [Hd Hp]. unfold dir_names, dir_at in *. destruct (f !! d) as [[]|]; try done.
  eexists. split; [done|]. split.
  { apply Forall_forall. intros n [_ Hn]%list_elem_of_filter. by apply elem_of_names. }
  assert (∀ c, c ≠ dot → c ≠ dotdot →
    bool_decide (c ∈ filter (λ n, n ≠ dot ∧ n ≠ dotdot) (names f d)) = present f d c) as Hin.
  { intros c ??. apply bool_decide_ext. rewrite list_elem_of_filter, elem_of_names. naive_solver. }
  intros c (Hne & Hc1 & Hc2 & Hc3). unfold adds, dirent, claim.
  rewrite !Hin by (done || by intros [=]). unfold present.
  destruct (f !! (d ++ [c])); case_bool_decide as Hs; simpl; try done.
  by destruct Hs.
Qed.

Lemma scan_layers_spec ds : ∀ i st,
  Forall (source f) ds → firsts_ok st →
  ∃ st', scan_layers f i ds st = Ok st' ∧ firsts_ok st' ∧
  ∀ c, ordinary c →
    bt_lookup c (ft_dirent st') =
      match bt_lookup c (ft_dirent st) with Some x => Some x | None => first_idx (dirent c) i ds end ∧
    bt_lookup c (ft_claim st') =
      match bt_lookup c (ft_claim st) with Some x => Some x | None => first_idx (claim c) i ds end.
Proof.
  induction ds as [|d ds IH]; intros i st Hds Hst.
  { exists st. split_and!; [done..|]. intros c _. simpl. by destruct (bt_lookup _ _), (bt_lookup _ _). }
  apply Forall_cons in Hds as [Hd Hds]. cbn [scan_layers first_idx].
  destruct (dir_names_spec d Hd) as (ns & -> & Hns & Hadds). cbn [result_bind].
  destruct (scan_names_spec i d ns st (proj2 Hd) Hns Hst) as (st1 & -> & Hst1 & Hl1). cbn [result_bind].
  destruct (IH (S i) st1 Hds Hst1) as (st' & -> & Hst' & Hl'). exists st'. split_and!; [done..|].
  intros c Hc. destruct (Hl1 c Hc) as [E1 E2], (Hl' c Hc) as [-> ->]. rewrite E1, E2, Hadds by done.
  simpl. split.
  - destruct (bt_lookup c (ft_dirent st)); [done|]. by destruct (dirent c d).
  - destruct (bt_lookup c (ft_claim st)); [done|]. by destruct (claim c d).
Qed.
End winners.

Lemma bt_lookup_filter_ne {V} c name (m : list (bytes * V)) :
  c ≠ name → bt_lookup c (filter (λ kv, kv.1 ≠ name) m) = bt_lookup c m.
Proof.
  intros Hne. induction m as [|[k v] m IH]; [done|]. rewrite filter_cons. simpl.
  destruct (decide (k ≠ name)); simpl; rewrite IH; [done|]. rewrite decide_False; [done|]. naive_solver.
Qed.

Lemma bt_lookup_None {V} c (m : list (bytes * V)) : bt_lookup c m = None ↔ c ∉ m.*1.
Proof.
  induction m as [|[k v] m IH]; csimpl; [set_solver|]. rewrite not_elem_of_cons.
  destruct (decide (c = k)); naive_solver.
Qed.

Lemma bt_sorted_NoDup {V} (m : list (bytes * V)) : bt_sorted m → NoDup m.*1.
Proof.
  unfold bt_sorted. induction (m.*1) as [|k ks IH]; [constructor|]. intros [Hs Hk]%StronglySorted_inv.
  constructor; [|auto]. intros Hin. rewrite Forall_forall in Hk. apply Hk in Hin.
  by apply (irreflexivity bytes_lt) in Hin.
Qed.

Section collect.
Context (f : fs) (lower : list path).
Hypothesis Hlower : Forall (source f) lower.

Definition visible (c : bytes) : bool := bool_decide (is_Some (find f c (cut f lower))).

Lemma dirent_winners_spec dirents : ∀ claims ws,
  NoDup dirents.*1 → bt_sorted ws →
  ∃ ws', dirent_winners f lower dirents claims ws = Ok (ws', filter (λ kv, kv.1 ∉ dirents.*1) claims) ∧
  bt_sorted ws' ∧
  ∀ c, bt_lookup c ws' =
    match bt_lookup c dirents with
    | None => bt_lookup c ws
    | Some i =>
        match bt_lookup c claims with
        | Some j => if decide (j ≤ i) then if visible c then Some (mkWinner j true) else bt_lookup c ws
                    else Some (mkWinner i false)
        | None => Some (mkWinner i false)
        end
    end.
Proof using Hlower.
  induction dirents as [|[name i] dirents IH]; intros claims ws Hnd Hws.
  { exists ws. split_and!; [|done..]. simpl. do 2 f_equal. symmetry. apply Forall_filter_id, Forall_forall.
    set_solver. }
  csimpl in *. apply NoDup_cons in Hnd as [Hnin Hnd].
  set (claims1 := filter (λ kv, kv.1 ≠ name) claims).
  assert (filter (λ kv, kv.1 ∉ name :: dirents.*1) claims = filter (λ kv, kv.1 ∉ dirents.*1) claims1) as ->.
  { unfold claims1. rewrite list_filter_filter. apply list_filter_iff. intros kv. set_solver. }
  set (ws1 := match bt_lookup name claims with
    | Some j => if decide (j ≤ i) then if visible name then bt_insert name (mkWinner j true) ws else ws
                else bt_insert name (mkWinner i false) ws
    | None => bt_insert name (mkWinner i false) ws
    end).
  assert (bt_sorted ws1) as Hws1.
  { unfold ws1. destruct (bt_lookup name claims); [case_decide; [destruct (visible name)|]|];
      try done; by apply bt_insert_sorted. }
  destruct (IH claims1 ws1 Hnd Hws1) as (ws' & Hrun & Hs & Hl). exists ws'. split_and!; [|done|].
  - rewrite <-Hrun. unfold ws1. destruct (bt_lookup name claims) as [j|]; [|done].
    destruct (decide (j ≤ i)); [|done]. by rewrite lower_name_visible_spec.
  - intros c. rewrite Hl. destruct (decide (c = name)) as [->|Hne].
    + rewrite (proj2 (bt_lookup_None name dirents)) by done. unfold ws1.
      destruct (bt_lookup name claims) as [j|]; [case_decide; [destruct (visible name)|]|];
        by rewrite ?bt_lookup_insert.
    + unfold claims1. rewrite bt_lookup_filter_ne by done.
      assert (bt_lookup c ws1 = bt_lookup c ws) as ->; [|done].
      unfold ws1. destruct (bt_lookup name claims) as [j|]; [case_decide; [destruct (visible name)|]|];
        try done; by apply bt_lookup_insert_ne.
Qed.

Lemma claim_winners_spec claims : ∀ ws,
  NoDup claims.*1 → bt_sorted ws →
  ∃ ws', claim_winners f lower claims ws = Ok ws' ∧ bt_sorted ws' ∧
  ∀ c, bt_lookup c ws' =
    match bt_lookup c claims with
    | Some j => if visible c then Some (mkWinner j true) else bt_lookup c ws
    | None => bt_lookup c ws
    end.
Proof using Hlower.
  induction claims as [|[name j] claims IH]; intros ws Hnd Hws; [by exists ws|].
  csimpl in *. apply NoDup_cons in Hnd as [Hnin Hnd].
  rewrite lower_name_visible_spec by done. cbn [result_bind]. fold (visible name).
  set (ws1 := if visible name then _ else _).
  assert (bt_sorted ws1) as Hws1.
  { unfold ws1. destruct (visible name); [by apply bt_insert_sorted|done]. }
  destruct (IH ws1 Hnd Hws1) as (ws' & Hrun & Hs & Hl). exists ws'. split_and!; [done..|].
  intros c. rewrite Hl. destruct (decide (c = name)) as [->|Hne].
  - rewrite (proj2 (bt_lookup_None name claims)) by done. unfold ws1.
    destruct (visible name); by rewrite ?bt_lookup_insert.
  - assert (bt_lookup c ws1 = bt_lookup c ws) as ->; [|done].
    unfold ws1. destruct (visible name); [by apply bt_lookup_insert_ne|done].
Qed.

(** The winner of a name. *)
Definition winner_of (layers : list path) (c : bytes) : option Winner :=
  let hidden j := if visible c then Some (mkWinner j true) else None in
  match first_idx (dirent f c) 0 layers, first_idx (claim f c) 0 layers with
  | Some i, Some j => if decide (j ≤ i) then hidden j else Some (mkWinner i false)
  | Some i, None => Some (mkWinner i false)
  | None, Some j => hidden j
  | None, None => None
  end.

Lemma collect_winners_spec layers :
  Forall (source f) layers →
  ∃ ws, collect_winners f layers lower = Ok ws ∧ bt_sorted ws ∧ Forall ordinary ws.*1 ∧
  ∀ c, ordinary c → bt_lookup c ws = winner_of layers c.
Proof using Hlower.
  intros Hls. unfold collect_winners.
  destruct (scan_layers_spec f layers 0 (mkFirsts [] []) Hls) as (st & -> & (Hs1 & Hs2 & Ho1 & Ho2) & Hl).
  { split_and!; constructor. }
  cbn [result_bind].
  destruct (dirent_winners_spec (ft_dirent st) (ft_claim st) []) as (ws1 & -> & Hw1 & Hl1);
    [by apply bt_sorted_NoDup|constructor|]. cbn [result_bind fst snd].
  set (rest := filter _ _).
  assert (∀ c, bt_lookup c rest = if decide (c ∈ (ft_dirent st).*1) then None else bt_lookup c (ft_claim st)) as Hrest.
  { intros c. unfold rest. clear. induction (ft_claim st) as [|[k v] m IH]; [by case_decide|].
    rewrite filter_cons. csimpl. destruct (decide (k ∉ (ft_dirent st).*1)); csimpl; rewrite IH;
      destruct (decide (c = k)) as [->|]; try done; by repeat case_decide. }
  destruct (claim_winners_spec rest ws1) as (ws & -> & Hw & Hlw); [|done|].
  { apply (sublist_NoDup _ (ft_claim st).*1); [by apply bt_sorted_NoDup|].
    apply fmap_sublist, sublist_filter. }
  assert (∀ c, bt_lookup c ws =
    let hidden j := if visible c then Some (mkWinner j true) else None in
    match bt_lookup c (ft_dirent st), bt_lookup c (ft_claim st) with
    | Some i, Some j => if decide (j ≤ i) then hidden j else Some (mkWinner i false)
    | Some i, None => Some (mkWinner i false)
    | None, Some j => hidden j
    | None, None => None
    end) as Hall.
  { intros c. rewrite Hlw, Hrest, Hl1. destruct (bt_lookup c (ft_dirent st)) as [i|] eqn:Hd.
    - rewrite decide_True; [done|]. apply dec_stable. intros Hn%bt_lookup_None. congruence.
    - apply bt_lookup_None in Hd as Hd'. rewrite decide_False by done. by destruct (bt_lookup c (ft_claim st)). }
  exists ws. split_and!; [done..| |].
  - apply Forall_forall. intros c Hc. rewrite Forall_forall in Ho1, Ho2.
    assert (bt_lookup c ws ≠ None) as Hsome by by rewrite bt_lookup_None; intros [].
    rewrite Hall in Hsome. destruct (bt_lookup c (ft_dirent st)) eqn:Hd.
    + apply Ho1, dec_stable. intros Hn%bt_lookup_None. congruence.
    + destruct (bt_lookup c (ft_claim st)) eqn:Hcl; [|done].
      apply Ho2, dec_stable. intros Hn%bt_lookup_None. congruence.
  - intros c Hc. rewrite Hall. destruct (Hl c Hc) as [-> ->]. done.
Qed.

(** *** What a winner says of the block *)

(** The layers in front of the first one with an opinion. *)
Lemma first_slot c layers : ∀ i,
  Forall (λ d, slot_at f d c = Nothing) layers ∧
    first_idx (dirent f c) i layers = None ∧ first_idx (claim f c) i layers = None ∨
  ∃ pre d post, layers = pre ++ d :: post ∧ Forall (λ d, slot_at f d c = Nothing) pre ∧
  match slot_at f d c with
  | Nothing => False
  | Hidden => first_idx (claim f c) i layers = Some (i + length pre) ∧
      ∀ k, first_idx (dirent f c) i layers = Some k → i + length pre ≤ k
  | Here n => first_idx (dirent f c) i layers = Some (i + length pre) ∧
      ∀ j, first_idx (claim f c) i layers = Some j → ¬ j ≤ i + length pre
  end.
Proof using.
  assert (∀ P ds i k, first_idx P i ds = Some k → i ≤ k) as Hge.
  { intros P ds i k (pre & d & post & _ & -> & _)%first_idx_Some. lia. }
  induction layers as [|d layers IH]; intros i; [by left|]. cbn [first_idx].
  destruct (slot_at f d c) as [| |n] eqn:Hs.
  - assert (claim f c d = false ∧ dirent f c d = false) as [-> ->].
    { rewrite slot_claim in Hs. unfold dirent. destruct (claim f c d); [done|]. by destruct (f !! (d ++ [c])). }
    destruct (IH (S i)) as [(? & ? & ?)|(pre & d' & post & -> & Hpre & Hm)].
    + left. split_and!; [by constructor|done..].
    + right. exists (d :: pre), d', post. cbn [length]. rewrite <-plus_n_Sm.
      split_and!; [done|by constructor|exact Hm].
  - right. exists [], d, layers. rewrite Hs. simpl. rewrite Nat.add_0_r.
    assert (claim f c d = true) as ->.
    { rewrite slot_claim in Hs. destruct (claim f c d); [done|]. by destruct (f !! _). }
    split_and!; [done|constructor|done|]. intros k. destruct (dirent f c d); [naive_solver|].
    intros ?%Hge. lia.
  - right. exists [], d, layers. rewrite Hs. simpl. rewrite Nat.add_0_r.
    assert (claim f c d = false ∧ dirent f c d = true) as [-> ->].
    { apply slot_here in Hs as Hn. destruct Hn as [Hn Hw]. unfold dirent. rewrite Hn, Hw.
      rewrite slot_claim in Hs. by destruct (claim f c d). }
    split_and!; [done|constructor|done|]. intros j ?%Hge. lia.
Qed.

Lemma winner_of_cases layers c :
  let D := layers ++ cut f lower in
  match winner_of layers c with
  | Some (mkWinner _ true) => ∀ cs, overlay f D (c :: cs) = None
  | Some (mkWinner k false) =>
      ∃ pre d post n, layers = pre ++ d :: post ∧ k = length pre ∧
        Forall (λ d, slot_at f d c = Nothing) pre ∧ slot_at f d c = Here n
  | None => ∀ cs, overlay f D (c :: cs) = overlay f (cut f lower) (c :: cs)
  end.
Proof using.
  intros D. unfold winner_of.
  destruct (first_slot c layers 0) as [(Hn & -> & ->)|(pre & d & post & -> & Hpre & Hm)].
  { intros cs. by apply overlay_skip. }
  unfold D. destruct (slot_at f d c) as [| |n] eqn:Hs; [done|..].
  - destruct Hm as [-> Hi]. assert (∀ cs, overlay f ((pre ++ d :: post) ++ cut f lower) (c :: cs) = None) as Hnone.
    { intros cs. rewrite <-(assoc_L (++)), overlay_skip by done. by apply overlay_hidden. }
    assert (visible c = false → ∀ cs, overlay f (cut f lower) (c :: cs) = None) as Hinv.
    { unfold visible. intros Hv cs. apply bool_decide_eq_false in Hv. apply eq_None_not_Some in Hv.
      rewrite overlay_split. case_decide; [done|]. clear -Hv H.
      assert (descend f c (cut f lower) = []) as ->; [|apply overlay_nil].
      induction (cut f lower) as [|d' ds IH]; [done|]. simpl in *. destruct (slot_at f d' c) as [| |[]]; auto; done. }
    destruct (first_idx (dirent f c) 0 _) as [i|].
    + rewrite decide_True by auto. destruct (visible c); [done|]. intros cs. by rewrite Hnone, Hinv.
    + destruct (visible c); [done|]. intros cs. by rewrite Hnone, Hinv.
  - destruct Hm as [-> Hj]. simpl. destruct (first_idx (claim f c) 0 _) as [j|].
    + rewrite decide_False by by apply Hj. by exists pre, d, post, n.
    + by exists pre, d, post, n.
Qed.
End collect.

(** ** A check of concrete layers *)

Definition ordinary_check (c : bytes) : bool :=
  bool_decide (c ≠ []) && bool_decide (c ≠ dot) && bool_decide (c ≠ dotdot) &&
  negb (starts_with LOGICAL_WHITEOUT_PREFIX c).

Lemma ordinary_check_spec c : ordinary_check c = true ↔ ordinary c.
Proof.
  unfold ordinary_check, ordinary. rewrite !andb_true_iff, negb_true_iff, !bool_decide_eq_true. naive_solver.
Qed.

Definition name_pure (c : bytes) : bool :=
  ordinary_check c || bool_decide (c = OPAQUE_MARKER) ||
  match strip_prefix LOGICAL_WHITEOUT_PREFIX c with Some c' => ordinary_check c' | None => false end.

Definition node_pure (f : fs) (q : path) (n : node) : bool :=
  (bool_decide (q = []) || name_pure (file_name q)) &&
  match n with
  | NDir _ xs => negb (bool_decide (USER_OVERLAY_OPAQUE_XATTR ∈ xs) || bool_decide (TRUSTED_OVERLAY_OPAQUE_XATTR ∈ xs)) ||
                 bool_decide (is_Some (f !! (q ++ [OPAQUE_MARKER])))
  | _ => true
  end.

(** All that lies below [e] can be part of a layer. *)
Definition fs_pure (e : path) (f : fs) : bool :=
  fs_clean f && tree_check f &&
  forallb (λ qn, negb (bool_decide (is_Some (below e qn.1))) || node_pure f qn.1 qn.2) (map_to_list f).

Lemma fs_pure_layers e f r : fs_pure e f = true → layer_pure f (e ++ r).
Proof.
  unfold fs_pure. rewrite !andb_true_iff, forallb_forall. intros [[Hc Ht] Hall].
  assert (∀ q n, f !! (e ++ q) = Some n → node_pure f (e ++ q) n = true) as Hn.
  { intros q n Hq. apply elem_of_map_to_list, list_elem_of_In, Hall in Hq. cbn [fst snd] in Hq.
    by rewrite below_app, bool_decide_true in Hq. }
  split.
  - by apply fs_clean_layers.
  - intros cs c [n Hq]. rewrite <-(assoc_L (++)) in Hq. apply Hn, andb_true_iff in Hq as [Hq _]. rewrite !(assoc_L (++)) in Hq.
    rewrite bool_decide_false, file_name_snoc in Hq by by destruct ((e ++ r) ++ cs). simpl in Hq. unfold name_pure in Hq.
    apply orb_true_iff in Hq as [[Hq|Hq]%orb_true_iff|Hq].
    + left. by apply ordinary_check_spec.
    + right. left. by apply bool_decide_eq_true in Hq.
    + right. right. destruct (strip_prefix LOGICAL_WHITEOUT_PREFIX c) as [c'|] eqn:Hs; [|done].
      apply strip_prefix_Some in Hs. exists c'. split; [done|]. by apply ordinary_check_spec.
  - intros cs m xs Hq Hx. rewrite <-(assoc_L (++)) in Hq. apply Hn, andb_true_iff in Hq as [_ Hq].
    rewrite !(assoc_L (++)) in Hq |- *.
    apply orb_true_iff in Hq as [Hq|Hq]; [|by apply bool_decide_eq_true in Hq].
    apply negb_true_iff, orb_false_iff in Hq as [H1%bool_decide_eq_false H2%bool_decide_eq_false]. naive_solver.
  - intros cs c Hs. rewrite (assoc_L (++)) in Hs. by apply (tree_check_tree f Ht) in Hs.
Qed.
