(* ===== verification/FlattenSpec.v ===== *)
(** * A flattened block reads like the block

    The merge of [squash/flatten.rs] is followed level by level: an output
    directory under construction answers for the stack of source directories it
    replaces, and for the layers below it.  At the root this gives the property
    that squashing needs. *)

From S2P Require Import Prelude ByteStr Model FS Storage View Descend World StorageOps Flatten.
From S2P Require Import Does FlattenRead.

(** ** File systems that agree below a directory *)

Definition agree (f g : fs) (d : path) : Prop := ∀ r, f !! (d ++ r) = g !! (d ++ r).

Section agree.
Context (f g : fs).

Lemma agree_app d e : agree f g d → agree f g (d ++ e).
Proof. intros H r. rewrite <-(assoc_L (++)). apply H. Qed.

Lemma agree_node d : agree f g d → f !! d = g !! d.
Proof. intros H. specialize (H []). by rewrite app_nil_r in H. Qed.

Lemma slot_at_agree d c : agree f g d → slot_at f d c = slot_at g d c.
Proof. intros H. unfold slot_at, present. by rewrite !H. Qed.

Lemma opaque_agree d : agree f g d → opaque f d = opaque g d.
Proof. intros H. unfold opaque, present. by rewrite H. Qed.

Lemma judge_agree cs : ∀ d, agree f g d → judge f d cs = judge g d cs.
Proof.
  induction cs as [|c cs IH]; intros d H; [done|]. destruct cs as [|c' cs].
  - cbn [judge]. by rewrite slot_at_agree.
  - rewrite !judge_cons2, slot_at_agree by done. destruct (slot_at g d c) as [| |[]]; try done.
    rewrite IH, opaque_agree by by apply agree_app. done.
Qed.

Lemma overlay_agree ds cs : Forall (agree f g) ds → overlay f ds cs = overlay g ds cs.
Proof.
  intros H. destruct (decide (cs = [])) as [->|Hne]; [done|].
  induction H as [|d ds Hd _ IH]; [by rewrite !overlay_nil|]. rewrite !overlay_cons by done.
  by rewrite judge_agree, IH by done.
Qed.

Lemma cut_agree ds : Forall (agree f g) ds → cut f ds = cut g ds.
Proof. induction 1 as [|d ds Hd _ IH]; [done|]. simpl. by rewrite opaque_agree, IH. Qed.

Lemma existsb_opaque_agree ds : Forall (agree f g) ds → existsb (opaque f) ds = existsb (opaque g) ds.
Proof. induction 1 as [|d ds Hd _ IH]; [done|]. simpl. by rewrite opaque_agree, IH. Qed.

Lemma members_agree c ds : Forall (agree f g) ds → members f c ds = members g c ds.
Proof. induction 1 as [|d ds Hd _ IH]; [done|]. simpl. by rewrite slot_at_agree, IH. Qed.

Lemma ended_agree c ds : Forall (agree f g) ds → ended f c ds = ended g c ds.
Proof. induction 1 as [|d ds Hd _ IH]; [done|]. simpl. by rewrite slot_at_agree, IH. Qed.

Lemma layer_pure_agree d : agree f g d → layer_pure f d → layer_pure g d.
Proof.
  intros H [[H1 H2 H3] H4 H5 H6].
  split; [split|..]; intros *; unfold dir_at in *; rewrite <-?(H _); eauto.
Qed.

Lemma source_agree d : agree f g d → source f d → source g d.
Proof.
  intros H [Hd Hp]. split; [|by eapply layer_pure_agree]. unfold dir_at. by rewrite <-agree_node.
Qed.
End agree.

(** ** The merged tree *)

(** A node up to the attributes and the file-type bits of a directory. *)
Definition strip (n : node) : node :=
  match n with NDir mode _ => NDir (Z.land mode 0xfff) ∅ | n => n end.

(** Assembling a pure tree from its entries. *)
Definition entry_pure (f : fs) (q : path) : Prop :=
  match f !! q with
  | Some (NDir _ _) => layer_pure f q
  | Some n => n ≠ NOther ∧ (∀ r, n = NChar r → r = 0%Z) ∧ ∀ r, r ≠ [] → f !! (q ++ r) = None
  | None => ∀ r, f !! (q ++ r) = None
  end.

Definition has_opaque_xattr (n : option node) : Prop :=
  match n with
  | Some (NDir _ xs) => USER_OVERLAY_OPAQUE_XATTR ∈ xs ∨ TRUSTED_OVERLAY_OPAQUE_XATTR ∈ xs
  | _ => False
  end.

(** What the entries of a directory of the output are. *)
Record out_dir_ok (f : fs) (out : path) : Prop := {
  out_is_dir : dir_at f out = true;
  out_names c : is_Some (f !! (out ++ [c])) →
    ordinary c ∨ c = OPAQUE_MARKER ∧ ∀ t, f !! (out ++ [c]) ≠ Some (NSymlink t);
  out_entries c : entry_pure f (out ++ [c]);
  out_opaque : has_opaque_xattr (f !! out) → is_Some (f !! (out ++ [OPAQUE_MARKER]));
}.

Lemma entry_pure_special f q r n :
  entry_pure f q → f !! (q ++ r) = Some n → n ≠ NOther ∧ (∀ r, n = NChar r → r = 0%Z).
Proof.
  unfold entry_pure. intros He Hn. destruct (f !! q) as [m|] eqn:Hq; [|congruence].
  destruct (decide (r = [])) as [->|Hr].
  - rewrite app_nil_r, Hq in Hn. simplify_eq. destruct n; naive_solver.
  - destruct m as [| |mode xs| |]; [naive_solver congruence..| |naive_solver congruence|naive_solver congruence].
    by apply (clean_special _ _ (pure_clean _ _ He)) in Hn.
Qed.

Lemma entry_pure_below f q r : entry_pure f q → is_Some (f !! (q ++ r)) → r ≠ [] → layer_pure f q.
Proof.
  unfold entry_pure. intros He [n Hn] Hr. destruct (f !! q) as [[]|]; naive_solver congruence.
Qed.

Lemma out_dir_pure f out : out_dir_ok f out → layer_pure f out.
Proof.
  intros [Hdir Hnames Hent Hop].
  assert (∀ x cs c, is_Some (f !! (out ++ (x :: cs) ++ [c])) → layer_pure f (out ++ [x])) as Hbelow.
  { intros x cs c Hs. apply (entry_pure_below _ _ (cs ++ [c])); [done| |by destruct cs].
    by rewrite <-(assoc_L (++)). }
  assert (∀ x cs c, out ++ (x :: cs) ++ [c] = (out ++ [x]) ++ cs ++ [c]) as Hsplit2
    by (intros; by rewrite <-(assoc_L (++))).
  assert (∀ x cs, out ++ x :: cs = (out ++ [x]) ++ cs) as Hsplit by (intros; by rewrite <-(assoc_L (++))).
  split; [split|..].
  - intros [|x cs] n Hn; [rewrite app_nil_r in Hn|].
    + unfold dir_at in Hdir. rewrite Hn in Hdir. by destruct n.
    + rewrite Hsplit in Hn. by eapply entry_pure_special.
  - intros [|x cs] c Hs.
    + cbn [app] in *. destruct (Hnames _ Hs) as [Ho|[Ho _]]; [by apply (ordinary_not_prefixed _ c) in Ho|].
      apply eq_None_not_Some. intros Hc. apply (f_equal (drop 4)) in Ho. change (c = lit ".wh..opq") in Ho.
      subst c. by destruct (Hnames _ Hc) as [(_ & _ & _ & ?)|[? _]].
    + apply Hbelow in Hs as Hp. apply pure_clean in Hp. rewrite Hsplit2 in Hs |- *.
      by apply (clean_whiteout _ _ Hp cs c).
  - intros [|x cs] c t Hs.
    + destruct (Hnames _ (mk_is_Some _ _ Hs)) as [Ho|[Ho Hl]]; [by apply (ordinary_not_prefixed _ c) in Ho|].
      by apply (Hl t).
    + pose proof (Hbelow _ _ _ (mk_is_Some _ _ Hs)) as Hp. apply pure_clean in Hp.
      rewrite Hsplit2 in Hs. by apply (clean_marker _ _ Hp cs c t).
  - intros [|x cs] c Hs; [destruct (Hnames _ Hs) as [?|[? _]]; auto|].
    apply Hbelow in Hs as Hp. rewrite Hsplit2 in Hs. by apply (pure_name _ _ Hp cs c).
  - intros [|x cs] m xs Hn Hxs; [rewrite app_nil_r in Hn; apply Hop; by rewrite Hn|].
    rewrite Hsplit2. rewrite Hsplit in Hn. assert (layer_pure f (out ++ [x])) as Hp.
    { destruct (decide (cs = [])) as [->|Hcs]; [|by eapply entry_pure_below].
      rewrite app_nil_r in Hn. specialize (Hent x). unfold entry_pure in Hent. by rewrite Hn in Hent. }
    by apply (pure_opaque _ _ Hp cs m xs).
  - intros [|x cs] c Hs; [by rewrite app_nil_r|]. apply Hbelow in Hs as Hp. rewrite Hsplit2 in Hs.
    rewrite Hsplit. by apply (pure_tree _ _ Hp cs c).
Qed.

Lemma entry_pure_agree f g q : agree f g q → entry_pure f q → entry_pure g q.
Proof.
  intros Ha He. unfold entry_pure in *. rewrite <-(agree_node _ _ _ Ha).
  destruct (f !! q) as [[]|]; try (by eapply layer_pure_agree); repeat setoid_rewrite <-(Ha _); done.
Qed.

(** ** One level of the merge *)

Section tree.
(** The layers as they are, and the root of the output. *)
Context (f0 : fs) (st : path).

(** A source directory: pure, and apart from the output. *)
Definition handle (d : path) : Prop := source f0 d ∧ ∀ r, ¬ under st (d ++ r).

Definition near (f : fs) : Prop := outside (under st) f0 f.

Lemma near_agree f d : near f → handle d → agree f f0 d.
Proof. intros Hf [_ Hd] r. by apply Hf. Qed.

Lemma near_agrees f ds : near f → Forall handle ds → Forall (agree f f0) ds.
Proof. intros Hf Hds. eapply Forall_impl; [exact Hds|]. intros d. by apply near_agree. Qed.

Lemma near_sources f ds : near f → Forall handle ds → Forall (source f) ds.
Proof.
  intros Hf Hds. eapply Forall_impl; [exact Hds|]. intros d Hd. apply (source_agree f0); [|apply Hd].
  intros r. symmetry. by apply near_agree.
Qed.

Lemma handle_child d c m xs : handle d → f0 !! (d ++ [c]) = Some (NDir m xs) → handle (d ++ [c]).
Proof.
  intros [Hs Hd] Hc. split; [by eapply source_child|]. intros r. rewrite <-(assoc_L (++)). apply Hd.
Qed.

Lemma members_handles c ds : Forall handle ds → Forall handle (members f0 c ds).
Proof.
  induction 1 as [|d ds Hd _ IH]; [constructor|]. simpl. destruct (slot_at f0 d c) as [| |[]] eqn:Hs; try done.
  constructor; [|done]. by apply slot_here in Hs as [? _]; eapply handle_child.
Qed.

Lemma cut_handles ds : Forall handle ds → Forall handle (cut f0 ds).
Proof.
  induction 1 as [|d ds Hd _ IH]; [constructor|]. simpl. constructor; [done|].
  by destruct (opaque f0 d).
Qed.

(** What is read at [out] with the directories [L] below it. *)
Definition seen (f : fs) (out : path) (L : list path) (cs : path) : option node :=
  match judge f out cs with VFound n => Some n | VHidden => None | VNext => overlay f0 L cs end.

Definition child_seen (f : fs) (out : path) (L : list path) (c : bytes) (cs : path) : option node :=
  match f !! (out ++ [c]) with
  | None => overlay f0 L (c :: cs)
  | Some n =>
      if whiteout_node n then None
      else if decide (cs = []) then Some n
      else if n_is_dir n
      then seen f (out ++ [c]) (if opaque f (out ++ [c]) then [] else descend f0 c L) cs
      else None
  end.

Lemma seen_cons f out L c cs :
  present f out (LOGICAL_WHITEOUT_PREFIX ++ c) = false →
  seen f out L (c :: cs) = child_seen f out L c cs.
Proof.
  intros Hp. assert (slot_at f out c = match f !! (out ++ [c]) with
    | None => Nothing | Some n => if whiteout_node n then Hidden else Here n end) as Hs.
  { unfold slot_at. by rewrite Hp. }
  unfold seen, child_seen. destruct cs as [|c' cs].
  - cbn [judge]. rewrite Hs. destruct (f !! (out ++ [c])) as [n|]; [|done]. by destruct (whiteout_node n).
  - rewrite judge_cons2, Hs. destruct (f !! (out ++ [c])) as [n|]; [|done].
    destruct (whiteout_node n) eqn:Hw; [done|]. rewrite decide_False by done.
    destruct n; try done. cbn [n_is_dir]. unfold seen.
    destruct (judge f (out ++ [c]) (c' :: cs)); [done..|].
    destruct (opaque f (out ++ [c])); [by rewrite overlay_nil|]. by rewrite overlay_split, decide_False.
Qed.

Lemma seen_agree f g out L cs : agree f g out → seen f out L cs = seen g out L cs.
Proof. intros H. unfold seen. by erewrite judge_agree. Qed.

(** Marking a directory does not change what is found in it. *)
Lemma seen_marked f g out L cs :
  (∀ x, x ≠ OPAQUE_MARKER → agree f g (out ++ [x])) → Forall ordinary cs → cs ≠ [] →
  seen f out L cs = seen g out L cs.
Proof.
  intros H Hcs Hne. unfold seen. destruct cs as [|c cs]; [done|]. apply Forall_cons in Hcs as [Hc Hcs].
  assert (slot_at f out c = slot_at g out c) as Hs.
  { unfold slot_at, present. rewrite !(agree_node f g) by (apply H; by apply ordinary_not_marker || by apply ordinary_not_opaque).
    done. }
  assert (agree f g (out ++ [c])) as Hag by by apply H, ordinary_not_opaque.
  assert (judge f out (c :: cs) = judge g out (c :: cs)) as ->; [|done]. destruct cs as [|c' cs].
  - cbn [judge]. by rewrite Hs.
  - rewrite !judge_cons2, Hs. destruct (slot_at g out c) as [| |[]]; try done.
    by rewrite (judge_agree f g), (opaque_agree f g).
Qed.

(** An entry of the output answers for the whole stack [D]. *)
Definition child_ok (f : fs) (out : path) (D L : list path) (c : bytes) : Prop :=
  is_Some (f !! (out ++ [c])) ∧ entry_pure f (out ++ [c]) ∧
  ∀ cs, Forall ordinary cs →
    strip <$> child_seen f out L c cs = strip <$> overlay f0 D (c :: cs).

Lemma child_ok_agree f g out D L c :
  agree f g (out ++ [c]) → child_ok f out D L c → child_ok g out D L c.
Proof.
  intros Ha (Hs & He & Hcs). split_and!; [|by eapply entry_pure_agree|].
  - by rewrite <-(agree_node f g).
  - intros cs Hc. rewrite <-Hcs by done. unfold child_seen. rewrite <-(agree_node f g) by done.
    destruct (f !! (out ++ [c])); [|done].
    by rewrite (opaque_agree f g), (seen_agree f g) by done.
Qed.

(** *** Leaves *)

Lemma entry_pure_leaf f q n :
  n_is_dir n = false → n ≠ NOther → (∀ r, n = NChar r → r = 0%Z) →
  (∀ r, f !! (q ++ r) = None) → entry_pure (<[q := n]> f) q.
Proof.
  intros Hnd Ho Hr Hn. unfold entry_pure. rewrite lookup_insert_eq.
  assert (∀ r, r ≠ [] → <[q := n]> f !! (q ++ r) = None) as Hb.
  { intros r Hne. rewrite lookup_insert_ne; [done|]. intros Heq.
    apply (f_equal length) in Heq. rewrite length_app in Heq. destruct r; simpl in Heq; (done || lia). }
  by destruct n.
Qed.

Lemma child_ok_whiteout f out D L c n :
  whiteout_node n = true → (∀ r, f !! ((out ++ [c]) ++ r) = None) →
  (∀ cs, overlay f0 D (c :: cs) = None) → child_ok (<[out ++ [c] := n]> f) out D L c.
Proof.
  intros Hw Hn HD. split_and!.
  - by rewrite lookup_insert_eq.
  - destruct n as [| | |r|]; try done; apply entry_pure_leaf; try done.
    intros r' [= <-]. by apply bool_decide_eq_true in Hw.
  - intros cs _. unfold child_seen. by rewrite lookup_insert_eq, Hw, HD.
Qed.

Lemma child_ok_leaf f out D L c d pre post n :
  D = pre ++ d :: post → Forall (λ d, slot_at f0 d c = Nothing) pre → slot_at f0 d c = Here n →
  layer_clean f0 d → n_is_dir n = false → (∀ r, f !! ((out ++ [c]) ++ r) = None) →
  child_ok (<[out ++ [c] := n]> f) out D L c.
Proof.
  intros -> Hpre Hs Hcl Hnd Hn. apply slot_here in Hs as Hsn. destruct Hsn as [Hf Hw].
  destruct (clean_special _ _ Hcl [c] _ Hf) as [Ho Hr]. split_and!.
  - by rewrite lookup_insert_eq.
  - by apply entry_pure_leaf.
  - intros cs _. unfold child_seen. rewrite lookup_insert_eq, Hw, Hnd.
    rewrite overlay_skip by done. by erewrite overlay_leaf by done.
Qed.
End tree.

(** ** The recursion *)

Definition strictly (out q : path) : Prop := ∃ c r, q = out ++ c :: r.

Lemma strictly_under out c q : under (out ++ [c]) q → strictly out q.
Proof. intros [r ->%below_Some]. exists c, r. by rewrite <-(assoc_L (++)). Qed.

Lemma outside_weaken (P Q : path → Prop) f g : (∀ q, P q → Q q) → outside P f g → outside Q f g.
Proof. intros HPQ Hout q Hq. apply Hout. auto. Qed.

Lemma outside_trans (P : path → Prop) f g h : outside P f g → outside P g h → outside P f h.
Proof. intros H1 H2 q Hq. rewrite H2, H1; done. Qed.

Lemma not_strictly_self out k : ¬ strictly out (take k out).
Proof.
  intros (c & r & Heq). apply (f_equal length) in Heq. rewrite length_take, length_app in Heq. simpl in Heq. lia.
Qed.

Lemma plain_dir_strictly f g out : outside (strictly out) f g → plain_dir f out → plain_dir g out.
Proof.
  intros Hout [Hdd Hd]. split; [done|]. intros k Hk. unfold dir_at. rewrite Hout by apply not_strictly_self.
  by apply Hd.
Qed.

Lemma strictly_node f g out : outside (strictly out) f g → g !! out = f !! out.
Proof.
  intros Hout. apply Hout. intros Hs. apply (not_strictly_self out (length out)). by rewrite take_ge.
Qed.

Lemma under_apart (out : path) c c' : c ≠ c' → ∀ r, ¬ under (out ++ [c]) ((out ++ [c']) ++ r).
Proof.
  intros Hne r [r' Hr]. apply below_Some in Hr. rewrite <-!(assoc_L (++)) in Hr.
  apply (inj (app out)) in Hr. by simplify_eq/=.
Qed.

Section recursion.
Context (f0 : fs) (st : path).

(** The layers below [d] are nested less than [fuel] deep. *)
Definition shallow (fuel : nat) (d : path) : Prop := ∀ r, is_Some (f0 !! (d ++ r)) → length r < fuel.

Definition merged (f : fs) (out : path) (b : bool) (layers lower : list path) : Prop :=
  b = existsb (opaque f0) layers ∧
  (∀ c, is_Some (f !! (out ++ [c])) → ordinary c) ∧ (∀ c, entry_pure f (out ++ [c])) ∧
  ∀ cs, cs ≠ [] → Forall ordinary cs →
    strip <$> seen f0 f out (if b then [] else cut f0 lower) cs =
    strip <$> overlay f0 (cut f0 (layers ++ lower)) cs.

(** An empty directory of the output. *)
Definition empty_out (f : fs) (out : path) : Prop :=
  near f0 st f ∧ under st out ∧ plain_dir f out ∧ ∀ c r, f !! (out ++ c :: r) = None.

Definition merge_ok (fuel : nat) (merge : path → list path → list path → io LayerStackError bool) : Prop :=
  ∀ out layers lower f,
  empty_out f out → Forall (handle f0 st) layers → Forall (handle f0 st) lower →
  layers ≠ [] → Forall (shallow fuel) layers →
  does (λ g, g = f) (merge out layers lower)
    (λ b g, outside (strictly out) f g ∧ merged g out b layers lower).

(** A place for a new entry of the output. *)
Record slot_free (f : fs) (out : path) (c : bytes) : Prop := {
  free_near : near f0 st f;
  free_under : under st out;
  free_plain : plain_dir f out;
  free_name : ordinary c;
  free_empty r : f !! ((out ++ [c]) ++ r) = None;
}.

Lemma near_strictly f g out : under st out → near f0 st f → outside (strictly out) f g → near f0 st g.
Proof.
  intros Hu Hf Hout q Hq. rewrite Hout; [by apply Hf|]. intros (c & r & ->). apply Hq.
  destruct Hu as [r' ->%below_Some]. rewrite <-(assoc_L (++)). apply under_app.
Qed.

Lemma slot_free_mkdir f out c m xs :
  slot_free f out c → empty_out (<[out ++ [c] := NDir m xs]> f) (out ++ [c]).
Proof.
  intros [Hnear Hu Hpl Hc He]. set (g := <[out ++ [c] := NDir m xs]> f).
  assert (outside (under (out ++ [c])) f g) as Hout by by apply outside_insert; [apply under_self|].
  split_and!.
  - eapply near_strictly; [done..|]. eapply outside_weaken; [|done]. apply strictly_under.
  - destruct Hu as [r' ->%below_Some]. rewrite <-(assoc_L (++)). apply under_app.
  - apply plain_dir_snoc; [by eapply plain_dir_outside| |by destruct Hc as (_ & _ & ? & _)].
    unfold dir_at, g. by rewrite lookup_insert_eq.
  - intros x r. unfold g. rewrite lookup_insert_ne; [apply He|].
    intros Heq. apply (f_equal length) in Heq. rewrite !length_app in Heq. simpl in Heq. lia.
Qed.

(** The steps after the entries of a merged directory are written. *)
Lemma finish_dir f out c mode xs (b : bool) :
  plain_dir f out → ordinary c → f !! (out ++ [c]) = Some (NDir mode xs) →
  f !! ((out ++ [c]) ++ [OPAQUE_MARKER]) = None → ∀ mode',
  does (λ g, g = f)
    (run lift_err Io (set_permissions (out ++ [c]) mode');
     if b then mark_opaque (out ++ [c]) else ret ())%io
    (λ _ g, ∃ xs', g !! (out ++ [c]) = Some (NDir mode' xs') ∧
       (if b then ∃ n, g !! ((out ++ [c]) ++ [OPAQUE_MARKER]) = Some n ∧ whiteout_node n = true
        else g !! ((out ++ [c]) ++ [OPAQUE_MARKER]) = None ∧ xs' = xs) ∧
       outside (λ q, q = out ++ [c] ∨ q = (out ++ [c]) ++ [OPAQUE_MARKER]) f g).
Proof.
  intros Hpl (_ & _ & Hc & _) Hn Hm mode'.
  set (f1 := <[out ++ [c] := NDir mode' xs]> f).
  assert (∀ n g, plain_dir g out → plain_dir (<[out ++ [c] := n]> g) out) as Hins.
  { intros n g Hg. eapply plain_dir_outside; [|done]. by apply outside_insert; [apply under_self|]. }
  assert ((out ++ [c]) ++ [OPAQUE_MARKER] ≠ out ++ [c]) as Hne.
  { intros Heq. apply (f_equal length) in Heq. rewrite !length_app in Heq. simpl in Heq. lia. }
  eapply does_bind; [by apply does_lift_err, (does_chmod f out c Hpl Hc mode' mode xs)|]. intros []. fold f1.
  assert (f1 !! ((out ++ [c]) ++ [OPAQUE_MARKER]) = None) as Hm1.
  { unfold f1. by rewrite lookup_insert_ne by done. }
  destruct b.
  - assert (plain_dir f1 (out ++ [c])) as Hpl1.
    { apply plain_dir_snoc; [by apply Hins| |done]. unfold dir_at, f1. by rewrite lookup_insert_eq. }
    unfold mark_opaque. eapply does_bind; [by apply does_whiteout|]. intros [].
    intros w (n & Hw & Hfs). set (f2 := <[(out ++ [c]) ++ [OPAQUE_MARKER] := n]> f1) in *.
    assert (plain_dir f2 out) as Hpl2.
    { eapply (plain_dir_outside f1 _ _ c); [|by apply Hins]. apply outside_insert; [apply under_app|done]. }
    assert (f2 !! (out ++ [c]) = Some (NDir mode' xs)) as Hn2.
    { unfold f2, f1. rewrite lookup_insert_ne by done. by rewrite lookup_insert_eq. }
    pose proof (does_lift_err (λ _, Storage (FlattenOpaque (out ++ [c]))) _ _ _
      (does_lsetxattr f2 out c Hpl2 Hc USER_OVERLAY_OPAQUE_XATTR mode' xs Hn2) w Hfs) as Hx.
    destruct (lift_err _ _ w) as [[[]|] w']; [|done]. destruct Hx as [-> Hff]. split; [|done].
    eexists. split_and!; [by rewrite lookup_insert_eq| |].
    + exists n. split; [|done]. rewrite lookup_insert_ne by done. unfold f2. by rewrite lookup_insert_eq.
    + intros q Hq. rewrite lookup_insert_ne by naive_solver. unfold f2, f1.
      by rewrite !lookup_insert_ne by naive_solver.
  - apply does_ret. intros g ->. exists xs. split_and!; [by unfold f1; rewrite lookup_insert_eq|done|done|].
    intros q Hq. unfold f1. by rewrite lookup_insert_ne by naive_solver.
Qed.

(** A finished directory, in the place of an entry. *)
Lemma merged_dir_pure f out c mode xs (b : bool) :
  f !! (out ++ [c]) = Some (NDir mode xs) →
  (∀ x, is_Some (f !! ((out ++ [c]) ++ [x])) → ordinary x ∨ x = OPAQUE_MARKER ∧ b = true) →
  (∀ x, x ≠ OPAQUE_MARKER → entry_pure f ((out ++ [c]) ++ [x])) →
  (if b then (∃ n, f !! ((out ++ [c]) ++ [OPAQUE_MARKER]) = Some n ∧ whiteout_node n = true) ∧
     ∀ r, r ≠ [] → f !! (((out ++ [c]) ++ [OPAQUE_MARKER]) ++ r) = None
   else xs = ∅ ∧ ∀ r, f !! (((out ++ [c]) ++ [OPAQUE_MARKER]) ++ r) = None) →
  entry_pure f (out ++ [c]).
Proof.
  intros Hn Hnames Hent Hb. unfold entry_pure. rewrite Hn. apply out_dir_pure. split.
  - unfold dir_at. by rewrite Hn.
  - intros x Hx. destruct (Hnames x Hx) as [?|[-> ->]]; [by left|]. right. split; [done|].
    destruct Hb as [(n & -> & Hw) _]. intros t [= ->]. done.
  - intros x. destruct (decide (x = OPAQUE_MARKER)) as [->|Hx]; [|by apply Hent].
    unfold entry_pure. destruct b.
    + destruct Hb as [(n & Hm & Hw) Hbelow]. rewrite Hm.
      destruct n as [| | |r|]; try done. split_and!; [done| |done]. intros r' [= <-].
      by apply bool_decide_eq_true in Hw.
    + destruct Hb as [_ Hbelow]. pose proof (Hbelow []) as Hnone. rewrite app_nil_r in Hnone. by rewrite Hnone.
  - rewrite Hn. simpl. destruct b.
    + destruct Hb as [(n & -> & _) _]. by eexists.
    + destruct Hb as [-> _]. set_solver.
Qed.

Lemma members_head c pre d post m xs :
  Forall (λ d, slot_at f0 d c = Nothing) pre → slot_at f0 d c = Here (NDir m xs) →
  members f0 c (pre ++ d :: post) = (d ++ [c]) :: members f0 c post ∧
  ended f0 c (pre ++ d :: post) = ended f0 c post.
Proof.
  intros Hpre Hd. induction Hpre as [|d' pre Hd' _ IH]; simpl; [by rewrite Hd|]. by rewrite Hd'.
Qed.

Lemma merged_dir_ok f g out c mode xs b t layers lower L pre d post m xs0 :
  layers = pre ++ d :: post → Forall (λ d, slot_at f0 d c = Nothing) pre →
  slot_at f0 d c = Here (NDir m xs0) → L = cut f0 lower → t = ended f0 c layers → mode = Z.land m 0xfff →
  merged f (out ++ [c]) b (members f0 c layers) (if t then [] else members f0 c L) →
  g !! (out ++ [c]) = Some (NDir mode xs) →
  (if t || b then ∃ n, g !! ((out ++ [c]) ++ [OPAQUE_MARKER]) = Some n ∧ whiteout_node n = true
   else g !! ((out ++ [c]) ++ [OPAQUE_MARKER]) = None ∧ xs = ∅) →
  outside (λ q, q = out ++ [c] ∨ q = (out ++ [c]) ++ [OPAQUE_MARKER]) f g →
  child_ok f0 g out (layers ++ L) L c.
Proof.
  intros Hls Hpre Hd HL Ht Hmode (Hb & Hnames & Hent & Hseen) Hn Hmark Hout.
  assert (¬ ordinary OPAQUE_MARKER) as Hnord by by intros (_ & _ & _ & ?).
  assert (∀ x, x ≠ OPAQUE_MARKER → agree f g ((out ++ [c]) ++ [x])) as Hag.
  { intros x Hx r. symmetry. apply Hout. intros [Heq|Heq].
    - apply (f_equal length) in Heq. rewrite !length_app in Heq. simpl in Heq. lia.
    - rewrite <-!(assoc_L (++) (out ++ [c])) in Heq. apply (inj (app (out ++ [c]))) in Heq. by simplify_eq/=. }
  assert (f !! ((out ++ [c]) ++ [OPAQUE_MARKER]) = None) as Hfm.
  { apply eq_None_not_Some. intros Hs. by apply Hnames in Hs. }
  assert (∀ r, r ≠ [] → g !! (((out ++ [c]) ++ [OPAQUE_MARKER]) ++ r) = None) as Hbelow.
  { intros r Hr. rewrite Hout.
    - specialize (Hent OPAQUE_MARKER). unfold entry_pure in Hent. rewrite Hfm in Hent. apply Hent.
    - intros [Heq|Heq]; apply (f_equal length) in Heq; rewrite !length_app in Heq;
        destruct r; simpl in Heq; (done || lia). }
  assert (opaque g (out ++ [c]) = t || b) as Hop.
  { unfold opaque, present. destruct (t || b).
    - destruct Hmark as (n & -> & _). by rewrite bool_decide_true by (by eexists).
    - destruct Hmark as [-> _]. by rewrite bool_decide_false by by intros []. }
  destruct (members_head c pre d post m xs0 Hpre Hd) as [Hmem Hend]. rewrite <-Hls in Hmem, Hend.
  split_and!; [by rewrite Hn| |].
  - apply (merged_dir_pure g out c mode xs (t || b)); [done|..].
    + intros x Hx. destruct (decide (x = OPAQUE_MARKER)) as [->|Hxm].
      * right. split; [done|]. destruct (t || b); [done|]. destruct Hmark as [Hno _]. rewrite Hno in Hx. by destruct Hx.
      * left. apply Hnames. by rewrite (agree_node f g) by by apply Hag.
    + intros x Hx. eapply entry_pure_agree; [by apply Hag|done].
    + destruct (t || b); [done|]. destruct Hmark as [Hno ->]. split; [done|]. intros r.
      destruct (decide (r = [])) as [->|]; [by rewrite app_nil_r|by apply Hbelow].
  - intros cs Hcs. unfold child_seen. rewrite Hn, Hop. cbn [whiteout_node n_is_dir]. case_decide as Hc.
    + subst cs. rewrite Hls, <-(assoc_L (++)), overlay_skip by done. cbn. rewrite Hd. cbn. subst mode.
      rewrite <-Z.land_assoc. done.
    + rewrite <-(seen_marked f0 f g) by done.
      assert ((if t || b then [] else descend f0 c L) =
        if b then [] else cut f0 (if t then [] else members f0 c L)) as ->.
      { rewrite descend_members. by destruct t, b. }
      rewrite Hseen by done. rewrite overlay_split, decide_False by done.
      by rewrite descend_members, members_app, Ht.
Qed.

Section emit.
Context (fuel : nat) (merge : path → list path → list path → io LayerStackError bool).
Hypothesis Hmerge : merge_ok fuel merge.
Context (layers lower : list path).
Hypothesis Hlayers : Forall (handle f0 st) layers.
Hypothesis Hlower : Forall (handle f0 st) lower.
Hypothesis Hshallow : Forall (shallow (S fuel)) layers.

Lemma shallow_members c ds : Forall (shallow (S fuel)) ds → Forall (shallow fuel) (members f0 c ds).
Proof.
  induction 1 as [|d ds Hd _ IH]; [constructor|]. simpl. destruct (slot_at f0 d c) as [| |[]]; try done.
  constructor; [|done]. intros r Hr. rewrite <-(assoc_L (++)) in Hr. apply Hd in Hr. simpl in Hr. lia.
Qed.

Lemma emit_merged_dir_spec f out c pre d post m xs :
  slot_free f out c → layers = pre ++ d :: post →
  Forall (λ d, slot_at f0 d c = Nothing) pre → slot_at f0 d c = Here (NDir m xs) →
  does (λ g, g = f) (emit_merged_dir merge (out ++ [c]) layers lower c (length pre) (Z.land m 0xfff))
    (λ _ g, outside (under (out ++ [c])) f g ∧
            child_ok f0 g out (layers ++ cut f0 lower) (cut f0 lower) c).
Proof using Hmerge Hlayers Hlower Hshallow.
  intros Hfree Hls Hpre Hd. destruct Hfree as [Hnear Hu Hpl Hc He] eqn:Heq. clear Heq.
  assert (handle f0 st d ∧ Forall (handle f0 st) post) as [Hhd Hpost].
  { rewrite Hls in Hlayers. apply Forall_app in Hlayers as [_ Hl]. by apply Forall_cons in Hl. }
  destruct (members_head c pre d post m xs Hpre Hd) as [Hmem Hend]. rewrite <-Hls in Hmem, Hend.
  apply slot_here in Hd as Hdn. destruct Hdn as [Hdn _].
  unfold emit_merged_dir.
  apply does_bind_reads with (a := d ++ [c]).
  { rewrite Hls, app_nth2, Nat.sub_diag by lia. simpl. eapply open_dir_at_spec.
    by rewrite (near_agree f0 st f). }
  apply does_bind_reads with (a := (members f0 c post, ended f0 c post)).
  { rewrite Hls, drop_app_ge, Nat.sub_succ_l, Nat.sub_diag by lia. cbn [drop].
    rewrite gather_members_spec by by eapply near_sources.
    by rewrite (members_agree f f0), (ended_agree f f0) by by eapply near_agrees. }
  assert (f !! (out ++ [c]) = None) as Hnone.
  { pose proof (He []) as Hn. by rewrite app_nil_r in Hn. }
  assert (c ≠ dotdot) as Hdd by by destruct Hc as (_ & _ & ? & _).
  eapply does_bind; [by apply does_lift_err, does_mkdir|]. intros [].
  apply (slot_free_mkdir f out c 0x1ed ∅) in Hfree as Hempty. set (f1 := <[out ++ [c] := NDir 0x1ed ∅]> f) in *.
  set (t := ended f0 c post) in *. set (cl := if t then [] else members f0 c (cut f0 lower)).
  assert (Forall (handle f0 st) cl) as Hcl.
  { unfold cl. destruct t; [done|]. by apply members_handles, cut_handles. }
  eapply (does_bind _ _ _ (λ a g, a = cl ∧ g = f1)).
  { unfold cl. destruct t; [by apply does_ret|]. apply does_reads. intros ? ->. eexists. split; [|done].
    rewrite child_lower_dirs_spec by (eapply near_sources; [apply Hempty|done]).
    assert (near f0 st f1) as Hn1 by apply Hempty.
    rewrite (cut_agree f1 f0) by by eapply near_agrees.
    by rewrite (members_agree f1 f0) by by eapply near_agrees, cut_handles. }
  intros a w [-> Hw]. revert w Hw.
  change (does (λ g, g = f1) (bind (merge (out ++ [c]) ((d ++ [c]) :: members f0 c post) cl) (λ b,
    run lift_err Io (set_permissions (out ++ [c]) (Z.land m 0xfff));
    if t || b then mark_opaque (out ++ [c]) else ret ())%io)
    (λ _ g, outside (under (out ++ [c])) f g ∧
            child_ok f0 g out (layers ++ cut f0 lower) (cut f0 lower) c)).
  eapply does_bind; [apply Hmerge; [done| |done|done|]|].
  { rewrite <-Hmem. by apply members_handles. }
  { rewrite <-Hmem. by apply shallow_members. }
  intros b w [Hout1 Hmerged]. assert (outside (under (out ++ [c])) f (w_fs w)) as Hout2.
  { intros q Hq. rewrite Hout1; [|].
    - unfold f1. rewrite lookup_insert_ne; [done|]. intros <-. apply Hq, under_self.
    - intros (x & r & ->). apply Hq, under_app. }
  pose proof (finish_dir (w_fs w) out c 0x1ed ∅ (t || b)) as Hfin.
  specialize (Hfin (plain_dir_outside _ _ _ _ Hout2 Hpl) Hc). rewrite (strictly_node _ _ _ Hout1) in Hfin.
  unfold f1 in Hfin at 1. rewrite lookup_insert_eq in Hfin. specialize (Hfin eq_refl).
  assert (w_fs w !! ((out ++ [c]) ++ [OPAQUE_MARKER]) = None) as Hmk.
  { apply eq_None_not_Some. intros Hs. by apply Hmerged in Hs as (_ & _ & _ & ?). }
  specialize (Hfin Hmk (Z.land m 0xfff) w eq_refl). clear Hmk.
  cbv beta. match type of Hfin with match ?x with _ => _ end => destruct x as [[[]|] w'] end; [|done].
  destruct Hfin as [(xs' & Hn & Hmk & Hout3) Hff].
  split; [|done]. split.
  - eapply outside_trans; [done|]. eapply outside_weaken; [|done].
    intros q [-> | ->]; [apply under_self|apply under_app].
  - eapply (merged_dir_ok (w_fs w)); try done. by rewrite Hmem.
Qed.

(** What [collect_winners] says of a winner. *)
Definition winner_ok (c : bytes) (wn : Winner) : Prop :=
  if wn_whiteout wn then ∀ cs, overlay f0 (layers ++ cut f0 lower) (c :: cs) = None
  else ∃ pre d post n, layers = pre ++ d :: post ∧ wn_layer wn = length pre ∧
         Forall (λ d, slot_at f0 d c = Nothing) pre ∧ slot_at f0 d c = Here n.

Lemma emit_winner_spec f out c wn :
  slot_free f out c → winner_ok c wn →
  does (λ g, g = f) (emit_winner merge out layers lower c wn)
    (λ _ g, outside (under (out ++ [c])) f g ∧
            child_ok f0 g out (layers ++ cut f0 lower) (cut f0 lower) c).
Proof using Hmerge Hlayers Hlower Hshallow.
  intros Hfree Hwn. destruct Hfree as [Hnear Hu Hpl Hc He] eqn:Heq. clear Heq.
  assert (f !! (out ++ [c]) = None) as Hnone.
  { pose proof (He []) as Hn. by rewrite app_nil_r in Hn. }
  assert (c ≠ dotdot) as Hdd by by destruct Hc as (_ & _ & ? & _).
  assert (∀ n, outside (under (out ++ [c])) f (<[out ++ [c] := n]> f)) as Hins.
  { intros n. by apply outside_insert; [apply under_self|]. }
  unfold emit_winner, winner_ok in *. destruct (wn_whiteout wn).
  { eapply does_conseq; [by apply does_whiteout|done|]. intros ? g (n & Hw & ->).
    split; [done|]. by apply child_ok_whiteout. }
  destruct Hwn as (pre & d & post & n & Hls & -> & Hpre & Hd).
  assert (nth (length pre) layers [] = d) as -> by by rewrite Hls, app_nth2, Nat.sub_diag by lia.
  assert (handle f0 st d) as Hhd.
  { rewrite Hls in Hlayers. apply Forall_app in Hlayers as [_ Hl]. by apply Forall_cons in Hl as [? _]. }
  pose proof (pure_clean _ _ (proj2 (proj1 Hhd))) as Hcl.
  apply slot_here in Hd as Hdn. destruct Hdn as [Hdn Hw].
  assert (f !! (d ++ [c]) = Some n) as Hfn by by rewrite (near_agree f0 st f).
  assert (n_is_dir n = false → child_ok f0 (<[out ++ [c] := n]> f) out (layers ++ cut f0 lower) (cut f0 lower) c) as Hleaf.
  { intros Hnd. by eapply (child_ok_leaf f0 f out _ _ c d pre (post ++ cut f0 lower));
      [by rewrite Hls, <-(assoc_L (++))|..]. }
  apply does_bind_reads with (a := Some (entry_of n)).
  { rewrite classify_at_spec, Hfn; [done|]. eapply (pure_clean f), (layer_pure_agree f0); [|apply Hhd].
    intros r. symmetry. by apply (near_agree f0 st). }
  destruct (clean_special _ _ Hcl [c] _ Hdn) as [Ho Hr].
  unfold entry_of. rewrite Hw. destruct n as [data mode xs|t|m xs|r|].
  - eapply does_conseq; [by apply does_lift_err, (does_linkat f out c Hpl Hdd d c)|done|].
    intros ? g ->. split; [done|by apply Hleaf].
  - apply does_bind_reads with (a := t); [by rewrite Hfn|].
    eapply does_conseq; [by apply does_lift_err, does_symlink|done|].
    intros ? g ->. split; [done|by apply Hleaf].
  - by apply (emit_merged_dir_spec f out c pre d post m xs).
  - exfalso. by rewrite (Hr r eq_refl) in Hw.
  - done.
Qed.

Lemma emit_winners_spec out ws : ∀ f,
  near f0 st f → under st out → plain_dir f out → NoDup ws.*1 → Forall ordinary ws.*1 →
  (∀ c, c ∈ ws.*1 → ∀ r, f !! ((out ++ [c]) ++ r) = None) →
  Forall (λ cw, winner_ok cw.1 cw.2) ws →
  does (λ g, g = f) (emit_winners merge out layers lower ws)
    (λ _ g, outside (λ q, ∃ c, c ∈ ws.*1 ∧ under (out ++ [c]) q) f g ∧
            ∀ c, c ∈ ws.*1 → child_ok f0 g out (layers ++ cut f0 lower) (cut f0 lower) c).
Proof using Hmerge Hlayers Hlower Hshallow.
  induction ws as [|[c wn] ws IH]; intros f Hnear Hu Hpl Hnd Hord Hfree Hok.
  { apply does_ret. intros ? ->. split; [done|]. set_solver. }
  csimpl in *. apply NoDup_cons in Hnd as [Hnin Hnd]. apply Forall_cons in Hord as [Hc Hord].
  apply Forall_cons in Hok as [Hwn Hok]. eapply does_bind.
  { apply emit_winner_spec; [|done]. split; try done. apply Hfree. by left. }
  intros [] w [Hout Hchild].
  assert (∀ c', c' ∈ ws.*1 → agree f (w_fs w) (out ++ [c'])) as Hag.
  { intros c' Hc' r. symmetry. apply Hout. apply under_apart. congruence. }
  assert (does (λ g, g = w_fs w) (emit_winners merge out layers lower ws)
    (λ _ g, outside (λ q, ∃ c, c ∈ ws.*1 ∧ under (out ++ [c]) q) (w_fs w) g ∧
            ∀ c, c ∈ ws.*1 → child_ok f0 g out (layers ++ cut f0 lower) (cut f0 lower) c)) as Hrest.
  { apply IH; try done.
    - eapply near_strictly; [done..|]. eapply outside_weaken; [|done]. apply strictly_under.
    - by eapply plain_dir_outside.
    - intros c' Hc' r. rewrite <-Hag by done. apply Hfree. by right. }
  specialize (Hrest w eq_refl). destruct (emit_winners merge out layers lower ws w) as [[[]|] w']; [|done].
  destruct Hrest as [[Hout' Hch] Hff]. split; [|done]. split.
  - intros q Hq. rewrite Hout', Hout; [done|..]; intros Hq'; apply Hq.
    + exists c. split; [by left|done].
    + destruct Hq' as (c' & ? & ?). exists c'. split; [by right|done].
  - intros c' [->|Hc']%elem_of_cons; [|by apply Hch]. eapply child_ok_agree; [|done].
    intros r. symmetry. apply Hout'. intros (c'' & Hc'' & Hun).
    by apply (under_apart out c'' c) in Hun; [|congruence].
Qed.
End emit.
End recursion.

Section whole.
Context (f0 : fs) (st : path).

Lemma handle_dir d : handle f0 st d → is_Some (f0 !! d).
Proof. intros [[Hd _] _]. unfold dir_at in Hd. by destruct (f0 !! d). Qed.

Lemma cut_subset ds : cut f0 ds ⊆ ds.
Proof. induction ds as [|d ds IH]; [done|]. simpl. destruct (opaque f0 d); set_solver. Qed.

(** The winners a merge collects, read in the layers as they were. *)
Lemma collect_winners_near f layers lower :
  near f0 st f → Forall (handle f0 st) layers → Forall (handle f0 st) lower →
  ∃ ws, collect_winners f layers lower = Ok ws ∧ NoDup ws.*1 ∧ Forall ordinary ws.*1 ∧
    Forall (λ cw, winner_ok f0 layers lower cw.1 cw.2) ws ∧
    ∀ c cs, ordinary c → c ∉ ws.*1 →
      overlay f0 (layers ++ cut f0 lower) (c :: cs) = overlay f0 (cut f0 lower) (c :: cs).
Proof.
  intros Hf Hls Hlo.
  destruct (collect_winners_spec f lower (near_sources f0 st f lower Hf Hlo) layers) as (ws & Hrun & Hs & Ho & Hl);
    [by eapply near_sources|].
  exists ws. assert (cut f lower = cut f0 lower) as Hcut by by apply cut_agree; eapply near_agrees.
  assert (Forall (agree f f0) (cut f0 lower)) as Hag2 by by eapply near_agrees, cut_handles.
  assert (Forall (agree f f0) (layers ++ cut f0 lower)) as Hag.
  { apply Forall_app. split; [by eapply near_agrees|done]. }
  assert (∀ c, c ∈ ws.*1 → ordinary c) as Hord by by apply Forall_forall.
  split_and!; [done|by apply bt_sorted_NoDup|done| |].
  - apply Forall_forall. intros [c wn] Hin. cbn [fst snd].
    assert (ordinary c) as Hc by (apply Hord; by apply (list_elem_of_fmap_2 fst) in Hin).
    pose proof (winner_of_cases f lower layers c) as Hw. cbv zeta in Hw. rewrite <-Hl in Hw by done.
    assert (bt_lookup c ws = Some wn) as Hlk by by apply (bt_lookup_elem ws c wn Hs).
    rewrite Hlk in Hw. destruct wn as [k []]; unfold winner_ok; cbn [wn_whiteout wn_layer].
    + intros cs. specialize (Hw cs). rewrite Hcut in Hw. rewrite <-(overlay_agree f f0); done.
    + destruct Hw as (pre & d & post & n & -> & -> & Hpre & Hd). apply Forall_app in Hag as [Hag _].
      apply Forall_app in Hag as [Ha1 [Ha2 _]%Forall_cons]. exists pre, d, post, n. split_and!; [done..| |].
      * rewrite Forall_forall in *. intros x Hx. rewrite <-(slot_at_agree f f0); auto.
      * by rewrite <-(slot_at_agree f f0).
  - intros c cs Hc Hn. apply bt_lookup_None in Hn. pose proof (winner_of_cases f lower layers c) as Hw. cbv zeta in Hw.
    rewrite <-Hl, Hn in Hw by done. specialize (Hw cs). rewrite Hcut in Hw.
    by rewrite <-!(overlay_agree f f0).
Qed.

(** An output directory with every winner written. *)
Lemma winners_merged f g out (ws : list (bytes * Winner)) layers lower :
  empty_out f0 st f out → Forall ordinary ws.*1 →
  outside (λ q, ∃ c, c ∈ ws.*1 ∧ under (out ++ [c]) q) f g →
  (∀ c, c ∈ ws.*1 → child_ok f0 g out (layers ++ cut f0 lower) (cut f0 lower) c) →
  (∀ c cs, ordinary c → c ∉ ws.*1 →
     overlay f0 (layers ++ cut f0 lower) (c :: cs) = overlay f0 (cut f0 lower) (c :: cs)) →
  (∀ c, is_Some (g !! (out ++ [c])) → ordinary c) ∧ (∀ c, entry_pure g (out ++ [c])) ∧
  ∀ cs, cs ≠ [] → Forall ordinary cs →
    strip <$> seen f0 g out (cut f0 lower) cs = strip <$> overlay f0 (layers ++ cut f0 lower) cs.
Proof.
  intros (_ & _ & _ & Hempty) Hord Hout Hch Hrest. rewrite Forall_forall in Hord.
  assert (∀ c r, c ∉ ws.*1 → g !! ((out ++ [c]) ++ r) = None) as Hnone.
  { intros c r Hc. rewrite Hout; [rewrite <-(assoc_L (++)); apply Hempty|].
    intros (c' & Hc' & Hu). by apply (under_apart out c' c) in Hu; [|congruence]. }
  assert (∀ c, is_Some (g !! (out ++ [c])) → c ∈ ws.*1) as Hin.
  { intros c Hs. apply dec_stable. intros Hc. specialize (Hnone c [] Hc). rewrite app_nil_r in Hnone.
    rewrite Hnone in Hs. by destruct Hs. }
  split_and!; [by auto|..].
  - intros c. destruct (decide (c ∈ ws.*1)) as [Hc|Hc]; [by apply Hch|].
    unfold entry_pure. pose proof (Hnone c [] Hc) as Hn. rewrite app_nil_r in Hn. rewrite Hn. auto.
  - intros [|c cs] Hne Hcs; [done|]. apply Forall_cons in Hcs as [Hc Hcs]. rewrite seen_cons.
    + destruct (decide (c ∈ ws.*1)) as [Hcw|Hcw]; [by apply Hch|].
      unfold child_seen. pose proof (Hnone c [] Hcw) as Hn. rewrite app_nil_r in Hn. rewrite Hn.
      by rewrite Hrest.
    + apply bool_decide_eq_false. intros Hs%Hin%Hord. by eapply ordinary_not_prefixed.
Qed.

Lemma merge_dirs_spec fuel : merge_ok f0 st fuel (merge_dirs fuel).
Proof.
  induction fuel as [|fuel IH]; intros out layers lower f Hempty Hls Hlo Hne Hsh.
  { destruct layers as [|d layers]; [done|]. apply Forall_cons in Hls as [Hd _].
    apply Forall_cons in Hsh as [Hsh _]. apply handle_dir in Hd. specialize (Hsh []).
    rewrite app_nil_r in Hsh. apply Hsh in Hd. simpl in Hd. lia. }
  destruct Hempty as (Hnear & Hu & Hpl & He) eqn:Heq. clear Heq. cbn [merge_dirs].
  destruct (opaque_cut_from_spec f layers 0) as (r & Hrun & Hr); [by eapply near_sources|].
  apply does_bind_reads with (a := r); [done|]. cbv zeta.
  set (b := existsb (opaque f0) layers).
  assert (existsb (opaque f) layers = b) as Hb by by apply existsb_opaque_agree; eapply near_agrees.
  assert (cut f layers = cut f0 layers) as Hcut by by apply cut_agree; eapply near_agrees.
  assert (bool_decide (is_Some r) = b) as ->.
  { destruct r; [destruct Hr as (j & _ & _ & Hr)|]; rewrite Hb in Hr; rewrite Hr; done. }
  assert ((match r with Some index => take (S index) layers | None => layers end) = cut f0 layers) as ->.
  { destruct r as [k|]; [destruct Hr as (j & -> & Ht & _)|]; rewrite <-Hcut; [done|by rewrite cut_id]. }
  set (lower' := match r with Some _ => [] | None => lower end).
  assert (cut f0 lower' = if b then [] else cut f0 lower) as Hlo'.
  { unfold lower'. destruct r; [destruct Hr as (j & _ & _ & Hr)|]; rewrite Hb in Hr; by rewrite Hr. }
  assert (Forall (handle f0 st) lower') as Hlh by (unfold lower'; by destruct r).
  apply cut_handles in Hls as Hlc.
  destruct (collect_winners_near f (cut f0 layers) lower' Hnear Hlc Hlh) as (ws & Hws & Hnd & Ho & Hok & Hrest).
  apply does_bind_reads with (a := ws); [done|].
  eapply does_bind; [apply (emit_winners_spec f0 st fuel _ IH _ _ Hlc Hlh); try done|].
  { apply Forall_forall. intros d Hd%cut_subset. by eapply Forall_forall in Hsh. }
  { intros c _ r'. rewrite <-(assoc_L (++)). apply He. }
  intros []. apply does_ret. intros g [Hout Hch]. split.
  { eapply outside_weaken; [|done]. intros q (c & _ & Hq). by eapply strictly_under. }
  unfold merged. rewrite cut_app. fold b. rewrite <-Hlo'. split; [done|]. by eapply winners_merged.
Qed.
End whole.

(** ** A whole block *)

Lemma open_dirs_spec f ds :
  Forall (plain_dir f) ds → does (λ g, g = f) (open_dirs ds) (λ a g, a = ds ∧ g = f).
Proof.
  induction 1 as [|d ds Hd _ IH]; [by apply does_ret; intros ? ->|]. cbn [open_dirs].
  apply does_bind_reads with (a := d).
  { unfold open_dir_abs, resolve. rewrite <-(app_nil_r d) at 1. rewrite walk_plain by done. cbn.
    apply plain_dir_at in Hd. unfold dir_at, node_at in *. by destruct (f !! d) as [[]|]. }
  eapply does_bind_const; [done|]. apply does_ret. by intros ? ->.
Qed.

(** A block that can be flattened: two layers at least, all of them pure and
    with no opaque root, and an empty output directory apart from them. *)
Record block_ok (f : fs) (staging : path) (sources lower : list path) : Prop := {
  block_two : 2 ≤ length sources;
  block_out : plain_dir f staging;
  block_plain : ¬ has_opaque_xattr (f !! staging);
  block_empty c r : f !! (staging ++ c :: r) = None;
  block_layers : Forall (λ d, plain_dir f d ∧ layer_pure f d ∧ opaque f d = false ∧
                              ∀ r, ¬ under staging (d ++ r)) (sources ++ lower);
}.

Lemma block_handles f staging ds :
  Forall (λ d, plain_dir f d ∧ layer_pure f d ∧ opaque f d = false ∧ ∀ r, ¬ under staging (d ++ r)) ds →
  Forall (handle f staging) ds ∧ Forall (plain_dir f) ds ∧ existsb (opaque f) ds = false.
Proof.
  induction 1 as [|d ds (Hp & Hl & Ho & Ha) _ (IH1 & IH2 & IH3)]; [done|]. simpl. rewrite Ho, IH3.
  split_and!; [|by constructor|done]. constructor; [|done]. split; [|done]. split; [by apply plain_dir_at|done].
Qed.

Lemma depth_shallow f d : shallow f (S (depth_bound f)) d.
Proof. intros r [n Hn]. apply depth_bound_spec in Hn. rewrite length_app in Hn. lia. Qed.

(** What a flattened block is. *)
Definition block_flat (f : fs) (staging : path) (sources lower : list path) (g : fs) : Prop :=
  outside (strictly staging) f g ∧ layer_pure g staging ∧ opaque g staging = false ∧
  ∀ cs, cs ≠ [] → Forall ordinary cs →
    strip <$> overlay g (staging :: lower) cs = strip <$> overlay f (sources ++ lower) cs.

Lemma flatten_spec f staging sources lower :
  block_ok f staging sources lower →
  does (λ g, g = f) (flatten_block_into_with_lower staging sources lower)
    (λ _ g, block_flat f staging sources lower g).
Proof.
  intros [Htwo Hpl Hx He Hall]. apply block_handles in Hall as (Hh & Hp & Ho).
  apply Forall_app in Hh as [Hh1 Hh2]. apply Forall_app in Hp as [Hp1 Hp2].
  rewrite existsb_app in Ho. apply orb_false_iff in Ho as [Ho1 Ho2].
  unfold flatten_block_into_with_lower. rewrite decide_False by lia.
  eapply does_bind_const; [by apply open_dirs_spec|]. eapply does_bind_const; [by apply open_dirs_spec|].
  eapply does_bind; [by apply does_lift_err, does_create_dir_all|]. intros [].
  apply does_bind_reads with (a := depth_bound f); [done|].
  eapply does_bind.
  { apply (merge_dirs_spec f staging); try done.
    - split_and!; [done|apply under_self|done|done].
    - intros ->. simpl in Htwo. lia.
    - apply Forall_true. intros. apply depth_shallow. }
  intros b w [Hout (-> & Hnames & Hent & Hseen)]. rewrite Ho1. rewrite Ho1 in Hseen. cbn.
  set (g := w_fs w) in *. split; [|done].
  assert (g !! (staging ++ [OPAQUE_MARKER]) = None) as Hm.
  { apply eq_None_not_Some. intros Hs%Hnames. by apply ordinary_not_opaque in Hs. }
  split_and!; [done|..].
  - apply out_dir_pure. split; [|by auto|done|].
    + unfold dir_at. rewrite (strictly_node f g) by done. by apply plain_dir_at in Hpl.
    + by rewrite (strictly_node f g).
  - unfold opaque, present. rewrite Hm. by rewrite bool_decide_false by by intros [].
  - intros cs Hne Hcs. rewrite overlay_cons by done.
    assert (overlay g lower cs = overlay f (cut f lower) cs) as ->.
    { rewrite cut_id by done. apply overlay_agree. eapply near_agrees; [|done].
      eapply near_strictly; [apply under_self| |done]. done. }
    rewrite (cut_id f (sources ++ lower)) in Hseen by (by rewrite existsb_app, Ho1, Ho2). by apply Hseen.
Qed.

(** ** Properties *)

(** C25: a flattened block reads like the block.  For pure layers and an empty
    output directory apart from them, the code fails only on an injected fault;
    when it succeeds nothing outside the output has changed, the output is a pure
    layer itself, and looking up any path in it over the layers below gives what
    the block over these layers gave, up to the attributes of directories. *)
Theorem flatten_reads_like_block f staging sources lower w :
  block_ok f staging sources lower → w_fs w = f →
  match flatten_block_into_with_lower staging sources lower w with
  | (Ok _, w') => block_flat f staging sources lower (w_fs w')
  | (Err _, _) => w_faults w ≠ []
  end.
Proof.
  intros Hb Hw. pose proof (flatten_spec f staging sources lower Hb w Hw) as Hd.
  destruct (flatten_block_into_with_lower staging sources lower w) as [[[]|e] w']; [by destruct Hd|done].
Qed.

(** Flattening terminates with a result: when no call fails, the recursion
    over directories ends within the nesting depth of the file system, and the
    block is written. *)
Theorem flatten_terminates f staging sources lower w :
  block_ok f staging sources lower → w_fs w = f → w_faults w = [] →
  ∃ w', flatten_block_into_with_lower staging sources lower w = (Ok (), w') ∧ w_faults w' = [].
Proof.
  intros Hb Hw Hf. pose proof (flatten_spec f staging sources lower Hb w Hw) as Hd.
  destruct (flatten_block_into_with_lower staging sources lower w) as [[[]|e] w']; [|done].
  destruct Hd as [_ Hd]. eauto.
Qed.

(** Two layers, the upper one hiding [b], over a third that has [b]. *)
Definition flat_fs : fs :=
  {[ [] := NDir 0 ∅; [lit "o"] := NDir 0 ∅; [lit "u"] := NDir 0 ∅; [lit "v"] := NDir 0 ∅; [lit "l"] := NDir 0 ∅;
     [lit "u"; lit "b"] := NChar 0; [lit "u"; lit "a"] := NDir 0 ∅; [lit "u"; lit "a"; lit "y"] := NFile (lit "new") 0 ∅;
     [lit "v"; lit "a"] := NDir 0 ∅; [lit "v"; lit "a"; lit "x"] := NFile (lit "old") 0 ∅;
     [lit "l"; lit "b"] := NFile (lit "base") 0 ∅ ]}.
Definition flat_world : world := mkWorld flat_fs 0 [].

Lemma flat_block_ok : block_ok flat_fs [lit "o"] [[lit "u"]; [lit "v"]] [[lit "l"]].
Proof.
  split.
  - simpl. lia.
  - apply plain_check_dir. vm_compute. reflexivity.
  - assert (flat_fs !! [lit "o"] = Some (NDir 0 ∅)) as -> by (vm_compute; reflexivity). simpl. set_solver.
  - intros c r. destruct (flat_fs !! ([lit "o"] ++ c :: r)) eqn:Hn; [|done]. exfalso.
    assert (forallb (λ qn, match qn.1 with x :: _ :: _ => negb (bool_decide (x = lit "o")) | _ => true end)
      (map_to_list flat_fs) = true) as Hall by (vm_compute; reflexivity).
    rewrite forallb_forall in Hall. apply elem_of_map_to_list, list_elem_of_In, Hall in Hn.
    cbn [fst app] in Hn. by rewrite bool_decide_true in Hn.
  - assert (fs_pure [] flat_fs = true) as Hp by (vm_compute; reflexivity).
    repeat (apply Forall_cons_2; [split_and!; [apply plain_check_dir; vm_compute; reflexivity|by apply (fs_pure_layers [])|
      vm_compute; reflexivity|by intros r [r' Hr%below_Some]]|]). constructor.
Qed.

Lemma flatten_reads_like_block_witness :
  (flatten_block_into_with_lower [lit "o"] [[lit "u"]; [lit "v"]] [[lit "l"]] flat_world).1 = Ok () ∧
  strip <$> overlay (w_fs (flatten_block_into_with_lower [lit "o"] [[lit "u"]; [lit "v"]] [[lit "l"]] flat_world).2)
    [[lit "o"]; [lit "l"]] [lit "b"] = None.
Proof.
  pose proof (flatten_reads_like_block flat_fs [lit "o"] [[lit "u"]; [lit "v"]] [[lit "l"]] flat_world
    flat_block_ok eq_refl) as Hflat.
  destruct (flatten_block_into_with_lower _ _ _ _) as [[[]|e] w']; [|done]. split; [done|].
  destruct Hflat as (_ & _ & _ & Hv). cbn [snd]. rewrite Hv; [vm_compute; reflexivity|done|].
  repeat constructor; done.
Defined.

Lemma flatten_terminates_witness :
  ∃ w', flatten_block_into_with_lower [lit "o"] [[lit "u"]; [lit "v"]] [[lit "l"]] flat_world = (Ok (), w').
Proof.
  destruct (flatten_terminates flat_fs [lit "o"] [[lit "u"]; [lit "v"]] [[lit "l"]] flat_world
    flat_block_ok eq_refl eq_refl) as (w' & Hw & _). by exists w'.
Defined.
