(* ===== verification/Lease.v ===== *)
(** * Leases, layer removal and lease rewriting: [stack/lease/]

    A lease pins the layers of a manifest.  Releasing one removes the layers
    that neither the active manifest nor another lease references; the boot
    sweep removes what the active manifest does not reference.  The theorems
    show that no referenced layer is touched, whichever removals fail, and that
    rewriting a lease contracts its chain to an equivalent one. *)

From S2P Require Import Prelude ByteStr Model FS Storage World StorageOps.

(** ** [lease/registry.rs] *)

(** [struct LeaseRegistry]: the leases by id. *)
Abbreviation LeaseRegistry := (bytes_map Manifest).

(** [struct LayerStackLeaseRecord] *)
Record LeaseRecord := mkLease { lease_id : bytes; lease_manifest : Manifest }.

(** [format!("{nanos:032x}{:016x}", next_unique())] *)
Definition new_lease_id (nanos unique : N) : bytes :=
  pad 32 (fmt_num 16 nanos) ++ pad 16 (fmt_num 16 unique).

Definition acquire (nanos : N) (leases : LeaseRegistry) (m : Manifest) (owner : bytes)
    : io LayerStackError (LeaseRecord * LeaseRegistry) :=
  if decide (owner = []) then fail (InvalidLeaseOwner (lit "owner_request_id must not be empty"))
  else
    (do n := next_unique in
     let id := new_lease_id nanos n in
     ret (mkLease id m, <[id := m]> leases))%io.

Definition release (leases : LeaseRegistry) (id : bytes) : option LeaseRecord * LeaseRegistry :=
  (mkLease id <$> leases !! id, delete id leases).

(** The order of [LayerRef]. *)
Definition ref_le (l1 l2 : LayerRef) : Prop :=
  bytes_lt (layer_id l1) (layer_id l2) ∨
  (layer_id l1 = layer_id l2 ∧ bytes_le (lr_path l1) (lr_path l2)).
#[global] Instance ref_le_dec l1 l2 : Decision (ref_le l1 l2) :=
  decide (bytes_lt (layer_id l1) (layer_id l2) ∨
          (layer_id l1 = layer_id l2 ∧ bytes_le (lr_path l1) (lr_path l2))).

Definition leased_layers (leases : LeaseRegistry) : list LayerRef :=
  merge_sort ref_le (remove_dups ((map_to_list leases).*2 ≫= layers)).

Definition active_count (leases : LeaseRegistry) : nat := size leases.

Definition lease_newest_layers (leases : LeaseRegistry) : list LayerRef :=
  omap (λ m, head (layers m)) (map_to_list leases).*2.

(** ** [lease/cleanup.rs] *)

Definition BASE_LAYER_PREFIX : byte := Byte.x42.

Definition unreferenced_layers (candidates : list LayerRef) (active : Manifest)
    (leases : LeaseRegistry) : list LayerRef :=
  filter (λ l, l ∉ layers active ∧ l ∉ leased_layers leases) candidates.

Definition remove_metadata_file (p : path) : io LayerStackError () :=
  (do r := attempt (remove_file p) in
   match r with Ok _ => ret () | Err ENOENT => ret () | Err e => fail (Io e) end)%io.

Definition remove_layer (storage_root : path) (l : LayerRef) : io LayerStackError () :=
  (run reads (λ _, validate_layer_ref l);
   run remove_path (storage_root ++ path_comps (lr_path l));
   run remove_metadata_file (layer_digest_path storage_root (layer_id l));
   remove_metadata_file (layer_bytes_path storage_root (layer_id l)))%io.

Fixpoint remove_layers (storage_root : path) (ls : list LayerRef) : io LayerStackError () :=
  match ls with
  | [] => ret ()
  | l :: ls => (run remove_layer storage_root l; remove_layers storage_root ls)%io
  end.

(** The release of a lease, whose read of the active manifest answers [answer].
    The registry changes before anything can fail. *)
Definition release_reading (answer : fs → result Manifest LayerStackError) (storage_root : path)
    (leases : LeaseRegistry) (id : bytes) : LeaseRegistry * io LayerStackError (option (list LayerRef)) :=
  let '(lease, leases) := release leases id in
  (leases,
   match lease with
   | None => ret None
   | Some lease =>
       (do active := reads answer in
        let removable := unreferenced_layers (layers (lease_manifest lease)) active leases in
        run remove_layers storage_root removable;
        ret (Some removable))%io
   end).

Definition release_lease_locked `{ManifestCodec} (storage_root : path) (leases : LeaseRegistry)
    (id : bytes) : LeaseRegistry * io LayerStackError (option (list LayerRef)) :=
  release_reading (λ f, read_manifest f (storage_root ++ [ACTIVE_MANIFEST_FILE])) storage_root leases id.

(** The reasons of a skipped sweep. *)
Inductive skip_reason := ManifestMissing | ManifestUnreadable (e : LayerStackError) | ManifestDegenerate.

Record SweepReport := mkSweep {
  removed_layer_ids : list bytes;
  removed_staging_entries : nat;
  skipped_reason : option skip_reason;
}.

Definition skipped (reason : skip_reason) : SweepReport := mkSweep [] 0 (Some reason).

Definition list_names (f : fs) (dir : path) : result (list bytes) LayerStackError :=
  match read_dir f dir with
  | Ok ns => Ok (to_string_lossy <$> ns)
  | Err ENOENT => Ok []
  | Err e => Err (Io e)
  end.

Definition strip_suffix (suffix s : bytes) : option bytes :=
  reverse <$> strip_prefix (reverse suffix) (reverse s).

(** The layer id of a metadata file. *)
Definition sidecar_id (name : bytes) : option bytes :=
  match strip_suffix (lit ".digest") name with
  | Some id => Some id
  | None => strip_suffix (lit ".bytes") name
  end.

(** [BTreeSet<String>]: sorted, without duplicates. *)
Definition btree_set (ns : list bytes) : list bytes :=
  (foldl (λ m k, bt_insert k tt m) [] ns).*1.

Definition sweep_removable (m : Manifest) (candidate_ids : list bytes) : list LayerRef :=
  (λ id, mkLayerRef id (LAYERS_DIR ++ [slash] ++ id)) <$>
  filter (λ id, id ∉ (layer_id <$> layers m) ∧ head id ≠ Some BASE_LAYER_PREFIX) candidate_ids.

Fixpoint remove_entries (dir : path) (ns : list bytes) : io LayerStackError () :=
  match ns with
  | [] => ret ()
  | n :: ns => (run remove_path (dir ++ [n]); remove_entries dir ns)%io
  end.

Definition sweep_storage_locked `{ManifestCodec} (storage_root : path)
    : io LayerStackError SweepReport :=
  (let manifest_path := storage_root ++ [ACTIVE_MANIFEST_FILE] in
   do present := reads (λ f, Ok (exists_ f manifest_path)) in
   if negb present then ret (skipped ManifestMissing)
   else
     do r := attempt (F := LayerStackError) (reads (λ f, read_manifest f manifest_path)) in
     match r with
     | Err e => ret (skipped (ManifestUnreadable e))
     | Ok m =>
         if bool_decide (version m < 1)%Z || bool_decide (layers m = []) then
           ret (skipped ManifestDegenerate)
         else
           do layer_names := reads (λ f, list_names f (storage_root ++ [LAYERS_DIR])) in
           do sidecars := reads (λ f, list_names f (storage_root ++ [LAYER_METADATA_DIR])) in
           let removable :=
             sweep_removable m (btree_set (layer_names ++ omap sidecar_id sidecars)) in
           run remove_layers storage_root removable;
           let staging := storage_root ++ [STAGING_DIR] in
           do staging_is_dir := reads (λ f, Ok (is_dir f staging)) in
           do entries := (if staging_is_dir : bool then lift_err Io (reads (λ f, read_dir f staging))
                          else ret []) in
           run remove_entries staging entries;
           ret (mkSweep (layer_id <$> removable) (length entries) None)
     end)%io.

(** ** [lease/rewrite.rs] *)

(** [struct SubstitutionRecord] *)
Record SubstitutionRecord := mkSubst { s_layer : LayerRef; raw_run : list LayerRef }.

Fixpoint is_prefix (needle haystack : list LayerRef) : bool :=
  match needle, haystack with
  | [], _ => true
  | x :: needle, y :: haystack => bool_decide (x = y) && is_prefix needle haystack
  | _ :: _, [] => false
  end.

(** [haystack.windows(n).position(|window| window == needle)] *)
Fixpoint position_from (i : nat) (needle haystack : list LayerRef) : option nat :=
  if is_prefix needle haystack then Some i
  else match haystack with [] => None | _ :: haystack => position_from (S i) needle haystack end.

Definition find_run (haystack needle : list LayerRef) : option nat :=
  if decide (needle = [] ∨ length haystack < length needle) then None
  else position_from 0 needle haystack.

Definition contract_step (current : list LayerRef) (r : SubstitutionRecord) : list LayerRef :=
  if decide (raw_run r = []) then current
  else match find_run current (raw_run r) with
       | Some start =>
           take start current ++ [s_layer r] ++ drop (start + length (raw_run r)) current
       | None => current
       end.

Definition contract_layers (ls : list LayerRef) (records : list SubstitutionRecord)
    : list LayerRef :=
  foldl contract_step ls records.

(** [struct Lease], [enum RewrittenLease] *)
Record Lease := mkStackLease { sl_id : bytes; sl_manifest : Manifest; sl_paths : list path }.
Inductive RewrittenLease := Identity | Replaced (l : Lease).

Definition record_substitution (records : list SubstitutionRecord) (s : LayerRef)
    (raw : list LayerRef) : list SubstitutionRecord :=
  records ++ [mkSubst s raw].

Definition acquire_rewritten_lease (nanos : N) (storage_root : path) (leases : LeaseRegistry)
    (records : list SubstitutionRecord) (m : Manifest) (owner : bytes)
    : io LayerStackError (RewrittenLease * LeaseRegistry) :=
  (let rewritten := contract_layers (layers m) records in
   if decide (rewritten = layers m) then ret (Identity, leases)
   else
     do alive := reads (λ f, Ok (forallb (λ l, is_dir f (resolve_layer_path storage_root (lr_path l)))
                                   rewritten)) in
     if negb alive then ret (Identity, leases)
     else
       do m' := lift_err Cas (reads (λ _, manifest_new (version m) rewritten (schema_version m))) in
       do r := acquire nanos leases m' owner in
       ret (Replaced (mkStackLease (lease_id r.1) m'
                        ((λ l, resolve_layer_path storage_root (lr_path l)) <$> layers m')), r.2))%io.

(** ** Layer directories *)

(** A directory entry's name. *)
Definition name_ok (c : bytes) : Prop :=
  c ≠ [] ∧ c ≠ dot ∧ c ≠ dotdot ∧ slash ∉ c ∧ nul ∉ c.

(** A reference as the code creates them: the directory [layers/<id>]. *)
Definition canonical_ref (l : LayerRef) : Prop :=
  lr_path l = LAYERS_DIR ++ [slash] ++ layer_id l ∧ name_ok (layer_id l).

Lemma canonical_ref_eq l l' :
  canonical_ref l → canonical_ref l' → layer_id l = layer_id l' → l = l'.
Proof. destruct l, l'. intros [H1 _] [H2 _] Hid. simpl in *. congruence. Qed.

Lemma layers_name_ok : name_ok LAYERS_DIR.
Proof. repeat split; try done; by apply (bool_decide_unpack _); vm_compute. Qed.

Lemma canonical_comps l :
  canonical_ref l → path_comps (lr_path l) = [LAYERS_DIR; layer_id l].
Proof.
  intros [-> Hid]. unfold path_comps.
  change (LAYERS_DIR ++ [slash] ++ layer_id l) with (LAYERS_DIR ++ slash :: layer_id l).
  rewrite split_on_app by apply layers_name_ok. rewrite split_on_one by apply Hid. apply Forall_filter_id.
  repeat constructor; try done; apply Hid.
Qed.

(** The paths the removal of a layer may touch. *)
Definition layer_region (root : path) (l : LayerRef) (q : path) : Prop :=
  under (layer_path root (layer_id l)) q ∨
  q = layer_digest_path root (layer_id l) ∨ q = layer_bytes_path root (layer_id l).

Definition layers_region (root : path) (ls : list LayerRef) (q : path) : Prop :=
  ∃ l, l ∈ ls ∧ layer_region root l q.

(** The storage root as the layer code needs it: a plain directory with a plain
    [layers] directory, and [.layer-metadata] and [staging] not links. *)
Record root_ok (f : fs) (root : path) : Prop := {
  root_plain : plain_dir f root;
  root_layers : plain_dir f (root ++ [LAYERS_DIR]);
  root_metadata t : f !! (root ++ [LAYER_METADATA_DIR]) ≠ Some (NSymlink t);
  root_staging t : f !! (root ++ [STAGING_DIR]) ≠ Some (NSymlink t);
}.

(** It stays so under changes that spare the root and its entries. *)
Lemma root_ok_agree f0 f root :
  (∀ q, length q ≤ S (length root) → f !! q = f0 !! q) → root_ok f0 root → root_ok f root.
Proof.
  intros Heq [[Hdd Hr] Hrl Hmd Hst].
  assert (∀ c, f !! (root ++ [c]) = f0 !! (root ++ [c])) as Hc.
  { intros c. apply Heq. rewrite length_app. simpl. lia. }
  assert (plain_dir f root) as Hroot.
  { split; [done|]. intros k Hk. unfold dir_at. rewrite Heq by (rewrite length_take; lia). by apply Hr. }
  split; [done| |by rewrite Hc..].
  apply plain_dir_snoc; [done| |done]. apply plain_dir_at in Hrl. unfold dir_at in *. by rewrite Hc.
Qed.

Lemma short_not_in_region root ls q :
  length q ≤ S (length root) → ¬ layers_region root ls q.
Proof.
  intros Hq (l & _ & [[r Hr]|[->| ->]]).
  - apply below_Some in Hr. subst. unfold layer_path in Hq. rewrite !length_app in Hq.
    simpl in Hq. lia.
  - unfold layer_digest_path in Hq. rewrite length_app in Hq. simpl in Hq. lia.
  - unfold layer_bytes_path in Hq. rewrite length_app in Hq. simpl in Hq. lia.
Qed.

Lemma root_ok_outside f0 f root ls :
  outside (layers_region root ls) f0 f → root_ok f0 root → root_ok f root.
Proof. intros Hout Hok. apply (root_ok_agree f0); [|done]. intros q Hq. by apply Hout, short_not_in_region. Qed.

(** ** Removing layers touches only them *)

Lemma digest_not_dotdot id : id ++ lit ".digest" ≠ dotdot.
Proof. intros H. apply (f_equal length) in H. rewrite length_app in H. simpl in H. lia. Qed.
Lemma bytes_not_dotdot id : id ++ lit ".bytes" ≠ dotdot.
Proof. intros H. apply (f_equal length) in H. rewrite length_app in H. simpl in H. lia. Qed.

(** A file in [.layer-metadata] is removed in place, or is not there. *)
Lemma pres_remove_metadata region f0 root name :
  (∀ f, outside region f0 f → root_ok f root) → name ≠ dotdot →
  region (root ++ [LAYER_METADATA_DIR; name]) →
  pres (outside region f0) (remove_metadata_file (root ++ [LAYER_METADATA_DIR; name])).
Proof.
  intros Hroot Hname Hr. apply pres_bind.
  - apply pres_attempt, pres_syscall. intros f a f' Hg Hout.
    destruct (Hroot f Hout) as [Hp _ Hmd].
    destruct (dir_at f (root ++ [LAYER_METADATA_DIR])) eqn:Hdir.
    + assert (plain_dir f (root ++ [LAYER_METADATA_DIR])) as Hpm by by apply plain_dir_snoc.
      change [LAYER_METADATA_DIR; name] with ([LAYER_METADATA_DIR] ++ [name]) in *.
      rewrite (assoc_L (++)) in *. rewrite resolve_child in Hg by done. cbn [result_bind] in Hg.
      destruct (f !! _) as [[]|]; simplify_eq; by apply outside_delete.
    + unfold resolve in Hg. rewrite walk_plain, walk_step in Hg
        by (done || by apply plain_dir_at).
      destruct (f !! (root ++ [LAYER_METADATA_DIR])) eqn:Hn; [|done].
      by rewrite walk_not_dir in Hg.
  - intros [?|[]]; auto with pres.
Qed.

Section remove_frame.
Context (region : path → Prop) (f0 : fs) (root : path).
(** The region does not touch what makes the storage root work. *)
Hypothesis safe : ∀ f, outside region f0 f → root_ok f root.

Lemma pres_remove_layer l :
  canonical_ref l → (∀ q, layer_region root l q → region q) →
  pres (outside region f0) (remove_layer root l).
Proof using safe.
  intros Hc Hr. unfold remove_layer. rewrite canonical_comps by done.
  repeat (apply pres_bind; [|intros _]); [apply pres_reads|..].
  - change [LAYERS_DIR; layer_id l] with ([LAYERS_DIR] ++ [layer_id l]). rewrite (assoc_L (++)).
    apply pres_remove_path; [intros f Hout; by apply safe|apply Hc|].
    intros q Hq. apply Hr. left. unfold layer_path.
    change [LAYERS_DIR; layer_id l] with ([LAYERS_DIR] ++ [layer_id l]). by rewrite (assoc_L (++)).
  - apply pres_remove_metadata; [done|apply digest_not_dotdot|]. apply Hr. right. by left.
  - apply pres_remove_metadata; [done|apply bytes_not_dotdot|]. apply Hr. right. by right.
Qed.

Lemma pres_remove_layers ls :
  Forall canonical_ref ls → (∀ q, layers_region root ls q → region q) →
  pres (outside region f0) (remove_layers root ls).
Proof using safe.
  intros Hc. induction Hc as [|l ls Hl Hc IH]; intros Hr; [apply pres_ret|].
  apply pres_bind; [apply pres_remove_layer; [done|]|].
  - intros q Hq. apply Hr. exists l. set_solver.
  - intros _. apply IH. intros q (l' & Hl' & Hq). apply Hr. exists l'. set_solver.
Qed.
End remove_frame.

Lemma outside_refl region f : outside region f f.
Proof. by intros q _. Qed.

(** Layers with different ids do not overlap. *)
Lemma layer_region_disjoint root l l' q :
  layer_id l ≠ layer_id l' → ¬ layer_region root l (layer_path root (layer_id l') ++ q).
Proof.
  intros Hne [[r Hr]|[Hr|Hr]]; unfold layer_path, layer_digest_path, layer_bytes_path in *.
  - apply below_Some in Hr. rewrite <-!(assoc_L (++)) in Hr. apply app_inv_head in Hr.
    simpl in Hr. by simplify_eq.
  - rewrite <-(assoc_L (++)) in Hr. apply app_inv_head in Hr. simpl in Hr. by simplify_eq.
  - rewrite <-(assoc_L (++)) in Hr. apply app_inv_head in Hr. simpl in Hr. by simplify_eq.
Qed.

Lemma shrink_remove_metadata g p : pres (λ f, f ⊆ g) (remove_metadata_file p).
Proof.
  apply pres_bind; [apply pres_attempt, shrink_remove_file|]. intros [?|[]]; auto with pres.
Qed.

Lemma shrink_remove_layer g root l : pres (λ f, f ⊆ g) (remove_layer root l).
Proof.
  repeat (apply pres_bind; [|intros _]);
    auto using pres_reads, shrink_remove_path, shrink_remove_metadata.
Qed.

Lemma shrink_remove_layers g root ls : pres (λ f, f ⊆ g) (remove_layers root ls).
Proof.
  induction ls as [|l ls IH]; [apply pres_ret|]. apply pres_bind; [apply shrink_remove_layer|done].
Qed.

(** A layer directory is there as a directory, or not at all. *)
Definition layer_tree (f : fs) (root : path) (l : LayerRef) : Prop :=
  dir_at f (layer_path root (layer_id l)) = true ∨
  ∀ q, f !! (layer_path root (layer_id l) ++ q) = None.

Lemma layer_path_snoc root id : layer_path root id = (root ++ [LAYERS_DIR]) ++ [id].
Proof. unfold layer_path. by rewrite <-(assoc_L (++)). Qed.

Lemma remove_layer_gone root l w w' :
  root_ok (w_fs w) root → canonical_ref l → layer_tree (w_fs w) root l →
  remove_layer root l w = (Ok (), w') →
  ∀ q, w_fs w' !! (layer_path root (layer_id l) ++ q) = None.
Proof.
  intros Hok Hc Ht Hrun q. unfold remove_layer in Hrun.
  apply bind_Ok in Hrun as ([] & w1 & Hv & Hrun).
  apply bind_Ok in Hrun as ([] & w2 & Hp & Hrun).
  assert (w1 = w) as -> by (unfold reads in Hv; by simplify_eq).
  rewrite canonical_comps in Hp by done. fold (layer_path root (layer_id l)) in Hp.
  assert (w_fs w2 !! (layer_path root (layer_id l) ++ q) = None) as Hnone.
  { unfold layer_tree in Ht. rewrite layer_path_snoc in *.
    eapply remove_path_gone; [apply Hok|apply Hc|done|done]. }
  eapply lookup_weaken_None; [exact Hnone|].
  eapply (pres_bind (λ f, f ⊆ w_fs w2)); [..|exact Hrun|done];
    [|intros ?]; apply shrink_remove_metadata.
Qed.

(** Every layer of the list is gone after a successful removal. *)
Lemma remove_layers_gone root ls : ∀ w w',
  root_ok (w_fs w) root → Forall canonical_ref ls → Forall (layer_tree (w_fs w) root) ls →
  remove_layers root ls w = (Ok (), w') →
  Forall (λ l, ∀ q, w_fs w' !! (layer_path root (layer_id l) ++ q) = None) ls.
Proof.
  induction ls as [|l ls IH]; intros w w' Hok Hc Ht Hrun; [done|].
  apply Forall_cons in Hc as [Hcl Hc], Ht as [Htl Ht].
  cbn [remove_layers] in Hrun. apply bind_Ok in Hrun as ([] & w1 & Hl & Hrun).
  assert (outside (layers_region root [l]) (w_fs w) (w_fs w1)) as Hout.
  { eapply (pres_remove_layer (layers_region root [l]) (w_fs w) root); [|done| |exact Hl|apply outside_refl].
    - intros f Hf. by eapply root_ok_outside.
    - intros q Hq. exists l. set_solver. }
  constructor.
  - intros q. eapply lookup_weaken_None; [by eapply remove_layer_gone|].
    by eapply (shrink_remove_layers (w_fs w1)).
  - eapply IH; [by eapply root_ok_outside|done| |exact Hrun].
    eapply Forall_impl; [exact Ht|]. intros l' Hl'. unfold layer_tree.
    destruct (decide (layer_id l' = layer_id l)) as [->|Hne].
    { right. by eapply remove_layer_gone. }
    assert (∀ q, w_fs w1 !! (layer_path root (layer_id l') ++ q) =
      w_fs w !! (layer_path root (layer_id l') ++ q)) as Heq.
    { intros q. apply Hout. intros (l2 & Hl2 & Hreg). apply list_elem_of_singleton in Hl2 as ->.
      by apply layer_region_disjoint in Hreg. }
    destruct Hl' as [Hd|Hn]; [left|right].
    + specialize (Heq []). rewrite app_nil_r in Heq. unfold dir_at in *. by rewrite Heq.
    + intros q. by rewrite Heq.
Qed.

(** ** Properties of releasing a lease *)

Lemma leased_layers_elem (leases : LeaseRegistry) l :
  l ∈ leased_layers leases ↔ ∃ id m, leases !! id = Some m ∧ l ∈ layers m.
Proof.
  unfold leased_layers. rewrite (merge_sort_Permutation ref_le), elem_of_remove_dups.
  rewrite list_elem_of_bind. split.
  - intros (m & Hl & Hm). apply list_elem_of_fmap in Hm as ([id m'] & -> & Hm).
    apply elem_of_map_to_list in Hm. by exists id, m'.
  - intros (id & m & Hm & Hl). exists m. split; [done|]. apply list_elem_of_fmap.
    exists (id, m). split; [done|]. by apply elem_of_map_to_list.
Qed.

(** A layer that the manifest [active] or a lease of the registry references. *)
Definition referenced (active : Manifest) (leases : LeaseRegistry) (l : LayerRef) : Prop :=
  l ∈ layers active ∨ ∃ id m, leases !! id = Some m ∧ l ∈ layers m.

Lemma unreferenced_elem ls active leases l :
  l ∈ unreferenced_layers ls active leases ↔ l ∈ ls ∧ ¬ referenced active leases l.
Proof.
  unfold unreferenced_layers, referenced. rewrite list_elem_of_filter, leased_layers_elem. naive_solver.
Qed.

(** C28: releasing a lease touches no layer that another lease, or the manifest that
    the release reads, references, whichever of the calls that remove files fail;
    when it succeeds exactly the other layers of the lease are reported, and they
    are gone.  This holds for every answer of [read_manifest].  The manifest read is the one on disk when the calls that read it
    succeed; when reading the file fails nothing is removed; but when the call
    behind [Path::exists] fails it is the empty manifest, and the layers of the
    active manifest go as well, unless another lease holds them. *)
Theorem release_keeps_referenced (root : path) (leases : LeaseRegistry) id m answer w r w' :
  root_ok (w_fs w) root → leases !! id = Some m → Forall canonical_ref (layers m) →
  Forall (layer_tree (w_fs w) root) (layers m) →
  (release_reading (λ _, answer) root leases id).2 w = (r, w') →
  (∀ e, answer = Err e → r = Err e ∧ w' = w) ∧
  (∀ active, answer = Ok active →
    (∀ l q, canonical_ref l → referenced active (delete id leases) l →
       w_fs w' !! (layer_path root (layer_id l) ++ q) = w_fs w !! (layer_path root (layer_id l) ++ q)) ∧
    (∀ gone, r = Ok gone → ∃ ls, gone = Some ls ∧
       (∀ l, l ∈ ls ↔ l ∈ layers m ∧ ¬ referenced active (delete id leases) l) ∧
       Forall (λ l, ∀ q, w_fs w' !! (layer_path root (layer_id l) ++ q) = None) ls)).
Proof.
  intros Hok Hm Hc Ht. unfold release_reading, release. rewrite Hm. simpl. rewrite bind_reads.
  destruct answer as [active|e]; cycle 1.
  { intros [= <- <-]. split; [|done]. by intros e' [= <-]. }
  set (ls := unreferenced_layers _ _ _). intros Hrun. split; [done|]. intros ? [= <-].
  assert (∀ l, l ∈ ls ↔ l ∈ layers m ∧ ¬ referenced active (delete id leases) l) as Hls by (intros l; apply unreferenced_elem).
  assert (Forall canonical_ref ls) as Hcls.
  { apply Forall_forall. intros l Hl. apply Hls in Hl as [Hl _]. by eapply Forall_forall in Hl. }
  assert (∀ f, outside (layers_region root ls) (w_fs w) f → root_ok f root) as Hsafe.
  { intros f Hf. by eapply root_ok_outside. }
  assert (pres (outside (layers_region root ls) (w_fs w))
    (bind (remove_layers root ls) (λ _, ret (Some ls)))) as Hpres.
  { apply pres_bind; [by apply pres_remove_layers|intros _; apply pres_ret]. }
  specialize (Hpres _ _ _ Hrun (outside_refl _ _)). split.
  - intros l q Hcl Href. apply Hpres. intros (l' & Hl' & Hreg). apply Hls in Hl' as Hn.
    destruct (decide (layer_id l' = layer_id l)) as [Heq|Hne];
      [|by apply layer_region_disjoint in Hreg].
    rewrite Forall_forall in Hcls. rewrite (canonical_ref_eq l' l) in Hn by auto. naive_solver.
  - intros gone ->. apply bind_Ok in Hrun as ([] & w1 & Hrem & [= <- <-]).
    exists ls. split_and!; [done|done|]. eapply remove_layers_gone; [done|done| |done].
    apply Forall_forall. intros l Hl. apply Hls in Hl as [Hl _]. by eapply Forall_forall in Hl.
Qed.

(** A storage root with two layers of which the active manifest references the
    upper one, and a lease of both. *)
Definition two_layers : list LayerRef :=
  [mkLayerRef (lit "L2") (lit "layers/L2"); mkLayerRef (lit "L1") (lit "layers/L1")].
Definition lease_root : path := [lit "s"].
Definition lease_fs : fs :=
  {[ [] := NDir 0 ∅; [lit "s"] := NDir 0 ∅; [lit "s"; lit "layers"] := NDir 0 ∅;
     [lit "s"; lit "layers"; lit "L2"] := NDir 0 ∅; [lit "s"; lit "layers"; lit "L1"] := NDir 0 ∅;
     [lit "s"; lit "layers"; lit "L1"; lit "x"] := NFile (lit "data") 0 ∅;
     [lit "s"; lit "manifest.json"] :=
       NFile (number_encode (mkManifest 3 (take 1 two_layers) 1)) 0 ∅ ]}.
Definition lease_world : world := mkWorld lease_fs 0 [].

Lemma lease_root_ok : root_ok lease_fs lease_root.
Proof.
  split; [apply plain_check_dir; vm_compute; reflexivity..|intros t; vm_compute; discriminate|
          intros t; vm_compute; discriminate].
Qed.

Lemma two_layers_canonical : Forall canonical_ref two_layers.
Proof.
  repeat apply Forall_cons_2; [split; [reflexivity|]..|constructor];
    repeat split; try done; by apply (bool_decide_unpack _); vm_compute.
Qed.

Definition lease_leases : LeaseRegistry := {[ lit "a" := mkManifest 2 two_layers 1 ]}.

Definition lease_run : result (option (list LayerRef)) LayerStackError * world :=
  (release_lease_locked (H := number_codec) lease_root lease_leases (lit "a")).2 lease_world.

(** The same release when [Path::exists] fails. *)
Definition no_stat_run : result (option (list LayerRef)) LayerStackError * world :=
  (release_reading (λ _, Ok (mkManifest 0 [] MANIFEST_SCHEMA_VERSION)) lease_root lease_leases (lit "a")).2 lease_world.

Lemma release_keeps_referenced_witness :
  (lease_run.1 = Ok (Some (drop 1 two_layers)) ∧ w_fs lease_run.2 !! [lit "s"; lit "layers"; lit "L1"; lit "x"] = None ∧
   w_fs lease_run.2 !! [lit "s"; lit "layers"; lit "L2"] = Some (NDir 0 ∅)) ∧
  (no_stat_run.1 = Ok (Some two_layers) ∧ w_fs no_stat_run.2 !! [lit "s"; lit "layers"; lit "L2"] = None).
Proof.
  assert (lease_run.1 = Ok (Some (drop 1 two_layers))) as Hr by (vm_compute; reflexivity).
  assert (no_stat_run.1 = Ok (Some two_layers)) as Hn by (vm_compute; reflexivity).
  assert (Forall (layer_tree lease_fs lease_root) two_layers) as Ht
    by (repeat apply Forall_cons_2; [left; vm_compute; reflexivity..|constructor]).
  split.
  - destruct (release_keeps_referenced lease_root lease_leases (lit "a") (mkManifest 2 two_layers 1)
      (read_manifest (H := number_codec) lease_fs (lease_root ++ [ACTIVE_MANIFEST_FILE])) lease_world lease_run.1 lease_run.2 lease_root_ok (lookup_singleton_eq _ _) two_layers_canonical Ht (surjective_pairing lease_run))
      as [_ Hok].
    destruct (Hok (mkManifest 3 (take 1 two_layers) 1)) as [Hkept Hgone]; [vm_compute; reflexivity|].
    destruct (Hgone _ Hr) as (ls & [= <-] & _ & Hg). apply Forall_cons in Hg as [Hg _].
    split_and!; [exact Hr|exact (Hg [lit "x"])|].
    pose proof (Forall_inv two_layers_canonical) as Hc.
    refine (eq_trans (Hkept _ [] Hc (or_introl (list_elem_of_here _ _))) _). vm_compute. reflexivity.
  - destruct (release_keeps_referenced lease_root lease_leases (lit "a") (mkManifest 2 two_layers 1)
      (Ok (mkManifest 0 [] MANIFEST_SCHEMA_VERSION)) lease_world no_stat_run.1 no_stat_run.2 lease_root_ok (lookup_singleton_eq _ _) two_layers_canonical Ht (surjective_pairing no_stat_run))
      as [_ Hok].
    destruct (Hok _ eq_refl) as [_ Hgone]. destruct (Hgone _ Hn) as (ls & [= <-] & _ & Hg). apply Forall_cons in Hg as [Hg _].
    split; [exact Hn|exact (Hg [])].
Defined.

(** ** The boot sweep *)

(** What a sweep may touch: the removable layers and the entries of [staging]. *)
Definition sweep_region (root : path) (ls : list LayerRef) (q : path) : Prop :=
  layers_region root ls q ∨ ∃ n r, q = root ++ STAGING_DIR :: n :: r.

Lemma sweep_region_root_ok f0 f root ls :
  outside (sweep_region root ls) f0 f → root_ok f0 root → root_ok f root.
Proof.
  intros Hout. apply root_ok_agree. intros q Hq. apply Hout. intros [Hr|(n & r & ->)].
  - by apply short_not_in_region in Hr.
  - rewrite length_app in Hq. simpl in Hq. lia.
Qed.

Lemma pres_remove_entries f0 root ls ns :
  root_ok f0 root → dir_at f0 (root ++ [STAGING_DIR]) = true → Forall name_ok ns →
  pres (outside (sweep_region root ls) f0) (remove_entries (root ++ [STAGING_DIR]) ns).
Proof.
  intros Hok Hdir Hns. induction Hns as [|n ns Hn Hns IH]; [apply pres_ret|].
  apply pres_bind; [|done]. apply pres_remove_path; [|apply Hn|].
  - intros f Hout. apply plain_dir_snoc; [by eapply sweep_region_root_ok| |done].
    unfold dir_at in *. rewrite Hout; [done|]. intros [Hr|(n' & r & Heq)].
    + apply short_not_in_region in Hr; [done|]. rewrite length_app. simpl. lia.
    + apply (f_equal length) in Heq. rewrite !length_app in Heq. simpl in Heq. lia.
  - intros q [r Hr]. apply below_Some in Hr. subst. right. exists n, r.
    by rewrite <-!(assoc_L (++)).
Qed.

Lemma btree_set_elem ns n : n ∈ btree_set ns ↔ n ∈ ns.
Proof.
  unfold btree_set. assert (∀ m, n ∈ (foldl (λ m k, bt_insert k tt m) m ns).*1 ↔ n ∈ ns ∨ n ∈ m.*1) as Hm.
  { induction ns as [|k ns IH]; intros m; simpl; [set_solver|]. rewrite IH, bt_insert_keys. set_solver. }
  rewrite Hm. set_solver.
Qed.

Lemma sweep_removable_canonical m ids :
  Forall name_ok ids → Forall canonical_ref (sweep_removable m ids).
Proof.
  intros Hids. unfold sweep_removable. apply Forall_fmap, Forall_forall. intros id Hid.
  apply list_elem_of_filter in Hid as [_ Hid]. split; [done|]. by eapply Forall_forall in Hid.
Qed.

(** The names the sweep takes for layer ids. *)
Definition sweep_candidates (f : fs) (root : path) : list bytes :=
  (to_string_lossy <$> names f (root ++ [LAYERS_DIR])) ++
  omap sidecar_id (match list_names f (root ++ [LAYER_METADATA_DIR]) with Ok ns => ns | Err _ => [] end).

Lemma read_dir_plain f d : plain_dir f d → read_dir f d = Ok (names f d).
Proof.
  intros Hd. unfold read_dir, resolve. rewrite <-(app_nil_r d) at 1. rewrite walk_plain by done.
  rewrite walk_eq. cbn [result_bind]. apply plain_dir_at in Hd. unfold dir_at, node_at in *.
  destruct (f !! d) as [n|]; [|done]. cbn [result_bind]. by rewrite Hd.
Qed.

(** The outcomes of a sweep. *)
Lemma sweep_cases `{ManifestCodec} (root : path) w r w' :
  root_ok (w_fs w) root → Forall name_ok (sweep_candidates (w_fs w) root) →
  (∀ q, is_Some (w_fs w !! q) → Forall name_ok q) →
  sweep_storage_locked root w = (r, w') →
  (w_fs w' = w_fs w ∧
   (∀ m, read_manifest (w_fs w) (root ++ [ACTIVE_MANIFEST_FILE]) = Ok m →
      r = Ok (skipped ManifestMissing) ∨ (version m < 1)%Z ∨ layers m = [] ∨ ∃ e, r = Err e)) ∨
  ∃ m, read_manifest (w_fs w) (root ++ [ACTIVE_MANIFEST_FILE]) = Ok m ∧
    outside (sweep_region root (sweep_removable m (btree_set (sweep_candidates (w_fs w) root))))
      (w_fs w) (w_fs w').
Proof.
  intros Hok Hcand Hnames. unfold sweep_storage_locked. rewrite bind_reads.
  destruct (exists_ _ _) eqn:Hex; cbn [negb]; cycle 1.
  { intros [= <- <-]. left. split; [done|]. by left. }
  rewrite bind_attempt_reads.
  destruct (read_manifest (w_fs w) _) as [m|e] eqn:Hread; cycle 1.
  { intros [= <- <-]. by left. }
  destruct (bool_decide (version m < 1)%Z || bool_decide (layers m = [])) eqn:Hdeg.
  { intros [= <- <-]. left. split; [done|]. intros m' [= <-]. right.
    rewrite orb_true_iff, !bool_decide_eq_true in Hdeg. naive_solver. }
  rewrite bind_reads. cbn beta. unfold list_names at 1.
  rewrite (read_dir_plain _ _ (root_layers _ _ Hok)).
  rewrite bind_reads. unfold sweep_candidates in *.
  destruct (list_names (w_fs w) (root ++ [LAYER_METADATA_DIR])) as [sidecars|e]; cycle 1.
  { intros [= <- <-]. left. split; [done|]. eauto. }
  intros Hrun. right. exists m. split; [done|]. cbn iota in *. set (ls := sweep_removable _ _) in *.
  assert (Forall canonical_ref ls) as Hc.
  { apply sweep_removable_canonical. apply Forall_forall. intros id Hid.
    rewrite btree_set_elem in Hid. rewrite Forall_forall in Hcand. by apply Hcand. }
  assert (pres (outside (sweep_region root ls) (w_fs w)) (remove_layers root ls)) as Hp.
  { apply pres_remove_layers; [intros f Hf; by eapply sweep_region_root_ok|done|]. intros q Hq. by left. }
  clearbody ls. unfold bind at 1 in Hrun.
  destruct (remove_layers root ls w) as [[[]|e] w1] eqn:Hrem;
    (specialize (Hp _ _ _ Hrem (outside_refl _ _))); [|by simplify_eq].
  rewrite bind_reads in Hrun.
  assert (∀ q, ¬ layers_region root ls (root ++ STAGING_DIR :: q)) as Hstag.
  { intros q (l & _ & [[q' Hq]|[Hq|Hq]]);
      [apply below_Some in Hq; unfold layer_path in Hq; rewrite <-(assoc_L (++)) in Hq|..];
      apply app_inv_head in Hq; simpl in Hq; by simplify_eq. }
  assert (w_fs w1 !! (root ++ [STAGING_DIR]) = w_fs w !! (root ++ [STAGING_DIR])) as Hst1.
  { apply Hp. intros [Hr|(n & q & Heq)]; [by apply Hstag in Hr|].
    apply (f_equal length) in Heq. rewrite !length_app in Heq. simpl in Heq. lia. }
  destruct (is_dir (w_fs w1) (root ++ [STAGING_DIR])) eqn:Hisd; cycle 1.
  { rewrite (bind_run (ret []) _ _ [] w1) in Hrun by done.
    unfold remove_entries, bind, ret in Hrun. by simplify_eq. }
  assert (root_ok (w_fs w1) root) as Hok1 by by eapply sweep_region_root_ok.
  assert (plain_dir (w_fs w1) (root ++ [STAGING_DIR])) as Hpl.
  { apply plain_dir_snoc; [apply Hok1| |done]. rewrite <-is_dir_child; [done|apply Hok1|done|].
    apply (root_staging _ _ Hok1). }
  rewrite bind_lift_reads in Hrun. cbn beta in Hrun. rewrite read_dir_plain in Hrun by done.
  eapply (pres_bind (outside (sweep_region root ls) (w_fs w))); [..|exact Hrun|exact Hp];
    [|intros ?; apply pres_ret].
  apply pres_remove_entries; [done| |].
  - apply plain_dir_at in Hpl. unfold dir_at in *. by rewrite <-Hst1.
  - apply Forall_forall. intros n Hn. apply elem_of_names in Hn.
    assert (is_Some (w_fs w !! ((root ++ [STAGING_DIR]) ++ [n]))) as Hn'.
    { eapply lookup_weaken_is_Some; [exact Hn|].
      by eapply (shrink_remove_layers (w_fs w)). }
    apply Hnames in Hn'. apply Forall_app in Hn' as [_ Hn']. by inversion Hn'.
Qed.

Lemma sweep_region_layer root m ids id q :
  id ∈ (layer_id <$> layers m) ∨ head id = Some BASE_LAYER_PREFIX →
  ¬ sweep_region root (sweep_removable m ids) (layer_path root id ++ q).
Proof.
  intros Hid [(l & Hl & Hreg)|(n & r & Heq)].
  - unfold sweep_removable in Hl. apply list_elem_of_fmap in Hl as (id' & -> & Hl).
    apply list_elem_of_filter in Hl as [[Hn1 Hn2] _].
    apply (layer_region_disjoint root _ (mkLayerRef id [])) in Hreg; [done|]. simpl.
    intros ->. naive_solver.
  - unfold layer_path in Heq. rewrite <-(assoc_L (++)) in Heq. apply app_inv_head in Heq. done.
Qed.

(** C29: the boot sweep is fail-closed: whichever calls fail, it leaves every
    layer of the active manifest, every base layer and the manifest itself as
    they are, and it changes nothing when the manifest cannot be read. *)
Theorem sweep_keeps_active `{ManifestCodec} (root : path) w r w' :
  root_ok (w_fs w) root → Forall name_ok (sweep_candidates (w_fs w) root) →
  (∀ q, is_Some (w_fs w !! q) → Forall name_ok q) →
  sweep_storage_locked root w = (r, w') →
  (∀ m id q, read_manifest (w_fs w) (root ++ [ACTIVE_MANIFEST_FILE]) = Ok m →
     id ∈ (layer_id <$> layers m) →
     w_fs w' !! (layer_path root id ++ q) = w_fs w !! (layer_path root id ++ q)) ∧
  (∀ id q, head id = Some BASE_LAYER_PREFIX →
     w_fs w' !! (layer_path root id ++ q) = w_fs w !! (layer_path root id ++ q)) ∧
  w_fs w' !! (root ++ [ACTIVE_MANIFEST_FILE]) = w_fs w !! (root ++ [ACTIVE_MANIFEST_FILE]) ∧
  ((∀ m, read_manifest (w_fs w) (root ++ [ACTIVE_MANIFEST_FILE]) ≠ Ok m) → w_fs w' = w_fs w).
Proof.
  intros Hok Hcand Hnames Hrun.
  destruct (sweep_cases root w r w' Hok Hcand Hnames Hrun) as [[-> _]|(m & Hm & Hout)]; [done|].
  split_and!.
  - intros m' id q Hm' Hid. apply Hout, sweep_region_layer. rewrite Hm in Hm'. simplify_eq. by left.
  - intros id q Hid. apply Hout, sweep_region_layer. by right.
  - apply Hout. intros [Hr|(n & q & Heq)].
    + apply short_not_in_region in Hr; [done|]. rewrite length_app. simpl. lia.
    + apply app_inv_head in Heq. done.
  - intros Hnone. by destruct (Hnone m).
Qed.

Definition name_check (c : bytes) : bool :=
  bool_decide (c ≠ [] ∧ c ≠ dot ∧ c ≠ dotdot ∧ slash ∉ c ∧ nul ∉ c).

Lemma names_check (cs : list bytes) : forallb name_check cs = true → Forall name_ok cs.
Proof.
  rewrite forallb_forall. intros Hall. apply Forall_forall. intros c Hc.
  apply list_elem_of_In, Hall in Hc. unfold name_check in Hc. by apply bool_decide_eq_true in Hc.
Qed.

Lemma fs_names_check (f : fs) :
  forallb (λ qn, forallb name_check qn.1) (map_to_list f) = true →
  ∀ q, is_Some (f !! q) → Forall name_ok q.
Proof.
  rewrite forallb_forall. intros Hall q [n Hq].
  apply elem_of_map_to_list, list_elem_of_In, Hall in Hq. by apply names_check.
Qed.

Definition sweep_run : result SweepReport LayerStackError * world :=
  sweep_storage_locked (H := number_codec) lease_root lease_world.

Lemma sweep_keeps_active_witness :
  sweep_run.1 = Ok (mkSweep [lit "L1"] 0 None) ∧
  w_fs sweep_run.2 !! (layer_path lease_root (lit "L2") ++ []) =
    lease_fs !! (layer_path lease_root (lit "L2") ++ []).
Proof.
  destruct (sweep_keeps_active (H := number_codec) lease_root lease_world sweep_run.1 sweep_run.2
    lease_root_ok) as (Hkeep & _ & _ & _).
  - apply names_check. vm_compute. reflexivity.
  - apply fs_names_check. vm_compute. reflexivity.
  - apply surjective_pairing.
  - split; [vm_compute; reflexivity|].
    apply (Hkeep (mkManifest 3 (take 1 two_layers) 1)); [vm_compute; reflexivity|].
    apply list_elem_of_singleton. reflexivity.
Defined.

(** ** Lease rewriting *)

Lemma is_prefix_app needle haystack :
  is_prefix needle haystack = true ↔ ∃ r, haystack = needle ++ r.
Proof.
  revert haystack. induction needle as [|x needle IH]; intros [|y haystack]; simpl;
    [naive_solver..|]. rewrite andb_true_iff, IH, bool_decide_eq_true. naive_solver.
Qed.

(** [position_from] finds the first occurrence. *)
Lemma position_from_spec needle haystack : ∀ i,
  match position_from i needle haystack with
  | Some j => ∃ pre post, haystack = pre ++ needle ++ post ∧ j = i + length pre
  | None => ∀ pre post, haystack ≠ pre ++ needle ++ post
  end.
Proof.
  induction haystack as [|y haystack IH]; intros i; cbn [position_from];
    destruct (is_prefix needle _) eqn:Hp.
  - apply is_prefix_app in Hp as [r ->]. exists [], r. split; [done|]. simpl. lia.
  - intros [|x pre] post Heq; [|done]. apply not_true_iff_false in Hp. apply Hp, is_prefix_app. eauto.
  - apply is_prefix_app in Hp as [r ->]. exists [], r. split; [done|]. simpl. lia.
  - specialize (IH (S i)). destruct (position_from (S i) needle haystack) as [j|].
    + destruct IH as (pre & post & -> & ->). exists (y :: pre), post. split; [done|]. simpl. lia.
    + intros [|x pre] post Heq; simplify_eq/=; [|by eapply IH].
      apply not_true_iff_false in Hp. apply Hp, is_prefix_app. eauto.
Qed.

(** One substitution replaces one occurrence of its run, if there is one. *)
Lemma contract_step_spec current r :
  contract_step current r = current ∨
  ∃ pre post, raw_run r ≠ [] ∧ current = pre ++ raw_run r ++ post ∧
    contract_step current r = pre ++ s_layer r :: post.
Proof.
  unfold contract_step. case_decide as Hne; [by left|]. unfold find_run.
  case_decide; [by left|]. pose proof (position_from_spec (raw_run r) current 0) as Hpos.
  destruct (position_from 0 (raw_run r) current) as [j|]; [right|by left].
  destruct Hpos as (pre & post & -> & ->). exists pre, post. split_and!; [done..|]. simpl.
  rewrite take_app_length. rewrite <-drop_drop, drop_app_length, drop_app_length. done.
Qed.

(** Contracting a chain through the recorded substitutions keeps its
    meaning: for every interpretation of layers as transformations under which
    each recorded squashed layer acts as the run it replaced, the contracted
    chain acts as the original one; and the chain never grows. *)
Theorem contract_layers_sound {S : Type} (act : LayerRef → S → S) records ls (x : S) :
  Forall (λ r, ∀ y, act (s_layer r) y = foldr act y (raw_run r)) records →
  foldr act x (contract_layers ls records) = foldr act x ls ∧
  length (contract_layers ls records) ≤ length ls.
Proof.
  intros Hr. unfold contract_layers. revert ls.
  induction Hr as [|r records Hact Hr IH]; intros ls; [done|]. simpl.
  destruct (IH (contract_step ls r)) as [-> Hlen].
  destruct (contract_step_spec ls r) as [Hc|(pre & post & Hne & -> & Hc)];
    [by rewrite Hc in *|]. rewrite Hc in *. rewrite !foldr_app. simpl. rewrite Hact.
  split; [done|]. etrans; [exact Hlen|]. rewrite !length_app. simpl.
  destruct (raw_run r); [done|]. simpl. lia.
Qed.

Lemma contract_layers_sound_witness :
  let a := mkLayerRef (lit "A") (lit "layers/A") in
  let b := mkLayerRef (lit "B") (lit "layers/B") in
  let s := mkLayerRef (lit "S") (lit "layers/S") in
  let act l x := if decide (l = s) then layer_id a ++ layer_id b ++ x else layer_id l ++ x in
  contract_layers [a; b] [mkSubst s [a; b]] = [s] ∧
  foldr act [] (contract_layers [a; b] [mkSubst s [a; b]]) = foldr act [] [a; b].
Proof.
  intros a b s act. split; [vm_compute; reflexivity|].
  apply (contract_layers_sound act [mkSubst s [a; b]] [a; b] []).
  repeat constructor.
Defined.

(** *** Pins overlap *)

(** Lease ids come from the counter. *)
Definition ids_below (leases : LeaseRegistry) (u : N) : Prop :=
  ∀ id, is_Some (leases !! id) → ∃ nanos n, id = new_lease_id nanos n ∧ (n < u)%N.

Lemma new_lease_id_inj nanos1 nanos2 n1 n2 :
  (n1 < 2 ^ 64)%N → (n2 < 2 ^ 64)%N →
  new_lease_id nanos1 n1 = new_lease_id nanos2 n2 → n1 = n2.
Proof.
  intros H1 H2 Heq. unfold new_lease_id in Heq.
  apply app_inj_2 in Heq as [_ Heq]; [|by rewrite !length_pad_fmt by (done || lia)].
  by apply pad_fmt_inj in Heq.
Qed.

(** Rewriting a lease never unpins a layer: the registry keeps every lease it
    had, the files are untouched, and a replacement lease is pinned under its own
    id with the contracted chain, all of whose directories exist. *)
Theorem rewritten_lease_keeps_pins (nanos : N) (root : path) (leases leases' : LeaseRegistry)
    records m owner x w w' :
  ids_below leases (w_unique w) → (w_unique w < 2 ^ 64)%N →
  acquire_rewritten_lease nanos root leases records m owner w = (Ok (x, leases'), w') →
  leases ⊆ leases' ∧ w_fs w' = w_fs w ∧
  match x with
  | Identity => leases' = leases
  | Replaced l =>
      leases' !! sl_id l = Some (sl_manifest l) ∧ version (sl_manifest l) = version m ∧
      layers (sl_manifest l) = contract_layers (layers m) records ∧
      Forall (λ d, is_dir (w_fs w) d = true) (sl_paths l)
  end.
Proof.
  intros Hids Hu. unfold acquire_rewritten_lease. case_decide as Hsame; [by intros [= <- <- <-]|].
  rewrite bind_reads. destruct (forallb _ _) eqn:Halive; cbn [negb]; [|by intros [= <- <- <-]].
  rewrite bind_lift_reads. unfold manifest_new. case_decide; [done|].
  intros Hrun. apply bind_Ok in Hrun as ([r leases1] & w1 & Hacq & [= <- <- <-]).
  unfold acquire in Hacq. case_decide; [done|].
  unfold bind, next_unique, ret in Hacq. simplify_eq/=.
  assert (leases !! new_lease_id nanos (w_unique w) = None) as Hfresh.
  { destruct (leases !! _) eqn:Hl; [|done].
    destruct (Hids _ (mk_is_Some _ _ Hl)) as (nanos' & n & Heq & Hn).
    apply new_lease_id_inj in Heq; lia. }
  split_and!; [by apply insert_subseteq|done|by rewrite lookup_insert_eq|done|done|].
  apply Forall_fmap, Forall_forall. intros l Hl. rewrite forallb_forall in Halive.
  by apply Halive, list_elem_of_In.
Qed.

Definition rewrite_leases : LeaseRegistry :=
  {[ new_lease_id 7 0 := mkManifest 2 two_layers 1 ]}.
Definition rewrite_world : world := mkWorld lease_fs 1 [].
Definition rewrite_run :
    result (RewrittenLease * LeaseRegistry) LayerStackError * world :=
  acquire_rewritten_lease 8 lease_root rewrite_leases
    [mkSubst (mkLayerRef (lit "L1") (lit "layers/L1")) two_layers]
    (mkManifest 2 two_layers 1) (lit "me") rewrite_world.

Lemma rewritten_lease_keeps_pins_witness :
  ∃ l leases', rewrite_run.1 = Ok (Replaced l, leases') ∧
    rewrite_leases ⊆ leases' ∧ layers (sl_manifest l) = [mkLayerRef (lit "L1") (lit "layers/L1")].
Proof.
  assert (match rewrite_run.1 with Ok (Replaced _, _) => true | _ => false end = true) as Hok
    by (vm_compute; reflexivity).
  destruct rewrite_run as [[[[|l] leases']|e] w'] eqn:Hrun; [discriminate Hok| |discriminate Hok].
  exists l, leases'. split; [reflexivity|].
  destruct (rewritten_lease_keeps_pins 8 lease_root rewrite_leases leases'
    [mkSubst (mkLayerRef (lit "L1") (lit "layers/L1")) two_layers]
    (mkManifest 2 two_layers 1) (lit "me") (Replaced l) rewrite_world w')
    as (Hsub & _ & _ & _ & Hl & _).
  - intros id [m Hid]. unfold rewrite_leases in Hid. apply lookup_singleton_Some in Hid as [<- _].
    exists 7%N, 0%N. split; [reflexivity|]. simpl. lia.
  - vm_compute. reflexivity.
  - exact Hrun.
  - split; [exact Hsub|]. rewrite Hl. vm_compute. reflexivity.
Defined.
