(* ===== verification/Publish.v ===== *)
(** * Planning and resolving a publish

    [publish/plan.rs], [publish/route.rs], [publish/gitignore.rs],
    [publish/fingerprint.rs], [publish/opaque_dir.rs] and [publish/resolve.rs].
    A publish takes changes made against a base manifest; the plan routes them
    and records what each source path looked like in the base, and the
    resolution compares that with the active manifest, merging files changed on
    both sides.  The theorems show that a concurrent change is never lost, and
    that a publish whose base is the active manifest meets no conflict.

    The gitignore matcher of the [ignore] crate and SHA-256 are arguments. *)

From S2P Require Import Prelude ByteStr Merge Model FS Storage View Descend.

(** ** Data: [publish/model.rs], [publish/plan.rs] *)

Record PublishBaseRevision := mkRevision {
  rv_manifest_version : Z;
  rv_root_hash : bytes;
  rv_layer_count : nat;
}.

Record PublishBase := mkBase {
  base_manifest : Manifest;
  base_revision : PublishBaseRevision;
}.

Record PublishValidatedChangesRequest := mkRequest {
  rq_base : PublishBase;
  rq_changes : list LayerChange;
  rq_protected_drops : list LayerProtectedDrop;
}.

Record PublishRouteSummary := mkSummary { source_count : nat; ignored_count : nat }.

Record ResolvedChangeset := mkResolved {
  rs_changes : list LayerChange;
  rs_origin : list (LayerPath * list (LineRange * Origin));
}.

Inductive RouteKind := Source | Ignored.

#[global] Instance RouteKind_eq_dec : EqDecision RouteKind.
Proof. solve_decision. Defined.

Inductive SourceValidationProvenance := ExplicitChange | FromOpaqueDir (root : LayerPath).

Record SourceValidation := mkValidation {
  sv_path : LayerPath;
  sv_expected : ContentFingerprint;
  sv_provenance : SourceValidationProvenance;
}.

Record AcceptedChange := mkAccepted { ac_change : LayerChange; ac_route : RouteKind }.

Record PublishPlan := mkPlan {
  pp_accepted : list AcceptedChange;
  pp_source_validations : list SourceValidation;
  pp_route_summary : PublishRouteSummary;
}.

Definition rejected {A} (r : PublishReject) : result A LayerStackError := Err (PublishRejected r).

(** ** [publish/route.rs] *)

Definition is_protected (p : bytes) : bool :=
  let parts := split_on slash p in
  let first := default [] (head parts) in
  bool_decide (first ∈ [lit "manifest.json"; lit "workspace.json"; lit "layers"; lit "staging";
                        lit ".layer-metadata"])
  || existsb (λ part, bool_decide (part = lit ".layer-metadata") || starts_with (lit ".wh.") part) parts.

Definition forbidden_path (p : LayerPath) : option PublishRejectReason :=
  if is_protected (as_str p) then Some ProtectedPath else None.

(** ** [publish/gitignore.rs] *)

Inductive gitignore_match := GitNone | GitIgnore | GitWhitelist.

(** The [ignore] crate: a matcher built from the lines of one file, which may be
    refused, and its verdict on a relative path. *)
Class Gitignore := {
  matcher : Type;
  build_matcher : list bytes → option matcher;
  matched : matcher → bytes → bool → gitignore_match;
}.

Definition is_ignore (m : gitignore_match) : bool := match m with GitIgnore => true | _ => false end.

(** [str::lines]: split at line feeds, without a final empty line and without a
    carriage return before the line feed. *)
Definition strip_cr (l : bytes) : bytes :=
  match last l with
  | Some x => if decide (x = Byte.x0d) then take (length l - 1) l else l
  | None => l
  end.

Fixpoint str_lines_of (parts : list bytes) : list bytes :=
  match parts with
  | [] => []
  | [l] => if decide (l = []) then [] else [l]
  | l :: parts => strip_cr l :: str_lines_of parts
  end.

Definition str_lines (s : bytes) : list bytes := str_lines_of (split_on newline s).

Section publish.
Context (sha256 : bytes → bytes) `{Gitignore}.
Context (f : fs) (storage_root : path).

Definition no_matcher : result matcher LayerStackError :=
  match build_matcher [] with Some m => Ok m | None => Err (Storage OtherStorage) end.

Definition matcher_for_dir (manifest : Manifest) (dir : bytes) : result matcher LayerStackError :=
  let gitignore_path :=
    if decide (dir = []) then lit ".gitignore" else dir ++ lit "/.gitignore" in
  (let? entry := read_entry f storage_root gitignore_path manifest in
   match entry with
   | EFile data _ =>
       if utf8_valid data then
         match build_matcher (str_lines data) with
         | Some m => Ok m
         | None => Err (Storage OtherStorage)
         end
       else no_matcher
   | _ => no_matcher
   end)%result.

(** The proper ancestors of a relative path, from the innermost. *)
Definition is_sealed_by_parent (m : matcher) (relative : list bytes) : bool :=
  existsb (λ k, is_ignore (matched m (join_with slash (take k relative)) true))
    (rev (seq 1 (length relative - 1))).

Fixpoint is_ignored_from (manifest : Manifest) (components : list bytes) (is_dir : bool)
    (depths : list nat) (ignored : bool) : result bool LayerStackError :=
  match depths with
  | [] => Ok ignored
  | depth :: depths =>
      (let dir := join_with slash (take depth components) in
       let? m := matcher_for_dir manifest dir in
       let relative := drop depth components in
       if decide (join_with slash relative = []) then
         is_ignored_from manifest components is_dir depths ignored
       else if is_sealed_by_parent m relative then Ok true
       else
         is_ignored_from manifest components is_dir depths
           match matched m (join_with slash relative) is_dir with
           | GitIgnore => true
           | GitWhitelist => false
           | GitNone => ignored
           end)%result
  end.

Definition is_ignored (manifest : Manifest) (p : LayerPath) (is_dir : bool) : result bool LayerStackError :=
  let components := split_on slash (as_str p) in
  is_ignored_from manifest components is_dir (seq 0 (length components)) false.

(** ** [publish/fingerprint.rs], [publish/opaque_dir.rs] *)

Definition content_fingerprint (manifest : Manifest) (p : LayerPath)
    : result ContentFingerprint LayerStackError :=
  (let? e := read_entry f storage_root (as_str p) manifest in
   match e with
   | EAbsent => Ok FpAbsent
   | EFile data executable => Ok (FpFile (hex_lower (sha256 data)) (Some executable))
   | ESymlink target => Ok (FpSymlink target)
   | EDirectory => Ok FpDirectory
   end)%result.

Definition OPAQUE_DIR_EXPANSION_LIMIT : nat := 4096.

Definition hidden_descendants (manifest : Manifest) (p : LayerPath) : result (list LayerPath) LayerStackError :=
  visible_descendants f storage_root p manifest OPAQUE_DIR_EXPANSION_LIMIT.

(** ** [publish/plan.rs] *)

Definition validate_base_revision (request : PublishValidatedChangesRequest) : result unit LayerStackError :=
  let base := rq_base request in
  let revision := base_revision base in
  let manifest := base_manifest base in
  if decide (rv_manifest_version revision ≠ version manifest ∨
             rv_root_hash revision ≠ manifest_root_hash sha256 manifest ∨
             rv_layer_count revision ≠ length (layers manifest))
  then rejected (reject_with_message InvalidBaseRevision BaseRevisionMismatch)
  else Ok ().

Definition route_path (manifest : Manifest) (p : LayerPath) (is_dir : bool) : result RouteKind LayerStackError :=
  match forbidden_path p with
  | Some reason => rejected (reject_at_path p reason)
  | None =>
      (let? ignored := is_ignored manifest p is_dir in
       Ok (if ignored : bool then Ignored else Source))%result
  end.

Definition route_change (manifest : Manifest) (change : LayerChange) : result RouteKind LayerStackError :=
  (let? is_dir :=
     match change with
     | Delete p =>
         let? e := read_entry f storage_root (as_str p) manifest in
         Ok (match e with EDirectory => true | _ => false end)
     | Directory _ | OpaqueDir _ => Ok true
     | Write _ _ | WriteFile _ _ _ | SymlinkTo _ _ => Ok false
     end in
   route_path manifest (change_path change) is_dir)%result.

(** The loop of [plan_opaque_dir] over the descendants. *)
Fixpoint plan_descendants (manifest : Manifest) (root : LayerPath) (descendants : list LayerPath)
    (saw_source saw_ignored : bool) (svs : list SourceValidation)
    : result (RouteKind * list SourceValidation) LayerStackError :=
  match descendants with
  | [] => Ok (if saw_ignored then Ignored else Source, svs)
  | descendant :: descendants =>
      match forbidden_path descendant with
      | Some _ => rejected (reject_at_path descendant OpaqueDirProtectedDescendant)
      | None =>
          (let? e := read_entry f storage_root (as_str descendant) manifest in
           let descendant_is_dir := match e with EDirectory => true | _ => false end in
           let? ignored := is_ignored manifest descendant descendant_is_dir in
           let? st :=
             if ignored : bool then Ok (saw_source, true, svs)
             else
               let? expected := content_fingerprint manifest descendant in
               Ok (true, saw_ignored,
                   svs ++ [mkValidation descendant expected (FromOpaqueDir root)]) in
           let '(saw_source, saw_ignored, svs) := st in
           if saw_source && saw_ignored then rejected (reject_at_path root OpaqueDirMixedRoutes)
           else plan_descendants manifest root descendants saw_source saw_ignored svs)%result
      end
  end.

Definition plan_opaque_dir (manifest : Manifest) (p : LayerPath) (svs : list SourceValidation)
    : result (RouteKind * list SourceValidation) LayerStackError :=
  match forbidden_path p with
  | Some reason => rejected (reject_at_path p reason)
  | None =>
      (let? descendants :=
         map_err (λ _, PublishRejected (reject_with_message RoutePreparationFailed RoutePreparation))
           (hidden_descendants manifest p) in
       if decide (OPAQUE_DIR_EXPANSION_LIMIT < length descendants)
       then rejected (reject_at_path p OpaqueDirExpansionLimit)
       else if decide (descendants = []) then
         let? route := route_path manifest p true in
         match route with
         | Source =>
             let? expected := content_fingerprint manifest p in
             Ok (Source, svs ++ [mkValidation p expected (FromOpaqueDir p)])
         | Ignored => Ok (Ignored, svs)
         end
       else plan_descendants manifest p descendants false false svs)%result
  end.

Definition plan_change (manifest : Manifest) (change : LayerChange) (svs : list SourceValidation)
    : result (RouteKind * list SourceValidation) LayerStackError :=
  match change with
  | OpaqueDir p => plan_opaque_dir manifest p svs
  | _ =>
      (let? route := route_change manifest change in
       match route with
       | Source =>
           let? expected := content_fingerprint manifest (change_path change) in
           Ok (Source, svs ++ [mkValidation (change_path change) expected ExplicitChange])
       | Ignored => Ok (Ignored, svs)
       end)%result
  end.

Definition count_route (route : RouteKind) (s : PublishRouteSummary) : PublishRouteSummary :=
  match route with
  | Source => mkSummary (source_count s + 1) (ignored_count s)
  | Ignored => mkSummary (source_count s) (ignored_count s + 1)
  end.

(** The loop of [plan_publish] over the changes. *)
Fixpoint plan_changes (manifest : Manifest) (changes : list LayerChange) (plan : PublishPlan)
    : result PublishPlan LayerStackError :=
  match changes with
  | [] => Ok plan
  | change :: changes =>
      (let? r := plan_change manifest change (pp_source_validations plan) in
       let '(route, svs) := r in
       plan_changes manifest changes
         (mkPlan (pp_accepted plan ++ [mkAccepted change route]) svs
            (count_route route (pp_route_summary plan))))%result
  end.

Definition plan_publish (request : PublishValidatedChangesRequest) : result PublishPlan LayerStackError :=
  (let? _ := validate_base_revision request in
   match list_find (λ d, drop_reason d ≠ UnsupportedSpecialFile) (rq_protected_drops request) with
   | Some (_, d) => rejected (reject_protected_drop d)
   | None =>
       plan_changes (base_manifest (rq_base request)) (rq_changes request)
         (mkPlan [] [] (mkSummary 0 0))
   end)%result.

(** ** [publish/resolve.rs] *)

Definition MERGE_MAX_BYTES : Z := 8 * 1024 * 1024.

Inductive FileBytes := FbBytes (data : bytes) | FbAbsent | FbNonFile.

Definition read_file (manifest : Manifest) (p : LayerPath) : result FileBytes LayerStackError :=
  match read_entry_limited f storage_root (as_str p) manifest MERGE_MAX_BYTES with
  | Ok (EFile data _) => Ok (FbBytes data)
  | Ok EAbsent => Ok FbAbsent
  | Ok (ESymlink _) | Ok EDirectory => Ok FbNonFile
  | Err (FileTooLarge _ _) => Ok FbNonFile
  | Err e => Err e
  end.

Definition read_command_bytes (change : LayerChange) : result bytes LayerStackError :=
  match change with
  | Write _ content => Ok content
  | WriteFile _ source_path _ =>
      (let? data := map_err Io (read f source_path) in Ok (take_z (MERGE_MAX_BYTES + 1) data))%result
  | _ => Ok []
  end.

(** [struct MergedPath] *)
Record MergedPath := mkMerged { mp_bytes : bytes; mp_origin : list (LineRange * Origin) }.

Definition merge_path (base active : Manifest) (p : LayerPath) (command : bytes)
    : result (option MergedPath) LayerStackError :=
  (let? base_file := read_file base p in
   match base_file with
   | FbNonFile => Ok None
   | FbBytes _ | FbAbsent =>
       let base_bytes := match base_file with FbBytes data => data | _ => [] end in
       let? active_file := read_file active p in
       match active_file with
       | FbNonFile => Ok None
       | FbBytes _ | FbAbsent =>
           let active_bytes := match active_file with FbBytes data => data | _ => [] end in
           match merge_outcome base_bytes active_bytes command with
           | Clean out origin => Ok (Some (mkMerged out origin))
           | Conflict | Ineligible => Ok None
           end
       end
   end)%result.

Definition clean_origin (base : Manifest) (p : LayerPath) (command : bytes)
    : result (list (LineRange * Origin)) LayerStackError :=
  (let? base_file := read_file base p in
   match base_file with
   | FbNonFile => Ok []
   | FbBytes _ | FbAbsent =>
       let base_bytes := match base_file with FbBytes data => data | _ => [] end in
       match merge_outcome base_bytes base_bytes command with
       | Clean _ origin => Ok origin
       | Conflict | Ineligible => Ok []
       end
   end)%result.

Definition source_conflict (p : LayerPath) (expected actual : ContentFingerprint) : LayerStackError :=
  PublishRejected (reject_source_conflict (mkSourceConflict p expected actual)).

Definition expansion_limit (p : LayerPath) : LayerStackError :=
  PublishRejected (reject_at_path p OpaqueDirExpansionLimit).

(** [effective_changes]: the last accepted change of each path. *)
Definition effective_changes (plan : PublishPlan) : list (bytes * AcceptedChange) :=
  foldl (λ m accepted, bt_insert (as_str (change_path (ac_change accepted))) accepted m) []
    (pp_accepted plan).

Definition is_opaque_dir (c : LayerChange) : bool := match c with OpaqueDir _ => true | _ => false end.
Definition is_directory (c : LayerChange) : bool := match c with Directory _ => true | _ => false end.
Definition is_file_write (c : LayerChange) : bool :=
  match c with Write _ _ | WriteFile _ _ _ => true | _ => false end.

(** [accepted.route == RouteKind::Source && test(accepted.change)] *)
Definition source_and (test : LayerChange → bool) (accepted : option AcceptedChange) : bool :=
  match accepted with
  | Some a => bool_decide (ac_route a = Source) && test (ac_change a)
  | None => false
  end.

(** Whether a validation still counts: one made for an opaque directory does only
    while that directory's last change is the source-routed [OpaqueDir]. *)
Definition validation_applies (eff : list (bytes * AcceptedChange)) (v : SourceValidation) : bool :=
  match sv_provenance v with
  | ExplicitChange => true
  | FromOpaqueDir root => source_and is_opaque_dir (bt_lookup (as_str root) eff)
  end.

(** The body of the loop over the validations: [None] is a validation that passes
    without a merge. *)
Definition resolve_validation (base active : Manifest) (eff : list (bytes * AcceptedChange))
    (v : SourceValidation) : result (option MergedPath) LayerStackError :=
  if negb (validation_applies eff v) then Ok None
  else
    (let? actual := content_fingerprint active (sv_path v) in
     let effective := bt_lookup (as_str (sv_path v)) eff in
     let compatible_directory_create :=
       source_and is_directory effective
       && bool_decide (sv_expected v = FpAbsent) && bool_decide (actual = FpDirectory) in
     let conflict := Err (source_conflict (sv_path v) (sv_expected v) actual) in
     if bool_decide (actual = sv_expected v) || compatible_directory_create then Ok None
     else match effective with
     | None => conflict
     | Some accepted =>
         if negb (bool_decide (ac_route accepted = Source)) || negb (is_file_write (ac_change accepted))
         then conflict
         else
           let? command := read_command_bytes (ac_change accepted) in
           let? r := merge_path base active (sv_path v) command in
           match r with
           | Some resolved => Ok (Some resolved)
           | None => conflict
           end
     end)%result.

Fixpoint resolve_validations (base active : Manifest) (eff : list (bytes * AcceptedChange))
    (vs : list SourceValidation) (merged : bytes_map MergedPath)
    : result (bytes_map MergedPath) LayerStackError :=
  match vs with
  | [] => Ok merged
  | v :: vs =>
      (let? r := resolve_validation base active eff v in
       resolve_validations base active eff vs
         match r with
         | Some resolved => <[as_str (sv_path v) := resolved]> merged
         | None => merged
         end)%result
  end.

(** [descendants.insert] of the chained lists, with the check after each. *)
Fixpoint union_descendants (p : LayerPath) (ds : list LayerPath) (set : path_set)
    : result path_set LayerStackError :=
  match ds with
  | [] => Ok set
  | d :: ds =>
      let set := bt_insert (as_str d) tt set in
      if decide (OPAQUE_DIR_EXPANSION_LIMIT < length set) then Err (expansion_limit p)
      else union_descendants p ds set
  end.

Fixpoint compare_descendants (base active : Manifest) (ds : list bytes) : result unit LayerStackError :=
  match ds with
  | [] => Ok ()
  | d :: ds =>
      (let? expected := content_fingerprint base (mkLayerPath d) in
       let? actual := content_fingerprint active (mkLayerPath d) in
       if decide (actual ≠ expected) then Err (source_conflict (mkLayerPath d) expected actual)
       else compare_descendants base active ds)%result
  end.

(** The changes that replace or remove what is at their path. *)
Definition replaces (c : LayerChange) : bool := negb (is_directory c).

Definition validate_structure (base active : Manifest) (key : bytes) (accepted : AcceptedChange)
    : result unit LayerStackError :=
  let p := mkLayerPath key in
  if negb (source_and replaces (Some accepted)) then Ok ()
  else
    (let? fp := content_fingerprint base p in
     if decide (fp ≠ FpDirectory) then Ok ()
     else
       let? base_descendants :=
         visible_descendants f storage_root p base OPAQUE_DIR_EXPANSION_LIMIT in
       let? active_descendants :=
         visible_descendants f storage_root p active OPAQUE_DIR_EXPANSION_LIMIT in
       if decide (OPAQUE_DIR_EXPANSION_LIMIT < length base_descendants ∨
                  OPAQUE_DIR_EXPANSION_LIMIT < length active_descendants)
       then Err (expansion_limit p)
       else
         let? descendants := union_descendants p (base_descendants ++ active_descendants) [] in
         compare_descendants base active descendants.*1)%result.

Fixpoint validate_structures (base active : Manifest) (eff : list (bytes * AcceptedChange))
    : result unit LayerStackError :=
  match eff with
  | [] => Ok ()
  | (key, accepted) :: eff =>
      (let? _ := validate_structure base active key accepted in
       validate_structures base active eff)%result
  end.

Definition validate_structural_source_conflicts (base active : Manifest)
    (eff : list (bytes * AcceptedChange)) : result unit LayerStackError :=
  if decide (base = active) then Ok () else validate_structures base active eff.

Definition resolve_source_conflicts (base active : Manifest) (plan : PublishPlan)
    : result (bytes_map MergedPath) LayerStackError :=
  let eff := effective_changes plan in
  (let? merged := resolve_validations base active eff (pp_source_validations plan) ∅ in
   let? _ := validate_structural_source_conflicts base active eff in
   Ok merged)%result.

(** The body of the loop over the accepted changes: the change to commit and its
    origin, for a file write. *)
Definition resolve_accepted (base : Manifest) (merged : bytes_map MergedPath) (accepted : AcceptedChange)
    : result (LayerChange * option (list (LineRange * Origin))) LayerStackError :=
  let change := ac_change accepted in
  let p := change_path change in
  if negb (is_file_write change) then Ok (change, None)
  else match ac_route accepted with
  | Ignored => Ok (change, Some [])
  | Source =>
      match merged !! as_str p with
      | Some resolved => Ok (Write p (mp_bytes resolved), Some (mp_origin resolved))
      | None =>
          (let? command := read_command_bytes change in
           let? ranges := clean_origin base p command in
           Ok (change, Some ranges))%result
      end
  end.

Fixpoint resolve_changes (base : Manifest) (merged : bytes_map MergedPath) (accepted : list AcceptedChange)
    : result ResolvedChangeset LayerStackError :=
  match accepted with
  | [] => Ok (mkResolved [] [])
  | a :: accepted =>
      (let? r := resolve_accepted base merged a in
       let? rest := resolve_changes base merged accepted in
       Ok (mkResolved (r.1 :: rs_changes rest)
             (match r.2 with
              | Some ranges => (change_path (ac_change a), ranges) :: rs_origin rest
              | None => rs_origin rest
              end)))%result
  end.

Definition resolve_publish_changes (active : Manifest) (request : PublishValidatedChangesRequest)
    (plan : PublishPlan) : result ResolvedChangeset LayerStackError :=
  let base := base_manifest (rq_base request) in
  (let? merged := resolve_source_conflicts base active plan in
   resolve_changes base merged (pp_accepted plan))%result.
End publish.

(** ** The plan *)

Section plan.
Context (sha256 : bytes → bytes) `{Gitignore}.
Context (f : fs) (storage_root : path).

(** A validation records the fingerprint of the base. *)
Definition validation_ok (base : Manifest) (v : SourceValidation) : Prop :=
  content_fingerprint sha256 f storage_root base (sv_path v) = Ok (sv_expected v).

(** An accepted change has an allowed path; routed to the source and not an
    opaque directory, it has a validation of its own. *)
Definition accepted_ok (svs : list SourceValidation) (a : AcceptedChange) : Prop :=
  forbidden_path (change_path (ac_change a)) = None ∧
  (ac_route a = Source → is_opaque_dir (ac_change a) = false →
   ∃ v, v ∈ svs ∧ sv_path v = change_path (ac_change a) ∧ sv_provenance v = ExplicitChange).

Lemma plan_descendants_ok base root ds : ∀ ss si svs route svs',
  plan_descendants sha256 f storage_root base root ds ss si svs = Ok (route, svs') →
  Forall (validation_ok base) svs → svs ⊆ svs' ∧ Forall (validation_ok base) svs'.
Proof.
  induction ds as [|d ds IH]; intros ss si svs route svs' Hrun Hok; cbn [plan_descendants] in Hrun.
  { by simplify_eq. }
  destruct (forbidden_path d); [done|].
  apply result_bind_ok in Hrun as (e & _ & Hrun). apply result_bind_ok in Hrun as (ig & _ & Hrun).
  apply result_bind_ok in Hrun as ([[ss' si'] svs1] & Hst & Hrun).
  assert (svs ⊆ svs1 ∧ Forall (validation_ok base) svs1) as [Hsub Hok1].
  { destruct ig; [by simplify_eq|]. apply result_bind_ok in Hst as (expected & Hfp & Hst). simplify_eq.
    split; [set_solver|]. apply Forall_app. split; [done|]. by constructor. }
  destruct (ss' && si'); [done|]. destruct (IH _ _ _ _ _ Hrun Hok1) as [Hsub' ?]. split; [by etrans|done].
Qed.

Lemma plan_change_ok base change svs route svs' :
  plan_change sha256 f storage_root base change svs = Ok (route, svs') →
  Forall (validation_ok base) svs →
  svs ⊆ svs' ∧ Forall (validation_ok base) svs' ∧ accepted_ok svs' (mkAccepted change route).
Proof.
  intros Hrun Hok. destruct (is_opaque_dir change) eqn:Hop.
  - destruct change; try done. cbn in Hrun. unfold plan_opaque_dir in Hrun.
    unfold accepted_ok. cbn. destruct (forbidden_path p); [done|].
    apply result_bind_ok in Hrun as (ds & _ & Hrun). case_decide; [done|]. case_decide.
    + apply result_bind_ok in Hrun as ([] & _ & Hrun); [|by simplify_eq].
      apply result_bind_ok in Hrun as (expected & Hfp & Hrun). simplify_eq.
      split_and!; [set_solver| |done..]. apply Forall_app. split; [done|by constructor].
    + apply plan_descendants_ok in Hrun as [? ?]; [|done]. by split_and!.
  - assert (plan_change sha256 f storage_root base change svs =
      (let? route := route_change f storage_root base change in
       match route with
       | Source =>
           let? expected := content_fingerprint sha256 f storage_root base (change_path change) in
           Ok (Source, svs ++ [mkValidation (change_path change) expected ExplicitChange])
       | Ignored => Ok (Ignored, svs)
       end)%result) as Heq by by destruct change.
    rewrite Heq in Hrun. apply result_bind_ok in Hrun as (route' & Hroute & Hrun).
    assert (forbidden_path (change_path change) = None) as Hallowed.
    { unfold route_change in Hroute. apply result_bind_ok in Hroute as (is_dir & _ & Hroute).
      unfold route_path in Hroute. by destruct (forbidden_path _). }
    destruct route'; [|simplify_eq; by split_and!].
    apply result_bind_ok in Hrun as (expected & Hfp & Hrun). simplify_eq. split_and!.
    + set_solver.
    + apply Forall_app. split; [done|by constructor].
    + split; [done|]. intros _ _. eexists. split; [apply elem_of_app; right; by apply list_elem_of_singleton|done].
Qed.

Definition summary_of (accepted : list AcceptedChange) : PublishRouteSummary :=
  foldl (λ s a, count_route (ac_route a) s) (mkSummary 0 0) accepted.

Lemma plan_changes_ok base changes : ∀ plan plan',
  plan_changes sha256 f storage_root base changes plan = Ok plan' →
  Forall (validation_ok base) (pp_source_validations plan) →
  Forall (accepted_ok (pp_source_validations plan)) (pp_accepted plan) →
  pp_route_summary plan = summary_of (pp_accepted plan) →
  Forall (validation_ok base) (pp_source_validations plan') ∧
  Forall (accepted_ok (pp_source_validations plan')) (pp_accepted plan') ∧
  pp_route_summary plan' = summary_of (pp_accepted plan') ∧
  ac_change <$> pp_accepted plan' = (ac_change <$> pp_accepted plan) ++ changes.
Proof.
  induction changes as [|c changes IH]; intros plan plan' Hrun Hv Ha Hs; cbn [plan_changes] in Hrun.
  { simplify_eq. by rewrite app_nil_r. }
  apply result_bind_ok in Hrun as ([route svs] & Hc & Hrun).
  apply plan_change_ok in Hc as (Hsub & Hv' & Hac); [|done].
  apply IH in Hrun as (? & ? & ? & Hch); cbn.
  - split_and!; [done..|]. rewrite Hch. cbn. by rewrite fmap_app, <-(assoc_L (++)).
  - done.
  - apply Forall_app. split; [|by constructor]. eapply Forall_impl; [done|].
    intros a [Hal Hex]. split; [done|]. intros Hr Hop. destruct (Hex Hr Hop) as (v & ? & ?).
    exists v. split; [by apply Hsub|done].
  - unfold summary_of. rewrite foldl_app. cbn. by rewrite Hs.
Qed.

Lemma plan_publish_ok request plan :
  plan_publish sha256 f storage_root request = Ok plan →
  Forall (validation_ok (base_manifest (rq_base request))) (pp_source_validations plan) ∧
  Forall (accepted_ok (pp_source_validations plan)) (pp_accepted plan) ∧
  pp_route_summary plan = summary_of (pp_accepted plan) ∧
  ac_change <$> pp_accepted plan = rq_changes request.
Proof.
  intros Hrun. unfold plan_publish in Hrun. apply result_bind_ok in Hrun as ([] & _ & Hrun).
  destruct (list_find _ _) as [[]|]; [done|]. by apply plan_changes_ok in Hrun; [|apply Forall_nil_2|apply Forall_nil_2|].
Qed.

Lemma summary_count accepted :
  source_count (summary_of accepted) = length (filter (λ a, ac_route a = Source) accepted) ∧
  ignored_count (summary_of accepted) = length (filter (λ a, ac_route a = Ignored) accepted).
Proof.
  unfold summary_of. induction accepted as [|a accepted [IH1 IH2]] using rev_ind; [done|].
  rewrite foldl_app, !filter_app, !length_app, !filter_cons. cbn.
  repeat case_decide; destruct (ac_route a); simplify_eq; cbn; rewrite ?IH1, ?IH2; split; lia.
Qed.
End plan.

(** ** The resolution *)

Section resolution.
Context (sha256 : bytes → bytes) `{Gitignore}.
Context (f : fs) (storage_root : path).

(** What a file path holds for the merge: its bytes, or nothing when absent. *)
Definition file_content (m : Manifest) (p : LayerPath) (data : bytes) : Prop :=
  read_file f storage_root m p = Ok (FbBytes data) ∨
  read_file f storage_root m p = Ok FbAbsent ∧ data = [].

(** The last accepted change at its path. *)
Definition effective (plan : PublishPlan) (a : AcceptedChange) : Prop :=
  bt_lookup (as_str (change_path (ac_change a))) (effective_changes plan) = Some a.

(** [c] writes the clean three-way merge of the base, the active content and what
    the change [a] writes. *)
Definition merges (base active : Manifest) (a : AcceptedChange) (c : LayerChange) : Prop :=
  let p := change_path (ac_change a) in
  ∃ b act cmd out origin,
    file_content base p b ∧ file_content active p act ∧
    read_command_bytes f (ac_change a) = Ok cmd ∧
    three_way_merge b act cmd = Some (Clean out origin) ∧ c = Write p out.

(** How a source change fits the active manifest, and the change committed for
    it. *)
Definition fits (base active : Manifest) (a : AcceptedChange) (c : LayerChange) : Prop :=
  let p := change_path (ac_change a) in
  ∃ fb fa, content_fingerprint sha256 f storage_root base p = Ok fb ∧
    content_fingerprint sha256 f storage_root active p = Ok fa ∧
    ((fa = fb ∧ c = ac_change a) ∨
     (is_directory (ac_change a) = true ∧ fb = FpAbsent ∧ fa = FpDirectory ∧ c = ac_change a) ∨
     (is_file_write (ac_change a) = true ∧ fa ≠ fb ∧ merges base active a c)).

(** What is committed for any accepted change: the change itself, or, for a source
    write of a file, the merge with the last change of its path. *)
Definition committed_as (base active : Manifest) (plan : PublishPlan) (a : AcceptedChange) (c : LayerChange) : Prop :=
  c = ac_change a ∨
  (ac_route a = Source ∧ is_file_write (ac_change a) = true ∧
   ∃ e, effective plan e ∧ e ∈ pp_accepted plan ∧ change_path (ac_change e) = change_path (ac_change a) ∧
     ac_route e = Source ∧ is_file_write (ac_change e) = true ∧ merges base active e c).

Lemma as_str_inj (p q : LayerPath) : as_str p = as_str q → p = q.
Proof. destruct p, q. simpl. by intros ->. Qed.

Lemma effective_of plan k e :
  bt_lookup k (effective_changes plan) = Some e → e ∈ pp_accepted plan ∧ as_str (change_path (ac_change e)) = k.
Proof.
  unfold effective_changes. induction (pp_accepted plan) as [|a l IH] using rev_ind; [done|]. rewrite foldl_app. cbn [foldl].
  destruct (decide (as_str (change_path (ac_change a)) = k)) as [Heq|Hne].
  - rewrite Heq, bt_lookup_insert. intros [= <-]. split; [set_solver|done].
  - rewrite bt_lookup_insert_ne by done. intros [Hin Hk]%IH. split; [set_solver|done].
Qed.

Lemma merge_path_Some base active p cmd r :
  merge_path f storage_root base active p cmd = Ok (Some r) →
  ∃ b act, file_content base p b ∧ file_content active p act ∧
    three_way_merge b act cmd = Some (Clean (mp_bytes r) (mp_origin r)).
Proof.
  intros Hrun. unfold merge_path in Hrun. apply result_bind_ok in Hrun as (bf & Hb & Hrun).
  set (b := match bf with FbBytes data => data | _ => [] end) in Hrun.
  assert (bf ≠ FbNonFile) as Hbf by by intros ->.
  assert (file_content base p b) as Hbc by (unfold file_content; rewrite Hb; destruct bf; [by left|by right|done]).
  clearbody b. destruct bf; try done;
    (apply result_bind_ok in Hrun as (af & Ha & Hrun);
     set (act := match af with FbBytes data => data | _ => [] end) in Hrun;
     assert (af ≠ FbNonFile) as Haf by (by intros ->);
     assert (file_content active p act) as Hac by (unfold file_content; rewrite Ha; destruct af; [by left|by right|done]);
     exists b, act; split_and!; [done..|]; rewrite merge_outcome_Some;
     clearbody act; destruct af; try done; by destruct (merge_outcome b act cmd); simplify_eq/=).
Qed.

(** A merge happens only where the fingerprints differ, with the last change. *)
Lemma resolve_validation_Some base active eff v r :
  resolve_validation sha256 f storage_root base active eff v = Ok (Some r) →
  ∃ fa a, content_fingerprint sha256 f storage_root active (sv_path v) = Ok fa ∧
    fa ≠ sv_expected v ∧ bt_lookup (as_str (sv_path v)) eff = Some a ∧ is_file_write (ac_change a) = true ∧ ac_route a = Source ∧
    ∃ cmd, read_command_bytes f (ac_change a) = Ok cmd ∧
      merge_path f storage_root base active (sv_path v) cmd = Ok (Some r).
Proof.
  intros Hrun. unfold resolve_validation in Hrun. destruct (negb _); [done|].
  apply result_bind_ok in Hrun as (fa & Hfa & Hrun).
  case_bool_decide as Heq; [done|]. cbn [orb] in Hrun. destruct (_ && _); [done|].
  destruct (bt_lookup _ eff) as [a|] eqn:Ha; [|done].
  destruct (is_file_write (ac_change a)) eqn:Hw; [|by rewrite orb_true_r in Hrun].
  case_bool_decide as Hroute; [|done]. cbn [negb orb] in Hrun. apply result_bind_ok in Hrun as (cmd & Hcmd & Hrun).
  apply result_bind_ok in Hrun as ([r'|] & Hm & Hrun); simplify_eq.
  by exists fa, a; eauto 10.
Qed.

Lemma resolve_validation_None base active eff v :
  resolve_validation sha256 f storage_root base active eff v = Ok None →
  validation_applies eff v = true →
  ∃ fa, content_fingerprint sha256 f storage_root active (sv_path v) = Ok fa ∧
    (fa = sv_expected v ∨
     source_and is_directory (bt_lookup (as_str (sv_path v)) eff) = true ∧
     sv_expected v = FpAbsent ∧ fa = FpDirectory).
Proof.
  intros Hrun Happ. unfold resolve_validation in Hrun. rewrite Happ in Hrun. cbn [negb] in Hrun.
  apply result_bind_ok in Hrun as (fa & Hfa & Hrun). exists fa. split; [done|].
  case_bool_decide as Heq; [by left|]. cbn [orb] in Hrun. right.
  destruct (source_and _ _ && _ && _) eqn:Hd.
  - rewrite !andb_true_iff, !bool_decide_eq_true in Hd. naive_solver.
  - destruct (bt_lookup _ eff) as [a|]; [|done]. destruct (negb _ || _); [done|].
    apply result_bind_ok in Hrun as (cmd & _ & Hrun).
    by apply result_bind_ok in Hrun as ([r'|] & _ & Hrun).
Qed.

(** The merged paths: each comes from a validation, and every validation has been
    resolved. *)
Lemma resolve_validations_spec base active eff vs : ∀ merged merged',
  resolve_validations sha256 f storage_root base active eff vs merged = Ok merged' →
  (∀ v, v ∈ vs → ∃ r, resolve_validation sha256 f storage_root base active eff v = Ok r) ∧
  (∀ k r, merged' !! k = Some r → merged !! k = Some r ∨ ∃ v, v ∈ vs ∧ as_str (sv_path v) = k ∧
     resolve_validation sha256 f storage_root base active eff v = Ok (Some r)) ∧
  (∀ v r, v ∈ vs → resolve_validation sha256 f storage_root base active eff v = Ok (Some r) →
     is_Some (merged' !! as_str (sv_path v))) ∧ dom merged ⊆ dom merged'.
Proof.
  induction vs as [|v vs IH]; intros merged merged' Hrun; cbn [resolve_validations] in Hrun.
  { simplify_eq. split_and!; [set_solver|naive_solver|set_solver|done]. }
  apply result_bind_ok in Hrun as (r & Hr & Hrun). destruct (IH _ _ Hrun) as (Hall & Hsrc & Hdst & Hdom).
  assert (dom merged ⊆ dom merged') as Hdom'.
  { etrans; [|done]. destruct r; [rewrite dom_insert_L; set_solver|done]. }
  split_and!; [| | |done].
  - intros v' [->|Hv']%elem_of_cons; [by eexists|by apply Hall].
  - intros k r' Hk. destruct (Hsrc k r' Hk) as [Hm|(v' & Hv' & ? & ?)].
    + destruct r as [r0|]; [|by left]. destruct (decide (as_str (sv_path v) = k)) as [<-|Hne].
      * rewrite lookup_insert_eq in Hm. simplify_eq. right. exists v. split; [by left|done].
      * rewrite lookup_insert_ne in Hm by done. by left.
    + right. exists v'. split; [by right|done].
  - intros v' r' [->|Hv']%elem_of_cons Hr'; [|by eapply Hdst].
    rewrite Hr in Hr'. simplify_eq. apply elem_of_dom, Hdom. rewrite dom_insert_L. set_solver.
Qed.

Lemma resolve_changes_each base merged accepted : ∀ rs,
  resolve_changes f storage_root base merged accepted = Ok rs →
  Forall2 (λ a c, ∃ o, resolve_accepted f storage_root base merged a = Ok (c, o)) accepted (rs_changes rs).
Proof.
  induction accepted as [|a accepted IH]; intros rs Hrun; cbn [resolve_changes] in Hrun.
  { by simplify_eq. }
  apply result_bind_ok in Hrun as ([c o] & Hc & Hrun). apply result_bind_ok in Hrun as (rest & Hrest & Hrun).
  simplify_eq. cbn. constructor; [by eexists|by apply IH].
Qed.

(** A change that is not merged is committed as it is. *)
Lemma resolve_accepted_same base merged a c o :
  merged !! as_str (change_path (ac_change a)) = None ∨ is_file_write (ac_change a) = false →
  resolve_accepted f storage_root base merged a = Ok (c, o) → c = ac_change a.
Proof.
  intros Hno Hrun. unfold resolve_accepted in Hrun.
  destruct (is_file_write (ac_change a)); cbn [negb] in Hrun; [|by simplify_eq].
  destruct (ac_route a); [|by simplify_eq]. destruct Hno as [Hno|]; [|done]. rewrite Hno in Hrun.
  apply result_bind_ok in Hrun as (cmd & _ & Hrun). apply result_bind_ok in Hrun as (rg & _ & Hrun).
  by simplify_eq.
Qed.

Lemma resolved_fits base active plan merged a c o :
  Forall (validation_ok sha256 f storage_root base) (pp_source_validations plan) →
  accepted_ok (pp_source_validations plan) a →
  resolve_validations sha256 f storage_root base active (effective_changes plan)
    (pp_source_validations plan) ∅ = Ok merged →
  resolve_accepted f storage_root base merged a = Ok (c, o) →
  ac_route a = Source → is_opaque_dir (ac_change a) = false → effective plan a →
  fits base active a c.
Proof.
  intros Hvs [_ Hex] Hres Hacc Hroute Hop Heff. destruct (Hex Hroute Hop) as (v & Hv & Hvp & Hprov).
  destruct (resolve_validations_spec _ _ _ _ _ _ Hres) as (Hall & Hsrc & Hdst & _).
  rewrite Forall_forall in Hvs. pose proof (Hvs v Hv) as Hfb. unfold validation_ok in Hfb. rewrite Hvp in Hfb.
  assert (∀ r, merged !! as_str (change_path (ac_change a)) = Some r →
    ∃ v', sv_path v' = change_path (ac_change a) ∧ sv_expected v' = sv_expected v ∧
      resolve_validation sha256 f storage_root base active (effective_changes plan) v' = Ok (Some r)) as Hmerged.
  { intros r Hr. destruct (Hsrc _ _ Hr) as [Hm|(v' & Hv' & Hk & Hres')]; [by rewrite lookup_empty in Hm|].
    apply as_str_inj in Hk. exists v'. pose proof (Hvs v' Hv') as Hfb'. unfold validation_ok in Hfb'.
    rewrite Hk, Hfb in Hfb'. split_and!; [done| |done]. by injection Hfb'. }
  destruct (Hall v Hv) as [[r|] Hr].
  - apply Hdst in Hr as [r' Hr']; [|done]. rewrite Hvp in Hr'. destruct (Hmerged _ Hr') as (v' & Hp' & He' & Hrv).
    apply resolve_validation_Some in Hrv as (fa & a' & Hfa & Hne & Ha' & Hw & _ & cmd & Hcmd & Hm).
    rewrite Hp' in *. rewrite He' in Hne. unfold effective in Heff. rewrite Heff in Ha'. simplify_eq.
    exists (sv_expected v), fa. split_and!; [done..|]. right. right. split_and!; [done..|].
    apply merge_path_Some in Hm as (b & act & Hb & Hact & Hm). exists b, act, cmd, (mp_bytes r'), (mp_origin r').
    split_and!; [done..|]. unfold resolve_accepted in Hacc. rewrite Hw, Hroute, Hr' in Hacc.
    cbn [negb] in Hacc. by simplify_eq.
  - apply resolve_validation_None in Hr as (fa & Hfa & Hcase); [|unfold validation_applies; by rewrite Hprov].
    rewrite Hvp in *. exists (sv_expected v), fa. split_and!; [done..|].
    destruct Hcase as [->|(Hdir & Hab & ->)].
    + left. split; [done|]. eapply resolve_accepted_same; [left|done].
      destruct (merged !! _) as [r|] eqn:Hmr; [|done]. destruct (Hmerged r eq_refl) as (v' & Hp' & He' & Hrv).
      apply resolve_validation_Some in Hrv as (fa' & _ & Hfa' & Hne & _). rewrite Hp', Hfa in Hfa'. congruence.
    + right. left. unfold effective in Heff. rewrite Heff in Hdir. cbn in Hdir.
      apply andb_true_iff in Hdir as [_ Hdir]. split_and!; [done..|].
      eapply resolve_accepted_same; [right; by destruct (ac_change a)|done].
Qed.
(** Superseded writes and opaque directories included. *)
Lemma resolved_committed base active plan merged a c o :
  resolve_validations sha256 f storage_root base active (effective_changes plan)
    (pp_source_validations plan) ∅ = Ok merged →
  resolve_accepted f storage_root base merged a = Ok (c, o) → committed_as base active plan a c.
Proof.
  intros Hres Hacc. destruct (resolve_validations_spec _ _ _ _ _ _ Hres) as (_ & Hsrc & _ & _).
  destruct (merged !! as_str (change_path (ac_change a))) as [r|] eqn:Hr;
    [|left; eapply resolve_accepted_same; [by left|done]].
  destruct (is_file_write (ac_change a)) eqn:Hw; [|left; eapply resolve_accepted_same; [by right|done]].
  unfold resolve_accepted in Hacc. rewrite Hw, Hr in Hacc. cbn [negb] in Hacc.
  destruct (ac_route a) eqn:Hroute; [|left; by simplify_eq]. right. split_and!; [done..|].
  destruct (Hsrc _ _ Hr) as [Hm|(v & _ & Hk & Hv)]; [by rewrite lookup_empty in Hm|]. apply as_str_inj in Hk.
  apply resolve_validation_Some in Hv as (fa & e & _ & _ & He & Hwe & Hre & cmd & Hcmd & Hm).
  destruct (effective_of _ _ _ He) as [Hin Hp]. apply as_str_inj in Hp. rewrite Hk in *. exists e. unfold effective. rewrite Hp.
  split_and!; [done..|]. apply merge_path_Some in Hm as (b & act & Hb & Hact & Hm).
  exists b, act, cmd, (mp_bytes r), (mp_origin r). rewrite Hp. split_and!; [done..|]. by simplify_eq.
Qed.
End resolution.

(** C1: no concurrent change is lost.  When a publish is resolved against the
    active manifest, the accepted changes are the requested ones, and one change
    is committed for each, in order: the change as it is, or, for a write of a
    source file, the clean three-way merge of the base, the active content and the
    last change of that path.  A gitignored change is always committed as it is.
    The last source change of a path other than an opaque directory finds the path
    as its base had it and is committed as it is, or creates a directory that
    someone else created meanwhile, or writes a file that changed meanwhile and is
    committed as the merge. *)
Theorem publish_no_lost_update sha256 (HG : Gitignore) f root active request plan rs :
  plan_publish sha256 f root request = Ok plan →
  resolve_publish_changes sha256 f root active request plan = Ok rs →
  ac_change <$> pp_accepted plan = rq_changes request ∧
  Forall2 (λ a c,
      committed_as f root (base_manifest (rq_base request)) active plan a c ∧
      (ac_route a = Ignored → c = ac_change a) ∧
      (ac_route a = Source → is_opaque_dir (ac_change a) = false → effective plan a →
       fits sha256 f root (base_manifest (rq_base request)) active a c))
    (pp_accepted plan) (rs_changes rs).
Proof.
  intros (Hv & Ha & _ & Hch)%plan_publish_ok Hrun. split; [done|].
  unfold resolve_publish_changes, resolve_source_conflicts in Hrun.
  apply result_bind_ok in Hrun as (merged & Hm & Hrun).
  apply result_bind_ok in Hm as (merged' & Hm & Hst). apply result_bind_ok in Hst as ([] & _ & Hst).
  simplify_eq. apply resolve_changes_each in Hrun. revert Ha. clear Hch.
  induction Hrun as [|a c accepted cs [o Hc] Hrun IH]; intros Ha; [constructor|].
  apply Forall_cons in Ha as [Hacc Ha]. constructor; [|by apply IH]. split_and!.
  - by eapply resolved_committed.
  - intros Hr. unfold resolve_accepted in Hc. rewrite Hr in Hc.
    destruct (negb _); by simplify_eq.
  - intros Hr Hop Heff. by eapply resolved_fits.
Qed.

(** ** Directories that a change replaces *)

Lemma union_descendants_keys p ds : ∀ set set',
  union_descendants p ds set = Ok set' → ∀ k, k ∈ set'.*1 ↔ k ∈ set.*1 ∨ mkLayerPath k ∈ ds.
Proof.
  induction ds as [|d ds IH]; intros set set' Hrun k; cbn [union_descendants] in Hrun.
  { simplify_eq. set_solver. }
  case_decide; [done|]. rewrite (IH _ _ Hrun), bt_insert_keys, elem_of_cons. destruct d as [d]. cbn.
  naive_solver.
Qed.

Section structure.
Context (sha256 : bytes → bytes) (f : fs) (storage_root : path).

Lemma compare_descendants_same base active ds :
  compare_descendants sha256 f storage_root base active ds = Ok () →
  ∀ d, d ∈ ds → ∃ fp, content_fingerprint sha256 f storage_root base (mkLayerPath d) = Ok fp ∧
    content_fingerprint sha256 f storage_root active (mkLayerPath d) = Ok fp.
Proof.
  induction ds as [|d0 ds IH]; intros Hrun d Hd; [by apply elem_of_nil in Hd|].
  cbn [compare_descendants] in Hrun. apply result_bind_ok in Hrun as (fb & Hfb & Hrun).
  apply result_bind_ok in Hrun as (fa & Hfa & Hrun). case_decide as Hne; [done|].
  subst fa. apply elem_of_cons in Hd as [->|Hd]; [by eexists|by apply IH].
Qed.

(** The descendants of a replaced directory, on both sides, and that they agree. *)
Definition unchanged_below (base active : Manifest) (p : LayerPath) : Prop :=
  ∃ bd ad,
    visible_descendants f storage_root p base OPAQUE_DIR_EXPANSION_LIMIT = Ok bd ∧
    visible_descendants f storage_root p active OPAQUE_DIR_EXPANSION_LIMIT = Ok ad ∧
    length bd ≤ OPAQUE_DIR_EXPANSION_LIMIT ∧ length ad ≤ OPAQUE_DIR_EXPANSION_LIMIT ∧
    ∀ d, d ∈ bd ++ ad → ∃ fp, content_fingerprint sha256 f storage_root base d = Ok fp ∧
      content_fingerprint sha256 f storage_root active d = Ok fp.

Lemma validate_structures_same base active eff k a :
  validate_structures sha256 f storage_root base active eff = Ok () → (k, a) ∈ eff →
  source_and replaces (Some a) = true →
  content_fingerprint sha256 f storage_root base (mkLayerPath k) = Ok FpDirectory →
  unchanged_below base active (mkLayerPath k).
Proof.
  induction eff as [|[k0 a0] eff IH]; intros Hrun Hin Hs Hfp; [by apply elem_of_nil in Hin|].
  cbn [validate_structures] in Hrun. apply result_bind_ok in Hrun as ([] & Hone & Hrun).
  apply elem_of_cons in Hin as [[= <- <-]|Hin]; [|by apply IH]. clear IH Hrun.
  unfold validate_structure in Hone. rewrite Hs, Hfp in Hone. cbn [negb result_bind] in Hone.
  rewrite decide_False in Hone by naive_solver.
  apply result_bind_ok in Hone as (bd & Hbd & Hone). apply result_bind_ok in Hone as (ad & Had & Hone).
  case_decide as Hlim; [done|]. apply result_bind_ok in Hone as (set & Hset & Hone).
  exists bd, ad. split_and!; [done|done|lia|lia|]. intros [d] Hd.
  eapply compare_descendants_same; [done|]. rewrite (union_descendants_keys _ _ _ _ Hset). by right.
Qed.
End structure.

Lemma foldl_bt_insert_sorted {V} (g : V → bytes) (l : list V) : ∀ m,
  bt_sorted m → bt_sorted (foldl (λ m x, bt_insert (g x) x m) m l).
Proof. induction l as [|x l IH]; intros m Hm; [done|]. cbn. by apply IH, bt_insert_sorted. Qed.

Lemma effective_changes_sorted plan : bt_sorted (effective_changes plan).
Proof. apply foldl_bt_insert_sorted. constructor. Qed.

(** C32: a publish that replaces or removes a source directory loses nothing added
    to it meanwhile.  When the base is not the active manifest and the last change
    of a path is routed as a source change and writes, links, deletes or makes
    opaque what the base has as a directory, a successful resolution has compared
    the paths visible below it in the base and in the active manifest, within the
    limit, and each has the same fingerprint on both sides.  Gitignored changes are
    not compared. *)
Theorem publish_replaced_dir_unchanged sha256 (HG : Gitignore) f root active request plan rs k a :
  resolve_publish_changes sha256 f root active request plan = Ok rs →
  base_manifest (rq_base request) ≠ active →
  bt_lookup k (effective_changes plan) = Some a →
  ac_route a = Source → is_directory (ac_change a) = false →
  content_fingerprint sha256 f root (base_manifest (rq_base request)) (mkLayerPath k) = Ok FpDirectory →
  unchanged_below sha256 f root (base_manifest (rq_base request)) active (mkLayerPath k).
Proof.
  intros Hrun Hne Ha Hroute Hdir Hfp. unfold resolve_publish_changes, resolve_source_conflicts in Hrun.
  apply result_bind_ok in Hrun as (merged & Hm & _). apply result_bind_ok in Hm as (merged' & _ & Hm).
  apply result_bind_ok in Hm as ([] & Hst & _). unfold validate_structural_source_conflicts in Hst.
  rewrite decide_False in Hst by done. eapply validate_structures_same; [done| | |done].
  - apply bt_lookup_elem; [apply effective_changes_sorted|done].
  - cbn. rewrite bool_decide_true by done. unfold replaces. by rewrite Hdir.
Qed.

(** ** Publishing on the head *)

Section head.
Context (f : fs) (storage_root : path).

(** With a smaller limit a read that succeeded can only fail for size. *)
Lemma read_entry_loop_limit ls rel e k :
  read_entry_loop f storage_root ls rel USIZE_MAX = Ok e →
  (∃ e', read_entry_loop f storage_root ls rel k = Ok e') ∨
  (∃ size limit, read_entry_loop f storage_root ls rel k = Err (FileTooLarge size limit)).
Proof.
  induction ls as [|l ls IH]; intros Hrun; cbn [read_entry_loop] in *; [by left; eexists|].
  apply result_bind_ok in Hrun as (d & -> & Hrun). cbn [result_bind].
  destruct (is_whiteouted f d rel); [by left; eexists|].
  destruct (symlink_metadata f (join_layer_path d rel)) as [[data mode xs|t| | |]|[]];
    [| |by left; eexists|done|done| | |done..].
  - unfold read_file_limited in *. case_decide; [done|].
    destruct (read f (join_layer_path d rel)) as [data'|e0]; [|done].
    cbn [map_err result_bind]. case_decide; [by right; do 2 eexists|].
    case_decide; [by right; do 2 eexists|by left; eexists].
  - apply result_bind_ok in Hrun as (t' & -> & _). by left; eexists.
  - destruct (lookup_blocked_by_layer f d rel); [by left; eexists|by apply IH].
  - destruct (lookup_blocked_by_layer f d rel); [by left; eexists|done].
Qed.

Lemma read_file_ok m p e :
  read_entry f storage_root (as_str p) m = Ok e → ∃ fb, read_file f storage_root m p = Ok fb.
Proof.
  intros Hrun. unfold read_entry, read_entry_limited in Hrun. apply result_bind_ok in Hrun as (rel & Hrel & Hrun).
  unfold read_file, read_entry_limited. rewrite Hrel. cbn [result_bind].
  eapply read_entry_loop_limit in Hrun as [[e' ->]|(size & limit & ->)]; [destruct e'|]; by eexists.
Qed.
End head.

(** The bytes a file write brings are readable. *)
Definition readable (f : fs) (c : LayerChange) : Prop :=
  match c with WriteFile _ source_path _ => ∃ data, read f source_path = Ok data | _ => True end.

Lemma resolve_validation_head sha256 f root base eff v :
  validation_ok sha256 f root base v → resolve_validation sha256 f root base base eff v = Ok None.
Proof.
  intros Hv. unfold resolve_validation. destruct (negb _); [done|]. rewrite Hv. cbn [result_bind].
  by rewrite bool_decide_true.
Qed.

Lemma resolve_accepted_head sha256 f root base svs a :
  Forall (validation_ok sha256 f root base) svs → accepted_ok svs a → readable f (ac_change a) →
  ∃ o, resolve_accepted f root base ∅ a = Ok (ac_change a, o) ∧
    (is_Some o ↔ is_file_write (ac_change a) = true).
Proof.
  intros Hvs [_ Hex] Hread. unfold resolve_accepted.
  destruct (is_file_write (ac_change a)) eqn:Hw; cbn [negb]; [|eexists; by split; [|split; [intros []|]]].
  destruct (ac_route a) eqn:Hr; [|by eexists]. rewrite lookup_empty.
  assert (is_opaque_dir (ac_change a) = false) as Hop by by destruct (ac_change a).
  destruct (Hex eq_refl Hop) as (v & Hv & Hp & _). rewrite Forall_forall in Hvs. specialize (Hvs v Hv).
  unfold validation_ok, content_fingerprint in Hvs. apply result_bind_ok in Hvs as (e & He & _).
  rewrite Hp in He. apply read_file_ok in He as [fb Hfb].
  assert (∃ cmd, read_command_bytes f (ac_change a) = Ok cmd) as [cmd ->].
  { destruct (ac_change a); try by eexists. destruct Hread as [data Hd]. cbn. rewrite Hd. by eexists. }
  cbn [result_bind]. unfold clean_origin. rewrite Hfb. cbn [result_bind].
  destruct fb; [..|by eexists]; destruct (merge_outcome _ _ _); by eexists.
Qed.

(** A publish whose base is the active manifest, as every sessionless edit
    makes it, meets no conflict: once planned, its resolution succeeds provided
    the files it spools from can be read, and commits the requested changes
    themselves, in order, with an origin for each file write. *)
Theorem publish_on_head_never_conflicts sha256 (HG : Gitignore) f root request plan :
  plan_publish sha256 f root request = Ok plan → Forall (readable f) (rq_changes request) →
  ∃ rs, resolve_publish_changes sha256 f root (base_manifest (rq_base request)) request plan = Ok rs ∧
    rs_changes rs = rq_changes request ∧
    (rs_origin rs).*1 = change_path <$> filter (λ c, is_file_write c = true) (rq_changes request).
Proof.
  intros (Hv & Ha & _ & Hch)%plan_publish_ok Hread. rewrite <-Hch in *.
  unfold resolve_publish_changes, resolve_source_conflicts, validate_structural_source_conflicts.
  set (base := base_manifest (rq_base request)) in *.
  assert (∀ eff, resolve_validations sha256 f root base base eff (pp_source_validations plan) ∅ = Ok ∅) as ->.
  { intros eff. clear Ha. induction Hv as [|v vs Hv1 Hvs IH]; [done|]. cbn [resolve_validations].
    by rewrite resolve_validation_head. }
  cbn [result_bind]. rewrite decide_True by done. cbn [result_bind]. clear Hch.
  induction Ha as [|a accepted Hacc Hall IH]; [by eexists|]. cbn [resolve_changes]. rewrite fmap_cons in *.
  apply Forall_cons in Hread as [Hr Hread]. destruct (IH Hread) as (rs & -> & Hc & Ho).
  destruct (resolve_accepted_head sha256 f root base _ a Hv Hacc Hr) as (o & -> & Hiff).
  cbn [result_bind fst snd]. eexists. split; [done|]. cbn [rs_changes rs_origin]. split; [by rewrite Hc|].
  rewrite filter_cons. destruct o as [o|]; [rewrite decide_True by naive_solver|rewrite decide_False by naive_solver];
    csimpl; by rewrite Ho.
Qed.

(** Nothing reserved is ever published.  A planned publish has a base revision
    that matches its manifest and no dropped path other than a special file, and
    none of its changes names a reserved top-level entry, a [.layer-metadata]
    component or a component that reads as a whiteout marker; each change is
    counted on the route it takes. *)
Theorem planned_paths_unreserved sha256 (HG : Gitignore) f root request plan :
  plan_publish sha256 f root request = Ok plan →
  rv_root_hash (base_revision (rq_base request)) =
    manifest_root_hash sha256 (base_manifest (rq_base request)) ∧
  Forall (λ d, drop_reason d = UnsupportedSpecialFile) (rq_protected_drops request) ∧
  (∀ c, c ∈ rq_changes request →
     (∀ first, head (comps (change_path c)) = Some first →
        first ∉ [lit "manifest.json"; lit "workspace.json"; lit "layers"; lit "staging"]) ∧
     ∀ part, part ∈ comps (change_path c) →
       part ≠ lit ".layer-metadata" ∧ starts_with LOGICAL_WHITEOUT_PREFIX part = false) ∧
  source_count (pp_route_summary plan) + ignored_count (pp_route_summary plan) =
    length (rq_changes request).
Proof.
  intros Hrun. pose proof Hrun as (_ & Ha & Hs & Hch)%plan_publish_ok. unfold plan_publish in Hrun.
  apply result_bind_ok in Hrun as ([] & Hbase & Hrun). split_and!.
  - unfold validate_base_revision in Hbase. case_decide as Hd; [done|].
    apply dec_stable. naive_solver.
  - destruct (list_find _ _) as [[]|] eqn:Hf; [done|]. apply list_find_None in Hf.
    eapply Forall_impl; [done|]. intros d Hd. by apply dec_stable.
  - rewrite <-Hch. intros c Hc. apply list_elem_of_fmap in Hc as (a & -> & Hin).
    rewrite Forall_forall in Ha. destruct (Ha a Hin) as [Hforb _]. unfold forbidden_path, is_protected in Hforb.
    destruct (_ || _) eqn:Hp; [done|]. apply orb_false_iff in Hp as [Hfirst Hparts].
    rewrite bool_decide_eq_false in Hfirst. fold (comps (change_path (ac_change a))) in *. split.
    + intros first Hf. rewrite Hf in Hfirst. cbn in Hfirst. set_solver.
    + intros part Hpart. rewrite <-not_true_iff_false, existsb_exists in Hparts.
      destruct (starts_with LOGICAL_WHITEOUT_PREFIX part) eqn:Hw.
      * exfalso. apply Hparts. exists part. split; [by apply list_elem_of_In|].
        fold LOGICAL_WHITEOUT_PREFIX. by rewrite Hw, orb_true_r.
      * split; [|done]. intros ->. apply Hparts. eexists. split; [by apply list_elem_of_In|done].
  - rewrite Hs. destruct (summary_count (pp_accepted plan)) as [-> ->]. rewrite <-Hch, length_fmap.
    clear. induction (pp_accepted plan) as [|a l IH]; [done|]. rewrite !filter_cons.
    repeat case_decide; destruct (ac_route a); simplify_eq; cbn; lia.
Qed.

(** ** A concurrent publish, evaluated

    The base has [a.txt] and the directory [d]; since then another publish changed
    the last line of [a.txt].  The request changes the first line and deletes
    [d].  SHA-256 is the identity here, and the matcher ignores the paths that
    stand in the file. *)

Definition line_gitignore : Gitignore := {|
  matcher := list bytes;
  build_matcher := Some;
  matched lines p _ := if bool_decide (p ∈ lines) then GitIgnore else GitNone;
|}.

Definition nl (s : string) : bytes := lit s ++ [newline].

Definition pub_fs : fs :=
  {[ demo_upper ++ [lit "a.txt"] := NFile (nl "1" ++ nl "2" ++ nl "X") 0x1a4 ∅;
     demo_lower ++ [lit "a.txt"] := NFile (nl "1" ++ nl "2" ++ nl "3") 0x1a4 ∅;
     demo_lower ++ [lit "d"] := NDir 0x1ed ∅;
     demo_lower ++ [lit "d"; lit "x"] := NFile (lit "data") 0x1a4 ∅;
     demo_lower ++ [lit ".gitignore"] := NFile (nl "tmp") 0x1a4 ∅ ]} ∪ demo_dirs.

Definition pub_base : Manifest := mkManifest 1 [mkLayerRef (lit "L1") (lit "layers/L1")] 1.

Definition pub_request (base : Manifest) : PublishValidatedChangesRequest :=
  mkRequest
    (mkBase base (mkRevision (version base) (manifest_root_hash id base) (length (layers base))))
    [Write (mkLayerPath (lit "a.txt")) (nl "Y" ++ nl "2" ++ nl "3"); Delete (mkLayerPath (lit "d"))] [].

Definition pub_plan (base : Manifest) : PublishPlan :=
  match plan_publish (H := line_gitignore) id pub_fs demo_root (pub_request base) with
  | Ok plan => plan
  | Err _ => mkPlan [] [] (mkSummary 0 0)
  end.

Definition pub_resolved : ResolvedChangeset :=
  match resolve_publish_changes id pub_fs demo_root demo_manifest (pub_request pub_base)
          (pub_plan pub_base) with
  | Ok rs => rs
  | Err _ => mkResolved [] []
  end.

Definition pub_write : AcceptedChange :=
  mkAccepted (Write (mkLayerPath (lit "a.txt")) (nl "Y" ++ nl "2" ++ nl "3")) Source.

Lemma publish_no_lost_update_witness :
  rs_changes pub_resolved =
    [Write (mkLayerPath (lit "a.txt")) (nl "Y" ++ nl "2" ++ nl "X"); Delete (mkLayerPath (lit "d"))] ∧
  fits id pub_fs demo_root pub_base demo_manifest pub_write
    (Write (mkLayerPath (lit "a.txt")) (nl "Y" ++ nl "2" ++ nl "X")).
Proof.
  destruct (publish_no_lost_update id line_gitignore pub_fs demo_root demo_manifest (pub_request pub_base)
    (pub_plan pub_base) pub_resolved) as [_ Hall].
  - vm_compute. reflexivity.
  - vm_compute. reflexivity.
  - assert (rs_changes pub_resolved =
      [Write (mkLayerPath (lit "a.txt")) (nl "Y" ++ nl "2" ++ nl "X"); Delete (mkLayerPath (lit "d"))])
      as Hcs by (vm_compute; reflexivity).
    split; [exact Hcs|]. rewrite Hcs in Hall.
    destruct (Forall2_lookup_lr _ _ _ 0 pub_write
      (Write (mkLayerPath (lit "a.txt")) (nl "Y" ++ nl "2" ++ nl "X")) Hall) as (_ & _ & Hfit);
      [vm_compute; reflexivity|reflexivity|].
    apply Hfit; vm_compute; reflexivity.
Defined.

Lemma publish_replaced_dir_unchanged_witness :
  unchanged_below id pub_fs demo_root pub_base demo_manifest (mkLayerPath (lit "d")).
Proof.
  apply (publish_replaced_dir_unchanged id line_gitignore pub_fs demo_root demo_manifest
    (pub_request pub_base) (pub_plan pub_base) pub_resolved (lit "d")
    (mkAccepted (Delete (mkLayerPath (lit "d"))) Source)).
  - vm_compute. reflexivity.
  - discriminate.
  - vm_compute. reflexivity.
  - reflexivity.
  - reflexivity.
  - vm_compute. reflexivity.
Defined.

Lemma publish_on_head_never_conflicts_witness :
  ∃ rs, resolve_publish_changes id pub_fs demo_root demo_manifest (pub_request demo_manifest)
          (pub_plan demo_manifest) = Ok rs ∧
    rs_changes rs = rq_changes (pub_request demo_manifest).
Proof.
  destruct (publish_on_head_never_conflicts id line_gitignore pub_fs demo_root (pub_request demo_manifest)
    (pub_plan demo_manifest)) as (rs & Hrun & Hcs & _).
  - vm_compute. reflexivity.
  - repeat constructor.
  - exists rs. split; [exact Hrun|exact Hcs].
Defined.

Lemma planned_paths_unreserved_witness :
  source_count (pp_route_summary (pub_plan pub_base)) +
  ignored_count (pp_route_summary (pub_plan pub_base)) = 2.
Proof.
  destruct (planned_paths_unreserved id line_gitignore pub_fs demo_root (pub_request pub_base)
    (pub_plan pub_base)) as (_ & _ & _ & Hcount).
  - vm_compute. reflexivity.
  - exact Hcount.
Defined.
