(* ===== verification/Stack.v ===== *)
(** * The layer stack: [stack/mod.rs], [stack/ops/], [stack/file_read.rs]

    The operations of [LayerStack] on a storage root, each run in one piece: the
    writer lock of [storage/lock.rs] serialises them.  A publish writes the
    changes into a staging directory, moves it into place and then replaces the
    manifest. *)

From S2P Require Import Prelude ByteStr Merge Model FS Storage View World StorageOps.
From S2P Require Import Lease Descend Publish.

(** ** Data *)

(** [struct PublishLayerOutcome] *)
Record PublishLayerOutcome := mkOutcome { oc_manifest : Manifest; oc_created : bool }.

Record PublishValidatedChangesResult := mkPublishResult {
  pr_manifest : Manifest;
  pr_route_summary : PublishRouteSummary;
  pr_no_op : bool;
  pr_origin : list (LayerPath * list (LineRange * Origin));
}.

Record AmendCommit := mkAmend {
  am_existed_before : bool;
  am_bytes_written : nat;
  am_origin : list (LayerPath * list (LineRange * Origin));
  am_changes : list LayerChange;
}.

Inductive AmendError (E : Type) := Transform (e : E) | LayerStackFailed (e : LayerStackError).
Arguments Transform {E} e.
Arguments LayerStackFailed {E} e.

(** [struct LayerStatus], [struct StackObservation], [struct Snapshot] *)
Record LayerStatus := mkStatus { ls_layer : LayerRef; leased_by_workspaces : nat }.

Record StackObservation := mkObservation {
  ob_manifest_version : Z;
  ob_root_hash : bytes;
  ob_active_lease_count : nat;
  ob_layers : list LayerStatus;
}.

Record Snapshot := mkSnapshot {
  sn_manifest_version : Z;
  sn_root_hash : bytes;
  sn_layer_paths : list path;
}.

(** ** Opening a root: [stack/mod.rs], [storage/lock.rs] *)

Definition STORAGE_WRITER_LOCK_FILE : bytes := lit ".storage-writer.lock".

(** [OpenOptions::new().read(true).write(true).create(true).open(p)] *)
Definition open_or_create (p : path) : io errno () :=
  syscall (λ f,
    (let? q := resolve f true p in
     match f !! q with
     | None => Ok (tt, <[q := NFile [] 0x1a4 ∅]> f)
     | Some (NFile _ _ _) => Ok (tt, f)
     | Some (NDir _ _) => Err EISDIR
     | Some _ => Err EIO
     end)%result).

(** [LayerStack::open]: [registered] tells whether this process has the root open
    already; otherwise the lock file is opened and locked. *)
Definition open_stack (registered : bool) (stack : path) : io LayerStackError () :=
  (run lift_err Io (create_dir_all (stack ++ [LAYERS_DIR]));
   run lift_err Io (create_dir_all (stack ++ [STAGING_DIR]));
   run lift_err Io (create_dir_all stack);
   if registered then ret ()
   else
     run lift_err Io (open_or_create (stack ++ [STORAGE_WRITER_LOCK_FILE]));
     lift_err (λ _, StorageRootOwned (join_with slash stack)) sync)%io.

Section stack.
Context (sha256 : bytes → bytes) `{ManifestCodec} `{Gitignore}.
(** [std::process::id()], the failpoint variable of the environment, and the root. *)
Context (pid : N) (failpoints : bool) (storage_root : path).

Definition manifest_path : path := storage_root ++ [ACTIVE_MANIFEST_FILE].

Definition read_active_manifest_unlocked : io LayerStackError Manifest :=
  reads (λ f, read_manifest f manifest_path).

(** ** [ops/publish.rs] *)

Definition head_layer_digest (f : fs) (m : Manifest) : result (option bytes) LayerStackError :=
  match head (layers m) with
  | None => Ok None
  | Some l =>
      match read_to_string f (layer_digest_path storage_root (layer_id l)) with
      | Ok value => Ok (Some value)
      | Err ENOENT => Ok None
      | Err e => Err (Io e)
      end
  end.

Definition FAIL_NEXT_PUBLISH_MARKER_FILE : bytes := lit "fail-next-publish".

Definition take_publish_failpoint_marker : io LayerStackError () :=
  if negb failpoints then ret ()
  else
    (do r := attempt (remove_file (storage_root ++ [LAYER_METADATA_DIR; FAIL_NEXT_PUBLISH_MARKER_FILE])) in
     match r with
     | Ok _ => fail (Storage InjectedPublishFailure)
     | Err ENOENT => ret ()
     | Err e => fail (Io e)
     end)%io.

(** [LayerRef { layer_id, path: "layers/<id>" }] *)
Definition new_ref (id : bytes) : LayerRef := mkLayerRef id (LAYERS_DIR ++ [slash] ++ id).

(** Writing the changes into the staging directory; it is removed on failure. *)
Definition stage_layer (staging_dir : path) (changes : list LayerChange) : io LayerStackError () :=
  (do r := attempt (
     run write_layer_changes staging_dir changes;
     run fsync_tree_files staging_dir;
     fsync_dir staging_dir) in
   match r with
   | Ok _ => ret ()
   | Err err => run attempt (F := LayerStackError) (remove_dir_all staging_dir); fail err
   end)%io.

(** The rename of the staging directory to its place. *)
Definition promote_layer (staging_dir layer_dir : path) : io LayerStackError () :=
  (do r := attempt (fs_rename staging_dir layer_dir) in
   match r with
   | Ok _ => fsync_dir (parent layer_dir)
   | Err err => run attempt (F := LayerStackError) (remove_dir_all staging_dir); fail (Io err)
   end)%io.

Definition publish_layer_unlocked (active : Manifest) (changes : list LayerChange)
    : io LayerStackError PublishLayerOutcome :=
  (do digest := lift_err Io (reads (λ f, try_layer_digest sha256 (read f) changes)) in
   do head_digest := reads (λ f, head_layer_digest f active) in
   if decide (head_digest = Some digest) then ret (mkOutcome active false)
   else
     run take_publish_failpoint_marker;
     let next_version := (version active + 1)%Z in
     do dirs := allocate_layer_dirs storage_root Byte.x4c next_version in
     let '(id, staging_dir, layer_dir) := dirs in
     run lift_err Io (create_dir_all staging_dir);
     run stage_layer staging_dir changes;
     run promote_layer staging_dir layer_dir;
     do wrote_digest := attempt (write_layer_digest pid storage_root id digest) in
     match wrote_digest with
     | Err err => run attempt (F := LayerStackError) (remove_path layer_dir); fail err
     | Ok _ =>
         do latest := read_active_manifest_unlocked in
         let undo :=
           run attempt (F := LayerStackError) (remove_path layer_dir);
           run attempt (F := LayerStackError) (remove_file (layer_digest_path storage_root id));
           ret () in
         if decide (latest ≠ active) then
           run undo; fail (ManifestConflict (version active) (version latest))
         else
           do manifest := lift_err Cas (reads (λ _,
             manifest_new next_version (new_ref id :: layers active) (schema_version active))) in
           do wrote_manifest := attempt (write_manifest pid manifest_path manifest) in
           match wrote_manifest with
           | Err err => run undo; fail err
           | Ok _ =>
               run attempt (F := LayerStackError)
                 (write_layer_bytes pid storage_root id (published_layer_bytes changes));
               ret (mkOutcome manifest true)
           end
     end)%io.

Definition publish_layer (changes : list LayerChange) : io LayerStackError Manifest :=
  (do active := read_active_manifest_unlocked in
   do outcome := publish_layer_unlocked active changes in
   ret (oc_manifest outcome))%io.

Definition publish_validated_changes (request : PublishValidatedChangesRequest)
    : io LayerStackError PublishValidatedChangesResult :=
  (do plan := reads (λ f, plan_publish sha256 f storage_root request) in
   do active := read_active_manifest_unlocked in
   do resolved := reads (λ f, resolve_publish_changes sha256 f storage_root active request plan) in
   if decide (rs_changes resolved = []) then
     ret (mkPublishResult active (pp_route_summary plan) true [])
   else
     do outcome := publish_layer_unlocked active (rs_changes resolved) in
     ret (mkPublishResult (oc_manifest outcome) (pp_route_summary plan) (negb (oc_created outcome))
            (if oc_created outcome then rs_origin resolved else [])))%io.

(** ** [ops/read.rs], [dir_list.rs], [file_read.rs] *)

Definition read_bytes_limited (p : bytes) (max_bytes : Z) : io LayerStackError (option bytes * bool) :=
  (do m := read_active_manifest_unlocked in
   reads (λ f, view_read_bytes_limited f storage_root p m max_bytes))%io.

Definition read_bytes (p : bytes) : io LayerStackError (option bytes * bool) :=
  read_bytes_limited p USIZE_MAX.

Definition read_text (p : bytes) : io LayerStackError (bytes * bool) :=
  (do r := read_bytes p in
   let '(data, present) := r in
   if negb present then ret ([], false)
   else
     let data := default [] data in
     if utf8_valid data then ret (data, true) else fail (Storage NotUtf8))%io.

Definition list_dir (rel : option LayerPath) (limit : nat) : io LayerStackError ManifestDirList :=
  (do m := read_active_manifest_unlocked in
   reads (λ f, view_list_dir f storage_root rel m limit))%io.

Definition read_classified (rel : LayerPath) (max_bytes : Z) : io LayerStackError ManifestFileRead :=
  (do m := read_active_manifest_unlocked in
   reads (λ f, view_read_classified f storage_root (as_str rel) m max_bytes))%io.

(** The request of [amend_path]: one write on the active head. *)
Definition amend_request (active : Manifest) (rel : LayerPath) (new_bytes : bytes)
    : PublishValidatedChangesRequest :=
  mkRequest
    (mkBase active
       (mkRevision (version active) (manifest_root_hash sha256 active) (length (layers active))))
    [Write rel new_bytes] [].

Definition amend_path {E : Type} (rel : LayerPath) (max_bytes : Z)
    (transform : ManifestFileRead → result bytes E) : io (AmendError E) AmendCommit :=
  (do active := lift_err LayerStackFailed read_active_manifest_unlocked in
   do r := lift_err LayerStackFailed
             (reads (λ f, view_read_classified f storage_root (as_str rel) active max_bytes)) in
   let existed_before := match r with RFile _ _ => true | _ => false end in
   do new_bytes := lift_err Transform (reads (λ _, transform r)) in
   let request := amend_request active rel new_bytes in
   do plan := lift_err LayerStackFailed (reads (λ f, plan_publish sha256 f storage_root request)) in
   do resolved := lift_err LayerStackFailed
     (reads (λ f, resolve_publish_changes sha256 f storage_root active request plan)) in
   if decide (rs_changes resolved = []) then
     ret (mkAmend existed_before (length new_bytes) [] [])
   else
     do outcome := lift_err LayerStackFailed (publish_layer_unlocked active (rs_changes resolved)) in
     ret (if oc_created outcome
          then mkAmend existed_before (length new_bytes) (rs_origin resolved) (rs_changes resolved)
          else mkAmend existed_before (length new_bytes) [] []))%io.

(** ** [stack/mod.rs], [observability.rs], [service/] *)

Definition layer_paths (m : Manifest) : list path :=
  (λ l, resolve_layer_path storage_root (lr_path l)) <$> layers m.

Definition acquire_snapshot (nanos : N) (leases : LeaseRegistry) (owner : bytes)
    : io LayerStackError (Lease * LeaseRegistry) :=
  (do m := read_active_manifest_unlocked in
   do r := acquire nanos leases m owner in
   ret (mkStackLease (lease_id r.1) m (layer_paths m), r.2))%io.

(** The lease is gone whether or not the removal of its layers fails. *)
Definition release_lease (leases : LeaseRegistry) (id : bytes) : LeaseRegistry * io LayerStackError bool :=
  let '(leases, removal) := release_lease_locked storage_root leases id in
  (leases, (do removed := removal in ret (bool_decide (is_Some removed)))%io).

Definition sweep_storage : io LayerStackError SweepReport := sweep_storage_locked storage_root.

Definition observe (leases : LeaseRegistry) : io LayerStackError StackObservation :=
  (do m := read_active_manifest_unlocked in
   let newest := lease_newest_layers leases in
   let count := λ l, length (filter (λ n, layer_id n = layer_id l) newest) in
   ret (mkObservation (version m) (manifest_root_hash sha256 m) (active_count leases)
          ((λ l, mkStatus l (count l)) <$> layers m)))%io.

Definition get_snapshot (registered : bool) : io LayerStackError Snapshot :=
  (run open_stack registered storage_root;
   do m := read_active_manifest_unlocked in
   ret (mkSnapshot (version m) (manifest_root_hash sha256 m) (layer_paths m)))%io.
End stack.

(** ** Evaluated publishes *)

Definition stack_manifest : Manifest := mkManifest 1 [new_ref (lit "L1")] 1.

(** A root with one layer that holds the executable file [run.sh]. *)
Definition stack_fs : fs :=
  {[ [lit "s"; ACTIVE_MANIFEST_FILE] := NFile (number_encode stack_manifest) 0x1a4 ∅;
     [lit "s"; STAGING_DIR] := NDir 0x1ed ∅;
     demo_lower ++ [lit "run.sh"] := NFile (lit "old") 0x1ed ∅;
     [] := NDir 0x1ed ∅; [lit "s"] := NDir 0x1ed ∅; [lit "s"; LAYERS_DIR] := NDir 0x1ed ∅;
     demo_lower := NDir 0x1ed ∅ ]}.

Definition amend_run : result AmendCommit (AmendError unit) * world :=
  amend_path (H := number_codec) (H0 := line_gitignore) id 1 false demo_root
    (mkLayerPath (lit "run.sh")) 100 (λ _, Ok (lit "new")) (mkWorld stack_fs 0 []).

(** Amending an executable file makes it an ordinary one: the commit writes
    the new content with the default mode, and the file read back has lost its
    execute permission. *)
Theorem amend_drops_executable_bit :
  read_entry stack_fs demo_root (lit "run.sh") stack_manifest = Ok (EFile (lit "old") true) ∧
  ∃ c m, amend_run.1 = Ok c ∧
    read_manifest (H := number_codec) (w_fs amend_run.2) (manifest_path demo_root) = Ok m ∧
    read_entry (w_fs amend_run.2) demo_root (lit "run.sh") m = Ok (EFile (lit "new") false).
Proof.
  split; [vm_compute; reflexivity|].
  exists (mkAmend true 3 [(mkLayerPath (lit "run.sh"), [(mkRange 1 1, Command)])]
    [Write (mkLayerPath (lit "run.sh")) (lit "new")]),
    (mkManifest 2 [new_ref (lit "L000002-00000000"); new_ref (lit "L1")] 1).
  split_and!; vm_compute; reflexivity.
Qed.
