(* ===== verification/Squash.v ===== *)
(** * Squashing the layer stack: [stack/squash.rs]

    A squash replaces runs of adjacent layers by flattened ones, in three
    phases: a plan under a lease, the flattening without a lock, and a commit
    that moves the new layers into place and replaces the manifest.  Other
    operations may run between the phases; each phase is a definition of its
    own, on the state that the operations of one storage root share. *)

From S2P Require Import Prelude ByteStr Merge Model FS Storage View Descend World StorageOps.
From S2P Require Import Flatten Does FlattenRead FlattenSpec Lease Publish Stack.

(** ** The shared state *)

(** The lease registry, the substitutions and the singleflight flag of a root. *)
Record shared := mkShared {
  sh_leases : bytes_map Manifest;
  sh_records : list SubstitutionRecord;
  sh_busy : bool;
}.

(** Code on the shared state and the world; both persist on an error. *)
Definition sio (A : Type) : Type := shared → world → result A LayerStackError * shared * world.

Definition sret {A : Type} (a : A) : sio A := λ s w, (Ok a, s, w).
Definition sbind {A B : Type} (c : sio A) (k : A → sio B) : sio B :=
  λ s w, match c s w with (Ok a, s, w) => k a s w | (Err e, s, w) => (Err e, s, w) end.
Definition sio_io {A : Type} (c : io LayerStackError A) : sio A :=
  λ s w, let '(r, w) := c w in (r, s, w).
Definition sattempt {A : Type} (c : sio A) : sio (result A LayerStackError) :=
  λ s w, let '(r, s, w) := c s w in (Ok r, s, w).
Definition sget : sio shared := λ s w, (Ok s, s, w).
Definition sput (s : shared) : sio () := λ _ w, (Ok (), s, w).

Declare Scope sio_scope.
Delimit Scope sio_scope with sio.
Notation "'do' x ':=' c 'in' k" := (sbind c (λ x, k))
  (at level 10, x binder, c at level 100, k at level 200) : sio_scope.
Notation "'run' c ';' k" := (sbind c (λ _, k))
  (at level 10, c at level 100, k at level 200) : sio_scope.

Definition set_leases (leases : bytes_map Manifest) : sio () :=
  (do s := sget in sput (mkShared leases (sh_records s) (sh_busy s)))%sio.
Definition set_records (records : list SubstitutionRecord) : sio () :=
  (do s := sget in sput (mkShared (sh_leases s) records (sh_busy s)))%sio.
Definition set_busy (b : bool) : sio () :=
  (do s := sget in sput (mkShared (sh_leases s) (sh_records s) b))%sio.

(** ** Data *)

Record SquashedBlock := mkSquashed { sq_layer : LayerRef; sq_replaced : list LayerRef }.

(** The flight guard of an outcome is the flag, cleared by [drop_outcome]. *)
Record SquashOutcome := mkSquashOutcome {
  so_manifest : Manifest;
  so_blocks : list SquashedBlock;
  so_removed : list LayerRef;
}.

Record SquashPlan := mkSquashPlan {
  pl_manifest : Manifest;
  pl_blocks : list (list LayerRef);
  pl_lease_id : bytes;
}.

Record BuiltBlock := mkBuilt {
  bb_layer_id : bytes;
  bb_staging_dir : path;
  bb_layer_dir : path;
  bb_replaced : list LayerRef;
}.

(** ** Planning *)

Definition breaks (boundaries : list bytes) (l : LayerRef) : bool :=
  bool_decide (layer_id l ∈ boundaries) || starts_with [BASE_LAYER_PREFIX] (layer_id l).

(** The loop of [partition_blocks]: the blocks so far and the current run. *)
Definition partition_step (boundaries : list bytes) (st : list (list LayerRef) * list LayerRef)
    (l : LayerRef) : list (list LayerRef) * list LayerRef :=
  let '(blocks, cur) := st in
  if breaks boundaries l then
    (if decide (2 ≤ length cur) then blocks ++ [cur] else blocks, [])
  else (blocks, cur ++ [l]).

Definition partition_blocks (ls : list LayerRef) (boundaries : list bytes) : list (list LayerRef) :=
  let '(blocks, cur) := foldl (partition_step boundaries) ([], []) ls in
  if decide (2 ≤ length cur) then blocks ++ [cur] else blocks.

Section squash.
Context `{ManifestCodec} (pid nanos : N) (storage_root : path).

Definition begin_flight : sio () :=
  (do s := sget in
   if sh_busy s then sio_io (fail (Storage SquashInFlight)) else set_busy true)%sio.

Definition drop_outcome : sio () := set_busy false.

Definition plan_squash : sio (option SquashPlan) :=
  (do manifest := sio_io (read_active_manifest_unlocked storage_root) in
   do s := sget in
   let boundaries := btree_set (layer_id <$> lease_newest_layers (sh_leases s)) in
   do r := sio_io (acquire nanos (sh_leases s) manifest (lit "squash-plan")) in
   let '(record, leases) := r in
   run set_leases leases;
   let blocks := partition_blocks (layers manifest) boundaries in
   if decide (blocks = []) then
     run set_leases (release leases (lease_id record)).2; sret None
   else sret (Some (mkSquashPlan manifest blocks (lease_id record))))%sio.

(** ** Building *)

Fixpoint remove_all (dirs : list path) : io LayerStackError () :=
  match dirs with
  | [] => ret ()
  | d :: dirs => (run attempt (F := LayerStackError) (remove_path d); remove_all dirs)%io
  end.

(** One block: its entry is recorded before the flattening can fail. *)
Definition start_block (m : Manifest) (block : list LayerRef)
    : io LayerStackError (BuiltBlock * (list path * list path)) :=
  (do dirs := allocate_layer_dirs storage_root Byte.x53 (version m + 1) in
   let '(id, staging_dir, layer_dir) := dirs in
   run lift_err Io (create_dir_all staging_dir);
   match find_run (layers m) block with
   | None => fail (Storage (RunNotInPlan id))
   | Some start =>
       let paths := λ ls, (λ l, resolve_layer_path storage_root (lr_path l)) <$> ls in
       ret (mkBuilt id staging_dir layer_dir block,
            (paths block, paths (drop (start + length block) (layers m))))
   end)%io.

(** The blocks built so far, and the error that ended the loop. *)
Fixpoint build_loop (m : Manifest) (blocks : list (list LayerRef)) (built : list BuiltBlock)
    : io LayerStackError (list BuiltBlock * option LayerStackError) :=
  match blocks with
  | [] => ret (built, None)
  | block :: blocks =>
      (do r := attempt (start_block m block) in
       match r with
       | Err e => ret (built, Some e)
       | Ok (b, (sources, lower)) =>
           do r := attempt (flatten_block_into_with_lower (bb_staging_dir b) sources lower) in
           match r with
           | Err e => ret (built ++ [b], Some e)
           | Ok _ => build_loop m blocks (built ++ [b])
           end
       end)%io
  end.

Definition build_blocks (plan : SquashPlan) : io LayerStackError (list BuiltBlock) :=
  (do r := build_loop (pl_manifest plan) (pl_blocks plan) [] in
   match r with
   | (built, None) => ret built
   | (built, Some e) => run remove_all (bb_staging_dir <$> built); fail e
   end)%io.

(** ** Committing *)

(** The manifest's layers with every built block in the place of its run. *)
Fixpoint splice_blocks (ls : list LayerRef) (built : list BuiltBlock)
    : result (list LayerRef) LayerStackError :=
  match built with
  | [] => Ok ls
  | b :: built =>
      match find_run ls (bb_replaced b) with
      | None => Err (Storage (RunNotContiguous (bb_layer_id b)))
      | Some start =>
          splice_blocks
            (take start ls ++ [new_ref (bb_layer_id b)] ++ drop (start + length (bb_replaced b)) ls) built
      end
  end.

(** The renames: the blocks promoted, and the error that ended the loop. *)
Fixpoint promote_blocks (built : list BuiltBlock) (promoted : list BuiltBlock)
    : io LayerStackError (list BuiltBlock * option LayerStackError) :=
  match built with
  | [] => ret (promoted, None)
  | b :: built =>
      (do r := attempt (fs_rename (bb_staging_dir b) (bb_layer_dir b)) in
       match r with
       | Err e => ret (promoted, Some (Io e))
       | Ok _ => promote_blocks built (promoted ++ [b])
       end)%io
  end.

(** Rename, sync and manifest replacement; undone by removing what was promoted. *)
Definition install_blocks (built : list BuiltBlock) (manifest : Manifest) : io LayerStackError () :=
  (do r := promote_blocks built [] in
   let '(promoted, failed) := r in
   do commit := attempt (match failed with
     | Some e => fail e
     | None =>
         run syncfs_storage_root storage_root;
         write_manifest pid (manifest_path storage_root) manifest
     end) in
   match commit with
   | Ok _ => ret ()
   | Err e => run remove_all (bb_layer_dir <$> promoted); fail e
   end)%io.

Definition squashed_block (b : BuiltBlock) : SquashedBlock :=
  mkSquashed (new_ref (bb_layer_id b)) (bb_replaced b).

Definition commit_squash (plan : SquashPlan) (built : list BuiltBlock)
    : sio (Manifest * list SquashedBlock * list LayerRef) :=
  (do latest := sio_io (read_active_manifest_unlocked storage_root) in
   do ls := sio_io (reads (λ _, splice_blocks (layers latest) built)) in
   do manifest := sio_io (lift_err Cas (reads (λ _,
     manifest_new (version latest + 1) ls (schema_version latest)))) in
   run sio_io (install_blocks built manifest);
   do s := sget in
   run set_records (foldl (λ rs b, record_substitution rs (new_ref (bb_layer_id b)) (bb_replaced b))
                      (sh_records s) built);
   let '(leases, removal) := release_lease_locked storage_root (sh_leases s) (pl_lease_id plan) in
   run set_leases leases;
   do removed := sio_io removal in
   sret (manifest, squashed_block <$> built, default [] removed))%sio.

(** [let _ = self.release_lease(id)] *)
Definition drop_lease (id : bytes) : sio () :=
  (do s := sget in
   let '(leases, removal) := release_lease storage_root (sh_leases s) id in
   run set_leases leases;
   run sattempt (sio_io removal);
   sret ())%sio.

(** A failing squash ends its flight; a successful one keeps it in the outcome. *)
Definition fail_flight {A : Type} (e : LayerStackError) : sio A :=
  (run drop_outcome; sio_io (fail e))%sio.

Definition squash : sio SquashOutcome :=
  (run begin_flight;
   do plan := sattempt plan_squash in
   match plan with
   | Err e => fail_flight e
   | Ok None =>
       do m := sattempt (sio_io (read_active_manifest_unlocked storage_root)) in
       match m with
       | Err e => fail_flight e
       | Ok m => sret (mkSquashOutcome m [] [])
       end
   | Ok (Some plan) =>
       do built := sattempt (sio_io (build_blocks plan)) in
       match built with
       | Err e => run drop_lease (pl_lease_id plan); fail_flight e
       | Ok built =>
           do committed := sattempt (commit_squash plan built) in
           match committed with
           | Err e =>
               run sio_io (remove_all (bb_staging_dir <$> built));
               run drop_lease (pl_lease_id plan);
               fail_flight e
           | Ok (manifest, blocks, removed) => sret (mkSquashOutcome manifest blocks removed)
           end
       end
   end)%sio.
End squash.
