(* ===== verification/SquashSpec.v ===== *)
(** * What a squash plans and builds

    The plan of [stack/squash.rs] is the list of maximal runs; the build leaves,
    for every run, a flattened tree in the staging directory that reads like the
    run over the layers below it ([built_over]).  Splicing such trees into the
    list of layers gives a stack that reads as the original one ([reads_as]). *)

From S2P Require Import Prelude ByteStr Merge Model FS Storage View Descend World StorageOps.
From S2P Require Import Flatten Does FlattenRead FlattenSpec Lease Publish Stack Squash.

(** ** The plan *)

Section partition.
Context (boundaries : list bytes).
Implicit Types (ls pre post b : list LayerRef).

Definition open_run b : Prop := Forall (λ l, breaks boundaries l = false) b.
Definition ends_broken pre : Prop := ∀ l, last pre = Some l → breaks boundaries l = true.
Definition starts_broken post : Prop := ∀ l, head post = Some l → breaks boundaries l = true.

(** A run that cannot be extended on either side. *)
Definition maximal_run ls b : Prop :=
  ∃ pre post, ls = pre ++ b ++ post ∧ open_run b ∧ ends_broken pre ∧ starts_broken post.

Lemma ends_broken_open pre b : open_run b → ends_broken (pre ++ b) → b = [].
Proof.
  intros Hb He. destruct b as [|x b] using rev_ind; [done|]. rewrite (assoc_L (++)) in He.
  specialize (He x). rewrite last_snoc in He. apply Forall_app in Hb as [_ [Hx _]%Forall_cons].
  rewrite He in Hx; done.
Qed.

(** The open suffix of a list is unique. *)
Lemma open_suffix_unique pre1 b1 pre2 b2 :
  pre1 ++ b1 = pre2 ++ b2 → open_run b1 → open_run b2 → ends_broken pre1 → ends_broken pre2 → b1 = b2.
Proof.
  intros Heq H1 H2 He1 He2. apply app_eq_app in Heq as (l & [[-> ->]|[-> ->]]).
  - apply Forall_app in H2 as [Hl _]. by rewrite (ends_broken_open _ _ Hl He1).
  - apply Forall_app in H1 as [Hl _]. by rewrite (ends_broken_open _ _ Hl He2).
Qed.

(** What the loop knows of the layers it has seen. *)
Definition partition_inv ls (st : list (list LayerRef) * list LayerRef) : Prop :=
  (∃ pre, ls = pre ++ st.2 ∧ open_run st.2 ∧ ends_broken pre) ∧
  concat st.1 ++ st.2 `sublist_of` ls ∧
  ∀ b, b ∈ st.1 ↔ 2 ≤ length b ∧ ∃ pre l post,
    ls = pre ++ b ++ l :: post ∧ open_run b ∧ ends_broken pre ∧ breaks boundaries l = true.

Lemma closed_run_snoc ls x b :
  (∃ pre l post, ls ++ [x] = pre ++ b ++ l :: post ∧ open_run b ∧ ends_broken pre ∧ breaks boundaries l = true) ↔
  (∃ pre l post, ls = pre ++ b ++ l :: post ∧ open_run b ∧ ends_broken pre ∧ breaks boundaries l = true) ∨
  breaks boundaries x = true ∧ ∃ pre, ls = pre ++ b ∧ open_run b ∧ ends_broken pre.
Proof.
  split.
  - intros (pre & l & post & Heq & Hb & Hp & Hl). destruct post as [|y post _] using rev_ind.
    + rewrite (assoc_L (++)) in Heq. apply app_inj_tail in Heq as [-> ->]. right. eauto.
    + rewrite app_comm_cons, !(assoc_L (++)) in Heq. apply app_inj_tail in Heq as [-> ->].
      left. exists pre, l, post. by rewrite (assoc_L (++)).
  - intros [(pre & l & post & -> & ?)|(Hx & pre & -> & ?)].
    + exists pre, l, (post ++ [x]). by rewrite <-!(assoc_L (++)).
    + exists pre, x, []. rewrite <-!(assoc_L (++)). naive_solver.
Qed.

Lemma partition_step_inv ls st x :
  partition_inv ls st → partition_inv (ls ++ [x]) (partition_step boundaries st x).
Proof.
  destruct st as [blocks cur]. intros ((pre & Hls & Hcur & Hpre) & Hsub & Hbl). simpl in *.
  destruct (breaks boundaries x) eqn:Hx; simpl.
  - split_and!.
    + exists (ls ++ [x]). rewrite app_nil_r. split_and!; [done|constructor|].
      intros l. rewrite last_snoc. by intros [= <-].
    + cbn [fst snd]. rewrite app_nil_r. apply sublist_inserts_r. etrans; [|exact Hsub].
      case_decide; [rewrite concat_app; simpl; by rewrite app_nil_r|by apply sublist_inserts_r].
    + intros b. rewrite closed_run_snoc, Hx.
      assert ((∃ pre, ls = pre ++ b ∧ open_run b ∧ ends_broken pre) ↔ b = cur) as Hu.
      { split; [|intros ->; eauto]. intros (pre' & Hls' & ? & ?).
        eapply (open_suffix_unique pre' b pre cur); [congruence|done..]. }
      simpl. case_decide; [rewrite elem_of_app, list_elem_of_singleton|]; rewrite Hbl; naive_solver.
  - split_and!.
    + exists pre. rewrite Hls, <-(assoc_L (++)). split_and!; [done| |done].
      apply Forall_app. split; [done|by constructor].
    + cbn [fst snd]. rewrite (assoc_L (++)). by apply sublist_app.
    + intros b. rewrite closed_run_snoc, Hx, Hbl. naive_solver.
Qed.

Lemma partition_fold_inv ls : partition_inv ls (foldl (partition_step boundaries) ([], []) ls).
Proof.
  induction ls as [|x ls IH] using rev_ind.
  - split_and!; [exists []; split_and!; [done|constructor|done]|done|]. intros b. split; [by intros ?%elem_of_nil|].
    intros (_ & pre & l & post & Heq & _). by destruct pre, b.
  - rewrite foldl_app. by apply partition_step_inv.
Qed.

Lemma partition_blocks_runs ls :
  concat (partition_blocks ls boundaries) `sublist_of` ls ∧
  ∀ b, b ∈ partition_blocks ls boundaries ↔ 2 ≤ length b ∧ maximal_run ls b.
Proof.
  unfold partition_blocks. pose proof (partition_fold_inv ls) as Hinv.
  destruct (foldl _ _ _) as [blocks cur]. destruct Hinv as ((pre & Hls & Hcur & Hpre) & Hsub & Hbl). simpl in *.
  split.
  { case_decide; [rewrite concat_app; simpl; by rewrite app_nil_r|].
    etrans; [|exact Hsub]. by apply sublist_inserts_r. }
  intros b. assert (maximal_run ls b ↔ b = cur ∨ ∃ pre l post,
    ls = pre ++ b ++ l :: post ∧ open_run b ∧ ends_broken pre ∧ breaks boundaries l = true) as ->.
  { split.
    - intros (pre' & [|l post] & Heq & Hb & Hp & Hs).
      + left. rewrite app_nil_r in Heq. eapply (open_suffix_unique pre' b pre cur); [congruence|done..].
      + right. exists pre', l, post. split_and!; auto.
    - intros [->|(pre' & l & post & -> & Hb & Hp & Hl)].
      + exists pre, []. rewrite app_nil_r. done.
      + exists pre', (l :: post). split_and!; [done..|]. by intros ? [= <-]. }
  case_decide; [rewrite elem_of_app, list_elem_of_singleton|]; rewrite Hbl; naive_solver.
Qed.
End partition.

(** A squash plans exactly the maximal runs of at least two adjacent layers
    that contain neither the newest layer of a lease nor a base layer, in
    manifest order and without overlap. *)
Theorem partition_blocks_exact boundaries ls :
  concat (partition_blocks ls boundaries) `sublist_of` ls ∧
  ∀ b, b ∈ partition_blocks ls boundaries ↔ 2 ≤ length b ∧ maximal_run boundaries ls b.
Proof. apply partition_blocks_runs. Qed.

(** ** Trees that moved *)

Definition same (f : fs) (d : path) (g : fs) (e : path) : Prop := ∀ r, f !! (d ++ r) = g !! (e ++ r).

Section same.
Context (f g : fs).

Lemma same_app d e r : same f d g e → same f (d ++ r) g (e ++ r).
Proof. intros H r'. rewrite <-!(assoc_L (++)). apply H. Qed.

Lemma judge_same cs : ∀ d e, same f d g e → judge f d cs = judge g e cs.
Proof.
  induction cs as [|c cs IH]; intros d e H; [done|].
  assert (slot_at f d c = slot_at g e c) as Hs by (unfold slot_at, present; by rewrite !H).
  destruct cs as [|c' cs]; [by cbn [judge]; rewrite Hs|]. rewrite !judge_cons2, Hs.
  destruct (slot_at g e c) as [| |[]]; try done. rewrite (IH _ (e ++ [c])) by by apply same_app.
  assert (opaque f (d ++ [c]) = opaque g (e ++ [c])) as ->; [|done].
  unfold opaque, present. by rewrite <-!(assoc_L (++)), H.
Qed.

Lemma layer_pure_same d e : same f d g e → layer_pure f d → layer_pure g e.
Proof.
  intros H [[H1 H2 H3] H4 H5 H6].
  split; [split|..]; intros *; unfold dir_at in *; rewrite <-?(H _); eauto.
Qed.
End same.

(** ** Stacks that read alike *)

Definition veq (f : fs) (ds : list path) (g : fs) (es : list path) : Prop :=
  ∀ cs, cs ≠ [] → Forall ordinary cs → strip <$> overlay f ds cs = strip <$> overlay g es cs.

Lemma veq_refl f ds : veq f ds f ds.
Proof. done. Qed.

Lemma veq_sym f ds g es : veq f ds g es → veq g es f ds.
Proof. intros H cs ??. by rewrite H. Qed.

Lemma veq_trans f ds g es h ts : veq f ds g es → veq g es h ts → veq f ds h ts.
Proof. intros H1 H2 cs ??. by rewrite H1, H2. Qed.

Lemma veq_cons f d ds g e es : same f d g e → veq f ds g es → veq f (d :: ds) g (e :: es).
Proof.
  intros Hs Hv cs Hne Hcs. rewrite !overlay_cons by done. rewrite (judge_same f g cs d e Hs).
  destruct (judge g e cs); [done..|]. by apply Hv.
Qed.

Lemma veq_app f ds g es ps :
  (∀ p, p ∈ ps → same f p g p) → veq f ds g es → veq f (ps ++ ds) g (ps ++ es).
Proof.
  intros Hs Hv. induction ps as [|p ps IH]; [done|]. simpl.
  apply veq_cons; [apply Hs; by left|]. apply IH. intros q Hq. apply Hs. by right.
Qed.

Lemma veq_same f g ps : (∀ p, p ∈ ps → same f p g p) → veq f ps g ps.
Proof.
  intros Hs. rewrite <-(app_nil_r ps). apply veq_app; [done|]. intros cs ??. by rewrite !overlay_nil.
Qed.

(** ** Splicing *)

(** Distinct lists have one place for a run. *)
Lemma run_place_unique {A} (pre pre' b post post' : list A) :
  NoDup (pre ++ b ++ post) → b ≠ [] → pre ++ b ++ post = pre' ++ b ++ post' → pre = pre' ∧ post = post'.
Proof.
  intros Hnd Hb Heq. destruct b as [|x b]; [done|]. clear Hb.
  assert (pre = pre') as <-; [|by apply (inj (app pre)), (inj (app (x :: b))) in Heq].
  simpl in *. revert pre' Heq.
  induction pre as [|y pre IH]; intros [|y' pre'] Heq; [done|..]; simpl in *; injection Heq as -> Heq;
    apply NoDup_cons in Hnd as [Hni Hnd].
  - exfalso. apply Hni. rewrite Heq. set_solver.
  - exfalso. apply Hni. set_solver.
  - f_equal. by apply IH.
Qed.

Lemma find_run_place pre b post :
  NoDup (pre ++ b ++ post) → b ≠ [] → find_run (pre ++ b ++ post) b = Some (length pre).
Proof.
  intros Hnd Hb. unfold find_run. rewrite decide_False.
  2: { rewrite !length_app. intros [?|?]; [done|lia]. }
  pose proof (position_from_spec b (pre ++ b ++ post) 0) as Hp.
  destruct (position_from 0 b _) as [j|]; [|by destruct (Hp pre post)].
  destruct Hp as (pre' & post' & Heq & ->). by destruct (run_place_unique pre pre' b post post') as [<- _].
Qed.

Section splice.
Context (root : path).

Definition layer_dirs (ls : list LayerRef) : list path := (λ l, layer_path root (layer_id l)) <$> ls.

(** The layer of a built block, in its final place. *)
Definition built_ref (b : BuiltBlock) : LayerRef := new_ref (bb_layer_id b).

(** Blocks of a list of layers in order, each equivalent to its run on top of the
    layers below.  [place] is where the flattened tree is. *)
Inductive built_over (g : fs) (place : BuiltBlock → path) : list BuiltBlock → list LayerRef → Prop :=
| over_nil ls : built_over g place [] ls
| over_skip l bs ls : built_over g place bs ls → built_over g place bs (l :: ls)
| over_take b bs ls :
    built_over g place bs ls → bb_replaced b ≠ [] →
    veq g (place b :: layer_dirs ls) g (layer_dirs (bb_replaced b ++ ls)) →
    built_over g place (b :: bs) (bb_replaced b ++ ls).

Lemma layer_dirs_app ls ls' : layer_dirs (ls ++ ls') = layer_dirs ls ++ layer_dirs ls'.
Proof. apply fmap_app. Qed.

Lemma built_over_move g place g' place' bs ls :
  built_over g place bs ls →
  (∀ l, l ∈ ls → same g (layer_path root (layer_id l)) g' (layer_path root (layer_id l))) →
  (∀ b, b ∈ bs → same g (place b) g' (place' b)) →
  built_over g' place' bs ls.
Proof.
  intros Hover Hl Hb. assert (∀ k, k ⊆ ls → veq g (layer_dirs k) g' (layer_dirs k)) as Hall.
  { clear -Hl. intros k Hk. apply veq_same. intros p (l & -> & Hlk)%list_elem_of_fmap. auto. }
  induction Hover as [ls|l bs ls Hover IH|b bs ls Hover IH Hne Hv].
  - constructor.
  - constructor. apply IH; [set_solver|done|]. intros k Hk. apply Hall. set_solver.
  - constructor; [|done|].
    + apply IH; [set_solver..|]. intros k Hk. apply Hall. set_solver.
    + eapply veq_trans; [|eapply veq_trans; [exact Hv|]]; [|by apply Hall].
      apply veq_sym, veq_cons; [apply Hb; by left|]. apply Hall. set_solver.
Qed.

Lemma splice_blocks_spec g bs ls :
  built_over g (λ b, layer_path root (bb_layer_id b)) bs ls → ∀ pre,
  NoDup (pre ++ ls) → NoDup (built_ref <$> bs) → (∀ b, b ∈ bs → built_ref b ∉ pre ++ ls) →
  ∃ ls', splice_blocks (pre ++ ls) bs = Ok (pre ++ ls') ∧
    veq g (layer_dirs ls') g (layer_dirs ls) ∧ NoDup (pre ++ ls') ∧
    (∀ l, l ∈ ls' → l ∈ ls ∨ l ∈ built_ref <$> bs) ∧
    (∀ b, b ∈ bs → built_ref b ∈ ls') ∧
    length ls' + length (concat (bb_replaced <$> bs)) = length ls + length bs.
Proof.
  induction 1 as [ls|l bs ls Hover IH|b bs ls Hover IH Hne Hv]; intros pre Hnd Hbs Hfresh.
  - exists ls. split_and!; [done..|set_solver|set_solver|done].
  - destruct (IH (pre ++ [l])) as (ls' & Hs & Hv & Hnd' & Hin & Hall & Hlen);
      [by rewrite <-(assoc_L (++))|done|by rewrite <-(assoc_L (++))|].
    rewrite <-!(assoc_L (++)) in *. exists (l :: ls'). split_and!; [done|..|done| | |].
    + by apply veq_cons.
    + set_solver.
    + set_solver.
    + simpl. lia.
  - cbn [splice_blocks]. rewrite find_run_place by done. cbn [fmap list_fmap] in Hbs.
    apply NoDup_cons in Hbs as [Hb Hbs].
    rewrite take_app_length, <-drop_drop, drop_app_length, drop_app_length.
    assert (built_ref b ∉ pre ++ ls) as Hbf by (specialize (Hfresh b); set_solver).
    destruct (IH (pre ++ [built_ref b])) as (ls' & Hs & Hv' & Hnd' & Hin & Hall & Hlen).
    + rewrite <-(assoc_L (++)). simpl. apply NoDup_app in Hnd as (H1 & H2 & H3).
      apply NoDup_app in H3 as (_ & _ & H3). apply NoDup_app. split_and!; [done|set_solver|].
      constructor; [set_solver|done].
    + done.
    + intros b' Hb' Hin. rewrite <-(assoc_L (++)) in Hin. apply elem_of_app in Hin as [Hin|Hin].
      { apply (Hfresh b'); set_solver. }
      apply elem_of_cons in Hin as [Heq|Hin]; [|apply (Hfresh b'); set_solver].
      apply Hb. rewrite <-Heq. by apply list_elem_of_fmap_2.
    + rewrite <-!(assoc_L (++)) in *. exists (built_ref b :: ls'). split_and!; [done|..|done| | |].
      * eapply veq_trans; [|exact Hv]. by apply veq_cons.
      * cbn [fmap list_fmap]. set_solver.
      * set_solver.
      * csimpl. rewrite !length_app. lia.
Qed.
End splice.

(** ** Links *)

Lemma pure_dirs f d cs r : layer_pure f d → is_Some (f !! (d ++ cs ++ r)) → r ≠ [] → dir_at f (d ++ cs) = true.
Proof.
  intros Hp. induction r as [|c r IH] using rev_ind; [done|]. intros Hs _. destruct (decide (r = [])) as [->|Hr].
  - by apply (pure_tree _ _ Hp cs c).
  - apply IH; [|done]. rewrite (assoc_L (++) cs) in Hs. apply (pure_tree _ _ Hp) in Hs.
    unfold dir_at in Hs. by destruct (f !! (d ++ cs ++ r)).
Qed.

(** A node of a pure layer is found where it is. *)
Lemma pure_judge f cs n : ∀ d,
  layer_pure f d → cs ≠ [] → f !! (d ++ cs) = Some n → whiteout_node n = false → judge f d cs = VFound n.
Proof.
  induction cs as [|c cs IH]; intros d Hp Hne Hn Hw; [done|].
  assert (∀ x, f !! (d ++ [c]) = Some x → whiteout_node x = false → slot_at f d c = Here x) as Hslot.
  { intros x Hx Hwx. unfold slot_at, present. rewrite bool_decide_false; [by rewrite Hx, Hwx|].
    intros Hm. pose proof (clean_whiteout _ _ (pure_clean _ _ Hp) [] c Hm) as Hnone. simpl in Hnone. congruence. }
  destruct cs as [|c' cs]; [cbn [judge]; by rewrite (Hslot n)|]. rewrite judge_cons2.
  assert (dir_at f (d ++ [c]) = true) as Hd by (apply (pure_dirs f d [c] (c' :: cs)); [done|simpl; by rewrite Hn|done]).
  unfold dir_at in Hd. destruct (f !! (d ++ [c])) as [[| |m xs| |]|] eqn:Hdc; try done.
  rewrite (Hslot (NDir m xs)) by done. rewrite (IH (d ++ [c])); [done|by apply layer_pure_app|done| |done].
  by rewrite <-(assoc_L (++)).
Qed.

(** A link of a flattened block is one of the layers it replaces or of those
    below. *)
Lemma built_over_link root g place bs ls b cs t :
  built_over root g place bs ls → b ∈ bs → layer_pure g (place b) → cs ≠ [] → Forall ordinary cs →
  g !! (place b ++ cs) = Some (NSymlink t) →
  ∃ l, l ∈ ls ∧ g !! (layer_path root (layer_id l) ++ cs) = Some (NSymlink t).
Proof.
  intros Hover Hb Hp Hne Hcs Hn. induction Hover as [|l bs ls Hover IH|b' bs ls Hover IH Hr Hv]; [set_solver|..].
  - destruct (IH Hb) as (l' & ? & ?). exists l'. set_solver.
  - apply elem_of_cons in Hb as [->|Hb]; [|destruct (IH Hb) as (l' & ? & ?); exists l'; set_solver].
    specialize (Hv cs Hne Hcs). rewrite overlay_cons, (pure_judge _ _ (NSymlink t)) in Hv by done. simpl in Hv.
    destruct (overlay g (layer_dirs root (bb_replaced b' ++ ls)) cs) as [n|] eqn:Ho; [|done].
    destruct n; simplify_eq/=. apply overlay_layer in Ho as (d & (l & -> & Hl)%list_elem_of_fmap & Hj); [|done].
    apply judge_chain in Hj as [Hj _]. eauto.
Qed.

(** ** One stack reads as another *)

Record reads_as (root : path) (f : fs) (ls : list LayerRef) (g : fs) (ls0 : list LayerRef) : Prop := {
  ra_view : veq f (layer_dirs root ls) g (layer_dirs root ls0);
  ra_links l cs t : l ∈ ls → cs ≠ [] → Forall ordinary cs →
    f !! (layer_path root (layer_id l) ++ cs) = Some (NSymlink t) →
    ∃ l0, l0 ∈ ls0 ∧ g !! (layer_path root (layer_id l0) ++ cs) = Some (NSymlink t);
}.

Lemma reads_as_agree root k f ls g ls0 :
  (∀ l, l ∈ ls → agree k f (layer_path root (layer_id l))) → reads_as root k ls g ls0 → reads_as root f ls g ls0.
Proof.
  intros Ha [Hv Hl]. split.
  - eapply veq_trans; [|exact Hv]. apply veq_same. intros p (l & -> & Hin)%list_elem_of_fmap r. symmetry. by apply Ha.
  - intros l cs t Hin Hne Hcs. rewrite <-(Ha l Hin). by apply Hl.
Qed.

Lemma reads_as_base root f ls g g' ls0 :
  (∀ l, l ∈ ls0 → agree g g' (layer_path root (layer_id l))) → reads_as root f ls g ls0 → reads_as root f ls g' ls0.
Proof.
  intros Ha [Hv Hl]. split.
  - eapply veq_trans; [exact Hv|]. apply veq_same. intros p (l & -> & Hin)%list_elem_of_fmap. by apply Ha.
  - intros l cs t Hin Hne Hcs Hn. destruct (Hl l cs t Hin Hne Hcs Hn) as (l0 & Hl0 & Hn0).
    exists l0. by rewrite <-(Ha l0 Hl0).
Qed.

(** *** A fresh layer id *)

Lemma allocate_loop_yields f root prefix v n :
  yields (λ g, g = f) (allocate_loop n root prefix v)
    (λ r g, g = f ∧ ∃ k, r = (new_layer_id prefix v k, staging_path root (new_layer_id prefix v k),
                              layer_path root (new_layer_id prefix v k)) ∧
       exists_ f (staging_path root (new_layer_id prefix v k)) = false ∧
       exists_ f (layer_path root (new_layer_id prefix v k)) = false).
Proof.
  induction n as [|n IH]; intros w r w' Hrun Hw; [by injection Hrun as <- <-|].
  revert Hrun. cbn [allocate_loop]. unfold bind at 1, next_unique, bind at 1, reads. cbn. rewrite Hw.
  destruct (negb _ && negb _) eqn:Hfree; [|intros Hrun; by apply (IH _ _ _ Hrun)].
  intros [= <- <-]. split; [done|]. eexists. split; [done|].
  apply andb_true_iff in Hfree as [?%negb_true_iff ?%negb_true_iff]. done.
Qed.

Lemma allocate_yields f root prefix v :
  plain_dir f (root ++ [LAYERS_DIR]) → plain_dir f (root ++ [STAGING_DIR]) →
  yields (λ g, g = f) (allocate_layer_dirs root prefix v)
    (λ r g, g = f ∧ ∃ k, r = (new_layer_id prefix v k, staging_path root (new_layer_id prefix v k),
                              layer_path root (new_layer_id prefix v k)) ∧
       exists_ f (staging_path root (new_layer_id prefix v k)) = false ∧
       exists_ f (layer_path root (new_layer_id prefix v k)) = false).
Proof.
  intros H1 H2. unfold allocate_layer_dirs.
  eapply yields_bind; [by apply does_yields, does_lift_err, does_create_dir_all|]. intros [].
  eapply yields_bind; [by apply does_yields, does_lift_err, does_create_dir_all|]. intros [].
  apply allocate_loop_yields.
Qed.

(** The characters of an id are no separators. *)
Lemma hex_char_plain d : (d < 16)%N → hex_char d ≠ slash ∧ hex_char d ≠ nul.
Proof.
  intros Hd. unfold hex_char. destruct (lookup_lt_is_Some_2 LOWER_HEX (N.to_nat d)) as [x Hx]; [simpl; lia|].
  rewrite Hx. simpl. apply list_elem_of_lookup_2 in Hx. revert x Hx. apply Forall_forall.
  repeat constructor; done.
Qed.

Lemma pad_plain w base n x : (1 < base ≤ 16)%N → x ∈ pad w (fmt_num base n) → x ≠ slash ∧ x ≠ nul.
Proof.
  intros Hb. unfold pad, fmt_num. rewrite elem_of_app.
  intros [[-> _]%elem_of_replicate|(d & -> & Hd)%list_elem_of_fmap]; [done|].
  apply hex_char_plain. assert (Forall (λ d, d < base)%N (digits base n)) as Hf by (apply digits_from_lt; [lia|done]).
  rewrite Forall_forall in Hf. specialize (Hf _ Hd). simpl in Hf. lia.
Qed.

Lemma new_layer_id_ok prefix v n :
  prefix ≠ slash → prefix ≠ nul → prefix ≠ Byte.x2e → name_ok (new_layer_id prefix v n).
Proof.
  intros H1 H2 H3. assert (∀ x, x ∈ new_layer_id prefix v n → x ≠ slash ∧ x ≠ nul) as Hall.
  { intros x. unfold new_layer_id. rewrite elem_of_cons, !elem_of_app. unfold fmt_06, fmt_08x.
    intros [->|[Hx|[Hx|Hx]]]; [done| | |by eapply pad_plain; [|done]].
    - case_decide; [apply elem_of_cons in Hx as [->|Hx]; [done|]|]; by eapply pad_plain; [|done].
    - apply list_elem_of_singleton in Hx as ->. done. }
  split_and!; [done| | | |]; try (intros Heq; by apply Hall in Heq as [? ?]); unfold new_layer_id, dot, dotdot; intros [=]; done.
Qed.

(** ** Building the blocks *)

Lemma under_two (root : path) a b a' b' r : under (root ++ [a; b]) (root ++ [a'; b'] ++ r) → a = a' ∧ b = b'.
Proof.
  intros [r' Hr]. apply below_Some in Hr. rewrite <-(assoc_L (++)) in Hr. apply (inj (app root)) in Hr. naive_solver.
Qed.

Lemma under_short (root : path) a b q : length q ≤ S (length root) → ¬ under (root ++ [a; b]) q.
Proof.
  intros Hq [r ->%below_Some]. rewrite !length_app in Hq. simpl in Hq. lia.
Qed.

Lemma staging_path_snoc root id : staging_path root id = (root ++ [STAGING_DIR]) ++ [id ++ lit ".staging"].
Proof. unfold staging_path. by rewrite <-(assoc_L (++)). Qed.

Lemma staging_name_ok id : id ++ lit ".staging" ≠ dotdot.
Proof. intros Heq%(f_equal length). rewrite length_app in Heq. simpl in Heq. lia. Qed.

Lemma resolve_canonical root l :
  canonical_ref l → resolve_layer_path root (lr_path l) = layer_path root (layer_id l).
Proof.
  intros Hc. unfold resolve_layer_path. rewrite canonical_comps by done.
  assert (is_absolute (lr_path l) = false) as ->; [|done]. destruct Hc as [-> _]. done.
Qed.

(** A storage root in which layers can be squashed. *)
Record squash_ready (f : fs) (root : path) (ls : list LayerRef) : Prop := {
  ready_layers : plain_dir f (root ++ [LAYERS_DIR]);
  ready_staging : plain_dir f (root ++ [STAGING_DIR]);
  ready_layer_links id : linkless f (layer_path root id);
  ready_staging_links id : linkless f (staging_path root id);
  ready_tree : tree f;
  ready_refs : Forall canonical_ref ls;
  ready_nodup : NoDup ls;
  ready_pure : Forall (λ l, dir_at f (layer_path root (layer_id l)) = true ∧
    layer_pure f (layer_path root (layer_id l)) ∧ opaque f (layer_path root (layer_id l)) = false) ls;
}.

Section build.
Context (f : fs) (root : path) (m : Manifest).
Hypothesis Hready : squash_ready f root (layers m).
Implicit Types (b : BuiltBlock) (bs : list BuiltBlock).

Definition staged bs (q : path) : Prop := ∃ b, b ∈ bs ∧ under (staging_path root (bb_layer_id b)) q.

Record block_inv (g : fs) b : Prop := {
  inv_staging : bb_staging_dir b = staging_path root (bb_layer_id b);
  inv_layer : bb_layer_dir b = layer_path root (bb_layer_id b);
  inv_name : name_ok (bb_layer_id b);
  inv_fresh : f !! layer_path root (bb_layer_id b) = None;
  inv_dir : dir_at g (bb_staging_dir b) = true;
  inv_pure : layer_pure g (bb_staging_dir b);
  inv_root : opaque g (bb_staging_dir b) = false;
}.

Record build_inv (g : fs) bs : Prop := {
  inv_out : outside (staged bs) f g;
  inv_ids : NoDup (bb_layer_id <$> bs);
  inv_blocks : Forall (block_inv g) bs;
}.

Lemma staged_layer bs id r : ¬ staged bs (layer_path root id ++ r).
Proof using. intros (b & _ & Hu). unfold layer_path in Hu. rewrite <-(assoc_L (++)) in Hu. by apply under_two in Hu as [? _]. Qed.

Lemma staged_other bs id r : id ∉ bb_layer_id <$> bs → ¬ staged bs (staging_path root id ++ r).
Proof using.
  intros Hid (b & Hb & Hu). unfold staging_path in Hu. rewrite <-(assoc_L (++)) in Hu.
  apply under_two in Hu as [_ Hu]. apply (inj (λ x, x ++ lit ".staging")) in Hu. apply Hid. rewrite <-Hu.
  by apply list_elem_of_fmap_2.
Qed.

Lemma staged_short bs q : length q ≤ S (length root) → ¬ staged bs q.
Proof using. intros Hq (b & _ & Hu). by eapply under_short. Qed.

Lemma plain_staged g bs a : outside (staged bs) f g → plain_dir f (root ++ [a]) → plain_dir g (root ++ [a]).
Proof using.
  intros Hout [Hdd Hd]. split; [done|]. intros k Hk. unfold dir_at. rewrite Hout; [by apply Hd|].
  apply staged_short. rewrite length_take, length_app. simpl. lia.
Qed.

Lemma layer_same g bs id : outside (staged bs) f g → agree f g (layer_path root id).
Proof using. intros Hout r. symmetry. apply Hout, staged_layer. Qed.

Lemma block_inv_agree g h b : agree g h (staging_path root (bb_layer_id b)) → block_inv g b → block_inv h b.
Proof using.
  intros Ha [H1 H2 H3 H4 H5 H6 H7]. rewrite H1 in *. split; rewrite ?H1; try done.
  - unfold dir_at in *. by rewrite <-(agree_node g h).
  - by eapply layer_pure_agree.
  - by rewrite <-(opaque_agree g h).
Qed.

(** The layers are as good in a later file system. *)
Lemma layers_flattenable g id ls :
  (∀ i, agree f g (layer_path root i)) → plain_dir g (root ++ [LAYERS_DIR]) → ls ⊆ layers m →
  Forall (λ d, plain_dir g d ∧ layer_pure g d ∧ opaque g d = false ∧
               ∀ r, ¬ under (staging_path root id) (d ++ r)) (layer_dirs root ls).
Proof using Hready.
  intros Hag Hpl Hin. apply Forall_fmap, Forall_forall. intros l Hl%Hin. simpl. destruct Hready.
  rewrite Forall_forall in ready_pure0, ready_refs0. destruct (ready_pure0 l Hl) as (Hd & Hp & Ho).
  split_and!.
  - rewrite layer_path_snoc in *. apply plain_dir_snoc; [done| |by apply ready_refs0 in Hl as (_ & _ & _ & ? & _)].
    rewrite <-layer_path_snoc in *. unfold dir_at in *. by rewrite <-(agree_node f g).
  - by eapply layer_pure_agree.
  - by rewrite <-(opaque_agree f g).
  - intros r Hu. unfold layer_path in Hu. rewrite <-(assoc_L (++)) in Hu. by apply under_two in Hu as [? _].
Qed.

Lemma start_block_yields g bs pre block post :
  build_inv g bs → layers m = pre ++ block ++ post → block ≠ [] →
  yields (λ h, h = g) (start_block root m block)
    (λ r h, ∃ b, r = (b, (layer_dirs root block, layer_dirs root post)) ∧ bb_replaced b = block ∧
       bb_layer_id b ∉ bb_layer_id <$> bs ∧ bb_staging_dir b = staging_path root (bb_layer_id b) ∧
       bb_layer_dir b = layer_path root (bb_layer_id b) ∧ name_ok (bb_layer_id b) ∧
       f !! layer_path root (bb_layer_id b) = None ∧
       (∀ r, g !! (staging_path root (bb_layer_id b) ++ r) = None) ∧
       h = <[staging_path root (bb_layer_id b) := NDir 0x1ed ∅]> g).
Proof using Hready.
  intros [Hout Hids Hbs] Hm Hne. pose proof Hready as [Hrl Hrs Hll Hsl Htree Href Hnd _].
  unfold start_block. eapply yields_bind.
  { apply allocate_yields; by eapply plain_staged. }
  intros r. apply yields_pre. intros ? (-> & k & -> & He1 & He2). set (id := new_layer_id _ _ k) in *.
  assert (name_ok id) as Hid by by apply new_layer_id_ok. clearbody id.
  assert (id ∉ bb_layer_id <$> bs) as Hfresh.
  { intros (b & -> & Hb)%list_elem_of_fmap. rewrite Forall_forall in Hbs. destruct (Hbs b Hb).
    rewrite inv_staging0 in inv_dir0. rewrite staging_path_snoc in He1.
    unfold exists_ in He1. rewrite metadata_child in He1; [|by eapply plain_staged|apply staging_name_ok|].
    - rewrite <-staging_path_snoc in He1. unfold node_at, dir_at in *. by destruct (g !! _).
    - rewrite <-staging_path_snoc. intros t Ht. unfold dir_at in inv_dir0. by rewrite Ht in inv_dir0. }
  assert (g !! staging_path root id = f !! staging_path root id) as Hst.
  { apply Hout. pose proof (staged_other bs id [] Hfresh) as Hs. by rewrite app_nil_r in Hs. }
  assert (f !! staging_path root id = None) as Hsn.
  { rewrite <-Hst. rewrite staging_path_snoc in *. apply fresh_child; [by eapply plain_staged|apply staging_name_ok| |done].
    intros t. rewrite Hst, <-staging_path_snoc. apply Hsl. }
  assert (f !! layer_path root id = None) as Hln.
  { assert (g !! layer_path root id = f !! layer_path root id) as Hgf.
    { apply Hout. pose proof (staged_layer bs id []) as Hs. by rewrite app_nil_r in Hs. }
    rewrite <-Hgf. rewrite layer_path_snoc in *. apply fresh_child; [by eapply plain_staged|apply Hid| |done].
    intros t. rewrite Hgf, <-layer_path_snoc. apply Hll. }
  assert (∀ r, g !! (staging_path root id ++ r) = None) as Hempty.
  { intros r'. destruct (decide (r' = [])) as [->|Hr']; [rewrite app_nil_r; congruence|].
    rewrite Hout by by apply staged_other. apply tree_below; [done| |done]. unfold dir_at. by rewrite Hsn. }
  eapply yields_bind.
  { apply does_yields, does_lift_err. rewrite staging_path_snoc.
    apply does_create_new; [by eapply plain_staged|apply staging_name_ok|]. rewrite <-staging_path_snoc.
    specialize (Hempty []). by rewrite app_nil_r in Hempty. }
  intros []. rewrite <-staging_path_snoc. rewrite Hm. rewrite find_run_place by (by rewrite <-Hm || done).
  apply yields_ret. intros h ->. exists (mkBuilt id (staging_path root id) (layer_path root id) block). split_and!; [|done..].
  rewrite <-drop_drop, drop_app_length, drop_app_length.
  assert (∀ ls, ls ⊆ layers m → (λ l, resolve_layer_path root (lr_path l)) <$> ls = layer_dirs root ls) as Hres.
  { intros ls Hls. apply list_fmap_ext. intros i l Hl. apply resolve_canonical.
    rewrite Forall_forall in Href. apply Href, Hls. by eapply list_elem_of_lookup_2. }
  rewrite !Hres by (rewrite Hm; set_solver). done.
Qed.
(** The state after a block is started. *)
Definition block_started (g : fs) bs block b (h : fs) : Prop :=
  bb_replaced b = block ∧
  bb_layer_id b ∉ bb_layer_id <$> bs ∧ bb_staging_dir b = staging_path root (bb_layer_id b) ∧
  bb_layer_dir b = layer_path root (bb_layer_id b) ∧ name_ok (bb_layer_id b) ∧
  f !! layer_path root (bb_layer_id b) = None ∧
  (∀ r, g !! (staging_path root (bb_layer_id b) ++ r) = None) ∧
  h = <[staging_path root (bb_layer_id b) := NDir 0x1ed ∅]> g.

Lemma outside_staged_app g h bs bs' :
  outside (staged bs) f g → outside (staged bs') g h → outside (staged (bs ++ bs')) f h.
Proof using.
  intros H1 H2 q Hq. rewrite H2, H1; [done|..]; intros (b & Hb & Hu); apply Hq; exists b; rewrite elem_of_app; auto.
Qed.

Lemma flatten_block_yields g bs pre block post b h :
  build_inv g bs → layers m = pre ++ block ++ post → 2 ≤ length block → block_started g bs block b h →
  yields (λ k, k = h) (flatten_block_into_with_lower (bb_staging_dir b) (layer_dirs root block) (layer_dirs root post))
    (λ _ k, build_inv k (bs ++ [b]) ∧ outside (staged [b]) g k ∧
       veq k (bb_staging_dir b :: layer_dirs root post) k (layer_dirs root (block ++ post))).
Proof using Hready.
  intros [Hout Hids Hbs] Hm Hlen (Hrep & Hfresh & Hsd & Hld & Hid & Hln & Hempty & Hh).
  set (st := staging_path root (bb_layer_id b)) in *.
  assert (outside (staged [b]) g h) as Hgh.
  { subst h. apply outside_insert; [|done]. exists b. split; [by left|]. apply under_self. }
  pose proof (outside_staged_app _ _ _ _ Hout Hgh) as Hfh.
  assert (plain_dir h (root ++ [STAGING_DIR])) as Hpst by (eapply plain_staged; [done|apply Hready]).
  eapply hoare_conseq; [apply does_yields, (flatten_spec h)|done| |done]; cycle 1.
  - intros [] k (Hstr & Hpure & Hop & Hview). rewrite Hsd in *. fold st in Hstr, Hpure, Hop, Hview |- *.
    assert (outside (staged [b]) h k) as Hhk.
    { eapply outside_weaken; [|done]. intros q (c & r & ->). exists b. split; [by left|apply under_app]. }
    assert (outside (staged [b]) g k) as Hgk by by eapply outside_trans. split_and!; [|done|].
    + split; [by eapply outside_staged_app| |].
      * rewrite fmap_app. apply NoDup_app. split_and!; [done| |apply NoDup_singleton]. set_solver.
      * apply Forall_app. split.
        -- rewrite Forall_forall in Hbs |- *. intros b' Hb'. eapply (block_inv_agree g); [|by apply Hbs].
           intros r. symmetry. apply Hgk, staged_other. intros Heq%list_elem_of_singleton. apply Hfresh. rewrite <-Heq.
           by apply list_elem_of_fmap_2.
        -- apply Forall_singleton. split; rewrite ?Hsd; try done.
           unfold dir_at. rewrite (strictly_node h k) by done. subst h. by rewrite lookup_insert_eq.
    + eapply veq_trans; [intros cs ??; by apply Hview|]. rewrite layer_dirs_app.
      rewrite <-layer_dirs_app. apply veq_same. intros p (l & -> & _)%list_elem_of_fmap r. symmetry.
      apply Hhk, staged_layer.
  - assert (Forall (λ d, plain_dir h d ∧ layer_pure h d ∧ opaque h d = false ∧
        ∀ r, ¬ under (bb_staging_dir b) (d ++ r)) (layer_dirs root block ++ layer_dirs root post)) as Hflat.
    { rewrite <-layer_dirs_app, Hsd. apply layers_flattenable; [|eapply plain_staged; [done|apply Hready]|rewrite Hm; set_solver].
      intros i. by eapply layer_same. }
    split; [by unfold layer_dirs; rewrite length_fmap|..|done]; rewrite Hsd.
    + unfold st. rewrite staging_path_snoc. apply plain_dir_snoc; [done| |apply staging_name_ok].
      rewrite <-staging_path_snoc. unfold dir_at. subst h. by rewrite lookup_insert_eq.
    + subst h. rewrite lookup_insert_eq. simpl. set_solver.
    + intros c r. subst h. rewrite lookup_insert_ne; [apply Hempty|].
      intros Heq%(f_equal length). rewrite length_app in Heq. simpl in Heq. lia.
Qed.

(** The blocks of a plan, in order. *)
Inductive runs_over : list (list LayerRef) → list LayerRef → Prop :=
| runs_nil ls : runs_over [] ls
| runs_skip l bls ls : runs_over bls ls → runs_over bls (l :: ls)
| runs_take bl bls ls : runs_over bls ls → 2 ≤ length bl → runs_over (bl :: bls) (bl ++ ls).

Lemma build_loop_yields bls ls : runs_over bls ls → ∀ pre g bs,
  layers m = pre ++ ls → build_inv g bs →
  yields (λ h, h = g) (build_loop root m bls bs)
    (λ r k, r.2 = None → ∃ bs', r.1 = bs ++ bs' ∧ bb_replaced <$> bs' = bls ∧ build_inv k (bs ++ bs') ∧
       outside (staged bs') g k ∧ built_over root k bb_staging_dir bs' ls).
Proof using Hready.
  induction 1 as [ls|l bls ls Hr IH|bl bls ls Hr IH Hlen]; intros pre g bs Hm Hinv.
  - apply yields_ret. intros h -> _. exists []. rewrite app_nil_r. split_and!; [done..|by intros|constructor].
  - eapply hoare_conseq; [apply (IH (pre ++ [l])); [by rewrite <-(assoc_L (++))|exact Hinv]|done| |done].
    intros r k Hpost Hn. destruct (Hpost Hn) as (bs' & ? & ? & ? & ? & ?). exists bs'. split_and!; try done. by constructor.
  - cbn [build_loop]. eapply yields_bind.
    { eapply hoare_attempt, (start_block_yields g bs pre bl ls); [done|done|]. intros ->. simpl in Hlen. lia. }
    intros [[b [sources lower]]|e]; [|apply yields_ret; by intros].
    apply yields_pre. intros h (b' & [= <- -> ->] & Hst).
    eapply yields_bind.
    { eapply hoare_attempt, (flatten_block_yields g bs pre bl ls b h); done. }
    intros [[]|e]; [|apply yields_ret; by intros].
    apply yields_pre. intros k (Hinv' & Hgk & Hv).
    eapply hoare_conseq; [apply (IH (pre ++ bl)); [by rewrite <-(assoc_L (++))|exact Hinv']|done| |done].
    intros r k' Hpost Hn. destruct (Hpost Hn) as (bs' & Hbs & Hrep & Hinv2 & Hkk & Hover). exists (b :: bs').
    rewrite <-(assoc_L (++)) in *. destruct Hst as (Hb & Hfresh & Hsd & _).
    split_and!; [done|by csimpl; rewrite Hb, Hrep|done|..].
    + intros q Hq. rewrite Hkk, Hgk; [done|..]; intros (b' & Hb' & Hu); apply Hq; exists b'; set_solver.
    + rewrite <-Hb. constructor; [done|rewrite Hb; intros ->; simpl in Hlen; lia|]. rewrite Hb.
      assert (bb_layer_id b ∉ bb_layer_id <$> bs') as Hb'.
      { pose proof (inv_ids _ _ Hinv2) as Hnd. rewrite fmap_app in Hnd. apply NoDup_app in Hnd as (_ & _ & Hnd).
        csimpl in Hnd. by apply NoDup_cons in Hnd as [? _]. }
      assert (∀ id, same k (layer_path root id) k' (layer_path root id)) as Hl.
      { intros id r'. symmetry. apply Hkk, staged_layer. }
      eapply veq_trans; [|eapply veq_trans; [exact Hv|]].
      * apply veq_cons; [|apply veq_same; intros p (l & -> & _)%list_elem_of_fmap r'; by rewrite Hl].
        intros r'. rewrite Hsd. apply Hkk. by apply staged_other.
      * apply veq_same. intros p (l & -> & _)%list_elem_of_fmap. apply Hl.
Qed.

Lemma build_blocks_yields plan :
  pl_manifest plan = m → runs_over (pl_blocks plan) (layers m) →
  yields (λ h, h = f) (build_blocks root plan)
    (λ bs k, bb_replaced <$> bs = pl_blocks plan ∧ build_inv k bs ∧
       built_over root k bb_staging_dir bs (layers m)).
Proof using Hready.
  intros Hp Hr. unfold build_blocks. rewrite Hp. eapply yields_bind.
  { apply (build_loop_yields _ _ Hr []); [done|]. split; [done|constructor|constructor]. }
  intros [built [e|]].
  - intros w r w' Hrun _. unfold bind in Hrun. destruct (remove_all _ w) as [[]?]; by injection Hrun as <- <-.
  - apply yields_ret. intros k Hpost. destruct (Hpost eq_refl) as (bs' & Hb & ? & ? & _ & ?). simpl in *. by subst.
Qed.
End build.

(** The plan's blocks are in order. *)
Lemma runs_over_app bls1 ls1 bls2 ls2 :
  runs_over bls1 ls1 → runs_over bls2 ls2 → runs_over (bls1 ++ bls2) (ls1 ++ ls2).
Proof.
  intros H1 H2. induction H1 as [ls| |]; simpl; rewrite <-?(assoc_L (++)); try (by constructor).
  induction ls; [done|by constructor].
Qed.

Lemma partition_runs_over boundaries ls : runs_over (partition_blocks ls boundaries) ls.
Proof.
  unfold partition_blocks. destruct (foldl _ _ _) as [blocks cur] eqn:Hfold.
  assert (∃ pre, ls = pre ++ cur ∧ runs_over blocks pre) as (pre & -> & Hr).
  { revert blocks cur Hfold. induction ls as [|l ls IH] using rev_ind; intros blocks cur Hfold.
    { injection Hfold as <- <-. exists []. split; [done|constructor]. }
    rewrite foldl_app in Hfold. simpl in Hfold. destruct (foldl _ _ ls) as [blocks0 cur0].
    destruct (IH _ _ eq_refl) as (pre & -> & Hr). simpl in Hfold.
    destruct (breaks boundaries l); injection Hfold as <- <-.
    - exists ((pre ++ cur0) ++ [l]). rewrite app_nil_r. split; [done|].
      rewrite <-(app_nil_r (if decide _ then _ else _)). apply runs_over_app; [|constructor].
      case_decide; [apply runs_over_app; [done|]|].
      + rewrite <-(app_nil_r cur0) at 2. by constructor; [constructor|].
      + rewrite <-(app_nil_r blocks0). apply runs_over_app; [done|constructor].
    - exists pre. by rewrite <-(assoc_L (++)). }
  case_decide; [|rewrite <-(app_nil_r blocks)]; apply runs_over_app; try done; [|constructor].
  rewrite <-(app_nil_r cur) at 2. by constructor; [constructor|].
Qed.
