(* ===== verification/SquashCommit.v ===== *)
(** * What a squash commits

    The renames of the built trees, the new manifest and the release of the
    plan's lease, composed into the whole operation of [stack/squash.rs].  A
    commit only needs that the active manifest extends the planned one, so
    publishes between the phases are covered. *)

From S2P Require Import Prelude ByteStr Merge Model FS Storage View Descend World StorageOps.
From S2P Require Import Flatten Does FlattenRead FlattenSpec Lease Publish Stack Squash SquashSpec.

(** ** Moving the blocks into place *)

Lemma does_rename_dir f d c e x m xs :
  plain_dir f d → c ≠ dotdot → plain_dir f e → x ≠ dotdot →
  f !! (d ++ [c]) = Some (NDir m xs) → (∀ r, f !! ((e ++ [x]) ++ r) = None) → ¬ under (d ++ [c]) (e ++ [x]) →
  does (λ g, g = f) (fs_rename (d ++ [c]) (e ++ [x]))
    (λ _ g, same f (d ++ [c]) g (e ++ [x]) ∧ (∀ r, g !! ((d ++ [c]) ++ r) = None) ∧
            outside (λ q, under (d ++ [c]) q ∨ under (e ++ [x]) q) f g).
Proof.
  intros Hd Hc He Hx Hs Hn Hu.
  assert (f !! (e ++ [x]) = None) as Hn0 by (specialize (Hn []); by rewrite app_nil_r in Hn).
  assert (resolve f false (d ++ [c]) = Ok (d ++ [c])) as Hr1 by by apply resolve_child.
  assert (resolve f false (e ++ [x]) = Ok (e ++ [x])) as Hr2 by by apply resolve_new.
  assert (below (d ++ [c]) (e ++ [x]) = None) as Hb by by apply eq_None_not_Some.
  apply does_syscall. intros ? ->. exists tt, (graft (without (without f (d ++ [c])) (e ++ [x])) (e ++ [x]) (subtree f (d ++ [c]))).
  rewrite Hr1, Hr2. cbn [result_bind]. rewrite Hs. rewrite decide_False by congruence.
  rewrite decide_False by (rewrite Hb; by intros []). rewrite Hn0. split; [done|].
  assert (∀ r, below (e ++ [x]) ((d ++ [c]) ++ r) = None) as Hb2.
  { intros r. apply eq_None_not_Some. intros [r' Hr']. apply below_Some in Hr'.
    destruct (decide (length (e ++ [x]) ≤ length (d ++ [c]))) as [Hle|Hgt].
    - assert (∃ t, d ++ [c] = (e ++ [x]) ++ t) as [t Ht].
      { apply app_eq_app in Hr' as (l & [[-> _]|[Heq ->]]); [by eexists|].
        assert (l = []) as ->; [|exists []; by rewrite app_nil_r in *]. apply (f_equal length) in Heq.
        rewrite (length_app (d ++ [c])) in Heq. destruct l; simpl in *; (done || lia). }
      rewrite Ht, Hn in Hs. done.
    - apply Hu. apply app_eq_app in Hr' as (l & [[Heq _]|[-> _]]); [|apply under_app].
      apply (f_equal length) in Heq. rewrite (length_app (e ++ [x])) in Heq. lia. }
  split_and!.
  - intros r. rewrite lookup_graft, below_app, lookup_subtree. destruct (f !! ((d ++ [c]) ++ r)) eqn:Hf; [done|].
    rewrite lookup_without, decide_False by by rewrite below_app. done.
  - intros r. rewrite lookup_graft, Hb2, lookup_without, decide_True, lookup_without, decide_False; [done| |done].
    by rewrite below_app.
  - intros q Hq. 
    assert (below (d ++ [c]) q = None) as Hq1 by (apply eq_None_not_Some; intros ?; apply Hq; by left).
    assert (below (e ++ [x]) q = None) as Hq2 by (apply eq_None_not_Some; intros ?; apply Hq; by right).
    by rewrite lookup_graft, Hq2, lookup_without, decide_True, lookup_without, decide_True.
Qed.

Section promote.
Context (root : path).
Implicit Types (b : BuiltBlock) (bs : list BuiltBlock).

Lemma block_inv_move f f' g h b :
  f' !! layer_path root (bb_layer_id b) = None → agree g h (staging_path root (bb_layer_id b)) →
  block_inv f root g b → block_inv f' root h b.
Proof.
  intros Hf Ha Hb. apply (block_inv_agree f root g h b Ha) in Hb as [H1 H2 H3 _ H5 H6 H7]. by split.
Qed.

Definition placed bs (q : path) : Prop := ∃ b, b ∈ bs ∧ under (layer_path root (bb_layer_id b)) q.

Definition touched bs (q : path) : Prop := staged root bs q ∨ placed bs q.

(** The blocks are in their places and nothing else has changed. *)
Definition moved_all (g k : fs) bs : Prop :=
  outside (touched bs) g k ∧
  ∀ b, b ∈ bs → same g (staging_path root (bb_layer_id b)) k (layer_path root (bb_layer_id b)) ∧
               ∀ r, k !! (staging_path root (bb_layer_id b) ++ r) = None.

Lemma touched_other bs id r :
  id ∉ bb_layer_id <$> bs → ¬ touched bs (staging_path root id ++ r) ∧ ¬ touched bs (layer_path root id ++ r).
Proof.
  intros Hid. split; (intros [Hs|(b & Hb & Hu)]; [by (apply staged_layer in Hs || apply staged_other in Hs)|]).
  - unfold layer_path, staging_path in Hu. rewrite <-(assoc_L (++)) in Hu. by apply under_two in Hu as [? _].
  - unfold layer_path in Hu. rewrite <-(assoc_L (++)) in Hu. apply under_two in Hu as [_ Hu]. apply Hid.
    rewrite <-Hu. by apply list_elem_of_fmap_2.
Qed.

Lemma touched_short bs q : length q ≤ S (length root) → ¬ touched bs q.
Proof. intros Hq [Hs|(b & _ & Hu)]; [by eapply staged_short|by eapply under_short]. Qed.

Lemma plain_touched g k bs a : outside (touched bs) g k → plain_dir g (root ++ [a]) → plain_dir k (root ++ [a]).
Proof.
  intros Hout [Hdd Hd]. split; [done|]. intros j Hj. unfold dir_at. rewrite Hout; [by apply Hd|].
  apply touched_short. rewrite length_take, length_app. simpl. lia.
Qed.

Lemma promote_yields bs : ∀ g done,
  plain_dir g (root ++ [LAYERS_DIR]) → plain_dir g (root ++ [STAGING_DIR]) → NoDup (bb_layer_id <$> bs) →
  Forall (block_inv g root g) bs → (∀ b r, b ∈ bs → g !! (layer_path root (bb_layer_id b) ++ r) = None) →
  yields (λ h, h = g) (promote_blocks bs done) (λ r k, r.2 = None → moved_all g k bs).
Proof.
  induction bs as [|b bs IH]; intros g done Hl Hs Hnd Hinv Hempty.
  { apply yields_ret. intros ? -> _. split; [done|]. intros b []%elem_of_nil. }
  csimpl in Hnd. apply NoDup_cons in Hnd as [Hb Hnd]. apply Forall_cons in Hinv as [[H1 H2 Hname _ Hdir Hpure Hop] Hinv].
  cbn [promote_blocks]. rewrite H1, H2. rewrite H1 in Hdir. eapply yields_bind.
  { eapply hoare_attempt, does_yields. unfold dir_at in Hdir. destruct (g !! _) as [[| |m xs| |]|] eqn:Hn; try done.
    rewrite staging_path_snoc, layer_path_snoc in *.
    eapply (does_rename_dir g _ _ _ _ m xs); [done|apply staging_name_ok|done|apply Hname|done| |].
    - intros r. rewrite <-layer_path_snoc. apply Hempty. by left.
    - rewrite <-staging_path_snoc, <-layer_path_snoc. intros Hu.
      by apply (under_two root _ _ _ _ []) in Hu as [? _]. }
  intros [[]|e]; [|apply yields_ret; by intros]. rewrite <-staging_path_snoc, <-layer_path_snoc.
  apply yields_pre. intros k (Hsame & Hgone & Hout).
  assert (outside (touched [b]) g k) as Hgk.
  { eapply outside_weaken; [|done]. intros q [?|?]; [left|right]; exists b; (split; [by left|done]). }
  assert (∀ b' r, b' ∈ bs → k !! (staging_path root (bb_layer_id b') ++ r) = g !! (staging_path root (bb_layer_id b') ++ r) ∧
    k !! (layer_path root (bb_layer_id b') ++ r) = g !! (layer_path root (bb_layer_id b') ++ r)) as Hrest.
  { intros b' r Hb'. assert (bb_layer_id b' ∉ bb_layer_id <$> [b]) as Hne.
    { intros Heq%list_elem_of_singleton. apply Hb. rewrite <-Heq. by apply list_elem_of_fmap_2. }
    split; apply Hgk; by apply touched_other. }
  eapply hoare_conseq; [apply (IH k); [by eapply plain_touched..|done| |]|done| |done].
  - rewrite Forall_forall in Hinv |- *. intros b' Hb'. eapply (block_inv_move g k g k); [| |by apply Hinv].
    + rewrite <-(app_nil_r (layer_path _ _)). destruct (Hrest b' [] Hb') as [_ ->]. apply Hempty. by right.
    + intros r. symmetry. by apply Hrest.
  - intros b' r Hb'. destruct (Hrest b' r Hb') as [_ ->]. apply Hempty. by right.
  - intros r j Hpost Hn. destruct (Hpost Hn) as [Hkj Hall]. split.
    + intros q Hq. rewrite Hkj, Hgk; [done|..]; intros Ht; apply Hq;
        (destruct Ht as [(b' & Hb' & ?)|(b' & Hb' & ?)]; [left|right]; exists b'; (split; [set_solver|done])).
    + intros b' [->|Hb']%elem_of_cons.
      * split.
        -- intros r'. rewrite Hkj by by apply touched_other. apply Hsame.
        -- intros r'. rewrite Hkj by by apply touched_other. apply Hgone.
      * destruct (Hall b' Hb') as [Hs' Hg']. split; [|done]. intros r'. rewrite <-Hs'. symmetry. by apply Hrest.
Qed.
End promote.

(** ** The commit *)

Lemma canonical_new_ref id : name_ok id → canonical_ref (new_ref id).
Proof. intros Hid. by split. Qed.

Lemma validate_canonical l : canonical_ref l → validate_layer_ref l = Ok ().
Proof.
  intros Hc. unfold validate_layer_ref. destruct Hc as [Hp Hid] eqn:Heq. clear Heq.
  rewrite decide_False by apply Hid. unfold check_layer_path. rewrite canonical_comps by done. rewrite Hp.
  rewrite decide_False by done. rewrite decide_False.
  - assert (is_absolute (LAYERS_DIR ++ [slash] ++ layer_id l) = false) as -> by done.
    rewrite decide_False; [done|]. rewrite !elem_of_cons, elem_of_nil. destruct Hid as (_ & _ & Hdd & _).
    intros [?|[?|[]]]; [done|congruence].
  - rewrite !elem_of_app. destruct Hid as (_ & _ & _ & _ & Hn).
    intros [Hx|[Hx|Hx]]; [by apply layers_name_ok in Hx|by apply list_elem_of_singleton in Hx|done].
Qed.

Lemma validate_canonicals ls : Forall canonical_ref ls → validate_layer_refs ls = Ok ().
Proof. induction 1 as [|l ls Hl _ IH]; [done|]. simpl. by rewrite validate_canonical. Qed.

Section commit.
Context `{ManifestCodec} (pid : N) (root : path) (g : fs) (m latest : Manifest) (pre : list LayerRef).
Context (bs : list BuiltBlock).
Hypothesis Hready : squash_ready g root (layers latest).
Hypothesis Hlatest : layers latest = pre ++ layers m.
Hypothesis Hblocks : Forall (block_inv g root g) bs.
Hypothesis Hids : NoDup (bb_layer_id <$> bs).
Hypothesis Hover : built_over root g bb_staging_dir bs (layers m).

Lemma place_empty b r : b ∈ bs → g !! (layer_path root (bb_layer_id b) ++ r) = None.
Proof using Hready Hblocks.
  intros Hb. rewrite Forall_forall in Hblocks. pose proof (inv_fresh _ _ _ _ (Hblocks b Hb)) as Hf.
  destruct (decide (r = [])) as [->|Hr]; [by rewrite app_nil_r|].
  apply tree_below; [apply Hready| |done]. unfold dir_at. by rewrite Hf.
Qed.

(** The refs of the new layers are new. *)
Lemma built_ref_fresh b : b ∈ bs → built_ref b ∉ layers latest.
Proof using Hready Hblocks.
  intros Hb Hin. pose proof (ready_pure _ _ _ Hready) as Hp. rewrite Forall_forall in Hp.
  destruct (Hp _ Hin) as [Hd _]. pose proof (place_empty b [] Hb) as Hn. rewrite app_nil_r in Hn.
  unfold dir_at in Hd. simpl in Hd. by rewrite Hn in Hd.
Qed.

Section moved.
Context (k : fs).
Hypothesis Hmoved : moved_all root g k bs.

Lemma layer_kept l : l ∈ layers latest → same g (layer_path root (layer_id l)) k (layer_path root (layer_id l)).
Proof using Hready Hblocks Hmoved.
  intros Hl r. destruct (decide (layer_id l ∈ bb_layer_id <$> bs)) as [Hid|Hid].
  - exfalso. apply list_elem_of_fmap in Hid as (b & Hid & Hb). apply (built_ref_fresh b Hb).
    pose proof (ready_refs _ _ _ Hready) as Hr. rewrite Forall_forall in Hr. pose proof Hblocks as Hbl. rewrite Forall_forall in Hbl.
    rewrite (canonical_ref_eq (built_ref b) l); [done|apply canonical_new_ref, (Hbl b Hb)|by apply Hr|done].
  - destruct Hmoved as [Hout _]. symmetry. apply Hout. by apply touched_other.
Qed.

Lemma moved_over : built_over root k (λ b, layer_path root (bb_layer_id b)) bs (layers m).
Proof using Hready Hlatest Hblocks Hover Hmoved.
  eapply built_over_move; [exact Hover| |].
  - intros l Hl. apply layer_kept. rewrite Hlatest. apply elem_of_app. by right.
  - intros b Hb. rewrite Forall_forall in Hblocks. rewrite (inv_staging _ _ _ _ (Hblocks b Hb)). by apply Hmoved.
Qed.

Lemma moved_tree : tree k.
Proof using Hready Hblocks Hmoved.
  destruct Hmoved as [Hout Hall]. intros q c Hs.
  destruct (decide (Exists (λ b, is_Some (below (staging_path root (bb_layer_id b)) (q ++ [c]))) bs)) as [He|He1].
  { apply Exists_exists in He as (b & Hb & r & Hr%below_Some). rewrite Hr in Hs.
    destruct (Hall b Hb) as [_ Hgone]. rewrite Hgone in Hs. by destruct Hs. }
  destruct (decide (Exists (λ b, is_Some (below (layer_path root (bb_layer_id b)) (q ++ [c]))) bs)) as [He|He2].
  - apply Exists_exists in He as (b & Hb & r & Hr%below_Some). destruct (Hall b Hb) as [Hsame _].
    destruct r as [|c' r _] using rev_ind.
    + rewrite app_nil_r, layer_path_snoc in Hr. apply app_inj_tail in Hr as [-> ->].
      apply plain_dir_at. eapply plain_touched; [done|apply Hready].
    + rewrite (assoc_L (++)) in Hr. apply app_inj_tail in Hr as [-> ->]. rewrite <-(assoc_L (++)), <-Hsame in Hs.
      rewrite Forall_forall in Hblocks. destruct (Hblocks b Hb). rewrite inv_staging in *.
      unfold dir_at. rewrite <-Hsame. by apply (pure_tree g _ inv_pure r c').
  - assert (¬ touched root bs (q ++ [c])) as Hnt.
    { intros [(b & Hb & Hu)|(b & Hb & Hu)]; [apply He1|apply He2]; apply Exists_exists; eauto. }
    assert (¬ touched root bs q) as Hnt'.
    { intros Ht. apply Hnt. destruct Ht as [(b & Hb & r & ->%below_Some)|(b & Hb & r & ->%below_Some)]; [left|right];
        exists b; (split; [done|]); rewrite <-(assoc_L (++)); apply under_app. }
    unfold dir_at. rewrite Hout in Hs |- * by done. by apply (ready_tree _ _ _ Hready) in Hs.
Qed.

(** The spliced stack in the new file system. *)
Lemma spliced_stack :
  ∃ ls', splice_blocks (layers latest) bs = Ok ls' ∧ NoDup ls' ∧
    veq k (layer_dirs root ls') g (layer_dirs root (layers latest)) ∧
    (∀ l, l ∈ ls' → l ∈ layers latest ∨ l ∈ built_ref <$> bs) ∧
    length ls' + length (concat (bb_replaced <$> bs)) = length (layers latest) + length bs ∧
    ∀ b, b ∈ bs → built_ref b ∈ ls'.
Proof using Hready Hlatest Hblocks Hids Hover Hmoved.
  destruct (splice_blocks_spec root k bs (layers m) moved_over pre) as (ls' & Hs & Hv & Hnd & Hin & Hall & Hlen).
  - rewrite <-Hlatest. apply Hready.
  - assert (built_ref <$> bs = new_ref <$> (bb_layer_id <$> bs)) as -> by by rewrite <-list_fmap_compose.
    apply NoDup_fmap_2; [|done]. by intros ?? [=].
  - rewrite <-Hlatest. apply built_ref_fresh.
  - rewrite <-Hlatest in Hs. exists (pre ++ ls'). split_and!; [done|done| | | |].
    + rewrite layer_dirs_app, Hlatest, layer_dirs_app.
      assert (∀ p ls, ls ⊆ layers latest → p ∈ layer_dirs root ls → same k p g p) as Hkg.
      { intros p ls Hls (l & -> & Hl)%list_elem_of_fmap r. symmetry. apply layer_kept. auto. }
      apply veq_app; [intros p; apply Hkg; rewrite Hlatest; set_solver|].
      eapply veq_trans; [exact Hv|]. apply veq_same. intros p. apply Hkg. rewrite Hlatest. set_solver.
    + intros l [Hl|Hl%Hin]%elem_of_app; [left|]; rewrite Hlatest, elem_of_app; naive_solver.
    + rewrite Hlatest, !length_app. lia.
    + intros b Hb. apply elem_of_app. right. by apply Hall.
Qed.
End moved.

(** *** Replacing the manifest *)

Hypothesis Hroot : root_ok g root.
Hypothesis Hfile : dir_at g (manifest_path root) = false.
Hypothesis Htmp : ∀ n, g !! (root ++ [tmp_name pid ACTIVE_MANIFEST_FILE n]) = None.

Lemma moved_short k q : moved_all root g k bs → length q ≤ S (length root) → k !! q = g !! q.
Proof using. intros [Hout _] Hq. by apply Hout, touched_short. Qed.

Lemma moved_root k : moved_all root g k bs → root_ok k root.
Proof using Hroot. intros Hm. eapply root_ok_agree; [|exact Hroot]. intros q. by apply moved_short. Qed.

Lemma install_yields m' :
  yields (λ h, h = g) (install_blocks pid root bs m')
    (λ _ k', ∃ k, moved_all root g k bs ∧ k' = <[manifest_path root := NFile (encode_manifest m') 0x1a4 ∅]> k).
Proof using Hready Hblocks Hids Hroot Hfile Htmp.
  unfold install_blocks. eapply yields_bind.
  { apply promote_yields; [apply Hready..|done|done|]. intros b r. apply place_empty. }
  intros [promoted failed]. apply yields_pre. intros k Hk. cbn [snd] in Hk.
  eapply (yields_bind _ _ _ (λ r k', r = Ok () → ∃ k, moved_all root g k bs ∧
    k' = <[manifest_path root := NFile (encode_manifest m') 0x1a4 ∅]> k)).
  - destruct failed as [e|]; [by intros w r w' [= <- <-] _|]. specialize (Hk eq_refl).
    eapply hoare_conseq; [apply (hoare_attempt _ (λ h, h = k) (λ _ k', k' = <[manifest_path root := NFile (encode_manifest m') 0x1a4 ∅]> k) (λ _, True) (λ _, True))|done|
      intros [[]|] h Hh; [intros _; eauto|done]|done].
    eapply (yields_bind _ _ _ (λ _ h, h = k)).
    { eapply (yields_bind _ _ _ (λ _ h, h = k)).
      - apply hoare_lift_err, hoare_reads. intros ? ->. by destruct (metadata _ _).
      - intros _. apply hoare_lift_err. eapply hoare_conseq; [apply (hoare_sync (λ h, h = k))|done..]. }
    intros []. intros w r w' Hrun Hw. unfold write_manifest, manifest_path in Hrun.
    pose proof (write_atomic_cases pid root ACTIVE_MANIFEST_FILE (encode_manifest m') w r w') as Hc.
    rewrite Hw in Hc. destruct Hc as [Hr|[Hr _]]; [..|exact Hrun| |].
    + by apply moved_root in Hk as [? _ _ _].
    + by eapply moved_tree.
    + done.
    + unfold dir_at. rewrite (moved_short k) by (done || (rewrite length_app; simpl; lia)). exact Hfile.
    + rewrite (moved_short k) by (done || (rewrite length_app; simpl; lia)). apply Htmp.
    + by destruct r.
    + by destruct r.
  - intros [[]|e]; [by apply yields_ret; intros ? Hx; apply Hx|].
    intros w r w' Hrun _. unfold bind in Hrun. destruct (remove_all _ w) as [[]?]; by injection Hrun as <- <-.
Qed.
End commit.

Lemma sbind_Ok {A B : Type} (c : sio A) (k : A → sio B) s w b s' w' :
  sbind c k s w = (Ok b, s', w') → ∃ a s1 w1, c s w = (Ok a, s1, w1) ∧ k a s1 w1 = (Ok b, s', w').
Proof. unfold sbind. destruct (c s w) as [[[a|e] s1] w1]; [eauto|done]. Qed.

Lemma sio_io_Ok {A : Type} (c : io LayerStackError A) s w a s' w' :
  sio_io c s w = (Ok a, s', w') → c w = (Ok a, w') ∧ s' = s.
Proof. unfold sio_io. destruct (c w) as [r w1]. by intros [= -> <- <-]. Qed.

(** A new manifest file does not disturb the root. *)
Lemma manifest_root_ok k root n : root_ok k root → root_ok (<[manifest_path root := n]> k) root.
Proof.
  intros [Hp Hlp Hmd Hst]. set (k' := <[_ := _]> k).
  assert (∀ a, a ≠ ACTIVE_MANIFEST_FILE → k' !! (root ++ [a]) = k !! (root ++ [a])) as Hne.
  { intros a Ha. unfold k', manifest_path. rewrite lookup_insert_ne; [done|]. by intros [=]%(inj (app root)). }
  assert (plain_dir k' root) as Hp'.
  { eapply plain_dir_outside; [|exact Hp]. by apply outside_insert; [apply under_self|]. }
  split; [done| |by rewrite Hne..]. apply plain_dir_snoc; [done| |done].
  apply plain_dir_at in Hlp. unfold dir_at in *. by rewrite Hne.
Qed.

(** A layer that can be read, and squashed again. *)
Definition good_layer (f : fs) (root : path) (l : LayerRef) : Prop :=
  dir_at f (layer_path root (layer_id l)) = true ∧
  layer_pure f (layer_path root (layer_id l)) ∧ opaque f (layer_path root (layer_id l)) = false.

Lemma good_layer_agree f g root l :
  agree f g (layer_path root (layer_id l)) → good_layer f root l → good_layer g root l.
Proof.
  intros Ha (Hd & Hp & Ho). split_and!.
  - unfold dir_at in *. by rewrite <-(agree_node f g).
  - by eapply layer_pure_agree.
  - by rewrite <-(opaque_agree f g).
Qed.

Record good_stack (f : fs) (root : path) (ls : list LayerRef) : Prop := {
  good_root : plain_dir f (root ++ [LAYERS_DIR]);
  good_refs : Forall canonical_ref ls;
  good_nodup : NoDup ls;
  good_pure : Forall (good_layer f root) ls;
}.

(** Removing layers that a stack does not reference leaves it as it is. *)
Lemma good_stack_outside k f root ls gone :
  outside (layers_region root gone) k f → root_ok k root → Forall canonical_ref gone → (∀ l, l ∈ ls → l ∉ gone) →
  good_stack k root ls →
  good_stack f root ls ∧ ∀ l, l ∈ ls → agree k f (layer_path root (layer_id l)).
Proof.
  intros Hout Hroot Hgone Hdis [Hr Href Hnd Hp].
  assert (∀ l, l ∈ ls → agree k f (layer_path root (layer_id l))) as Hag.
  { intros l Hl r. symmetry. apply Hout. intros (l' & Hl' & Hreg).
    destruct (decide (layer_id l' = layer_id l)) as [Heq|Hne]; [|by apply layer_region_disjoint in Hreg].
    apply (Hdis l Hl). rewrite Forall_forall in Hgone. rewrite Forall_forall in Href.
    rewrite <-(canonical_ref_eq l' l) by auto. done. }
  split; [|done]. split; [|done|done|].
  - by eapply root_ok_outside in Hout as [_ ? _ _].
  - rewrite Forall_forall in Hp |- *. intros l Hl. eapply good_layer_agree; auto.
Qed.

Section commit.
Context `{ManifestCodec} (pid : N) (root : path) (g : fs) (m latest : Manifest) (pre : list LayerRef).
Context (bs : list BuiltBlock).

(** Everything the commit relies on: the active manifest extends the planned one,
    and the blocks are built over it. *)
Record commit_pre : Prop := {
  cp_ready : squash_ready g root (layers latest);
  cp_latest : layers latest = pre ++ layers m;
  cp_blocks : Forall (block_inv g root g) bs;
  cp_ids : NoDup (bb_layer_id <$> bs);
  cp_over : built_over root g bb_staging_dir bs (layers m);
  cp_root : root_ok g root;
  cp_file : dir_at g (manifest_path root) = false;
  cp_tmp n : g !! (root ++ [tmp_name pid ACTIVE_MANIFEST_FILE n]) = None;
}.

Hypothesis Hpre : commit_pre.

Lemma moved_layers k l :
  moved_all root g k bs → l ∈ layers latest ∨ l ∈ built_ref <$> bs → canonical_ref l ∧ good_layer k root l.
Proof using Hpre.
  intros Hmv Hin. destruct Hpre as [Hready _ Hbl _ _ _ _ _]. destruct Hin as [Hl|(b & -> & Hb)%list_elem_of_fmap].
  - pose proof (layer_kept root g latest bs Hready Hbl k Hmv l Hl) as Hk.
    pose proof (ready_refs _ _ _ Hready) as Hr. pose proof (ready_pure _ _ _ Hready) as Hp.
    rewrite Forall_forall in Hr. rewrite Forall_forall in Hp. split; [by apply Hr|].
    by eapply good_layer_agree; [|apply Hp].
  - rewrite Forall_forall in Hbl. destruct (Hbl b Hb) as [I1 _ I3 _ I5 I6 I7]. rewrite I1 in *.
    destruct Hmv as [_ Hmv]. destruct (Hmv b Hb) as [Hsame _].
    split; [by apply canonical_new_ref|]. split_and!; simpl.
    + unfold dir_at in *. pose proof (Hsame []) as Hn. rewrite !app_nil_r in Hn. by rewrite <-Hn.
    + by eapply layer_pure_same.
    + unfold opaque, present in *. by rewrite <-Hsame.
Qed.

(** The stack after the renames and the new manifest. *)
Lemma installed_stack k ls' m' :
  moved_all root g k bs → splice_blocks (layers latest) bs = Ok ls' → layers m' = ls' →
  schema_version m' = MANIFEST_SCHEMA_VERSION →
  let k' := <[manifest_path root := NFile (encode_manifest m') 0x1a4 ∅]> k in
  root_ok k' root ∧ read_manifest k' (manifest_path root) = Ok m' ∧ good_stack k' root ls' ∧
  reads_as root k' ls' g (layers latest) ∧
  length ls' + length (concat (bb_replaced <$> bs)) = length (layers latest) + length bs.
Proof using Hpre.
  intros Hmv Hs Hl Hsch k'. destruct Hpre as [Hready Hlat Hbl Hids Hover Hroot Hfile Htmp].
  destruct (spliced_stack root g m latest pre bs Hready Hlat Hbl Hids Hover k Hmv) as (ls0 & Hs0 & Hnd & Hv & Hin & Hlen & _).
  rewrite Hs in Hs0. injection Hs0 as <-.
  assert (∀ id, agree k k' (layer_path root id)) as Hag.
  { intros id r. unfold k'. rewrite lookup_insert_ne; [done|]. unfold manifest_path, layer_path.
    rewrite <-(assoc_L (++)). by intros Heq%(inj (app root)). }
  pose proof (moved_root root g bs Hroot k Hmv) as Hrk.
  pose proof (manifest_root_ok k root (NFile (encode_manifest m') 0x1a4 ∅) Hrk) as Hroot'. fold k' in Hroot'.
  assert (∀ l, l ∈ ls' → canonical_ref l ∧ good_layer k root l) as Hall.
  { intros l Hl'%Hin. by apply moved_layers. }
  split_and!; [done|..|done].
  - eapply read_manifest_written; [apply Hroot'|done| |by apply lookup_insert_eq].
    split; [done|]. apply validate_canonicals, Forall_forall. rewrite Hl. intros l Hl'. by apply Hall.
  - split; [apply Hroot'|apply Forall_forall; intros l ?; by apply Hall|done|].
    apply Forall_forall. intros l [_ Hg]%Hall. by eapply good_layer_agree.
  - eapply (reads_as_agree _ k); [done|]. split; [done|]. intros l cs t [Hl'|(b & -> & Hb)%list_elem_of_fmap]%Hin Hne Hcs Hn.
    + exists l. split; [done|]. by rewrite (layer_kept root g latest bs Hready Hbl k Hmv l Hl').
    + destruct (built_over_link root k _ bs (layers m) b cs t
        (moved_over root g m latest pre bs Hready Hlat Hbl Hover k Hmv) Hb) as (l & Hl' & Hn'); [|done..|].
      * destruct (moved_layers k (built_ref b) Hmv) as (_ & _ & ? & _); [right; by apply list_elem_of_fmap_2|done].
      * assert (l ∈ layers latest) as Hlat' by (rewrite Hlat; apply elem_of_app; by right).
        exists l. split; [done|]. by rewrite (layer_kept root g latest bs Hready Hbl k Hmv l Hlat').
Qed.

(** The files a release of the plan's lease can remove. *)
Lemma release_outside k m' (leases : bytes_map Manifest) id removed w w' :
  root_ok k root → read_manifest k (manifest_path root) = Ok m' → w_fs w = k →
  (∀ lm, leases !! id = Some lm → Forall canonical_ref (layers lm)) →
  (release_lease_locked root leases id).2 w = (Ok removed, w') →
  ∃ gone, Forall canonical_ref gone ∧ (∀ l, l ∈ layers m' → l ∉ gone) ∧ removed = ((λ _, gone) <$> leases !! id) ∧
    outside (layers_region root gone) k (w_fs w').
Proof using.
  intros Hroot Hread Hw Hl. unfold release_lease_locked, release_reading, release. destruct (leases !! id) as [lm|] eqn:Hid; simpl.
  2: { intros [= <- <-]. exists []. rewrite Hw. split_and!; [constructor|by intros l _ ?%elem_of_nil|done|apply outside_refl]. }
  unfold bind at 1, reads. rewrite Hw. change (root ++ [ACTIVE_MANIFEST_FILE]) with (manifest_path root). rewrite Hread.
  set (gone := unreferenced_layers _ _ _). intros (u & w1 & Hrun & [= <- <-])%bind_Ok. exists gone.
  assert (Forall canonical_ref gone) as Hc.
  { specialize (Hl _ eq_refl). rewrite Forall_forall in Hl |- *. intros l [_ Hin]%list_elem_of_filter. by apply Hl. }
  split_and!; [done| |done|].
  - intros l Hin [[Hn _] _]%list_elem_of_filter. done.
  - eapply (pres_remove_layers (layers_region root gone) k root); [|exact Hc|done|exact Hrun|rewrite Hw; apply outside_refl].
    intros f Hf. by eapply root_ok_outside.
Qed.

Lemma commit_squash_spec plan s w m' blocks removed s' w' :
  w_fs w = g → read_manifest g (manifest_path root) = Ok latest →
  (∀ lm, sh_leases s !! pl_lease_id plan = Some lm → Forall canonical_ref (layers lm)) →
  commit_squash pid root plan bs s w = (Ok (m', blocks, removed), s', w') →
  let f' := w_fs w' in
  read_manifest f' (manifest_path root) = Ok m' ∧ version m' = (version latest + 1)%Z ∧ good_stack f' root (layers m') ∧
  reads_as root f' (layers m') g (layers latest) ∧
  length (layers m') + length (concat (bb_replaced <$> bs)) = length (layers latest) + length bs ∧
  blocks = squashed_block <$> bs.
Proof using Hpre.
  intros Hw Hread Hlease Hrun f'. unfold commit_squash in Hrun.
  apply sbind_Ok in Hrun as (latest' & s1 & w1 & Hr1%sio_io_Ok & Hrun).
  destruct Hr1 as [Hr1 ->]. unfold read_active_manifest_unlocked, reads in Hr1. rewrite Hw, Hread in Hr1.
  injection Hr1 as <- <-.
  apply sbind_Ok in Hrun as (ls & s1 & w1 & [Hr2 ->]%sio_io_Ok & Hrun). injection Hr2 as Hsp <-.
  apply sbind_Ok in Hrun as (mm & s1 & w1 & [Hr3 ->]%sio_io_Ok & Hrun).
  unfold lift_err, reads, manifest_new in Hr3. case_decide as Hsch; [done|].
  injection Hr3 as <- <-.
  apply sbind_Ok in Hrun as ([] & s1 & w1 & [Hinst ->]%sio_io_Ok & Hrun).
  destruct Hpre as [Hready _ Hbl Hids _ Hroot Hfile Htmp].
  pose proof (install_yields pid root g latest bs Hready Hbl Hids Hroot Hfile Htmp _ _ _ _ Hinst Hw) as (k & Hmv & Hk).
  destruct (installed_stack k ls (mkManifest (version latest + 1) ls (schema_version latest)) Hmv Hsp eq_refl Hsch)
    as (Hroot' & Hread' & Hgood & Hv & Hlen). rewrite <-Hk in *.
  apply sbind_Ok in Hrun as (s2 & s1 & w2 & [= <- <- <-] & Hrun).
  apply sbind_Ok in Hrun as ([] & s1 & w2 & [= <- <-] & Hrun).
  pose proof (λ removed w w', release_outside (w_fs w1) _ (sh_leases s) (pl_lease_id plan) removed w w' Hroot' Hread') as Hrel.
  destruct (release_lease_locked root (sh_leases s) (pl_lease_id plan)) as [leases removal].
  apply sbind_Ok in Hrun as ([] & s1 & w2 & [= <- <-] & Hrun).
  apply sbind_Ok in Hrun as (gone' & s1 & w2 & [Hr4 ->]%sio_io_Ok & Hrun). injection Hrun as <- <- _ _ <-.
  destruct (Hrel _ _ _ eq_refl Hlease Hr4) as (gone & Hc & Hdis & _ & Hout).
  destruct (good_stack_outside _ _ _ _ _ Hout Hroot' Hc Hdis Hgood) as [Hgood' Hag].
  split_and!; [|done|done|by eapply reads_as_agree|done|done].
  eapply read_manifest_written; [|done|split; [done|apply validate_canonicals, Hgood]|].
  - by eapply root_ok_outside in Hout as [? _ _ _].
  - rewrite Hout by (apply short_not_in_region; unfold manifest_path; rewrite length_app; simpl; lia).
    rewrite Hk. apply lookup_insert_eq.
Qed.
End commit.

(** ** Reading a squashed stack *)

Lemma entry_result_strip max_bytes n : entry_result max_bytes (strip <$> n) = entry_result max_bytes n.
Proof. by destruct n as [[]|]. Qed.

Lemma classify_result_strip max_bytes n : classify_result max_bytes (strip <$> n) = classify_result max_bytes n.
Proof. by destruct n as [[]|]. Qed.

Lemma good_layer_plain f root l :
  plain_dir f (root ++ [LAYERS_DIR]) → canonical_ref l → good_layer f root l →
  plain_dir f (layer_path root (layer_id l)).
Proof.
  intros Hr Hc (Hd & _). rewrite layer_path_snoc in *. apply plain_dir_snoc; [done|done|apply Hc].
Qed.

Lemma good_stack_ok f root ls : good_stack f root ls → stack_ok f root ls (layer_dirs root ls).
Proof.
  intros [Hr Hc _ Hp]. unfold stack_ok, layer_dirs. apply Forall2_fmap_r, Forall_Forall2_diag, Forall_forall.
  rewrite Forall_forall in Hc. rewrite Forall_forall in Hp. intros l Hl.
  pose proof (good_layer_plain f root l Hr (Hc l Hl) (Hp l Hl)) as Hpl. split_and!; [|done|by apply pure_clean, Hp].
  unfold layer_dir. rewrite validate_canonical, resolve_canonical by auto. cbn [result_bind].
  assert (is_dir f (layer_path root (layer_id l)) = true) as ->; [|done].
  unfold is_dir, metadata, resolve. rewrite <-(app_nil_r (layer_path _ _)), walk_plain by done. cbn.
  unfold node_at. apply plain_dir_at in Hpl. unfold dir_at in Hpl. by destruct (f !! _).
Qed.

(** No layer of the stack has a link above the path. *)
Definition no_links_above (f : fs) (root : path) (ls : list LayerRef) (cs : path) : Prop :=
  Forall (λ d, no_link_above f d cs) (layer_dirs root ls).

Lemma reads_as_read root f ls g ls0 (m m0 : Manifest) p rel max_bytes :
  layers m = ls → layers m0 = ls0 → good_stack f root ls → good_stack g root ls0 → reads_as root f ls g ls0 →
  parse p = Ok rel → Forall ordinary (comps rel) → no_links_above g root ls0 (comps rel) →
  read_entry_limited f root p m max_bytes = read_entry_limited g root p m0 max_bytes ∧
  view_read_classified f root p m max_bytes = view_read_classified g root p m0 max_bytes.
Proof.
  intros Hm Hm0 Hgf Hgg [Hv Hl] Hp Hord Hnl. apply parse_comps in Hp as Hc. destruct Hc as (Hne & Hok & Hstr).
  assert (Forall (λ d, no_link_above f d (comps rel)) (layer_dirs root ls)) as Hnl'.
  { apply Forall_fmap, Forall_forall. intros l Hin k t Hk Hn.
    destruct (Hl l (take k (comps rel)) t Hin) as (l0 & Hl0 & Hn0); [|by apply Forall_take|done|].
    - destruct k; [lia|]. by destruct (comps rel).
    - unfold no_links_above, layer_dirs in Hnl. rewrite Forall_fmap, Forall_forall in Hnl. by apply (Hnl l0 Hl0 k t Hk). }
  apply good_stack_ok in Hgf. apply good_stack_ok in Hgg.
  unfold read_entry_limited, view_read_classified. rewrite Hp. cbn [map_err result_bind]. rewrite Hstr, Hm, Hm0. split.
  - rewrite !(read_entry_loop_overlay _ _ _ (layer_dirs root _)) by done.
    by rewrite <-entry_result_strip, Hv, entry_result_strip.
  - rewrite !(read_classified_loop_overlay _ _ _ (layer_dirs root _)) by done.
    by rewrite <-classify_result_strip, Hv, classify_result_strip.
Qed.

(** ** From the build to the commit *)

Lemma ready_built f g root m bs :
  squash_ready f root (layers m) → build_inv f root g bs → squash_ready g root (layers m).
Proof.
  intros Hready [Hout Hids Hbs]. destruct Hready as [H1 H2 H3 H4 H5 H6 H7 H8] eqn:Heq. clear Heq.
  assert (∀ id, agree f g (layer_path root id)) as Hag by (intros id; by eapply layer_same).
  rewrite Forall_forall in Hbs.
  split; [by eapply plain_staged|by eapply plain_staged|..|done|done|].
  - intros id t. rewrite <-(agree_node f g) by done. apply H3.
  - intros id t Ht. destruct (decide (id ∈ bb_layer_id <$> bs)) as [(b & -> & Hb)%list_elem_of_fmap|Hid].
    + destruct (Hbs b Hb) as [I1 _ _ _ I5 _ _]. rewrite I1 in I5. unfold dir_at in I5. by rewrite Ht in I5.
    + rewrite Hout in Ht; [by apply (H4 id t)|]. pose proof (staged_other root bs id [] Hid) as Hn. by rewrite app_nil_r in Hn.
  - intros q c Hs.
    destruct (decide (Exists (λ b, is_Some (below (staging_path root (bb_layer_id b)) (q ++ [c]))) bs)) as [He|He].
    + apply Exists_exists in He as (b & Hb & r & Hr%below_Some). destruct (Hbs b Hb) as [I1 _ _ _ I5 I6 _].
      rewrite I1 in *. destruct r as [|c' r _] using rev_ind.
      * rewrite app_nil_r, staging_path_snoc in Hr. apply app_inj_tail in Hr as [-> ->].
        apply plain_dir_at. by eapply plain_staged.
      * rewrite (assoc_L (++)) in Hr. apply app_inj_tail in Hr as [-> ->]. rewrite <-(assoc_L (++)) in Hs.
        by apply (pure_tree g _ I6 r c').
    + assert (¬ staged root bs (q ++ [c])) as Hn by (intros (b & Hb & Hu); apply He, Exists_exists; eauto).
      assert (¬ staged root bs q) as Hn'.
      { intros (b & Hb & r & ->%below_Some). apply Hn. exists b. split; [done|].
        rewrite <-(assoc_L (++)). apply under_app. }
      unfold dir_at. rewrite Hout in Hs |- * by done. by apply H5 in Hs.
  - rewrite Forall_forall in H8 |- *. intros l Hl. by eapply good_layer_agree; [|apply H8].
Qed.

Lemma block_inv_now f g root m bs :
  squash_ready f root (layers m) → build_inv f root g bs → Forall (block_inv g root g) bs.
Proof.
  intros Hready [Hout _ Hbs]. rewrite Forall_forall in Hbs |- *. intros b Hb.
  eapply (block_inv_move root f g g g); [|done|by apply Hbs].
  rewrite Hout; [apply (Hbs b Hb)|]. pose proof (staged_layer root bs (bb_layer_id b) []) as Hn. by rewrite app_nil_r in Hn.
Qed.

(** ** The whole operation *)

Section whole.
Context `{ManifestCodec} (pid nanos : N) (root : path).

(** A storage root at rest. *)
Record squash_pre (f : fs) (m : Manifest) : Prop := {
  sp_ready : squash_ready f root (layers m);
  sp_root : root_ok f root;
  sp_read : read_manifest f (manifest_path root) = Ok m;
  sp_file : dir_at f (manifest_path root) = false;
  sp_link : linkless f (manifest_path root);
  sp_tmp n : f !! (root ++ [tmp_name pid ACTIVE_MANIFEST_FILE n]) = None;
}.

Lemma build_commit_pre f g m bs :
  squash_pre f m → build_inv f root g bs → built_over root g bb_staging_dir bs (layers m) →
  commit_pre pid root g m m [] bs ∧ read_manifest g (manifest_path root) = Ok m.
Proof using.
  intros [Hready Hroot Hread Hfile Hlink Htmp] Hinv Hover.
  assert (∀ q, length q ≤ S (length root) → g !! q = f !! q) as Hshort.
  { intros q Hq. apply Hinv. by apply staged_short. }
  assert (∀ a, length (root ++ [a]) ≤ S (length root)) as Hlen by (intros a; rewrite length_app; simpl; lia).
  split.
  - split.
    + by eapply ready_built.
    + done.
    + by eapply block_inv_now.
    + apply Hinv.
    + done.
    + by eapply root_ok_agree.
    + unfold dir_at in *. by rewrite Hshort by apply Hlen.
    + intros n. by rewrite Hshort by apply Hlen.
  - rewrite <-Hread. apply read_manifest_ext. unfold manifest_path in *. rewrite !metadata_child; try done.
    + unfold node_at. by rewrite Hshort.
    + apply Hroot.
    + eapply root_ok_agree; [exact Hshort|exact Hroot].
    + intros t. by rewrite Hshort.
Qed.

Lemma plan_squash_Ok s w plan s' w' m :
  read_manifest (w_fs w) (manifest_path root) = Ok m → plan_squash nanos root s w = (Ok plan, s', w') →
  w_fs w' = w_fs w ∧
  match plan with
  | None => True
  | Some plan => pl_manifest plan = m ∧ sh_leases s' !! pl_lease_id plan = Some m ∧
      ∃ boundaries, pl_blocks plan = partition_blocks (layers m) boundaries ∧ pl_blocks plan ≠ []
  end.
Proof using.
  intros Hread Hrun. unfold plan_squash in Hrun.
  apply sbind_Ok in Hrun as (m1 & s1 & w1 & [Hr1 ->]%sio_io_Ok & Hrun).
  unfold read_active_manifest_unlocked, reads in Hr1. rewrite Hread in Hr1. injection Hr1 as <- <-.
  apply sbind_Ok in Hrun as (s0 & s1 & w1 & [= <- <- <-] & Hrun).
  apply sbind_Ok in Hrun as ([r leases] & s1 & w1 & [Hr2 ->]%sio_io_Ok & Hrun).
  unfold acquire in Hr2. rewrite decide_False in Hr2 by done. unfold bind, next_unique, ret in Hr2.
  injection Hr2 as <- <- <-. apply sbind_Ok in Hrun as ([] & s1 & w1 & [= <- <-] & Hrun).
  case_decide as Hb.
  - apply sbind_Ok in Hrun as ([] & s1 & w1 & [= <- <-] & [= <- <- <-]). done.
  - injection Hrun as <- <- <-. split; [done|]. split_and!; [done|apply lookup_insert_eq|]. eauto.
Qed.

Lemma sattempt_Ok {A : Type} (c : sio A) s w r s' w' : sattempt c s w = (Ok r, s', w') → c s w = (r, s', w').
Proof using. unfold sattempt. destruct (c s w) as [[r1 s1] w1]. by intros [= -> -> ->]. Qed.

(** A failing branch does not end in a value. *)
Lemma fail_flight_Ok {A : Type} e s w (a : A) s' w' : fail_flight e s w ≠ (Ok a, s', w').
Proof using. done. Qed.

Lemma concat_length (bls : list (list LayerRef)) :
  Forall (λ b, 2 ≤ length b) bls → 2 * length bls ≤ length (concat bls).
Proof using. induction 1; simpl; [done|]. rewrite length_app. lia. Qed.

Lemma runs_over_two bls ls : runs_over bls ls → Forall (λ b, 2 ≤ length b) bls.
Proof using. induction 1; [constructor|done|by constructor]. Qed.

Lemma squash_spec s w out s' w' m :
  squash_pre (w_fs w) m → squash pid nanos root s w = (Ok out, s', w') →
  read_manifest (w_fs w') (manifest_path root) = Ok (so_manifest out) ∧
  good_stack (w_fs w') root (layers (so_manifest out)) ∧
  reads_as root (w_fs w') (layers (so_manifest out)) (w_fs w) (layers m) ∧
  length (layers (so_manifest out)) + length (so_blocks out) ≤ length (layers m).
Proof using.
  intros Hpre Hrun. destruct Hpre as [Hready Hroot Hread Hfile Hlink Htmp] eqn:Heq. clear Heq.
  assert (good_stack (w_fs w) root (layers m)) as Hgood by (split; apply Hready).
  assert (reads_as root (w_fs w) (layers m) (w_fs w) (layers m)) as Hrefl by (split; [done|eauto]).
  unfold squash in Hrun. apply sbind_Ok in Hrun as ([] & s1 & w1 & Hfl & Hrun).
  assert (w1 = w) as ->.
  { unfold begin_flight in Hfl. apply sbind_Ok in Hfl as (s2 & s3 & w2 & [= <- <- <-] & Hfl).
    destruct (sh_busy s); [done|]. by injection Hfl. }
  apply sbind_Ok in Hrun as (plan & s2 & w2 & Hplan%sattempt_Ok & Hrun). destruct plan as [plan|e]; [|done].
  apply (plan_squash_Ok _ _ _ _ _ m) in Hplan as [Hw2 Hplan]; [|done]. destruct plan as [plan|].
  2: { apply sbind_Ok in Hrun as (r & s3 & w3 & Hr%sattempt_Ok & Hrun). destruct r as [m1|e]; [|done].
    apply sio_io_Ok in Hr as [Hr ->]. unfold read_active_manifest_unlocked, reads in Hr. rewrite Hw2, Hread in Hr.
    injection Hr as <- <-. injection Hrun as <- <- <-. rewrite Hw2. simpl. split_and!; [done..|lia]. }
  destruct Hplan as (Hpm & Hlease & boundaries & Hbl & Hbne).
  apply sbind_Ok in Hrun as (built & s3 & w3 & Hbuilt%sattempt_Ok & Hrun). destruct built as [built|e].
  2: { by apply sbind_Ok in Hrun as (? & ? & ? & _ & Hrun). }
  apply sio_io_Ok in Hbuilt as [Hbuilt ->].
  assert (runs_over (pl_blocks plan) (layers m)) as Hruns by (rewrite Hbl; apply partition_runs_over).
  pose proof (build_blocks_yields _ _ _ Hready plan Hpm Hruns _ _ _ Hbuilt Hw2) as (Hrep & Hinv & Hover).
  destruct (build_commit_pre _ _ _ _ Hpre Hinv Hover) as [Hcp Hread3].
  apply sbind_Ok in Hrun as (c & s4 & w4 & Hc%sattempt_Ok & Hrun). destruct c as [[[m1 blocks] removed]|e].
  2: { apply sbind_Ok in Hrun as (? & ? & ? & _ & Hrun). by apply sbind_Ok in Hrun as (? & ? & ? & _ & Hrun). }
  injection Hrun as <- <- <-. cbn [so_manifest so_blocks].
  apply (commit_squash_spec _ _ _ _ _ _ _ Hcp) in Hc as (Hr & _ & Hg & Hra & Hlen & ->); [|done|done|].
  2: { rewrite Hlease. intros lm [= <-]. apply Hready. }
  split_and!; [done|done| |].
  - eapply reads_as_base; [|exact Hra]. intros l _ r. apply (inv_out _ _ _ _ Hinv), staged_layer.
  - rewrite Hrep in Hlen. pose proof (concat_length _ (runs_over_two _ _ Hruns)) as Hc.
    rewrite length_fmap. assert (length (pl_blocks plan) = length built) as Hlb by by rewrite <-Hrep, length_fmap. lia.
Qed.
End whole.

(** ** Checks of concrete storage roots *)

Definition canonical_check (l : LayerRef) : bool :=
  bool_decide (lr_path l = LAYERS_DIR ++ [slash] ++ layer_id l) && name_check (layer_id l).

(** No links, and no temporary file of the manifest in the root. *)
Definition quiet_check (f : fs) (root : path) : bool :=
  forallb (λ qn, negb (bool_decide (parent qn.1 = root ++ [LAYERS_DIR] ∨ parent qn.1 = root ++ [STAGING_DIR] ∨
                                   parent qn.1 = root) && n_is_symlink qn.2) &&
                 negb (bool_decide (parent qn.1 = root ∧ qn.1 ≠ []) && starts_with (lit ".manifest") (file_name qn.1)))
    (map_to_list f).

Definition squash_check (f : fs) (root : path) (m : Manifest) : bool :=
  fs_pure root f && quiet_check f root && plain_check f (root ++ [LAYERS_DIR]) && plain_check f (root ++ [STAGING_DIR]) &&
  negb (dir_at f (manifest_path root)) && bool_decide (NoDup (layers m)) &&
  forallb (λ l, canonical_check l && dir_at f (layer_path root (layer_id l)) &&
                negb (opaque f (layer_path root (layer_id l)))) (layers m).

Lemma quiet_link f root a c :
  quiet_check f root = true → a = LAYERS_DIR ∨ a = STAGING_DIR → linkless f (root ++ [a; c]).
Proof.
  unfold quiet_check. rewrite forallb_forall. intros Hq Ha t Ht.
  assert ((root ++ [a; c], NSymlink t) ∈ map_to_list f) as Hin by by apply elem_of_map_to_list.
  apply list_elem_of_In, Hq, andb_true_iff in Hin as [Hin _]. cbn [fst snd] in Hin.
  change [a; c] with ([a] ++ [c]) in Hin. rewrite (assoc_L (++)), parent_snoc in Hin.
  rewrite bool_decide_true in Hin; [done|]. destruct Ha as [->| ->]; auto.
Qed.

Lemma quiet_root f root c n :
  quiet_check f root = true → f !! (root ++ [c]) = Some n →
  n_is_symlink n = false ∧ starts_with (lit ".manifest") c = false.
Proof.
  unfold quiet_check. rewrite forallb_forall. intros Hq Hn.
  assert ((root ++ [c], n) ∈ map_to_list f) as Hin by by apply elem_of_map_to_list.
  apply list_elem_of_In, Hq, andb_true_iff in Hin as [H1 H2]. cbn [fst snd] in *.
  rewrite parent_snoc in H1, H2. rewrite file_name_snoc in H2. rewrite bool_decide_true in H1 by auto.
  rewrite bool_decide_true in H2 by (split; [done|]; by destruct root). simpl in *.
  by apply negb_true_iff in H1, H2.
Qed.

Lemma squash_check_pre `{ManifestCodec} pid f root m :
  squash_check f root m = true → read_manifest f (manifest_path root) = Ok m → squash_pre pid root f m.
Proof.
  unfold squash_check. rewrite !andb_true_iff, forallb_forall. intros ((((((Hp & Hq) & Hl) & Hs) & Hf) & Hnd) & Hls) Hread.
  apply plain_check_dir in Hl. apply plain_check_dir in Hs.
  assert (Forall (λ l, canonical_ref l ∧ good_layer f root l) (layers m)) as Hall.
  { apply Forall_forall. intros l Hin. apply list_elem_of_In, Hls in Hin. apply andb_true_iff in Hin as [[Hc Hd]%andb_true_iff Ho%negb_true_iff].
    apply andb_true_iff in Hc as [Hc%bool_decide_eq_true Hname]. split.
    - split; [done|]. assert (Forall name_ok [layer_id l]) as Hok by (apply names_check; simpl; by rewrite Hname).
      by apply Forall_cons in Hok as [? _].
    - split_and!; [done|by apply (fs_pure_layers root)|done]. }
  assert (tree f) as Htree.
  { apply tree_check_tree. unfold fs_pure in Hp. by apply andb_true_iff in Hp as [[_ ?]%andb_true_iff _]. }
  assert (plain_dir f root) as Hroot.
  { destruct Hl as [Hdd Hl]. split; [set_solver|]. intros k Hk. specialize (Hl k).
    rewrite length_app, take_app_le in Hl by lia. apply Hl. simpl. lia. }
  assert (∀ a t, f !! (root ++ [a]) ≠ Some (NSymlink t)) as Hnl.
  { intros a t Ht. by destruct (quiet_root f root a _ Hq Ht). }
  split.
  - split; try done.
    + intros id. by apply quiet_link; [|left].
    + intros id. by apply quiet_link; [|right].
    + eapply Forall_impl; [exact Hall|]. by intros l [? _].
    + by apply bool_decide_eq_true in Hnd.
    + eapply Forall_impl; [exact Hall|]. by intros l [_ ?].
  - split; [done|done|intros t; apply Hnl..].
  - done.
  - by apply negb_true_iff in Hf.
  - intros t. apply Hnl.
  - intros n. destruct (f !! _) eqn:Hn; [|done]. exfalso. by destruct (quiet_root f root _ _ Hq Hn).
Qed.

(** Three layers over a base: the newest hides [b] and adds [a/y]. *)
Definition squash_layer (id : bytes) : path := layer_path lease_root id.
Definition squash_manifest : Manifest :=
  mkManifest 4 (new_ref <$> [lit "L3"; lit "L2"; lit "L1"; lit "B0"]) 1.
Definition squash_dirs : fs :=
  {[ [] := NDir 0x1ed ∅; [lit "s"] := NDir 0x1ed ∅; [lit "s"; LAYERS_DIR] := NDir 0x1ed ∅;
     [lit "s"; STAGING_DIR] := NDir 0x1ed ∅; squash_layer (lit "L3") := NDir 0x1ed ∅;
     squash_layer (lit "L2") := NDir 0x1ed ∅; squash_layer (lit "L1") := NDir 0x1ed ∅;
     squash_layer (lit "B0") := NDir 0x1ed ∅ ]}.
Definition squash_fs : fs :=
  {[ manifest_path lease_root := NFile (number_encode squash_manifest) 0x1a4 ∅;
     squash_layer (lit "L3") ++ [lit "b"] := NChar 0;
     squash_layer (lit "L3") ++ [lit "a"] := NDir 0x1ed ∅;
     squash_layer (lit "L3") ++ [lit "a"; lit "y"] := NFile (lit "new") 0x1a4 ∅;
     squash_layer (lit "L2") ++ [lit "a"] := NDir 0x1ed ∅;
     squash_layer (lit "L2") ++ [lit "a"; lit "x"] := NFile (lit "old") 0x1a4 ∅;
     squash_layer (lit "L1") ++ [lit "b"] := NFile (lit "gone") 0x1a4 ∅;
     squash_layer (lit "B0") ++ [lit "b"] := NFile (lit "base") 0x1a4 ∅ ]} ∪ squash_dirs.
Definition squash_run (faults : list (option nat)) : result SquashOutcome LayerStackError * shared * world :=
  squash (H := number_codec) 1 0 lease_root (mkShared ∅ [] false) (mkWorld squash_fs 0 faults).


(** ** Properties *)



(** *** One squash at a time *)

(** The flag of the root is left alone. *)
Definition keeps_busy {A : Type} (c : sio A) : Prop :=
  ∀ s w, sh_busy (c s w).1.2 = sh_busy s.

Lemma keeps_busy_bind {A B : Type} (c : sio A) (k : A → sio B) :
  keeps_busy c → (∀ a, keeps_busy (k a)) → keeps_busy (sbind c k).
Proof.
  intros Hc Hk s w. specialize (Hc s w). unfold sbind. destruct (c s w) as [[[a|e] s1] w1]; [|done].
  by rewrite Hk, <-Hc.
Qed.

Lemma keeps_busy_io {A : Type} (c : io LayerStackError A) : keeps_busy (sio_io c).
Proof. intros s w. unfold sio_io. by destruct (c w). Qed.

Lemma keeps_busy_get {B : Type} (k : shared → sio B) : (∀ s, keeps_busy (k s)) → keeps_busy (sbind sget k).
Proof. intros Hk s w. apply Hk. Qed.

Lemma keeps_busy_attempt {A : Type} (c : sio A) :
  keeps_busy c → keeps_busy (sattempt c).
Proof. intros Hc s w. specialize (Hc s w). unfold sattempt. by destruct (c s w) as [[r1 s1] w1]. Qed.

Create HintDb busy.
#[local] Hint Resolve keeps_busy_bind keeps_busy_io keeps_busy_get keeps_busy_attempt : busy.
#[local] Hint Extern 1 (keeps_busy (set_leases _)) => (by intros ??) : busy.
#[local] Hint Extern 1 (keeps_busy (set_records _)) => (by intros ??) : busy.
#[local] Hint Extern 1 (keeps_busy (sret _)) => (by intros ??) : busy.

Lemma keeps_busy_plan `{ManifestCodec} nanos root : keeps_busy (plan_squash nanos root).
Proof.
  unfold plan_squash. apply keeps_busy_bind; [auto with busy|]. intros m. apply keeps_busy_get. intros s.
  apply keeps_busy_bind; [auto with busy|]. intros [r leases]. apply keeps_busy_bind; [auto with busy|]. intros _.
  case_decide; auto with busy.
Qed.

Lemma keeps_busy_commit `{ManifestCodec} pid root plan built : keeps_busy (commit_squash pid root plan built).
Proof.
  unfold commit_squash. do 4 (apply keeps_busy_bind; [auto with busy|]; intros ?). apply keeps_busy_get. intros s.
  apply keeps_busy_bind; [auto with busy|]. intros _. destruct (release_lease_locked _ _ _). auto with busy.
Qed.

Lemma keeps_busy_drop_lease `{ManifestCodec} root id : keeps_busy (drop_lease root id).
Proof.
  unfold drop_lease. apply keeps_busy_get. intros s. destruct (release_lease _ _ _) as [leases removal].
  auto 6 with busy.
Qed.
#[local] Hint Resolve keeps_busy_plan keeps_busy_commit keeps_busy_drop_lease : busy.

(** Code after which the flag tells whether the squash succeeded. *)
Definition ends_flight {A : Type} (c : sio A) : Prop :=
  ∀ s w, sh_busy s = true → sh_busy (c s w).1.2 = negb (is_err (c s w).1.1).

Lemma ends_flight_bind {A B : Type} (c : sio A) (k : A → sio B) :
  keeps_busy c → (∀ s w, is_err (c s w).1.1 = false) → (∀ a, ends_flight (k a)) → ends_flight (sbind c k).
Proof.
  intros Hc Hok Hk s w Hb. specialize (Hc s w). specialize (Hok s w). unfold sbind.
  destruct (c s w) as [[[a|e] s1] w1]; [|done]. apply Hk. by rewrite <-Hb, <-Hc.
Qed.

Lemma ends_flight_attempt {A B : Type} (c : sio A) (k : result A LayerStackError → sio B) :
  keeps_busy c → (∀ a, ends_flight (k a)) → ends_flight (sbind (sattempt c) k).
Proof.
  intros Hc. apply ends_flight_bind; [by apply keeps_busy_attempt|]. intros s w. unfold sattempt.
  by destruct (c s w) as [[r1 s1] w1].
Qed.

Lemma remove_all_Ok dirs w : is_err (remove_all dirs w).1 = false.
Proof.
  revert w. induction dirs as [|d dirs IH]; intros w; [done|]. cbn [remove_all]. unfold bind, attempt.
  destruct (remove_path d w) as [r w1]. apply IH.
Qed.

Lemma ends_flight_fail {A : Type} e : ends_flight (fail_flight (A := A) e).
Proof. by intros s w Hb. Qed.

Lemma drop_lease_Ok `{ManifestCodec} root id s w : is_err (drop_lease root id s w).1.1 = false.
Proof.
  unfold drop_lease, sbind, sget. destruct (release_lease _ _ _) as [leases removal].
  unfold set_leases, sbind, sget, sput, sattempt, sio_io. by destruct (removal w).
Qed.

(** At most one squash of a root is in flight.  While one is, another returns
    an error and changes nothing; a squash that fails, wherever it fails, ends
    its flight, and one that succeeds stays in flight until its outcome is
    dropped. *)
Theorem squash_single_flight `{ManifestCodec} pid nanos root s w :
  if sh_busy s then squash pid nanos root s w = (Err (Storage SquashInFlight), s, w)
  else sh_busy (squash pid nanos root s w).1.2 = negb (is_err (squash pid nanos root s w).1.1) ∧
       sh_busy (drop_outcome (squash pid nanos root s w).1.2 w).1.2 = false.
Proof.
  destruct s as [leases records []]; [done|]. split; [|done]. unfold squash.
  match goal with |- context [sbind begin_flight ?k] => assert (ends_flight (k ())) as Hrest end;
    [|exact (Hrest (mkShared leases records true) w eq_refl)].
  apply ends_flight_attempt; [auto with busy|]. intros [[plan|]|e]; [..|apply ends_flight_fail].
  - apply ends_flight_attempt; [auto with busy|]. intros [built|e].
    + apply ends_flight_attempt; [auto with busy|]. intros [[[m blocks] removed]|e]; [by intros ???|].
      apply ends_flight_bind; [auto with busy| |intros _].
      { intros s' w'. unfold sio_io. pose proof (remove_all_Ok (bb_staging_dir <$> built) w') as Hr.
        by destruct (remove_all _ w'). }
      apply ends_flight_bind; [auto with busy|apply drop_lease_Ok|intros _; apply ends_flight_fail].
    + apply ends_flight_bind; [auto with busy|apply drop_lease_Ok|intros _; apply ends_flight_fail].
  - apply ends_flight_attempt; [auto with busy|]. intros [m|e]; [by intros ???|apply ends_flight_fail].
Qed.
