(* ===== verification/LayerWrite.v ===== *)
(** * What a published layer holds: [stack/layer/write.rs]

    Writing a coherent set of changes into an empty directory makes a layer
    that, on top of any stack, shows exactly the changes: a changed path reads
    as its change says, what lies below a replaced or deleted path is gone, and
    everything else reads as before. *)

From S2P Require Import Prelude ByteStr Model FS Storage View Descend World StorageOps Flatten Does FlattenRead FlattenSpec.

(** ** Making the directories of a path *)

(** The directories of a path that are missing, made. *)
Definition made (f : fs) (q x : path) : option node :=
  match f !! x with
  | Some n => Some n
  | None => if decide (is_Some (below x q)) then Some (NDir 0x1ed ∅) else None
  end.

(** Along the path there are directories and then nothing. *)
Record makeable (f : fs) (q : path) : Prop := {
  mk_names : dotdot ∉ q;
  mk_root : dir_at f [] = true;
  mk_along p r : q = p ++ r → f !! p = None ∨ dir_at f p = true;
  mk_gap p c r : q = p ++ c :: r → f !! p = None → f !! (p ++ [c]) = None;
}.

Lemma makeable_app f q r : makeable f (q ++ r) → makeable f q.
Proof.
  intros [Hn Hr Ha Hg]. split; [set_solver|done|..].
  - intros p s ->. apply (Ha p (s ++ r)). by rewrite (assoc_L (++)).
  - intros p c s ->. apply (Hg p c (s ++ r)). by rewrite <-(assoc_L (++)).
Qed.

(** Either the whole path is there, or it ends in a gap. *)
Lemma makeable_plain f q : makeable f q → f !! q ≠ None → plain_dir f q.
Proof.
  induction q as [|c q IH] using rev_ind; intros Hm Hq.
  { split; [set_solver|]. intros k _. rewrite take_nil. apply Hm. }
  destruct (mk_along _ _ Hm (q ++ [c]) []) as [|Hd]; [by rewrite app_nil_r|done|].
  apply plain_dir_snoc; [|done|].
  - apply IH; [by eapply makeable_app|]. intros Hn. apply Hq. eapply (mk_gap _ _ Hm q c []); done.
  - pose proof (mk_names _ _ Hm). set_solver.
Qed.

(** Below a gap nothing resolves. *)
Lemma walk_gap f links follow q : makeable f q → f !! q = None →
  ∀ rest, rest ≠ [] → walk f links follow [] (q ++ rest) = Err ENOENT.
Proof.
  induction q as [|x q IH] using rev_ind; intros Hm Hq rest Hr.
  { pose proof (mk_root _ _ Hm) as Hroot. unfold dir_at in Hroot. by rewrite Hq in Hroot. }
  apply makeable_app in Hm as Hm'. rewrite <-(assoc_L (++)). destruct (decide (f !! q = None)) as [Hn|Hn].
  - by apply IH.
  - assert (plain_dir f q) as Hp by by apply makeable_plain.
    rewrite walk_plain by done. simpl. rewrite walk_step; [|by apply plain_dir_at| |by intros t; rewrite Hq].
    + rewrite Hq. by rewrite decide_False.
    + pose proof (mk_names _ _ Hm). set_solver.
Qed.

Lemma made_plain f q g : makeable f q → (∀ x, g !! x = made f q x) → plain_dir g q.
Proof.
  intros Hm Hg. split; [apply Hm|]. intros k Hk. unfold dir_at. rewrite Hg. unfold made.
  destruct (mk_along _ _ Hm (take k q) (drop k q)) as [Hn|Hd]; [by rewrite take_drop|..].
  - rewrite Hn. rewrite decide_True; [done|]. exists (drop k q). apply below_Some. by rewrite take_drop.
  - unfold dir_at in Hd. by destruct (f !! take k q).
Qed.

Lemma made_here f q x : f !! q ≠ None → makeable f q → made f q x = f !! x.
Proof.
  intros Hq Hm. unfold made. destruct (f !! x) eqn:Hx; [done|]. rewrite decide_False; [done|].
  intros [r Hr%below_Some]. pose proof (makeable_plain _ _ Hm Hq) as [_ Hp]. specialize (Hp (length x)).
  rewrite Hr, length_app, take_app_length in Hp. unfold dir_at in Hp. rewrite Hx in Hp. 
  assert (false = true) by (apply Hp; lia). done.
Qed.

Lemma made_snoc f q c x :
  f !! (q ++ [c]) = None →
  made f (q ++ [c]) x = if decide (x = q ++ [c]) then Some (NDir 0x1ed ∅) else made f q x.
Proof.
  intros Hn. case_decide as Hx.
  - subst x. unfold made. rewrite Hn, decide_True; [done|]. apply under_self.
  - unfold made. destruct (f !! x); [done|]. repeat case_decide; try done.
    + destruct H as [r Hr%below_Some]. destruct r as [|y r _] using rev_ind; [by rewrite app_nil_r in Hr|].
      rewrite (assoc_L (++)) in Hr. apply app_inj_tail in Hr as [-> ->]. by destruct H0; eexists; apply below_app.
    + destruct H0 as [r ->%below_Some]. destruct H. rewrite <-(assoc_L (++)). apply under_app.
Qed.

Lemma create_dir_all_snoc q c :
  create_dir_all (q ++ [c]) =
  (do r := attempt (sys_mkdir (q ++ [c])) in
   match r with
   | Ok _ => ret ()
   | Err ENOENT =>
       run create_dir_all q;
       do r := attempt (sys_mkdir (q ++ [c])) in
       match r with
       | Ok _ => ret ()
       | Err e => do d := reads (λ f, Ok (is_dir f (q ++ [c]))) in if d : bool then ret () else fail e
       end
   | Err e => do d := reads (λ f, Ok (is_dir f (q ++ [c]))) in if d : bool then ret () else fail e
   end)%io.
Proof.
  unfold create_dir_all. rewrite length_app, Nat.add_1_r. cbn [create_dir_all_from].
  rewrite decide_False by by destruct q. unfold parent. rewrite length_app, Nat.add_1_r. cbn [pred].
  by rewrite take_app_length.
Qed.

(** A call that the file system refuses. *)
Lemma syscall_refused {A : Type} (g : fs → result (A * fs) errno) w e r w' :
  g (w_fs w) = Err e → syscall g w = (r, w') →
  w_fs w' = w_fs w ∧ (w_faults w = [] → w_faults w' = []) ∧
  (r = Err e ∨ r = Err EIO ∧ w_faults w ≠ []).
Proof.
  intros Hg. unfold syscall, bind, fault, reads. destruct (w_faults w) as [|[k|] xs] eqn:Hf; cbn;
    rewrite ?Hg; cbn; intros [= <- <-]; cbn; naive_solver.
Qed.

(** The second attempt, when the directory above has been made. *)
Lemma does_mkdir_again f q c :
  plain_dir f q → c ≠ dotdot → f !! (q ++ [c]) = None →
  does (λ g, g = f)
    (do r := attempt (sys_mkdir (q ++ [c])) in
     match r with
     | Ok _ => ret ()
     | Err e => do d := reads (λ f, Ok (is_dir f (q ++ [c]))) in if d : bool then ret () else fail e
     end)%io (λ _ g, g = <[q ++ [c] := NDir 0x1ed ∅]> f).
Proof.
  intros Hq Hc Hn w Hw. destruct (sys_mkdir (q ++ [c]) w) as [r w1] eqn:Hmk.
  assert (attempt (F := errno) (sys_mkdir (q ++ [c])) w = (Ok r, w1)) as Hatt by (unfold attempt; by rewrite Hmk).
  eapply syscall_ok in Hmk as Hr; [|rewrite Hw, resolve_new by done; cbn [result_bind]; by rewrite decide_True].
  rewrite Hw in Hr. rewrite (bind_run _ _ _ _ _ Hatt). destruct Hr as [(-> & Hfs & Hff)|(-> & Hfs & Hff)]; [done|].
  cbv beta iota. rewrite bind_reads, Hfs. unfold is_dir. rewrite metadata_child by (done || by intros t; rewrite Hn).
  unfold node_at. by rewrite Hn.
Qed.

Lemma does_mkdirs q : ∀ f, makeable f q →
  does (λ g, g = f) (create_dir_all q) (λ _ g, ∀ x, g !! x = made f q x).
Proof.
  induction q as [|c q IH] using rev_ind; intros f Hm.
  { apply does_ret. intros ? -> x. unfold made. destruct (f !! x) eqn:Hx; [done|]. rewrite decide_False; [done|].
    intros [r Hr%below_Some]. destruct x; [|done]. pose proof (mk_root _ _ Hm) as Hd. unfold dir_at in Hd. by rewrite Hx in Hd. }
  destruct (decide (f !! (q ++ [c]) = None)) as [Hn|Hn]; last first.
  { eapply does_conseq; [apply does_create_dir_all, makeable_plain; done|done|]. intros _ ? -> x.
    by rewrite made_here. }
  apply makeable_app in Hm as Hm'. assert (c ≠ dotdot) as Hc by (pose proof (mk_names _ _ Hm); set_solver).
  assert (∀ g h : fs, (∀ x, g !! x = made f q x) → h = <[q ++ [c] := NDir 0x1ed ∅]> g →
    ∀ x, h !! x = made f (q ++ [c]) x) as Hfin.
  { intros g h Hg -> x. rewrite made_snoc by done. case_decide; [subst; by rewrite lookup_insert_eq|by rewrite lookup_insert_ne]. }
  destruct (decide (f !! q = None)) as [Hq|Hq]; last first.
  { eapply does_conseq; [apply does_create_new; [by apply makeable_plain|done..]|done|]. intros [] h Hg.
    eapply Hfin; [|done]. intros x. by rewrite made_here. }
  assert (∀ follow, resolve f follow (q ++ [c]) = Err ENOENT) as Hres by (intros ?; by apply walk_gap).
  rewrite create_dir_all_snoc. intros w Hw. destruct (sys_mkdir (q ++ [c]) w) as [r w1] eqn:Hmk.
  assert (attempt (F := errno) (sys_mkdir (q ++ [c])) w = (Ok r, w1)) as Hatt by (unfold attempt; by rewrite Hmk).
  eapply syscall_refused in Hmk as (Hfs & Hff & Hr); [|rewrite Hw, Hres; done].
  rewrite (bind_run _ _ _ _ _ Hatt). destruct Hr as [->|[-> Hne]]; last first.
  { cbv beta iota. rewrite bind_reads, Hfs, Hw. unfold is_dir, metadata. by rewrite Hres. }
  assert (does (λ g, g = f) (run create_dir_all q; do r := attempt (sys_mkdir (q ++ [c])) in
     match r with
     | Ok _ => ret ()
     | Err e => do d := reads (λ f, Ok (is_dir f (q ++ [c]))) in if d : bool then ret () else fail e
     end)%io (λ _ g, ∀ x, g !! x = made f (q ++ [c]) x)) as Hrec.
  { eapply does_bind; [by apply IH|]. intros []. apply does_pre. intros g Hg.
    eapply does_conseq; [apply (does_mkdir_again g); [by eapply made_plain|done|]|done|].
    - rewrite Hg. unfold made. rewrite Hn, decide_False; [done|]. intros [r' Hr%below_Some].
      apply (f_equal length) in Hr. rewrite !length_app in Hr. simpl in Hr. lia.
    - intros [] h Hh. by eapply Hfin. }
  rewrite Hw in Hfs. specialize (Hrec w1 Hfs). cbv beta iota. destruct (bind _ _ w1) as [[[]|e] w2]; [|naive_solver].
  split; [apply Hrec|]. intros H. by apply Hrec, Hff.
Qed.

(** ** One change *)

(** The components of the path of a change. *)
Definition cpath (c : LayerChange) : path := comps (change_path c).

Definition is_opaque (c : LayerChange) : bool := match c with OpaqueDir _ => true | _ => false end.

(** A change that leaves no directory at its path. *)
Definition is_leaf (c : LayerChange) : bool :=
  match c with Directory _ | OpaqueDir _ => false | _ => true end.

(** The source of a spooled file holds the announced number of bytes, and is
    not touched by what is written below [d]. *)
Definition spooled (f : fs) (d src : path) (size : Z) : Prop :=
  ∃ data mode xs, Z.of_nat (length data) = size ∧
    ∀ g, outside (strictly d) f g → metadata g src = Ok (NFile data mode xs).

Definition change_ok (f : fs) (d : path) (c : LayerChange) : Prop :=
  Forall comp_ok (cpath c) ∧ Forall ordinary (cpath c) ∧
  match c with WriteFile _ src size => spooled f d src size | _ => True end.

(** The node a change leaves at its path. *)
Definition shows (f : fs) (c : LayerChange) (n : node) : Prop :=
  match c with
  | Write _ content => n = NFile content 0x1a4 ∅
  | WriteFile _ src _ => ∃ data mode xs, metadata f src = Ok (NFile data mode xs) ∧ n = NFile data mode ∅
  | Delete _ => whiteout_node n = true
  | SymlinkTo _ target => n = NSymlink target
  | Directory _ => n = NDir 0x1ed ∅
  | OpaqueDir _ => ∃ xs, n = NDir 0x1ed xs
  end.

Section change.
(** The file system before the layer is written, and the layer's directory. *)
Context (f0 : fs) (d : path).

Record landed (g : fs) (c : LayerChange) (g' : fs) : Prop := {
  land_node : ∃ n, g' !! (d ++ cpath c) = Some n ∧ shows f0 c n;
  land_marker : is_opaque c = true →
    ∃ n, g' !! (d ++ cpath c ++ [OPAQUE_MARKER]) = Some n ∧ whiteout_node n = true;
  land_above r x s : cpath c = r ++ x :: s →
    g' !! (d ++ r) = Some (default (NDir 0x1ed ∅) (g !! (d ++ r)));
  land_rest y :
    (∀ r s, cpath c = r ++ s → y ≠ d ++ r) →
    (is_opaque c = true → y ≠ d ++ cpath c ++ [OPAQUE_MARKER]) → g' !! y = g !! y;
}.

Lemma cpath_ne c : cpath c ≠ [].
Proof. apply split_on_ne. Qed.

(** A prefix of a path with one more component. *)
Lemma split_snoc (r r' s : path) (x x' : bytes) : r ++ [x] = r' ++ x' :: s → ∃ t, r = r' ++ t.
Proof using.
  intros Hr. destruct s as [|z s _] using rev_ind; [apply app_inj_tail in Hr as [-> _]; exists []; by rewrite app_nil_r|].
  rewrite app_comm_cons, (assoc_L (++)) in Hr. apply app_inj_tail in Hr as [-> _]. by eexists.
Qed.

Lemma made_above g r t : made g (d ++ r ++ t) (d ++ r) = Some (default (NDir 0x1ed ∅) (g !! (d ++ r))).
Proof using.
  unfold made. destruct (g !! (d ++ r)); [done|]. rewrite decide_True; [done|].
  rewrite (assoc_L (++)). apply under_app.
Qed.

(** Making the directories of a path below [d] changes nothing elsewhere. *)
Lemma made_rest g r y : plain_dir g d → (∀ r1 s, r = r1 ++ s → y ≠ d ++ r1) → made g (d ++ r) y = g !! y.
Proof using.
  intros Hd Hy. unfold made. destruct (g !! y) eqn:Hgy; [done|]. rewrite decide_False; [done|].
  intros [t Ht%below_Some]. symmetry in Ht. apply app_eq_inv in Ht as [(k & -> & ->)|(k & -> & ->)]; [by eapply Hy|].
  destruct Hd as [_ Hd]. specialize (Hd (length y)). rewrite take_app_length, length_app in Hd.
  unfold dir_at in Hd. rewrite Hgy in Hd. assert (false = true) by (apply Hd; lia). done.
Qed.

(** A new entry below directories that have been made. *)
Lemma landed_insert g g1 c r x n :
  plain_dir g d → cpath c = r ++ [x] → is_opaque c = false → (∀ y, g1 !! y = made g (d ++ r) y) →
  shows f0 c n → landed g c (<[(d ++ r) ++ [x] := n]> g1).
Proof using.
  intros Hpl Hp Ho Hg1 Hs. assert (d ++ cpath c = (d ++ r) ++ [x]) as Hd by by rewrite Hp, (assoc_L (++)).
  split.
  - exists n. by rewrite Hd, lookup_insert_eq.
  - by rewrite Ho.
  - intros r' x' s Hr. rewrite lookup_insert_ne.
    + rewrite Hg1. rewrite Hp in Hr. apply split_snoc in Hr as [t ->]. apply made_above.
    + rewrite <-Hd, Hr. intros Heq. apply (f_equal length) in Heq. rewrite !length_app in Heq. simpl in Heq. lia.
  - intros y Hy _. rewrite lookup_insert_ne.
    + rewrite Hg1. apply made_rest; [done|]. intros r1 s ->. apply (Hy r1 (s ++ [x])). by rewrite Hp, <-(assoc_L (++)).
    + intros <-. apply (Hy (cpath c) []); [by rewrite app_nil_r|done].
Qed.
Section one.
Context (g : fs) (c : LayerChange).
Hypothesis Hout : outside (strictly d) f0 g.
Hypothesis Hplain : plain_dir g d.
Hypothesis Hok : change_ok f0 d c.
Hypothesis Hmake : makeable g (d ++ cpath c).
Hypothesis Hnew : ∀ r, g !! (d ++ cpath c ++ r) = None.

Lemma join_cpath : join_layer_path d (as_str (change_path c)) = d ++ cpath c.
Proof using Hok.
  rewrite <-(join_split_on slash (as_str (change_path c))). apply join_layer_path_comps; [apply Hok|apply cpath_ne].
Qed.

Lemma made_outside g1 q : (∀ y, g1 !! y = made g (d ++ q) y) → outside (strictly d) f0 g1.
Proof using Hout Hplain.
  intros Hg1 y Hy. rewrite Hg1. destruct (decide (y = d)) as [->|Hne].
  - rewrite <-(Hout d Hy). unfold made. apply plain_dir_at in Hplain. unfold dir_at in Hplain. by destruct (g !! d).
  - rewrite made_rest; [by apply Hout|done|]. intros r s _ ->.
    destruct r as [|z r]; [by rewrite app_nil_r in Hne|apply Hy; by exists z, r].
Qed.

(** The directory above the target is there, the target is not. *)
Record prepared (r : path) (x : bytes) (g1 : fs) : Prop := {
  prep_made y : g1 !! y = made g (d ++ r) y;
  prep_out : outside (strictly d) f0 g1;
  prep_plain : plain_dir g1 (d ++ r);
  prep_name : x ≠ dotdot;
  prep_new q : g1 !! (((d ++ r) ++ [x]) ++ q) = None;
}.

Lemma prepared_intro r x g1 : cpath c = r ++ [x] → (∀ y, g1 !! y = made g (d ++ r) y) → prepared r x g1.
Proof using Hout Hplain Hok Hmake Hnew.
  intros Hp Hg1. pose proof Hmake as Hm. rewrite Hp, (assoc_L (++)) in Hm. split; [done|..].
  - by eapply made_outside.
  - eapply made_plain; [|done]. by eapply makeable_app.
  - destruct Hok as (_ & Ho & _). rewrite Hp in Ho. apply Forall_app in Ho as [_ Ho]. by apply Forall_cons in Ho as [Ho _]; apply Ho.
  - intros q. rewrite Hg1, <-(assoc_L (++) d r [x]), <-Hp, <-(assoc_L (++)), <-(Hnew q).
    apply made_rest; [done|]. intros r1 s -> Heq. apply (inj (app d)), (f_equal length) in Heq.
    rewrite Hp, !length_app in Heq. simpl in Heq. lia.
Qed.

Lemma does_prepare r x :
  cpath c = r ++ [x] →
  does (λ h, h = g) (prepare_layer_target d (as_str (change_path c)))
    (λ t g1, t = (d ++ r) ++ [x] ∧ prepared r x g1).
Proof using Hout Hplain Hok Hmake Hnew.
  intros Hp. unfold prepare_layer_target. rewrite join_cpath, Hp, (assoc_L (++)), parent_snoc. cbv zeta.
  pose proof Hmake as Hm. rewrite Hp, (assoc_L (++)) in Hm.
  eapply does_bind; [apply does_lift_err, does_mkdirs; by eapply makeable_app|]. intros []. apply does_pre.
  intros g1 Hg1. apply prepared_intro with (x := x) in Hg1; [|done].
  eapply (does_bind _ _ _ (λ _ h, h = g1)); [|intros []; apply does_ret; by intros ? ->].
  intros w Hw. unfold remove_path. rewrite bind_attempt_reads. unfold symlink_metadata.
  rewrite Hw, resolve_child by apply Hg1. cbn [result_bind]. unfold node_at. pose proof (prep_new _ _ _ Hg1 []) as Hn. rewrite app_nil_r in Hn.
  by rewrite Hn.
Qed.

(** A change whose target is made by one call. *)
Lemma does_leaf (op : path → io LayerStackError ()) :
  is_opaque c = false →
  (∀ g1 q x, outside (strictly d) f0 g1 → plain_dir g1 q → x ≠ dotdot → g1 !! (q ++ [x]) = None →
     does (λ h, h = g1) (op (q ++ [x])) (λ _ h, ∃ n, shows f0 c n ∧ h = <[q ++ [x] := n]> g1)) →
  does (λ h, h = g) (do target := prepare_layer_target d (as_str (change_path c)) in op target)%io
    (λ _ h, landed g c h).
Proof using Hout Hplain Hok Hmake Hnew.
  intros Ho Hop. destruct (exists_last (cpath_ne c)) as (r & x & Hp).
  eapply does_bind; [by apply does_prepare|]. intros t. apply does_pre. intros g1 [-> [Hmade Hout1 Hpl1 Hx Hn]].
  specialize (Hn []). rewrite app_nil_r in Hn.
  eapply does_conseq; [by apply Hop|done|]. intros [] h (n & Hs & ->). by apply landed_insert.
Qed.

Lemma does_opaque_marker q x m xs f :
  plain_dir f q → x ≠ dotdot → f !! (q ++ [x]) = Some (NDir m xs) → f !! ((q ++ [x]) ++ [OPAQUE_MARKER]) = None →
  does (λ h, h = f) (write_opaque_dir_marker (q ++ [x]))
    (λ _ h, ∃ n xs', whiteout_node n = true ∧
       h = <[q ++ [x] := NDir m xs']> (<[(q ++ [x]) ++ [OPAQUE_MARKER] := n]> f)).
Proof using.
  intros Hq Hx Hd Hn. assert (plain_dir f (q ++ [x])) as Hqx.
  { apply plain_dir_snoc; [done| |done]. unfold dir_at. by rewrite Hd. }
  unfold write_opaque_dir_marker. eapply does_bind; [by apply does_whiteout|]. intros []. apply does_pre.
  intros f1 (n & Hwh & Hf1).
  assert (plain_dir f1 q) as Hq1.
  { rewrite Hf1. eapply plain_dir_outside; [|exact Hq]. apply outside_insert; [apply under_app|done]. }
  assert (f1 !! (q ++ [x]) = Some (NDir m xs)) as Hd1.
  { rewrite Hf1, lookup_insert_ne; [done|]. intros Heq. apply (f_equal length) in Heq. rewrite !length_app in Heq. simpl in Heq. lia. }
  assert (∀ name ys f2 w r w', f2 = <[q ++ [x] := NDir m ys]> f1 → w_fs w = f2 →
    fs_lsetxattr (q ++ [x]) name w = (r, w') →
    (∃ ys', w_fs w' = <[q ++ [x] := NDir m ys']> f1) ∧ (is_err r = true → w_faults w ≠ []) ∧
    (w_faults w = [] → w_faults w' = [])) as Hset.
  { intros name ys f2 w r w' -> Hw Hrun. eapply syscall_ok in Hrun; last first.
    - rewrite Hw, resolve_child; [|by eapply plain_dir_outside; [apply outside_insert; [apply under_self|done]|]|done].
      cbn [result_bind]. unfold add_xattr. by rewrite lookup_insert_eq.
    - destruct Hrun as [(-> & -> & Hff)|(-> & -> & Hff)]; [|by split_and!; [exists ys| |]].
      split_and!; [|done|done]. exists ({[name]} ∪ ys). by rewrite insert_insert_eq. }
  intros w Hw. unfold bind, attempt.
  destruct (fs_lsetxattr (q ++ [x]) TRUSTED_OVERLAY_OPAQUE_XATTR w) as [r1 w1] eqn:H1.
  apply (Hset _ xs f1) in H1 as ((ys1 & Hy1) & He1 & Hf); [|by rewrite insert_id|done].
  destruct (fs_lsetxattr (q ++ [x]) USER_OVERLAY_OPAQUE_XATTR w1) as [r2 w2] eqn:H2.
  eapply Hset in H2 as ((ys2 & Hy2) & He2 & Hf2); [|done|done].
  destruct (is_err r1 && is_err r2) eqn:Herr.
  - apply andb_true_iff in Herr as [Herr _]. by apply He1.
  - split; [|by auto]. exists n, ys2. by rewrite <-Hf1.
Qed.

(** The directory of a change, made with those above it. *)
Lemma landed_dir h n mk :
  is_leaf c = false → (∀ y, h !! y = made g (d ++ cpath c) y) → shows f0 c n → (is_opaque c = true → whiteout_node mk = true) →
  landed g c (<[d ++ cpath c := n]> (if is_opaque c then <[(d ++ cpath c) ++ [OPAQUE_MARKER] := mk]> h else h)).
Proof using Hplain.
  intros Hl Hh Hs Hmk. assert (d ++ cpath c ≠ (d ++ cpath c) ++ [OPAQUE_MARKER]) as Hne.
  { intros Heq. apply (f_equal length) in Heq. rewrite !length_app in Heq. simpl in Heq. lia. }
  split.
  - exists n. by rewrite lookup_insert_eq.
  - intros Ho. rewrite (assoc_L (++)). rewrite lookup_insert_ne by done. rewrite Ho, lookup_insert_eq. eauto.
  - intros r x s Hr. assert (length (d ++ r) < length (d ++ cpath c)) as Hlen.
    { rewrite Hr, !length_app. simpl. lia. }
    rewrite lookup_insert_ne by (intros Heq; rewrite Heq in Hlen; lia).
    assert (h !! (d ++ r) = Some (default (NDir 493 ∅) (g !! (d ++ r)))) as Hhr.
    { rewrite Hh, Hr. apply made_above. }
    destruct (is_opaque c); [|done]. rewrite lookup_insert_ne; [done|].
    intros Heq. rewrite <-Heq, !length_app in Hlen. simpl in Hlen. lia.
  - intros y Hy Ho. rewrite lookup_insert_ne; last first.
    { intros <-. apply (Hy (cpath c) []); [by rewrite app_nil_r|done]. }
    assert (h !! y = g !! y) as Hhy by (rewrite Hh; by apply made_rest).
    destruct (is_opaque c); [|done]. rewrite lookup_insert_ne; [done|]. rewrite <-(assoc_L (++)). intros Heq. by apply Ho.
Qed.

(** The directory of a change before its marker is written. *)
Lemma made_dir r x h :
  cpath c = r ++ [x] → (∀ y, h !! y = made g (d ++ cpath c) y) →
  plain_dir h (d ++ r) ∧ x ≠ dotdot ∧ h !! ((d ++ r) ++ [x]) = Some (NDir 0x1ed ∅) ∧
  h !! (((d ++ r) ++ [x]) ++ [OPAQUE_MARKER]) = None.
Proof using Hplain Hok Hmake Hnew.
  intros Hp Hh. rewrite <-(assoc_L (++) d r [x]), <-Hp. split_and!.
  - apply made_plain in Hh; [|done]. rewrite Hp, (assoc_L (++)) in Hh. by eapply plain_dir_app.
  - destruct Hok as (_ & Ho & _). rewrite Hp in Ho. apply Forall_app in Ho as [_ Ho]. by apply Forall_cons in Ho as [Ho _]; apply Ho.
  - rewrite Hh. unfold made. pose proof (Hnew []) as Hn. rewrite app_nil_r in Hn. rewrite Hn.
    rewrite decide_True; [done|apply under_self].
  - rewrite Hh, made_rest; [by rewrite <-(assoc_L (++)); apply Hnew|done|].
    intros r1 s Hr Heq. rewrite <-(assoc_L (++)) in Heq. apply (inj (app d)) in Heq. rewrite Hr in Heq.
    apply (f_equal length) in Heq. rewrite !length_app in Heq. simpl in Heq. lia.
Qed.
End one.

(** Copying a spooled file. *)
Lemma does_spool p src size g q y :
  spooled f0 d src size → outside (strictly d) f0 g → plain_dir g q → y ≠ dotdot → g !! (q ++ [y]) = None →
  does (λ h, h = g)
    (do source_meta := lift_err Io (reads (λ f, metadata f src)) in
     if negb (n_is_file source_meta) || negb (bool_decide (n_len source_meta = size)) then
       fail (Storage (SpoolChanged src))
     else
       run lift_err Io (fs_copy src (q ++ [y]));
       do target_meta := lift_err Io (reads (λ f, metadata f (q ++ [y]))) in
       if negb (bool_decide (n_len target_meta = size)) then fail (Storage (SpoolCopyMismatch (as_str p)))
       else ret ())%io
    (λ _ h, ∃ n, shows f0 (WriteFile p src size) n ∧ h = <[q ++ [y] := n]> g).
Proof using.
  intros (data & mode & xs & Hlen & Hsrc) Ho Hq Hy Hqy.
  apply (does_bind_reads (λ f, map_err Io (metadata f src)) _ _ (NFile data mode xs)); [by rewrite Hsrc|].
  cbn [n_is_file n_len negb orb]. rewrite bool_decide_true by done. cbn [negb].
  eapply does_bind; [apply does_lift_err; by eapply does_copy_new; [..|by apply Hsrc]|]. intros []. apply does_pre. intros h Hh.
  apply (does_bind_reads (λ f, map_err Io (metadata f (q ++ [y]))) _ _ (NFile data mode ∅)).
  - rewrite Hh, metadata_child; [unfold node_at; by rewrite lookup_insert_eq| |done|].
    + by eapply plain_dir_outside; [apply outside_insert; [apply under_self|done]|].
    + intros t. by rewrite lookup_insert_eq.
  - cbn [n_len]. rewrite bool_decide_true by done. apply does_ret. intros ? ->. eexists. split; [|exact Hh].
    exists data, mode, xs. split; [|done]. by apply Hsrc.
Qed.

(** Every change leaves what it says. *)
Lemma write_layer_change_lands g c :
  outside (strictly d) f0 g → plain_dir g d → change_ok f0 d c → makeable g (d ++ cpath c) →
  (∀ r, g !! (d ++ cpath c ++ r) = None) →
  does (λ h, h = g) (write_layer_change d c) (λ _ h, landed g c h).
Proof using.
  intros Hout Hpl Hok Hm Hn. destruct (exists_last (cpath_ne c)) as (r & x & Hp).
  pose proof (made_dir g c Hpl Hok Hm Hn r x) as Hmade. pose proof (landed_dir g c Hpl) as Hland.
  destruct c as [p content|p src size|p|p target|p|p]; cbn [write_layer_change].
  - apply (does_leaf g (Write p content)) with (op := λ t, lift_err Io (fs_write t content)); [done..|].
    intros g1 q y _ Hq Hy Hqy. eapply does_conseq; [by apply does_lift_err, does_write_new|done|]. intros [] h ->. by eexists.
  - destruct Hok as (H1 & H2 & Hsp) eqn:Heq. clear Heq.
    apply (does_leaf g (WriteFile p src size)) with (op := λ target,
      (do source_meta := lift_err Io (reads (λ f, metadata f src)) in
       if negb (n_is_file source_meta) || negb (bool_decide (n_len source_meta = size)) then
         fail (Storage (SpoolChanged src))
       else
         run lift_err Io (fs_copy src target);
         do target_meta := lift_err Io (reads (λ f, metadata f target)) in
         if negb (bool_decide (n_len target_meta = size)) then fail (Storage (SpoolCopyMismatch (as_str p)))
         else ret ())%io); [done..|].
    intros g1 q y Ho Hq Hy Hqy. by apply does_spool.
  - apply (does_leaf g (Delete p)) with (op := write_kernel_whiteout); [done..|].
    intros g1 q y _ Hq Hy Hqy. eapply does_conseq; [by apply does_whiteout|done|done].
  - apply (does_leaf g (SymlinkTo p target)) with (op := λ t, lift_err Io (fs_symlink target t)); [done..|].
    intros g1 q y _ Hq Hy Hqy. eapply does_conseq; [by apply does_lift_err, does_symlink|done|]. intros [] h ->. by eexists.
  - change p with (change_path (Directory p)) at 1. rewrite (join_cpath (Directory p) Hok). eapply does_conseq; [by apply does_lift_err, does_mkdirs|done|].
    intros [] h Hh. destruct (Hmade h Hp Hh) as (_ & _ & Hd & _).
    specialize (Hland h (NDir 0x1ed ∅) (NDir 0x1ed ∅) eq_refl Hh eq_refl). cbn [is_opaque] in Hland.
    rewrite insert_id in Hland; [by apply Hland|]. by rewrite Hp, (assoc_L (++)).
  - cbv zeta. assert (join_layer_path d (as_str p) = d ++ cpath (OpaqueDir p)) as -> by exact (join_cpath _ Hok). eapply does_bind; [by apply does_lift_err, does_mkdirs|].
    intros []. apply does_pre. intros h Hh. destruct (Hmade h Hp Hh) as (Hq & Hx & Hd & Hmk).
    rewrite Hp, (assoc_L (++)). eapply does_conseq; [by eapply does_opaque_marker|done|].
    intros [] k (n & xs & Hw & ->). specialize (Hland h (NDir 0x1ed xs) n eq_refl Hh).
    rewrite Hp, !(assoc_L (++)) in Hland. apply Hland; [by exists xs|done].
Qed.
End change.

(** ** A set of changes *)

(** No change lies below one that leaves no directory. *)
Definition coherent (cs : list LayerChange) : Prop :=
  ∀ c c' x s, c ∈ cs → c' ∈ cs → is_leaf c = true → cpath c' ≠ cpath c ++ x :: s.

Section wrote.
Context (f0 : fs) (d : path).

(** The layer holds what the changes say, and nothing else. *)
Record wrote (cs : list LayerChange) (g : fs) : Prop := {
  wr_out : outside (strictly d) f0 g;
  wr_node c : c ∈ cs → ∃ n, g !! (d ++ cpath c) = Some n ∧ shows f0 c n;
  wr_marker c : c ∈ cs → is_opaque c = true →
    ∃ n, g !! (d ++ cpath c ++ [OPAQUE_MARKER]) = Some n ∧ whiteout_node n = true;
  wr_above c r x s : c ∈ cs → cpath c = r ++ x :: s → r ≠ [] → (∀ c', c' ∈ cs → cpath c' ≠ r) →
    g !! (d ++ r) = Some (NDir 0x1ed ∅);
  wr_none r : r ≠ [] → (∀ c s, c ∈ cs → cpath c ≠ r ++ s) →
    (∀ c, c ∈ cs → is_opaque c = true → r ≠ cpath c ++ [OPAQUE_MARKER]) → g !! (d ++ r) = None;
}.

Definition ordinary_paths (cs : list LayerChange) : Prop := ∀ c, c ∈ cs → Forall ordinary (cpath c).

Lemma not_marker q r : Forall ordinary (q ++ r) → ∀ p, q ≠ p ++ [OPAQUE_MARKER].
Proof using.
  intros Hq p ->. rewrite !Forall_app, Forall_singleton in Hq. destruct Hq as [[_ (_ & _ & _ & Hm)] _]. done.
Qed.

(** What is at a path of the layer. *)
Inductive found (cs : list LayerChange) (r : path) (n : node) : Prop :=
| found_change c : c ∈ cs → cpath c = r → shows f0 c n → found cs r n
| found_above c x s : c ∈ cs → cpath c = r ++ x :: s → (∀ c', c' ∈ cs → cpath c' ≠ r) → n = NDir 0x1ed ∅ → found cs r n
| found_marker c : c ∈ cs → is_opaque c = true → r = cpath c ++ [OPAQUE_MARKER] → whiteout_node n = true → found cs r n.

Lemma wrote_found cs g r n : wrote cs g → r ≠ [] → g !! (d ++ r) = Some n → found cs r n.
Proof using.
  intros Hw Hr Hn. destruct (decide (Exists (λ c, cpath c = r) cs)) as [He|He].
  { apply Exists_exists in He as (c & Hc & Hp). destruct (wr_node _ _ Hw c Hc) as (n' & Hn' & Hs).
    rewrite Hp in Hn'. simplify_eq. by eapply found_change. }
  rewrite Exists_exists in He. assert (∀ c', c' ∈ cs → cpath c' ≠ r) as Hne by naive_solver.
  destruct (decide (Exists (λ c, is_Some (below r (cpath c))) cs)) as [Hb|Hb].
  { apply Exists_exists in Hb as (c & Hc & [|x s] & Hp%below_Some).
    - rewrite app_nil_r in Hp. naive_solver.
    - rewrite (wr_above _ _ Hw c r x s) in Hn by done. simplify_eq. by eapply found_above. }
  destruct (decide (Exists (λ c, is_opaque c = true ∧ r = cpath c ++ [OPAQUE_MARKER]) cs)) as [Hm|Hm].
  { apply Exists_exists in Hm as (c & Hc & Ho & ->). destruct (wr_marker _ _ Hw c Hc Ho) as (n' & Hn' & ?).
    simplify_eq. by eapply found_marker. }
  exfalso. rewrite Exists_exists in Hb, Hm. rewrite (wr_none _ _ Hw r) in Hn; [done|done| |].
  - intros c s Hc Hp. apply Hb. exists c. split; [done|]. exists s. by apply below_Some.
  - intros c Hc Ho ->. apply Hm. eauto.
Qed.

Section step.
Context (cs : list LayerChange) (g g' : fs) (c : LayerChange).
Hypothesis Hw : wrote cs g.
Hypothesis Hplain : plain_dir f0 d.
Hypothesis Hord : ordinary_paths (cs ++ [c]).
Hypothesis Hfresh : ∀ c' s, c' ∈ cs → cpath c' ≠ cpath c ++ s.
Hypothesis Hland : landed f0 d g c g'.

Lemma landed_keeps q n :
  g !! (d ++ q) = Some n → q ≠ cpath c → (is_opaque c = true → q ≠ cpath c ++ [OPAQUE_MARKER]) →
  g' !! (d ++ q) = Some n.
Proof using Hland.
  intros Hn Hq Hm. destruct (below q (cpath c)) as [[|x s]|] eqn:Hb.
  - apply below_Some in Hb. by rewrite app_nil_r in Hb.
  - apply below_Some in Hb. rewrite (land_above _ _ _ _ _ Hland q x s) by done. by rewrite Hn.
  - rewrite (land_rest _ _ _ _ _ Hland); [done| |].
    + intros r s Hr Heq. apply (inj (app d)) in Heq as ->. apply below_None with (r := s) in Hb. done.
    + intros Ho Heq. apply (inj (app d)) in Heq. by apply Hm.
Qed.

Lemma ordinary_old c' : c' ∈ cs → Forall ordinary (cpath c').
Proof using Hord. intros Hc. apply Hord, elem_of_app. by left. Qed.

Lemma ordinary_new : Forall ordinary (cpath c).
Proof using Hord. apply Hord, elem_of_app. right. by apply list_elem_of_singleton. Qed.

Lemma landed_outside : outside (strictly d) f0 g'.
Proof using Hw Hplain Hland Hfresh.
  intros y Hy. rewrite <-(wr_out _ _ Hw y Hy). destruct (decide (y = d)) as [->|Hne].
  - destruct (cpath c) as [|x s] eqn:Hc; [by destruct (cpath_ne c)|].
    pose proof (land_above _ _ _ _ _ Hland [] x s Hc) as Ha. rewrite app_nil_r in Ha. rewrite Ha, (wr_out _ _ Hw d Hy).
    apply plain_dir_at in Hplain. unfold dir_at in Hplain. by destruct (f0 !! d).
  - assert (∀ r, y ≠ d ++ r) as Hyr.
    { intros [|x r] ->; [by rewrite app_nil_r in Hne|]. apply Hy. by exists x, r. }
    apply (land_rest _ _ _ _ _ Hland); intros; apply Hyr.
Qed.

Lemma landed_dirs c' r x s :
  c' ∈ cs ++ [c] → cpath c' = r ++ x :: s → r ≠ [] → (∀ c', c' ∈ cs ++ [c] → cpath c' ≠ r) →
  g' !! (d ++ r) = Some (NDir 0x1ed ∅).
Proof using Hw Hord Hland.
  intros Hin Hp Hr Hno. assert (Forall ordinary (r ++ x :: s)) as Hor by (rewrite <-Hp; by apply Hord).
  destruct (g !! (d ++ r)) as [n|] eqn:Hg.
  - assert (n = NDir 0x1ed ∅) as ->.
    { destruct (wrote_found _ _ _ _ Hw Hr Hg) as [c1 H1 H2|c1 y t H1 H2 H3|c1 H1 H2 H3]; [|done|].
      - destruct (Hno c1); [|done]. apply elem_of_app. by left.
      - by eapply not_marker in Hor. }
    apply landed_keeps; [done| |intros _; by eapply not_marker].
    apply not_eq_sym, Hno, elem_of_app. right. by apply list_elem_of_singleton.
  - apply elem_of_app in Hin as [Hin| ->%list_elem_of_singleton].
    + rewrite (wr_above _ _ Hw c' r x s) in Hg; [done|done..|]. intros c1 H1. apply Hno, elem_of_app. by left.
    + by rewrite (land_above _ _ _ _ _ Hland r x s), Hg by done.
Qed.

Lemma wrote_landed : wrote (cs ++ [c]) g'.
Proof using Hw Hplain Hord Hfresh Hland.
  pose proof ordinary_new as Hoc. split.
  - apply landed_outside.
  - intros c' [Hc| ->%list_elem_of_singleton]%elem_of_app; [|by apply (land_node _ _ _ _ _ Hland)].
    destruct (wr_node _ _ Hw c' Hc) as (n & Hn & Hs). exists n. split; [|done]. apply landed_keeps; [done| |].
    + rewrite <-(app_nil_r (cpath c)). by apply Hfresh.
    + intros _. eapply not_marker. rewrite app_nil_r. by apply ordinary_old.
  - intros c' [Hc| ->%list_elem_of_singleton]%elem_of_app Ho; [|by apply (land_marker _ _ _ _ _ Hland)].
    destruct (wr_marker _ _ Hw c' Hc Ho) as (n & Hn & Hs). exists n. split; [|done]. apply landed_keeps; [done| |].
    + intros Heq. eapply (not_marker (cpath c) []); [by rewrite app_nil_r|done].
    + intros _ [Heq _]%app_inj_tail. apply (Hfresh c' []); [done|]. by rewrite app_nil_r.
  - apply landed_dirs.
  - intros r Hr Hno Hmk. rewrite (land_rest _ _ _ _ _ Hland).
    + apply (wr_none _ _ Hw); [done| |]; intros; [apply Hno|apply Hmk]; set_solver.
    + intros r1 s Hp Heq. apply (inj (app d)) in Heq as ->. apply (Hno c s); [set_solver|done].
    + intros Ho Heq. apply (inj (app d)) in Heq. apply (Hmk c); [set_solver|done..].
Qed.
End step.

Section written.
Context (cs : list LayerChange) (g : fs).
Hypothesis Hw : wrote cs g.
Hypothesis Hplain : plain_dir f0 d.
Hypothesis Hord : ordinary_paths cs.
Hypothesis Hcoh : coherent cs.

Lemma wrote_plain : plain_dir g d.
Proof using Hw Hplain. eapply plain_dir_strictly; [apply Hw|done]. Qed.

Lemma shows_dir c n : shows f0 c n → is_leaf c = false → n_is_dir n = true.
Proof using. destruct c; simpl; naive_solver. Qed.

(** A path above another is a directory. *)
Lemma found_dir c q x s n : c ∈ cs → cpath c = q ++ x :: s → found cs q n → n_is_dir n = true.
Proof using Hord Hcoh.
  intros Hc Hp [c1 H1 H2 H3|? ? ? ? ? ? ->|c1 ? ? -> ?]; [|done|].
  - destruct (is_leaf c1) eqn:Hl; [|by eapply shows_dir]. subst q. by apply (Hcoh c1 c x s) in Hp.
  - apply Hord in Hc. rewrite Hp in Hc. by eapply not_marker in Hc.
Qed.

Lemma wrote_above c q x s : c ∈ cs → cpath c = q ++ x :: s → dir_at g (d ++ q) = true.
Proof using Hw Hplain Hord Hcoh.
  intros Hc Hp. destruct (decide (q = [])) as [->|Hq]; [rewrite app_nil_r; apply plain_dir_at, wrote_plain|].
  unfold dir_at. destruct (g !! (d ++ q)) as [n|] eqn:Hn; [eapply found_dir; [done..|]; by eapply wrote_found|].
  destruct (decide (Exists (λ c, cpath c = q) cs)) as [He|He].
  - apply Exists_exists in He as (c1 & H1 & <-). destruct (wr_node _ _ Hw c1 H1) as (n & Hn' & _). congruence.
  - rewrite Exists_exists in He. rewrite (wr_above _ _ Hw c q x s) in Hn; [done..|]. naive_solver.
Qed.

Lemma wrote_tree q x : is_Some (g !! (d ++ q ++ [x])) → dir_at g (d ++ q) = true.
Proof using Hw Hplain Hord Hcoh.
  intros [n Hn]. apply (wrote_found cs) in Hn as [c Hc Hp _|c y s Hc Hp _ _|c Hc Ho Hp _]; [..|done|by destruct q].
  - by eapply wrote_above.
  - eapply wrote_above; [done|]. rewrite Hp, <-(assoc_L (++)). done.
  - apply app_inj_tail in Hp as [-> _]. destruct (wr_node _ _ Hw c Hc) as (n' & Hn' & Hs).
    unfold dir_at. rewrite Hn'. eapply shows_dir; [done|]. by destruct c.
Qed.

(** Where a further change goes there is nothing yet, and its path can be made. *)
Lemma wrote_fresh c r :
  Forall ordinary (cpath c) → (∀ c' s, c' ∈ cs → cpath c' ≠ cpath c ++ s) → g !! (d ++ cpath c ++ r) = None.
Proof using Hw.
  intros Hoc Hfresh. destruct (g !! (d ++ cpath c ++ r)) as [n|] eqn:Hn; [|done]. exfalso.
  apply (wrote_found cs) in Hn as [c1 H1 H2 _|c1 y s H1 H2 _ _|c1 H1 Ho H2 _]; [..|done|].
  - by apply (Hfresh c1 r).
  - apply (Hfresh c1 (r ++ y :: s)); [done|]. by rewrite (assoc_L (++)).
  - destruct r as [|y r _] using rev_ind.
    + rewrite app_nil_r in H2. eapply (not_marker (cpath c) []); [by rewrite app_nil_r|done].
    + rewrite (assoc_L (++)) in H2. apply app_inj_tail in H2 as [H2 _]. by apply (Hfresh c1 r).
  - intros [Hc _]%app_eq_nil. by apply cpath_ne in Hc.
Qed.

Lemma wrote_makeable c :
  Forall ordinary (cpath c) → (∀ c' s, c' ∈ cs → cpath c' ≠ cpath c ++ s) →
  (∀ c' x s, c' ∈ cs → is_leaf c' = true → cpath c ≠ cpath c' ++ x :: s) → makeable g (d ++ cpath c).
Proof using Hw Hplain Hord Hcoh.
  intros Hoc Hfresh Hleaf. pose proof (λ r, wrote_fresh c r Hoc Hfresh) as Hnone.
  pose proof wrote_plain as [Hdd Hpl]. split.
  - rewrite not_elem_of_app. split; [done|]. intros Hin. rewrite Forall_forall in Hoc. by apply Hoc in Hin as (_ & _ & ? & _).
  - by apply (Hpl 0); lia.
  - intros p r Hp. apply app_eq_inv in Hp as [(k & Hk & _)|(k & -> & Hk)].
    + right. specialize (Hpl (length p)). rewrite Hk, take_app_length, length_app in Hpl. apply Hpl. lia.
    + destruct (g !! (d ++ k)) as [n|] eqn:Hn; [|by left]. right. unfold dir_at. rewrite Hn.
      destruct (decide (k = [])) as [->|Hne].
      { rewrite app_nil_r in Hn. specialize (Hpl (length d) (le_n _)). rewrite take_ge in Hpl by done.
        unfold dir_at in Hpl. by rewrite Hn in Hpl. }
      destruct r as [|x r]; [by rewrite app_nil_r in Hk; specialize (Hnone []); rewrite app_nil_r, Hk, Hn in Hnone|].
      apply (wrote_found cs) in Hn as [c1 H1 H2 H3|? ? ? ? ? ? ->|c1 ? ? H3 ?]; [|done| |done|done].
      * destruct (is_leaf c1) eqn:Hl; [|by eapply shows_dir]. subst k. by apply (Hleaf c1 x r) in Hk.
      * rewrite Hk in Hoc. by eapply not_marker in Hoc.
  - intros p x r Hp Hn. destruct (g !! (p ++ [x])) as [n|] eqn:Hx; [|done]. exfalso.
    apply app_eq_inv in Hp as [(k & Hk & _)|(k & -> & Hk)].
    + specialize (Hpl (length p)). rewrite Hk, take_app_length, length_app in Hpl. unfold dir_at in Hpl. rewrite Hn in Hpl.
      assert (false = true) by (apply Hpl; lia). done.
    + assert (dir_at g (d ++ k) = true) as Hd by (eapply wrote_tree; rewrite (assoc_L (++)), Hx; eauto).
      unfold dir_at in Hd. by rewrite Hn in Hd.
Qed.
End written.

(** ** The loop over the changes *)

(** Later changes are not above earlier ones. *)
Definition in_order (cs : list LayerChange) : Prop :=
  ∀ pre c post c' s, cs = pre ++ c :: post → c' ∈ pre → cpath c' ≠ cpath c ++ s.

Lemma wrote_nil : (∀ x r, f0 !! (d ++ x :: r) = None) → wrote [] f0.
Proof using. intros Hn. split; [done|set_solver..|]. intros [|x r] Hr _ _; [done|apply Hn]. Qed.

Lemma coherent_app cs cs' : coherent (cs ++ cs') → coherent cs.
Proof using. intros Hc c c' x s H1 H2. apply Hc; apply elem_of_app; by left. Qed.

Lemma ordinary_paths_app cs cs' : ordinary_paths (cs ++ cs') → ordinary_paths cs.
Proof using. intros Hc c H1. apply Hc, elem_of_app. by left. Qed.

Lemma write_changes_wrote todo : ∀ done g,
  wrote done g → plain_dir f0 d → coherent (done ++ todo) → in_order (done ++ todo) → Forall (change_ok f0 d) (done ++ todo) →
  does (λ h, h = g) (write_changes d todo) (λ _ h, wrote (done ++ todo) h).
Proof using.
  induction todo as [|c todo IH]; intros done g Hw Hpl Hcoh Hord Hok.
  { rewrite app_nil_r. apply does_ret. by intros ? ->. }
  assert (ordinary_paths (done ++ c :: todo)) as Hop.
  { rewrite Forall_forall in Hok. intros c' Hc. by apply Hok in Hc as (_ & ? & _). }
  assert (c ∈ done ++ c :: todo) as Hin by (apply elem_of_app; right; apply elem_of_cons; by left).
  assert (∀ c' s, c' ∈ done → cpath c' ≠ cpath c ++ s) as Hfresh by (intros c' s; by eapply Hord).
  rewrite Forall_forall in Hok.
  eapply does_bind.
  - apply (write_layer_change_lands f0 d); [apply Hw|by eapply wrote_plain|by apply Hok| |].
    + eapply wrote_makeable; [done|done|by eapply ordinary_paths_app|by eapply coherent_app|by apply Hop|done|].
      intros c' x s Hc Hl. apply Hcoh; [|done|done]. apply elem_of_app. by left.
    + intros r. eapply wrote_fresh; [done|by apply Hop|done].
  - intros []. apply does_pre. intros h Hh.
    replace (done ++ c :: todo) with ((done ++ [c]) ++ todo) in * by by rewrite <-(assoc_L (++)).
    apply IH; [|done..|by apply Forall_forall].
    eapply wrote_landed; [done|done|by eapply ordinary_paths_app|done|done].
Qed.
End wrote.

(** ** Aggregated changes come in order *)

Lemma bytes_lt_app x y : y ≠ [] → bytes_lt x (x ++ y).
Proof.
  intros Hy. induction x as [|b x IH]; [destruct y; [done|reflexivity]|]. simpl. unfold bytes_lt. rewrite bytes_ltb_cons. auto.
Qed.

Lemma join_with_prefix c (a b : list bytes) : a ≠ [] → ∃ z, join_with c (a ++ b) = join_with c a ++ z.
Proof.
  intros Ha. destruct b as [|y b]; [exists []; by rewrite !app_nil_r|]. rewrite join_with_app by done. eauto.
Qed.

Lemma cpath_str c : as_str (change_path c) = join_with slash (cpath c).
Proof. symmetry. apply join_split_on. Qed.

Lemma sorted_app_lt {A} (key : A → bytes) (pre : list A) c post c' :
  StronglySorted bytes_lt (key <$> pre ++ c :: post) → c' ∈ pre → bytes_lt (key c') (key c).
Proof.
  induction pre as [|e pre IH]; simpl; intros Hs Hin; [by apply elem_of_nil in Hin|].
  apply StronglySorted_inv in Hs as [Hs Hf]. apply elem_of_cons in Hin as [->|Hin]; [|by apply IH].
  rewrite Forall_forall in Hf. apply Hf, list_elem_of_fmap. exists c. split; [done|]. set_solver.
Qed.

Lemma aggregate_in_order cs : in_order (aggregate_layer_changes cs).
Proof.
  intros pre c post c' s Heq Hin Hp. pose proof (aggregate_sorted cs) as Hs. rewrite Heq in Hs.
  pose proof (sorted_app_lt _ _ _ _ _ Hs Hin) as Hlt. cbv beta in Hlt.
  destruct (join_with_prefix slash (cpath c) s (cpath_ne c)) as [z Hz]. rewrite !cpath_str, Hp, Hz in Hlt.
  apply (irreflexivity bytes_lt (join_with slash (cpath c))).
  destruct (decide (z = [])) as [->|Hne]; [by rewrite app_nil_r in Hlt|]. etrans; [|exact Hlt]. by apply bytes_lt_app.
Qed.

(** ** The changes of a publish *)

(** The directory is there and empty, and the changes can be applied to it. *)
Record layer_ready (f : fs) (d : path) (cs : list LayerChange) : Prop := {
  lr_plain : plain_dir f d;
  lr_attrs : ¬ has_opaque_xattr (f !! d);
  lr_empty x r : f !! (d ++ x :: r) = None;
  lr_coherent : coherent cs;
  lr_changes : Forall (change_ok f d) cs;
}.

Lemma write_layer_changes_wrote f d cs :
  layer_ready f d (aggregate_layer_changes cs) →
  does (λ h, h = f) (write_layer_changes d cs) (λ _ h, wrote f d (aggregate_layer_changes cs) h).
Proof.
  intros [Hp _ He Hc Hok]. apply (write_changes_wrote f d _ []); [by apply wrote_nil|done..|apply aggregate_in_order|done].
Qed.

Section layer.
Context (f0 : fs) (d : path) (cs : list LayerChange) (g : fs).
Hypothesis Hready : layer_ready f0 d cs.
Hypothesis Hw : wrote f0 d cs g.

Lemma ready_ordinary : ordinary_paths cs.
Proof using Hready.
  intros c Hc. pose proof (lr_changes _ _ _ Hready) as Hok. rewrite Forall_forall in Hok. by apply Hok in Hc as (_ & ? & _).
Qed.

Lemma marked_name x : starts_with LOGICAL_WHITEOUT_PREFIX (LOGICAL_WHITEOUT_PREFIX ++ x) = true.
Proof using. apply starts_with_app. by exists x. Qed.

(** The names in the layer. *)
Lemma wrote_name q x n :
  g !! (d ++ q ++ [x]) = Some n → ordinary x ∨ x = OPAQUE_MARKER ∧ whiteout_node n = true.
Proof using Hready Hw.
  intros Hn. apply (wrote_found f0 d cs) in Hn as [c Hc Hp _|c y s Hc Hp _ _|c Hc Ho Hp Hwh]; [..|done|by destruct q].
  - left. apply ready_ordinary in Hc. rewrite Hp, Forall_app, Forall_singleton in Hc. apply Hc.
  - left. apply ready_ordinary in Hc. rewrite Hp, !Forall_app, Forall_singleton in Hc. apply Hc.
  - right. by apply app_inj_tail in Hp as [_ ->].
Qed.

Lemma wrote_special q n : g !! (d ++ q) = Some n → n ≠ NOther ∧ ∀ r, n = NChar r → r = 0%Z.
Proof using Hready Hw.
  assert (∀ m, whiteout_node m = true → m ≠ NOther ∧ ∀ r, m = NChar r → r = 0%Z) as Hwh.
  { intros [] Hm; try done. split; [done|]. intros r [= <-]. by apply bool_decide_eq_true in Hm. }
  intros Hn. destruct (decide (q = [])) as [->|Hq].
  - rewrite app_nil_r in Hn. pose proof (plain_dir_at _ _ (wrote_plain f0 d cs g Hw (lr_plain _ _ _ Hready))) as Hd.
    unfold dir_at in Hd. rewrite Hn in Hd. by destruct n.
  - apply (wrote_found f0 d cs) in Hn as [c Hc Hp Hs|c y s Hc Hp _ ->|c Hc Ho Hp Hm]; [|done|by apply Hwh|done|done].
    destruct c; simpl in Hs; [by subst|by destruct Hs as (? & ? & ? & ? & ->)|by apply Hwh|by subst..|by destruct Hs as [? ->]].
Qed.

Lemma wrote_pure : layer_pure g d.
Proof using Hready Hw.
  pose proof (lr_plain _ _ _ Hready) as Hpl. pose proof (lr_attrs _ _ _ Hready) as Hat.
  pose proof (lr_coherent _ _ _ Hready) as Hcoh. pose proof ready_ordinary as Hord.
  assert (∀ q x n, g !! (d ++ q ++ [LOGICAL_WHITEOUT_PREFIX ++ x]) = Some n →
    LOGICAL_WHITEOUT_PREFIX ++ x = OPAQUE_MARKER ∧ whiteout_node n = true) as Hmk.
  { intros q x n [(_ & _ & _ & Hx)|?]%wrote_name; [|done]. by rewrite marked_name in Hx. }
  split; [split|..].
  - intros q n. apply wrote_special.
  - intros q x [n Hn]. apply Hmk in Hn as [Hx _]. destruct (g !! (d ++ q ++ [x])) as [m|] eqn:Hm; [|done].
    assert (x = lit ".wh..opq") as -> by by apply (inj (app LOGICAL_WHITEOUT_PREFIX)) in Hx.
    apply wrote_name in Hm as [(_ & _ & _ & ?)|[? _]]; done.
  - intros q x t Ht. by apply Hmk in Ht as [_ ?].
  - intros q x [n Hn]. apply wrote_name in Hn as [?|[-> _]]; auto.
  - intros q m xs Hn Hx. destruct (decide (q = [])) as [->|Hq].
    { rewrite app_nil_r, (strictly_node f0) in Hn by apply Hw. destruct Hat. rewrite Hn. simpl. auto. }
    apply (wrote_found f0 d cs) in Hn as [c Hc Hp Hs|c y s Hc Hp _ [= -> ->]|c Hc Ho Hp Hm]; [| |done|done|done].
    + destruct c; simpl in Hs; try (by simplify_eq; set_solver); [naive_solver..|].
      subst q. by destruct (wr_marker _ _ _ _ Hw (OpaqueDir p)) as (n & -> & _); [done..|eexists].
    + set_solver.
  - intros q x. by eapply wrote_tree.
Qed.

Lemma wrote_not_opaque : opaque g d = false.
Proof using Hready Hw.
  apply bool_decide_eq_false. intros [n Hn]. apply (wrote_found f0 d cs) in Hn as [c Hc Hp _|c y s Hc Hp _ _|c Hc _ Hp _]; [..|done|done].
  - apply ready_ordinary in Hc. rewrite Hp, Forall_singleton in Hc. by destruct Hc as (_ & _ & _ & ?).
  - apply ready_ordinary in Hc. rewrite Hp in Hc. by apply Forall_cons in Hc as [(_ & _ & _ & ?) _].
  - assert (cpath c = []) by (by destruct (cpath c) as [|? []]). by apply cpath_ne in H.
Qed.
End layer.
