(* ===== verification/PublishRead.v ===== *)
(** * Reading what was published: [stack/ops/publish.rs] and [stack/layer/write.rs]

    A publish writes its changes into a staging directory, promotes it to a
    layer, records its digest and writes the manifest.  Together with the
    overlay lookup that the reads refine, this gives the state of every path
    after a publish from the changes and from the state before it. *)

From S2P Require Import Prelude ByteStr Merge Model FS Storage View Descend World StorageOps Flatten Does FlattenRead FlattenSpec.
From S2P Require Import Lease Publish Stack Squash SquashSpec SquashCommit LayerWrite.

(** ** What the new layer shows *)

(** A path that hides what lies below it in lower layers. *)
Definition blocks (f : fs) (p : path) : bool :=
  match f !! p with Some (NDir _ _) => opaque f p | Some _ => true | None => false end.

Fixpoint blocked (f : fs) (d q : path) : bool :=
  match q with
  | [] | [_] => false
  | c :: q => blocks f (d ++ [c]) || blocked f (d ++ [c]) q
  end.

Lemma blocked_spec f q : ∀ d, blocked f d q = true ↔ ∃ r x s, q = r ++ x :: s ∧ r ≠ [] ∧ blocks f (d ++ r) = true.
Proof.
  induction q as [|c [|c' q] IH]; intros d.
  - split; [done|]. intros ([] & ? & ? & ? & ? & ?); done.
  - split; [done|]. intros ([|? []] & ? & ? & ? & ? & ?); simplify_eq/=; done.
  - change (blocked f d (c :: c' :: q)) with (blocks f (d ++ [c]) || blocked f (d ++ [c]) (c' :: q)).
    rewrite orb_true_iff, IH. split.
    + intros [Hb|(r & x & s & Hq & Hr & Hb)]; [by exists [c], c', q|]. exists (c :: r), x, s.
      rewrite Hq. split_and!; [done|done|]. by rewrite <-(assoc_L (++)) in Hb.
    + intros ([|y [|y' r]] & x & s & Hq & Hr & Hb); simplify_eq/=; [by left|]. right.
      exists (y' :: r), x, s. split_and!; [done|done|]. by rewrite <-(assoc_L (++)).
Qed.

(** The verdict of a pure layer whose names are ordinary, without the walk. *)
Lemma judge_pure f : ∀ q d, layer_pure f d → Forall ordinary q → q ≠ [] →
  (∀ r x, ordinary x → present f (d ++ r) (LOGICAL_WHITEOUT_PREFIX ++ x) = false) →
  judge f d q =
  match f !! (d ++ q) with
  | Some n => if whiteout_node n then VHidden else VFound n
  | None => if blocked f d q then VHidden else VNext
  end.
Proof.
  induction q as [|c q IH]; intros d Hp Hord Hne Hmk; [done|]. apply Forall_cons in Hord as [Hc Hord].
  assert (slot_at f d c = match f !! (d ++ [c]) with None => Nothing | Some n => if whiteout_node n then Hidden else Here n end) as Hs.
  { unfold slot_at. specialize (Hmk [] c Hc). rewrite app_nil_r in Hmk. by rewrite Hmk. }
  destruct q as [|c' q].
  { cbn [judge blocked]. rewrite Hs. destruct (f !! (d ++ [c])) as [n|]; [by destruct (whiteout_node n)|done]. }
  assert (dir_at f (d ++ [c]) = false → f !! (d ++ c :: c' :: q) = None ∧
    blocked f (d ++ [c]) (c' :: q) = false) as Hbelow.
  { intros Hd. assert (∀ r, r ≠ [] → f !! ((d ++ [c]) ++ r) = None) as Hn.
    { intros r Hr. destruct (f !! ((d ++ [c]) ++ r)) as [n|] eqn:Hn; [|done].
      rewrite (pure_dirs f d [c] r) in Hd; [done|done| |done]. rewrite (assoc_L (++)), Hn. eauto. }
    split; [by rewrite (Hn (c' :: q)) || (specialize (Hn (c' :: q)); rewrite <-(assoc_L (++)) in Hn; by apply Hn)|].
    apply not_true_iff_false. rewrite blocked_spec. intros (r & x & s & _ & Hr & Hb). unfold blocks in Hb. by rewrite Hn in Hb. }
  rewrite judge_cons2, Hs.
  change (blocked f d (c :: c' :: q)) with (blocks f (d ++ [c]) || blocked f (d ++ [c]) (c' :: q)).
  unfold dir_at in Hbelow. unfold blocks at 1. destruct (f !! (d ++ [c])) as [n|] eqn:Hn; last first.
  { destruct Hbelow as [-> ->]; done. }
  destruct (n_is_dir n) eqn:Hdir; last first.
  { destruct Hbelow as [-> _]; [done|]. by destruct (whiteout_node n), n. }
  destruct n as [| |m xs| |]; try done. cbn [whiteout_node].
  rewrite IH; [|by apply layer_pure_app|done|done|].
  - rewrite <-(assoc_L (++)). set (b := blocked f (d ++ [c]) (c' :: q)). cbn [app]. destruct (f !! (d ++ c :: c' :: q)) as [n|]; [by destruct (whiteout_node n)|].
    by destruct b, (opaque f (d ++ [c])).
  - intros r x. rewrite <-(assoc_L (++)). apply Hmk.
Qed.

(** The node a change puts at its path, and whether it hides what lies below. *)
Definition change_node (f : fs) (c : LayerChange) : option node :=
  match c with
  | Write _ content => Some (NFile content 0x1a4 ∅)
  | WriteFile _ src _ =>
      match metadata f src with Ok (NFile data mode _) => Some (NFile data mode ∅) | _ => None end
  | Delete _ => None
  | SymlinkTo _ target => Some (NSymlink target)
  | Directory _ | OpaqueDir _ => Some (NDir 0x1ed ∅)
  end.

Definition cuts (c : LayerChange) : bool := match c with Directory _ => false | _ => true end.

(** What a path shows after the changes, when it showed [old] before. *)
Definition applied (f : fs) (cs : list LayerChange) (old : option node) (q : path) : option node :=
  match head (filter (λ c, cpath c = q) cs) with
  | Some c => change_node f c
  | None =>
      if existsb (λ c, bool_decide (is_Some (below q (cpath c)))) cs then Some (NDir 0x1ed ∅)
      else if existsb (λ c, cuts c && bool_decide (is_Some (below (cpath c) q))) cs then None
      else old
  end.

Lemma shows_node f0 c n :
  shows f0 c n → strip <$> (if whiteout_node n then None else Some n) = strip <$> change_node f0 c.
Proof.
  assert (∀ data mode, whiteout_node (NFile data mode ∅) = false) as Hf.
  { intros data mode. apply andb_false_iff. right. apply orb_false_iff. by rewrite !bool_decide_false by set_solver. }
  destruct c; simpl; [intros ->; by rewrite Hf| |by intros ->|by intros ->..|by intros [? ->]].
  intros (data & mode & xs & -> & ->). by rewrite Hf.
Qed.

Section shows.
Context (f0 : fs) (d : path) (cs : list LayerChange) (g : fs).
Hypothesis Hready : layer_ready f0 d cs.
Hypothesis Hw : wrote f0 d cs g.

(** The changes that hide what lies below are those that cut. *)
Lemma wrote_blocks r :
  r ≠ [] → Forall ordinary r → blocks g (d ++ r) = true ↔ ∃ c, c ∈ cs ∧ cpath c = r ∧ cuts c = true.
Proof using Hready Hw.
  intros Hr Hord. assert (opaque g (d ++ r) = true ↔ ∃ c, c ∈ cs ∧ cpath c = r ∧ is_opaque c = true) as Hop.
  { unfold opaque, present. rewrite bool_decide_eq_true, <-(assoc_L (++)). split.
    - intros [n Hn]. apply (wrote_found f0 d cs) in Hn as [c Hc Hp _|c y s Hc Hp _ _|c Hc Ho Hp _]; [..|done|by destruct r].
      + apply (ready_ordinary f0 d cs Hready) in Hc. exfalso. eapply (not_marker (cpath c) []); [by rewrite app_nil_r|done].
      + apply (ready_ordinary f0 d cs Hready) in Hc. exfalso. rewrite Hp in Hc. by eapply not_marker in Hc.
      + apply app_inj_tail in Hp as [Hp _]. eauto.
    - intros (c & Hc & <- & Ho). destruct (wr_marker _ _ _ _ Hw c Hc Ho) as (n & -> & _). eauto. }
  unfold blocks. destruct (g !! (d ++ r)) as [n|] eqn:Hn; last first.
  { split; [done|]. intros (c & Hc & <- & _). destruct (wr_node _ _ _ _ Hw c Hc) as (n & Hn' & _). congruence. }
  destruct (wrote_found f0 d cs g r n Hw Hr Hn) as [c Hc Hp Hs|c y s Hc Hp Hno ->|c Hc Ho -> _].
  - assert (∀ c', c' ∈ cs → cpath c' = r → shows f0 c' n) as Hall.
    { intros c' Hc' Hp'. destruct (wr_node _ _ _ _ Hw c' Hc') as (n' & Hn' & Hs'). rewrite Hp', Hn in Hn'. by simplify_eq. }
    split.
    + destruct (cuts c) eqn:Hcut; [eauto|]. destruct c; try done. simpl in Hs. subst n.
      intros (c' & ? & ? & ?)%Hop. exists c'. split_and!; [done..|]. by destruct c'.
    + intros (c' & Hc' & Hp' & Hcut). specialize (Hall c' Hc' Hp'). destruct (is_opaque c') eqn:Ho.
      * destruct c'; try done. destruct Hall as [xs ->]. apply Hop. eauto.
      * by destruct c'; try done; simpl in Hall; [subst n|destruct Hall as (? & ? & ? & _ & ->)|destruct n|subst n].
  - rewrite Hop. split; [|by intros (c' & Hc' & Hp' & _); destruct (Hno c')].
    intros (c' & Hc' & Hp' & _). by destruct (Hno c').
  - exfalso. rewrite Forall_app, Forall_singleton in Hord. by destruct Hord as [_ (_ & _ & _ & ?)].
Qed.

Lemma wrote_unmarked r x : ordinary x → present g (d ++ r) (LOGICAL_WHITEOUT_PREFIX ++ x) = false.
Proof using Hready Hw.
  intros (_ & _ & _ & Hx). apply bool_decide_eq_false. rewrite <-(assoc_L (++)). intros [n Hn].
  apply (wrote_name f0 d cs g Hready Hw) in Hn as [(_ & _ & _ & Hm)|[Hm _]]; [by rewrite marked_name in Hm|].
  apply (inj (app LOGICAL_WHITEOUT_PREFIX) _ (lit ".wh..opq")) in Hm. by subst.
Qed.

Lemma wrote_blocked q :
  Forall ordinary q → (∀ c, c ∈ cs → cpath c ≠ q) →
  blocked g d q = existsb (λ c, cuts c && bool_decide (is_Some (below (cpath c) q))) cs.
Proof using Hready Hw.
  intros Hord Hno. apply eq_true_iff_eq. rewrite blocked_spec, existsb_exists. split.
  - intros (r & x & s & -> & Hr & Hb). apply wrote_blocks in Hb as (c & Hc & Hp & Hcut); [|done|by apply Forall_app in Hord as [? _]].
    exists c. split; [by apply list_elem_of_In|]. rewrite Hcut, Hp. apply bool_decide_eq_true, under_app.
  - intros (c & Hc%list_elem_of_In & [Hcut [[|x s] Hs]%bool_decide_eq_true]%andb_true_iff).
    + apply below_Some in Hs. rewrite app_nil_r in Hs. by destruct (Hno c).
    + apply below_Some in Hs. exists (cpath c), x, s. split_and!; [done|apply cpath_ne|]. apply wrote_blocks; [apply cpath_ne| |eauto].
      by eapply ready_ordinary.
Qed.

(** On top of any stack the layer shows the changes. *)
Lemma wrote_shows dirs q :
  q ≠ [] → Forall ordinary q → Forall (agree f0 g) dirs →
  strip <$> overlay g (d :: dirs) q = strip <$> applied f0 cs (overlay f0 dirs q) q.
Proof using Hready Hw.
  intros Hq Hord Hdirs. rewrite overlay_cons by done. rewrite <-(overlay_agree f0 g) by done. generalize (overlay f0 dirs q) as old. intros old.
  rewrite judge_pure; [|by eapply wrote_pure|done|done|by apply wrote_unmarked]. unfold applied.
  destruct (head (filter (λ c, cpath c = q) cs)) as [c|] eqn:Hc.
  - apply head_Some_elem_of, list_elem_of_filter in Hc as [Hp Hc].
    destruct (wr_node _ _ _ _ Hw c Hc) as (n & Hn & Hs). rewrite Hp in Hn. rewrite Hn, <-(shows_node f0 c n Hs).
    by destruct (whiteout_node n).
  - assert (∀ c', c' ∈ cs → cpath c' ≠ q) as Hno.
    { intros c' Hc' Hp. apply head_None in Hc. assert (c' ∈ filter (λ c, cpath c = q) cs) as Hin by by apply list_elem_of_filter.
      rewrite Hc in Hin. by apply elem_of_nil in Hin. }
    clear Hc.
    destruct (existsb _ cs) eqn:Hab.
    + apply existsb_exists in Hab as (c & Hc%list_elem_of_In & Hb%bool_decide_eq_true). destruct Hb as [[|x s] Hb%below_Some].
      { rewrite app_nil_r in Hb. by destruct (Hno c). }
      rewrite (wr_above _ _ _ _ Hw c q x s) by done. done.
    + rewrite (wr_none _ _ _ _ Hw q); [|done| |].
      * rewrite wrote_blocked by done. generalize (existsb (λ c, cuts c && bool_decide (is_Some (below (cpath c) q))) cs).
        by intros [].
      * intros c s Hc Hp. apply not_true_iff_false in Hab. apply Hab, existsb_exists. exists c.
        split; [by apply list_elem_of_In|]. apply bool_decide_eq_true. exists s. by apply below_Some.
      * intros c Hc _ ->. rewrite Forall_app, Forall_singleton in Hord. by destruct Hord as [_ (_ & _ & _ & ?)].
Qed.
End shows.

(** ** The steps of a publish *)

Lemma tree_insert f q c n :
  tree f → dir_at f q = true → n_is_dir n = true ∨ dir_at f (q ++ [c]) = false → tree (<[q ++ [c] := n]> f).
Proof.
  intros Ht Hq Hn p x Hs. unfold dir_at. destruct (decide (q ++ [c] = p)) as [<-|Hne].
  - rewrite lookup_insert_eq. destruct Hn as [Hn|Hn]; [done|]. exfalso.
    rewrite lookup_insert_ne in Hs.
    + rewrite (tree_below f (q ++ [c]) [x]) in Hs by done. by destruct Hs.
    + intros Heq. apply (f_equal length) in Heq. rewrite !length_app in Heq. simpl in Heq. lia.
  - rewrite lookup_insert_ne by done. destruct (decide (q ++ [c] = p ++ [x])) as [Heq|Hne2].
    + apply app_inj_tail in Heq as [-> ->]. exact Hq.
    + rewrite lookup_insert_ne in Hs by done. by apply Ht in Hs.
Qed.

Section sidecar.
Context (pid : N) (root : path) (k : fs).
Hypothesis Hroot : plain_dir k root.
Hypothesis Htree : tree k.
Hypothesis Hmeta : k !! (root ++ [LAYER_METADATA_DIR]) = None ∨ plain_dir k (root ++ [LAYER_METADATA_DIR]).

Abbreviation meta := (root ++ [LAYER_METADATA_DIR]).

(** A file beside the layers: whatever happens, only that directory changes. *)
Lemma sidecar_plain (h : fs) name data w r w' :
  plain_dir h meta → tree h → name ≠ dotdot → dir_at h (meta ++ [name]) = false →
  (∀ n, h !! (meta ++ [tmp_name pid name n]) = None) → w_fs w = h →
  (do n := next_unique in
   let tmp := meta ++ [tmp_name pid name n] in
   do r := attempt (
     run write_bytes_fsynced tmp data;
     run lift_err Io (fs_rename tmp (meta ++ [name]));
     fsync_dir meta) in
   match r with
   | Ok _ => ret ()
   | Err err => run attempt (F := LayerStackError) (remove_file tmp); fail err
   end)%io w = (r, w') →
  (outside (under meta) h (w_fs w') ∧ plain_dir (w_fs w') meta ∧ tree (w_fs w')) ∧
  (is_err r = false → outside (λ q, q = meta ++ [name]) h (w_fs w')).
Proof using.
  intros Hp Ht Hn Hd Htmp <- Hrun.
  assert (∀ x n, dir_at (w_fs w) (meta ++ [x]) = false →
    outside (under meta) (w_fs w) (<[meta ++ [x] := n]> (w_fs w)) ∧ plain_dir (<[meta ++ [x] := n]> (w_fs w)) meta ∧
    tree (<[meta ++ [x] := n]> (w_fs w))) as Hins.
  { intros x n Hx. split_and!.
    - apply outside_insert; [apply under_app|done].
    - eapply plain_dir_outside; [|done]. apply outside_insert; [apply under_self|done].
    - apply tree_insert; [done|by apply plain_dir_at|by right]. }
  eapply install_cases in Hrun as [->|[He Hcase]]; [..|done|done|done|done|by rewrite Htmp].
  - split; [by apply Hins|]. intros _. by apply outside_insert.
  - split; [|by rewrite He]. destruct Hcase as [->|[x ->]]; [done|]. apply Hins. unfold dir_at. by rewrite Htmp.
Qed.

(** In a directory that is there. *)
Lemma sidecar_any (h : fs) name data w r w' :
  plain_dir h meta → tree h → name ≠ dotdot → dir_at h (meta ++ [name]) = false →
  (∀ n, h !! (meta ++ [tmp_name pid name n]) = None) → w_fs w = h →
  write_atomic pid (meta ++ [name]) data w = (r, w') →
  (outside (under meta) h (w_fs w') ∧ plain_dir (w_fs w') meta ∧ tree (w_fs w')) ∧
  (is_err r = false → outside (λ q, q = meta ++ [name]) h (w_fs w')).
Proof using.
  intros Hp Ht Hn Hd Htmp Hw Hrun.
  destruct (create_dir_all_plain meta w) as (w1 & Hmk & Hfs1 & _ & _); [by rewrite Hw|].
  rewrite (write_atomic_dir _ _ _ _ _ _ Hmk) in Hrun. eapply sidecar_plain; [done..| |exact Hrun]. congruence.
Qed.

(** Or in one that is made first. *)
Lemma sidecar_yields name data :
  name ≠ dotdot → dir_at k (meta ++ [name]) = false → (∀ n, k !! (meta ++ [tmp_name pid name n]) = None) →
  yields (λ h, h = k) (write_atomic pid (meta ++ [name]) data)
    (λ _ h, outside (λ q, q = meta ∨ q = meta ++ [name]) k h ∧ plain_dir h meta ∧ tree h).
Proof using Hroot Htree Hmeta.
  intros Hn Hd Htmp w r w' Hrun Hw. destruct Hmeta as [Hnone|Hp].
  2: { destruct r; [|done]. eapply sidecar_any in Hrun as [(_ & Hrest) Hout]; [|done..]. split; [|done].
    eapply outside_weaken; [|by apply Hout]. by right. }
  destruct (create_dir_all meta w) as [[[]|e] w1] eqn:Hmk.
  - pose proof (does_create_new k root LAYER_METADATA_DIR Hroot ltac:(done) Hnone w Hw) as Hdoes. rewrite Hmk in Hdoes.
    destruct Hdoes as [Hfs1 _]. destruct r; [|done]. rewrite (write_atomic_dir _ _ _ _ _ _ Hmk) in Hrun.
    assert (∀ x, k !! (meta ++ [x]) = None) as Hbelow.
    { intros x. apply tree_below; [done| |done]. unfold dir_at. by rewrite Hnone. }
    assert (∀ x, w_fs w1 !! (meta ++ [x]) = None) as Hbelow1.
    { intros x. rewrite Hfs1, lookup_insert_ne; [done|]. intros Heq. apply (f_equal length) in Heq.
      rewrite !length_app in Heq. simpl in Heq. lia. }
    destruct (sidecar_plain (w_fs w1) name data w1 (Ok a) w') as [(_ & Hrest) Hout]; [..|exact Hrun|].
    + rewrite Hfs1. apply plain_dir_snoc; [|unfold dir_at; by rewrite lookup_insert_eq|done].
      eapply plain_dir_outside; [|done]. by apply outside_insert; [apply under_self|].
    + rewrite Hfs1. apply tree_insert; [done|by apply plain_dir_at|by left].
    + done.
    + unfold dir_at. by rewrite Hbelow1.
    + done.
    + done.
    + split; [|done]. eapply outside_trans; [|eapply outside_weaken; [|by apply Hout]; by right].
      rewrite Hfs1. apply outside_insert; [by left|done].
  - destruct r; [|done]. exfalso. unfold write_atomic, parent in Hrun. rewrite length_app, Nat.add_comm in Hrun.
    cbn [length pred Nat.add] in Hrun. rewrite take_app_length in Hrun. unfold bind at 1, lift_err at 1 in Hrun. by rewrite Hmk in Hrun.
Qed.
End sidecar.

(** Syncing changes nothing. *)
Lemma pres_fsync_tree (I : fs → Prop) fuel : ∀ p, pres I (fsync_tree_from fuel p).
Proof.
  induction fuel as [|fuel IH]; intros p; [apply pres_ret|]. cbn [fsync_tree_from].
  apply pres_bind; [auto with pres|]. intros ns. induction ns as [|n ns IHn]; simpl; [apply pres_ret|].
  apply pres_bind; [auto with pres|]. intros m. apply pres_bind; [|done]. apply pres_if; [apply IH|]. auto with pres.
Qed.

Lemma pres_fsync_tree_files (I : fs → Prop) p : pres I (fsync_tree_files p).
Proof. intros w. apply pres_fsync_tree. Qed.

Lemma yields_pres {E A : Type} (c : io E A) f : (∀ I, pres I c) → yields (λ h, h = f) c (λ _ h, h = f).
Proof. intros Hc w r w' Hrun Hw. pose proof (Hc (λ h, h = f) w r w' Hrun Hw). by destruct r. Qed.

Lemma yields_failpoint failpoints root f :
  yields (λ h, h = f) (take_publish_failpoint_marker failpoints root) (λ _ h, h = f).
Proof.
  unfold take_publish_failpoint_marker. destruct failpoints; [|by apply yields_ret]. cbn [negb].
  intros w r w' Hrun Hw. unfold bind, attempt in Hrun. destruct (remove_file _ w) as [[[]|e] w1] eqn:Hrm; [by injection Hrun as <- <-|].
  apply syscall_failed in Hrm. destruct e; injection Hrun as <- <-; congruence || done.
Qed.

(** A step whose failure is passed on. *)
Lemma yields_attempt {E F A B : Type} (c : io E A) (k : result A E → io F B) P Q R :
  yields P c Q → (∀ a, yields (Q a) (k (Ok a)) R) → (∀ e w b w', k (Err e) w ≠ (Ok b, w')) →
  yields P (bind (attempt c) k) R.
Proof.
  intros Hc Hok Herr w r w' Hrun Hw. unfold bind, attempt in Hrun. destruct (c w) as [[a|e] w1] eqn:Hcw.
  - by eapply Hok; [|eapply (Hc _ _ _ Hcw Hw)].
  - destruct r; [|done]. by apply Herr in Hrun.
Qed.

(** A storage root with room for a new layer. *)
Record publish_room `{ManifestCodec} (pid : N) (root : path) (f : fs) (m : Manifest) : Prop := {
  pr_stack : squash_pre pid root f m;
  pr_meta : f !! (root ++ [LAYER_METADATA_DIR]) = None ∨ plain_dir f (root ++ [LAYER_METADATA_DIR]);
  pr_files name : dir_at f ((root ++ [LAYER_METADATA_DIR]) ++ [name]) = false;
  pr_tmp name n : f !! ((root ++ [LAYER_METADATA_DIR]) ++ [tmp_name pid name n]) = None;
}.

(** And changes that can be written. *)
Record publish_pre `{ManifestCodec} (pid : N) (root : path) (f : fs) (m : Manifest) (changes : list LayerChange) : Prop := {
  pp_room : publish_room pid root f m;
  pp_coherent : coherent (aggregate_layer_changes changes);
  pp_changes : Forall (change_ok f (root ++ [STAGING_DIR])) (aggregate_layer_changes changes);
}.

Section publish.
Context `{ManifestCodec} (pid : N) (root : path) (f : fs) (m : Manifest) (changes : list LayerChange).
Hypothesis Hpre : publish_pre pid root f m changes.
Abbreviation cs := (aggregate_layer_changes changes).

(** The new layer, as one of the blocks that a squash builds. *)
Definition new_block (id : bytes) : BuiltBlock := mkBuilt id (staging_path root id) (layer_path root id) [].

(** A free id. *)
Record free_id (id : bytes) : Prop := {
  fi_name : name_ok id;
  fi_layer : f !! layer_path root id = None;
  fi_staging r : f !! (staging_path root id ++ r) = None;
}.

Lemma allocate_free v :
  yields (λ h, h = f) (allocate_layer_dirs root Byte.x4c v)
    (λ r g, g = f ∧ ∃ id, r = (id, staging_path root id, layer_path root id) ∧ free_id id).
Proof using Hpre.
  destruct Hpre as [[[[Hl Hs Hll Hsl Htree _ _ _] _ _ _ _ _] _ _ _] _ _].
  eapply hoare_conseq; [by apply allocate_yields|done| |done]. intros r ? (-> & k & -> & He1 & He2). split; [done|].
  set (id := new_layer_id _ _ k) in *. assert (name_ok id) as Hid by by apply new_layer_id_ok. clearbody id.
  exists id. split; [done|]. assert (f !! staging_path root id = None) as Hsn.
  { specialize (Hsl id). rewrite staging_path_snoc in *. apply fresh_child; [done|apply staging_name_ok|done|done]. }
  split; [done| |].
  - specialize (Hll id). rewrite layer_path_snoc in *. apply fresh_child; [done|apply Hid|done|done].
  - intros r. destruct (decide (r = [])) as [->|Hr]; [by rewrite app_nil_r|].
    apply tree_below; [done| |done]. unfold dir_at. by rewrite Hsn.
Qed.

(** The staging directory of the new layer, made. *)
Definition staged_dir (id : bytes) : fs := <[staging_path root id := NDir 0x1ed ∅]> f.

Lemma make_staging id :
  free_id id → yields (λ h, h = f) (lift_err (F := LayerStackError) Io (create_dir_all (staging_path root id))) (λ _ g, g = staged_dir id).
Proof using Hpre.
  intros [_ _ Hfree]. destruct Hpre as [[[[_ Hs _ _ _ _ _ _] _ _ _ _ _] _ _ _] _ _]. unfold staged_dir.
  specialize (Hfree []). rewrite app_nil_r in Hfree. rewrite staging_path_snoc in *.
  apply does_yields, does_lift_err, does_create_new; [done|apply staging_name_ok|done].
Qed.

(** It is ready for the changes. *)
Lemma staged_layer_ready id : free_id id → layer_ready (staged_dir id) (staging_path root id) cs.
Proof using Hpre.
  intros [Hid Hl Hfree]. unfold staged_dir. destruct Hpre as [[[[Hrl Hrs _ _ _ _ _ _] _ _ _ _ _] _ _ _] Hcoh Hch].
  assert (∀ h, outside (strictly (staging_path root id)) (<[staging_path root id := NDir 0x1ed ∅]> f) h →
    outside (strictly (root ++ [STAGING_DIR])) f h) as Hweak.
  { intros h Hh q Hq. rewrite Hh.
    - rewrite lookup_insert_ne; [done|]. intros <-. apply Hq. exists (id ++ lit ".staging"), []. by rewrite staging_path_snoc.
    - intros (c & r & ->). apply Hq. exists (id ++ lit ".staging"), (c :: r). by rewrite staging_path_snoc, <-(assoc_L (++)). }
  split.
  - rewrite staging_path_snoc. apply plain_dir_snoc; [|unfold dir_at; by rewrite lookup_insert_eq|apply staging_name_ok].
    eapply plain_dir_outside; [|done]. by apply outside_insert; [apply under_self|].
  - rewrite lookup_insert_eq. simpl. set_solver.
  - intros x r. rewrite lookup_insert_ne; [apply Hfree|]. intros Heq. apply (f_equal length) in Heq. rewrite length_app in Heq. simpl in Heq. lia.
  - done.
  - eapply Forall_impl; [exact Hch|]. intros c (H1 & H2 & H3). split_and!; [done..|]. destruct c; try done.
    destruct H3 as (data & mode & xs & Hlen & Hsrc). exists data, mode, xs. split; [done|]. intros h Hh. by apply Hsrc, Hweak.
Qed.

Lemma stage_yields id :
  free_id id →
  yields (λ h, h = staged_dir id) (stage_layer (staging_path root id) changes)
    (λ _ g, wrote (staged_dir id) (staging_path root id) cs g).
Proof using Hpre.
  intros Hid. pose proof (staged_layer_ready id Hid) as Hready. unfold stage_layer.
  apply (yields_attempt _ _ _ (λ _ g, wrote (staged_dir id) (staging_path root id) cs g)); [|intros a; by apply yields_ret|].
  - eapply yields_bind; [by apply does_yields, write_layer_changes_wrote|]. intros []. apply yields_pre. intros g Hg.
    eapply yields_bind; [apply (yields_pres _ g); intros I; apply pres_fsync_tree_files|]. intros [].
    eapply hoare_conseq; [apply (yields_pres _ g); intros I; apply pres_lift_err, pres_open_sync|done| |done]. by intros [] ? ->.
  - intros e w b w'. unfold bind, attempt. by destruct (remove_dir_all _ w).
Qed.

(** The written layer is a built block. *)
Lemma wrote_build_inv id g :
  free_id id → wrote (staged_dir id) (staging_path root id) cs g → build_inv f root g [new_block id].
Proof using Hpre.
  intros Hid Hg. pose proof (staged_layer_ready id Hid) as Hready. split.
  - intros q Hq. rewrite (wr_out _ _ _ _ Hg).
    + unfold staged_dir. rewrite lookup_insert_ne; [done|]. intros <-. apply Hq. exists (new_block id). split; [by left|apply under_self].
    + intros (c & r & ->). apply Hq. exists (new_block id). split; [by left|apply under_app].
  - apply NoDup_singleton.
  - apply Forall_singleton. split; [done|done|apply Hid|apply Hid|..].
    + apply plain_dir_at. eapply wrote_plain; [done|apply Hready].
    + by eapply wrote_pure.
    + by eapply wrote_not_opaque.
Qed.

Lemma promote_layer_yields id g :
  free_id id → build_inv f root g [new_block id] →
  yields (λ h, h = g) (promote_layer (staging_path root id) (layer_path root id)) (λ _ k, moved_all root g k [new_block id]).
Proof using Hpre.
  intros Hid Hinv. pose proof (pr_stack _ _ _ _ (pp_room _ _ _ _ _ Hpre)) as [Hsq _ _ _ _ _].
  pose proof (ready_built f g root m _ Hsq Hinv) as Hrg. pose proof (block_inv_now f g root m _ Hsq Hinv) as Hbl.
  pose proof (place_empty root g m [new_block id] Hrg Hbl (new_block id)) as Hempty.
  apply Forall_singleton in Hbl as [_ _ Hname _ Hdir _ _]. unfold promote_layer.
  unfold dir_at in Hdir. cbn [bb_staging_dir new_block bb_layer_id] in *.
  destruct (g !! staging_path root id) as [[| |mo xs| |]|] eqn:Hn; try done.
  eapply yields_attempt.
  - apply does_yields. rewrite staging_path_snoc, layer_path_snoc in *.
    eapply (does_rename_dir g _ _ _ _ mo xs); [apply Hrg|apply staging_name_ok|apply Hrg|apply Hname|done| |].
    + intros r. apply Hempty. by left.
    + rewrite <-staging_path_snoc, <-layer_path_snoc. intros Hu. by apply (under_two root _ _ _ _ []) in Hu as [? _].
  - intros []. apply yields_pre. intros k (Hsame & Hgone & Hout). rewrite <-staging_path_snoc, <-layer_path_snoc in *.
    eapply hoare_conseq; [apply (yields_pres _ k); intros I; apply pres_lift_err, pres_open_sync|done| |done]. intros [] ? ->. split.
    + eapply outside_weaken; [|exact Hout]. intros q [?|?]; [left|right]; exists (new_block id); (split; [by left|done]).
    + intros b ->%list_elem_of_singleton. split; [exact Hsame|exact Hgone].
  - intros e w b w'. unfold bind, attempt. by destruct (remove_dir_all _ w).
Qed.
End publish.

Section finish.
Context `{ManifestCodec} (pid : N) (root : path) (f : fs) (m : Manifest) (changes : list LayerChange).
Hypothesis Hpre : publish_pre pid root f m changes.
Abbreviation cs := (aggregate_layer_changes changes).
Abbreviation meta := (root ++ [LAYER_METADATA_DIR]).

Lemma meta_apart a r : a ≠ LAYER_METADATA_DIR → ¬ under meta (root ++ a :: r).
Proof using.
  intros Ha [t Ht%below_Some]. rewrite <-(assoc_L (++)) in Ht. apply (inj (app root)) in Ht. by simplify_eq/=.
Qed.

Lemma meta_short q : length q ≤ length root → ¬ under meta q.
Proof using. intros Hq [t ->%below_Some]. rewrite !length_app in Hq. simpl in Hq. lia. Qed.

Lemma outside_meta_root k k' : outside (under meta) k k' → plain_dir k root → plain_dir k' root.
Proof using.
  intros Hout [Hdd Hd]. split; [done|]. intros j Hj. unfold dir_at. rewrite Hout; [by apply Hd|].
  apply meta_short. rewrite length_take. lia.
Qed.

(** The new layer is in its place, the others and the root are as they were. *)
Record installed (id : bytes) (k : fs) : Prop := {
  in_root : plain_dir k root;
  in_layers : plain_dir k (root ++ [LAYERS_DIR]);
  in_old l : l ∈ layers m → agree f k (layer_path root (layer_id l));
  in_new : ∃ g, wrote (staged_dir root f id) (staging_path root id) cs g ∧
    same g (staging_path root id) k (layer_path root id);
}.

(** That stays so when the files beside the layers change. *)
Lemma installed_outside id k k' :
  outside (λ q, under meta q ∨ q = manifest_path root) k k' → installed id k → installed id k'.
Proof using.
  intros Hout [Hr Hl Hold (g & Hg & Hs)].
  assert (∀ q, length q ≤ length root ∨ (∃ r, q = root ++ LAYERS_DIR :: r) → k' !! q = k !! q) as Hk.
  { intros q Hq. apply Hout. intros [Hu| ->].
    - destruct Hq as [Hq|[r ->]]; [by eapply meta_short|by eapply meta_apart in Hu].
    - destruct Hq as [Hq|[r Hr']]; [unfold manifest_path in Hq; rewrite length_app in Hq; simpl in Hq; lia|].
      unfold manifest_path in Hr'. by apply (inj (app root)) in Hr'. }
  assert (plain_dir k' root) as Hr'.
  { destruct Hr as [Hdd Hd]. split; [done|]. intros j Hj. unfold dir_at. rewrite Hk; [by apply Hd|]. left. rewrite length_take. lia. }
  assert (∀ id r, k' !! (layer_path root id ++ r) = k !! (layer_path root id ++ r)) as Hlay.
  { intros i r. apply Hk. right. exists (i :: r). unfold layer_path. by rewrite <-(assoc_L (++)). }
  split; [done|..].
  - apply plain_dir_snoc; [done| |done]. apply plain_dir_at in Hl. unfold dir_at in *. rewrite Hk; [done|]. right. by exists [].
  - intros l Hin r. rewrite Hlay. by apply Hold.
  - exists g. split; [done|]. intros r. by rewrite Hlay.
Qed.

Lemma moved_installed id g k :
  free_id root f id → wrote (staged_dir root f id) (staging_path root id) cs g → moved_all root g k [new_block root id] →
  installed id k ∧ tree k ∧ root_ok k root ∧ ∀ a, k !! (root ++ [a]) = f !! (root ++ [a]).
Proof using Hpre.
  intros Hid Hg Hmv. pose proof (pr_stack _ _ _ _ (pp_room _ _ _ _ _ Hpre)) as [Hsq Hroot _ _ _ _].
  pose proof (wrote_build_inv pid root f m changes Hpre id g Hid Hg) as Hinv.
  pose proof (ready_built f g root m _ Hsq Hinv) as Hrg. pose proof (block_inv_now f g root m _ Hsq Hinv) as Hbl.
  assert (∀ q, length q ≤ S (length root) → k !! q = f !! q) as Hshort.
  { intros q Hq. rewrite (moved_short root g [new_block root id] k q Hmv Hq). apply Hinv. by apply staged_short. }
  assert (root_ok k root) as Hrk by (by eapply root_ok_agree).
  split_and!; [|by eapply moved_tree|done|].
  - split; [apply Hrk..| |].
    + intros l Hl r. rewrite <-(layer_kept root g m [new_block root id] Hrg Hbl k Hmv l Hl r). symmetry. apply Hinv, staged_layer.
    + exists g. split; [done|]. destruct Hmv as [_ Hall]. by destruct (Hall (new_block root id)) as [? _]; [left|].
  - intros a. apply Hshort. rewrite length_app. simpl. lia.
Qed.

(** The root after the files beside the layers have changed. *)
Record side_ok (k : fs) : Prop := {
  so_root : plain_dir k root;
  so_tree : tree k;
  so_meta : k !! meta = None ∨ plain_dir k meta;
  so_manifest : dir_at k (manifest_path root) = false;
  so_manifest_tmp n : k !! (root ++ [tmp_name pid ACTIVE_MANIFEST_FILE n]) = None;
}.

Lemma moved_rest id g k a r :
  free_id root f id → wrote (staged_dir root f id) (staging_path root id) cs g → moved_all root g k [new_block root id] →
  a ≠ STAGING_DIR → a ≠ LAYERS_DIR → k !! (root ++ a :: r) = f !! (root ++ a :: r).
Proof using Hpre.
  intros Hid Hg [Hmv _] Ha1 Ha2. pose proof (wrote_build_inv pid root f m changes Hpre id g Hid Hg) as Hinv.
  assert (∀ b c, a ≠ b → ¬ under (root ++ [b; c]) (root ++ a :: r)) as Hne.
  { intros b c Hb [t Ht%below_Some]. rewrite <-(assoc_L (++)) in Ht. apply (inj (app root)) in Ht. by simplify_eq/=. }
  rewrite Hmv, (inv_out _ _ _ _ Hinv); [done|..].
  - intros (b & _ & Hu). by eapply Hne in Hu.
  - intros [(b & _ & Hu)|(b & _ & Hu)]; by eapply Hne in Hu.
Qed.

Lemma moved_side_ok id g k :
  free_id root f id → wrote (staged_dir root f id) (staging_path root id) cs g → moved_all root g k [new_block root id] →
  side_ok k ∧ (∀ name, dir_at k (meta ++ [name]) = false) ∧ ∀ name n, k !! (meta ++ [tmp_name pid name n]) = None.
Proof using Hpre.
  intros Hid Hg Hmv. destruct (moved_installed id g k Hid Hg Hmv) as ([Hr _ _ _] & Htree & _ & Hsame).
  destruct Hpre as [[[_ _ _ Hfile _ Htmp] Hmeta Hfiles Hmtmp] _ _].
  assert (∀ x, k !! (meta ++ [x]) = f !! (meta ++ [x])) as Hin.
  { intros x. rewrite <-(assoc_L (++)). by eapply moved_rest. }
  split_and!; [split|..].
  - done.
  - done.
  - rewrite Hsame. destruct Hmeta as [?|Hp]; [by left|]. right. apply plain_dir_snoc; [done| |done].
    apply plain_dir_at in Hp. unfold dir_at in *. by rewrite Hsame.
  - unfold dir_at, manifest_path in *. by rewrite Hsame.
  - intros n. by rewrite Hsame.
  - intros name. unfold dir_at. rewrite Hin. apply Hfiles.
  - intros name n. by rewrite Hin.
Qed.

(** Once the digest is written: a sidecar of another name does not exist yet. *)
Record digest_ok (id : bytes) (h : fs) : Prop := {
  do_side : side_ok h;
  do_meta : plain_dir h meta;
  do_bytes : dir_at h (meta ++ [id ++ lit ".bytes"]) = false;
  do_tmp n : h !! (meta ++ [tmp_name pid (id ++ lit ".bytes") n]) = None;
}.

Lemma last_suffix (x y : bytes) : y ≠ [] → last (x ++ y) = last y.
Proof using. intros Hy. rewrite last_app. by destruct (last y) eqn:Hl; [|apply last_None in Hl]. Qed.

Lemma digest_yields k id digest :
  side_ok k → (∀ name, dir_at k (meta ++ [name]) = false) → (∀ name n, k !! (meta ++ [tmp_name pid name n]) = None) →
  yields (λ h, h = k) (write_layer_digest pid root id digest)
    (λ _ h, outside (under meta) k h ∧ digest_ok id h).
Proof using.
  intros [Hr Ht Hm Hf Htmp] Hfiles Hmtmp. unfold write_layer_digest, layer_digest_path.
  change (root ++ [LAYER_METADATA_DIR; id ++ lit ".digest"]) with (root ++ [LAYER_METADATA_DIR] ++ [id ++ lit ".digest"]).
  rewrite (assoc_L (++)).
  assert (∀ x, last x ≠ last (lit "t") → x ≠ id ++ lit ".digest") as Hne.
  { intros x Hx ->. apply Hx. by rewrite last_suffix. }
  eapply hoare_conseq; [apply (sidecar_yields pid root k Hr Ht Hm); [by apply not_eq_sym, Hne|done|done]|done| |done].
  intros _ h (Hout & Hp & Hth).
  assert (outside (under meta) k h) as Hout'.
  { eapply outside_weaken; [|exact Hout]. intros q [->| ->]; [apply under_self|apply under_app]. }
  assert (∀ x, x ≠ id ++ lit ".digest" → h !! (meta ++ [x]) = k !! (meta ++ [x])) as Hsame.
  { intros x Hx. apply Hout. intros [Heq|Heq].
    - apply (f_equal length) in Heq. rewrite !length_app in Heq. simpl in Heq. lia.
    - apply app_inj_tail in Heq as [_ Heq]. done. }
  assert (∀ a, a ≠ LAYER_METADATA_DIR → h !! (root ++ [a]) = k !! (root ++ [a])) as Hrest.
  { intros a Ha. apply Hout'. by apply meta_apart. }
  split; [done|]. split; [split|..].
  - by eapply outside_meta_root.
  - done.
  - by right.
  - unfold dir_at, manifest_path in *. by rewrite Hrest.
  - intros n. by rewrite Hrest.
  - done.
  - unfold dir_at. rewrite Hsame by (apply Hne; by rewrite last_suffix). apply Hfiles.
  - intros n. rewrite Hsame; [done|]. apply Hne. unfold tmp_name. rewrite !(assoc_L (++)). by rewrite last_suffix.
Qed.

Lemma manifest_yields h m' :
  side_ok h →
  yields (λ k, k = h) (write_manifest pid (manifest_path root) m')
    (λ _ k, k = <[manifest_path root := NFile (encode_manifest m') 0x1a4 ∅]> h).
Proof using.
  intros [Hr Ht _ Hf Htmp] w r w' Hrun Hw. unfold write_manifest, manifest_path in *. destruct r as [[]|]; [|done].
  subst h. by apply write_atomic_cases in Hrun as [?|[? _]].
Qed.

Lemma bytes_any h id n data w w' :
  digest_ok id h → w_fs w = <[manifest_path root := NFile data 0x1a4 ∅]> h →
  (∃ r, write_layer_bytes pid root id n w = (r, w')) → outside (under meta) (w_fs w) (w_fs w').
Proof using.
  intros [[Hr Ht _ Hf _] Hm Hb Htmp] Hw [r Hrun]. unfold write_layer_bytes, layer_bytes_path in Hrun.
  change (root ++ [LAYER_METADATA_DIR; id ++ lit ".bytes"]) with (root ++ [LAYER_METADATA_DIR] ++ [id ++ lit ".bytes"]) in Hrun.
  rewrite (assoc_L (++)) in Hrun.
  assert (∀ q, q ≠ manifest_path root → w_fs w !! q = h !! q) as Hne by (intros q Hq; rewrite Hw; by apply lookup_insert_ne).
  assert (∀ x, meta ++ [x] ≠ manifest_path root) as Hmx.
  { intros x Heq. apply (f_equal length) in Heq. unfold manifest_path in Heq. rewrite !length_app in Heq. simpl in Heq. lia. }
  assert (meta ≠ manifest_path root) as Hmm by (unfold manifest_path; by intros ?%(inj (app root))).
  eapply sidecar_any in Hrun as [(Hout & _) _]; [done|..|reflexivity].
  - apply plain_dir_snoc; [| |done].
    + rewrite Hw. eapply plain_dir_outside; [|exact Hr]. by apply outside_insert; [apply under_self|].
    + apply plain_dir_at in Hm. unfold dir_at in *. by rewrite Hne.
  - rewrite Hw. apply tree_insert; [done|by apply plain_dir_at|by right].
  - intros Heq. apply (f_equal last) in Heq. by rewrite last_suffix in Heq.
  - unfold dir_at. rewrite Hne by done. exact Hb.
  - intros i. by rewrite Hne.
Qed.

(** What a successful publish ends in. *)
Definition outcome_ok (out : PublishLayerOutcome) (h : fs) : Prop :=
  if oc_created out then
    ∃ id, oc_manifest out = mkManifest (version m + 1) (new_ref id :: layers m) MANIFEST_SCHEMA_VERSION ∧
      free_id root f id ∧ installed id h ∧
      h !! manifest_path root = Some (NFile (encode_manifest (oc_manifest out)) 0x1a4 ∅)
  else oc_manifest out = m ∧ h = f.

(** The steps after the layer is in its place. *)
Lemma record_yields id g k digest :
  free_id root f id → wrote (staged_dir root f id) (staging_path root id) cs g → moved_all root g k [new_block root id] →
  yields (λ h, h = k)
    (do wrote_digest := attempt (write_layer_digest pid root id digest) in
     match wrote_digest with
     | Err err => run attempt (F := LayerStackError) (remove_path (layer_path root id)); fail err
     | Ok _ =>
         do latest := read_active_manifest_unlocked root in
         let undo :=
           run attempt (F := LayerStackError) (remove_path (layer_path root id));
           run attempt (F := LayerStackError) (remove_file (layer_digest_path root id));
           ret () in
         if decide (latest ≠ m) then
           run undo; fail (ManifestConflict (version m) (version latest))
         else
           do manifest := lift_err Cas (reads (λ _,
             manifest_new (version m + 1) (new_ref id :: layers m) (schema_version m))) in
           do wrote_manifest := attempt (write_manifest pid (manifest_path root) manifest) in
           match wrote_manifest with
           | Err err => run undo; fail err
           | Ok _ =>
               run attempt (F := LayerStackError)
                 (write_layer_bytes pid root id (published_layer_bytes changes));
               ret (mkOutcome manifest true)
           end
     end)%io outcome_ok.
Proof using Hpre.
  intros Hid Hg Hmv. destruct (moved_installed id g k Hid Hg Hmv) as (Hinst & _ & _ & _).
  destruct (moved_side_ok id g k Hid Hg Hmv) as (Hside & Hfiles & Htmp).
  eapply yields_attempt; [by apply digest_yields| |].
  2: { intros e w b w'. unfold bind, attempt. by destruct (remove_path _ w). }
  intros []. apply yields_pre. intros h [Hout Hdig].
  apply (yields_bind _ _ _ (λ _ h', h' = h)).
  { apply yields_pres. intros I. apply pres_reads. }
  intros latest. cbv zeta. case_decide as Hlat.
  { intros w r w' Hrun _. unfold bind, attempt in Hrun. destruct r; [|done].
    destruct (remove_path _ w) as [? w1]. by destruct (remove_file _ w1). }
  apply (yields_bind _ _ _ (λ m' h', h' = h ∧ m' = mkManifest (version m + 1) (new_ref id :: layers m) MANIFEST_SCHEMA_VERSION)).
  { intros w r w'. unfold lift_err, reads. intros [= <- <-] Hw. unfold manifest_new. case_decide as Hsch; [done|].
    cbn. split; [done|]. by rewrite Hsch. }
  intros m'. apply yields_pre. intros ? [-> Hm'].
  eapply yields_attempt; [apply manifest_yields, Hdig| |].
  2: { intros e w b w'. unfold bind, attempt. destruct (remove_path _ w) as [? w1]. by destruct (remove_file _ w1). }
  intros []. intros w r w' Hrun Hw. unfold bind, attempt in Hrun.
  destruct (write_layer_bytes _ _ _ _ w) as [rb wb] eqn:Hb. injection Hrun as <- <-.
  pose proof (bytes_any h id _ _ w wb Hdig Hw (ex_intro _ _ Hb)) as Hlast. exists id. cbn [oc_manifest]. split_and!; [done|done|..].
  - eapply installed_outside; [|exact Hinst]. eapply outside_trans; [|eapply outside_weaken; [|exact Hlast]; by left].
    rewrite Hw. apply outside_insert; [by right|]. eapply outside_weaken; [|exact Hout]. by left.
  - rewrite Hlast; [by rewrite Hw, lookup_insert_eq|]. by apply meta_apart.
Qed.

Lemma publish_yields sha256 failpoints :
  yields (λ h, h = f) (publish_layer_unlocked sha256 pid failpoints root m changes) outcome_ok.
Proof using Hpre.
  unfold publish_layer_unlocked.
  apply (yields_bind _ _ _ (λ _ h, h = f)).
  { apply yields_pres. intros I. auto with pres. }
  intros digest. apply (yields_bind _ _ _ (λ _ h, h = f)).
  { apply yields_pres. intros I. auto with pres. }
  intros head_digest. case_decide; [apply yields_ret; by intros ? ->|].
  eapply yields_bind; [apply yields_failpoint|]. intros [].
  eapply yields_bind; [by eapply allocate_free|]. intros dirs. apply yields_pre. intros ? (-> & id & -> & Hid).
  eapply yields_bind; [by eapply make_staging|]. intros [].
  eapply yields_bind; [by eapply stage_yields|]. intros []. apply yields_pre. intros g Hg.
  eapply yields_bind; [eapply promote_layer_yields; [done..|by eapply wrote_build_inv]|]. intros [].
  apply yields_pre. intros k Hk. by eapply record_yields.
Qed.

(** ** Reading the new stack *)

(** No change puts a link above the path. *)
Definition no_link_changes (q : path) : Prop := ∀ p t x s, SymlinkTo p t ∈ cs → q ≠ comps p ++ x :: s.

Lemma applied_staged id q old :
  free_id root f id → applied (staged_dir root f id) cs old q = applied f cs old q.
Proof using Hpre.
  intros Hid. unfold applied. destruct (head _) as [c|] eqn:Hc; [|done].
  apply head_Some_elem_of, list_elem_of_filter in Hc as [_ Hc]. destruct c; try done. cbn [change_node].
  pose proof (pp_changes _ _ _ _ _ Hpre) as Hok. rewrite Forall_forall in Hok. apply Hok in Hc as (_ & _ & data & mode & xs & _ & Hsrc).
  rewrite !Hsrc; [done|done|]. unfold staged_dir. apply outside_insert; [|done].
  exists (id ++ lit ".staging"), []. by rewrite staging_path_snoc.
Qed.

Section read.
Context (id : bytes) (h : fs).
Hypothesis Hid : free_id root f id.
Hypothesis Hin : installed id h.

Lemma installed_stack_good : good_stack h root (new_ref id :: layers m).
Proof using Hpre Hid Hin.
  destruct Hin as [_ Hl Hold (g & Hg & Hs)]. pose proof (staged_layer_ready pid root f m changes Hpre id Hid) as Hready.
  pose proof (pr_stack _ _ _ _ (pp_room _ _ _ _ _ Hpre)) as [[_ _ _ _ _ Hrefs Hnd Hpure] _ _ _ _ _]. rewrite Forall_forall in Hrefs.
  assert (∀ l, l ∈ layers m → dir_at f (layer_path root (layer_id l)) = true) as Hdirs.
  { rewrite Forall_forall in Hpure. intros l Hlm. by apply Hpure. }
  split; [done|..].
  - apply Forall_cons. split; [apply canonical_new_ref, Hid|]. by apply Forall_forall.
  - apply NoDup_cons. split; [|done]. intros Hnew%Hdirs. unfold dir_at in Hnew. cbn in Hnew. by rewrite (fi_layer _ _ _ Hid) in Hnew.
  - apply Forall_cons. split.
    + split_and!.
      * unfold dir_at. specialize (Hs []). rewrite !app_nil_r in Hs. cbn [new_ref layer_id]. rewrite <-Hs.
        apply plain_dir_at. eapply wrote_plain; [done|apply Hready].
      * eapply layer_pure_same; [exact Hs|]. by eapply wrote_pure.
      * unfold opaque, present. cbn [new_ref layer_id]. rewrite <-Hs. by eapply (wrote_not_opaque _ _ _ _ Hready).
    + rewrite Forall_forall in Hpure. apply Forall_forall. intros l Hlm. eapply good_layer_agree; [by apply Hold|by apply Hpure].
Qed.

Lemma installed_shows q :
  q ≠ [] → Forall ordinary q →
  strip <$> overlay h (layer_dirs root (new_ref id :: layers m)) q =
  strip <$> applied f cs (overlay f (layer_dirs root (layers m)) q) q.
Proof using Hpre Hid Hin.
  intros Hq Hord. destruct Hin as [_ Hl Hold (g & Hg & Hs)].
  pose proof (staged_layer_ready pid root f m changes Hpre id Hid) as Hready.
  pose proof (wrote_build_inv pid root f m changes Hpre id g Hid Hg) as Hinv.
  assert (∀ l, agree f (staged_dir root f id) (layer_path root (layer_id l))) as Ha1.
  { intros l r. unfold staged_dir. rewrite lookup_insert_ne; [done|]. unfold staging_path, layer_path.
    rewrite <-(assoc_L (++)). by intros ?%(inj (app root)). }
  assert (∀ l, agree f g (layer_path root (layer_id l))) as Ha2 by (intros l; by eapply layer_same, Hinv).
  rewrite <-(applied_staged id) by done.
  rewrite (overlay_agree f (staged_dir root f id)) by (apply Forall_fmap, Forall_forall; intros l _; apply Ha1).
  rewrite <-(wrote_shows _ _ _ _ Hready Hg) by (done || (apply Forall_fmap, Forall_forall; intros l _ r; rewrite <-(Ha1 l r); apply Ha2)).
  change (layer_dirs root (new_ref id :: layers m)) with (layer_path root id :: layer_dirs root (layers m)).
  symmetry. eapply veq_cons; [exact Hs| |done|done]. apply veq_same. intros p (l & -> & Hlm)%list_elem_of_fmap r.
  rewrite <-(Ha2 l r). by apply Hold.
Qed.

Lemma installed_links q :
  Forall ordinary q → no_links_above f root (layers m) q → no_link_changes q → no_links_above h root (new_ref id :: layers m) q.
Proof using Hpre Hid Hin.
  intros Hord Hnl Hnc. destruct Hin as [_ Hl Hold (g & Hg & Hs)]. apply Forall_cons. split.
  - intros k t Hk Hn. cbn [new_ref layer_id] in Hn. rewrite <-Hs in Hn.
    assert (take k q ≠ [] ∧ ∃ x s, q = take k q ++ x :: s) as (Hne & x & s & Hq).
    { destruct (drop k q) as [|x s] eqn:Hd; [apply (f_equal length) in Hd; rewrite length_drop in Hd; simpl in Hd; lia|].
      split; [|exists x, s; by rewrite <-Hd, take_drop]. intros Ht%(f_equal length). rewrite length_take in Ht. simpl in Ht. lia. }
    apply (wrote_found _ _ _ _ _ _ Hg) in Hn; [|done]. destruct Hn as [c Hc Hp Hsh|? ? ? ? ? ? [=]|? ? ? Hp ?]; [|].
    + destruct c; simpl in Hsh; [done|by destruct Hsh as (? & ? & ? & _ & [=])|done| |done|by destruct Hsh as [? [=]]].
      apply (Hnc p source_path x s Hc). unfold cpath in Hp. cbn [change_path] in Hp. by rewrite Hp.
    + done.
  - unfold no_links_above, layer_dirs in Hnl. rewrite Forall_fmap, Forall_forall in Hnl.
    apply Forall_fmap, Forall_forall. intros l Hlm k t Hk. simpl. rewrite <-(Hold l Hlm). by apply (Hnl l Hlm k t Hk).
Qed.

Lemma installed_read out p rel max_bytes :
  oc_manifest out = mkManifest (version m + 1) (new_ref id :: layers m) MANIFEST_SCHEMA_VERSION →
  parse p = Ok rel → Forall ordinary (comps rel) → no_links_above f root (layers m) (comps rel) → no_link_changes (comps rel) →
  let shown := applied f cs (overlay f (layer_dirs root (layers m)) (comps rel)) (comps rel) in
  read_entry_limited h root p (oc_manifest out) max_bytes = entry_result max_bytes shown ∧
  view_read_classified h root p (oc_manifest out) max_bytes = classify_result max_bytes shown.
Proof using Hpre Hid Hin.
  intros Hm Hp Hord Hnl Hnc shown. apply parse_comps in Hp as Hc. destruct Hc as (Hne & Hok & Hstr).
  pose proof (good_stack_ok _ _ _ installed_stack_good) as Hst. pose proof (installed_links _ Hord Hnl Hnc) as Hnl'.
  pose proof (installed_shows _ Hne Hord) as Hsh. fold shown in Hsh.
  unfold read_entry_limited, view_read_classified. rewrite Hp. cbn [map_err result_bind]. rewrite Hstr, Hm. cbn [layers]. split.
  - rewrite (read_entry_loop_overlay _ _ _ (layer_dirs root (new_ref id :: layers m))) by done.
    by rewrite <-entry_result_strip, Hsh, entry_result_strip.
  - rewrite (read_classified_loop_overlay _ _ _ (layer_dirs root (new_ref id :: layers m))) by done.
    by rewrite <-classify_result_strip, Hsh, classify_result_strip.
Qed.

Lemma installed_manifest m' :
  m' = mkManifest (version m + 1) (new_ref id :: layers m) MANIFEST_SCHEMA_VERSION →
  h !! manifest_path root = Some (NFile (encode_manifest m') 0x1a4 ∅) → read_manifest h (manifest_path root) = Ok m'.
Proof using Hpre Hid Hin.
  intros Hm Hn. eapply read_manifest_written; [apply Hin|done| |exact Hn]. rewrite Hm. split; [done|].
  apply validate_canonicals. apply installed_stack_good.
Qed.
End read.
End finish.

(** A publish, as a whole. *)
Lemma publish_reads `{ManifestCodec} sha256 pid failpoints root m changes w out w' :
  publish_pre pid root (w_fs w) m changes →
  publish_layer_unlocked sha256 pid failpoints root m changes w = (Ok out, w') →
  read_manifest (w_fs w') (manifest_path root) = Ok (oc_manifest out) ∧
  if oc_created out then
    version (oc_manifest out) = (version m + 1)%Z ∧ tail (layers (oc_manifest out)) = layers m ∧
    ∀ p rel max_bytes,
      parse p = Ok rel → Forall ordinary (comps rel) →
      no_links_above (w_fs w) root (layers m) (comps rel) → no_link_changes changes (comps rel) →
      let shown := applied (w_fs w) (aggregate_layer_changes changes)
                     (overlay (w_fs w) (layer_dirs root (layers m)) (comps rel)) (comps rel) in
      read_entry_limited (w_fs w') root p (oc_manifest out) max_bytes = entry_result max_bytes shown ∧
      view_read_classified (w_fs w') root p (oc_manifest out) max_bytes = classify_result max_bytes shown
  else oc_manifest out = m ∧ w_fs w' = w_fs w.
Proof.
  intros Hpre Hrun. pose proof (publish_yields pid root (w_fs w) m changes Hpre sha256 failpoints w _ w' Hrun eq_refl) as Hout.
  unfold outcome_ok in Hout. destruct (oc_created out) eqn:Hc.
  - destruct Hout as (id & Hm & Hid & Hin & Hn). split; [by eapply installed_manifest|].
    split_and!; [by rewrite Hm..|]. intros p rel max_bytes. by eapply installed_read.
  - destruct Hout as [-> ->]. split; [|done]. apply Hpre.
Qed.

(** ** Concrete changes *)

Definition coherent_check (cs : list LayerChange) : bool :=
  forallb (λ c, negb (is_leaf c) || forallb (λ c', match below (cpath c) (cpath c') with Some (_ :: _) => false | _ => true end) cs) cs.

Lemma coherent_check_spec cs : coherent_check cs = true → coherent cs.
Proof.
  unfold coherent_check. rewrite forallb_forall. intros Hc c c' x s H1%list_elem_of_In H2%list_elem_of_In Hl Hp.
  apply Hc in H1. rewrite Hl in H1. cbn [negb orb] in H1. rewrite forallb_forall in H1. apply H1 in H2.
  by rewrite Hp, below_app in H2.
Qed.

Definition path_check (c : LayerChange) : bool :=
  bool_decide (parse (as_str (change_path c)) = Ok (change_path c)) && forallb ordinary_check (cpath c).

Lemma path_check_spec c : path_check c = true → Forall comp_ok (cpath c) ∧ Forall ordinary (cpath c).
Proof.
  unfold path_check. rewrite andb_true_iff, bool_decide_eq_true, forallb_forall. intros [Hp Ho].
  apply parse_comps in Hp as (_ & Hp & _). split; [done|]. apply Forall_forall. intros x Hx%list_elem_of_In.
  by apply ordinary_check_spec, Ho.
Qed.

(** A file reached without links, outside the directory. *)
Lemma spooled_plain f d e x data mode xs :
  plain_dir f e → x ≠ dotdot → f !! (e ++ [x]) = Some (NFile data mode xs) → ¬ strictly d (e ++ [x]) →
  spooled f d (e ++ [x]) (Z.of_nat (length data)).
Proof.
  intros He Hx Hn Hd. exists data, mode, xs. split; [done|]. intros g Hg.
  assert (∀ q r, q ++ r = e ++ [x] → g !! q = f !! q) as Hq.
  { intros q r Hq. apply Hg. intros (c & s & ->). apply Hd. exists c, (s ++ r). by rewrite <-Hq, <-(assoc_L (++)). }
  assert (plain_dir g e) as He'.
  { destruct He as [Hdd Hdir]. split; [done|]. intros k Hk. unfold dir_at. rewrite (Hq _ (drop k e ++ [x])); [by apply Hdir|].
    by rewrite (assoc_L (++)), take_drop. }
  assert (g !! (e ++ [x]) = Some (NFile data mode xs)) as Hn' by (rewrite (Hq _ []); [done|by rewrite app_nil_r]).
  rewrite metadata_child; [unfold node_at; by rewrite Hn'|done|done|]. intros t. by rewrite Hn'.
Qed.

(** A spool file beside the storage root of [squash_fs]. *)
Definition publish_fs : fs :=
  <[[lit "sp"; lit "f"] := NFile (lit "spooled") 0x1ed ∅]> (<[[lit "sp"] := NDir 0x1ed ∅]> squash_fs).
Definition publish_changes : list LayerChange :=
  [Write (mkLayerPath (lit "a/z")) (lit "hello"); Delete (mkLayerPath (lit "a/y"));
   WriteFile (mkLayerPath (lit "run")) [lit "sp"; lit "f"] 7; OpaqueDir (mkLayerPath (lit "d"));
   Write (mkLayerPath (lit "d/k")) []].
Definition publish_run : result PublishLayerOutcome LayerStackError * world :=
  publish_layer_unlocked (H := number_codec) (λ x, x) 1 false lease_root squash_manifest publish_changes (mkWorld publish_fs 0 []).

Lemma publish_run_pre : publish_pre (H := number_codec) 1 lease_root publish_fs squash_manifest publish_changes.
Proof.
  assert (squash_pre (H := number_codec) 1 lease_root publish_fs squash_manifest) as Hsq.
  { apply squash_check_pre; vm_compute; reflexivity. }
  assert (publish_fs !! (lease_root ++ [LAYER_METADATA_DIR]) = None) as Hm by (vm_compute; reflexivity).
  assert (∀ r, r ≠ [] → publish_fs !! ((lease_root ++ [LAYER_METADATA_DIR]) ++ r) = None) as Hnone.
  { intros r Hr. apply tree_below; [apply Hsq| |done]. unfold dir_at. by rewrite Hm. }
  split.
  - split; [done|by left|..]; [intros name; unfold dir_at; by rewrite Hnone|intros name n; by apply Hnone].
  - apply coherent_check_spec. vm_compute. reflexivity.
  - assert (forallb path_check (aggregate_layer_changes publish_changes) = true) as Hp by (vm_compute; reflexivity).
    rewrite forallb_forall in Hp. apply Forall_forall. intros c Hc. destruct (path_check_spec c) as [H1 H2]; [by apply Hp, list_elem_of_In|].
    split_and!; [done..|].
    assert (aggregate_layer_changes publish_changes = [
      Delete (mkLayerPath (lit "a/y")); Write (mkLayerPath (lit "a/z")) (lit "hello"); OpaqueDir (mkLayerPath (lit "d"));
      Write (mkLayerPath (lit "d/k")) []; WriteFile (mkLayerPath (lit "run")) [lit "sp"; lit "f"] 7]) as Hag by (vm_compute; reflexivity).
    rewrite Hag in Hc. repeat (apply elem_of_cons in Hc as [->|Hc]; [done || idtac|]); [|by apply elem_of_nil in Hc].
    apply (spooled_plain publish_fs _ [lit "sp"] (lit "f") (lit "spooled") 0x1ed ∅).
    + apply plain_check_dir. vm_compute. reflexivity.
    + done.
    + vm_compute. reflexivity.
    + intros (x & r & Heq). done.
Qed.

(** The paths that can be read there. *)
Definition link_check (f : fs) (d q : path) : bool :=
  forallb (λ k, match f !! (d ++ take k q) with Some (NSymlink _) => false | _ => true end) (seq 0 (length q)).
Definition read_check (f : fs) (q : path) : bool :=
  forallb ordinary_check q && forallb (λ l, link_check f (layer_path lease_root (layer_id l)) q) (layers squash_manifest).

Lemma link_check_spec f d q : link_check f d q = true → no_link_above f d q.
Proof.
  unfold link_check. rewrite forallb_forall. intros Hall k t Hk Hn.
  specialize (Hall k). rewrite Hn in Hall. assert (false = true); [|done]. apply Hall, in_seq. lia.
Qed.

Lemma read_check_spec f q :
  read_check f q = true → Forall ordinary q ∧ no_links_above f lease_root (layers squash_manifest) q.
Proof.
  unfold read_check. rewrite andb_true_iff, !forallb_forall. intros [Ho Hl]. split.
  - apply Forall_forall. intros x Hx%list_elem_of_In. by apply ordinary_check_spec, Ho.
  - apply Forall_fmap, Forall_forall. intros l Hin%list_elem_of_In. by apply link_check_spec, Hl.
Qed.

Lemma publish_links q : no_link_changes publish_changes q.
Proof.
  assert (forallb (λ c, match c with SymlinkTo _ _ => false | _ => true end) (aggregate_layer_changes publish_changes) = true) as Hc
    by (vm_compute; reflexivity).
  rewrite forallb_forall in Hc. intros p t x s Hin%list_elem_of_In. by apply Hc in Hin.
Qed.

(** ** Properties *)



(** A layer written from coherent changes shows exactly the changes.  When
    no call fails, writing them into an empty directory succeeds, and on top of
    any stack of other directories every path shows what the reference
    definition [applied] gives. *)
Theorem layer_shows_changes f d changes w :
  layer_ready f d (aggregate_layer_changes changes) → w_fs w = f → w_faults w = [] →
  ∃ w', write_layer_changes d changes w = (Ok (), w') ∧ layer_pure (w_fs w') d ∧
    ∀ dirs q, q ≠ [] → Forall ordinary q → (∀ e r, e ∈ dirs → ¬ strictly d (e ++ r)) →
      strip <$> overlay (w_fs w') (d :: dirs) q =
      strip <$> applied f (aggregate_layer_changes changes) (overlay f dirs q) q.
Proof.
  intros Hready Hw Hf. pose proof (write_layer_changes_wrote f d changes Hready w Hw) as Hdoes.
  destruct (write_layer_changes d changes w) as [[[]|e] w']; [|done]. destruct Hdoes as [Hwr _].
  exists w'. split_and!; [done|by eapply wrote_pure|]. intros dirs q Hq Hord Hd. apply wrote_shows; [done..|].
  apply Forall_forall. intros e He r. symmetry. by apply (wr_out _ _ _ _ Hwr), Hd.
Qed.

Definition written_fs : fs :=
  {[ [] := NDir 0 ∅; [lit "o"] := NDir 0 ∅; [lit "l"] := NDir 0 ∅; [lit "l"; lit "a"] := NDir 0x1c0 ∅;
     [lit "l"; lit "a"; lit "x"] := NFile (lit "old") 0 ∅; [lit "l"; lit "b"] := NFile (lit "base") 0 ∅ ]}.
Definition written_changes : list LayerChange :=
  [Write (mkLayerPath (lit "a/z")) (lit "new"); SymlinkTo (mkLayerPath (lit "b")) (lit "a")].

Lemma written_ready : layer_ready written_fs [lit "o"] (aggregate_layer_changes written_changes).
Proof.
  split.
  - apply plain_check_dir. vm_compute. reflexivity.
  - assert (written_fs !! [lit "o"] = Some (NDir 0 ∅)) as -> by (vm_compute; reflexivity). simpl. set_solver.
  - intros x r. apply eq_None_not_Some. intros [n Hn]. apply elem_of_map_to_list in Hn.
    assert (forallb (λ qn, match qn.1 with o :: _ :: _ => negb (bool_decide (o = lit "o")) | _ => true end) (map_to_list written_fs) = true) as Hall
      by (vm_compute; reflexivity).
    rewrite forallb_forall in Hall. apply list_elem_of_In, Hall in Hn. done.
  - apply coherent_check_spec. vm_compute. reflexivity.
  - assert (forallb (λ c, path_check c && match c with WriteFile _ _ _ => false | _ => true end) (aggregate_layer_changes written_changes) = true) as Hp
      by (vm_compute; reflexivity).
    rewrite forallb_forall in Hp. apply Forall_forall. intros c Hc%list_elem_of_In. apply Hp, andb_true_iff in Hc as [[H1 H2]%path_check_spec Hk].
    split_and!; [done..|by destruct c].
Qed.

Lemma layer_shows_changes_witness :
  ∃ w', write_layer_changes [lit "o"] written_changes (mkWorld written_fs 0 []) = (Ok (), w') ∧
    strip <$> overlay (w_fs w') [[lit "o"]; [lit "l"]] [lit "a"; lit "x"] = Some (NFile (lit "old") 0 ∅) ∧
    strip <$> overlay (w_fs w') [[lit "o"]; [lit "l"]] [lit "b"] = Some (NSymlink (lit "a")).
Proof.
  destruct (layer_shows_changes written_fs [lit "o"] written_changes (mkWorld written_fs 0 []) written_ready eq_refl eq_refl)
    as (w' & Hw & _ & Hq).
  exists w'. assert (∀ e r, e ∈ [[lit "l"]] → ¬ strictly [lit "o"] (e ++ r)) as Hd.
  { intros e r ->%list_elem_of_singleton (c & s & Heq). done. }
  split_and!; [done|rewrite (Hq [[lit "l"]]); [vm_compute; reflexivity|done|repeat constructor; done|done]..].
Defined.
