(* ===== verification/LateFault.v ===== *)
(** * A call that fails after the manifest is in place

    A publish and a squash write the new manifest with an atomic write, whose last
    step is a sync of the directory after the rename.  When that sync fails, the
    code takes the manifest for unwritten and removes the layers that it names.
    The theorems hold for every publish and every squash that would succeed: there
    is a script of faults in which only that call fails.  To find its position,
    code is shown to behave under a script that begins with calls that succeed as
    it does without faults ([padded]). *)

From S2P Require Import Prelude ByteStr Model FS Storage View Descend World StorageOps.
From S2P Require Import Flatten Does FlattenRead FlattenSpec Lease Publish Stack.
From S2P Require Import Squash SquashSpec SquashCommit LayerWrite PublishRead.

(** ** Scripts that begin with calls that succeed *)

Definition with_faults (w : world) (xs : list (option nat)) : world := mkWorld (w_fs w) (w_unique w) xs.

(** Without faults [c] takes some number of entries of a script. *)
Definition padded {E A : Type} (c : io E A) : Prop :=
  ∀ w, w_faults w = [] →
    w_faults (c w).2 = [] ∧ ∃ n, ∀ xs, c (with_faults w (replicate n None ++ xs)) = ((c w).1, with_faults (c w).2 xs).

Create HintDb padded.

Section padded.
Context {E : Type}.

Lemma padded_still {A} (c : io E A) : (∀ w, (c w).2 = w) → (∀ w xs, c (with_faults w xs) = ((c w).1, with_faults w xs)) → padded c.
Proof. intros Hw Hc w Hf. rewrite Hw. split; [done|]. exists 0. intros xs. apply Hc. Qed.

Lemma padded_ret {A} (a : A) : padded (ret (E := E) a).
Proof. by apply padded_still. Qed.
Lemma padded_fail {A} (e : E) : padded (fail (A := A) e).
Proof. by apply padded_still. Qed.
Lemma padded_reads {A} (g : fs → result A E) : padded (reads g).
Proof. by apply padded_still. Qed.

Lemma padded_bind {A B} (c : io E A) (k : A → io E B) : padded c → (∀ a, padded (k a)) → padded (bind c k).
Proof.
  intros Hc Hk w Hf. destruct (Hc w Hf) as [Hf1 [n1 H1]]. unfold bind. destruct (c w) as [[a|e] w1]; cbn [fst snd] in *.
  - destruct (Hk a w1 Hf1) as [Hf2 [n2 H2]]. split; [done|]. exists (n1 + n2). intros xs.
    rewrite replicate_add, <-(assoc_L (++)), H1. apply H2.
  - split; [done|]. exists n1. intros xs. by rewrite H1.
Qed.

Lemma padded_fault : padded (fault (E := E)).
Proof.
  intros [f u xs] Hf. cbn in Hf. subst xs. split; [done|]. exists 1. intros xs. done.
Qed.

Lemma padded_set_fs f : padded (set_fs (E := E) f).
Proof. intros w Hf. split; [done|]. exists 0. intros xs. done. Qed.

Lemma padded_next : padded (next_unique (E := E)).
Proof. intros w Hf. split; [done|]. exists 0. intros xs. done. Qed.

Lemma padded_lift_err {A F} (g : E → F) (c : io E A) : padded c → padded (lift_err g c).
Proof.
  intros Hc w Hf. destruct (Hc w Hf) as [Hf1 [n H1]]. unfold lift_err. destruct (c w) as [r w1]. cbn [fst snd] in *.
  split; [done|]. exists n. intros xs. by rewrite H1.
Qed.

Lemma padded_attempt {A F} (c : io E A) : padded c → padded (attempt (F := F) c).
Proof.
  intros Hc w Hf. destruct (Hc w Hf) as [Hf1 [n H1]]. unfold attempt. destruct (c w) as [r w1]. cbn [fst snd] in *.
  split; [done|]. exists n. intros xs. by rewrite H1.
Qed.

(** Code whose shape depends on the file system. *)
Lemma padded_fs {A} (c : fs → io E A) : (∀ f, padded (c f)) → padded (λ w, c (w_fs w) w).
Proof. intros Hc w Hf. exact (Hc (w_fs w) w Hf). Qed.
End padded.

#[export] Hint Resolve padded_ret padded_fail padded_reads padded_fault padded_set_fs padded_next padded_lift_err padded_attempt : padded.

Ltac padded :=
  repeat first
    [ progress (eauto with padded nocore)
    | apply padded_bind; [|intros ?]
    | match goal with |- padded (match ?x with _ => _ end) => destruct x end
    | match goal with |- padded (let _ := _ in _) => cbv zeta end
    | apply padded_attempt | apply padded_lift_err ].

Lemma padded_syscall {A : Type} (g : fs → result (A * fs) errno) : padded (syscall g).
Proof. unfold syscall. padded. Qed.
#[export] Hint Resolve padded_syscall : padded.

(** ** The calls of a publish *)

Lemma padded_write_all q data : padded (write_all q data).
Proof. unfold write_all. padded. Qed.
Lemma padded_remove_dir_all p : padded (remove_dir_all p).
Proof. unfold remove_dir_all. padded. Qed.
Lemma padded_create_from fuel : ∀ p, padded (create_dir_all_from fuel p).
Proof. induction fuel as [|fuel IH]; intros p; cbn [create_dir_all_from]; unfold sys_mkdir; padded. Qed.
Lemma padded_create_dir_all p : padded (create_dir_all p).
Proof. apply padded_create_from. Qed.
#[export] Hint Resolve padded_write_all padded_remove_dir_all padded_create_dir_all : padded.

Lemma padded_write p data : padded (fs_write p data).
Proof. unfold fs_write, file_create. padded. Qed.
Lemma padded_copy src dst : padded (fs_copy src dst).
Proof. unfold fs_copy, file_create. padded. Qed.
Lemma padded_open_sync p : padded (open_sync p).
Proof. unfold open_sync, sync. padded. Qed.
Lemma padded_remove_path p : padded (remove_path p).
Proof. unfold remove_path, remove_file. padded. Qed.
Lemma padded_fsync_dir p : padded (fsync_dir p).
Proof. apply padded_lift_err, padded_open_sync. Qed.
#[export] Hint Resolve padded_write padded_copy padded_open_sync padded_remove_path padded_fsync_dir : padded.

Lemma padded_fsync_tree fuel : ∀ p, padded (fsync_tree_from fuel p).
Proof.
  induction fuel as [|fuel IH]; intros p; cbn [fsync_tree_from]; [padded|]. apply padded_bind; [padded|]. intros ns.
  induction ns as [|name ns IHn]; cbn [foldr]; padded.
Qed.
Lemma padded_fsync_tree_files p : padded (fsync_tree_files p).
Proof. apply (padded_fs (λ f, fsync_tree_from (S (size f)) p)). intros f. apply padded_fsync_tree. Qed.
Lemma padded_kernel_whiteout p : padded (write_kernel_whiteout p).
Proof. unfold write_kernel_whiteout, fs_mknod, fs_setxattr, remove_file. padded. Qed.
Lemma padded_opaque_marker p : padded (write_opaque_dir_marker p).
Proof. unfold write_opaque_dir_marker, fs_lsetxattr. pose proof padded_kernel_whiteout. padded. Qed.
#[export] Hint Resolve padded_fsync_tree_files padded_kernel_whiteout padded_opaque_marker : padded.

Lemma padded_write_changes d cs : padded (write_changes d cs).
Proof.
  induction cs as [|c cs IH]; cbn [write_changes]; [padded|]. apply padded_bind; [|done].
  destruct c; cbn [write_layer_change]; unfold prepare_layer_target, fs_symlink; padded.
Qed.
Lemma padded_allocate root prefix v : padded (allocate_layer_dirs root prefix v).
Proof.
  unfold allocate_layer_dirs. do 2 (apply padded_bind; [padded|intros _]). generalize 100. intros n.
  induction n as [|n IH]; cbn [allocate_loop]; padded.
Qed.
Lemma padded_stage d cs : padded (stage_layer d cs).
Proof. unfold stage_layer, write_layer_changes. pose proof (padded_write_changes d). padded. Qed.
Lemma padded_promote s d : padded (promote_layer s d).
Proof. unfold promote_layer, fs_rename. padded. Qed.
Lemma padded_failpoint fp root : padded (take_publish_failpoint_marker fp root).
Proof. unfold take_publish_failpoint_marker, remove_file. padded. Qed.
Lemma padded_write_bytes p data : padded (write_bytes_fsynced p data).
Proof. unfold write_bytes_fsynced, file_create, sync. padded. Qed.
#[export] Hint Resolve padded_write_changes padded_allocate padded_stage padded_promote padded_failpoint padded_write_bytes : padded.
Lemma padded_atomic pid p data : padded (write_atomic pid p data).
Proof. unfold write_atomic, fs_rename, remove_file. padded. Qed.
#[export] Hint Resolve padded_atomic : padded.

(** ** A script with one fault *)

(** Some script in which one call fails makes [c] end in an error and in [R]. *)
Definition late {A : Type} (c : io LayerStackError A) (w : world) (R : fs → Prop) : Prop :=
  ∃ n w', c (with_faults w (replicate n None ++ [Some 0])) = (Err (Io EIO), w') ∧ R (w_fs w').

Lemma late_bind {A B} (c : io LayerStackError A) (k : A → io LayerStackError B) w a w1 R :
  padded c → w_faults w = [] → c w = (Ok a, w1) → late (k a) w1 R → late (bind c k) w R.
Proof.
  intros Hc Hf Hrun (n2 & w' & Hk & HR). destruct (Hc w Hf) as [_ [n1 H1]]. rewrite Hrun in H1. exists (n1 + n2), w'. split; [|done].
  rewrite replicate_add, <-(assoc_L (++)), (bind_run _ _ _ _ _ (H1 _)). exact Hk.
Qed.

Lemma padded_done {E A} (c : io E A) w a w1 : padded c → w_faults w = [] → c w = (Ok a, w1) → w_faults w1 = [].
Proof. intros Hc Hf Hrun. destruct (Hc w Hf) as [Hf1 _]. by rewrite Hrun in Hf1. Qed.

Lemma padded_run {E A} (c : io E A) w r w1 :
  padded c → w_faults w = [] → c w = (r, w1) → w_faults w1 = [] ∧ ∃ n, ∀ xs, c (with_faults w (replicate n None ++ xs)) = (r, with_faults w1 xs).
Proof. intros Hc Hf Hrun. specialize (Hc w Hf). by rewrite Hrun in Hc. Qed.

Lemma fsync_dir_late d w w1 :
  fsync_dir d w = (Ok (), w1) → w_fs w1 = w_fs w ∧ fsync_dir d (with_faults w [Some 0]) = (Err (Io EIO), with_faults w []).
Proof.
  unfold fsync_dir, open_sync, lift_err, bind, reads. cbn [w_fs with_faults]. destruct (metadata (w_fs w) d); [|done]. intros Hs. split; [|done].
  destruct w as [f u xs]. unfold sync, syscall, bind, fault, reads in Hs. cbn in Hs. destruct xs as [|[] xs]; by simplify_eq/=.
Qed.

(** The last sync of an atomic write fails: the file is there all the same. *)
Lemma write_atomic_late pid d name data w w1 :
  plain_dir (w_fs w) d → tree (w_fs w) → name ≠ dotdot → dir_at (w_fs w) (d ++ [name]) = false →
  w_fs w !! (d ++ [tmp_name pid name (w_unique w)]) = None → w_faults w = [] →
  write_atomic pid (d ++ [name]) data w = (Ok (), w1) →
  ∃ n w', write_atomic pid (d ++ [name]) data (with_faults w (replicate n None ++ [Some 0])) = (Err (Io EIO), w') ∧
    w_faults w' = [] ∧ w_fs w' = w_fs w1.
Proof.
  intros Hd Htree Hname Hfile Htmp Hf Hrun. pose proof Hrun as Hc. apply write_atomic_cases in Hc as [Hc|[? _]]; [|done..].
  destruct (create_dir_all_plain d w Hd) as (wa & Ha & Hwa & Hua & _). rewrite (write_atomic_dir _ _ _ _ _ _ Ha) in Hrun.
  destruct (padded_run _ _ _ _ (padded_create_dir_all d) Hf Ha) as [Hfa [n0 H0]].
  apply bind_Ok in Hrun as (u & wb & [= <- <-] & Hrun). cbv zeta in Hrun. rewrite Hua in Hrun.
  pose proof (tmp_name_ne pid name (w_unique w)) as Hne. set (tmp := tmp_name pid name (w_unique w)) in *.
  set (wb := mkWorld (w_fs wa) _ _) in Hrun. apply bind_Ok in Hrun as (r & wc & Hin & Hrun). unfold attempt in Hin.
  destruct (bind _ _ wb) as [r0 wc0] eqn:Hinner. injection Hin as -> ->.
  destruct r as [[]|e]; [|unfold bind, attempt in Hrun; by destruct (remove_file _ wc)]. injection Hrun as ->.
  apply bind_Ok in Hinner as ([] & w2 & H2 & Hinner). apply bind_Ok in Hinner as ([] & w3 & H3 & H4).
  destruct (padded_run _ _ _ _ (padded_write_bytes _ _) (Hfa : w_faults wb = []) H2) as [Hf2 [n2 R2]].
  destruct (padded_run _ _ _ _ (padded_lift_err _ _ (padded_syscall _)) Hf2 H3) as [Hf3 [n3 R3]].
  destruct (fsync_dir_late d w3 w1 H4) as [Hw3 R4]. rewrite Hc in Hw3.
  assert (remove_file (d ++ [tmp]) (with_faults w3 []) = (Err ENOENT, with_faults w3 [])) as Hrm.
  { assert (plain_dir (w_fs w3) d) as Hd3 by (rewrite <-Hw3; unfold replaced; eapply plain_dir_outside; [|exact Hd]; by apply outside_insert; [apply under_self|]).
    unfold remove_file, syscall, bind, fault, reads. cbn [w_faults w_fs with_faults]. rewrite resolve_child by (done || apply Hne).
    cbn [result_bind]. rewrite <-Hw3. unfold replaced. rewrite lookup_insert_ne, Htmp; [done|]. intros [_ Heq]%app_inj_tail. by destruct Hne. }
  exists (n0 + (n2 + n3)), (with_faults w3 []). split_and!; [|done|change (w_fs w3 = w_fs w1); congruence].
  rewrite replicate_add, <-(assoc_L (++)), (write_atomic_dir _ _ _ _ _ _ (H0 _)).
  unfold bind at 1, next_unique. cbn [w_fs w_unique w_faults with_faults]. rewrite Hua. cbv zeta. fold tmp.
  change (mkWorld (w_fs wa) _ ?xs) with (with_faults wb xs).
  unfold bind at 1, attempt at 1. rewrite replicate_add, <-(assoc_L (++)), (bind_run _ _ _ _ _ (R2 _)), (bind_run _ _ _ _ _ (R3 _)), R4.
  unfold bind, attempt. by rewrite Hrm.
Qed.

(** ** A layer that is gone *)

Lemma remove_path_runs w d c :
  plain_dir (w_fs w) d → c ≠ dotdot → dir_at (w_fs w) (d ++ [c]) = true → w_faults w = [] →
  remove_path (d ++ [c]) w = (Ok (), mkWorld (without (w_fs w) (d ++ [c])) (w_unique w) []).
Proof.
  intros Hd Hc Hdir Hf. unfold dir_at in Hdir. destruct (w_fs w !! (d ++ [c])) as [[| |m xs| |]|] eqn:Hn; try done.
  unfold remove_path, bind, attempt, reads, symlink_metadata. rewrite resolve_child by done. cbn [result_bind]. unfold node_at. rewrite Hn.
  cbn [n_is_symlink n_is_file n_is_dir orb]. unfold lift_err, remove_dir_all, bind, fault, reads, set_fs. rewrite Hf, resolve_child by done.
  rewrite Hn. by rewrite Hf.
Qed.

Lemma gone_layer_missing h root l m ls p rel max_bytes :
  plain_dir h (root ++ [LAYERS_DIR]) → canonical_ref l → h !! layer_path root (layer_id l) = None → layers m = l :: ls →
  is_dir h (resolve_layer_path root (lr_path l)) = false ∧
  (parse p = Ok rel → read_entry_limited h root p m max_bytes = Err (Storage (MissingLayer l))).
Proof.
  intros Hd Hc Hn Hm. assert (is_dir h (resolve_layer_path root (lr_path l)) = false) as Hgone.
  { rewrite resolve_canonical by done. rewrite layer_path_snoc in *. unfold is_dir. rewrite metadata_child; [|done|apply Hc|].
    - unfold node_at. by rewrite Hn.
    - intros t. by rewrite Hn. }
  split; [done|]. intros Hp. unfold read_entry_limited. rewrite Hp, Hm. cbn [map_err result_bind read_entry_loop]. unfold layer_dir.
  rewrite validate_canonical by done. cbn [result_bind]. by rewrite Hgone.
Qed.

Lemma plain_dir_short n f g d :
  (∀ q, length q ≤ n → g !! q = f !! q) → plain_dir f d → length d ≤ n → plain_dir g d.
Proof.
  intros Hg [Hdd Hd] Hl. split; [done|]. intros j Hj. unfold dir_at. rewrite Hg; [by apply Hd|]. rewrite length_take. lia.
Qed.

(** Undoing a publish touches the layer and its digest. *)
Lemma undo_runs root id w :
  plain_dir (w_fs w) (root ++ [LAYERS_DIR]) → plain_dir (w_fs w) (root ++ [LAYER_METADATA_DIR]) → name_ok id →
  dir_at (w_fs w) (layer_path root id) = true → w_faults w = [] →
  ∃ w', (run attempt (F := LayerStackError) (remove_path (layer_path root id));
         run attempt (F := LayerStackError) (remove_file (layer_digest_path root id));
         ret ())%io w = (Ok (), w') ∧
    w_fs w' !! layer_path root id = None ∧ ∀ q, length q ≤ S (length root) → w_fs w' !! q = w_fs w !! q.
Proof.
  intros Hl Hm Hid Hd Hf. pose proof (remove_path_runs w (root ++ [LAYERS_DIR]) id Hl ltac:(apply Hid)) as Hrm.
  rewrite <-layer_path_snoc in Hrm. specialize (Hrm Hd Hf). set (w1 := mkWorld _ _ _) in Hrm.
  assert (∀ q, length q ≤ S (length root) → w_fs w1 !! q = w_fs w !! q) as H1.
  { intros q Hq. cbn [w1 w_fs]. rewrite lookup_without, decide_True; [done|]. destruct (below _ _) as [t|] eqn:Hb; [|done].
    apply below_Some in Hb as ->. unfold layer_path in Hq. rewrite !length_app in Hq. simpl in Hq. lia. }
  destruct (remove_file (layer_digest_path root id) w1) as [r w2] eqn:Hrf.
  assert (outside (λ q, q = layer_digest_path root id) (w_fs w1) (w_fs w2)) as Hout.
  { unfold layer_digest_path in *. change (root ++ [LAYER_METADATA_DIR; ?x]) with (root ++ [LAYER_METADATA_DIR] ++ [x]) in *.
    rewrite (assoc_L (++)) in *. eapply (pres_remove_file _ (w_fs w1) (root ++ [LAYER_METADATA_DIR])); [|..|exact Hrf|done].
    - intros h Hh. apply (plain_dir_short (S (length root)) (w_fs w)); [|done|rewrite length_app; simpl; lia].
      intros q Hq. rewrite Hh; [by apply H1|]. intros ->. rewrite !length_app in Hq. simpl in Hq. lia.
    - intros Heq%(f_equal last). by rewrite last_app in Heq.
    - done. }
  exists w2. split_and!; [unfold bind, attempt; by rewrite Hrm, Hrf|..].
  - rewrite Hout; [|unfold layer_digest_path, layer_path; by intros ?%(inj (app root))]. cbn [w1 w_fs].
    by rewrite lookup_without, below_self, decide_False.
  - intros q Hq. rewrite Hout; [by apply H1|]. intros ->. unfold layer_digest_path in Hq. rewrite length_app in Hq. simpl in Hq. lia.
Qed.

(** ** Publish *)

Section publish_late.
Context `{ManifestCodec} (pid : N) (root : path) (f : fs) (m : Manifest) (changes : list LayerChange).
Hypothesis Hpre : publish_pre pid root f m changes.
Abbreviation cs := (aggregate_layer_changes changes).

(** The manifest names a layer that is not there. *)
Definition lost (m' : Manifest) (h : fs) : Prop :=
  ∃ id, layers m' = new_ref id :: layers m ∧ name_ok id ∧ h !! layer_path root id = None ∧
    plain_dir h (root ++ [LAYERS_DIR]) ∧ read_manifest h (manifest_path root) = Ok m'.

Lemma undo_loses id h w :
  free_id root f id → installed root f m changes id h → digest_ok pid root id h →
  let m' := mkManifest (version m + 1) (new_ref id :: layers m) MANIFEST_SCHEMA_VERSION in
  w_fs w = replaced root ACTIVE_MANIFEST_FILE (encode_manifest m') h → w_faults w = [] →
  ∃ w', (run attempt (F := LayerStackError) (remove_path (layer_path root id));
         run attempt (F := LayerStackError) (remove_file (layer_digest_path root id));
         ret ())%io w = (Ok (), w') ∧ lost m' (w_fs w').
Proof using Hpre.
  intros Hid Hin Hdig m' Hw Hf. unfold replaced in Hw. pose proof (installed_stack_good pid root f m changes Hpre id h Hid Hin) as Hst.
  assert (∀ a r, a ≠ ACTIVE_MANIFEST_FILE → w_fs w !! (root ++ a :: r) = h !! (root ++ a :: r)) as Ha.
  { intros a r Hne. rewrite Hw. apply lookup_insert_ne. intros Heq. apply (inj (app root)) in Heq. by injection Heq as <-. }
  assert (plain_dir (w_fs w) root) as Hroot.
  { rewrite Hw. eapply plain_dir_outside; [|apply (in_root _ _ _ _ _ _ Hin)]. by apply outside_insert; [apply under_self|]. }
  assert (∀ a, a ≠ ACTIVE_MANIFEST_FILE → plain_dir h (root ++ [a]) → a ≠ dotdot → plain_dir (w_fs w) (root ++ [a])) as Hsub.
  { intros a Hne Hp Hdd. apply plain_dir_snoc; [done| |done]. apply plain_dir_at in Hp. unfold dir_at in *. by rewrite Ha. }
  assert (plain_dir (w_fs w) (root ++ [LAYERS_DIR])) as Hlay by (apply Hsub; [done|apply Hin|done]).
  destruct (undo_runs root id w) as (w' & Hrun & Hgone & Hshort); [done|apply Hsub; [done|apply Hdig|done]|apply Hid| |done|].
  { destruct Hst as [_ _ _ Hgood]. apply Forall_cons in Hgood as [[Hd _] _]. unfold dir_at, layer_path in *. by rewrite Ha. }
  exists w'. split; [done|]. exists id. split_and!; [done|apply Hid|done|..].
  - eapply plain_dir_short; [exact Hshort|done|]. rewrite length_app. simpl. lia.
  - eapply read_manifest_written; [eapply plain_dir_short; [exact Hshort|done|lia]|done| |].
    + split; [done|]. apply validate_canonicals. apply Hst.
    + rewrite Hshort by (rewrite length_app; simpl; lia). rewrite Hw. apply lookup_insert_eq.
Qed.

(** From the written layer on. *)
Lemma record_late id g k digest w out w1 :
  free_id root f id → wrote (staged_dir root f id) (staging_path root id) cs g → moved_all root g k [new_block root id] →
  w_fs w = k → w_faults w = [] →
  let record :=
    (do wrote_digest := attempt (write_layer_digest pid root id digest) in
     match wrote_digest with
     | Err err => run attempt (F := LayerStackError) (remove_path (layer_path root id)); fail err
     | Ok _ =>
         do latest := read_active_manifest_unlocked root in
         let undo :=
           run attempt (F := LayerStackError) (remove_path (layer_path root id));
           run attempt (F := LayerStackError) (remove_file (layer_digest_path root id));
           ret () in
         if decide (latest ≠ m) then
           run undo; fail (ManifestConflict (version m) (version latest))
         else
           do manifest := lift_err Cas (reads (λ _,
             manifest_new (version m + 1) (new_ref id :: layers m) (schema_version m))) in
           do wrote_manifest := attempt (write_manifest pid (manifest_path root) manifest) in
           match wrote_manifest with
           | Err err => run undo; fail err
           | Ok _ =>
               run attempt (F := LayerStackError)
                 (write_layer_bytes pid root id (published_layer_bytes changes));
               ret (mkOutcome manifest true)
           end
     end)%io in
  record w = (Ok out, w1) → late record w (lost (oc_manifest out)).
Proof using Hpre.
  intros Hid Hg Hmv Hw Hf record Hrun. destruct (moved_installed pid root f m changes Hpre id g k Hid Hg Hmv) as (Hinst & _ & _ & _).
  destruct (moved_side_ok pid root f m changes Hpre id g k Hid Hg Hmv) as (Hside & Hfiles & Htmp). unfold record in *.
  apply bind_Ok in Hrun as (r & w2 & Ha & Hrun). eapply (late_bind _ _ _ _ _ _ (padded_attempt _ (padded_atomic _ _ _)) Hf Ha).
  pose proof (padded_done _ _ _ _ (padded_attempt _ (padded_atomic _ _ _)) Hf Ha) as Hf2.
  destruct r as [[]|e]; [|unfold bind, attempt in Hrun; by destruct (remove_path _ w2)].
  assert (write_layer_digest pid root id digest w = (Ok (), w2)) as Hdig.
  { unfold attempt in Ha. destruct (write_layer_digest _ _ _ _ w). by injection Ha as -> ->. }
  pose proof (digest_yields pid root k id digest Hside Hfiles Htmp w _ w2 Hdig Hw) as [Hout Hok].
  apply bind_Ok in Hrun as (latest & w3 & Hlat & Hrun). eapply (late_bind _ _ _ _ _ _ (padded_reads _) Hf2 Hlat).
  assert (w3 = w2) as -> by (unfold read_active_manifest_unlocked, reads in Hlat; by injection Hlat).
  cbv zeta in *. case_decide; [unfold bind, attempt in Hrun; destruct (remove_path _ w2) as [? w4]; by destruct (remove_file _ w4)|].
  apply bind_Ok in Hrun as (m' & w4 & Hnew & Hrun). eapply (late_bind _ _ _ _ _ _ (padded_lift_err _ _ (padded_reads _)) Hf2 Hnew).
  unfold lift_err, reads, manifest_new in Hnew. case_decide as Hsch; [done|]. injection Hnew as <- <-.
  rewrite Hsch in *. set (m' := mkManifest _ _ _) in *.
  apply bind_Ok in Hrun as (r & w5 & Hwr & Hrun). destruct r as [[]|e];
    [|unfold bind, attempt in Hrun; destruct (remove_path _ w5) as [? w6]; by destruct (remove_file _ w6)].
  assert (oc_manifest out = m') as ->.
  { unfold bind, attempt in Hrun. destruct (write_layer_bytes _ _ _ _ w5). by injection Hrun as <-. }
  assert (write_manifest pid (manifest_path root) m' w2 = (Ok (), w5)) as Hm.
  { unfold attempt in Hwr. destruct (write_manifest _ _ _ w2). by injection Hwr as -> ->. }
  pose proof (manifest_yields pid root (w_fs w2) m' (do_side _ _ _ _ Hok) w2 _ w5 Hm eq_refl) as Hw5.
  destruct Hok as [[Hr Ht Hmt Hmf Hmtmp] Hmeta Hb Hbt] eqn:Heq. clear Heq.
  destruct (write_atomic_late pid root ACTIVE_MANIFEST_FILE (encode_manifest m') w2 w5) as (n & w' & Hlate & Hf' & Hw'); [done..|].
  destruct (undo_loses id (w_fs w2) w' Hid) as (w6 & Hundo & Hlost).
  - eapply installed_outside; [|exact Hinst]. eapply outside_weaken; [|exact Hout]. by left.
  - by split.
  - rewrite Hw', Hw5. done.
  - done.
  - exists n, w6. split; [|done]. unfold bind at 1, attempt at 1. unfold write_manifest, manifest_path in *. rewrite Hlate.
    by rewrite (bind_run _ _ _ _ _ Hundo).
Qed.

Lemma publish_late sha256 failpoints w out w1 :
  w_fs w = f → w_faults w = [] → oc_created out = true →
  publish_layer_unlocked sha256 pid failpoints root m changes w = (Ok out, w1) →
  late (publish_layer_unlocked sha256 pid failpoints root m changes) w (lost (oc_manifest out)).
Proof using Hpre.
  intros Hw Hf Hcr Hrun. unfold publish_layer_unlocked in *.
  apply bind_Ok in Hrun as (digest & w2 & Hdg & Hrun). eapply (late_bind _ _ _ _ _ _ (padded_lift_err _ _ (padded_reads _)) Hf Hdg).
  assert (w2 = w) as -> by (unfold lift_err, reads in Hdg; by injection Hdg).
  apply bind_Ok in Hrun as (hd & w2 & Hhd & Hrun). eapply (late_bind _ _ _ _ _ _ (padded_reads _) Hf Hhd).
  assert (w2 = w) as -> by (unfold reads in Hhd; by injection Hhd).
  case_decide; [by injection Hrun as <- <-|].
  apply bind_Ok in Hrun as ([] & w2 & Hfp & Hrun). eapply (late_bind _ _ _ _ _ _ (padded_failpoint _ _) Hf Hfp).
  pose proof (padded_done _ _ _ _ (padded_failpoint _ _) Hf Hfp) as Hf2. pose proof (yields_failpoint _ _ f _ _ _ Hfp Hw) as Hw2. cbn beta iota in Hw2.
  apply bind_Ok in Hrun as (dirs & w3 & Hal & Hrun). eapply (late_bind _ _ _ _ _ _ (padded_allocate _ _ _) Hf2 Hal).
  pose proof (padded_done _ _ _ _ (padded_allocate _ _ _) Hf2 Hal) as Hf3.
  destruct (allocate_free pid root f m changes Hpre _ _ _ _ Hal Hw2) as (Hw3 & id & -> & Hid).
  apply bind_Ok in Hrun as ([] & w4 & Hmk & Hrun). eapply (late_bind _ _ _ _ _ _ (padded_lift_err _ _ (padded_create_dir_all _)) Hf3 Hmk).
  pose proof (padded_done _ _ _ _ (padded_lift_err _ _ (padded_create_dir_all _)) Hf3 Hmk) as Hf4.
  pose proof (make_staging pid root f m changes Hpre id Hid _ _ _ Hmk Hw3) as Hw4.
  apply bind_Ok in Hrun as ([] & w5 & Hst & Hrun). eapply (late_bind _ _ _ _ _ _ (padded_stage _ _) Hf4 Hst).
  pose proof (padded_done _ _ _ _ (padded_stage _ _) Hf4 Hst) as Hf5.
  pose proof (stage_yields pid root f m changes Hpre id Hid _ _ _ Hst Hw4) as Hg. cbn beta in Hg.
  apply bind_Ok in Hrun as ([] & w6 & Hpr & Hrun). eapply (late_bind _ _ _ _ _ _ (padded_promote _ _) Hf5 Hpr).
  pose proof (padded_done _ _ _ _ (padded_promote _ _) Hf5 Hpr) as Hf6.
  pose proof (promote_layer_yields pid root f m changes Hpre id (w_fs w5) Hid (wrote_build_inv pid root f m changes Hpre id _ Hid Hg) _ _ _ Hpr eq_refl) as Hmv.
  by apply (record_late id (w_fs w5) (w_fs w6) digest w6 out w1 Hid Hg Hmv).
Qed.
End publish_late.

(** C39: a publish can fail after its manifest is in place and then removes the
    layer that the manifest names.  For every publish that would succeed and make a
    layer there is one call, the sync of the root directory after the rename of
    the manifest, whose failure alone has this effect: the publish returns an
    error, the manifest on disk is the new one, the directory of its newest layer
    is gone, and every read of the stack fails. *)
Theorem failed_publish_removes_live_layer `{ManifestCodec} sha256 pid failpoints root f n m changes out w1 :
  publish_pre pid root f m changes → oc_created out = true →
  publish_layer_unlocked sha256 pid failpoints root m changes (mkWorld f n []) = (Ok out, w1) →
  ∃ k w' l, publish_layer_unlocked sha256 pid failpoints root m changes (mkWorld f n (replicate k None ++ [Some 0])) = (Err (Io EIO), w') ∧
    read_manifest (w_fs w') (manifest_path root) = Ok (oc_manifest out) ∧ head (layers (oc_manifest out)) = Some l ∧
    is_dir (w_fs w') (resolve_layer_path root (lr_path l)) = false ∧
    ∀ p rel max_bytes, parse p = Ok rel → read_entry_limited (w_fs w') root p (oc_manifest out) max_bytes = Err (Storage (MissingLayer l)).
Proof.
  intros Hpre Hcr Hrun. destruct (publish_late pid root f m changes Hpre sha256 failpoints (mkWorld f n []) out w1 eq_refl eq_refl Hcr Hrun)
    as (k & w' & Hlate & id & Hls & Hid & Hgone & Hd & Hread).
  pose proof (canonical_new_ref id Hid) as Hc. exists k, w', (new_ref id). rewrite Hls. split_and!; [done..| |].
  - by apply (gone_layer_missing _ root _ (oc_manifest out) (layers m) [] (mkLayerPath []) 0%Z Hd Hc).
  - intros p rel max_bytes. by apply (gone_layer_missing _ root _ _ (layers m)).
Qed.

(** ** The calls of a squash *)

Lemma padded_opaque_mark d : padded (mark_opaque d).
Proof. unfold mark_opaque, fs_lsetxattr. padded. Qed.
#[export] Hint Resolve padded_opaque_mark : padded.

Lemma padded_emit_winners merge out ls lower ws : (∀ o l w, padded (merge o l w)) → padded (emit_winners merge out ls lower ws).
Proof.
  intros Hm. induction ws as [|[name winner] ws IH]; cbn [emit_winners]; [padded|]. apply padded_bind; [|done].
  unfold emit_winner, emit_merged_dir, fs_linkat, fs_symlink, sys_mkdir, set_permissions. padded.
Qed.

Lemma padded_merge_dirs fuel : ∀ out ls lower, padded (merge_dirs fuel out ls lower).
Proof.
  induction fuel as [|fuel IH]; intros out ls lower; cbn [merge_dirs]; [padded|].
  pose proof (padded_emit_winners (merge_dirs fuel)) as He. padded.
Qed.

Lemma padded_open_dirs ps : padded (open_dirs ps).
Proof. induction ps as [|p ps IH]; cbn [open_dirs]; padded. Qed.

Lemma padded_flatten d sources lower : padded (flatten_block_into_with_lower d sources lower).
Proof.
  unfold flatten_block_into_with_lower. pose proof padded_open_dirs. pose proof padded_merge_dirs. padded.
Qed.

Lemma padded_remove_all ds : padded (remove_all ds).
Proof. induction ds as [|d ds IH]; cbn [remove_all]; padded. Qed.
#[export] Hint Resolve padded_flatten padded_remove_all : padded.

Lemma padded_build_blocks root plan : padded (build_blocks root plan).
Proof.
  unfold build_blocks. apply padded_bind; [|intros [built [e|]]; padded]. generalize (@nil BuiltBlock).
  induction (pl_blocks plan) as [|block blocks IH]; intros built; cbn [build_loop]; [padded|].
  unfold start_block. apply padded_bind; [padded|]. intros [[b [sources lower]]|e]; padded.
Qed.

Lemma padded_promote_blocks bs : ∀ done, padded (promote_blocks bs done).
Proof. induction bs as [|b bs IH]; intros done; cbn [promote_blocks]; unfold fs_rename; padded. Qed.

Lemma padded_syncfs root : padded (syncfs_storage_root root).
Proof. unfold syncfs_storage_root, sync. padded. Qed.

(** ** Removals that go ahead *)

Definition child_region (d : path) (cs : list bytes) (q : path) : Prop := ∃ c, c ∈ cs ∧ under (d ++ [c]) q.

Lemma remove_path_absent w d c :
  plain_dir (w_fs w) d → c ≠ dotdot → w_fs w !! (d ++ [c]) = None → remove_path (d ++ [c]) w = (Ok (), w).
Proof.
  intros Hd Hc Hn. unfold remove_path, bind, attempt, reads, symlink_metadata. rewrite resolve_child by done. cbn [result_bind].
  unfold node_at. by rewrite Hn.
Qed.

(** Entries of a directory that are directories or not there. *)
Lemma remove_all_runs d cs : ∀ w,
  plain_dir (w_fs w) d → dotdot ∉ cs → w_faults w = [] →
  (∀ c, c ∈ cs → dir_at (w_fs w) (d ++ [c]) = true ∨ ∀ r, w_fs w !! ((d ++ [c]) ++ r) = None) →
  ∃ w', remove_all ((λ c, d ++ [c]) <$> cs) w = (Ok (), w') ∧ w_faults w' = [] ∧
    outside (child_region d cs) (w_fs w) (w_fs w') ∧ ∀ c r, c ∈ cs → w_fs w' !! ((d ++ [c]) ++ r) = None.
Proof.
  induction cs as [|c cs IH]; intros w Hd Hdd Hf Hcs; csimpl.
  { exists w. split_and!; [done|done|apply outside_refl|by intros ? ? ?%elem_of_nil]. }
  apply not_elem_of_cons in Hdd as [Hdc Hdd].
  assert (∃ w1, remove_path (d ++ [c]) w = (Ok (), w1) ∧ w_faults w1 = [] ∧ outside (under (d ++ [c])) (w_fs w) (w_fs w1) ∧
    ∀ r, w_fs w1 !! ((d ++ [c]) ++ r) = None) as (w1 & Hrm & Hf1 & Hout & Hgone).
  { destruct (Hcs c ltac:(by left)) as [Hdir|Hnone].
    - eexists. split; [by apply remove_path_runs|]. cbn [w_fs w_faults]. split_and!; [done|apply outside_without; [done|apply outside_refl]|].
      intros r. by rewrite lookup_without, below_app, decide_False.
    - exists w. split_and!; [|done|apply outside_refl|done]. apply remove_path_absent; [done..|]. specialize (Hnone []). by rewrite app_nil_r in Hnone. }
  assert (∀ c', c' ≠ c → ∀ r, w_fs w1 !! ((d ++ [c']) ++ r) = w_fs w !! ((d ++ [c']) ++ r)) as Hother.
  { intros c' Hne r. apply Hout. intros [t Ht%below_Some]. rewrite <-!(assoc_L (++)) in Ht. apply (inj (app d)) in Ht. by injection Ht. }
  destruct (IH w1) as (w' & Hrun & Hf' & Hout' & Hgone'); [|done|done|..].
  - apply (plain_dir_outside (w_fs w) _ d c); [exact Hout|done].
  - intros c' Hc'. destruct (decide (c' = c)) as [->|Hne]; [by right|].
    destruct (Hcs c' ltac:(by right)) as [Hdir|Hnone]; [left|right; intros r; by rewrite Hother].
    pose proof (Hother c' Hne []) as H0. rewrite app_nil_r in H0. unfold dir_at in *. by rewrite H0.
  - exists w'. split_and!; [|done|..].
    + unfold bind, attempt. by rewrite Hrm.
    + eapply outside_trans; [eapply outside_weaken; [|exact Hout]|eapply outside_weaken; [|exact Hout']].
      * intros q Hq. exists c. split; [by left|done].
      * intros q (c' & Hc' & Hq). exists c'. split; [by right|done].
    + intros c' r [->|Hc']%elem_of_cons; [|by apply Hgone'].
      destruct (decide (c ∈ cs)) as [Hin|Hnin]; [by apply Hgone'|]. rewrite Hout'; [done|].
      intros (c' & Hc' & t & Ht%below_Some). rewrite <-!(assoc_L (++)) in Ht. apply (inj (app d)) in Ht. by injection Ht as ->.
Qed.

(** Sidecar files that can be removed. *)
Definition sidecars_ok (f : fs) (root : path) : Prop :=
  (f !! (root ++ [LAYER_METADATA_DIR]) = None ∨ plain_dir f (root ++ [LAYER_METADATA_DIR])) ∧
  ∀ name, dir_at f ((root ++ [LAYER_METADATA_DIR]) ++ [name]) = false.

Lemma remove_sidecar_runs root x w :
  plain_dir (w_fs w) root → sidecars_ok (w_fs w) root → x ≠ dotdot → w_faults w = [] →
  ∃ w', remove_metadata_file ((root ++ [LAYER_METADATA_DIR]) ++ [x]) w = (Ok (), w') ∧ w_faults w' = [] ∧
    sidecars_ok (w_fs w') root ∧ outside (λ q, q = (root ++ [LAYER_METADATA_DIR]) ++ [x]) (w_fs w) (w_fs w').
Proof.
  intros Hr [Hm Hfiles] Hx Hf. unfold remove_metadata_file, bind, attempt, remove_file. rewrite syscall_no_fault by done.
  destruct Hm as [Hm|Hm].
  - assert (resolve (w_fs w) false ((root ++ [LAYER_METADATA_DIR]) ++ [x]) = Err ENOENT) as ->.
    { unfold resolve. rewrite <-(assoc_L (++)), walk_plain by done. cbn [app].
      rewrite walk_step; [|by apply plain_dir_at|done|intros t; by rewrite Hm]. by rewrite Hm. }
    cbn [result_bind]. exists w. split_and!; [done|done|split; [by left|done]|apply outside_refl].
  - rewrite resolve_child by done. cbn [result_bind]. set (p := (root ++ [LAYER_METADATA_DIR]) ++ [x]) in *.
    pose proof (Hfiles x) as Hx'. fold p in Hx'. unfold dir_at in Hx'. destruct (w_fs w !! p) as [n|] eqn:Hn.
    + exists (mkWorld (delete p (w_fs w)) (w_unique w) []). split; [by destruct n|]. cbn [w_fs w_faults].
      split_and!; [done| |by apply outside_delete; [|apply outside_refl]]. split.
      * right. eapply (plain_dir_outside (w_fs w) _ _ x); [|exact Hm]. apply outside_delete; [apply under_self|apply outside_refl].
      * intros name. destruct (decide (name = x)) as [->|Hne]; unfold dir_at; [by rewrite lookup_delete_eq|].
        rewrite lookup_delete_ne; [apply Hfiles|]. unfold p. by intros [_ ?]%app_inj_tail.
    + exists w. split_and!; [done|done|split; [by right|done]|apply outside_refl].
Qed.

Definition beside (root q : path) : Prop :=
  length q ≤ length root ∨ ∃ x, q = root ++ [LAYER_METADATA_DIR] ∨ q = (root ++ [LAYER_METADATA_DIR]) ++ [x].

Lemma sidecars_agree f g root : (∀ q, beside root q → g !! q = f !! q) → sidecars_ok f root → sidecars_ok g root.
Proof.
  intros Hs [Hm Hf]. split.
  - assert (g !! (root ++ [LAYER_METADATA_DIR]) = f !! (root ++ [LAYER_METADATA_DIR])) as Hg by (apply Hs; right; exists []; by left).
    destruct Hm as [Hm|Hm]; [left; by rewrite Hg|right]. apply plain_dir_snoc; [| |done].
    + apply (plain_dir_short (length root) f); [intros q Hq; apply Hs; by left| |done]. by eapply plain_dir_app.
    + unfold dir_at. rewrite Hg. by apply plain_dir_at.
  - intros name. unfold dir_at. rewrite Hs by (right; exists name; by right). apply Hf.
Qed.

Lemma remove_layer_runs root l w :
  root_ok (w_fs w) root → sidecars_ok (w_fs w) root → canonical_ref l → layer_tree (w_fs w) root l → w_faults w = [] →
  ∃ w', remove_layer root l w = (Ok (), w') ∧ w_faults w' = [] ∧ sidecars_ok (w_fs w') root.
Proof.
  intros Hr Hsc Hc Ht Hf. unfold remove_layer. rewrite bind_reads, validate_canonical, canonical_comps by done.
  change (root ++ [LAYERS_DIR; layer_id l]) with (layer_path root (layer_id l)).
  destruct (remove_all_runs (root ++ [LAYERS_DIR]) [layer_id l] w) as (w1 & Hrun & Hf1 & Hout & _); [apply Hr| |done|..].
  { intros Heq%list_elem_of_singleton. by destruct Hc as [_ (_ & _ & Hdd & _)]. }
  { intros c ->%list_elem_of_singleton. unfold layer_tree in Ht. by rewrite layer_path_snoc in Ht. }
  assert (remove_path (layer_path root (layer_id l)) w = (Ok (), w1)) as Hrm.
  { rewrite layer_path_snoc. cbn [fmap list_fmap remove_all] in Hrun. unfold bind, attempt in Hrun.
    destruct Ht as [Hd|Hn]; rewrite layer_path_snoc in *.
    - rewrite remove_path_runs in Hrun |- * by (done || apply Hr || apply Hc). by injection Hrun as <-.
    - rewrite remove_path_absent in Hrun |- * by (apply Hr || apply Hc || (specialize (Hn []); by rewrite app_nil_r in Hn)). by injection Hrun as <-. }
  assert (∀ q, length q ≤ S (length root) → w_fs w1 !! q = w_fs w !! q) as Hs1.
  { intros q Hq. apply Hout. intros (c & _ & t & ->%below_Some). rewrite !length_app in Hq. simpl in Hq. lia. }
  assert (sidecars_ok (w_fs w1) root) as Hsc1.
  { eapply sidecars_agree; [|exact Hsc]. intros q [Hq|[x [->| ->]]]; [apply Hs1; lia|apply Hs1; rewrite length_app; simpl; lia|].
    apply Hout. intros (c & _ & t & Hq%below_Some). rewrite <-!(assoc_L (++)) in Hq. by apply (inj (app root)) in Hq. }
  rewrite (bind_run _ _ _ _ _ Hrm).
  assert (plain_dir (w_fs w1) root) as Hr1 by (eapply plain_dir_short; [exact Hs1|apply Hr|lia]).
  assert (∀ y, y ≠ [] → last y ≠ last dotdot → layer_id l ++ y ≠ dotdot) as Hne by (intros y Hy Hl Heq; apply Hl; by rewrite <-Heq, last_suffix).
  destruct (remove_sidecar_runs root (layer_id l ++ lit ".digest") w1) as (w2 & Hrun2 & Hf2 & Hsc2 & Hout2); [done|done|by apply Hne|done|].
  assert (plain_dir (w_fs w2) root) as Hr2.
  { eapply (plain_dir_short (length root)); [|exact Hr1|lia]. intros q Hq. apply Hout2. intros ->. rewrite !length_app in Hq. simpl in Hq. lia. }
  destruct (remove_sidecar_runs root (layer_id l ++ lit ".bytes") w2) as (w3 & Hrun3 & Hf3 & Hsc3 & _); [done|done|by apply Hne|done|].
  rewrite <-(assoc_L (++)) in Hrun2, Hrun3. unfold layer_digest_path, layer_bytes_path.
  exists w3. split_and!; [|done|done]. by rewrite (bind_run _ _ _ _ _ Hrun2).
Qed.

Lemma remove_layers_runs root ls : ∀ w,
  root_ok (w_fs w) root → sidecars_ok (w_fs w) root → Forall canonical_ref ls → Forall (layer_tree (w_fs w) root) ls → w_faults w = [] →
  ∃ w', remove_layers root ls w = (Ok (), w').
Proof.
  induction ls as [|l ls IH]; intros w Hr Hsc Hc Ht Hf; [by eexists|]. apply Forall_cons in Hc as [Hcl Hc], Ht as [Htl Ht].
  destruct (remove_layer_runs root l w Hr Hsc Hcl Htl Hf) as (w1 & Hrun & Hf1 & Hsc1). cbn [remove_layers]. rewrite (bind_run _ _ _ _ _ Hrun).
  assert (outside (layers_region root [l]) (w_fs w) (w_fs w1)) as Hout.
  { eapply (pres_remove_layer (layers_region root [l]) (w_fs w) root); [|done| |exact Hrun|apply outside_refl].
    - intros f Hf'. by eapply root_ok_outside.
    - intros q Hq. exists l. set_solver. }
  apply IH; [by eapply root_ok_outside|done|done| |done].
  eapply Forall_impl; [exact Ht|]. intros l' Hl'. unfold layer_tree.
  destruct (decide (layer_id l' = layer_id l)) as [->|Hne]; [right; by eapply remove_layer_gone|].
  assert (∀ q, w_fs w1 !! (layer_path root (layer_id l') ++ q) = w_fs w !! (layer_path root (layer_id l') ++ q)) as Heq.
  { intros q. apply Hout. intros (l2 & ->%list_elem_of_singleton & Hreg). by apply layer_region_disjoint in Hreg. }
  destruct Hl' as [Hd|Hn]; [left|right; intros q; by rewrite Heq].
  specialize (Heq []). rewrite app_nil_r in Heq. unfold dir_at in *. by rewrite Heq.
Qed.

(** ** Squash *)

Lemma promote_all bs : ∀ ps w r w', promote_blocks bs ps w = (Ok r, w') → r.2 = None → r.1 = ps ++ bs.
Proof.
  induction bs as [|b bs IH]; intros ps w r w' Hrun Hn; cbn [promote_blocks] in Hrun; [injection Hrun as <- <-; cbn; by rewrite app_nil_r|].
  unfold bind, attempt in Hrun. destruct (fs_rename _ _ w) as [[[]|e] w1]; [|by injection Hrun as <- <-].
  rewrite (IH _ _ _ _ Hrun Hn), <-(assoc_L (++)). done.
Qed.

Lemma syncfs_same root w w' : syncfs_storage_root root w = (Ok (), w') → w_fs w' = w_fs w.
Proof.
  intros Hrun. assert (pres (λ g, g = w_fs w) (syncfs_storage_root root)) as Hp; [|by apply (Hp w (Ok ()) w' Hrun)].
  unfold syncfs_storage_root. apply pres_bind; [auto with pres|]. intros _. apply pres_lift_err. unfold sync. apply pres_syscall. by intros ? ? ? [= <- <-].
Qed.

Section squash_late.
Context `{ManifestCodec} (pid : N) (root : path) (g : fs) (m : Manifest) (bs : list BuiltBlock).
Hypothesis Hpre : commit_pre pid root g m m [] bs.
Abbreviation layers_dir := (root ++ [LAYERS_DIR]).

Lemma promoted_dirs : bb_layer_dir <$> bs = (λ c, layers_dir ++ [c]) <$> (bb_layer_id <$> bs).
Proof using Hpre.
  rewrite <-list_fmap_compose. apply list_fmap_ext. intros i b Hb. pose proof (cp_blocks _ _ _ _ _ _ _ Hpre) as Hbl.
  rewrite Forall_lookup in Hbl. rewrite (inv_layer _ _ _ _ (Hbl i b Hb)). apply layer_path_snoc.
Qed.

(** Where the blocks are in their places the manifest can be written. *)
Lemma moved_writable k :
  moved_all root g k bs →
  root_ok k root ∧ tree k ∧ dir_at k (manifest_path root) = false ∧ ∀ n, k !! (root ++ [tmp_name pid ACTIVE_MANIFEST_FILE n]) = None.
Proof using Hpre.
  destruct Hpre as [Hready Hlat Hbl Hids Hover Hroot Hfile Htmp]. intros Hmv.
  assert (∀ a, k !! (root ++ [a]) = g !! (root ++ [a])) as Hshort.
  { intros a. apply (moved_short root g bs); [done|]. rewrite length_app. simpl. lia. }
  split_and!; [by eapply moved_root|by eapply moved_tree|unfold dir_at, manifest_path in *; by rewrite Hshort|intros n; by rewrite Hshort].
Qed.

Lemma install_late m' w w1 :
  w_fs w = g → w_faults w = [] → install_blocks pid root bs m' w = (Ok (), w1) →
  ∃ n w', install_blocks pid root bs m' (with_faults w (replicate n None ++ [Some 0])) = (Err (Io EIO), w') ∧ w_faults w' = [] ∧
    outside (child_region layers_dir (bb_layer_id <$> bs)) (w_fs w1) (w_fs w') ∧
    ∀ b r, b ∈ bs → w_fs w' !! (layer_path root (bb_layer_id b) ++ r) = None.
Proof using Hpre.
  intros Hw Hf Hrun. destruct Hpre as [Hready Hlat Hbl Hids Hover Hroot Hfile Htmp] eqn:Heq. clear Heq.
  unfold install_blocks in *. apply bind_Ok in Hrun as ([ps failed] & w2 & Hpr & Hrun).
  destruct (padded_run _ _ _ _ (padded_promote_blocks _ _) Hf Hpr) as [Hf2 [n1 R1]].
  apply bind_Ok in Hrun as (r & w3 & Hc & Hrun).
  destruct r as [[]|e]; [|unfold bind, fail in Hrun; destruct (remove_all _ w3) as [[]]; discriminate Hrun].
  injection Hrun as ->. destruct failed as [e|]; [by injection Hc|].
  pose proof (promote_all _ _ _ _ _ Hpr eq_refl) as Hps. cbn in Hps. subst ps.
  unfold attempt in Hc. destruct (bind _ _ w2) as [r w3] eqn:Hin. injection Hc as -> ->.
  apply bind_Ok in Hin as ([] & w4 & Hsync & Hwr). destruct (padded_run _ _ _ _ (padded_syncfs _) Hf2 Hsync) as [Hf4 [n2 R2]].
  apply syncfs_same in Hsync.
  pose proof (promote_yields root bs g [] ltac:(apply Hready) ltac:(apply Hready) Hids Hbl
    (λ b r, place_empty root g m bs Hready Hbl b r) w _ w2 Hpr Hw eq_refl) as Hmv.
  destruct (moved_writable (w_fs w2) Hmv) as (Hrk & Ht2 & Hf2' & Htmp2). rewrite <-Hsync in Ht2, Hf2', Htmp2.
  assert (plain_dir (w_fs w4) root) as Hr4 by (rewrite Hsync; apply Hrk). unfold manifest_path in Hf2'.
  destruct (write_atomic_late pid root ACTIVE_MANIFEST_FILE (encode_manifest m') w4 w1) as (n3 & w5 & R3 & Hf5 & Hw5); [done..|].
  apply write_atomic_cases in Hwr as [Hw1|[? _]]; [|done..]. unfold replaced in Hw1.
  assert (∀ a r, a ≠ ACTIVE_MANIFEST_FILE → w_fs w5 !! (root ++ a :: r) = w_fs w2 !! (root ++ a :: r)) as H5.
  { intros a r Ha. rewrite Hw5, Hw1, lookup_insert_ne, Hsync; [done|]. intros Hq%(inj (app root)). by injection Hq as <-. }
  destruct (remove_all_runs layers_dir (bb_layer_id <$> bs) w5) as (w6 & Hrm & Hf6 & Hout & Hgone).
  - apply plain_dir_snoc; [|unfold dir_at; rewrite (H5 LAYERS_DIR [] ltac:(done)); apply plain_dir_at, Hrk|done].
    rewrite Hw5, Hw1. eapply plain_dir_outside; [|exact Hr4]. by apply outside_insert; [apply under_self|].
  - intros (b & Hb & Hin)%list_elem_of_fmap. rewrite Forall_forall in Hbl. by destruct (inv_name _ _ _ _ (Hbl b Hin)) as (_ & _ & ? & _).
  - done.
  - intros c (b & -> & Hb)%list_elem_of_fmap. left. rewrite <-(assoc_L (++)). unfold dir_at. cbn [app]. rewrite H5 by done.
    destruct (moved_layers pid root g m m [] bs Hpre (w_fs w2) (built_ref b) Hmv) as (_ & Hd & _); [right; by apply list_elem_of_fmap_2|exact Hd].
  - exists (n1 + (n2 + n3)), w6. split_and!; [|done|by rewrite <-Hw5|].
    + rewrite replicate_add, <-(assoc_L (++)), (bind_run _ _ _ _ _ (R1 _)). unfold bind at 1, attempt.
      rewrite replicate_add, <-(assoc_L (++)), (bind_run _ _ _ _ _ (R2 _)). unfold write_manifest, manifest_path. rewrite R3.
      rewrite promoted_dirs. by rewrite (bind_run _ _ _ _ _ Hrm).
    + intros b r Hb. rewrite layer_path_snoc. apply Hgone. by apply list_elem_of_fmap_2.
Qed.

(** After the failed install. *)
Section abandon.
Context (m' : Manifest) (k : fs) (w : world).
Hypothesis Hmv : moved_all root g k bs.
Hypothesis Hsp : splice_blocks (layers m) bs = Ok (layers m').
Hypothesis Hsch : schema_version m' = MANIFEST_SCHEMA_VERSION.
Hypothesis Hside : sidecars_ok g root.
Hypothesis Hf : w_faults w = [].
Hypothesis Hout : outside (child_region layers_dir (bb_layer_id <$> bs)) (<[manifest_path root := NFile (encode_manifest m') 0x1a4 ∅]> k) (w_fs w).
Hypothesis Hgone : ∀ b r, b ∈ bs → w_fs w !! (layer_path root (bb_layer_id b) ++ r) = None.

Record abandoned (h : fs) : Prop := {
  ab_root : root_ok h root;
  ab_side : sidecars_ok h root;
  ab_file : h !! manifest_path root = Some (NFile (encode_manifest m') 0x1a4 ∅);
  ab_trees : Forall (layer_tree h root) (layers m);
  ab_gone b r : b ∈ bs → h !! (layer_path root (bb_layer_id b) ++ r) = None;
}.

Definition staging_names : list bytes := (λ b, bb_layer_id b ++ lit ".staging") <$> bs.
Abbreviation k' := (<[manifest_path root := NFile (encode_manifest m') 0x1a4 ∅]> k).

Lemma abandoned_state h :
  (∀ q, ¬ child_region layers_dir (bb_layer_id <$> bs) q → ¬ child_region (root ++ [STAGING_DIR]) staging_names q → h !! q = k' !! q) →
  (∀ b r, b ∈ bs → h !! (layer_path root (bb_layer_id b) ++ r) = None) → abandoned h.
Proof using Hpre Hmv Hside.
  intros Hh Hg. destruct (moved_writable k Hmv) as (Hrk & _).
  assert (∀ d cs q, child_region (root ++ [d]) cs q → ∃ r, q = root ++ d :: r ∧ length q > S (length root)) as Hreg.
  { intros d cs q (c & _ & t & ->%below_Some). exists (c :: t). rewrite <-!(assoc_L (++)). split; [done|]. rewrite length_app. simpl. lia. }
  assert (∀ q, length q ≤ S (length root) → h !! q = k' !! q) as Hs.
  { intros q Hq. apply Hh; intros (r & _ & Hl)%Hreg; lia. }
  assert (∀ a r, a ≠ LAYERS_DIR → a ≠ STAGING_DIR → a ≠ ACTIVE_MANIFEST_FILE → h !! (root ++ a :: r) = g !! (root ++ a :: r)) as Ha.
  { intros a r H1 H2 H3. rewrite Hh by (intros (t & Ht%(inj (app root)) & _)%Hreg; by injection Ht).
    rewrite lookup_insert_ne by (intros Hq%(inj (app root)); by injection Hq as <-). apply Hmv.
    intros [(b & _ & t & Ht%below_Some)|(b & _ & t & Ht%below_Some)]; unfold staging_path, layer_path in Ht; rewrite <-(assoc_L (++)) in Ht;
      apply (inj (app root)) in Ht; by injection Ht. }
  split; [|..|exact Hg].
  - eapply root_ok_agree; [exact Hs|]. by apply manifest_root_ok.
  - eapply sidecars_agree; [|exact Hside]. intros q [Hq|[x [->| ->]]].
    + rewrite Hs by lia. rewrite lookup_insert_ne by (intros <-; unfold manifest_path in Hq; rewrite length_app in Hq; simpl in Hq; lia).
      apply (moved_short root g bs); [done|lia].
    + by apply (Ha _ []).
    + rewrite <-(assoc_L (++)). by apply Ha.
  - rewrite Hs by (unfold manifest_path; rewrite length_app; simpl; lia). apply lookup_insert_eq.
  - apply Forall_forall. intros l Hl. destruct (decide (layer_id l ∈ bb_layer_id <$> bs)) as [(b & Heq & Hb)%list_elem_of_fmap|Hid];
      [right; intros q; rewrite Heq; by apply Hg|left]. unfold dir_at. destruct (moved_layers pid root g m m [] bs Hpre k l Hmv) as (_ & Hd & _); [by left|]. unfold dir_at in Hd.
    rewrite Hh, lookup_insert_ne; [exact Hd|unfold manifest_path, layer_path; by intros ?%(inj (app root))|..].
    + intros (c & Hc & t & Ht%below_Some). unfold layer_path in Ht. rewrite <-!(assoc_L (++)) in Ht. apply (inj (app root)) in Ht. injection Ht as Heq _. by rewrite Heq in Hid.
    + intros (t & Ht%(inj (app root)) & _)%Hreg. done.
Qed.

Lemma abandon_staging : ∃ w6, remove_all (bb_staging_dir <$> bs) w = (Ok (), w6) ∧ w_faults w6 = [] ∧ abandoned (w_fs w6).
Proof using Hpre Hmv Hside Hf Hout Hgone.
  assert (abandoned (w_fs w)) as [Hrw _ _ _ _] by (apply abandoned_state; auto).
  assert (bb_staging_dir <$> bs = (λ c, (root ++ [STAGING_DIR]) ++ [c]) <$> staging_names) as ->.
  { unfold staging_names. rewrite <-list_fmap_compose. apply list_fmap_ext. intros i b Hb. pose proof (cp_blocks _ _ _ _ _ _ _ Hpre) as Hbl.
    rewrite Forall_lookup in Hbl. rewrite (inv_staging _ _ _ _ (Hbl i b Hb)). apply staging_path_snoc. }
  assert (∀ a r, a ≠ LAYERS_DIR → a ≠ ACTIVE_MANIFEST_FILE → w_fs w !! (root ++ a :: r) = k !! (root ++ a :: r)) as Ha.
  { intros a r H1 H2. rewrite Hout, lookup_insert_ne; [done|intros Hq%(inj (app root)); by injection Hq as <-|].
    intros (c & _ & t & Ht%below_Some). rewrite <-!(assoc_L (++)) in Ht. apply (inj (app root)) in Ht. by injection Ht. }
  destruct (remove_all_runs (root ++ [STAGING_DIR]) staging_names w) as (w6 & Hrm & Hf6 & Hout6 & _).
  - apply plain_dir_snoc; [apply Hrw| |done]. unfold dir_at. rewrite (Ha STAGING_DIR []) by done.
    apply plain_dir_at. eapply plain_touched; [apply Hmv|]. apply (cp_ready _ _ _ _ _ _ _ Hpre).
  - intros (b & Hb & _)%list_elem_of_fmap. apply (f_equal last) in Hb. by rewrite last_suffix in Hb.
  - done.
  - intros c (b & -> & Hb)%list_elem_of_fmap. right. intros r. rewrite <-!(assoc_L (++)). cbn [app]. rewrite Ha by done.
    destruct Hmv as [_ Hmv']. destruct (Hmv' b Hb) as [_ Hn]. rewrite <-(Hn r). unfold staging_path. by rewrite <-(assoc_L (++)).
  - exists w6. split_and!; [done..|]. apply abandoned_state.
    + intros q H1 H2. rewrite Hout6, Hout by done. done.
    + intros b r Hb. rewrite Hout6; [by apply Hgone|]. intros (c & _ & t & Ht%below_Some). unfold layer_path in Ht.
      rewrite <-!(assoc_L (++)) in Ht. by apply (inj (app root)) in Ht.
Qed.

(** Releasing the lease of the plan then removes the layers that were folded. *)
Lemma abandon_lease (leases : bytes_map Manifest) id w6 :
  leases !! id = Some m → abandoned (w_fs w6) → w_faults w6 = [] →
  let removed := unreferenced_layers (layers m) m' (delete id leases) in
  ∃ w7, (release_lease_locked root leases id).2 w6 = (Ok (Some removed), w7) ∧
    read_manifest (w_fs w7) (manifest_path root) = Ok m' ∧ plain_dir (w_fs w7) layers_dir ∧
    Forall (λ l, canonical_ref l ∧ w_fs w7 !! layer_path root (layer_id l) = None) ((built_ref <$> bs) ++ removed).
Proof using Hpre Hmv Hsp Hsch.
  intros Hl [Hr Hsc Hn Ht Hg] Hf6 removed.
  destruct (installed_stack pid root g m m [] bs Hpre k (layers m') m' Hmv Hsp eq_refl Hsch) as (_ & _ & Hgood & _ & _).
  assert (manifest_ok m') as Hmok by (split; [done|]; apply validate_canonicals, Hgood).
  assert (read_manifest (w_fs w6) (manifest_path root) = Ok m') as Hread by (by eapply read_manifest_written; [apply Hr|..]).
  pose proof (ready_refs _ _ _ (cp_ready _ _ _ _ _ _ _ Hpre)) as Hrefs.
  assert (∀ P, Forall P (layers m) → Forall P removed) as Hsub.
  { intros P HP. rewrite Forall_forall in HP |- *. intros l [_ Hin]%list_elem_of_filter. by apply HP. }
  destruct (remove_layers_runs root removed w6) as (w7 & Hrun); [by auto..|].
  pose proof (remove_layers_gone root removed w6 w7 Hr (Hsub _ Hrefs) (Hsub _ Ht) Hrun) as Hgone7.
  assert (outside (layers_region root removed) (w_fs w6) (w_fs w7)) as Hout7.
  { eapply (pres_remove_layers (layers_region root removed) (w_fs w6) root); [|by apply Hsub|done|exact Hrun|apply outside_refl].
    intros h Hh. by eapply root_ok_outside. }
  pose proof (root_ok_outside _ _ _ _ Hout7 Hr) as [Hr7 Hl7 _ _].
  exists w7. split_and!.
  - unfold release_lease_locked, release_reading, release. rewrite Hl. cbn [fmap option_fmap option_map snd lease_manifest]. rewrite bind_reads.
    change (root ++ [ACTIVE_MANIFEST_FILE]) with (manifest_path root). rewrite Hread. fold removed. by rewrite (bind_run _ _ _ _ _ Hrun).
  - eapply read_manifest_written; [exact Hr7|done|done|].
    rewrite Hout7; [exact Hn|]. apply short_not_in_region. rewrite length_app. simpl. lia.
  - done.
  - apply Forall_app. split.
    + apply Forall_fmap, Forall_forall. intros b Hb. pose proof (cp_blocks _ _ _ _ _ _ _ Hpre) as Hbl. rewrite Forall_forall in Hbl.
      split; [apply canonical_new_ref, (Hbl b Hb)|]. eapply lookup_weaken_None; [|by eapply (shrink_remove_layers (w_fs w6))].
      pose proof (Hg b [] Hb) as H0. by rewrite app_nil_r in H0.
    + specialize (Hsub _ Hrefs). rewrite Forall_forall in Hsub, Hgone7 |- *. intros l Hin. split; [by apply Hsub|].
      pose proof (Hgone7 l Hin []) as H0. by rewrite app_nil_r in H0.
Qed.
End abandon.

Lemma commit_late plan s w m' blocks removed s' w' :
  w_fs w = g → w_faults w = [] → read_manifest g (manifest_path root) = Ok m → sh_leases s !! pl_lease_id plan = Some m →
  commit_squash pid root plan bs s w = (Ok (m', blocks, removed), s', w') →
  splice_blocks (layers m) bs = Ok (layers m') ∧ schema_version m' = MANIFEST_SCHEMA_VERSION ∧ blocks = squashed_block <$> bs ∧
  removed = unreferenced_layers (layers m) m' (delete (pl_lease_id plan) (sh_leases s)) ∧
  ∃ n w5 k, commit_squash pid root plan bs s (with_faults w (replicate n None ++ [Some 0])) = (Err (Io EIO), s, w5) ∧ w_faults w5 = [] ∧
    moved_all root g k bs ∧
    outside (child_region layers_dir (bb_layer_id <$> bs)) (<[manifest_path root := NFile (encode_manifest m') 0x1a4 ∅]> k) (w_fs w5) ∧
    ∀ b r, b ∈ bs → w_fs w5 !! (layer_path root (bb_layer_id b) ++ r) = None.
Proof using Hpre.
  intros Hw Hf Hread Hlease Hrun. unfold commit_squash in *.
  apply sbind_Ok in Hrun as (latest & s1 & w1 & [Hr1 ->]%sio_io_Ok & Hrun). unfold read_active_manifest_unlocked, reads in Hr1.
  rewrite Hw, Hread in Hr1. injection Hr1 as <- <-.
  apply sbind_Ok in Hrun as (ls & s1 & w1 & [Hr2 ->]%sio_io_Ok & Hrun). injection Hr2 as Hsp <-.
  apply sbind_Ok in Hrun as (mm & s1 & w1 & [Hr3 ->]%sio_io_Ok & Hrun).
  unfold lift_err, reads, manifest_new in Hr3. case_decide as Hsch; [done|]. injection Hr3 as <- <-.
  apply sbind_Ok in Hrun as ([] & s1 & w1 & [Hinst ->]%sio_io_Ok & Hrun). set (new := mkManifest _ _ _) in *.
  destruct (install_late new w w1 Hw Hf Hinst) as (n & w5 & R5 & Hf5 & Hout & Hgone).
  pose proof Hpre as [Hready _ Hbl Hids _ Hroot Hfile Htmp].
  pose proof (install_yields pid root g m bs Hready Hbl Hids Hroot Hfile Htmp new _ _ _ Hinst Hw) as (k & Hmv & Hk). cbn beta in Hk.
  destruct (installed_stack pid root g m m [] bs Hpre k ls new Hmv Hsp eq_refl Hsch) as (_ & Hrm & _). rewrite <-Hk in Hrm.
  apply sbind_Ok in Hrun as (s2 & s1 & w2 & [= <- <- <-] & Hrun). apply sbind_Ok in Hrun as ([] & s1 & w2 & [= <- <-] & Hrun).
  unfold release_lease_locked, release_reading, release in Hrun. rewrite Hlease in Hrun. cbn [fmap option_fmap option_map lease_manifest] in Hrun.
  apply sbind_Ok in Hrun as ([] & s1 & w2 & [= <- <-] & Hrun). apply sbind_Ok in Hrun as (r & s1 & w2 & [Hr4 ->]%sio_io_Ok & Hrun).
  rewrite bind_reads in Hr4. change (root ++ [ACTIVE_MANIFEST_FILE]) with (manifest_path root) in Hr4. rewrite Hrm in Hr4.
  apply bind_Ok in Hr4 as ([] & w3 & _ & [= <- <-]). injection Hrun as <- <- <- _ _.
  split_and!; [done|done|done|done|]. exists n, w5, k. split_and!; [|done|done|by rewrite <-Hk|done].
  unfold sbind at 1, sio_io at 1, read_active_manifest_unlocked, reads. cbn [w_fs with_faults]. rewrite Hw, Hread.
  unfold sbind at 1, sio_io at 1. rewrite Hsp. unfold sbind at 1, sio_io at 1, lift_err, manifest_new. rewrite decide_False by (intros Hx; by apply Hx).
  cbn [map_err]. unfold sbind at 1, sio_io at 1. fold new. by rewrite R5.
Qed.
End squash_late.

(** The plan takes no call that can fail. *)
Lemma plan_squash_still `{ManifestCodec} nanos root s w r s' w' xs :
  plan_squash nanos root s w = (Ok r, s', w') →
  w_faults w' = w_faults w ∧ plan_squash nanos root s (with_faults w xs) = (Ok r, s', with_faults w' xs).
Proof.
  intros Hrun. unfold plan_squash in *. apply sbind_Ok in Hrun as (m & s1 & w1 & [Hr ->]%sio_io_Ok & Hrun).
  unfold sbind at 1, sio_io at 1. unfold read_active_manifest_unlocked, reads in *. injection Hr as Hr <-. cbn [w_fs with_faults]. rewrite Hr.
  apply sbind_Ok in Hrun as (s0 & s1 & w1 & [= <- <- <-] & Hrun). unfold sbind at 1, sget. cbv zeta in *.
  apply sbind_Ok in Hrun as ([rec leases] & s1 & w1 & [Ha ->]%sio_io_Ok & Hrun). unfold acquire in *. rewrite decide_False in Ha |- * by done.
  unfold bind, next_unique, ret in Ha. injection Ha as <- <- <-. unfold sbind at 1, sio_io, bind, next_unique, ret. cbn [w_fs w_unique w_faults with_faults].
  destruct (decide (partition_blocks _ _ = [])); injection Hrun as <- <- <-; done.
Qed.

(** How a squash goes whose commit fails. *)
Lemma squash_abandoned `{ManifestCodec} pid nanos root s sa s2 plan bs e v v2 v3 w5 w6 removed w7 :
  begin_flight s v = (Ok (), sa, v) → plan_squash nanos root sa v = (Ok (Some plan), s2, v2) → build_blocks root plan v2 = (Ok bs, v3) →
  commit_squash pid root plan bs s2 v3 = (Err e, s2, w5) → remove_all (bb_staging_dir <$> bs) w5 = (Ok (), w6) →
  (release_lease_locked root (sh_leases s2) (pl_lease_id plan)).2 w6 = (Ok removed, w7) →
  ∃ s', squash pid nanos root s v = (Err e, s', w7).
Proof.
  intros H1 H2 H3 H4 H5 H6. unfold squash. unfold sbind at 1. rewrite H1. unfold sbind at 1, sattempt at 1. rewrite H2.
  unfold sbind at 1, sattempt at 1, sio_io at 1. rewrite H3. unfold sbind at 1, sattempt at 1. rewrite H4.
  unfold sbind at 1, sio_io at 1. rewrite H5. unfold sbind at 1, drop_lease, sbind at 1, sget, release_lease.
  destruct (release_lease_locked root (sh_leases s2) (pl_lease_id plan)) as [leases removal]. cbn [snd] in H6.
  eexists. unfold set_leases, sbind, sget, sput, sattempt, sio_io, bind. rewrite H6. reflexivity.
Qed.

Lemma built_sidecars root f g bs : sidecars_ok f root → build_inv f root g bs → sidecars_ok g root.
Proof.
  intros Hside Hinv. eapply sidecars_agree; [|exact Hside]. intros q Hq. apply Hinv. intros (b & _ & t & ->%below_Some).
  unfold staging_path in Hq. destruct Hq as [Hq|[x [Hq|Hq]]].
  - rewrite !length_app in Hq. simpl in Hq. lia.
  - rewrite <-(assoc_L (++)) in Hq. by apply (inj (app root)) in Hq.
  - rewrite <-!(assoc_L (++)) in Hq. by apply (inj (app root)) in Hq.
Qed.

(** How a squash goes that replaces layers. *)
Lemma squash_commits `{ManifestCodec} pid nanos root s w m out s1 w1 :
  squash_pre pid root (w_fs w) m → squash pid nanos root s w = (Ok out, s1, w1) → so_blocks out ≠ [] →
  ∃ sa plan s2 w2 bs w3 s4 w4,
    (∀ v, begin_flight s v = (Ok (), sa, v)) ∧ plan_squash nanos root sa w = (Ok (Some plan), s2, w2) ∧
    sh_leases s2 !! pl_lease_id plan = Some m ∧ build_blocks root plan w2 = (Ok bs, w3) ∧
    build_inv (w_fs w) root (w_fs w3) bs ∧ built_over root (w_fs w3) bb_staging_dir bs (layers m) ∧
    commit_squash pid root plan bs s2 w3 = (Ok (Squash.so_manifest out, so_blocks out, so_removed out), s4, w4).
Proof.
  intros Hsq Hrun Hbn. pose proof Hsq as [Hready _ Hread _ _ _].
  unfold squash in Hrun. apply sbind_Ok in Hrun as ([] & sa & wa & Hfl & Hrun).
  assert (wa = w ∧ ∀ v, begin_flight s v = (Ok (), sa, v)) as [-> Hfl'].
  { unfold begin_flight, sbind, sget in Hfl |- *. destruct (sh_busy s); [done|]. injection Hfl as <- <-. done. }
  apply sbind_Ok in Hrun as (plan & s2 & w2 & Hplan%sattempt_Ok & Hrun). destruct plan as [plan|e]; [|done].
  destruct (plan_squash_Ok nanos root sa w plan s2 w2 m Hread Hplan) as [Hw2 Hp]. destruct plan as [plan|].
  2: { apply sbind_Ok in Hrun as (r & s3 & w3 & _ & Hrun). destruct r as [m1|e]; [|done]. by injection Hrun as <- <- <-. }
  destruct Hp as (Hpm & Hlease & boundaries & Hbl & _).
  apply sbind_Ok in Hrun as (built & s3 & w3 & Hbuilt%sattempt_Ok & Hrun).
  destruct built as [bs|e]; [|by apply sbind_Ok in Hrun as (? & ? & ? & _ & Hrun)]. apply sio_io_Ok in Hbuilt as [Hbuilt ->].
  assert (runs_over (pl_blocks plan) (layers m)) as Hruns by (rewrite Hbl; apply partition_runs_over).
  pose proof (build_blocks_yields _ _ _ Hready plan Hpm Hruns _ _ _ Hbuilt Hw2) as (_ & Hinv & Hover).
  apply sbind_Ok in Hrun as (c & s4 & w4 & Hc%sattempt_Ok & Hrun). destruct c as [[[m' blocks] removed]|e].
  2: { apply sbind_Ok in Hrun as (? & ? & ? & _ & Hrun). by apply sbind_Ok in Hrun as (? & ? & ? & _ & Hrun). }
  injection Hrun as <- <- <-. eauto 20.
Qed.

(** C38: a squash can destroy the content it folds.  For every squash that would
    succeed and replace layers there is one call, the sync of the root directory
    after the rename of the manifest, whose failure alone has this effect: the
    squash returns an error, the manifest on disk is the new one, and neither the
    flattened layers that it names are left nor the replaced layers, other than
    those that a lease still holds. *)
Theorem failed_squash_loses_layers `{ManifestCodec} pid nanos root f n m s out s1 w1 :
  publish_room pid root f m → squash pid nanos root s (mkWorld f n []) = (Ok out, s1, w1) → so_blocks out ≠ [] →
  ∃ k s' w', squash pid nanos root s (mkWorld f n (replicate k None ++ [Some 0])) = (Err (Io EIO), s', w') ∧
    read_manifest (w_fs w') (manifest_path root) = Ok (Squash.so_manifest out) ∧
    Forall (λ l, l ∈ layers (Squash.so_manifest out)) (sq_layer <$> so_blocks out) ∧
    Forall (λ l, is_dir (w_fs w') (resolve_layer_path root (lr_path l)) = false) ((sq_layer <$> so_blocks out) ++ so_removed out).
Proof.
  intros [Hsq Hmeta Hfiles _] Hrun Hbn. set (w := mkWorld f n []) in Hrun.
  destruct (squash_commits pid nanos root s w m out s1 w1 Hsq Hrun Hbn) as (sa & plan & s2 & w2 & bs & w3 & s4 & w4 & Hfl & Hplan & Hlease & Hbuilt & Hinv & Hover & Hc).
  destruct (build_commit_pre pid root _ _ _ _ Hsq Hinv Hover) as [Hcp Hread3].
  destruct (plan_squash_still nanos root sa w _ s2 w2 [] Hplan) as [Hf2 _]. change (w_faults w) with (@nil (option nat)) in Hf2.
  destruct (padded_run _ _ _ _ (padded_build_blocks root plan) Hf2 Hbuilt) as [Hf3 [n1 R1]].
  destruct (commit_late pid root (w_fs w3) m bs Hcp plan s2 w3 _ _ _ s4 w4 eq_refl Hf3 Hread3 Hlease Hc)
    as (Hsp & Hsch & -> & -> & n2 & w5 & k & R2 & Hf5 & Hmv & Hout & Hgone).
  pose proof (built_sidecars root f (w_fs w3) bs (conj Hmeta Hfiles) Hinv) as Hside.
  destruct (abandon_staging pid root (w_fs w3) m bs Hcp (Squash.so_manifest out) k w5 Hmv Hside Hf5 Hout Hgone) as (w6 & R3 & Hf6 & Hab).
  destruct (abandon_lease pid root (w_fs w3) m bs Hcp (Squash.so_manifest out) k Hmv Hsp Hsch (sh_leases s2) (pl_lease_id plan) w6 Hlease Hab Hf6)
    as (w7 & R4 & Hread7 & Hd7 & Hgone7).
  assert (sq_layer <$> (squashed_block <$> bs) = built_ref <$> bs) as -> by by rewrite <-list_fmap_compose.
  destruct (plan_squash_still nanos root sa w _ s2 w2 (replicate (n1 + n2) None ++ [Some 0]) Hplan) as [_ R0].
  edestruct (squash_abandoned pid nanos root s sa s2 plan bs (Io EIO)) as [s' Hlate];
    [apply Hfl|exact R0|rewrite replicate_add, <-(assoc_L (++)); apply R1|exact R2|exact R3|exact R4|].
  exists (n1 + n2), s', w7. split_and!; [exact Hlate|exact Hread7|..].
  - pose proof Hcp as [Hrd _ Hblk Hids Hov _ _ _]. destruct (spliced_stack root (w_fs w3) m m [] bs Hrd eq_refl Hblk Hids Hov k Hmv)
      as (ls & Hs & _ & _ & _ & _ & Hall). rewrite Hsp in Hs. injection Hs as <-. apply Forall_fmap, Forall_forall. exact Hall.
  - eapply Forall_impl; [exact Hgone7|]. intros l [Hcl Hn]. by apply (gone_layer_missing _ root l (mkManifest 0 [l] 1) [] [] (mkLayerPath []) 0%Z).
Qed.

(** *** Concrete runs *)

Lemma failed_publish_removes_live_layer_witness :
  ∃ k w' l out, publish_layer_unlocked (H := number_codec) (λ x, x) 1 false lease_root squash_manifest publish_changes
      (mkWorld publish_fs 0 (replicate k None ++ [Some 0])) = (Err (Io EIO), w') ∧
    head (layers (oc_manifest out)) = Some l ∧ is_dir (w_fs w') (resolve_layer_path lease_root (lr_path l)) = false.
Proof.
  assert (match publish_run.1 with Ok out => oc_created out = true | Err _ => False end) as Hok by (vm_compute; reflexivity).
  destruct publish_run as [[out|e] w1] eqn:Hrun; [|destruct Hok]. cbn [fst] in Hok.
  destruct (failed_publish_removes_live_layer (H := number_codec) (λ x, x) 1 false lease_root publish_fs 0 squash_manifest publish_changes out w1
    publish_run_pre Hok Hrun) as (k & w' & l & Hlate & _ & Hl & Hgone & _).
  exists k, w', l, out. split; [exact Hlate|]. split; [exact Hl|exact Hgone].
Defined.

Lemma squash_room : publish_room (H := number_codec) 1 lease_root squash_fs squash_manifest.
Proof.
  assert (squash_pre (H := number_codec) 1 lease_root squash_fs squash_manifest) as Hsq by (apply squash_check_pre; vm_compute; reflexivity).
  assert (squash_fs !! (lease_root ++ [LAYER_METADATA_DIR]) = None) as Hm by (vm_compute; reflexivity).
  assert (∀ r, r ≠ [] → squash_fs !! ((lease_root ++ [LAYER_METADATA_DIR]) ++ r) = None) as Hnone.
  { intros r Hr. apply tree_below; [apply Hsq| |done]. unfold dir_at. by rewrite Hm. }
  split; [done|by left|..]; [intros name; unfold dir_at; by rewrite Hnone|intros name n; by apply Hnone].
Qed.

(** The three layers are folded, and then neither they nor the fold are left. *)
Lemma failed_squash_loses_layers_witness :
  ∃ k s' w', squash_run (replicate k None ++ [Some 0]) = (Err (Io EIO), s', w') ∧
    Forall (λ l, is_dir (w_fs w') (resolve_layer_path lease_root (lr_path l)) = false) (take 3 (layers squash_manifest)).
Proof.
  assert (match (squash_run []).1.1 with
          | Ok out => so_removed out = take 3 (layers squash_manifest) ∧ length (so_blocks out) = 1
          | Err _ => False end) as Hok by (vm_compute; split; reflexivity).
  destruct (squash_run []) as [[[out|e] s1] w1] eqn:Hrun; [|destruct Hok]. destruct Hok as [Hrm Hlen].
  destruct (failed_squash_loses_layers (H := number_codec) 1 0 lease_root squash_fs 0 squash_manifest (mkShared ∅ [] false) out s1 w1
    squash_room Hrun) as (k & s' & w' & Hlate & _ & _ & Hall); [by intros Hn; rewrite Hn in Hlen|].
  exists k, s', w'. split; [exact Hlate|]. apply Forall_app in Hall as [_ Hall]. rewrite Hrm in Hall. exact Hall.
Defined.
