(* ===== verification/Base.v ===== *)
(** * The base of a workspace: [workspace_base/]

    A new storage root starts from a copy of a workspace directory: its files
    are copied into a staging directory and hashed, the copy becomes the first
    layer, and a binding file ties the root to the workspace.  A base can also be
    built into a cache that several sandboxes share, under its hash.

    The thread pool runs the tasks one after the other: they touch different
    files, and after an error the whole copy is removed.  Progress messages are
    left out.  A path argument is the text that the caller passes; a relative one
    is taken below the working directory. *)

From S2P Require Import Prelude ByteStr Merge Model FS Storage View Descend World StorageOps Lease Publish Stack.

(** ** Paths as texts *)

(** The components that [Path] compares: a leading dot of a relative path counts. *)
Definition components (p : bytes) : bool * path :=
  (is_absolute p,
   match split_on slash p with
   | c :: cs => if decide (c = dot) then dot :: path_comps p else path_comps p
   | [] => []
   end).

(** [Path::starts_with] *)
Definition path_starts_with (p base : bytes) : bool :=
  bool_decide (is_absolute p = is_absolute base ∧ is_Some (below (components base).2 (components p).2)).

(** ** [collect.rs] *)

(** [enum BaseEntry] *)
Inductive BaseEntry :=
| BaseDirectory (p : bytes)
| BaseFile (p : bytes) (size : Z) (content_hash : bytes)
| BaseSymlink (p link_target : bytes).

Definition entry_path (e : BaseEntry) : bytes :=
  match e with BaseDirectory p | BaseFile p _ _ | BaseSymlink p _ => p end.

Definition kind (e : BaseEntry) : bytes :=
  match e with BaseDirectory _ => lit "directory" | BaseFile _ _ _ => lit "file" | BaseSymlink _ _ => lit "symlink" end.

(** What [update_root_hash] feeds to the digest. *)
Definition update_root_hash (e : BaseEntry) : bytes :=
  kind e ++ [nul] ++ entry_path e ++ [nul] ++
  match e with
  | BaseFile _ size content_hash => fmt_dec (Z.to_N size) ++ [nul] ++ content_hash
  | BaseSymlink _ link_target => link_target
  | BaseDirectory _ => []
  end ++ [nul].

Definition entry_le (a b : BaseEntry) : Prop := bytes_le (entry_path a) (entry_path b).
#[global] Instance entry_le_dec a b : Decision (entry_le a b) := decide (bytes_le (entry_path a) (entry_path b)).

Definition sorted_entries (entries : list BaseEntry) : list BaseEntry := merge_sort entry_le entries.

Definition relative_path (workspace p : path) : bytes :=
  slashes (to_string_lossy
    match below workspace p with Some r => join_with slash r | None => slash :: join_with slash p end).

(** [join(", ")] *)
Fixpoint join_commas (ss : list bytes) : bytes :=
  match ss with
  | [] => []
  | [s] => s
  | s :: ss => s ++ lit ", " ++ join_commas ss
  end.

(** The first paths, and how many more there are. *)
Definition format_path_sample (paths : list bytes) : bytes :=
  let sample := take 5 paths in
  join_commas (if decide (5 < length paths) then sample ++ [lit "+" ++ fmt_dec (N.of_nat (length paths - 5)) ++ lit " more"] else sample).

(** ** [layer.rs] *)

Definition WORKSPACE_BASE_LAYER_ID : bytes := lit "B000001-base".
Definition SHARED_BASE_DIR : bytes := lit "base".
Definition COPY_BUFFER_BYTES : Z := 1024 * 1024.

Record BaseLayerBuild := mkBaseBuild { bb_layer_ref : LayerRef; bb_root_hash : bytes; bb_bytes : Z }.

Record FileTask := mkTask { ft_source : path; ft_target : path; ft_rel : bytes }.

Inductive FileOutcome := Copied (e : BaseEntry) | Unstable (rel : bytes) | Special (rel : bytes).

Record Collected := mkCollected {
  co_entries : list BaseEntry;
  co_file_tasks : list FileTask;
  co_special : list bytes;
  co_unstable : list bytes;
}.

Definition merge_collected (a b : Collected) : Collected :=
  mkCollected (co_entries a ++ co_entries b) (co_file_tasks a ++ co_file_tasks b)
    (co_special a ++ co_special b) (co_unstable a ++ co_unstable b).

Definition nothing_collected : Collected := mkCollected [] [] [] [].
Definition push_entry (e : BaseEntry) : Collected := mkCollected [e] [] [] [].
Definition push_task (t : FileTask) : Collected := mkCollected [] [t] [] [].
Definition push_special (rel : bytes) : Collected := mkCollected [] [] [rel] [].
Definition push_unstable (rel : bytes) : Collected := mkCollected [] [] [] [rel].

Inductive CopyFileError := SourceNotFound | SourceUnreadable | Target (e : errno).

Definition map_source_error (e : errno) : CopyFileError := match e with ENOENT => SourceNotFound | _ => SourceUnreadable end.

(** [write_all] after what has been written: a failing write leaves a prefix. *)
Definition write_more (q : path) (written chunk : bytes) : io errno () :=
  (do x := fault in
   do f := reads (λ f, Ok f) in
   match x with
   | Some k => run set_fs (put_data f q (written ++ take k chunk)); fail EIO
   | None => set_fs (put_data f q (written ++ chunk))
   end)%io.

(** The loop of [copy_file_with_hash]: [rest] is what the open file still gives.
    Each round takes at least one byte, so their number is enough fuel. *)
Fixpoint copy_loop (fuel : nat) (q : path) (written rest : bytes) (remaining : Z) : io CopyFileError bytes :=
  if decide (remaining ≤ 0)%Z then ret written
  else
    match fuel with
    | O => fail SourceUnreadable
    | S fuel =>
        let cap := Z.to_nat (Z.min remaining COPY_BUFFER_BYTES) in
        let chunk := take cap rest in
        if decide (chunk = []) then fail SourceUnreadable
        else
          (run lift_err Target (write_more q written chunk);
           copy_loop fuel q (written ++ chunk) (drop cap rest) (remaining - Z.of_nat (length chunk)))%io
    end.

(** [File::set_permissions] on the open file *)
Definition fset_permissions (q : path) (mode : Z) : io errno () :=
  syscall (λ f, Ok (tt, match f !! q with Some (NFile d _ xs) => <[q := NFile d mode xs]> f | _ => f end)).

Section base_layer.
Context (sha256 : bytes → bytes).

Definition base_root_hash (entries : list BaseEntry) : bytes :=
  hex_lower (sha256 (sorted_entries entries ≫= update_root_hash)).

(** The size and the hash of the copied file. *)
Definition copy_file_with_hash (source target : path) : io CopyFileError (Z * bytes) :=
  (do n := lift_err map_source_error (reads (λ f, metadata f source)) in
   do q := lift_err Target (file_create target) in
   match n with
   | NFile data mode _ =>
       do written := copy_loop (length data) q [] data (Z.of_nat (length data)) in
       run lift_err Target (fset_permissions q mode);
       ret (Z.of_nat (length written), hex_lower (sha256 written))
   | _ => fail SourceUnreadable
   end)%io.

Definition copy_one_file (task : FileTask) : io LayerStackError FileOutcome :=
  (do r := attempt (copy_file_with_hash (ft_source task) (ft_target task)) in
   match r with
   | Ok (size, content_hash) => ret (Copied (BaseFile (ft_rel task) size content_hash))
   | Err SourceNotFound => ret (Unstable (ft_rel task))
   | Err SourceUnreadable => ret (Special (ft_rel task))
   | Err (Target err) => fail (Io err)
   end)%io.

Fixpoint copy_files (tasks : list FileTask) : io LayerStackError (list FileOutcome) :=
  match tasks with
  | [] => ret []
  | task :: tasks => (do o := copy_one_file task in do os := copy_files tasks in ret (o :: os))%io
  end.

Definition outcome_collected (o : FileOutcome) : Collected :=
  match o with Copied e => push_entry e | Unstable rel => push_unstable rel | Special rel => push_special rel end.

Definition merge_file_outcomes (outcomes : list FileOutcome) (c : Collected) : Collected :=
  foldl (λ c o, merge_collected c (outcome_collected o)) c outcomes.

(** [BuildStats]: the bytes of the files that were copied, in a [u64]. *)
Definition copied_bytes (outcomes : list FileOutcome) : Z :=
  foldl (λ n o, match o with Copied (BaseFile _ size _) => (n + size) mod 2 ^ 64 | _ => n end)%Z 0%Z outcomes.

(** One entry of a directory: what it adds, and whether it is a directory. *)
Definition collect_child (workspace staging_dir source : path) : io LayerStackError (Collected * bool) :=
  (let rel := relative_path workspace source in
   let target := join_layer_path staging_dir rel in
   do file_type := attempt (F := LayerStackError) (reads (λ f, symlink_metadata f source)) in
   match file_type with
   | Err ENOENT => ret (push_unstable rel, false)
   | Err e => fail (Io e)
   | Ok (NSymlink _) =>
       do link := attempt (F := LayerStackError) (reads (λ f, read_link f source)) in
       match link with
       | Err _ => ret (push_special rel, false)
       | Ok link_target =>
           run lift_err Io (fs_symlink link_target target);
           ret (push_entry (BaseSymlink rel (to_string_lossy link_target)), false)
       end
   | Ok (NDir _ _) =>
       run lift_err Io (create_dir_all target);
       ret (push_entry (BaseDirectory rel), true)
   | Ok (NFile _ _ _) => ret (push_task (mkTask source target rel), false)
   | Ok _ => ret (push_special rel, false)
   end)%io.

Fixpoint collect_children (workspace staging_dir current : path) (ns : list bytes) (c : Collected) (subdirs : list path)
    : io LayerStackError (Collected * list path) :=
  match ns with
  | [] => ret (c, subdirs)
  | name :: ns =>
      let source := current ++ [name] in
      (do r := collect_child workspace staging_dir source in
       collect_children workspace staging_dir current ns (merge_collected c r.1)
         (if r.2 : bool then subdirs ++ [source] else subdirs))%io
  end.

(** The recursive calls, whose results are merged in order. *)
Fixpoint collect_subdirs (collect : path → io LayerStackError Collected) (subdirs : list path) (c : Collected)
    : io LayerStackError Collected :=
  match subdirs with
  | [] => ret c
  | sub :: subdirs => (do child := collect sub in collect_subdirs collect subdirs (merge_collected c child))%io
  end.

(** One level of directories per unit of fuel. *)
Fixpoint collect_subtree (fuel : nat) (workspace staging_dir current : path) : io LayerStackError Collected :=
  match fuel with
  | O => fail (Storage OtherStorage)
  | S fuel =>
      (do children := attempt (F := LayerStackError) (reads (λ f, read_dir f current)) in
       match children with
       | Err ENOENT => ret (push_unstable (relative_path workspace current))
       | Err e => fail (Io e)
       | Ok ns =>
           do r := collect_children workspace staging_dir current ns nothing_collected [] in
           collect_subdirs (collect_subtree fuel workspace staging_dir) r.2 r.1
       end)%io
  end.

(** The copy and its hash. *)
Definition copy_workspace (workspace staging_dir layer_dir : path) : io LayerStackError (bytes * Z) :=
  (run lift_err (λ _, Storage BaseThreadPool) sync;
   do depth := reads (λ f, Ok (depth_bound f)) in
   do c := collect_subtree (S depth) workspace staging_dir workspace in
   do outcomes := copy_files (co_file_tasks c) in
   let c := merge_file_outcomes outcomes c in
   if negb (bool_decide (co_special c = [])) || negb (bool_decide (co_unstable c = [])) then
     fail (Storage (BaseNotFullCopy
       (length (co_special c)) (format_path_sample (merge_sort bytes_le (co_special c)))
       (length (co_unstable c)) (format_path_sample (merge_sort bytes_le (co_unstable c)))))
   else
     let root_hash := base_root_hash (co_entries c) in
     run lift_err Io (create_dir_all (parent layer_dir));
     run lift_err Io (fs_rename staging_dir layer_dir);
     ret (root_hash, copied_bytes outcomes))%io.

Definition build_base_layer_under (stack workspace : path) (layer_parent : bytes) : io LayerStackError BaseLayerBuild :=
  (let layer_id := WORKSPACE_BASE_LAYER_ID in
   let layer_dir := stack ++ [layer_parent; layer_id] in
   let staging_dir := stack ++ [STAGING_DIR; layer_id ++ lit ".staging"] in
   do existing := reads (λ f, Ok (exists_ f layer_dir || exists_ f staging_dir)) in
   if existing : bool then fail (Storage (BaseLayerExists layer_dir))
   else
     run lift_err Io (create_dir_all staging_dir);
     do r := attempt (copy_workspace workspace staging_dir layer_dir) in
     match r with
     | Ok (root_hash, bytes) =>
         ret (mkBaseBuild (mkLayerRef layer_id (layer_parent ++ [slash] ++ layer_id)) root_hash bytes)
     | Err err =>
         run attempt (F := LayerStackError) (remove_path staging_dir);
         run attempt (F := LayerStackError) (remove_path layer_dir);
         fail err
     end)%io.
End base_layer.

(** ** [binding.rs] *)

Definition WORKSPACE_BINDING_FILE : bytes := lit "workspace.json".

Record WorkspaceBinding := mkBinding {
  workspace_root : bytes;
  layer_stack_root : bytes;
  binding_root_hash : bytes;
}.

(** [serde_json] on a binding: the encoded text is UTF-8 and decodes to what was
    encoded. *)
Class BindingCodec := {
  encode_binding : WorkspaceBinding → bytes;
  decode_binding : bytes → option WorkspaceBinding;
  encode_binding_utf8 b : utf8_valid (encode_binding b) = true;
  decode_encoded_binding b : decode_binding (encode_binding b) = Some b;
}.

Definition read_workspace_binding `{BindingCodec} (f : fs) (stack : path) : result (option WorkspaceBinding) LayerStackError :=
  let p := stack ++ [WORKSPACE_BINDING_FILE] in
  if negb (exists_ f p) then Ok None
  else
    (let? payload := map_err Io (read_to_string f p) in
     match decode_binding payload with
     | Some binding => Ok (Some binding)
     | None => Err (WorkspaceBindingError (lit "json"))
     end)%result.

Definition require_workspace_binding `{BindingCodec} (f : fs) (stack : path) : result WorkspaceBinding LayerStackError :=
  (let? binding := read_workspace_binding f stack in
   match binding with
   | Some binding => Ok binding
   | None => Err (WorkspaceBindingError (lit "workspace binding is missing"))
   end)%result.

(** The loop over the layers: whether the base is among them. *)
Fixpoint validate_layers (f : fs) (stack : path) (binding : WorkspaceBinding) (ls : list LayerRef) (saw_base : bool)
    : result bool LayerStackError :=
  match ls with
  | [] => Ok saw_base
  | l :: ls =>
      if negb (exists_ f (resolve_layer_path stack (lr_path l))) then
        Err (WorkspaceBindingError (lit "manifest layer path is missing"))
      else if decide (layer_id l = WORKSPACE_BASE_LAYER_ID) then
        match read_to_string f (layer_digest_path stack (layer_id l)) with
        | Err _ => Err (WorkspaceBindingError (lit "base layer digest is missing"))
        | Ok digest =>
            if decide (trim digest ≠ binding_root_hash binding) then
              Err (WorkspaceBindingError (lit "base layer digest does not match"))
            else validate_layers f stack binding ls true
        end
      else validate_layers f stack binding ls saw_base
  end.

Definition validate_manifest_for_root `{ManifestCodec} (f : fs) (stack : path) (binding : WorkspaceBinding)
    : result () LayerStackError :=
  let manifest_file := stack ++ [ACTIVE_MANIFEST_FILE] in
  if negb (exists_ f manifest_file) then Err (WorkspaceBindingError (lit "active manifest is missing"))
  else
    (let? manifest := read_manifest f manifest_file in
     if decide (version manifest ≤ 0)%Z then Err (WorkspaceBindingError (lit "active manifest is empty"))
     else if decide (layers manifest = []) then Err (WorkspaceBindingError (lit "active manifest is empty"))
     else
       let? saw_base := validate_layers f stack binding (layers manifest) false in
       if saw_base : bool then Ok () else Err (WorkspaceBindingError (lit "active manifest has no base layer")))%result.

Definition validate_workspace_binding_paths (workspace stack : bytes) : result () LayerStackError :=
  if negb (is_absolute workspace) then Err (WorkspaceBindingError (lit "workspace_root must be absolute"))
  else if negb (is_absolute stack) then Err (WorkspaceBindingError (lit "layer_stack_root must be absolute"))
  else if bool_decide (components stack = components workspace) || path_starts_with stack workspace then
    Err (WorkspaceBindingError (lit "layer_stack_root must be outside workspace_root"))
  else Ok ().

(** ** [build.rs] *)

Record SharedWorkspaceBase := mkShared {
  sb_root_hash : bytes;
  sb_cache_entry_root : path;
  sb_base_mount_source : path;
  sb_bytes : Z;
  sb_built : bool;
}.

Definition remove_dir (p : path) : io errno () :=
  syscall (λ f,
    (let? q := resolve f false p in
     match f !! q with
     | None => Err ENOENT
     | Some (NDir _ _) => if has_children f q then Err ENOTEMPTY else Ok (tt, delete q f)
     | Some _ => Err ENOTDIR
     end)%result).

Definition dir_has_entries (f : fs) (p : path) : result bool LayerStackError :=
  match read_dir f p with
  | Ok ns => Ok (negb (bool_decide (ns = [])))
  | Err ENOENT => Ok false
  | Err e => Err (Io e)
  end.

Section base_build.
Context (sha256 : bytes → bytes) `{ManifestCodec} `{BindingCodec}.
(** [std::process::id()] and the working directory. *)
Context (pid : N) (cwd : path).

Definition locate (p : bytes) : path := if is_absolute p then path_comps p else cwd ++ path_comps p.

Definition write_workspace_binding_at (target_stack : path) (binding : WorkspaceBinding) : io LayerStackError () :=
  (run reads (λ _, validate_workspace_binding_paths (workspace_root binding) (layer_stack_root binding));
   write_atomic pid (target_stack ++ [WORKSPACE_BINDING_FILE]) (encode_binding binding))%io.

Definition reject_existing_base_state (f : fs) (stack : path) : result () LayerStackError :=
  (let? binding := read_workspace_binding f stack in
   match binding with
   | Some _ => Err (WorkspaceBindingError (lit "workspace base already exists"))
   | None =>
       let? active := read_manifest f (stack ++ [ACTIVE_MANIFEST_FILE]) in
       if decide (version active ≠ 0%Z) then Err (ManifestError (StackNotEmpty (version active)))
       else if decide (layers active ≠ []) then Err (ManifestError (StackNotEmpty (version active)))
       else
         let? l := dir_has_entries f (stack ++ [LAYERS_DIR]) in
         let? s := (if l : bool then Ok true else dir_has_entries f (stack ++ [STAGING_DIR])) in
         if s : bool then Err (Storage (BaseStateExists stack)) else Ok ()
   end)%result.

Definition build_workspace_base_from_snapshot (registered : bool) (stack binding_stack binding_workspace snapshot : bytes) (reset : bool)
    : io LayerStackError WorkspaceBinding :=
  (run reads (λ _, validate_workspace_binding_paths binding_workspace binding_stack);
   if negb (is_absolute stack) then fail (WorkspaceBindingError (lit "layer_stack_root must be absolute"))
   else
     do there := reads (λ f, Ok (is_dir f (locate snapshot))) in
     if negb there then fail (WorkspaceBindingError (lit "workspace_root does not exist"))
     else
       let root := locate stack in
       run (if reset then remove_path root else ret ());
       run open_stack registered root;
       run reads (λ f, reject_existing_base_state f root);
       do base_layer := build_base_layer_under sha256 root (locate snapshot) LAYERS_DIR in
       run write_layer_digest pid root (layer_id (bb_layer_ref base_layer)) (bb_root_hash base_layer);
       do manifest := lift_err Cas (reads (λ _, manifest_new 1 [bb_layer_ref base_layer] MANIFEST_SCHEMA_VERSION)) in
       run write_manifest pid (root ++ [ACTIVE_MANIFEST_FILE]) manifest;
       let binding := mkBinding (to_string_lossy binding_workspace) (to_string_lossy binding_stack) (bb_root_hash base_layer) in
       run write_workspace_binding_at root binding;
       ret binding)%io.

Definition build_workspace_base (registered : bool) (stack workspace : bytes) (reset : bool) : io LayerStackError WorkspaceBinding :=
  build_workspace_base_from_snapshot registered stack stack workspace workspace reset.

Definition ensure_workspace_base (registered : bool) (stack workspace : bytes) : io LayerStackError (WorkspaceBinding * bool) :=
  (do found := reads (λ f, read_workspace_binding f (locate stack)) in
   match found with
   | Some binding =>
       if decide (components (workspace_root binding) ≠ components workspace) then
         fail (WorkspaceBindingError (lit "workspace binding points at a different workspace"))
       else if decide (components (layer_stack_root binding) ≠ components stack) then
         fail (WorkspaceBindingError (lit "workspace binding points at a different layer stack"))
       else
         run reads (λ f, validate_manifest_for_root f (locate stack) binding);
         ret (binding, false)
   | None => do built := build_workspace_base registered stack workspace false in ret (built, true)
   end)%io.

(** The closure of [build_shared_workspace_base]. *)
Definition build_shared_in (cache tmp workspace : path) : io LayerStackError SharedWorkspaceBase :=
  (do base_layer := build_base_layer_under sha256 tmp workspace SHARED_BASE_DIR in
   let root_hash := bb_root_hash base_layer in
   let final_root := cache ++ [root_hash] in
   let final_base := final_root ++ [SHARED_BASE_DIR] in
   let layer := final_base ++ [layer_id (bb_layer_ref base_layer)] in
   do there := reads (λ f, Ok (is_dir f layer)) in
   if there : bool then
     run remove_path tmp;
     ret (mkShared root_hash final_root final_base 0 false)
   else
     run attempt (F := LayerStackError) (remove_dir (tmp ++ [STAGING_DIR]));
     do renamed := attempt (F := LayerStackError) (fs_rename tmp final_root) in
     match renamed with
     | Ok _ =>
         run fsync_dir cache;
         ret (mkShared root_hash final_root final_base (bb_bytes base_layer) true)
     | Err EEXIST =>
         run remove_path tmp;
         do there := reads (λ f, Ok (is_dir f layer)) in
         if negb there then fail (Storage (SharedBaseInvalid final_root))
         else ret (mkShared root_hash final_root final_base 0 false)
     | Err err => fail (Io err)
     end)%io.

Definition build_shared_workspace_base (cache_root workspace_root : bytes) : io LayerStackError SharedWorkspaceBase :=
  let cache := locate cache_root in
  let workspace := locate workspace_root in
  if negb (is_absolute cache_root) then fail (WorkspaceBindingError (lit "shared base cache root must be absolute"))
  else
    (do there := reads (λ f, Ok (is_dir f workspace)) in
     if negb there then fail (WorkspaceBindingError (lit "workspace_root does not exist"))
     else
       run lift_err Io (create_dir_all cache);
       do n := next_unique in
       let tmp := cache ++ [lit ".building-" ++ fmt_dec pid ++ lit "-" ++ fmt_dec n] in
       do stale := reads (λ f, Ok (exists_ f tmp)) in
       run (if stale : bool then remove_path tmp else ret ());
       run lift_err Io (create_dir_all tmp);
       do result := attempt (build_shared_in cache tmp workspace) in
       match result with
       | Ok base => ret base
       | Err err => run attempt (F := LayerStackError) (remove_path tmp); fail err
       end)%io.
End base_build.
