(* ===== verification/BaseSpec.v ===== *)
(** * The copy of a workspace is faithful

    What [build_base_layer_under] makes of a workspace: the same directories,
    files and links, each file with its content and permissions. *)

From S2P Require Import Prelude ByteStr Model FS Storage View Descend World StorageOps Does.
From S2P Require Import Lease SquashSpec SquashCommit LayerWrite Base.

(** ** Names *)

Definition file_name_ok (c : bytes) : Prop := comp_ok c ∧ utf8_valid c = true.

Lemma name_ok_comps r : Forall file_name_ok r → Forall comp_ok r.
Proof. intros Hr. eapply Forall_impl; [exact Hr|]. by intros c [? _]. Qed.

Lemma join_backslash (r : path) : Forall comp_ok r → backslash ∉ join_with slash r.
Proof.
  intros Hr. induction Hr as [|c r (_ & _ & _ & _ & _ & Hc) Hr IH]; [by intros ?%elem_of_nil|]. destruct r as [|c' r]; [done|].
  change (join_with slash (c :: c' :: r)) with (c ++ slash :: join_with slash (c' :: r)).
  rewrite elem_of_app, elem_of_cons. intros [?|[?|?]]; done.
Qed.

Section relative.
Context (ws : path).

Lemma relative_path_below r : Forall file_name_ok r → relative_path ws (ws ++ r) = join_with slash r.
Proof.
  intros Hr. unfold relative_path. rewrite below_app, lossy_valid, slashes_id; [done|by apply join_backslash, name_ok_comps|].
  apply utf8_valid_join; [done|]. eapply Forall_impl; [exact Hr|]. by intros c [_ ?].
Qed.

Lemma target_below st r : Forall file_name_ok r → r ≠ [] → join_layer_path st (relative_path ws (ws ++ r)) = st ++ r.
Proof. intros Hr Hne. rewrite relative_path_below by done. apply join_layer_path_comps; [by apply name_ok_comps|done]. Qed.

Lemma join_names_inj (r s : path) : Forall file_name_ok r → Forall file_name_ok s → r ≠ [] → s ≠ [] → join_with slash r = join_with slash s → r = s.
Proof.
  intros Hr Hs Hrn Hsn Heq. apply (f_equal (split_on slash)) in Heq.
  rewrite !split_join_with in Heq; [done|done| |done|]; (eapply Forall_impl; [eassumption|]); by intros c ((_ & _ & _ & ? & _) & _).
Qed.
End relative.

Lemma does_bind_attempt_reads {E F A B} (q : fs → result A F) (k : result A F → io E B) f a R :
  q f = Ok a → does (λ h, h = f) (k (Ok a)) R → does (λ h, h = f) (bind (attempt (reads q)) k) R.
Proof. intros Hq Hk w Hw. specialize (Hk w Hw). unfold bind, attempt, reads. by rewrite Hw, Hq. Qed.

(** ** Errors of a kind *)

(** [does], and an error is one of [R]. *)
Definition doesx {E A : Type} (P : fs → Prop) (c : io E A) (Q : A → fs → Prop) (R : E → Prop) : Prop :=
  ∀ w, P (w_fs w) →
  match c w with
  | (Ok a, w') => Q a (w_fs w') ∧ (w_faults w = [] → w_faults w' = [])
  | (Err e, _) => w_faults w ≠ [] ∧ R e
  end.

Lemma doesx_bind {E A B} (c : io E A) (k : A → io E B) P Q S (R : E → Prop) :
  doesx P c Q R → (∀ a, doesx (Q a) (k a) S R) → doesx P (bind c k) S R.
Proof.
  intros Hc Hk w Hw. specialize (Hc w Hw). unfold bind. destruct (c w) as [[a|e] w1]; [|done].
  destruct Hc as [HQ Hf]. specialize (Hk a w1 HQ). destruct (k a w1) as [[b|e] w2]; naive_solver.
Qed.

Lemma doesx_lift {E F A} (g : F → E) (c : io F A) P Q : does P c Q → doesx P (lift_err g c) Q (λ e, ∃ e', e = g e').
Proof. intros Hc w Hw. specialize (Hc w Hw). unfold lift_err. destruct (c w) as [[a|e] w1]; [done|]. split; [done|by eexists]. Qed.

Lemma doesx_ret {E A} (a : A) P (Q : A → fs → Prop) (R : E → Prop) : (∀ f, P f → Q a f) → doesx P (ret a) Q R.
Proof. intros HQ w Hw. simpl. auto. Qed.

Lemma doesx_pre {E A} (c : io E A) P Q R : (∀ g, P g → doesx (λ h, h = g) c Q R) → doesx P c Q R.
Proof. intros Hc w HP. by apply (Hc _ HP). Qed.

Lemma doesx_any {E A} (c : io E A) P Q : does P c Q → doesx P c Q (λ _, True).
Proof. intros Hc w Hw. specialize (Hc w Hw). by destruct (c w) as [[a|e] w1]. Qed.

Lemma does_bind2 {E A B C} (c1 : io E A) (c2 : io E B) (k : B → io E C) P Q R :
  does P (bind c1 (λ _, c2)) Q → (∀ b, does (Q b) (k b) R) → does P (bind c1 (λ _, bind c2 k)) R.
Proof.
  intros Hc Hk. assert (does P (bind (bind c1 (λ _, c2)) k) R) as H by by eapply does_bind. intros w Hw. specialize (H w Hw).
  unfold bind in *. by destruct (c1 w) as [[a|e] w1].
Qed.

Lemma does_attempt {E F A B} (c : io F A) (k : result A F → io E B) P Q S R :
  doesx P c Q R → (∀ a, does (Q a) (k (Ok a)) S) → (∀ e w, R e → is_err (k (Err e) w).1 = true) → does P (bind (attempt c) k) S.
Proof.
  intros Hc Hk He w Hw. specialize (Hc w Hw). unfold bind, attempt. destruct (c w) as [[a|e] w1].
  - destruct Hc as [HQ Hf]. specialize (Hk a w1 HQ). destruct (k (Ok a) w1) as [[b|e] w2]; naive_solver.
  - destruct Hc as [Hf HR]. specialize (He e w1 HR). by destruct (k (Err e) w1) as [[b|e'] w2].
Qed.

(** ** What is copied *)

Definition plain_node (n : node) : bool := match n with NFile _ _ _ | NSymlink _ | NDir _ _ => true | _ => false end.

(** A workspace that can be copied: its names are UTF-8 without separators, and
    there are only files, links and directories. *)
Record workspace_ok (f : fs) (ws : path) : Prop := {
  wk_tree : tree f;
  wk_plain : plain_dir f ws;
  wk_names r : is_Some (f !! (ws ++ r)) → Forall file_name_ok r;
  wk_nodes r n : f !! (ws ++ r) = Some n → plain_node n = true;
}.

(** Directories get the default mode, extended attributes are not copied. *)
Definition copy_node (n : node) : node :=
  match n with NDir _ _ => NDir 0x1ed ∅ | NFile data mode _ => NFile data mode ∅ | n => n end.

Definition skeleton_node (n : node) : option node := if n_is_file n then None else Some (copy_node n).

(** ** The entries of a workspace *)

Section entries.
Context (sha256 : bytes → bytes).

Definition node_entry (r : path) (n : node) : option BaseEntry :=
  match n with
  | NDir _ _ => Some (BaseDirectory (join_with slash r))
  | NSymlink t => Some (BaseSymlink (join_with slash r) (to_string_lossy t))
  | NFile data _ _ => Some (BaseFile (join_with slash r) (Z.of_nat (length data)) (hex_lower (sha256 data)))
  | _ => None
  end.

(** All nodes but the workspace directory itself. *)
Definition workspace_entries (f : fs) (ws : path) : list BaseEntry :=
  omap (λ rn, if decide (rn.1 = []) then None else node_entry rn.1 rn.2) (map_to_list (subtree f ws)).

Definition workspace_hash (f : fs) (ws : path) : bytes := base_root_hash sha256 (workspace_entries f ws).

Context (f : fs) (ws : path).
Hypothesis Hws : workspace_ok f ws.

Lemma elem_of_workspace_entries e :
  e ∈ workspace_entries f ws ↔ ∃ r n, r ≠ [] ∧ f !! (ws ++ r) = Some n ∧ node_entry r n = Some e.
Proof using.
  unfold workspace_entries. rewrite list_elem_of_omap. split.
  - intros ([r n] & Hin & He). apply elem_of_map_to_list in Hin. rewrite lookup_subtree in Hin. cbn in He. case_decide; [done|]. by exists r, n.
  - intros (r & n & Hr & Hn & He). exists (r, n). rewrite elem_of_map_to_list, lookup_subtree. cbn. by rewrite decide_False.
Qed.

Lemma node_entry_path r n e : node_entry r n = Some e → entry_path e = join_with slash r.
Proof using. by destruct n; intros [= <-]. Qed.

(** An entry is determined by its path. *)
Lemma node_entry_inj r1 n1 e1 r2 n2 e2 :
  r1 ≠ [] → r2 ≠ [] → f !! (ws ++ r1) = Some n1 → f !! (ws ++ r2) = Some n2 →
  node_entry r1 n1 = Some e1 → node_entry r2 n2 = Some e2 → entry_path e1 = entry_path e2 → r1 = r2 ∧ e1 = e2.
Proof using Hws.
  intros Hr1 Hr2 Hn1 Hn2 He1 He2. rewrite (node_entry_path _ _ _ He1), (node_entry_path _ _ _ He2). intros Heq.
  assert (r1 = r2) as -> by (apply join_names_inj; [by eapply wk_names|by eapply wk_names|done|done|done]). split; congruence.
Qed.

Lemma workspace_entries_inj e1 e2 :
  e1 ∈ workspace_entries f ws → e2 ∈ workspace_entries f ws → entry_path e1 = entry_path e2 → e1 = e2.
Proof using Hws.
  intros (r1 & n1 & ? & ? & ?)%elem_of_workspace_entries (r2 & n2 & ? & ? & ?)%elem_of_workspace_entries Heq.
  by destruct (node_entry_inj r1 n1 e1 r2 n2 e2) as [_ ?].
Qed.

Lemma NoDup_workspace_entries : NoDup (workspace_entries f ws).
Proof using Hws.
  unfold workspace_entries. pose proof (NoDup_map_to_list (subtree f ws)) as Hnd.
  assert (∀ r n, (r, n) ∈ map_to_list (subtree f ws) → f !! (ws ++ r) = Some n) as Hin.
  { intros r n Hrn. apply elem_of_map_to_list in Hrn. by rewrite lookup_subtree in Hrn. }
  induction Hnd as [|[r n] l Hrn _ IH]; [constructor|]. csimpl.
  assert (∀ r n, (r, n) ∈ l → f !! (ws ++ r) = Some n) as Hin' by (intros; apply Hin; by right). specialize (IH Hin').
  case_decide as Hr; [done|]. destruct (node_entry r n) as [e|] eqn:He; [|done]. apply NoDup_cons. split; [|done].
  rewrite list_elem_of_omap. intros ([r' n'] & Hl & He'). cbn in He'. case_decide as Hr'; [done|].
  destruct (node_entry_inj r n e r' n' e) as [-> _]; [done|done|apply Hin; by left|by apply Hin'|done|done|done|].
  assert (n = n') as -> by (pose proof (Hin' _ _ Hl); pose proof (Hin _ _ (list_elem_of_here _ _)); congruence). done.
Qed.

Lemma bytes_le_antisymm s t : bytes_le s t → bytes_le t s → s = t.
Proof using. intros [->|H1] [H2|H2]; [done..|]. exfalso. apply (irreflexivity bytes_lt s). by etrans. Qed.

#[local] Instance entry_le_trans : Transitive entry_le.
Proof using.
  intros a b c [H1|H1] [H2|H2]; unfold entry_le, bytes_le; [left; congruence|right; congruence|right; congruence|right; by etrans].
Qed.

#[local] Instance entry_le_total : Total entry_le.
Proof using. intros a b. unfold entry_le, bytes_le. destruct (trichotomyT bytes_lt (entry_path a) (entry_path b)) as [[?|?]|?]; auto. Qed.

(** Any order in which the entries are collected gives the same hash. *)
Lemma sorted_workspace es :
  NoDup es → (∀ e, e ∈ es ↔ e ∈ workspace_entries f ws) → sorted_entries es = sorted_entries (workspace_entries f ws).
Proof using Hws.
  intros Hnd Hes. unfold sorted_entries. apply (StronglySorted_unique_strong entry_le); [| |apply StronglySorted_merge_sort; apply _|]; [|apply StronglySorted_merge_sort; apply _|].
  - intros e1 e2. rewrite !(merge_sort_Permutation entry_le), Hes. intros H1 H2 Hle1 Hle2. apply workspace_entries_inj; [done..|]. by apply bytes_le_antisymm.
  - rewrite !(merge_sort_Permutation entry_le). apply NoDup_Permutation; [done|apply NoDup_workspace_entries|done].
Qed.
End entries.

Section copy.
Context (f0 : fs) (ws st : path).
Hypothesis Hws : workspace_ok f0 ws.
Hypothesis Hst : plain_dir f0 st.
Hypothesis Hempty : ∀ x r, f0 !! (st ++ x :: r) = None.
Hypothesis Hapart : ∀ r, ¬ under st (ws ++ r).

Abbreviation src := (λ r : path, f0 !! (ws ++ r)).

(** [g'] is [g] with [k] at the places in [P] below the staging directory. *)
Definition copied (P : path → Prop) (k : path → option node) (g g' : fs) : Prop :=
  (∀ r, P r → g' !! (st ++ r) = k r) ∧ (∀ q, (∀ r, P r → q ≠ st ++ r) → g' !! q = g !! q).

Lemma copied_trans P Q k g g1 g2 : copied P k g g1 → copied Q k g1 g2 → (∀ r, Decision (Q r)) → copied (λ r, P r ∨ Q r) k g g2.
Proof using.
  intros [H1 H1'] [H2 H2'] Hdec. split.
  - intros r [Hr|Hr]; [|by apply H2]. destruct (Hdec r) as [Hq|Hq]; [by apply H2|]. rewrite H2'; [by apply H1|].
    intros r' Hr' Heq. apply (inj (app st)) in Heq. by subst.
  - intros q Hq. rewrite H2', H1'; [done|naive_solver..].
Qed.

Lemma copied_weaken (P Q : path → Prop) k g g' :
  copied P k g g' → (∀ r, P r → Q r) → (∀ r, Q r → ¬ P r → g !! (st ++ r) = k r) → (∀ r, Decision (P r)) → copied Q k g g'.
Proof using.
  intros [H1 H2] HPQ HQ Hdec. split.
  - intros r Hr. destruct (Hdec r); [by apply H1|]. rewrite H2; [by apply HQ|]. intros r' Hr' Heq. apply (inj (app st)) in Heq. by subst.
  - intros q Hq. apply H2. naive_solver.
Qed.

Lemma copied_outside P k g g' : copied P k g g' → outside (under st) f0 g → outside (under st) f0 g'.
Proof using. intros [_ H2] Hg q Hq. rewrite H2; [by apply Hg|]. intros r _ ->. apply Hq, under_app. Qed.

Lemma copied_plain P k g g' d : copied P k g g' → (∀ r s, P r → d ≠ r ++ s) → plain_dir g (st ++ d) → plain_dir g' (st ++ d).
Proof using.
  intros [_ H2] HP [Hdd Hd]. split; [done|]. intros j Hj. unfold dir_at. rewrite H2; [by apply Hd|].
  intros r Hr Heq. apply (HP r (drop (j - length st) d) Hr).
  rewrite <-(take_drop (j - length st) d) at 1. f_equal. rewrite take_app in Heq.
  assert (length st ≤ j) as Hle.
  { apply (f_equal length) in Heq. rewrite !length_app, !length_take in Heq. rewrite length_app in Hj. lia. }
  rewrite take_ge in Heq by done. by apply (inj (app st)) in Heq.
Qed.

Lemma tree_dir f q r : tree f → is_Some (f !! (q ++ r)) → r ≠ [] → dir_at f q = true.
Proof using. intros Ht [n Hn] Hr. apply not_false_is_true. intros Hd. by rewrite (tree_below f q r) in Hn. Qed.

Lemma src_plain d : dir_at f0 (ws ++ d) = true → plain_dir f0 (ws ++ d).
Proof using Hws.
  intros Hd. assert (is_Some (src d)) as Hs by (unfold dir_at in Hd; destruct (f0 !! (ws ++ d)); [by eexists|done]).
  pose proof (wk_plain _ _ Hws) as [Hdd Hp]. split.
  - intros [?|Hin]%elem_of_app; [done|]. apply (wk_names _ _ Hws) in Hs. rewrite Forall_forall in Hs.
    by destruct (Hs _ Hin) as [(_ & _ & ? & _) _].
  - intros k Hk. rewrite take_app. destruct (decide (k ≤ length ws)) as [Hle|Hgt].
    + replace (k - length ws) with 0 by lia. rewrite take_0, app_nil_r. by apply Hp.
    + rewrite (take_ge ws) by lia. destruct (decide (length d ≤ k - length ws)) as [Hge|Hlt]; [by rewrite take_ge|].
      eapply (tree_dir f0 _ (drop (k - length ws) d)); [apply Hws| |].
      * by rewrite <-(assoc_L (++)), take_drop.
      * intros Hnil. apply (f_equal length) in Hnil. rewrite length_drop in Hnil. simpl in Hnil. lia.
Qed.

Section states.
Context (g : fs).
Hypothesis Hg : outside (under st) f0 g.

Lemma src_kept r : g !! (ws ++ r) = src r.
Proof using Hg Hapart. by apply Hg. Qed.

Lemma src_plain_now d : dir_at f0 (ws ++ d) = true → plain_dir g (ws ++ d).
Proof using Hg Hapart Hws.
  intros Hd. destruct (src_plain d Hd) as [Hdd Hp]. split; [done|]. intros k Hk. unfold dir_at. rewrite Hg; [by apply Hp|].
  intros [s Hs%below_Some]. apply (Hapart d). rewrite <-(take_drop k (ws ++ d)), Hs, <-(assoc_L (++)). apply under_app.
Qed.

Lemma src_metadata d x n : src (d ++ [x]) = Some n → symlink_metadata g (ws ++ d ++ [x]) = Ok n.
Proof using Hg Hapart Hws.
  intros Hn. assert (plain_dir g (ws ++ d)) as Hp.
  { apply src_plain_now. eapply (tree_dir f0 _ [x]); [apply Hws| |done]. rewrite <-(assoc_L (++)). by eexists. }
  assert (file_name_ok x) as [(_ & _ & Hx & _) _].
  { assert (is_Some (src (d ++ [x]))) as Hs by by eexists. apply (wk_names _ _ Hws) in Hs. rewrite Forall_app, Forall_singleton in Hs. apply Hs. }
  unfold symlink_metadata. rewrite (assoc_L (++)), resolve_child by done. cbn [result_bind]. unfold node_at.
  by rewrite <-(assoc_L (++)), src_kept, Hn.
Qed.
End states.

(** *** What is collected *)

Definition skeleton (r : path) : option node := src r ≫= skeleton_node.

(** The entry of a directory or a link, and the task of a file. *)
Definition entry_of (r : path) : option BaseEntry :=
  match src r with
  | Some (NDir _ _) => Some (BaseDirectory (join_with slash r))
  | Some (NSymlink t) => Some (BaseSymlink (join_with slash r) (to_string_lossy t))
  | _ => None
  end.
Definition task_of (r : path) : option FileTask :=
  match src r with Some (NFile _ _ _) => Some (mkTask (ws ++ r) (st ++ r) (join_with slash r)) | _ => None end.

Record collects (P : path → Prop) (c : Collected) : Prop := {
  cl_entries e : e ∈ co_entries c ↔ ∃ r, P r ∧ r ≠ [] ∧ entry_of r = Some e;
  cl_tasks t : t ∈ co_file_tasks c ↔ ∃ r, P r ∧ r ≠ [] ∧ task_of r = Some t;
  cl_entries_once : NoDup (co_entries c);
  cl_tasks_once : NoDup (co_file_tasks c);
  cl_special : co_special c = [];
  cl_unstable : co_unstable c = [];
}.

Lemma entry_of_inj r s e : r ≠ [] → s ≠ [] → entry_of r = Some e → entry_of s = Some e → r = s.
Proof using Hws.
  intros Hr Hs. unfold entry_of. destruct (f0 !! (ws ++ r)) as [n|] eqn:Hn; [|done]. destruct (f0 !! (ws ++ s)) as [n'|] eqn:Hn'; [|by destruct n].
  intros He He'. apply join_names_inj; [by eapply wk_names|by eapply wk_names|done|done|]. destruct n, n'; simplify_eq; done.
Qed.

Lemma task_of_inj r s t : task_of r = Some t → task_of s = Some t → r = s.
Proof using.
  unfold task_of. intros Hr Hs. assert (st ++ r = st ++ s) as Heq by (repeat case_match; simplify_eq; done). by apply (inj (app st)) in Heq.
Qed.

Lemma collects_nothing : collects (λ _, False) nothing_collected.
Proof using. split; try done; try constructor; (by intros ?%elem_of_nil) || (by intros (? & ? & _)). Qed.

Lemma collects_ext P Q c : collects P c → (∀ r, r ≠ [] → is_Some (src r) → P r ↔ Q r) → collects Q c.
Proof using.
  intros [H1 H2 H3 H4 H5 H6] HPQ. split; try done.
  - intros e. rewrite H1. split; intros (r & Hr & Hne & He); exists r; (split; [|done]); apply HPQ; try done;
      unfold entry_of in He; (destruct (f0 !! (ws ++ r)); [by eexists|done]).
  - intros t. rewrite H2. split; intros (r & Hr & Hne & He); exists r; (split; [|done]); apply HPQ; try done;
      unfold task_of in He; (destruct (f0 !! (ws ++ r)); [by eexists|done]).
Qed.

Lemma collects_merge P Q a b :
  collects P a → collects Q b → (∀ r, P r → Q r → False) → collects (λ r, P r ∨ Q r) (merge_collected a b).
Proof using Hws.
  intros [H1 H2 H3 H4 H5 H6] [K1 K2 K3 K4 K5 K6] Hd. split; cbn.
  - intros e. rewrite elem_of_app, H1, K1. naive_solver.
  - intros t. rewrite elem_of_app, H2, K2. naive_solver.
  - apply NoDup_app. split_and!; [done| |done]. intros e (r & Hr & Hrn & He)%H1 (s & Hs & Hsn & Hse)%K1.
    assert (r = s) as -> by by eapply entry_of_inj. eauto.
  - apply NoDup_app. split_and!; [done| |done]. intros t (r & Hr & Hrn & He)%H2 (s & Hs & Hsn & Hse)%K2.
    assert (r = s) as -> by by eapply task_of_inj. eauto.
  - by rewrite H5, K5.
  - by rewrite H6, K6.
Qed.

Lemma collects_entry r e : r ≠ [] → entry_of r = Some e → collects (λ r', r' = r) (push_entry e).
Proof using.
  intros Hr He. split; cbn; try done; try (by repeat constructor).
  - intros e'. rewrite list_elem_of_singleton. split; [intros ->; by exists r|]. intros (? & -> & _ & ?). congruence.
  - intros t. split; [by intros ?%elem_of_nil|]. intros (? & -> & _ & Ht). unfold entry_of, task_of in *. by repeat case_match.
  - apply NoDup_singleton.
Qed.

Lemma collects_task r t : r ≠ [] → task_of r = Some t → collects (λ r', r' = r) (push_task t).
Proof using.
  intros Hr He. split; cbn; try done; try (by repeat constructor).
  - intros e. split; [by intros ?%elem_of_nil|]. intros (? & -> & _ & Ht). unfold entry_of, task_of in *. by repeat case_match.
  - intros t'. rewrite list_elem_of_singleton. split; [intros ->; by exists r|]. intros (? & -> & _ & ?). congruence.
  - apply NoDup_singleton.
Qed.

(** *** The walk *)

Lemma copied_insert g r n : skeleton r = Some n → copied (λ s, s = r) skeleton g (<[st ++ r := n]> g).
Proof using.
  intros Hn. split.
  - intros s ->. by rewrite lookup_insert_eq.
  - intros q Hq. rewrite lookup_insert_ne; [done|]. intros <-. by apply (Hq r).
Qed.

Lemma does_collect_child g d x n :
  outside (under st) f0 g → plain_dir g (st ++ d) → g !! (st ++ d ++ [x]) = None → src (d ++ [x]) = Some n →
  does (λ h, h = g) (collect_child ws st (ws ++ d ++ [x]))
    (λ a h, copied (λ r, r = d ++ [x]) skeleton g h ∧ collects (λ r, r = d ++ [x]) a.1 ∧ a.2 = n_is_dir n).
Proof using Hws Hapart.
  intros Hg Hd Hnew Hn. assert (Forall file_name_ok (d ++ [x])) as Hnames by by eapply wk_names.
  assert (d ++ [x] ≠ []) as Hne by by destruct d.
  assert (file_name_ok x) as [(_ & _ & Hx & _) _] by (rewrite Forall_app, Forall_singleton in Hnames; apply Hnames).
  pose proof (wk_nodes _ _ Hws _ _ Hn) as Hpn. unfold collect_child. rewrite target_below, relative_path_below by done. cbv zeta.
  eapply does_bind_attempt_reads; [by apply src_metadata|]. rewrite (assoc_L (++)) in Hnew.
  destruct n as [data mode xs|t|mode xs| |]; try done.
  - apply does_ret. intros ? ->. split_and!; [|eapply collects_task; [done|]; unfold task_of; by rewrite Hn|done].
    split; [|done]. intros r ->. unfold skeleton. rewrite Hn. cbn. by rewrite (assoc_L (++)).
  - eapply does_bind_attempt_reads; [unfold read_link; erewrite src_metadata by done; done|].
    eapply does_bind; [apply does_lift_err; rewrite (assoc_L (++)); by apply does_symlink|]. intros []. apply does_ret. intros ? ->.
    rewrite <-(assoc_L (++)). split_and!; [apply copied_insert; unfold skeleton; by rewrite Hn|eapply collects_entry; [done|]; unfold entry_of; by rewrite Hn|done].
  - eapply does_bind; [apply does_lift_err; rewrite (assoc_L (++)); by apply does_create_new|]. intros []. apply does_ret. intros ? ->.
    rewrite <-(assoc_L (++)). split_and!; [apply copied_insert; unfold skeleton; by rewrite Hn|eapply collects_entry; [done|]; unfold entry_of; by rewrite Hn|done].
Qed.

(** [r] lies strictly below [d]. *)
Definition sub (d r : path) : Prop := match below d r with Some (_ :: _) => True | _ => False end.
#[local] Instance sub_dec d r : Decision (sub d r).
Proof using. unfold sub. destruct (below d r) as [[]|]; apply _. Defined.

Lemma sub_spec d r : sub d r ↔ ∃ x s, r = d ++ x :: s.
Proof using.
  unfold sub. split.
  - destruct (below d r) as [[|x s]|] eqn:Hb; [done| |done]. intros _. exists x, s. by apply below_Some.
  - intros (x & s & ->). by rewrite below_app.
Qed.

Definition children (d : path) (ns : list bytes) : list path := (λ x, d ++ [x]) <$> ns.

Lemma elem_of_children d ns r : r ∈ children d ns ↔ ∃ x, r = d ++ [x] ∧ x ∈ ns.
Proof using. apply list_elem_of_fmap. Qed.

Definition is_src_dir (d : path) (x : bytes) : bool := dir_at f0 (ws ++ d ++ [x]).

Lemma does_collect_children d ns : ∀ g P c subdirs,
  NoDup ns → (∀ x, x ∈ ns → is_Some (src (d ++ [x]))) →
  outside (under st) f0 g → plain_dir g (st ++ d) → (∀ x, x ∈ ns → g !! (st ++ d ++ [x]) = None) →
  collects P c → (∀ x, x ∈ ns → ¬ P (d ++ [x])) →
  does (λ h, h = g) (collect_children ws st (ws ++ d) ns c subdirs)
    (λ a h, copied (λ r, r ∈ children d ns) skeleton g h ∧ collects (λ r, P r ∨ r ∈ children d ns) a.1 ∧
            a.2 = subdirs ++ ((λ x, ws ++ d ++ [x]) <$> filter (λ x, is_src_dir d x = true) ns)).
Proof using Hws Hapart.
  induction ns as [|x ns IH]; intros g P c subdirs Hnd Hsrc Hg Hd Hnew Hc HP.
  { apply does_ret. intros ? ->. split_and!; [|eapply collects_ext; [done|]|by rewrite filter_nil, app_nil_r].
    - split; [by intros r ?%elem_of_nil|done].
    - intros r _ _. split; [by left|]. intros [?|?%elem_of_nil]; done. }
  apply NoDup_cons in Hnd as [Hx Hnd]. destruct (Hsrc x) as [n Hn]; [by left|]. cbn [collect_children]. cbv zeta.
  rewrite <-(assoc_L (++)). eapply does_bind; [apply (does_collect_child g d x n); [done|done|by apply Hnew; left|done]|].
  intros [c1 b]. apply does_pre. intros h (Hcop & Hcol & Hb). cbn [fst snd] in *.
  assert (∀ y, y ∈ ns → d ++ [y] ≠ d ++ [x]) as Hyx by (intros y Hy Heq%(inj (app d)); by simplify_eq).
  eapply does_conseq; [eapply (IH h (λ r, P r ∨ r = d ++ [x]))| |].
  - done.
  - intros y Hy. apply Hsrc. by right.
  - by eapply copied_outside.
  - eapply copied_plain; [done| |done]. intros r s -> Heq%(f_equal length). rewrite !length_app in Heq. simpl in Heq. lia.
  - intros y Hy. destruct Hcop as [_ Hout]. rewrite Hout; [by apply Hnew; right|]. intros r -> Heq%(inj (app st)). by apply (Hyx y).
  - apply collects_merge; [done|done|]. intros r Hr ->. apply (HP x); [by left|done].
  - intros y Hy [?|?]; [|by apply (Hyx y)]. apply (HP y); [by right|done].
  - intros ? ->. done.
  - intros [c2 subs] k (Hcop2 & Hcol2 & ->). cbn [fst snd] in *. split_and!.
    + eapply copied_weaken; [eapply copied_trans; [exact Hcop|exact Hcop2|apply _]| | |apply _].
      * intros r. rewrite !elem_of_children. intros [->|(y & -> & Hy)]; [exists x|exists y]; (split; [done|by constructor]).
      * intros r. rewrite !elem_of_children. intros (y & -> & [->|Hy]%elem_of_cons) Hno; exfalso; apply Hno; eauto.
    + eapply collects_ext; [exact Hcol2|]. intros r _ _. rewrite !elem_of_children. setoid_rewrite elem_of_cons. naive_solver.
    + assert (is_src_dir d x = n_is_dir n) as Hdx by (unfold is_src_dir, dir_at; by rewrite Hn). rewrite filter_cons. subst b.
      destruct (n_is_dir n); [rewrite decide_True by done; cbn; by rewrite <-(assoc_L (++))|by rewrite decide_False by (by rewrite Hdx)].
Qed.

(** The recursive calls, one for every directory among the names. *)
Lemma does_collect_subdirs collect d xs : ∀ g P c,
  (∀ x g, x ∈ xs → outside (under st) f0 g → plain_dir g (st ++ d ++ [x]) → (∀ r, sub (d ++ [x]) r → g !! (st ++ r) = None) →
     does (λ h, h = g) (collect (ws ++ d ++ [x])) (λ a h, copied (sub (d ++ [x])) skeleton g h ∧ collects (sub (d ++ [x])) a)) →
  NoDup xs → outside (under st) f0 g → (∀ x, x ∈ xs → plain_dir g (st ++ d ++ [x])) →
  (∀ x r, x ∈ xs → sub (d ++ [x]) r → g !! (st ++ r) = None) →
  collects P c → (∀ x r, x ∈ xs → sub (d ++ [x]) r → ¬ P r) →
  does (λ h, h = g) (collect_subdirs collect ((λ x, ws ++ d ++ [x]) <$> xs) c)
    (λ a h, copied (λ r, Exists (λ x, sub (d ++ [x]) r) xs) skeleton g h ∧ collects (λ r, P r ∨ Exists (λ x, sub (d ++ [x]) r) xs) a).
Proof using Hws.
  assert (∀ x y r, x ≠ y → sub (d ++ [x]) r → sub (d ++ [y]) r → False) as Hxy.
  { intros x y r Hne (a & s & ->)%sub_spec (b & s' & Heq)%sub_spec. rewrite <-!(assoc_L (++)) in Heq. apply (inj (app d)) in Heq. by simplify_eq/=. }
  induction xs as [|x xs IH]; intros g P c Hrec Hnd Hg Hpl Hnew Hc HP.
  { apply does_ret. intros ? ->. split.
    - split; [by intros r ?%Exists_nil|done].
    - eapply collects_ext; [done|]. intros r _ _. rewrite Exists_nil. naive_solver. }
  apply NoDup_cons in Hnd as [Hx Hnd]. cbn [fmap list_fmap collect_subdirs].
  eapply does_bind; [apply (Hrec x g); [by left|done|by apply Hpl; left|by intros r; apply Hnew; left]|].
  intros c1. apply does_pre. intros h (Hcop & Hcol). assert (∀ y, y ∈ xs → x ≠ y) as Hne by (intros y Hy ->; done).
  eapply does_conseq; [eapply (IH h (λ r, P r ∨ sub (d ++ [x]) r))| |].
  - intros y g' Hy. apply Hrec. by right.
  - done.
  - by eapply copied_outside.
  - intros y Hy. eapply copied_plain; [exact Hcop| |by apply Hpl; right]. intros r s (a & s' & ->)%sub_spec Heq%(f_equal length).
    rewrite !length_app in Heq. simpl in Heq. lia.
  - intros y r Hy Hr. destruct Hcop as [_ Hout]. rewrite Hout; [by eapply Hnew; [right|]|]. intros r' Hr' ->%(inj (app st)).
    by eapply (Hxy x y); [apply Hne| |].
  - apply collects_merge; [done|done|]. intros r Hr Hr'. by eapply HP; [left| |].
  - intros y r Hy Hr [?|?]; [by eapply HP; [right| |]|]. by eapply (Hxy x y); [apply Hne| |].
  - intros ? ->. done.
  - intros a k (Hcop2 & Hcol2). split.
    + eapply copied_weaken; [eapply copied_trans; [exact Hcop|exact Hcop2|apply _]| | |apply _]; intros r; rewrite Exists_cons; [done|by intros ? []].
    + eapply collects_ext; [exact Hcol2|]. intros r _ _. rewrite Exists_cons. naive_solver.
Qed.

Lemma sub_child d x r : sub (d ++ [x]) r → sub d r.
Proof using. rewrite !sub_spec. intros (a & s & ->). exists x, (a :: s). by rewrite <-(assoc_L (++)). Qed.

(** A place below [d] is a child or lies below a child that is a directory, if
    there is anything. *)
Lemma sub_cases d ns r :
  (∀ x, x ∈ ns ↔ is_Some (src (d ++ [x]))) → is_Some (src r) →
  sub d r ↔ r ∈ children d ns ∨ Exists (λ x, sub (d ++ [x]) r) (filter (λ x, is_src_dir d x = true) ns).
Proof using Hws.
  intros Hns Hr. rewrite elem_of_children, Exists_exists. split.
  - intros (x & s & ->)%sub_spec. destruct s as [|y s]; [left|right].
    + exists x. split; [done|]. by apply Hns.
    + exists x. split; [|apply sub_spec; exists y, s; by rewrite <-(assoc_L (++))].
      assert (dir_at f0 (ws ++ d ++ [x]) = true) as Hd.
      { eapply (tree_dir f0 _ (y :: s)); [apply Hws| |done]. by rewrite <-!(assoc_L (++)). }
      apply list_elem_of_filter. split; [done|]. apply Hns. unfold dir_at in Hd.
      by destruct (f0 !! (ws ++ d ++ [x])).
  - intros [(x & -> & _)|(x & _ & Hx)]; [|by eapply sub_child]. apply sub_spec. by exists x, [].
Qed.

Lemma children_plain d ns g h x :
  copied (λ r, r ∈ children d ns) skeleton g h → plain_dir g (st ++ d) → x ∈ ns → is_src_dir d x = true → plain_dir h (st ++ d ++ [x]).
Proof using Hws.
  intros Hcop Hd Hx Hdx. assert (src (d ++ [x]) ≠ None) as Hsome by (unfold is_src_dir, dir_at in Hdx; by destruct (f0 !! (ws ++ d ++ [x]))).
  rewrite (assoc_L (++)). apply plain_dir_snoc.
  - eapply copied_plain; [done| |done]. intros r s (y & -> & _)%elem_of_children Heq%(f_equal length). rewrite !length_app in Heq. simpl in Heq. lia.
  - unfold dir_at. rewrite <-(assoc_L (++)). destruct Hcop as [Hcop _]. rewrite Hcop by (apply elem_of_children; eauto).
    unfold skeleton. unfold is_src_dir, dir_at in Hdx. destruct (f0 !! (ws ++ d ++ [x])) as [[]|]; done.
  - destruct (f0 !! (ws ++ d ++ [x])) as [n|] eqn:Hn; [|done]. assert (is_Some (src (d ++ [x]))) as Hs by by eexists.
    apply (wk_names _ _ Hws) in Hs. rewrite Forall_app, Forall_singleton in Hs. by destruct Hs as [_ [(_ & _ & ? & _) _]].
Qed.

(** The walk copies directories and links, and collects them and the files. *)
Lemma does_collect_subtree fuel : ∀ d g,
  dir_at f0 (ws ++ d) = true → (∀ r, is_Some (src (d ++ r)) → length r < fuel) →
  outside (under st) f0 g → plain_dir g (st ++ d) → (∀ r, sub d r → g !! (st ++ r) = None) →
  does (λ h, h = g) (collect_subtree fuel ws st (ws ++ d)) (λ c h, copied (sub d) skeleton g h ∧ collects (sub d) c).
Proof using Hws Hapart.
  induction fuel as [|fuel IH]; intros d g Hd Hfuel Hg Hpl Hnew.
  { exfalso. assert (length (@nil bytes) < 0); [|simpl in *; lia]. apply Hfuel. rewrite app_nil_r. unfold dir_at in Hd. by destruct (f0 !! (ws ++ d)). }
  pose proof (src_plain_now g Hg d Hd) as Hdg. set (ns := names g (ws ++ d)).
  assert (∀ x, x ∈ ns ↔ is_Some (src (d ++ [x]))) as Hin.
  { intros x. unfold ns. rewrite elem_of_names, <-(assoc_L (++)). by rewrite (src_kept g Hg). }
  assert (∀ x r, sub (d ++ [x]) r → g !! (st ++ r) = None) as Hnew' by (intros x r Hr; by eapply Hnew, sub_child).
  cbn [collect_subtree]. eapply does_bind_attempt_reads; [by apply read_dir_plain|].
  eapply does_bind; [apply (does_collect_children d ns g (λ _, False))|].
  { apply NoDup_names. } { intros x. apply Hin. } { done. } { done. }
  { intros x Hx. apply Hnew, sub_spec. by exists x, []. } { apply collects_nothing. } { by intros ? ? []. }
  intros [c subs]. apply does_pre. intros h (Hcop & Hcol & ->). cbn [fst snd app] in *.
  assert (∀ x r, sub (d ++ [x]) r → r ∉ children d ns) as Hdis.
  { intros x r (a & s & ->)%sub_spec (y & Heq & _)%elem_of_children. rewrite <-(assoc_L (++)) in Heq. apply (inj (app d)) in Heq. done. }
  eapply does_conseq; [eapply (does_collect_subdirs _ d _ h (λ r, False ∨ r ∈ children d ns))| |].
  - intros x g' Hx Hg' Hpl' Hnew''. apply list_elem_of_filter in Hx as [Hx _]. apply IH; [done| |done|done|done].
    intros r Hr. apply (Nat.succ_lt_mono (length r)). apply (Hfuel (x :: r)). by rewrite <-(assoc_L (++)) in Hr.
  - apply NoDup_filter, NoDup_names.
  - by eapply copied_outside.
  - intros x [Hdx Hx]%list_elem_of_filter. by eapply children_plain.
  - intros x r _ Hr. destruct Hcop as [_ Hout]. rewrite Hout; [by eapply Hnew'|]. intros r' Hr' ->%(inj (app st)). by eapply Hdis.
  - done.
  - intros x r _ Hr [[]|?]. by eapply Hdis.
  - intros ? ->. done.
  - intros a k (Hcop2 & Hcol2). split.
    + eapply copied_weaken; [eapply copied_trans; [exact Hcop|exact Hcop2|apply _]| | |apply _]; cbv beta.
      * intros r [(x & -> & _)%elem_of_children|(x & _ & Hx)%Exists_exists]; [apply sub_spec; by exists x, []|by eapply sub_child].
      * intros r Hr Hno. rewrite Hnew by done. unfold skeleton. destruct (f0 !! (ws ++ r)) as [n|] eqn:Hn; [|done].
        exfalso. apply Hno. apply sub_cases; [done|by eexists|done].
    + eapply collects_ext; [exact Hcol2|]. intros r _ Hr. rewrite sub_cases by done. naive_solver.
Qed.

(** *** The files *)

Lemma does_write_more f q written chunk mode xs :
  does (λ g, g = <[q := NFile written mode xs]> f) (write_more q written chunk) (λ _ g, g = <[q := NFile (written ++ chunk) mode xs]> f).
Proof using.
  intros w Hw. unfold write_more, bind, fault, reads, fail, set_fs.
  destruct (w_faults w) as [|[k|] ys] eqn:Hf; cbn; [|done|]; rewrite Hw; unfold put_data; rewrite lookup_insert_eq, insert_insert_eq; done.
Qed.

Lemma copy_buffer : (0 < COPY_BUFFER_BYTES)%Z.
Proof using. done. Qed.

#[local] Opaque COPY_BUFFER_BYTES.

Lemma does_copy_loop f q mode xs fuel : ∀ written rest,
  length rest ≤ fuel →
  doesx (λ g, g = <[q := NFile written mode xs]> f) (copy_loop fuel q written rest (Z.of_nat (length rest)))
    (λ a g, a = written ++ rest ∧ g = <[q := NFile (written ++ rest) mode xs]> f) (λ e, ∃ e', e = Target e').
Proof using.
  pose proof copy_buffer as Hbuf. induction fuel as [|fuel IH]; intros written rest Hlen; cbn [copy_loop].
  - destruct rest; [|simpl in *; lia]. rewrite decide_True by done. apply doesx_ret. intros ? ->. by rewrite app_nil_r.
  - case_decide as Hrem.
    + destruct rest; [|simpl in *; lia]. apply doesx_ret. intros ? ->. by rewrite app_nil_r.
    + set (cap := Z.to_nat (Z.min (Z.of_nat (length rest)) COPY_BUFFER_BYTES)). assert (0 < cap ≤ length rest) as Hcap by lia.
      rewrite decide_False by (intros Hnil%(f_equal length); rewrite length_take in Hnil; simpl in Hnil; lia).
      eapply doesx_bind; [apply doesx_lift, does_write_more|]. intros [].
      replace (Z.of_nat (length rest) - Z.of_nat (length (take cap rest)))%Z with (Z.of_nat (length (drop cap rest)))
        by (rewrite length_take, length_drop; lia).
      apply doesx_pre. intros ? ->. specialize (IH (written ++ take cap rest) (drop cap rest)).
      rewrite <-(assoc_L (++)), take_drop in IH. intros w Hw. apply IH; [rewrite length_drop; lia|done].
Qed.

Context (sha256 : bytes → bytes).

Definition file_entry_of (r : path) : option BaseEntry :=
  match src r with
  | Some (NFile data _ _) => Some (BaseFile (join_with slash r) (Z.of_nat (length data)) (hex_lower (sha256 data)))
  | _ => None
  end.

Lemma does_copy_one_file g d x data mode xs :
  outside (under st) f0 g → plain_dir g (st ++ d) → g !! (st ++ d ++ [x]) = None → src (d ++ [x]) = Some (NFile data mode xs) →
  does (λ h, h = g) (copy_one_file sha256 (mkTask (ws ++ d ++ [x]) (st ++ d ++ [x]) (join_with slash (d ++ [x]))))
    (λ a h, (∃ e, file_entry_of (d ++ [x]) = Some e ∧ a = Copied e) ∧ h = <[st ++ d ++ [x] := NFile data mode ∅]> g).
Proof using Hws Hapart.
  intros Hg Hd Hnew Hn. assert (metadata g (ws ++ d ++ [x]) = Ok (NFile data mode xs)) as Hm.
  { eapply metadata_of_symlink_metadata; [by apply src_metadata|done]. }
  assert (x ≠ dotdot) as Hx.
  { assert (is_Some (src (d ++ [x]))) as Hs by by eexists. apply (wk_names _ _ Hws) in Hs. rewrite Forall_app, Forall_singleton in Hs.
    by destruct Hs as [_ [(_ & _ & ? & _) _]]. }
  rewrite !(assoc_L (++) st) in *. unfold copy_one_file. cbn [ft_source ft_target ft_rel].
  eapply does_attempt with (R := λ e, ∃ e', e = Target e').
  - unfold copy_file_with_hash. eapply (doesx_bind _ _ _ (λ n h, n = NFile data mode xs ∧ h = g)).
    + intros w Hw. unfold lift_err, reads. rewrite Hw, Hm. done.
    + intros n. apply doesx_pre. intros ? [-> ->]. eapply doesx_bind; [by apply doesx_lift, does_file_create|]. intros q.
      apply doesx_pre. intros ? [-> ->]. eapply doesx_bind; [by apply does_copy_loop|]. intros written. apply doesx_pre. intros ? [-> ->].
      cbn [app]. eapply (doesx_bind _ _ _ (λ _ h, h = <[(st ++ d) ++ [x] := NFile data mode ∅]> g)).
      * apply doesx_lift. apply does_syscall. intros ? ->. rewrite lookup_insert_eq, insert_insert_eq. eauto.
      * intros []. apply (doesx_ret _ _ (λ a h, a = (Z.of_nat (length data), hex_lower (sha256 data)) ∧ h = <[(st ++ d) ++ [x] := NFile data mode ∅]> g)).
        done.
  - intros [size hash]. apply does_pre. intros ? [[= -> ->] ->]. apply does_ret. intros ? ->. split; [|done].
    eexists. split; [|done]. unfold file_entry_of. by rewrite Hn.
  - by intros e w [e' ->].
Qed.

Definition full (r : path) : option node := copy_node <$> src r.

Definition task (r : path) : FileTask := mkTask (ws ++ r) (st ++ r) (join_with slash r).

Definition src_file (r : path) : Prop := ∃ data mode xs, src r = Some (NFile data mode xs).

(** The outcome of copying the file [r]. *)
Definition file_copied (r : path) (o : FileOutcome) : Prop := ∃ e, file_entry_of r = Some e ∧ o = Copied e.

(** Where the directories have been made. *)
Definition staged (g : fs) : Prop := outside (under st) f0 g ∧ ∀ d, dir_at f0 (ws ++ d) = true → plain_dir g (st ++ d).

Lemma src_file_dir r x s : src_file r → is_Some (src (r ++ x :: s)) → False.
Proof using Hws.
  intros (data & mode & xs & Hr) Hs. assert (dir_at f0 (ws ++ r) = true) as Hd.
  { eapply (tree_dir f0 _ (x :: s)); [apply Hws| |done]. by rewrite <-(assoc_L (++)). }
  unfold dir_at in Hd. by rewrite Hr in Hd.
Qed.

Lemma staged_file g r n : src_file r → staged g → staged (<[st ++ r := n]> g).
Proof using Hws.
  intros Hr [Hout Hpl]. split; [apply outside_insert; [apply under_app|done]|]. intros d Hd.
  assert (copied (λ s, s = r) (λ _, Some n) g (<[st ++ r := n]> g)) as Hcop.
  { split; [intros s ->; by rewrite lookup_insert_eq|]. intros q Hq. rewrite lookup_insert_ne; [done|]. intros <-. by apply (Hq r). }
  eapply copied_plain; [exact Hcop| |by apply Hpl]. intros ? s -> ->. destruct s as [|x s].
  - rewrite app_nil_r in Hd. destruct Hr as (? & ? & ? & Hr). unfold dir_at in Hd. by rewrite Hr in Hd.
  - eapply (src_file_dir r x s); [done|]. unfold dir_at in Hd. by destruct (f0 !! (ws ++ r ++ x :: s)).
Qed.

Lemma does_copy_files rs : ∀ g,
  NoDup rs → (∀ r, r ∈ rs → r ≠ [] ∧ src_file r ∧ g !! (st ++ r) = None) → staged g →
  does (λ h, h = g) (copy_files sha256 (task <$> rs))
    (λ os h, Forall2 file_copied rs os ∧ copied (λ r, r ∈ rs) full g h).
Proof using Hws Hapart.
  induction rs as [|r rs IH]; intros g Hnd Hrs Hst'.
  { apply does_ret. intros ? ->. split; [constructor|]. split; [by intros r ?%elem_of_nil|done]. }
  apply NoDup_cons in Hnd as [Hnin Hnd]. destruct (Hrs r) as (Hne & Hf & Hnew); [by left|]. pose proof Hf as (data & mode & xs & Hr).
  cbn [fmap list_fmap copy_files]. destruct r as [|x d _] using rev_ind; [done|].
  eapply does_bind; [eapply (does_copy_one_file g d x data mode xs); [apply Hst'| |done|done]|].
  { apply Hst'. eapply (tree_dir f0 _ [x]); [apply Hws| |done]. rewrite <-(assoc_L (++)). by eexists. }
  intros o. apply does_pre. intros h [Ho ->]. eapply does_bind; [apply (IH (<[st ++ d ++ [x] := NFile data mode ∅]> g)); [done| |by apply staged_file]|].
  { intros r Hin. destruct (Hrs r) as (? & ? & ?); [by right|]. split_and!; [done..|]. rewrite lookup_insert_ne; [done|].
    intros Heq%(inj (app st)). by subst. }
  intros os. apply does_ret. intros k [Hos [H1 H2]]. split; [by constructor|]. split.
  - intros r [->|Hin]%elem_of_cons; [|by apply H1]. rewrite H2.
    + rewrite lookup_insert_eq. unfold full. by rewrite Hr.
    + intros r' Hr' Heq%(inj (app st)). by subst.
  - intros q Hq. rewrite H2 by (intros r' Hr'; apply Hq; by right). rewrite lookup_insert_ne; [done|]. intros <-.
    by apply (Hq (d ++ [x])); [left|].
Qed.

Lemma sub_nil r : sub [] r ↔ r ≠ [].
Proof using. unfold sub. by destruct r. Qed.

Lemma collected_tasks c :
  collects (sub []) c → ∃ rs, co_file_tasks c = task <$> rs ∧ NoDup rs ∧ ∀ r, r ∈ rs ↔ r ≠ [] ∧ src_file r.
Proof using.
  intros Hc. assert (∀ t, t ∈ co_file_tasks c → ∃ r, r ≠ [] ∧ src_file r ∧ t = task r) as Hex.
  { intros t (r & _ & Hr & Ht)%(cl_tasks _ _ Hc). exists r. unfold task_of, src_file in *. destruct (f0 !! (ws ++ r)) as [[]|]; simplify_eq. eauto 10. }
  set (pick := λ t, drop (length st) (ft_target t)). assert (∀ r, pick (task r) = r) as Hpick by (intros r; unfold pick; cbn; by rewrite drop_app_length).
  exists (pick <$> co_file_tasks c). assert (co_file_tasks c = task <$> (pick <$> co_file_tasks c)) as Heq.
  { rewrite <-list_fmap_compose. rewrite <-(list_fmap_id (co_file_tasks c)) at 1. apply list_fmap_ext. intros i t Ht%list_elem_of_lookup_2.
    destruct (Hex t Ht) as (r & _ & _ & ->). cbn. by rewrite Hpick. }
  split_and!; [done| |].
  - eapply (NoDup_fmap_1 task). rewrite <-Heq. apply Hc.
  - intros r. rewrite list_elem_of_fmap. split.
    + intros (t & -> & Ht). destruct (Hex t Ht) as (r & ? & ? & ->). by rewrite Hpick.
    + intros [Hr (data & mode & xs & Hs)]. exists (task r). split; [done|]. apply (cl_tasks _ _ Hc). exists r. split_and!; [by apply sub_nil|done|].
      unfold task_of. by rewrite Hs.
Qed.

Lemma merged_outcomes rs : ∀ os c,
  Forall2 file_copied rs os → ∃ es, Forall2 (λ r e, file_entry_of r = Some e) rs es ∧
    merge_file_outcomes os c = mkCollected (co_entries c ++ es) (co_file_tasks c) (co_special c) (co_unstable c).
Proof using.
  induction rs as [|r rs IH]; intros os c Hos.
  - apply Forall2_nil_inv_l in Hos as ->. exists []. split; [constructor|]. rewrite app_nil_r. by destruct c.
  - apply Forall2_cons_inv_l in Hos as (o & os' & (e & He & ->) & Hos & ->).
    destruct (IH os' (merge_collected c (push_entry e)) Hos) as (es & Hes & Heq). exists (e :: es). split; [by constructor|].
    unfold merge_file_outcomes in *. cbn [foldl outcome_collected]. rewrite Heq. cbn. by rewrite <-(assoc_L (++)), !app_nil_r.
Qed.

Lemma entry_cases r e :
  entry_of r = Some e ∨ file_entry_of r = Some e ↔ ∃ n, src r = Some n ∧ node_entry sha256 r n = Some e.
Proof using.
  unfold entry_of, file_entry_of. destruct (f0 !! (ws ++ r)) as [[]|]; cbn; naive_solver.
Qed.

Lemma NoDup_file_entries rs es :
  Forall2 (λ r e, file_entry_of r = Some e) rs es → NoDup rs → (∀ r, r ∈ rs → r ≠ []) → NoDup es.
Proof using Hws.
  induction 1 as [|r e rs es He Hes IH]; intros Hnd Hne; [constructor|]. apply NoDup_cons in Hnd as [Hr Hnd].
  apply NoDup_cons. split; [|apply IH; [done|]; intros r' Hr'; apply Hne; by right].
  intros Hin. destruct (list_elem_of_lookup_1 _ _ Hin) as [i Hi].
  destruct (Forall2_lookup_r _ _ _ _ _ Hes Hi) as (r' & Hr' & He'). apply list_elem_of_lookup_2 in Hr'.
  destruct (proj1 (entry_cases r e) (or_intror He)) as (n & Hn & Hne1). destruct (proj1 (entry_cases r' e) (or_intror He')) as (n' & Hn' & Hne2).
  destruct (node_entry_inj sha256 f0 ws Hws r n e r' n' e) as [-> _]; [apply Hne; by left|apply Hne; by right|done..].
Qed.

Lemma copied_hash c rs es :
  collects (sub []) c → NoDup rs → (∀ r, r ∈ rs ↔ r ≠ [] ∧ src_file r) → Forall2 (λ r e, file_entry_of r = Some e) rs es →
  base_root_hash sha256 (co_entries c ++ es) = workspace_hash sha256 f0 ws.
Proof using Hws.
  intros Hc Hnd Hrs Hes. unfold workspace_hash, base_root_hash. do 3 f_equal.
  assert (∀ e, e ∈ es ↔ ∃ r, r ≠ [] ∧ file_entry_of r = Some e) as Hin.
  { intros e. split.
    - intros [i Hi]%list_elem_of_lookup_1. destruct (Forall2_lookup_r _ _ _ _ _ Hes Hi) as (r & Hr & He). apply list_elem_of_lookup_2, Hrs in Hr as [? _]. eauto.
    - intros (r & Hr & He). assert (r ∈ rs) as [i Hi]%list_elem_of_lookup_1.
      { apply Hrs. split; [done|]. unfold file_entry_of in He. unfold src_file. destruct (f0 !! (ws ++ r)) as [[]|]; simplify_eq. eauto. }
      destruct (Forall2_lookup_l _ _ _ _ _ Hes Hi) as (e' & He' & Heq). rewrite He in Heq. simplify_eq. by eapply list_elem_of_lookup_2. }
  apply sorted_workspace; [done| |].
  - apply NoDup_app. split_and!; [apply Hc| |eapply NoDup_file_entries; [done|done|]; intros r Hr; by apply Hrs].
    intros e (r & _ & Hr & He)%(cl_entries _ _ Hc) (r' & Hr' & He')%Hin.
    destruct (proj1 (entry_cases r e) (or_introl He)) as (n & Hn & Hne1). destruct (proj1 (entry_cases r' e) (or_intror He')) as (n' & Hn' & Hne2).
    destruct (node_entry_inj sha256 f0 ws Hws r n e r' n' e) as [-> _]; [done..|]. unfold entry_of, file_entry_of in *. by repeat case_match.
  - intros e. rewrite elem_of_app, (cl_entries _ _ Hc), Hin, elem_of_workspace_entries. setoid_rewrite sub_nil. split.
    + intros [(r & _ & Hr & He)|(r & Hr & He)]; (destruct (proj1 (entry_cases r e)) as (n & Hn & Hne); [by auto|]); by exists r, n.
    + intros (r & n & Hr & Hn & He). destruct (proj2 (entry_cases r e)) as [?|?]; [by exists n|left; by exists r|right; by exists r].
Qed.

Lemma does_collect_all :
  does (λ h, h = f0) (collect_subtree (S (depth_bound f0)) ws st ws) (λ c h, copied (sub []) skeleton f0 h ∧ collects (sub []) c).
Proof using Hws Hst Hempty Hapart.
  rewrite <-(app_nil_r ws) at 2. apply does_collect_subtree; [| |done|by rewrite app_nil_r|].
  - rewrite app_nil_r. apply plain_dir_at, Hws.
  - intros r [n Hn]. apply depth_bound_spec in Hn. rewrite length_app in Hn. simpl in Hn. lia.
  - intros r (x & s & ->)%sub_spec. apply Hempty.
Qed.

Lemma skeleton_staged h : copied (sub []) skeleton f0 h → staged h.
Proof using Hws Hst.
  intros [H1 H2]. split; [by eapply copied_outside|]. intros d Hd. destruct (src_plain d Hd) as [Hdd Hp].
  assert (dotdot ∉ st ++ d) as Hdd'.
  { destruct Hst as [Hsd _]. rewrite !elem_of_app in *. naive_solver. }
  split; [done|]. intros k Hk. rewrite take_app. destruct (decide (k ≤ length st)) as [Hle|Hgt].
  - replace (k - length st) with 0 by lia. rewrite take_0, app_nil_r. unfold dir_at. rewrite H2; [by apply Hst|].
    intros r Hr%sub_nil Heq%(f_equal length). rewrite length_app, length_take in Heq. destruct r; [done|]. simpl in Heq. lia.
  - rewrite (take_ge st) by lia. set (j := k - length st). rewrite length_app in Hk. assert (take j d ≠ []) as Hne.
    { intros Hn%(f_equal length). rewrite length_take in Hn. simpl in Hn. lia. }
    unfold dir_at. rewrite H1 by by apply sub_nil. specialize (Hp (length ws + j)). rewrite length_app, take_app_add' in Hp by done.
    assert (dir_at f0 (ws ++ take j d) = true) as Hdj by (apply Hp; lia). unfold dir_at, skeleton in *.
    destruct (f0 !! (ws ++ take j d)) as [[]|]; done.
Qed.

Lemma does_copy_all c h :
  copied (sub []) skeleton f0 h → collects (sub []) c →
  does (λ k, k = h) (copy_files sha256 (co_file_tasks c))
    (λ os k, co_special (merge_file_outcomes os c) = [] ∧ co_unstable (merge_file_outcomes os c) = [] ∧
             base_root_hash sha256 (co_entries (merge_file_outcomes os c)) = workspace_hash sha256 f0 ws ∧ copied (λ r, r ≠ []) full f0 k).
Proof using Hws Hst Hapart.
  intros Hh Hc. destruct (collected_tasks c Hc) as (rs & Htasks & Hnd & Hrs). rewrite Htasks.
  eapply does_conseq; [apply (does_copy_files rs h); [done| |by apply skeleton_staged]|done|].
  - intros r [Hr Hf]%Hrs. split_and!; [done..|]. destruct Hh as [Hh _]. rewrite Hh by by apply sub_nil.
    unfold skeleton. by destruct Hf as (data & mode & xs & ->).
  - intros os k [Hos [H1 H2]]. destruct (merged_outcomes rs os c Hos) as (es & Hes & ->). cbn. split_and!; [apply Hc|apply Hc|by eapply copied_hash|].
    destruct Hh as [Hh1 Hh2]. split.
    + intros r Hr. destruct (decide (r ∈ rs)) as [Hin|Hin]; [by apply H1|]. rewrite H2 by (intros r' Hr' ->%(inj (app st)); done).
      rewrite Hh1 by by apply sub_nil. rewrite Hrs in Hin. unfold skeleton, full, skeleton_node. destruct (f0 !! (ws ++ r)) as [[]|] eqn:Hn; cbn; try done.
      exfalso. apply Hin. split; [done|]. by eexists _, _, _.
    + intros q Hq. rewrite H2, Hh2; [done|..]; intros r Hr; apply Hq; [by apply sub_nil|by apply Hrs].
Qed.
End copy.

(** ** The base layer *)

Abbreviation BASE_STAGING := (WORKSPACE_BASE_LAYER_ID ++ lit ".staging").

Section base.
Context (sha256 : bytes → bytes) (f : fs) (stack ws : path) (lp : bytes).

Abbreviation layer := (stack ++ [lp; WORKSPACE_BASE_LAYER_ID]).
Abbreviation st := (stack ++ [STAGING_DIR; BASE_STAGING]).

(** There is room for a base layer, and the workspace is elsewhere. *)
Record base_pre : Prop := {
  bp_ws : workspace_ok f ws;
  bp_staging : makeable f (stack ++ [STAGING_DIR]);
  bp_parent : makeable f (stack ++ [lp]);
  bp_name : lp ≠ STAGING_DIR;
  bp_no_layer r : f !! (layer ++ r) = None;
  bp_no_staging r : f !! (st ++ r) = None;
  bp_apart r : ¬ under stack (ws ++ r);
}.

(** The layer holds a copy of the workspace, the staging directory is gone, all
    that was there still is, and at most the directories above them are new. *)
Record base_made (h : fs) : Prop := {
  bm_layer r : h !! (layer ++ r) = copy_node <$> f !! (ws ++ r);
  bm_staging r : h !! (st ++ r) = None;
  bm_parent : plain_dir h (stack ++ [lp]);
  bm_dirs q n : f !! q = Some n → h !! q = Some n;
  bm_rest q : ¬ under layer q → (∀ s, stack ++ [lp] ≠ q ++ s) → (∀ s, stack ++ [STAGING_DIR] ≠ q ++ s) → h !! q = f !! q;
}.

Hypothesis Hpre : base_pre.

Lemma gap_exists q c : makeable f q → c ≠ dotdot → f !! (q ++ [c]) = None → exists_ f (q ++ [c]) = false.
Proof using.
  intros Hm Hc Hn. unfold exists_, metadata. destruct (decide (f !! q = None)) as [Hq|Hq].
  - unfold resolve. by rewrite walk_gap.
  - rewrite resolve_new by (done || by apply makeable_plain). cbn [result_bind]. unfold node_at. by rewrite Hn.
Qed.

Lemma makeable_snoc q c : makeable f q → c ≠ dotdot → (∀ r, f !! (q ++ c :: r) = None) → makeable f (q ++ [c]).
Proof using.
  intros [H1 H2 H3 H4] Hc Hn. assert (∀ p r, q ++ [c] = p ++ r → (r = [] ∧ p = q ++ [c]) ∨ ∃ r', r = r' ++ [c] ∧ q = p ++ r') as Hsplit.
  { intros p r Heq. destruct r as [|x r _] using rev_ind; [left; by rewrite app_nil_r in Heq|right].
    rewrite (assoc_L (++)) in Heq. apply app_inj_tail in Heq as [-> ->]. eauto. }
  split; [by intros [?|?%list_elem_of_singleton]%elem_of_app; [|subst]|done|..].
  - intros p r [[-> ->]|(r' & -> & Hq)]%Hsplit; [left; apply Hn|by eapply H3].
  - intros p x r Heq Hp. destruct (Hsplit p (x :: r) Heq) as [[? _]|(r' & Hr & Hq)]; [done|]. destruct r' as [|y r']; simplify_eq/=.
    + rewrite app_nil_r in Hn. apply Hn.
    + by eapply H4.
Qed.

Lemma st_snoc : st = (stack ++ [STAGING_DIR]) ++ [BASE_STAGING].
Proof using. by rewrite <-(assoc_L (++)). Qed.

Lemma layer_snoc : layer = (stack ++ [lp]) ++ [WORKSPACE_BASE_LAYER_ID].
Proof using. by rewrite <-(assoc_L (++)). Qed.

Lemma st_makeable : makeable f st.
Proof using Hpre.
  rewrite st_snoc. apply makeable_snoc; [apply Hpre|done|]. intros r. pose proof (bp_no_staging Hpre r) as Hn. by rewrite <-(assoc_L (++)) in Hn |- *.
Qed.

(** The workspace is not on the way to the storage root. *)
Lemma apart_prefix r s t : stack ++ t ≠ (ws ++ r) ++ s.
Proof using Hpre.
  intros Heq. apply app_eq_app in Heq as (l & [[Hl _]|[Hl _]]).
  - apply (bp_apart Hpre (r ++ l)). rewrite (assoc_L (++)), <-Hl. apply under_self.
  - apply (bp_apart Hpre r). rewrite Hl. apply under_app.
Qed.

Section staging_made.
Context (g : fs).
Hypothesis Hg : ∀ x, g !! x = made f st x.

Lemma made_src r : g !! (ws ++ r) = f !! (ws ++ r).
Proof using Hpre Hg.
  rewrite Hg. unfold made. destruct (f !! (ws ++ r)) eqn:Hn; [done|]. rewrite decide_False; [done|]. intros [s Hs%below_Some]. by eapply apart_prefix.
Qed.

Lemma made_dir_kept q : dir_at f q = true → dir_at g q = true.
Proof using Hg. unfold dir_at. rewrite Hg. unfold made. by destruct (f !! q). Qed.

Lemma made_tree : tree g.
Proof using Hpre Hg.
  intros q c. rewrite Hg. unfold made at 1. destruct (f !! (q ++ [c])) eqn:Hn.
  - intros _. apply made_dir_kept. by apply (wk_tree _ _ (bp_ws Hpre) q c); eexists.
  - case_decide as Hb; [intros _|by intros [? ?]]. destruct Hb as [s Hs%below_Some]. rewrite <-(assoc_L (++)) in Hs.
    destruct (mk_along _ _ st_makeable q (c :: s) Hs) as [Hq|Hq]; [|by apply made_dir_kept]. unfold dir_at. rewrite Hg. unfold made. rewrite Hq.
    rewrite decide_True; [done|]. eexists. by apply below_Some.
Qed.

Lemma made_ws : workspace_ok g ws.
Proof using Hpre Hg.
  pose proof (bp_ws Hpre) as Hws. split; [apply made_tree| |..].
  - destruct (wk_plain _ _ Hws) as [Hdd Hp]. split; [done|]. intros k Hk. by apply made_dir_kept, Hp.
  - intros r. rewrite made_src. apply Hws.
  - intros r n. rewrite made_src. apply Hws.
Qed.

Lemma made_st_empty x r : g !! (st ++ x :: r) = None.
Proof using Hpre Hg.
  rewrite Hg. unfold made. rewrite (bp_no_staging Hpre (x :: r)). rewrite decide_False; [done|]. intros [s Hs%below_Some].
  apply (f_equal length) in Hs. rewrite !length_app in Hs. simpl in Hs. lia.
Qed.

Lemma made_hash : workspace_hash sha256 g ws = workspace_hash sha256 f ws.
Proof using Hpre Hg.
  unfold workspace_hash, workspace_entries. do 3 f_equal. apply map_eq. intros r. rewrite !lookup_subtree. apply made_src.
Qed.
End staging_made.

Lemma not_under_st q : length q < length st → ¬ under st q.
Proof using. intros Hq [r ->%below_Some]. rewrite length_app in Hq. lia. Qed.

Section copy_made.
Context (g k : fs).
Hypothesis Hg : ∀ x, g !! x = made f st x.
Hypothesis Hk : copied st (λ r, r ≠ []) (full g ws) g k.

Lemma copy_outside q : (∀ r, r ≠ [] → q ≠ st ++ r) → k !! q = made f st q.
Proof using Hg Hk. intros Hq. destruct Hk as [_ Hout]. by rewrite Hout. Qed.

Lemma copy_short q : length q ≤ length st → k !! q = made f st q.
Proof using Hg Hk.
  intros Hq. apply copy_outside. intros [|x r] Hr ->; [done|]. rewrite length_app in Hq. simpl in Hq. lia.
Qed.

Lemma copy_st : k !! st = Some (NDir 0x1ed ∅).
Proof using Hpre Hg Hk.
  rewrite copy_short by done. unfold made. pose proof (bp_no_staging Hpre []) as Hn. rewrite app_nil_r in Hn. rewrite Hn.
  rewrite decide_True; [done|apply under_self].
Qed.

Lemma copy_below r : k !! (st ++ r) = copy_node <$> f !! (ws ++ r).
Proof using Hpre Hg Hk.
  destruct (decide (r = [])) as [->|Hr].
  - rewrite !app_nil_r, copy_st. pose proof (plain_dir_at _ _ (wk_plain _ _ (bp_ws Hpre))) as Hd. unfold dir_at in Hd. by destruct (f !! ws) as [[]|].
  - destruct Hk as [Hin _]. rewrite Hin by done. unfold full. by rewrite (made_src g Hg).
Qed.

Lemma copy_kept q n : f !! q = Some n → k !! q = Some n.
Proof using Hpre Hg Hk.
  intros Hn. rewrite copy_outside; [unfold made; by rewrite Hn|]. intros r _ ->. by rewrite (bp_no_staging Hpre) in Hn.
Qed.

Lemma copy_dir q : dir_at f q = true → dir_at k q = true.
Proof using Hpre Hg Hk. unfold dir_at. destruct (f !! q) as [n|] eqn:Hn; [|done]. by rewrite (copy_kept q n). Qed.

Lemma lp_length : length (stack ++ [lp]) < length st.
Proof using. rewrite !length_app. simpl. lia. Qed.

Lemma copy_makeable : makeable k (stack ++ [lp]).
Proof using Hpre Hg Hk.
  pose proof lp_length as Hlen. pose proof (bp_parent Hpre) as [Hdd Hroot Halong Hgap].
  assert (∀ p r, stack ++ [lp] = p ++ r → k !! p = made f st p) as Hp.
  { intros p r Heq. apply copy_short. apply (f_equal length) in Heq. rewrite (length_app p) in Heq. lia. }
  split; [done|by apply copy_dir|..].
  - intros p r Heq. destruct (Halong p r Heq) as [Hn|Hd]; [|right; by apply copy_dir]. unfold dir_at. rewrite (Hp p r Heq). unfold made.
    rewrite Hn. case_decide; [by right|by left].
  - intros p c r Heq. rewrite (Hp p _ Heq). rewrite (Hp (p ++ [c]) r) by by rewrite <-(assoc_L (++)). unfold made.
    destruct (f !! p) eqn:Hn; [done|]. rewrite (Hgap p c r Heq Hn). case_decide as Hd; [done|]. intros _. rewrite decide_False; [done|].
    intros [s Hs%below_Some]. apply Hd. exists (c :: s). apply below_Some. by rewrite Hs, <-(assoc_L (++)).
Qed.

Lemma copy_no_layer r : k !! (layer ++ r) = None.
Proof using Hpre Hg Hk.
  assert (∀ s, st ++ s ≠ layer ++ r) as Hne.
  { intros s Heq. rewrite <-!(assoc_L (++)) in Heq. apply (inj (app stack)) in Heq. injection Heq as Heq _. by destruct (bp_name Hpre). }
  rewrite copy_outside by (intros s _ Heq; by apply (Hne s)). unfold made. rewrite (bp_no_layer Hpre). rewrite decide_False; [done|].
  intros [s Hs%below_Some]. rewrite <-!(assoc_L (++)) in Hs. apply (inj (app stack)) in Hs. injection Hs as Hs _. by destruct (bp_name Hpre).
Qed.

Section place_made.
Context (k2 h : fs).
Hypothesis Hk2 : ∀ x, k2 !! x = made k (stack ++ [lp]) x.
Hypothesis Hsame : same k2 st h layer.
Hypothesis Hgone : ∀ r, h !! (st ++ r) = None.
Hypothesis Hout : outside (λ q, under st q ∨ under layer q) k2 h.

Lemma place_st_below r : k2 !! (st ++ r) = k !! (st ++ r).
Proof using Hk2.
  rewrite Hk2. unfold made. destruct (k !! (st ++ r)); [done|]. rewrite decide_False; [done|]. intros [s Hs%below_Some].
  pose proof lp_length as Hlen. rewrite Hs, !length_app in Hlen. lia.
Qed.

Lemma place_kept q n : f !! q = Some n → h !! q = Some n.
Proof using Hpre Hg Hk Hk2 Hout.
  intros Hn. rewrite Hout.
  - rewrite Hk2. unfold made. by rewrite (copy_kept q n Hn).
  - intros [[r ->%below_Some]|[r ->%below_Some]]; [by rewrite (bp_no_staging Hpre) in Hn|by rewrite (bp_no_layer Hpre) in Hn].
Qed.

Lemma lp_outside j : ¬ (under st (take j (stack ++ [lp])) ∨ under layer (take j (stack ++ [lp]))).
Proof using.
  intros [[r Hr%below_Some]|[r Hr%below_Some]]; apply (f_equal length) in Hr; rewrite length_app, length_take, !length_app in Hr; simpl in Hr; lia.
Qed.

Lemma place_made : base_made h.
Proof using Hpre Hg Hk Hk2 Hsame Hgone Hout.
  split.
  - intros r. rewrite <-Hsame, place_st_below. apply copy_below.
  - done.
  - destruct (made_plain k (stack ++ [lp]) k2) as [Hdd Hp]; [apply copy_makeable|done|]. split; [done|]. intros j Hj. unfold dir_at.
    rewrite Hout by apply lp_outside. by apply Hp.
  - apply place_kept.
  - intros q Hq Hl Hs. destruct (decide (under st q)) as [[r ->%below_Some]|Hnst]; [by rewrite Hgone, (bp_no_staging Hpre)|].
    rewrite Hout by (intros [?|?]; done). rewrite Hk2. unfold made. rewrite copy_outside by (intros r _ ->; apply Hnst, under_app). unfold made.
    destruct (f !! q); [done|]. rewrite (decide_False (P := is_Some (below q st))).
    + rewrite decide_False; [done|]. intros [s Hb%below_Some]. by apply (Hl s).
    + intros [s Hb%below_Some]. destruct s as [|x s _] using rev_ind.
      * apply Hnst. rewrite app_nil_r in Hb. rewrite Hb. apply under_self.
      * rewrite st_snoc, (assoc_L (++)) in Hb. apply app_inj_tail in Hb as [Hb _]. by apply (Hs s).
Qed.
End place_made.

Lemma does_place :
  does (λ h, h = k) (bind (lift_err Io (create_dir_all (parent layer))) (λ _, lift_err Io (fs_rename st layer))) (λ _ h, base_made h).
Proof using Hpre Hg Hk.
  assert (parent layer = stack ++ [lp]) as -> by by rewrite layer_snoc, parent_snoc.
  eapply does_bind; [apply does_lift_err, does_mkdirs, copy_makeable|]. intros []. apply does_pre. intros k2 Hk2. apply does_lift_err.
  assert (k2 !! st = Some (NDir 0x1ed ∅)) as Hst2.
  { rewrite <-(app_nil_r st) at 1. rewrite (place_st_below k2 Hk2), app_nil_r. apply copy_st. }
  assert (∀ r, k2 !! (layer ++ r) = None) as Hl2.
  { intros r. rewrite Hk2. unfold made. rewrite copy_no_layer. rewrite decide_False; [done|]. intros [s Hs%below_Some].
    apply (f_equal length) in Hs. rewrite !length_app in Hs. simpl in Hs. lia. }
  assert (plain_dir k (stack ++ [STAGING_DIR])) as Hpst.
  { destruct (made_plain f st g st_makeable Hg) as [Hdd Hp]. rewrite st_snoc in Hdd, Hp. apply not_elem_of_app in Hdd as [Hdd _]. split; [done|].
    intros j Hj. unfold dir_at. rewrite copy_short by (rewrite length_take, !length_app; simpl; lia). rewrite <-Hg.
    specialize (Hp j). rewrite take_app_le in Hp by done. apply Hp. rewrite length_app. lia. }
  assert (plain_dir k2 (stack ++ [STAGING_DIR])) as Hpst2.
  { destruct Hpst as [Hdd Hp]. split; [done|]. intros j Hj. specialize (Hp j Hj). unfold dir_at in *. rewrite Hk2. unfold made.
    by destruct (k !! take j (stack ++ [STAGING_DIR])). }
  eapply does_conseq; [rewrite st_snoc, layer_snoc; eapply (does_rename_dir k2 _ _ _ _ 0x1ed ∅)|done|].
  - done.
  - done.
  - eapply made_plain; [apply copy_makeable|done].
  - done.
  - by rewrite <-st_snoc.
  - intros r. by rewrite <-layer_snoc.
  - rewrite <-st_snoc, <-layer_snoc. intros [r Hr%below_Some]. rewrite <-!(assoc_L (++)) in Hr. apply (inj (app stack)) in Hr.
    injection Hr as Hr _. by destruct (bp_name Hpre).
  - intros [] h (Hsame & Hgone & Hout). rewrite <-st_snoc, <-layer_snoc in *. by eapply place_made.
Qed.
End copy_made.

Lemma does_copy_workspace g :
  (∀ x, g !! x = made f st x) →
  does (λ h, h = g) (copy_workspace sha256 ws st layer) (λ a h, a.1 = workspace_hash sha256 f ws ∧ base_made h).
Proof using Hpre.
  intros Hg. pose proof (made_ws g Hg) as Hws. pose proof (made_plain f st g st_makeable Hg) as Hst.
  assert (∀ r, ¬ under st (ws ++ r)) as Hapart by (intros r [s Hs%below_Some]; apply (bp_apart Hpre r); rewrite Hs, <-(assoc_L (++)); apply under_app).
  unfold copy_workspace. eapply does_bind; [apply does_lift_err, (does_syscall _ _ (λ _ h, h = g)); intros ? ->; by exists tt, g|]. intros [].
  eapply does_bind_reads; [done|]. eapply does_bind; [by apply (does_collect_all g ws st Hws Hst (made_st_empty g Hg))|].
  intros c. apply does_pre. intros h [Hh Hc]. eapply does_bind; [by apply (does_copy_all g ws st Hws Hst)|].
  intros os. apply does_pre. intros k (-> & -> & Hhash & Hk). rewrite !bool_decide_true by done. cbn [negb orb]. cbv zeta.
  eapply does_bind2; [by apply (does_place g k)|]. intros []. apply does_ret. intros h' Hm. split; [|done]. cbn. by rewrite Hhash, made_hash.
Qed.

(** Building the base layer copies the workspace. *)
Lemma does_build_base_layer :
  does (λ h, h = f) (build_base_layer_under sha256 stack ws lp)
    (λ a h, bb_layer_ref a = mkLayerRef WORKSPACE_BASE_LAYER_ID (lp ++ [slash] ++ WORKSPACE_BASE_LAYER_ID) ∧
            bb_root_hash a = workspace_hash sha256 f ws ∧ base_made h).
Proof using Hpre.
  unfold build_base_layer_under. eapply does_bind_reads; [done|].
  assert (exists_ f layer = false) as ->.
  { rewrite layer_snoc. apply gap_exists; [apply Hpre|done|]. pose proof (bp_no_layer Hpre []) as Hn. by rewrite app_nil_r, layer_snoc in Hn. }
  assert (exists_ f st = false) as ->.
  { rewrite st_snoc. apply gap_exists; [apply Hpre|done|]. pose proof (bp_no_staging Hpre []) as Hn. by rewrite app_nil_r, st_snoc in Hn. }
  cbn [orb]. eapply does_bind; [apply does_lift_err, does_mkdirs, st_makeable|]. intros []. apply does_pre. intros g Hg.
  eapply does_attempt with (R := λ _, True); [by apply doesx_any, does_copy_workspace| |].
  - intros [hash n]. apply does_ret. intros h [Hhash Hm]. done.
  - intros e w _. unfold bind at 1, attempt at 1. destruct (remove_path st w) as [r w1]. unfold bind, attempt. by destruct (remove_path layer w1).
Qed.
End base.
