(* ===== verification/BaseBuild.v ===== *)
(** * Building the base of a workspace: [workspace_base/build.rs], [binding.rs]

    A fresh storage root becomes a stack of one layer that reads like the
    workspace, with a manifest and a binding that later calls accept. *)

From S2P Require Import Prelude ByteStr Merge Model FS Storage View Descend World StorageOps Flatten Does FlattenRead FlattenSpec.
From S2P Require Import Lease Publish Stack Squash SquashSpec SquashCommit LayerWrite PublishRead Base BaseSpec.

(** ** Atomic writes fail only on a fault *)

Section atomic.
Context (pid : N) (f : fs) (d : path) (name data : bytes).
Hypothesis Hd : plain_dir f d.
Hypothesis Htree : tree f.
Hypothesis Hname : name ≠ dotdot.
Hypothesis Hfile : dir_at f (d ++ [name]) = false.
Hypothesis Hfresh : ∀ n, f !! (d ++ [tmp_name pid name n]) = None.

Lemma does_install n :
  does (λ h, h = f)
    (run write_bytes_fsynced (d ++ [tmp_name pid name n]) data;
     run lift_err Io (fs_rename (d ++ [tmp_name pid name n]) (d ++ [name]));
     fsync_dir d)%io (λ _ h, h = replaced d name data f).
Proof using Hd Htree Hname Hfile Hfresh.
  pose proof (tmp_name_ne pid name n) as Htmp. set (tmp := tmp_name pid name n) in *. assert (f !! (d ++ [tmp]) = None) as Hn by apply Hfresh. clearbody tmp.
  assert (∀ c x, plain_dir (<[d ++ [c] := x]> f) d) as Hpl.
  { intros c x. eapply plain_dir_outside; [|done]. apply outside_insert; [apply under_self|done]. }
  eapply (does_bind _ _ _ (λ _ h, h = partial d tmp f data)).
  { apply does_lift_err. eapply does_bind; [apply does_file_create; [done|apply Htmp|done]|]. intros q. apply does_pre. intros ? [-> ->].
    eapply does_bind; [apply does_write_all|]. intros []. apply does_syscall. intros ? ->. by eexists _, _. }
  intros []. eapply (does_bind _ _ _ (λ _ h, h = replaced d name data f)).
  { apply does_lift_err, does_syscall. intros ? ->. rewrite !resolve_child by (apply Hpl || naive_solver). cbn [result_bind].
    assert (d ++ [tmp] ≠ d ++ [name]) as Hne by (intros Heq%(inj (app d)); naive_solver).
    unfold partial at 1. rewrite lookup_insert_eq. rewrite decide_False by done. rewrite decide_False.
    - rewrite (partial_rename d name tmp data f) by done. unfold partial at 1. rewrite lookup_insert_ne by done. unfold dir_at in Hfile.
      destruct (f !! (d ++ [name])) as [[]|]; try done; by eexists _, _.
    - intros [r Hr%below_Some]. rewrite <-(assoc_L (++)) in Hr. apply (inj (app d)) in Hr. by simplify_eq/=. }
  intros []. apply does_lift_err. assert (∃ n, metadata (replaced d name data f) d = Ok n) as [n0 Hm].
  { pose proof (is_dir_plain _ d (Hpl name (NFile data 0x1a4 ∅))) as Hdir. unfold is_dir, replaced in *. destruct (metadata _ d); [by eexists|done]. }
  eapply does_bind_reads; [exact Hm|]. apply does_syscall. intros ? ->. by eexists _, _.
Qed.

Lemma does_replace :
  does (λ h, h = f)
    (do n := next_unique in
     let tmp := d ++ [tmp_name pid name n] in
     do r := attempt (
       run write_bytes_fsynced tmp data;
       run lift_err Io (fs_rename tmp (d ++ [name]));
       fsync_dir d) in
     match r with
     | Ok _ => ret ()
     | Err err => run attempt (F := LayerStackError) (remove_file tmp); fail err
     end)%io (λ _ h, h = <[d ++ [name] := NFile data 0x1a4 ∅]> f).
Proof using Hd Htree Hname Hfile Hfresh.
  eapply (does_bind _ _ _ (λ _ h, h = f)); [intros w Hw; done|]. intros n. cbv zeta.
  eapply does_attempt with (R := λ _, True); [apply doesx_any, does_install| |].
  - intros []. by apply does_ret.
  - intros e w _. unfold bind, attempt. by destruct (remove_file _ w).
Qed.

Lemma does_write_atomic : does (λ h, h = f) (write_atomic pid (d ++ [name]) data) (λ _ h, h = <[d ++ [name] := NFile data 0x1a4 ∅]> f).
Proof using Hd Htree Hname Hfile Hfresh.
  unfold write_atomic. rewrite parent_snoc, file_name_snoc. eapply does_bind; [by apply does_lift_err, does_create_dir_all|]. intros [].
  apply does_replace.
Qed.
End atomic.

(** The directory of the file may have to be made. *)
Lemma made_tree_any f q g : tree f → makeable f q → (∀ x, g !! x = made f q x) → tree g.
Proof.
  intros Ht Hm Hg p c. rewrite Hg. unfold made at 1. destruct (f !! (p ++ [c])) eqn:Hn.
  - intros _. assert (dir_at f p = true) as Hd by (by apply (Ht p c); eexists). unfold dir_at in *. rewrite Hg. unfold made. by destruct (f !! p).
  - case_decide as Hb; [intros _|by intros [? ?]]. destruct Hb as [s Hs%below_Some]. rewrite <-(assoc_L (++)) in Hs.
    unfold dir_at. rewrite Hg. unfold made. destruct (mk_along _ _ Hm p (c :: s) Hs) as [Hp|Hp]; unfold dir_at in *; [|by destruct (f !! p)].
    rewrite Hp. rewrite decide_True; [done|]. eexists. by apply below_Some.
Qed.

Lemma does_write_atomic_in pid f d name data :
  tree f → makeable f d → name ≠ dotdot → dir_at f (d ++ [name]) = false → (∀ n, f !! (d ++ [tmp_name pid name n]) = None) →
  does (λ h, h = f) (write_atomic pid (d ++ [name]) data)
    (λ _ h, tree h ∧ ∀ x, h !! x = if decide (x = d ++ [name]) then Some (NFile data 0x1a4 ∅) else made f d x).
Proof.
  intros Ht Hm Hname Hfile Hfresh. unfold write_atomic. rewrite parent_snoc, file_name_snoc.
  eapply does_bind; [by apply does_lift_err, does_mkdirs|]. intros []. apply does_pre. intros g Hg.
  assert (∀ c, g !! (d ++ [c]) = f !! (d ++ [c])) as Hnew.
  { intros c. rewrite Hg. unfold made. destruct (f !! (d ++ [c])); [done|]. rewrite decide_False; [done|]. intros [s Hs%below_Some].
    apply (f_equal length) in Hs. rewrite !length_app in Hs. simpl in Hs. lia. }
  eapply does_conseq; [apply (does_replace pid g)|done|].
  - by eapply made_plain.
  - by eapply made_tree_any.
  - done.
  - unfold dir_at. by rewrite Hnew.
  - intros n. by rewrite Hnew.
  - intros [] h ->. split.
    + apply tree_insert; [by eapply made_tree_any|by eapply plain_dir_at, made_plain|right]. unfold dir_at. by rewrite Hnew.
    + intros x. case_decide as Hx; [subst; by rewrite lookup_insert_eq|]. by rewrite lookup_insert_ne.
Qed.

(** ** Opening a fresh root *)

Lemma plain_makeable f q : plain_dir f q → makeable f q.
Proof.
  intros [Hdd Hp]. assert (∀ p r, q = p ++ r → dir_at f p = true) as Hpre.
  { intros p r ->. specialize (Hp (length p)). rewrite take_app_length, length_app in Hp. apply Hp. lia. }
  split; [done|by apply (Hpre [] q)|..].
  - intros p r Hq. right. by eapply Hpre.
  - intros p c r Hq Hn. assert (dir_at f p = true) as Hd by by eapply Hpre. unfold dir_at in Hd. by rewrite Hn in Hd.
Qed.

(** Nothing is below the root, and the workspace is elsewhere. *)
Record fresh_root (f : fs) (root ws : path) : Prop := {
  fr_ws : workspace_ok f ws;
  fr_root : makeable f root;
  fr_empty x r : f !! (root ++ x :: r) = None;
  fr_apart r : ¬ under root (ws ++ r);
}.

Section fresh.
Context (f : fs) (root ws : path) (registered : bool).
Hypothesis Hfresh : fresh_root f root ws.

(** The node of a name in the root after it has been opened. *)
Definition opened_node (x : bytes) : option node :=
  if decide (x = LAYERS_DIR ∨ x = STAGING_DIR) then Some (NDir 0x1ed ∅)
  else if decide (x = STORAGE_WRITER_LOCK_FILE ∧ registered = false) then Some (NFile [] 0x1a4 ∅) else None.

Record opened (g : fs) : Prop := {
  op_root x r : g !! (root ++ x :: r) = if decide (r = []) then opened_node x else None;
  op_rest q : (∀ x r, q ≠ root ++ x :: r) → g !! q = made f root q;
  op_tree : tree g;
}.

Lemma made_root_plain g : (∀ q, (∀ x r, q ≠ root ++ x :: r) → g !! q = made f root q) → plain_dir g root.
Proof using Hfresh.
  intros Hg. destruct (fr_root _ _ _ Hfresh) as [Hdd Hroot Halong _]. split; [done|]. intros k Hk. unfold dir_at. rewrite Hg.
  - unfold made. destruct (Halong (take k root) (drop k root)) as [Hn|Hd]; [by rewrite take_drop|..].
    + rewrite Hn. rewrite decide_True; [done|]. exists (drop k root). apply below_Some. by rewrite take_drop.
    + unfold dir_at in Hd. by destruct (f !! take k root).
  - intros x r Heq%(f_equal length). rewrite length_app, length_take in Heq. simpl in Heq. lia.
Qed.

Lemma does_open_stack : does (λ h, h = f) (open_stack registered root) (λ _ g, opened g).
Proof using Hfresh.
  pose proof (fr_root _ _ _ Hfresh) as Hmk. pose proof (fr_empty _ _ _ Hfresh) as Hemp. pose proof (wk_tree _ _ (fr_ws _ _ _ Hfresh)) as Htree.
  assert (makeable f (root ++ [LAYERS_DIR])) as HmkL by by apply makeable_snoc.
  unfold open_stack. eapply does_bind; [by apply does_lift_err, does_mkdirs|]. intros []. apply does_pre. intros g1 Hg1.
  assert (∀ x, g1 !! x = if decide (x = root ++ [LAYERS_DIR]) then Some (NDir 0x1ed ∅) else made f root x) as Hg1'.
  { intros x. rewrite Hg1. by apply made_snoc. }
  assert (∀ x r, made f root (root ++ x :: r) = None) as Hmade.
  { intros x r. unfold made. rewrite Hemp. rewrite decide_False; [done|]. intros [s Hs%below_Some]. apply (f_equal length) in Hs. rewrite !length_app in Hs. simpl in Hs. lia. }
  assert (tree g1) as Ht1 by by eapply made_tree_any.
  assert (plain_dir g1 root) as Hp1 by (eapply plain_dir_app; by eapply made_plain).
  assert (g1 !! (root ++ [STAGING_DIR]) = None) as HnS.
  { rewrite Hg1', decide_False by (intros Heq%(inj (app root)); done). apply Hmade. }
  eapply does_bind; [by apply does_lift_err, does_create_new|]. intros []. set (g2 := <[root ++ [STAGING_DIR] := NDir 0x1ed ∅]> g1).
  assert (plain_dir g2 root) as Hp2 by (eapply plain_dir_outside; [apply outside_insert; [apply under_self|done]|done]).
  assert (tree g2) as Ht2 by (apply tree_insert; [done|by apply plain_dir_at|by left]).
  eapply does_bind; [by apply does_lift_err, does_create_dir_all|]. intros [].
  assert (∀ x r, g2 !! (root ++ x :: r) = if decide (r = [] ∧ (x = LAYERS_DIR ∨ x = STAGING_DIR)) then Some (NDir 0x1ed ∅) else None) as H2.
  { intros x r. unfold g2. destruct (decide (r = [] ∧ x = STAGING_DIR)) as [[-> ->]|HneS]; [by rewrite lookup_insert_eq, decide_True by auto|].
    rewrite lookup_insert_ne by (intros Heq%(inj (app root)); naive_solver). rewrite Hg1'.
    destruct (decide (r = [] ∧ x = LAYERS_DIR)) as [[-> ->]|HneL]; [by rewrite !decide_True by auto|].
    rewrite !decide_False by (naive_solver || (intros Heq%(inj (app root)); naive_solver)). apply Hmade. }
  assert (∀ q, (∀ x r, q ≠ root ++ x :: r) → g2 !! q = made f root q) as Hrest2.
  { intros q Hq. unfold g2. rewrite lookup_insert_ne by (apply not_eq_sym, Hq). rewrite Hg1', decide_False; [done|apply Hq]. }
  destruct registered eqn:Hreg.
  - apply does_ret. intros ? ->. split; [|done|done]. intros x r. rewrite H2. unfold opened_node. rewrite Hreg. repeat case_decide; naive_solver.
  - assert (g2 !! (root ++ [STORAGE_WRITER_LOCK_FILE]) = None) as HnK by (rewrite H2; by rewrite decide_False by naive_solver).
    eapply (does_bind _ _ _ (λ _ h, h = <[root ++ [STORAGE_WRITER_LOCK_FILE] := NFile [] 0x1a4 ∅]> g2)).
    { apply does_lift_err, does_syscall. intros ? ->. rewrite resolve_new by done. cbn [result_bind]. rewrite HnK. by eexists _, _. }
    intros []. apply does_lift_err, does_syscall. intros ? ->. eexists _, _. split; [done|]. split.
    + intros x r. unfold opened_node. rewrite Hreg. destruct (decide (r = [] ∧ x = STORAGE_WRITER_LOCK_FILE)) as [[-> ->]|Hne].
      * rewrite lookup_insert_eq, decide_True by done. rewrite decide_False by naive_solver. by rewrite decide_True.
      * rewrite lookup_insert_ne by (intros Heq%(inj (app root)); naive_solver). rewrite H2. repeat case_decide; naive_solver.
    + intros q Hq. rewrite lookup_insert_ne by (apply not_eq_sym, Hq). by apply Hrest2.
    + apply tree_insert; [done|by apply plain_dir_at|right]. unfold dir_at. by rewrite HnK.
Qed.

Section opened.
Context `{ManifestCodec} `{BindingCodec} (g : fs).
Hypothesis Hop : opened g.

Lemma opened_plain : plain_dir g root.
Proof using Hfresh Hop. apply made_root_plain, Hop. Qed.

Lemma opened_missing x : x ≠ dotdot → opened_node x = None → exists_ g (root ++ [x]) = false.
Proof using Hfresh Hop.
  intros Hdd Hx. assert (g !! (root ++ [x]) = None) as Hn by by rewrite (op_root _ Hop), decide_True.
  unfold exists_. rewrite metadata_child by (apply opened_plain || done || intros t; by rewrite Hn). unfold node_at. by rewrite Hn.
Qed.

Lemma opened_dir x : x = LAYERS_DIR ∨ x = STAGING_DIR → plain_dir g (root ++ [x]) ∧ names g (root ++ [x]) = [].
Proof using Hfresh Hop.
  intros Hx. assert (g !! (root ++ [x]) = Some (NDir 0x1ed ∅)) as Hn.
  { rewrite (op_root _ Hop), decide_True by done. unfold opened_node. by rewrite decide_True. }
  split.
  - apply plain_dir_snoc; [apply opened_plain|unfold dir_at; by rewrite Hn|]. by destruct Hx as [-> | ->].
  - apply elem_of_nil_inv. intros c [n Hc]%elem_of_names. rewrite <-(assoc_L (++)) in Hc. simpl in Hc. rewrite (op_root _ Hop) in Hc. done.
Qed.

Lemma opened_rejects_nothing : reject_existing_base_state g root = Ok ().
Proof using Hfresh Hop.
  unfold reject_existing_base_state, read_workspace_binding, read_manifest. rewrite !opened_missing by done. cbn [negb].
  change (manifest_new 0 [] MANIFEST_SCHEMA_VERSION) with (@Ok Manifest CasError (mkManifest 0 [] MANIFEST_SCHEMA_VERSION)).
  cbn [result_bind map_err version layers]. rewrite !decide_False by naive_solver.
  unfold dir_has_entries. destruct (opened_dir LAYERS_DIR) as [HpL HnL]; [by left|]. destruct (opened_dir STAGING_DIR) as [HpS HnS]; [by right|].
  rewrite !read_dir_plain by done. by rewrite HnL, HnS.
Qed.

Lemma opened_ws r : g !! (ws ++ r) = f !! (ws ++ r).
Proof using Hfresh Hop.
  rewrite (op_rest _ Hop).
  - unfold made. destruct (f !! (ws ++ r)); [done|]. rewrite decide_False; [done|]. intros [s Hs%below_Some].
    apply (fr_apart _ _ _ Hfresh (r ++ s)). rewrite (assoc_L (++)), <-Hs. apply under_self.
  - intros x s Heq. apply (fr_apart _ _ _ Hfresh r). rewrite Heq. apply under_app.
Qed.

Lemma opened_kept q n : f !! q = Some n → g !! q = Some n.
Proof using Hfresh Hop.
  intros Hn. rewrite (op_rest _ Hop); [unfold made; by rewrite Hn|]. intros x r ->. by rewrite (fr_empty _ _ _ Hfresh) in Hn.
Qed.

Lemma opened_base_pre : base_pre g root ws LAYERS_DIR.
Proof using Hfresh Hop.
  pose proof (fr_ws _ _ _ Hfresh) as Hws. split.
  - split; [apply Hop| |..].
    + destruct (wk_plain _ _ Hws) as [Hdd Hp]. split; [done|]. intros k Hk. specialize (Hp k Hk). unfold dir_at in *.
      destruct (f !! take k ws) eqn:Hn; [|done]. by rewrite (opened_kept _ _ Hn).
    + intros r. rewrite opened_ws. apply Hws.
    + intros r n. rewrite opened_ws. apply Hws.
  - apply plain_makeable, opened_dir. by right.
  - apply plain_makeable, opened_dir. by left.
  - done.
  - intros r. rewrite <-(assoc_L (++)). cbn [app]. rewrite (op_root _ Hop). done.
  - intros r. rewrite <-(assoc_L (++)). cbn [app]. rewrite (op_root _ Hop). done.
  - apply Hfresh.
Qed.

Lemma opened_hash sha256 : workspace_hash sha256 g ws = workspace_hash sha256 f ws.
Proof using Hfresh Hop.
  unfold workspace_hash, workspace_entries. do 3 f_equal. apply map_eq. intros r. rewrite !lookup_subtree. apply opened_ws.
Qed.
End opened.
End fresh.

(** ** The finished base *)

Definition base_ref : LayerRef := new_ref WORKSPACE_BASE_LAYER_ID.

Lemma base_ref_canonical : canonical_ref base_ref.
Proof. apply canonical_new_ref. split_and!; [done..|apply (bool_decide_unpack _); by vm_compute|apply (bool_decide_unpack _); by vm_compute]. Qed.

Definition base_manifest : Manifest := mkManifest 1 [base_ref] MANIFEST_SCHEMA_VERSION.

Lemma base_made_tree f stack ws lp h : tree f → workspace_ok f ws → base_made f stack ws lp h → tree h.
Proof.
  intros Ht Hws Hm q c Hs. pose proof (bm_parent _ _ _ _ _ Hm) as [_ Hp].
  assert (∀ s, stack ++ [lp] = q ++ s → dir_at h q = true) as Hpre.
  { intros s Heq. specialize (Hp (length q)). rewrite Heq, take_app_length, length_app in Hp. apply Hp. lia. }
  destruct (decide (under (stack ++ [lp; WORKSPACE_BASE_LAYER_ID]) (q ++ [c]))) as [[r Hr%below_Some]|Hnl].
  - destruct r as [|x r _] using rev_ind.
    + rewrite app_nil_r in Hr. change [lp; WORKSPACE_BASE_LAYER_ID] with ([lp] ++ [WORKSPACE_BASE_LAYER_ID]) in Hr.
      rewrite (assoc_L (++)) in Hr. apply app_inj_tail in Hr as [-> _]. apply (Hpre []). by rewrite app_nil_r.
    + rewrite (assoc_L (++)) in Hr. apply app_inj_tail in Hr as [-> ->]. rewrite <-(assoc_L (++)), (bm_layer _ _ _ _ _ Hm), fmap_is_Some in Hs.
      unfold dir_at. rewrite (bm_layer _ _ _ _ _ Hm). assert (dir_at f (ws ++ r) = true) as Hd by (eapply (tree_dir f _ [x]); [done| |done]; by rewrite <-(assoc_L (++))).
      unfold dir_at in Hd. by destruct (f !! (ws ++ r)) as [[]|].
  - destruct (decide (is_Some (below (q ++ [c]) (stack ++ [lp])))) as [[s Hs'%below_Some]|Hnp].
    { eapply (Hpre (c :: s)). by rewrite Hs', <-(assoc_L (++)). }
    destruct (decide (is_Some (below (q ++ [c]) (stack ++ [STAGING_DIR])))) as [[s Hs'%below_Some]|Hns].
    + rewrite <-(assoc_L (++)) in Hs'. apply app_eq_app in Hs' as (l & [[Heq Hl]|[Heq Hl]]).
      * eapply (Hpre (l ++ [lp])). by rewrite Heq, <-(assoc_L (++)).
      * destruct l as [|? l]; [|by destruct l]. simplify_eq/=. eapply (Hpre [lp]). by rewrite app_nil_r.
    + rewrite (bm_rest _ _ _ _ _ Hm) in Hs; [|done|..].
      * apply Ht in Hs. unfold dir_at in *. destruct (f !! q) as [n|] eqn:Hn; [|done]. by rewrite (bm_dirs _ _ _ _ _ Hm q n).
      * intros s Heq. apply Hnp. eexists. by apply below_Some.
      * intros s Heq. apply Hns. eexists. by apply below_Some.
Qed.

Lemma tree_plain f q c : tree f → dotdot ∉ q → is_Some (f !! (q ++ [c])) → plain_dir f q.
Proof.
  intros Ht Hdd Hs. split; [done|]. intros j Hj. apply (tree_dir f (take j q) (drop j q ++ [c])); [done| |by destruct (drop j q)].
  by rewrite (assoc_L (++)), take_drop.
Qed.

Section finish.
Context `{ManifestCodec} `{BindingCodec} (pid : N).
Context (f : fs) (root ws : path) (registered : bool) (g h : fs).
Hypothesis Hfresh : fresh_root f root ws.
Hypothesis Hop : opened f root registered g.
Hypothesis Hm : base_made g root ws LAYERS_DIR h.

Lemma base_root_node x r : x ≠ LAYERS_DIR → x ≠ STAGING_DIR → h !! (root ++ x :: r) = if decide (r = []) then opened_node registered x else None.
Proof using Hop Hm.
  intros HL HS. rewrite (bm_rest _ _ _ _ _ Hm); [apply Hop|..].
  - intros [s Hs%below_Some]. rewrite <-(assoc_L (++)) in Hs. apply (inj (app root)) in Hs. by simplify_eq/=.
  - intros s Heq. rewrite <-(assoc_L (++)) in Heq. apply (inj (app root)) in Heq. by simplify_eq/=.
  - intros s Heq. rewrite <-(assoc_L (++)) in Heq. apply (inj (app root)) in Heq. by simplify_eq/=.
Qed.

Lemma base_root_plain : plain_dir h root.
Proof using Hm. eapply plain_dir_app, (bm_parent _ _ _ _ _ Hm). Qed.

Lemma root_free x : x ≠ LAYERS_DIR → x ≠ STAGING_DIR → x ≠ STORAGE_WRITER_LOCK_FILE → h !! (root ++ [x]) = None.
Proof using Hop Hm.
  intros HL HS HK. rewrite base_root_node, decide_True by done. unfold opened_node. by rewrite !decide_False by naive_solver.
Qed.

(** A name that ends like a temporary file is not taken. *)
Lemma tmp_free x : last x = last (lit ".tmp") → x ≠ LAYERS_DIR ∧ x ≠ STAGING_DIR ∧ x ≠ LAYER_METADATA_DIR ∧ x ≠ ACTIVE_MANIFEST_FILE ∧
  x ≠ WORKSPACE_BINDING_FILE ∧ opened_node registered x = None.
Proof using.
  intros Hx. assert (∀ y, last y ≠ last (lit ".tmp") → x ≠ y) as Hne by (intros y Hy ->; done).
  split_and!; [by apply Hne..|]. unfold opened_node. rewrite !decide_False; [done|..].
  - intros [? _]. by apply (Hne STORAGE_WRITER_LOCK_FILE).
  - intros [?|?]; [by apply (Hne LAYERS_DIR)|by apply (Hne STAGING_DIR)].
Qed.

Lemma tmp_name_last name n : last (tmp_name pid name n) = last (lit ".tmp").
Proof using. unfold tmp_name. rewrite !(assoc_L (++)). by rewrite last_suffix. Qed.

Abbreviation meta := (root ++ [LAYER_METADATA_DIR]).
Definition digest_name : bytes := WORKSPACE_BASE_LAYER_ID ++ lit ".digest".

(** The state after the three sidecar files. *)
Definition finished (hash : bytes) (m : Manifest) (b : WorkspaceBinding) (x : path) : option node :=
  if decide (x = root ++ [WORKSPACE_BINDING_FILE]) then Some (NFile (encode_binding b) 0x1a4 ∅)
  else if decide (x = root ++ [ACTIVE_MANIFEST_FILE]) then Some (NFile (encode_manifest m) 0x1a4 ∅)
  else if decide (x = meta ++ [digest_name]) then Some (NFile hash 0x1a4 ∅) else made h meta x.

Lemma tmp_in_root name n : h !! (root ++ [tmp_name pid name n]) = None ∧ tmp_name pid name n ≠ LAYER_METADATA_DIR ∧
  tmp_name pid name n ≠ ACTIVE_MANIFEST_FILE ∧ tmp_name pid name n ≠ WORKSPACE_BINDING_FILE.
Proof using Hop Hm.
  pose proof (tmp_name_last name n) as (HL & HS & HM & HA & HB & Hx)%tmp_free. rewrite base_root_node by done. by rewrite decide_True.
Qed.

Lemma meta_makeable : makeable h meta.
Proof using Hop Hm.
  apply makeable_snoc; [apply plain_makeable, base_root_plain|done|]. intros r. rewrite base_root_node by done. case_decide; [|done].
  unfold opened_node. by rewrite !decide_False by naive_solver.
Qed.

Lemma meta_made x r : x ≠ LAYER_METADATA_DIR → made h meta (root ++ x :: r) = h !! (root ++ x :: r).
Proof using.
  intros Hx. unfold made. destruct (h !! (root ++ x :: r)); [done|]. rewrite decide_False; [done|]. intros [s Hs%below_Some].
  rewrite <-(assoc_L (++)) in Hs. apply (inj (app root)) in Hs. by simplify_eq/=.
Qed.

Lemma finished_kept hash m b x n : made h meta x = Some n → finished hash m b x = Some n.
Proof using Hop Hm.
  intros Hn. unfold finished. repeat case_decide; subst; [..|done]; exfalso.
  - by rewrite meta_made, root_free in Hn.
  - by rewrite meta_made, root_free in Hn.
  - unfold made in Hn. rewrite <-(assoc_L (++)) in Hn. cbn [app] in Hn. rewrite base_root_node, decide_False in Hn by done.
    case_decide as Hb; [|done]. destruct Hb as [s Hs%below_Some]. rewrite <-(assoc_L (++)) in Hs. by apply (inj (app root)) in Hs.
Qed.

Lemma does_finish hash b :
  validate_workspace_binding_paths (workspace_root b) (layer_stack_root b) = Ok () →
  does (λ k, k = h)
    (run write_layer_digest pid root WORKSPACE_BASE_LAYER_ID hash;
     do manifest := lift_err Cas (reads (λ _, manifest_new 1 [base_ref] MANIFEST_SCHEMA_VERSION)) in
     run write_manifest pid (root ++ [ACTIVE_MANIFEST_FILE]) manifest;
     run write_workspace_binding_at pid root b; ret b)%io
    (λ r k, r = b ∧ tree k ∧ ∀ x, k !! x = finished hash base_manifest b x).
Proof using Hfresh Hop Hm.
  intros Hv. assert (tree h) as Ht by (eapply base_made_tree; [apply Hop| |exact Hm]; by eapply bp_ws, opened_base_pre).
  pose proof meta_makeable as Hmk. pose proof base_root_plain as Hpl. eapply does_bind.
  { unfold write_layer_digest, layer_digest_path. change [LAYER_METADATA_DIR; ?x] with ([LAYER_METADATA_DIR] ++ [x]). rewrite (assoc_L (++)).
    assert (∀ x, h !! (meta ++ [x]) = None) as Hmt.
    { intros x. rewrite <-(assoc_L (++)). cbn [app]. by rewrite base_root_node by done. }
    apply does_write_atomic_in; [done|done|done|unfold dir_at; by rewrite Hmt|intros; apply Hmt]. }
  intros []. apply does_pre. intros h2 [Ht2 Hh2]. fold digest_name in Hh2.
  assert (∀ x, x ≠ LAYER_METADATA_DIR → h2 !! (root ++ [x]) = h !! (root ++ [x])) as Hroot2.
  { intros x Hx. rewrite Hh2, decide_False; [by apply meta_made|]. rewrite <-(assoc_L (++)). by intros ?%(inj (app root)). }
  assert (plain_dir h2 root) as Hp2.
  { destruct Hpl as [Hdd Hpl]. split; [done|]. intros j Hj. specialize (Hpl j Hj). unfold dir_at in *. rewrite Hh2, decide_False.
    - unfold made. by destruct (h !! take j root).
    - intros Heq%(f_equal length). rewrite length_take, !length_app in Heq. simpl in Heq. lia. }
  eapply (does_bind _ _ _ (λ m k, m = base_manifest ∧ k = h2)); [by apply does_lift_err, does_reads; intros ? ->; eexists|].
  intros m. apply does_pre. intros ? [-> ->].
  eapply (does_bind _ _ _ (λ _ k, k = <[root ++ [ACTIVE_MANIFEST_FILE] := NFile (encode_manifest base_manifest) 0x1a4 ∅]> h2)).
  { apply does_write_atomic; [done|done|done| |].
    - unfold dir_at. by rewrite Hroot2, root_free by done.
    - intros n. destruct (tmp_in_root ACTIVE_MANIFEST_FILE n) as (Hn & Hne & _). by rewrite Hroot2. }
  intros []. set (h3 := <[_ := _]> h2).
  assert (plain_dir h3 root) as Hp3 by (eapply plain_dir_outside; [apply outside_insert; [apply under_self|done]|done]).
  assert (∀ x, x ≠ LAYER_METADATA_DIR → x ≠ ACTIVE_MANIFEST_FILE → h3 !! (root ++ [x]) = h !! (root ++ [x])) as Hroot3.
  { intros x Hx Hx'. unfold h3. rewrite lookup_insert_ne; [by apply Hroot2|]. intros ?%(inj (app root)). congruence. }
  assert (tree h3) as Ht3.
  { apply tree_insert; [done|by apply plain_dir_at|right]. unfold dir_at. by rewrite Hroot2, root_free by done. }
  assert (dir_at h3 (root ++ [WORKSPACE_BINDING_FILE]) = false) as Hb.
  { unfold dir_at. by rewrite Hroot3, root_free by done. }
  eapply does_bind; [eapply does_bind_reads; [exact Hv|]; apply (does_write_atomic pid h3); try done|].
  - intros n. destruct (tmp_in_root WORKSPACE_BINDING_FILE n) as (Hn & Hne & Hne' & _). by rewrite Hroot3.
  - intros []. apply does_ret. intros k ->. split; [done|]. split; [apply tree_insert; [done|by apply plain_dir_at|by right]|]. intros x. unfold finished, h3.
    case_decide as H1; [subst; by rewrite lookup_insert_eq|]. rewrite lookup_insert_ne by done.
    case_decide as H2; [subst; by rewrite lookup_insert_eq|]. rewrite lookup_insert_ne by done. apply Hh2.
Qed.
End finish.

(** ** The digest is printed in plain text *)

Definition graphic (x : byte) : bool := bool_decide (0x20 < Byte.to_N x < 0x80)%N.

Lemma strip_graphic ws s :
  forallb (λ w, match w with x :: _ => negb (graphic x) | [] => false end) ws = true → Forall (λ x, graphic x = true) s → strip_any ws s = None.
Proof.
  intros Hws%Is_true_true%forallb_True Hs. destruct (strip_any ws s) as [r|] eqn:Heq; [|done]. exfalso. apply strip_any_Some in Heq as (w & Hw & _ & ->).
  - rewrite Forall_forall in Hws. apply Hws in Hw. destruct w as [|x w]; [done|]. apply Forall_cons in Hs as [Hx _]. by rewrite Hx in Hw.
  - eapply Forall_impl; [exact Hws|]. by intros [].
Qed.

Lemma hex_lower_all (P : byte → bool) s : forallb P (hex_char <$> (N.of_nat <$> seq 0 16)) = true → Forall (λ x, P x = true) (hex_lower s).
Proof.
  rewrite forallb_forall. intros HP. assert (∀ d, (d < 16)%N → P (hex_char d) = true) as Hd.
  { intros d Hd. apply HP, list_elem_of_In, list_elem_of_fmap_2, list_elem_of_fmap. exists (N.to_nat d). rewrite elem_of_seq. lia. }
  apply Forall_forall. intros x (y & Hx & _)%list_elem_of_bind. apply elem_of_cons in Hx as [->|Hx%list_elem_of_singleton]; [|subst]; apply Hd.
  - rewrite N.shiftr_div_pow2. pose proof (Byte.to_N_bounded y). apply N.Div0.div_lt_upper_bound. change (2 ^ 4)%N with 16%N. lia.
  - change 0x0f%N with (N.ones 4). rewrite N.land_ones. by apply N.mod_lt.
Qed.

Lemma hex_graphic s : Forall (λ x, graphic x = true) (hex_lower s).
Proof. by apply hex_lower_all. Qed.

Lemma hex_trim s : trim (hex_lower s) = hex_lower s.
Proof. apply trim_id; apply strip_graphic; [by vm_compute|apply hex_graphic|by vm_compute|apply Forall_reverse, hex_graphic]. Qed.

Lemma hex_utf8 s : utf8_valid (hex_lower s) = true.
Proof. apply utf8_valid_ascii. eapply Forall_impl; [apply hex_graphic|]. intros x Hx%bool_decide_eq_true. lia. Qed.

(** ** The whole build *)

Lemma components_absolute p : is_absolute p = true → components p = (true, path_comps p).
Proof.
  intros Hp. unfold components. rewrite Hp. destruct p as [|x p]; [done|]. unfold is_absolute in Hp. cbn in Hp. rewrite andb_true_r in Hp.
  apply bool_decide_eq_true in Hp as <-. done.
Qed.

(** The check of the paths keeps the root of the storage out of the workspace. *)
Lemma validated_paths workspace stack :
  validate_workspace_binding_paths workspace stack = Ok () →
  is_absolute workspace = true ∧ is_absolute stack = true ∧ ¬ under (path_comps workspace) (path_comps stack).
Proof.
  unfold validate_workspace_binding_paths. destruct (is_absolute workspace) eqn:Hw; [|done]. destruct (is_absolute stack) eqn:Hs; [|done].
  cbn [negb]. destruct (_ || _) eqn:Ho; [done|]. intros _. split_and!; [done..|]. intros Hu. apply orb_false_iff in Ho as [_ Ho].
  unfold path_starts_with in Ho. rewrite bool_decide_eq_false, !components_absolute in Ho by done. apply Ho. by rewrite Hw, Hs.
Qed.

Section build.
Context (sha256 : bytes → bytes) `{ManifestCodec} `{BindingCodec} (pid : N) (cwd : path) (registered : bool).
Context (f : fs) (stack workspace : bytes).
Abbreviation root := (path_comps stack).
Abbreviation ws := (path_comps workspace).

(** A workspace, and a root under which there is nothing yet. *)
Record base_input : Prop := {
  bi_paths : validate_workspace_binding_paths workspace stack = Ok ();
  bi_text : utf8_valid workspace = true ∧ utf8_valid stack = true;
  bi_ws : workspace_ok f ws;
  bi_root : makeable f root;
  bi_empty x r : f !! (root ++ x :: r) = None;
}.
Hypothesis Hin : base_input.

Lemma base_fresh : fresh_root f root ws.
Proof using Hin.
  destruct Hin as [Hv _ Hws Hmk Hemp]. apply validated_paths in Hv as (_ & _ & Hv). split; [done..|].
  intros r [s Hs%below_Some]. apply Hv. apply app_eq_app in Hs as (l & [[Heq _]|[Heq _]]); rewrite Heq; [|apply under_app].
  destruct l as [|x l]; [rewrite app_nil_r; apply under_self|]. pose proof (plain_dir_at _ _ (wk_plain _ _ Hws)) as Hd.
  unfold dir_at in Hd. by rewrite Heq, Hemp in Hd.
Qed.

Definition base_binding : WorkspaceBinding := mkBinding workspace stack (workspace_hash sha256 f ws).

Definition base_done (k : fs) : Prop :=
  ∃ g h, opened f root registered g ∧ base_made g root ws LAYERS_DIR h ∧ tree k ∧
    ∀ x, k !! x = finished root h (workspace_hash sha256 f ws) base_manifest base_binding x.

Lemma does_build :
  does (λ h, h = f) (build_workspace_base sha256 pid cwd registered stack workspace false) (λ b k, b = base_binding ∧ base_done k).
Proof using Hin.
  pose proof base_fresh as Hfr. destruct Hin as [Hv [Hu1 Hu2] Hws Hmk Hemp].
  destruct (validated_paths _ _ Hv) as (Ha1 & Ha2 & _). unfold build_workspace_base, build_workspace_base_from_snapshot, locate. rewrite Ha1, Ha2.
  eapply does_bind_reads; [exact Hv|]. cbn [negb]. eapply does_bind_reads; [by rewrite is_dir_plain by apply Hws|]. cbn [negb].
  eapply does_bind; [by apply (does_ret _ (λ h, h = f) (λ _ h, h = f))|]. intros []. eapply does_bind; [by eapply does_open_stack|]. intros [].
  apply does_pre. intros g Hg. eapply does_bind_reads; [by eapply opened_rejects_nothing|].
  eapply does_bind; [eapply does_build_base_layer; by eapply opened_base_pre|]. intros a. apply does_pre. intros h (Href & Hhash & Hm).
  rewrite (opened_hash f root ws registered Hfr g Hg) in Hhash. rewrite Href, Hhash. cbn [layer_id].
  rewrite !lossy_valid by done. change (mkLayerRef _ _) with base_ref. fold base_binding.
  eapply does_conseq; [by eapply (does_finish pid f root ws registered g h)|done|]. intros b k (-> & Ht & Hk). split; [done|]. by exists g, h.
Qed.

Section done.
Context (k : fs).
Hypothesis Hdone : base_done k.

Lemma done_layer r : k !! (layer_path root WORKSPACE_BASE_LAYER_ID ++ r) = copy_node <$> f !! (ws ++ r).
Proof using Hin Hdone.
  destruct Hdone as (g & h & Hg & Hm & _ & Hk). rewrite Hk. unfold finished, layer_path. rewrite <-!(assoc_L (++)).
  rewrite !decide_False by (by intros ?%(inj (app root))). cbn [app]. rewrite meta_made by done.
  pose proof (bm_layer _ _ _ _ _ Hm r) as Hl. rewrite <-(assoc_L (++)) in Hl. cbn [app] in Hl. rewrite Hl.
  by rewrite (opened_ws f root ws registered base_fresh g Hg).
Qed.

Lemma done_dir q : dir_at f q = true ∨ (∃ s, root ++ [LAYERS_DIR] = q ++ s) ∨ (∃ s, root ++ [LAYER_METADATA_DIR] = q ++ s) → dir_at k q = true.
Proof using Hin Hdone.
  destruct Hdone as (g & h & Hg & Hm & _ & Hk). intros Hq. assert (made h (root ++ [LAYER_METADATA_DIR]) q = Some (NDir 0x1ed ∅) ∨ dir_at h q = true) as Hd.
  { destruct Hq as [Hq|[[s Hs]|[s Hs]]].
    - right. unfold dir_at in *. destruct (f !! q) as [n|] eqn:Hn; [|done]. rewrite (bm_dirs _ _ _ _ _ Hm q n); [done|].
      by eapply opened_kept; [apply base_fresh| |].
    - right. destruct (bm_parent _ _ _ _ _ Hm) as [_ Hp]. specialize (Hp (length q)). rewrite Hs, take_app_length, length_app in Hp. apply Hp. lia.
    - unfold made. destruct (mk_along _ _ (meta_makeable f root ws registered g h Hg Hm) q s Hs) as [Hn|Hd]; [|by right].
      left. rewrite Hn, decide_True; [done|]. eexists. by apply below_Some. }
  unfold dir_at. rewrite Hk. destruct Hd as [Hd|Hd]; [by erewrite finished_kept by done|].
  unfold dir_at in Hd. destruct (h !! q) as [n|] eqn:Hn; [|done]. erewrite finished_kept; [exact Hd|done|done|]. unfold made. by rewrite Hn.
Qed.

Lemma done_kept q n : f !! q = Some n → k !! q = Some n.
Proof using Hin Hdone.
  destruct Hdone as (g & h & Hg & Hm & _ & Hk). intros Hn. rewrite Hk. eapply finished_kept; [done|done|]. unfold made.
  rewrite (bm_dirs _ _ _ _ _ Hm q n); [done|]. by eapply opened_kept; [apply base_fresh| |].
Qed.

Lemma done_plain : plain_dir k (root ++ [LAYERS_DIR]) ∧ plain_dir k (root ++ [LAYER_METADATA_DIR]).
Proof using Hin Hdone.
  assert (dotdot ∉ root) as Hdd by apply (bi_root Hin). split.
  all: split; [by intros [?|?%list_elem_of_singleton]%elem_of_app|]; intros j Hj; apply done_dir; right.
  - left. eexists. by rewrite take_drop.
  - right. eexists. by rewrite take_drop.
Qed.

Lemma done_file x data : k !! (root ++ [x]) = Some (NFile data 0x1a4 ∅) → x ≠ dotdot → metadata k (root ++ [x]) = Ok (NFile data 0x1a4 ∅).
Proof using Hin Hdone.
  intros Hn Hx. rewrite metadata_child; [unfold node_at; by rewrite Hn|by eapply plain_dir_app, done_plain|done|]. intros t. by rewrite Hn.
Qed.

Lemma done_manifest : read_manifest k (root ++ [ACTIVE_MANIFEST_FILE]) = Ok base_manifest.
Proof using Hin Hdone.
  eapply read_manifest_written; [by eapply plain_dir_app, done_plain|done|by split|].
  destruct Hdone as (g & h & _ & _ & _ & Hk). rewrite Hk. unfold finished. rewrite decide_False by (by intros ?%(inj (app root))). by rewrite decide_True.
Qed.

Lemma done_binding : read_workspace_binding k root = Ok (Some base_binding).
Proof using Hin Hdone.
  unfold read_workspace_binding, exists_, read_to_string, read. erewrite done_file; [|by destruct Hdone as (g & h & _ & _ & _ & Hk); rewrite Hk; unfold finished; rewrite decide_True|done].
  cbn [negb result_bind map_err]. rewrite encode_binding_utf8. cbn [map_err result_bind]. by rewrite decode_encoded_binding.
Qed.

Lemma done_digest : read k (layer_digest_path root WORKSPACE_BASE_LAYER_ID) = Ok (workspace_hash sha256 f ws).
Proof using Hin Hdone.
  unfold layer_digest_path, read. change [LAYER_METADATA_DIR; ?x] with ([LAYER_METADATA_DIR] ++ [x]). rewrite (assoc_L (++)). fold digest_name.
  assert (k !! ((root ++ [LAYER_METADATA_DIR]) ++ [digest_name]) = Some (NFile (workspace_hash sha256 f ws) 0x1a4 ∅)) as Hn.
  { destruct Hdone as (g & h & _ & _ & _ & Hk). rewrite Hk. unfold finished. rewrite <-(assoc_L (++)).
    rewrite !decide_False by (by intros ?%(inj (app root))). by rewrite decide_True. }
  rewrite metadata_child; [unfold node_at; by rewrite Hn|apply done_plain|done|]. intros t. by rewrite Hn.
Qed.

(** No name of the workspace has the prefix of a whiteout. *)
Definition unreserved : Prop := ∀ r, is_Some (f !! (ws ++ r)) → Forall (λ c, starts_with LOGICAL_WHITEOUT_PREFIX c = false) r.

Section readable.
Hypothesis Hun : unreserved.

Lemma done_unmarked r x : present k (layer_path root WORKSPACE_BASE_LAYER_ID ++ r) (LOGICAL_WHITEOUT_PREFIX ++ x) = false.
Proof using Hin Hdone Hun.
  apply bool_decide_eq_false. rewrite <-(assoc_L (++)), done_layer, fmap_is_Some. intros Hs%Hun.
  apply Forall_app in Hs as [_ Hs]. apply Forall_cons in Hs as [Hs _].
  assert (starts_with LOGICAL_WHITEOUT_PREFIX (LOGICAL_WHITEOUT_PREFIX ++ x) = true) as Ht by (apply starts_with_app; by eexists). by rewrite Ht in Hs.
Qed.

Lemma done_pure : layer_pure k (layer_path root WORKSPACE_BASE_LAYER_ID).
Proof using Hin Hdone Hun.
  pose proof (bi_ws Hin) as Hws. assert (∀ r x, k !! (layer_path root WORKSPACE_BASE_LAYER_ID ++ r ++ [LOGICAL_WHITEOUT_PREFIX ++ x]) = None) as Hno.
  { intros r x. pose proof (done_unmarked r x) as Hp. apply bool_decide_eq_false in Hp. rewrite <-(assoc_L (++)) in Hp. by apply eq_None_not_Some. }
  split; [split|..].
  - intros r n. rewrite done_layer. intros (n0 & Hn & ->)%fmap_Some. apply (wk_nodes _ _ Hws) in Hn. by destruct n0.
  - intros r x [? Hn]. by rewrite Hno in Hn.
  - intros r x t. by rewrite Hno.
  - intros r c. rewrite done_layer, fmap_is_Some. intros Hs. left. pose proof (wk_names _ _ Hws _ Hs) as Hok. apply Hun in Hs.
    apply Forall_app in Hok as [_ Hok]. apply Forall_cons in Hok as [[(? & ? & ? & _) _] _]. apply Forall_app in Hs as [_ Hs]. apply Forall_cons in Hs as [? _]. done.
  - intros r m xs. rewrite done_layer. intros (n0 & Hn & Heq)%fmap_Some [Hx|Hx]; destruct n0; simplify_eq/=; set_solver.
  - intros r c. unfold dir_at. rewrite !done_layer, fmap_is_Some. intros Hs. rewrite (assoc_L (++)) in Hs. apply (wk_tree _ _ Hws) in Hs.
    unfold dir_at in Hs. by destruct (f !! (ws ++ r)) as [[]|].
Qed.

Lemma done_good : good_stack k root (layers base_manifest).
Proof using Hin Hdone Hun.
  split; [apply done_plain|..].
  - apply Forall_singleton, base_ref_canonical.
  - apply NoDup_singleton.
  - apply Forall_singleton. cbn [layer_id base_ref new_ref]. split_and!; [|apply done_pure|].
    + unfold dir_at. rewrite <-(app_nil_r (layer_path _ _)), done_layer, app_nil_r. pose proof (plain_dir_at _ _ (wk_plain _ _ (bi_ws Hin))) as Hd.
      unfold dir_at in Hd. by destruct (f !! ws) as [[]|].
    + unfold opaque. rewrite <-(app_nil_r (layer_path _ _)). apply (done_unmarked [] (lit ".wh..opq")).
Qed.

Lemma done_shows q : q ≠ [] → Forall ordinary q → overlay k (layer_dirs root (layers base_manifest)) q = copy_node <$> f !! (ws ++ q).
Proof using Hin Hdone Hun.
  intros Hq Hord. change (layer_dirs root (layers base_manifest)) with [layer_path root WORKSPACE_BASE_LAYER_ID].
  rewrite overlay_cons, judge_pure by (done || apply done_pure || (intros; apply done_unmarked)). rewrite done_layer, overlay_nil.
  destruct (f !! (ws ++ q)) as [n|] eqn:Hn; [|by destruct (blocked _ _ _)]. apply (wk_nodes _ _ (bi_ws Hin)) in Hn.
  assert (whiteout_node (copy_node n) = false) as Hw; [|cbn; by rewrite Hw]. destruct n; try done. cbn. apply andb_false_r.
Qed.

Lemma done_read p rel max_bytes :
  parse p = Ok rel → Forall ordinary (comps rel) → no_link_above f ws (comps rel) →
  read_entry_limited k root p base_manifest max_bytes = entry_result max_bytes (f !! (ws ++ comps rel)) ∧
  view_read_classified k root p base_manifest max_bytes = classify_result max_bytes (f !! (ws ++ comps rel)).
Proof using Hin Hdone Hun.
  intros Hp Hord Hnl. apply parse_comps in Hp as Hc. destruct Hc as (Hne & Hok & Hstr). pose proof (good_stack_ok _ _ _ done_good) as Hst.
  assert (Forall (λ d, no_link_above k d (comps rel)) (layer_dirs root (layers base_manifest))) as Hnl'.
  { apply Forall_singleton. intros j t Hj. cbn. rewrite done_layer. specialize (Hnl j t Hj). by destruct (f !! _) as [[]|]; intros [=]; simplify_eq. }
  unfold read_entry_limited, view_read_classified. rewrite Hp. cbn [map_err result_bind]. rewrite Hstr. split.
  - rewrite (read_entry_loop_overlay _ _ _ (layer_dirs root (layers base_manifest))), done_shows by done. by destruct (f !! _) as [[]|].
  - rewrite (read_classified_loop_overlay _ _ _ (layer_dirs root (layers base_manifest))), done_shows by done. by destruct (f !! _) as [[]|].
Qed.
End readable.

Lemma done_layer_plain : plain_dir k (layer_path root WORKSPACE_BASE_LAYER_ID).
Proof using Hin Hdone.
  pose proof (done_layer []) as Hl. rewrite !app_nil_r in Hl. pose proof (plain_dir_at _ _ (wk_plain _ _ (bi_ws Hin))) as Hd. unfold dir_at in Hd.
  rewrite layer_path_snoc in *. apply plain_dir_snoc; [apply done_plain| |done]. unfold dir_at. rewrite Hl. by destruct (f !! ws) as [[]|].
Qed.

Lemma done_layer_dir : layer_dir k root base_ref = Ok (layer_path root WORKSPACE_BASE_LAYER_ID).
Proof using Hin Hdone.
  unfold layer_dir. rewrite validate_canonical, resolve_canonical by apply base_ref_canonical. cbn [result_bind layer_id base_ref new_ref].
  by rewrite is_dir_plain by apply done_layer_plain.
Qed.

(** A file of the workspace whose name has the prefix is a whiteout in the layer. *)
Lemma done_hidden p rel ds x n max_bytes :
  parse p = Ok rel → comps rel = ds ++ [x] → f !! (ws ++ ds ++ [LOGICAL_WHITEOUT_PREFIX ++ x]) = Some n → n_is_symlink n = false →
  read_entry_limited k root p base_manifest max_bytes = Ok EAbsent.
Proof using Hin Hdone.
  intros Hp Hc Hn Hl. destruct (parse_comps _ _ Hp) as (Hne & Hok & Hstr).
  unfold read_entry_limited. rewrite Hp. cbn [map_err result_bind]. cbn [layers base_manifest read_entry_loop]. rewrite done_layer_dir. cbn [result_bind].
  assert (is_whiteouted k (layer_path root WORKSPACE_BASE_LAYER_ID) (as_str rel) = true) as ->; [|done].
  rewrite Hstr, is_whiteouted_comps by done. unfold whited. apply orb_true_iff. right.
  rewrite Hc, (assoc_L (++)). unfold logical_whiteout_path_for_target. rewrite parent_snoc, file_name_snoc.
  pose proof (done_layer (ds ++ [LOGICAL_WHITEOUT_PREFIX ++ x])) as Hx. rewrite Hn, (assoc_L (++)) in Hx. cbn [fmap option_fmap option_map] in Hx.
  unfold exists_. rewrite metadata_child; [unfold node_at; by rewrite Hx| |done|].
  - eapply tree_plain; [by destruct Hdone as (g & h & _ & _ & Ht & _)| |by rewrite Hx]. apply not_elem_of_app. split; [apply done_layer_plain|].
    intros Hdd. rewrite Hc in Hok. apply Forall_app in Hok as [Hok _]. rewrite Forall_forall in Hok. by destruct (Hok _ Hdd) as (_ & _ & ? & _).
  - intros t. rewrite Hx. by destruct n.
Qed.

Lemma done_validates : validate_manifest_for_root k root base_binding = Ok ().
Proof using Hin Hdone.
  unfold validate_manifest_for_root. assert (exists_ k (root ++ [ACTIVE_MANIFEST_FILE]) = true) as ->.
  { unfold exists_. erewrite done_file; [done| |done]. destruct Hdone as (g & h & _ & _ & _ & Hk). rewrite Hk. unfold finished.
    rewrite decide_False by (by intros ?%(inj (app root))). by rewrite decide_True. }
  rewrite done_manifest. cbn [negb result_bind]. rewrite (decide_False (P := (version _ ≤ 0)%Z)) by (cbn; lia).
  rewrite (decide_False (P := layers _ = [])) by done. cbn [layers base_manifest validate_layers].
  rewrite resolve_canonical by apply base_ref_canonical.
  cbn [layer_id base_ref new_ref].
  assert (exists_ k (layer_path root WORKSPACE_BASE_LAYER_ID) = true) as ->.
  { rewrite layer_path_snoc. unfold exists_. pose proof (done_layer []) as Hl. rewrite !app_nil_r, layer_path_snoc in Hl.
    pose proof (plain_dir_at _ _ (wk_plain _ _ (bi_ws Hin))) as Hd. unfold dir_at in Hd. destruct (f !! ws) as [[]|]; try done.
    rewrite metadata_child; [unfold node_at; by rewrite Hl|apply done_plain|done|]. intros t. by rewrite Hl. }
  cbn [negb]. rewrite decide_True by done. unfold read_to_string. rewrite done_digest. cbn [result_bind].
  unfold workspace_hash, base_root_hash. rewrite hex_utf8, hex_trim. rewrite decide_False by (by intros []). done.
Qed.
End done.
End build.

(** ** What the callers get *)

(** The first call builds, a later one finds what it built. *)
Lemma does_ensure `{ManifestCodec} `{BindingCodec} sha256 pid cwd registered f stack workspace :
  base_input f stack workspace →
  does (λ h, h = f) (ensure_workspace_base sha256 pid cwd registered stack workspace)
    (λ r k, r = (base_binding sha256 f stack workspace, true) ∧ base_done sha256 registered f stack workspace k).
Proof.
  intros Hin. destruct (validated_paths _ _ (bi_paths _ _ _ Hin)) as (_ & Ha & _). unfold ensure_workspace_base.
  eapply does_bind_reads.
  - unfold read_workspace_binding, locate. rewrite Ha. by rewrite gap_exists by (done || apply Hin).
  - cbn. eapply does_bind; [by apply does_build|]. intros b. apply does_ret. by intros k [-> Hk].
Qed.

Lemma ensure_again `{ManifestCodec} `{BindingCodec} sha256 pid cwd r1 r2 f stack workspace w :
  base_input f stack workspace → base_done sha256 r1 f stack workspace (w_fs w) →
  ensure_workspace_base sha256 pid cwd r2 stack workspace w = (Ok (base_binding sha256 f stack workspace, false), w).
Proof.
  intros Hin Hk. destruct (validated_paths _ _ (bi_paths _ _ _ Hin)) as (_ & Ha & _). unfold ensure_workspace_base, locate. rewrite Ha.
  rewrite bind_reads, (done_binding sha256 r1 f stack workspace Hin _ Hk). cbn [workspace_root layer_stack_root base_binding]. rewrite !decide_False by (by intros []).
  by rewrite bind_reads, (done_validates sha256 r1 f stack workspace Hin _ Hk).
Qed.


(** C16: [ensure_workspace_base] is idempotent.  For a workspace with only
    directories, files and links whose names are text, and on a fresh root, it
    builds the base or fails on a failing call that writes; whoever calls it after
    that, in a state of the same files, gets the same binding, is told that nothing
    was built, and changes nothing. *)
Theorem ensure_is_idempotent `{ManifestCodec} `{BindingCodec} sha256 pid cwd registered stack workspace w :
  base_input (w_fs w) stack workspace →
  match ensure_workspace_base sha256 pid cwd registered stack workspace w with
  | (Err _, _) => w_faults w ≠ []
  | (Ok (binding, built), w') =>
      built = true ∧ ∀ pid2 cwd2 registered2 w2, w_fs w2 = w_fs w' →
        ensure_workspace_base sha256 pid2 cwd2 registered2 stack workspace w2 = (Ok (binding, false), w2)
  end.
Proof.
  intros Hin. pose proof (does_ensure sha256 pid cwd registered _ _ _ Hin w eq_refl) as He.
  destruct (ensure_workspace_base _ _ _ _ _ _ w) as [[[b built]|e] w']; [|done]. destruct He as [[[= -> ->] Hk] _]. split; [done|].
  intros pid2 cwd2 registered2 w2 Hw. eapply ensure_again; [done|]. by rewrite Hw.
Qed.

(** A file of the workspace whose name starts with the whiteout prefix hides
    its neighbour.  The base is meant to be a full copy; when the workspace has
    [.wh.x] next to [x], the layer is built without an error and [x] reads as
    absent. *)
Theorem whiteout_name_hides_file `{ManifestCodec} `{BindingCodec} sha256 pid cwd registered stack workspace w b w' p rel ds x n max_bytes :
  base_input (w_fs w) stack workspace →
  build_workspace_base sha256 pid cwd registered stack workspace false w = (Ok b, w') →
  parse p = Ok rel → comps rel = ds ++ [x] →
  w_fs w !! (path_comps workspace ++ ds ++ [LOGICAL_WHITEOUT_PREFIX ++ x]) = Some n → n_is_symlink n = false →
  read_entry_limited (w_fs w') (path_comps stack) p base_manifest max_bytes = Ok EAbsent.
Proof.
  intros Hin Hrun Hp Hc Hn Hl. pose proof (does_build sha256 pid cwd registered _ _ _ Hin w eq_refl) as Hb. rewrite Hrun in Hb.
  destruct Hb as [[_ Hk] _]. by eapply done_hidden.
Qed.

(** ** A concrete workspace *)

#[refine] Definition number_binding_codec : BindingCodec := {|
  encode_binding b := print_bits (encode (workspace_root b, layer_stack_root b, binding_root_hash b));
  decode_binding s := '(w, s, h) ← decode (A := bytes * bytes * bytes) (parse_bits s); Some (mkBinding w s h);
|}.
Proof.
  - intros b. apply utf8_valid_ascii, print_bits_ascii.
  - intros []. by rewrite parse_print_bits, decode_encode.
Defined.

#[local] Instance comp_ok_decision x : Decision (comp_ok x).
Proof. unfold comp_ok. apply _. Defined.

(** The inputs of a build, checked on a concrete file system. *)
Definition workspace_check (f : fs) (ws : path) : bool :=
  tree_check f && plain_check f ws &&
  forallb (λ qn, match below ws qn.1 with
    | None => true
    | Some r => forallb (λ c, bool_decide (comp_ok c) && utf8_valid c) r && plain_node qn.2
    end) (map_to_list f).

Lemma workspace_check_ok f ws : workspace_check f ws = true → workspace_ok f ws.
Proof.
  unfold workspace_check. rewrite !andb_true_iff, forallb_forall. intros [[Ht%tree_check_tree Hp%plain_check_dir] Hall].
  assert (∀ r n, f !! (ws ++ r) = Some n → Forall file_name_ok r ∧ plain_node n = true) as Hn.
  { intros r n Hn%elem_of_map_to_list%list_elem_of_In%Hall. cbn [fst snd] in Hn. rewrite below_app, andb_true_iff, forallb_forall in Hn.
    destruct Hn as [Hr Hk]. split; [|done]. apply Forall_forall. intros c Hc%list_elem_of_In%Hr. by apply andb_true_iff in Hc as [?%bool_decide_eq_true ?]. }
  split; [done|done|..].
  - intros r [n Hr]. by eapply Hn.
  - intros r n Hr. by eapply Hn.
Qed.

Definition nothing_below (f : fs) (root : path) : bool :=
  forallb (λ qn, match below root qn.1 with Some (_ :: _) => false | _ => true end) (map_to_list f).

Lemma nothing_below_spec f root x r : nothing_below f root = true → f !! (root ++ x :: r) = None.
Proof.
  unfold nothing_below. rewrite forallb_forall. intros Hall. apply eq_None_not_Some. intros [n Hn%elem_of_map_to_list%list_elem_of_In%Hall].
  cbn [fst] in Hn. by rewrite below_app in Hn.
Qed.

Definition base_fs : fs :=
  {[ [] := NDir 0x1ed ∅; [lit "w"] := NDir 0x1ed ∅; [lit "w"; lit "a"] := NFile (lit "one") 0x1ed ∅; [lit "w"; lit "d"] := NDir 0x1c0 ∅;
     [lit "w"; lit "d"; lit "b"] := NFile [] 0x1a4 {[USER_OVERLAY_WHITEOUT_XATTR]}; [lit "w"; lit "d"; lit "l"] := NSymlink (lit "../a") ]}.

Lemma base_fs_input : base_input base_fs (lit "/s") (lit "/w").
Proof.
  split.
  - vm_compute. reflexivity.
  - split; vm_compute; reflexivity.
  - apply workspace_check_ok. vm_compute. reflexivity.
  - change (path_comps (lit "/s")) with ([] ++ [lit "s"]). apply makeable_snoc.
    + apply plain_makeable, plain_check_dir. vm_compute. reflexivity.
    + done.
    + intros [|x r]; [vm_compute; reflexivity|]. apply (nothing_below_spec base_fs [lit "s"]). vm_compute. reflexivity.
  - intros x r. apply nothing_below_spec. vm_compute. reflexivity.
Qed.

Definition unreserved_check (f : fs) (ws : path) : bool :=
  forallb (λ qn, match below ws qn.1 with Some r => forallb (λ c, negb (starts_with LOGICAL_WHITEOUT_PREFIX c)) r | None => true end) (map_to_list f).

Lemma unreserved_check_spec f workspace : unreserved_check f (path_comps workspace) = true → unreserved f workspace.
Proof.
  unfold unreserved_check. rewrite forallb_forall. intros Hall r [n Hn%elem_of_map_to_list%list_elem_of_In%Hall].
  cbn [fst] in Hn. rewrite below_app, forallb_forall in Hn. apply Forall_forall. intros c Hc%list_elem_of_In%Hn. by apply negb_true_iff in Hc.
Qed.

Definition base_run : result WorkspaceBinding LayerStackError * world :=
  build_workspace_base (λ x, x) (H := number_codec) (H0 := number_binding_codec) 1 [] false (lit "/s") (lit "/w") false (mkWorld base_fs 0 []).


Lemma ensure_is_idempotent_witness :
  let ensure := ensure_workspace_base (λ x, x) (H := number_codec) (H0 := number_binding_codec) 1 [] false (lit "/s") (lit "/w") in
  match ensure (mkWorld base_fs 0 []) with
  | (Ok (b, true), w') => ensure (mkWorld (w_fs w') 7 [Some 0]) = (Ok (b, false), mkWorld (w_fs w') 7 [Some 0])
  | _ => False
  end.
Proof.
  intros ensure. pose proof (ensure_is_idempotent (H := number_codec) (H0 := number_binding_codec) (λ x, x) 1 [] false (lit "/s") (lit "/w")
    (mkWorld base_fs 0 []) base_fs_input) as He. fold ensure in He.
  destruct (ensure (mkWorld base_fs 0 [])) as [[[b built]|e] w']; [|by apply He]. destruct He as [-> He]. by apply He.
Defined.

Definition reserved_fs : fs :=
  {[ [] := NDir 0x1ed ∅; [lit "w"] := NDir 0x1ed ∅; [lit "w"; lit "a"] := NFile (lit "one") 0x1ed ∅; [lit "w"; lit ".wh.a"] := NFile (lit "two") 0x1ed ∅ ]}.

Lemma reserved_fs_input : base_input reserved_fs (lit "/s") (lit "/w").
Proof.
  split.
  - vm_compute. reflexivity.
  - split; vm_compute; reflexivity.
  - apply workspace_check_ok. vm_compute. reflexivity.
  - change (path_comps (lit "/s")) with ([] ++ [lit "s"]). apply makeable_snoc.
    + apply plain_makeable, plain_check_dir. vm_compute. reflexivity.
    + done.
    + intros [|x r]; [vm_compute; reflexivity|]. apply (nothing_below_spec reserved_fs [lit "s"]). vm_compute. reflexivity.
  - intros x r. apply nothing_below_spec. vm_compute. reflexivity.
Qed.

Definition reserved_run : result WorkspaceBinding LayerStackError * world :=
  build_workspace_base (λ x, x) (H := number_codec) (H0 := number_binding_codec) 1 [] false (lit "/s") (lit "/w") false (mkWorld reserved_fs 0 []).

Lemma whiteout_name_hides_file_witness :
  match reserved_run with
  | (Ok _, w') =>
      w_fs w' !! [lit "w"; lit "a"] = Some (NFile (lit "one") 0x1ed ∅) ∧
      read_entry_limited (w_fs w') [lit "s"] (lit "a") base_manifest 100%Z = Ok EAbsent
  | _ => False
  end.
Proof.
  assert (match reserved_run with (Ok _, w') => w_fs w' !! [lit "w"; lit "a"] = Some (NFile (lit "one") 0x1ed ∅) | _ => False end) as Hok
    by (vm_compute; reflexivity).
  destruct reserved_run as [[b|e] w'] eqn:Hrun; [|done]. split; [done|].
  apply (whiteout_name_hides_file (H := number_codec) (H0 := number_binding_codec) (λ x, x) 1 [] false (lit "/s") (lit "/w") (mkWorld reserved_fs 0 []) b w'
    (lit "a") (mkLayerPath (lit "a")) [] (lit "a") (NFile (lit "two") 0x1ed ∅));
    [apply reserved_fs_input|exact Hrun|reflexivity|reflexivity|vm_compute; reflexivity|reflexivity].
Defined.
