(* ===== verification/BaseHash.v ===== *)
(** * What the hash of a workspace identifies: [workspace_base/collect.rs]

    The hash names an entry of the shared cache, so it has to tell workspaces
    apart. *)

From S2P Require Import Prelude ByteStr Merge Model FS Storage View Descend World StorageOps Flatten Does FlattenRead FlattenSpec.
From S2P Require Import Lease Publish Stack Squash SquashSpec SquashCommit LayerWrite PublishRead Base BaseSpec BaseBuild.

(** ** The text behind the hash *)

Definition entry_fields (e : BaseEntry) : list bytes :=
  match e with
  | BaseDirectory p => [lit "directory"; p; []]
  | BaseFile p size content_hash => [lit "file"; p; fmt_dec (Z.to_N size); content_hash]
  | BaseSymlink p link_target => [lit "symlink"; p; link_target]
  end.

Lemma update_root_hash_fields e : update_root_hash e = terminate (entry_fields e).
Proof. unfold terminate. destruct e; unfold update_root_hash, kind, entry_path, entry_fields; rewrite !bind_cons; change ([] ≫= ?f) with (@nil byte); by rewrite ?app_nil_r, <-?(assoc_L (++)). Qed.

Lemma hash_input_fields es : es ≫= update_root_hash = terminate (es ≫= entry_fields).
Proof.
  induction es as [|e es IH]; [done|]. rewrite !bind_cons, IH, update_root_hash_fields. unfold terminate. by rewrite bind_app.
Qed.

(** The kind of an entry tells how many fields it has. *)
Lemma entry_fields_inj es1 es2 : es1 ≫= entry_fields = es2 ≫= entry_fields → entry_fields <$> es1 = entry_fields <$> es2.
Proof.
  revert es2. induction es1 as [|e1 es1 IH]; intros [|e2 es2]; rewrite ?bind_cons; [done|by destruct e2|by destruct e1|].
  rewrite !fmap_cons. intros Heq. destruct e1, e2; cbn [entry_fields app] in *; try discriminate Heq;
    (injection Heq; intros; subst; f_equal; first [by apply IH|congruence]).
Qed.

Lemma elem_of_hex x s : x ∈ hex_lower s → x ≠ nul.
Proof. intros Hx ->. pose proof (hex_graphic s) as Hg. rewrite Forall_forall in Hg. by apply Hg in Hx. Qed.

(** ** Workspaces with the same hash *)

(** What the hash covers of a node: no permissions, no extended attributes. *)
Definition content (n : node) : node := match n with NFile data _ _ => NFile data 0 ∅ | NDir _ _ => NDir 0 ∅ | n => n end.

(** A workspace whose link targets are text. *)
Record hashable (f : fs) (ws : path) : Prop := {
  ha_ok : workspace_ok f ws;
  ha_links r t : f !! (ws ++ r) = Some (NSymlink t) → utf8_valid t = true ∧ nul ∉ t;
}.

Lemma join_nul (r : path) : Forall comp_ok r → nul ∉ join_with slash r.
Proof.
  intros Hr. induction Hr as [|c r (_ & _ & _ & _ & Hc & _) Hr IH]; [by intros ?%elem_of_nil|]. destruct r as [|c' r]; [done|].
  change (join_with slash (c :: c' :: r)) with (c ++ slash :: join_with slash (c' :: r)).
  rewrite elem_of_app, elem_of_cons. intros [?|[?|?]]; done.
Qed.

Section hash.
Context (sha256 : bytes → bytes).

Lemma entries_nul_free f ws : hashable f ws → Forall (λ s, nul ∉ s) (sorted_entries (workspace_entries sha256 f ws) ≫= entry_fields).
Proof.
  intros [Hws Hl]. apply Forall_forall. intros s (e & Hs & He)%list_elem_of_bind. unfold sorted_entries in He.
  rewrite (merge_sort_Permutation entry_le) in He. apply elem_of_workspace_entries in He as (r & n & Hr & Hn & He).
  assert (nul ∉ join_with slash r) as Hp by (apply join_nul, name_ok_comps; eapply wk_names; [done|by eexists]).
  destruct n as [data m xs|t|m xs| |]; simplify_eq/=; repeat (apply elem_of_cons in Hs as [->|Hs]); try done; try (by apply elem_of_nil in Hs); try (apply (bool_decide_unpack _); vm_compute; exact I).
  - intros Hx. by apply (pad_plain 0 10) in Hx as [_ ?].
  - by intros ?%elem_of_hex.
  - apply Hl in Hn as [Hu Hnul]. by rewrite lossy_valid.
Qed.

(** Entries with the same fields come from nodes with the same content. *)
Lemma node_entry_content r n1 n2 e1 e2 :
  node_entry sha256 r n1 = Some e1 → node_entry sha256 r n2 = Some e2 → entry_fields e1 = entry_fields e2 →
  (∀ t, n1 = NSymlink t → utf8_valid t = true) → (∀ t, n2 = NSymlink t → utf8_valid t = true) →
  content n1 = content n2 ∨ collision sha256.
Proof.
  intros He1 He2 Heq Hu1 Hu2. destruct n1 as [d1 m1 x1|t1|m1 x1| |], n2 as [d2 m2 x2|t2|m2 x2| |]; simplify_eq/=.
  - match goal with H : hex_lower _ = hex_lower _ |- _ => apply hex_lower_inj in H as Hs end.
    destruct (decide (d1 = d2)) as [->|Hne]; [by left|right; by exists d1, d2].
  - match goal with H : to_string_lossy _ = to_string_lossy _ |- _ => rewrite !lossy_valid in H by auto; subst end. by left.
  - by left.
Qed.

Lemma workspace_hash_entries f ws g vs :
  hashable f ws → hashable g vs → workspace_hash sha256 f ws = workspace_hash sha256 g vs →
  (∀ r n1, r ≠ [] → f !! (ws ++ r) = Some n1 → ∃ n2, g !! (vs ++ r) = Some n2 ∧ (content n1 = content n2 ∨ collision sha256)) ∨ collision sha256.
Proof.
  intros Hf Hg Heq. apply hex_lower_inj in Heq.
  destruct (decide (sorted_entries (workspace_entries sha256 f ws) ≫= update_root_hash = sorted_entries (workspace_entries sha256 g vs) ≫= update_root_hash))
    as [Hin|Hne]; [left|right; by do 2 eexists].
  rewrite !hash_input_fields in Hin. apply terminate_inj, entry_fields_inj in Hin; [|by apply entries_nul_free..].
  assert (∀ e1, e1 ∈ workspace_entries sha256 f ws → ∃ e2, e2 ∈ workspace_entries sha256 g vs ∧ entry_fields e1 = entry_fields e2) as He.
  { intros e1 He1. assert (entry_fields e1 ∈ entry_fields <$> sorted_entries (workspace_entries sha256 f ws)) as Hx.
    { apply list_elem_of_fmap_2. unfold sorted_entries. by rewrite (merge_sort_Permutation entry_le). }
    rewrite Hin in Hx. apply list_elem_of_fmap in Hx as (e2 & Hx & He2). unfold sorted_entries in He2.
    rewrite (merge_sort_Permutation entry_le) in He2. by exists e2. }
  intros r n1 Hr Hn1. pose proof (wk_nodes _ _ (ha_ok _ _ Hf) _ _ Hn1) as Hk. assert (is_Some (node_entry sha256 r n1)) as [e1 He1] by by destruct n1.
  destruct (He e1) as (e2 & He2 & Hfs); [apply elem_of_workspace_entries; by exists r, n1|].
  apply elem_of_workspace_entries in He2 as (r2 & n2 & Hr2 & Hn2 & He2).
  assert (entry_path e1 = entry_path e2) as Hp by (destruct e1, e2; simplify_eq/=; done).
  rewrite (node_entry_path _ _ _ _ He1), (node_entry_path _ _ _ _ He2) in Hp. apply join_names_inj in Hp as <-; [|by eapply wk_names; [apply Hf|eexists]|by eapply wk_names; [apply Hg|eexists]|done|done].
  exists n2. split; [done|]. eapply node_entry_content; [done|done|done|..].
  - intros t ->. by apply (ha_links _ _ Hf) in Hn1 as [? _].
  - intros t ->. by apply (ha_links _ _ Hg) in Hn2 as [? _].
Qed.
End hash.


Definition link_text_check (f : fs) : bool :=
  forallb (λ qn, match qn.2 with NSymlink t => utf8_valid t && bool_decide (nul ∉ t) | _ => true end) (map_to_list f).

Lemma hashable_check f ws : workspace_check f ws = true → link_text_check f = true → hashable f ws.
Proof.
  intros Hws%workspace_check_ok Hl. split; [done|]. unfold link_text_check in Hl. rewrite forallb_forall in Hl.
  intros r t Hn%elem_of_map_to_list%list_elem_of_In%Hl. cbn [snd] in Hn. by apply andb_true_iff in Hn as [? ?%bool_decide_eq_true].
Qed.

(** The same workspace elsewhere, with other permissions. *)
Definition chmod_fs : fs :=
  {[ [] := NDir 0x1ed ∅; [lit "v"] := NDir 0x1c0 ∅; [lit "v"; lit "a"] := NFile (lit "one") 0x1a4 ∅; [lit "v"; lit "d"] := NDir 0x1ed ∅;
     [lit "v"; lit "d"; lit "b"] := NFile [] 0x1a4 ∅; [lit "v"; lit "d"; lit "l"] := NSymlink (lit "../a") ]}.

