(* ===== verification/BaseShared.v ===== *)
(** * The shared cache of bases: [build_shared_workspace_base]

    A base is built beside the cache and moved to the name of its hash, unless
    an entry of that name is there. *)

From S2P Require Import Prelude ByteStr Merge Model FS Storage View Descend World StorageOps Flatten Does FlattenRead FlattenSpec.
From S2P Require Import Lease Publish Stack Squash SquashSpec SquashCommit LayerWrite PublishRead Base BaseSpec BaseBuild BaseHash.

(** ** Moving and removing subtrees *)

Lemma tree_moved f g s e x :
  tree f → dir_at f e = true → ¬ under s e → same f s g (e ++ [x]) → (∀ r, g !! (s ++ r) = None) →
  outside (λ q, under s q ∨ under (e ++ [x]) q) f g → tree g.
Proof.
  intros Ht He Hse Hsame Hgone Hout q c Hs. destruct (decide (under (e ++ [x]) (q ++ [c]))) as [[r Hr%below_Some]|Hd].
  - destruct r as [|y r _] using rev_ind.
    + rewrite app_nil_r in Hr. apply app_inj_tail in Hr as [-> ->]. unfold dir_at. rewrite Hout; [done|]. intros [?|Hu]; [done|].
      destruct Hu as [r Hr%below_Some]. apply (f_equal length) in Hr. rewrite !length_app in Hr. simpl in Hr. lia.
    + rewrite (assoc_L (++)) in Hr. apply app_inj_tail in Hr as [-> ->]. unfold dir_at. rewrite <-Hsame. apply (Ht (s ++ r) y).
      rewrite <-(assoc_L (++)), Hsame. by rewrite (assoc_L (++)).
  - destruct (decide (under s (q ++ [c]))) as [[r Hr%below_Some]|Hn]; [rewrite Hr, Hgone in Hs; by destruct Hs|].
    rewrite Hout in Hs by naive_solver. apply Ht in Hs. unfold dir_at in *. rewrite Hout; [done|].
    intros [[r ->%below_Some]|[r ->%below_Some]]; [apply Hn|apply Hd]; rewrite <-(assoc_L (++)); apply under_app.
Qed.

Lemma tree_without f s : tree f → tree (without f s).
Proof.
  intros Ht q c. rewrite lookup_without. case_decide as Hb; [|by intros [? ?]]. intros Hs%Ht. unfold dir_at in *. rewrite lookup_without.
  rewrite decide_True; [done|]. apply eq_None_not_Some. intros [r ->%below_Some]. by rewrite <-(assoc_L (++)), below_app in Hb.
Qed.

Lemma does_remove_tree f d c m xs :
  plain_dir f d → c ≠ dotdot → f !! (d ++ [c]) = Some (NDir m xs) →
  does (λ h, h = f) (remove_path (d ++ [c])) (λ _ h, h = without f (d ++ [c])).
Proof.
  intros Hd Hc Hn. unfold remove_path. eapply does_bind_attempt_reads.
  { unfold symlink_metadata. rewrite resolve_child by done. cbn [result_bind]. unfold node_at. by rewrite Hn. }
  cbn [n_is_symlink n_is_file n_is_dir orb]. apply does_lift_err. intros [? u fa] Hw. simpl in Hw. subst. unfold remove_dir_all, bind, fault, reads.
  destruct fa as [|[k|] fa]; cbn -[resolve without]; rewrite resolve_child, Hn by done; cbn; done.
Qed.

(** A system call that can go ahead fails with the error of the fault. *)
Lemma doesx_fault {A} (g : fs → result (A * fs) errno) P Q : does P (syscall g) Q → doesx P (syscall g) Q (λ e, e = EIO).
Proof.
  intros Hc w HP. pose proof (Hc w HP) as Hw. pose proof (Hc (mkWorld (w_fs w) (w_unique w) []) HP) as H0.
  unfold syscall, bind, fault, reads in *. simpl in H0. destruct (g (w_fs w)) as [[a f']|e] eqn:Hg; [|done].
  destruct (w_faults w) as [|[k|] xs]; simpl in *; rewrite ?Hg in *; simpl in *; done.
Qed.

(** [let _ = remove_dir(p)] *)
Lemma does_try_remove_dir {E A} f d c (k : result () errno → io E A) Q :
  plain_dir f d → c ≠ dotdot →
  (∀ res h, h = f ∨ h = delete (d ++ [c]) f → does (λ h', h' = h) (k res) Q) →
  does (λ h, h = f) (bind (attempt (remove_dir (d ++ [c]))) k) Q.
Proof.
  intros Hd Hc Hk [? u fa] Hw. simpl in Hw. subst. set (w := mkWorld f u fa). unfold bind at 1, attempt at 1.
  destruct (remove_dir (d ++ [c]) w) as [res w1] eqn:Hr.
  assert ((w_fs w1 = f ∨ w_fs w1 = delete (d ++ [c]) f) ∧ (w_faults w = [] → w_faults w1 = [])) as [Hfs Hff].
  { unfold remove_dir, syscall, bind, fault, reads in Hr.
    unfold w in *. destruct fa as [|[j|] fa]; cbn -[resolve has_children] in Hr; rewrite ?resolve_child in Hr by done; cbn -[has_children] in Hr.
    all: unfold ret, fail in Hr; try (destruct (f !! (d ++ [c])) as [[]|]; try destruct (has_children f (d ++ [c]))); simplify_eq/=; (split; [by auto|done]). }
  specialize (Hk res (w_fs w1) Hfs w1 eq_refl). destruct (k res w1) as [[a|e] w2]; [|naive_solver]. destruct Hk as [? ?]. naive_solver.
Qed.

(** ** The hash of a copy *)

Lemma node_entry_copy sha256 r n : node_entry sha256 r (copy_node n) = node_entry sha256 r n.
Proof. by destruct n. Qed.

Lemma copy_hash sha256 f ws g vs :
  workspace_ok f ws → workspace_ok g vs → (∀ r, g !! (vs ++ r) = copy_node <$> f !! (ws ++ r)) → workspace_hash sha256 g vs = workspace_hash sha256 f ws.
Proof.
  intros Hf Hg Hc. unfold workspace_hash, base_root_hash. do 3 f_equal. apply (sorted_workspace sha256 f ws Hf).
  - by apply NoDup_workspace_entries.
  - intros e. rewrite !elem_of_workspace_entries. split.
    + intros (r & n & Hr & Hn & He). rewrite Hc in Hn. apply fmap_Some in Hn as (n0 & Hn0 & ->). rewrite node_entry_copy in He. eauto.
    + intros (r & n & Hr & Hn & He). exists r, (copy_node n). by rewrite Hc, Hn, node_entry_copy.
Qed.

Lemma same_hash sha256 f ws g vs :
  (∀ r, r ≠ [] → g !! (vs ++ r) = f !! (ws ++ r)) → workspace_ok f ws → workspace_ok g vs → workspace_hash sha256 g vs = workspace_hash sha256 f ws.
Proof.
  intros Hs Hf Hg. unfold workspace_hash, base_root_hash. do 3 f_equal. apply (sorted_workspace sha256 f ws Hf).
  - by apply NoDup_workspace_entries.
  - intros e. rewrite !elem_of_workspace_entries. split; intros (r & n & Hr & Hn & He); exists r, n; [rewrite <-Hs by done|rewrite Hs by done]; done.
Qed.

Lemma copy_ok f ws g vs :
  workspace_ok f ws → tree g → plain_dir g vs → (∀ r, g !! (vs ++ r) = copy_node <$> f !! (ws ++ r)) → workspace_ok g vs.
Proof.
  intros Hf Ht Hp Hc. split; [done|done|..].
  - intros r. rewrite Hc, fmap_is_Some. apply Hf.
  - intros r n. rewrite Hc. intros (n0 & Hn & ->)%fmap_Some. apply (wk_nodes _ _ Hf) in Hn. by destruct n0.
Qed.

Lemma kept_ok f ws g : workspace_ok f ws → tree g → plain_dir g ws → (∀ r, g !! (ws ++ r) = f !! (ws ++ r)) → workspace_ok g ws.
Proof.
  intros Hf Ht Hp Hc. split; [done|done|..].
  - intros r. rewrite Hc. apply Hf.
  - intros r n. rewrite Hc. apply Hf.
Qed.

(** ** The cache *)

Section cache.
Context (sha256 : bytes → bytes) (cache : path).

Definition shared_layer (hash : bytes) : path := cache ++ [hash; SHARED_BASE_DIR; WORKSPACE_BASE_LAYER_ID].

(** An entry under the name of a hash is a base with that hash. *)
Definition honest (f : fs) : Prop :=
  ∀ s, (∀ r, f !! (cache ++ hex_lower s :: r) = None) ∨
       (hashable f (shared_layer (hex_lower s)) ∧ workspace_hash sha256 f (shared_layer (hex_lower s)) = hex_lower s).

(** The name of a directory under construction. *)
Definition building (pid n : N) : bytes := lit ".building-" ++ fmt_dec pid ++ lit "-" ++ fmt_dec n.

Lemma hex_not_dotted s t : hex_lower s ≠ Byte.x2e :: t.
Proof using.
  intros Heq. assert (Forall (λ x, negb (bool_decide (x = Byte.x2e)) = true) (hex_lower s)) as Hh by by apply hex_lower_all.
  rewrite Heq in Hh. by apply Forall_cons in Hh as [? _].
Qed.

Lemma building_not_hash pid n s : building pid n ≠ hex_lower s.
Proof using. intros Heq. symmetry in Heq. by apply hex_not_dotted in Heq. Qed.
End cache.

Section shared.
Context (sha256 : bytes → bytes) (pid : N) (cache ws : path).
Context (f : fs).

(** A workspace, a cache whose entries have the names of their hashes, and no
    leftovers of this process. *)
Record shared_input : Prop := {
  si_ws : hashable f ws;
  si_cache : makeable f cache;
  si_free n r : f !! (cache ++ building pid n :: r) = None;
  si_apart r : ¬ under cache (ws ++ r);
  si_honest : honest sha256 cache f;
}.
Hypothesis Hin : shared_input.

(** *** With the directory of the cache *)

Context (g : fs).
Hypothesis Hg : ∀ x, g !! x = made f cache x.

Lemma cache_below x r : g !! (cache ++ x :: r) = f !! (cache ++ x :: r).
Proof using Hg.
  rewrite Hg. unfold made. destruct (f !! (cache ++ x :: r)); [done|]. rewrite decide_False; [done|]. intros [s Hs%below_Some].
  apply (f_equal length) in Hs. rewrite !length_app in Hs. simpl in Hs. lia.
Qed.

Lemma cache_kept q n : f !! q = Some n → g !! q = Some n.
Proof using Hg. intros Hn. rewrite Hg. unfold made. by rewrite Hn. Qed.

Lemma cache_src r : g !! (ws ++ r) = f !! (ws ++ r).
Proof using Hin Hg.
  rewrite Hg. unfold made. destruct (f !! (ws ++ r)); [done|]. rewrite decide_False; [done|]. intros [s Hs%below_Some].
  apply (si_apart Hin (r ++ s)). rewrite (assoc_L (++)), <-Hs. apply under_self.
Qed.

Lemma cache_plain : plain_dir g cache.
Proof using Hin Hg. eapply made_plain; [apply Hin|done]. Qed.

Lemma cache_tree : tree g.
Proof using Hin Hg. eapply made_tree_any; [apply (ha_ok _ _ (si_ws Hin))|apply (si_cache Hin)|done]. Qed.

Lemma plain_kept (h : fs) q : plain_dir f q → (∀ x n, f !! x = Some n → h !! x = Some n) → plain_dir h q.
Proof using.
  intros [Hdd Hp] Hk. split; [done|]. intros j Hj. specialize (Hp j Hj). unfold dir_at in *. destruct (f !! take j q) as [n|] eqn:Hn; [|done].
  by rewrite (Hk _ _ Hn).
Qed.

(** *** Under construction *)

Context (n : N).
Abbreviation tmp := (cache ++ [building pid n]).
Abbreviation g1 := (<[tmp := NDir 0x1ed ∅]> g).

Lemma tmp_new r : g !! (tmp ++ r) = None.
Proof using Hin Hg. rewrite <-(assoc_L (++)). cbn [app]. rewrite cache_below. apply Hin. Qed.

Lemma tmp_src r : g1 !! (ws ++ r) = f !! (ws ++ r).
Proof using Hin Hg.
  rewrite lookup_insert_ne; [apply cache_src|]. intros Heq. apply (si_apart Hin r). rewrite <-Heq. apply under_app.
Qed.

Lemma tmp_kept q m : f !! q = Some m → g1 !! q = Some m.
Proof using Hin Hg.
  intros Hn. rewrite lookup_insert_ne; [by apply cache_kept|]. intros <-. by rewrite (si_free Hin n []) in Hn.
Qed.

Lemma tmp_tree : tree g1.
Proof using Hin Hg. apply tree_insert; [apply cache_tree|apply plain_dir_at, cache_plain|by left]. Qed.

Lemma tmp_plain : plain_dir g1 tmp.
Proof using Hin Hg.
  apply plain_dir_snoc; [|unfold dir_at; by rewrite lookup_insert_eq|done]. eapply plain_dir_outside; [|apply cache_plain].
  apply outside_insert; [apply under_self|done].
Qed.

Lemma tmp_ws : workspace_ok g1 ws.
Proof using Hin Hg.
  apply (kept_ok f); [apply (si_ws Hin)|apply tmp_tree| |apply tmp_src]. apply plain_kept; [apply (ha_ok _ _ (si_ws Hin))|apply tmp_kept].
Qed.

Lemma tmp_below x r : g1 !! (tmp ++ x :: r) = None.
Proof using Hin Hg. rewrite lookup_insert_ne; [apply tmp_new|]. intros Heq%(f_equal length). rewrite !length_app in Heq. simpl in Heq. lia. Qed.

Lemma tmp_base_pre : base_pre g1 tmp ws SHARED_BASE_DIR.
Proof using Hin Hg.
  split; [apply tmp_ws| | |done|..].
  - apply makeable_snoc; [apply plain_makeable, tmp_plain|done|]. intros r. apply tmp_below.
  - apply makeable_snoc; [apply plain_makeable, tmp_plain|done|]. intros r. apply tmp_below.
  - intros r. rewrite <-(assoc_L (++)). apply tmp_below.
  - intros r. rewrite <-(assoc_L (++)). apply tmp_below.
  - intros r Hu. apply (si_apart Hin r). destruct Hu as [s Hs%below_Some]. rewrite Hs, <-(assoc_L (++)). apply under_app.
Qed.

Lemma tmp_hash : workspace_hash sha256 g1 ws = workspace_hash sha256 f ws.
Proof using Hin Hg. apply same_hash; [intros r _; apply tmp_src|apply Hin|apply tmp_ws]. Qed.

(** *** Built *)

Context (h : fs).
Hypothesis Hm : base_made g1 tmp ws SHARED_BASE_DIR h.
Abbreviation hash := (workspace_hash sha256 f ws).
Abbreviation entry := (cache ++ [hash]).
Abbreviation layer := (shared_layer cache hash).

Lemma built_out q : ¬ under tmp q → h !! q = g !! q.
Proof using Hin Hg Hm.
  intros Hq. assert (g1 !! q = g !! q) as <- by (rewrite lookup_insert_ne; [done|]; intros <-; apply Hq, under_self).
  assert (∀ x s, tmp ++ [x] = q ++ s → h !! q = g1 !! q) as Hpre.
  { intros x s Heq. apply app_eq_app in Heq as (l & [[Heq Hl]|[-> Hl]]); [|by destruct Hq; apply under_app].
    destruct tmp_plain as [_ Hp]. specialize (Hp (length q)). rewrite Heq, take_app_length, length_app in Hp.
    assert (dir_at g1 q = true) as Hd. { rewrite Heq. apply Hp. lia. }
    unfold dir_at in Hd. destruct (g1 !! q) as [nd|] eqn:Hnd; [|done]. by rewrite (bm_dirs _ _ _ _ _ Hm q nd). }
  destruct (decide (is_Some (below q (tmp ++ [SHARED_BASE_DIR])))) as [[s Hs%below_Some]|H1]; [by eapply Hpre|].
  destruct (decide (is_Some (below q (tmp ++ [STAGING_DIR])))) as [[s Hs%below_Some]|H2]; [by eapply Hpre|].
  apply (bm_rest _ _ _ _ _ Hm).
  - intros [s Hs%below_Some]. apply Hq. rewrite Hs, <-(assoc_L (++)). apply under_app.
  - intros s Heq. apply H1. eexists. by apply below_Some.
  - intros s Heq. apply H2. eexists. by apply below_Some.
Qed.

Lemma built_tree : tree h.
Proof using Hin Hg Hm. eapply base_made_tree; [apply tmp_tree|apply tmp_ws|exact Hm]. Qed.

Lemma hash_not_tmp r : ¬ under tmp (cache ++ hash :: r).
Proof using.
  intros [s Hs%below_Some]. rewrite <-(assoc_L (++)) in Hs. apply (inj (app cache)) in Hs. injection Hs as Heq _.
  symmetry in Heq. by apply building_not_hash in Heq.
Qed.

Lemma built_entry r : h !! (cache ++ hash :: r) = f !! (cache ++ hash :: r).
Proof using Hin Hg Hm. rewrite built_out by apply hash_not_tmp. by apply cache_below. Qed.

Lemma built_cache : plain_dir h cache.
Proof using Hin Hg Hm. eapply plain_dir_app, plain_dir_app, (bm_parent _ _ _ _ _ Hm). Qed.

Lemma built_kept q m : f !! q = Some m → h !! q = Some m.
Proof using Hin Hg Hm. intros Hn. by apply (bm_dirs _ _ _ _ _ Hm), tmp_kept. Qed.

(** Whether there is an entry of the hash. *)
Lemma built_present :
  (is_dir h layer = true ∧ hashable f layer ∧ workspace_hash sha256 f layer = hash) ∨
  (is_dir h layer = false ∧ ∀ r, h !! (entry ++ r) = None).
Proof using Hin Hg Hm.
  destruct (si_honest Hin (sha256 (sorted_entries (workspace_entries sha256 f ws) ≫= update_root_hash))) as [Hn|[Hok Hh]].
  - right. change (hex_lower _) with hash in Hn.
    assert (∀ r, h !! (entry ++ r) = None) as Hn' by (intros r; rewrite <-(assoc_L (++)); cbn [app]; rewrite built_entry; apply Hn).
    split; [|done]. assert (exists_ h layer = false) as He.
    { unfold shared_layer. change [hash; ?a; ?b] with ([hash] ++ [a] ++ [b]). rewrite (assoc_L (++)), (assoc_L (++)).
      assert (hash ≠ dotdot) as Hd by (apply hex_not_dotted).
      apply gap_exists; [|done|by rewrite <-(assoc_L (++)), <-(assoc_L (++)), (assoc_L (++))].
      apply makeable_snoc; [apply makeable_snoc; [apply plain_makeable, built_cache|done|]|done|].
      - intros r. specialize (Hn' r). by rewrite <-(assoc_L (++)) in Hn'.
      - intros r. apply Hn'. }
    unfold exists_, is_dir in *. by destruct (metadata h layer).
  - left. split; [|done]. apply is_dir_plain, plain_kept; [apply Hok|]. apply built_kept.
Qed.

(** *** Placed *)

(** After a call that found the entry, or made it. *)
Record shared_state (built : bool) (k : fs) : Prop := {
  ss_tree : tree k;
  ss_gone r : k !! (tmp ++ r) = None;
  ss_rest q : ¬ under tmp q → (built = true → ¬ under entry q) → k !! q = g !! q;
  ss_layer : if built then ∀ r, k !! (layer ++ r) = copy_node <$> f !! (ws ++ r)
             else hashable f layer ∧ workspace_hash sha256 f layer = hash;
  ss_free : built = true → ∀ r, f !! (entry ++ r) = None;
}.

Lemma built_tmp_dir : ∃ m xs, h !! tmp = Some (NDir m xs).
Proof using Hm.
  pose proof (plain_dir_at _ _ (plain_dir_app _ _ _ (bm_parent _ _ _ _ _ Hm))) as Hd. unfold dir_at in Hd. destruct (h !! tmp) as [[]|]; naive_solver.
Qed.

Lemma does_drop :
  hashable f layer → workspace_hash sha256 f layer = hash → does (λ x, x = h) (remove_path tmp) (λ _ k, shared_state false k).
Proof using Hin Hg Hm.
  intros Hok Hh. destruct built_tmp_dir as (m & xs & Hd). eapply does_conseq; [eapply does_remove_tree; [apply built_cache|done|exact Hd]|done|].
  intros [] k ->. split.
  - apply tree_without, built_tree.
  - intros r. rewrite lookup_without, decide_False; [done|]. by rewrite below_app.
  - intros q Hq _. rewrite lookup_without, decide_True; [by apply built_out|]. by apply eq_None_not_Some.
  - done.
  - done.
Qed.

Lemma built_staging_empty x r : h !! ((tmp ++ [STAGING_DIR]) ++ x :: r) = None.
Proof using Hin Hg Hm.
  destruct (decide (x = WORKSPACE_BASE_LAYER_ID ++ lit ".staging")) as [->|Hx].
  { pose proof (bm_staging _ _ _ _ _ Hm r) as Hs. rewrite <-!(assoc_L (++)) in *. exact Hs. }
  rewrite (bm_rest _ _ _ _ _ Hm).
  - rewrite <-(assoc_L (++)). by apply tmp_below.
  - rewrite <-!(assoc_L (++)). intros [s Hs%below_Some]. rewrite <-!(assoc_L (++)) in Hs. by apply (inj (app cache)) in Hs.
  - intros s Hs%(f_equal length). rewrite !length_app in Hs. simpl in Hs. lia.
  - intros s Hs%(f_equal length). rewrite !length_app in Hs. simpl in Hs. lia.
Qed.

(** The entry is made by one rename; whether the empty staging directory could
    be removed before does not matter. *)
Lemma does_move h2 :
  (∀ r, h !! (entry ++ r) = None) → h2 = h ∨ h2 = delete (tmp ++ [STAGING_DIR]) h →
  does (λ x, x = h2) (fs_rename tmp entry) (λ _ k, shared_state true k ∧ plain_dir k cache).
Proof using Hin Hg Hm.
  intros Hn Hh2. assert (∀ q, q ≠ tmp ++ [STAGING_DIR] → h2 !! q = h !! q) as Hq.
  { intros q Hq. destruct Hh2 as [-> | ->]; [done|by rewrite lookup_delete_ne]. }
  assert (tree h2) as Ht2.
  { intros q c Hs. assert (is_Some (h !! (q ++ [c]))) as Hs'.
    { destruct Hh2 as [-> | ->]; [done|]. destruct Hs as [nd Hs]. apply lookup_delete_Some in Hs as [_ Hs]. by eexists. }
    unfold dir_at. rewrite Hq; [by apply built_tree in Hs'|]. intros ->. rewrite built_staging_empty in Hs'. by destruct Hs'. }
  assert (plain_dir h2 cache) as Hp2.
  { destruct built_cache as [Hdd Hp]. split; [done|]. intros j Hj. unfold dir_at. rewrite Hq; [by apply Hp|].
    intros Heq%(f_equal length). rewrite length_take, !length_app in Heq. simpl in Heq. lia. }
  assert (tmp ≠ tmp ++ [STAGING_DIR]) as Hne by (intros Heq%(f_equal length); rewrite !length_app in Heq; simpl in Heq; lia).
  assert (∀ r, entry ++ r ≠ tmp ++ [STAGING_DIR]) as Hne'.
  { intros r Heq. rewrite <-!(assoc_L (++)) in Heq. apply (inj (app cache)) in Heq. injection Heq as Heq _. symmetry in Heq. by apply building_not_hash in Heq. }
  destruct built_tmp_dir as (m & xs & Hd). eapply does_conseq; [eapply (does_rename_dir h2 cache _ cache _ m xs)|done|]; [done|done|done|apply hex_not_dotted|by rewrite Hq| | |].
  - intros r. rewrite Hq by done. apply Hn.
  - apply (hash_not_tmp []).
  - intros [] k (Hsame & Hgone & Hout). split; [split|].
    + eapply tree_moved; [exact Ht2|by apply plain_dir_at| |exact Hsame|exact Hgone|exact Hout].
      intros [s Hs%below_Some]. apply (f_equal length) in Hs. rewrite !length_app in Hs. simpl in Hs. lia.
    + done.
    + intros q Hq1 Hq2. rewrite Hout by naive_solver. rewrite Hq; [by apply built_out|]. intros ->. apply Hq1, under_app.
    + intros r. unfold shared_layer. change [hash; ?a; ?b] with ([hash] ++ [a; b]). rewrite (assoc_L (++)), <-(assoc_L (++)), <-Hsame.
      rewrite Hq by (intros Heq; rewrite <-!(assoc_L (++)) in Heq; by apply (inj (app cache)) in Heq). rewrite (assoc_L (++)), (bm_layer _ _ _ _ _ Hm).
      by rewrite tmp_src.
    + intros _ r. rewrite <-(Hn r), <-(assoc_L (++)). symmetry. apply built_entry.
    + destruct Hp2 as [Hdd Hp]. split; [done|]. intros j Hj. unfold dir_at. rewrite Hout; [by apply Hp|].
      intros [[s Hs%below_Some]|[s Hs%below_Some]]; apply (f_equal length) in Hs; rewrite length_take, !length_app in Hs; simpl in Hs; lia.
Qed.
End shared.

(** ** The whole call *)

Section call.
Context (sha256 : bytes → bytes) (pid : N) (cwd : path) (cache_root workspace_root : bytes).
Abbreviation cache := (locate cwd cache_root).
Abbreviation ws := (locate cwd workspace_root).
Context (f : fs).
Hypothesis Habs : is_absolute cache_root = true.
Hypothesis Hin : shared_input sha256 pid cache ws f.
Abbreviation hash := (workspace_hash sha256 f ws).

Definition shared_out (out : SharedWorkspaceBase) : Prop :=
  sb_root_hash out = hash ∧ sb_cache_entry_root out = cache ++ [hash] ∧ sb_base_mount_source out = cache ++ [hash; SHARED_BASE_DIR] ∧
  (sb_built out = false → sb_bytes out = 0%Z).

Lemma does_shared_in g n :
  (∀ x, g !! x = made f cache x) →
  does (λ x, x = <[cache ++ [building pid n] := NDir 0x1ed ∅]> g) (build_shared_in sha256 cache (cache ++ [building pid n]) ws)
    (λ out k, shared_out out ∧ shared_state sha256 pid cache ws f g n (sb_built out) k).
Proof using Hin.
  intros Hg. unfold build_shared_in. eapply does_bind; [eapply does_build_base_layer, tmp_base_pre; [exact Hin|exact Hg]|].
  intros a. apply does_pre. intros h (Href & Hhash & Hm). rewrite (tmp_hash sha256 pid cache ws f Hin g Hg) in Hhash. rewrite Href, Hhash. cbn [layer_id].
  assert ((((cache ++ [hash]) ++ [SHARED_BASE_DIR]) ++ [WORKSPACE_BASE_LAYER_ID]) = shared_layer cache hash) as -> by (unfold shared_layer; by rewrite <-!(assoc_L (++))).
  assert ((cache ++ [hash]) ++ [SHARED_BASE_DIR] = cache ++ [hash; SHARED_BASE_DIR]) as -> by by rewrite <-(assoc_L (++)).
  eapply does_bind_reads; [done|]. destruct (built_present sha256 pid cache ws f Hin g Hg n h Hm) as [(-> & Hok & Hh)|[-> Hn]].
  - eapply does_bind; [by eapply does_drop|]. intros []. apply does_ret. by intros k Hk.
  - eapply does_try_remove_dir; [eapply plain_dir_app, (bm_parent _ _ _ _ _ Hm)|done|]. intros res h2 Hh2.
    eapply does_attempt with (R := λ e, e = EIO); [by eapply doesx_fault, does_move| |by intros e w ->].
    intros []. apply does_pre. intros k [Hk Hp].
    eapply (does_bind _ _ _ (λ _ x, x = k)); [|intros []; apply does_ret; by intros ? ->].
    apply does_lift_err. assert (∃ nd, metadata k cache = Ok nd) as [nd Hnd].
    { pose proof (is_dir_plain _ _ Hp) as Hd. unfold is_dir in Hd. destruct (metadata k cache); [by eexists|done]. }
    eapply does_bind_reads; [exact Hnd|]. apply does_syscall. intros ? ->. by eexists _, _.
Qed.

Lemma does_shared :
  does (λ x, x = f) (build_shared_workspace_base sha256 pid cwd cache_root workspace_root)
    (λ out k, shared_out out ∧ ∃ g n, (∀ x, g !! x = made f cache x) ∧ shared_state sha256 pid cache ws f g n (sb_built out) k).
Proof using Habs Hin.
  unfold build_shared_workspace_base. rewrite Habs. cbn [negb].
  eapply does_bind_reads; [by rewrite is_dir_plain by apply (ha_ok _ _ (si_ws _ _ _ _ _ Hin))|]. cbn [negb].
  eapply does_bind; [apply does_lift_err, does_mkdirs, (si_cache _ _ _ _ _ Hin)|]. intros []. apply does_pre. intros g Hg.
  eapply (does_bind _ _ _ (λ _ h, h = g)); [intros w Hw; done|]. intros n. cbv zeta. fold (building pid n).
  assert (exists_ g (cache ++ [building pid n]) = false) as He.
  { apply gap_exists; [eapply plain_makeable, cache_plain; done|done|]. pose proof (tmp_new sha256 pid cache ws f Hin g Hg n []) as Hn. by rewrite app_nil_r in Hn. }
  eapply does_bind_reads; [by rewrite He|]. eapply (does_bind _ _ _ (λ _ h, h = g)); [by apply does_ret|]. intros [].
  eapply does_bind; [apply does_lift_err, does_create_new; [by eapply cache_plain|done|]|].
  { pose proof (tmp_new sha256 pid cache ws f Hin g Hg n []) as Hn. by rewrite app_nil_r in Hn. }
  intros []. eapply does_attempt with (R := λ _, True); [by apply doesx_any, does_shared_in| |].
  - intros out. apply does_ret. intros k [Hout Hk]. split; [done|]. by exists g, n.
  - intros e w _. unfold bind, attempt. by destruct (remove_path _ w).
Qed.

Section after.
Context (g : fs) (n : N) (built : bool) (k : fs).
Hypothesis Hg : ∀ x, g !! x = made f cache x.
Hypothesis Hk : shared_state sha256 pid cache ws f g n built k.
Abbreviation layer := (shared_layer cache hash).

Lemma after_kept q m : f !! q = Some m → k !! q = Some m.
Proof using Hin Hg Hk.
  intros Hn. rewrite (ss_rest _ _ _ _ _ _ _ _ _ Hk); [by eapply cache_kept|..].
  - intros [r ->%below_Some]. rewrite <-(assoc_L (++)) in Hn. cbn [app] in Hn. by rewrite (si_free _ _ _ _ _ Hin) in Hn.
  - intros Hb [r ->%below_Some]. by rewrite (ss_free _ _ _ _ _ _ _ _ _ Hk) in Hn.
Qed.

(** Other names in the cache. *)
Lemma after_other x r : x ≠ building pid n → x ≠ hash → k !! (cache ++ x :: r) = f !! (cache ++ x :: r).
Proof using Hin Hg Hk.
  intros Hx Hh. rewrite (ss_rest _ _ _ _ _ _ _ _ _ Hk); [by eapply cache_below|..].
  - intros [s Hs%below_Some]. rewrite <-(assoc_L (++)) in Hs. apply (inj (app cache)) in Hs. by simplify_eq/=.
  - intros _ [s Hs%below_Some]. rewrite <-(assoc_L (++)) in Hs. apply (inj (app cache)) in Hs. by simplify_eq/=.
Qed.

Lemma after_src r : k !! (ws ++ r) = f !! (ws ++ r).
Proof using Hin Hg Hk.
  rewrite (ss_rest _ _ _ _ _ _ _ _ _ Hk); [by eapply cache_src|..].
  - intros [s Hs%below_Some]. apply (si_apart _ _ _ _ _ Hin r). rewrite Hs, <-(assoc_L (++)). apply under_app.
  - intros _ [s Hs%below_Some]. apply (si_apart _ _ _ _ _ Hin r). rewrite Hs, <-(assoc_L (++)). apply under_app.
Qed.

Lemma after_hashable d : hashable f d → (∀ r, k !! (d ++ r) = f !! (d ++ r)) → hashable k d.
Proof using Hin Hg Hk.
  intros [Hok Hl] Hs. split.
  - apply (kept_ok f); [done|apply Hk| |done]. eapply plain_kept; [apply Hok|]. intros x m. apply after_kept.
  - intros r t. rewrite Hs. apply Hl.
Qed.

Lemma after_cached r : built = false → k !! (layer ++ r) = f !! (layer ++ r).
Proof using Hin Hg Hk.
  intros Hb. rewrite (ss_rest _ _ _ _ _ _ _ _ _ Hk).
  - unfold shared_layer. rewrite <-(assoc_L (++)). by eapply cache_below.
  - unfold shared_layer. rewrite <-(assoc_L (++)). apply hash_not_tmp.
  - by rewrite Hb.
Qed.

Lemma after_plain : plain_dir k layer.
Proof using Hin Hg Hk.
  assert (built = true ∨ built = false) as [Hb|Hb] by (destruct built; auto); pose proof (ss_layer _ _ _ _ _ _ _ _ _ Hk) as Hl; rewrite Hb in Hl.
  - specialize (Hl []). rewrite !app_nil_r in Hl. pose proof (plain_dir_at _ _ (wk_plain _ _ (ha_ok _ _ (si_ws _ _ _ _ _ Hin)))) as Hd. unfold dir_at in Hd.
    destruct (f !! ws) as [[]|]; try done. cbn in Hl. unfold shared_layer in *. change [?a; ?b; ?c] with ([a; b] ++ [c]) in *. rewrite (assoc_L (++)) in *.
    apply plain_dir_snoc; [|unfold dir_at; by rewrite Hl|done]. eapply tree_plain; [apply Hk| |by rewrite Hl].
    rewrite elem_of_app. intros [Hx|Hx]; [by apply (mk_names _ _ (si_cache _ _ _ _ _ Hin)) in Hx|].
    apply elem_of_cons in Hx as [Hx|Hx%list_elem_of_singleton]; [|done]. symmetry in Hx. by apply hex_not_dotted in Hx.
  - eapply plain_kept; [apply Hl|]. intros x m. apply after_kept.
Qed.

Lemma after_layer : hashable k layer ∧ workspace_hash sha256 k layer = hash.
Proof using Hin Hg Hk.
  pose proof (si_ws _ _ _ _ _ Hin) as Hws.
  assert (built = true ∨ built = false) as [Hb|Hb] by (destruct built; auto); pose proof (ss_layer _ _ _ _ _ _ _ _ _ Hk) as Hl; rewrite Hb in Hl.
  - assert (workspace_ok k layer) as Hok by (apply (copy_ok f ws); [apply Hws|apply Hk|apply after_plain|done]).
    split; [split; [done|]|by apply copy_hash; [apply Hws| |]].
    intros r t. rewrite Hl. intros (nd & Hnd & Heq)%fmap_Some. destruct nd; simplify_eq/=. by eapply (ha_links _ _ Hws).
  - destruct Hl as [Hl Hh]. assert (hashable k layer) as Hk' by (apply after_hashable; [done|]; intros r; by apply after_cached).
    split; [done|]. etrans; [|exact Hh]. apply same_hash; [intros r _; by apply after_cached|apply Hl|apply Hk'].
Qed.

Lemma after_honest : honest sha256 cache k.
Proof using Hin Hg Hk.
  intros s. destruct (decide (hex_lower s = hash)) as [Heq|Hne]; [right; rewrite Heq; apply after_layer|].
  assert (∀ r, k !! (cache ++ hex_lower s :: r) = f !! (cache ++ hex_lower s :: r)) as Hs.
  { intros r. apply after_other; [|done]. intros Hx. symmetry in Hx. by apply building_not_hash in Hx. }
  destruct (si_honest _ _ _ _ _ Hin s) as [Hn|[Hok Hh]]; [left; intros r; by rewrite Hs|right].
  assert (hashable k (shared_layer cache (hex_lower s))) as Hk'.
  { apply after_hashable; [done|]. intros r. unfold shared_layer. rewrite <-(assoc_L (++)). apply Hs. }
  split; [done|]. etrans; [|exact Hh]. apply same_hash; [|apply Hok|apply Hk']. intros r _. unfold shared_layer. rewrite <-(assoc_L (++)). apply Hs.
Qed.

(** The call can be made again. *)
Lemma after_input : shared_input sha256 pid cache ws k.
Proof using Hin Hg Hk.
  split.
  - apply after_hashable; [apply Hin|]. apply after_src.
  - eapply plain_makeable, plain_dir_app, after_plain.
  - intros n' r. destruct (decide (building pid n' = building pid n)) as [->|Hne].
    + pose proof (ss_gone _ _ _ _ _ _ _ _ _ Hk r) as Hx. by rewrite <-(assoc_L (++)) in Hx.
    + rewrite after_other; [apply Hin|done|]. apply building_not_hash.
  - apply Hin.
  - apply after_honest.
Qed.
End after.
End call.


(** ** A file whose permissions change *)

Section chmod.
Context (sha256 : bytes → bytes) (pid : N) (cache ws : path) (f : fs) (r : path) (data : bytes) (mode mode' : Z) (xs : gset bytes).
Hypothesis Hin : shared_input sha256 pid cache ws f.
Hypothesis Hfile : f !! (ws ++ r) = Some (NFile data mode xs).
Abbreviation f' := (<[ws ++ r := NFile data mode' xs]> f).

Lemma chmod_lookup q : f' !! q = f !! q ∨ (q = ws ++ r ∧ f' !! q = Some (NFile data mode' xs)).
Proof using. destruct (decide (q = ws ++ r)) as [->|Hq]; [right; by rewrite lookup_insert_eq|left; by rewrite lookup_insert_ne]. Qed.

Lemma chmod_dir q : dir_at f' q = dir_at f q.
Proof using Hfile. unfold dir_at. destruct (chmod_lookup q) as [->|[-> ->]]; [done|]. by rewrite Hfile. Qed.

Lemma chmod_some q : is_Some (f' !! q) ↔ is_Some (f !! q).
Proof using Hfile. destruct (chmod_lookup q) as [->|[-> ->]]; [done|]. rewrite Hfile. by split. Qed.

Lemma chmod_plain q : plain_dir f q → plain_dir f' q.
Proof using Hfile. intros [Hdd Hp]. split; [done|]. intros j Hj. rewrite chmod_dir. by apply Hp. Qed.

Lemma chmod_hashable d : hashable f d → hashable f' d.
Proof using Hfile.
  intros [[Ht Hp Hn Hk] Hl]. split; [split|].
  - intros q c Hs%chmod_some%Ht. by rewrite chmod_dir.
  - by apply chmod_plain.
  - intros s. rewrite chmod_some. apply Hn.
  - intros s n Hs. destruct (chmod_lookup (d ++ s)) as [Heq|[_ Heq]]; rewrite Heq in Hs; [by eapply Hk|by simplify_eq].
  - intros s t Hs. destruct (chmod_lookup (d ++ s)) as [Heq|[_ Heq]]; rewrite Heq in Hs; [by eapply Hl|by simplify_eq].
Qed.

Lemma chmod_hash d : hashable f d → workspace_hash sha256 f' d = workspace_hash sha256 f d.
Proof using Hfile.
  intros Hd. pose proof (chmod_hashable _ Hd) as Hd'. unfold workspace_hash, base_root_hash. do 3 f_equal. apply (sorted_workspace sha256 f d (ha_ok _ _ Hd)).
  - apply NoDup_workspace_entries, Hd'.
  - intros e. rewrite !elem_of_workspace_entries. split; intros (s & n & Hs & Hn & He).
    + destruct (chmod_lookup (d ++ s)) as [Heq|[Hq Heq]]; rewrite Heq in Hn; [by eauto|]. simplify_eq. exists s, (NFile data mode xs). by rewrite Hq.
    + destruct (chmod_lookup (d ++ s)) as [Heq|[Hq Heq]]; [exists s, n; by rewrite Heq|]. exists s, (NFile data mode' xs). rewrite Hq, Hfile in Hn. by simplify_eq/=.
Qed.

Lemma chmod_cache x s : f' !! (cache ++ x :: s) = f !! (cache ++ x :: s).
Proof using Hin. destruct (chmod_lookup (cache ++ x :: s)) as [?|[Hq _]]; [done|]. destruct (si_apart _ _ _ _ _ Hin r). rewrite <-Hq. apply under_app. Qed.

Lemma chmod_input : shared_input sha256 pid cache ws f'.
Proof using Hin Hfile.
  split.
  - apply chmod_hashable, Hin.
  - destruct (si_cache _ _ _ _ _ Hin) as [H1 H2 H3 H4]. split; [done|by rewrite chmod_dir|..].
    + intros p s Hq. rewrite chmod_dir. destruct (chmod_lookup p) as [->|[-> _]]; [by eapply H3|]. destruct (H3 _ _ Hq) as [Hn|?]; [by rewrite Hfile in Hn|by right].
    + intros p c s Hq Hn. assert (f !! p = None) as Hn' by (apply eq_None_not_Some; rewrite <-chmod_some; by apply eq_None_not_Some).
      pose proof (H4 _ _ _ Hq Hn') as Hx. apply eq_None_not_Some. rewrite chmod_some. by apply eq_None_not_Some.
  - intros n s. rewrite chmod_cache. apply Hin.
  - apply Hin.
  - intros s. destruct (si_honest _ _ _ _ _ Hin s) as [Hn|[Hok Hh]]; [left; intros t; by rewrite chmod_cache|right].
    split; [by apply chmod_hashable|]. by rewrite chmod_hash.
Qed.
End chmod.

(** The cache ignores permissions.  When a file of the workspace gets other
    permissions after its base has been built, the next call reports the hash as
    known and returns the old base, in which the file still has the old ones. *)
Theorem shared_base_ignores_permissions sha256 pid cwd cache_root workspace_root w out w1 r data mode mode' xs u out2 w2 :
  let call := build_shared_workspace_base sha256 pid cwd cache_root workspace_root in
  let ws := locate cwd workspace_root in
  is_absolute cache_root = true → shared_input sha256 pid (locate cwd cache_root) ws (w_fs w) →
  call w = (Ok out, w1) → sb_built out = true → r ≠ [] → w_fs w !! (ws ++ r) = Some (NFile data mode xs) →
  call (mkWorld (<[ws ++ r := NFile data mode' xs]> (w_fs w1)) u []) = (Ok out2, w2) →
  sb_built out2 = false ∧ sb_base_mount_source out2 = sb_base_mount_source out ∧
  w_fs w2 !! (sb_base_mount_source out2 ++ [WORKSPACE_BASE_LAYER_ID] ++ r) = Some (NFile data mode ∅).
Proof.
  intros call ws Habs Hin Hrun Hb Hr Hf Hrun2.
  pose proof (does_shared sha256 pid cwd cache_root workspace_root _ Habs Hin w eq_refl) as Hd. fold call in Hd. rewrite Hrun in Hd.
  destruct Hd as [[(Hh & _ & Hsrc & _) (g & n & Hg & Hk)] _]. rewrite Hb in Hk.
  destruct (after_layer sha256 pid cwd cache_root workspace_root _ Hin g n _ _ Hg Hk) as [Hl Hlh].
  assert (w_fs w1 !! (ws ++ r) = Some (NFile data mode xs)) as Hf1 by by eapply after_kept.
  pose proof (after_input sha256 pid cwd cache_root workspace_root _ Hin g n _ _ Hg Hk) as Hin1.
  pose proof (chmod_input _ _ _ _ _ _ _ _ mode' _ Hin1 Hf1) as Hin2.
  set (f2 := <[ws ++ r := NFile data mode' xs]> (w_fs w1)) in *.
  assert (workspace_hash sha256 f2 ws = workspace_hash sha256 (w_fs w) ws) as Hhash.
  { etrans; [apply (chmod_hash sha256 _ _ _ _ mode _ _ Hf1), Hin1|]. apply same_hash; [|apply Hin|apply Hin1]. intros s _. by eapply after_src. }
  pose proof (does_shared sha256 pid cwd cache_root workspace_root f2 Habs Hin2 (mkWorld f2 u []) eq_refl) as Hd. unfold call in Hrun2. rewrite Hrun2 in Hd.
  destruct Hd as [[(_ & _ & Hsrc2 & _) (g2 & n2 & Hg2 & Hk2)] _]. fold ws in Hsrc, Hsrc2. rewrite Hhash in Hsrc2.
  pose proof (ss_layer _ _ _ _ _ _ _ _ _ Hk r) as Hlr. fold ws in Hlr. rewrite Hf in Hlr. cbn [fmap option_fmap option_map copy_node] in Hlr.
  assert (∀ s, f2 !! (shared_layer (locate cwd cache_root) (workspace_hash sha256 (w_fs w) ws) ++ s) =
    w_fs w1 !! (shared_layer (locate cwd cache_root) (workspace_hash sha256 (w_fs w) ws) ++ s)) as Hc.
  { intros s. unfold shared_layer. rewrite <-(assoc_L (++)). by apply (chmod_cache sha256 pid (locate cwd cache_root) ws). }
  destruct (sb_built out2) eqn:Hb2.
  - exfalso. pose proof (ss_free _ _ _ _ _ _ _ _ _ Hk2 eq_refl ([SHARED_BASE_DIR; WORKSPACE_BASE_LAYER_ID] ++ r)) as Hx. fold ws in Hx. rewrite Hhash in Hx.
    specialize (Hc r). unfold shared_layer in Hc, Hlr. rewrite <-(assoc_L (++)) in Hx, Hc, Hlr. cbn [app] in Hx, Hc, Hlr. congruence.
  - split_and!; [done|congruence|]. rewrite Hsrc2, (assoc_L (++)), <-(assoc_L (++) _ [_; _]). cbn [app].
    pose proof (after_cached sha256 pid cwd cache_root workspace_root f2 Hin2 g2 n2 _ _ Hg2 Hk2 r eq_refl) as Hx. fold ws in Hx. rewrite Hhash, Hc in Hx.
    unfold shared_layer in Hx, Hlr. by rewrite Hx.
Qed.

(** ** Concrete caches *)

Definition shared_run (f : fs) : result SharedWorkspaceBase LayerStackError * world :=
  build_shared_workspace_base (λ x, x) 1 [] (lit "/c") (lit "/w") (mkWorld f 0 []).

Lemma empty_cache_input : shared_input (λ x, x) 1 (locate [] (lit "/c")) (locate [] (lit "/w")) base_fs.
Proof.
  change (locate [] (lit "/c")) with [lit "c"]. change (locate [] (lit "/w")) with [lit "w"].
  assert (∀ x r, base_fs !! ([lit "c"] ++ x :: r) = None) as Hn by (intros x r; apply nothing_below_spec; vm_compute; reflexivity). split.
  - apply hashable_check; vm_compute; reflexivity.
  - change [lit "c"] with ([] ++ [lit "c"]). apply makeable_snoc; [|done|].
    + apply plain_makeable, plain_check_dir. vm_compute. reflexivity.
    + intros [|x r]; [vm_compute; reflexivity|apply Hn].
  - intros n r. apply Hn.
  - intros r [s Hs%below_Some]. done.
  - intros s. left. intros r. apply Hn.
Qed.


Definition chmod_after (w : world) : world := mkWorld (<[[lit "w"; lit "a"] := NFile (lit "one") 0x1a4 ∅]> (w_fs w)) 1 [].

Lemma shared_base_ignores_permissions_witness :
  match shared_run base_fs with
  | (Ok out, w1) =>
      match build_shared_workspace_base (λ x, x) 1 [] (lit "/c") (lit "/w") (chmod_after w1) with
      | (Ok out2, w2) =>
          w_fs w2 !! (sb_base_mount_source out2 ++ [WORKSPACE_BASE_LAYER_ID; lit "a"]) = Some (NFile (lit "one") 0x1ed ∅)
      | _ => False
      end
  | _ => False
  end.
Proof.
  assert (match shared_run base_fs with
    | (Ok out, w1) => sb_built out = true ∧ is_err (build_shared_workspace_base (λ x, x) 1 [] (lit "/c") (lit "/w") (chmod_after w1)).1 = false
    | _ => False end) as Hok by (vm_compute; done).
  destruct (shared_run base_fs) as [[out|e] w1] eqn:H1; [|done]. destruct Hok as [Hb Hok].
  destruct (build_shared_workspace_base (λ x, x) 1 [] (lit "/c") (lit "/w") (chmod_after w1)) as [[out2|e] w2] eqn:H2; [|done].
  by eapply (shared_base_ignores_permissions (λ x, x) 1 [] (lit "/c") (lit "/w") (mkWorld base_fs 0 []) out w1 [lit "a"] (lit "one") 0x1ed 0x1a4 ∅ 1 out2 w2
    eq_refl empty_cache_input H1 Hb ltac:(done) eq_refl H2).
Defined.

(** Copying a workspace can write outside of its copy.  The copy of a name
    with a backslash goes to the path with a slash instead, and links are copied
    before files: a link [l] to a directory elsewhere and a file named [l\x] make
    the copy write the file [x] of that directory, and the build succeeds. *)
Theorem base_copy_escapes_through_link sha256 :
  let f : fs := {[ [] := NDir 0x1ed ∅; [lit "s"] := NDir 0x1ed ∅; [lit "etc"] := NDir 0x1ed ∅; [lit "etc"; lit "x"] := NFile (lit "kept") 0x1a4 ∅;
    [lit "w"] := NDir 0x1ed ∅; [lit "w"; lit "l"] := NSymlink (lit "/etc"); [lit "w"; lit "l\x"] := NFile (lit "new") 0x1ed ∅ ]} in
  match build_base_layer_under sha256 [lit "s"] [lit "w"] LAYERS_DIR (mkWorld f 0 []) with
  | (Ok _, w') => w_fs w' !! [lit "etc"; lit "x"] = Some (NFile (lit "new") 0x1ed ∅)
  | _ => False
  end.
Proof. vm_compute. reflexivity. Qed.
