(* ===== verification/Tree.v ===== *)
(** * Resource statistics of a tree: [workspace/src/overlay/tree.rs]

    [collect] walks a tree and counts its entries and bytes, up to a limit on
    the number of entries.  An entry that cannot be read is counted as an error
    and skipped.  The first error path is kept as a path, where the code keeps
    its text. *)

From S2P Require Import Prelude Model FS Descend.

Record TreeResourceStats := mkStats {
  st_files : Z;
  st_dirs : Z;
  st_symlinks : Z;
  st_bytes : Z;
  st_truncated : bool;
  st_read_error_count : Z;
  st_first_error_path : option path;
}.

Definition DEFAULT_TREE_WALK_ENTRY_LIMIT : Z := 50000.

(** The assignments to the counters. *)
Definition add_symlink (st : TreeResourceStats) : TreeResourceStats :=
  mkStats (st_files st) (st_dirs st) (u64_saturating_add (st_symlinks st) 1) (st_bytes st)
    (st_truncated st) (st_read_error_count st) (st_first_error_path st).
Definition add_file (st : TreeResourceStats) (len : Z) : TreeResourceStats :=
  mkStats (u64_saturating_add (st_files st) 1) (st_dirs st) (st_symlinks st) (u64_saturating_add (st_bytes st) len)
    (st_truncated st) (st_read_error_count st) (st_first_error_path st).
Definition add_dir (st : TreeResourceStats) : TreeResourceStats :=
  mkStats (st_files st) (u64_saturating_add (st_dirs st) 1) (st_symlinks st) (st_bytes st)
    (st_truncated st) (st_read_error_count st) (st_first_error_path st).
Definition truncate (st : TreeResourceStats) : TreeResourceStats :=
  mkStats (st_files st) (st_dirs st) (st_symlinks st) (st_bytes st) true (st_read_error_count st) (st_first_error_path st).

Definition record_read_error (st : TreeResourceStats) (p : path) : TreeResourceStats :=
  mkStats (st_files st) (st_dirs st) (st_symlinks st) (st_bytes st) (st_truncated st)
    (u64_saturating_add (st_read_error_count st) 1)
    (match st_first_error_path st with None => Some p | Some q => Some q end).

(** [fuel] bounds the nesting; [collect] passes more than the tree has. *)
Fixpoint collect_path (fuel : nat) (f : fs) (p : path) (acc : TreeResourceStats * Z) : TreeResourceStats * Z :=
  match fuel with
  | O => acc
  | S fuel =>
      let '(st, remaining) := acc in
      if (remaining =? 0)%Z then (truncate st, remaining)
      else match symlink_metadata f p with
      | Err _ => (record_read_error st p, remaining)
      | Ok meta =>
          let remaining := (0 `max` (remaining - 1))%Z in
          match meta with
          | NSymlink _ => (add_symlink st, remaining)
          | NFile _ _ _ => (add_file st (n_len meta), remaining)
          | NDir _ _ =>
              match read_dir f p with
              | Ok ns => foldl (λ acc name, collect_path fuel f (p ++ [name]) acc) (add_dir st, remaining) ns
              | Err _ => (record_read_error (add_dir st) p, remaining)
              end
          | _ => (st, remaining)
          end
      end
  end.

Definition no_stats : TreeResourceStats := mkStats 0 0 0 0 false 0 None.

Definition collect_with_entry_limit (f : fs) (p : path) (max_entries : Z) : TreeResourceStats :=
  (collect_path (S (S (depth_bound f))) f p (no_stats, max_entries)).1.

Definition collect (f : fs) (p : path) : TreeResourceStats := collect_with_entry_limit f p DEFAULT_TREE_WALK_ENTRY_LIMIT.
