(* ===== verification/Capture.v ===== *)
(** * Capturing an upper directory: [workspace/src/overlay/capture.rs]

    A session's writes lie in the upper directory of its overlay mount.  The
    capture walks that directory and turns every entry into a change for a new
    layer; file contents are not read, a written file becomes a reference to
    its place in the upper directory.  [rustix::fs::lgetxattr] is a parameter.
    Texts of error messages are left out. *)

From S2P Require Import Prelude ByteStr Model FS Storage View Descend World Tree.

(** ** Data *)

(** [model.rs] *)
Inductive ProtectedPathDropReason := UnsupportedSpecialFile | InvalidLayerPath | CommandScratchPath.

Record ProtectedPathDrop := mkDrop { drop_path : bytes; drop_reason : ProtectedPathDropReason }.

Record CapturedChanges := mkCaptured {
  cap_changes : list LayerChange;
  cap_protected_drops : list ProtectedPathDrop;
  cap_stats : TreeResourceStats;
}.

(** [enum CaptureError].  [Aborted] stands for the abort of the process when a
    buffer cannot be allocated. *)
Inductive CaptureError := CaptureFailed (p : path) (e : errno) | CapturePath (e : CasError) | InvalidPathChange | Aborted.

Inductive PendingChange :=
| PendingWrite (p : LayerPath) (source_path : path) (meta : node)
| PendingDelete (p : LayerPath)
| PendingSymlink (p : LayerPath) (source_path : bytes)
| PendingDirectory (p : LayerPath)
| PendingOpaqueDir (p : LayerPath).

Definition into_layer_change (c : PendingChange) : LayerChange :=
  match c with
  | PendingWrite p source_path meta => WriteFile p source_path (n_len meta)
  | PendingDelete p => Delete p
  | PendingSymlink p source_path => SymlinkTo p source_path
  | PendingDirectory p => Directory p
  | PendingOpaqueDir p => OpaqueDir p
  end.

(** ** Paths *)

Definition hex_bytes (s : bytes) : bytes :=
  if decide (s = []) then lit "empty"
  else s ≫= λ x, [hex_char (N.shiftr (Byte.to_N x) 4); hex_char (N.land (Byte.to_N x) 0x0f)].

Definition invalid_layer_path_placeholder (p : path) : bytes :=
  lit ".invalid-layer-path/" ++ hex_bytes (join_with slash p).

Definition path_component_string (c : bytes) : result bytes CaptureError :=
  if utf8_valid c then Ok c else Err InvalidPathChange.

Fixpoint component_strings (p : path) : result (list bytes) CaptureError :=
  match p with
  | [] => Ok []
  | c :: p => (let? s := path_component_string c in let? ss := component_strings p in Ok (s :: ss))%result
  end.

Definition relative_to_string (p : path) : result bytes CaptureError :=
  (let? parts := component_strings p in Ok (join_with slash parts))%result.

Definition path_string (p : bytes) : result bytes CaptureError :=
  if utf8_valid p then Ok p else Err InvalidPathChange.

(** [fn layer_path] *)
Definition capture_layer_path (s : bytes) : result LayerPath CaptureError := map_err CapturePath (parse s).

(** [Path::strip_prefix] *)
Definition relative_path (root entry : path) : result path CaptureError :=
  match below root entry with Some rel => Ok rel | None => Err InvalidPathChange end.

Definition push_invalid_layer_path_drop (p : path) (drops : list ProtectedPathDrop) : list ProtectedPathDrop :=
  drops ++ [mkDrop (invalid_layer_path_placeholder p) InvalidLayerPath].

Definition layer_path_from_relative_or_drop (p : path) (drops : list ProtectedPathDrop)
    : option LayerPath * list ProtectedPathDrop :=
  match (let? s := relative_to_string p in capture_layer_path s)%result with
  | Ok lp => (Some lp, drops)
  | Err _ => (None, push_invalid_layer_path_drop p drops)
  end.

(** ** Overlay attributes *)

(** The answer of [lgetxattr] into a buffer of a given size. *)
Inductive xattr_answer := XData (value : bytes) | XRange | XNoData | XNotSupp | XError (e : errno).

Section capture.
Context (lgetxattr : fs → path → bytes → nat → xattr_answer) (f : fs).

(** The loop of [xattr_value]: the buffer doubles from 64 bytes, and one of
    2^63 bytes cannot be allocated. *)
Fixpoint xattr_loop (rounds : nat) (p : path) (name : bytes) (size : nat) : result (option bytes) CaptureError :=
  match rounds with
  | O => Err Aborted
  | S rounds =>
      match lgetxattr f p name size with
      | XData value => Ok (Some value)
      | XRange => xattr_loop rounds p name (size * 2)
      | XNoData | XNotSupp => Ok None
      | XError e => Err (CaptureFailed p e)
      end
  end.

Definition xattr_value (p : path) (name : bytes) : result (option bytes) CaptureError := xattr_loop 57 p name 64.

Definition is_overlay_whiteout (entry : path) (meta : node) : result bool CaptureError :=
  match meta with
  | NChar 0 => Ok true
  | _ =>
      if n_is_file meta && bool_decide (n_len meta = 0%Z) then
        (let? v := xattr_value entry (lit "user.overlay.whiteout") in Ok (bool_decide (is_Some v)))%result
      else Ok false
  end.

Definition has_overlay_opaque_xattr (entry : path) : bool :=
  match xattr_value entry (lit "trusted.overlay.opaque") with Ok (Some v) => bool_decide (v = lit "y") | _ => false end
  || match xattr_value entry (lit "user.overlay.opaque") with Ok (Some v) => bool_decide (v = lit "y") | _ => false end.

(** ** The walk *)

(** The accumulators that [walk_upperdir] is passed. *)
Record walk_state := mkWalk {
  wk_opaque : gset bytes;
  wk_entries : list PendingChange;
  wk_drops : list ProtectedPathDrop;
  wk_stats : TreeResourceStats;
}.

Definition push_entry (c : PendingChange) (st : walk_state) : walk_state :=
  mkWalk (wk_opaque st) (wk_entries st ++ [c]) (wk_drops st) (wk_stats st).
Definition set_drops (drops : list ProtectedPathDrop) (st : walk_state) : walk_state :=
  mkWalk (wk_opaque st) (wk_entries st) drops (wk_stats st).
Definition set_stats (stats : TreeResourceStats) (st : walk_state) : walk_state :=
  mkWalk (wk_opaque st) (wk_entries st) (wk_drops st) stats.

Definition record_file_stats (st : TreeResourceStats) (meta : node) : TreeResourceStats :=
  match meta with
  | NSymlink _ => add_symlink st
  | NFile _ _ _ => add_file st (n_len meta)
  | _ => st
  end.

Definition push_opaque_dir (p : LayerPath) (st : walk_state) : walk_state :=
  if decide (as_str p ∈ wk_opaque st) then st
  else mkWalk ({[as_str p]} ∪ wk_opaque st) (wk_entries st ++ [PendingOpaqueDir p]) (wk_drops st) (wk_stats st).

Definition symlink_entry (p : LayerPath) (entry : path) : result PendingChange CaptureError :=
  (let? target := map_err (CaptureFailed entry) (read_link f entry) in
   let? s := path_string target in
   Ok (PendingSymlink p s))%result.

Definition capture_file_entry_metadata (root entry : path) (meta : node) (st : walk_state) : result walk_state CaptureError :=
  (let? rel := relative_path root entry in
   let? whiteout := is_overlay_whiteout entry meta in
   let '(lp, drops) := layer_path_from_relative_or_drop rel (wk_drops st) in
   let st := set_drops drops st in
   if whiteout : bool then
     match lp with Some p => Ok (push_entry (PendingDelete p) st) | None => Ok st end
   else
     match lp with
     | None => Ok st
     | Some p =>
         if n_is_symlink meta then let? c := symlink_entry p entry in Ok (push_entry c st)
         else if n_is_file meta then Ok (push_entry (PendingWrite p entry meta) st)
         else Ok (set_drops (drops ++ [mkDrop (as_str p) UnsupportedSpecialFile]) st)
     end)%result.

(** The first loop: the directories, and the other entries with their metadata. *)
Fixpoint split_entries (dir : path) (ns : list bytes) (stats : TreeResourceStats)
    : result (list path * list (path * node) * TreeResourceStats) CaptureError :=
  match ns with
  | [] => Ok ([], [], stats)
  | name :: ns =>
      let entry := dir ++ [name] in
      (let? meta := map_err (CaptureFailed entry) (symlink_metadata f entry) in
       if n_is_dir meta then
         let? r := split_entries dir ns (add_dir stats) in Ok (entry :: r.1.1, r.1.2, r.2)
       else
         let? r := split_entries dir ns (record_file_stats stats meta) in Ok (r.1.1, (entry, meta) :: r.1.2, r.2))%result
  end.

Fixpoint capture_files (root : path) (files : list (path * node)) (st : walk_state) : result walk_state CaptureError :=
  match files with
  | [] => Ok st
  | (entry, meta) :: files =>
      (let? st := capture_file_entry_metadata root entry meta st in capture_files root files st)%result
  end.

(** The change of a directory itself. *)
Definition capture_dir (root entry : path) (st : walk_state) : result walk_state CaptureError :=
  (let? rel := relative_path root entry in
   let '(lp, drops) := layer_path_from_relative_or_drop rel (wk_drops st) in
   let st := set_drops drops st in
   if has_overlay_opaque_xattr entry then
     match lp with Some p => Ok (push_opaque_dir p st) | None => Ok st end
   else
     match lp with Some p => Ok (push_entry (PendingDirectory p) st) | None => Ok st end)%result.

Fixpoint walk_dirs (walk : path → walk_state → result walk_state CaptureError) (root : path) (dirs : list path)
    (st : walk_state) : result walk_state CaptureError :=
  match dirs with
  | [] => Ok st
  | entry :: dirs =>
      (let? st := capture_dir root entry st in
       let? st := walk entry st in
       walk_dirs walk root dirs st)%result
  end.

(** [fuel] bounds the nesting; [capture_upperdir] passes more than the tree has. *)
Fixpoint walk_upperdir (fuel : nat) (root dir : path) (st : walk_state) : result walk_state CaptureError :=
  match fuel with
  | O => Ok st
  | S fuel =>
      (let? ns := map_err (CaptureFailed dir) (read_dir f dir) in
       let? r := split_entries dir (merge_sort bytes_le ns) (wk_stats st) in
       let? st := capture_files root r.1.2 (set_stats r.2 st) in
       walk_dirs (walk_upperdir fuel root) root r.1.1 st)%result
  end.

Definition walk_start : walk_state := mkWalk ∅ [] [] (mkStats 0 1 0 0 false 0 None).

Definition captured_changes (upperdir : path) : result CapturedChanges CaptureError :=
  (let? st := walk_upperdir (S (depth_bound f)) upperdir upperdir walk_start in
   Ok (mkCaptured (into_layer_change <$> wk_entries st) (wk_drops st) (wk_stats st)))%result.
End capture.

Definition capture_upperdir (lgetxattr : fs → path → bytes → nat → xattr_answer) (upperdir : path)
    : io CaptureError CapturedChanges :=
  (run lift_err (CaptureFailed upperdir) (create_dir_all upperdir);
   reads (λ f, captured_changes lgetxattr f upperdir))%io.
