(* ===== verification/CaptureSpec.v ===== *)
(** * What a capture finds, and what publishing it shows

    On a proper upper directory the capture succeeds and yields exactly one
    change per entry.  Published, the changes show every path as the overlay
    mount showed it. *)

From S2P Require Import Prelude ByteStr Merge Model FS Storage View Descend World StorageOps Flatten Does FlattenRead FlattenSpec.
From S2P Require Import Lease Publish Stack Squash SquashSpec SquashCommit LayerWrite PublishRead Tree Capture.

(** ** Attributes *)

(** [lgetxattr(2)]: the value if the buffer is large enough, [ERANGE] if not. *)
Definition xattr_holds (lgetxattr : fs → path → bytes → nat → xattr_answer) (f : fs) (p : path) (name value : bytes) : Prop :=
  ∀ size, lgetxattr f p name size = if decide (size < length value) then XRange else XData value.

Definition xattr_missing (lgetxattr : fs → path → bytes → nat → xattr_answer) (f : fs) (p : path) (name : bytes) : Prop :=
  ∀ size, lgetxattr f p name size = XNoData.

Section xattr.
Context (lgetxattr : fs → path → bytes → nat → xattr_answer) (f : fs).

Lemma xattr_loop_holds p name value rounds : ∀ size,
  xattr_holds lgetxattr f p name value → size ≠ 0 → length value ≤ size * 2 ^ rounds →
  xattr_loop lgetxattr f (S rounds) p name size = Ok (Some value).
Proof.
  induction rounds as [|rounds IH]; intros size Hx Hs Hlen.
  - cbn [xattr_loop]. rewrite Hx, decide_False; [done|]. simpl in Hlen. lia.
  - cbn [xattr_loop]. rewrite Hx. case_decide; [|done]. apply IH; [done|lia|]. rewrite Nat.pow_succ_r' in Hlen. lia.
Qed.

(** The loop ends for every value the kernel can hold (at most 64 KiB). *)
Lemma xattr_value_holds p name value :
  xattr_holds lgetxattr f p name value → length value ≤ 2 ^ 16 → xattr_value lgetxattr f p name = Ok (Some value).
Proof.
  intros Hx Hlen. unfold xattr_value. apply (xattr_loop_holds p name value 56); [done|done|].
  assert (2 ^ 16 ≤ 2 ^ 56) as Hle by (apply Nat.pow_le_mono_r; lia). revert Hlen Hle.
  generalize (2 ^ 16), (2 ^ 56). intros a b. lia.
Qed.

Lemma xattr_value_missing p name :
  xattr_missing lgetxattr f p name → xattr_value lgetxattr f p name = Ok None.
Proof. intros Hx. unfold xattr_value. cbn [xattr_loop]. by rewrite Hx. Qed.
End xattr.

(** ** Proper upper directories *)

Definition OPAQUE_NAMES : list bytes := [TRUSTED_OVERLAY_OPAQUE_XATTR; USER_OVERLAY_OPAQUE_XATTR].

(** The overlay attribute that makes a directory opaque. *)
Definition dir_opaque (n : node) : bool :=
  bool_decide (TRUSTED_OVERLAY_OPAQUE_XATTR ∈ n_xattrs n) || bool_decide (USER_OVERLAY_OPAQUE_XATTR ∈ n_xattrs n).

(** A name that a layer can hold. *)
Definition good_name (x : bytes) : Prop := ordinary x ∧ comp_ok x ∧ utf8_valid x = true.

Record upper_ok (lgetxattr : fs → path → bytes → nat → xattr_answer) (f : fs) (u : path) : Prop := {
  up_plain : plain_dir f u;
  up_tree r x : is_Some (f !! (u ++ r ++ [x])) → dir_at f (u ++ r) = true;
  up_names r n : f !! (u ++ r) = Some n → Forall good_name r ∧ trim (join_with slash r) = join_with slash r;
  up_nodes r n : f !! (u ++ r) = Some n →
    match n with
    | NSymlink t => utf8_valid t = true
    | NChar rdev => rdev = 0%Z
    | NFile data _ xs => TRUSTED_OVERLAY_WHITEOUT_XATTR ∈ xs → USER_OVERLAY_WHITEOUT_XATTR ∈ xs
    | NDir _ _ => True
    | NOther => False
    end;
  up_xattrs r n name : f !! (u ++ r) = Some n →
    if decide (name ∈ n_xattrs n) then
      ∃ v, xattr_holds lgetxattr f (u ++ r) name v ∧ length v ≤ 2 ^ 16 ∧ (name ∈ OPAQUE_NAMES → v = lit "y")
    else xattr_missing lgetxattr f (u ++ r) name;
}.

(** The change that stands for an entry. *)
Definition pending (u r : path) (n : node) : PendingChange :=
  let p := mkLayerPath (join_with slash r) in
  if whiteout_node n then PendingDelete p
  else match n with
  | NDir _ _ => if dir_opaque n then PendingOpaqueDir p else PendingDirectory p
  | NSymlink t => PendingSymlink p t
  | _ => PendingWrite p (u ++ r) n
  end.

Section walk.
Context (lgetxattr : fs → path → bytes → nat → xattr_answer) (f : fs) (u : path).
Hypothesis Hup : upper_ok lgetxattr f u.

Abbreviation walk_upperdir := (walk_upperdir lgetxattr f).
Implicit Types st : walk_state.

Lemma good_comps r : Forall good_name r → r ≠ [] → comps (mkLayerPath (join_with slash r)) = r.
Proof using.
  intros Hr Hne. apply split_join_with; [done|]. eapply Forall_impl; [exact Hr|]. intros x (_ & Hx & _). apply Hx.
Qed.

(** The path of an entry is a layer path. *)
Lemma entry_path r n drops :
  f !! (u ++ r) = Some n → r ≠ [] →
  layer_path_from_relative_or_drop r drops = (Some (mkLayerPath (join_with slash r)), drops).
Proof using Hup.
  intros Hn Hne. destruct (up_names _ _ _ Hup r n Hn) as [Hr Ht]. unfold layer_path_from_relative_or_drop.
  assert (relative_to_string r = Ok (join_with slash r)) as ->.
  { unfold relative_to_string. assert (component_strings r = Ok r) as ->; [|done]. clear Hn Hne Ht.
    induction Hr as [|x r (_ & _ & Hx) _ IH]; [done|]. simpl. unfold path_component_string. by rewrite Hx, IH. }
  cbn [result_bind]. unfold capture_layer_path. rewrite parse_self; [done|done|].
  change (split_on slash (join_with slash r)) with (comps (mkLayerPath (join_with slash r))). rewrite good_comps by done.
  eapply Forall_impl; [exact Hr|]. by intros x (_ & ? & _).
Qed.

Lemma entry_opaque r n :
  f !! (u ++ r) = Some n → has_overlay_opaque_xattr lgetxattr f (u ++ r) = dir_opaque n.
Proof using Hup.
  intros Hn. assert (∀ name, name ∈ OPAQUE_NAMES →
    match xattr_value lgetxattr f (u ++ r) name with Ok (Some v) => bool_decide (v = lit "y") | _ => false end =
    bool_decide (name ∈ n_xattrs n)) as Hv.
  { intros name Hin. pose proof (up_xattrs _ _ _ Hup r n name Hn) as Hx. case_decide as Hd.
    - destruct Hx as (v & Hx & Hlen & Hy). rewrite (xattr_value_holds _ _ _ _ v), (Hy Hin) by done. by rewrite !bool_decide_true.
    - rewrite xattr_value_missing by done. by rewrite bool_decide_false. }
  unfold has_overlay_opaque_xattr, dir_opaque. f_equal; apply Hv; unfold OPAQUE_NAMES; set_solver.
Qed.

Lemma entry_whiteout r n :
  f !! (u ++ r) = Some n → n_is_dir n = false →
  is_overlay_whiteout lgetxattr f (u ++ r) n = Ok (whiteout_node n).
Proof using Hup.
  intros Hn Hd. pose proof (up_nodes _ _ _ Hup r n Hn) as Hk. pose proof (up_xattrs _ _ _ Hup r n (lit "user.overlay.whiteout") Hn) as Hx.
  unfold is_overlay_whiteout. destruct n as [data mode xs|t|m xs|rdev|]; [|done|done|by subst|done].
  cbn [n_is_file n_len andb whiteout_node]. destruct (decide (data = [])) as [->|Hne].
  - rewrite !bool_decide_true by done. cbn [n_xattrs] in Hx. case_decide as Hd'.
    + destruct Hx as (v & Hx & Hlen & _). rewrite (xattr_value_holds _ _ _ _ v) by done. cbn [result_bind].
      rewrite bool_decide_true by eauto. rewrite (bool_decide_true (USER_OVERLAY_WHITEOUT_XATTR ∈ xs)) by done.
      by rewrite orb_true_r.
    + rewrite xattr_value_missing by done. cbn [result_bind]. rewrite bool_decide_false by (by intros []).
      rewrite !bool_decide_false; [done|done|]. intros Ht. by apply Hd', Hk.
  - rewrite bool_decide_false by (destruct data; simpl; [done|lia]). by rewrite bool_decide_false.
Qed.

Lemma upper_plain r : dir_at f (u ++ r) = true → plain_dir f (u ++ r).
Proof using Hup.
  induction r as [|x r IH] using rev_ind; intros Hd; [rewrite app_nil_r; apply Hup|].
  assert (is_Some (f !! (u ++ r ++ [x]))) as Hs by (unfold dir_at in Hd; by destruct (f !! (u ++ r ++ [x])); eauto).
  destruct Hs as [n Hn]. destruct (up_names _ _ _ Hup _ _ Hn) as [Hg _]. rewrite Forall_app, Forall_singleton in Hg.
  rewrite (assoc_L (++)) in *. apply plain_dir_snoc; [|done|apply Hg].
  apply IH. eapply (up_tree _ _ _ Hup r x). rewrite (assoc_L (++)), Hn. eauto.
Qed.

Lemma entry_metadata r n : f !! (u ++ r) = Some n → r ≠ [] → symlink_metadata f (u ++ r) = Ok n.
Proof using Hup.
  intros Hn Hr. destruct (exists_last Hr) as (r' & x & ->). destruct (up_names _ _ _ Hup _ _ Hn) as [Hg _].
  rewrite Forall_app, Forall_singleton in Hg. unfold symlink_metadata.
  rewrite (assoc_L (++)) in *. rewrite resolve_child; [unfold node_at; simpl; by rewrite Hn| |apply Hg].
  apply upper_plain. eapply (up_tree _ _ _ Hup r' x). rewrite (assoc_L (++)), Hn. eauto.
Qed.

Lemma upper_metadata r n : f !! (u ++ r) = Some n → symlink_metadata f (u ++ r) = Ok n.
Proof using Hup.
  intros Hn. destruct r as [|x r]; [|by apply entry_metadata]. rewrite app_nil_r in *. unfold symlink_metadata, resolve.
  rewrite <-(app_nil_r u) at 1. rewrite walk_plain by apply Hup. rewrite walk_eq. cbn [result_bind]. unfold node_at. by rewrite Hn.
Qed.

(** From one state of the walk to another the entries at the paths [P] are
    captured. *)
Record captures (P : path → Prop) st st' : Prop := {
  ca_entries : ∃ es, wk_entries st' = wk_entries st ++ es ∧
    ∀ c, c ∈ es ↔ ∃ r n, P r ∧ f !! (u ++ r) = Some n ∧ c = pending u r n;
  ca_drops : wk_drops st' = wk_drops st;
  ca_opaque s : s ∈ wk_opaque st' → s ∈ wk_opaque st ∨ ∃ r n, P r ∧ f !! (u ++ r) = Some n ∧ s = join_with slash r;
}.

Lemma captures_none P st st' :
  (∀ r, P r → f !! (u ++ r) = None) → wk_entries st' = wk_entries st → wk_drops st' = wk_drops st →
  wk_opaque st' = wk_opaque st → captures P st st'.
Proof using.
  intros HP He Hd Ho. split; [|done|by rewrite Ho; left]. exists []. rewrite app_nil_r. split; [done|]. intros c.
  split; [by intros []%elem_of_nil|]. intros (r & n & Hr & Hn & _). by rewrite HP in Hn.
Qed.

Lemma captures_trans P Q st1 st2 st3 : captures P st1 st2 → captures Q st2 st3 → captures (λ r, P r ∨ Q r) st1 st3.
Proof using.
  intros [(es1 & He1 & Hin1) Hd1 Ho1] [(es2 & He2 & Hin2) Hd2 Ho2]. split.
  - exists (es1 ++ es2). rewrite He2, He1, <-(assoc_L (++)). split; [done|]. intros c. rewrite elem_of_app, Hin1, Hin2. naive_solver.
  - by rewrite Hd2.
  - intros s [Hs|?]%Ho2; [|naive_solver]. apply Ho1 in Hs. naive_solver.
Qed.

Lemma captures_ext P Q st st' :
  (∀ r n, f !! (u ++ r) = Some n → P r ↔ Q r) → captures P st st' → captures Q st st'.
Proof using.
  intros HPQ [(es & He & Hin) Hd Ho]. split; [|done|].
  - exists es. split; [done|]. intros c. rewrite Hin. naive_solver.
  - intros s Hs. apply Ho in Hs. naive_solver.
Qed.

(** One entry that is no directory. *)
Lemma capture_file_captures r n st :
  f !! (u ++ r) = Some n → r ≠ [] → n_is_dir n = false →
  ∃ st', capture_file_entry_metadata lgetxattr f u (u ++ r) n st = Ok st' ∧ captures (λ r', r' = r) st st'.
Proof using Hup.
  intros Hn Hr Hd. unfold capture_file_entry_metadata, relative_path. rewrite below_app. cbn [result_bind].
  rewrite (entry_whiteout r n Hn Hd). cbn [result_bind]. rewrite (entry_path r n _ Hn Hr).
  assert (∀ c, c = pending u r n → captures (λ r', r' = r) st (push_entry c (set_drops (wk_drops st) st))) as Hpush.
  { intros c ->. split; [|done|by left]. eexists. split; [done|]. intros c. rewrite list_elem_of_singleton. split; [eauto|].
    intros (r' & n' & -> & Hn' & ->). by simplify_eq. }
  pose proof (up_nodes _ _ _ Hup r n Hn) as Hk. unfold pending in Hpush. cbv zeta.
  destruct (whiteout_node n) eqn:Hw; [eauto|]. destruct n as [data mode xs|t|m xs|rdev|]; try done; cbn [n_is_symlink n_is_file].
  - eauto.
  - unfold symlink_entry, read_link. rewrite (entry_metadata r _ Hn Hr). cbn. unfold path_string. rewrite Hk. cbn. eauto.
  - by subst.
Qed.

Lemma capture_files_captures files : ∀ st,
  (∀ e n, (e, n) ∈ files → ∃ r, e = u ++ r ∧ r ≠ [] ∧ f !! e = Some n ∧ n_is_dir n = false) →
  ∃ st', capture_files lgetxattr f u files st = Ok st' ∧ captures (λ r, ∃ n, (u ++ r, n) ∈ files) st st'.
Proof using Hup.
  induction files as [|[e n] files IH]; intros st Hf.
  { exists st. split; [done|]. apply captures_none; [|done..]. by intros r (n & []%elem_of_nil). }
  destruct (Hf e n) as (r & -> & Hr & Hn & Hd); [by left|].
  destruct (capture_file_captures r n st Hn Hr Hd) as (st1 & H1 & Hc1).
  destruct (IH st1) as (st2 & H2 & Hc2); [intros; apply Hf; by right|].
  exists st2. cbn [capture_files]. rewrite H1. cbn [result_bind]. split; [done|].
  eapply captures_ext; [|by eapply captures_trans]. intros r' n' Hn'. simpl. setoid_rewrite elem_of_cons. split.
  - intros [->|(n'' & ?)]; eauto.
  - intros (n'' & [[= Heq ->]|?]); [|eauto]. apply (inj (app u)) in Heq. by left.
Qed.

(** An entry in the statistics. *)
Definition weigh (stats : TreeResourceStats) (n : node) : TreeResourceStats :=
  if n_is_dir n then add_dir stats else record_file_stats stats n.

(** The two kinds of entries of a directory. *)
Definition files_of (d : path) (ns : list bytes) : list (path * node) :=
  omap (λ x, match f !! (u ++ d ++ [x]) with
             | Some n => if n_is_dir n then None else Some ((u ++ d) ++ [x], n)
             | None => None
             end) ns.

Lemma elem_of_files d ns e n :
  (∀ x, x ∈ ns ↔ is_Some (f !! (u ++ d ++ [x]))) →
  (e, n) ∈ files_of d ns ↔ ∃ x, e = u ++ d ++ [x] ∧ f !! e = Some n ∧ n_is_dir n = false.
Proof using.
  intros Hns. unfold files_of. rewrite list_elem_of_omap. split.
  - intros (x & Hx & He). destruct (f !! (u ++ d ++ [x])) as [n'|] eqn:Hn; [|done]. destruct (n_is_dir n') eqn:Hd'; [done|].
    injection He as <- <-. exists x. by rewrite <-(assoc_L (++)).
  - intros (x & -> & Hn & Hd'). exists x. rewrite Hns, Hn, Hd', <-(assoc_L (++)). eauto.
Qed.

Lemma split_entries_spec d ns : ∀ stats,
  (∀ x, x ∈ ns → is_Some (f !! (u ++ d ++ [x]))) →
  split_entries f (u ++ d) ns stats =
    Ok ((λ x, (u ++ d) ++ [x]) <$> filter (λ x, dir_at f (u ++ d ++ [x]) = true) ns,
        files_of d ns,
        foldl weigh stats (omap (λ x, f !! (u ++ d ++ [x])) ns)).
Proof using Hup.
  induction ns as [|x ns IH]; intros stats Hns; [done|]. destruct (Hns x) as [n Hn]; [by left|].
  cbn [split_entries]. rewrite <-(assoc_L (++) u d [x]). rewrite (entry_metadata (d ++ [x]) n Hn) by by destruct d.
  cbn [map_err result_bind]. rewrite filter_cons. unfold files_of in *. csimpl.
  assert (dir_at f (u ++ d ++ [x]) = n_is_dir n) as Hda by (unfold dir_at; by rewrite Hn). rewrite Hn.
  destruct (n_is_dir n) eqn:Hd.
  - rewrite decide_True by done. rewrite IH by (intros; apply Hns; by right). cbn. unfold weigh at 3. by rewrite Hd, <-(assoc_L (++) u d [x]).
  - rewrite decide_False by by rewrite Hda. rewrite IH by (intros; apply Hns; by right). cbn. unfold weigh at 3. by rewrite Hd, <-(assoc_L (++) u d [x]).
Qed.

(** A path that has not been marked opaque yet. *)
Definition fresh (P : path → Prop) st : Prop :=
  ∀ r n, P r → f !! (u ++ r) = Some n → join_with slash r ∉ wk_opaque st.

Lemma join_inj r r' n n' :
  f !! (u ++ r) = Some n → f !! (u ++ r') = Some n' → r ≠ [] → r' ≠ [] → join_with slash r = join_with slash r' → r = r'.
Proof using Hup.
  intros Hn Hn' Hr Hr' Heq. apply (up_names _ _ _ Hup) in Hn as [Hg _]. apply (up_names _ _ _ Hup) in Hn' as [Hg' _].
  rewrite <-(good_comps r), <-(good_comps r') by done. by rewrite Heq.
Qed.

(** What has been captured does not touch other paths. *)
Lemma captures_fresh P Q st st' :
  captures P st st' → fresh Q st → (∀ r, P r → r ≠ []) → (∀ r, Q r → r ≠ []) → (∀ r, P r → ¬ Q r) → fresh Q st'.
Proof using Hup.
  intros Hc Hf HP HQ Hdis r n Hr Hn Hin. apply (ca_opaque _ _ _ Hc) in Hin as [Hin|(r' & n' & Hr' & Hn' & Heq)].
  - by eapply Hf.
  - eapply (join_inj r r') in Heq; [|done|done|by apply HQ|by apply HP]. subst r'. by eapply Hdis.
Qed.

Lemma capture_dir_captures r n st :
  f !! (u ++ r) = Some n → r ≠ [] → n_is_dir n = true → fresh (λ r', r' = r) st →
  ∃ st', capture_dir lgetxattr f u (u ++ r) st = Ok st' ∧ captures (λ r', r' = r) st st'.
Proof using Hup.
  intros Hn Hr Hd Hf. unfold capture_dir, relative_path. rewrite below_app. cbn [result_bind].
  rewrite (entry_path r n _ Hn Hr), (entry_opaque r n Hn).
  assert (∀ c, c = pending u r n → ∀ c', c' ∈ [c] ↔ ∃ r' n', r' = r ∧ f !! (u ++ r') = Some n' ∧ c' = pending u r' n') as Hone.
  { intros c -> c'. rewrite list_elem_of_singleton. split; [eauto|]. intros (r' & n' & -> & Hn' & ->). by simplify_eq. }
  unfold pending in Hone. destruct n as [| |m xs| |]; try done. cbn [whiteout_node] in Hone.
  destruct (dir_opaque (NDir m xs)) eqn:Ho; eexists; (split; [done|]).
  - unfold push_opaque_dir. cbn [as_str set_drops wk_opaque wk_entries wk_drops wk_stats].
    rewrite decide_False by by eapply Hf. split; [|done|].
    + eexists. split; [done|]. by apply Hone.
    + cbn. intros s [->%elem_of_singleton|?]%elem_of_union; [right; eauto 6|by left].
  - split; [|done|by left]. eexists. split; [done|]. by apply Hone.
Qed.

Lemma walk_dirs_captures walk d xs : ∀ st,
  (∀ x st, x ∈ xs → fresh (λ r, ∃ s, s ≠ [] ∧ r = (d ++ [x]) ++ s) st →
     ∃ st', walk (u ++ d ++ [x]) st = Ok st' ∧ captures (λ r, ∃ s, s ≠ [] ∧ r = (d ++ [x]) ++ s) st st') →
  (∀ x, x ∈ xs → dir_at f (u ++ d ++ [x]) = true) → NoDup xs → fresh (λ r, ∃ x s, x ∈ xs ∧ r = d ++ x :: s) st →
  ∃ st', walk_dirs lgetxattr f walk u ((λ x, (u ++ d) ++ [x]) <$> xs) st = Ok st' ∧
    captures (λ r, ∃ x s, x ∈ xs ∧ r = d ++ x :: s) st st'.
Proof using Hup.
  induction xs as [|x xs IH]; intros st Hwalk Hdir Hnd Hf.
  { exists st. split; [done|]. apply captures_none; [|done..]. by intros r (x & s & []%elem_of_nil & _). }
  apply NoDup_cons in Hnd as [Hx Hnd]. csimpl. rewrite <-(assoc_L (++) u d [x]).
  assert (∃ n, f !! (u ++ d ++ [x]) = Some n ∧ n_is_dir n = true) as (n & Hn & Hd).
  { specialize (Hdir x ltac:(by left)). unfold dir_at in Hdir. destruct (f !! (u ++ d ++ [x])) as [n|]; [eauto|done]. }
  destruct (capture_dir_captures (d ++ [x]) n st Hn) as (st1 & H1 & Hc1); [by destruct d|done| |].
  { intros r' n' ->. apply Hf. exists x, []. split; [by left|done]. }
  destruct (Hwalk x st1) as (st2 & H2 & Hc2); [by left| |].
  { eapply captures_fresh; [exact Hc1| |by intros r ->; destruct d|by intros r (s & ? & ->); destruct d|].
    - intros r n' (s & Hs & ->). apply Hf. exists x, s. split; [by left|]. by rewrite <-(assoc_L (++)).
    - intros r -> (s & Hs & Heq). apply (f_equal length) in Heq. rewrite (length_app (d ++ [x])) in Heq. destruct s; simpl in Heq; [done|lia]. }
  pose proof (captures_trans _ _ _ _ _ Hc1 Hc2) as Hc12.
  destruct (IH st2) as (st3 & H3 & Hc3); [intros; apply Hwalk; [by right|done]|intros; apply Hdir; by right|done| |].
  { eapply captures_fresh; [exact Hc12| | |by intros r (? & ? & _ & ->); destruct d|].
    - intros r n' (y & s & Hy & ->). apply Hf. exists y, s. split; [by right|done].
    - intros r [->|(s & _ & ->)]; by destruct d.
    - intros r Hr (y & s & Hy & Heq). destruct Hr as [->|(s' & _ & ->)]; [|rewrite <-(assoc_L (++)) in Heq];
        apply (inj (app d)) in Heq; by simplify_eq/=. }
  exists st3. rewrite H1. cbn [result_bind]. rewrite H2. cbn [result_bind]. split; [done|].
  eapply captures_ext; [|by eapply captures_trans]. intros r n' _. simpl. setoid_rewrite elem_of_cons. split.
  - intros [[->|(s & _ & ->)]|(y & s & Hy & ->)]; [exists x, []; auto|exists x, s; rewrite <-(assoc_L (++)); auto|eauto].
  - intros (y & s & [->|Hy] & ->); [|eauto]. left. destruct s as [|z s]; [by left|]. right. exists (z :: s).
    split; [done|]. by rewrite <-(assoc_L (++)).
Qed.

Lemma upper_above r s : s ≠ [] → is_Some (f !! (u ++ r ++ s)) → dir_at f (u ++ r) = true.
Proof using Hup.
  intros Hs. induction s as [|x s IH] using rev_ind; [done|]. intros Hn. rewrite (assoc_L (++) r) in Hn.
  apply (up_tree _ _ _ Hup) in Hn. destruct (decide (s = [])) as [->|Hne]; [by rewrite app_nil_r in Hn|].
  apply IH; [done|]. unfold dir_at in Hn. destruct (f !! (u ++ r ++ s)); [eauto|done].
Qed.

Lemma read_dir_upper d : dir_at f (u ++ d) = true → read_dir f (u ++ d) = Ok (names f (u ++ d)).
Proof using Hup.
  intros Hd. pose proof (upper_plain d Hd) as Hp. unfold read_dir, resolve.
  rewrite <-(app_nil_r (u ++ d)) at 1. rewrite walk_plain by done. rewrite walk_eq. cbn [result_bind].
  unfold node_at, dir_at in *. destruct (f !! (u ++ d)) as [n|]; [|done]. cbn [result_bind]. by rewrite Hd.
Qed.

Lemma walk_captures fuel : ∀ d st,
  dir_at f (u ++ d) = true → (∀ r, is_Some (f !! (u ++ d ++ r)) → length r < fuel) →
  fresh (λ r, ∃ s, s ≠ [] ∧ r = d ++ s) st →
  ∃ st', walk_upperdir fuel u (u ++ d) st = Ok st' ∧ captures (λ r, ∃ s, s ≠ [] ∧ r = d ++ s) st st'.
Proof using Hup.
  induction fuel as [|fuel IH]; intros d st Hd Hfuel Hf.
  { specialize (Hfuel []). rewrite app_nil_r in Hfuel. unfold dir_at in Hd. destruct (f !! (u ++ d)); [|done].
    assert (length (@nil bytes) < 0) by (apply Hfuel; eauto). simpl in *. lia. }
  cbn [Capture.walk_upperdir]. rewrite read_dir_upper by done. cbn [map_err result_bind].
  set (ns := merge_sort bytes_le (names f (u ++ d))).
  assert (∀ x, x ∈ ns ↔ is_Some (f !! (u ++ d ++ [x]))) as Hns.
  { intros x. unfold ns. rewrite (merge_sort_Permutation bytes_le), elem_of_names. by rewrite <-(assoc_L (++)). }
  assert (NoDup ns) as Hnd by (unfold ns; rewrite (merge_sort_Permutation bytes_le); apply NoDup_names).
  clearbody ns. rewrite (split_entries_spec d ns) by (intros; by apply Hns).
  cbn [result_bind fst snd]. generalize (foldl weigh (wk_stats st) (omap (λ x, f !! (u ++ d ++ [x])) ns)). intros stats.
  pose proof (λ e n, elem_of_files d ns e n Hns) as Hfiles. revert Hfiles. generalize (files_of d ns). intros files Hfiles.
  destruct (capture_files_captures files (set_stats stats st)) as (st1 & -> & Hc1).
  { intros e n (x & -> & Hn & Hd')%Hfiles. exists (d ++ [x]). split_and!; [done|by destruct d|done|done]. }
  cbn [result_bind].
  assert (captures (λ r, ∃ n, (u ++ r, n) ∈ files) st st1) as Hc1' by by destruct Hc1.
  destruct (walk_dirs_captures (walk_upperdir fuel u) d (filter (λ x, dir_at f (u ++ d ++ [x]) = true) ns) st1) as (st2 & -> & Hc2).
  - intros x st' [Hx _]%list_elem_of_filter Hf'. apply IH; [done| |done]. intros r Hr. rewrite <-(assoc_L (++)) in Hr.
    apply Hfuel in Hr. rewrite length_app in Hr. simpl in Hr. lia.
  - by intros x [? _]%list_elem_of_filter.
  - by apply NoDup_filter.
  - eapply captures_fresh; [exact Hc1'| | |by intros r (? & ? & _ & ->); destruct d|].
    + intros r n (x & s & _ & ->). apply Hf. by exists (x :: s).
    + intros r (n & (x & Heq & _)%Hfiles) ->. by apply (inj (app u)) in Heq; destruct d.
    + intros r (n & (x & Heq & Hn & Hd')%Hfiles) (y & s & [Hy _]%list_elem_of_filter & ->).
      apply (inj (app u)), (inj (app d)) in Heq. injection Heq as -> ->. unfold dir_at in Hy. by rewrite Hn, Hd' in Hy.
  - exists st2. split; [done|]. eapply captures_ext; [|by eapply captures_trans]. intros r n Hn. simpl. split.
    + intros [(n' & (x & Heq & _)%Hfiles)|(x & s & _ & ->)]; [|by exists (x :: s)]. apply (inj (app u)) in Heq. by exists [x].
    + intros ([|x s] & Hs & ->); [done|]. destruct (dir_at f (u ++ d ++ [x])) eqn:Hdx.
      * right. exists x, s. split; [|done]. apply list_elem_of_filter. split; [done|]. apply Hns.
        unfold dir_at in Hdx. destruct (f !! (u ++ d ++ [x])); [eauto|done].
      * left. exists n. apply Hfiles. exists x. destruct s as [|y s].
        -- split_and!; [done|done|]. unfold dir_at in Hdx. by rewrite Hn in Hdx.
        -- rewrite (upper_above (d ++ [x]) (y :: s)) in Hdx; [done|done|]. rewrite <-(assoc_L (++)). simpl. rewrite Hn. eauto.
Qed.

(** The walk has one change per entry. *)
Lemma walk_exact :
  ∃ st, walk_upperdir (S (depth_bound f)) u u walk_start = Ok st ∧ captures (λ r, r ≠ []) walk_start st.
Proof using Hup.
  destruct (walk_captures (S (depth_bound f)) [] walk_start) as (st & Hst & Hc).
  - rewrite app_nil_r. apply plain_dir_at, Hup.
  - intros r [n Hn]. simpl in Hn. apply depth_bound_spec in Hn. rewrite length_app in Hn. lia.
  - intros r n _ _. cbn. set_solver.
  - exists st. rewrite app_nil_r in Hst. split; [done|]. eapply captures_ext; [|exact Hc]. intros r n _. simpl. naive_solver.
Qed.

(** The capture succeeds, drops nothing, and has one change per entry. *)
Lemma capture_exact :
  ∃ changes stats, captured_changes lgetxattr f u = Ok (mkCaptured changes [] stats) ∧
    ∀ c, c ∈ changes ↔ ∃ r n, r ≠ [] ∧ f !! (u ++ r) = Some n ∧ c = into_layer_change (pending u r n).
Proof using Hup.
  destruct walk_exact as (st & Hst & [(es & He & Hin) Hd _]). unfold captured_changes. rewrite Hst. cbn [result_bind].
  eexists _, _. rewrite Hd. split; [done|]. intros c. rewrite He. cbn [walk_start wk_entries app]. rewrite list_elem_of_fmap.
  setoid_rewrite Hin. split.
  - intros (p & -> & r & n & Hr & Hn & ->). eauto.
  - intros (r & n & Hr & Hn & ->). eauto 10.
Qed.
End walk.

(** On a directory that exists the capture only reads. *)
Lemma capture_upper lgetxattr u w :
  upper_ok lgetxattr (w_fs w) u →
  ∃ w', w_fs w' = w_fs w ∧ capture_upperdir lgetxattr u w = (captured_changes lgetxattr (w_fs w) u, w').
Proof.
  intros Hup. destruct (create_dir_all_plain u w) as (w1 & Hmk & Hfs & _ & _); [apply Hup|]. exists w1. split; [done|].
  unfold capture_upperdir. rewrite (bind_run _ _ w () w1) by (unfold lift_err; by rewrite Hmk). unfold reads. by rewrite Hfs.
Qed.

(** ** What the mount showed *)

(** An entry as a layer keeps it: a file with its contents and permission bits,
    a link, a directory without its attributes. *)
Definition upper_node (n : node) : node :=
  match n with
  | NFile data mode _ => NFile data mode ∅
  | NDir _ _ => NDir 0x1ed ∅
  | n => n
  end.

(** An entry that hides what the layers hold below it. *)
Definition upper_cuts (n : node) : bool := negb (n_is_dir n) || dir_opaque n.

Fixpoint upper_hides (f : fs) (d q : path) : bool :=
  match q with
  | [] | [_] => false
  | c :: q => match f !! (d ++ [c]) with Some n => upper_cuts n | None => false end || upper_hides f (d ++ [c]) q
  end.

(** A path of the mount, when the layers show [old] there. *)
Definition mount_shows (f : fs) (u : path) (old : option node) (q : path) : option node :=
  match f !! (u ++ q) with
  | Some n => if whiteout_node n then None else Some (upper_node n)
  | None => if upper_hides f u q then None else old
  end.

Lemma upper_hides_spec f q : ∀ d,
  upper_hides f d q = true ↔ ∃ r x s n, q = r ++ x :: s ∧ r ≠ [] ∧ f !! (d ++ r) = Some n ∧ upper_cuts n = true.
Proof.
  induction q as [|c [|c' q] IH]; intros d.
  - split; [done|]. intros ([] & ? & ? & ? & ? & ?); done.
  - split; [done|]. intros ([|? []] & ? & ? & ? & ? & ? & ?); simplify_eq/=; done.
  - change (upper_hides f d (c :: c' :: q)) with
      (match f !! (d ++ [c]) with Some n => upper_cuts n | None => false end || upper_hides f (d ++ [c]) (c' :: q)).
    rewrite orb_true_iff, IH. split.
    + intros [Hb|(r & x & s & n & Hq & Hr & Hn & Hb)].
      * destruct (f !! (d ++ [c])) as [n|] eqn:Hn; [|done]. by exists [c], c', q, n.
      * exists (c :: r), x, s, n. rewrite Hq. split_and!; [done|done| |done]. by rewrite <-(assoc_L (++)) in Hn.
    + intros ([|y [|y' r]] & x & s & n & Hq & Hr & Hn & Hb); simplify_eq/=; [left; by rewrite Hn|]. right.
      exists (y' :: r), x, s, n. split_and!; [done|done| |done]. by rewrite <-(assoc_L (++)).
Qed.

(** Changes of distinct paths are all kept. *)
Lemma aggregate_all cs c :
  (∀ c1 c2, c1 ∈ cs → c2 ∈ cs → change_path c1 = change_path c2 → c1 = c2) → c ∈ aggregate_layer_changes cs ↔ c ∈ cs.
Proof.
  intros Hu. rewrite aggregate_elem. split.
  - intros Hl. apply last_Some_elem_of, list_elem_of_filter in Hl. naive_solver.
  - intros Hc. assert (c ∈ filter (at_path (as_str (change_path c))) cs) as Hin by by apply list_elem_of_filter.
    destruct (last (filter (at_path (as_str (change_path c))) cs)) as [c'|] eqn:Hl.
    + f_equal. apply last_Some_elem_of, list_elem_of_filter in Hl as [Hp Hc']. apply Hu; [done..|].
      unfold at_path in Hp. by destruct (change_path c'), (change_path c); simplify_eq/=.
    + apply last_None in Hl. rewrite Hl in Hin. by apply elem_of_nil in Hin.
Qed.

Section changes.
Context (lgetxattr : fs → path → bytes → nat → xattr_answer) (f : fs) (u : path).
Hypothesis Hup : upper_ok lgetxattr f u.
Context (changes : list LayerChange).
Hypothesis Hchanges : ∀ c, c ∈ changes ↔ ∃ r n, r ≠ [] ∧ f !! (u ++ r) = Some n ∧ c = into_layer_change (pending u r n).

Abbreviation cs := (aggregate_layer_changes changes).

Lemma pending_path r n :
  f !! (u ++ r) = Some n → r ≠ [] →
  change_path (into_layer_change (pending u r n)) = mkLayerPath (join_with slash r) ∧ cpath (into_layer_change (pending u r n)) = r.
Proof using Hup.
  intros Hn Hr. assert (change_path (into_layer_change (pending u r n)) = mkLayerPath (join_with slash r)) as Hp.
  { unfold pending. destruct (whiteout_node n); [done|]. destruct n; try done. by destruct (dir_opaque _). }
  split; [done|]. unfold cpath. rewrite Hp. apply good_comps; [|done]. by apply (up_names _ _ _ Hup) in Hn as [? _].
Qed.

Lemma captured_elem c : c ∈ cs ↔ ∃ r n, r ≠ [] ∧ f !! (u ++ r) = Some n ∧ c = into_layer_change (pending u r n).
Proof using Hup Hchanges.
  rewrite aggregate_all; [apply Hchanges|]. intros c1 c2 (r1 & n1 & Hr1 & Hn1 & ->)%Hchanges (r2 & n2 & Hr2 & Hn2 & ->)%Hchanges Hp.
  apply (f_equal comps) in Hp. change (cpath (into_layer_change (pending u r1 n1)) = cpath (into_layer_change (pending u r2 n2))) in Hp.
  destruct (pending_path r1 n1 Hn1 Hr1) as [_ Hp1]. destruct (pending_path r2 n2 Hn2 Hr2) as [_ Hp2].
  rewrite Hp1, Hp2 in Hp. subst r2. by simplify_eq.
Qed.

(** Which changes leave no directory, and which hide what lies below. *)
Lemma pending_kind r n :
  f !! (u ++ r) = Some n →
  is_leaf (into_layer_change (pending u r n)) = negb (n_is_dir n) ∧ cuts (into_layer_change (pending u r n)) = upper_cuts n.
Proof using Hup.
  intros Hn. pose proof (up_nodes _ _ _ Hup r n Hn) as Hk. unfold pending, upper_cuts.
  destruct n as [data mode xs|t|m xs|rdev|]; try done.
  - by destruct (whiteout_node (NFile data mode xs)).
  - cbn [whiteout_node n_is_dir negb orb]. by destruct (dir_opaque (NDir m xs)).
  - by subst.
Qed.

Lemma pending_node r n :
  f !! (u ++ r) = Some n → r ≠ [] →
  change_node f (into_layer_change (pending u r n)) = if whiteout_node n then None else Some (upper_node n).
Proof using Hup.
  intros Hn Hr. pose proof (up_nodes _ _ _ Hup r n Hn) as Hk. unfold pending.
  destruct (whiteout_node n) eqn:Hw; [done|]. destruct n as [data mode xs|t|m xs|rdev|]; try done.
  - cbn [into_layer_change change_node]. rewrite (metadata_of_symlink_metadata f _ (NFile data mode xs)); [done| |done].
    by apply (entry_metadata lgetxattr f u Hup).
  - by destruct (dir_opaque (NDir m xs)).
  - by subst.
Qed.

Lemma captured_coherent : coherent cs.
Proof using Hup Hchanges.
  intros c c' x s (r & n & Hr & Hn & ->)%captured_elem (r' & n' & Hr' & Hn' & ->)%captured_elem Hl Hp.
  destruct (pending_path r n Hn Hr) as [_ Hp1]. destruct (pending_path r' n' Hn' Hr') as [_ Hp2]. rewrite Hp1, Hp2 in Hp. subst r'.
  destruct (pending_kind r n Hn) as [Hk _]. rewrite Hl in Hk.
  assert (dir_at f (u ++ r) = true) as Hd by (apply (upper_above lgetxattr f u Hup r (x :: s)); [done|by rewrite Hn'; eauto]).
  unfold dir_at in Hd. rewrite Hn in Hd. by rewrite Hd in Hk.
Qed.

Lemma captured_ok d : (∀ r, ¬ strictly d (u ++ r)) → Forall (change_ok f d) cs.
Proof using Hup Hchanges.
  intros Hd. apply Forall_forall. intros c (r & n & Hr & Hn & ->)%captured_elem. destruct (pending_path r n Hn Hr) as [_ Hp].
  destruct (up_names _ _ _ Hup r n Hn) as [Hg _]. unfold change_ok. rewrite Hp. split_and!.
  - eapply Forall_impl; [exact Hg|]. by intros x (_ & ? & _).
  - eapply Forall_impl; [exact Hg|]. by intros x (? & _ & _).
  - pose proof (up_nodes _ _ _ Hup r n Hn) as Hk. unfold pending. destruct (whiteout_node n) eqn:Hw; [done|].
    destruct n as [data mode xs|t|m xs|rdev|]; try done; [|by destruct (dir_opaque _)|by subst].
    cbn [into_layer_change n_len]. destruct (exists_last Hr) as (r' & x & ->). rewrite (assoc_L (++)) in *.
    apply (spooled_plain f d (u ++ r') x data mode xs); [| |done|rewrite <-(assoc_L (++)); apply Hd].
    + apply (upper_plain lgetxattr f u Hup), (upper_above lgetxattr f u Hup r' [x]); [done|]. rewrite (assoc_L (++)), Hn. eauto.
    + apply Forall_app in Hg as [_ Hg]. by apply Forall_singleton in Hg as ((_ & _ & ? & _) & _).
Qed.

(** Published, the changes show what the mount showed. *)
Lemma captured_shows old q : q ≠ [] → applied f cs old q = mount_shows f u old q.
Proof using Hup Hchanges.
  intros Hq. unfold applied, mount_shows. destruct (f !! (u ++ q)) as [n|] eqn:Hn.
  - assert (into_layer_change (pending u q n) ∈ filter (λ c, cpath c = q) cs) as Hin.
    { apply list_elem_of_filter. split; [by apply pending_path|]. apply captured_elem. eauto. }
    destruct (head (filter (λ c, cpath c = q) cs)) as [c|] eqn:Hc.
    + apply head_Some_elem_of, list_elem_of_filter in Hc as [Hp (r & n' & Hr & Hn' & ->)%captured_elem].
      rewrite (proj2 (pending_path r n' Hn' Hr)) in Hp. subst r. simplify_eq. by apply pending_node.
    + apply head_None in Hc. rewrite Hc in Hin. by apply elem_of_nil in Hin.
  - assert (∀ c s, c ∈ cs → cpath c ≠ q ++ s) as Hno.
    { intros c s (r & n & Hr & Hn' & ->)%captured_elem Hp. rewrite (proj2 (pending_path r n Hn' Hr)) in Hp. subst r.
      destruct s as [|x s]; [by rewrite app_nil_r, Hn in Hn'|].
      assert (dir_at f (u ++ q) = true) as Hd by (apply (upper_above lgetxattr f u Hup q (x :: s)); [done|by rewrite Hn'; eauto]).
      unfold dir_at in Hd. by rewrite Hn in Hd. }
    destruct (head _) as [c|] eqn:Hc.
    { apply head_Some_elem_of, list_elem_of_filter in Hc as [Hp Hc]. destruct (Hno c [] Hc). by rewrite app_nil_r. }
    rewrite existsb_none; last first.
    { intros c Hc'. apply bool_decide_eq_false. intros [s Hs%below_Some]. by apply (Hno c s). }
    assert (existsb (λ c, cuts c && bool_decide (is_Some (below (cpath c) q))) cs = upper_hides f u q) as ->; [|done].
    apply eq_true_iff_eq. rewrite upper_hides_spec, existsb_exists. split.
    + intros (c & (r & n & Hr & Hn' & ->)%list_elem_of_In%captured_elem & [Hcut [s Hs]%bool_decide_eq_true]%andb_true_iff).
      rewrite (proj2 (pending_path r n Hn' Hr)) in Hs. apply below_Some in Hs. rewrite (proj2 (pending_kind r n Hn')) in Hcut.
      destruct s as [|x s]; [rewrite app_nil_r in Hs; subst; congruence|]. by exists r, x, s, n.
    + intros (r & x & s & n & -> & Hr & Hn' & Hcut). exists (into_layer_change (pending u r n)). split.
      * apply list_elem_of_In, captured_elem. eauto.
      * rewrite (proj2 (pending_kind r n Hn')), Hcut, (proj2 (pending_path r n Hn' Hr)). apply bool_decide_eq_true, under_app.
Qed.

Lemma captured_links q : no_link_above f u q → no_link_changes changes q.
Proof using Hup Hchanges.
  intros Hnl p t x s (r & n & Hr & Hn & Heq)%captured_elem ->. pose proof (pending_path r n Hn Hr) as [Hp _]. rewrite <-Heq in Hp.
  cbn [change_path] in Hp. subst p. assert (n = NSymlink t) as ->.
  { unfold pending in Heq. destruct (whiteout_node n); [done|]. destruct n; try done; [by simplify_eq/=|by destruct (dir_opaque _)]. }
  rewrite good_comps in Hnl by (done || by apply (up_names _ _ _ Hup) in Hn as [? _]).
  apply (Hnl (length r) t); [|by rewrite take_app_length]. rewrite length_app. simpl. destruct r; [done|simpl; lia].
Qed.
End changes.

(** ** A concrete session *)

(** Attributes that all hold [y]. *)
Definition yes_lgetxattr (f : fs) (p : path) (name : bytes) (size : nat) : xattr_answer :=
  match f !! p with
  | None => XError ENOENT
  | Some n => if decide (name ∈ n_xattrs n) then if decide (size < 1) then XRange else XData (lit "y") else XNoData
  end.

#[local] Instance comp_ok_dec x : Decision (comp_ok x).
Proof. unfold comp_ok. apply _. Defined.

Definition good_name_check (x : bytes) : bool :=
  ordinary_check x && bool_decide (comp_ok x) && utf8_valid x.

Definition node_check (n : node) : bool :=
  match n with
  | NSymlink t => utf8_valid t
  | NChar rdev => bool_decide (rdev = 0%Z)
  | NFile _ _ xs => negb (bool_decide (TRUSTED_OVERLAY_WHITEOUT_XATTR ∈ xs)) || bool_decide (USER_OVERLAY_WHITEOUT_XATTR ∈ xs)
  | NDir _ _ => true
  | NOther => false
  end.

(** The entries of an upper directory, checked one by one. *)
Definition upper_check (f : fs) (u : path) : bool :=
  plain_check f u &&
  forallb (λ qn, match below u qn.1 with
    | None => true
    | Some r =>
        forallb good_name_check r && bool_decide (trim (join_with slash r) = join_with slash r) &&
        (bool_decide (r = []) || dir_at f (parent qn.1)) &&
        node_check qn.2
    end) (map_to_list f).

Lemma upper_check_ok f u : upper_check f u = true → upper_ok yes_lgetxattr f u.
Proof.
  unfold upper_check. rewrite andb_true_iff, forallb_forall. intros [Hp%plain_check_dir Hall].
  assert (∀ r n, f !! (u ++ r) = Some n → (Forall good_name r ∧ trim (join_with slash r) = join_with slash r) ∧
    (r = [] ∨ dir_at f (parent (u ++ r)) = true) ∧ node_check n = true) as Hn.
  { intros r n Hn%elem_of_map_to_list. apply list_elem_of_In, Hall in Hn. cbn [fst snd] in Hn. rewrite below_app in Hn.
    rewrite !andb_true_iff, orb_true_iff, forallb_forall, !bool_decide_eq_true in Hn. destruct Hn as [[[Hg Ht] Hd] Hk].
    split_and!; [|done|done|exact Hk]. apply Forall_forall. intros x Hx%list_elem_of_In%Hg. unfold good_name_check in Hx.
    rewrite !andb_true_iff, bool_decide_eq_true, ordinary_check_spec in Hx. by destruct Hx as [[? ?] ?]. }
  split; [done|..].
  - intros r x [n Hx]. apply Hn in Hx as (_ & [?|Hd] & _); [by destruct r|]. by rewrite (assoc_L (++)), parent_snoc in Hd.
  - intros r n Hx. by apply Hn in Hx as (? & _).
  - intros r n Hx. apply Hn in Hx as (_ & _ & Hk). destruct n; try done; [|by apply bool_decide_eq_true in Hk].
    apply orb_true_iff in Hk. rewrite negb_true_iff, bool_decide_eq_false, bool_decide_eq_true in Hk. naive_solver.
  - intros r n name Hx. case_decide as Hd; [exists (lit "y"); split_and!|].
    + intros size. unfold yes_lgetxattr. rewrite Hx, decide_True by done. done.
    + apply Nat.lt_le_incl, (Nat.pow_gt_1 2 16); lia.
    + done.
    + intros size. unfold yes_lgetxattr. by rewrite Hx, decide_False.
Qed.

(** The upper directory of a session over [squash_fs]. *)
Definition session_upper : path := [lit "up"].
Definition session_fs : fs :=
  {[ [lit "up"] := NDir 0x1ed ∅; [lit "up"; lit "a"] := NDir 0x1c0 ∅;
     [lit "up"; lit "a"; lit "y"] := NChar 0; [lit "up"; lit "a"; lit "n"] := NFile (lit "made") 0x1ed ∅;
     [lit "up"; lit "d"] := NDir 0x1ed {[USER_OVERLAY_OPAQUE_XATTR]};
     [lit "up"; lit "l"] := NSymlink (lit "a/n") ]} ∪ squash_fs.

(** An upper directory with the files [x] and [x ], which ends in a space. *)
Definition spaced_fs : fs :=
  {[ [] := NDir 0x1ed ∅; [lit "up"] := NDir 0x1ed ∅; [lit "up"; lit "x"] := NFile (lit "one") 0x1a4 ∅;
     [lit "up"; lit "x "] := NFile (lit "other") 0x1a4 ∅ ]}.

Lemma session_room : publish_room (H := number_codec) 1 lease_root session_fs squash_manifest.
Proof.
  assert (squash_pre (H := number_codec) 1 lease_root session_fs squash_manifest) as Hsq.
  { apply squash_check_pre; vm_compute; reflexivity. }
  assert (session_fs !! (lease_root ++ [LAYER_METADATA_DIR]) = None) as Hm by (vm_compute; reflexivity).
  assert (∀ r, r ≠ [] → session_fs !! ((lease_root ++ [LAYER_METADATA_DIR]) ++ r) = None) as Hnone.
  { intros r Hr. apply tree_below; [apply Hsq| |done]. unfold dir_at. by rewrite Hm. }
  split; [done|by left|..]; [intros name; unfold dir_at; by rewrite Hnone|intros name n; by apply Hnone].
Qed.

(** ** Properties *)


Definition session_publish : result PublishLayerOutcome LayerStackError * world :=
  match capture_upperdir yes_lgetxattr session_upper (mkWorld session_fs 0 []) with
  | (Ok cap, w1) => publish_layer_unlocked (H := number_codec) (λ x, x) 1 false lease_root squash_manifest (cap_changes cap) w1
  | (Err _, w1) => (Err LayerIdAllocation, w1)
  end.


(** A capture can lose a file.  Of two files whose names differ by a
    trailing space it makes two changes of one path and reports no drop; the
    change list that is published keeps the second. *)
Theorem capture_loses_spaced_name lgetxattr :
  ∃ cap, captured_changes lgetxattr spaced_fs session_upper = Ok cap ∧ cap_protected_drops cap = [] ∧
    cap_changes cap = [WriteFile (mkLayerPath (lit "x")) [lit "up"; lit "x"] 3;
                       WriteFile (mkLayerPath (lit "x")) [lit "up"; lit "x "] 5] ∧
    aggregate_layer_changes (cap_changes cap) = [WriteFile (mkLayerPath (lit "x")) [lit "up"; lit "x "] 5].
Proof.
  eexists. split; [vm_compute; reflexivity|]. split_and!; vm_compute; reflexivity.
Qed.
