(* ===== verification/CaptureStats.v ===== *)
(** * The statistics of a capture

    The capture counts the entries that it walks over, and [collect] counts
    those of any tree.  The two walks take the entries in different orders;
    on an upper directory they agree. *)

From S2P Require Import Prelude ByteStr Merge Model FS Storage View Descend World StorageOps Flatten Does FlattenRead FlattenSpec.
From S2P Require Import Lease Publish Stack Squash SquashSpec SquashCommit LayerWrite PublishRead Tree Capture CaptureSpec.

(** ** Amounts *)

(** Files, directories, links and bytes. *)
Record amount := mkAmount { am_files : N; am_dirs : N; am_symlinks : N; am_bytes : N }.

Definition none : amount := mkAmount 0 0 0 0.
Definition plus (a b : amount) : amount :=
  mkAmount (am_files a + am_files b) (am_dirs a + am_dirs b) (am_symlinks a + am_symlinks b) (am_bytes a + am_bytes b).
Definition sum (l : list amount) : amount := foldr plus none l.

Definition node_amount (n : node) : amount :=
  match n with
  | NFile data _ _ => mkAmount 1 0 0 (N.of_nat (length data))
  | NDir _ _ => mkAmount 0 1 0 0
  | NSymlink _ => mkAmount 0 0 1 0
  | _ => none
  end.

(** Counters that had been incremented one by one. *)
Definition counted (st : TreeResourceStats) (a : amount) : TreeResourceStats :=
  mkStats (u64_saturating_add (st_files st) (Z.of_N (am_files a))) (u64_saturating_add (st_dirs st) (Z.of_N (am_dirs a)))
    (u64_saturating_add (st_symlinks st) (Z.of_N (am_symlinks a))) (u64_saturating_add (st_bytes st) (Z.of_N (am_bytes a)))
    (st_truncated st) (st_read_error_count st) (st_first_error_path st).

Definition in_range (st : TreeResourceStats) : Prop :=
  (st_files st ≤ U64_MAX ∧ st_dirs st ≤ U64_MAX ∧ st_symlinks st ≤ U64_MAX ∧ st_bytes st ≤ U64_MAX)%Z.

Ltac amounts := unfold counted, plus, none, u64_saturating_add; f_equal; cbn [st_files st_dirs st_symlinks st_bytes
  am_files am_dirs am_symlinks am_bytes]; lia.

Lemma plus_assoc a b c : plus a (plus b c) = plus (plus a b) c.
Proof. amounts. Qed.
Lemma plus_comm a b : plus a b = plus b a.
Proof. amounts. Qed.
Lemma plus_none a : plus a none = a.
Proof. destruct a. amounts. Qed.

Lemma counted_plus st a b : counted (counted st a) b = counted st (plus a b).
Proof. amounts. Qed.
Lemma counted_none st : in_range st → counted st none = st.
Proof. intros (? & ? & ? & ?). destruct st. cbn in *. amounts. Qed.
Lemma counted_range st a : in_range (counted st a).
Proof. unfold in_range, counted, u64_saturating_add; cbn. lia. Qed.

#[local] Instance sum_perm : Proper (Permutation ==> eq) sum.
Proof.
  intros l l'. induction 1 as [|a l l' _ IH|a b l|l1 l2 l3 _ IH1 _ IH2]; cbn; [done|by f_equal| |congruence].
  by rewrite !plus_assoc, (plus_comm b a).
Qed.

Lemma sum_cons a l : sum (a :: l) = plus a (sum l).
Proof. done. Qed.

Lemma sum_plus {A} (g h : A → amount) l : sum ((λ x, plus (g x) (h x)) <$> l) = plus (sum (g <$> l)) (sum (h <$> l)).
Proof. induction l as [|x l IH]; [done|]. rewrite !fmap_cons, !sum_cons, IH. amounts. Qed.

Lemma sum_filter {A} (P : A → Prop) `{!∀ x, Decision (P x)} (g : A → amount) l :
  (∀ x, x ∈ l → ¬ P x → g x = none) → sum (g <$> filter P l) = sum (g <$> l).
Proof.
  induction l as [|x l IH]; intros Hl; [done|]. assert (sum (g <$> filter P l) = sum (g <$> l)) as IH' by (apply IH; intros; apply Hl; [by right|done]).
  rewrite filter_cons, fmap_cons, sum_cons. case_decide as Hx; [by rewrite fmap_cons, sum_cons, IH'|].
  rewrite (Hl x), plus_comm, plus_none by (done || by left). done.
Qed.

Lemma weigh_counted st n : in_range st → weigh st n = counted st (node_amount n).
Proof.
  intros (? & ? & ? & ?). destruct st, n; unfold weigh; cbn [n_is_dir n_len record_file_stats node_amount] in *;
    unfold add_dir, add_file, add_symlink; cbn in *; amounts.
Qed.

Lemma foldl_weigh ns : ∀ st, in_range st → foldl weigh st ns = counted st (sum (node_amount <$> ns)).
Proof.
  induction ns as [|n ns IH]; intros st Hr; [by rewrite counted_none|]. cbn [foldl].
  rewrite weigh_counted by done. by rewrite IH, counted_plus, fmap_cons, sum_cons by apply counted_range.
Qed.

(** ** The two walks *)

Section walks.
Context (lgetxattr : fs → path → bytes → nat → xattr_answer) (f : fs) (u : path).
Hypothesis Hup : upper_ok lgetxattr f u.

Definition amount_at (p : path) : amount := from_option node_amount none (f !! p).

(** What lies below a directory, up to some depth. *)
Fixpoint inner (depth : nat) (p : path) : amount :=
  match depth with
  | O => none
  | S depth => sum ((λ x, plus (amount_at (p ++ [x])) (inner depth (p ++ [x]))) <$> names f p)
  end.

Lemma names_file r : dir_at f (u ++ r) = false → names f (u ++ r) = [].
Proof using Hup.
  intros Hd. apply elem_of_nil_inv. intros x Hx%elem_of_names.
  rewrite <-(assoc_L (++)) in Hx. apply (up_tree _ _ _ Hup) in Hx. congruence.
Qed.

Lemma inner_file depth r : dir_at f (u ++ r) = false → inner depth (u ++ r) = none.
Proof using Hup. intros Hd. destruct depth as [|depth]; [done|]. cbn [inner]. by rewrite names_file. Qed.

Lemma sum_names d ns : sum (node_amount <$> omap (λ x, f !! (d ++ [x])) ns) = sum ((λ x, amount_at (d ++ [x])) <$> ns).
Proof using.
  induction ns as [|x ns IH]; [done|]. rewrite fmap_cons, sum_cons, <-IH. unfold amount_at. csimpl.
  destruct (f !! (d ++ [x])); [done|]. cbn [from_option]. by rewrite plus_comm, plus_none.
Qed.

(** *** The capture *)

Lemma capture_file_stats e n st st' :
  capture_file_entry_metadata lgetxattr f u e n st = Ok st' → wk_stats st' = wk_stats st.
Proof using.
  unfold capture_file_entry_metadata. destruct (relative_path u e); [|done]. cbn [result_bind].
  destruct (is_overlay_whiteout _ _ _ _) as [b|]; [|done]. cbn [result_bind]. destruct (layer_path_from_relative_or_drop _ _) as [lp drops].
  destruct b, lp; intros H; simplify_eq; try done. destruct (n_is_symlink n).
  - destruct (symlink_entry _ _ _); [|done]. by simplify_eq/=.
  - destruct (n_is_file n); by simplify_eq/=.
Qed.

Lemma capture_files_stats files : ∀ st st', capture_files lgetxattr f u files st = Ok st' → wk_stats st' = wk_stats st.
Proof using.
  induction files as [|[e n] files IH]; intros st st' H; cbn [capture_files] in H; [by simplify_eq|].
  destruct (capture_file_entry_metadata _ _ _ _ _ _) as [st1|] eqn:H1; [|done]. apply capture_file_stats in H1.
  cbn [result_bind] in H. apply IH in H. congruence.
Qed.

Lemma capture_dir_stats e st st' : capture_dir lgetxattr f u e st = Ok st' → wk_stats st' = wk_stats st.
Proof using.
  unfold capture_dir. destruct (relative_path u e); [|done]. cbn [result_bind]. destruct (layer_path_from_relative_or_drop _ _) as [[lp|] drops].
  all: destruct (has_overlay_opaque_xattr _ _ _); intros; simplify_eq; try done. unfold push_opaque_dir. by case_decide.
Qed.

Lemma walk_dirs_stats walk (g : path → amount) dirs : ∀ st st',
  (∀ e st st', e ∈ dirs → walk e st = Ok st' → in_range (wk_stats st) → wk_stats st' = counted (wk_stats st) (g e)) →
  walk_dirs lgetxattr f walk u dirs st = Ok st' → in_range (wk_stats st) →
  wk_stats st' = counted (wk_stats st) (sum (g <$> dirs)).
Proof using.
  induction dirs as [|e dirs IH]; intros st st' Hw H Hr; cbn [walk_dirs] in H; [simplify_eq; by rewrite counted_none|].
  destruct (capture_dir _ _ _ _ _) as [st1|] eqn:H1; [|done]. apply capture_dir_stats in H1. cbn [result_bind] in H.
  destruct (walk e st1) as [st2|] eqn:H2; [|done]. apply Hw in H2; [|by left|by rewrite H1]. cbn [result_bind] in H.
  apply IH in H; [|intros; apply Hw; [by right|done..]|rewrite H2; apply counted_range].
  by rewrite H, H2, H1, counted_plus, fmap_cons, sum_cons.
Qed.

Lemma walk_stats fuel : ∀ d st st',
  dir_at f (u ++ d) = true → in_range (wk_stats st) →
  walk_upperdir lgetxattr f fuel u (u ++ d) st = Ok st' → wk_stats st' = counted (wk_stats st) (inner fuel (u ++ d)).
Proof using Hup.
  induction fuel as [|fuel IH]; intros d st st' Hd Hr H; [simplify_eq/=; by rewrite counted_none|].
  cbn [walk_upperdir] in H. rewrite (read_dir_upper lgetxattr f u Hup d Hd) in H. cbn [map_err result_bind] in H.
  pose proof (merge_sort_Permutation bytes_le (names f (u ++ d))) as Hp. revert H Hp. generalize (merge_sort bytes_le (names f (u ++ d))).
  intros ns H Hp. assert (∀ x, x ∈ ns ↔ is_Some (f !! (u ++ d ++ [x]))) as Hns.
  { intros x. by rewrite Hp, elem_of_names, <-(assoc_L (++)). }
  rewrite (split_entries_spec lgetxattr f u Hup) in H by (intros; by apply Hns). cbn [result_bind fst snd] in H.
  destruct (capture_files _ _ _ _ _) as [st1|] eqn:H1; [|done]. apply capture_files_stats in H1. cbn [result_bind wk_stats set_stats] in *.
  rewrite foldl_weigh in H1 by done. apply (walk_dirs_stats _ (inner fuel)) in H; [|..|rewrite H1; apply counted_range].
  - rewrite H, H1, counted_plus. f_equal. cbn [inner]. rewrite <-Hp, sum_plus. f_equal.
    + rewrite <-sum_names. do 2 f_equal. apply list_omap_ext, Forall_Forall2_diag, Forall_true. intros x. by rewrite <-(assoc_L (++)).
    + rewrite <-list_fmap_compose. apply (sum_filter _ (inner fuel ∘ (λ x, (u ++ d) ++ [x]))). intros x _ Hx. cbn.
      rewrite <-(assoc_L (++)). apply inner_file. by apply not_true_is_false.
  - intros e st2 st3 (x & -> & [Hx _]%list_elem_of_filter)%list_elem_of_fmap Hw Hr2. rewrite <-(assoc_L (++)) in Hw |- *. by apply IH.
Qed.

(** *** The collection *)

Abbreviation collect_names fuel p := (foldl (λ acc x, collect_path fuel f (p ++ [x]) acc)).

Lemma collect_names_keeps (P : TreeResourceStats * Z → Prop) fuel p ns : ∀ acc,
  (∀ q acc, P acc → P (collect_path fuel f q acc)) → P acc → P (collect_names fuel p acc ns).
Proof using. induction ns as [|x ns IH]; intros acc Hc Ha; [done|]. cbn [foldl]. auto. Qed.

Lemma collect_truncated fuel : ∀ p acc, st_truncated acc.1 = true → st_truncated (collect_path fuel f p acc).1 = true.
Proof using.
  induction fuel as [|fuel IH]; intros p [st rem] Ht; [done|]. cbn [collect_path]. destruct (rem =? 0)%Z; [done|].
  destruct (symlink_metadata f p) as [[]|]; try done. destruct (read_dir f p) as [ns|]; [|done].
  by apply (collect_names_keeps (λ acc, st_truncated acc.1 = true)).
Qed.

Lemma collect_names_counted fuel p (g : bytes → amount) ns : ∀ st rem,
  (∀ x st rem, x ∈ ns → in_range st → st_truncated (collect_path fuel f (p ++ [x]) (st, rem)).1 = false →
    (collect_path fuel f (p ++ [x]) (st, rem)).1 = counted st (g x)) →
  in_range st → st_truncated (collect_names fuel p (st, rem) ns).1 = false →
  (collect_names fuel p (st, rem) ns).1 = counted st (sum (g <$> ns)).
Proof using.
  induction ns as [|x ns IH]; intros st rem Hg Hr Ht; [by rewrite counted_none|]. cbn [foldl] in *.
  destruct (collect_path fuel f (p ++ [x]) (st, rem)) as [st1 rem1] eqn:H1.
  assert (st1 = counted st (g x)) as ->.
  { specialize (Hg x st rem). rewrite H1 in Hg. apply Hg; [by left|done|]. apply not_true_is_false. intros Ht1.
    by rewrite (collect_names_keeps (λ acc, st_truncated acc.1 = true)) in Ht by (done || apply collect_truncated). }
  rewrite IH, counted_plus, fmap_cons, sum_cons by (done || apply counted_range || (intros; apply Hg; [by right|done..])). done.
Qed.

(** One level of the collection. *)
Lemma collect_step fuel r n st rem :
  f !! (u ++ r) = Some n → in_range st →
  (∀ x stx remx, is_Some (f !! (u ++ r ++ [x])) → in_range stx →
    st_truncated (collect_path fuel f ((u ++ r) ++ [x]) (stx, remx)).1 = false →
    (collect_path fuel f ((u ++ r) ++ [x]) (stx, remx)).1 =
      counted stx (plus (amount_at ((u ++ r) ++ [x])) (inner (pred fuel) ((u ++ r) ++ [x])))) →
  st_truncated (collect_path (S fuel) f (u ++ r) (st, rem)).1 = false →
  (collect_path (S fuel) f (u ++ r) (st, rem)).1 =
    counted st (plus (node_amount n) (sum ((λ x, plus (amount_at ((u ++ r) ++ [x])) (inner (pred fuel) ((u ++ r) ++ [x]))) <$> names f (u ++ r)))).
Proof using Hup.
  intros Hn Hr Hx. cbn [collect_path]. destruct (rem =? 0)%Z; [done|]. rewrite (upper_metadata lgetxattr f u Hup r n Hn).
  generalize (0 `max` (rem - 1))%Z. intros rem' Ht. destruct (n_is_dir n) eqn:Hd.
  - assert (dir_at f (u ++ r) = true) as Hda by (unfold dir_at; by rewrite Hn). destruct n as [| |mode xs| |]; try done.
    rewrite (read_dir_upper lgetxattr f u Hup r Hda) in *.
    rewrite (collect_names_counted fuel (u ++ r) (λ x, plus (amount_at ((u ++ r) ++ [x])) (inner (pred fuel) ((u ++ r) ++ [x])))); [|..|done].
    + rewrite <-counted_plus. f_equal. by rewrite <-weigh_counted.
    + intros x stx remx Hin%elem_of_names. rewrite <-(assoc_L (++)) in Hin. by apply Hx.
    + unfold in_range, add_dir, u64_saturating_add in *. cbn. lia.
  - rewrite names_file by (unfold dir_at; by rewrite Hn). cbn [fmap list_fmap sum foldr].
    rewrite plus_none, <-weigh_counted by done. unfold weigh. rewrite Hd. by destruct n.
Qed.

Lemma collect_counted fuel : ∀ r n st rem,
  f !! (u ++ r) = Some n → (∀ s, is_Some (f !! (u ++ r ++ s)) → length s < S fuel) → in_range st →
  st_truncated (collect_path (S fuel) f (u ++ r) (st, rem)).1 = false →
  (collect_path (S fuel) f (u ++ r) (st, rem)).1 = counted st (plus (node_amount n) (inner fuel (u ++ r))).
Proof using Hup.
  induction fuel as [|fuel IH]; intros r n st rem Hn Hlen Hr Ht; (rewrite (collect_step _ r n); [|done..| |done]).
  - do 2 f_equal. cbn [inner]. assert (names f (u ++ r) = []) as ->; [|done]. apply elem_of_nil_inv.
    intros x Hin%elem_of_names. rewrite <-(assoc_L (++)) in Hin. apply Hlen in Hin. simpl in Hin. lia.
  - intros x stx remx Hin. apply Hlen in Hin. simpl in Hin. lia.
  - done.
  - intros x stx remx [n' Hin] Hrx Htx. rewrite <-(assoc_L (++)) in Htx |- *. rewrite (IH (r ++ [x]) n'); [|done| |done..].
    + unfold amount_at. by rewrite Hin.
    + intros s Hs. rewrite <-(assoc_L (++)) in Hs. apply Hlen in Hs. simpl in Hs. lia.
Qed.
End walks.

(** ** The bound of the collection *)

Definition entries (st : TreeResourceStats) : Z := (st_files st + st_dirs st + st_symlinks st)%Z.

(** A collection counts at most as many entries as its limit, in whatever file
    system and whichever entries cannot be read. *)
Lemma collect_bounded f p max_entries :
  (0 ≤ max_entries)%Z → (entries (collect_with_entry_limit f p max_entries) ≤ max_entries)%Z.
Proof.
  intros Hm. unfold collect_with_entry_limit.
  assert (∀ fuel q acc, (0 ≤ acc.2 ∧ entries acc.1 + acc.2 ≤ max_entries →
    let acc' := collect_path fuel f q acc in 0 ≤ acc'.2 ∧ entries acc'.1 + acc'.2 ≤ max_entries)%Z) as Hc.
  { clear. intros fuel. induction fuel as [|fuel IH]; intros q [st rem] Ha; [done|]. cbn [collect_path].
    destruct (Z.eqb_spec rem 0) as [|Hrem]; [done|]. destruct (symlink_metadata f q) as [n|]; [|done].
    assert (0 ≤ 0 `max` (rem - 1))%Z by lia. destruct n; try (unfold entries, add_file, add_symlink, add_dir, u64_saturating_add in *; cbn in *; lia).
    destruct (read_dir f q) as [ns|]; [|unfold entries, add_dir, u64_saturating_add in *; cbn in *; lia].
    apply (collect_names_keeps f (λ acc, 0 ≤ acc.2 ∧ entries acc.1 + acc.2 ≤ max_entries)%Z); [done|].
    unfold entries, add_dir, u64_saturating_add in *; cbn in *; lia. }
  destruct (Hc (S (S (depth_bound f))) p (no_stats, max_entries)) as [? ?]; [|lia].
  change (entries (no_stats, max_entries).1) with 0%Z. cbn [snd]. lia.
Qed.

(** ** Properties *)

(** The statistics of a capture are those of the tree.  On a proper upper
    directory the capture succeeds, and its counts of files, directories,
    links and bytes are those that [TreeResourceStats::collect_with_entry_limit]
    finds in the same directory, unless that walk reaches its limit. *)
Theorem capture_stats_are_collected lgetxattr u max_entries w :
  upper_ok lgetxattr (w_fs w) u → st_truncated (collect_with_entry_limit (w_fs w) u max_entries) = false →
  ∃ cap w', capture_upperdir lgetxattr u w = (Ok cap, w') ∧ w_fs w' = w_fs w ∧
    cap_stats cap = collect_with_entry_limit (w_fs w) u max_entries.
Proof.
  intros Hup Ht. destruct (capture_upper lgetxattr u w Hup) as (w1 & Hfs & Hrun).
  destruct (walk_exact lgetxattr (w_fs w) u Hup) as (st & Hst & _).
  exists (mkCaptured (into_layer_change <$> wk_entries st) (wk_drops st) (wk_stats st)), w1. rewrite Hrun. unfold captured_changes.
  rewrite Hst. split_and!; [done..|]. cbn [cap_stats]. unfold collect_with_entry_limit in *.
  pose proof (plain_dir_at (w_fs w) u (up_plain _ _ _ Hup)) as Hd. rewrite <-(app_nil_r u) in Hd, Ht |- *.
  assert (∃ n, w_fs w !! (u ++ []) = Some n ∧ n_is_dir n = true) as (n & Hn & Hnd).
  { unfold dir_at in Hd. destruct (w_fs w !! (u ++ [])) as [n|]; [|done]. eauto. }
  rewrite (collect_counted lgetxattr _ u Hup (S (depth_bound (w_fs w))) [] n); [|done| | |done].
  - rewrite <-counted_plus, (walk_stats lgetxattr (w_fs w) u Hup (S (depth_bound (w_fs w))) [] walk_start st); [by destruct n|done| |].
    + done.
    + by rewrite app_nil_r.
  - intros s [n' Hs]. apply depth_bound_spec in Hs. rewrite !length_app in Hs. lia.
  - done.
Qed.

Lemma capture_stats_are_collected_witness :
  ∃ cap w', capture_upperdir yes_lgetxattr session_upper (mkWorld session_fs 0 []) = (Ok cap, w') ∧
    cap_stats cap = mkStats 1 3 1 4 false 0 None.
Proof.
  destruct (capture_stats_are_collected yes_lgetxattr session_upper 10 (mkWorld session_fs 0 [])) as (cap & w' & Hrun & _ & Hst).
  - apply upper_check_ok. vm_compute. reflexivity.
  - vm_compute. reflexivity.
  - exists cap, w'. split; [exact Hrun|]. rewrite Hst. vm_compute. reflexivity.
Defined.
