(* ===== verification/Project.v ===== *)
(** * Layer walks: [projection/apply.rs], [projection/delta.rs]

    The walk over the entries of one layer directory, its application to a
    destination ([MergedView::project]), and the fold of the layers above the
    base into one winner per path. *)

From S2P Require Import Prelude ByteStr Model FS Storage View World StorageOps Lease Descend.

(** ** The walk: [projection/apply.rs] *)

Inductive ProjectEntryKind :=
| PkOpaque | PkLogicalWhiteout | PkKernelWhiteout | PkDirectory | PkFile | PkSymlink.

#[global] Instance ProjectEntryKind_eq_dec : EqDecision ProjectEntryKind.
Proof. solve_decision. Defined.

(** [pe_rel] holds the components of the path relative to the layer. *)
Record ProjectEntry := mkEntry { pe_path : path; pe_rel : path; pe_kind : ProjectEntryKind }.

(** The kind of one directory entry, [None] for one that is passed over. *)
Definition entry_kind (f : fs) (p : path) (meta : node) : option ProjectEntryKind :=
  let name := if utf8_valid (file_name p) then file_name p else [] in
  if decide (name = OPAQUE_MARKER) then Some PkOpaque
  else if bool_decide (length LOGICAL_WHITEOUT_PREFIX < length name) && starts_with LOGICAL_WHITEOUT_PREFIX name
  then Some PkLogicalWhiteout
  else if is_kernel_whiteout_meta f p meta then Some PkKernelWhiteout
  else match meta with
  | NSymlink _ => Some PkSymlink
  | NDir _ _ => Some PkDirectory
  | NFile _ _ _ => Some PkFile
  | _ => None
  end.

(** The loop over the children of one directory: the entries, and the stack with
    the directories pushed. *)
Fixpoint collect_children (f : fs) (layer_dir dir : path) (children : list bytes)
    (stack : list path) (entries : list ProjectEntry)
    : result (list path * list ProjectEntry) LayerStackError :=
  match children with
  | [] => Ok (stack, entries)
  | name :: children =>
      let p := dir ++ [name] in
      (let? meta := map_err Io (symlink_metadata f p) in
       match entry_kind f p meta with
       | None => collect_children f layer_dir dir children stack entries
       | Some kind =>
           collect_children f layer_dir dir children
             (if decide (kind = PkDirectory) then p :: stack else stack)
             (entries ++ [mkEntry p (drop (length layer_dir) p) kind])
       end)%result
  end.

(** One directory per unit of fuel. *)
Fixpoint collect_stack (fuel : nat) (f : fs) (layer_dir : path) (stack : list path)
    (entries : list ProjectEntry) : result (list ProjectEntry) LayerStackError :=
  match stack, fuel with
  | [], _ => Ok entries
  | _, O => Ok entries
  | dir :: stack, S fuel =>
      (let? children := map_err Io (read_dir f dir) in
       let? r := collect_children f layer_dir dir children stack entries in
       collect_stack fuel f layer_dir r.1 r.2)%result
  end.

Definition collect_project_entries (f : fs) (layer_dir : path) : result (list ProjectEntry) LayerStackError :=
  collect_stack (S (size f)) f layer_dir [layer_dir] [].

Definition ensure_directory (p : path) : io LayerStackError () :=
  (do m := attempt (F := LayerStackError) (reads (λ f, symlink_metadata f p)) in
   run match m with
       | Ok meta => if n_is_symlink meta || negb (n_is_dir meta) then remove_path p else ret ()
       | Err ENOENT => ret ()
       | Err e => fail (Io e)
       end;
   lift_err Io (create_dir_all p))%io.

Fixpoint remove_children (p : path) (ns : list bytes) : io LayerStackError () :=
  match ns with
  | [] => ret ()
  | n :: ns => (run remove_path (p ++ [n]); remove_children p ns)%io
  end.

Definition clear_directory (p : path) : io LayerStackError () :=
  (run ensure_directory p;
   do ns := lift_err Io (reads (λ f, read_dir f p)) in
   remove_children p ns)%io.

Definition destination_parent (destination rel : path) : path := destination ++ parent rel.

(** [name.trim_start_matches(".wh.")]: every leading occurrence. *)
Fixpoint trim_start_matches (fuel : nat) (prefix s : bytes) : bytes :=
  match fuel with
  | O => s
  | S fuel =>
      match strip_prefix prefix s with Some s => trim_start_matches fuel prefix s | None => s end
  end.

(** [Path::join]: an empty name adds no component. *)
Definition join_name (p : path) (name : bytes) : path := if decide (name = []) then p else p ++ [name].

Definition whiteout_destination (destination : path) (e : ProjectEntry) : option path :=
  match pe_kind e with
  | PkLogicalWhiteout =>
      if utf8_valid (file_name (pe_rel e)) then
        Some (join_name (destination_parent destination (pe_rel e))
                (trim_start_matches (length (file_name (pe_rel e))) LOGICAL_WHITEOUT_PREFIX
                   (file_name (pe_rel e))))
      else None
  | PkKernelWhiteout => Some (destination ++ pe_rel e)
  | _ => None
  end.

Definition apply_whiteout (destination : path) (e : ProjectEntry) : io LayerStackError () :=
  match whiteout_destination destination e with Some target => remove_path target | None => ret () end.

Definition apply_content (destination : path) (e : ProjectEntry) : io LayerStackError () :=
  let target := destination ++ pe_rel e in
  match pe_kind e with
  | PkDirectory => ensure_directory target
  | PkFile =>
      (run lift_err Io (create_dir_all (parent target));
       run remove_path target;
       lift_err Io (fs_copy (pe_path e) target))%io
  | PkSymlink =>
      (run lift_err Io (create_dir_all (parent target));
       run remove_path target;
       do link_target := lift_err Io (reads (λ f, read_link f (pe_path e))) in
       lift_err Io (fs_symlink link_target target))%io
  | _ => ret ()
  end.

Definition for_each {A : Type} (g : A → io LayerStackError ()) (l : list A) : io LayerStackError () :=
  foldr (λ x rest, run g x; rest)%io (ret ()) l.

(** The order of [PathBuf]s: by components. *)
Fixpoint path_le (p q : path) : bool :=
  match p, q with
  | [], _ => true
  | _ :: _, [] => false
  | x :: p, y :: q => if decide (x = y) then path_le p q else bytes_ltb x y
  end.
Definition entry_le (e1 e2 : ProjectEntry) : Prop := path_le (pe_rel e1) (pe_rel e2) = true.
#[global] Instance entry_le_dec e1 e2 : Decision (entry_le e1 e2) :=
  decide (path_le (pe_rel e1) (pe_rel e2) = true).

Definition apply_layer (layer_dir destination : path) : io LayerStackError () :=
  (do entries := reads (λ f, collect_project_entries f layer_dir) in
   let entries := merge_sort entry_le entries in
   run for_each (λ e, clear_directory (destination_parent destination (pe_rel e)))
         (filter (λ e, pe_kind e = PkOpaque) entries);
   run for_each (apply_whiteout destination)
         (filter (λ e, pe_kind e = PkLogicalWhiteout ∨ pe_kind e = PkKernelWhiteout) entries);
   for_each (apply_content destination)
     (filter (λ e, pe_kind e = PkDirectory ∨ pe_kind e = PkFile ∨ pe_kind e = PkSymlink) entries))%io.

(** [MergedView::project]: the layers from the bottom up. *)
Definition project (storage_root destination : path) (m : Manifest) : io LayerStackError () :=
  (run remove_path destination;
   run lift_err Io (create_dir_all destination);
   for_each (λ l,
     do dir := reads (λ f, layer_dir f storage_root l) in
     apply_layer dir destination) (reverse (layers m)))%io.

(** ** The fold: [projection/delta.rs] *)

Inductive DeltaWinner :=
| DwFile (source : path)
| DwSymlink (source : path)
| DwDirectory (source : path)
| DwDelete
| DwOpaqueDir (source : path).

Record DeltaFold := mkFold {
  df_winners : list (bytes * DeltaWinner);
  df_delta_layers : list LayerRef;
}.

Inductive LayerDeltaEntryKind := DkFile | DkSymlink | DkDirectory | DkDelete | DkOpaqueDir.

Record LayerDeltaDescription := mkDescription {
  dd_entries : list (bytes * LayerDeltaEntryKind);
  dd_truncated : bool;
}.

Definition is_base_layer (l : LayerRef) : Prop := head (layer_id l) = Some BASE_LAYER_PREFIX.
#[global] Instance is_base_layer_dec l : Decision (is_base_layer l) :=
  decide (head (layer_id l) = Some BASE_LAYER_PREFIX).

(** The layers above the base; [Storage] stands for the refusal of a manifest
    without one. *)
Definition delta_layer_refs (m : Manifest) : result (list LayerRef) LayerStackError :=
  if decide (length (filter is_base_layer (layers m)) = 0) then Err (Storage OtherStorage)
  else Ok (filter (λ l, ¬ is_base_layer l) (layers m)).

(** [rel_str]: the path as a string, if it is one. *)
Definition rel_str (rel : path) : result bytes LayerStackError :=
  let s := join_with slash rel in if utf8_valid s then Ok s else Err (Storage NotUtf8).

Definition whiteout_target (e : ProjectEntry) : option LayerPath :=
  match pe_kind e with
  | PkLogicalWhiteout =>
      let name := file_name (pe_rel e) in
      if utf8_valid name then
        stripped ← strip_prefix LOGICAL_WHITEOUT_PREFIX name;
        if bool_decide (stripped = []) || starts_with LOGICAL_WHITEOUT_PREFIX stripped then None
        else
          let target := join_with slash (parent (pe_rel e) ++ [stripped]) in
          if utf8_valid target then
            match parse target with Ok p => Some p | Err _ => None end
          else None
      else None
  | PkKernelWhiteout =>
      let target := join_with slash (pe_rel e) in
      if utf8_valid target then match parse target with Ok p => Some p | Err _ => None end else None
  | _ => None
  end.

(** The loop over [rel.split('/')]: [next] is the end of the part in [rel]. *)
Fixpoint masked_loop (cut_roots : gset bytes) (rel : bytes) (end_ : nat) (parts : list bytes) : bool :=
  match parts with
  | [] => false
  | part :: parts =>
      let next := end_ + length part in
      if decide (length rel ≤ next) then false
      else if decide (take next rel ∈ cut_roots) then true
      else masked_loop cut_roots rel (next + 1) parts
  end.

Definition ancestor_masked (cut_roots : gset bytes) (rel : bytes) : bool :=
  masked_loop cut_roots rel 0 (split_on slash rel).

(** [winners.entry(path).or_insert(winner)] *)
Definition or_insert {V : Type} (k : bytes) (v : V) (m : list (bytes * V)) : list (bytes * V) :=
  match bt_lookup k m with Some _ => m | None => bt_insert k v m end.

(** The state of [fold_layer]: the winners and the cuts of this layer. *)
Definition fold_state : Type := list (bytes * DeltaWinner) * list bytes.

Definition fold_whiteout (cut_roots : gset bytes) (st : fold_state) (e : ProjectEntry) : fold_state :=
  match whiteout_target e with
  | None => st
  | Some target =>
      if ancestor_masked cut_roots (as_str target) then st
      else (or_insert (as_str target) DwDelete st.1, st.2 ++ [as_str target])
  end.

Definition fold_opaque (cut_roots : gset bytes) (st : fold_state) (e : ProjectEntry)
    : result fold_state LayerStackError :=
  (let? marker_rel := rel_str (pe_rel e) in
   if ancestor_masked cut_roots marker_rel then Ok st
   else if decide (parent (pe_rel e) = []) then Err (Storage OtherStorage)
   else
     let? dir_str := rel_str (parent (pe_rel e)) in
     let? dir := map_err Cas (parse dir_str) in
     match bt_lookup (as_str dir) st.1 with
     | None =>
         Ok (bt_insert (as_str dir) (DwOpaqueDir (parent (pe_path e))) st.1, st.2 ++ [as_str dir])
     | Some (DwDirectory source) =>
         Ok (bt_insert (as_str dir) (DwOpaqueDir source) st.1, st.2 ++ [as_str dir])
     | Some _ => Ok st
     end)%result.

Definition fold_content (cut_roots : gset bytes) (st : fold_state) (e : ProjectEntry)
    : result fold_state LayerStackError :=
  (let? rel := rel_str (pe_rel e) in
   if ancestor_masked cut_roots rel then Ok st
   else
     let? p := map_err Cas (parse rel) in
     match pe_kind e with
     | PkFile => Ok (or_insert (as_str p) (DwFile (pe_path e)) st.1, st.2 ++ [rel])
     | PkSymlink => Ok (or_insert (as_str p) (DwSymlink (pe_path e)) st.1, st.2 ++ [rel])
     | PkDirectory => Ok (or_insert (as_str p) (DwDirectory (pe_path e)) st.1, st.2)
     | _ => Ok st
     end)%result.

Fixpoint fold_result {A B E : Type} (g : A → B → result A E) (a : A) (l : list B) : result A E :=
  match l with
  | [] => Ok a
  | b :: l => (let? a := g a b in fold_result g a l)%result
  end.

Definition fold_layer (entries : list ProjectEntry) (winners : list (bytes * DeltaWinner))
    (cut_roots : gset bytes) : result fold_state LayerStackError :=
  let whiteouts :=
    filter (λ e, pe_kind e = PkLogicalWhiteout ∨ pe_kind e = PkKernelWhiteout) entries in
  (let? st :=
     fold_result (fold_opaque cut_roots) (foldl (fold_whiteout cut_roots) (winners, []) whiteouts)
       (filter (λ e, pe_kind e = PkOpaque) entries) in
   fold_result (fold_content cut_roots) st
     (filter (λ e, pe_kind e = PkDirectory ∨ pe_kind e = PkFile ∨ pe_kind e = PkSymlink) entries))%result.

Definition fold_one_layer (f : fs) (storage_root : path) (st : list (bytes * DeltaWinner) * gset bytes)
    (l : LayerRef) : result (list (bytes * DeltaWinner) * gset bytes) LayerStackError :=
  let layer_dir := resolve_layer_path storage_root (lr_path l) in
  if negb (is_dir f layer_dir) then Err (Storage (MissingLayer l))
  else
    (let? entries := collect_project_entries f layer_dir in
     let? r := fold_layer entries st.1 st.2 in
     Ok (r.1, list_to_set r.2 ∪ st.2))%result.

Definition fold_delta_winners (f : fs) (storage_root : path) (m : Manifest) : result DeltaFold LayerStackError :=
  (let? delta_layers := delta_layer_refs m in
   let? st := fold_result (fold_one_layer f storage_root) ([], ∅) delta_layers in
   Ok (mkFold st.1 delta_layers))%result.

Definition describe_project_entry (e : ProjectEntry)
    : result (option (LayerPath * LayerDeltaEntryKind)) LayerStackError :=
  let named (kind : LayerDeltaEntryKind) (rel : path) :=
    (let? s := rel_str rel in
     let? p := map_err Cas (parse s) in
     Ok (Some (p, kind)))%result in
  match pe_kind e with
  | PkLogicalWhiteout | PkKernelWhiteout =>
      Ok (match whiteout_target e with Some p => Some (p, DkDelete) | None => None end)
  | PkOpaque =>
      if decide (parent (pe_rel e) = []) then Ok None else named DkOpaqueDir (parent (pe_rel e))
  | PkDirectory => named DkDirectory (pe_rel e)
  | PkFile => named DkFile (pe_rel e)
  | PkSymlink => named DkSymlink (pe_rel e)
  end.

Definition describe_insert (by_path : list (bytes * LayerDeltaEntryKind)) (e : ProjectEntry)
    : result (list (bytes * LayerDeltaEntryKind)) LayerStackError :=
  (let? d := describe_project_entry e in
   Ok match d with
      | None => by_path
      | Some (p, kind) =>
          match bt_lookup (as_str p) by_path, kind with
          | Some DkOpaqueDir, DkDirectory => by_path
          | _, DkOpaqueDir => bt_insert (as_str p) kind by_path
          | None, _ => bt_insert (as_str p) kind by_path
          | Some _, _ => by_path
          end
      end)%result.

Definition describe_layer_delta (f : fs) (layer_dir : path) (limit : nat)
    : result LayerDeltaDescription LayerStackError :=
  (let? entries := collect_project_entries f layer_dir in
   let? by_path := fold_result describe_insert [] entries in
   Ok (mkDescription (take limit by_path) (bool_decide (limit < length by_path))))%result.

(** ** Masking by ancestors *)

Lemma masked_loop_spec cuts pre parts :
  Forall (λ c, slash ∉ c) parts →
  masked_loop cuts (pre ++ join_with slash parts) (length pre) parts =
  existsb (λ k, bool_decide (pre ++ join_with slash (take k parts) ∈ cuts)) (seq 1 (length parts - 1)).
Proof.
  intros Hs. revert pre. induction Hs as [|c parts Hc Hs IH]; intros pre; [done|].
  destruct parts as [|c' parts].
  { cbn. rewrite decide_True; [done|]. rewrite length_app. lia. }
  cbn [masked_loop]. rewrite decide_False.
  2:{ cbn. rewrite !length_app. simpl. lia. }
  assert (take (length pre + length c) (pre ++ join_with slash (c :: c' :: parts)) = pre ++ c) as Htake.
  { rewrite take_app_add. f_equal. cbn [join_with]. by rewrite take_app_length. }
  rewrite Htake. replace (seq 1 (length (c :: c' :: parts) - 1)) with (1 :: (S <$> seq 1 (length (c' :: parts) - 1))).
  2:{ simpl. rewrite Nat.sub_0_r. by rewrite fmap_S_seq. }
  cbn [existsb]. rewrite existsb_fmap.
  change (join_with slash (take 1 (c :: c' :: parts))) with c. rewrite bool_decide_decide.
  case_decide; [done|]. cbn [orb].
  change (join_with slash (c :: c' :: parts)) with (c ++ slash :: join_with slash (c' :: parts)).
  replace (pre ++ c ++ slash :: join_with slash (c' :: parts)) with ((pre ++ c ++ [slash]) ++ join_with slash (c' :: parts))
    by by rewrite <-!(assoc_L (++)).
  replace (length pre + length c + 1) with (length (pre ++ c ++ [slash])) by (rewrite !length_app; simpl; lia).
  etrans; [exact (IH (pre ++ c ++ [slash]))|]. apply existsb_ext_in. intros k Hk. apply elem_of_seq in Hk. f_equal.
  apply bool_decide_ext. assert (take (S k) (c :: c' :: parts) = c :: take k (c' :: parts)) as -> by done.
  destruct k as [|k]; [lia|].
  change (join_with slash (c :: take (S k) (c' :: parts)))
    with (c ++ slash :: join_with slash (take (S k) (c' :: parts))).
  by rewrite <-!(assoc_L (++)).
Qed.

(** The string scan of [ancestor_masked] decides the component-wise relation:
    a path is masked exactly when one of its proper ancestors, as a directory of
    its own, is a cut. *)
Theorem ancestor_masked_is_proper_prefix cuts p rel :
  parse p = Ok rel →
  ancestor_masked cuts (as_str rel) = true ↔
  ∃ k, 0 < k < length (comps rel) ∧ join_with slash (take k (comps rel)) ∈ cuts.
Proof.
  intros Hp. apply parse_comps in Hp as (Hne & Hok & Hstr). unfold ancestor_masked. rewrite Hstr at 1.
  assert (Forall (λ c, slash ∉ c) (comps rel)) as Hs.
  { eapply Forall_impl; [done|]. by intros c (_ & _ & _ & ? & _). }
  fold (comps rel). pose proof (masked_loop_spec cuts [] (comps rel) Hs) as Hm. cbn [app length] in Hm.
  rewrite Hm, existsb_exists. split.
  - intros (k & Hk & Hc). apply in_seq in Hk. rewrite bool_decide_eq_true in Hc. exists k. split; [lia|done].
  - intros (k & Hk & Hc). exists k. split; [apply in_seq; lia|]. by rewrite bool_decide_eq_true.
Qed.

Lemma ancestor_masked_is_proper_prefix_witness :
  ancestor_masked {[ lit "a/b" ]} (lit "a/b/c") = true.
Proof.
  apply (ancestor_masked_is_proper_prefix {[ lit "a/b" ]} (lit "a/b/c") (mkLayerPath (lit "a/b/c"))).
  - reflexivity.
  - exists 2. split; [vm_compute; lia|]. vm_compute. reflexivity.
Defined.
