(* ===== verification/Delta.v ===== *)
(** * What a delta says: [projection/delta.rs]

    The fold over the layers above the base gives one winner per path.  On
    proper layers it succeeds, and a winner is the node that the overlay lookup
    of those layers finds.  Put on top of the base, the winners show what the
    whole stack shows, as long as no plain directory lies above a path that an
    older layer removes or replaces. *)

From S2P Require Import Prelude ByteStr Model FS Storage View World StorageOps Lease Descend FlattenRead Project.

(** ** The entries of a layer *)

Section entries.
Context (f : fs).

(** The kind of an entry with a name in UTF-8. *)
Definition kind_at (c : bytes) (n : node) : option ProjectEntryKind :=
  if decide (c = OPAQUE_MARKER) then Some PkOpaque
  else if bool_decide (length LOGICAL_WHITEOUT_PREFIX < length c) && starts_with LOGICAL_WHITEOUT_PREFIX c
  then Some PkLogicalWhiteout
  else if whiteout_node n then Some PkKernelWhiteout
  else match n with
  | NSymlink _ => Some PkSymlink
  | NDir _ _ => Some PkDirectory
  | NFile _ _ _ => Some PkFile
  | _ => None
  end.

(** The entry at a path below [e], if the walk gets there. *)
Fixpoint entry_at (e t : path) : option ProjectEntryKind :=
  match t with
  | [] => None
  | [c] => f !! (e ++ [c]) ≫= kind_at c
  | c :: t =>
      match f !! (e ++ [c]) ≫= kind_at c with
      | Some PkDirectory => entry_at (e ++ [c]) t
      | _ => None
      end
  end.

Lemma entry_at_cons2 e c c' t :
  entry_at e (c :: c' :: t) =
  match f !! (e ++ [c]) ≫= kind_at c with Some PkDirectory => entry_at (e ++ [c]) (c' :: t) | _ => None end.
Proof. done. Qed.

Lemma entry_at_node t : ∀ e k, entry_at e t = Some k →
  t ≠ [] ∧ ∃ n, f !! (e ++ t) = Some n ∧ kind_at (file_name t) n = Some k.
Proof.
  induction t as [|c t IH]; intros e k Hk; [done|]. split; [done|]. destruct t as [|c' t].
  - cbn [entry_at] in Hk. destruct (f !! (e ++ [c])) as [n|]; [|done]. by exists n.
  - rewrite entry_at_cons2 in Hk. destruct (f !! (e ++ [c]) ≫= kind_at c) as [[]|]; try done.
    apply IH in Hk as (_ & n & Hn & Hk). exists n. rewrite <-(assoc_L (++)) in Hn. split; [done|].
    by rewrite <-Hk.
Qed.

(** Below a directory of the walk. *)
Lemma entry_at_app s : ∀ e t, s ≠ [] → t ≠ [] →
  entry_at e (s ++ t) = match entry_at e s with Some PkDirectory => entry_at (e ++ s) t | _ => None end.
Proof.
  induction s as [|c s IH]; intros e t Hs Ht; [done|]. destruct s as [|c' s].
  - by destruct t as [|c' t].
  - change ((c :: c' :: s) ++ t) with (c :: c' :: (s ++ t)). rewrite !entry_at_cons2.
    destruct (f !! (e ++ [c]) ≫= kind_at c) as [[]|]; try done.
    change (c' :: s ++ t) with ((c' :: s) ++ t). by rewrite IH, <-(assoc_L (++)).
Qed.

Context (d : path).

(** A path whose text is a layer path. *)
Definition path_ok (r : path) : Prop :=
  Forall comp_ok r ∧ Forall (λ x, utf8_valid x = true) r ∧ trim (join_with slash r) = join_with slash r.

Lemma path_ok_last r c : path_ok (r ++ [c]) → c ≠ dotdot ∧ utf8_valid c = true.
Proof using. intros (Hc & Hu & _). rewrite Forall_app, Forall_singleton in Hc, Hu. split; [apply Hc|apply Hu]. Qed.

(** What the fold relies on in a layer. *)
Record delta_layer : Prop := {
  dl_plain : plain_dir f d;
  dl_pure : layer_pure f d;
  dl_root : opaque f d = false;
  dl_names r n : f !! (d ++ r) = Some n → r ≠ [] → path_ok r;
  dl_marks r x : is_Some (f !! (d ++ r ++ [LOGICAL_WHITEOUT_PREFIX ++ x])) → ordinary x → path_ok (r ++ [x]);
}.
Hypothesis Hd : delta_layer.

Lemma layer_plain r : dir_at f (d ++ r) = true → plain_dir f (d ++ r).
Proof using Hd.
  induction r as [|c r IH] using rev_ind; intros Hr; [rewrite app_nil_r; apply Hd|].
  rewrite (assoc_L (++)) in *. pose proof Hr as Hr'. unfold dir_at in Hr'. destruct (f !! ((d ++ r) ++ [c])) as [n|] eqn:Hn; [|done].
  apply plain_dir_snoc; [|done|].
  - apply IH. apply (pure_tree _ _ (dl_pure Hd) r c). rewrite (assoc_L (++)), Hn. eauto.
  - rewrite <-(assoc_L (++)) in Hn. apply (dl_names Hd) in Hn; [|by destruct r]. by apply path_ok_last in Hn as [? _].
Qed.

Lemma layer_metadata r c n : f !! (d ++ r ++ [c]) = Some n → symlink_metadata f ((d ++ r) ++ [c]) = Ok n.
Proof using Hd.
  intros Hn. rewrite lstat_child.
  - unfold node_at. by rewrite <-(assoc_L (++)), Hn.
  - apply layer_plain, (pure_tree _ _ (dl_pure Hd) r c). by rewrite Hn.
  - apply (dl_names Hd) in Hn; [|by destruct r]. by apply path_ok_last in Hn as [? _].
Qed.

Lemma entry_kind_at r c n : f !! (d ++ r ++ [c]) = Some n → entry_kind f ((d ++ r) ++ [c]) n = kind_at c n.
Proof using Hd.
  intros Hn. pose proof (layer_metadata r c n Hn) as Hm. unfold entry_kind, kind_at. rewrite file_name_snoc.
  apply (dl_names Hd) in Hn; [|by destruct r]. apply path_ok_last in Hn as [_ ->].
  assert (is_kernel_whiteout_meta f ((d ++ r) ++ [c]) n = whiteout_node n) as ->; [|done].
  unfold is_kernel_whiteout_meta, has_xattr. rewrite Hm. by destruct n.
Qed.

(** ** The walk *)

Definition dir_entry_at (e : path) (c : bytes) : Prop := f !! (e ++ [c]) ≫= kind_at c = Some PkDirectory.
#[local] Instance dir_entry_dec e c : Decision (dir_entry_at e c).
Proof using. unfold dir_entry_at. apply _. Defined.

Lemma collect_children_spec r ns : ∀ stack es,
  (∀ c, c ∈ ns → is_Some (f !! (d ++ r ++ [c]))) →
  collect_children f d (d ++ r) ns stack es =
    Ok (reverse ((λ c, (d ++ r) ++ [c]) <$> filter (dir_entry_at (d ++ r)) ns) ++ stack,
        es ++ omap (λ c, mkEntry (d ++ r ++ [c]) (r ++ [c]) <$> entry_at (d ++ r) [c]) ns).
Proof using Hd.
  induction ns as [|c ns IH]; intros stack es Hns; [by rewrite app_nil_r|]. destruct (Hns c) as [n Hn]; [by left|].
  cbn [collect_children]. rewrite (layer_metadata r c n Hn). cbn [map_err result_bind]. rewrite (entry_kind_at r c n Hn).
  assert (∀ c, c ∈ ns → is_Some (f !! (d ++ r ++ [c]))) as Hns' by (intros; apply Hns; by right).
  assert (f !! ((d ++ r) ++ [c]) ≫= kind_at c = kind_at c n) as Hk by by rewrite <-(assoc_L (++)), Hn.
  rewrite filter_cons. assert (entry_at (d ++ r) [c] = kind_at c n) as Hk' by done.
  assert (dir_entry_at (d ++ r) c ↔ kind_at c n = Some PkDirectory) as Hde by (unfold dir_entry_at; by rewrite Hk). clear Hk.
  cbn [omap list_omap]. rewrite Hk'. destruct (kind_at c n) as [k|]; csimpl.
  - rewrite IH, <-!(assoc_L (++)), drop_app_length by done. do 2 f_equal. destruct (decide (k = PkDirectory)) as [->|Hne].
    + rewrite (decide_True _ _ (proj2 Hde eq_refl)). by rewrite fmap_cons, reverse_cons, <-!(assoc_L (++)).
    + by rewrite decide_False by (rewrite Hde; congruence).
  - by rewrite IH, decide_False by (done || by rewrite Hde).
Qed.

(** All that lies below the directories of the stack. *)
Definition under_stack (ss : list path) : gset path :=
  filter (λ q, Exists (λ s, is_Some (below (d ++ s) q)) ss) (dom f).

Lemma below_is_under e q : is_Some (below e q) ↔ ∃ r, q = e ++ r.
Proof using. split; intros [r Hr]; exists r; by apply below_Some. Qed.

Lemma elem_of_under_stack ss q : q ∈ under_stack ss ↔ is_Some (f !! q) ∧ ∃ s r, s ∈ ss ∧ q = d ++ s ++ r.
Proof using.
  unfold under_stack. rewrite elem_of_filter, elem_of_dom, Exists_exists. setoid_rewrite below_is_under. split.
  - intros ((s & Hs & [r ->]) & Hq). rewrite <-(assoc_L (++)) in *. eauto.
  - intros (Hq & s & r & Hs & ->). split; [|done]. exists s. split; [done|]. exists r. by rewrite (assoc_L (++)).
Qed.

(** No directory of the stack lies in another one. *)
Definition apart (ss : list path) : Prop := NoDup ss ∧ ∀ s r, s ∈ ss → s ++ r ∈ ss → r = [].

Lemma apart_push s ss cs :
  apart (s :: ss) → NoDup cs → apart (reverse ((λ c, s ++ [c]) <$> cs) ++ ss).
Proof using.
  intros [[Hs Hnd]%NoDup_cons Hn] Hcs.
  assert (∀ c, s ++ [c] ∉ ss) as Hc.
  { intros c Hc. assert ([c] = []); [|done]. apply (Hn s); [by left|by right]. }
  assert (∀ x, x ∈ reverse ((λ c, s ++ [c]) <$> cs) ++ ss → (∃ c, x = s ++ [c]) ∨ x ∈ ss) as Hx.
  { intros x. rewrite elem_of_app, elem_of_reverse, list_elem_of_fmap. naive_solver. }
  split.
  - apply NoDup_app. split_and!; [|intros x; rewrite elem_of_reverse, list_elem_of_fmap; naive_solver|done].
    rewrite reverse_Permutation. apply NoDup_fmap_2; [|done]. by intros c c' [_ ?]%app_inj_tail.
  - intros a r [[c ->]|Ha]%Hx [[c' Hr]|Hr]%Hx.
    + rewrite <-(assoc_L (++)) in Hr. apply (inj (app s)) in Hr. by simplify_eq/=.
    + rewrite <-(assoc_L (++)) in Hr. assert ([c] ++ r = []); [|done]. apply (Hn s); [by left|by right].
    + destruct r as [|y r _] using rev_ind; [done|]. rewrite (assoc_L (++)) in Hr. apply app_inj_tail in Hr as [Hr ->].
      assert (r = []) as ->; [apply (Hn a); [by right|rewrite Hr; by left]|]. rewrite app_nil_r in Hr. by subst.
    + apply (Hn a); by right.
Qed.

Lemma kind_directory c n : kind_at c n = Some PkDirectory → n_is_dir n = true.
Proof using. unfold kind_at. repeat case_match; by intros. Qed.

Lemma under_stack_push s ss cs :
  apart (s :: ss) → is_Some (f !! (d ++ s)) → under_stack (reverse ((λ c, s ++ [c]) <$> cs) ++ ss) ⊂ under_stack (s :: ss).
Proof using.
  intros [[Hs Hnd]%NoDup_cons Hn] Hf. split.
  - intros q. rewrite !elem_of_under_stack. intros (Hq & a & r & Ha & ->). split; [done|].
    rewrite elem_of_app, elem_of_reverse, list_elem_of_fmap in Ha. destruct Ha as [(c & -> & _)|Ha].
    + exists s, ([c] ++ r). split; [by left|]. by rewrite <-!(assoc_L (++)).
    + exists a, r. split; [by right|done].
  - intros Hsub. assert (d ++ s ∈ under_stack (s :: ss)) as Hin.
    { apply elem_of_under_stack. split; [done|]. exists s, []. rewrite app_nil_r. split; [by left|done]. }
    apply Hsub, elem_of_under_stack in Hin as (_ & a & r & Ha & Heq). apply (inj (app d)) in Heq.
    rewrite elem_of_app, elem_of_reverse, list_elem_of_fmap in Ha. destruct Ha as [(c & -> & _)|Ha].
    + apply (f_equal length) in Heq. rewrite !length_app in Heq. simpl in Heq. lia.
    + assert (r = []) as ->; [apply (Hn a); [by right|rewrite <-Heq; by left]|]. rewrite app_nil_r in Heq. by subst.
Qed.

Lemma layer_names r : dir_at f (d ++ r) = true → read_dir f (d ++ r) = Ok (names f (d ++ r)).
Proof using Hd.
  intros Hr. unfold read_dir, resolve. rewrite <-(app_nil_r (d ++ r)) at 1. rewrite walk_plain by by apply layer_plain.
  rewrite walk_eq. cbn [result_bind]. unfold node_at, dir_at in *. destruct (f !! (d ++ r)) as [n|]; [|done]. cbn [result_bind]. by rewrite Hr.
Qed.

(** The entries of a directory and those of its directories. *)
Lemma walk_entries s ss e :
  let cs := filter (dir_entry_at (d ++ s)) (names f (d ++ s)) in
  (∃ s' t k, s' ∈ s :: ss ∧ entry_at (d ++ s') t = Some k ∧ e = mkEntry (d ++ s' ++ t) (s' ++ t) k) ↔
  e ∈ omap (λ c, mkEntry (d ++ s ++ [c]) (s ++ [c]) <$> entry_at (d ++ s) [c]) (names f (d ++ s)) ∨
  ∃ s' t k, s' ∈ reverse ((λ c, s ++ [c]) <$> cs) ++ ss ∧ entry_at (d ++ s') t = Some k ∧ e = mkEntry (d ++ s' ++ t) (s' ++ t) k.
Proof using.
  intros cs. setoid_rewrite elem_of_app. setoid_rewrite elem_of_reverse. setoid_rewrite list_elem_of_fmap. rewrite list_elem_of_omap. split.
  - intros (s' & t & k & [->|Hs]%elem_of_cons & Ht & ->); [|right; eauto 10]. destruct t as [|c [|c' t]]; [done|..].
    + left. exists c. rewrite Ht. split; [|done]. apply elem_of_names. cbn [entry_at] in Ht. by destruct (f !! _).
    + right. exists (s ++ [c]), (c' :: t), k. rewrite entry_at_cons2 in Ht.
      assert (f !! ((d ++ s) ++ [c]) ≫= kind_at c = Some PkDirectory) as Hc by by repeat case_match.
      rewrite Hc in Ht. split_and!; [|by rewrite (assoc_L (++))|by rewrite <-!(assoc_L (++))].
      left. exists c. split; [done|]. apply list_elem_of_filter. split; [done|]. apply elem_of_names. by destruct (f !! _).
  - intros [(c & Hc & He)|(s' & t & k & [(c & -> & Hc)|Hs] & Ht & ->)]; [..|exists s', t, k; split; [by right|done]].
    + destruct (entry_at (d ++ s) [c]) as [k|] eqn:Hk; [|done]. injection He as <-. exists s, [c], k. split; [by left|done].
    + apply list_elem_of_filter in Hc as [Hc _]. exists s, (c :: t), k. split_and!; [by left| |by rewrite <-!(assoc_L (++))].
      destruct t as [|c' t]; [done|]. rewrite entry_at_cons2. unfold dir_entry_at in Hc. by rewrite Hc, <-(assoc_L (++)).
Qed.

Lemma collect_stack_spec fuel : ∀ ss es,
  apart ss → (∀ s, s ∈ ss → dir_at f (d ++ s) = true) → size (under_stack ss) ≤ fuel →
  ∃ es', collect_stack fuel f d ((λ s, d ++ s) <$> ss) es = Ok es' ∧
    ∀ e, e ∈ es' ↔ e ∈ es ∨ ∃ s t k, s ∈ ss ∧ entry_at (d ++ s) t = Some k ∧ e = mkEntry (d ++ s ++ t) (s ++ t) k.
Proof using Hd.
  induction fuel as [|fuel IH]; intros [|s ss] es Hap Hdir Hsz.
  1,3: exists es; split; [done|]; intros e; split; [by left|intros [?|(? & ? & ? & []%elem_of_nil & _)]; done].
  { assert (is_Some (f !! (d ++ s))) as Hs.
    { specialize (Hdir s). unfold dir_at in Hdir. destruct (f !! (d ++ s)); [eauto|]. by discriminate Hdir; left. }
    apply (under_stack_push s ss []) in Hap; [|done]. apply subset_size in Hap. lia. }
  assert (dir_at f (d ++ s) = true) as Hs by (apply Hdir; by left).
  assert (is_Some (f !! (d ++ s))) as Hs' by (unfold dir_at in Hs; destruct (f !! (d ++ s)); [eauto|done]).
  rewrite fmap_cons. cbn [collect_stack]. rewrite layer_names by done. cbn [map_err result_bind].
  rewrite collect_children_spec by (intros c Hc%elem_of_names; by rewrite (assoc_L (++))). cbn [result_bind fst snd].
  set (cs := filter (dir_entry_at (d ++ s)) (names f (d ++ s))).
  destruct (IH (reverse ((λ c, s ++ [c]) <$> cs) ++ ss) (es ++ omap (λ c, mkEntry (d ++ s ++ [c]) (s ++ [c]) <$> entry_at (d ++ s) [c]) (names f (d ++ s)))) as (es' & Hrun & Hes').
  - apply apart_push; [done|]. apply NoDup_filter, NoDup_names.
  - intros x. rewrite elem_of_app, elem_of_reverse, list_elem_of_fmap. intros [(c & -> & Hc)|Hx]; [|apply Hdir; by right].
    apply list_elem_of_filter in Hc as [Hc _]. unfold dir_entry_at in Hc. rewrite <-(assoc_L (++)) in Hc. unfold dir_at.
    destruct (f !! (d ++ s ++ [c])) as [n|]; [|done]. by apply (kind_directory c).
  - apply (under_stack_push s ss cs) in Hap; [|done]. apply subset_size in Hap. lia.
  - exists es'. split.
    + rewrite <-Hrun. f_equal. rewrite fmap_app, fmap_reverse, <-list_fmap_compose. do 2 f_equal. apply list_fmap_ext. intros i c _. cbn. by rewrite (assoc_L (++)).
    + intros e. rewrite Hes', elem_of_app, (walk_entries s ss). tauto.
Qed.

(** The walk ends, and finds each entry. *)
Lemma collect_project_entries_spec :
  ∃ es, collect_project_entries f d = Ok es ∧
    ∀ e, e ∈ es ↔ ∃ t k, entry_at d t = Some k ∧ e = mkEntry (d ++ t) t k.
Proof using Hd.
  destruct (collect_stack_spec (S (size f)) [[]] []) as (es & Hrun & Hes).
  - split; [apply NoDup_singleton|]. by intros s r ->%list_elem_of_singleton ?%list_elem_of_singleton.
  - intros s ->%list_elem_of_singleton. rewrite app_nil_r. apply plain_dir_at, Hd.
  - assert (under_stack [[]] ⊆ dom f) as Hsub by (unfold under_stack; set_solver). apply subseteq_size in Hsub. rewrite size_dom in Hsub. lia.
  - cbn [fmap list_fmap] in Hrun. rewrite app_nil_r in Hrun. exists es. split; [done|]. intros e. rewrite Hes. split.
    + intros [[]%elem_of_nil|(s & t & k & ->%list_elem_of_singleton & Ht & ->)]. rewrite app_nil_r in Ht. eauto.
    + intros (t & k & Ht & ->). right. exists [], t, k. rewrite app_nil_r. split; [by left|done].
Qed.
End entries.

(** ** Paths as texts *)

Abbreviation str := (join_with slash).

Lemma path_ok_comps q : path_ok q → q ≠ [] → split_on slash (str q) = q.
Proof. intros (Hc & _) Hq. apply split_join_with; [done|]. eapply Forall_impl; [exact Hc|]. intros x Hx. apply Hx. Qed.

Lemma str_inj q q' : path_ok q → path_ok q' → q ≠ [] → q' ≠ [] → str q = str q' → q = q'.
Proof. intros Hq Hq' Hne Hne' Heq. by rewrite <-(path_ok_comps q), <-(path_ok_comps q'), Heq. Qed.

Lemma path_ok_parse q : path_ok q → q ≠ [] → parse (str q) = Ok (mkLayerPath (str q)).
Proof. intros Hq Hne. apply parse_self; [apply Hq|]. rewrite path_ok_comps by done. apply Hq. Qed.

Lemma path_ok_utf8 q : path_ok q → utf8_valid (str q) = true.
Proof. intros (_ & Hu & _). by apply utf8_valid_join. Qed.

Lemma path_ok_rel_str q : path_ok q → rel_str q = Ok (str q).
Proof. intros Hq. unfold rel_str. by rewrite path_ok_utf8. Qed.

(** A proper ancestor is a cut. *)
Definition masked (cuts : gset bytes) (q : path) : Prop := ∃ r x s, q = r ++ x :: s ∧ r ≠ [] ∧ str r ∈ cuts.

Lemma ancestor_masked_spec cuts q : path_ok q → q ≠ [] → ancestor_masked cuts (str q) = true ↔ masked cuts q.
Proof.
  intros Hq Hne. rewrite (ancestor_masked_is_proper_prefix cuts (str q) (mkLayerPath (str q))) by by apply path_ok_parse.
  unfold comps. cbn [as_str]. rewrite path_ok_comps by done. split.
  - intros (k & Hk & Hin). destruct (drop k q) as [|x s] eqn:Hdrop.
    { apply (f_equal length) in Hdrop. rewrite length_drop in Hdrop. simpl in Hdrop. lia. }
    exists (take k q), x, s. rewrite <-Hdrop, take_drop. split_and!; [done| |done]. intros Ht. apply (f_equal length) in Ht.
    rewrite length_take in Ht. simpl in Ht. lia.
  - intros (r & x & s & -> & Hr & Hin). exists (length r). rewrite take_app_length, length_app. split; [|done].
    destruct r; [done|]. simpl. lia.
Qed.

(** ** The passes of the fold *)

Lemma fold_result_snoc {A B E : Type} (g : A → B → result A E) l : ∀ a b,
  fold_result g a (l ++ [b]) = (let? a' := fold_result g a l in g a' b)%result.
Proof.
  induction l as [|x l IH]; intros a b; cbn [fold_result app result_bind]; [by destruct (g a b)|].
  destruct (g a x); cbn [result_bind]; [apply IH|done].
Qed.

Lemma or_insert_lookup {V : Type} k (v : V) m k' :
  bt_lookup k' (or_insert k v m) =
  match bt_lookup k' m with Some w => Some w | None => if decide (k' = k) then Some v else None end.
Proof.
  unfold or_insert. destruct (bt_lookup k m) eqn:Hk.
  - destruct (bt_lookup k' m) eqn:Hk'; [done|]. case_decide; congruence.
  - case_decide as Heq; [subst; by rewrite bt_lookup_insert, Hk|]. rewrite bt_lookup_insert_ne by done. by destruct (bt_lookup k' m).
Qed.

Section passes.
Context (K : gset bytes) (d : path).
Implicit Types (st : fold_state) (e : ProjectEntry).

Lemma whiteouts_spec W l :
  let st := foldl (fold_whiteout K) (W, []) l in
  (∀ s, s ∈ st.2 ↔ ∃ e p, e ∈ l ∧ whiteout_target e = Some p ∧ s = as_str p ∧ ancestor_masked K s = false) ∧
  ∀ s, bt_lookup s st.1 =
    match bt_lookup s W with Some w => Some w | None => if decide (s ∈ st.2) then Some DwDelete else None end.
Proof.
  induction l as [|e l [IHc IHw]] using rev_ind; cbn zeta.
  { split; [|intros s; cbn; destruct (bt_lookup s W); [done|by rewrite decide_False by apply not_elem_of_nil]]. intros s. split; [by intros []%elem_of_nil|]. by intros (? & ? & []%elem_of_nil & _). }
  rewrite foldl_app. cbn [foldl]. set (st := foldl _ _ l) in *. unfold fold_whiteout.
  assert (∀ s, (∃ e' p, e' ∈ l ++ [e] ∧ whiteout_target e' = Some p ∧ s = as_str p ∧ ancestor_masked K s = false) ↔
    s ∈ st.2 ∨ ∃ p, whiteout_target e = Some p ∧ s = as_str p ∧ ancestor_masked K s = false) as Hsnoc.
  { intros s. rewrite IHc. split.
    - intros (e' & p & He & Hr). apply elem_of_app in He as [He|He%list_elem_of_singleton]; [eauto|subst; eauto].
    - intros [(e' & p & He & Hr)|(p & Hr)]; [exists e', p|exists e, p]; rewrite elem_of_app, ?list_elem_of_singleton; eauto. }
  destruct (whiteout_target e) as [p|]; [|split; [|done]; intros s; rewrite Hsnoc; split; [by left|by intros [?|(? & ? & _)]]].
  destruct (ancestor_masked K (as_str p)) eqn:Hm.
  { split; [|done]. intros s. rewrite Hsnoc. split; [by left|]. intros [?|(? & [= <-] & -> & ?)]; [done|congruence]. }
  cbn [fst snd]. split.
  - intros s. rewrite Hsnoc, elem_of_app, list_elem_of_singleton. split.
    + intros [?| ->]; [by left|right; eauto].
    + intros [?|(? & [= <-] & -> & _)]; auto.
  - intros s. rewrite or_insert_lookup, IHw. destruct (bt_lookup s W); [done|].
    destruct (decide (s ∈ st.2)), (decide (s = as_str p)), (decide (s ∈ st.2 ++ [as_str p])); set_solver.
Qed.

(** An opaque marker of a directory. *)
Definition marker_entry e (t : path) : Prop :=
  e = mkEntry (d ++ t ++ [OPAQUE_MARKER]) (t ++ [OPAQUE_MARKER]) PkOpaque ∧ t ≠ [] ∧ path_ok t ∧ path_ok (t ++ [OPAQUE_MARKER]).

Definition opens (l : list ProjectEntry) : list bytes :=
  (λ e, str (parent (pe_rel e))) <$> filter (λ e, ancestor_masked K (str (pe_rel e)) = false) l.

(** A directory, or nothing, in the winners. *)
Definition widens (w : option DeltaWinner) : Prop := match w with None | Some (DwDirectory _) => True | _ => False end.

Definition opened (s : bytes) (w w' : option DeltaWinner) : Prop :=
  match w with
  | None => ∃ t, s = str t ∧ path_ok t ∧ t ≠ [] ∧ w' = Some (DwOpaqueDir (d ++ t))
  | Some (DwDirectory source) => w' = Some (DwOpaqueDir source)
  | w => w' = w
  end.

Lemma opened_again s w0 w1 w2 : opened s w0 w1 → opened s w1 w2 → opened s w0 w2 ∧ ¬ widens w1.
Proof. destruct w0 as [[]|]; simpl; [..|intros (t & ? & ? & ? & ->)]; try (intros ->); simpl; intros; subst; eauto 10. Qed.

(** One marker. *)
Definition mark st (t : path) : fold_state :=
  match bt_lookup (str t) st.1 with
  | None => (bt_insert (str t) (DwOpaqueDir (d ++ t)) st.1, st.2 ++ [str t])
  | Some (DwDirectory source) => (bt_insert (str t) (DwOpaqueDir source) st.1, st.2 ++ [str t])
  | Some _ => st
  end.

Lemma fold_opaque_spec st e t :
  marker_entry e t →
  fold_opaque K st e = Ok (if ancestor_masked K (str (t ++ [OPAQUE_MARKER])) then st else mark st t).
Proof.
  intros (-> & Ht & Hok & Hok'). unfold fold_opaque, mark. cbn [pe_rel pe_path]. rewrite path_ok_rel_str by done. cbn [result_bind].
  destruct (ancestor_masked _ _); [done|]. rewrite (assoc_L (++)), !parent_snoc, decide_False by done.
  rewrite path_ok_rel_str by done. cbn [result_bind]. rewrite path_ok_parse by done. cbn [map_err result_bind as_str].
  by destruct (bt_lookup (str t) st.1) as [[]|].
Qed.

Lemma mark_spec st t :
  path_ok t → t ≠ [] →
  opened (str t) (bt_lookup (str t) st.1) (bt_lookup (str t) (mark st t).1) ∧
  (∀ s, s ≠ str t → bt_lookup s (mark st t).1 = bt_lookup s st.1) ∧
  ∀ s, s ∈ (mark st t).2 ↔ s ∈ st.2 ∨ s = str t ∧ widens (bt_lookup s st.1).
Proof.
  intros Hok Hne. unfold mark. destruct (bt_lookup (str t) st.1) as [[]|] eqn:Hw; cbn [fst snd].
  3,6: split_and!; [rewrite bt_lookup_insert; cbn; eauto 10|intros; by rewrite bt_lookup_insert_ne|];
    intros s; rewrite elem_of_app, list_elem_of_singleton; split; [|tauto]; intros [?| ->]; [by left|right; split; [done|]; by rewrite Hw].
  all: split_and!; [by rewrite Hw|done|]; intros s; split; [by left|]; intros [?|[-> Hwi]]; [done|]; by rewrite Hw in Hwi.
Qed.

Lemma opens_snoc l e t :
  marker_entry e t →
  opens (l ++ [e]) = opens l ++ if ancestor_masked K (str (t ++ [OPAQUE_MARKER])) then [] else [str t].
Proof.
  intros (-> & _). unfold opens. rewrite filter_app, fmap_app. f_equal. rewrite filter_cons, filter_nil. cbn [pe_rel].
  case_decide as Hm; [by rewrite Hm; cbn; rewrite parent_snoc|]. by apply not_false_is_true in Hm as ->.
Qed.

Lemma opaques_spec st l :
  (∀ e, e ∈ l → ∃ t, marker_entry e t) →
  ∃ st', fold_result (fold_opaque K) st l = Ok st' ∧
    (∀ s, if decide (s ∈ opens l) then opened s (bt_lookup s st.1) (bt_lookup s st'.1)
          else bt_lookup s st'.1 = bt_lookup s st.1) ∧
    ∀ s, s ∈ st'.2 ↔ s ∈ st.2 ∨ s ∈ opens l ∧ widens (bt_lookup s st.1).
Proof.
  induction l as [|e l IH] using rev_ind; intros Hl.
  { exists st. split_and!; [done|intros s; by rewrite decide_False by apply not_elem_of_nil|].
    intros s. unfold opens. cbn. rewrite elem_of_nil. tauto. }
  destruct IH as (st1 & Hrun & Hw & Hc); [intros e' He'; apply Hl, elem_of_app; by left|].
  destruct (Hl e) as [t Ht]; [apply elem_of_app; right; by left|].
  rewrite fold_result_snoc, Hrun. cbn [result_bind]. rewrite (fold_opaque_spec st1 e t Ht), (opens_snoc l e t Ht). eexists. split; [done|].
  destruct (ancestor_masked K (str (t ++ [OPAQUE_MARKER]))); [by rewrite app_nil_r|].
  destruct Ht as (_ & Hne & Hok & _). destruct (mark_spec st1 t Hok Hne) as (Hm & Hmo & Hmc). split.
  - intros s. specialize (Hw s). destruct (decide (s = str t)) as [->|Hs].
    + rewrite decide_True by (apply elem_of_app; right; by left). case_decide; [by eapply opened_again|by rewrite <-Hw].
    + rewrite Hmo by done. case_decide as H1; case_decide as H2; try done; rewrite elem_of_app, list_elem_of_singleton in *; tauto.
  - intros s. specialize (Hw s). rewrite Hmc, Hc, elem_of_app, list_elem_of_singleton.
    destruct (decide (s = str t)) as [->|Hs]; [|tauto]. case_decide as Hin; [|rewrite Hw; tauto].
    destruct (opened_again _ _ _ _ Hw Hm) as [_ Hn]. tauto.
Qed.

(** A file, link or directory. *)
Definition content_entry e : Prop :=
  path_ok (pe_rel e) ∧ pe_rel e ≠ [] ∧ (pe_kind e = PkDirectory ∨ pe_kind e = PkFile ∨ pe_kind e = PkSymlink).

Definition content_winner e : DeltaWinner :=
  match pe_kind e with PkFile => DwFile (pe_path e) | PkSymlink => DwSymlink (pe_path e) | _ => DwDirectory (pe_path e) end.

(** The entries at a path that are not masked. *)
Definition open_at e (s : bytes) : Prop := s = str (pe_rel e) ∧ ancestor_masked K s = false.

Lemma fold_content_spec st e :
  content_entry e →
  fold_content K st e = Ok
    (if ancestor_masked K (str (pe_rel e)) then st
     else (or_insert (str (pe_rel e)) (content_winner e) st.1,
           st.2 ++ if decide (pe_kind e = PkDirectory) then [] else [str (pe_rel e)])).
Proof.
  intros (Hok & Hne & Hk). unfold fold_content, content_winner. rewrite path_ok_rel_str by done. cbn [result_bind].
  destruct (ancestor_masked _ _); [done|]. rewrite path_ok_parse by done. cbn [map_err result_bind as_str].
  by destruct Hk as [-> | [-> | ->]]; cbn; rewrite ?app_nil_r.
Qed.

Lemma contents_spec st l :
  (∀ e, e ∈ l → content_entry e) →
  ∃ st', fold_result (fold_content K) st l = Ok st' ∧
    (∀ s, match bt_lookup s st.1, bt_lookup s st'.1 with
          | Some w, w' => w' = Some w
          | None, Some w => ∃ e, e ∈ l ∧ open_at e s ∧ w = content_winner e
          | None, None => ∀ e, e ∈ l → ¬ open_at e s
          end) ∧
    ∀ s, s ∈ st'.2 ↔ s ∈ st.2 ∨ ∃ e, e ∈ l ∧ open_at e s ∧ pe_kind e ≠ PkDirectory.
Proof.
  induction l as [|e l IH] using rev_ind; intros Hl.
  { exists st. split_and!; [done| |].
    - intros s. destruct (bt_lookup s st.1); [done|]. by intros e []%elem_of_nil.
    - intros s. split; [by left|]. by intros [?|(? & []%elem_of_nil & _)]. }
  destruct IH as (st1 & Hrun & Hw & Hc); [intros e' He'; apply Hl, elem_of_app; by left|].
  rewrite fold_result_snoc, Hrun. cbn [result_bind]. rewrite fold_content_spec by (apply Hl, elem_of_app; right; by left). eexists. split; [done|].
  assert (∀ e', e' ∈ l ++ [e] ↔ e' ∈ l ∨ e' = e) as Hin by (intros e'; by rewrite elem_of_app, list_elem_of_singleton).
  destruct (ancestor_masked K (str (pe_rel e))) eqn:Hm.
  { assert (∀ s, ¬ open_at e s) as Hno by (intros s [-> ?]; congruence). split; intros s.
    - specialize (Hw s). destruct (bt_lookup s st.1), (bt_lookup s st1.1); [done..| |].
      + destruct Hw as (e' & ? & ?). exists e'. rewrite Hin. auto.
      + intros e' [He'| ->]%Hin; [by apply Hw|apply Hno].
    - rewrite Hc. setoid_rewrite Hin. split; intros [?|(e' & He' & ?)]; [by left|eauto|by left|]. destruct He' as [?| ->]; [eauto|]. destruct (Hno s). tauto. }
  assert (∀ s, open_at e s ↔ s = str (pe_rel e)) as Hop by (intros s; unfold open_at; naive_solver). cbn [fst snd]. split.
  - intros s. specialize (Hw s). rewrite or_insert_lookup. destruct (bt_lookup s st.1) as [w|]; [by rewrite Hw|].
    destruct (bt_lookup s st1.1) as [w|]; [destruct Hw as (e' & ? & ?); exists e'; rewrite Hin; auto|].
    case_decide as Hs; [exists e; rewrite Hin, Hop; auto|]. intros e' [He'| ->]%Hin; [by apply Hw|by rewrite Hop].
  - intros s. rewrite elem_of_app, Hc. setoid_rewrite Hin. case_decide as Hd; rewrite ?list_elem_of_singleton, ?elem_of_nil.
    + split; [intros [[?|(e' & ? & ?)]|[]]; eauto|]. intros [?|(e' & [?| ->] & ? & ?)]; [by left; left|left; right; eauto|done].
    + split.
      * intros [[?|(e' & ? & ?)]| ->]; [by left|eauto|right; exists e; rewrite Hop; auto].
      * intros [?|(e' & [?| ->] & Ho & ?)]; [by left; left|left; right; eauto|]. right. by apply Hop in Ho.
Qed.
End passes.

(** ** The fold of one layer *)

Section layer.
Context (f : fs) (d : path).
Hypothesis Hd : delta_layer f d.
Implicit Types (q r t : path).

Abbreviation at_ := (entry_at f d).

(** A whiteout of a path, by a device or by a marker beside it. *)
Definition white_at q : bool :=
  bool_decide (at_ q = Some PkKernelWhiteout) ||
  bool_decide (at_ (parent q ++ [LOGICAL_WHITEOUT_PREFIX ++ file_name q]) = Some PkLogicalWhiteout).

Definition opaque_at q : bool := bool_decide (at_ (q ++ [OPAQUE_MARKER]) = Some PkOpaque).

Lemma at_path_ok t k : at_ t = Some k → path_ok t.
Proof using Hd. intros (Hne & n & Hn & _)%entry_at_node. by apply (dl_names _ _ Hd) in Hn. Qed.

Lemma at_parent r c k : at_ (r ++ [c]) = Some k → r ≠ [] → at_ r = Some PkDirectory.
Proof using. intros Hk Hr. rewrite entry_at_app in Hk by done. by destruct (at_ r) as [[]|]. Qed.

Lemma at_logical t : at_ t = Some PkLogicalWhiteout → ∃ r x, t = r ++ [LOGICAL_WHITEOUT_PREFIX ++ x] ∧ ordinary x ∧ path_ok (r ++ [x]).
Proof using Hd.
  intros (Hne & n & Hn & Hk)%entry_at_node. destruct (exists_last Hne) as (r & c & ->). rewrite file_name_snoc in Hk.
  unfold kind_at in Hk. case_decide as Hop; [done|].
  destruct (starts_with LOGICAL_WHITEOUT_PREFIX c) eqn:Hs; [|by rewrite andb_false_r in Hk; repeat case_match].
  destruct (pure_name _ _ (dl_pure _ _ Hd) r c) as [Ho|[?|(x & -> & Hx)]]; [by rewrite Hn| |done|].
  { destruct Ho as (_ & _ & _ & Ho). congruence. }
  exists r, x. split_and!; [done..|]. apply (dl_marks _ _ Hd); [|done]. by rewrite Hn.
Qed.

Lemma at_opaque t : at_ t = Some PkOpaque → ∃ r, t = r ++ [OPAQUE_MARKER] ∧ marker_entry d (mkEntry (d ++ t) t PkOpaque) r.
Proof using Hd.
  intros Ht. pose proof (at_path_ok _ _ Ht) as Hok. pose proof Ht as (Hne & n & Hn & Hk)%entry_at_node.
  destruct (exists_last Hne) as (r & c & ->). rewrite file_name_snoc in Hk.
  assert (c = OPAQUE_MARKER) as ->. { unfold kind_at in Hk. case_decide as Hop; [done|]. by repeat case_match. }
  exists r. split; [done|]. assert (r ≠ []) as Hr.
  { intros ->. pose proof (dl_root _ _ Hd) as Hroot. unfold opaque, present in Hroot. apply bool_decide_eq_false in Hroot. destruct Hroot. by exists n. }
  split_and!; [done|done| |done]. by eapply at_path_ok, at_parent.
Qed.

Lemma target_kernel t : at_ t = Some PkKernelWhiteout → whiteout_target (mkEntry (d ++ t) t PkKernelWhiteout) = Some (mkLayerPath (str t)).
Proof using Hd.
  intros Ht. pose proof (at_path_ok _ _ Ht) as Hok. apply entry_at_node in Ht as [Hne _]. unfold whiteout_target. cbn [pe_kind pe_rel].
  by rewrite path_ok_utf8, path_ok_parse.
Qed.

Lemma target_logical r x :
  ordinary x → path_ok (r ++ [x]) → utf8_valid (LOGICAL_WHITEOUT_PREFIX ++ x) = true →
  whiteout_target (mkEntry (d ++ r ++ [LOGICAL_WHITEOUT_PREFIX ++ x]) (r ++ [LOGICAL_WHITEOUT_PREFIX ++ x]) PkLogicalWhiteout) =
    Some (mkLayerPath (str (r ++ [x]))).
Proof using.
  intros (Hx & _ & _ & Hp) Hok Hu. unfold whiteout_target. cbn [pe_kind pe_rel]. rewrite file_name_snoc, parent_snoc, Hu.
  rewrite (proj2 (strip_prefix_Some _ _ _) eq_refl). cbn [mbind option_bind]. rewrite bool_decide_false, Hp by done. cbn [orb].
  rewrite path_ok_utf8, path_ok_parse by (done || by destruct r). done.
Qed.

(** *** The entries, by kind *)

Context (es : list ProjectEntry).
Hypothesis Hes : ∀ e, e ∈ es ↔ ∃ t k, at_ t = Some k ∧ e = mkEntry (d ++ t) t k.

Abbreviation whites := (filter (λ e, pe_kind e = PkLogicalWhiteout ∨ pe_kind e = PkKernelWhiteout) es).
Abbreviation markers := (filter (λ e, pe_kind e = PkOpaque) es).
Abbreviation contents := (filter (λ e, pe_kind e = PkDirectory ∨ pe_kind e = PkFile ∨ pe_kind e = PkSymlink) es).

Lemma whites_spec q :
  path_ok q → q ≠ [] →
  (∃ e p, e ∈ whites ∧ whiteout_target e = Some p ∧ str q = as_str p) ↔ white_at q = true.
Proof using Hd Hes.
  intros Hok Hne. unfold white_at. rewrite orb_true_iff, !bool_decide_eq_true. split.
  - intros (e & p & [Hk (t & k & Ht & ->)%Hes]%list_elem_of_filter & Hp & Hq). cbn [pe_kind] in Hk. destruct Hk as [-> | ->].
    + right. destruct (at_logical t Ht) as (r & x & -> & Hx & Hrx). pose proof (at_path_ok _ _ Ht) as (_ & Hu & _).
      rewrite Forall_app, Forall_singleton in Hu. rewrite target_logical in Hp by (done || apply Hu). injection Hp as <-. cbn [as_str] in Hq.
      apply str_inj in Hq; [|done|done|done|by destruct r]. subst q. by rewrite parent_snoc, file_name_snoc.
    + left. pose proof (at_path_ok _ _ Ht) as Ht'. rewrite target_kernel in Hp by done. injection Hp as <-. cbn [as_str] in Hq.
      apply str_inj in Hq; [by subst|done|done|done|]. by apply entry_at_node in Ht as [? _].
  - intros [Hk|Hk].
    + exists (mkEntry (d ++ q) q PkKernelWhiteout), (mkLayerPath (str q)). rewrite target_kernel by done. split_and!; [|done..].
      apply list_elem_of_filter. split; [by right|]. apply Hes. eauto.
    + destruct (exists_last Hne) as (r & x & ->). rewrite parent_snoc, file_name_snoc in Hk.
      pose proof (at_path_ok _ _ Hk) as (_ & Hu & _). rewrite Forall_app, Forall_singleton in Hu.
      destruct (at_logical _ Hk) as (r' & x' & [-> Heq]%app_inj_tail & Hx & Hrx). apply (inj (app _)) in Heq as <-.
      eexists (mkEntry _ _ PkLogicalWhiteout), _. rewrite target_logical by (done || apply Hu). split_and!; [|done..].
      apply list_elem_of_filter. split; [by left|]. apply Hes. eauto.
Qed.

Lemma markers_ok e : e ∈ markers → ∃ t, marker_entry d e t.
Proof using Hd Hes.
  intros [Hk (t & k & Ht & ->)%Hes]%list_elem_of_filter. cbn in Hk. subst k. destruct (at_opaque t Ht) as (r & -> & Hr). eauto.
Qed.

(** The marker of a directory counts. *)
Definition opens_at (K : gset bytes) q : bool := opaque_at q && negb (ancestor_masked K (str (q ++ [OPAQUE_MARKER]))).

Lemma opens_spec K q : path_ok q → q ≠ [] → str q ∈ opens K markers ↔ opens_at K q = true.
Proof using Hd Hes.
  intros Hok Hne. unfold opens, opens_at, opaque_at. rewrite list_elem_of_fmap, andb_true_iff, negb_true_iff, bool_decide_eq_true. split.
  - intros (e & Hq & [Hm He]%list_elem_of_filter). destruct (markers_ok e He) as (t & -> & Ht & Htok & _). cbn [pe_rel] in *.
    rewrite parent_snoc in Hq. apply str_inj in Hq as ->; [|done..]. split; [|done].
    apply list_elem_of_filter in He as [_ (t' & k & Hk & [= _ <- <-])%Hes]. done.
  - intros [Hk Hm]. exists (mkEntry (d ++ q ++ [OPAQUE_MARKER]) (q ++ [OPAQUE_MARKER]) PkOpaque). cbn [pe_rel]. rewrite parent_snoc. split; [done|].
    apply list_elem_of_filter. split; [done|]. apply list_elem_of_filter. split; [done|]. apply Hes. eauto.
Qed.

Lemma contents_ok e : e ∈ contents → content_entry e.
Proof using Hd Hes.
  intros [Hk (t & k & Ht & ->)%Hes]%list_elem_of_filter. split_and!; [by eapply at_path_ok|by apply entry_at_node in Ht as [? _]|done].
Qed.

Lemma contents_at K q e :
  path_ok q → q ≠ [] →
  e ∈ contents ∧ open_at K e (str q) ↔
  ∃ k, at_ q = Some k ∧ e = mkEntry (d ++ q) q k ∧ (k = PkDirectory ∨ k = PkFile ∨ k = PkSymlink) ∧ ancestor_masked K (str q) = false.
Proof using Hd Hes.
  intros Hok Hne. split.
  - intros [[Hk (t & k & Ht & ->)%Hes]%list_elem_of_filter [Hq Hm]]. cbn [pe_rel pe_kind] in *.
    apply str_inj in Hq as <-; [eauto|done|by eapply at_path_ok|done|by apply entry_at_node in Ht as [? _]].
  - intros (k & Hk & -> & Hkind & Hm). split; [|done]. apply list_elem_of_filter. split; [done|]. apply Hes. eauto.
Qed.

Lemma white_not_content q : q ≠ [] → white_at q = true → at_ q = Some PkKernelWhiteout ∨ at_ q = None.
Proof using Hd.
  intros Hne. unfold white_at. rewrite orb_true_iff, !bool_decide_eq_true. intros [?|Hk]; [by left|right].
  destruct (exists_last Hne) as (r & x & ->). rewrite parent_snoc, file_name_snoc in Hk.
  apply entry_at_node in Hk as (_ & n & Hn & _). destruct (at_ (r ++ [x])) as [k|] eqn:Hk; [|done].
  apply entry_at_node in Hk as (_ & n' & Hn' & _). rewrite (clean_whiteout _ _ (pure_clean _ _ (dl_pure _ _ Hd))) in Hn'; [done|by rewrite Hn].
Qed.

Lemma opens_directory K q : q ≠ [] → opens_at K q = true → at_ q = Some PkDirectory.
Proof using. intros Hne [Ho _]%andb_true_iff. apply bool_decide_eq_true in Ho. by eapply at_parent. Qed.

Lemma opens_masked K q :
  path_ok q → q ≠ [] → ancestor_masked K (str q) = true → opens_at K q = false.
Proof using Hd.
  intros Hok Hne Hm. apply not_true_iff_false. intros [Ho Hno]%andb_true_iff. apply bool_decide_eq_true in Ho. apply negb_true_iff in Hno.
  assert (ancestor_masked K (str (q ++ [OPAQUE_MARKER])) = true); [|congruence].
  apply ancestor_masked_spec; [by eapply at_path_ok|by destruct q|]. apply ancestor_masked_spec in Hm as (r & x & s & -> & Hr & Hin); [|done..].
  exists r, x, (s ++ [OPAQUE_MARKER]). by rewrite <-(assoc_L (++)).
Qed.

(** *** What it does to a path *)

Definition winner_after (K : gset bytes) q (w : option DeltaWinner) : option DeltaWinner :=
  match w with
  | Some (DwDirectory source) => Some (if opens_at K q then DwOpaqueDir source else DwDirectory source)
  | Some w => Some w
  | None =>
      if ancestor_masked K (str q) then None
      else if white_at q then Some DwDelete
      else if opens_at K q then Some (DwOpaqueDir (d ++ q))
      else match at_ q with
      | Some PkFile => Some (DwFile (d ++ q))
      | Some PkSymlink => Some (DwSymlink (d ++ q))
      | Some PkDirectory => Some (DwDirectory (d ++ q))
      | _ => None
      end
  end.

Definition cuts_after (K : gset bytes) q (w : option DeltaWinner) : Prop :=
  ancestor_masked K (str q) = false ∧ (white_at q = true ∨ at_ q = Some PkFile ∨ at_ q = Some PkSymlink) ∨
  opens_at K q = true ∧ widens w.

(** The states after the three passes. *)
Record passed (W : list (bytes * DeltaWinner)) (K : gset bytes) (st1 st2 st3 : fold_state) : Prop := {
  pa_cut1 s : s ∈ st1.2 ↔ ∃ e p, e ∈ whites ∧ whiteout_target e = Some p ∧ s = as_str p ∧ ancestor_masked K s = false;
  pa_win1 s : bt_lookup s st1.1 =
    match bt_lookup s W with Some w => Some w | None => if decide (s ∈ st1.2) then Some DwDelete else None end;
  pa_win2 s : if decide (s ∈ opens K markers) then opened d s (bt_lookup s st1.1) (bt_lookup s st2.1)
              else bt_lookup s st2.1 = bt_lookup s st1.1;
  pa_cut2 s : s ∈ st2.2 ↔ s ∈ st1.2 ∨ s ∈ opens K markers ∧ widens (bt_lookup s st1.1);
  pa_win3 s : match bt_lookup s st2.1, bt_lookup s st3.1 with
              | Some w, w' => w' = Some w
              | None, Some w => ∃ e, e ∈ contents ∧ open_at K e s ∧ w = content_winner e
              | None, None => ∀ e, e ∈ contents → ¬ open_at K e s
              end;
  pa_cut3 s : s ∈ st3.2 ↔ s ∈ st2.2 ∨ ∃ e, e ∈ contents ∧ open_at K e s ∧ pe_kind e ≠ PkDirectory;
}.

Lemma fold_layer_passes W K : ∃ st1 st2 st3, fold_layer es W K = Ok st3 ∧ passed W K st1 st2 st3.
Proof using Hd Hes.
  unfold fold_layer. destruct (whiteouts_spec K W whites) as [Hc1 Hw1]. set (st1 := foldl _ _ whites) in *.
  destruct (opaques_spec K d st1 markers markers_ok) as (st2 & -> & Hw2 & Hc2). cbn [result_bind].
  destruct (contents_spec K st2 contents contents_ok) as (st3 & -> & Hw3 & Hc3). by exists st1, st2, st3.
Qed.

Section passed.
Context (W : list (bytes * DeltaWinner)) (K : gset bytes) (st1 st2 st3 : fold_state).
Hypothesis Hpa : passed W K st1 st2 st3.
Context (q : path).
Hypothesis Hok : path_ok q.
Hypothesis Hne : q ≠ [].

Lemma passed_white : str q ∈ st1.2 ↔ white_at q = true ∧ ancestor_masked K (str q) = false.
Proof using Hd Hes Hpa Hok Hne.
  rewrite (pa_cut1 _ _ _ _ _ Hpa), <-whites_spec by done. split; [intros (e & p & ? & ? & ? & ?); eauto 10|].
  intros [(e & p & ? & ? & ?) ?]. eauto 10.
Qed.

Lemma passed_open :
  str q ∈ opens K markers → opens_at K q = true ∧ bt_lookup (str q) st1.1 = bt_lookup (str q) W.
Proof using Hd Hes Hpa Hok Hne.
  intros Ho%opens_spec; [|done..]. split; [done|]. rewrite (pa_win1 _ _ _ _ _ Hpa). destruct (bt_lookup (str q) W); [done|].
  apply decide_False. intros [Hw _]%passed_white. apply white_not_content in Hw; [|done].
  apply opens_directory in Ho; [|done]. destruct Hw; congruence.
Qed.

Lemma passed_content k :
  ancestor_masked K (str q) = false → at_ q = Some k → k = PkDirectory ∨ k = PkFile ∨ k = PkSymlink →
  mkEntry (d ++ q) q k ∈ contents ∧ open_at K (mkEntry (d ++ q) q k) (str q).
Proof using Hd Hes Hok Hne. intros. apply contents_at; eauto. Qed.

Lemma passed_winner : bt_lookup (str q) st3.1 = winner_after K q (bt_lookup (str q) W).
Proof using Hd Hes Hpa Hok Hne.
  pose proof (pa_win1 _ _ _ _ _ Hpa (str q)) as Hw1. pose proof (pa_win2 _ _ _ _ _ Hpa (str q)) as Hw2.
  pose proof (pa_win3 _ _ _ _ _ Hpa (str q)) as Hw3. unfold winner_after.
  destruct (decide (str q ∈ opens K markers)) as [Ho|Ho].
  { destruct (passed_open Ho) as [Ho' Heq]. rewrite Heq in Hw2. pose proof (opens_directory _ _ Hne Ho') as Hdir. rewrite Ho'.
    destruct (bt_lookup (str q) W) as [[]|]; simpl in Hw2; [by rewrite Hw2 in Hw3..|].
    destruct Hw2 as (t & Ht & Htok & Htne & Hw2). apply str_inj in Ht as <-; [|done..]. rewrite Hw2 in Hw3. rewrite Hw3.
    destruct (ancestor_masked K (str q)) eqn:Hm; [by rewrite opens_masked in Ho'|].
    destruct (white_at q) eqn:Hwh; [|done]. apply white_not_content in Hwh; [|done]. destruct Hwh; congruence. }
  assert (opens_at K q = false) as -> by (apply not_true_iff_false; by rewrite <-opens_spec).
  rewrite Hw2, Hw1 in Hw3. destruct (bt_lookup (str q) W) as [[]|]; [done..|]. clear Hw1 Hw2. pose proof passed_white as Hc1.
  destruct (ancestor_masked K (str q)) eqn:Hm.
  - rewrite decide_False in Hw3 by (rewrite Hc1; naive_solver). destruct (bt_lookup (str q) st3.1); [|done].
    destruct Hw3 as (e & He & Hop & _). destruct (proj1 (contents_at K q e Hok Hne) (conj He Hop)) as (k & _ & _ & _ & ?). congruence.
  - destruct (white_at q) eqn:Hwh; [by rewrite decide_True in Hw3 by by apply Hc1|].
    rewrite decide_False in Hw3 by (rewrite Hc1; naive_solver). destruct (bt_lookup (str q) st3.1) as [w|].
    + destruct Hw3 as (e & He & Hop & ->). destruct (proj1 (contents_at K q e Hok Hne) (conj He Hop)) as (k & Hk & -> & Hkind & _).
      rewrite Hk. by destruct Hkind as [->|[-> | ->]].
    + destruct (at_ q) as [k|] eqn:Hk; [|done].
      destruct k; try done; (destruct (passed_content _ Hm Hk) as [Hin Hop]; [by auto|by destruct (Hw3 _ Hin)]).
Qed.

Lemma passed_cut : str q ∈ st3.2 ↔ cuts_after K q (bt_lookup (str q) W).
Proof using Hd Hes Hpa Hok Hne.
  unfold cuts_after. rewrite (pa_cut3 _ _ _ _ _ Hpa), (pa_cut2 _ _ _ _ _ Hpa), passed_white. split.
  - intros [[[? ?]|[[Ho ->]%passed_open Hwi]]|(e & He & Hop & Hk)]; [by left; auto|by right|].
    destruct (proj1 (contents_at K q e Hok Hne) (conj He Hop)) as (k & ? & -> & [->|[-> | ->]] & ?); [done|left; auto..].
  - intros [[Hm [?|[Hk|Hk]]]|[Ho Hwi]].
    + left. left. done.
    + right. destruct (passed_content _ Hm Hk) as [??]; [by auto|]. eexists. by split_and!.
    + right. destruct (passed_content _ Hm Hk) as [??]; [by auto|]. eexists. by split_and!.
    + left. right. apply opens_spec in Ho; [|done..]. split; [done|]. by rewrite (proj2 (passed_open Ho)).
Qed.
End passed.

(** Cuts are paths. *)
Lemma passed_paths W K st1 st2 st3 s :
  passed W K st1 st2 st3 → s ∈ st3.2 → ∃ t, s = str t ∧ t ≠ [] ∧ path_ok t.
Proof using Hd Hes.
  intros Hpa. rewrite (pa_cut3 _ _ _ _ _ Hpa), (pa_cut2 _ _ _ _ _ Hpa), (pa_cut1 _ _ _ _ _ Hpa).
  intros [[(e & p & [Hk (t & k & Ht & ->)%Hes]%list_elem_of_filter & Hp & -> & _)|[Ho _]]|(e & He & [-> _] & _)].
  - cbn [pe_kind] in Hk. pose proof (at_path_ok _ _ Ht) as Hok. destruct Hk as [-> | ->].
    + destruct (at_logical t Ht) as (r & x & -> & Hx & Hrx). destruct Hok as (_ & Hu & _). rewrite Forall_app, Forall_singleton in Hu.
      rewrite target_logical in Hp by (done || apply Hu). injection Hp as <-. exists (r ++ [x]). split_and!; [done|by destruct r|done].
    + rewrite target_kernel in Hp by done. injection Hp as <-. exists t. split_and!; [done|by apply entry_at_node in Ht as [? _]|done].
  - unfold opens in Ho. apply list_elem_of_fmap in Ho as (e & -> & [_ He]%list_elem_of_filter).
    destruct (markers_ok e He) as (t & -> & Ht & Htok & _). cbn [pe_rel]. rewrite parent_snoc. eauto.
  - apply contents_ok in He as (? & ? & _). eauto.
Qed.
End layer.

(** ** The verdict of a layer *)

Section verdict.
Context (f : fs).

(** The path of an entry that hides what lies below it. *)
Definition cutting (d r : path) : Prop :=
  white_at f d r = true ∨ entry_at f d r = Some PkFile ∨ entry_at f d r = Some PkSymlink ∨ opaque_at f d r = true.

Definition node_kind (n : node) : ProjectEntryKind :=
  match n with NFile _ _ _ => PkFile | NSymlink _ => PkSymlink | NDir _ _ => PkDirectory | _ => PkOpaque end.

Lemma kind_ordinary c n : ordinary c → kind_at c n = if whiteout_node n then Some PkKernelWhiteout else
  match n with NSymlink _ => Some PkSymlink | NDir _ _ => Some PkDirectory | NFile _ _ _ => Some PkFile | _ => None end.
Proof.
  intros Hc. unfold kind_at. rewrite decide_False by by apply ordinary_not_opaque. destruct Hc as (_ & _ & _ & ->). by rewrite andb_false_r.
Qed.

Lemma kind_marker c n : ordinary c → kind_at (LOGICAL_WHITEOUT_PREFIX ++ c) n = Some PkLogicalWhiteout.
Proof.
  intros Hc. unfold kind_at. rewrite decide_False by by apply ordinary_not_marker.
  rewrite bool_decide_true, (proj2 (starts_with_app _ _)); [done|eauto|]. destruct Hc as (Hc & _). rewrite length_app. destruct c; [done|simpl; lia].
Qed.

(** One name. *)
Lemma slot_entries d c :
  layer_clean f d → ordinary c →
  match slot_at f d c with
  | Nothing => white_at f d [c] = false ∧ entry_at f d [c] = None
  | Hidden => white_at f d [c] = true ∧ entry_at f d [c] ≠ Some PkDirectory
  | Here n => white_at f d [c] = false ∧ f !! (d ++ [c]) = Some n ∧ entry_at f d [c] = Some (node_kind n) ∧ node_kind n ≠ PkOpaque
  end.
Proof.
  intros Hcl Hc. unfold slot_at, present, white_at. change (parent [c]) with (@nil bytes). change (file_name [c]) with c. cbn [app entry_at].
  destruct (f !! (d ++ [LOGICAL_WHITEOUT_PREFIX ++ c])) as [m|] eqn:Hm.
  { rewrite bool_decide_true by by eexists. cbn [mbind option_bind]. rewrite kind_marker by done. rewrite orb_true_r. split; [done|].
    assert (f !! (d ++ [c]) = None) as ->; [|done]. apply (clean_whiteout _ _ Hcl []). by exists m. }
  rewrite bool_decide_false by by intros []. cbn [mbind option_bind]. rewrite (bool_decide_false (None = _)), orb_false_r by done.
  destruct (f !! (d ++ [c])) as [n|] eqn:Hn; cbn [mbind option_bind]; [|by rewrite bool_decide_false].
  rewrite kind_ordinary by done. destruct (whiteout_node n) eqn:Hw; [by rewrite bool_decide_true|].
  apply (clean_special _ _ Hcl [c]) in Hn as [Ho Hr]. destruct n; try done; try (rewrite bool_decide_false by done; done).
  by rewrite (Hr _ eq_refl) in Hw.
Qed.

(** Below a name. *)
Lemma below_entries d c q :
  q ≠ [] →
  if decide (entry_at f d [c] = Some PkDirectory)
  then white_at f d (c :: q) = white_at f (d ++ [c]) q ∧ entry_at f d (c :: q) = entry_at f (d ++ [c]) q ∧
       opaque_at f d (c :: q) = opaque_at f (d ++ [c]) q
  else white_at f d (c :: q) = false ∧ entry_at f d (c :: q) = None ∧ opaque_at f d (c :: q) = false.
Proof.
  intros Hq. assert (∀ t, t ≠ [] → entry_at f d (c :: t) = if decide (entry_at f d [c] = Some PkDirectory) then entry_at f (d ++ [c]) t else None) as He.
  { intros t Ht. change (c :: t) with ([c] ++ t). rewrite entry_at_app by done. destruct (entry_at f d [c]) as [[]|]; done. }
  unfold white_at, opaque_at. destruct (exists_last Hq) as (r & x & ->).
  change (c :: r ++ [x]) with ((c :: r) ++ [x]). rewrite !parent_snoc, !file_name_snoc.
  change ((c :: r) ++ [x]) with (c :: (r ++ [x])). change ((c :: r) ++ [LOGICAL_WHITEOUT_PREFIX ++ x]) with (c :: (r ++ [LOGICAL_WHITEOUT_PREFIX ++ x])).
  change ((c :: r ++ [x]) ++ [OPAQUE_MARKER]) with (c :: ((r ++ [x]) ++ [OPAQUE_MARKER])).
  rewrite (He (r ++ [x])), (He (r ++ [LOGICAL_WHITEOUT_PREFIX ++ x])), (He ((r ++ [x]) ++ [OPAQUE_MARKER])) by by destruct r.
  by destruct (decide (entry_at f d [c] = Some PkDirectory)).
Qed.

Lemma opaque_at_spec d q : q ≠ [] → entry_at f d q = Some PkDirectory → opaque_at f d q = opaque f (d ++ q).
Proof.
  intros Hne Hk. unfold opaque_at, opaque, present. rewrite entry_at_app, Hk by done. cbn [entry_at]. apply bool_decide_ext.
  destruct (f !! _) as [n|]; [|split; [done|by intros []]]. cbn. unfold kind_at. rewrite decide_True by done. split; [eauto|done].
Qed.

Lemma opaque_at_directory d q : q ≠ [] → opaque_at f d q = true → entry_at f d q = Some PkDirectory.
Proof. intros Hne Ho%bool_decide_eq_true. by eapply at_parent. Qed.

Lemma below_cutting d c r : r ≠ [] → cutting d (c :: r) ↔ entry_at f d [c] = Some PkDirectory ∧ cutting (d ++ [c]) r.
Proof.
  intros Hr. pose proof (below_entries d c r Hr) as Hb. unfold cutting.
  case_decide; destruct Hb as (-> & -> & ->); naive_solver.
Qed.

Definition layer_says (d q : path) (v : verdict) : Prop :=
  match v with
  | VFound n => white_at f d q = false ∧ f !! (d ++ q) = Some n ∧ entry_at f d q = Some (node_kind n) ∧ node_kind n ≠ PkOpaque
  | VHidden =>
      white_at f d q = true ∨
      white_at f d q = false ∧ entry_at f d q = None ∧ ∃ r x s, q = r ++ x :: s ∧ r ≠ [] ∧ cutting d r
  | VNext =>
      white_at f d q = false ∧ entry_at f d q = None ∧ ∀ r x s, q = r ++ x :: s → r ≠ [] → ¬ cutting d r
  end.

Lemma judge_says q : ∀ d, layer_pure f d → Forall ordinary q → q ≠ [] → layer_says d q (judge f d q).
Proof.
  induction q as [|c q IH]; intros d Hp Hord Hne; [done|]. apply Forall_cons in Hord as [Hc Hord].
  pose proof (slot_entries d c (pure_clean _ _ Hp) Hc) as Hs. destruct q as [|c' q].
  { cbn [judge]. destruct (slot_at f d c); [|by left; apply Hs|done]. split_and!; [apply Hs..|]. intros [|y [|]] x s ?; simplify_eq/=; done. }
  pose proof (below_cutting d c) as Hcut. pose proof (below_entries d c (c' :: q)) as Hb. specialize (Hb ltac:(done)). rewrite judge_cons2.
  case_decide as Hdir; destruct Hb as (Hb1 & Hb2 & _).
  - destruct (slot_at f d c) as [| |n]; [destruct Hs; congruence|by destruct Hs|]. destruct Hs as (Hw & Hn & He & _).
    rewrite Hdir in He. destruct n as [| |m xs| |]; try done. specialize (IH (d ++ [c]) (layer_pure_app _ _ _ Hp) Hord ltac:(done)).
    unfold layer_says in *. rewrite Hb1, Hb2.
    destruct (judge f (d ++ [c]) (c' :: q)) as [n| |].
    + by rewrite <-(assoc_L (++)) in IH.
    + destruct IH as [?|(? & ? & r & x & s & Hq & Hr & Hrc)]; [by left|]. right. split_and!; [done..|].
      exists (c :: r), x, s. rewrite Hq. split_and!; [done..|]. by apply Hcut.
    + destruct IH as (? & ? & Hno). destruct (opaque f (d ++ [c])) eqn:Hop.
      * right. split_and!; [done..|]. exists [c], c', q. split_and!; [done..|]. do 3 right. by rewrite opaque_at_spec.
      * split_and!; [done..|]. intros [|y [|y' r]] x s Hq Hr; [done|..]; cbn [app] in Hq; simplify_eq.
        -- unfold cutting. rewrite Hw, Hdir, opaque_at_spec, Hop by done. naive_solver.
        -- rewrite Hcut by done. intros [_ Hrc]. by apply (Hno (y' :: r) x s).
  - unfold layer_says. rewrite Hb1, Hb2.
    assert (∀ r x s, c :: c' :: q = r ++ x :: s → r ≠ [] → cutting d r → r = [c]) as Hone.
    { intros [|y [|y' r]] x s Hq Hr Hrc; [done|..]; cbn [app] in Hq; simplify_eq; [done|]. apply Hcut in Hrc as [? _]; done. }
    destruct (slot_at f d c) as [| |n].
    + split_and!; [done..|]. intros r x s Hq Hr Hrc. rewrite (Hone r x s) in Hrc by done. destruct Hs as [Hw He].
      unfold cutting in Hrc. rewrite Hw, He in Hrc. destruct Hrc as [?|[?|[?|?%opaque_at_directory]]]; [done..|congruence|done].
    + right. split_and!; [done..|]. exists [c], c', q. split_and!; [done..|]. by left; apply Hs.
    + destruct Hs as (Hw & Hn & He & Hno). assert (layer_says d (c :: c' :: q) VHidden) as Hh.
      { right. split_and!; [done..|]. exists [c], c', q. split_and!; [done..|]. unfold cutting. rewrite He.
        destruct n; [by auto..|by destruct Hdir|done|done]. }
      unfold layer_says in Hh. rewrite Hb1, Hb2 in Hh. destruct n; [exact Hh..|by destruct Hdir|exact Hh|exact Hh].
Qed.
End verdict.

(** ** The fold of the stack *)

Lemma masked_prefix K r s : masked K r → masked K (r ++ s).
Proof. intros (a & x & b & -> & Ha & Hin). exists a, x, (b ++ s). by rewrite <-(assoc_L (++)). Qed.

Lemma masked_mono K K' q : K ⊆ K' → masked K q → masked K' q.
Proof. intros Hsub (a & x & b & -> & Ha & Hin). exists a, x, b. set_solver. Qed.

Section stack.
Context (f : fs).

Fixpoint stack_verdict (ds : list path) (q : path) : verdict :=
  match ds with
  | [] => VNext
  | d :: ds => match judge f d q with VNext => stack_verdict ds q | v => v end
  end.

Lemma stack_verdict_snoc ds d q :
  stack_verdict (ds ++ [d]) q = match stack_verdict ds q with VNext => judge f d q | v => v end.
Proof. induction ds as [|d' ds IH]; cbn [stack_verdict app]; [by destruct (judge f d q)|]. by destruct (judge f d' q). Qed.

Lemma overlay_stack ds base q : q ≠ [] →
  overlay f (ds ++ base) q = match stack_verdict ds q with VFound n => Some n | VHidden => None | VNext => overlay f base q end.
Proof. intros Hq. induction ds as [|d ds IH]; [done|]. cbn [app stack_verdict]. rewrite overlay_cons by done. by destruct (judge f d q). Qed.

(** A path that can be looked up. *)
Definition good (q : path) : Prop := q ≠ [] ∧ path_ok q ∧ Forall ordinary q.

Definition winner_says (w : option DeltaWinner) (v : verdict) : Prop :=
  match w with
  | Some (DwFile source) => ∃ n, v = VFound n ∧ f !! source = Some n ∧ node_kind n = PkFile
  | Some (DwSymlink source) => ∃ n, v = VFound n ∧ f !! source = Some n ∧ node_kind n = PkSymlink
  | Some (DwDirectory source) | Some (DwOpaqueDir source) => ∃ n, v = VFound n ∧ f !! source = Some n ∧ node_kind n = PkDirectory
  | Some DwDelete => v = VHidden
  | None => True
  end.

Definition cutting_winner (w : option DeltaWinner) : bool :=
  match w with None | Some (DwDirectory _) => false | _ => true end.

Record folded (ds : list path) (W : list (bytes * DeltaWinner)) (K : gset bytes) : Prop := {
  fo_win q : good q → winner_says (bt_lookup (str q) W) (stack_verdict ds q);
  fo_none q : good q → bt_lookup (str q) W = None → stack_verdict ds q = if ancestor_masked K (str q) then VHidden else VNext;
  fo_cut q : good q → cutting_winner (bt_lookup (str q) W) = true → str q ∈ K;
  fo_kept q : good q → str q ∈ K → is_Some (bt_lookup (str q) W);
}.

Lemma folded_nil : folded [] [] ∅.
Proof.
  split; [done| |done|]; [|set_solver]. intros q (Hne & Hok & _) _. destruct (ancestor_masked ∅ (str q)) eqn:Hm; [|done].
  apply ancestor_masked_spec in Hm as (r & x & s & _ & _ & Hin); [|done..]. set_solver.
Qed.

Section step.
Context (d : path) (ds : list path) (W W' : list (bytes * DeltaWinner)) (K : gset bytes) (c : list bytes).
Hypothesis Hd : delta_layer f d.
Hypothesis Hfo : folded ds W K.
Hypothesis Hw : ∀ q, q ≠ [] → path_ok q → bt_lookup (str q) W' = winner_after f d K q (bt_lookup (str q) W).
Hypothesis Hc : ∀ q, q ≠ [] → path_ok q → str q ∈ c ↔ cuts_after f d K q (bt_lookup (str q) W).
Hypothesis Hpath : ∀ s, s ∈ c → ∃ t, s = str t ∧ t ≠ [] ∧ path_ok t.

Abbreviation K' := (list_to_set c ∪ K).

(** The paths that the layer cuts are in the layer. *)
Lemma cutting_path_ok r : r ≠ [] → cutting f d r → path_ok r.
Proof using Hd.
  intros Hr [Hw'|[Hk|[Hk|Ho]]]; [|by eapply at_path_ok..|].
  - unfold white_at in Hw'. apply orb_true_iff in Hw' as [Hk%bool_decide_eq_true|Hk%bool_decide_eq_true]; [by eapply at_path_ok|].
    destruct (exists_last Hr) as (a & x & ->). rewrite parent_snoc, file_name_snoc in Hk.
    destruct (at_logical f d Hd _ Hk) as (a' & x' & [-> Heq]%app_inj_tail & _ & Hok). by apply (inj (app _)) in Heq as <-.
  - apply bool_decide_eq_true in Ho. by eapply at_path_ok, at_parent.
Qed.

(** Without a cut above it, a path of the layer that hides becomes a cut. *)
Lemma cutting_is_cut r x s :
  good (r ++ x :: s) → r ≠ [] → ¬ masked K (r ++ x :: s) → cutting f d r → str r ∈ c.
Proof using Hd Hfo Hc.
  intros (_ & Hok & Hord) Hr Hm Hcut. pose proof (cutting_path_ok r Hr Hcut) as Hrok. apply Hc; [done..|].
  assert (str r ∉ K) as Hin by (intros Hin; apply Hm; by exists r, x, s).
  assert (¬ masked K r) as Hmr by (intros Hmr; by apply Hm, masked_prefix).
  assert (ancestor_masked K (str r) = false) as Hmr' by (apply not_true_iff_false; by rewrite ancestor_masked_spec).
  destruct Hcut as [?|[?|[?|Ho]]]; [left; auto..|]. right. split.
  - unfold opens_at. rewrite Ho. apply negb_true_iff, not_true_iff_false. apply bool_decide_eq_true in Ho.
    rewrite ancestor_masked_spec; [|by eapply at_path_ok|by destruct r]. intros (a & y & b & Heq & Ha & Hina).
    destruct b as [|b' b _] using rev_ind; [apply app_inj_tail in Heq as [-> _]; done|].
    change (y :: b ++ [b']) with ((y :: b) ++ [b']) in Heq. rewrite (assoc_L (++)) in Heq. apply app_inj_tail in Heq as [-> _].
    apply Hmr. by exists a, y, b.
  - pose proof (fo_cut _ _ _ Hfo r) as Hfc. apply Forall_app in Hord as [Hord _].
    destruct (bt_lookup (str r) W) as [[]|]; try done; destruct Hin; by apply Hfc.
Qed.

(** A cut of the new set is an old one or a path that hides. *)
Lemma cut_is_cutting q : good q → masked K' q → masked K q ∨ ∃ r x s, q = r ++ x :: s ∧ r ≠ [] ∧ cutting f d r.
Proof using Hc Hpath.
  intros (_ & (Hcomp & _) & _) (r & x & s & -> & Hr & [Hin%elem_of_list_to_set|Hin]%elem_of_union); [|left; by exists r, x, s].
  right. exists r, x, s. split_and!; [done..|]. destruct (Hpath _ Hin) as (t & Ht & Htne & Htok).
  assert (r = t) as <-.
  { rewrite <-(path_ok_comps t), <-Ht by done. symmetry. apply split_join_with; [done|].
    apply Forall_app in Hcomp as [Hcomp _]. eapply Forall_impl; [exact Hcomp|]. intros y Hy. apply Hy. }
  apply Hc in Hin as [[_ [?|[?|?]]]|[Ho _]]; [..|done|done]; unfold cutting; [by auto..|].
  apply andb_true_iff in Ho as [? _]. by auto.
Qed.

Lemma masked_after q : good q → ancestor_masked K (str q) = false →
  ancestor_masked K' (str q) = true ↔ ∃ r x s, q = r ++ x :: s ∧ r ≠ [] ∧ cutting f d r.
Proof using Hd Hfo Hc Hpath.
  intros Hq Hm. pose proof Hq as (Hne & Hok & _). assert (¬ masked K q) as Hm' by by rewrite <-ancestor_masked_spec, Hm.
  rewrite ancestor_masked_spec by done. split.
  - intros [?|?]%cut_is_cutting; done.
  - intros (r & x & s & -> & Hr & Hcut). exists r, x, s. split_and!; [done..|]. apply elem_of_union_l, elem_of_list_to_set.
    by eapply cutting_is_cut.
Qed.

Lemma masked_still q : good q → ancestor_masked K (str q) = true → ancestor_masked K' (str q) = true.
Proof using. intros (Hne & Hok & _). rewrite !ancestor_masked_spec by done. apply masked_mono, union_subseteq_r. Qed.

(** A path that had no winner. *)
Lemma new_winner q :
  good q → bt_lookup (str q) W = None →
  winner_says (bt_lookup (str q) W') (stack_verdict (ds ++ [d]) q) ∧
  (bt_lookup (str q) W' = None → stack_verdict (ds ++ [d]) q = if ancestor_masked K' (str q) then VHidden else VNext).
Proof using Hd Hfo Hw Hc Hpath.
  intros Hq HW. pose proof (fo_none _ _ _ Hfo q Hq HW) as Hv. pose proof Hq as (Hne & Hok & Hord).
  rewrite stack_verdict_snoc, Hv, Hw, HW by done. cbn [winner_after]. destruct (ancestor_masked K (str q)) eqn:Hm.
  { split; [done|]. intros _. by rewrite masked_still. }
  pose proof (masked_after q Hq Hm) as Hma. pose proof (judge_says f q d (dl_pure _ _ Hd) Hord Hne) as Hs.
  pose proof (opens_directory f d K q Hne) as Hod. destruct (judge f d q) as [n| |].
  - destruct Hs as (-> & Hn & He & Hk). rewrite He in Hod |- *.
    destruct (opens_at f d K q); [split; [|done]; exists n; split_and!; [done..|]; specialize (Hod eq_refl); congruence|].
    split; [|by destruct n]. destruct n; try done; cbn; eauto.
  - destruct Hs as [->|(-> & He & Hcut)]; [done|]. rewrite He in Hod |- *. destruct (opens_at f d K q); [by specialize (Hod eq_refl)|].
    split; [done|]. intros _. by rewrite (proj2 Hma Hcut).
  - destruct Hs as (-> & He & Hno). rewrite He in Hod |- *. destruct (opens_at f d K q); [by specialize (Hod eq_refl)|].
    split; [done|]. intros _. destruct (ancestor_masked K' (str q)); [|done].
    destruct (proj1 Hma eq_refl) as (r & x & s & Heq & Hr & Hcut). by destruct (Hno r x s).
Qed.

Lemma old_winner q w : good q → bt_lookup (str q) W = Some w → is_Some (bt_lookup (str q) W').
Proof using Hw. intros (Hne & Hok & _) HW. rewrite Hw, HW by done. by destruct w. Qed.

Lemma cut_winner q : good q → str q ∈ c → is_Some (bt_lookup (str q) W').
Proof using Hd Hw Hc.
  intros Hq Hin. pose proof Hq as (Hne & Hok & _). destruct (bt_lookup (str q) W) as [w|] eqn:HW; [by eapply old_winner|].
  apply Hc in Hin as [[Hm Hk]|[Ho _]]; [| |done..]; rewrite Hw, HW by done; cbn [winner_after].
  - rewrite Hm. destruct (white_at f d q); [by eauto|]. destruct (opens_at f d K q); [by eauto|]. by destruct Hk as [?|[-> | ->]]; eauto.
  - destruct (ancestor_masked K (str q)) eqn:Hm; [by rewrite (opens_masked f d) in Ho|]. rewrite Ho. destruct (white_at f d q); by eauto.
Qed.

Lemma cut_after q : good q → cutting_winner (bt_lookup (str q) W') = true → str q ∈ K'.
Proof using Hfo Hw Hc.
  intros Hq. pose proof Hq as (Hne & Hok & _). pose proof (fo_cut _ _ _ Hfo q Hq) as Hcut. rewrite Hw by done.
  destruct (decide (str q ∈ K)) as [?|Hin]; [intros _; by apply elem_of_union_r|]. intros Hcw. apply elem_of_union_l, elem_of_list_to_set, Hc; [done..|].
  unfold cuts_after. destruct (bt_lookup (str q) W) as [[]|]; cbn [winner_after cutting_winner widens] in *; try (by destruct Hin; apply Hcut).
  - destruct (opens_at f d K q); [by right|done].
  - destruct (ancestor_masked K (str q)); [done|]. destruct (white_at f d q); [by auto|]. destruct (opens_at f d K q); [by auto|].
    destruct (entry_at f d q) as [[]|]; try done; auto.
Qed.

Lemma folded_step : folded (ds ++ [d]) W' K'.
Proof using Hd Hfo Hw Hc Hpath.
  split.
  - intros q Hq. destruct (bt_lookup (str q) W) as [w|] eqn:HW; [|by apply new_winner].
    pose proof (fo_win _ _ _ Hfo q Hq) as Hs. pose proof Hq as (Hne & Hok & _). rewrite stack_verdict_snoc, Hw, HW by done. rewrite HW in Hs.
    destruct w; cbn [winner_after winner_says] in *; try (by rewrite Hs); destruct Hs as (n & -> & Hs); cbn; try by eauto.
    destruct (opens_at f d K q); cbn; eauto.
  - intros q Hq HW'. apply new_winner; [done| |done]. destruct (bt_lookup (str q) W) eqn:HW; [|done].
    apply old_winner in HW as [? ?]; [congruence|done].
  - intros q Hq. by apply cut_after.
  - intros q Hq [Hin%elem_of_list_to_set|Hin]%elem_of_union; [by apply cut_winner|].
    destruct (fo_kept _ _ _ Hfo q Hq Hin) as [w HW]. by eapply old_winner.
Qed.

(** *** Cuts that the winners show *)

(** The layer removes or replaces what older layers hold at the path. *)
Definition removes (q : path) : Prop :=
  white_at f d q = true ∨ entry_at f d q = Some PkFile ∨ entry_at f d q = Some PkSymlink.

Lemma new_directory q source :
  good q → bt_lookup (str q) W' = Some (DwDirectory source) →
  bt_lookup (str q) W = Some (DwDirectory source) ∨ dir_at f (d ++ q) = true ∧ opaque f (d ++ q) = false.
Proof using Hd Hfo Hw.
  intros Hq. pose proof Hq as (Hne & Hok & _). rewrite Hw by done.
  destruct (bt_lookup (str q) W) as [[]|] eqn:HW; cbn [winner_after]; try done; [destruct (opens_at f d K q); [done|by auto]|].
  destruct (ancestor_masked K (str q)) eqn:Hm; [done|]. destruct (white_at f d q); [done|]. destruct (opens_at f d K q) eqn:Ho; [done|].
  destruct (entry_at f d q) as [[]|] eqn:Hk; try done. intros _. right. split.
  - apply entry_at_node in Hk as (_ & n & Hn & Hk). unfold dir_at. rewrite Hn. by eapply kind_directory.
  - rewrite <-opaque_at_spec by done. apply not_true_iff_false. intros Hop. unfold opens_at in Ho. rewrite Hop in Ho. cbn in Ho.
    apply negb_false_iff in Ho. apply bool_decide_eq_true in Hop.
    apply ancestor_masked_spec in Ho as (r & x & s & Heq & Hr & Hin); [|by eapply at_path_ok|by destruct q].
    destruct s as [|y s _] using rev_ind.
    + apply app_inj_tail in Heq as [-> _]. destruct (fo_kept _ _ _ Hfo r Hq Hin). congruence.
    + change (x :: s ++ [y]) with ((x :: s) ++ [y]) in Heq. rewrite (assoc_L (++)) in Heq. apply app_inj_tail in Heq as [-> _].
      assert (ancestor_masked K (str (r ++ x :: s)) = true); [|congruence]. apply ancestor_masked_spec; [done..|]. by exists r, x, s.
Qed.

Lemma new_cut q :
  good q → str q ∈ c → cutting_winner (bt_lookup (str q) W') = true ∨ (∃ source, bt_lookup (str q) W = Some (DwDirectory source)) ∧ removes q.
Proof using Hd Hw Hc.
  intros Hq Hin. pose proof Hq as (Hne & Hok & _). apply Hc in Hin; [|done..]. rewrite Hw by done.
  destruct Hin as [[Hm Hk]|[Ho Hwi]].
  - destruct (bt_lookup (str q) W) as [[]|]; cbn [winner_after]; [by auto..| | | |]; [|by auto..|].
    + destruct (opens_at f d K q); [by left|]. right. split; [eauto|done].
    + left. rewrite Hm. destruct (white_at f d q); [done|]. destruct (opens_at f d K q); [done|]. by destruct Hk as [?|[-> | ->]].
  - left. destruct (bt_lookup (str q) W) as [[]|]; cbn [winner_after]; try done; [by rewrite Ho|].
    destruct (ancestor_masked K (str q)) eqn:Hm; [by rewrite (opens_masked f d) in Ho|]. rewrite Ho. by destruct (white_at f d q).
Qed.
End step.

Record tight (ds : list path) (W : list (bytes * DeltaWinner)) (K : gset bytes) : Prop := {
  ti_plain q source : good q → bt_lookup (str q) W = Some (DwDirectory source) →
    ∃ d, d ∈ ds ∧ dir_at f (d ++ q) = true ∧ opaque f (d ++ q) = false;
  ti_cut q : good q → str q ∈ K → cutting_winner (bt_lookup (str q) W) = true;
}.

(** No layer has a plain directory where an older one removes or replaces. *)
Definition plain_free (ds : list path) : Prop :=
  ∀ a e b d c q, ds = a ++ e :: b ++ d :: c → good q → dir_at f (e ++ q) = true → opaque f (e ++ q) = false → ¬ removes d q.

Lemma tight_step d ds W W' K c :
  delta_layer f d → folded ds W K → tight ds W K →
  (∀ q, q ≠ [] → path_ok q → bt_lookup (str q) W' = winner_after f d K q (bt_lookup (str q) W)) →
  (∀ q, q ≠ [] → path_ok q → str q ∈ c ↔ cuts_after f d K q (bt_lookup (str q) W)) →
  (∀ e q, e ∈ ds → good q → dir_at f (e ++ q) = true → opaque f (e ++ q) = false → ¬ removes d q) →
  tight (ds ++ [d]) W' (list_to_set c ∪ K).
Proof.
  intros Hd Hfo Hti Hw Hc Hfree. split.
  - intros q source Hq Hs. destruct (new_directory d ds W W' K Hd Hfo Hw q source Hq Hs) as [Hold|?].
    + destruct (ti_plain _ _ _ Hti q source Hq Hold) as (e & He & ?). exists e. split; [apply elem_of_app; by left|done].
    + exists d. split; [apply elem_of_app; right; by left|done].
  - intros q Hq [Hin%elem_of_list_to_set|Hin]%elem_of_union.
    + destruct (new_cut d W W' K c Hd Hw Hc q Hq Hin) as [?|[[source Hs] Hrm]]; [done|].
      destruct (ti_plain _ _ _ Hti q source Hq Hs) as (e & He & ? & ?). by destruct (Hfree e q).
    + pose proof (ti_cut _ _ _ Hti q Hq Hin) as Hcw. destruct Hq as (Hne & Hok & _). rewrite Hw by done.
      by destruct (bt_lookup (str q) W) as [[]|].
Qed.

(** Where winners come from. *)
Definition mentioned (d q : path) : Prop := white_at f d q = true ∨ is_Some (entry_at f d q).

Record sourced (ds : list path) (W : list (bytes * DeltaWinner)) : Prop := {
  so_any q w : good q → bt_lookup (str q) W = Some w → ∃ d, d ∈ ds ∧ mentioned d q;
  so_opaque q source : good q → bt_lookup (str q) W = Some (DwOpaqueDir source) → ∃ d, d ∈ ds ∧ opaque_at f d q = true;
}.

Lemma sourced_older ds d W : sourced ds W → ∀ q w, good q → bt_lookup (str q) W = Some w →
  (∃ d', d' ∈ ds ++ [d] ∧ mentioned d' q) ∧ (∀ source, w = DwOpaqueDir source → ∃ d', d' ∈ ds ++ [d] ∧ opaque_at f d' q = true).
Proof.
  intros [Hany Hop] q w Hq HW. split.
  - destruct (Hany q w Hq HW) as (d' & ? & ?). exists d'. split; [apply elem_of_app; by left|done].
  - intros source ->. destruct (Hop q source Hq HW) as (d' & ? & ?). exists d'. split; [apply elem_of_app; by left|done].
Qed.

Lemma sourced_step d ds W W' K :
  sourced ds W →
  (∀ q, q ≠ [] → path_ok q → bt_lookup (str q) W' = winner_after f d K q (bt_lookup (str q) W)) →
  sourced (ds ++ [d]) W'.
Proof.
  intros Hso Hw. assert (d ∈ ds ++ [d]) as Hd by (apply elem_of_app; right; by left).
  assert (∀ q, q ≠ [] → opens_at f d K q = true → opaque_at f d q = true ∧ mentioned d q) as Ho.
  { intros q Hne Ho. pose proof (opens_directory f d K q Hne Ho) as He. apply andb_true_iff in Ho as [? _]. split; [done|]. right. by eexists. }
  assert (∀ q w, good q → bt_lookup (str q) W' = Some w →
    (∃ d', d' ∈ ds ++ [d] ∧ mentioned d' q) ∧ (∀ source, w = DwOpaqueDir source → ∃ d', d' ∈ ds ++ [d] ∧ opaque_at f d' q = true)) as Hall.
  { intros q w Hq. pose proof Hq as (Hne & Hok & _). rewrite Hw by done. destruct (bt_lookup (str q) W) as [w0|] eqn:HW.
    - pose proof (sourced_older ds d W Hso q w0 Hq HW) as Hold. destruct w0; cbn [winner_after]; intros [= <-]; try done.
      destruct (opens_at f d K q) eqn:Hop; [|done]. split; [apply Hold|]. intros ? _. exists d. split; [done|by apply (Ho q)].
    - cbn [winner_after]. destruct (ancestor_masked K (str q)); [done|].
      destruct (white_at f d q) eqn:Hwh; [intros [= <-]; split; [exists d; split; [done|by left]|done]|].
      destruct (opens_at f d K q) eqn:Hop; [intros [= <-]; destruct (Ho q Hne Hop); split; eauto|].
      destruct (entry_at f d q) as [[]|] eqn:He; try done; intros [= <-]; (split; [exists d; split; [done|right; by eexists]|done]). }
  split; [intros q w Hq HW; by apply (Hall q w)|]. intros q source Hq HW. by apply (Hall q (DwOpaqueDir source)) with (source := source).
Qed.

(** The whole fold. *)
Lemma fold_layers root ls :
  let ds := (λ l, resolve_layer_path root (lr_path l)) <$> ls in
  Forall (delta_layer f) ds →
  ∃ W K, fold_result (fold_one_layer f root) ([], ∅) ls = Ok (W, K) ∧ folded ds W K ∧ sourced ds W ∧ (plain_free ds → tight ds W K).
Proof.
  induction ls as [|l ls IH] using rev_ind; cbn zeta.
  { intros _. exists [], ∅. split_and!; [done|apply folded_nil|done|]. intros _. split; [done|set_solver]. }
  rewrite fmap_app, Forall_app. intros [Hds Hd]. destruct (IH Hds) as (W & K & Hrun & Hfo & Hso & Hti). apply Forall_cons in Hd as [Hd _].
  rewrite fold_result_snoc, Hrun. cbn zeta in Hfo, Hso, Hti. revert Hds Hfo Hso Hti. generalize ((λ l, resolve_layer_path root (lr_path l)) <$> ls).
  intros ds Hds Hfo Hso Hti. cbn [result_bind fmap list_fmap]. set (d := resolve_layer_path root (lr_path l)) in *.
  unfold fold_one_layer. fold d. cbn zeta. rewrite is_dir_plain by apply Hd. cbn [negb fst snd].
  destruct (collect_project_entries_spec f d Hd) as (es & -> & Hes). cbn [result_bind].
  destruct (fold_layer_passes f d Hd es Hes W K) as (st1 & st2 & st3 & -> & Hpa). cbn [result_bind]. eexists _, _. split; [done|].
  assert (∀ q, q ≠ [] → path_ok q → bt_lookup (str q) st3.1 = winner_after f d K q (bt_lookup (str q) W)) as Hw.
  { intros. by eapply passed_winner. }
  assert (∀ q, q ≠ [] → path_ok q → str q ∈ st3.2 ↔ cuts_after f d K q (bt_lookup (str q) W)) as Hc.
  { intros. by eapply passed_cut. }
  split_and!.
  - apply (folded_step d _ W); [done..|]. intros s Hs. by eapply passed_paths.
  - by apply (sourced_step d _ W _ K).
  - intros Hfree. apply (tight_step d _ W); [done|done| |done|done|].
    + apply Hti. intros a e b d' c q ->. apply (Hfree a e b d' (c ++ [d])). by rewrite <-(assoc_L (++)), <-app_comm_cons, <-(assoc_L (++)).
    + intros e q (a & b & ->)%list_elem_of_split. apply (Hfree a e b d []). by rewrite <-(assoc_L (++)).
Qed.
End stack.

(** ** The delta on top of the base *)

Definition dirs_of (root : path) (ls : list LayerRef) : list path := (λ l, resolve_layer_path root (lr_path l)) <$> ls.

Definition winner_node (f : fs) (w : DeltaWinner) : option node :=
  match w with
  | DwFile source | DwSymlink source | DwDirectory source | DwOpaqueDir source => f !! source
  | DwDelete => None
  end.

(** A path of a copy of the base, which shows [old] there, after the winners
    have been put in: a file, a link or a deletion replaces what is there, an
    opaque directory is cleared, and a plain directory keeps its entries. *)
Definition delta_shows (f : fs) (W : list (bytes * DeltaWinner)) (old : option node) (q : path) : option node :=
  match bt_lookup (str q) W with
  | Some w => winner_node f w
  | None =>
      if existsb (λ k, cutting_winner (bt_lookup (str (take k q)) W)) (seq 1 (length q - 1)) then None else old
  end.

(** A path whose ancestors can be named. *)
Definition readable (q : path) : Prop :=
  q ≠ [] ∧ Forall ordinary q ∧ ∀ r s, q = r ++ s → r ≠ [] → path_ok r.

Lemma readable_prefix r s : readable (r ++ s) → r ≠ [] → good r.
Proof. intros (_ & Hord & Hok) Hr. apply Forall_app in Hord as [Hord _]. split_and!; [done|by eapply Hok|done]. Qed.

Lemma readable_good q : readable q → good q.
Proof. intros Hq. apply (readable_prefix q []); [by rewrite app_nil_r|apply Hq]. Qed.

Lemma delta_layer_refs_spec m delta base :
  layers m = delta ++ base → Forall (λ l, ¬ is_base_layer l) delta → Forall is_base_layer base → base ≠ [] →
  delta_layer_refs m = Ok delta.
Proof.
  intros Hm Hdelta Hbase Hne. unfold delta_layer_refs. rewrite Hm, !filter_app.
  assert (filter is_base_layer base = base) as -> by by apply Forall_filter_id. rewrite decide_False.
  - f_equal. rewrite (Forall_filter_id _ delta) by done. rewrite (filter_none _ base), app_nil_r; [done|].
    intros l Hl Hn. rewrite Forall_forall in Hbase. by apply Hn, Hbase.
  - rewrite length_app. destruct base; [done|simpl; lia].
Qed.

Lemma winner_overlay f q ds base w :
  q ≠ [] → winner_says f (Some w) (stack_verdict f ds q) → overlay f (ds ++ base) q = winner_node f w.
Proof.
  intros Hq Hs. rewrite overlay_stack by done. destruct w; cbn in *; [..|by rewrite Hs|]; destruct Hs as (n & -> & Hn & _); done.
Qed.

Lemma tight_masked f ds W K q :
  folded f ds W K → tight f ds W K → readable q →
  ancestor_masked K (str q) = existsb (λ k, cutting_winner (bt_lookup (str (take k q)) W)) (seq 1 (length q - 1)).
Proof.
  intros Hfo Hti Hq. pose proof (readable_good q Hq) as (Hne & Hok & _). apply eq_true_iff_eq.
  rewrite ancestor_masked_spec, existsb_exists by done. split.
  - intros (r & x & s & -> & Hr & Hin). exists (length r). rewrite take_app_length. split.
    + apply in_seq. rewrite length_app. destruct r; [done|simpl; lia].
    + apply (ti_cut _ _ _ _ Hti); [|done]. by eapply readable_prefix.
  - intros (k & Hk%in_seq & Hcw). destruct (drop k q) as [|x s] eqn:Hdrop.
    { apply (f_equal length) in Hdrop. rewrite length_drop in Hdrop. simpl in Hdrop. lia. }
    exists (take k q), x, s. rewrite <-Hdrop, take_drop. split; [done|].
    assert (take k q ≠ []) as Ht. { intros Ht. apply (f_equal length) in Ht. rewrite length_take in Ht. simpl in Ht. lia. }
    split; [done|]. apply (fo_cut _ _ _ _ Hfo); [|done]. apply (readable_prefix _ (drop k q)); [by rewrite take_drop|done].
Qed.

(** Above the base, the winners decide. *)
Lemma fold_shows f ds base W K q :
  folded f ds W K → tight f ds W K → readable q → overlay f (ds ++ base) q = delta_shows f W (overlay f base q) q.
Proof.
  intros Hfo Hti Hq. pose proof (readable_good q Hq) as Hg. unfold delta_shows. pose proof (fo_win _ _ _ _ Hfo q Hg) as Hw.
  destruct (bt_lookup (str q) W) as [w|] eqn:HW; [apply winner_overlay; [apply Hq|done]|].
  rewrite overlay_stack, (fo_none _ _ _ _ Hfo q Hg HW), (tight_masked f ds W K q Hfo Hti Hq) by apply Hq. by destruct (existsb _ _).
Qed.

(** ** Properties *)

(** C26: the delta of a stack over its base is the stack.  The fold over the
    layers above the base succeeds.  Where it has a winner, the stack shows the
    winner's source, or nothing for a deletion; where it has none, the layers
    above the base show nothing.  If moreover no layer has a plain directory
    where an older one removes or replaces a path, then a copy of the base into
    which the winners are put shows at every path what the stack shows. *)
Theorem delta_over_base_is_stack f root m delta base :
  layers m = delta ++ base → Forall (λ l, ¬ is_base_layer l) delta → Forall is_base_layer base → base ≠ [] →
  Forall (delta_layer f) (dirs_of root delta) →
  ∃ fold, fold_delta_winners f root m = Ok fold ∧ df_delta_layers fold = delta ∧
    ∀ q, readable q →
      match bt_lookup (str q) (df_winners fold) with
      | Some w => overlay f (dirs_of root (layers m)) q = winner_node f w
      | None => overlay f (dirs_of root delta) q = None
      end ∧
      (plain_free f (dirs_of root delta) →
       overlay f (dirs_of root (layers m)) q = delta_shows f (df_winners fold) (overlay f (dirs_of root base) q) q).
Proof.
  intros Hm Hdelta Hbase Hne Hds. unfold fold_delta_winners. rewrite (delta_layer_refs_spec m delta base) by done. cbn [result_bind].
  destruct (fold_layers f root delta Hds) as (W & K & -> & Hfo & _ & Hti). fold (dirs_of root delta) in *. cbn [result_bind].
  eexists. split_and!; [done..|]. cbn [df_winners fst]. intros q Hq. pose proof (readable_good q Hq) as Hg. pose proof (proj1 Hq) as Hqne.
  assert (dirs_of root (layers m) = dirs_of root delta ++ dirs_of root base) as -> by (unfold dirs_of; by rewrite Hm, fmap_app).
  split; [|intros Hfree; by apply (fold_shows f (dirs_of root delta) _ W K); auto].
  pose proof (fo_win _ _ _ _ Hfo q Hg) as Hw. pose proof (fo_none _ _ _ _ Hfo q Hg) as Hn.
  destruct (bt_lookup (str q) W) as [w|]; [by apply winner_overlay|].
  rewrite <-(app_nil_r (dirs_of root delta)), overlay_stack, Hn by done. destruct (ancestor_masked K (str q)); [done|]. apply overlay_nil.
Qed.

(** No layer has an entry or a whiteout at the path itself. *)
Definition unmentioned (f : fs) (d q : path) : Prop :=
  f !! (d ++ q) = None ∧ f !! (d ++ parent q ++ [LOGICAL_WHITEOUT_PREFIX ++ file_name q]) = None.

Lemma unmentioned_spec f d q : unmentioned f d q → ¬ mentioned f d q.
Proof.
  assert (∀ t, f !! (d ++ t) = None → entry_at f d t = None) as He.
  { intros t Ht. destruct (entry_at f d t) as [k|] eqn:Hk; [|done]. apply entry_at_node in Hk as (_ & n & Hn & _). congruence. }
  intros [Hq%He Hw%He] [Hwh|[k Hk]]; [|congruence]. unfold white_at in Hwh. by rewrite Hq, Hw, !bool_decide_false in Hwh by done.
Qed.

(** Directories above the path do not become winners that cut. *)
Lemma plain_above f ds base W K q r x s :
  folded f ds W K → sourced f ds W → readable q → q = r ++ x :: s → r ≠ [] →
  (∃ m xs, overlay f (ds ++ base) r = Some (NDir m xs)) → (∀ d, d ∈ ds → opaque_at f d r = false) →
  cutting_winner (bt_lookup (str r) W) = false.
Proof.
  intros Hfo Hso Hq -> Hr (m & xs & Hov) Hop. pose proof (readable_prefix _ _ Hq Hr) as Hg.
  pose proof (fo_win _ _ _ _ Hfo r Hg) as Hw. rewrite overlay_stack in Hov by done.
  destruct (bt_lookup (str r) W) as [[source|source|source| |source]|] eqn:HW; cbn in Hw; try done.
  - destruct Hw as (n & Hv & _ & Hk). rewrite Hv in Hov. injection Hov as ->. done.
  - destruct Hw as (n & Hv & _ & Hk). rewrite Hv in Hov. injection Hov as ->. done.
  - by rewrite Hw in Hov.
  - destruct (so_opaque _ _ _ Hso r source Hg HW) as (d & Hd & Ho). by rewrite Hop in Ho.
Qed.

(** C40: a delta can bring a removed file back.  The base has something at a path
    that the stack does not show, the layers above the base do not name the path
    itself, and the stack shows a plain directory at each of its ancestors: so a
    layer removed or replaced one of them, and a newer one made it again without
    marking it opaque.  Then the fold keeps no trace of the removal, and a copy of
    the base into which its winners are put still shows what the base has. *)
Theorem delta_brings_removed_file_back f root m delta base q n :
  layers m = delta ++ base → Forall (λ l, ¬ is_base_layer l) delta → Forall is_base_layer base → base ≠ [] →
  Forall (delta_layer f) (dirs_of root delta) → readable q →
  overlay f (dirs_of root base) q = Some n → overlay f (dirs_of root (layers m)) q = None →
  Forall (λ d, unmentioned f d q) (dirs_of root delta) →
  (∀ r x s, q = r ++ x :: s → r ≠ [] →
     (∃ mode xs, overlay f (dirs_of root (layers m)) r = Some (NDir mode xs)) ∧
     Forall (λ d, opaque_at f d r = false) (dirs_of root delta)) →
  ∃ fold, fold_delta_winners f root m = Ok fold ∧
    delta_shows f (df_winners fold) (overlay f (dirs_of root base) q) q = Some n.
Proof.
  intros Hm Hdelta Hbase Hne Hds Hq Hold Hnone Hun Habove. unfold fold_delta_winners.
  rewrite (delta_layer_refs_spec m delta base) by done. cbn [result_bind].
  destruct (fold_layers f root delta Hds) as (W & K & -> & Hfo & Hso & _). fold (dirs_of root delta) in *. cbn [result_bind].
  eexists. split; [done|]. cbn [df_winners fst]. rewrite Hold. unfold delta_shows.
  assert (dirs_of root (layers m) = dirs_of root delta ++ dirs_of root base) as Hls by (unfold dirs_of; by rewrite Hm, fmap_app).
  rewrite Hls in *. destruct (bt_lookup (str q) W) as [w|] eqn:HW.
  { destruct (so_any _ _ _ Hso q w (readable_good q Hq) HW) as (d & Hd & Hment). rewrite Forall_forall in Hun.
    by destruct (unmentioned_spec f d q (Hun d Hd)). }
  destruct (existsb _ _) eqn:Hex; [|done]. apply existsb_exists in Hex as (k & Hk%in_seq & Hcw).
  destruct (drop k q) as [|x s] eqn:Hdrop; [apply (f_equal length) in Hdrop; rewrite length_drop in Hdrop; simpl in Hdrop; lia|].
  assert (q = take k q ++ x :: s) as Heq by by rewrite <-Hdrop, take_drop.
  assert (take k q ≠ []) as Ht by (intros Ht; apply (f_equal length) in Ht; rewrite length_take in Ht; simpl in Ht; lia).
  destruct (Habove _ _ _ Heq Ht) as [Hdir Hop]. rewrite Forall_forall in Hop.
  by rewrite (plain_above f (dirs_of root delta) (dirs_of root base) W K q (take k q) x s) in Hcw.
Qed.

(** *** A concrete stack *)

#[local] Instance comp_ok_decision x : Decision (comp_ok x).
Proof. unfold comp_ok. apply _. Defined.
#[local] Instance path_ok_decision r : Decision (path_ok r).
Proof. unfold path_ok. apply _. Defined.
#[local] Instance removes_decision f d q : Decision (removes f d q).
Proof. unfold removes. apply _. Defined.

Definition names_check_below (f : fs) (d : path) : bool :=
  forallb (λ qn, match below d qn.1 with
    | None | Some [] => true
    | Some r =>
        bool_decide (path_ok r) &&
        match strip_prefix LOGICAL_WHITEOUT_PREFIX (file_name r) with
        | Some x => negb (ordinary_check x) || bool_decide (path_ok (parent r ++ [x]))
        | None => true
        end
    end) (map_to_list f).

Definition delta_check (f : fs) (d : path) : bool :=
  plain_check f d && fs_pure d f && negb (opaque f d) && names_check_below f d.

Lemma delta_check_spec f d : delta_check f d = true → delta_layer f d.
Proof.
  unfold delta_check. rewrite !andb_true_iff, negb_true_iff. intros [[[Hp%plain_check_dir Hpure] Ho] Hn].
  apply (fs_pure_layers d f []) in Hpure. rewrite app_nil_r in Hpure. unfold names_check_below in Hn. rewrite forallb_forall in Hn.
  assert (∀ r n, f !! (d ++ r) = Some n → r ≠ [] → path_ok r ∧
    ∀ x, strip_prefix LOGICAL_WHITEOUT_PREFIX (file_name r) = Some x → ordinary x → path_ok (parent r ++ [x])) as Hall.
  { intros r n Hr Hne. apply elem_of_map_to_list, list_elem_of_In, Hn in Hr. cbn [fst] in Hr. rewrite below_app in Hr.
    destruct r as [|y r]; [done|]. apply andb_true_iff in Hr as [Hr%bool_decide_eq_true Hx]. split; [done|]. intros x Hs Ho'. rewrite Hs in Hx.
    apply orb_true_iff in Hx as [Hx%negb_true_iff|Hx%bool_decide_eq_true]; [|done]. apply ordinary_check_spec in Ho'. congruence. }
  split; [done..| |].
  - intros r n Hr Hne. by eapply Hall.
  - intros r x [n Hr] Hx. apply Hall in Hr as [_ Hr]; [|by destruct r]. rewrite file_name_snoc, parent_snoc in Hr.
    apply Hr; [by apply strip_prefix_Some|done].
Qed.

Definition plain_pair_check (f : fs) (e d : path) : bool :=
  forallb (λ qn, match below e qn.1 with
    | None => true
    | Some q => negb (dir_at f qn.1 && negb (opaque f qn.1)) || negb (bool_decide (removes f d q))
    end) (map_to_list f).
Fixpoint plain_free_check (f : fs) (ds : list path) : bool :=
  match ds with [] => true | e :: ds => forallb (plain_pair_check f e) ds && plain_free_check f ds end.

Lemma plain_free_check_spec f ds : plain_free_check f ds = true → plain_free f ds.
Proof.
  intros Hall a e b d c q -> _ Hdir Hop Hrm. induction a as [|x a IH].
  - cbn [app plain_free_check] in Hall. apply andb_true_iff in Hall as [Hall _]. rewrite forallb_forall in Hall.
    assert (plain_pair_check f e d = true) as Hp by (apply Hall, list_elem_of_In, elem_of_app; right; by left).
    unfold plain_pair_check in Hp. rewrite forallb_forall in Hp. pose proof Hdir as Hdir'. unfold dir_at in Hdir'.
    destruct (f !! (e ++ q)) as [n|] eqn:Hn; [|done]. apply elem_of_map_to_list, list_elem_of_In, Hp in Hn. cbn [fst] in Hn.
    rewrite below_app, Hdir, Hop, bool_decide_true in Hn; done.
  - apply IH. cbn [app plain_free_check] in Hall. by apply andb_true_iff in Hall as [_ ?].
Qed.

Definition readable_check (q : path) : bool :=
  bool_decide (q ≠ []) && forallb ordinary_check q && forallb (λ k, bool_decide (path_ok (take k q))) (seq 1 (length q)).

Lemma readable_check_spec q : readable_check q = true → readable q.
Proof.
  unfold readable_check. rewrite !andb_true_iff, !forallb_forall, bool_decide_eq_true. intros [[Hne Ho] Hp]. split_and!; [done|..].
  - apply Forall_forall. intros x Hx%list_elem_of_In. by apply ordinary_check_spec, Ho.
  - intros r s -> Hr. specialize (Hp (length r)). rewrite take_app_length in Hp. apply bool_decide_eq_true in Hp; [done|].
    apply in_seq. rewrite length_app. destruct r; [done|simpl; lia].
Qed.

Definition delta_root : path := [lit "s"].
Definition delta_ref (id : bytes) : LayerRef := mkLayerRef id (lit "layers/" ++ id).
Definition delta_manifest : Manifest := mkManifest 3 [delta_ref (lit "L2"); delta_ref (lit "L1"); delta_ref (lit "B0")] 1.
Definition in_layer (id : bytes) (q : path) : path := [lit "s"; lit "layers"; id] ++ q.
Definition delta_base : fs :=
  {[ [] := NDir 0 ∅; [lit "s"] := NDir 0 ∅; [lit "s"; lit "layers"] := NDir 0 ∅;
     in_layer (lit "L2") [] := NDir 0 ∅; in_layer (lit "L1") [] := NDir 0 ∅; in_layer (lit "B0") [] := NDir 0 ∅;
     in_layer (lit "B0") [lit "a"] := NDir 0 ∅; in_layer (lit "B0") [lit "a"; lit "x"] := NFile (lit "old") 0 ∅ ]}.

(** Layer [L1] removes the directory [a] of the base, [L2] makes it again: as an
    opaque directory, or as a plain one. *)
Definition remade_fs (marker : bool) : fs :=
  (if marker then {[ in_layer (lit "L2") [lit "a"; OPAQUE_MARKER] := NFile [] 0 ∅ ]} else ∅) ∪
  {[ in_layer (lit "L2") [lit "a"] := NDir 0 ∅; in_layer (lit "L2") [lit "a"; lit "z"] := NFile (lit "new") 0 ∅;
     in_layer (lit "L1") [lit "a"] := NChar 0 ]} ∪ delta_base.

Lemma delta_over_base_is_stack_witness :
  ∃ fold, fold_delta_winners (remade_fs true) delta_root delta_manifest = Ok fold ∧
    overlay (remade_fs true) (dirs_of delta_root (layers delta_manifest)) [lit "a"; lit "x"] = None ∧
    delta_shows (remade_fs true) (df_winners fold) (Some (NFile (lit "old") 0 ∅)) [lit "a"; lit "x"] = None.
Proof.
  destruct (delta_over_base_is_stack (remade_fs true) delta_root delta_manifest [delta_ref (lit "L2"); delta_ref (lit "L1")] [delta_ref (lit "B0")])
    as (fold & Hrun & _ & Hq).
  - reflexivity.
  - repeat constructor; done.
  - repeat constructor.
  - done.
  - apply Forall_cons_2; [apply delta_check_spec; vm_compute; reflexivity|].
    apply Forall_cons_2; [apply delta_check_spec; vm_compute; reflexivity|constructor].
  - exists fold. split; [exact Hrun|]. destruct (Hq [lit "a"; lit "x"]) as [_ Hs]; [apply readable_check_spec; vm_compute; reflexivity|].
    assert (overlay (remade_fs true) (dirs_of delta_root (layers delta_manifest)) [lit "a"; lit "x"] = None) as Hnone by (vm_compute; reflexivity).
    split; [exact Hnone|]. rewrite Hnone in Hs.
    assert (overlay (remade_fs true) (dirs_of delta_root [delta_ref (lit "B0")]) [lit "a"; lit "x"] = Some (NFile (lit "old") 0 ∅)) as Hb
      by (vm_compute; reflexivity).
    rewrite Hb in Hs. symmetry. apply Hs, plain_free_check_spec. vm_compute. reflexivity.
Defined.

(** Layer [L1] removed the directory [a], and [L2] made it again as a plain one. *)
Lemma delta_brings_removed_file_back_witness :
  let f := remade_fs false in
  read_entry f delta_root (lit "a/x") delta_manifest = Ok EAbsent ∧
  ∃ fold, fold_delta_winners f delta_root delta_manifest = Ok fold ∧
    delta_shows f (df_winners fold) (overlay f (dirs_of delta_root [delta_ref (lit "B0")]) [lit "a"; lit "x"]) [lit "a"; lit "x"] =
      Some (NFile (lit "old") 0 ∅).
Proof.
  intros f. split; [vm_compute; reflexivity|].
  apply (delta_brings_removed_file_back f delta_root delta_manifest [delta_ref (lit "L2"); delta_ref (lit "L1")] [delta_ref (lit "B0")]).
  - reflexivity.
  - repeat constructor; done.
  - repeat constructor.
  - done.
  - apply Forall_cons_2; [apply delta_check_spec; vm_compute; reflexivity|].
    apply Forall_cons_2; [apply delta_check_spec; vm_compute; reflexivity|constructor].
  - apply readable_check_spec. vm_compute. reflexivity.
  - vm_compute. reflexivity.
  - vm_compute. reflexivity.
  - repeat apply Forall_cons_2; try apply Forall_nil_2; split; vm_compute; reflexivity.
  - intros [|y [|y' r]] x s Hq Hr; [done| |destruct r; discriminate Hq]. injection Hq as <- <- <-. split.
    + exists 0%Z, ∅. vm_compute. reflexivity.
    + repeat apply Forall_cons_2; try apply Forall_nil_2; vm_compute; reflexivity.
Defined.
