(* ===== verification/Archive.v ===== *)
(** * Archives: the [tar] and [zstd] crates

    What the export uses of the two crates, as a class: an archive is a list of
    entries with the header fields the code reads, a stream is the bytes that
    reading gives and the error that follows them, if any.  The laws are the
    documented ones: decompressing gives back what was compressed, the entries of
    an archive come back as they were appended, and contents are parts of the
    archive. *)

From S2P Require Import Prelude ByteStr Model FS Storage.

(** [tar::EntryType] *)
Inductive tar_kind := TkRegular | TkContinuous | TkDirectory | TkSymlink | TkLink | TkOther.

#[global] Instance tar_kind_eq_dec : EqDecision tar_kind.
Proof. solve_decision. Defined.

(** An entry: [Entry::path_bytes], the fields of its header, [None] where the
    field cannot be read, the link name of the header, and the content. *)
Record tar_entry := mkTar {
  te_name : bytes;
  te_kind : tar_kind;
  te_mode : option Z;
  te_mtime : option Z;
  te_size : option Z;
  te_link : option bytes;
  te_content : bytes;
}.

(** A read that fails: beyond the cap, or in the stream below. *)
Inductive stream_error := CapExceeded | StreamFailed.

(** The bytes that reading gives, and how they end. *)
Definition stream : Type := bytes * option stream_error.

(** The length of the link name in a header. *)
Definition HEADER_LINK_BYTES : nat := 100.

(** A component of an entry name or a link target that the writer leaves alone. *)
Definition tar_comp (c : bytes) : Prop := c ≠ [] ∧ c ≠ dot ∧ c ≠ dotdot ∧ slash ∉ c ∧ nul ∉ c.

(** A link target that fits into the header and that the writer keeps: it goes
    through [Path::components] and has no empty component and no dot. *)
Definition plain_target (t : bytes) : Prop :=
  t ≠ [] ∧ nul ∉ t ∧ length t ≤ HEADER_LINK_BYTES ∧
  Forall (λ c, c ≠ [] ∧ c ≠ dot) (if starts_with [slash] t then split_on slash (drop 1 t) else split_on slash t).

(** What an archive of this program's entries keeps. *)
Definition tar_ok (e : tar_entry) : Prop :=
  (∃ cs, cs ≠ [] ∧ Forall tar_comp cs ∧
     te_name e = join_with slash cs ++ (if decide (te_kind e = TkDirectory) then [slash] else [])) ∧
  (∃ mode mtime, te_mode e = Some mode ∧ te_mtime e = Some mtime ∧ (0 ≤ mode < 2 ^ 12)%Z ∧ (0 ≤ mtime < 2 ^ 63)%Z) ∧
  te_size e = Some (Z.of_nat (length (te_content e))) ∧
  match te_kind e with
  | TkRegular => te_link e = None
  | TkDirectory => te_link e = None ∧ te_content e = []
  | TkSymlink => te_content e = [] ∧ ∃ t, te_link e = Some t ∧ plain_target t
  | _ => False
  end.

Definition contents_length (es : list tar_entry) : nat := sum_list_with (λ e, length (te_content e)) es.

Class ExportCodec := {
  (** [zstd::stream::write::Encoder] at a level *)
  zstd_encode : Z → bytes → bytes;
  (** [zstd::stream::read::Decoder]; [None] when it cannot be set up *)
  zstd_decode : bytes → option stream;
  (** [tar::Builder]: whether it accepts an entry, and the archive of some *)
  tar_accepts : tar_entry → bool;
  tar_write : list tar_entry → bytes;
  (** [tar::Archive::entries] over a stream: the entries up to an error.  The
      reader asks for no bytes behind the entry at hand. *)
  tar_read : stream → list tar_entry * option stream_error;
  zstd_decode_encode level data : zstd_decode (zstd_encode level data) = Some (data, None);
  tar_accepts_ok e : tar_ok e → tar_accepts e = true;
  tar_read_write es : Forall tar_ok es → tar_read (tar_write es, None) = (es, None);
  tar_read_contents s : contents_length (tar_read s).1 ≤ length s.1;
}.

(** ** A concrete archive format *)

Definition kind_number (k : tar_kind) : Z :=
  match k with TkRegular => 0 | TkContinuous => 1 | TkDirectory => 2 | TkSymlink => 3 | TkLink => 4 | TkOther => 5 end.
Definition number_kind (n : Z) : tar_kind :=
  match n with 0 => TkRegular | 1 => TkContinuous | 2 => TkDirectory | 3 => TkSymlink | 4 => TkLink | _ => TkOther end%Z.

Definition entry_fields (e : tar_entry) : bytes * Z * option Z * option Z * option Z * option bytes * bytes :=
  (te_name e, kind_number (te_kind e), te_mode e, te_mtime e, te_size e, te_link e, te_content e).
Definition fields_entry (t : bytes * Z * option Z * option Z * option Z * option bytes * bytes) : tar_entry :=
  let '(name, k, mode, mtime, size, link, content) := t in mkTar name (number_kind k) mode mtime size link content.

Fixpoint drop_nuls (s : bytes) : bytes :=
  match s with x :: t => if decide (x = nul) then drop_nuls t else s | [] => [] end.

(** As many NULs as there is content, then the entries as one number. *)
Definition number_archive (es : list tar_entry) : bytes :=
  replicate (contents_length es) nul ++ print_bits (encode (entry_fields <$> es)).

Definition number_entries (s : stream) : list tar_entry * option stream_error :=
  match decode (A := list (bytes * Z * option Z * option Z * option Z * option bytes * bytes)) (parse_bits (drop_nuls s.1)) with
  | Some ts =>
      let es := fields_entry <$> ts in
      if decide (contents_length es ≤ length s.1) then (es, s.2) else ([], Some StreamFailed)
  | None => ([], Some StreamFailed)
  end.

Lemma fields_entry_fields (es : list tar_entry) : fields_entry <$> (entry_fields <$> es) = es.
Proof.
  rewrite <-list_fmap_compose. rewrite <-(list_fmap_id es) at 2. apply list_fmap_ext. intros _ [n k ? ? ? ? ?] _. by destruct k.
Qed.

Lemma drop_nuls_bits n p : drop_nuls (replicate n nul ++ print_bits p) = print_bits p.
Proof. induction n as [|n IH]; [by destruct p|]. cbn. by rewrite decide_True. Qed.

#[refine] Definition number_export_codec : ExportCodec := {|
  zstd_encode _ data := data;
  zstd_decode s := Some (s, None);
  tar_accepts _ := true;
  tar_write := number_archive;
  tar_read := number_entries;
|}.
Proof.
  - done.
  - done.
  - intros es _. unfold number_entries, number_archive. cbn [fst snd]. rewrite drop_nuls_bits, parse_print_bits, decode_encode.
    rewrite fields_entry_fields, decide_True; [done|]. rewrite length_app, length_replicate. lia.
  - intros s. unfold number_entries. case_match; [|apply Nat.le_0_l]. case_decide; [done|apply Nat.le_0_l].
Defined.
