(* ===== verification/Export.v ===== *)
(** * The sandbox side of an export: [projection/emit_stream.rs], [service/impls/export.rs]

    The winners of the delta fold are written as a compressed archive, the spool,
    which the daemon registers under a name and serves in chunks; the manager
    asks for chunk after chunk until it has the announced number of bytes
    ([page_stream] of [export_changes.rs]). *)

From S2P Require Import Prelude ByteStr Model FS Storage World StorageOps View Lease Stack Project Base Archive.

(** ** [emit_stream.rs] *)

Definition MARKER_MODE : Z := 0x1a4.

Record DeltaStreamStats := mkStreamStats {
  st_files : Z;
  st_symlinks : Z;
  st_whiteouts : Z;
  st_opaques : Z;
}.

Definition no_stream_stats : DeltaStreamStats := mkStreamStats 0 0 0 0.

(** [meta.permissions().mode() & 0o7777]; a link has all permissions. *)
Definition file_mode (n : node) : Z :=
  Z.land match n with NFile _ m _ | NDir m _ => m | _ => 0x1ff end 0xfff.

(** [rsplit_once('/')] *)
Definition rsplit_slash (s : bytes) : option (bytes * bytes) :=
  let parts := split_on slash s in
  if decide (length parts < 2) then None else Some (join_with slash (parent parts), file_name parts).

Definition whiteout_entry_name (target : bytes) : bytes :=
  match rsplit_slash target with
  | Some (parent, name) => parent ++ [slash] ++ LOGICAL_WHITEOUT_PREFIX ++ name
  | None => LOGICAL_WHITEOUT_PREFIX ++ target
  end.

Section emit.
Context `{ExportCodec}.
(** [meta.mtime()] of a source, in seconds. *)
Context (source_mtime : path → Z).

(** [u64::try_from(meta.mtime()).unwrap_or(0)] *)
Definition mtime (source : path) : Z := if decide (source_mtime source < 0)%Z then 0 else source_mtime source.

(** The archive so far and the counters. *)
Definition builder : Type := list tar_entry * DeltaStreamStats.

Definition append (e : tar_entry) (b : builder) : result builder LayerStackError :=
  if tar_accepts e then Ok (b.1 ++ [e], b.2) else Err (Io EINVAL).

Definition marker_tar (name : bytes) : tar_entry := mkTar name TkRegular (Some MARKER_MODE) (Some 0%Z) (Some 0%Z) None [].

Definition append_marker (name : bytes) (b : builder) : result builder LayerStackError := append (marker_tar name) b.

Definition append_directory (f : fs) (p : bytes) (source : path) (b : builder) : result builder LayerStackError :=
  (let? meta := map_err Io (symlink_metadata f source) in
   append (mkTar (p ++ [slash]) TkDirectory (Some (file_mode meta)) (Some (mtime source)) (Some 0%Z) None []) b)%result.

Definition append_winner (f : fs) (b : builder) (pw : bytes * DeltaWinner) : result builder LayerStackError :=
  let '(p, winner) := pw in
  let stats := b.2 in
  match winner with
  | DwDirectory source => append_directory f p source b
  | DwOpaqueDir source =>
      (let? b := append_directory f p source b in
       append_marker (p ++ [slash] ++ OPAQUE_MARKER)
         (b.1, mkStreamStats (st_files b.2) (st_symlinks b.2) (st_whiteouts b.2) (st_opaques b.2 + 1)))%result
  | DwFile source =>
      (let? meta := map_err Io (metadata f source) in
       let? data := map_err Io (read f source) in
       let? b := append (mkTar p TkRegular (Some (file_mode meta)) (Some (mtime source)) (Some (n_len meta)) None data) b in
       Ok (b.1, mkStreamStats (st_files b.2 + 1) (st_symlinks b.2) (st_whiteouts b.2) (st_opaques b.2)))%result
  | DwSymlink source =>
      (let? meta := map_err Io (symlink_metadata f source) in
       let? target := map_err Io (read_link f source) in
       let? b := append (mkTar p TkSymlink (Some (file_mode meta)) (Some (mtime source)) (Some 0%Z) (Some target) []) b in
       Ok (b.1, mkStreamStats (st_files b.2) (st_symlinks b.2 + 1) (st_whiteouts b.2) (st_opaques b.2)))%result
  | DwDelete =>
      append_marker (whiteout_entry_name p)
        (b.1, mkStreamStats (st_files stats) (st_symlinks stats) (st_whiteouts stats + 1) (st_opaques stats))
  end.

(** The spool of a run that fails is the caller's to remove: its content, part of
    an archive, is left out. *)
Definition emit_delta_stream (winners : list (bytes * DeltaWinner)) (spool_path : path) (level : Z)
    : io LayerStackError DeltaStreamStats :=
  (run lift_err Io (create_dir_all (parent spool_path));
   do spool := lift_err Io (file_create spool_path) in
   run lift_err Io sync;
   do b := reads (λ f, fold_result (append_winner f) ([], no_stream_stats) winners) in
   run lift_err Io (write_all spool (zstd_encode level (tar_write b.1)));
   ret b.2)%io.

(** ** [export.rs] *)

Record ExportSpool := mkSpool { sp_path : path; sp_total : Z }.

(** The errors of the export operations. *)
Inductive ExportError :=
| ExportInFlight
| ExportStack (e : LayerStackError)
| SpoolOverride (e : errno)
| SpoolMetadata (e : errno)
| ExportNotFound (id : bytes)
| SpoolUnreadable (id : bytes) (e : errno)
| SpoolSeek.

(** What the daemon keeps: whether an export runs, the counter of names, the
    spools that can be read and the leases. *)
Record ExportState := mkExport {
  ex_busy : bool;
  ex_counter : N;
  ex_spools : bytes_map ExportSpool;
  ex_leases : LeaseRegistry;
}.

Record ExportStart := mkStart {
  es_export_id : bytes;
  es_manifest_version : Z;
  es_layers_exported : list bytes;
  es_entries : DeltaStreamStats;
  es_spool_bytes : Z;
}.

Definition SPOOL_OVERRIDE_FILE : bytes := lit "OVERRIDE.tar.zst".

Context `{ManifestCodec}.
(** The process id, the clock, the layer stack root and the spool directory. *)
Context (pid nanos : N) (root spool_dir : path).

Definition next_export_id (counter : N) : bytes :=
  lit "exp-" ++ fmt_num 16 pid ++ lit "-" ++ pad 4 (fmt_num 16 counter).

Definition apply_spool_override (spool_path : path) : io ExportError () :=
  (do r := attempt (fs_rename (spool_dir ++ [SPOOL_OVERRIDE_FILE]) spool_path) in
   match r with Ok _ | Err ENOENT => ret () | Err e => fail (SpoolOverride e) end)%io.

Definition fold_and_spool (m : Manifest) (spool_path : path) (level : Z) : io LayerStackError (list LayerRef * DeltaStreamStats) :=
  (do fold := reads (λ f, fold_delta_winners f root m) in
   do stats := emit_delta_stream (df_winners fold) spool_path level in
   ret (df_delta_layers fold, stats))%io.

(** What follows when the spool is written and the lease released. *)
Definition seal_spool (id : bytes) (m : Manifest) (spool_path : path) (delta : list LayerRef) (stats : DeltaStreamStats)
    : io ExportError ExportStart :=
  (run apply_spool_override spool_path;
   do meta := lift_err SpoolMetadata (reads (λ f, metadata f spool_path)) in
   ret (mkStart id (version m) (layer_id <$> delta) stats (n_len meta)))%io.

(** The state is returned with the outcome: a failed export changes it too. *)
Definition run_export_layerstack (registered : bool) (level : Z) (request_id : bytes) (st : ExportState)
    : io Empty_set (result ExportStart ExportError * ExportState) :=
  if ex_busy st then ret (Err ExportInFlight, st)
  else
    (do opened := attempt (open_stack registered root) in
     match opened with
     | Err e => ret (Err (ExportStack e), st)
     | Ok _ =>
         do acquired := attempt (acquire_snapshot root nanos (ex_leases st) request_id) in
         match acquired with
         | Err e => ret (Err (ExportStack e), st)
         | Ok (lease, leases) =>
             let id := next_export_id (ex_counter st) in
             let counter := ((ex_counter st + 1) mod 2 ^ 64)%N in
             let spool_path := spool_dir ++ [id ++ lit ".tar.zst"] in
             do spooled := attempt (fold_and_spool (sl_manifest lease) spool_path level) in
             let '(leases, removal) := release_lease root leases (sl_id lease) in
             do released := attempt removal in
             let st := mkExport (ex_busy st) counter (ex_spools st) leases in
             match spooled, released with
             | Ok (delta, stats), Ok _ =>
                 do sealed := attempt (seal_spool id (sl_manifest lease) spool_path delta stats) in
                 match sealed with
                 | Err e => ret (Err e, st)
                 | Ok start =>
                     ret (Ok start, mkExport (ex_busy st) counter (<[id := mkSpool spool_path (es_spool_bytes start)]> (ex_spools st)) leases)
                 end
             | Err e, _ | Ok _, Err e =>
                 run attempt (remove_file spool_path);
                 ret (Err (ExportStack e), st)
             end
         end
     end)%io.
End emit.

(** The answer to [read_export_chunk]. *)
Record ChunkReply := mkChunk {
  ck_chunk : bytes;
  ck_offset : Z;
  ck_len : Z;
  ck_total : Z;
  ck_eof : bool;
}.

(** Standard base64, from the [base64] crate. *)
Class Base64 := {
  base64_encode : bytes → bytes;
  base64_decode : bytes → option bytes;
  base64_roundtrip s : base64_decode (base64_encode s) = Some s;
}.

(** [limit.unwrap_or(chunk_cap).min(chunk_cap)] *)
Definition chunk_limit (limit : option Z) (chunk_cap : Z) : Z := Z.min (default chunk_cap limit) chunk_cap.

Definition run_read_export_chunk `{Base64} (id : bytes) (offset limit : Z) (st : ExportState)
    : io Empty_set (result ChunkReply ExportError * ExportState) :=
  match ex_spools st !! id with
  | None => ret (Err (ExportNotFound id), st)
  | Some spool =>
      (do opened := attempt (reads (λ f, read f (sp_path spool))) in
       match opened with
       | Err e => ret (Err (SpoolUnreadable id e), st)
       | Ok data =>
           if decide (2 ^ 63 ≤ offset)%Z then ret (Err SpoolSeek, st)
           else
             let chunk := take (Z.to_nat limit) (drop (Z.to_nat offset) data) in
             let len := Z.of_nat (length chunk) in
             let eof := bool_decide (sp_total spool ≤ Z.min (offset + len) (2 ^ 64 - 1))%Z in
             let reply := mkChunk (base64_encode chunk) offset len (sp_total spool) eof in
             if eof then
               run attempt (remove_file (sp_path spool));
               ret (Ok reply, mkExport (ex_busy st) (ex_counter st) (delete id (ex_spools st)) (ex_leases st))
             else ret (Ok reply, st)
       end)%io
  end.

(** ** [page_stream] of [export_changes.rs] *)

(** The answer of a daemon, which may be any JSON value: the fields that the code
    reads, [None] where one is missing or has another type. *)
Record PageReply := mkPage {
  pr_error : bool;
  pr_chunk : option bytes;
  pr_offset : option Z;
  pr_len : option Z;
  pr_total : option Z;
  pr_eof : option bool;
}.

Inductive PageError :=
| ForwardFailed
| DaemonFault
| MissingField
| InvalidBase64
| OffsetMismatch
| LengthMismatch
| TotalMismatch
| LengthOverflow
| StreamCap
| ExceededTotal
| EmptyChunk
| Truncated
| OmittedEof
| TooManyPages.

(** The checks of one reply at [requested_offset]: the bytes and whether they are
    the last ones. *)
Definition check_page `{Base64} (max_stream_bytes expected_total requested_offset : Z) (value : PageReply) : result (bytes * bool) PageError :=
  if pr_error value then Err DaemonFault
  else match pr_chunk value with
  | None => Err MissingField
  | Some chunk =>
      match base64_decode chunk with
      | None => Err InvalidBase64
      | Some data =>
          match pr_offset value with
          | None => Err MissingField
          | Some offset =>
              if decide (offset ≠ requested_offset) then Err OffsetMismatch
              else match pr_len value with
              | None => Err MissingField
              | Some len =>
                  if decide (len ≠ Z.of_nat (length data)) then Err LengthMismatch
                  else match pr_total value with
                  | None => Err MissingField
                  | Some total =>
                      if decide (total ≠ expected_total) then Err TotalMismatch
                      else match pr_eof value with
                      | None => Err MissingField
                      | Some eof =>
                          let next_offset := (requested_offset + Z.of_nat (length data))%Z in
                          if decide (2 ^ 64 ≤ next_offset)%Z then Err LengthOverflow
                          else if decide (max_stream_bytes < next_offset)%Z then Err StreamCap
                          else if decide (expected_total < next_offset)%Z then Err ExceededTotal
                          else if bool_decide (data = []) && negb eof then Err EmptyChunk
                          else if eof && negb (bool_decide (next_offset = expected_total)) then Err Truncated
                          else if negb eof && bool_decide (next_offset = expected_total) then Err OmittedEof
                          else Ok (data, eof)
                      end
                  end
              end
          end
      end
  end.

(** The daemon is any function of its state and the requested offset; [None] when
    the request cannot be forwarded.  One request per unit of fuel. *)
Fixpoint page_loop `{Base64} {D : Type} (ask : D → Z → option PageReply * D) (max_stream_bytes expected_total : Z)
    (fuel : nat) (s : D) (compressed : bytes) : result bytes PageError * D :=
  match fuel with
  | O => (Err TooManyPages, s)
  | S fuel =>
      let requested_offset := Z.of_nat (length compressed) in
      let '(value, s) := ask s requested_offset in
      match value with
      | None => (Err ForwardFailed, s)
      | Some value =>
          match check_page max_stream_bytes expected_total requested_offset value with
          | Err e => (Err e, s)
          | Ok (data, eof) =>
              if eof : bool then (Ok (compressed ++ data), s)
              else page_loop ask max_stream_bytes expected_total fuel s (compressed ++ data)
          end
      end
  end.

Definition page_stream `{Base64} {D : Type} (ask : D → Z → option PageReply * D) (max_stream_bytes expected_total : Z) (s : D)
    : result bytes PageError * D :=
  page_loop ask max_stream_bytes expected_total (S (Z.to_nat expected_total)) s [].

(** A base64 that changes nothing, for concrete runs. *)
#[refine] Definition plain_base64 : Base64 := {| base64_encode s := s; base64_decode s := Some s |}.
Proof. done. Defined.
