(* ===== verification/ExportApply.v ===== *)
(** * The host side of an export: [sandbox-manager/src/export_apply.rs]

    The applier reads an archive that the sandbox wrote, checks every entry, and
    puts the delta into a directory of the host: opaque directories are cleared,
    whiteouts removed, then the content written.  A directory handle is the path
    of the directory; a name is looked up below it as the system call does,
    so that a name with a slash or a link would lead elsewhere.  Modification
    times, which only this code looks at, are a function of their own. *)

From S2P Require Import Prelude ByteStr Model FS Storage World StorageOps Descend Lease View Project Base Archive.

(** ** Calls relative to a directory *)

Definition at_path (fd : path) (name : bytes) : path :=
  if is_absolute name then path_comps name else fd ++ path_comps name.

(** [openat] with [O_DIRECTORY | O_NOFOLLOW] *)
Definition openat_dir (f : fs) (p : path) : result path errno :=
  (let? q := resolve f false p in
   match f !! q with
   | None => Err ENOENT
   | Some (NDir _ _) => Ok q
   | Some _ => Err ENOTDIR
   end)%result.

(** [openat] with [O_CREATE | O_EXCL] and mode 0600 *)
Definition openat_new (p : path) : io errno path :=
  syscall (λ f,
    (let? q := resolve f false p in
     if decide (f !! q = None) then Ok (q, <[q := NFile [] 0x180 ∅]> f) else Err EEXIST)%result).

(** [fchmod] *)
Definition fchmod (q : path) (mode : Z) : io errno () :=
  syscall (λ f, Ok (tt,
    match f !! q with
    | Some (NFile d _ xs) => <[q := NFile d mode xs]> f
    | Some (NDir _ xs) => <[q := NDir mode xs]> f
    | _ => f
    end)).

(** ** Data *)

Record ExportApplyCaps := mkCaps {
  max_stream_bytes : Z;
  max_decompressed_bytes : Z;
  max_apply_entries : Z;
}.

Definition default_caps : ExportApplyCaps :=
  mkCaps (2 * 1024 * 1024 * 1024) (8 * 1024 * 1024 * 1024) 1000000.

Inductive ArchiveFormat := FormatTar | FormatTarZst.

Record DirApplyStats := mkApplyStats {
  files_written : Z;
  symlinks_written : Z;
  deletes_applied : Z;
  opaque_clears : Z;
  skipped_unchanged : Z;
  bytes_written : Z;
}.

Definition no_apply_stats : DirApplyStats := mkApplyStats 0 0 0 0 0 0.

Definition wrote_file (n : Z) (s : DirApplyStats) : DirApplyStats :=
  mkApplyStats (files_written s + 1) (symlinks_written s) (deletes_applied s) (opaque_clears s) (skipped_unchanged s)
    (bytes_written s + n).
Definition wrote_symlink (s : DirApplyStats) : DirApplyStats :=
  mkApplyStats (files_written s) (symlinks_written s + 1) (deletes_applied s) (opaque_clears s) (skipped_unchanged s) (bytes_written s).
Definition applied_delete (s : DirApplyStats) : DirApplyStats :=
  mkApplyStats (files_written s) (symlinks_written s) (deletes_applied s + 1) (opaque_clears s) (skipped_unchanged s) (bytes_written s).
Definition cleared_opaque (s : DirApplyStats) : DirApplyStats :=
  mkApplyStats (files_written s) (symlinks_written s) (deletes_applied s) (opaque_clears s + 1) (skipped_unchanged s) (bytes_written s).
Definition skipped_file (s : DirApplyStats) : DirApplyStats :=
  mkApplyStats (files_written s) (symlinks_written s) (deletes_applied s) (opaque_clears s) (skipped_unchanged s + 1) (bytes_written s).

(** The error messages of the applier. *)
Inductive ApplyError :=
| NotZstd
| CapError (cap : Z)
| StreamReadFailed
| EntryCapExceeded (cap : Z)
| NameNotUtf8
| AbsoluteName (name : bytes)
| NulName (name : bytes)
| DotDotName (name : bytes)
| EmptyName (name : bytes)
| ReservedName (name : bytes)
| HardlinkEntry (name : bytes)
| OpaqueAtRoot (name : bytes)
| InvalidWhiteout (name : bytes)
| UnreadableField (name : bytes)
| SymlinkWithoutTarget (name : bytes)
| UnsupportedEntry (name : bytes)
| ChangedBetweenPasses
| Unreachable (comps : list bytes)
| HostCall (e : errno)
| NoFileName
| RemovalTooDeep.

Inductive PlannedEntry :=
| PlannedDirectory (comps : list bytes) (mode : Z)
| PlannedFile (comps : list bytes) (mode mtime size : Z)
| PlannedSymlink (comps : list bytes)
| PlannedMarker.

Record ApplyPlan := mkPlan {
  entries : list PlannedEntry;
  opaque_dirs : list (list bytes);
  whiteout_targets : list (list bytes);
}.

(** ** Streams *)

(** [CappedReader]: the read that would pass the cap fails. *)
Definition capped (cap : Z) (s : stream) : stream :=
  if decide (cap < Z.of_nat (length s.1))%Z then (take (Z.to_nat cap) s.1, Some CapExceeded) else s.

Definition capped_decoder `{ExportCodec} (compressed : bytes) (cap : Z) : result stream ApplyError :=
  match zstd_decode compressed with None => Err NotZstd | Some s => Ok (capped cap s) end.

Definition map_cap_error (e : stream_error) (cap : Z) : ApplyError :=
  match e with CapExceeded => CapError cap | StreamFailed => StreamReadFailed end.

(** ** The validation pass *)

Fixpoint normal_parts (name : bytes) (parts : list bytes) : result (list bytes) ApplyError :=
  match parts with
  | [] => Ok []
  | part :: parts =>
      if bool_decide (part = []) || bool_decide (part = dot) then normal_parts name parts
      else if bool_decide (part = dotdot) then Err (DotDotName name)
      else (let? comps := normal_parts name parts in Ok (part :: comps))%result
  end.

Definition validated_components (name : bytes) : result (list bytes) ApplyError :=
  if is_absolute name then Err (AbsoluteName name)
  else if bool_decide (nul ∈ name) then Err (NulName name)
  else
    (let? comps := normal_parts name (split_on slash name) in
     if bool_decide (comps = []) then Err (EmptyName name)
     else if existsb (starts_with LOGICAL_WHITEOUT_PREFIX) (parent comps) then Err (ReservedName name)
     else Ok comps)%result.

Definition last_comp (comps : list bytes) : bytes := default [] (last comps).

Definition invalid_target (stripped : bytes) : bool :=
  bool_decide (stripped = []) || bool_decide (stripped = dot) || bool_decide (stripped = dotdot)
  || bool_decide (slash ∈ stripped) || starts_with LOGICAL_WHITEOUT_PREFIX stripped.

(** The planned entry, and the opaque directories and whiteout targets with it. *)
Definition classify_entry (e : tar_entry) (name : bytes) (comps : list bytes) (plan : ApplyPlan)
    : result (PlannedEntry * ApplyPlan) ApplyError :=
  if decide (te_kind e = TkLink) then Err (HardlinkEntry name)
  else if decide (last_comp comps = OPAQUE_MARKER) then
    if decide (length comps < 2) then Err (OpaqueAtRoot name)
    else Ok (PlannedMarker, mkPlan (entries plan) (opaque_dirs plan ++ [parent comps]) (whiteout_targets plan))
  else match strip_prefix LOGICAL_WHITEOUT_PREFIX (last_comp comps) with
  | Some stripped =>
      if invalid_target stripped then Err (InvalidWhiteout name)
      else Ok (PlannedMarker, mkPlan (entries plan) (opaque_dirs plan) (whiteout_targets plan ++ [parent comps ++ [stripped]]))
  | None =>
      match te_mode e with
      | None => Err (UnreadableField name)
      | Some m =>
          let mode := Z.land m 0xfff in
          match te_kind e with
          | TkDirectory => Ok (PlannedDirectory comps mode, plan)
          | TkRegular | TkContinuous =>
              match te_mtime e, te_size e with
              | Some mtime, Some size => Ok (PlannedFile comps mode mtime size, plan)
              | _, _ => Err (UnreadableField name)
              end
          | TkSymlink =>
              match te_link e with None => Err (SymlinkWithoutTarget name) | Some _ => Ok (PlannedSymlink comps, plan) end
          | _ => Err (UnsupportedEntry name)
          end
      end
  end.

Definition plan_entry (entry_cap : Z) (plan : ApplyPlan) (e : tar_entry) : result ApplyPlan ApplyError :=
  if decide (entry_cap ≤ Z.of_nat (length (entries plan)))%Z then Err (EntryCapExceeded entry_cap)
  else if negb (utf8_valid (te_name e)) then Err NameNotUtf8
  else
    (let? comps := validated_components (te_name e) in
     let? r := classify_entry e (te_name e) comps plan in
     Ok (mkPlan (entries r.2 ++ [r.1]) (opaque_dirs r.2) (whiteout_targets r.2)))%result.

Definition comps_le (p q : list bytes) : Prop := path_le p q = true.
#[global] Instance comps_le_dec p q : Decision (comps_le p q) := decide (path_le p q = true).

Definition plan_stream `{ExportCodec} (compressed : bytes) (caps : ExportApplyCaps) : result ApplyPlan ApplyError :=
  (let? s := capped_decoder compressed (max_decompressed_bytes caps) in
   let '(es, end_) := tar_read s in
   let? plan := fold_result (plan_entry (max_apply_entries caps)) (mkPlan [] [] []) es in
   match end_ with
   | Some e => Err (map_cap_error e (max_decompressed_bytes caps))
   | None => Ok (mkPlan (entries plan) (merge_sort comps_le (opaque_dirs plan)) (merge_sort comps_le (whiteout_targets plan)))
   end)%result.

(** ** Directories *)

Definition host {A : Type} : io errno A → io ApplyError A := lift_err HostCall.

Definition open_dest_root (dest : path) : io ApplyError path := host (reads (λ f, openat_dir f dest)).

Definition open_child_dir (fd : path) (name : bytes) : io errno path := reads (λ f, openat_dir f (at_path fd name)).

Definition is_non_directory (e : errno) : bool := match e with ELOOP | ENOTDIR => true | _ => false end.

(** A directory where the entry is missing. *)
Definition make_child (fd : path) (name : bytes) : io ApplyError path :=
  (run host (sys_mkdir (at_path fd name)); host (open_child_dir fd name))%io.

(** A directory in place of what is there. *)
Definition replace_child (fd : path) (name : bytes) : io ApplyError path :=
  (run host (remove_file (at_path fd name)); make_child fd name)%io.

(** One step of the walk. *)
Definition step_into (create : bool) (fd : path) (comp : bytes) : io ApplyError (option path) :=
  (do r := attempt (open_child_dir fd comp) in
   match r with
   | Ok next => ret (Some next)
   | Err e =>
       if decide (e = ENOENT) then
         if create then
           do m := attempt (sys_mkdir (at_path fd comp)) in
           match m with
           | Ok _ | Err EEXIST => do next := host (open_child_dir fd comp) in ret (Some next)
           | Err e => fail (HostCall e)
           end
         else ret None
       else if is_non_directory e then
         if create then do next := replace_child fd comp in ret (Some next) else ret None
       else fail (HostCall e)
   end)%io.

Fixpoint walk_comps (create : bool) (fd : path) (comps : list bytes) : io ApplyError (option path) :=
  match comps with
  | [] => ret (Some fd)
  | comp :: comps =>
      (do next := step_into create fd comp in
       match next with Some fd => walk_comps create fd comps | None => ret None end)%io
  end.

Definition walk_to_parent (root : path) (comps : list bytes) (create : bool) : io ApplyError (option path) :=
  walk_comps create root (parent comps).

Definition ensure_directory (fd : path) (name : bytes) (mode : Z) : io ApplyError () :=
  (do r := attempt (open_child_dir fd name) in
   do dir := match r with
             | Ok dir => ret dir
             | Err e =>
                 if decide (e = ENOENT) then make_child fd name
                 else if is_non_directory e then replace_child fd name
                 else fail (HostCall e)
             end in
   host (fchmod dir mode))%io.

(** Names that are not UTF-8 come out with replacement characters. *)
Definition dir_child_names (f : fs) (dir : path) : list bytes := to_string_lossy <$> names f dir.

Definition each {A : Type} (g : A → io ApplyError ()) (l : list A) : io ApplyError () :=
  foldr (λ x rest, run g x; rest)%io (ret ()) l.

Definition unlink_gone (c : io errno ()) : io ApplyError () :=
  (do r := attempt c in match r with Ok _ | Err ENOENT => ret () | Err e => fail (HostCall e) end)%io.

(** One level of directories per unit of fuel. *)
Fixpoint remove_levels (fuel : nat) (fd : path) (name : bytes) : io ApplyError () :=
  match fuel with
  | O => fail RemovalTooDeep
  | S fuel =>
      (do r := attempt (open_child_dir fd name) in
       match r with
       | Ok dir =>
           do children := reads (λ f, Ok (dir_child_names f dir)) in
           run each (remove_levels fuel dir) children;
           unlink_gone (remove_dir (at_path fd name))
       | Err e =>
           if decide (e = ENOENT) then ret ()
           else if is_non_directory e then unlink_gone (remove_file (at_path fd name))
           else fail (HostCall e)
       end)%io
  end.

Definition remove_recursive_at (fd : path) (name : bytes) : io ApplyError () :=
  (do depth := reads (λ f, Ok (depth_bound f)) in remove_levels (S depth) fd name)%io.

Definition clear_directory (root : path) (comps : list bytes) : io ApplyError () :=
  (do parent := walk_to_parent root comps true in
   match parent with
   | None => ret ()
   | Some parent =>
       run ensure_directory parent (last_comp comps) 0x1ed;
       do dir := host (open_child_dir parent (last_comp comps)) in
       do children := reads (λ f, Ok (dir_child_names f dir)) in
       each (remove_recursive_at dir) children
   end)%io.

Definition remove_validated_target (root : path) (comps : list bytes) : io ApplyError () :=
  (do parent := walk_to_parent root comps false in
   match parent with None => ret () | Some parent => remove_recursive_at parent (last_comp comps) end)%io.

(** ** Content *)

(** The modification times of the host's files, in seconds. *)
Definition mtimes : Type := path → Z.
Definition stamp (q : path) (t : Z) (times : mtimes) : mtimes := λ p, if decide (p = q) then t else times p.

Definition unchanged (f : fs) (times : mtimes) (fd : path) (name : bytes) (size mtime : Z) : bool :=
  match resolve f false (at_path fd name) with
  | Err _ => false
  | Ok q =>
      match f !! q with
      | Some (NFile data _ _) =>
          bool_decide (0 ≤ times q)%Z && bool_decide (Z.of_nat (length data) = size) && bool_decide (times q = mtime)
      | _ => false
      end
  end.

Definition dest_file_content_equals (f : fs) (fd : path) (name winner : bytes) : result bool ApplyError :=
  match (let? q := resolve f false (at_path fd name) in node_at f q)%result with
  | Ok (NFile data _ _) => Ok (bool_decide (data = winner))
  | Ok (NSymlink _) => Ok false
  | Ok (NDir _ _) => Err (HostCall EISDIR)
  | Ok _ => Err (HostCall EIO)
  | Err e => if decide (e = ENOENT) then Ok false else if is_non_directory e then Ok false else Err (HostCall e)
  end.

(** [i64::try_from(mtime).unwrap_or(0)] *)
Definition stamp_of (mtime : Z) : Z := if decide (mtime < 2 ^ 63)%Z then mtime else 0.

Definition write_file (fd : path) (name : bytes) (mode mtime : Z) (content : bytes) (times : mtimes) : io ApplyError (Z * mtimes) :=
  (do file := host (openat_new (at_path fd name)) in
   run host (write_all file content);
   run host (fchmod file mode);
   run host sync;
   ret (Z.of_nat (length content), stamp file (stamp_of mtime) times))%io.

Definition replace_file (fd : path) (name : bytes) (mode mtime : Z) (content : bytes) (st : DirApplyStats * mtimes)
    : io ApplyError (DirApplyStats * mtimes) :=
  (run remove_recursive_at fd name;
   do r := write_file fd name mode mtime content st.2 in
   ret (wrote_file r.1 st.1, r.2))%io.

Definition reach (root : path) (comps : list bytes) : io ApplyError path :=
  (do parent := walk_to_parent root comps true in
   match parent with None => fail (Unreachable comps) | Some fd => ret fd end)%io.

Definition apply_entry (root : path) (planned : PlannedEntry) (e : tar_entry) (st : DirApplyStats * mtimes)
    : io ApplyError (DirApplyStats * mtimes) :=
  match planned with
  | PlannedMarker => ret st
  | PlannedDirectory comps mode =>
      (do fd := reach root comps in
       run ensure_directory fd (last_comp comps) mode;
       ret st)%io
  | PlannedFile comps mode mtime size =>
      (do fd := reach root comps in
       let name := last_comp comps in
       do same := reads (λ f, Ok (unchanged f st.2 fd name size mtime)) in
       if same : bool then
         do equal := reads (λ f, dest_file_content_equals f fd name (te_content e)) in
         if equal : bool then ret (skipped_file st.1, st.2)
         else replace_file fd name mode mtime (te_content e) st
       else replace_file fd name mode mtime (te_content e) st)%io
  | PlannedSymlink comps =>
      match te_link e with
      | None => fail ChangedBetweenPasses
      | Some target =>
          (do fd := reach root comps in
           run remove_recursive_at fd (last_comp comps);
           run host (fs_symlink target (at_path fd (last_comp comps)));
           ret (wrote_symlink st.1, st.2))%io
      end
  end.

Fixpoint apply_entries (root : path) (planned : list PlannedEntry) (es : list tar_entry) (st : DirApplyStats * mtimes)
    : io ApplyError (DirApplyStats * mtimes) :=
  match es, planned with
  | [], _ => ret st
  | _ :: _, [] => fail ChangedBetweenPasses
  | e :: es, p :: planned =>
      (do st := apply_entry root p e st in apply_entries root planned es st)%io
  end.

Definition apply_content `{ExportCodec} (compressed : bytes) (plan : ApplyPlan) (root : path) (caps : ExportApplyCaps)
    (st : DirApplyStats * mtimes) : io ApplyError (DirApplyStats * mtimes) :=
  (do s := reads (λ _, capped_decoder compressed (max_decompressed_bytes caps)) in
   let '(es, end_) := tar_read s in
   do st := apply_entries root (entries plan) es st in
   match end_ with
   | Some e => fail (map_cap_error e (max_decompressed_bytes caps))
   | None => ret st
   end)%io.

Fixpoint clear_opaques (root : path) (dirs : list (list bytes)) (stats : DirApplyStats) : io ApplyError DirApplyStats :=
  match dirs with
  | [] => ret stats
  | dir :: dirs => (run clear_directory root dir; clear_opaques root dirs (cleared_opaque stats))%io
  end.

Fixpoint apply_deletes (root : path) (targets : list (list bytes)) (stats : DirApplyStats) : io ApplyError DirApplyStats :=
  match targets with
  | [] => ret stats
  | target :: targets => (run remove_validated_target root target; apply_deletes root targets (applied_delete stats))%io
  end.

(** [compressed] is the whole delivery: the validation pass tees what it reads and
    the rest is drained, so both passes read the same bytes. *)
Definition apply_dir_delta `{ExportCodec} (compressed : bytes) (dest : path) (caps : ExportApplyCaps) (times : mtimes)
    : io ApplyError (DirApplyStats * mtimes) :=
  (do plan := reads (λ _, plan_stream compressed caps) in
   do root := open_dest_root dest in
   do stats := clear_opaques root (opaque_dirs plan) no_apply_stats in
   do stats := apply_deletes root (whiteout_targets plan) stats in
   apply_content compressed plan root caps (stats, times))%io.

(** ** Archives *)

(** The temporary name next to the archive: [n] is the nonce. *)
Definition archive_temp_path (pid : N) (dest : path) (n : N) : result path ApplyError :=
  match last dest with
  | Some name =>
      if utf8_valid name then
        Ok (parent dest ++ [lit "." ++ name ++ lit "." ++ fmt_dec pid ++ lit "." ++ pad 4 (fmt_num 16 n) ++ lit ".tmp"])
      else Err NoFileName
  | None => Err NoFileName
  end.

(** [std::io::copy] from a stream: a failing read leaves what came before it. *)
Definition copy_stream (q : path) (s : stream) (cap : Z) : io ApplyError Z :=
  (run host (write_all q s.1);
   match s.2 with
   | Some e => fail (map_cap_error e cap)
   | None => ret (Z.of_nat (length s.1))
   end)%io.

Definition write_archive `{ExportCodec} (pid : N) (delivery : bytes) (dest : path) (format : ArchiveFormat) (caps : ExportApplyCaps)
    : io ApplyError Z :=
  (do n := next_unique in
   do temp := reads (λ _, archive_temp_path pid dest n) in
   do r := attempt (
     do q := host (file_create temp) in
     do n := match format with
             | FormatTarZst => copy_stream q (delivery, None) (max_decompressed_bytes caps)
             | FormatTar =>
                 do s := reads (λ _, capped_decoder delivery (max_decompressed_bytes caps)) in
                 copy_stream q s (max_decompressed_bytes caps)
             end in
     run host (fs_rename temp dest);
     ret n) in
   match r with
   | Ok n => ret n
   | Err e => run attempt (F := ApplyError) (remove_file temp); fail e
   end)%io.
