(* ===== verification/ExportSafe.v ===== *)
(** * What an export can touch

    The stream comes from the sandbox and is not trusted.  Whatever it contains,
    and whichever calls fail, the applier changes nothing but what lies strictly
    below the destination directory, a rejected stream changes nothing at all,
    and the counters stay within the caps. *)

From S2P Require Import Prelude ByteStr Model FS Storage World StorageOps Descend Lease View Project Base BaseSpec Archive ExportApply.

(** ** Names *)

(** The name of a directory entry. *)
Definition real (c : bytes) : Prop := c ≠ [] ∧ c ≠ dot ∧ c ≠ dotdot ∧ slash ∉ c.

Definition real_names (f : fs) : Prop := ∀ q, is_Some (f !! q) → Forall real q.

Lemma at_path_real fd c : real c → at_path fd c = fd ++ [c].
Proof.
  intros (Hne & Hd & _ & Hs). unfold at_path, is_absolute, path_comps. rewrite split_on_one by done.
  rewrite filter_cons_True, filter_nil by done. destruct c as [|x c]; [done|].
  replace (starts_with [slash] (x :: c)) with false; [done|]. cbn. symmetry. apply andb_false_iff. left.
  apply bool_decide_eq_false. set_solver.
Qed.

Lemma lossy_head x s :
  in_range 0x00 0x7f x = false → ∃ y t, to_string_lossy (x :: s) = y :: t ∧ in_range 0x00 0x7f y = false.
Proof.
  intros Hx. cbn [to_string_lossy]. rewrite Hx.
  repeat (first [by eexists _, _|case_match]).
Qed.

Lemma lossy_elem s : slash ∈ to_string_lossy s → slash ∈ s.
Proof.
  assert (slash ∉ REPLACEMENT) as HR by (vm_compute; set_solver).
  remember (length s) as n eqn:Hn. revert s Hn. induction n as [n IH] using lt_wf_ind. intros s -> Hin.
  assert (∀ t, length t < length s → slash ∈ to_string_lossy t → slash ∈ t) as IH' by (intros t Ht; by eapply IH).
  clear IH. destruct s as [|x s]; [done|]. cbn [to_string_lossy] in Hin.
  repeat case_match; subst; repeat match goal with
    | H : slash ∈ REPLACEMENT ++ _ |- _ => apply elem_of_app in H as [H|H]; [by apply HR in H|]
    | H : slash ∈ REPLACEMENT |- _ => by apply HR in H
    | H : slash ∈ to_string_lossy _ |- _ => apply IH' in H; [set_solver|simpl; lia]
    | H : slash ∈ _ :: _ |- _ => apply elem_of_cons in H as [->|H]; [set_solver|]
    end.
Qed.

Lemma lossy_real c : real c → real (to_string_lossy c).
Proof.
  intros (Hne & Hd & Hdd & Hs). destruct c as [|x c]; [done|].
  destruct (in_range 0 0x7f x) eqn:Hx.
  - assert (to_string_lossy (x :: c) = x :: to_string_lossy c) as He by (cbn [to_string_lossy]; by rewrite Hx).
    assert (∀ y, in_range 0 0x7f y = true → to_string_lossy c = [y] → c = [y]) as Hone.
    { destruct c as [|z c]; [done|]. intros y Hy. destruct (in_range 0 0x7f z) eqn:Hz.
      - cbn [to_string_lossy]. rewrite Hz. intros [= -> Hc]. destruct c as [|u c]; [done|].
        destruct (in_range 0 0x7f u) eqn:Hu; [cbn [to_string_lossy] in Hc; by rewrite Hu in Hc|].
        destruct (lossy_head u c Hu) as (? & ? & Hc' & _). by rewrite Hc' in Hc.
      - destruct (lossy_head z c Hz) as (v & t & -> & Hv). intros [= -> _]. congruence. }
    rewrite He. split_and!; [done|..].
    + intros [= -> Hc]. destruct c as [|z c]; [done|]. destruct (in_range 0 0x7f z) eqn:Hz.
      * cbn [to_string_lossy] in Hc. by rewrite Hz in Hc.
      * destruct (lossy_head z c Hz) as (v & t & Hl & _). by rewrite Hl in Hc.
    + intros [= -> Hc]. apply Hone in Hc as ->; [done|reflexivity].
    + rewrite <-He. intros Hin. by apply lossy_elem in Hin.
  - destruct (lossy_head x c Hx) as (y & t & He & Hy).
    assert (∀ s, head s = Some (Byte.x2e) → y :: t ≠ s) as Hnd.
    { intros s Hh <-. cbn in Hh. by simplify_eq. }
    rewrite He. split_and!; [done|by apply Hnd|by apply Hnd|]. rewrite <-He. intros Hin. by apply lossy_elem in Hin.
Qed.

Lemma child_names_real f d : real_names f → Forall real (dir_child_names f d).
Proof.
  intros Hr. apply Forall_fmap, Forall_forall. intros c Hc%elem_of_names%Hr. cbn. apply lossy_real.
  apply Forall_app in Hc as [_ Hc]. by inversion Hc.
Qed.

Lemma normal_parts_real name ps cs :
  Forall (λ c, slash ∉ c) ps → normal_parts name ps = Ok cs → Forall real cs.
Proof.
  intros Hps. revert cs. induction Hps as [|c ps Hc _ IH]; intros cs; cbn [normal_parts]; [by intros [= <-]|].
  destruct (bool_decide (c = [])) eqn:H1; cbn [orb]; [by apply IH|].
  destruct (bool_decide (c = dot)) eqn:H2; cbn [orb]; [by apply IH|].
  destruct (bool_decide (c = dotdot)) eqn:H3; [done|].
  destruct (normal_parts name ps) as [cs'|]; cbn [result_bind]; [|done]. intros [= <-]. rewrite !bool_decide_eq_false in *.
  constructor; [done|by apply IH].
Qed.

Lemma validated_real name cs : validated_components name = Ok cs → cs ≠ [] ∧ Forall real cs.
Proof.
  unfold validated_components. destruct (is_absolute name); [done|]. destruct (bool_decide _); [done|].
  destruct (normal_parts _ _) as [cs'|] eqn:Hn; cbn [result_bind]; [|done]. case_bool_decide as Hne; [done|].
  destruct (existsb _ _); [done|]. intros [= <-]. split; [done|]. eapply normal_parts_real; [|done]. apply Forall_forall. intros c Hc. by eapply split_on_free.
Qed.

(** ** Resolved directories *)

(** The links in front of a resolved path have been followed. *)
Definition plain_above (f : fs) (q : path) : Prop := dotdot ∉ q ∧ ∀ k, k < length q → dir_at f (take k q) = true.

Lemma plain_above_parent f q : plain_above f q → plain_above f (parent q).
Proof.
  intros [Hdd Hq]. unfold parent. split.
  { intros Hin. apply Hdd. rewrite <-(take_drop (pred (length q)) q). apply elem_of_app. by left. }
  intros k Hk. rewrite length_take in Hk. rewrite take_take, Nat.min_l by lia. apply Hq. lia.
Qed.

Lemma plain_above_snoc f q c : plain_above f q → dir_at f q = true → c ≠ dotdot → plain_above f (q ++ [c]).
Proof.
  intros [Hdd Hq] Hd Hc. split; [set_solver|]. intros k Hk. rewrite length_app in Hk. cbn in Hk.
  rewrite take_app_le by lia. destruct (decide (k = length q)) as [->|]; [by rewrite firstn_all|]. apply Hq. lia.
Qed.

Lemma walk_above f links : ∀ follow cur rest q, walk f links follow cur rest = Ok q → plain_above f cur → plain_above f q.
Proof.
  induction links as [links IH] using lt_wf_ind. intros follow cur rest. revert cur.
  induction rest as [|c rest IHr]; intros cur q; rewrite walk_eq; [by intros [= <-]|].
  destruct (dir_at f cur) eqn:Hd; [|done]. case_decide; [intros; by eapply IHr; [|apply plain_above_parent]|].
  intros Hw Hcur. pose proof (plain_above_snoc f cur c Hcur Hd ltac:(done)) as Hn.
  destruct (f !! (cur ++ [c])) as [[]|] eqn:Hf; try (by eapply IHr).
  - case_match; [by simplify_eq|]. destruct links as [|links]; [done|]. destruct (link_parts target) as [[] cs].
    + eapply (IH links); [lia|done|]. split; [set_solver|intros k Hk; cbn in Hk; lia].
    + eapply (IH links); [lia|done|done].
  - case_decide; [by simplify_eq|done].
Qed.

Lemma openat_plain f p q : openat_dir f p = Ok q → plain_dir f q.
Proof.
  unfold openat_dir, resolve. destruct (walk f MAX_LINKS false [] p) as [q'|] eqn:Hw; cbn; [|done].
  destruct (f !! q') as [[]|] eqn:Hn; try done. intros [= <-].
  apply walk_above in Hw as [Hdd Hq]; [|split; [set_solver|intros k Hk; cbn in Hk; lia]].
  split; [done|]. intros k Hk. destruct (decide (k = length q')) as [->|]; [|apply Hq; lia].
  rewrite firstn_all. unfold dir_at. by rewrite Hn.
Qed.

Lemma openat_child f fd c : plain_dir f fd → real c →
  openat_dir f (at_path fd c) =
  match f !! (fd ++ [c]) with None => Err ENOENT | Some (NDir _ _) => Ok (fd ++ [c]) | Some _ => Err ENOTDIR end.
Proof.
  intros Hd Hc. rewrite at_path_real by done. unfold openat_dir. rewrite resolve_child; [done..|apply Hc].
Qed.

(** ** Code confined to a directory *)

Definition strictly (d q : path) : Prop := ∃ c r, q = d ++ c :: r.

Lemma strictly_app d r q : strictly (d ++ r) q → strictly d q.
Proof. intros (c & s & ->). rewrite <-(assoc_L (++)). destruct r as [|x r]; eexists _, _; done. Qed.

Lemma plain_strictly f0 f d : outside (strictly d) f0 f → plain_dir f0 d → plain_dir f d.
Proof.
  intros Hout [Hdd Hd]. split; [done|]. intros k Hk. specialize (Hd k Hk). unfold dir_at in *. rewrite Hout; [done|].
  intros (c & r & Hq). apply (f_equal length) in Hq. rewrite length_app, length_take in Hq. simpl in Hq. lia.
Qed.

Lemma bind_assoc_at {E A B C : Type} (c : io E A) (k : A → io E B) (l : B → io E C) w :
  bind (bind c k) l w = bind c (λ a, bind (k a) l) w.
Proof. unfold bind. by destruct (c w) as [[a|e] w']. Qed.

(** [confined d P c Q]: from a file system with real names in which [d] is a plain
    directory and [P] holds, [c] leaves everything but the inside of [d] as it
    is, also when it fails, and ends in [Q] when it does not. *)
Definition confined {E A : Type} (d : path) (P : fs → Prop) (c : io E A) (Q : A → fs → Prop) : Prop :=
  ∀ w, real_names (w_fs w) → plain_dir (w_fs w) d → P (w_fs w) →
  outside (strictly d) (w_fs w) (w_fs (c w).2) ∧ real_names (w_fs (c w).2) ∧
  match (c w).1 with Ok a => Q a (w_fs (c w).2) | Err _ => True end.

Abbreviation anyway := (λ _, True).
Abbreviation anyhow := (λ _ _, True).

Section confined.
Context {E : Type} (d : path).
Implicit Types P : fs → Prop.

Lemma confined_ret {A} (a : A) P (Q : A → fs → Prop) : (∀ f, P f → Q a f) → confined d P (ret (E := E) a) Q.
Proof. intros HQ w Hr Hd HP. simpl. split_and!; [done|done|auto]. Qed.

Lemma confined_fail {A} (e : E) P (Q : A → fs → Prop) : confined d P (fail e) Q.
Proof. intros w Hr Hd HP. by simpl. Qed.

Lemma confined_reads {A} (g : fs → result A E) P (Q : A → fs → Prop) :
  (∀ f a, real_names f → plain_dir f d → P f → g f = Ok a → Q a f) → confined d P (reads g) Q.
Proof. intros HQ w Hr Hd HP. simpl. split_and!; [done|done|]. destruct (g (w_fs w)) eqn:Hg; eauto. Qed.

Lemma confined_bind {A B} (c : io E A) (k : A → io E B) P Q R :
  confined d P c Q → (∀ a, confined d (Q a) (k a) R) → confined d P (bind c k) R.
Proof.
  intros Hc Hk w Hr Hd HP. destruct (Hc w Hr Hd HP) as (Ho & Hr' & HQ). unfold bind. destruct (c w) as [[a|e] w1]; [|done].
  cbn in *. destruct (Hk a w1 Hr' ltac:(by eapply plain_strictly) HQ) as (Ho2 & Hr2 & HR). split_and!; [|done|done].
  intros q Hq. by rewrite Ho2, Ho.
Qed.

Lemma confined_lift_err {A F} (g : F → E) (c : io F A) P Q : confined d P c Q → confined d P (lift_err g c) Q.
Proof.
  intros Hc w Hr Hd HP. specialize (Hc w Hr Hd HP). unfold lift_err. by destruct (c w) as [[a|e] w1].
Qed.

Lemma confined_attempt {A F} (c : io F A) P Q :
  confined d P c Q → confined d P (attempt (F := E) c) (λ r f, match r with Ok a => Q a f | Err _ => True end).
Proof.
  intros Hc w Hr Hd HP. specialize (Hc w Hr Hd HP). unfold attempt. by destruct (c w) as [[a|e] w1].
Qed.

Lemma confined_conseq {A} (c : io E A) P P' (Q Q' : A → fs → Prop) :
  confined d P c Q → (∀ f, P' f → P f) → (∀ a f, Q a f → Q' a f) → confined d P' c Q'.
Proof.
  intros Hc HP HQ w Hr Hd HP'. destruct (Hc w Hr Hd (HP _ HP')) as (? & ? & ?). split_and!; [done|done|].
  destruct (c w).1; eauto.
Qed.

Lemma confined_here {A} (c : io E A) P Q : confined d (λ f, plain_dir f d ∧ P f) c Q → confined d P c Q.
Proof. intros Hc w Hr Hd HP. by apply Hc. Qed.

Lemma confined_ext {A} (c c' : io E A) P Q : (∀ w, c w = c' w) → confined d P c' Q → confined d P c Q.
Proof. intros Hc H w Hr Hd HP. rewrite Hc. by apply H. Qed.

(** Code confined to a directory further down. *)
Lemma confined_deeper {A} r (c : io E A) (Q : A → fs → Prop) :
  confined (d ++ r) anyway c Q → confined d (λ f, plain_dir f (d ++ r)) c (λ a f, Q a f ∧ plain_dir f (d ++ r)).
Proof.
  intros Hc w Hr Hd HP. destruct (Hc w Hr HP I) as (Ho & Hr' & HQ). split_and!; [|done|].
  - intros q Hq. apply Ho. intros Hs. by eapply Hq, strictly_app.
  - destruct (c w).1; [|done]. split; [done|]. by eapply plain_strictly.
Qed.
End confined.

Lemma confined_syscall {A : Type} d (g : fs → result (A * fs) errno) (P : fs → Prop) (Q : A → fs → Prop) :
  (∀ f a f', real_names f → plain_dir f d → P f → g f = Ok (a, f') → outside (strictly d) f f' ∧ real_names f' ∧ Q a f') →
  confined d P (syscall g) Q.
Proof.
  intros Hg w Hr Hd HP. unfold syscall, bind, fault, reads.
  destruct (w_faults w) as [|[k|] xs]; cbn; [|done|];
    (destruct (g (w_fs w)) as [[a f']|e] eqn:Hw; cbn; [by eapply Hg|done]).
Qed.

(** ** The calls of the applier *)

Section calls.
Context (fd : path) (c : bytes).
Hypothesis Hc : real c.

Lemma child_strictly : strictly fd (fd ++ [c]).
Proof. by exists c, []. Qed.

Lemma real_names_insert f n : real_names f → plain_dir f fd → real_names (<[fd ++ [c] := n]> f).
Proof using Hc.
  intros Hr Hd q [m Hq]. apply lookup_insert_Some in Hq as [[<- _]|[_ Hq]]; [|by apply Hr].
  apply Forall_app. split; [|by constructor]. pose proof (plain_dir_at f fd Hd) as Hfd. unfold dir_at in Hfd.
  apply Hr. destruct (f !! fd); [eauto|done].
Qed.

Lemma real_names_delete f q : real_names f → real_names (delete q f).
Proof. intros Hr p [m Hp]. apply lookup_delete_Some in Hp as [_ Hp]. by apply Hr. Qed.

Lemma confined_put n f : real_names f → plain_dir f fd →
  outside (strictly fd) f (<[fd ++ [c] := n]> f) ∧ real_names (<[fd ++ [c] := n]> f).
Proof using Hc.
  intros Hr Hd. split; [|by apply real_names_insert]. by apply outside_insert; [apply child_strictly|].
Qed.

Lemma confined_cut f : real_names f → outside (strictly fd) f (delete (fd ++ [c]) f) ∧ real_names (delete (fd ++ [c]) f).
Proof. intros Hr. split; [|by apply real_names_delete]. by apply outside_delete; [apply child_strictly|]. Qed.

Lemma child_resolves f : plain_dir f fd → resolve f false (at_path fd c) = Ok (fd ++ [c]).
Proof using Hc. intros Hd. rewrite at_path_real by done. apply resolve_child; [done|apply Hc]. Qed.

Lemma confined_open : confined fd anyway (open_child_dir fd c) (λ q f, q = fd ++ [c] ∧ plain_dir f q).
Proof using Hc.
  apply confined_reads. intros f q _ Hd _ Hq. split; [|by eapply openat_plain].
  rewrite openat_child in Hq by done. by destruct (f !! (fd ++ [c])) as [[]|]; simplify_eq.
Qed.

Lemma confined_mkdir : confined fd anyway (sys_mkdir (at_path fd c)) anyhow.
Proof using Hc.
  apply confined_syscall. intros f a f' Hr Hd _. rewrite child_resolves by done. cbn [result_bind]. case_decide; [|done].
  intros [= <- <-]. by destruct (confined_put (NDir 0x1ed ∅) f Hr Hd).
Qed.

Lemma confined_remove_file : confined fd anyway (remove_file (at_path fd c)) anyhow.
Proof using Hc.
  apply confined_syscall. intros f a f' Hr Hd _. rewrite child_resolves by done. cbn [result_bind].
  destruct (f !! (fd ++ [c])) as [[]|]; intros [=]; subst; by destruct (confined_cut f Hr).
Qed.

Lemma confined_remove_dir : confined fd anyway (remove_dir (at_path fd c)) anyhow.
Proof using Hc.
  apply confined_syscall. intros f a f' Hr Hd _. rewrite child_resolves by done. cbn [result_bind].
  destruct (f !! (fd ++ [c])) as [[]|]; try done. destruct (has_children _ _); [done|]. intros [=]; subst. by destruct (confined_cut f Hr).
Qed.

Lemma confined_symlink t : confined fd anyway (fs_symlink t (at_path fd c)) anyhow.
Proof using Hc.
  apply confined_syscall. intros f a f' Hr Hd _. rewrite child_resolves by done. cbn [result_bind]. case_decide; [|done].
  intros [= <- <-]. by destruct (confined_put (NSymlink t) f Hr Hd).
Qed.

Lemma confined_new : confined fd anyway (openat_new (at_path fd c)) (λ q _, q = fd ++ [c]).
Proof using Hc.
  apply confined_syscall. intros f a f' Hr Hd _. rewrite child_resolves by done. cbn [result_bind]. case_decide; [|done].
  intros [= <- <-]. by destruct (confined_put (NFile [] 0x180 ∅) f Hr Hd).
Qed.

Lemma confined_fchmod mode : confined fd anyway (fchmod (fd ++ [c]) mode) anyhow.
Proof using Hc.
  apply confined_syscall. intros f a f' Hr Hd _ [= <- <-].
  destruct (f !! (fd ++ [c])) as [[]|]; try done;
    match goal with |- context [<[_ := ?n]> f] => by destruct (confined_put n f Hr Hd) end.
Qed.

Lemma put_data_confined f data : real_names f → plain_dir f fd →
  outside (strictly fd) f (put_data f (fd ++ [c]) data) ∧ real_names (put_data f (fd ++ [c]) data).
Proof using Hc.
  intros Hr Hd. unfold put_data. destruct (f !! (fd ++ [c])) as [[]|]; try done. by apply confined_put.
Qed.

Lemma confined_write data : confined fd anyway (write_all (fd ++ [c]) data) anyhow.
Proof using Hc.
  intros w Hr Hd _. unfold write_all, bind, fault, reads, set_fs, fail.
  destruct (w_faults w) as [|[k|] xs]; cbn;
    match goal with |- context [put_data _ _ ?x] => by destruct (put_data_confined (w_fs w) x Hr Hd) end.
Qed.
End calls.

Lemma confined_sync d : confined d anyway sync anyhow.
Proof. apply confined_syscall. by intros f a f' Hr Hd _ [= <- <-]. Qed.

(** ** The operations *)

Create HintDb confined discriminated.
#[export] Hint Resolve confined_open confined_mkdir confined_remove_file confined_remove_dir confined_symlink confined_new
  confined_fchmod confined_write confined_sync confined_lift_err confined_attempt confined_fail : confined.

(** A call whose value does not matter. *)
Ltac confined_call := eapply confined_conseq; [eauto with confined|done|done].

Lemma confined_bind_any {E A B} d (c : io E A) (k : A → io E B) Q :
  confined d anyway c anyhow → (∀ a, confined d anyway (k a) Q) → confined d anyway (bind c k) Q.
Proof. intros Hc Hk. by eapply confined_bind. Qed.

Section ops.
Context (fd : path) (c : bytes).
Hypothesis Hc : real c.

Definition opened_child (q : path) (f : fs) : Prop := q = fd ++ [c] ∧ plain_dir f q.

(** What is done with an opened child. *)
Lemma confined_opened {E A} q (k : path → io E A) R :
  confined fd (λ f, plain_dir f (fd ++ [c])) (k (fd ++ [c])) R → confined fd (opened_child q) (k q) R.
Proof. intros Hk w Hr Hd [-> Hq]. by apply Hk. Qed.

Lemma confined_host_open P : confined fd P (host (open_child_dir fd c)) opened_child.
Proof using Hc. eapply confined_conseq; [by apply confined_lift_err, confined_open|done|done]. Qed.

Lemma confined_make : confined fd anyway (make_child fd c) opened_child.
Proof using Hc.
  unfold make_child, host. apply confined_bind_any; [eauto with confined|]. intros _. apply confined_host_open.
Qed.

Lemma confined_replace : confined fd anyway (replace_child fd c) opened_child.
Proof using Hc.
  unfold replace_child, host. apply confined_bind_any; [eauto with confined|]. intros _. apply confined_make.
Qed.

Lemma confined_step create :
  confined fd anyway (step_into create fd c) (λ r f, match r with Some q => opened_child q f | None => True end).
Proof using Hc.
  unfold step_into. eapply confined_bind; [by apply confined_attempt, confined_open|]. intros [q|e].
  { apply confined_ret. by intros f [-> ?]. }
  case_decide; [destruct create|]; [| |destruct (is_non_directory e); [destruct create|]];
    try (by apply confined_ret); try (by apply confined_fail).
  - eapply confined_bind; [by apply confined_attempt, confined_mkdir|]. intros r.
    assert (confined fd anyway (do next := host (open_child_dir fd c) in ret (Some next))%io
      (λ r f, match r with Some q => opened_child q f | None => True end)) as Ho.
    { eapply confined_bind; [apply confined_host_open|]. intros q. by apply confined_ret. }
    destruct r as [?|[]]; try (by apply confined_fail); (eapply confined_conseq; [exact Ho|done|done]).
  - eapply confined_bind; [apply confined_replace|]. intros q. by apply confined_ret.
Qed.

Lemma confined_ensure mode : confined fd anyway (ensure_directory fd c mode) anyhow.
Proof using Hc.
  unfold ensure_directory, host. eapply confined_bind; [by apply confined_attempt, confined_open|]. intros r.
  eapply (confined_bind _ _ _ _ opened_child).
  - destruct r as [q|e]; [by apply confined_ret|]. case_decide; [apply confined_make|].
    destruct (is_non_directory e); [apply confined_replace|apply confined_fail].
  - intros q. apply (confined_opened q (λ q, lift_err HostCall (fchmod q mode))).
    eapply confined_conseq; [by apply confined_lift_err, confined_fchmod|done|done].
Qed.
End ops.

Lemma confined_unlink_gone d (c : io errno ()) : confined d anyway c anyhow → confined d anyway (unlink_gone c) anyhow.
Proof.
  intros Hc. unfold unlink_gone. eapply confined_bind; [by apply confined_attempt|]. intros r.
  eapply (confined_conseq _ _ anyway _ anyhow); [|done|done]. destruct r as [?|[]]; first [by apply confined_ret|by apply confined_fail].
Qed.

Lemma confined_each {A} d (g : A → io ApplyError ()) l :
  (∀ x, x ∈ l → confined d anyway (g x) anyhow) → confined d anyway (each g l) anyhow.
Proof.
  induction l as [|x l IH]; intros Hg; [by apply confined_ret|]. cbn. apply confined_bind_any; [apply Hg; set_solver|].
  intros _. apply IH. set_solver.
Qed.

(** A loop over the children of a directory further down. *)
Lemma confined_children d r (g : bytes → io ApplyError ()) :
  (∀ c, real c → confined (d ++ r) anyway (g c) anyhow) →
  confined d (λ f, plain_dir f (d ++ r)) (do children := reads (λ f, Ok (dir_child_names f (d ++ r))) in each g children)%io anyhow.
Proof.
  intros Hg. eapply confined_conseq; [apply (confined_deeper d r _ anyhow)|done|done].
  eapply (confined_bind _ _ _ _ (λ cs _, Forall real cs)).
  - apply confined_reads. intros f cs Hr _ _ [= <-]. by apply child_names_real.
  - intros cs w Hr Hd Hcs. apply (confined_each _ g cs); [|done..]. intros x Hx. apply Hg. rewrite Forall_forall in Hcs. by apply Hcs.
Qed.

Lemma confined_remove_levels fuel : ∀ fd c, real c → confined fd anyway (remove_levels fuel fd c) anyhow.
Proof.
  induction fuel as [|fuel IH]; intros fd c Hc; [apply confined_fail|]. cbn [remove_levels].
  eapply confined_bind; [by apply confined_attempt, confined_open|]. intros [q|e].
  - apply (confined_opened fd c q (λ q, do children := reads (λ f, Ok (dir_child_names f q)) in
      run each (remove_levels fuel q) children; unlink_gone (remove_dir (at_path fd c)))%io).
    eapply confined_ext; [intros w; by rewrite <-bind_assoc_at|]. eapply (confined_bind _ _ _ _ anyhow).
    + apply confined_children. intros c' Hc'. by apply IH.
    + intros _. apply confined_unlink_gone; eauto with confined.
  - eapply (confined_conseq _ _ anyway _ anyhow); [|done|done]. case_decide; [by apply confined_ret|].
    destruct (is_non_directory e); [apply confined_unlink_gone; eauto with confined|apply confined_fail].
Qed.

Lemma confined_remove_recursive fd c : real c → confined fd anyway (remove_recursive_at fd c) anyhow.
Proof.
  intros Hc. unfold remove_recursive_at. apply confined_bind_any; [by apply confined_reads|]. intros depth. by apply confined_remove_levels.
Qed.

Lemma confined_walk create cs : ∀ d r, Forall real cs →
  confined d (λ f, plain_dir f (d ++ r)) (walk_comps create (d ++ r) cs)
    (λ q f, match q with Some q => (∃ s, q = d ++ s) ∧ plain_dir f q | None => True end).
Proof.
  induction cs as [|c cs IH]; intros d r Hcs; cbn [walk_comps].
  { apply confined_ret. intros f Hf. split; [by eexists|done]. }
  apply Forall_cons in Hcs as [Hc Hcs].
  eapply confined_bind; [by apply confined_deeper, confined_step|]. intros [q|]; [|by apply confined_ret].
  intros w Hr Hd [[-> Hq] _]. rewrite <-(assoc_L (++)) in Hq |- *. by apply IH.
Qed.

Lemma Forall_parent {A} (P : A → Prop) (cs : list A) : Forall P cs → Forall P (take (pred (length cs)) cs).
Proof. apply Forall_take. Qed.

Lemma last_comp_snoc cs c : last_comp (cs ++ [c]) = c.
Proof. unfold last_comp. by rewrite last_snoc. Qed.

Lemma last_real cs : cs ≠ [] → Forall real cs → real (last_comp cs).
Proof.
  intros Hne Hr. destruct cs as [|c cs _] using rev_ind; [done|]. rewrite last_comp_snoc.
  apply Forall_app in Hr as [_ Hr]. by inversion Hr.
Qed.

Definition plan_names (cs : list bytes) : Prop := cs ≠ [] ∧ Forall real cs.

Section root.
Context (root : path).

(** What happens in the parent directory of a planned path. *)
Lemma confined_in_parent {A} create cs (k : path → io ApplyError A) (m : io ApplyError A) :
  plan_names cs → (∀ fd, confined fd anyway (k fd) anyhow) → confined root anyway m anyhow →
  confined root anyway
    (do parent := walk_to_parent root cs create in match parent with Some fd => k fd | None => m end)%io anyhow.
Proof.
  intros [Hne Hcs] Hk Hm. unfold walk_to_parent. apply confined_here.
  pose proof (confined_walk create (parent cs) root [] ltac:(by apply Forall_parent)) as Hw. rewrite app_nil_r in Hw.
  eapply confined_bind; [eapply confined_conseq; [exact Hw|by intros ? []|done]|]. intros [q|].
  - intros w Hr Hd [[s ->] Hq]. destruct (confined_deeper root s (k (root ++ s)) anyhow (Hk _) w Hr Hd Hq) as (? & ? & ?).
    split_and!; [done|done|]. by destruct (k _ _).1.
  - by eapply confined_conseq; [exact Hm|..].
Qed.

Lemma confined_clear cs : plan_names cs → confined root anyway (clear_directory root cs) anyhow.
Proof.
  intros Hcs. unfold clear_directory. apply confined_in_parent; [done| |by apply confined_ret]. intros fd.
  pose proof (last_real cs (proj1 Hcs) (proj2 Hcs)) as Hl. apply confined_bind_any; [by apply confined_ensure|]. intros _.
  eapply confined_bind; [by apply confined_host_open|]. intros q.
  apply (confined_opened fd _ q (λ q, do children := reads (λ f, Ok (dir_child_names f q)) in each (remove_recursive_at q) children)%io).
  apply confined_children. intros c Hc. by apply confined_remove_recursive.
Qed.

Lemma confined_delete cs : plan_names cs → confined root anyway (remove_validated_target root cs) anyhow.
Proof.
  intros Hcs. apply confined_in_parent; [done| |by apply confined_ret]. intros fd. apply confined_remove_recursive.
  by apply last_real; apply Hcs.
Qed.

Lemma confined_write_file fd c mode mtime data times : real c → confined fd anyway (write_file fd c mode mtime data times) anyhow.
Proof.
  intros Hc. unfold write_file, host. eapply confined_bind; [by apply confined_lift_err, confined_new|]. intros q w Hr Hd ->.
  revert w Hr Hd. cut (confined fd anyway (run lift_err HostCall (write_all (fd ++ [c]) data); run lift_err HostCall (fchmod (fd ++ [c]) mode);
    run lift_err HostCall sync; ret (Z.of_nat (length data), stamp (fd ++ [c]) (stamp_of mtime) times))%io anyhow).
  { intros H w Hr Hd. by apply H. }
  repeat (apply confined_bind_any; [eauto with confined|intros _]). by apply confined_ret.
Qed.

Lemma confined_replace_file fd c mode mtime data st : real c → confined fd anyway (replace_file fd c mode mtime data st) anyhow.
Proof.
  intros Hc. unfold replace_file. apply confined_bind_any; [by apply confined_remove_recursive|]. intros _.
  apply confined_bind_any; [by apply confined_write_file|]. intros r. by apply confined_ret.
Qed.

(** The planned entries that the code reaches have validated names. *)
Definition planned_ok (p : PlannedEntry) : Prop :=
  match p with
  | PlannedDirectory cs _ | PlannedFile cs _ _ _ | PlannedSymlink cs => plan_names cs
  | PlannedMarker => True
  end.

Lemma confined_reach {A} cs (k : path → io ApplyError A) :
  plan_names cs → (∀ fd, confined fd anyway (k fd) anyhow) → confined root anyway (do fd := reach root cs in k fd)%io anyhow.
Proof.
  intros Hcs Hk. eapply confined_ext; [|by apply (confined_in_parent true cs k (fail (Unreachable cs))), confined_fail].
  intros w. unfold reach. rewrite bind_assoc_at. unfold bind at 1 3. by destruct (walk_to_parent root cs true w) as [[[]|] ?].
Qed.

Lemma confined_entry p e st : planned_ok p → confined root anyway (apply_entry root p e st) anyhow.
Proof.
  intros Hp. destruct p as [cs mode|cs mode mtime size|cs|]; cbn [apply_entry planned_ok] in *; [..|by apply confined_ret].
  all: pose proof Hp as [Hne Hr]; try (pose proof (last_real cs Hne Hr) as Hl).
  - apply confined_reach; [done|]. intros fd.
    apply confined_bind_any; [by apply confined_ensure|]. intros _. by apply confined_ret.
  - apply confined_reach; [done|]. intros fd. cbv zeta.
    apply confined_bind_any; [by apply confined_reads|]. intros [].
    + apply confined_bind_any; [by apply confined_reads|]. intros []; [by apply confined_ret|by apply confined_replace_file].
    + by apply confined_replace_file.
  - destruct (te_link e); [|apply confined_fail]. apply confined_reach; [done|].
    intros fd. apply confined_bind_any; [by apply confined_remove_recursive|]. intros _. unfold host.
    apply confined_bind_any; [eauto with confined|]. intros _. by apply confined_ret.
Qed.
End root.

(** ** Accepted plans *)

Lemma fold_result_inv {A B E : Type} (I : A → Prop) (g : A → B → result A E) l : ∀ a a',
  (∀ a b a', I a → g a b = Ok a' → I a') → I a → fold_result g a l = Ok a' → I a'.
Proof.
  induction l as [|b l IH]; intros a a' Hg Ha; cbn [fold_result]; [by intros [= <-]|].
  destruct (g a b) as [a1|] eqn:H1; cbn [result_bind]; [|done]. apply IH; eauto.
Qed.

Definition count_content (p : PlannedEntry) : nat := match p with PlannedMarker => 0 | _ => 1 end.

Record plan_ok (cap : Z) (plan : ApplyPlan) : Prop := {
  po_entries : Forall planned_ok (entries plan);
  po_opaque : Forall plan_names (opaque_dirs plan);
  po_whiteouts : Forall plan_names (whiteout_targets plan);
  po_cap : (Z.of_nat (length (entries plan)) ≤ Z.max 0 cap)%Z;
  po_count : length (opaque_dirs plan) + length (whiteout_targets plan) + sum_list_with count_content (entries plan) = length (entries plan);
}.

Lemma target_names cs stripped : cs ≠ [] → Forall real cs → invalid_target stripped = false → plan_names (parent cs ++ [stripped]).
Proof.
  intros Hne Hr Hi. unfold invalid_target in Hi. rewrite !orb_false_iff, !bool_decide_eq_false in Hi.
  split; [by destruct (parent cs)|]. apply Forall_app. split; [by apply Forall_parent|]. constructor; [|done]. by destruct Hi as [[[[??]?]?]?].
Qed.

Lemma opaque_names cs : ¬ length cs < 2 → Forall real cs → plan_names (parent cs).
Proof.
  intros Hl Hr. split; [|by apply Forall_parent]. intros Hp. apply (f_equal length) in Hp. unfold parent in Hp.
  rewrite length_take in Hp. simpl in Hp. lia.
Qed.

(** What an entry adds to the plan. *)
Lemma classified e name cs plan p plan' :
  plan_names cs → classify_entry e name cs plan = Ok (p, plan') →
  entries plan' = entries plan ∧
  ((p = PlannedMarker ∧ ∃ t, plan_names t ∧
      (opaque_dirs plan' = opaque_dirs plan ++ [t] ∧ whiteout_targets plan' = whiteout_targets plan ∨
       opaque_dirs plan' = opaque_dirs plan ∧ whiteout_targets plan' = whiteout_targets plan ++ [t])) ∨
   (planned_ok p ∧ count_content p = 1 ∧ opaque_dirs plan' = opaque_dirs plan ∧ whiteout_targets plan' = whiteout_targets plan)).
Proof.
  intros [Hne Hr]. unfold classify_entry. case_decide; [done|]. case_decide.
  { case_decide; [done|]. intros [= <- <-]. split; [done|]. left. split; [done|]. eexists. split; [by apply opaque_names|by left]. }
  destruct (strip_prefix _ _) as [stripped|].
  { destruct (invalid_target stripped) eqn:Hi; [done|]. intros [= <- <-]. split; [done|]. left. split; [done|].
    eexists. split; [by apply target_names|by right]. }
  destruct (te_mode e); [|done]. destruct (te_kind e); try done.
  all: repeat case_match; intros [=]; subst; (split; [done|right; by split_and!]).
Qed.

Lemma plan_entry_ok cap plan e plan' : plan_ok cap plan → plan_entry cap plan e = Ok plan' → plan_ok cap plan'.
Proof.
  intros [H1 H2 H3 H4 H5]. unfold plan_entry. case_decide as Hcap; [done|]. destruct (negb _); [done|].
  destruct (validated_components _) as [cs|] eqn:Hv; cbn [result_bind]; [|done]. apply validated_real in Hv.
  destruct (classify_entry _ _ _ _) as [[p plan1]|] eqn:Hc; cbn [result_bind]; [|done]. intros [= <-].
  apply classified in Hc as (He & Hc); [|done]. cbn [fst snd].
  destruct Hc as [(-> & t & Ht & [[Ho Hw]|[Ho Hw]])|(Hp & Hn & Ho & Hw)]; split; cbn [entries opaque_dirs whiteout_targets];
    rewrite ?He, ?Ho, ?Hw, ?length_app, ?sum_list_with_app; cbn [sum_list_with length count_content];
    rewrite ?Forall_app, ?Forall_singleton; first [done|lia].
Qed.

Lemma plan_stream_ok `{ExportCodec} compressed caps plan : plan_stream compressed caps = Ok plan → plan_ok (max_apply_entries caps) plan.
Proof.
  unfold plan_stream. destruct (capped_decoder _ _) as [s|]; cbn [result_bind]; [|done]. destruct (tar_read s) as [es end_].
  destruct (fold_result _ _ _) as [plan1|] eqn:Hf; cbn [result_bind]; [|done]. destruct end_; [done|]. intros [= <-].
  eapply (fold_result_inv (plan_ok (max_apply_entries caps))) in Hf as [? ? ? ? ?].
  - split; cbn [entries opaque_dirs whiteout_targets]; rewrite ?merge_sort_Permutation; done.
  - intros. by eapply plan_entry_ok.
  - split; by try apply Forall_nil; simpl; try lia.
Qed.

(** ** Confinement *)

Lemma confined_clears root dirs : ∀ stats, Forall plan_names dirs → confined root anyway (clear_opaques root dirs stats) anyhow.
Proof.
  induction dirs as [|dir dirs IH]; intros stats Hd; cbn [clear_opaques]; [by apply confined_ret|]. apply Forall_cons in Hd as [Hd Hds].
  apply confined_bind_any; [by apply confined_clear|]. intros _. by apply IH.
Qed.

Lemma confined_deletes root targets : ∀ stats, Forall plan_names targets → confined root anyway (apply_deletes root targets stats) anyhow.
Proof.
  induction targets as [|t targets IH]; intros stats Hd; cbn [apply_deletes]; [by apply confined_ret|]. apply Forall_cons in Hd as [Hd Hds].
  apply confined_bind_any; [by apply confined_delete|]. intros _. by apply IH.
Qed.

Lemma confined_entries root planned : ∀ es st, Forall planned_ok planned → confined root anyway (apply_entries root planned es st) anyhow.
Proof.
  induction planned as [|p planned IH]; intros [|e es] st Hp; cbn [apply_entries];
    [by apply confined_ret|apply confined_fail|by apply confined_ret|]. apply Forall_cons in Hp as [Hp Hps].
  apply confined_bind_any; [by apply confined_entry|]. intros st'. by apply IH.
Qed.

Lemma confined_content `{ExportCodec} compressed plan root caps st :
  Forall planned_ok (entries plan) → confined root anyway (apply_content compressed plan root caps st) anyhow.
Proof.
  intros Hp. unfold apply_content. apply confined_bind_any; [by apply confined_reads|]. intros s. destruct (tar_read s) as [es end_].
  apply confined_bind_any; [by apply confined_entries|]. intros st'. destruct end_; [apply confined_fail|by apply confined_ret].
Qed.

(** C6: an export stays inside its destination.  For every stream, honest or
    hostile, and whichever calls of the host fail, successful or not: nothing but
    what lies strictly below the opened destination directory is created,
    changed or removed, and no link leads the applier out of it.  A stream that
    the validation pass rejects, and a destination that cannot be opened, leave
    the host as it was. *)
Theorem export_stays_in_destination `{ExportCodec} compressed dest caps times w :
  real_names (w_fs w) →
  let '(r, w') := apply_dir_delta compressed dest caps times w in
  (∀ e, plan_stream compressed caps = Err e → r = Err e ∧ w' = w) ∧
  match openat_dir (w_fs w) dest with
  | Ok root => ∀ q, ¬ strictly root q → w_fs w' !! q = w_fs w !! q
  | Err _ => w' = w ∧ ∃ e, r = Err e
  end.
Proof.
  intros Hr. destruct (apply_dir_delta compressed dest caps times w) as [r w'] eqn:Hrun. unfold apply_dir_delta in Hrun.
  rewrite bind_reads in Hrun. destruct (plan_stream compressed caps) as [plan|e] eqn:Hplan.
  2:{ simplify_eq. split; [naive_solver|]. by destruct (openat_dir _ _); [|eauto]. }
  split; [done|]. unfold open_dest_root, host in Hrun. unfold bind at 1, lift_err, reads at 1 in Hrun.
  destruct (openat_dir (w_fs w) dest) as [root|e] eqn:Hopen; cbn [map_err] in Hrun; [|simplify_eq; eauto].
  apply plan_stream_ok in Hplan as [H1 H2 H3 _ _]. pose proof (openat_plain _ _ _ Hopen) as Hd.
  assert (confined root anyway (do stats := clear_opaques root (opaque_dirs plan) no_apply_stats in
    do stats := apply_deletes root (whiteout_targets plan) stats in
    apply_content compressed plan root caps (stats, times))%io anyhow) as Hc.
  { apply confined_bind_any; [by apply confined_clears|]. intros s1. apply confined_bind_any; [by apply confined_deletes|]. intros s2.
    by apply confined_content. }
  destruct (Hc w Hr Hd I) as (Ho & _). rewrite Hrun in Ho. exact Ho.
Qed.

(** ** Caps *)

Definition gives {E A : Type} (c : io E A) (φ : A → Prop) : Prop := ∀ w a w', c w = (Ok a, w') → φ a.

Lemma gives_bind {E A B} (c : io E A) (k : A → io E B) φ ψ : gives c φ → (∀ a, φ a → gives (k a) ψ) → gives (bind c k) ψ.
Proof.
  intros Hc Hk w b w'. unfold bind. destruct (c w) as [[a|e] w1] eqn:Hw; [|done]. intros Hb. eapply Hk; [by eapply Hc|done].
Qed.

Lemma gives_any {E A} (c : io E A) : gives c (λ _, True).
Proof. done. Qed.

Lemma gives_ret {E A} (a : A) (φ : A → Prop) : φ a → gives (ret (E := E) a) φ.
Proof. by intros Ha w b w' [= <- _]. Qed.

Lemma gives_fail {E A} (e : E) (φ : A → Prop) : gives (fail e) φ.
Proof. by intros w b w'. Qed.

(** The number of counted entries.  Directories are applied and not counted. *)
Definition counted (s : DirApplyStats) : Z := files_written s + symlinks_written s + skipped_unchanged s + deletes_applied s + opaque_clears s.

Definition grown (s s' : DirApplyStats) (n b : nat) : Prop :=
  (counted s' = counted s + Z.of_nat n ∧ bytes_written s' ≤ bytes_written s + Z.of_nat b)%Z.

Definition is_planned_directory (p : PlannedEntry) : bool := match p with PlannedDirectory _ _ => true | _ => false end.
Definition planned_directories (plan : ApplyPlan) : nat := length (List.filter is_planned_directory (entries plan)).

Definition count_applied (p : PlannedEntry) : nat := match p with PlannedMarker | PlannedDirectory _ _ => 0 | _ => 1 end.

Lemma count_split planned :
  sum_list_with count_content planned = sum_list_with count_applied planned + length (List.filter is_planned_directory planned).
Proof. induction planned as [|[] planned IH]; cbn in *; lia. Qed.

Lemma gives_clears root dirs : ∀ s, gives (clear_opaques root dirs s) (λ s', grown s s' (length dirs) 0).
Proof.
  unfold grown. induction dirs as [|dir dirs IH]; intros s; cbn [clear_opaques]; [apply gives_ret; cbn; lia|].
  eapply gives_bind; [apply gives_any|]. intros _ _ w s' w' Hrun. apply IH in Hrun. unfold counted in *. cbn in *. lia.
Qed.

Lemma gives_deletes root ts : ∀ s, gives (apply_deletes root ts s) (λ s', grown s s' (length ts) 0).
Proof.
  unfold grown. induction ts as [|t ts IH]; intros s; cbn [apply_deletes]; [apply gives_ret; cbn; lia|].
  eapply gives_bind; [apply gives_any|]. intros _ _ w s' w' Hrun. apply IH in Hrun. unfold counted in *. cbn in *. lia.
Qed.

Lemma gives_replace fd c mode mtime data st :
  gives (replace_file fd c mode mtime data st) (λ st', grown st.1 st'.1 1 (length data)).
Proof.
  unfold replace_file. eapply gives_bind; [apply gives_any|]. intros _ _.
  eapply (gives_bind _ _ (λ r, r.1 = Z.of_nat (length data))).
  - unfold write_file. repeat (eapply gives_bind; [apply gives_any|intros ? _]). by apply gives_ret.
  - intros r Hr. apply gives_ret. unfold grown, counted. cbn. lia.
Qed.

Lemma gives_entry root p e st : gives (apply_entry root p e st) (λ st', grown st.1 st'.1 (count_applied p) (length (te_content e))).
Proof.
  destruct p as [cs mode|cs mode mtime size|cs|]; cbn [apply_entry count_applied]; [..|apply gives_ret; unfold grown; lia].
  - repeat (eapply gives_bind; [apply gives_any|intros ? _]). apply gives_ret. unfold grown. lia.
  - eapply gives_bind; [apply gives_any|]. intros fd _. cbv zeta. eapply gives_bind; [apply gives_any|]. intros [] _; [|apply gives_replace].
    eapply gives_bind; [apply gives_any|]. intros [] _; [|apply gives_replace]. apply gives_ret. unfold grown, counted. cbn. lia.
  - destruct (te_link e); [|apply gives_fail]. repeat (eapply gives_bind; [apply gives_any|intros ? _]). apply gives_ret.
    unfold grown, counted. cbn. lia.
Qed.

Lemma gives_entries root planned : ∀ es st, length es = length planned →
  gives (apply_entries root planned es st) (λ st', grown st.1 st'.1 (sum_list_with count_applied planned) (contents_length es)).
Proof.
  unfold contents_length. induction planned as [|p planned IH]; intros [|e es] st Hlen; try discriminate Hlen; cbn [apply_entries].
  { apply gives_ret. unfold grown. cbn. lia. }
  eapply gives_bind; [apply gives_entry|]. intros st1 H1 w st2 w' Hrun. apply IH in Hrun; [|by injection Hlen]. unfold grown in *. cbn in *. lia.
Qed.

(** One planned entry per entry of the archive. *)
Lemma planned_length cap es : ∀ plan plan',
  fold_result (plan_entry cap) plan es = Ok plan' → length (entries plan') = length (entries plan) + length es.
Proof.
  induction es as [|e es IH]; intros plan plan'; cbn [fold_result]; [intros [= <-]; cbn; lia|].
  destruct (plan_entry cap plan e) as [plan1|] eqn:H1; cbn [result_bind]; [|done]. intros ->%IH. revert H1. unfold plan_entry.
  case_decide; [done|]. destruct (negb _); [done|]. destruct (validated_components _) as [cs|] eqn:Hv; cbn [result_bind]; [|done].
  apply validated_real in Hv. destruct (classify_entry _ _ _ _) as [[p plan2]|] eqn:Hc; cbn [result_bind]; [|done]. intros [= <-].
  apply classified in Hc as (He & _); [|done]. cbn [entries fst snd length]. rewrite He, length_app. cbn. lia.
Qed.

Lemma plan_stream_length `{ExportCodec} compressed caps plan s :
  plan_stream compressed caps = Ok plan → capped_decoder compressed (max_decompressed_bytes caps) = Ok s →
  length (tar_read s).1 = length (entries plan).
Proof.
  unfold plan_stream. intros Hplan Hs. rewrite Hs in Hplan. cbn [result_bind] in Hplan. destruct (tar_read s) as [es end_].
  destruct (fold_result _ _ _) as [plan1|] eqn:Hf; cbn [result_bind] in Hplan; [|done]. destruct end_; [done|]. injection Hplan as <-.
  apply planned_length in Hf. cbn in *. lia.
Qed.

Lemma capped_length cap s : (0 ≤ cap)%Z → (Z.of_nat (length (capped cap s).1) ≤ cap)%Z.
Proof. intros Hc. unfold capped. case_decide; cbn [fst]; [rewrite length_take|]; lia. Qed.

Lemma capped_decoder_length `{ExportCodec} compressed cap s :
  (0 ≤ cap)%Z → capped_decoder compressed cap = Ok s → (Z.of_nat (length s.1) ≤ cap)%Z.
Proof. intros Hc. unfold capped_decoder. destruct (zstd_decode compressed); [|done]. intros [= <-]. by apply capped_length. Qed.


(** *** A hostile archive *)

#[local] Instance real_decision c : Decision (real c).
Proof. unfold real. apply _. Defined.

Definition real_names_check (f : fs) : bool := forallb (λ qn, bool_decide (Forall real qn.1)) (map_to_list f).

Lemma real_names_check_spec f : real_names_check f = true → real_names f.
Proof.
  unfold real_names_check. rewrite forallb_forall. intros Hall q [n Hn]. apply elem_of_map_to_list, list_elem_of_In, Hall in Hn.
  by apply bool_decide_eq_true in Hn.
Qed.

(** A link out of the destination, and a file through it. *)
Definition host_fs : fs :=
  {[ [] := NDir 0 ∅; [lit "etc"] := NDir 0 ∅; [lit "etc"; lit "passwd"] := NFile (lit "old") 0x1a4 ∅; [lit "d"] := NDir 0 ∅ ]}.
Definition hostile_entries : list tar_entry :=
  [mkTar (lit "l") TkSymlink (Some 0x1ff%Z) (Some 0%Z) (Some 0%Z) (Some (lit "/etc")) [];
   mkTar (lit "l/passwd") TkRegular (Some 0x1a4%Z) (Some 0%Z) (Some 3%Z) None (lit "new")].
Definition hostile_run : result (DirApplyStats * mtimes) ApplyError * world :=
  apply_dir_delta (H := number_export_codec) (number_archive hostile_entries) [lit "d"] default_caps (λ _, 0%Z) (mkWorld host_fs 0 []).

Lemma hostile_run_ok : is_err hostile_run.1 = false ∧ w_fs hostile_run.2 !! [lit "d"; lit "l"; lit "passwd"] = Some (NFile (lit "new") 0x1a4 ∅).
Proof. split; vm_compute; reflexivity. Qed.

Lemma export_stays_in_destination_witness :
  real_names host_fs ∧ is_err hostile_run.1 = false ∧ w_fs hostile_run.2 !! [lit "etc"; lit "passwd"] = Some (NFile (lit "old") 0x1a4 ∅).
Proof.
  assert (real_names host_fs) as Hr by (apply real_names_check_spec; vm_compute; reflexivity). split; [exact Hr|]. split; [apply hostile_run_ok|].
  pose proof (export_stays_in_destination (H := number_export_codec) (number_archive hostile_entries) [lit "d"] default_caps (λ _, 0%Z)
    (mkWorld host_fs 0 []) Hr) as Hs.
  fold hostile_run in Hs. destruct hostile_run as [r w']. destruct Hs as [_ Hs].
  assert (openat_dir host_fs [lit "d"] = Ok [lit "d"]) as Ho by (vm_compute; reflexivity). cbn [w_fs] in Hs. rewrite Ho in Hs. cbn [snd].
  rewrite Hs; [vm_compute; reflexivity|]. intros (c & s & Heq). discriminate Heq.
Defined.

