(* ===== verification/ExportHost.v ===== *)
(** * The calls of the applier on a well-formed host

    Below the destination of an export, what removing a tree, walking to a parent
    directory, ensuring a directory and writing a file do, when no call fails. *)

From S2P Require Import Prelude ByteStr Model FS Storage View Descend World StorageOps Does Lease PublishRead.
From S2P Require Import Project Base BaseSpec BaseShared Archive ExportApply ExportSafe.

(** ** The host *)

Definition host_name (c : bytes) : Prop := real c ∧ utf8_valid c = true.

(** A directory below which all names are text. *)
Record hosted (f : fs) (d : path) : Prop := {
  ho_tree : tree f;
  ho_plain : plain_dir f d;
  ho_names r : is_Some (f !! (d ++ r)) → Forall host_name r;
}.

Lemma hosted_sub f d g : hosted f d → tree g → plain_dir g d → (∀ q, is_Some (g !! q) → is_Some (f !! q)) → hosted g d.
Proof. intros [H1 H2 H3] Ht Hp Hs. split; [done|done|]. eauto. Qed.

Lemma hosted_deeper f d r : hosted f d → plain_dir f (d ++ r) → hosted f (d ++ r).
Proof.
  intros [H1 H2 H3] Hp. split; [done|done|]. intros s Hs. rewrite <-(assoc_L (++)) in Hs. apply H3 in Hs. by apply Forall_app in Hs as [_ ?].
Qed.

Lemma hosted_child f d c n : hosted f d → f !! (d ++ [c]) = Some n → host_name c.
Proof. intros Hh Hn. assert (Forall host_name [c]) as Hc by (apply (ho_names _ _ Hh); eauto). by inversion Hc. Qed.

Lemma hosted_dir f d c m xs : hosted f d → f !! (d ++ [c]) = Some (NDir m xs) → plain_dir f (d ++ [c]).
Proof.
  intros Hh Hn. apply plain_dir_snoc; [apply Hh|unfold dir_at; by rewrite Hn|]. by apply (hosted_child _ _ _ _ Hh) in Hn as [(_ & _ & ? & _) _].
Qed.

Lemma host_child_names f d : hosted f d → dir_child_names f d = names f d.
Proof.
  intros Hh. unfold dir_child_names. rewrite <-(list_fmap_id (names f d)) at 2. apply list_fmap_ext. intros i c Hc.
  apply list_elem_of_lookup_2, elem_of_names in Hc as [n Hn]. apply lossy_valid. by eapply hosted_child.
Qed.

(** ** Calls *)

Lemma doesx_syscall {A : Type} (g : fs → result (A * fs) errno) (P : fs → Prop) (Q : A → fs → Prop) :
  (∀ f, P f → ∃ a f', g f = Ok (a, f') ∧ Q a f') → doesx P (syscall g) Q (λ e, e = EIO).
Proof.
  intros Hg w Hw. destruct (Hg _ Hw) as (a & f' & Ha & HQ). unfold syscall, bind, fault, reads.
  destruct (w_faults w) as [|[k|] xs] eqn:Hf; cbn; rewrite ?Ha; cbn; done.
Qed.

Lemma doesx_does {E A} (c : io E A) P Q R : doesx P c Q R → does P c Q.
Proof. intros Hc w Hw. specialize (Hc w Hw). destruct (c w) as [[a|e] w1]; naive_solver. Qed.

Lemma does_host {A} (c : io errno A) P Q : does P c Q → does P (host c) Q.
Proof. apply does_lift_err. Qed.

(** Opening a child decides what is there. *)
Lemma does_opened {B} f fd c (k : result path errno → io ApplyError B) R :
  plain_dir f fd → real c →
  match f !! (fd ++ [c]) with
  | None => does (λ g, g = f) (k (Err ENOENT)) R
  | Some (NDir _ _) => does (λ g, g = f) (k (Ok (fd ++ [c]))) R
  | Some _ => does (λ g, g = f) (k (Err ENOTDIR)) R
  end → does (λ g, g = f) (bind (attempt (open_child_dir fd c)) k) R.
Proof.
  intros Hd Hc Hk w Hw. unfold bind, attempt, open_child_dir, reads. rewrite Hw, openat_child by done.
  destruct (f !! (fd ++ [c])) as [[]|]; by apply Hk.
Qed.

Lemma does_host_open f fd c m xs :
  plain_dir f fd → real c → f !! (fd ++ [c]) = Some (NDir m xs) →
  does (λ g, g = f) (host (open_child_dir fd c)) (λ q g, q = fd ++ [c] ∧ g = f).
Proof.
  intros Hd Hc Hn. apply does_host, does_reads. intros ? ->. rewrite openat_child, Hn by done. eauto.
Qed.

Lemma does_unlink_gone (c : io errno ()) P Q : doesx P c Q (λ e, e = EIO) → does P (unlink_gone c) Q.
Proof.
  intros Hc. unfold unlink_gone. eapply does_attempt; [exact Hc| |].
  - intros []. by apply does_ret.
  - by intros e w ->.
Qed.

Section child.
Context (f : fs) (fd : path) (c : bytes).
Hypothesis Hd : plain_dir f fd.
Hypothesis Hc : real c.

Lemma doesx_remove_file n : f !! (fd ++ [c]) = Some n → n_is_dir n = false →
  doesx (λ g, g = f) (remove_file (at_path fd c)) (λ _ g, g = delete (fd ++ [c]) f) (λ e, e = EIO).
Proof using Hd Hc.
  intros Hn Hnd. apply doesx_syscall. intros ? ->. rewrite child_resolves by done. cbn [result_bind]. rewrite Hn. destruct n; try done; eauto.
Qed.

Lemma doesx_remove_dir m xs : f !! (fd ++ [c]) = Some (NDir m xs) → has_children f (fd ++ [c]) = false →
  doesx (λ g, g = f) (remove_dir (at_path fd c)) (λ _ g, g = delete (fd ++ [c]) f) (λ e, e = EIO).
Proof using Hd Hc.
  intros Hn Hh. apply doesx_syscall. intros ? ->. rewrite child_resolves by done. cbn [result_bind]. rewrite Hn, Hh. eauto.
Qed.

Lemma doesx_mkdirat : f !! (fd ++ [c]) = None →
  doesx (λ g, g = f) (sys_mkdir (at_path fd c)) (λ _ g, g = <[fd ++ [c] := NDir 0x1ed ∅]> f) (λ e, e = EIO).
Proof using Hd Hc.
  intros Hn. apply doesx_syscall. intros ? ->. rewrite child_resolves by done. cbn [result_bind]. rewrite decide_True by done. eauto.
Qed.

Lemma does_symlinkat t : f !! (fd ++ [c]) = None →
  does (λ g, g = f) (fs_symlink t (at_path fd c)) (λ _ g, g = <[fd ++ [c] := NSymlink t]> f).
Proof using Hd Hc.
  intros Hn. apply does_syscall. intros ? ->. rewrite child_resolves by done. cbn [result_bind]. rewrite decide_True by done. eauto.
Qed.
End child.

Lemma plain_put f fd c n : plain_dir f fd → plain_dir (<[fd ++ [c] := n]> f) fd.
Proof. intros Hd. eapply plain_dir_outside; [|done]. apply outside_insert; [apply under_self|done]. Qed.

Lemma plain_cut f fd c : plain_dir f fd → plain_dir (delete (fd ++ [c]) f) fd.
Proof. intros Hd. eapply plain_dir_outside; [|done]. apply outside_delete; [apply under_self|done]. Qed.

Lemma does_make f fd c : plain_dir f fd → real c → f !! (fd ++ [c]) = None →
  does (λ g, g = f) (make_child fd c) (λ q g, q = fd ++ [c] ∧ g = <[fd ++ [c] := NDir 0x1ed ∅]> f).
Proof.
  intros Hd Hc Hn. unfold make_child. eapply does_bind; [apply does_host; eapply doesx_does, doesx_mkdirat; done|]. intros [].
  eapply does_host_open; [by apply plain_put|done|apply lookup_insert_eq].
Qed.

Lemma does_replace_child f fd c n : plain_dir f fd → real c → f !! (fd ++ [c]) = Some n → n_is_dir n = false →
  does (λ g, g = f) (replace_child fd c) (λ q g, q = fd ++ [c] ∧ g = <[fd ++ [c] := NDir 0x1ed ∅]> f).
Proof.
  intros Hd Hc Hn Hnd. unfold replace_child. eapply does_bind; [apply does_host; by eapply doesx_does, doesx_remove_file|]. intros [].
  eapply does_conseq; [apply does_make; [by apply plain_cut|done|apply lookup_delete_eq]|done|].
  intros q g [-> ->]. by rewrite insert_delete_eq.
Qed.

Lemma does_fchmod f q mode n n' : f !! q = Some n →
  n' = match n with NFile d _ xs => NFile d mode xs | NDir _ xs => NDir mode xs | n => n end →
  does (λ g, g = f) (fchmod q mode) (λ _ g, g = <[q := n']> f).
Proof.
  intros Hn ->. apply does_syscall. intros ? ->. eexists _, _. split; [done|]. rewrite Hn. destruct n; [done| |done|..]; by rewrite insert_id.
Qed.

(** The directory that [ensure_directory] leaves. *)
Definition ensured (old : option node) (mode : Z) : node :=
  NDir mode match old with Some (NDir _ xs) => xs | _ => ∅ end.

Lemma does_ensure_directory f fd c mode : plain_dir f fd → real c →
  does (λ g, g = f) (ensure_directory fd c mode) (λ _ g, g = <[fd ++ [c] := ensured (f !! (fd ++ [c])) mode]> f).
Proof.
  intros Hd Hc. unfold ensure_directory, ensured. eapply does_opened; [done|done|].
  assert (∀ g, g = <[fd ++ [c] := NDir 0x1ed ∅]> f →
    does (λ h, h = g) (host (fchmod (fd ++ [c]) mode)) (λ _ h, h = <[fd ++ [c] := NDir mode ∅]> f)) as Hnew.
  { intros g ->. eapply does_conseq; [apply does_host, (does_fchmod (<[fd ++ [c] := NDir 0x1ed ∅]> f) (fd ++ [c]) mode (NDir 0x1ed ∅) (NDir mode ∅));
      [apply lookup_insert_eq|done]|done|]. intros [] h ->. by rewrite insert_insert_eq. }
  destruct (f !! (fd ++ [c])) as [n|] eqn:Hn.
  2:{ eapply does_bind; [rewrite decide_True by done; by apply does_make|]. intros q. apply does_pre. intros g [-> ->]. by apply Hnew. }
  destruct n as [| |m xs| |].
  3:{ eapply does_bind; [by apply (does_ret (fd ++ [c]) _ (λ q g, q = fd ++ [c] ∧ g = f)); intros ? ->|]. intros q. apply does_pre. intros g [-> ->].
      eapply does_conseq; [apply does_host; eapply does_fchmod; [exact Hn|reflexivity]|done|]. by intros _ h ->. }
  all: eapply does_bind; [rewrite decide_False by done; cbn [is_non_directory]; by eapply does_replace_child|]; intros q; apply does_pre;
    intros g [-> ->]; by apply Hnew.
Qed.

(** ** Removing a tree *)

Lemma strictly_below q p : strictly q p ↔ ∃ c r, below q p = Some (c :: r).
Proof. unfold strictly. setoid_rewrite below_Some. naive_solver. Qed.

#[global] Instance strictly_dec q p : Decision (strictly q p).
Proof.
  refine (match below q p as b return below q p = b → _ with Some (c :: r) => λ H, left _ | _ => λ H, right _ end eq_refl);
    abstract (rewrite strictly_below, H; naive_solver).
Defined.

(** What is left when everything strictly below [q] is removed. *)
Definition cleared (f : fs) (q : path) : fs := filter (λ qn, ¬ strictly q qn.1) f.

Lemma lookup_cleared f q p : cleared f q !! p = if decide (strictly q p) then None else f !! p.
Proof. unfold cleared. apply option_eq. intros n. rewrite map_lookup_filter_Some. simpl. case_decide; naive_solver. Qed.

Lemma under_strictly q p : is_Some (below q p) ↔ p = q ∨ strictly q p.
Proof.
  unfold strictly. split.
  - intros [[|c r] ->%below_Some]; [left; by rewrite app_nil_r|right; eauto].
  - intros [->|(c & r & ->)]; [rewrite below_self|rewrite below_app]; eauto.
Qed.

Lemma without_cleared f q : without f q = delete q (cleared f q).
Proof.
  apply map_eq. intros p. rewrite lookup_without. destruct (decide (p = q)) as [->|Hp].
  - rewrite lookup_delete_eq, decide_False; [done|]. by rewrite below_self.
  - rewrite lookup_delete_ne, lookup_cleared by done. pose proof (under_strictly q p) as Hu. destruct (below q p) as [r|].
    + rewrite decide_False, decide_True; [done| |done]. destruct (proj1 Hu) as [?|?]; [eauto|done|done].
    + rewrite decide_True, decide_False; [done| |done]. intros Hs. destruct (proj2 Hu) as [? ?]; [by right|done].
Qed.

(** Nothing is below what is no directory. *)
Lemma tree_nothing f q p : tree f → dir_at f q = false → strictly q p → f !! p = None.
Proof. intros Ht Hq (c & r & ->). by apply tree_below. Qed.

Lemma without_leaf f q : tree f → dir_at f q = false → without f q = delete q f.
Proof.
  intros Ht Hq. rewrite without_cleared. f_equal. apply map_eq. intros p. rewrite lookup_cleared. case_decide; [|done].
  symmetry. by eapply tree_nothing.
Qed.

Lemma has_children_none f q : (∀ p, strictly q p → f !! p = None) → has_children f q = false.
Proof.
  intros Hn. unfold has_children. apply not_true_iff_false. rewrite existsb_exists. intros ([p n] & Hin & Hb).
  apply list_elem_of_In, elem_of_map_to_list in Hin. cbn in Hb. destruct (below q p) as [[|c r]|] eqn:Hp; try done.
  apply below_Some in Hp as ->. rewrite Hn in Hin; [done|]. by eexists _, _.
Qed.

(** Removing children one after the other. *)
Definition cut_all (f : fs) (q : path) (cs : list bytes) : fs := foldl (λ f c, without f (q ++ [c])) f cs.

Lemma lookup_cut_all q cs : ∀ f p,
  cut_all f q cs !! p = match below q p with Some (c :: _) => if decide (c ∈ cs) then None else f !! p | _ => f !! p end.
Proof.
  induction cs as [|c cs IH]; intros f p.
  { destruct (below q p) as [[|c r]|]; [done| |done]. by rewrite decide_False by apply not_elem_of_nil. }
  cbn [cut_all foldl]. change (foldl _ ?g cs) with (cut_all g q cs). rewrite IH, lookup_without.
  assert (below (q ++ [c]) p = match below q p with Some (c' :: r) => if decide (c' = c) then Some r else None | _ => None end) as ->.
  { apply option_eq. intros r. rewrite below_Some, <-(assoc_L (++)), <-below_Some. destruct (below q p) as [[|c' r']|]; [done| |done].
    case_decide; naive_solver. }
  destruct (below q p) as [[|c' r]|]; try (by rewrite decide_True). destruct (decide (c' = c)) as [->|Hne].
  - rewrite (decide_True (P := c ∈ c :: cs)) by by left. by case_decide.
  - rewrite (decide_True (P := None = None)) by done. destruct (decide (c' ∈ cs)).
    + by rewrite decide_True by by right.
    + rewrite decide_False; [done|]. by intros [?|?]%elem_of_cons.
Qed.

Lemma cut_all_cleared f q : tree f → cut_all f q (names f q) = cleared f q.
Proof.
  intros Ht. apply map_eq. intros p. rewrite lookup_cut_all, lookup_cleared. destruct (decide (strictly q p)) as [(c & r & ->)|Hs].
  - rewrite below_app. case_decide as Hc; [done|]. apply eq_None_not_Some. intros Hn. apply Hc. apply elem_of_names.
    destruct r as [|c' r]; [done|]. change (c :: c' :: r) with ([c] ++ c' :: r) in Hn. rewrite (assoc_L (++)) in Hn.
    apply (tree_dir f (q ++ [c])) in Hn; [|done|done]. unfold dir_at in Hn. destruct (f !! (q ++ [c])); [eauto|done].
  - destruct (below q p) as [[|c r]|] eqn:Hb; [done| |done]. destruct Hs. apply strictly_below. eauto.
Qed.

Lemma hosted_without f d c : hosted f d → hosted (without f (d ++ [c])) d.
Proof.
  intros Hh. eapply hosted_sub; [done|apply tree_without, Hh| |].
  - eapply plain_dir_outside; [|apply Hh]. intros q Hq. rewrite lookup_without, decide_True; [done|]. by apply eq_None_not_Some.
  - intros q. rewrite lookup_without. by case_decide; [|intros []].
Qed.

Lemma does_each_remove fuel q cs : ∀ f,
  (∀ f c, hosted f q → real c → 0 < fuel → (∀ r, is_Some (f !! (q ++ [c] ++ r)) → length r < fuel) →
     does (λ g, g = f) (remove_levels fuel q c) (λ _ g, g = without f (q ++ [c]))) →
  hosted f q → Forall real cs → (cs ≠ [] → 0 < fuel) → (∀ c r, is_Some (f !! (q ++ c :: r)) → length r < fuel) →
  does (λ g, g = f) (each (remove_levels fuel q) cs) (λ _ g, g = cut_all f q cs).
Proof.
  induction cs as [|c cs IH]; intros f Hone Hh Hcs Hpos Hfuel; [by apply does_ret|]. apply Forall_cons in Hcs as [Hc Hcs]. cbn.
  eapply does_bind; [apply Hone; [done|done|by apply Hpos|]; intros r; apply Hfuel|]. intros [].
  apply IH; [done|by apply hosted_without|done|intros _; by apply Hpos|].
  intros c' r Hr. apply (Hfuel c'). rewrite lookup_without in Hr. by case_decide; [|destruct Hr].
Qed.

(** The directory itself, when its children are gone. *)
Lemma does_remove_cleared f fd c m xs :
  plain_dir f fd → real c → f !! (fd ++ [c]) = Some (NDir m xs) →
  does (λ g, g = cleared f (fd ++ [c])) (unlink_gone (remove_dir (at_path fd c))) (λ _ g, g = without f (fd ++ [c])).
Proof.
  intros Hd Hc Hn. apply does_unlink_gone. rewrite without_cleared. eapply doesx_remove_dir; [|done|..].
  - eapply plain_strictly; [|done]. intros p Hp. rewrite lookup_cleared, decide_False; [done|]. intros Hs. by eapply Hp, strictly_app.
  - rewrite lookup_cleared, decide_False; [done|]. intros (? & ? & Heq). apply (f_equal length) in Heq. rewrite !length_app in Heq. simpl in Heq. lia.
  - apply has_children_none. intros p Hp. by rewrite lookup_cleared, decide_True.
Qed.

Lemma does_remove_levels fuel : ∀ f fd c,
  hosted f fd → real c → 0 < fuel → (∀ r, is_Some (f !! (fd ++ [c] ++ r)) → length r < fuel) →
  does (λ g, g = f) (remove_levels fuel fd c) (λ _ g, g = without f (fd ++ [c])).
Proof.
  induction fuel as [|fuel IH]; [lia|]. intros f fd c Hh Hc _ Hfuel. pose proof (ho_plain _ _ Hh) as Hd. pose proof (ho_tree _ _ Hh) as Ht.
  cbn [remove_levels]. eapply does_opened; [done|done|]. destruct (f !! (fd ++ [c])) as [n|] eqn:Hn.
  2:{ rewrite decide_True by done. apply does_ret. intros ? ->. rewrite without_leaf; [by rewrite delete_id|done|unfold dir_at; by rewrite Hn]. }
  destruct n as [| |m xs| |]; try (rewrite decide_False by done; cbn [is_non_directory]; apply does_unlink_gone; rewrite without_leaf;
    [by eapply doesx_remove_file|done|unfold dir_at; by rewrite Hn]).
  pose proof (hosted_dir _ _ _ _ _ Hh Hn) as Hq. pose proof (hosted_deeper f fd [c] Hh Hq) as Hhq.
  assert (∀ c' r, is_Some (f !! ((fd ++ [c]) ++ c' :: r)) → length r < fuel) as Hbound.
  { intros c' r Hr. rewrite <-(assoc_L (++)) in Hr. apply Hfuel in Hr. simpl in Hr. lia. }
  eapply does_bind_reads; [done|]. rewrite host_child_names by done.
  eapply does_bind; [apply does_each_remove; [intros f1 c1; apply IH|done|..|done]|].
  - apply Forall_forall. intros x [n' Hx]%elem_of_names. by eapply hosted_child.
  - destruct (names f (fd ++ [c])) as [|x cs] eqn:Hx; [done|]. intros _. assert (x ∈ names f (fd ++ [c])) as Hin by (rewrite Hx; by left).
    apply elem_of_names in Hin. by apply (Hbound x []) in Hin.
  - intros []. rewrite cut_all_cleared by done. by eapply does_remove_cleared.
Qed.

Lemma does_remove_recursive f fd c : hosted f fd → real c →
  does (λ g, g = f) (remove_recursive_at fd c) (λ _ g, g = without f (fd ++ [c])).
Proof.
  intros Hh Hc. unfold remove_recursive_at. eapply does_bind_reads; [done|]. apply does_remove_levels; [done|done|lia|].
  intros r [n Hn]. apply depth_bound_spec in Hn. rewrite !length_app in Hn. lia.
Qed.

Lemma does_clear_children f d : hosted f d →
  does (λ g, g = f) (do children := reads (λ f, Ok (dir_child_names f d)) in each (remove_recursive_at d) children)%io (λ _ g, g = cleared f d).
Proof.
  intros Hh. eapply does_bind_reads; [done|]. rewrite host_child_names by done. rewrite <-cut_all_cleared by apply Hh.
  assert (Forall real (names f d)) as Hreal by (apply Forall_forall; intros x [n' Hx]%elem_of_names; by eapply hosted_child).
  revert Hh. generalize (names f d) Hreal. clear Hreal. intros cs. revert f. induction cs as [|c cs IH]; intros f Hcs Hh; [by apply does_ret|].
  apply Forall_cons in Hcs as [Hc Hcs]. cbn. eapply does_bind; [by apply does_remove_recursive|]. intros []. by apply IH, hosted_without.
Qed.

(** ** Walking *)

Lemma does_walk_plain create f cs : ∀ d, Forall real cs → plain_dir f (d ++ cs) →
  does (λ g, g = f) (walk_comps create d cs) (λ r g, r = Some (d ++ cs) ∧ g = f).
Proof.
  induction cs as [|c cs IH]; intros d Hcs Hp; cbn [walk_comps]; [apply does_ret; intros ? ->; by rewrite app_nil_r|].
  apply Forall_cons in Hcs as [Hc Hcs]. change (d ++ c :: cs) with (d ++ [c] ++ cs) in *. rewrite (assoc_L (++)) in *.
  pose proof (plain_dir_app _ _ _ Hp) as Hdc. pose proof (plain_dir_app _ _ _ Hdc) as Hd. pose proof (plain_dir_at _ _ Hdc) as Hat.
  eapply (does_bind _ _ _ (λ r g, r = Some (d ++ [c]) ∧ g = f)).
  - unfold step_into. eapply does_opened; [done|done|]. unfold dir_at in Hat. by destruct (f !! (d ++ [c])) as [[]|].
  - intros r. apply does_pre. intros g [-> ->]. by apply IH.
Qed.

(** Without creation the walk only looks. *)
Lemma does_walk_look f cs : ∀ d, Forall real cs → tree f → plain_dir f d →
  does (λ g, g = f) (walk_comps false d cs)
    (λ r g, g = f ∧ match r with Some q => q = d ++ cs ∧ plain_dir f (d ++ cs) | None => dir_at f (d ++ cs) = false end).
Proof.
  induction cs as [|c cs IH]; intros d Hcs Ht Hd; cbn [walk_comps]; [apply does_ret; intros ? ->; by rewrite app_nil_r|].
  apply Forall_cons in Hcs as [Hc Hcs]. change (d ++ c :: cs) with (d ++ [c] ++ cs). rewrite (assoc_L (++)).
  assert (dir_at f (d ++ [c]) = false → dir_at f ((d ++ [c]) ++ cs) = false) as Hdown.
  { intros Hn. destruct cs as [|c' cs]; [by rewrite app_nil_r|]. unfold dir_at. by rewrite (tree_below f (d ++ [c])). }
  eapply (does_bind _ _ _ (λ r g, g = f ∧ if dir_at f (d ++ [c]) then r = Some (d ++ [c]) else r = None)).
  - unfold step_into. eapply does_opened; [done|done|]. unfold dir_at. destruct (f !! (d ++ [c])) as [[]|];
      first [rewrite decide_True by done|rewrite decide_False by done; cbn [is_non_directory]|idtac]; apply does_ret; by intros ? ->.
  - intros r. apply does_pre. intros g [-> Hr]. destruct (dir_at f (d ++ [c])) eqn:Hat; subst r.
    + apply IH; [done|done|]. apply plain_dir_snoc; [done|done|apply Hc].
    + apply does_ret. intros ? ->. auto.
Qed.

(** With creation, missing directories are made and other entries in their place
    replaced. *)
Record grew (f g : fs) (d : path) (cs : list bytes) : Prop := {
  gr_tree : tree g;
  gr_plain : plain_dir g (d ++ cs);
  gr_at q : g !! q = f !! q ∨ (∃ s t, s ≠ [] ∧ cs = s ++ t ∧ q = d ++ s) ∧ dir_at f q = false ∧ g !! q = Some (NDir 0x1ed ∅);
}.

Lemma tree_put f fd c n : tree f → plain_dir f fd → n_is_dir n = true ∨ dir_at f (fd ++ [c]) = false → tree (<[fd ++ [c] := n]> f).
Proof.
  intros Ht Hd Hn. destruct Hn as [Hn|Hn].
  - intros q c' [m Hm]. unfold dir_at. destruct (decide (q = fd ++ [c])) as [->|Hq]; [by rewrite lookup_insert_eq|].
    rewrite lookup_insert_ne by done. destruct (decide (q ++ [c'] = fd ++ [c])) as [[-> ->]%app_inj_tail|Hne]; [by apply plain_dir_at|].
    rewrite lookup_insert_ne in Hm by done. apply (Ht q c'). eauto.
  - intros q c' [m Hm]. unfold dir_at. destruct (decide (q = fd ++ [c])) as [->|Hq].
    + rewrite lookup_insert_ne in Hm; [|intros Heq; apply (f_equal length) in Heq; rewrite !length_app in Heq; simpl in Heq; lia].
      by rewrite (tree_below f (fd ++ [c]) [c']) in Hm.
    + rewrite lookup_insert_ne by done. destruct (decide (q ++ [c'] = fd ++ [c])) as [[-> ->]%app_inj_tail|Hne]; [by apply plain_dir_at|].
      rewrite lookup_insert_ne in Hm by done. apply (Ht q c'). eauto.
Qed.

Lemma does_walk_make cs : ∀ f d, Forall real cs → tree f → plain_dir f d →
  does (λ g, g = f) (walk_comps true d cs) (λ r g, r = Some (d ++ cs) ∧ grew f g d cs).
Proof.
  induction cs as [|c cs IH]; intros f d Hcs Ht Hd; cbn [walk_comps].
  { apply does_ret. intros ? ->. rewrite app_nil_r. split; [done|]. split; [done|by rewrite app_nil_r|by left]. }
  apply Forall_cons in Hcs as [Hc Hcs]. change (d ++ c :: cs) with (d ++ [c] ++ cs). rewrite (assoc_L (++)).
  set (f1 := if dir_at f (d ++ [c]) then f else <[d ++ [c] := NDir 0x1ed ∅]> f).
  eapply (does_bind _ _ _ (λ r g, r = Some (d ++ [c]) ∧ g = f1)).
  - unfold step_into. eapply does_opened; [done|done|]. unfold f1, dir_at. destruct (f !! (d ++ [c])) as [n|] eqn:Hn.
    2:{ rewrite decide_True by done. eapply does_attempt; [by apply doesx_mkdirat| |by intros e w ->]. intros [].
        eapply does_bind; [eapply does_host_open; [by apply plain_put|done|apply lookup_insert_eq]|]. intros q. apply does_ret. by intros ? [-> ->]. }
    destruct n as [| |m xs| |]; [..|apply does_ret; by intros ? ->| |]; rewrite decide_False by done; cbn [is_non_directory];
      (eapply does_bind; [by eapply does_replace_child|]; intros q; apply does_ret; by intros ? [-> ->]).
  - intros r. apply does_pre. intros ? [-> ->]. assert (tree f1 ∧ plain_dir f1 (d ++ [c])) as [Ht1 Hp1].
    { unfold f1. destruct (dir_at f (d ++ [c])) eqn:Hat; [split; [done|]; apply plain_dir_snoc; [done|done|apply Hc]|].
      split; [apply tree_put; auto|]. apply plain_dir_snoc; [by apply plain_put|unfold dir_at; by rewrite lookup_insert_eq|apply Hc]. }
    eapply does_conseq; [by apply (IH f1)|done|]. intros r' g [-> [Hg1 Hg2 Hg3]]. split; [done|]. split; [done|by rewrite <-(assoc_L (++)) in Hg2|].
    intros q. destruct (Hg3 q) as [Hq|((s & t & Hs & -> & ->) & Hno & Hq)].
    + unfold f1 in Hq. destruct (dir_at f (d ++ [c])) eqn:Hat; [by left|]. destruct (decide (q = d ++ [c])) as [->|Hne].
      * rewrite lookup_insert_eq in Hq. right. split; [|done]. by exists [c], cs.
      * rewrite lookup_insert_ne in Hq by done. by left.
    + right. split; [exists (c :: s), t; by rewrite <-(assoc_L (++))|]. split; [|done]. unfold f1 in Hno.
      destruct (dir_at f (d ++ [c])); [done|]. unfold dir_at in *. rewrite lookup_insert_ne in Hno; [done|].
      intros Heq. apply (f_equal length) in Heq. rewrite !length_app in Heq. destruct s; [done|simpl in Heq; lia].
Qed.

(** ** Writing *)

Lemma does_openat_new f fd c : plain_dir f fd → real c → f !! (fd ++ [c]) = None →
  does (λ g, g = f) (openat_new (at_path fd c)) (λ q g, q = fd ++ [c] ∧ g = <[fd ++ [c] := NFile [] 0x180 ∅]> f).
Proof.
  intros Hd Hc Hn. apply does_syscall. intros ? ->. rewrite child_resolves by done. cbn [result_bind]. rewrite decide_True by done. eauto.
Qed.

Lemma does_put_all f q data old mode xs : f !! q = Some (NFile old mode xs) →
  does (λ g, g = f) (write_all q data) (λ _ g, g = <[q := NFile data mode xs]> f).
Proof.
  intros Hn w Hw. unfold write_all, bind, fault, reads, set_fs, fail. rewrite <-Hw in Hn.
  destruct (w_faults w) as [|[k|] ys] eqn:Hf; cbn; unfold put_data; rewrite ?Hn, ?Hw; done.
Qed.

Lemma does_write_file f fd c mode mtime data times : plain_dir f fd → real c → f !! (fd ++ [c]) = None →
  does (λ g, g = f) (write_file fd c mode mtime data times)
    (λ r g, r = (Z.of_nat (length data), stamp (fd ++ [c]) (stamp_of mtime) times) ∧ g = <[fd ++ [c] := NFile data mode ∅]> f).
Proof.
  intros Hd Hc Hn. unfold write_file. eapply does_bind; [by apply does_host, does_openat_new|]. intros q. apply does_pre. intros ? [-> ->].
  eapply does_bind; [apply does_host; eapply does_put_all, lookup_insert_eq|]. intros []. rewrite insert_insert_eq.
  eapply does_bind; [apply does_host; eapply does_fchmod; [apply lookup_insert_eq|reflexivity]|]. intros []. rewrite insert_insert_eq.
  eapply does_bind; [apply does_host; by apply (does_syscall (λ f, Ok (tt, f)) _ (λ _ g, g = <[fd ++ [c] := NFile data mode ∅]> f)); intros ? ->; eauto|].
  intros []. apply does_ret. by intros ? ->.
Qed.

Lemma does_replace_file f fd c mode mtime data st : hosted f fd → real c →
  does (λ g, g = f) (replace_file fd c mode mtime data st)
    (λ r g, r = (wrote_file (Z.of_nat (length data)) st.1, stamp (fd ++ [c]) (stamp_of mtime) st.2) ∧
            g = <[fd ++ [c] := NFile data mode ∅]> (without f (fd ++ [c]))).
Proof.
  intros Hh Hc. unfold replace_file. eapply does_bind; [by apply does_remove_recursive|]. intros [].
  eapply does_bind; [apply does_write_file; [apply (ho_plain _ _ (hosted_without f fd c Hh))|done|]|].
  - rewrite lookup_without, decide_False; [done|]. by rewrite below_self.
  - intros r. apply does_ret. by intros ? [-> ->].
Qed.
