(* ===== verification/ExportSpec.v ===== *)
(** * What applying a delta makes of a directory

    A delta gives paths an item: a directory, which may be cut off from what was
    below it, a file, a link or a deletion.  The theorem of this file says what
    is below the destination after a delta has been applied: the items where
    there is one, nothing below a cut, and elsewhere what was there. *)

From S2P Require Import Prelude ByteStr Model FS Storage View Descend World StorageOps Does Lease PublishRead.
From S2P Require Import Project Base BaseSpec BaseShared Archive Export ExportApply ExportSafe ExportHost.

(** ** Deltas *)

Inductive item :=
| IDir (mode mtime : Z) (cut : bool)
| IFile (data : bytes) (mode mtime : Z)
| ILink (target : bytes) (mode mtime : Z)
| IDelete.

(** What is below the path is not seen any more. *)
Definition hides (i : item) : bool := match i with IDir _ _ false => false | _ => true end.

(** A name that an entry may have. *)
Definition key_name (c : bytes) : Prop := host_name c ∧ nul ∉ c ∧ starts_with LOGICAL_WHITEOUT_PREFIX c = false.

Definition delta : Type := list (path * item).

(** Every directory above an item is an item in front of it. *)
Record closed (Δ : delta) : Prop := {
  cl_nodup : NoDup Δ.*1;
  cl_names p i : (p, i) ∈ Δ → p ≠ [] ∧ Forall key_name p;
  cl_order Δ1 k i Δ2 p c s : Δ = Δ1 ++ (k, i) :: Δ2 → k = p ++ c :: s → p ≠ [] → ∃ m t b, (p, IDir m t b) ∈ Δ1;
}.

Section apply.
Context (Δ : delta).
Hypothesis Hcl : closed Δ.

Definition at_key (p : path) (i : item) : Prop := (p, i) ∈ Δ.

Lemma key_unique p i j : at_key p i → at_key p j → i = j.
Proof using Hcl.
  intros Hi Hj. unfold at_key in *. apply list_elem_of_lookup in Hi as [x Hx], Hj as [y Hy].
  assert (x = y) as ->; [|by simplify_eq]. apply (NoDup_lookup Δ.*1 x y p); [apply Hcl|by rewrite list_lookup_fmap, Hx|by rewrite list_lookup_fmap, Hy].
Qed.

Definition dir_key (p : path) : Prop := ∃ m t b, at_key p (IDir m t b).

Lemma key_above p c s i : at_key (p ++ c :: s) i → p ≠ [] → dir_key p.
Proof using Hcl.
  intros Hi Hp. apply list_elem_of_split in Hi as (Δ1 & Δ2 & Heq). destruct (cl_order _ Hcl _ _ _ _ p c s Heq eq_refl Hp) as (m & t & b & Hin).
  exists m, t, b. unfold at_key. rewrite Heq. apply elem_of_app. by left.
Qed.

Lemma key_names p i : at_key p i → p ≠ [] ∧ Forall real p ∧ Forall host_name p.
Proof using Hcl.
  intros [Hp Hn]%(cl_names _ Hcl). split_and!; [done|..]; (eapply Forall_impl; [exact Hn|]); by intros c [[? ?] _].
Qed.

(** Cut off by an item above. *)
Definition covered (r : path) : Prop := ∃ p c s i, r = p ++ c :: s ∧ at_key p i ∧ hides i = true.

Context (f : fs) (d : path) (times : mtimes).
Hypothesis Hf : hosted f d.

(** The states of the first two passes: [O] have been cleared, [D] removed. *)
Record phase (O D : list path) (g : fs) : Prop := {
  ph_host : hosted g d;
  ph_out : outside (strictly d) f g;
  ph_at r : r ≠ [] → ¬ dir_key r → g !! (d ++ r) = f !! (d ++ r) ∨ g !! (d ++ r) = None;
  ph_keep r : r ≠ [] → ¬ dir_key r → ¬ covered r → ¬ at_key r IDelete → g !! (d ++ r) = f !! (d ++ r);
  ph_clear p r : p ∈ O → strictly p r → ¬ dir_key r → g !! (d ++ r) = None;
  ph_del p r : p ∈ D → g !! (d ++ p ++ r) = None;
}.

Lemma phase_start : phase [] [] f.
Proof using Hf. split; [done|done|by left|done|by intros ? ? ?%elem_of_nil|by intros ? ? ?%elem_of_nil]. Qed.

(** A step that makes directories of the delta and removes what it hides. *)
Definition moves (X : path → Prop) (g g' : fs) : Prop :=
  ∀ q, g' !! q = g !! q ∨ ∃ r, q = d ++ r ∧ r ≠ [] ∧ (dir_key r ∨ X r ∧ g' !! q = None).

Lemma delete_not_above p r : at_key p IDelete → ¬ dir_key (p ++ r).
Proof using Hcl.
  intros Hp (m & t & b & Hk). destruct r as [|c r].
  - rewrite app_nil_r in Hk. pose proof (key_unique _ _ _ Hp Hk). done.
  - apply (key_above p c r) in Hk as (m' & t' & b' & Hk); [|by apply key_names in Hp as [? _]]. pose proof (key_unique _ _ _ Hp Hk). done.
Qed.

Lemma phase_moves X O D g g' :
  phase O D g → Forall (λ p, at_key p IDelete) D → moves X g g' → hosted g' d →
  (∀ r, X r → covered r ∨ at_key r IDelete) → phase O D g'.
Proof using Hcl.
  intros [H1 H2 H3 H4 H5 H6] HD Hm Hh HX.
  assert (∀ r, ¬ dir_key r → g' !! (d ++ r) = g !! (d ++ r) ∨ X r ∧ g' !! (d ++ r) = None) as Hr.
  { intros r Hr. destruct (Hm (d ++ r)) as [?|(r' & Heq & _ & Hx)]; [by left|]. apply (inj (app d)) in Heq as <-. by destruct Hx; [|right]. }
  split; [done|..].
  - intros q Hq. rewrite <-H2 by done. destruct (Hm q) as [?|(r & -> & Hne & _)]; [done|]. destruct Hq. destruct r as [|c r]; [done|]. by eexists _, _.
  - intros r Hne Hk. destruct (Hr r Hk) as [->|[_ ?]]; [by apply H3|by right].
  - intros r Hne Hk Hc Hd. destruct (Hr r Hk) as [->|[Hx _]]; [by apply H4|]. by destruct (HX _ Hx).
  - intros p r Hp Hs Hk. destruct (Hr r Hk) as [->|[_ ?]]; [by eapply H5|done].
  - intros p r Hp. rewrite Forall_forall in HD. destruct (Hr (p ++ r) (delete_not_above p r (HD _ Hp))) as [->|[_ ?]]; [by apply H6|done].
Qed.

(** *** Clearing *)

Lemma grew_hosted g g' r cs : hosted g (d ++ r) → Forall host_name cs → grew g g' (d ++ r) cs → plain_dir g' (d ++ r) → hosted g' (d ++ r).
Proof using.
  intros Hg Hcs [G1 G2 G3] Hp. split; [done|done|]. intros s [n Hs]. destruct (G3 ((d ++ r) ++ s)) as [Heq|((a & b & Ha & -> & Heq) & _)].
  - apply (ho_names _ _ Hg). rewrite <-Heq. eauto.
  - apply (inj (app (d ++ r))) in Heq as ->. by apply Forall_app in Hcs as [? _].
Qed.

Lemma hosted_put g r c n : hosted g (d ++ r) → hosted g d → host_name c → Forall host_name r → n_is_dir n = true ∨ dir_at g ((d ++ r) ++ [c]) = false →
  hosted (<[(d ++ r) ++ [c] := n]> g) d.
Proof using.
  intros Hg Hgd Hc Hr Hn. split.
  - apply tree_put; [apply Hg|apply Hg|done].
  - eapply plain_dir_app, (plain_put g (d ++ r)), Hg.
  - intros s [m Hs]. apply lookup_insert_Some in Hs as [[Heq _]|[_ Hs]]; [|apply (ho_names _ _ Hgd); eauto].
    rewrite <-(assoc_L (++)) in Heq. apply (inj (app d)) in Heq as <-. apply Forall_app. by split; [|constructor].
Qed.

Lemma hosted_cleared g q : hosted g d → plain_dir g (d ++ q) → hosted (cleared g (d ++ q)) d.
Proof using.
  intros Hg Hq. apply hosted_sub with g; [done| | |].
  - intros p c. rewrite lookup_cleared. case_decide as Hs; [by intros []|]. intros Hsome%(ho_tree _ _ Hg). unfold dir_at in *.
    rewrite lookup_cleared, decide_False; [done|]. intros (x & r & ->). apply Hs. exists x, (r ++ [c]). by rewrite <-(assoc_L (++)).
  - eapply plain_strictly; [|apply (ho_plain _ _ Hg)]. intros p Hp. rewrite lookup_cleared, decide_False; [done|]. intros Hs. by eapply Hp, strictly_app.
  - intros p. rewrite lookup_cleared. by case_decide; [intros []|].
Qed.

Lemma does_clear O p m t :
  at_key p (IDir m t true) → does (phase O []) (clear_directory d p) (λ _, phase (p :: O) []).
Proof using Hcl.
  intros Hp. apply does_pre. intros g Hg. pose proof (key_names _ _ Hp) as (Hne & Hr & Hn).
  destruct (exists_last Hne) as (a & c & ->). rewrite !Forall_app, !Forall_singleton in Hr, Hn. destruct Hr as [Hra Hrc], Hn as [Hna Hnc].
  unfold clear_directory, walk_to_parent. rewrite parent_snoc. rewrite last_comp_snoc.
  pose proof (ph_host _ _ _ Hg) as Hh.
  eapply does_bind; [apply does_walk_make; [done|apply Hh|apply Hh]|]. intros r. apply does_pre. intros g1 [-> Hgrew]. pose proof Hgrew as [G1 G2 G3].
  assert (hosted g1 d) as Hh1.
  { pose proof (grew_hosted g g1 [] a) as H. rewrite !app_nil_r in H. apply H; [done|done|done|]. by eapply plain_dir_app. }
  assert (hosted g1 (d ++ a)) as Hh1a by by apply hosted_deeper.
  eapply does_bind; [by apply does_ensure_directory|]. intros []. set (g2 := <[_ := _]> g1).
  assert (hosted g2 d) as Hh2 by (apply hosted_put; [done..|by left]).
  assert (plain_dir g2 (d ++ a ++ [c])) as Hp2.
  { rewrite (assoc_L (++)). apply plain_dir_snoc; [by apply plain_put|unfold dir_at, g2; by rewrite lookup_insert_eq|apply Hrc]. }
  eapply does_bind; [eapply does_host_open; [by apply plain_put|done|apply lookup_insert_eq]|]. intros q. apply does_pre. intros ? [-> ->].
  rewrite <-(assoc_L (++)) in *. eapply does_conseq; [apply does_clear_children; by apply hosted_deeper|done|]. intros [] g' ->.
  assert (dir_key (a ++ [c])) as Hkey by by eexists _, _, _.
  assert (phase O [] (cleared g2 (d ++ a ++ [c]))) as Hph.
  { apply (phase_moves (strictly (a ++ [c])) O [] g); [done|by constructor| |by apply hosted_cleared|].
    - intros q. rewrite lookup_cleared. case_decide as Hs.
      + right. destruct Hs as (x & s & ->). rewrite <-(assoc_L (++)). exists ((a ++ [c]) ++ x :: s).
        split; [done|]. split; [by destruct a|]. right. split; [by eexists _, _|done].
      + unfold g2. destruct (decide (q = d ++ a ++ [c])) as [->|Hq].
        { right. exists (a ++ [c]). split; [done|]. split; [by destruct a|]. by left. }
        rewrite lookup_insert_ne by by rewrite <-(assoc_L (++)). destruct (G3 q) as [->|((s & u & Hs' & -> & ->) & _)]; [by left|].
        right. exists s. split; [done|]. split; [done|]. left. destruct Hkey as (m' & t' & b' & Hkey). rewrite <-(assoc_L (++)) in Hkey.
        destruct u as [|x u]; by eapply key_above.
    - intros r (x & s & ->). left. by eexists _, x, s, _. }
  destruct Hph as [P1 P2 P3 P4 P5 P6]. split; [done..| |done]. intros p' r [->|Hp']%elem_of_cons Hs Hk; [|by eapply P5].
  rewrite lookup_cleared, decide_True; [done|]. destruct Hs as (x & s & ->). exists x, s. by rewrite <-(assoc_L (++) d).
Qed.

(** *** Removing *)

Lemma does_delete O D p :
  Forall (λ p, at_key p IDelete) D → at_key p IDelete → does (phase O D) (remove_validated_target d p) (λ _, phase O (p :: D)).
Proof using Hcl.
  intros HD Hp. apply does_pre. intros g Hg. pose proof (key_names _ _ Hp) as (Hne & Hr & _).
  destruct (exists_last Hne) as (a & c & ->). rewrite !Forall_app, !Forall_singleton in Hr. destruct Hr as [Hra Hrc].
  unfold remove_validated_target, walk_to_parent. rewrite parent_snoc. rewrite last_comp_snoc.
  pose proof (ph_host _ _ _ Hg) as Hh. eapply does_bind; [apply does_walk_look; [done|apply Hh|apply Hh]|]. intros r. apply does_pre. intros ? [-> Hw].
  assert (∀ g', phase O D g' → (∀ r, g' !! (d ++ (a ++ [c]) ++ r) = None) → phase O ((a ++ [c]) :: D) g') as Hdone.
  { intros g' [P1 P2 P3 P4 P5 P6] Hnone. split; [done..|]. intros p' s [->|Hp']%elem_of_cons; [done|by apply P6]. }
  destruct r as [q|].
  - destruct Hw as [-> Hpa]. assert (hosted g (d ++ a)) as Hha by by apply hosted_deeper.
    eapply does_conseq; [by apply does_remove_recursive|done|]. intros [] g' ->. rewrite <-(assoc_L (++)). apply Hdone.
    + apply (phase_moves (λ r, ∃ s, r = (a ++ [c]) ++ s) O D g); [done|done|..].
      * intros q. rewrite lookup_without. case_decide as Hb; [by left|]. right. destruct (below (d ++ a ++ [c]) q) as [s|] eqn:Hs; [|done].
        apply below_Some in Hs as ->. exists ((a ++ [c]) ++ s). rewrite <-(assoc_L (++)). split; [done|]. split; [by destruct a|]. right. eauto.
      * rewrite (assoc_L (++)). destruct (hosted_without g (d ++ a) c Hha) as [W1 W2 W3]. apply hosted_sub with g; [done|done|by eapply plain_dir_app|].
        intros q. rewrite lookup_without. by case_decide; [|intros []].
      * intros r [s ->]. destruct s as [|x s]; [right; by rewrite app_nil_r|]. left. by eexists _, x, s, _.
    + intros r. rewrite lookup_without, decide_False; [done|].
      replace (d ++ (a ++ [c]) ++ r) with ((d ++ a ++ [c]) ++ r) by by rewrite <-!(assoc_L (++)). by rewrite below_app.
  - apply does_ret. intros ? ->. apply Hdone; [done|]. intros r. rewrite <-(assoc_L (++)), (assoc_L (++) d). apply tree_below; [apply Hh|done|by destruct r].
Qed.

Definition opaque_keys (ps : list path) : Prop := Forall (λ p, ∃ m t, at_key p (IDir m t true)) ps.

Lemma does_clears ps : ∀ O s, opaque_keys ps →
  does (phase O []) (clear_opaques d ps s) (λ _ g, ∃ O', phase O' [] g ∧ ∀ p, p ∈ O' ↔ p ∈ ps ∨ p ∈ O).
Proof using Hcl.
  induction ps as [|p ps IH]; intros O s Hps; cbn [clear_opaques].
  { apply does_ret. intros g Hg. exists O. split; [done|]. intros x. split; [by right|by intros [?%elem_of_nil|?]]. }
  apply Forall_cons in Hps as [(m & t & Hp) Hps]. eapply does_bind; [by eapply does_clear|]. intros [].
  eapply does_conseq; [by apply (IH (p :: O))|done|]. intros _ g (O' & Hg & HO). exists O'. split; [done|]. intros x. rewrite HO, !elem_of_cons. tauto.
Qed.

Lemma does_deletes ps : ∀ O D s, Forall (λ p, at_key p IDelete) D → Forall (λ p, at_key p IDelete) ps →
  does (phase O D) (apply_deletes d ps s) (λ _ g, ∃ D', phase O D' g ∧ ∀ p, p ∈ D' ↔ p ∈ ps ∨ p ∈ D).
Proof using Hcl.
  induction ps as [|p ps IH]; intros O D s HD Hps; cbn [apply_deletes].
  { apply does_ret. intros g Hg. exists D. split; [done|]. intros x. split; [by right|by intros [?%elem_of_nil|?]]. }
  apply Forall_cons in Hps as [Hp Hps]. eapply does_bind; [by apply does_delete|]. intros [].
  eapply does_conseq; [apply (IH O (p :: D)); [by constructor|done]|done|]. intros _ g (D' & Hg & HO). exists D'. split; [done|]. intros x. rewrite HO, !elem_of_cons. tauto.
Qed.

(** *** Content *)

(** The file is there already, with its time. *)
Definition was_there (p : path) (data : bytes) (mtime : Z) : Prop :=
  ∃ mode xs, f !! (d ++ p) = Some (NFile data mode xs) ∧ times (d ++ p) = mtime.

(** What an item leaves at its path. *)
Definition shows_item (g : fs) (p : path) (i : item) : Prop :=
  match i with
  | IDir mode _ _ => ∃ xs, g !! (d ++ p) = Some (NDir mode xs)
  | IFile data mode mtime =>
      g !! (d ++ p) = Some (NFile data mode ∅) ∨ was_there p data mtime ∧ g !! (d ++ p) = f !! (d ++ p)
  | ILink t _ _ => g !! (d ++ p) = Some (NSymlink t)
  | IDelete => g !! (d ++ p) = None
  end.

(** The state of the third pass: [Δ1] has been written. *)
Record written (Δ1 : delta) (g : fs) (ts : mtimes) : Prop := {
  wr_host : hosted g d;
  wr_out : outside (strictly d) f g;
  wr_done p i : (p, i) ∈ Δ1 → shows_item g p i;
  wr_todo p i : at_key p i → ¬ dir_key p → (p, i) ∉ Δ1 → g !! (d ++ p) = f !! (d ++ p) ∨ g !! (d ++ p) = None;
  wr_deleted p r : at_key p IDelete → g !! (d ++ p ++ r) = None;
  wr_cleared p m t r : at_key p (IDir m t true) → strictly p r → (∀ i, ¬ at_key r i) → g !! (d ++ r) = None;
  wr_keep r : r ≠ [] → (∀ i, ¬ at_key r i) → ¬ covered r → g !! (d ++ r) = f !! (d ++ r);
  wr_times p : (∀ i, (p, i) ∉ Δ1) → ts (d ++ p) = times (d ++ p);
}.

Lemma written_start O D g :
  phase O D g → (∀ p m t, at_key p (IDir m t true) → p ∈ O) → (∀ p, at_key p IDelete → p ∈ D) → written [] g times.
Proof using Hcl.
  intros [P1 P2 P3 P4 P5 P6] HO HD. assert (∀ r, (∀ i, ¬ at_key r i) → ¬ dir_key r) as Hno by (intros r Hr (? & ? & ? & Hk); by eapply Hr).
  split; [done|done|by intros ? ? ?%elem_of_nil|..|done].
  - intros p i Hi Hk _. apply P3; [|done]. by apply key_names in Hi as [? _].
  - intros p r Hp. by apply P6, HD.
  - intros p m t r Hp Hs Hr. eapply P5; [by eapply HO|done|auto].
  - intros r Hne Hr Hc. apply P4; [done|auto|done|]. apply Hr.
Qed.

Lemma does_written_reach {A} Δ1 k i Δ2 g ts (c : path → io ApplyError A) R :
  Δ = Δ1 ++ (k, i) :: Δ2 → written Δ1 g ts →
  (∀ a x, k = a ++ [x] → hosted g (d ++ a) → Forall host_name a → host_name x → does (λ h, h = g) (c (d ++ a)) R) →
  does (λ h, h = g) (do fd := reach d k in c fd)%io R.
Proof using Hcl.
  intros HΔ Hw Hc. assert (at_key k i) as Hk by (unfold at_key; rewrite HΔ; apply elem_of_app; right; by left).
  pose proof (key_names _ _ Hk) as (Hne & Hr & Hn). destruct (exists_last Hne) as (a & x & ->).
  rewrite !Forall_app, !Forall_singleton in Hr, Hn. destruct Hr as [Hra Hrx], Hn as [Hna Hnx].
  assert (plain_dir g (d ++ a)) as Hp.
  { assert (∀ b u, a = b ++ u → plain_dir g (d ++ b)) as Hpre.
    { intros b. induction b as [|y b IH] using rev_ind; intros u Ha; [rewrite app_nil_r; apply (wr_host _ _ _ Hw)|].
      rewrite (assoc_L (++)). apply plain_dir_snoc.
      - apply (IH (y :: u)). by rewrite Ha, <-(assoc_L (++)).
      - rewrite <-(assoc_L (++)). destruct (cl_order _ Hcl Δ1 (a ++ [x]) i Δ2 (b ++ [y]) (hd x (u ++ [x])) (tl (u ++ [x])) HΔ) as (m & t & e & Hin).
        { rewrite Ha, <-(assoc_L (++) _ u). f_equal. by destruct u. }
        { by destruct b. }
        apply (wr_done _ _ _ Hw) in Hin as [xs Hg]. unfold dir_at. by rewrite Hg.
      - subst a. rewrite !Forall_app, Forall_singleton in Hra. apply Hra. }
    apply (Hpre a []). by rewrite app_nil_r. }
  intros w Hwf. unfold reach. rewrite bind_assoc_at. revert w Hwf.
  change (does (λ h, h = g) (do p := walk_to_parent d (a ++ [x]) true in
    bind match p with None => fail (Unreachable (a ++ [x])) | Some fd => ret fd end c)%io R).
  unfold walk_to_parent. rewrite parent_snoc. eapply does_bind; [by apply does_walk_plain|]. intros r. apply does_pre. intros ? [-> ->].
  intros w Hwf. apply (Hc a x); [done|by apply hosted_deeper, Hp; apply Hw|done|done|done].
Qed.

Lemma written_item Δ1 k i Δ2 g ts g' ts' :
  Δ = Δ1 ++ (k, i) :: Δ2 → written Δ1 g ts → hosted g' d → shows_item g' k i →
  (∀ q, g' !! q = g !! q ∨ q = d ++ k ∨ ∃ c s, q = d ++ k ++ c :: s ∧ ¬ dir_key k ∧ g' !! q = None) →
  (∀ p, p ≠ k → ts' (d ++ p) = ts (d ++ p)) → written (Δ1 ++ [(k, i)]) g' ts'.
Proof using Hcl.
  intros HΔ Hw Hh Hi Hq Hts. assert (at_key k i) as Hk by (unfold at_key; rewrite HΔ; apply elem_of_app; right; by left).
  pose proof (key_names _ _ Hk) as (Hne & _ & _).
  assert (∀ j, (k, j) ∉ Δ1) as Hfresh.
  { intros j Hj. pose proof (cl_nodup _ Hcl) as Hnd. rewrite HΔ, fmap_app in Hnd. apply NoDup_app in Hnd as (_ & Hnd & _).
    apply (Hnd k); [by apply (list_elem_of_fmap_2 fst) in Hj|by left]. }
  assert (∀ p j, at_key p j → p ≠ k → g' !! (d ++ p) = g !! (d ++ p)) as Hkey.
  { intros p j Hp Hpk. destruct (Hq (d ++ p)) as [?|[Heq|(c & s & Heq & Hnd & _)]]; [done|by apply (inj (app d)) in Heq|].
    apply (inj (app d)) in Heq as ->. destruct Hnd. by eapply key_above. }
  assert (∀ r, (∀ j, ¬ at_key r j) → g' !! (d ++ r) = g !! (d ++ r) ∨ g' !! (d ++ r) = None ∧ covered r) as Hrest.
  { intros r Hr. destruct (Hq (d ++ r)) as [?|[Heq|(c & s & Heq & Hnd & ?)]]; [by left|apply (inj (app d)) in Heq as ->; by destruct (Hr i)|].
    right. split; [done|]. apply (inj (app d)) in Heq as ->. exists k, c, s, i. split_and!; [done|done|].
    destruct i as [? ? []| | |]; try done. destruct Hnd. by eexists _, _, _. }
  destruct Hw as [W1 W2 W3 W4 W5 W6 W7 W8]. split; [done|..].
  - intros q Hs. rewrite <-W2 by done. destruct k as [|c k]; [done|]. destruct (Hq q) as [?|[->|(x & s & -> & _)]]; [done|..]; destruct Hs; by eexists _, _.
  - intros p j [Hp|[= -> ->]%list_elem_of_singleton]%elem_of_app; [|done]. pose proof (W3 _ _ Hp) as Hs. unfold shows_item in *.
    rewrite (Hkey p j); [done|unfold at_key; rewrite HΔ; apply elem_of_app; by left|]. intros ->. by eapply Hfresh.
  - intros p j Hp Hd Hn. rewrite not_elem_of_app, list_elem_of_singleton in Hn. destruct Hn as [Hn1 Hn2].
    assert (p ≠ k) as Hpk by (intros ->; by rewrite (key_unique _ _ _ Hp Hk) in Hn2). rewrite (Hkey p j) by done. by eapply W4.
  - intros p r Hp. destruct (Hq (d ++ p ++ r)) as [->|[Heq|(c & s & _ & _ & ?)]]; [by apply W5| |done].
    apply (inj (app d)) in Heq as Heq. destruct r as [|x r].
    + rewrite !app_nil_r in *. subst p. rewrite (key_unique _ _ _ Hk Hp) in Hi. done.
    + subst k. apply key_above in Hk as (? & ? & ? & Hk); [|by apply key_names in Hp as [? _]]. by pose proof (key_unique _ _ _ Hp Hk).
  - intros p m t r Hp Hs Hr. destruct (Hrest r Hr) as [->|[? _]]; [by eapply W6|done].
  - intros r Hrne Hr Hc. destruct (Hrest r Hr) as [->|[_ ?]]; [by apply W7|done].
  - intros p Hp. rewrite Hts; [apply W8|]; [intros j Hj; apply (Hp j), elem_of_app; by left|].
    intros ->. apply (Hp i), elem_of_app. right. by left.
Qed.
End apply.

(** ** The entries of a delta *)

(** The archive entries of an item, and what the plan makes of them. *)
Definition item_entries (ki : path * item) : list tar_entry :=
  let name := join_with slash ki.1 in
  match ki.2 with
  | IDir mode mtime cut =>
      mkTar (name ++ [slash]) TkDirectory (Some mode) (Some mtime) (Some 0%Z) None [] ::
      if cut then [marker_tar (name ++ [slash] ++ OPAQUE_MARKER)] else []
  | IFile data mode mtime => [mkTar name TkRegular (Some mode) (Some mtime) (Some (Z.of_nat (length data))) None data]
  | ILink target mode mtime => [mkTar name TkSymlink (Some mode) (Some mtime) (Some 0%Z) (Some target) []]
  | IDelete => [marker_tar (join_with slash (parent ki.1 ++ [LOGICAL_WHITEOUT_PREFIX ++ file_name ki.1]))]
  end.

Definition item_plan (ki : path * item) : list PlannedEntry :=
  match ki.2 with
  | IDir mode _ cut => PlannedDirectory ki.1 mode :: if cut then [PlannedMarker] else []
  | IFile data mode mtime => [PlannedFile ki.1 mode mtime (Z.of_nat (length data))]
  | ILink _ _ _ => [PlannedSymlink ki.1]
  | IDelete => [PlannedMarker]
  end.

Section content.
Context (Δ : delta).
Hypothesis Hcl : closed Δ.
Context (f : fs) (d : path) (times : mtimes).
Abbreviation written := (written Δ f d times).
Abbreviation shows_item := (shows_item f d times).

Lemma hosted_top g a x n : hosted g d → hosted g (d ++ a) → Forall host_name a → host_name x →
  n_is_dir n = true ∨ dir_at g (d ++ a ++ [x]) = false → hosted (<[d ++ a ++ [x] := n]> g) d.
Proof using. intros Hg Ha Hna Hx Hn. rewrite (assoc_L (++)) in *. by apply hosted_put. Qed.

Lemma does_dir_item Δ1 k m t b Δ2 e st :
  Δ = Δ1 ++ (k, IDir m t b) :: Δ2 →
  does (λ g, written Δ1 g st.2) (apply_entry d (PlannedDirectory k m) e st) (λ st' g, written (Δ1 ++ [(k, IDir m t b)]) g st'.2).
Proof using Hcl.
  intros HΔ. apply does_pre. intros g Hw. cbn [apply_entry]. eapply (does_written_reach Δ Hcl f d times); [exact HΔ|exact Hw|].
  intros a x -> Hha Hna Hx. rewrite last_comp_snoc.
  pose proof (wr_host _ _ _ _ _ _ _ Hw) as Hh. eapply does_bind; [apply does_ensure_directory; [apply Hha|apply Hx]|]. intros []. apply does_ret. intros ? ->.
  rewrite <-(assoc_L (++)). eapply written_item; [done|exact HΔ|exact Hw|..|done].
  - apply hosted_top; [done..|by left].
  - eexists. by rewrite lookup_insert_eq.
  - intros q. destruct (decide (q = d ++ a ++ [x])) as [->|Hq]; [by right; left|]. left. by rewrite lookup_insert_ne.
Qed.

(** An entry that takes the place of whatever is there. *)
Lemma written_placed Δ1 a x i n Δ2 g ts ts' :
  Δ = Δ1 ++ (a ++ [x], i) :: Δ2 → written Δ1 g ts → hosted g (d ++ a) → Forall host_name a → host_name x →
  ¬ dir_key Δ (a ++ [x]) →
  let g' := <[(d ++ a) ++ [x] := n]> (without g ((d ++ a) ++ [x])) in
  shows_item g' (a ++ [x]) i → (∀ p, p ≠ a ++ [x] → ts' (d ++ p) = ts (d ++ p)) → written (Δ1 ++ [(a ++ [x], i)]) g' ts'.
Proof using Hcl.
  intros HΔ Hw Hha Hna Hx Hnd g' Hs Hts. pose proof (wr_host _ _ _ _ _ _ _ Hw) as Hh.
  assert (∀ q, without g ((d ++ a) ++ [x]) !! q = g !! q ∨ is_Some (below ((d ++ a) ++ [x]) q) ∧ without g ((d ++ a) ++ [x]) !! q = None) as Hlk.
  { intros q. rewrite lookup_without. destruct (below _ q); [right; rewrite decide_False by done; eauto|left; by rewrite decide_True]. }
  eapply written_item; [done|exact HΔ|exact Hw| |exact Hs| |exact Hts].
  - unfold g'. apply hosted_put; [by apply hosted_without| |done|done|].
    + destruct (hosted_without g (d ++ a) x Hha) as [W1 W2 _]. apply hosted_sub with g; [done|done|by eapply plain_dir_app|].
      intros q. destruct (Hlk q) as [->|[_ ->]]; [done|by intros []].
    + right. unfold dir_at. rewrite lookup_without, decide_False; [done|]. by rewrite below_self.
  - intros q. unfold g'. destruct (decide (q = (d ++ a) ++ [x])) as [->|Hq]; [right; left; by rewrite <-(assoc_L (++))|].
    rewrite lookup_insert_ne by done. destruct (Hlk q) as [->|[[s Hb] Hnone]]; [by left|]. apply below_Some in Hb as ->.
    destruct s as [|c s]; [by rewrite app_nil_r in Hq|]. right. right. exists c, s. split; [by rewrite <-!(assoc_L (++))|done].
Qed.

Lemma not_dir_key k i : (k, i) ∈ Δ → (∀ m t b, i ≠ IDir m t b) → ¬ dir_key Δ k.
Proof using Hcl. intros Hk Hi (m & t & b & Hk'). by apply (Hi m t b), (key_unique Δ Hcl k). Qed.

Lemma does_file_item Δ1 k data m t Δ2 e st :
  Δ = Δ1 ++ (k, IFile data m t) :: Δ2 → te_content e = data →
  does (λ g, written Δ1 g st.2) (apply_entry d (PlannedFile k m t (Z.of_nat (length data))) e st)
    (λ st' g, written (Δ1 ++ [(k, IFile data m t)]) g st'.2).
Proof using Hcl.
  intros HΔ He. apply does_pre. intros g Hw. cbn [apply_entry]. rewrite He. eapply (does_written_reach Δ Hcl f d times); [exact HΔ|exact Hw|].
  intros a x -> Hha Hna Hx. rewrite last_comp_snoc. cbv zeta.
  assert ((a ++ [x], IFile data m t) ∈ Δ) as Hk by (rewrite HΔ; apply elem_of_app; right; by left).
  assert (¬ dir_key Δ (a ++ [x])) as Hnd by by eapply not_dir_key.
  assert (does (λ h, h = g) (replace_file (d ++ a) x m t data st) (λ st' g, written (Δ1 ++ [(a ++ [x], IFile data m t)]) g st'.2)) as Hrep.
  { eapply does_conseq; [apply does_replace_file; [done|apply Hx]|done|]. intros r h [-> ->]. eapply written_placed; [done..|left; rewrite (assoc_L (++)); by rewrite lookup_insert_eq|].
    intros p Hp. cbn [snd]. unfold stamp. rewrite decide_False; [done|]. rewrite <-(assoc_L (++)). by intros ?%(inj (app d)). }
  eapply does_bind_reads; [done|]. unfold unchanged. rewrite child_resolves by (apply Hha || apply Hx).
  destruct (g !! ((d ++ a) ++ [x])) as [[data' m' xs'| | | |]|] eqn:Hg; try exact Hrep.
  destruct (bool_decide _ && bool_decide _ && bool_decide _) eqn:Hsame; [|exact Hrep].
  rewrite !andb_true_iff, !bool_decide_eq_true in Hsame. destruct Hsame as [_ Ht].
  eapply does_bind_reads; [unfold dest_file_content_equals; rewrite child_resolves by (apply Hha || apply Hx); cbn [result_bind]; unfold node_at; by rewrite Hg|].
  case_bool_decide as Hd; [|exact Hrep]. subst data'. apply does_ret. intros ? ->. rewrite <-(assoc_L (++)) in Hg, Ht.
  assert (∀ j, (a ++ [x], j) ∉ Δ1) as Hfresh.
  { intros j Hj. pose proof (cl_nodup _ Hcl) as Hdup. rewrite HΔ, fmap_app in Hdup. apply NoDup_app in Hdup as (_ & Hdup & _).
    apply (Hdup (a ++ [x])); [by apply (list_elem_of_fmap_2 fst) in Hj|by left]. }
  eapply written_item; [done|exact HΔ|exact Hw|apply Hw| |by left|done]. right.
  destruct (wr_todo _ _ _ _ _ _ _ Hw _ _ Hk Hnd (Hfresh _)) as [Hold|Hold]; [|congruence]. split; [|done]. exists m', xs'.
  split; [congruence|]. rewrite <-(wr_times _ _ _ _ _ _ _ Hw _ Hfresh). done.
Qed.

Lemma does_link_item Δ1 k target m t Δ2 e st :
  Δ = Δ1 ++ (k, ILink target m t) :: Δ2 → te_link e = Some target →
  does (λ g, written Δ1 g st.2) (apply_entry d (PlannedSymlink k) e st) (λ st' g, written (Δ1 ++ [(k, ILink target m t)]) g st'.2).
Proof using Hcl.
  intros HΔ He. apply does_pre. intros g Hw. cbn [apply_entry]. rewrite He. eapply (does_written_reach Δ Hcl f d times); [exact HΔ|exact Hw|].
  intros a x -> Hha Hna Hx. rewrite last_comp_snoc.
  assert ((a ++ [x], ILink target m t) ∈ Δ) as Hk by (rewrite HΔ; apply elem_of_app; right; by left).
  eapply does_bind; [apply does_remove_recursive; [done|apply Hx]|]. intros [].
  eapply does_bind; [apply does_host, does_symlinkat; [apply (ho_plain _ _ (hosted_without _ _ x Hha))|apply Hx|]|].
  { rewrite lookup_without, decide_False; [done|]. by rewrite below_self. }
  intros []. apply does_ret. intros ? ->. eapply written_placed; [done..|by eapply not_dir_key| |done].
  cbn. by rewrite (assoc_L (++)), lookup_insert_eq.
Qed.

Lemma does_items Δ2 : ∀ Δ1 st, Δ = Δ1 ++ Δ2 →
  does (λ g, written Δ1 g st.2) (apply_entries d (Δ2 ≫= item_plan) (Δ2 ≫= item_entries) st) (λ st' g, written Δ g st'.2).
Proof using Hcl.
  induction Δ2 as [|[k i] Δ2 IH]; intros Δ1 st HΔ.
  { apply does_ret. rewrite HΔ, app_nil_r. done. }
  assert (∀ st', does (λ g, written (Δ1 ++ [(k, i)]) g st'.2) (apply_entries d (Δ2 ≫= item_plan) (Δ2 ≫= item_entries) st')
    (λ st' g, written Δ g st'.2)) as Hnext.
  { intros st'. apply IH. by rewrite HΔ, <-(assoc_L (++)). }
  rewrite !bind_cons. destruct i as [m t b|data m t|target m t|]; cbn [item_plan item_entries fst snd app apply_entries].
  - eapply does_bind; [eapply does_dir_item; exact HΔ|]. intros st'. destruct b; [|apply Hnext]. cbn [app apply_entries apply_entry].
    eapply (does_bind _ _ _ (λ st'' g, written (Δ1 ++ [(k, IDir m t true)]) g st''.2)); [by apply does_ret|]. intros st''. apply Hnext.
  - eapply does_bind; [eapply does_file_item; [exact HΔ|done]|]. intros st'. apply Hnext.
  - eapply does_bind; [eapply does_link_item; [exact HΔ|done]|]. intros st'. apply Hnext.
  - cbn [apply_entry]. eapply (does_bind _ _ _ (λ st'' g, written (Δ1 ++ [(k, IDelete)]) g st''.2)); [|intros st''; apply Hnext].
    apply does_ret. intros g Hw. eapply written_item; [done|exact HΔ|exact Hw|apply Hw| |by left|done]. cbn.
    pose proof (wr_deleted _ _ _ _ _ _ _ Hw k []) as Hd. rewrite app_nil_r in Hd. apply Hd. unfold at_key. rewrite HΔ. apply elem_of_app. right. by left.
Qed.
End content.

(** ** The plan of a delta *)

Lemma normal_parts_real_id name (cs tail : list bytes) : Forall real cs → tail = [] ∨ tail = [[]] → normal_parts name (cs ++ tail) = Ok cs.
Proof.
  intros Hcs Ht. induction Hcs as [|c cs (Hne & Hd & Hdd & _) Hcs IH]; [by destruct Ht as [-> | ->]|].
  cbn [app normal_parts]. rewrite !bool_decide_false by done. cbn [orb]. by rewrite IH.
Qed.

Lemma join_relative (cs : list bytes) : cs ≠ [] → Forall real cs → ∀ tail, is_absolute (join_with slash (cs ++ tail)) = false.
Proof.
  intros Hne Hr tail. destruct cs as [|c cs]; [done|]. apply Forall_cons in Hr as [(Hc & _ & _ & Hs) _]. unfold is_absolute.
  apply not_true_iff_false. rewrite starts_with_app. intros [s Hj]. destruct c as [|x c]; [done|]. cbn in Hj.
  destruct (cs ++ tail); simplify_eq/=; apply Hs; by left.
Qed.

Lemma join_free (x : byte) (cs : list bytes) : x ≠ slash → Forall (λ c, x ∉ c) cs → x ∉ join_with slash cs.
Proof.
  intros Hx Hcs. induction Hcs as [|c cs Hc Hcs IH]; [by intros ?%elem_of_nil|]. destruct cs as [|c' cs]; [done|].
  change (join_with slash (c :: c' :: cs)) with (c ++ slash :: join_with slash (c' :: cs)).
  rewrite elem_of_app, elem_of_cons. by intros [?|[?|?]].
Qed.

Lemma validated_join (cs tail : list bytes) :
  cs ≠ [] → Forall real cs → Forall (λ c, nul ∉ c) cs → Forall (λ c, starts_with LOGICAL_WHITEOUT_PREFIX c = false) (parent cs) →
  tail = [] ∨ tail = [[]] → validated_components (join_with slash (cs ++ tail)) = Ok cs.
Proof.
  intros Hne Hr Hnul Hp Ht. unfold validated_components. rewrite join_relative by done. rewrite bool_decide_false.
  - rewrite split_join_with.
    + rewrite normal_parts_real_id by done. cbn [result_bind]. rewrite bool_decide_false by done.
      replace (existsb _ (parent cs)) with false; [done|]. symmetry. apply not_true_iff_false. rewrite existsb_exists.
      intros (c & Hc%list_elem_of_In & Hs). rewrite Forall_forall in Hp. by rewrite Hp in Hs.
    + by destruct cs.
    + apply Forall_app. split; [eapply Forall_impl; [exact Hr|]; by intros c (_ & _ & _ & ?)|].
      destruct Ht as [-> | ->]; [done|]. constructor; [by intros ?%elem_of_nil|done].
  - apply join_free; [done|]. apply Forall_app. split; [done|]. destruct Ht as [-> | ->]; [done|]. constructor; [by intros ?%elem_of_nil|done].
Qed.

Definition item_ok (i : item) : Prop :=
  match i with IDir m _ _ | IFile _ m _ | ILink _ m _ => (0 ≤ m < 2 ^ 12)%Z | IDelete => True end.

Lemma land_mode m : (0 ≤ m < 2 ^ 12)%Z → Z.land m 0xfff = m.
Proof. intros Hm. change 0xfff%Z with (Z.ones 12). rewrite Z.land_ones by lia. by apply Z.mod_small. Qed.

Definition opaques_of (Δ : delta) : list path := omap (λ ki, match ki.2 with IDir _ _ true => Some ki.1 | _ => None end) Δ.
Definition deletes_of (Δ : delta) : list path := omap (λ ki, match ki.2 with IDelete => Some ki.1 | _ => None end) Δ.

Section plan.
Context (cap : Z).

(** An entry whose name is a text with accepted components. *)
Lemma plan_entry_step plan e cs tail p plan' :
  (Z.of_nat (length (entries plan)) < cap)%Z → te_name e = join_with slash (cs ++ tail) →
  cs ≠ [] → Forall host_name cs → Forall (λ c, nul ∉ c) cs → Forall (λ c, starts_with LOGICAL_WHITEOUT_PREFIX c = false) (parent cs) →
  tail = [] ∨ tail = [[]] → classify_entry e (te_name e) cs plan = Ok (p, plan') →
  plan_entry cap plan e = Ok (mkPlan (entries plan' ++ [p]) (opaque_dirs plan') (whiteout_targets plan')).
Proof.
  intros Hcap Hname Hne Hhost Hnul Hpre Ht Hc. unfold plan_entry. rewrite decide_False by lia.
  assert (utf8_valid (te_name e) = true) as ->.
  { rewrite Hname. apply utf8_valid_join; [done|]. apply Forall_app. split; [eapply Forall_impl; [exact Hhost|]; by intros c [_ ?]|].
    destruct Ht as [-> | ->]; [done|]. by constructor. }
  cbn [negb]. rewrite Hname at 1. rewrite validated_join; [|done|eapply Forall_impl; [exact Hhost|]; by intros c [? _]|done..].
  cbn [result_bind]. by rewrite Hc.
Qed.

Lemma key_split k : k ≠ [] → Forall key_name k →
  Forall host_name k ∧ Forall (λ c, nul ∉ c) k ∧ Forall (λ c, starts_with LOGICAL_WHITEOUT_PREFIX c = false) k.
Proof. intros _ Hk. split_and!; (eapply Forall_impl; [exact Hk|]); by intros c (? & ? & ?). Qed.

Lemma classify_plain e name k plan m : k ≠ [] → Forall key_name k → te_kind e ≠ TkLink → te_mode e = Some m → (0 ≤ m < 2 ^ 12)%Z →
  classify_entry e name k plan =
  match te_kind e with
  | TkDirectory => Ok (PlannedDirectory k m, plan)
  | TkRegular | TkContinuous =>
      match te_mtime e, te_size e with Some mtime, Some size => Ok (PlannedFile k m mtime size, plan) | _, _ => Err (UnreadableField name) end
  | TkSymlink => match te_link e with None => Err (SymlinkWithoutTarget name) | Some _ => Ok (PlannedSymlink k, plan) end
  | _ => Err (UnsupportedEntry name)
  end.
Proof.
  intros Hne Hk Hl Hm Hr. destruct (exists_last Hne) as (a & x & ->). rewrite Forall_app, Forall_singleton in Hk. destruct Hk as [_ (_ & _ & Hx)].
  unfold classify_entry. rewrite decide_False by done. rewrite last_comp_snoc.
  rewrite decide_False by (by intros ->). destruct (strip_prefix _ x) as [s|] eqn:Hs; [|by rewrite Hm, land_mode].
  apply strip_prefix_Some in Hs as ->. exfalso. apply not_true_iff_false in Hx. apply Hx, starts_with_app. eauto.
Qed.

Lemma classify_opaque e name k plan : k ≠ [] → te_kind e ≠ TkLink →
  classify_entry e name (k ++ [OPAQUE_MARKER]) plan =
  Ok (PlannedMarker, mkPlan (entries plan) (opaque_dirs plan ++ [k]) (whiteout_targets plan)).
Proof.
  intros Hne Hl. unfold classify_entry. rewrite decide_False by done. rewrite last_comp_snoc.
  rewrite decide_True by done. rewrite decide_False, parent_snoc; [done|]. rewrite length_app. destruct k; [done|simpl; lia].
Qed.

Lemma classify_whiteout e name a x plan : key_name x → te_kind e ≠ TkLink →
  classify_entry e name (a ++ [LOGICAL_WHITEOUT_PREFIX ++ x]) plan =
  Ok (PlannedMarker, mkPlan (entries plan) (opaque_dirs plan) (whiteout_targets plan ++ [a ++ [x]])).
Proof.
  intros (((Hx1 & Hx2 & Hx3 & Hx4) & _) & _ & Hx) Hl. unfold classify_entry. rewrite decide_False by done. rewrite last_comp_snoc.
  rewrite decide_False; [|by intros Heq%(inj (app LOGICAL_WHITEOUT_PREFIX) x (lit ".wh..opq")); subst x].
  rewrite (proj2 (strip_prefix_Some _ _ _) eq_refl). unfold invalid_target. rewrite !bool_decide_false, Hx by done. by rewrite parent_snoc.
Qed.

Lemma fold_result_app {A B E : Type} (g : A → B → result A E) l1 l2 : ∀ a,
  fold_result g a (l1 ++ l2) = (let? a := fold_result g a l1 in fold_result g a l2)%result.
Proof. induction l1 as [|b l1 IH]; intros a; [done|]. cbn [app fold_result]. destruct (g a b); cbn [result_bind]; [apply IH|done]. Qed.

Lemma plan_item plan k i :
  (Z.of_nat (length (entries plan) + length (item_entries (k, i))) ≤ cap)%Z → k ≠ [] → Forall key_name k → item_ok i →
  fold_result (plan_entry cap) plan (item_entries (k, i)) =
  Ok (mkPlan (entries plan ++ item_plan (k, i)) (opaque_dirs plan ++ opaques_of [(k, i)]) (whiteout_targets plan ++ deletes_of [(k, i)])).
Proof.
  intros Hcap Hne Hk Hi. destruct (key_split k Hne Hk) as (Hhost & Hnul & Hpre).
  assert (Forall (λ c, starts_with LOGICAL_WHITEOUT_PREFIX c = false) (parent k)) as Hpp by by apply Forall_parent.
  assert (∀ plan e tail p, te_name e = join_with slash (k ++ tail) → tail = [] ∨ tail = [[]] → (Z.of_nat (length (entries plan)) < cap)%Z →
    classify_entry e (te_name e) k plan = Ok (p, plan) →
    plan_entry cap plan e = Ok (mkPlan (entries plan ++ [p]) (opaque_dirs plan) (whiteout_targets plan))) as Hone.
  { intros pl e tail p Hname Ht Hc Hcl. by eapply plan_entry_step. }
  destruct i as [m t b|data m t|target m t|]; cbn [item_entries item_plan fst snd fold_result item_ok opaques_of deletes_of omap list_omap] in *.
  - rewrite (Hone _ _ [[]] (PlannedDirectory k m)); [|by rewrite join_with_app|by right|simpl in Hcap; lia|by rewrite classify_plain with (m := m)].
    cbn [result_bind]. destruct b; cbn [fold_result]; [|by rewrite !app_nil_r].
    rewrite (plan_entry_step _ _ (k ++ [OPAQUE_MARKER]) [] PlannedMarker (mkPlan (entries plan ++ [PlannedDirectory k m]) (opaque_dirs plan ++ [k]) (whiteout_targets plan))).
    + cbn [result_bind entries opaque_dirs whiteout_targets]. by rewrite <-(assoc_L (++)), app_nil_r.
    + cbn [entries]. rewrite length_app. simpl in Hcap |- *. lia.
    + cbn [te_name marker_tar]. rewrite app_nil_r, join_with_app by done. done.
    + by destruct k.
    + apply Forall_app. split; [done|]. apply Forall_singleton. split; [|vm_compute; reflexivity]. split_and!; [done..|]. vm_compute. set_solver.
    + apply Forall_app. split; [done|]. apply Forall_singleton. vm_compute. set_solver.
    + by rewrite parent_snoc.
    + by left.
    + by rewrite classify_opaque.
  - rewrite (Hone _ _ [] (PlannedFile k m t (Z.of_nat (length data)))); [by rewrite !app_nil_r|by rewrite app_nil_r|by left|simpl in Hcap; lia|].
    by rewrite classify_plain with (m := m).
  - rewrite (Hone _ _ [] (PlannedSymlink k)); [by rewrite !app_nil_r|by rewrite app_nil_r|by left|simpl in Hcap; lia|].
    by rewrite classify_plain with (m := m).
  - destruct (exists_last Hne) as (a & x & ->). rewrite !Forall_app, !Forall_singleton in *. rewrite parent_snoc, file_name_snoc in *.
    rewrite (plan_entry_step _ _ (a ++ [LOGICAL_WHITEOUT_PREFIX ++ x]) [] PlannedMarker (mkPlan (entries plan) (opaque_dirs plan) (whiteout_targets plan ++ [a ++ [x]]))).
    + cbn [result_bind entries opaque_dirs whiteout_targets]. by rewrite app_nil_r.
    + simpl in Hcap. lia.
    + cbn [te_name marker_tar]. by rewrite app_nil_r.
    + by destruct a.
    + apply Forall_app. split; [apply Hhost|]. apply Forall_singleton. destruct Hhost as [_ [(H1 & H2 & H3 & H4) Hu]]. split; [|by rewrite utf8_valid_app].
      split_and!; [done|by destruct x as [|? [|? ?]]|by destruct x as [|? [|? ?]]|]. rewrite elem_of_app. intros [Hin|?]; [|done]. vm_compute in Hin. set_solver.
    + apply Forall_app. split; [apply Hnul|]. apply Forall_singleton. rewrite elem_of_app. intros [Hin|?]; [|by apply Hnul]. vm_compute in Hin. set_solver.
    + by rewrite parent_snoc.
    + by left.
    + rewrite classify_whiteout; [done|apply Hk|done].
Qed.

Lemma plan_items Δ : ∀ plan,
  (Z.of_nat (length (entries plan) + length (Δ ≫= item_entries)) ≤ cap)%Z → Forall (λ ki, ki.1 ≠ [] ∧ Forall key_name ki.1 ∧ item_ok ki.2) Δ →
  fold_result (plan_entry cap) plan (Δ ≫= item_entries) =
  Ok (mkPlan (entries plan ++ (Δ ≫= item_plan)) (opaque_dirs plan ++ opaques_of Δ) (whiteout_targets plan ++ deletes_of Δ)).
Proof.
  induction Δ as [|[k i] Δ IH]; intros plan Hcap HΔ; [cbn; rewrite !app_nil_r; by destruct plan|].
  apply Forall_cons in HΔ as [(Hne & Hk & Hi) HΔ]. rewrite !bind_cons, length_app in *. rewrite fold_result_app, plan_item by (done || lia).
  assert (length (item_plan (k, i)) = length (item_entries (k, i))) as Hlen by by destruct i as [? ? []| | |].
  cbn [result_bind]. rewrite IH; [|cbn [entries]; rewrite length_app, Hlen; lia|done]. cbn [entries opaque_dirs whiteout_targets].
  rewrite <-!(assoc_L (++)). do 2 f_equal; f_equal; by destruct i as [? ? []| | |].
Qed.
End plan.

Lemma elem_of_opaques Δ p : p ∈ opaques_of Δ ↔ ∃ m t, (p, IDir m t true) ∈ Δ.
Proof.
  unfold opaques_of. rewrite list_elem_of_omap. split.
  - intros ([k [m t []| | |]] & Hin & Heq); simplify_eq/=. eauto.
  - intros (m & t & Hin). by exists (p, IDir m t true).
Qed.

Lemma elem_of_deletes Δ p : p ∈ deletes_of Δ ↔ (p, IDelete) ∈ Δ.
Proof.
  unfold deletes_of. rewrite list_elem_of_omap. split.
  - by intros ([k [| | |]] & Hin & Heq); simplify_eq/=.
  - intros Hin. by exists (p, IDelete).
Qed.

(** ** The theorem *)

(** What is below the destination when a delta has been applied. *)
Record applied (f : fs) (d : path) (times : mtimes) (Δ : delta) (g : fs) : Prop := {
  ap_host : hosted g d;
  ap_out q : ¬ strictly d q → g !! q = f !! q;
  ap_item p i : (p, i) ∈ Δ → shows_item f d times g p i;
  ap_covered r : (∀ i, (r, i) ∉ Δ) → covered Δ r → g !! (d ++ r) = None;
  ap_kept r : r ≠ [] → (∀ i, (r, i) ∉ Δ) → ¬ covered Δ r → g !! (d ++ r) = f !! (d ++ r);
}.

Lemma written_applied Δ f d times g ts : closed Δ → written Δ f d times Δ g ts → applied f d times Δ g.
Proof.
  intros Hcl [W1 W2 W3 W4 W5 W6 W7 W8]. split; [done|done|done| |done].
  intros r Hr (p & c & s & i & -> & Hp & Hi). pose proof (W3 p i Hp) as Hs.
  assert (dir_at g (d ++ p) = false → g !! (d ++ p ++ c :: s) = None) as Hleaf.
  { intros Hd. rewrite (assoc_L (++)). apply tree_below; [apply W1|done|done]. }
  destruct i as [m t []| | |]; [| |..]; cbn [shows_item hides] in *; [by eapply W6; [|eexists _, _|]|done|..].
  - apply Hleaf. unfold dir_at. destruct Hs as [-> |[(m & xs & Hold & _) ->]]; [done|by rewrite Hold].
  - apply Hleaf. unfold dir_at. by rewrite Hs.
  - apply Hleaf. unfold dir_at. by rewrite Hs.
Qed.

Section delta.
Context `{ExportCodec} (caps : ExportApplyCaps) (Δ : delta) (compressed : bytes).
Hypothesis Hcl : closed Δ.
Hypothesis Hok : Forall (λ ki, item_ok ki.2) Δ.
Hypothesis Htar : Forall tar_ok (Δ ≫= item_entries).
Hypothesis Hcode : zstd_decode compressed = Some (tar_write (Δ ≫= item_entries), None).
Hypothesis Hbytes : (Z.of_nat (length (tar_write (Δ ≫= item_entries))) ≤ max_decompressed_bytes caps)%Z.
Hypothesis Hentries : (Z.of_nat (length (Δ ≫= item_entries)) ≤ max_apply_entries caps)%Z.

Lemma delta_decoded : capped_decoder compressed (max_decompressed_bytes caps) = Ok (tar_write (Δ ≫= item_entries), None).
Proof using Hcode Hbytes. unfold capped_decoder, capped. rewrite Hcode. cbn [fst]. by rewrite decide_False by lia. Qed.

Lemma delta_plan : plan_stream compressed caps =
  Ok (mkPlan (Δ ≫= item_plan) (merge_sort comps_le (opaques_of Δ)) (merge_sort comps_le (deletes_of Δ))).
Proof using Hcl Hok Htar Hcode Hbytes Hentries.
  unfold plan_stream. rewrite delta_decoded. cbn [result_bind]. rewrite tar_read_write by done. rewrite plan_items; [done|simpl; lia|].
  apply Forall_forall. intros [k i] Hk. pose proof (cl_names _ Hcl _ _ Hk). rewrite Forall_forall in Hok. split_and!; [naive_solver..|]. by apply Hok in Hk.
Qed.

Lemma does_apply f d times : hosted f d →
  does (λ g, g = f) (apply_dir_delta compressed d caps times) (λ _ g, applied f d times Δ g).
Proof using Hcl Hok Htar Hcode Hbytes Hentries.
  intros Hf. unfold apply_dir_delta. eapply does_bind_reads; [apply delta_plan|]. cbn [opaque_dirs whiteout_targets].
  eapply (does_bind _ _ _ (λ r g, r = d ∧ g = f)).
  { unfold open_dest_root. apply does_host, does_reads. intros ? ->. exists d. split; [|done]. unfold openat_dir, resolve.
    pose proof (ho_plain _ _ Hf) as Hp. pose proof (walk_plain f MAX_LINKS false d [] Hp) as Hw. rewrite app_nil_r in Hw. rewrite Hw, walk_eq. cbn [result_bind].
    apply plain_dir_at in Hp. unfold dir_at in Hp. by destruct (f !! d) as [[]|]. }
  intros r. apply does_pre. intros ? [-> ->].
  eapply does_bind; [eapply does_conseq; [apply (does_clears Δ Hcl f d _ [])|intros ? ->; by apply phase_start|done]|].
  { apply Forall_forall. intros p Hp. rewrite merge_sort_Permutation in Hp. by apply elem_of_opaques. }
  intros s1. apply does_pre. intros g1 (O & Hg1 & HO).
  eapply does_bind; [eapply does_conseq; [apply (does_deletes Δ Hcl f d _ O []); [done|]|by intros ? ->|done]|].
  { apply Forall_forall. intros p Hp. rewrite merge_sort_Permutation in Hp. by apply elem_of_deletes. }
  intros s2. apply does_pre. intros g2 (D & Hg2 & HD). unfold apply_content.
  eapply does_bind_reads; [apply delta_decoded|]. rewrite tar_read_write by done. cbn [entries].
  eapply does_bind; [eapply does_conseq; [by apply (does_items Δ Hcl f d times Δ [])| |done]|].
  - intros ? ->. eapply written_start; [done|exact Hg2|..].
    + intros p m t Hp. apply HO. left. rewrite merge_sort_Permutation. apply elem_of_opaques. eauto.
    + intros p Hp. apply HD. left. rewrite merge_sort_Permutation. by apply elem_of_deletes.
  - intros st. apply does_ret. intros g. by apply written_applied.
Qed.
End delta.
