(* ===== verification/ExportManager.v ===== *)
(** * The export transaction of the manager: [impls/export_changes.rs]

    The destination is checked, the sandbox daemon is asked for an export and
    paged, the destination is prepared, and the stream is rendered: applied to a
    directory or written as an archive.  The daemon is any pair of functions of a
    state of its own. *)

From S2P Require Import Prelude ByteStr Model FS Storage World StorageOps Base Archive Export ExportApply.

Definition EXPORT_SPOOL_DIR : bytes := lit ".export".

Inductive ExportFormat := Dir | Tar | TarZst.

Definition parse_format (raw : bytes) : option ExportFormat :=
  if decide (raw = lit "dir") then Some Dir
  else if decide (raw = lit "tar") then Some Tar
  else if decide (raw = lit "tar-zst") then Some TarZst
  else None.

Definition as_str_format (f : ExportFormat) : bytes :=
  match f with Dir => lit "dir" | Tar => lit "tar" | TarZst => lit "tar-zst" end.

Inductive ManagerError :=
| InvalidFormat (raw : bytes)
| RelativeDest
| RootDenied
| HomeDenied
| RegistryDenied
| StateDirDenied
| SpoolDirDenied
| NotADirectory
| IsADirectory
| NoParent
| NoParentDirectory
| DestHasNoName
| InspectFailed (e : errno)
| CreateFailed (e : errno)
| CanonicalizeFailed (e : errno)
| StartNotForwarded
| StartFailed
| StaleDaemon
| NoExportId
| NoSpoolBytes
| ExportStreamCap (cap : Z)
| PagingFailed (e : PageError)
| RenderFailed (e : ApplyError).

(** ** The destination *)

(** A path as [Path] compares it: absolute or not, and its components. *)
Definition lexical_path : Type := bool * path.

Definition normalize_step (p : path) (c : bytes) : path :=
  if decide (c = dotdot) then parent p else if decide (c = dot) then p else p ++ [c].

Definition lexical_normalize (raw : bytes) : lexical_path :=
  let '(absolute, cs) := components raw in
  let p := foldl normalize_step [] cs in
  if decide (p = []) then (true, []) else (absolute, p).

(** [Path::parent] where it is not empty. *)
Definition lexical_parent (p : lexical_path) : option lexical_path :=
  if decide (p.2 = []) then None
  else if negb p.1 && bool_decide (parent p.2 = []) then None
  else Some (p.1, parent p.2).

Record Services := mkServices {
  sv_home : option bytes;
  sv_registry : option bytes;
  sv_caps : ExportApplyCaps;
}.

Definition deny_list_check (sv : Services) (p : path) : result () ManagerError :=
  if decide (p = []) then Err RootDenied
  else if match sv_home sv with
          | Some home => bool_decide (home ≠ []) && bool_decide ((true, p) = lexical_normalize home)
          | None => false
          end then Err HomeDenied
  else if match sv_registry sv with Some r => bool_decide ((true, p) = components r) | None => false end then Err RegistryDenied
  else if match sv_registry sv with
          | Some r => bool_decide (Some (true, p) = lexical_parent (components r))
          | None => false
          end then Err StateDirDenied
  else if decide (EXPORT_SPOOL_DIR ∈ p) then Err SpoolDirDenied
  else Ok ().

Definition guard_dest (sv : Services) (raw : bytes) (format : ExportFormat) (f : fs) : result path ManagerError :=
  if negb (is_absolute raw) then Err RelativeDest
  else
    let normalized := (lexical_normalize raw).2 in
    (let? _ := deny_list_check sv normalized in
     match format with
     | Dir =>
         match symlink_metadata f normalized with
         | Ok meta => if n_is_dir meta then Ok normalized else Err NotADirectory
         | Err ENOENT => Ok normalized
         | Err e => Err (InspectFailed e)
         end
     | Tar | TarZst =>
         if is_dir f normalized then Err IsADirectory
         else if decide (normalized = []) then Err NoParent
         else if is_dir f (parent normalized) then Ok normalized
         else Err NoParentDirectory
     end)%result.

(** [Path::canonicalize] *)
Definition canonicalize (f : fs) (p : path) : result path errno :=
  (let? q := resolve f true p in let? _ := node_at f q in Ok q)%result.

Definition prepare_dest (sv : Services) (normalized : path) (format : ExportFormat) : io ManagerError path :=
  match format with
  | Dir =>
      (run lift_err CreateFailed (create_dir_all normalized);
       do canonical := lift_err CanonicalizeFailed (reads (λ f, canonicalize f normalized)) in
       run reads (λ _, deny_list_check sv canonical);
       ret canonical)%io
  | Tar | TarZst =>
      match last normalized with
      | None => fail NoParent
      | Some file_name =>
          (do parent := lift_err (λ _, NoParentDirectory) (reads (λ f, canonicalize f (parent normalized))) in
           run reads (λ _, deny_list_check sv (parent ++ [file_name]));
           ret (parent ++ [file_name]))%io
      end
  end.

(** ** The transaction *)

(** The answer to [export_layerstack]: an error, [true] for an unknown operation,
    or the fields that the code reads. *)
Record StartReply := mkStartReply {
  sr_error : option bool;
  sr_export_id : option bytes;
  sr_spool_bytes : option Z;
}.

Inductive ExportResult :=
| DirResult (stats : DirApplyStats)
| ArchiveResult (format : ExportFormat) (bytes_written : Z).

Section manager.
Context `{ExportCodec} `{Base64} {D : Type}.
(** The daemon: starting an export, and a chunk of one. *)
Context (start : D → option StartReply * D) (ask : bytes → D → Z → option PageReply * D).
Context (pid : N).

Definition render (delivery : bytes) (format : ExportFormat) (dest : path) (caps : ExportApplyCaps) (times : mtimes)
    : io ManagerError (ExportResult * mtimes) :=
  match format with
  | Dir => (do r := lift_err RenderFailed (apply_dir_delta delivery dest caps times) in ret (DirResult r.1, r.2))%io
  | Tar => (do n := lift_err RenderFailed (write_archive pid delivery dest FormatTar caps) in ret (ArchiveResult Tar n, times))%io
  | TarZst => (do n := lift_err RenderFailed (write_archive pid delivery dest FormatTarZst caps) in ret (ArchiveResult TarZst n, times))%io
  end.

(** The bytes of the export, or why there are none. *)
Definition deliver (sv : Services) (s : D) : result bytes ManagerError * D :=
  match start s with
  | (None, s) => (Err StartNotForwarded, s)
  | (Some reply, s) =>
      match sr_error reply with
      | Some unknown => (Err (if unknown : bool then StaleDaemon else StartFailed), s)
      | None =>
          match sr_export_id reply with
          | None => (Err NoExportId, s)
          | Some id =>
              match sr_spool_bytes reply with
              | None => (Err NoSpoolBytes, s)
              | Some expected_total =>
                  let max := max_stream_bytes (sv_caps sv) in
                  if decide (max < expected_total)%Z then (Err (ExportStreamCap max), s)
                  else let '(r, s) := page_stream (ask id) max expected_total s in (map_err PagingFailed r, s)
              end
          end
      end
  end.

(** The state of the daemon after an error is left out. *)
Definition run_export_changes (sv : Services) (dest : bytes) (format : ExportFormat) (times : mtimes) (s : D)
    : io ManagerError (ExportResult * mtimes * D) :=
  (do normalized := reads (guard_dest sv dest format) in
   let '(delivered, s) := deliver sv s in
   do compressed := reads (λ _, delivered) in
   do dest_path := prepare_dest sv normalized format in
   do r := render compressed format dest_path (sv_caps sv) times in
   ret (r, s))%io.

Definition dispatch_export_changes (sv : Services) (dest : bytes) (format : option bytes) (times : mtimes) (s : D)
    : io ManagerError (ExportResult * mtimes * D) :=
  match parse_format (default (lit "dir") format) with
  | None => fail (InvalidFormat (default (lit "dir") format))
  | Some format => run_export_changes sv dest format times s
  end.
End manager.
