(* ===== verification/ExportPage.v ===== *)
(** * Paging an export

    Whatever the daemon answers, paging ends after at most as many requests as
    bytes were announced, and a result has exactly the announced length.  Against
    the daemon of this repository the result is the spool. *)

From S2P Require Import Prelude ByteStr Model FS Storage World StorageOps Does Archive Export.

Section page.
Context `{Base64}.

(** What an accepted reply says. *)
Lemma check_page_ok max total off v data eof :
  check_page max total off v = Ok (data, eof) →
  (off + Z.of_nat (length data) ≤ Z.min max total)%Z ∧
  if eof then (off + Z.of_nat (length data) = total)%Z else data ≠ [] ∧ (off + Z.of_nat (length data) < total)%Z.
Proof.
  unfold check_page. destruct (pr_error v); [done|]. destruct (pr_chunk v) as [chunk|]; [|done]. destruct (base64_decode chunk) as [s|]; [|done].
  destruct (pr_offset v) as [o|]; [|done]. case_decide; [done|]. destruct (pr_len v) as [len|]; [|done]. case_decide; [done|].
  destruct (pr_total v) as [t|]; [|done]. case_decide; [done|]. destruct (pr_eof v) as [b|]; [|done]. cbv zeta.
  do 3 (case_decide; [done|]). case_bool_decide as Hne; destruct b; cbn [negb andb];
    repeat case_bool_decide; cbn [negb andb]; intros [=]; subst; split; try lia; split; (done || lia).
Qed.

Context {D : Type} (ask : D → Z → option PageReply * D) (max total : Z).

Lemma page_loop_spec fuel : ∀ s got,
  (Z.of_nat (length got) ≤ Z.max 0 total)%Z → (total - Z.of_nat (length got) < Z.of_nat fuel)%Z → 0 < fuel →
  (got ≠ [] → Z.of_nat (length got) < total)%Z →
  match (page_loop ask max total fuel s got).1 with
  | Ok data => Z.of_nat (length data) = total ∧ (total ≤ max)%Z ∧ ∃ rest, data = got ++ rest
  | Err e => e ≠ TooManyPages
  end.
Proof.
  induction fuel as [|fuel IH]; intros s got Hlen Hfuel Hpos Hmore; [lia|]. cbn [page_loop]. destruct (ask s _) as [[v|] s']; [|done].
  destruct (check_page max total (Z.of_nat (length got)) v) as [[data eof]|e] eqn:Hc.
  - apply check_page_ok in Hc as [Hle Heof]. destruct eof; cbn [fst].
    + rewrite length_app, Nat2Z.inj_add. split_and!; [lia|lia|eauto].
    + destruct Heof as [Hne Hlt]. assert (0 < length data) by (destruct data; [done|simpl; lia]).
      specialize (IH s' (got ++ data)). rewrite length_app in IH.
      destruct (page_loop ask max total fuel s' (got ++ data)).1 as [d|e]; [|apply IH; try lia; intros _; lia].
      destruct IH as (? & ? & rest & ->); [lia|lia|lia|intros _; lia|]. split_and!; [done|done|]. exists (data ++ rest). by rewrite (assoc_L (++)).
  - unfold check_page in Hc. intros ->. repeat (case_match; try done).
Qed.
End page.

(** C19: paging is bounded and exact against any daemon.  Whatever a daemon
    answers, in any state and however often, [page_stream] asks at most once per
    announced byte and once more, and what it returns has exactly the announced
    number of bytes, which the cap allows. *)
Theorem paging_is_exact `{Base64} {D : Type} (ask : D → Z → option PageReply * D) max total s :
  (0 ≤ total)%Z →
  match (page_stream ask max total s).1 with
  | Ok data => Z.of_nat (length data) = total ∧ (total ≤ max)%Z
  | Err e => e ≠ TooManyPages
  end.
Proof.
  intros Ht. pose proof (page_loop_spec ask max total (S (Z.to_nat total)) s []) as Hp. unfold page_stream.
  destruct (page_loop _ _ _ _ _ _).1; [|apply Hp; (done || simpl; lia)]. destruct Hp as (? & ? & _); (done || simpl; lia).
Qed.

(** ** The daemon of this repository *)

(** A reply as the manager reads it. *)
Definition page_of (reply : result ChunkReply ExportError) : PageReply :=
  match reply with
  | Ok r => mkPage false (Some (ck_chunk r)) (Some (ck_offset r)) (Some (ck_len r)) (Some (ck_total r)) (Some (ck_eof r))
  | Err _ => mkPage true None None None None None
  end.

Definition daemon : Type := ExportState * world.

(** The requests of [page_stream] carry no limit of their own. *)
Definition ask_chunk `{Base64} (chunk_cap : Z) (id : bytes) (s : daemon) (offset : Z) : option PageReply * daemon :=
  match run_read_export_chunk id offset (chunk_limit None chunk_cap) s.1 s.2 with
  | (Ok (reply, st), w) => (Some (page_of reply), (st, w))
  | (Err _, w) => (None, (s.1, w))
  end.

Section serve.
Context `{Base64} (chunk_cap max : Z) (id : bytes) (dir : path) (name data : bytes).
Hypothesis Hcap : (1 ≤ chunk_cap)%Z.
Hypothesis Hmax : (Z.of_nat (length data) ≤ max)%Z.
Hypothesis Hlen : (Z.of_nat (length data) < 2 ^ 63)%Z.
Abbreviation total := (Z.of_nat (length data)).

(** A sealed spool that can be read. *)
Record serving (s : daemon) : Prop := {
  sg_spool : ex_spools s.1 !! id = Some (mkSpool (dir ++ [name]) total);
  sg_dir : plain_dir (w_fs s.2) dir;
  sg_name : name ≠ dotdot;
  sg_file : ∃ mode xs, w_fs s.2 !! (dir ++ [name]) = Some (NFile data mode xs);
}.

(** The spool is gone, unless its removal failed. *)
Definition served (s s' : daemon) : Prop :=
  ex_spools s'.1 = delete id (ex_spools s.1) ∧ ex_leases s'.1 = ex_leases s.1 ∧
  (w_fs s'.2 = delete (dir ++ [name]) (w_fs s.2) ∨ w_fs s'.2 = w_fs s.2 ∧ w_faults s.2 ≠ []).

Definition chunk_at (k : nat) : bytes := take (Z.to_nat chunk_cap) (drop k data).

Lemma remove_spool s : serving s →
  w_fs (remove_file (dir ++ [name]) s.2).2 = delete (dir ++ [name]) (w_fs s.2) ∨
  w_fs (remove_file (dir ++ [name]) s.2).2 = w_fs s.2 ∧ w_faults s.2 ≠ [].
Proof using.
  intros [_ Hd Hn (mode & xs & Hf)]. unfold remove_file, syscall, bind, fault, reads.
  destruct (w_faults s.2) as [|[k|] faults] eqn:Hfault; cbn -[resolve]; rewrite ?resolve_child by done; cbn; rewrite ?Hf; cbn; naive_solver.
Qed.

Lemma ask_serving s k : serving s → k ≤ length data →
  let chunk := chunk_at k in
  let eof := bool_decide (length data ≤ k + length chunk) in
  ∃ s', ask_chunk chunk_cap id s (Z.of_nat k) =
    (Some (mkPage false (Some (base64_encode chunk)) (Some (Z.of_nat k)) (Some (Z.of_nat (length chunk))) (Some total) (Some eof)), s') ∧
    if eof then served s s' else s' = s.
Proof using Hcap Hlen.
  intros Hs Hk chunk eof. pose proof Hs as [Hsp Hd Hn (mode & xs & Hf)].
  assert (read (w_fs s.2) (dir ++ [name]) = Ok data) as Hread.
  { unfold read, metadata. erewrite resolve_node by done. cbn [result_bind]. unfold node_at. by rewrite Hf. }
  unfold ask_chunk, run_read_export_chunk. rewrite Hsp. cbn [sp_path sp_total]. unfold bind at 1, attempt at 1, reads. rewrite Hread.
  rewrite decide_False by lia. unfold chunk_limit. cbn [default from_option]. rewrite Z.min_id, Nat2Z.id. fold (chunk_at k). fold chunk. cbv zeta.
  assert (length chunk ≤ length data) as Hcl by (unfold chunk, chunk_at; rewrite length_take, length_drop; lia).
  replace (bool_decide (total ≤ Z.min (Z.of_nat k + Z.of_nat (length chunk)) (2 ^ 64 - 1))%Z) with eof by (apply bool_decide_ext; lia).
  destruct eof eqn:He.
  - unfold bind, attempt. pose proof (remove_spool s Hs) as Hr. destruct (remove_file (dir ++ [name]) s.2) as [r w]. cbn. eexists. split; [done|].
    split_and!; [done|done|done].
  - cbn. exists s. by destruct s.
Qed.

(** The chunks follow each other. *)
Lemma page_loop_serving fuel : ∀ s k, serving s → k ≤ length data → (k = length data → k = 0) → length data - k < fuel →
  ∃ s', page_loop (ask_chunk chunk_cap id) max total fuel s (take k data) = (Ok data, s') ∧ served s s'.
Proof using Hcap Hmax Hlen.
  induction fuel as [|fuel IH]; intros s k Hs Hk H0 Hfuel; [lia|]. cbn [page_loop]. rewrite length_take, Nat.min_l by done.
  destruct (ask_serving s k Hs Hk) as (s' & -> & Hs'). set (chunk := chunk_at k) in *.
  assert (take k data ++ chunk = take (k + Z.to_nat chunk_cap) data) as Happ by (unfold chunk, chunk_at; by rewrite take_take_drop).
  assert (length chunk = Nat.min (Z.to_nat chunk_cap) (length data - k)) as Hcl by (unfold chunk, chunk_at; by rewrite length_take, length_drop).
  unfold check_page. cbn [pr_error pr_chunk pr_offset pr_len pr_total pr_eof]. rewrite base64_roundtrip. cbv zeta.
  rewrite !(decide_False (P := _ ≠ _)) by (intros Hx; by apply Hx). rewrite !decide_False by lia.
  destruct (bool_decide (length data ≤ k + length chunk)) eqn:He.
  - apply bool_decide_eq_true in He. rewrite andb_false_r. cbn [negb andb]. rewrite bool_decide_true by lia. cbn [negb]. exists s'. split; [|done].
    rewrite Happ, take_ge by lia. done.
  - apply bool_decide_eq_false in He. rewrite andb_true_r. rewrite bool_decide_false by (intros Hx; rewrite Hx in Hcl; simpl in Hcl; lia).
    cbn [negb andb]. rewrite bool_decide_false by lia. subst s'. rewrite Happ.
    replace (take (k + Z.to_nat chunk_cap) data) with (take (k + length chunk) data) by (destruct (decide (k + Z.to_nat chunk_cap ≤ length data)); [f_equal; lia|lia]).
    apply IH; [done|lia|lia|lia].
Qed.
End serve.

(** C17: the manager receives the spool.  When the daemon has sealed a spool whose
    size the cap allows, paging it with [read_export_chunk], in chunks of any
    positive size, returns exactly its bytes; with the last chunk the daemon
    forgets the export and removes the file, and nothing else changes. *)
Theorem paging_delivers_spool `{Base64} chunk_cap max id dir name data s :
  (1 ≤ chunk_cap)%Z → (Z.of_nat (length data) ≤ max)%Z → (Z.of_nat (length data) < 2 ^ 63)%Z → serving id dir name data s →
  ∃ s', page_stream (ask_chunk chunk_cap id) max (Z.of_nat (length data)) s = (Ok data, s') ∧ served id dir name s s'.
Proof.
  intros Hcap Hmax Hlen Hs. unfold page_stream. rewrite Nat2Z.id.
  eapply (page_loop_serving chunk_cap max id dir name data Hcap Hmax Hlen _ s 0 Hs); lia.
Qed.

(** *** Concrete daemons *)

(** One byte per request, of a daemon with a state of its own. *)
Definition counting_ask (n : nat) (offset : Z) : option PageReply * nat :=
  (Some (mkPage false (Some (lit "x")) (Some offset) (Some 1%Z) (Some 3%Z) (Some (bool_decide (n = 2)))), S n).

Lemma paging_is_exact_witness : page_stream (H := plain_base64) counting_ask 10 3 0 = (Ok (lit "xxx"), 3) ∧ Z.of_nat (length (lit "xxx")) = 3%Z.
Proof.
  assert (page_stream (H := plain_base64) counting_ask 10 3 0 = (Ok (lit "xxx"), 3)) as Hrun by (vm_compute; reflexivity). split; [exact Hrun|].
  pose proof (paging_is_exact (H := plain_base64) counting_ask 10 3 0) as Hp. rewrite Hrun in Hp. apply Hp. discriminate.
Defined.

Definition spool_fs : fs := {[ [] := NDir 0 ∅; [lit "x"] := NDir 0 ∅; [lit "x"; lit "e"] := NFile (lit "hello") 0x1a4 ∅ ]}.
Definition spool_daemon : daemon := (mkExport false 1 {[ lit "e" := mkSpool [lit "x"; lit "e"] 5 ]} ∅, mkWorld spool_fs 0 []).

Lemma paging_delivers_spool_witness :
  ∃ s', page_stream (H := plain_base64) (ask_chunk (H := plain_base64) 2 (lit "e")) 10 5 spool_daemon = (Ok (lit "hello"), s') ∧
    ex_spools s'.1 !! lit "e" = None.
Proof.
  destruct (paging_delivers_spool (H := plain_base64) 2 10 (lit "e") [lit "x"] (lit "e") (lit "hello") spool_daemon) as (s' & Hrun & Hs & _).
  - discriminate.
  - discriminate.
  - reflexivity.
  - split; [vm_compute; reflexivity|apply plain_check_dir; vm_compute; reflexivity|discriminate|]. exists 0x1a4%Z, ∅. vm_compute. reflexivity.
  - exists s'. split; [exact Hrun|]. rewrite Hs. apply lookup_delete_eq.
Defined.
