(* ===== verification/ExportEmit.v ===== *)
(** * The spool of a delta

    The winners of the fold have a place in some layer, the directories above a
    winner are winners too, and they come in front of it: the winners are a
    closed delta, and the spool is the archive of its entries. *)

From S2P Require Import Prelude ByteStr Model FS Storage View Descend World StorageOps Does Lease FlattenRead LayerWrite PublishRead.
From S2P Require Import Project Base BaseSpec BaseShared Delta Archive Export ExportApply ExportSafe ExportHost ExportSpec.

(** ** Sorted winners *)

Lemma winner_insert_sorted {V : Type} k (v : V) m : bt_sorted m → bt_sorted (or_insert k v m).
Proof. unfold or_insert. destruct (bt_lookup k m); [done|apply bt_insert_sorted]. Qed.

Lemma fold_result_keeps {A B E : Type} (I : A → Prop) (g : A → B → result A E) l :
  (∀ a b a', I a → g a b = Ok a' → I a') → ∀ a a', I a → fold_result g a l = Ok a' → I a'.
Proof.
  intros Hg. induction l as [|b l IH]; intros a a' Ha; cbn [fold_result]; [by intros [= <-]|].
  intros (a1 & H1 & H2)%result_bind_ok. eauto.
Qed.

Lemma fold_layer_sorted es W K st : bt_sorted W → fold_layer es W K = Ok st → bt_sorted st.1.
Proof.
  intros HW. unfold fold_layer. intros (st2 & H2 & H3)%result_bind_ok.
  assert (bt_sorted st2.1) as Hs2.
  { eapply (fold_result_keeps (λ st, bt_sorted st.1)), H2.
    - intros a b a' Ha. unfold fold_opaque. intros (rel & _ & Hr)%result_bind_ok. case_match; [by simplify_eq|].
      case_decide; [by simplify_eq|]. apply result_bind_ok in Hr as (t & _ & Hr). apply result_bind_ok in Hr as (p & _ & Hr).
      repeat case_match; simplify_eq/=; by try apply bt_insert_sorted.
    - generalize (filter (λ e, pe_kind e = PkLogicalWhiteout ∨ pe_kind e = PkKernelWhiteout) es). intros l.
      assert (∀ st, bt_sorted st.1 → bt_sorted (foldl (fold_whiteout K) st l).1) as Hl; [|by apply Hl].
      induction l as [|e l IH]; [done|]. intros a Ha. cbn [foldl]. apply IH. unfold fold_whiteout. repeat case_match; [done|by apply winner_insert_sorted|done]. }
  eapply (fold_result_keeps (λ st, bt_sorted st.1)), H3; [|done]. intros a b a' Ha. unfold fold_content.
  intros (rel & _ & Hr)%result_bind_ok. case_match; [by simplify_eq|]. apply result_bind_ok in Hr as (p & _ & Hr).
  repeat case_match; simplify_eq/=; by try apply winner_insert_sorted.
Qed.

(** ** Winners and their sources *)

Section traced.
Context (f : fs).

(** The entry of a layer that a winner stands for. *)
Definition sourced (ds : list path) (q : path) (w : DeltaWinner) : Prop :=
  match w with
  | DwFile s => ∃ d, d ∈ ds ∧ s = d ++ q ∧ entry_at f d q = Some PkFile
  | DwSymlink s => ∃ d, d ∈ ds ∧ s = d ++ q ∧ entry_at f d q = Some PkSymlink
  | DwDirectory s | DwOpaqueDir s => ∃ d, d ∈ ds ∧ s = d ++ q ∧ entry_at f d q = Some PkDirectory
  | DwDelete => True
  end.

Definition dir_winner (w : option DeltaWinner) : Prop :=
  match w with Some (DwDirectory _) | Some (DwOpaqueDir _) => True | _ => False end.

Record traced (ds : list path) (W : list (bytes * DeltaWinner)) : Prop := {
  tr_sorted : bt_sorted W;
  tr_key s w : bt_lookup s W = Some w → ∃ q, s = str q ∧ good q ∧ sourced ds q w;
  tr_above r x t w : Forall comp_ok (r ++ x :: t) → bt_lookup (str (r ++ x :: t)) W = Some w → r ≠ [] →
    dir_winner (bt_lookup (str r) W);
}.

Lemma sourced_more ds d q w : sourced ds q w → sourced (ds ++ [d]) q w.
Proof using. destruct w; cbn; [..|done|]; intros (e & He & ?); (exists e; split; [apply elem_of_app; by left|done]). Qed.

Lemma comps_str r : Forall comp_ok r → r ≠ [] → split_on slash (str r) = r.
Proof using. intros Hr Hne. apply split_join_with; [done|]. eapply Forall_impl; [exact Hr|]. intros x Hx. apply Hx. Qed.

Section step.
Context (d : path) (ds : list path) (W : list (bytes * DeltaWinner)) (K : gset bytes).
Hypothesis Hd : delta_layer f d.
Hypothesis Hfo : folded f ds W K.
Hypothesis Htr : traced ds W.

Lemma entry_ordinary q : ∀ k, entry_at f d q = Some k → k ≠ PkOpaque → k ≠ PkLogicalWhiteout → Forall ordinary q.
Proof using Hd.
  induction q as [|c q IH] using rev_ind; intros k Hk Ho Hl; [done|]. apply Forall_app. split.
  { destruct (decide (q = [])) as [->|Hq]; [done|]. apply (IH PkDirectory); [by eapply at_parent|done|done]. }
  apply Forall_singleton. apply entry_at_node in Hk as (_ & n & Hn & Hk). rewrite file_name_snoc in Hk.
  destruct (pure_name _ _ (dl_pure _ _ Hd) q c) as [?|[->|(x & -> & Hx)]]; [by eexists|done|..].
  - unfold kind_at in Hk. by rewrite decide_True in Hk by done; simplify_eq.
  - rewrite kind_marker in Hk by done. by simplify_eq.
Qed.

(** The directories above a path of the layer. *)
Lemma entry_above r x t k : entry_at f d (r ++ x :: t) = Some k → r ≠ [] → entry_at f d r = Some PkDirectory.
Proof using. intros Hk Hr. rewrite entry_at_app in Hk by done. by destruct (entry_at f d r) as [[]|]. Qed.

Lemma white_entry q : q ≠ [] → white_at f d q = true →
  ∃ c k, entry_at f d (parent q ++ [c]) = Some k ∧ ordinary (file_name q).
Proof using Hd.
  intros Hq. destruct (exists_last Hq) as (r & x & ->). unfold white_at. rewrite parent_snoc, file_name_snoc, orb_true_iff, !bool_decide_eq_true.
  intros [Hk|Hk]; eexists _, _; (split; [exact Hk|]).
  - pose proof (entry_ordinary _ _ Hk ltac:(done) ltac:(done)) as Ho. rewrite Forall_app, Forall_singleton in Ho. apply Ho.
  - apply at_logical in Hk as (r' & x' & Heq & ? & _); [|done]. by apply app_inj_tail in Heq as [_ ->%(inj (app _))].
Qed.

(** A new winner is an entry of the layer, or the target of one. *)
Lemma winner_entry q w : q ≠ [] → path_ok q → winner_after f d K q None = Some w →
  ancestor_masked K (str q) = false ∧ good q ∧ sourced (ds ++ [d]) q w ∧ ∃ c k, entry_at f d (parent q ++ [c]) = Some k.
Proof using Hd.
  intros Hne Hok. unfold winner_after. destruct (ancestor_masked K (str q)); [done|].
  assert (∀ k, entry_at f d q = Some k → k ≠ PkOpaque → k ≠ PkLogicalWhiteout → good q ∧ ∃ c k, entry_at f d (parent q ++ [c]) = Some k) as Hentry.
  { intros k Hk Ho Hl. split; [split_and!; [done|done|by eapply entry_ordinary]|]. destruct (exists_last Hne) as (r & x & ->). rewrite parent_snoc. eauto. }
  assert (d ∈ ds ++ [d]) as Hin by (apply elem_of_app; right; by left).
  destruct (white_at f d q) eqn:Hw.
  { intros [= <-]. apply white_entry in Hw as (c & k & Hk & Ho); [|done]. split_and!; [done| |done|eauto]. split_and!; [done|done|].
    destruct (exists_last Hne) as (r & x & ->). rewrite parent_snoc, file_name_snoc in *. apply Forall_app. split; [|by apply Forall_singleton].
    destruct (decide (r = [])) as [->|Hr]; [done|]. eapply (entry_ordinary r PkDirectory); [|done|done]. by eapply at_parent. }
  destruct (opens_at f d K q) eqn:Ho.
  { intros [= <-]. apply opens_directory in Ho; [|done]. destruct (Hentry PkDirectory) as [??]; [done..|]. split_and!; [done..| |done]. cbn. eauto. }
  destruct (entry_at f d q) as [k|] eqn:Hk; [|done].
  destruct k; intros [=]; subst; (destruct (Hentry _ eq_refl) as [??]; [done..|]); (split_and!; [done..| |done]); cbn; eauto.
Qed.

(** The winners above a new one. *)
Lemma winner_above r x t w :
  path_ok (r ++ x :: t) → winner_after f d K (r ++ x :: t) None = Some w → r ≠ [] →
  path_ok r ∧ dir_winner (winner_after f d K r (bt_lookup (str r) W)).
Proof using Hd Hfo.
  intros Hok Hw Hr. apply winner_entry in Hw as (Hm & (_ & _ & Hord) & _ & c & k & Hk); [|by destruct r|done].
  assert (entry_at f d r = Some PkDirectory) as Hdir.
  { destruct (exists_last (l := x :: t)) as (t' & y & Heq); [done|]. rewrite Heq, (assoc_L (++)), parent_snoc, <-(assoc_L (++)) in Hk.
    destruct (t' ++ [c]) as [|z u] eqn:Hz; [by destruct t'|]. by eapply entry_above. }
  pose proof (at_path_ok f d Hd _ _ Hdir) as Hrok. split; [done|]. apply Forall_app in Hord as [Hord _].
  assert (¬ masked K (r ++ x :: t)) as Hnm by (rewrite <-ancestor_masked_spec, Hm; [done|done|by destruct r]).
  assert (str r ∉ K) as Hcut by (intros Hin; apply Hnm; by exists r, x, t).
  pose proof (fo_cut _ _ _ _ Hfo r) as Hfc. unfold winner_after.
  destruct (bt_lookup (str r) W) as [[]|]; cbn; try (destruct Hcut; by apply Hfc); [by destruct (opens_at f d K r)|].
  assert (ancestor_masked K (str r) = false) as ->.
  { apply not_true_iff_false. rewrite ancestor_masked_spec by done. intros Hmr. by apply Hnm, masked_prefix. }
  destruct (white_at f d r) eqn:Hwh; [apply white_not_content in Hwh as [?|?]; [congruence..|done|done]|].
  rewrite Hdir. by destruct (opens_at f d K r).
Qed.

Context (W' : list (bytes * DeltaWinner)).
Hypothesis Hsorted : bt_sorted W'.
Hypothesis Hw : ∀ q, q ≠ [] → path_ok q → bt_lookup (str q) W' = winner_after f d K q (bt_lookup (str q) W).
Hypothesis Hnew : ∀ s w, bt_lookup s W' = Some w → bt_lookup s W = None → ∃ q, s = str q ∧ q ≠ [] ∧ path_ok q.

Lemma traced_step : traced (ds ++ [d]) W'.
Proof using Hd Hfo Htr Hsorted Hw Hnew.
  split; [done|..].
  - intros s w Hs. destruct (bt_lookup s W) as [w0|] eqn:H0.
    + destruct (tr_key _ _ Htr s w0 H0) as (q & -> & Hq & Hsrc). exists q. split_and!; [done..|]. apply sourced_more with (d := d) in Hsrc.
      destruct Hq as (Hne & Hok & _). rewrite Hw, H0 in Hs by done. destruct w0; simplify_eq/=; try done. by destruct (opens_at f d K q).
    + destruct (Hnew s w Hs H0) as (q & -> & Hne & Hok). rewrite Hw, H0 in Hs by done. exists q. split; [done|]. by apply winner_entry in Hs as (_ & ? & ? & _).
  - intros r x t w Hc Hs Hr. destruct (bt_lookup (str (r ++ x :: t)) W) as [w0|] eqn:H0.
    + pose proof (tr_above _ _ Htr r x t w0 Hc H0 Hr) as Hab. destruct (bt_lookup (str r) W) as [wr|] eqn:Hwr; [|done].
      destruct (tr_key _ _ Htr _ _ Hwr) as (q & Hq & (Hqne & Hqok & _) & _). rewrite Hq, Hw, <-Hq, Hwr by done.
      destruct wr; try done. cbn. by destruct (opens_at f d K q).
    + destruct (Hnew _ _ Hs H0) as (q & Hq & Hne & Hok). assert (q = r ++ x :: t) as ->.
      { rewrite <-(path_ok_comps q), <-Hq, comps_str by (done || by destruct r). done. }
      rewrite Hw, H0 in Hs by done. destruct (winner_above r x t w Hok Hs Hr) as [Hrok Hdw]. by rewrite Hw.
Qed.
End step.

Lemma passed_keys d es W K st1 st2 st3 s w :
  delta_layer f d → (∀ e, e ∈ es ↔ ∃ t k, entry_at f d t = Some k ∧ e = mkEntry (d ++ t) t k) → passed d es W K st1 st2 st3 →
  bt_lookup s st3.1 = Some w → bt_lookup s W = None → ∃ q, s = str q ∧ q ≠ [] ∧ path_ok q.
Proof using.
  intros Hd Hes Hpa H3 HW. pose proof (pa_win3 _ _ _ _ _ _ _ Hpa s) as Hp3. pose proof (pa_win2 _ _ _ _ _ _ _ Hpa s) as Hp2.
  pose proof (pa_win1 _ _ _ _ _ _ _ Hpa s) as Hp1. rewrite HW in Hp1. rewrite H3 in Hp3.
  assert (s ∈ st1.2 → ∃ q, s = str q ∧ q ≠ [] ∧ path_ok q) as Hcut.
  { intros Hs. eapply passed_paths; [done..|]. apply (pa_cut3 _ _ _ _ _ _ _ Hpa). left. apply (pa_cut2 _ _ _ _ _ _ _ Hpa). by left. }
  destruct (decide (s ∈ st1.2)) as [Hs|Hs]; [by apply Hcut|]. rewrite Hp1 in Hp2. destruct (bt_lookup s st2.1) as [w2|] eqn:H2.
  - case_decide; [|done]. destruct Hp2 as (t & -> & Ht & Hne & _). eauto.
  - destruct Hp3 as (e & He & [-> _] & _). apply (contents_ok f d Hd es Hes) in He as (? & ? & _). eauto.
Qed.

Lemma fold_traced root ls W K :
  Forall (delta_layer f) (dirs_of root ls) → fold_result (fold_one_layer f root) ([], ∅) ls = Ok (W, K) → traced (dirs_of root ls) W.
Proof using.
  revert W K. induction ls as [|l ls IH] using rev_ind; intros W' K'.
  { intros _ [= <- <-]. split; [constructor|done..]. }
  unfold dirs_of. rewrite fmap_app, Forall_app. intros [Hds Hd]. destruct (fold_layers f root ls Hds) as (W & K & Hrun & Hfo & _).
  specialize (IH W K Hds Hrun). apply Forall_cons in Hd as [Hd _]. rewrite fold_result_snoc, Hrun. cbn [result_bind]. unfold fold_one_layer.
  fold (dirs_of root ls) in *. set (d := resolve_layer_path root (lr_path l)) in *. cbn zeta. rewrite is_dir_plain by apply Hd. cbn [negb fst snd].
  destruct (collect_project_entries_spec f d Hd) as (es & -> & Hes). cbn [result_bind].
  destruct (fold_layer_passes f d Hd es Hes W K) as (st1 & st2 & st3 & Hst & Hpa). rewrite Hst. cbn [result_bind]. intros [= <- _].
  apply (traced_step d (dirs_of root ls) W K); [done|done|done| | |].
  - eapply fold_layer_sorted, Hst. apply IH.
  - intros. by eapply passed_winner.
  - intros s w. by eapply passed_keys.
Qed.
End traced.

(** ** The delta of the winners *)

Lemma prefix_free x : x = slash ∨ x = nul → x ∉ LOGICAL_WHITEOUT_PREFIX.
Proof. intros [-> | ->]; vm_compute; set_solver. Qed.

Lemma marker_comp : tar_comp OPAQUE_MARKER.
Proof. split_and!; [done..|vm_compute; set_solver|vm_compute; set_solver]. Qed.

Section spool.
Context `{ExportCodec} (source_mtime : path → Z) (f : fs).
Hypothesis Htime : ∀ p, (source_mtime p < 2 ^ 63)%Z.

Definition source_mode (s : path) : Z := match f !! s with Some n => file_mode n | None => 0 end.

Definition winner_item (w : DeltaWinner) : item :=
  match w with
  | DwDirectory s => IDir (source_mode s) (mtime source_mtime s) false
  | DwOpaqueDir s => IDir (source_mode s) (mtime source_mtime s) true
  | DwFile s => match f !! s with Some (NFile data _ _) => IFile data (source_mode s) (mtime source_mtime s) | _ => IDelete end
  | DwSymlink s => match f !! s with Some (NSymlink t) => ILink t (source_mode s) (mtime source_mtime s) | _ => IDelete end
  | DwDelete => IDelete
  end.

Definition delta_of (W : list (bytes * DeltaWinner)) : delta := (λ kw, (split_on slash kw.1, winner_item kw.2)) <$> W.

(** A link target that an archive keeps. *)
Definition plain_links (ds : list path) : Prop :=
  ∀ d q t, d ∈ ds → f !! (d ++ q) = Some (NSymlink t) → plain_target t.

Context (ds : list path) (W : list (bytes * DeltaWinner)).
Hypothesis Hds : Forall (delta_layer f) ds.
Hypothesis Htr : traced f ds W.

Lemma winner_at s w : (s, w) ∈ W ↔ bt_lookup s W = Some w.
Proof using Htr. symmetry. apply bt_lookup_elem, Htr. Qed.

Lemma delta_at p i : (p, i) ∈ delta_of W → ∃ w, bt_lookup (str p) W = Some w ∧ good p ∧ sourced f ds p w ∧ i = winner_item w.
Proof using Htr.
  unfold delta_of. intros ([s w] & [= -> ->] & Hin%winner_at)%list_elem_of_fmap. cbn [fst snd].
  destruct (tr_key _ _ _ Htr s w Hin) as (q & -> & Hq & Hsrc). rewrite path_ok_comps by apply Hq. eauto.
Qed.

Lemma at_delta p w : good p → bt_lookup (str p) W = Some w → (p, winner_item w) ∈ delta_of W.
Proof using Htr.
  intros Hp Hw. apply winner_at in Hw. apply (list_elem_of_fmap_2 (λ kw, (split_on slash kw.1, winner_item kw.2))) in Hw.
  cbn [fst snd] in Hw. by rewrite path_ok_comps in Hw by apply Hp.
Qed.

Lemma good_key p : good p → Forall key_name p.
Proof using.
  intros (_ & (Hc & Hu & _) & Ho). rewrite Forall_forall in *. intros c Hin. destruct (Hc c Hin) as (H1 & H2 & H3 & H4 & H5 & _).
  split_and!; [|done|apply Ho, Hin]. split; [done|by apply Hu].
Qed.

Lemma sorted_before {A : Type} (R : relation A) l1 x l2 y :
  StrictOrder R → StronglySorted R (l1 ++ x :: l2) → y ∈ l1 ++ x :: l2 → R y x → y ∈ l1.
Proof using.
  intros HR Hs Hy Hyx. apply elem_of_app in Hy as [?|[->|Hy]%elem_of_cons]; [done|by apply irreflexivity in Hyx; [|apply _]|].
  apply StronglySorted_app_1_r in Hs. inversion Hs as [|? ? _ Hf]; subst. rewrite Forall_forall in Hf. exfalso.
  eapply (irreflexivity R y). etrans; [exact Hyx|by apply Hf].
Qed.

Lemma str_lt p c s : p ≠ [] → bytes_lt (str p) (str (p ++ c :: s)).
Proof using. intros Hp. rewrite Descend.join_with_app by done. by apply bytes_lt_app. Qed.

Lemma winner_before W1 p c s w W2 wp :
  W = W1 ++ (str (p ++ c :: s), w) :: W2 → p ≠ [] → bt_lookup (str p) W = Some wp → (str p, wp) ∈ W1.
Proof using Htr.
  intros HW Hp Hwp. pose proof (tr_sorted _ _ _ Htr) as Hs. unfold bt_sorted in Hs. pose proof Hwp as Hk.
  apply winner_at, (list_elem_of_fmap_2 fst) in Hk. rewrite HW, fmap_app, fmap_cons in Hs, Hk.
  apply (sorted_before bytes_lt _ _ _ _ _ Hs) in Hk; [|by apply str_lt].
  apply list_elem_of_fmap in Hk as ([k' w'] & Hk' & Hin). cbn in Hk'. subst k'. assert (w' = wp) as ->; [|done].
  assert ((str p, w') ∈ W) as Hin'%winner_at by (rewrite HW; apply elem_of_app; by left). congruence.
Qed.

Lemma delta_closed : closed (delta_of W).
Proof using Htr.
  split.
  - unfold delta_of. rewrite <-list_fmap_compose. change (NoDup ((split_on slash ∘ fst) <$> W)).
    rewrite list_fmap_compose. apply NoDup_fmap_2; [|by apply bt_sorted_NoDup, Htr].
    intros x y Hxy. by rewrite <-(join_split_on slash x), <-(join_split_on slash y), Hxy.
  - intros p i (w & _ & Hp & _)%delta_at. split; [apply Hp|by apply good_key].
  - intros Δ1 k i Δ2 p c s Heq -> Hp.
    assert ((p ++ c :: s, i) ∈ delta_of W) as (w & Hw & Hg & _)%delta_at by (rewrite Heq; apply elem_of_app; right; by left).
    pose proof (tr_above _ _ _ Htr p c s w (proj1 (proj1 (proj2 Hg))) Hw Hp) as Hab.
    assert (good p) as Hgp.
    { destruct (bt_lookup (str p) W) as [wp|] eqn:Hwp; [|done]. destruct (tr_key _ _ _ Htr _ _ Hwp) as (q & Hq & Hgq & _).
      assert (p = q) as ->; [|done]. rewrite <-(path_ok_comps q), <-Hq by apply Hgq. symmetry. apply comps_str; [|done].
      destruct Hg as (_ & (Hc & _) & _). by apply Forall_app in Hc as [? _]. }
    apply fmap_app_inv in Heq as (W1 & W2 & -> & HΔ2 & HW). destruct W2 as [|[k2 w2] W2]; [done|]. injection HΔ2 as Hk2 _ _.
    assert (k2 = str (p ++ c :: s)) as -> by by rewrite <-(join_split_on slash k2), <-Hk2.
    destruct (bt_lookup (str p) W) as [wp|] eqn:Hwp; [|done].
    assert ((str p, wp) ∈ W1) as Hin by by eapply winner_before.
    apply (list_elem_of_fmap_2 (λ kw, (split_on slash kw.1, winner_item kw.2))) in Hin. cbn [fst snd] in Hin. rewrite path_ok_comps in Hin by apply Hgp.
    destruct wp; try done; cbn [winner_item] in Hin; eauto.
Qed.

(** *** The entries of the archive *)

Lemma kind_node c n k : kind_at c n = Some k →
  match k with
  | PkFile => ∃ data m xs, n = NFile data m xs
  | PkSymlink => ∃ t, n = NSymlink t
  | PkDirectory => ∃ m xs, n = NDir m xs
  | _ => True
  end.
Proof using. unfold kind_at. repeat case_match; intros [=]; subst; eauto. Qed.

Lemma plain_dir_more g g' p : plain_dir g p → g ⊆ g' → plain_dir g' p.
Proof using.
  intros [Hdd Hp] Hsub. split; [done|]. intros k Hk. specialize (Hp k Hk). unfold dir_at in *.
  destruct (g !! take k p) as [n|] eqn:Hn; [|done]. by rewrite (lookup_weaken _ _ _ _ Hn Hsub).
Qed.

Lemma source_node d q k : d ∈ ds → entry_at f d q = Some k →
  ∃ n, f !! (d ++ q) = Some n ∧ kind_at (file_name q) n = Some k ∧ ∀ f', f ⊆ f' → symlink_metadata f' (d ++ q) = Ok n.
Proof using Hds.
  intros Hd (Hne & n & Hn & Hk)%entry_at_node. exists n. split_and!; [done|done|]. intros f' Hsub. rewrite Forall_forall in Hds. specialize (Hds d Hd).
  destruct (exists_last Hne) as (r & c & ->). rewrite (assoc_L (++)). rewrite lstat_child.
  - unfold node_at. rewrite <-(assoc_L (++)). by rewrite (lookup_weaken _ _ _ _ Hn Hsub).
  - eapply plain_dir_more; [|exact Hsub]. apply layer_plain; [done|]. apply (pure_tree _ _ (dl_pure _ _ Hds) r c). by exists n.
  - apply (dl_names _ _ Hds) in Hn; [|by destruct r]. by apply path_ok_last in Hn as [? _].
Qed.

Lemma file_mode_range n : (0 ≤ file_mode n < 2 ^ 12)%Z.
Proof using. unfold file_mode. change 0xfff%Z with (Z.ones 12). rewrite Z.land_ones by lia. by apply Z.mod_pos_bound. Qed.

Lemma winner_item_ok w : item_ok (winner_item w).
Proof using.
  assert (∀ s, (0 ≤ source_mode s < 2 ^ 12)%Z) as Hs by (intros s; unfold source_mode; destruct (f !! s); [apply file_mode_range|done]).
  destruct w; cbn; repeat case_match; cbn; auto.
Qed.

Lemma mtime_range s : (0 ≤ mtime source_mtime s < 2 ^ 63)%Z.
Proof using Htime. unfold mtime. pose proof (Htime s). case_decide; lia. Qed.

Lemma key_tar p : Forall key_name p → Forall tar_comp p.
Proof using. intros Hp. eapply Forall_impl; [exact Hp|]. intros c (((? & ? & ? & ?) & _) & ? & _). by split_and!. Qed.

(** An entry with the text of a path as its name. *)
Lemma tar_ok_entry cs k m t data :
  cs ≠ [] → Forall tar_comp cs → (0 ≤ m < 2 ^ 12)%Z → (0 ≤ t < 2 ^ 63)%Z →
  tar_ok (mkTar (str cs) TkRegular (Some m) (Some t) (Some (Z.of_nat (length data))) None data) ∧
  tar_ok (mkTar (str cs ++ [slash]) TkDirectory (Some m) (Some t) (Some 0%Z) None []) ∧
  (plain_target k → tar_ok (mkTar (str cs) TkSymlink (Some m) (Some t) (Some 0%Z) (Some k) [])).
Proof using.
  intros Hne Hcs Hm Ht.
  assert (∀ e, (te_name e = str cs ++ if decide (te_kind e = TkDirectory) then [slash] else []) → te_mode e = Some m → te_mtime e = Some t →
    te_size e = Some (Z.of_nat (length (te_content e))) →
    match te_kind e with
    | TkRegular => te_link e = None
    | TkDirectory => te_link e = None ∧ te_content e = []
    | TkSymlink => te_content e = [] ∧ ∃ t, te_link e = Some t ∧ plain_target t
    | _ => False
    end → tar_ok e) as Hgen by (intros e H1 H2 H3 H4 H5; split_and!; [by exists cs|by exists m, t|done|done]).
  split_and!; [..|intros Hk]; apply Hgen; cbn [te_name te_kind te_mode te_mtime te_size te_link te_content length];
    rewrite ?(decide_True (P := TkDirectory = TkDirectory)), ?app_nil_r by done; eauto.
Qed.

Lemma tar_ok_marker cs : cs ≠ [] → Forall tar_comp cs → tar_ok (marker_tar (str cs)).
Proof using. intros Hne Hcs. by destruct (tar_ok_entry cs [] MARKER_MODE 0 []) as (? & _ & _). Qed.

Lemma item_tar_ok q w : plain_links ds → good q → sourced f ds q w → Forall tar_ok (item_entries (q, winner_item w)).
Proof using Htime Hds.
  intros Hlinks Hq Hsrc. pose proof (good_key q Hq) as Hk. pose proof (key_tar _ Hk) as Ht. pose proof Hq as (Hne & _).
  pose proof (winner_item_ok w) as Hok. pose proof mtime_range as Hmt.
  pose proof marker_comp as Hop.
  assert (∀ m s b, (0 ≤ m < 2 ^ 12)%Z → Forall tar_ok (item_entries (q, IDir m (mtime source_mtime s) b))) as Hdir.
  { intros m s b Hm. cbn [item_entries fst snd]. constructor; [by apply (tar_ok_entry q [] m _ [])|]. destruct b; [|done]. constructor; [|done].
    change (str q ++ [slash] ++ OPAQUE_MARKER) with (str q ++ slash :: str [OPAQUE_MARKER]). rewrite <-Descend.join_with_app by done. apply tar_ok_marker; [by destruct q|]. apply Forall_app. by split; [|constructor]. }
  assert (Forall tar_ok (item_entries (q, IDelete))) as Hdel.
  { cbn [item_entries fst snd]. constructor; [|done]. destruct (exists_last Hne) as (r & x & ->). rewrite parent_snoc, file_name_snoc.
    apply tar_ok_marker; [by destruct r|]. rewrite !Forall_app, !Forall_singleton in *. split; [apply Ht|]. destruct Ht as [_ (H1 & H2 & H3 & H4 & H5)].
    split_and!; [done|by destruct x as [|? [|? ?]]|by destruct x as [|? [|? ?]]|..];
      rewrite elem_of_app; intros [Hin|?]; try done; (eapply prefix_free; [|exact Hin]); auto. }
  destruct w as [s|s|s| |s]; cbn [winner_item sourced] in *; [| |by apply Hdir|done|by apply Hdir].
  - destruct (f !! s) as [[data m xs| | | |]|] eqn:Hs; try exact Hdel. cbn [item_entries fst snd]. constructor; [|done]. by apply (tar_ok_entry q [] _ _ data).
  - destruct (f !! s) as [[|t| | |]|] eqn:Hs; try exact Hdel. cbn [item_entries fst snd]. constructor; [|done].
    apply (tar_ok_entry q t _ _ []); [done|done|done|done|]. destruct Hsrc as (d & Hd & -> & _). by eapply Hlinks.
Qed.

Lemma append_ok e b : tar_ok e → append e b = Ok (b.1 ++ [e], b.2).
Proof using. intros He. unfold append. by rewrite tar_accepts_ok. Qed.

Lemma whiteout_entry_name_str q : good q → whiteout_entry_name (str q) = str (parent q ++ [LOGICAL_WHITEOUT_PREFIX ++ file_name q]).
Proof using.
  intros (Hne & Hok & _). unfold whiteout_entry_name, rsplit_slash. rewrite path_ok_comps by done. destruct (exists_last Hne) as (r & x & ->).
  rewrite parent_snoc, file_name_snoc. destruct r as [|y r]; [done|].
  rewrite decide_False by (rewrite length_app; simpl; lia). by rewrite Descend.join_with_app by done.
Qed.

Lemma append_winner_item f' b q w : plain_links ds → f ⊆ f' → good q → sourced f ds q w →
  ∃ st, append_winner source_mtime f' b (str q, w) = Ok (b.1 ++ item_entries (q, winner_item w), st).
Proof using Htime Hds.
  intros Hlinks Hsub Hq Hsrc. pose proof (item_tar_ok q w Hlinks Hq Hsrc) as Htar.
  assert (∀ s b, (∃ d, d ∈ ds ∧ s = d ++ q ∧ entry_at f d q = Some PkDirectory) →
    tar_ok (mkTar (str q ++ [slash]) TkDirectory (Some (source_mode s)) (Some (mtime source_mtime s)) (Some 0%Z) None []) →
    append_directory source_mtime f' (str q) s b =
    Ok (b.1 ++ [mkTar (str q ++ [slash]) TkDirectory (Some (source_mode s)) (Some (mtime source_mtime s)) (Some 0%Z) None []], b.2)) as Hdir.
  { intros s b' (d & Hd & -> & Hk) Hok. destruct (source_node d q _ Hd Hk) as (n & Hn & _ & Hm). unfold append_directory, source_mode in *.
    rewrite Hm by done. cbn [map_err result_bind]. rewrite Hn in *. by apply append_ok. }
  unfold append_winner. destruct w as [s|s|s| |s]; cbn [sourced winner_item item_entries fst snd] in *.
  - destruct Hsrc as (d & Hd & -> & Hk). destruct (source_node d q _ Hd Hk) as (n & Hn & (data & m & xs & ->)%kind_node & Hm).
    unfold source_mode in *. rewrite Hn in *. cbn [item_entries fst snd] in *. specialize (Hm f' Hsub). apply metadata_of_symlink_metadata in Hm; [|done].
    unfold read. rewrite Hm. cbn [map_err result_bind n_len]. rewrite append_ok by by apply Forall_singleton. eexists. done.
  - destruct Hsrc as (d & Hd & -> & Hk). destruct (source_node d q _ Hd Hk) as (n & Hn & (t & ->)%kind_node & Hm).
    unfold source_mode in *. rewrite Hn in *. cbn [item_entries fst snd] in *. specialize (Hm f' Hsub).
    unfold read_link. rewrite Hm. cbn [map_err result_bind]. rewrite append_ok by by apply Forall_singleton. eexists. done.
  - rewrite Hdir by (done || by apply Forall_singleton). eauto.
  - rewrite whiteout_entry_name_str by done. unfold append_marker. rewrite append_ok by by apply Forall_singleton. eauto.
  - apply Forall_cons in Htar as [Ht1 Ht2]. rewrite Forall_singleton in Ht2. rewrite Hdir by done. cbn [result_bind fst snd]. unfold append_marker.
    rewrite append_ok by exact Ht2. cbn [fst snd]. rewrite <-(assoc_L (++)). eauto.
Qed.

Lemma append_winners f' : plain_links ds → f ⊆ f' →
  ∃ st, fold_result (append_winner source_mtime f') ([], no_stream_stats) W = Ok (delta_of W ≫= item_entries, st).
Proof using Htime Hds Htr.
  intros Hlinks Hsub. assert (∀ l b, (∀ s w, (s, w) ∈ l → (s, w) ∈ W) →
    ∃ st, fold_result (append_winner source_mtime f') b l = Ok (b.1 ++ (delta_of l ≫= item_entries), st)) as Hall; [|by apply (Hall W ([], no_stream_stats))].
  induction l as [|[s w] l IH]; intros b Hl; [exists b.2; rewrite app_nil_r; by destruct b|].
  destruct (tr_key _ _ _ Htr s w) as (q & -> & Hq & Hsrc); [apply winner_at, Hl; by left|]. cbn [fold_result].
  destruct (append_winner_item f' b q w Hlinks Hsub Hq Hsrc) as [st ->]. cbn [result_bind].
  destruct (IH (b.1 ++ item_entries (q, winner_item w), st)) as [st' ->]; [intros s' w' ?; apply Hl; by right|]. exists st'.
  unfold delta_of. rewrite fmap_cons, bind_cons, (assoc_L (++)). cbn [fst snd]. by rewrite path_ok_comps by apply Hq.
Qed.

Lemma delta_tar_ok : plain_links ds → Forall tar_ok (delta_of W ≫= item_entries).
Proof using Htime Hds Htr.
  intros Hlinks. apply Forall_forall. intros e ([p i] & He & (w & _ & Hp & Hsrc & ->)%delta_at)%list_elem_of_bind.
  pose proof (item_tar_ok p w Hlinks Hp Hsrc) as Hall. rewrite Forall_forall in Hall. by apply Hall.
Qed.

Lemma delta_items_ok : Forall (λ ki, item_ok ki.2) (delta_of W).
Proof using Htr. apply Forall_forall. intros [p i] (w & _ & _ & _ & ->)%delta_at. apply winner_item_ok. Qed.

(** *** The spool *)

Lemma does_emit dir name level : plain_links ds → plain_dir f dir → name ≠ dotdot → f !! (dir ++ [name]) = None →
  does (λ g, g = f) (emit_delta_stream source_mtime W (dir ++ [name]) level)
    (λ _ g, g = <[dir ++ [name] := NFile (zstd_encode level (tar_write (delta_of W ≫= item_entries))) 0x1a4 ∅]> f).
Proof using Htime Hds Htr.
  intros Hlinks Hdir Hname Hnew. unfold emit_delta_stream. rewrite parent_snoc.
  eapply does_bind; [apply does_lift_err, does_create_dir_all, Hdir|]. intros [].
  eapply does_bind; [by apply does_lift_err, does_file_create|]. intros q. apply does_pre. intros g [-> ->].
  eapply does_bind; [apply does_lift_err, does_syscall; intros ? ->; eexists _, _; split; [done|]; instantiate (1 := λ _ h, h = <[dir ++ [name] := NFile [] 0x1a4 ∅]> f); done|]. intros [].
  destruct (append_winners (<[dir ++ [name] := NFile [] 0x1a4 ∅]> f) Hlinks) as [st Hrun]; [by apply insert_subseteq|].
  eapply does_bind_reads; [exact Hrun|]. cbn [fst snd].
  eapply does_bind; [apply does_lift_err, does_write_all|]. intros []. by apply does_ret.
Qed.
End spool.
