(* ===== verification/ExportEnd.v ===== *)
(** * An export from end to end

    The daemon folds the layers above the base into a spool, the manager pages
    the spool and applies it to a directory of the host.  When that directory is
    a copy of the base, it shows afterwards what the stack of the sandbox shows.
    Whatever fails in the daemon, it keeps no lease of the export. *)

From S2P Require Import Prelude ByteStr Model FS Storage View Descend World StorageOps Does Lease Stack FlattenRead PublishRead.
From S2P Require Import Project Base BaseSpec BaseShared Delta Archive Export ExportApply ExportSafe ExportHost ExportSpec ExportManager ExportPage ExportEmit.

(** ** What a copy shows *)

(** The same entry, up to its permissions. *)
Definition alike (o o' : option node) : Prop :=
  match o, o' with
  | None, None => True
  | Some (NFile data _ _), Some (NFile data' _ _) => data = data'
  | Some (NDir _ _), Some (NDir _ _) => True
  | Some (NSymlink t), Some (NSymlink t') => t = t'
  | _, _ => False
  end.

Lemma alike_none o : alike o None → o = None.
Proof. by destruct o as [[]|]. Qed.

(** A directory of the host shows what some layers show. *)
Definition shows (g : fs) (d : path) (f : fs) (ds : list path) : Prop :=
  ∀ q, readable q → alike (g !! (d ++ q)) (overlay f ds q).

(** ** What can be exported *)

(** Layers above a base whose delta is their difference to it. *)
Record exportable (f : fs) (root : path) (m : Manifest) (delta base : list LayerRef) : Prop := {
  xp_layers : layers m = delta ++ base;
  xp_delta : Forall (λ l, ¬ is_base_layer l) delta;
  xp_base : Forall is_base_layer base;
  xp_some : base ≠ [];
  xp_proper : Forall (delta_layer f) (dirs_of root delta);
  xp_free : plain_free f (dirs_of root delta);
  xp_links : plain_links f (dirs_of root delta);
}.

Lemma export_winners f root m delta base : exportable f root m delta base →
  ∃ W K, fold_delta_winners f root m = Ok (mkFold W delta) ∧ folded f (dirs_of root delta) W K ∧
    tight f (dirs_of root delta) W K ∧ traced f (dirs_of root delta) W.
Proof.
  intros [Hm Hdelta Hbase Hne Hds Hfree _]. unfold fold_delta_winners. rewrite (delta_layer_refs_spec m delta base) by done. cbn [result_bind].
  destruct (fold_layers f root delta Hds) as (W & K & Hrun & Hfo & _ & Hti). fold (dirs_of root delta) in *. rewrite Hrun. cbn [result_bind].
  exists W, K. split_and!; [done|done|auto|]. by eapply fold_traced.
Qed.

Section winners.
Context (source_mtime : path → Z) (f : fs) (ds : list path) (W : list (bytes * DeltaWinner)) (K : gset bytes).
Hypothesis Hfo : folded f ds W K.
Hypothesis Hti : tight f ds W K.
Hypothesis Htr : traced f ds W.
Abbreviation Δ := (delta_of source_mtime f W).

Lemma hides_cutting q w : sourced f ds q w → hides (winner_item source_mtime f w) = cutting_winner (Some w).
Proof using. destruct w as [s|s|s| |s]; cbn; [| |done..]; intros _; destruct (f !! s) as [[]|]; done. Qed.

(** A path below a cut of the delta. *)
Lemma covered_delta q : readable q →
  covered Δ q ↔ existsb (λ k, cutting_winner (bt_lookup (str (take k q)) W)) (seq 1 (length q - 1)) = true.
Proof using Htr.
  intros Hq. rewrite existsb_exists. split.
  - intros (p & c & s & i & -> & (w & Hw & Hp & Hsrc & ->)%(delta_at _ _ ds) & Hi); [|done]. exists (length p). rewrite take_app_length. split.
    + apply in_seq. rewrite length_app. destruct Hp as (Hp & _). destruct p; [done|simpl; lia].
    + by rewrite Hw, <-(hides_cutting p).
  - intros (k & Hk%in_seq & Hcw). destruct (drop k q) as [|c s] eqn:Hdrop.
    { apply (f_equal length) in Hdrop. rewrite length_drop in Hdrop. simpl in Hdrop. lia. }
    assert (q = take k q ++ c :: s) as Heq by by rewrite <-Hdrop, take_drop.
    assert (good (take k q)) as Hg.
    { apply (readable_prefix _ (c :: s)); [by rewrite <-Heq|]. intros Ht. apply (f_equal length) in Ht. rewrite length_take in Ht. simpl in Ht. lia. }
    destruct (bt_lookup (str (take k q)) W) as [w|] eqn:Hw; [|done]. destruct (tr_key _ _ _ Htr _ _ Hw) as (q' & Hs & Hg' & Hsrc).
    apply str_inj in Hs as <-; [|apply Hg|apply Hg'|apply Hg|apply Hg']. exists (take k q), c, s, (winner_item source_mtime f w). split_and!; [done| |].
    + by eapply at_delta.
    + by rewrite (hides_cutting (take k q)).
Qed.

(** An item shows the source of its winner. *)
Lemma item_alike g0 d times g q w : Forall (delta_layer f) ds → sourced f ds q w → shows_item g0 d times g q (winner_item source_mtime f w) →
  alike (g !! (d ++ q)) (winner_node f w).
Proof using.
  intros Hds Hsrc Hs. unfold winner_item in Hs. destruct w as [s|s|s| |s]; cbn [sourced winner_node] in *; [..|by rewrite Hs|].
  all: destruct Hsrc as (e & He & -> & Hk); apply entry_at_node in Hk as (_ & n & Hn & Hk); apply kind_node in Hk; cbn in Hk; rewrite Hn in *.
  - destruct Hk as (data & m & xs & ->). destruct Hs as [-> |[(m' & xs' & Hold & _) ->]]; [done|]. by rewrite Hold.
  - destruct Hk as [t ->]. cbn in Hs. by rewrite Hs.
  - destruct Hk as (m & xs & ->), Hs as [xs' ->]. done.
  - destruct Hk as (m & xs & ->), Hs as [xs' ->]. done.
Qed.

(** Applied to a copy of the base, the delta shows the stack. *)
Lemma applied_shows g0 d times g base :
  Forall (delta_layer f) ds → applied g0 d times Δ g → shows g0 d f base → shows g d f (ds ++ base).
Proof using Hfo Hti Htr.
  intros Hds [_ _ A3 A4 A5] Hcopy q Hq. rewrite (fold_shows f ds base W K q) by done. unfold delta_shows.
  pose proof (readable_good q Hq) as Hg. destruct (bt_lookup (str q) W) as [w|] eqn:Hw.
  - destruct (tr_key _ _ _ Htr _ _ Hw) as (q' & Hs & Hg' & Hsrc). apply str_inj in Hs as <-; [|apply Hg|apply Hg'|apply Hg|apply Hg'].
    eapply item_alike; [done..|]. apply A3. by eapply at_delta.
  - assert (∀ i, (q, i) ∉ Δ) as Hno by (intros i (w & Hw' & _)%(delta_at _ _ ds); [congruence|done]).
    pose proof (covered_delta q Hq) as Hcov. destruct (existsb _ _).
    + by rewrite A4 by (done || by apply Hcov).
    + rewrite A5; [by apply Hcopy|apply Hq|done|]. by rewrite Hcov.
Qed.
End winners.

(** ** The daemon *)

Lemma does_run {E A : Type} P (c : io E A) Q w : does P c Q → P (w_fs w) → w_faults w = [] →
  ∃ a w', c w = (Ok a, w') ∧ Q a (w_fs w') ∧ w_faults w' = [].
Proof. intros Hc HP Hf. specialize (Hc w HP). destruct (c w) as [[a|e] w']; [|done]. destruct Hc. eauto 10. Qed.

Lemma attempt_run {E F A : Type} (c : io F A) w a w' : c w = (Ok a, w') → attempt (F := E) c w = (Ok (Ok a), w').
Proof. intros Hc. unfold attempt. by rewrite Hc. Qed.

Definition spool_name (pid counter : N) : bytes := next_export_id pid counter ++ lit ".tar.zst".

(** An open stack with an active manifest, and room for a spool. *)
Record daemon_ready `{ManifestCodec} (f : fs) (root spool_dir : path) (m : Manifest) : Prop := {
  dr_layers : plain_dir f (root ++ [LAYERS_DIR]);
  dr_staging : plain_dir f (root ++ [STAGING_DIR]);
  dr_manifest : ∃ data mode xs, f !! (root ++ [ACTIVE_MANIFEST_FILE]) = Some (NFile data mode xs);
  dr_read : read_manifest f (root ++ [ACTIVE_MANIFEST_FILE]) = Ok m;
  dr_spool : plain_dir f spool_dir;
  dr_override : f !! (spool_dir ++ [SPOOL_OVERRIDE_FILE]) = None;
}.

Section daemon.
Context `{ExportCodec} `{ManifestCodec} (source_mtime : path → Z) (pid nanos : N) (root spool_dir : path) (level : Z) (request_id : bytes).

(** The entries that an export of a stack writes, and the spool. *)
Definition export_entries (f : fs) (m : Manifest) : list tar_entry :=
  match fold_delta_winners f root m with Ok fold => delta_of source_mtime f (df_winners fold) ≫= item_entries | Err _ => [] end.
Definition export_spool (f : fs) (m : Manifest) : bytes := zstd_encode level (tar_write (export_entries f m)).

(** [export_layerstack] as the manager reads the answer. *)
Definition daemon_start (registered : bool) (s : daemon) : option StartReply * daemon :=
  match run_export_layerstack source_mtime pid nanos root spool_dir registered level request_id s.1 s.2 with
  | (Ok (Ok start, st), w) => (Some (mkStartReply None (Some (es_export_id start)) (Some (es_spool_bytes start))), (st, w))
  | (Ok (Err _, st), w) => (Some (mkStartReply (Some false) None None), (st, w))
  | (Err _, w) => (None, (s.1, w))
  end.

Context (f : fs) (m : Manifest) (delta base : list LayerRef).
Hypothesis Hx : exportable f root m delta base.
Hypothesis Hready : daemon_ready f root spool_dir m.
Hypothesis Htime : ∀ p, (source_mtime p < 2 ^ 63)%Z.

Lemma does_fold_and_spool name : name ≠ dotdot → f !! (spool_dir ++ [name]) = None →
  does (λ g, g = f) (fold_and_spool source_mtime root m (spool_dir ++ [name]) level)
    (λ _ g, g = <[spool_dir ++ [name] := NFile (export_spool f m) 0x1a4 ∅]> f).
Proof using Hx Hready Htime.
  intros Hname Hnew. destruct (export_winners _ _ _ _ _ Hx) as (W & K & Hfold & _ & _ & Htr). unfold fold_and_spool, export_spool, export_entries.
  rewrite Hfold. cbn [df_winners]. eapply does_bind_reads; [exact Hfold|]. cbn [df_winners df_delta_layers].
  eapply does_bind; [eapply (does_emit source_mtime f Htime (dirs_of root delta)); [apply Hx|done|apply Hx|apply Hready|done|done]|].
  intros st. by apply does_ret.
Qed.

Lemma does_open_again : does (λ g, g = f) (open_stack true root) (λ _ g, g = f).
Proof using Hready.
  destruct Hready as [H1 H2 _ _ _ _]. unfold open_stack. eapply does_bind; [by apply does_lift_err, does_create_dir_all|]. intros [].
  eapply does_bind; [by apply does_lift_err, does_create_dir_all|]. intros [].
  eapply does_bind; [apply does_lift_err, does_create_dir_all; by eapply plain_dir_app|]. intros []. by apply does_ret.
Qed.

Context (name : bytes).
Hypothesis Hname : name ≠ dotdot.
Hypothesis Hnew : f !! (spool_dir ++ [name]) = None.
Abbreviation g := (<[spool_dir ++ [name] := NFile (export_spool f m) 0x1a4 ∅]> f).

Lemma spooled_more : f ⊆ g.
Proof using Hnew. by apply insert_subseteq. Qed.

Lemma spooled_manifest : read_manifest g (root ++ [ACTIVE_MANIFEST_FILE]) = Ok m.
Proof using Hready Hnew.
  destruct Hready as [H1 _ (data & mode & xs & Hf) <- _ _]. apply plain_dir_app in H1. apply read_manifest_ext.
  assert (∀ h, f ⊆ h → metadata h (root ++ [ACTIVE_MANIFEST_FILE]) = Ok (NFile data mode xs)) as Hm.
  { intros h Hsub. assert (h !! (root ++ [ACTIVE_MANIFEST_FILE]) = Some (NFile data mode xs)) as Hh by by eapply lookup_weaken.
    unfold metadata. erewrite resolve_node; [|by eapply plain_dir_more|done|exact Hh|done]. cbn [result_bind]. unfold node_at. by rewrite Hh. }
  by rewrite !Hm by (done || apply spooled_more).
Qed.

(** The lease of the export gives nothing free: its layers are active. *)
Lemma does_release leases id : leases !! id = Some m →
  does (λ h, h = g) (release_lease root leases id).2 (λ _ h, h = g).
Proof using Hready Hnew.
  intros Hid. unfold release_lease, release_lease_locked, release_reading, release. rewrite Hid. cbn [fmap option_fmap option_map snd lease_manifest].
  eapply (does_bind _ _ _ (λ _ h, h = g)); [|intros r; by apply does_ret]. eapply does_bind_reads; [apply spooled_manifest|].
  unfold unreferenced_layers. rewrite filter_none; [by apply does_ret|]. tauto.
Qed.

Lemma does_seal id stats : name ≠ SPOOL_OVERRIDE_FILE →
  does (λ h, h = g) (seal_spool spool_dir id m (spool_dir ++ [name]) delta stats)
    (λ r h, h = g ∧ es_export_id r = id ∧ es_spool_bytes r = Z.of_nat (length (export_spool f m))).
Proof using Hready Hname Hnew.
  intros Hover. assert (plain_dir g spool_dir) as Hp by (eapply plain_dir_more; [apply Hready|apply spooled_more]).
  unfold seal_spool. eapply (does_bind _ _ _ (λ _ h, h = g)).
  - intros w Hw. unfold apply_spool_override, bind at 1, attempt, fs_rename, syscall, bind, fault, reads, fail.
    assert (g !! (spool_dir ++ [SPOOL_OVERRIDE_FILE]) = None) as Hno.
    { rewrite lookup_insert_ne by (intros [_ ?]%app_inj_tail; done). apply Hready. }
    assert (SPOOL_OVERRIDE_FILE ≠ dotdot) as Hdd by done. revert Hno Hdd. generalize SPOOL_OVERRIDE_FILE. intros c Hno Hdd.
    destruct (w_faults w) as [|[k|] ys] eqn:Hf; cbn -[resolve]; rewrite ?Hw; [|done|].
    all: rewrite !resolve_child by done; cbn [result_bind]; rewrite Hno; cbn; rewrite ?Hw; by split; [|rewrite ?Hf].
  - intros []. apply does_pre. intros ? ->. eapply (does_bind _ _ _ (λ n h, n = NFile (export_spool f m) 0x1a4 ∅ ∧ h = g)).
    + eapply does_lift_err, does_reads. intros ? ->. exists (NFile (export_spool f m) 0x1a4 ∅). split; [|done].
      unfold metadata. erewrite resolve_node; [|done|done|apply lookup_insert_eq|done]. cbn [result_bind]. unfold node_at. by rewrite lookup_insert_eq.
    + intros n. apply does_pre. intros h [-> ->]. by apply does_ret; intros ? ->.
Qed.
End daemon.

Lemma acquire_runs `{ManifestCodec} root nanos leases owner m w : read_manifest (w_fs w) (root ++ [ACTIVE_MANIFEST_FILE]) = Ok m → owner ≠ [] →
  ∃ id w', acquire_snapshot root nanos leases owner w = (Ok (mkStackLease id m (layer_paths root m), <[id := m]> leases), w') ∧
    w_fs w' = w_fs w ∧ w_faults w' = w_faults w.
Proof.
  intros Hm Ho. unfold acquire_snapshot, read_active_manifest_unlocked, manifest_path, bind, reads. rewrite Hm. unfold acquire. rewrite decide_False by done.
  by eexists _, _.
Qed.

(** ** The start of an export *)

Section start.
Context `{ExportCodec} `{ManifestCodec} (source_mtime : path → Z) (pid nanos : N) (root spool_dir : path) (level : Z) (request_id : bytes).
Context (m : Manifest) (delta base : list LayerRef) (s : daemon).
Hypothesis Hx : exportable (w_fs s.2) root m delta base.
Hypothesis Hready : daemon_ready (w_fs s.2) root spool_dir m.
Hypothesis Htime : ∀ p, (source_mtime p < 2 ^ 63)%Z.
Hypothesis Hcalm : w_faults s.2 = [].
Hypothesis Hfree : ex_busy s.1 = false.
Hypothesis Howner : request_id ≠ [].
Abbreviation id := (next_export_id pid (ex_counter s.1)).
Abbreviation name := (spool_name pid (ex_counter s.1)).
Hypothesis Hnew : w_fs s.2 !! (spool_dir ++ [name]) = None.
Abbreviation spool := (export_spool source_mtime root level (w_fs s.2) m).

Lemma start_serves : ∃ s', daemon_start source_mtime pid nanos root spool_dir level request_id true s =
    (Some (mkStartReply None (Some id) (Some (Z.of_nat (length spool)))), s') ∧ serving id spool_dir name spool s'.
Proof using Hx Hready Htime Hcalm Hfree Howner Hnew.
  assert (name ≠ dotdot) as Hdd by by destruct (next_export_id pid (ex_counter s.1)) eqn:?.
  assert (name ≠ SPOOL_OVERRIDE_FILE) as Hover by done.
  unfold daemon_start, run_export_layerstack. rewrite Hfree. unfold bind at 1.
  destruct (does_run _ _ _ s.2 (does_open_again root spool_dir (w_fs s.2) m Hready) eq_refl Hcalm) as (u & w1 & Hopen & Hw1 & Hc1).
  rewrite (attempt_run _ _ _ _ Hopen). unfold bind at 1.
  destruct (acquire_runs root nanos (ex_leases s.1) request_id m w1) as (lid & w2 & Hacq & Hw2 & Hc2); [rewrite Hw1; apply Hready|done|].
  rewrite (attempt_run _ _ _ _ Hacq). cbn [sl_manifest sl_id]. unfold bind at 1.
  pose proof (does_fold_and_spool source_mtime root spool_dir level (w_fs s.2) m delta base Hx Hready Htime name Hdd Hnew) as Hfold.
  destruct (does_run _ _ _ w2 Hfold) as (r & w3 & Hrun & Hw3 & Hc3); [congruence|congruence|].
  rewrite (attempt_run _ _ _ _ Hrun).
  pose proof (does_release source_mtime root spool_dir level (w_fs s.2) m Hready name Hnew (<[lid := m]> (ex_leases s.1)) lid (lookup_insert_eq _ _ _)) as Hrel.
  destruct (release_lease root (<[lid := m]> (ex_leases s.1)) lid) as [leases removal]. cbn [snd] in Hrel. unfold bind at 1.
  destruct (does_run _ _ _ w3 Hrel Hw3 Hc3) as (b & w4 & Hgone & Hw4 & Hc4). rewrite (attempt_run _ _ _ _ Hgone). destruct r as [dl stats].
  unfold bind at 1. pose proof (does_seal source_mtime root spool_dir level (w_fs s.2) m dl Hready name Hdd Hnew id stats Hover) as Hseal.
  destruct (does_run _ _ _ w4 Hseal Hw4 Hc4) as (start & w5 & Hdone & (Hw5 & Hid & Hlen) & Hc5). rewrite (attempt_run _ _ _ _ Hdone).
  cbn [ret]. rewrite Hid, Hlen. eexists. split; [done|]. split; cbn [fst snd].
  - apply lookup_insert_eq.
  - rewrite Hw5. eapply plain_dir_more; [apply Hready|by apply insert_subseteq].
  - done.
  - rewrite Hw5. eexists _, _. apply lookup_insert_eq.
Qed.
End start.

(** ** The manager *)

(** A directory of the host that can be exported to. *)
Record destination (sv : Services) (g : fs) (raw : bytes) (d : path) : Prop := {
  de_absolute : is_absolute raw = true;
  de_path : lexical_normalize raw = (true, d);
  de_allowed : deny_list_check sv d = Ok ();
  de_host : hosted g d;
}.

Section destination.
Context (sv : Services) (g : fs) (raw : bytes) (d : path).
Hypothesis Hd : destination sv g raw d.

Lemma dest_dir : ∃ mode xs, g !! d = Some (NDir mode xs).
Proof using Hd.
  pose proof (plain_dir_at _ _ (ho_plain _ _ (de_host _ _ _ _ Hd))) as Hdir. unfold dir_at in Hdir. destruct (g !! d) as [[]|]; naive_solver.
Qed.

Lemma dest_resolves : resolve g true d = Ok d.
Proof using Hd.
  pose proof (walk_plain g MAX_LINKS true d [] (ho_plain _ _ (de_host _ _ _ _ Hd))) as Hw. rewrite app_nil_r in Hw. unfold resolve. by rewrite Hw, walk_eq.
Qed.

Lemma guard_dest_ok : guard_dest sv raw Dir g = Ok d.
Proof using Hd.
  destruct dest_dir as (mode & xs & Hn). pose proof Hd as [Ha Hp Hok Hh]. unfold guard_dest. rewrite Ha, Hp. cbn [negb snd]. rewrite Hok. cbn [result_bind].
  assert (symlink_metadata g d = Ok (NDir mode xs)) as ->; [|done]. unfold symlink_metadata, resolve.
  pose proof (walk_plain g MAX_LINKS false d [] (ho_plain _ _ Hh)) as Hw. rewrite app_nil_r in Hw. rewrite Hw, walk_eq. cbn [result_bind].
  unfold node_at. by rewrite Hn.
Qed.

Lemma does_prepare_dest : does (λ h, h = g) (prepare_dest sv d Dir) (λ r h, r = d ∧ h = g).
Proof using Hd.
  destruct dest_dir as (mode & xs & Hn). unfold prepare_dest. eapply does_bind; [by apply does_lift_err, does_create_dir_all, Hd|]. intros [].
  eapply (does_bind _ _ _ (λ r h, r = d ∧ h = g)).
  { eapply does_lift_err, does_reads. intros ? ->. exists d. split; [|done]. unfold canonicalize. rewrite dest_resolves. cbn [result_bind]. unfold node_at. by rewrite Hn. }
  intros r. apply does_pre. intros h [-> ->]. eapply does_bind_reads; [apply Hd|]. by apply does_ret.
Qed.
End destination.

(** The caps allow the spool, its archive and the number of entries. *)
Record fits `{ExportCodec} (caps : ExportApplyCaps) (spool : bytes) (es : list tar_entry) : Prop := {
  fi_stream : (Z.of_nat (length spool) ≤ max_stream_bytes caps)%Z;
  fi_offsets : (Z.of_nat (length spool) < 2 ^ 63)%Z;
  fi_archive : (Z.of_nat (length (tar_write es)) ≤ max_decompressed_bytes caps)%Z;
  fi_entries : (Z.of_nat (length es) ≤ max_apply_entries caps)%Z;
}.

Lemma does_apply_spool `{ExportCodec} source_mtime root level f m delta base caps g d times :
  exportable f root m delta base → (∀ p, source_mtime p < 2 ^ 63)%Z →
  fits caps (export_spool source_mtime root level f m) (export_entries source_mtime root f m) → shows g d f (dirs_of root base) → hosted g d →
  does (λ h, h = g) (apply_dir_delta (export_spool source_mtime root level f m) d caps times)
    (λ _ h, shows h d f (dirs_of root (layers m)) ∧ ∀ q, ¬ strictly d q → h !! q = g !! q).
Proof.
  intros Hx Htime [_ _ F3 F4] Hcopy Hd. destruct (export_winners _ _ _ _ _ Hx) as (W & K & Hfold & Hfo & Hti & Htr).
  unfold export_spool, export_entries in *. rewrite Hfold in *. cbn [df_winners] in *.
  eapply does_conseq; [eapply does_apply|intros ? ->; reflexivity|].
  - by eapply delta_closed.
  - by eapply delta_items_ok.
  - eapply delta_tar_ok; [done|apply Hx|done|apply Hx].
  - apply zstd_decode_encode.
  - done.
  - done.
  - done.
  - intros r h Hap. split; [|apply Hap]. rewrite (xp_layers _ _ _ _ _ Hx). unfold dirs_of. rewrite fmap_app.
    eapply applied_shows; [done|done|done|apply Hx|exact Hap|exact Hcopy].
Qed.

(** A daemon that can start an export: no call fails, no export runs, and the
    name of the next spool is free. *)
Record idle (pid : N) (spool_dir : path) (s : daemon) : Prop := {
  id_calm : w_faults s.2 = [];
  id_free : ex_busy s.1 = false;
  id_new : w_fs s.2 !! (spool_dir ++ [spool_name pid (ex_counter s.1)]) = None;
}.


(** *** A concrete export *)

#[local] Instance alike_dec o o' : Decision (alike o o').
Proof. destruct o as [[]|], o' as [[]|]; cbn; apply _. Defined.
#[local] Instance plain_target_dec t : Decision (plain_target t).
Proof. unfold plain_target. destruct (starts_with [slash] t); apply _. Defined.
#[local] Instance host_name_dec c : Decision (host_name c).
Proof. unfold host_name, real. apply _. Defined.

Definition plain_links_check (f : fs) (ds : list path) : bool :=
  forallb (λ qn, match qn.2 with NSymlink t => bool_decide (plain_target t) | _ => true end) (map_to_list f).

Lemma plain_links_check_spec f ds : plain_links_check f ds = true → plain_links f ds.
Proof.
  unfold plain_links_check. rewrite forallb_forall. intros Hall d q t _ Hq. apply elem_of_map_to_list, list_elem_of_In, Hall in Hq.
  by apply bool_decide_eq_true in Hq.
Qed.

Definition hosted_check (f : fs) (d : path) : bool :=
  tree_check f && plain_check f d &&
  forallb (λ qn, match below d qn.1 with Some r => bool_decide (Forall host_name r) | None => true end) (map_to_list f).

Lemma hosted_check_spec f d : hosted_check f d = true → hosted f d.
Proof.
  unfold hosted_check. rewrite !andb_true_iff, forallb_forall. intros [[Ht Hp] Hall].
  split; [by apply tree_check_tree|by apply plain_check_dir|]. intros r [n Hn].
  apply elem_of_map_to_list, list_elem_of_In, Hall in Hn. cbn [fst] in Hn. rewrite below_app in Hn. by apply bool_decide_eq_true in Hn.
Qed.

(** The entries of the directory and of the layer are compared. *)
Definition shows_check (g : fs) (d : path) (f : fs) (b : path) : bool :=
  let same q := bool_decide (alike (g !! (d ++ q)) (overlay f [b] q)) in
  forallb (λ qn, match below d qn.1 with Some (c :: q) => same (c :: q) | _ => true end) (map_to_list g) &&
  forallb (λ qn, match below b qn.1 with Some (c :: q) => same (c :: q) | _ => true end) (map_to_list f).

Lemma shows_check_spec g d f b : layer_pure f b → shows_check g d f b = true → shows g d f [b].
Proof.
  unfold shows_check. rewrite andb_true_iff, !forallb_forall. intros Hb [Hg Hf] q Hq. destruct (readable_good q Hq) as (Hne & _ & Hord).
  destruct q as [|c q]; [done|]. destruct (g !! (d ++ c :: q)) as [n|] eqn:Hn.
  { rewrite <-Hn. apply elem_of_map_to_list, list_elem_of_In, Hg in Hn. cbn [fst] in Hn. rewrite below_app in Hn. by apply bool_decide_eq_true in Hn. }
  destruct (f !! (b ++ c :: q)) as [n|] eqn:Hfn.
  { rewrite <-Hn. apply elem_of_map_to_list, list_elem_of_In, Hf in Hfn. cbn [fst] in Hfn. rewrite below_app in Hfn. by apply bool_decide_eq_true in Hfn. }
  rewrite overlay_cons by done. pose proof (judge_says f (c :: q) b Hb Hord Hne) as Hs. destruct (judge f b (c :: q)) as [n| |]; [|done|by rewrite overlay_nil].
  destruct Hs as (_ & Hs & _). congruence.
Qed.

(** The stack of [remade_fs] with a link, and what the daemon needs around it. *)
Definition export_fs : fs :=
  {[ in_layer (lit "L2") [lit "l"] := NSymlink (lit "a/z"); [lit "s"; STAGING_DIR] := NDir 0 ∅; [lit "x"] := NDir 0 ∅;
     [lit "s"; ACTIVE_MANIFEST_FILE] := NFile (encode_manifest (ManifestCodec := number_codec) delta_manifest) 0x1a4 ∅ ]} ∪ remade_fs true.
Definition export_daemon (faults : list (option nat)) : daemon := (mkExport false 0 ∅ ∅, mkWorld export_fs 0 faults).
Definition export_host : fs :=
  {[ [] := NDir 0 ∅; [lit "d"] := NDir 0 ∅; [lit "d"; lit "a"] := NDir 0 ∅; [lit "d"; lit "a"; lit "x"] := NFile (lit "old") 0 ∅;
     [lit "k"] := NFile (lit "keep") 0 ∅ ]}.
Definition export_services : Services := mkServices (Some (lit "/home")) None default_caps.

Lemma export_fs_exportable : exportable export_fs delta_root delta_manifest [delta_ref (lit "L2"); delta_ref (lit "L1")] [delta_ref (lit "B0")].
Proof.
  split; [reflexivity|repeat constructor; done|repeat constructor|done|..].
  - apply Forall_cons_2; [apply delta_check_spec; vm_compute; reflexivity|].
    apply Forall_cons_2; [apply delta_check_spec; vm_compute; reflexivity|constructor].
  - apply plain_free_check_spec. vm_compute. reflexivity.
  - apply plain_links_check_spec. vm_compute. reflexivity.
Qed.

Lemma export_fs_ready : daemon_ready (H := number_codec) export_fs delta_root [lit "x"] delta_manifest.
Proof.
  split; [apply plain_check_dir; vm_compute; reflexivity|apply plain_check_dir; vm_compute; reflexivity| |vm_compute; reflexivity|
    apply plain_check_dir; vm_compute; reflexivity|vm_compute; reflexivity].
  eexists _, _, _. vm_compute. reflexivity.
Qed.

Lemma export_host_copy : destination export_services export_host (lit "/d") [lit "d"] ∧ shows export_host [lit "d"] export_fs (dirs_of delta_root [delta_ref (lit "B0")]).
Proof.
  split.
  - split; [vm_compute; reflexivity..|]. apply hosted_check_spec. vm_compute. reflexivity.
  - apply (shows_check_spec _ _ _ (in_layer (lit "B0") [])); [|vm_compute; reflexivity].
    assert (delta_layer export_fs (in_layer (lit "B0") [])) as Hl by (apply delta_check_spec; vm_compute; reflexivity). apply Hl.
Qed.

Lemma export_fits : fits (H := number_export_codec) default_caps
  (export_spool (H := number_export_codec) (λ _, 5%Z) delta_root 3 export_fs delta_manifest) (export_entries (λ _, 5%Z) delta_root export_fs delta_manifest).
Proof. split; apply Z.leb_le || apply Z.ltb_lt; vm_compute; reflexivity. Qed.

