(* ===== verification/ExportArchive.v ===== *)
(** * Archives of an export, and what a failed export leaves behind

    An archive is written next to its destination and renamed: whatever fails,
    the destination holds the whole archive or what it held before.  The daemon's
    side leaves no lease behind, and no spool can be read that was not sealed. *)

From S2P Require Import Prelude ByteStr Model FS Storage View Descend World StorageOps Does Lease Stack.
From S2P Require Import Project Base Delta Archive Export ExportApply ExportManager ExportPage ExportEnd.

Lemma hoare_pre {E A : Type} (c : io E A) P Q R : (∀ g, P g → hoare (λ h, h = g) c Q R) → hoare P c Q R.
Proof. intros Hc w r w' Hrun HP. by apply (Hc (w_fs w) HP w r w' Hrun). Qed.

(** ** [write_archive] *)

(** What the archive holds. *)
Definition archive_stream `{ExportCodec} (delivery : bytes) (format : ArchiveFormat) (caps : ExportApplyCaps) : result stream ApplyError :=
  match format with
  | FormatTarZst => Ok (delivery, None)
  | FormatTar => capped_decoder delivery (max_decompressed_bytes caps)
  end.

Definition temp_name (pid : N) (name : bytes) (n : N) : bytes :=
  lit "." ++ name ++ lit "." ++ fmt_dec pid ++ lit "." ++ pad 4 (fmt_num 16 n) ++ lit ".tmp".

Section archive.
Context `{ExportCodec} (pid : N) (delivery : bytes) (format : ArchiveFormat) (caps : ExportApplyCaps).
Context (d : path) (name tmp : bytes) (f0 : fs).
Hypothesis Hd : plain_dir f0 d.
Hypothesis Htree : tree f0.
Hypothesis Hname : name ≠ dotdot.
Hypothesis Htmp : tmp ≠ name ∧ tmp ≠ dotdot.
Hypothesis Hfresh : f0 !! (d ++ [tmp]) = None.
Hypothesis Hfile : dir_at f0 (d ++ [name]) = false.
Abbreviation partial := (partial d tmp f0).
Abbreviation leftover := (λ f, f = f0 ∨ ∃ x, f = partial x).

Lemma copy_stream_hoare s :
  hoare (λ f, f = partial []) (copy_stream (d ++ [tmp]) s (max_decompressed_bytes caps))
    (λ n f, s.2 = None ∧ n = Z.of_nat (length s.1) ∧ f = partial s.1) leftover.
Proof using.
  unfold copy_stream. eapply (hoare_bind _ _ _ (λ _ f, f = partial s.1)).
  - apply hoare_lift_err, hoare_write_all; intros f; [intros k ->; right; exists (take k s.1)|intros ->];
      unfold put_data, StorageOps.partial; by rewrite lookup_insert_eq, insert_insert_eq.
  - intros _. destruct s.2 as [e|]; intros w r w' [= <- <-] Hw; [right; eauto|done].
Qed.

(** The archive has come and the temporary name is gone, or it may be left over. *)
Lemma archive_hoare :
  hoare (λ f, f = f0)
    (do q := host (file_create (d ++ [tmp])) in
     do n := match format with
             | FormatTarZst => copy_stream q (delivery, None) (max_decompressed_bytes caps)
             | FormatTar =>
                 do s := reads (λ _, capped_decoder delivery (max_decompressed_bytes caps)) in
                 copy_stream q s (max_decompressed_bytes caps)
             end in
     run host (fs_rename (d ++ [tmp]) (d ++ [name]));
     ret n)%io
    (λ n f, ∃ data, archive_stream delivery format caps = Ok (data, None) ∧ n = Z.of_nat (length data) ∧ f = replaced d name data f0) leftover.
Proof using Hd Htree Hname Htmp Hfresh Hfile.
  eapply (hoare_bind _ _ _ (λ q f, q = d ++ [tmp] ∧ f = partial [])).
  { apply hoare_lift_err, hoare_syscall; [by left|]. intros f ->. rewrite (tmp_resolve d name) by done. cbn [result_bind]. by rewrite Hfresh. }
  intros q. apply hoare_pre. intros ? [-> ->].
  eapply (hoare_bind _ _ _ (λ n f, ∃ data, archive_stream delivery format caps = Ok (data, None) ∧ n = Z.of_nat (length data) ∧ f = partial data)).
  - assert (∀ s, archive_stream delivery format caps = Ok s → hoare (λ f, f = partial []) (copy_stream (d ++ [tmp]) s (max_decompressed_bytes caps))
      (λ n f, ∃ data, archive_stream delivery format caps = Ok (data, None) ∧ n = Z.of_nat (length data) ∧ f = partial data) leftover) as Hcopy.
    { intros [data e] Hs. eapply hoare_conseq; [apply copy_stream_hoare|done| |done]. cbn. intros n f (-> & -> & ->). eauto. }
    destruct format; [|by apply Hcopy]. eapply (hoare_bind _ _ _ (λ s f, archive_stream delivery FormatTar caps = Ok s ∧ f = partial [])).
    + apply hoare_reads. intros f ->. destruct (capped_decoder _ _) eqn:Hs; [split; [exact Hs|done]|right; eauto].
    + intros s. apply hoare_pre. intros ? [Hs ->]. by apply Hcopy.
  - intros n. apply hoare_pre. intros ? (data & Hs & -> & ->). eapply (hoare_bind _ _ _ (λ _ f, f = replaced d name data f0)).
    + apply hoare_lift_err. eapply hoare_conseq; [by apply (rename_hoare d name tmp data f0)|done|done|]. intros f ->. right. eauto.
    + intros _ w r w' [= <- <-] Hw. eauto.
Qed.

Lemma remove_temp_hoare : hoare leftover (remove_file (d ++ [tmp])) (λ _ f, f = f0) leftover.
Proof using Hd Htmp Hfresh.
  apply hoare_syscall; [done|]. intros f Hf.
  assert (plain_dir f d) as Hpl by (destruct Hf as [->|[x ->]]; [done|by apply partial_plain]).
  rewrite resolve_child by (done || apply Htmp). cbn [result_bind]. destruct Hf as [->|[x ->]].
  - rewrite Hfresh. by left.
  - unfold StorageOps.partial. by rewrite lookup_insert_eq, delete_insert_id by done.
Qed.
End archive.

Lemma temp_name_ne pid name n : utf8_valid name = true → temp_name pid name n ≠ name ∧ temp_name pid name n ≠ dotdot.
Proof. intros _. unfold temp_name. split; intros Heq; apply (f_equal length) in Heq; rewrite !length_app in Heq; simpl in Heq; lia. Qed.

(** C18: an archive is whole or absent.  Whatever calls fail, [write_archive]
    either returns the length of the archive and the destination holds it
    entirely, with a decompressed stream that ended within its cap, or it fails
    and the destination is what it was.  Nothing else changes, except that the
    temporary file may be left when its removal fails too. *)
Theorem archive_is_whole_or_absent `{ExportCodec} pid delivery d name format caps w r w' :
  plain_dir (w_fs w) d → tree (w_fs w) → name ≠ dotdot → dir_at (w_fs w) (d ++ [name]) = false →
  w_fs w !! (d ++ [temp_name pid name (w_unique w)]) = None →
  write_archive pid delivery (d ++ [name]) format caps w = (r, w') →
  match r with
  | Ok n => ∃ data, archive_stream delivery format caps = Ok (data, None) ∧ n = Z.of_nat (length data) ∧
      w_fs w' = <[d ++ [name] := NFile data 0x1a4 ∅]> (w_fs w)
  | Err _ => w_fs w' = w_fs w ∨ ∃ x, w_fs w' = <[d ++ [temp_name pid name (w_unique w)] := NFile x 0x1a4 ∅]> (w_fs w)
  end.
Proof.
  intros Hd Htree Hname Hfile Hfresh. unfold write_archive. unfold bind at 1, next_unique. cbv beta iota zeta.
  unfold bind at 1, reads at 1, archive_temp_path. rewrite last_snoc. destruct (utf8_valid name) eqn:Hu; [|intros [= <- <-]; by left].
  rewrite parent_snoc. fold (temp_name pid name (w_unique w)). pose proof (temp_name_ne pid name (w_unique w) Hu) as Htmp. revert Hfresh Htmp.
  generalize (temp_name pid name (w_unique w)). intros tmp Hfresh Htmp. unfold bind at 1, attempt at 1.
  pose proof (archive_hoare delivery format caps d name tmp (w_fs w) Hd Htree Hname Htmp Hfresh Hfile) as Harch.
  match goal with |- context [ (let '(r, w) := ?c ?w0 in _) ] => destruct (c w0) as [[n|e] w1] eqn:Hrun; specialize (Harch _ _ _ Hrun eq_refl) end.
  - intros [= <- <-]. exact Harch.
  - cbv beta iota zeta. unfold bind, attempt. pose proof (remove_temp_hoare d name tmp (w_fs w) Hd Htmp Hfresh) as Hrm.
    destruct (remove_file (d ++ [tmp]) w1) as [[u|e'] w2] eqn:Hr; specialize (Hrm _ _ _ Hr Harch); intros [= <- <-]; [by left|exact Hrm].
Qed.

(** ** The daemon after an export *)

(** C21: an export leaves no lease.  Whatever the outcome, and whatever calls of
    the daemon fail, the leases after [export_layerstack] are those before it; an
    export that fails registers no spool, and one that succeeds registers exactly
    the spool that it announces. *)
Theorem export_leaves_no_lease `{ExportCodec} `{ManifestCodec} source_mtime pid nanos root spool_dir registered level request_id st w out w' :
  (∀ n, ex_leases st !! new_lease_id nanos n = None) →
  run_export_layerstack source_mtime pid nanos root spool_dir registered level request_id st w = (out, w') →
  ∃ r st', out = Ok (r, st') ∧ ex_leases st' = ex_leases st ∧ ex_busy st' = ex_busy st ∧
    ex_spools st' = match r with
    | Ok start => <[es_export_id start := mkSpool (spool_dir ++ [es_export_id start ++ lit ".tar.zst"]) (es_spool_bytes start)]> (ex_spools st)
    | Err _ => ex_spools st
    end.
Proof.
  intros Hfresh. unfold run_export_layerstack. destruct (ex_busy st) eqn:Hbusy; [intros [= <- <-]; eauto 10|].
  unfold bind at 1, attempt at 1. destruct (open_stack registered root w) as [[u|e] w1]; [|intros [= <- <-]; eauto 10].
  unfold bind at 1, attempt at 1. destruct (acquire_snapshot root nanos (ex_leases st) request_id w1) as [[[lease leases]|e] w2] eqn:Hacq;
    [|intros [= <- <-]; eauto 10].
  assert (∃ n, sl_id lease = new_lease_id nanos n ∧ leases = <[sl_id lease := sl_manifest lease]> (ex_leases st)) as (n & Hid & ->).
  { unfold acquire_snapshot, read_active_manifest_unlocked, acquire in Hacq. apply bind_Ok in Hacq as (m & w3 & _ & Hacq).
    case_decide; [done|]. unfold bind, next_unique, ret in Hacq. simplify_eq/=. eauto. }
  unfold bind at 1, attempt at 1. destruct (fold_and_spool _ _ _ _ _ w2) as [spooled w3].
  unfold release_lease, release_lease_locked, release_reading, release. cbv beta iota zeta. rewrite delete_insert_id by by rewrite Hid.
  match goal with |- context [bind (attempt ?c)] => generalize c end. intros removal.
  unfold bind at 1, attempt at 1. destruct (removal w3) as [released w4].
  destruct spooled as [[delta stats]|e]; [destruct released as [b|e]|]; [|unfold bind, attempt; destruct (remove_file _ w4); intros [= <- <-]; eexists _, _; by split_and!..].
  unfold bind at 1, attempt at 1. destruct (seal_spool _ _ _ _ _ _ w4) as [[start|e] w5] eqn:Hseal; [|intros [= <- <-]; eexists _, _; by split_and!].
  intros [= <- <-]. eexists _, _. split_and!; [done..|]. cbn [ex_spools]. assert (es_export_id start = next_export_id pid (ex_counter st)) as ->; [|done].
  unfold seal_spool in Hseal. apply bind_Ok in Hseal as (u' & w6 & _ & Hseal). apply bind_Ok in Hseal as (meta & w7 & _ & Hseal). by injection Hseal as <- _.
Qed.

(** *** Concrete runs *)

Definition archive_run : result Z ApplyError * world :=
  write_archive (H := number_export_codec) 7 (lit "zst") [lit "out"] FormatTarZst default_caps (mkWorld {[ [] := NDir 0 ∅ ]} 0 []).

Lemma archive_is_whole_or_absent_witness : archive_run.1 = Ok 3%Z ∧ w_fs archive_run.2 !! [lit "out"] = Some (NFile (lit "zst") 0x1a4 ∅).
Proof.
  destruct archive_run as [r w'] eqn:Hrun. assert (archive_run.1 = Ok 3%Z) as Hr by (vm_compute; reflexivity). rewrite Hrun in Hr. cbn [fst] in Hr. subst r.
  split; [reflexivity|].
  destruct (archive_is_whole_or_absent (H := number_export_codec) 7 (lit "zst") [] (lit "out") FormatTarZst default_caps
    (mkWorld {[ [] := NDir 0 ∅ ]} 0 []) (Ok 3%Z) w') as (data & Hs & _ & Hw).
  - apply plain_check_dir. vm_compute. reflexivity.
  - apply tree_check_tree. vm_compute. reflexivity.
  - discriminate.
  - vm_compute. reflexivity.
  - vm_compute. reflexivity.
  - exact Hrun.
  - injection Hs as <-. cbn [snd]. rewrite Hw. apply lookup_insert_eq.
Defined.

(** The export of [export_fs] when one call fails. *)
Definition failing_export (calls : nat) : result (result ExportStart ExportError * ExportState) Empty_set * world :=
  run_export_layerstack (H := number_export_codec) (H0 := number_codec) (λ _, 0%Z) 1 1 delta_root [lit "x"] true 3 (lit "req")
    (mkExport false 0 ∅ ∅) (mkWorld export_fs 0 (replicate calls None ++ [Some 0])).

(** The write of the spool fails. *)
Lemma export_leaves_no_lease_witness :
  ∃ st', (failing_export 6).1 = Ok (Err (ExportStack (Io EIO)), st') ∧ ex_leases st' = ∅ ∧ ex_spools st' = ∅.
Proof.
  destruct (failing_export 6) as [out w'] eqn:Hrun.
  destruct (export_leaves_no_lease (H := number_export_codec) (H0 := number_codec) (λ _, 0%Z) 1 1 delta_root [lit "x"] true 3 (lit "req")
    (mkExport false 0 ∅ ∅) (mkWorld export_fs 0 (replicate 6 None ++ [Some 0])) out w') as (r & st' & -> & Hl & _ & Hs).
  - intros n. apply lookup_empty.
  - exact Hrun.
  - assert (match (failing_export 6).1 with Ok (r, _) => r = Err (ExportStack (Io EIO)) | Err _ => False end) as Hr by (vm_compute; reflexivity).
    rewrite Hrun in Hr. cbn [fst] in Hr. subst r. exists st'. split; [reflexivity|]. split; [exact Hl|exact Hs].
Defined.

(** When the check for an override fails, the spool stays: no export names it. *)
Lemma failed_seal_leaves_spool :
  match failing_export 7 with
  | (Ok (Err (SpoolOverride EIO), st), w) => (size (ex_spools st), bool_decide (is_Some (w_fs w !! [lit "x"; spool_name 1 0])))
  | _ => (1, false)
  end = (0, true).
Proof. vm_compute. reflexivity. Qed.

(** ** Where the comments say more than the code does *)

(** The entries of an archive applied to a directory, the times the host has
    afterwards included. *)
Definition apply_archive (es : list tar_entry) (f : fs) (times : mtimes) : result (DirApplyStats * mtimes) ApplyError * fs :=
  let '(r, w) := apply_dir_delta (H := number_export_codec) (number_archive es) [lit "d"] default_caps times (mkWorld f 0 []) in (r, w_fs w).

Definition archive_file (name : bytes) (mode : Z) : tar_entry := mkTar name TkRegular (Some mode) (Some 5%Z) (Some 1%Z) None (lit "x").
Definition empty_host : fs := {[ [] := NDir 0 ∅; [lit "d"] := NDir 0 ∅ ]}.

(** A file whose content and time are the same keeps the permissions of the host. *)
Lemma chmod_is_not_exported :
  let host := <[[lit "d"; lit "f"] := NFile (lit "x") 0x1a4 ∅]> empty_host in
  (apply_archive [archive_file (lit "f") 0x1ed] host (λ _, 5%Z)).2 !! [lit "d"; lit "f"] = Some (NFile (lit "x") 0x1a4 ∅).
Proof. vm_compute. reflexivity. Qed.

(** Applying one archive twice writes the files of an opaque directory twice. *)
Lemma second_run_writes_again :
  let es := [mkTar (lit "a/") TkDirectory (Some 0x1ed%Z) (Some 5%Z) (Some 0%Z) None []; marker_tar (lit "a/.wh..wh..opq"); archive_file (lit "a/f") 0x1a4] in
  match apply_archive es empty_host (λ _, 0%Z) with
  | (Ok (_, times), host) => match (apply_archive es host times).1 with Ok (s, _) => bytes_written s | Err _ => 0%Z end
  | _ => 0%Z
  end = 1%Z.
Proof. vm_compute. reflexivity. Qed.

(** A destination can resolve into the home directory when the path of that
    directory goes through a link itself: only one of the two is resolved. *)
Definition linked_home : fs :=
  {[ [] := NDir 0 ∅; [lit "usr"] := NDir 0 ∅; [lit "usr"; lit "u"] := NDir 0 ∅; [lit "home"] := NSymlink (lit "/usr"); [lit "m"] := NSymlink (lit "/usr") ]}.

Lemma linked_home_is_not_denied :
  let sv := mkServices (Some (lit "/home/u")) None default_caps in
  guard_dest sv (lit "/m/u") Dir linked_home = Ok [lit "m"; lit "u"] ∧
  (prepare_dest sv [lit "m"; lit "u"] Dir (mkWorld linked_home 0 [])).1 = Ok [lit "usr"; lit "u"] ∧
  canonicalize linked_home [lit "home"; lit "u"] = Ok [lit "usr"; lit "u"].
Proof. split_and!; vm_compute; reflexivity. Qed.
