(* ===== verification/Lock.v ===== *)
(** * The storage writer lock: [storage/lock.rs]

    A re-entrant readers-writer lock with priority for writers, built on a mutex
    and a condition variable.  Each critical section of the mutex is one step;
    threads wait until they are notified and then look at the state again.  The
    theorems show mutual exclusion, that no wake-up is lost, and how a nested
    read can deadlock. *)

From S2P Require Import Prelude ByteStr Model FS.

(** ** The lock *)

Abbreviation thread_id := nat.

(** [struct ReentrantRwState] *)
Record ReentrantRwState := mkState {
  writer : option thread_id;
  write_depth : nat;
  readers : nat;
  waiting_writers : nat;
}.

Definition state_default : ReentrantRwState := mkState None 0 0 0.

(** One turn of the loop of [read]: [None] waits. *)
Definition read_turn (current : thread_id) (s : ReentrantRwState) : option ReentrantRwState :=
  if decide (writer s = Some current ∨ (writer s = None ∧ waiting_writers s = 0))
  then Some (mkState (writer s) (write_depth s) (readers s + 1) (waiting_writers s))
  else None.

(** The new state and whether all waiters are notified. *)
Definition read_unlock (s : ReentrantRwState) : ReentrantRwState * bool :=
  let readers := readers s - 1 in
  (mkState (writer s) (write_depth s) readers (waiting_writers s), bool_decide (readers = 0)).

(** [write] before its loop: re-entered by the writer, or one more waiting. *)
Definition write_enter (current : thread_id) (s : ReentrantRwState) : ReentrantRwState * bool :=
  if decide (writer s = Some current)
  then (mkState (writer s) (write_depth s + 1) (readers s) (waiting_writers s), true)
  else (mkState (writer s) (write_depth s) (readers s) (waiting_writers s + 1), false).

(** One turn of the loop of [write]. *)
Definition write_turn (current : thread_id) (s : ReentrantRwState) : option ReentrantRwState :=
  if decide (writer s = None ∧ readers s = 0)
  then Some (mkState (Some current) 1 (readers s) (waiting_writers s - 1))
  else None.

Definition write_unlock (current : thread_id) (s : ReentrantRwState) : ReentrantRwState * bool :=
  if decide (writer s = Some current) then
    let depth := write_depth s - 1 in
    if decide (depth = 0) then (mkState None depth (readers s) (waiting_writers s), true)
    else (mkState (writer s) depth (readers s) (waiting_writers s), false)
  else (s, false).

(** ** Threads *)

(** A waiting thread sleeps until it is notified. *)
Inductive phase := Running | ReadWait (awake : bool) | WriteWait (awake : bool).

(** The guards a thread holds: [SharedGuard]s and [ExclusiveGuard]s. *)
Record thread := mkThread { shared_guards : nat; exclusive_guards : nat; th_phase : phase }.

Record system := mkSystem { sys_lock : ReentrantRwState; sys_threads : list thread }.

#[global] Instance phase_eq_dec : EqDecision phase.
Proof. solve_decision. Defined.

(** [Condvar::notify_all] *)
Definition wake (t : thread) : thread :=
  match th_phase t with
  | Running => t
  | ReadWait _ => mkThread (shared_guards t) (exclusive_guards t) (ReadWait true)
  | WriteWait _ => mkThread (shared_guards t) (exclusive_guards t) (WriteWait true)
  end.

Definition notify_all (b : bool) (ts : list thread) : list thread := if b then wake <$> ts else ts.

(** What a thread does next: take a guard, drop one, wake up without cause, or
    look again after waking up. *)
Inductive event :=
| Shared | DropShared | Exclusive | DropExclusive | Spurious | Look.

Definition read_step (i : thread_id) (t : thread) (s : system) : system :=
  match read_turn i (sys_lock s) with
  | Some l =>
      mkSystem l (<[i := mkThread (shared_guards t + 1) (exclusive_guards t) Running]> (sys_threads s))
  | None =>
      mkSystem (sys_lock s)
        (<[i := mkThread (shared_guards t) (exclusive_guards t) (ReadWait false)]> (sys_threads s))
  end.

Definition write_step (i : thread_id) (t : thread) (s : system) : system :=
  match write_turn i (sys_lock s) with
  | Some l =>
      mkSystem l (<[i := mkThread (shared_guards t) (exclusive_guards t + 1) Running]> (sys_threads s))
  | None =>
      mkSystem (sys_lock s)
        (<[i := mkThread (shared_guards t) (exclusive_guards t) (WriteWait false)]> (sys_threads s))
  end.

Definition thread_step (i : thread_id) (e : event) (t : thread) (s : system) : option system :=
  match e, th_phase t with
  | Shared, Running => Some (read_step i t s)
  | DropShared, Running =>
      if decide (shared_guards t = 0) then None
      else
        let '(l, notify) := read_unlock (sys_lock s) in
        Some (mkSystem l (notify_all notify
          (<[i := mkThread (shared_guards t - 1) (exclusive_guards t) Running]> (sys_threads s))))
  | Exclusive, Running =>
      let '(l, acquired) := write_enter i (sys_lock s) in
      Some (if acquired : bool
            then mkSystem l (<[i := mkThread (shared_guards t) (exclusive_guards t + 1) Running]>
                               (sys_threads s))
            else write_step i t (mkSystem l (sys_threads s)))
  | DropExclusive, Running =>
      if decide (exclusive_guards t = 0) then None
      else
        let '(l, notify) := write_unlock i (sys_lock s) in
        Some (mkSystem l (notify_all notify
          (<[i := mkThread (shared_guards t) (exclusive_guards t - 1) Running]> (sys_threads s))))
  | Spurious, ReadWait _ | Spurious, WriteWait _ =>
      Some (mkSystem (sys_lock s) (<[i := wake t]> (sys_threads s)))
  | Look, ReadWait true => Some (read_step i t s)
  | Look, WriteWait true => Some (write_step i t s)
  | _, _ => None
  end.

Definition system_step (i : thread_id) (e : event) (s : system) : option system :=
  t ← sys_threads s !! i; thread_step i e t s.

Inductive step : relation system :=
| step_thread i e s s' : system_step i e s = Some s' → step s s'.

Definition idle : thread := mkThread 0 0 Running.
Definition start (n : nat) : system := mkSystem state_default (replicate n idle).

Definition reachable (n : nat) (s : system) : Prop := rtc step (start n) s.

(** ** The invariant *)

Definition is_write_wait (t : thread) : nat := match th_phase t with WriteWait _ => 1 | _ => 0 end.

(** The sleeping threads have a reason to sleep. *)
Definition sleeps_for_cause (l : ReentrantRwState) (t : thread) : Prop :=
  match th_phase t with
  | WriteWait false => writer l ≠ None ∨ readers l ≠ 0
  | ReadWait false => writer l ≠ None ∨ waiting_writers l ≠ 0
  | _ => True
  end.

Definition writer_ok (l : ReentrantRwState) (ts : list thread) : Prop :=
  match writer l with
  | None => write_depth l = 0 ∧ ∀ j u, ts !! j = Some u → exclusive_guards u = 0
  | Some i =>
      0 < write_depth l ∧
      (∃ t, ts !! i = Some t ∧ th_phase t = Running ∧ exclusive_guards t = write_depth l) ∧
      ∀ j u, j ≠ i → ts !! j = Some u → shared_guards u = 0 ∧ exclusive_guards u = 0
  end.

Record Inv (s : system) : Prop := {
  inv_readers : readers (sys_lock s) = sum_list_with shared_guards (sys_threads s);
  inv_waiting : waiting_writers (sys_lock s) = sum_list_with is_write_wait (sys_threads s);
  inv_writer : writer_ok (sys_lock s) (sys_threads s);
  inv_sleep : ∀ j u, sys_threads s !! j = Some u → sleeps_for_cause (sys_lock s) u;
}.

Lemma sum_list_with_insert {A} (g : A → nat) (l : list A) i x y :
  l !! i = Some x → sum_list_with g (<[i := y]> l) + g x = sum_list_with g l + g y.
Proof.
  revert i. induction l as [|z l IH]; intros [|i] Hi; simplify_eq/=; [lia|]. specialize (IH i Hi). lia.
Qed.

Lemma sum_insert {A} (g : A → nat) (l : list A) i x y n :
  l !! i = Some x → n = sum_list_with g l → n + g y - g x = sum_list_with g (<[i := y]> l).
Proof. intros Hi ->. pose proof (sum_list_with_insert g l i x y Hi). lia. Qed.

Lemma sum_list_with_elem {A} (g : A → nat) (l : list A) i x : l !! i = Some x → g x ≤ sum_list_with g l.
Proof. revert i. induction l as [|z l IH]; intros [|i] Hi; simplify_eq/=; [lia|]. apply IH in Hi. lia. Qed.

Lemma wake_fields t :
  shared_guards (wake t) = shared_guards t ∧ exclusive_guards (wake t) = exclusive_guards t ∧
  is_write_wait (wake t) = is_write_wait t ∧ (th_phase t = Running → wake t = t).
Proof. by destruct t as [? ? []]. Qed.

Lemma sum_list_with_wake g ts :
  (∀ t, g (wake t) = g t) → sum_list_with g (wake <$> ts) = sum_list_with g ts.
Proof. intros Hg. induction ts as [|t ts IH]; [done|]. csimpl. by rewrite Hg, IH. Qed.

(** Notifying keeps the counts and leaves nobody asleep. *)
Lemma Inv_notify b l (ts : list thread) :
  readers l = sum_list_with shared_guards ts → waiting_writers l = sum_list_with is_write_wait ts →
  writer_ok l ts →
  (b = false → ∀ j u, ts !! j = Some u → sleeps_for_cause l u) →
  Inv (mkSystem l (notify_all b ts)).
Proof.
  intros Hr Hw Hok Hs. destruct b; simpl; [|split; [done..|by apply Hs]]. split; simpl.
  - rewrite Hr. symmetry. apply sum_list_with_wake. by intros [? ? []].
  - rewrite Hw. symmetry. apply sum_list_with_wake. by intros [? ? []].
  - unfold writer_ok in *. destruct (writer l) as [i|].
    + destruct Hok as (Hd & (t & Ht & Hrun & He) & Hoth). split_and!; [done| |].
      * exists t. rewrite list_lookup_fmap, Ht. simpl. destruct (wake_fields t) as (_ & _ & _ & ->); done.
      * intros j u Hj. rewrite list_lookup_fmap. destruct (ts !! j) as [u'|] eqn:Hu; [|done].
        intros [= <-]. destruct (wake_fields u') as (-> & -> & _). by eapply Hoth.
    + destruct Hok as [Hd Hoth]. split; [done|]. intros j u. rewrite list_lookup_fmap.
      destruct (ts !! j) as [u'|] eqn:Hu; [|done]. intros [= <-]. destruct (wake_fields u') as (_ & -> & _).
      by eapply Hoth.
  - intros j u. rewrite list_lookup_fmap. destruct (ts !! j) as [u'|]; [|done]. intros [= <-].
    unfold sleeps_for_cause. by destruct u' as [? ? []].
Qed.

(** The writer's bookkeeping when one other thread changes. *)
Lemma writer_ok_other l l' (ts : list thread) (i : nat) t t' :
  writer l' = writer l → write_depth l' = write_depth l → ts !! i = Some t → writer l ≠ Some i →
  exclusive_guards t' = 0 → (writer l ≠ None → shared_guards t' = 0) →
  writer_ok l ts → writer_ok l' (<[i := t']> ts).
Proof.
  intros Hw Hd Hi Hne He Hs Hok. assert (i < length ts) as Hlt by by eapply lookup_lt_Some.
  unfold writer_ok in *. rewrite Hw, Hd. destruct (writer l) as [k|].
  - destruct Hok as (Hpos & (u & Hu & ?) & Hoth). split_and!; [done| |].
    + exists u. rewrite list_lookup_insert_ne by naive_solver. done.
    + intros j v Hj. destruct (decide (j = i)) as [->|Hji].
      * rewrite list_lookup_insert_eq by done. intros [= <-]. split; [by apply Hs|done].
      * rewrite list_lookup_insert_ne by done. by apply Hoth.
  - destruct Hok as [Hz Hoth]. split; [done|]. intros j v. destruct (decide (j = i)) as [->|Hji].
    + rewrite list_lookup_insert_eq by done. by intros [= <-].
    + rewrite list_lookup_insert_ne by done. apply Hoth.
Qed.

(** The sleepers when one thread changes and the causes remain. *)
Lemma sleep_insert l l' (ts : list thread) (i : nat) t' :
  (∀ u, sleeps_for_cause l u → sleeps_for_cause l' u) → sleeps_for_cause l' t' →
  (∀ j u, ts !! j = Some u → sleeps_for_cause l u) →
  ∀ j u, <[i := t']> ts !! j = Some u → sleeps_for_cause l' u.
Proof.
  intros Hl Ht Hall j u Hu. destruct (decide (j = i)) as [->|Hji].
  - destruct (decide (i < length ts)) as [Hlt|Hge].
    + rewrite list_lookup_insert_eq in Hu by done. by simplify_eq.
    + rewrite list_insert_ge in Hu by lia. eauto.
  - rewrite list_lookup_insert_ne in Hu by done. eauto.
Qed.

(** A turn of [read] by a thread that is not waiting to write. *)
Lemma Inv_read_step i t s :
  Inv s → sys_threads s !! i = Some t → is_write_wait t = 0 → Inv (read_step i t s).
Proof.
  destruct s as [l ts]. intros [Hr Hw Hok Hsl] Hi Hp. simpl in *. unfold read_step. simpl.
  assert (i < length ts) as Hlt by by eapply lookup_lt_Some. unfold read_turn. case_decide as Hc.
  - split; simpl.
    + rewrite <-(sum_insert shared_guards ts i t _ _ Hi Hr). unfold is_write_wait in *. simpl. lia.
    + rewrite <-(sum_insert is_write_wait ts i t _ _ Hi Hw). unfold is_write_wait in *. simpl. lia.
    + destruct (decide (writer l = Some i)) as [Hme|Hnot].
      * unfold writer_ok in *. simpl. rewrite Hme in *. destruct Hok as (Hd & (u & Hu & Hrun & He) & Hoth).
        simplify_eq. split_and!; [done| |].
        -- eexists. rewrite list_lookup_insert_eq by done. by split_and!.
        -- intros j v Hj. rewrite list_lookup_insert_ne by done. by apply Hoth.
      * eapply writer_ok_other; [done|done|done|done| | |done]; simpl.
        -- unfold writer_ok in Hok. destruct (writer l) as [k|]; [naive_solver|]. by eapply Hok.
        -- naive_solver.
    + eapply sleep_insert; [|done|done]. intros [? ? [| [] | []]]; unfold sleeps_for_cause; simpl; lia || tauto.
  - assert (writer l ≠ Some i) as Hnot by tauto.
    assert (writer l ≠ None → shared_guards t = 0) as Hsh.
    { intros Hn. unfold writer_ok in Hok. destruct (writer l) as [k|]; [|done].
      eapply Hok; [|done]. naive_solver. }
    assert (exclusive_guards t = 0) as Hex.
    { unfold writer_ok in Hok. destruct (writer l) as [k|]; [|by eapply Hok].
      eapply Hok; [|done]. naive_solver. }
    split; simpl.
    + rewrite <-(sum_insert shared_guards ts i t _ _ Hi Hr). unfold is_write_wait in *. simpl. lia.
    + rewrite <-(sum_insert is_write_wait ts i t _ _ Hi Hw). unfold is_write_wait in *. simpl. lia.
    + by eapply writer_ok_other.
    + eapply sleep_insert; [done| |done]. unfold sleeps_for_cause. simpl.
      destruct (writer l); [by left|]. right. tauto.
Qed.

(** A turn of [write] by a thread that is waiting to write. *)
Lemma Inv_write_step i t s :
  Inv s → sys_threads s !! i = Some t → is_write_wait t = 1 → Inv (write_step i t s).
Proof.
  destruct s as [l ts]. intros [Hr Hw Hok Hsl] Hi Hp. simpl in *. unfold write_step. simpl.
  assert (i < length ts) as Hlt by by eapply lookup_lt_Some.
  assert (writer l ≠ Some i) as Hnot.
  { intros Hme. unfold writer_ok in Hok. rewrite Hme in Hok. destruct Hok as (_ & (u & Hu & Hrun & _) & _).
    simplify_eq. unfold is_write_wait in Hp. by rewrite Hrun in Hp. }
  unfold write_turn. case_decide as Hc.
  - destruct Hc as [Hnone Hzero].
    assert (∀ j u, ts !! j = Some u → exclusive_guards u = 0) as Hex.
    { unfold writer_ok in Hok. rewrite Hnone in Hok. apply Hok. }
    assert (∀ j u, ts !! j = Some u → shared_guards u = 0) as Hsh.
    { intros j u Hu. apply (sum_list_with_elem shared_guards) in Hu. lia. }
    split; simpl.
    + rewrite <-(sum_insert shared_guards ts i t _ _ Hi Hr). unfold is_write_wait in *. simpl. lia.
    + rewrite <-(sum_insert is_write_wait ts i t _ _ Hi Hw). unfold is_write_wait in *. simpl. lia.
    + unfold writer_ok. simpl. split_and!; [lia| |].
      * eexists. rewrite list_lookup_insert_eq by done. split_and!; [done|done|]. simpl.
        by rewrite (Hex i t Hi).
      * intros j u Hj. rewrite list_lookup_insert_ne by done. intros Hu. split; [by eapply Hsh|by eapply Hex].
    + eapply sleep_insert; [|done|done]. intros [? ? [| [] | []]]; unfold sleeps_for_cause; simpl; auto.
  - assert (writer l ≠ None → shared_guards t = 0) as Hsh.
    { intros Hn. unfold writer_ok in Hok. destruct (writer l) as [k|]; [|done].
      eapply Hok; [|done]. naive_solver. }
    assert (exclusive_guards t = 0) as Hex.
    { unfold writer_ok in Hok. destruct (writer l) as [k|]; [|by eapply Hok].
      eapply Hok; [|done]. naive_solver. }
    split; simpl.
    + rewrite <-(sum_insert shared_guards ts i t _ _ Hi Hr). unfold is_write_wait in *. simpl. lia.
    + rewrite <-(sum_insert is_write_wait ts i t _ _ Hi Hw). unfold is_write_wait in *. simpl. lia.
    + by eapply writer_ok_other.
    + eapply sleep_insert; [done| |done]. unfold sleeps_for_cause. simpl.
      destruct (writer l); [by left|]. right. tauto.
Qed.

Lemma Inv_drop_shared i t s :
  Inv s → sys_threads s !! i = Some t → th_phase t = Running → shared_guards t ≠ 0 →
  let '(l, notify) := read_unlock (sys_lock s) in
  Inv (mkSystem l (notify_all notify
    (<[i := mkThread (shared_guards t - 1) (exclusive_guards t) Running]> (sys_threads s)))).
Proof.
  destruct s as [l ts]. intros [Hr Hw Hok Hsl] Hi Hrun Hsh. simpl in *.
  assert (i < length ts) as Hlt by by eapply lookup_lt_Some.
  pose proof (sum_list_with_elem shared_guards ts i t Hi) as Hle. apply Inv_notify; simpl.
  - rewrite <-(sum_insert shared_guards ts i t _ _ Hi Hr). simpl. lia.
  - rewrite <-(sum_insert is_write_wait ts i t _ _ Hi Hw). unfold is_write_wait. rewrite Hrun. simpl. lia.
  - destruct (decide (writer l = Some i)) as [Hme|Hnot].
    + unfold writer_ok in *. simpl. rewrite Hme in *. destruct Hok as (Hd & (u & Hu & _ & He) & Hoth).
      assert (u = t) as -> by congruence. split_and!; [done| |].
      * eexists. rewrite list_lookup_insert_eq by done. by split_and!.
      * intros j v Hj. rewrite list_lookup_insert_ne by done. by apply Hoth.
    + eapply writer_ok_other; [done..| | |done]; simpl; unfold writer_ok in Hok;
        destruct (writer l) as [k|]; try done; [|by eapply Hok|];
        (destruct (proj2 (proj2 Hok) i t) as [??]; [naive_solver|done|]; lia).
  - intros Hb. rewrite bool_decide_eq_false in Hb. eapply sleep_insert; [|done|done].
    intros [? ? [| [] | []]]; unfold sleeps_for_cause; simpl; auto.
Qed.

Lemma Inv_drop_exclusive i t s :
  Inv s → sys_threads s !! i = Some t → th_phase t = Running → exclusive_guards t ≠ 0 →
  let '(l, notify) := write_unlock i (sys_lock s) in
  Inv (mkSystem l (notify_all notify
    (<[i := mkThread (shared_guards t) (exclusive_guards t - 1) Running]> (sys_threads s)))).
Proof.
  destruct s as [l ts]. intros [Hr Hw Hok Hsl] Hi Hrun Hex. simpl in *.
  assert (i < length ts) as Hlt by by eapply lookup_lt_Some.
  assert (writer l = Some i) as Hme.
  { unfold writer_ok in Hok. destruct (writer l) as [k|]; [|destruct Hex; by eapply Hok].
    destruct (decide (k = i)) as [->|Hne]; [done|]. destruct Hex. eapply Hok; [|done]. done. }
  unfold writer_ok in Hok. rewrite Hme in Hok. destruct Hok as (Hd & (u & Hu & _ & He) & Hoth).
  assert (u = t) as -> by congruence.
  unfold write_unlock. rewrite decide_True by done.
  assert (∀ n, readers l = sum_list_with shared_guards
    (<[i := mkThread (shared_guards t) n Running]> ts)) as Hr'.
  { intros n. rewrite <-(sum_insert shared_guards ts i t _ _ Hi Hr). simpl. lia. }
  assert (∀ n, waiting_writers l = sum_list_with is_write_wait
    (<[i := mkThread (shared_guards t) n Running]> ts)) as Hw'.
  { intros n. rewrite <-(sum_insert is_write_wait ts i t _ _ Hi Hw). unfold is_write_wait.
    rewrite Hrun. simpl. lia. }
  case_decide as Hz.
  - apply (Inv_notify true); [apply Hr'|apply Hw'| |done]. unfold writer_ok. simpl. split; [done|].
    intros j v. destruct (decide (j = i)) as [->|Hji].
    + rewrite list_lookup_insert_eq by done. intros [= <-]. simpl. lia.
    + rewrite list_lookup_insert_ne by done. by apply Hoth.
  - apply (Inv_notify false); [apply Hr'|apply Hw'| |].
    + unfold writer_ok. simpl. rewrite Hme. split_and!; [lia| |].
      * eexists. rewrite list_lookup_insert_eq by done. split_and!; [done|done|]. simpl. lia.
      * intros j v Hj. rewrite list_lookup_insert_ne by done. by apply Hoth.
    + intros _. eapply sleep_insert; [|done|done].
      intros [? ? [| [] | []]]; unfold sleeps_for_cause; simpl; auto.
Qed.

(** [write] entered: re-entered by the writer, or one more waiting thread. *)
Lemma Inv_exclusive i t s :
  Inv s → sys_threads s !! i = Some t → th_phase t = Running →
  let '(l, acquired) := write_enter i (sys_lock s) in
  Inv (if acquired : bool
       then mkSystem l (<[i := mkThread (shared_guards t) (exclusive_guards t + 1) Running]> (sys_threads s))
       else write_step i t (mkSystem l (sys_threads s))).
Proof.
  destruct s as [l ts]. intros [Hr Hw Hok Hsl] Hi Hrun. simpl in *.
  assert (i < length ts) as Hlt by by eapply lookup_lt_Some. unfold write_enter. case_decide as Hme.
  - unfold writer_ok in Hok. rewrite Hme in Hok. destruct Hok as (Hd & (u & Hu & _ & He) & Hoth).
  assert (u = t) as -> by congruence.
    split; simpl.
    + rewrite <-(sum_insert shared_guards ts i t _ _ Hi Hr). simpl. lia.
    + rewrite <-(sum_insert is_write_wait ts i t _ _ Hi Hw). unfold is_write_wait. rewrite Hrun. simpl. lia.
    + unfold writer_ok. simpl. rewrite Hme. split_and!; [lia| |].
      * eexists. rewrite list_lookup_insert_eq by done. split_and!; [done|done|]. simpl. lia.
      * intros j v Hj. rewrite list_lookup_insert_ne by done. by apply Hoth.
    + eapply sleep_insert; [|done|done]. intros [? ? [| [] | []]]; unfold sleeps_for_cause; simpl; auto.
  - set (t' := mkThread (shared_guards t) (exclusive_guards t) (WriteWait true)).
    set (l' := mkState _ _ _ _).
    assert (write_step i t (mkSystem l' ts) = write_step i t' (mkSystem l' (<[i := t']> ts))) as ->.
    { unfold write_step. simpl. destruct (write_turn i l'); by rewrite list_insert_insert_eq. }
    apply Inv_write_step; [|by apply list_lookup_insert_eq|done]. split; simpl.
    + rewrite <-(sum_insert shared_guards ts i t _ _ Hi Hr). simpl. lia.
    + rewrite <-(sum_insert is_write_wait ts i t _ _ Hi Hw). unfold is_write_wait. rewrite Hrun. simpl. lia.
    + eapply writer_ok_other; [done|done|done|done| | |done]; simpl; unfold writer_ok in Hok;
        destruct (writer l) as [k|]; try done; try (by eapply Hok);
        (destruct (proj2 (proj2 Hok) i t) as [??]; [naive_solver|done|]; lia).
    + eapply sleep_insert; [|done|done].
      intros [? ? [| [] | []]]; unfold sleeps_for_cause; simpl; auto. intros _. right. lia.
Qed.

Lemma Inv_spurious i t s : Inv s → sys_threads s !! i = Some t → th_phase t ≠ Running →
  Inv (mkSystem (sys_lock s) (<[i := wake t]> (sys_threads s))).
Proof.
  destruct s as [l ts]. intros [Hr Hw Hok Hsl] Hi Hrun. simpl in *.
  assert (i < length ts) as Hlt by by eapply lookup_lt_Some.
  destruct (wake_fields t) as (Hws & Hwe & Hww & _). split; simpl.
  - rewrite <-(sum_insert shared_guards ts i t _ _ Hi Hr). lia.
  - rewrite <-(sum_insert is_write_wait ts i t _ _ Hi Hw). lia.
  - assert (writer l ≠ Some i) as Hne.
    { intros Hme. unfold writer_ok in Hok. rewrite Hme in Hok.
      destruct Hok as (_ & (u & Hu & ? & _) & _). by simplify_eq. }
    eapply writer_ok_other; [done..| | |done]; unfold writer_ok in Hok; rewrite ?Hws, ?Hwe;
      destruct (writer l) as [k|]; try done; try (by eapply Hok);
      (destruct (proj2 (proj2 Hok) i t) as [??]; [naive_solver|done|]; lia).
  - eapply sleep_insert; [done| |done]. unfold sleeps_for_cause. by destruct t as [? ? []].
Qed.

Lemma lock_Inv_step s s' : Inv s → step s s' → Inv s'.
Proof.
  intros Hinv Hstep. destruct Hstep as [i e s s' Hs]. unfold system_step in Hs.
  destruct (sys_threads s !! i) as [t|] eqn:Hi; [|done]. cbn in Hs. unfold thread_step in Hs.
  destruct e; destruct (th_phase t) as [|b|b] eqn:Hp; try done.
  - simplify_eq. apply Inv_read_step; [done..|]. unfold is_write_wait. by rewrite Hp.
  - case_decide; [done|]. pose proof (Inv_drop_shared i t s Hinv Hi Hp) as Hd.
    destruct (read_unlock (sys_lock s)). simplify_eq. by apply Hd.
  - pose proof (Inv_exclusive i t s Hinv Hi Hp) as Hd. destruct (write_enter i (sys_lock s)). by simplify_eq.
  - case_decide; [done|]. pose proof (Inv_drop_exclusive i t s Hinv Hi Hp) as Hd.
    destruct (write_unlock i (sys_lock s)). simplify_eq. by apply Hd.
  - simplify_eq. apply Inv_spurious; [done..|]. by rewrite Hp.
  - simplify_eq. apply Inv_spurious; [done..|]. by rewrite Hp.
  - destruct b; [|done]. simplify_eq. apply Inv_read_step; [done..|]. unfold is_write_wait. by rewrite Hp.
  - destruct b; [|done]. simplify_eq. apply Inv_write_step; [done..|]. unfold is_write_wait. by rewrite Hp.
Qed.

Lemma Inv_reachable n s : reachable n s → Inv s.
Proof.
  intros Hr. assert (Inv (start n)) as Hstart.
  { split; simpl.
    - clear Hr. by induction n.
    - clear Hr. by induction n.
    - split; [done|]. intros j u [-> _]%lookup_replicate. done.
    - intros j u [-> _]%lookup_replicate. done. }
  unfold reachable in Hr. induction Hr; [done|]. eauto using lock_Inv_step.
Qed.

(** ** Properties *)

(** C31: mutual exclusion.  In every reachable state a thread that holds an
    exclusive guard is the only one that holds any guard, however often guards
    are nested. *)
Theorem exclusive_guard_is_alone n s i t j u :
  reachable n s → sys_threads s !! i = Some t → exclusive_guards t ≠ 0 →
  j ≠ i → sys_threads s !! j = Some u → shared_guards u = 0 ∧ exclusive_guards u = 0.
Proof.
  intros [_ _ Hok _]%Inv_reachable Hi Ht Hne Hj. unfold writer_ok in Hok.
  destruct (writer (sys_lock s)) as [k|].
  - destruct Hok as (_ & _ & Hoth). destruct (decide (k = i)) as [->|Hki]; [by eapply Hoth|].
    destruct Ht. eapply Hoth; [|done]. done.
  - destruct Ht. by eapply Hok.
Qed.

Definition after (s : system) (es : list (thread_id * event)) : system :=
  foldl (λ s ie, default s (system_step ie.1 ie.2 s)) s es.

Lemma after_reachable n es : reachable n (after (start n) es).
Proof.
  unfold reachable, after. assert (∀ s s0, rtc step s0 s →
    rtc step s0 (foldl (λ s ie, default s (system_step ie.1 ie.2 s)) s es)) as H; [|by apply H].
  induction es as [|[i e] es IH]; intros s s0 Hs; [done|]. simpl. apply IH.
  destruct (system_step i e s) as [s'|] eqn:Hstep; simpl; [|done].
  eapply rtc_r; [done|]. by econstructor.
Qed.

Lemma exclusive_guard_is_alone_witness :
  let s := after (start 3) [(0, Exclusive); (0, Shared); (1, Exclusive)] in
  let u := mkThread 0 0 (WriteWait false) in
  sys_threads s !! 1 = Some u ∧ shared_guards u = 0 ∧ exclusive_guards u = 0.
Proof.
  intros s u. split; [reflexivity|].
  apply (exclusive_guard_is_alone 3 s 0 (mkThread 1 1 Running) 1 u).
  - apply after_reachable.
  - reflexivity.
  - discriminate.
  - discriminate.
  - reflexivity.
Defined.

(** C34: no wake-up is lost.  Whenever no guard is held, every thread waiting for
    an exclusive guard has been notified and takes the lock as soon as it looks,
    and if none waits for an exclusive guard the same holds of the threads
    waiting for a shared one. *)
Theorem no_lost_wakeup n s i t :
  reachable n s →
  (∀ j u, sys_threads s !! j = Some u → shared_guards u = 0 ∧ exclusive_guards u = 0) →
  sys_threads s !! i = Some t → th_phase t ≠ Running →
  (is_write_wait t = 1 ∨ ∀ j u, sys_threads s !! j = Some u → is_write_wait u = 0) →
  ∃ s' t', system_step i Look s = Some s' ∧ sys_threads s' !! i = Some t' ∧ th_phase t' = Running ∧
    shared_guards t' + exclusive_guards t' = 1.
Proof.
  intros [Hr Hw Hok Hsl]%Inv_reachable Hnone Hi Hp Hwho.
  assert (writer (sys_lock s) = None) as Hwn.
  { unfold writer_ok in Hok. destruct (writer (sys_lock s)) as [k|]; [|done].
    destruct Hok as (Hd & (u & Hu & _ & He) & _). apply Hnone in Hu. lia. }
  assert (∀ g, (∀ j u, sys_threads s !! j = Some u → g u = 0) → sum_list_with g (sys_threads s) = 0) as Hsum.
  { clear. intros g. induction (sys_threads s) as [|u ts IH]; intros Hg; [done|]. simpl.
    rewrite (Hg 0 u), IH; [done| |done]. intros j v. apply (Hg (S j)). }
  assert (readers (sys_lock s) = 0) as Hr0 by (rewrite Hr; apply Hsum; naive_solver).
  assert (i < length (sys_threads s)) as Hlt by by eapply lookup_lt_Some.
  pose proof (Hsl i t Hi) as Hcause. destruct (Hnone i t Hi) as [Hsg Heg].
  unfold system_step. rewrite Hi. cbn. unfold thread_step, sleeps_for_cause in *.
  destruct (th_phase t) as [|b|b] eqn:Hph; [done| |].
  - assert (waiting_writers (sys_lock s) = 0) as Hw0.
    { destruct Hwho as [Hbad|Hno]; [unfold is_write_wait in Hbad; by rewrite Hph in Hbad|].
      rewrite Hw. by apply Hsum. }
    destruct b; [|exfalso; destruct Hcause; by rewrite ?Hwn, ?Hw0 in *].
    unfold read_step, read_turn. rewrite decide_True by auto. do 2 eexists. split; [done|]. simpl.
    rewrite list_lookup_insert_eq by done. split_and!; [done|done|]. simpl. lia.
  - destruct b; [|exfalso; destruct Hcause; by rewrite ?Hwn, ?Hr0 in *].
    unfold write_step, write_turn. rewrite decide_True by auto. do 2 eexists. split; [done|]. simpl.
    rewrite list_lookup_insert_eq by done. split_and!; [done|done|]. simpl. lia.
Qed.

(** The first thread writes and leaves while the second waits to write. *)
Lemma no_lost_wakeup_witness :
  let s := after (start 2) [(0, Exclusive); (1, Exclusive); (0, DropExclusive)] in
  ∃ s' t', system_step 1 Look s = Some s' ∧ sys_threads s' !! 1 = Some t' ∧ th_phase t' = Running ∧
    shared_guards t' + exclusive_guards t' = 1.
Proof.
  intros s. apply (no_lost_wakeup 2 s 1 (mkThread 0 0 (WriteWait true))).
  - apply after_reachable.
  - intros [|[|j]] u Hu; [by injection Hu as <-|by injection Hu as <-|discriminate Hu].
  - reflexivity.
  - discriminate.
  - left. reflexivity.
Defined.

(** The deadlock: a reader waits for the writer that waits for it. *)
Definition stuck (b1 b2 : bool) : system :=
  mkSystem (mkState None 0 1 1) [mkThread 1 0 (ReadWait b1); mkThread 0 0 (WriteWait b2)].

Lemma stuck_step b1 b2 s : step (stuck b1 b2) s → ∃ b1' b2', s = stuck b1' b2'.
Proof.
  intros Hs. inversion Hs as [i e s1 s2 Hstep]. subst. unfold system_step in Hstep.
  destruct i as [|[|i]]; [| |done]; destruct b1, b2, e; vm_compute in Hstep; simplify_eq; unfold stuck; eauto.
Qed.

(** The lock is not re-entrant for readers.  A thread that holds a shared
    guard and asks for another while a writer waits is stuck for good, and so is
    the writer: no sequence of steps lets either of them run again. *)
Theorem nested_read_deadlocks :
  ∃ s, reachable 2 s ∧
    (∃ t, sys_threads s !! 0 = Some t ∧ shared_guards t = 1) ∧
    ∀ s' i t, rtc step s s' → sys_threads s' !! i = Some t → th_phase t ≠ Running.
Proof.
  exists (stuck false false). split_and!.
  - apply (after_reachable 2 [(0, Shared); (1, Exclusive); (0, Shared)]).
  - by eexists.
  - intros s' i t Hrtc Hi. assert (∃ b1 b2, s' = stuck b1 b2) as (b1 & b2 & ->).
    { remember (stuck false false) as s eqn:Hs. assert (∃ b1 b2, s = stuck b1 b2) as Hst by eauto. clear Hs Hi.
      induction Hrtc as [s|s s1 s2 Hstep Hrtc IH]; [done|]. apply IH.
      destruct Hst as (b1 & b2 & ->). by apply stuck_step in Hstep. }
    destruct i as [|[|i]]; [by injection Hi as <-|by injection Hi as <-|done].
Qed.

(** ** Ownership of a storage root

    The registry of [StorageWriterLockLease]: one record per canonical root, with
    the number of leases on it; the record holds the file lock that keeps other
    processes out. *)

Record LockRegistry := mkRegistry { rg_refcount : bytes_map nat; rg_flocked : gset bytes }.

Inductive AcquireError := StorageRootOwned.

(** [StorageWriterLockLease::acquire]; [busy] tells whether another process holds
    the file lock.  Errors of the file system are not modelled. *)
Definition lease_acquire (busy : bool) (key : bytes) (r : LockRegistry) : result LockRegistry AcquireError :=
  match rg_refcount r !! key with
  | Some n => Ok (mkRegistry (<[key := n + 1]> (rg_refcount r)) (rg_flocked r))
  | None =>
      if busy then Err StorageRootOwned
      else Ok (mkRegistry (<[key := 1]> (rg_refcount r)) ({[key]} ∪ rg_flocked r))
  end.

(** [Drop for StorageWriterLockLease] *)
Definition lease_drop (key : bytes) (r : LockRegistry) : LockRegistry :=
  match rg_refcount r !! key with
  | None => r
  | Some n =>
      let n := n - 1 in
      if decide (0 < n) then mkRegistry (<[key := n]> (rg_refcount r)) (rg_flocked r)
      else mkRegistry (delete key (rg_refcount r)) (rg_flocked r ∖ {[key]})
  end.

(** The live leases, by their keys, beside the registry. *)
Inductive lease_step : relation (list bytes * LockRegistry) :=
| step_acquire busy key live r r' :
    lease_acquire busy key r = Ok r' → lease_step (live, r) (key :: live, r')
| step_drop key live1 live2 r :
    lease_step (live1 ++ key :: live2, r) (live1 ++ live2, lease_drop key r).

Definition count (key : bytes) (live : list bytes) : nat := length (filter (λ k, k = key) live).

(** The registry counts the live leases and the file lock is held where there are
    any. *)
Definition registry_ok (live : list bytes) (r : LockRegistry) : Prop :=
  ∀ key, rg_refcount r !! key = (if decide (count key live = 0) then None else Some (count key live)) ∧
         (key ∈ rg_flocked r ↔ count key live ≠ 0).

Lemma count_cons k key live : count k (key :: live) = (if decide (key = k) then 1 else 0) + count k live.
Proof. unfold count. rewrite filter_cons. by case_decide. Qed.

Lemma count_app k l1 l2 : count k (l1 ++ l2) = count k l1 + count k l2.
Proof. unfold count. by rewrite filter_app, length_app. Qed.

Lemma registry_ok_acquire busy key live r r' :
  registry_ok live r → lease_acquire busy key r = Ok r' → registry_ok (key :: live) r'.
Proof.
  intros Hok Hacq k. destruct (Hok k) as [Hn Hf]. destruct (Hok key) as [Hkn _].
  unfold lease_acquire in Hacq. rewrite Hkn in Hacq. rewrite count_cons.
  destruct (decide (key = k)) as [->|Hne].
  - case_decide as Hz; [destruct busy; [done|]|]; simplify_eq; cbn [rg_refcount rg_flocked];
      rewrite lookup_insert_eq, decide_False by lia; (split; [f_equal; lia|set_solver by lia]).
  - case_decide; [destruct busy; [done|]|]; simplify_eq; cbn [rg_refcount rg_flocked];
      rewrite lookup_insert_ne by done; simpl; set_solver.
Qed.

Lemma registry_ok_drop key live1 live2 r :
  registry_ok (live1 ++ key :: live2) r → registry_ok (live1 ++ live2) (lease_drop key r).
Proof.
  intros Hok k. destruct (Hok k) as [Hn Hf]. destruct (Hok key) as [Hkn _]. unfold lease_drop. rewrite Hkn.
  rewrite !count_app, !count_cons in *. rewrite (decide_True (P := key = key)) by done.
  rewrite decide_False by lia. set (n := _ - 1). destruct (decide (key = k)) as [->|Hne].
  - destruct (decide (0 < n)); cbn [rg_refcount rg_flocked].
    + rewrite lookup_insert_eq, decide_False by lia. split; [f_equal; lia|]. rewrite Hf. lia.
    + rewrite lookup_delete_eq, decide_True by lia. split; [done|]. set_solver by lia.
  - destruct (decide (0 < n)); simpl; rewrite ?lookup_insert_ne, ?lookup_delete_ne by done; simpl in *; set_solver.
Qed.

(** A process owns a storage root exactly as long as it has a lease on it.
    After any sequence of acquisitions and drops the registry's count of a root
    is the number of its live leases, and the file lock is held if and only if
    there is one. *)
Theorem root_owned_while_leased live r key :
  rtc lease_step ([], mkRegistry ∅ ∅) (live, r) →
  (key ∈ rg_flocked r ↔ key ∈ live) ∧ default 0 (rg_refcount r !! key) = count key live.
Proof.
  intros Hrtc. assert (registry_ok live r) as Hok.
  { assert (registry_ok [] (mkRegistry ∅ ∅)) as H0 by (intros k; split; [done|set_solver]).
    remember ([], mkRegistry ∅ ∅) as s0 eqn:Hs0. remember (live, r) as s1 eqn:Hs1.
    assert (registry_ok s0.1 s0.2) as H by by subst. clear H0 Hs0. revert live r Hs1.
    induction Hrtc as [s|s s' s'' Hstep Hrtc IH]; intros live r ->; [done|].
    apply (IH); [|done]. destruct Hstep; simpl in *; eauto using registry_ok_acquire, registry_ok_drop. }
  destruct (Hok key) as [-> Hf]. split; [|by case_decide]. rewrite Hf. unfold count. split.
  - intros Hne. destruct (filter _ live) as [|k l] eqn:Hfl; [done|].
    assert (k ∈ filter (λ k, k = key) live) as Hk by (rewrite Hfl; by left).
    by apply list_elem_of_filter in Hk as [-> ?].
  - intros Hin Hz. apply nil_length_inv in Hz. assert (key ∈ filter (λ k, k = key) live) as Hk.
    { by apply list_elem_of_filter. } rewrite Hz in Hk. by apply elem_of_nil in Hk.
Qed.

Lemma root_owned_while_leased_witness :
  let r := mkRegistry {[ lit "r" := 1 ]} {[ lit "r" ]} in
  (lit "r" ∈ rg_flocked r ↔ lit "r" ∈ [lit "r"]) ∧ default 0 (rg_refcount r !! lit "r") = count (lit "r") [lit "r"].
Proof.
  intros r. apply (root_owned_while_leased [lit "r"] r).
  eapply rtc_l; [apply (step_acquire false (lit "r") [] _ (mkRegistry {[ lit "r" := 1 ]} ({[ lit "r" ]} ∪ ∅)));
    vm_compute; reflexivity|].
  unfold r. rewrite (right_id_L ∅ (∪)). apply rtc_refl.
Defined.
