(* ===== verification/Autosquash.v ===== *)
(** * The automatic squash: [layerstack/autosquash_engine/worker.rs]

    Publishing a layer puts a notification into a queue of one slot.  A worker
    thread, started on demand, takes it and evaluates whether to squash; it ends
    after some idle time.  Shutting down stops the worker and waits for it.
    Every method is split into its critical sections; callers and workers are
    threads that interleave.  What an evaluation does is left open: it ends, or
    it panics.  Telemetry and messages are left out. *)

From S2P Require Import Prelude.

(** ** Data *)

Inductive AutosquashTriggerReason := Startup | LayerCommitted.

Record Notification := mkNotification {
  context : nat;
  trigger_reason : AutosquashTriggerReason;
  enqueued_at : Z;
  coalesced_notifications : Z;
}.

(** [services] holds weak references to the two services. *)
Record QueueState := mkQueue {
  pending : option Notification;
  shutdown : bool;
  worker_running : bool;
  services : option (nat * nat);
}.

Definition set_pending (n : option Notification) (q : QueueState) : QueueState :=
  mkQueue n (shutdown q) (worker_running q) (services q).
Definition set_running (b : bool) (q : QueueState) : QueueState := mkQueue (pending q) (shutdown q) b (services q).

(** ** Critical sections *)

Definition configure (layerstack workspace_session : nat) (q : QueueState) : QueueState :=
  mkQueue (pending q) (shutdown q) (worker_running q) (Some (layerstack, workspace_session)).

(** The counter is a [usize]. *)
Definition coalesce (n : Notification) : Notification :=
  mkNotification (context n) (trigger_reason n) (enqueued_at n) ((coalesced_notifications n + 1) mod 2 ^ 64).

(** [notify] up to the start of a worker: whether one is to be started, and
    nothing after a shutdown. *)
Definition notify (ctx : nat) (reason : AutosquashTriggerReason) (now : Z) (q : QueueState) : option (bool * QueueState) :=
  if shutdown q then None
  else
    let n := match pending q with Some n => coalesce n | None => mkNotification ctx reason now 0 end in
    Some (negb (worker_running q) && bool_decide (is_Some (services q)), set_pending (Some n) q).

Inductive received := Taken (n : Notification) | Stopped | Waiting.

(** [receive] from the top of its loop. *)
Definition receive (q : QueueState) : received * QueueState :=
  match pending q with
  | Some n => (Taken n, set_pending None q)
  | None => if shutdown q then (Stopped, set_running false q) else (Waiting, q)
  end.

(** [receive] after its wait. *)
Definition receive_woken (timed_out : bool) (q : QueueState) : received * QueueState :=
  if timed_out && bool_decide (pending q = None) && negb (shutdown q) then (Stopped, set_running false q) else receive q.

Definition stop_without_services (q : QueueState) : QueueState := set_running false q.

(** [services]: both weak references are still [alive]. *)
Definition upgrade_services (alive : nat → bool) (q : QueueState) : option (nat * nat) :=
  match services q with
  | Some (layerstack, workspace_session) => if alive layerstack && alive workspace_session then services q else None
  | None => None
  end.

(** The first section of [shutdown_and_join]. *)
Definition begin_shutdown (q : QueueState) : QueueState := mkQueue None true (worker_running q) (services q).

Definition worker_threads (q : QueueState) : nat := if worker_running q then 1 else 0.

(** ** Threads *)

(** Where a worker is: before a receive, waiting (and whether it has been
    notified), about to look up the services, about to stop without them,
    evaluating, or ended. *)
Inductive worker :=
| WReceive
| WWait (woken : bool)
| WServices (n : Notification)
| WStop
| WEvaluate (n : Notification)
| WEnded (panicked : bool).

Inductive call :=
| Configure (layerstack workspace_session : nat)
| Notify (ctx : nat) (reason : AutosquashTriggerReason) (now : Z)
| ShutdownAndJoin.

(** Where a caller is: before its next call, joining the previous worker inside
    [notify], or in one of the steps of [shutdown_and_join]. *)
Inductive caller :=
| CRun (calls : list call)
| CJoin (k : nat) (calls : list call)
| CTake (calls : list call)
| CShutJoin (k : nat) (calls : list call)
| CReset (calls : list call)
| CCheck (calls : list call)
| CWait (woken : bool) (calls : list call).

(** [locked]: the caller that holds the mutex of the state, and that of the
    handle, while it joins a worker.  [handle]: the join handle that is kept. *)
Record AutosquashQueue := mkSystem {
  state : QueueState;
  locked : option nat;
  handle : option nat;
  workers : list worker;
  callers : list caller;
}.

Definition wake_worker (w : worker) : worker := match w with WWait _ => WWait true | w => w end.
Definition wake_caller (c : caller) : caller := match c with CWait _ calls => CWait true calls | c => c end.

(** [Condvar::notify_all] *)
Definition notify_all (s : AutosquashQueue) : AutosquashQueue :=
  mkSystem (state s) (locked s) (handle s) (wake_worker <$> workers s) (wake_caller <$> callers s).

Definition with_state (q : QueueState) (s : AutosquashQueue) : AutosquashQueue :=
  mkSystem q (locked s) (handle s) (workers s) (callers s).
Definition with_lock (l : option nat) (s : AutosquashQueue) : AutosquashQueue :=
  mkSystem (state s) l (handle s) (workers s) (callers s).
Definition with_handle (h : option nat) (s : AutosquashQueue) : AutosquashQueue :=
  mkSystem (state s) (locked s) h (workers s) (callers s).
Definition with_worker (k : nat) (w : worker) (s : AutosquashQueue) : AutosquashQueue :=
  mkSystem (state s) (locked s) (handle s) (<[k := w]> (workers s)) (callers s).
Definition with_caller (i : nat) (c : caller) (s : AutosquashQueue) : AutosquashQueue :=
  mkSystem (state s) (locked s) (handle s) (workers s) (<[i := c]> (callers s)).

(** [Condvar::notify_one]: one of the waiting threads, if there is one. *)
Inductive notify_one : AutosquashQueue → AutosquashQueue → Prop :=
| wake_a_worker s k : workers s !! k = Some (WWait false) → notify_one s (with_worker k (WWait true) s)
| wake_a_caller s i calls : callers s !! i = Some (CWait false calls) → notify_one s (with_caller i (CWait true calls) s)
| wake_nobody s :
    (∀ k, workers s !! k ≠ Some (WWait false)) → (∀ i calls, callers s !! i ≠ Some (CWait false calls)) → notify_one s s.

(** The start of a worker in [notify], which can fail. *)
Definition start_worker (started : bool) (s : AutosquashQueue) : AutosquashQueue :=
  if started then
    mkSystem (set_running true (state s)) None (Some (length (workers s))) (workers s ++ [WReceive]) (callers s)
  else mkSystem (set_running false (state s)) None (handle s) (workers s) (callers s).

(** A worker with the outcome of a receive. *)
Definition after_receive (k : nat) (r : received * QueueState) (s : AutosquashQueue) : AutosquashQueue :=
  match r.1 with
  | Taken n => with_worker k (WServices n) (with_state r.2 s)
  | Stopped => notify_all (with_worker k (WEnded false) (with_state r.2 s))
  | Waiting => with_worker k (WWait false) (with_state r.2 s)
  end.

(** What happened in a step, as far as it matters. *)
Inductive event := Progress | Spurious | TimedOut | StartFailed | Panicked | Unserved | Unconfigured.

(** [worker_loop] *)
Inductive worker_loop (k : nat) (s : AutosquashQueue) : event → AutosquashQueue → Prop :=
| wl_receive : workers s !! k = Some WReceive → locked s = None → worker_loop k s Progress (after_receive k (receive (state s)) s)
| wl_woken (woken timed_out : bool) :
    workers s !! k = Some (WWait woken) → locked s = None →
    worker_loop k s (if timed_out then TimedOut else if woken then Progress else Spurious)
      (after_receive k (receive_woken timed_out (state s)) s)
| wl_services n (alive : nat → bool) :
    workers s !! k = Some (WServices n) → locked s = None →
    worker_loop k s (if upgrade_services alive (state s) then Progress else Unserved)
      (with_worker k (if upgrade_services alive (state s) then WEvaluate n else WStop) s)
| wl_stop :
    workers s !! k = Some WStop → locked s = None →
    worker_loop k s Progress (notify_all (with_worker k (WEnded false) (with_state (stop_without_services (state s)) s)))
| wl_evaluate n (panicked : bool) :
    workers s !! k = Some (WEvaluate n) →
    worker_loop k s (if panicked then Panicked else Progress) (with_worker k (if panicked then WEnded true else WReceive) s).

(** [shutdown_and_join] *)
Inductive shutdown_and_join (i : nat) (s : AutosquashQueue) : event → AutosquashQueue → Prop :=
| sj_begin calls :
    callers s !! i = Some (CRun (ShutdownAndJoin :: calls)) → locked s = None →
    shutdown_and_join i s Progress (with_caller i (CTake calls) (notify_all (with_state (begin_shutdown (state s)) s)))
| sj_take calls :
    callers s !! i = Some (CTake calls) → locked s = None →
    shutdown_and_join i s Progress
      (with_handle None (with_caller i (match handle s with Some k => CShutJoin k calls | None => CCheck calls end) s))
| sj_join k (panicked : bool) calls :
    callers s !! i = Some (CShutJoin k calls) → workers s !! k = Some (WEnded panicked) →
    shutdown_and_join i s Progress (with_caller i (if panicked then CReset calls else CRun calls) s)
| sj_reset calls :
    callers s !! i = Some (CReset calls) → locked s = None →
    shutdown_and_join i s Progress (with_caller i (CRun calls) (notify_all (with_state (set_running false (state s)) s)))
| sj_check (waiting : option bool) calls :
    callers s !! i = Some (if waiting is Some woken then CWait woken calls else CCheck calls) → locked s = None →
    shutdown_and_join i s (if waiting is Some false then Spurious else Progress)
      (with_caller i (if worker_running (state s) then CWait false calls else CRun calls) s).

(** A step of a caller. *)
Inductive caller_step (i : nat) (s : AutosquashQueue) : event → AutosquashQueue → Prop :=
| cs_configure l w calls :
    callers s !! i = Some (CRun (Configure l w :: calls)) → locked s = None →
    caller_step i s Progress (with_caller i (CRun calls) (with_state (configure l w (state s)) s))
| cs_notify_off ctx reason now calls :
    callers s !! i = Some (CRun (Notify ctx reason now :: calls)) → locked s = None → notify ctx reason now (state s) = None →
    caller_step i s Progress (with_caller i (CRun calls) s)
| cs_notify ctx reason now calls q s' :
    callers s !! i = Some (CRun (Notify ctx reason now :: calls)) → locked s = None →
    notify ctx reason now (state s) = Some (false, q) → notify_one (with_state q s) s' →
    caller_step i s (if services (state s) then Progress else Unconfigured) (with_caller i (CRun calls) s')
| cs_notify_start ctx reason now calls q (started : bool) s' :
    callers s !! i = Some (CRun (Notify ctx reason now :: calls)) → locked s = None →
    notify ctx reason now (state s) = Some (true, q) → handle s = None →
    notify_one (start_worker started (with_state q s)) s' →
    caller_step i s (if started then Progress else StartFailed) (with_caller i (CRun calls) s')
| cs_notify_join ctx reason now calls q k :
    callers s !! i = Some (CRun (Notify ctx reason now :: calls)) → locked s = None →
    notify ctx reason now (state s) = Some (true, q) → handle s = Some k →
    caller_step i s Progress (with_caller i (CJoin k calls) (with_handle None (with_lock (Some i) (with_state q s))))
| cs_joined k panicked calls (started : bool) s' :
    callers s !! i = Some (CJoin k calls) → workers s !! k = Some (WEnded panicked) →
    notify_one (start_worker started s) s' →
    caller_step i s (if started then Progress else StartFailed) (with_caller i (CRun calls) s')
| cs_shutdown e s' : shutdown_and_join i s e s' → caller_step i s e s'.

Inductive step (s : AutosquashQueue) (e : event) (s' : AutosquashQueue) : Prop :=
| step_worker k : worker_loop k s e s' → step s e s'
| step_caller i : caller_step i s e s' → step s e s'.

Inductive steps : AutosquashQueue → list event → AutosquashQueue → Prop :=
| steps_nil s : steps s [] s
| steps_snoc s es s1 e s2 : steps s es s1 → step s1 e s2 → steps s (es ++ [e]) s2.

(** A queue that has just been made, and threads with calls to make. *)
Definition started (calls : list (list call)) : AutosquashQueue :=
  mkSystem (mkQueue None false false None) None None [] (CRun <$> calls).

(** ** Invariants *)

Definition ended (w : worker) : bool := match w with WEnded _ => true | _ => false end.

Definition stopped (w : worker) : bool := match w with WEnded false => true | _ => false end.

(** The newest worker is [w]. *)
Definition newest (s : AutosquashQueue) (w : worker) : Prop := ∃ k, S k = length (workers s) ∧ workers s !! k = Some w.

(** What holds of a caller in [shutdown_and_join]. *)
Definition caller_ok (s : AutosquashQueue) (c : caller) : Prop :=
  match c with
  | CRun _ | CJoin _ _ => True
  | CTake _ => shutdown (state s) = true
  | CShutJoin k _ => shutdown (state s) = true ∧ S k = length (workers s)
  | CReset _ => shutdown (state s) = true ∧ newest s (WEnded true)
  | CCheck _ | CWait _ _ => shutdown (state s) = true ∧ handle s = None
  end.

(** A caller that will clear the flag of a worker that panicked. *)
Definition holds (c : caller) : bool := match c with CShutJoin _ _ | CReset _ => true | _ => false end.

(** Only the newest worker is alive, and the flag tells: it is clear only when
    all workers have ended, and set only when the newest one has not ended by
    itself. *)
Record base (s : AutosquashQueue) : Prop := {
  in_live k w : workers s !! k = Some w → ended w = false → S k = length (workers s) ∧ worker_running (state s) = true;
  in_run : worker_running (state s) = true → ∃ w, newest s w ∧ w ≠ WEnded false;
  in_lock i : locked s = Some i → worker_running (state s) = false ∧ shutdown (state s) = false ∧
    ∃ k calls, callers s !! i = Some (CJoin k calls) ∧ k < length (workers s);
  in_join i k calls : callers s !! i = Some (CJoin k calls) → locked s = Some i;
  in_handle k : handle s = Some k → S k = length (workers s);
  in_callers i c : callers s !! i = Some c → caller_ok s c;
  in_held : worker_running (state s) = true → handle s = None → ∃ i c, callers s !! i = Some c ∧ holds c = true;
  in_pending : shutdown (state s) = true → pending (state s) = None;
}.

(** No thread waits for what has happened. *)
Record heard (s : AutosquashQueue) : Prop := {
  he_worker k : shutdown (state s) = true → workers s !! k ≠ Some (WWait false);
  he_caller i calls : callers s !! i = Some (CWait false calls) → worker_running (state s) = true;
}.

Definition inv (s : AutosquashQueue) : Prop := base s ∧ heard s.

Lemma ended_wake w : ended (wake_worker w) = ended w.
Proof. by destruct w. Qed.

Lemma newest_wake s w : newest s w → newest (notify_all s) (wake_worker w).
Proof. intros (k & Hk & Hw). exists k. unfold notify_all; cbn. by rewrite length_fmap, list_lookup_fmap, Hw. Qed.

(** After waking every thread all of them have heard. *)
Lemma inv_notify_all s : base s → inv (notify_all s).
Proof.
  intros [H1 H2 H3 H4 H5 H6 H7 H8]. split; [split|split]; unfold notify_all in *; cbn in *; try setoid_rewrite length_fmap; try done.
  - intros k w Hk He. apply list_lookup_fmap_Some in Hk as (w0 & -> & Hk). rewrite ended_wake in He. eauto.
  - intros Hr. destruct (H2 Hr) as (w & Hn & Hw). exists (wake_worker w). split; [by apply (newest_wake s)|by destruct w].
  - intros i Hl. destruct (H3 i Hl) as (? & ? & k & calls & Hi & ?). split_and!; [done..|]. exists k, calls.
    by rewrite list_lookup_fmap, Hi.
  - intros i k calls Hi. apply list_lookup_fmap_Some in Hi as (c & Hc & Hi). destruct c; simplify_eq/=. by eapply H4.
  - intros i c Hi. apply list_lookup_fmap_Some in Hi as (c0 & -> & Hi). apply H6 in Hi.
    destruct c0; cbn in *; rewrite ?length_fmap; try done. destruct Hi as [? Hn]. split; [done|]. by apply newest_wake in Hn.
  - intros Hr Hh. destruct (H7 Hr Hh) as (i & c & Hi & Hc). exists i, (wake_caller c). rewrite list_lookup_fmap, Hi. split; [done|by destruct c].
  - intros k _ Hk. apply list_lookup_fmap_Some in Hk as (w & Hw & _). by destruct w.
  - intros i calls Hi. apply list_lookup_fmap_Some in Hi as (c & Hc & _). by destruct c.
Qed.

(** The newest worker is the only one that can be alive. *)
Lemma newest_live s k w w' : base s → workers s !! k = Some w → ended w = false → newest s w' → w' = w.
Proof. intros Hb Hk He (k' & Hk' & Hw'). destruct (in_live _ Hb k w Hk He) as [Hl _]. assert (k' = k) as -> by lia. congruence. Qed.

Lemma newest_stopped s : base s → newest s (WEnded false) → worker_running (state s) = false.
Proof.
  intros Hb (k & Hk & Hw). destruct (worker_running (state s)) eqn:Hr; [|done].
  destruct (in_run _ Hb Hr) as (w & (k' & Hk' & Hw') & Hne). assert (k' = k) as -> by lia. congruence.
Qed.

(** A live worker moves on, or ends and tells so. *)
Lemma base_worker s k w w' q :
  base s → workers s !! k = Some w → ended w = false →
  shutdown q = shutdown (state s) → pending q = None ∨ pending q = pending (state s) →
  worker_running q = negb (stopped w') → base (with_worker k w' (with_state q s)).
Proof.
  intros Hb Hk He Hsh Hpe Hr. destruct (in_live _ Hb k w Hk He) as [Hlen Hrun].
  assert (k < length (workers s)) as Hlt by lia. split; unfold with_worker, with_state; cbn; rewrite ?length_insert.
  - intros k' w'' Hk' He'. apply list_lookup_insert_Some in Hk' as [(<- & <- & _)|(Hne & Hk')].
    + split; [done|]. rewrite Hr. by destruct w'.
    + apply (in_live _ Hb) in Hk' as [? _]; [lia|done].
  - intros Hq. exists w'. split; [exists k; cbn; rewrite length_insert, list_lookup_insert_eq; auto|]. rewrite Hr in Hq. by destruct w' as [| | | | |[]].
  - intros i Hl. apply (in_lock _ Hb) in Hl as [? _]. congruence.
  - apply Hb.
  - apply Hb.
  - intros i c Hc. apply (in_callers _ Hb) in Hc. destruct c; cbn in *; rewrite ?length_insert, ?Hsh; try done.
    destruct Hc as [_ Hn]. eapply newest_live in Hn; [|done..]. by subst.
  - intros _ Hh. by apply (in_held _ Hb).
  - rewrite Hsh. intros Hs. destruct Hpe as [?|Hpe]; [done|]. rewrite Hpe. by apply (in_pending _ Hb).
Qed.

Lemma inv_worker s k w w' q :
  inv s → workers s !! k = Some w → ended w = false →
  shutdown q = shutdown (state s) → pending q = None ∨ pending q = pending (state s) →
  worker_running q = true → w' ≠ WEnded false → (shutdown q = true → w' ≠ WWait false) →
  inv (with_worker k w' (with_state q s)).
Proof.
  intros [Hb Hh] Hk He Hsh Hpe Hr Hw' Hwait. split; [eapply base_worker; try done; by destruct w' as [| | | | |[]]|]. split; cbn.
  - intros k' Hs Hk'. apply list_lookup_insert_Some in Hk' as [(_ & -> & _)|(_ & Hk')]; [by apply Hwait|].
    rewrite Hsh in Hs. by apply (he_worker _ Hh) in Hk'.
  - intros. exact Hr.
Qed.

Lemma inv_moves s k w w' :
  inv s → workers s !! k = Some w → ended w = false → w' ≠ WEnded false → w' ≠ WWait false → inv (with_worker k w' s).
Proof.
  intros Hi Hk He Hw Hw'. destruct (in_live _ (proj1 Hi) k w Hk He) as [_ Hr].
  replace (with_worker k w' s) with (with_worker k w' (with_state (state s) s)) by by destruct s. eapply inv_worker; try done. by right.
Qed.

Lemma inv_ends s k w q :
  inv s → workers s !! k = Some w → ended w = false →
  shutdown q = shutdown (state s) → pending q = pending (state s) → worker_running q = false →
  inv (notify_all (with_worker k (WEnded false) (with_state q s))).
Proof. intros [Hb _] Hk He Hsh Hpe Hr. apply inv_notify_all. eapply base_worker; try done. by right. Qed.

Lemma inv_receive s k w :
  inv s → workers s !! k = Some w → ended w = false → inv (after_receive k (receive (state s)) s).
Proof.
  intros Hi Hk He. destruct (in_live _ (proj1 Hi) k w Hk He) as [_ Hr]. unfold after_receive, receive.
  destruct (pending (state s)) as [n|]; [|destruct (shutdown (state s)) eqn:Hs]; cbn [fst snd].
  - eapply inv_worker; try done. by left.
  - by eapply inv_ends.
  - eapply inv_worker; try done; [by right|]. by rewrite Hs.
Qed.

Lemma worker_loop_inv k s e s' : inv s → worker_loop k s e s' → inv s'.
Proof.
  intros Hi Hstep. destruct Hstep as [Hk _|woken timed_out Hk _|n alive Hk _|Hk _|n panicked Hk];
    destruct (in_live _ (proj1 Hi) k _ Hk eq_refl) as [_ Hr].
  - by eapply inv_receive.
  - unfold receive_woken. destruct (_ && _); [|by eapply inv_receive]. by eapply inv_ends.
  - eapply inv_moves; [done..| |]; by destruct (upgrade_services alive (state s)).
  - by eapply inv_ends.
  - eapply inv_moves; [done..| |]; by destruct panicked.
Qed.

(** *** Callers *)

Definition waits (c : caller) : bool := match c with CWait _ _ => true | _ => false end.

Lemma base_caller s i c c' :
  base s → callers s !! i = Some c → locked s ≠ Some i → (∀ k calls, c' ≠ CJoin k calls) → caller_ok s c' →
  (holds c = true → holds c' = true ∨ worker_running (state s) = false) → base (with_caller i c' s).
Proof.
  intros Hb Hc Hl Hj Hok Hh. pose proof (lookup_lt_Some _ _ _ Hc) as Hlt. split; try apply Hb; unfold with_caller; cbn.
  - intros j Hlj. destruct (in_lock _ Hb j Hlj) as (? & ? & k & calls & ? & ?). split_and!; [done..|]. exists k, calls.
    rewrite list_lookup_insert_ne by congruence. done.
  - intros j k calls Hk. apply list_lookup_insert_Some in Hk as [(_ & Heq & _)|(_ & Hk)]; [by destruct (Hj k calls)|by eapply in_join].
  - intros j d Hd. apply list_lookup_insert_Some in Hd as [(_ & <- & _)|(_ & Hd)]; [done|by apply (in_callers _ Hb) in Hd].
  - intros Hr Hha. destruct (in_held _ Hb Hr Hha) as (j & d & Hd & Hdh). destruct (decide (j = i)) as [->|Hne].
    + exists i, c'. rewrite list_lookup_insert_eq by done. split; [done|]. rewrite Hc in Hd. simplify_eq. destruct (Hh Hdh); congruence.
    + exists j, d. by rewrite list_lookup_insert_ne.
Qed.

Lemma heard_caller s i c' :
  heard s → (∀ calls, c' = CWait false calls → worker_running (state s) = true) → heard (with_caller i c' s).
Proof.
  intros [H1 H2] Hc. split; [done|]. cbn. intros j calls Hj. apply list_lookup_insert_Some in Hj as [(_ & Hj & _)|(_ & Hj)]; [by eapply Hc|by eapply H2].
Qed.

Lemma inv_caller s i c c' :
  inv s → callers s !! i = Some c → locked s ≠ Some i → (∀ k calls, c' ≠ CJoin k calls) → caller_ok s c' →
  (holds c = true → holds c' = true ∨ worker_running (state s) = false) →
  (∀ calls, c' = CWait false calls → worker_running (state s) = true) → inv (with_caller i c' s).
Proof. intros [Hb Hh] ??????. split; [by eapply base_caller|by apply heard_caller]. Qed.

Lemma inv_state s q :
  inv s → shutdown q = shutdown (state s) → worker_running q = worker_running (state s) →
  (shutdown q = true → pending q = None) → inv (with_state q s).
Proof.
  intros [[] []] Hs Hr Hp. rewrite Hs in Hp. split; [split|split]; cbn; rewrite ?Hs, ?Hr; try done.
  intros i c Hc%in_callers0. destruct c; cbn in *; by rewrite ?Hs.
Qed.

Lemma inv_notify_one s s' : inv s → notify_one s s' → inv s'.
Proof.
  intros Hinv Hn. revert Hinv. destruct Hn as [s0 k Hk|s0 i calls Hi|s0 _ _]; intros [Hb Hh]; [| |done].
  - by eapply inv_moves.
  - eapply inv_caller; [done|done| |done| |done|done].
    + intros Hl. destruct (in_lock _ Hb i Hl) as (_ & _ & ? & ? & ? & _). congruence.
    + by apply (in_callers _ Hb) in Hi.
Qed.

Lemma notify_one_caller s s' i c c' :
  notify_one s s' → callers s !! i = Some c → waits c = false → waits c' = false →
  notify_one (with_caller i c' s) (with_caller i c' s').
Proof.
  intros [s0 k Hk|s0 j calls Hj|s0 Hk Hj] Hc Hw Hw'.
  - exact (wake_a_worker (with_caller i c' s0) k Hk).
  - assert (i ≠ j) as Hne by (intros ->; rewrite Hc in Hj; by simplify_eq).
    replace (with_caller i c' (with_caller j (CWait true calls) s0)) with (with_caller j (CWait true calls) (with_caller i c' s0)).
    + apply wake_a_caller. cbn. by rewrite list_lookup_insert_ne.
    + unfold with_caller. cbn. f_equal. by apply list_insert_insert_ne.
  - apply wake_nobody; [done|]. cbn. intros j calls Hj'. apply list_lookup_insert_Some in Hj' as [(_ & -> & _)|(_ & ?)]; [done|by eapply Hj].
Qed.

Lemma no_waits s i c : base s → shutdown (state s) = false → callers s !! i = Some c → match c with CRun _ | CJoin _ _ => True | _ => False end.
Proof. intros Hb Hs Hc%(in_callers _ Hb). destruct c; cbn in Hc; rewrite ?Hs in Hc; try done; by destruct Hc. Qed.

(** A worker is started when none is alive. *)
Lemma inv_start s i c calls b :
  inv s → callers s !! i = Some c → worker_running (state s) = false → shutdown (state s) = false →
  locked s = None ∨ locked s = Some i → inv (with_caller i (CRun calls) (start_worker b s)).
Proof.
  intros [Hb Hh] Hc Hr Hs Hl. pose proof (lookup_lt_Some _ _ _ Hc) as Hlt.
  assert (∀ j d, <[i := CRun calls]> (callers s) !! j = Some d → ∃ calls', d = CRun calls') as Hrun.
  { intros j d [(_ & <- & _)|(Hne & Hd)]%list_lookup_insert_Some; [eauto|]. pose proof (no_waits s j d Hb Hs Hd) as Hd'.
    destruct d; try done; [eauto|]. apply (in_join _ Hb) in Hd. destruct Hl; congruence. }
  assert (∀ k w, workers s !! k = Some w → ended w = true) as Hend.
  { intros k w Hk. apply not_false_is_true. intros He. apply (in_live _ Hb) in Hk as [_ ?]; [congruence|done]. }
  assert (heard (with_caller i (CRun calls) (start_worker b s))) as Hheard.
  { split; cbn.
    - intros k. unfold start_worker. destruct b; cbn; congruence.
    - intros j calls' Hj. replace (callers (start_worker b s)) with (callers s) in Hj by by destruct b.
      by apply Hrun in Hj as [? ?]. }
  split; [|done]. unfold start_worker. destruct b; split; unfold with_caller; cbn; try done.
  - intros k w Hk He. apply lookup_snoc_Some in Hk as [[? Hk]|[-> <-]]; [by rewrite (Hend k w Hk) in He|]. rewrite length_app. cbn. split; [lia|done].
  - intros _. exists WReceive. split; [|done]. exists (length (workers s)). cbn. rewrite length_app. cbn. split; [lia|].
    by apply lookup_snoc_Some; right.
  - intros j k calls' Hj. by apply Hrun in Hj as [? ?].
  - intros k [= <-]. rewrite length_app. cbn. lia.
  - intros j d Hj. by apply Hrun in Hj as [? ->].
  - intros Hs'. congruence.
  - intros k w Hk He. by rewrite (Hend k w Hk) in He.
  - intros j k calls' Hj. by apply Hrun in Hj as [? ?].
  - apply Hb.
  - intros j d Hj. by apply Hrun in Hj as [? ->].
  - intros Hs'. congruence.
Qed.

Lemma base_begin_shutdown s : base s → locked s = None → base (with_state (begin_shutdown (state s)) s).
Proof.
  intros Hb Hl. split; cbn; try apply Hb.
  - intros i. congruence.
  - intros i c Hc%(in_callers _ Hb). destruct c; cbn in *; naive_solver.
  - done.
Qed.

Lemma base_reset s :
  base s → locked s = None → newest s (WEnded true) → base (with_state (set_running false (state s)) s).
Proof.
  intros Hb Hl Hn. split; cbn; try apply Hb; try done.
  - intros k w Hk He. eapply newest_live in Hn; [|done..]. by subst.
  - intros i. congruence.
Qed.

Lemma inv_take s i calls :
  inv s → callers s !! i = Some (CTake calls) → locked s = None →
  inv (with_handle None (with_caller i (match handle s with Some k => CShutJoin k calls | None => CCheck calls end) s)).
Proof.
  intros [Hb Hh] Hc Hl. pose proof (in_callers _ Hb _ _ Hc) as Hs. cbn in Hs. pose proof (lookup_lt_Some _ _ _ Hc) as Hlt.
  destruct (handle s) as [k|] eqn:Hha.
  - pose proof (in_handle _ Hb k Hha) as Hk. split; [|by destruct (heard_caller s i (CShutJoin k calls) Hh)]. split; cbn; try apply Hb; try done.
    + intros j. congruence.
    + intros j k' calls'' Hj. apply list_lookup_insert_Some in Hj as [(_ & ? & _)|(_ & Hj)]; [done|by eapply in_join].
    + intros j d Hj. apply list_lookup_insert_Some in Hj as [(_ & <- & _)|(_ & Hj)]; [done|]. apply (in_callers _ Hb) in Hj.
      destruct d; cbn in *; naive_solver.
    + intros _ _. exists i, (CShutJoin k calls). by rewrite list_lookup_insert_eq.
  - replace (with_handle None _) with (with_caller i (CCheck calls) s) by (unfold with_handle, with_caller; cbn; by rewrite Hha).
    eapply inv_caller; [done|done|congruence|done|done|done|done].
Qed.

Lemma shutdown_and_join_inv i s e s' : inv s → shutdown_and_join i s e s' → inv s'.
Proof.
  intros Hi Hstep. pose proof Hi as [Hb Hh]. destruct Hstep as [calls Hc Hl|calls Hc Hl|k panicked calls Hc Hk|calls Hc Hl|waiting calls Hc Hl].
  - eapply (inv_caller _ i (CRun (ShutdownAndJoin :: calls))); [by apply inv_notify_all, base_begin_shutdown| |cbn; congruence|done..]. cbn. by rewrite list_lookup_fmap, Hc.
  - by apply inv_take.
  - pose proof (in_callers _ Hb _ _ Hc) as [Hs Hlen]. assert (newest s (WEnded panicked)) as Hn by by exists k.
    assert (locked s ≠ Some i) by (intros (_ & ? & _)%(in_lock _ Hb); congruence).
    eapply inv_caller; [done|done|done|by destruct panicked|by destruct panicked| |by destruct panicked].
    intros _. destruct panicked; [by left|]. right. by apply newest_stopped.
  - pose proof (in_callers _ Hb _ _ Hc) as [Hs Hn].
    eapply (inv_caller _ i (CReset calls)); [by apply inv_notify_all, base_reset| |cbn; congruence|done|done|by right|done]. cbn. by rewrite list_lookup_fmap, Hc.
  - pose proof (in_callers _ Hb _ _ Hc) as Hok.
    assert (caller_ok s (CCheck calls)) as Hs by by destruct waiting.
    eapply inv_caller; [done|done|congruence| | |by destruct waiting|]; by destruct (worker_running (state s)).
Qed.

Lemma notify_some ctx reason now q b q' :
  notify ctx reason now q = Some (b, q') →
  shutdown q = false ∧ shutdown q' = false ∧ worker_running q' = worker_running q ∧ services q' = services q ∧
  is_Some (pending q') ∧ b = negb (worker_running q) && bool_decide (is_Some (services q)).
Proof. unfold notify. destruct (shutdown q) eqn:Hs; [done|]. intros [= <- <-]. cbn. eauto 10. Qed.

Lemma notify_starts ctx reason now q q' :
  notify ctx reason now q = Some (true, q') →
  shutdown q = false ∧ shutdown q' = false ∧ worker_running q' = worker_running q ∧ worker_running q = false.
Proof. intros (? & ? & ? & _ & _ & Hb)%notify_some. by destruct (worker_running q). Qed.

Lemma inv_pending s q : inv s → shutdown q = false → shutdown (state s) = false → worker_running q = worker_running (state s) → inv (with_state q s).
Proof. intros Hi Hq Hs Hr. apply inv_state; [done|congruence|done|congruence]. Qed.

Lemma inv_join s i c k calls :
  inv s → callers s !! i = Some c → locked s = None → handle s = Some k →
  worker_running (state s) = false → shutdown (state s) = false →
  inv (with_caller i (CJoin k calls) (with_handle None (with_lock (Some i) s))).
Proof.
  intros [Hb Hh] Hc Hl Hha Hr Hs. pose proof (lookup_lt_Some _ _ _ Hc) as Hlt. pose proof (in_handle _ Hb k Hha) as Hk.
  split; [|apply heard_caller; [split; apply Hh|done]]. split; cbn; try apply Hb; try done.
  - intros j [= <-]. split_and!; [done..|]. exists k, calls. rewrite list_lookup_insert_eq by done. split; [done|lia].
  - intros j k' calls' Hj. apply list_lookup_insert_Some in Hj as [(-> & _)|(_ & Hj)]; [done|]. apply (in_join _ Hb) in Hj. congruence.
  - intros j d Hj. apply list_lookup_insert_Some in Hj as [(_ & <- & _)|(_ & Hj)]; [done|].
    pose proof (no_waits s j d Hb Hs Hj). by destruct d.
  - congruence.
Qed.

Lemma caller_step_inv i s e s' : inv s → caller_step i s e s' → inv s'.
Proof.
  intros Hi Hstep. pose proof Hi as [Hb Hh].
  destruct Hstep as [l w calls Hc Hl|ctx reason now calls Hc Hl Hn|ctx reason now calls q s' Hc Hl Hn Ho
    |ctx reason now calls q b s' Hc Hl Hn Hha Ho|ctx reason now calls q k Hc Hl Hn Hha|k panicked calls b s' Hc Hk Ho|e s' Hsj].
  - eapply inv_caller; [|done|cbn; congruence|done..]. apply inv_state; [done..|]. cbn. apply (in_pending _ Hb).
  - eapply inv_caller; [done|done|congruence|done..].
  - apply notify_some in Hn as (Hs & Hs' & Hr & _). eapply inv_notify_one; [|by eapply notify_one_caller].
    eapply inv_caller; [by apply inv_pending|done|cbn; congruence|done..].
  - apply notify_starts in Hn as (Hs & Hs' & Hr & Hb').
    eapply inv_notify_one; [|eapply notify_one_caller; [done|by destruct b|done..]].
    eapply inv_start; [by apply inv_pending|done|cbn; congruence|done|by left].
  - apply notify_starts in Hn as (Hs & Hs' & Hr & Hb').
    eapply (inv_join (with_state q s)); [by apply inv_pending|done|done|done|cbn; congruence|done].
  - pose proof (in_join _ Hb _ _ _ Hc) as Hl. destruct (in_lock _ Hb i Hl) as (Hr & Hs & _).
    eapply inv_notify_one; [|eapply notify_one_caller; [done|by destruct b|done..]]. eapply inv_start; [done|done|done|done|by right].
  - by eapply shutdown_and_join_inv.
Qed.

Lemma started_inv calls : inv (started calls).
Proof.
  split; split; cbn; try done; intros; (repeat match goal with H : (_ <$> _) !! _ = Some _ |- _ => apply list_lookup_fmap_Some in H as (? & ? & _) end); subst; try done.
Qed.

Lemma step_inv s e s' : inv s → step s e s' → inv s'.
Proof. intros Hi [k Hk|i Hc]; [by eapply worker_loop_inv|by eapply caller_step_inv]. Qed.

Lemma steps_inv s es s' : inv s → steps s es s' → inv s'.
Proof. intros Hi Hs. induction Hs; [done|]. eapply step_inv; [|done]. auto. Qed.

(** ** After a shutdown *)

(** Nothing runs and nothing will. *)
Record quiet (s : AutosquashQueue) : Prop := {
  qu_inv : inv s;
  qu_shutdown : shutdown (state s) = true;
  qu_running : worker_running (state s) = false;
}.

Lemma quiet_ended s : quiet s → Forall (λ w, ended w = true) (workers s).
Proof.
  intros [[Hb _] _ Hr]. apply Forall_lookup. intros k w Hk. apply not_false_is_true. intros He.
  apply (in_live _ Hb) in Hk as [_ ?]; [congruence|done].
Qed.

Lemma shutdown_notify s ctx reason now : shutdown s = true → notify ctx reason now s = None.
Proof. unfold notify. by intros ->. Qed.

(** Of the steps of a caller after a shutdown, only those of [shutdown_and_join]
    and [configure] change anything. *)
Lemma shutdown_caller_step i s e s' :
  base s → shutdown (state s) = true → caller_step i s e s' →
  (∃ l w calls, callers s !! i = Some (CRun (Configure l w :: calls)) ∧ e = Progress ∧
     s' = with_caller i (CRun calls) (with_state (configure l w (state s)) s)) ∨
  (∃ ctx reason now calls, callers s !! i = Some (CRun (Notify ctx reason now :: calls)) ∧ e = Progress ∧ s' = with_caller i (CRun calls) s) ∨
  shutdown_and_join i s e s'.
Proof.
  intros Hb Hs Hstep. destruct Hstep as [l w calls Hc Hl|ctx reason now calls Hc Hl Hn|? ? ? ? ? ? ? ? Hn
    |? ? ? ? ? ? ? ? ? Hn|? ? ? ? ? ? ? ? Hn|? ? ? ? ? Hc|? ? ?]; [left; eauto 10|right; left; eauto 10| | | | |by right; right].
  1-3: rewrite shutdown_notify in Hn by done; done.
  apply (in_join _ Hb), (in_lock _ Hb) in Hc as (_ & ? & _). congruence.
Qed.

Lemma quiet_kept s e s' : quiet s → step s e s' → quiet s'.
Proof.
  intros Hq Hstep. pose proof Hq as [Hi Hs Hr]. pose proof (step_inv _ _ _ Hi Hstep) as Hi'.
  enough (shutdown (state s') = true ∧ worker_running (state s') = false) as [] by done.
  destruct Hstep as [k Hk|i Hc].
  - pose proof (proj1 (Forall_lookup _ _) (quiet_ended s Hq)) as He. destruct Hk as [Hk|? ? Hk|? ? Hk|Hk|? ? Hk]; by apply He in Hk.
  - destruct (shutdown_caller_step i s e s' (proj1 Hi) Hs Hc) as [(? & ? & ? & _ & _ & ->)|[(? & ? & ? & ? & _ & _ & ->)|Hsj]]; [done..|].
    by destruct Hsj.
Qed.

Lemma quiet_steps s es s' : quiet s → steps s es s' → quiet s'.
Proof. intros Hq Hs. induction Hs; [done|]. eapply quiet_kept; [|done]. auto. Qed.

Lemma shutdown_returns_quiet i s e s' calls :
  inv s → shutdown_and_join i s e s' → callers s' !! i = Some (CRun calls) → quiet s'.
Proof.
  intros Hi Hsj Hc'. pose proof (shutdown_and_join_inv _ _ _ _ Hi Hsj) as Hi'. pose proof Hi as [Hb _].
  enough (shutdown (state s') = true ∧ worker_running (state s') = false) as [] by done.
  destruct Hsj as [? Hc|? Hc|k panicked ? Hc Hk|? Hc|waiting ? Hc]; pose proof (lookup_lt_Some _ _ _ Hc) as Hlt;
    pose proof (in_callers _ Hb _ _ Hc) as Hok; unfold with_caller in Hc'; cbn in Hc';
    rewrite list_lookup_insert_eq in Hc' by (by rewrite ?length_fmap); simplify_eq/=.
  - by destruct (handle s).
  - destruct panicked; [done|]. destruct Hok as [Hs Hlen]. split; [done|]. apply newest_stopped; [done|by exists k].
  - split; [apply Hok|done].
  - destruct (worker_running (state s)) eqn:Hr; [done|]. split; [|done]. by destruct waiting; destruct Hok.
Qed.

(** ** Progress *)

(** A step that does not only end a wait nobody ended. *)
Definition useful (e : event) : bool := match e with Spurious | TimedOut => false | _ => true end.

Definition can_step (s : AutosquashQueue) : Prop := ∃ e s', step s e s' ∧ useful e = true.

Definition unheard (w : worker) : bool := match w with WWait false => true | _ => false end.
Definition uncalled (c : caller) : bool := match c with CWait false _ => true | _ => false end.

Lemma notify_one_total s : ∃ s', notify_one s s'.
Proof.
  destruct (list_find (λ w, unheard w = true) (workers s)) as [[k w]|] eqn:Hw.
  { apply list_find_Some in Hw as (Hk & Hw & _). destruct w as [|[]| | | |]; try done. eexists. by apply wake_a_worker. }
  destruct (list_find (λ c, uncalled c = true) (callers s)) as [[i c]|] eqn:Hc.
  { apply list_find_Some in Hc as (Hi & Hc & _). destruct c as [| | | | | |[]]; try done. eexists. by eapply wake_a_caller. }
  exists s. apply list_find_None in Hw, Hc. rewrite Forall_lookup in Hw. rewrite Forall_lookup in Hc. apply wake_nobody.
  - intros k Hk%Hw. done.
  - intros i calls Hi%Hc. done.
Qed.

Lemma live_worker_steps s k w :
  workers s !! k = Some w → ended w = false → w ≠ WWait false → locked s = None →
  ∃ e s', worker_loop k s e s' ∧ useful e = true.
Proof.
  intros Hk He Hw Hl. destruct w as [|[]|n| |n|]; try done.
  - exists Progress. eexists. split; [by apply wl_receive|done].
  - exists Progress. eexists. split; [by apply (wl_woken k s true false)|done].
  - eexists. eexists. split; [by apply (wl_services k s n (λ _, true))|by destruct (upgrade_services _ _)].
  - exists Progress. eexists. split; [by apply wl_stop|done].
  - exists Progress. eexists. split; [by apply (wl_evaluate k s n false)|done].
Qed.

Lemma live_steps s k w :
  workers s !! k = Some w → ended w = false → w ≠ WWait false → locked s = None → can_step s.
Proof. intros Hk He Hw Hl. destruct (live_worker_steps s k w) as (e & s' & ? & ?); [done..|]. exists e, s'. split; [by eapply step_worker|done]. Qed.

Lemma ended_or s k : k < length (workers s) → (∃ b, workers s !! k = Some (WEnded b)) ∨ (∃ w, workers s !! k = Some w ∧ ended w = false).
Proof. intros [w Hw]%lookup_lt_is_Some. destruct w; eauto. Qed.

Lemma locked_steps s i : base s → locked s = Some i → can_step s.
Proof.
  intros Hb Hl. destruct (in_lock _ Hb i Hl) as (Hr & _ & k & calls & Hc & Hk).
  destruct (ended_or s k Hk) as [[b Hw]|(w & Hw & He)]; [|by apply (in_live _ Hb) in Hw as [_ ?]; [congruence|]].
  destruct (notify_one_total (start_worker true s)) as [s' Hs'].
  exists Progress. eexists. split; [by eapply step_caller, (cs_joined i s k b calls true)|done].
Qed.

Lemma shutdown_unlocked s : base s → shutdown (state s) = true → locked s = None.
Proof. intros Hb Hs. destruct (locked s) as [i|] eqn:Hl; [|done]. apply (in_lock _ Hb) in Hl as (_ & ? & _). congruence. Qed.

Lemma holder_steps s i c : inv s → callers s !! i = Some c → holds c = true → can_step s.
Proof.
  intros [Hb Hh] Hc Hho. pose proof (in_callers _ Hb _ _ Hc) as Hok. destruct c as [| | |k calls|calls| |]; try done; destruct Hok as [Hs Hk];
    pose proof (shutdown_unlocked s Hb Hs) as Hl.
  - destruct (ended_or s k) as [[b Hw]|(w & Hw & He)]; [lia| |].
    + exists Progress. eexists. split; [by eapply step_caller, cs_shutdown, sj_join|done].
    + eapply live_steps; [done..| |done]. intros ->. by eapply he_worker.
  - exists Progress. eexists. split; [by eapply step_caller, cs_shutdown, sj_reset|done].
Qed.

Lemma run_steps s i c calls : callers s !! i = Some (CRun (c :: calls)) → locked s = None → can_step s.
Proof.
  intros Hc Hl. destruct c as [l w|ctx reason now|].
  - exists Progress. eexists. split; [by eapply step_caller, cs_configure|done].
  - destruct (notify ctx reason now (state s)) as [[[] q]|] eqn:Hn.
    + destruct (handle s) as [k|] eqn:Hh.
      * exists Progress. eexists. split; [by eapply step_caller, cs_notify_join|done].
      * destruct (notify_one_total (start_worker true (with_state q s))) as [s' Hs'].
        exists Progress. eexists. split; [by eapply step_caller, (cs_notify_start i s ctx reason now calls q true)|done].
    + destruct (notify_one_total (with_state q s)) as [s' Hs'].
      eexists. eexists. split; [by eapply step_caller, cs_notify|by destruct (services (state s))].
    + exists Progress. eexists. split; [by eapply step_caller, cs_notify_off|done].
  - exists Progress. eexists. split; [by eapply step_caller, cs_shutdown, sj_begin|done].
Qed.

Definition unfinished (c : caller) : bool := match c with CRun [] => false | _ => true end.

Lemma unfinished_steps s i c : inv s → callers s !! i = Some c → c ≠ CRun [] → can_step s.
Proof.
  intros Hi Hc Hne. pose proof Hi as [Hb Hh]. destruct (locked s) as [j|] eqn:Hl; [by eapply locked_steps|].
  destruct c as [[]|k calls|calls|k calls|calls|calls|[] calls]; [done|by eapply run_steps| | | | | | |].
  - apply (in_join _ Hb) in Hc. congruence.
  - exists Progress. eexists. split; [by eapply step_caller, cs_shutdown, sj_take|done].
  - by eapply holder_steps.
  - by eapply holder_steps.
  - exists Progress. eexists. split; [by eapply step_caller, cs_shutdown, (sj_check i s None)|done].
  - exists Progress. eexists. split; [by eapply step_caller, cs_shutdown, (sj_check i s (Some true))|done].
  - pose proof (he_caller _ Hh _ _ Hc) as Hr. destruct (in_callers _ Hb _ _ Hc) as [_ Hha].
    destruct (in_held _ Hb Hr Hha) as (j & c & Hj & Hho). by eapply holder_steps.
Qed.

(** How many steps that are not spurious are left after a shutdown; [m] exceeds
    the number of the callers, as many as one [notify_all] can wake. *)
Definition worker_weight (m : nat) (w : worker) : nat :=
  match w with
  | WEnded _ => 0
  | WReceive | WWait _ | WStop => m
  | WEvaluate _ => m + 1
  | WServices _ => m + 2
  end.

Definition caller_weight (m : nat) (c : caller) : nat :=
  match c with
  | CRun calls | CJoin _ calls => (2 * m + 3) * length calls
  | CTake calls => m + 2 + (2 * m + 3) * length calls
  | CShutJoin _ calls => m + 1 + (2 * m + 3) * length calls
  | CReset calls => m + (2 * m + 3) * length calls
  | CCheck calls => 2 + (2 * m + 3) * length calls
  | CWait woken calls => (if woken then 1 else 0) + (2 * m + 3) * length calls
  end.

Definition remaining (s : AutosquashQueue) : nat :=
  let m := S (length (callers s)) in
  sum_list_with (worker_weight m) (workers s) + sum_list_with (caller_weight m) (callers s).

Lemma sum_list_insert {A} (f : A → nat) (l : list A) i x y :
  l !! i = Some x → sum_list_with f (<[i := y]> l) + f x = sum_list_with f l + f y.
Proof. revert i. induction l as [|a l IH]; intros [|i] H; simplify_eq/=; [lia|]. specialize (IH i H). lia. Qed.

Lemma remaining_notify_all s : remaining (notify_all s) ≤ remaining s + length (callers s).
Proof.
  unfold remaining, notify_all. cbn. rewrite length_fmap. generalize (S (length (callers s))) as m. intros m.
  assert (sum_list_with (worker_weight m) (wake_worker <$> workers s) = sum_list_with (worker_weight m) (workers s)) as ->.
  { induction (workers s) as [|w ws IH]; cbn; [done|]. rewrite IH. by destruct w. }
  enough (sum_list_with (caller_weight m) (wake_caller <$> callers s) ≤ sum_list_with (caller_weight m) (callers s) + length (callers s)) by lia.
  induction (callers s) as [|c cs IH]; cbn; [done|]. destruct c; cbn in *; try lia; case_match; lia.
Qed.

Lemma remaining_state q s : remaining (with_state q s) = remaining s.
Proof. done. Qed.

Lemma remaining_handle h s : remaining (with_handle h s) = remaining s.
Proof. done. Qed.

Lemma remaining_worker s k w w' :
  workers s !! k = Some w →
  remaining (with_worker k w' s) + worker_weight (S (length (callers s))) w = remaining s + worker_weight (S (length (callers s))) w'.
Proof. intros Hk. unfold remaining. cbn. pose proof (sum_list_insert (worker_weight (S (length (callers s)))) _ _ _ w' Hk). lia. Qed.

Lemma remaining_caller s i c c' :
  callers s !! i = Some c →
  remaining (with_caller i c' s) + caller_weight (S (length (callers s))) c = remaining s + caller_weight (S (length (callers s))) c'.
Proof.
  intros Hi. unfold remaining. cbn. rewrite length_insert.
  pose proof (sum_list_insert (caller_weight (S (length (callers s)))) _ _ _ c' Hi). lia.
Qed.

(** Every step after a shutdown leaves fewer, if it is not spurious. *)
Definition decreases (s : AutosquashQueue) (e : event) (s' : AutosquashQueue) : Prop :=
  shutdown (state s') = true ∧ remaining s' + (if useful e then 1 else 0) ≤ remaining s.

Lemma worker_ends_decreases s k w q e :
  workers s !! k = Some w → ended w = false → shutdown q = true →
  decreases s e (notify_all (with_worker k (WEnded false) (with_state q s))).
Proof.
  intros Hk He Hq. split; [done|]. pose proof (remaining_notify_all (with_worker k (WEnded false) (with_state q s))) as Hn.
  pose proof (remaining_worker (with_state q s) k w (WEnded false) Hk) as Hw. rewrite remaining_state in Hw. cbn in Hn, Hw.
  destruct w; cbn in *; try done; case_match; lia.
Qed.

Lemma worker_decreases s k e s' : inv s → shutdown (state s) = true → worker_loop k s e s' → decreases s e s'.
Proof.
  intros [Hb _] Hs Hstep. pose proof (in_pending _ Hb Hs) as Hp.
  assert (receive (state s) = (Stopped, set_running false (state s))) as Hrec by (unfold receive; by rewrite Hp, Hs).
  destruct Hstep as [Hk Hl|woken timed_out Hk Hl|n alive Hk Hl|Hk Hl|n panicked Hk].
  - rewrite Hrec. by eapply worker_ends_decreases.
  - unfold receive_woken. rewrite Hs, andb_false_r, Hrec. by eapply worker_ends_decreases.
  - split; [done|]. pose proof (remaining_worker s k _ (if upgrade_services alive (state s) then WEvaluate n else WStop) Hk).
    destruct (upgrade_services alive (state s)); cbn in *; lia.
  - by eapply worker_ends_decreases.
  - split; [done|]. pose proof (remaining_worker s k _ (if panicked then WEnded true else WReceive) Hk). destruct panicked; cbn in *; lia.
Qed.

(** A caller that wakes every thread. *)
Lemma caller_wakes_decreases s i c c' q :
  callers s !! i = Some c → waits c = false → shutdown q = true →
  caller_weight (S (length (callers s))) c' + length (callers s) < caller_weight (S (length (callers s))) c →
  decreases s Progress (with_caller i c' (notify_all (with_state q s))).
Proof.
  intros Hc Hw Hq Hlt. split; [done|]. cbn [useful]. pose proof (remaining_notify_all (with_state q s)) as Hn.
  rewrite remaining_state in Hn. cbn [callers with_state] in Hn.
  assert (callers (notify_all (with_state q s)) !! i = Some c) as Hc' by (cbn; rewrite list_lookup_fmap, Hc; by destruct c).
  pose proof (remaining_caller _ i c c' Hc') as Hr. cbn [callers notify_all with_state] in Hr. rewrite length_fmap in Hr. lia.
Qed.

Lemma shutdown_and_join_decreases s i e s' :
  inv s → shutdown (state s) = true → shutdown_and_join i s e s' → decreases s e s'.
Proof.
  intros [Hb _] Hs Hstep. destruct Hstep as [calls Hc Hl|calls Hc Hl|k panicked calls Hc Hk|calls Hc Hl|waiting calls Hc Hl].
  - eapply caller_wakes_decreases; [done..|]. cbn [caller_weight length]. lia.
  - split; [done|]. rewrite remaining_handle. pose proof (remaining_caller s i _ (match handle s with Some k => CShutJoin k calls | None => CCheck calls end) Hc).
    destruct (handle s); cbn [caller_weight useful] in *; lia.
  - split; [done|]. pose proof (remaining_caller s i _ (if panicked then CReset calls else CRun calls) Hc).
    destruct panicked; cbn [caller_weight useful] in *; lia.
  - eapply caller_wakes_decreases; [done..|]. cbn [caller_weight]. lia.
  - split; [done|]. pose proof (remaining_caller s i _ (if worker_running (state s) then CWait false calls else CRun calls) Hc).
    destruct waiting as [[]|], (worker_running (state s)); cbn [caller_weight useful] in *; lia.
Qed.

Lemma step_decreases s e s' : inv s → shutdown (state s) = true → step s e s' → decreases s e s'.
Proof.
  intros Hi Hs [k Hk|i Hc]; [by eapply worker_decreases|].
  destruct (shutdown_caller_step i s e s' (proj1 Hi) Hs Hc) as [(l & w & calls & Hi' & -> & ->)|[(ctx & reason & now & calls & Hi' & -> & ->)|Hsj]].
  - split; [done|]. pose proof (remaining_caller (with_state (configure l w (state s)) s) i _ (CRun calls) Hi') as Hr.
    rewrite remaining_state in Hr. cbn [caller_weight length useful] in *. lia.
  - split; [done|]. pose proof (remaining_caller s i _ (CRun calls) Hi') as Hr. cbn [caller_weight length useful] in *. lia.
  - by eapply shutdown_and_join_decreases.
Qed.

Lemma steps_decrease s es s' :
  inv s → shutdown (state s) = true → steps s es s' →
  shutdown (state s') = true ∧ remaining s' + length (filter (λ e, useful e = true) es) ≤ remaining s.
Proof.
  intros Hi Hs Hsteps. induction Hsteps as [s|s es s1 e s2 Hsteps IH Hstep]; [cbn; split; [done|lia]|]. destruct (IH Hi Hs) as [Hs1 IH1].
  destruct (step_decreases s1 e s2 (steps_inv _ _ _ Hi Hsteps) Hs1 Hstep) as [Hs2 Hd]. split; [done|].
  rewrite filter_app, length_app, filter_cons. cbn. destruct (useful e) eqn:Hu; rewrite ?decide_True, ?decide_False by (done || by rewrite Hu); cbn; lia.
Qed.

(** ** Notifications *)

(** A step in which no thread fails to start or panics, and in which the
    services are there. *)
Definition served (e : event) : bool :=
  match e with StartFailed | Panicked | Unserved | Unconfigured => false | _ => true end.

Definition sound_worker (w : worker) : bool := match w with WStop | WEnded true => false | _ => true end.

Definition clean (s : AutosquashQueue) : Prop := Forall (λ w, sound_worker w = true) (workers s).

(** Someone will take what is pending. *)
Record alert (s : AutosquashQueue) : Prop := {
  al_clean : clean s;
  al_running : is_Some (pending (state s)) → locked s = None → worker_running (state s) = true;
  al_heard k : is_Some (pending (state s)) → workers s !! k ≠ Some (WWait false);
}.

Lemma alert_idle s : clean s → pending (state s) = None → alert s.
Proof. intros Hc Hp. split; [done|intros [? Hs]; congruence|intros k [? Hs]; congruence]. Qed.

Lemma clean_worker s k w : clean s → sound_worker w = true → clean (with_worker k w s).
Proof. intros Hc Hw. by apply Forall_insert. Qed.

Lemma clean_wake s : clean s → clean (notify_all s).
Proof. intros Hc. apply Forall_fmap. eapply Forall_impl; [exact Hc|]. by intros [| | | | |[]]. Qed.

Lemma alert_receive s k w : alert s → workers s !! k = Some w → alert (after_receive k (receive (state s)) s).
Proof.
  intros [Hc _ _] Hk. unfold receive, after_receive. destruct (pending (state s)) as [n|] eqn:Hp; [|destruct (shutdown (state s))]; cbn [fst snd].
  - by apply alert_idle; [apply clean_worker|].
  - by apply alert_idle; [apply clean_wake, clean_worker|].
  - by apply alert_idle; [apply clean_worker|].
Qed.

Lemma alert_moves s k w' : alert s → sound_worker w' = true → w' ≠ WWait false → alert (with_worker k w' s).
Proof.
  intros [Hc Hr Hh] Hw Hne. split; [by apply clean_worker|done|]. cbn. intros k' Hp Hk'.
  apply list_lookup_insert_Some in Hk' as [(_ & ? & _)|(_ & Hk')]; [done|by eapply Hh].
Qed.

Lemma worker_alert s k e s' : alert s → worker_loop k s e s' → served e = true → alert s'.
Proof.
  intros Ha Hstep He. pose proof (al_clean _ Ha) as Hc. destruct Hstep as [Hk Hl|woken timed_out Hk Hl|n alive Hk Hl|Hk Hl|n [] Hk]; try done.
  - by eapply alert_receive.
  - unfold receive_woken. destruct (_ && _) eqn:Hb; [|by eapply alert_receive].
    apply andb_true_iff in Hb as [[_ Hp%bool_decide_eq_true]%andb_true_iff _]. by apply alert_idle; [apply clean_wake, clean_worker|].
  - destruct (upgrade_services alive (state s)); [by apply alert_moves|done].
  - by eapply Forall_lookup_1 in Hk; [|exact Hc].
  - by apply alert_moves.
Qed.

(** [notify_one] reaches the worker that waits. *)
Lemma alert_notified s s' :
  inv s → shutdown (state s) = false → worker_running (state s) = true → clean s → notify_one s s' → alert s'.
Proof.
  intros Hi Hs Hr Hc Hn. revert Hi Hs Hr Hc. destruct Hn as [s k Hk|s i calls Hi|s Hk Hi]; intros [Hb Hh] Hs Hr Hc.
  - split; [by apply clean_worker|done|]. cbn. intros k' _ Hk'. apply list_lookup_insert_Some in Hk' as [(_ & ? & _)|(Hne & Hk')]; [done|].
    apply (in_live _ Hb) in Hk as [? _]; [|done]. apply (in_live _ Hb) in Hk' as [? _]; [lia|done].
  - apply (in_callers _ Hb) in Hi as [? _]. congruence.
  - by split.
Qed.

Lemma clean_start s : clean s → clean (start_worker true s).
Proof. intros Hc. unfold clean, start_worker. cbn. apply Forall_app. by repeat constructor. Qed.

Lemma alert_caller s i c : alert s → alert (with_caller i c s).
Proof. by intros []. Qed.

Lemma shutdown_and_join_alert s i e s' : inv s → alert s → shutdown_and_join i s e s' → alert s'.
Proof.
  intros [Hb _] Ha Hstep. pose proof (al_clean _ Ha) as Hc. destruct Hstep as [| | |calls Hi|].
  - by apply alert_idle; [apply clean_wake|].
  - destruct Ha as [? ? ?]. by split.
  - by apply alert_caller.
  - apply (in_callers _ Hb) in Hi as [Hs _]. apply alert_idle; [by apply clean_wake|]. cbn. by apply (in_pending _ Hb).
  - by apply alert_caller.
Qed.

Lemma caller_alert s i e s' : inv s → alert s → caller_step i s e s' → served e = true → alert s'.
Proof.
  intros Hi Ha Hstep He. pose proof Hi as [Hb Hh]. pose proof (al_clean _ Ha) as Hc.
  destruct Hstep as [l w calls Hl|ctx reason now calls|ctx reason now calls q s' Hr Hl Hn Ho
    |ctx reason now calls q [] s' Hr Hl Hn Hha Ho|ctx reason now calls q k Hr Hl Hn Hha|k panicked calls [] s' Hr Hk Ho|e s' Hsj]; try done.
  - destruct Ha as [? ? ?]. by split.
  - by apply alert_caller.
  - apply notify_some in Hn as (Hs & Hs' & Hrq & _ & _ & Hb'). apply alert_caller. destruct (services (state s)) eqn:Hse; [|done].
    assert (worker_running (state s) = true) as Hrun by (destruct (worker_running (state s)); [done|by cbn in Hb']).
    eapply (alert_notified (with_state q s)); [by apply inv_pending|done|cbn; congruence|done|done].
  - apply notify_starts in Hn as (Hs & Hs' & Hrq & Hb').
    eapply (alert_notified (with_caller i (CRun calls) (start_worker true (with_state q s)))); [|done|done|by apply clean_start|by eapply notify_one_caller].
    eapply inv_start; [by apply inv_pending|done|cbn; congruence|done|by left].
  - apply notify_starts in Hn as (Hs & Hs' & Hrq & Hb').
    split; [done|done|]. cbn. intros k' _ Hk'. apply (in_live _ Hb) in Hk' as [_ ?]; [congruence|done].
  - pose proof (in_join _ Hb _ _ _ Hr) as Hl. destruct (in_lock _ Hb i Hl) as (Hrun & Hs & _).
    eapply (alert_notified (with_caller i (CRun calls) (start_worker true s))); [|done|done|by apply clean_start|by eapply notify_one_caller].
    eapply inv_start; [done|done|done|done|by right].
  - by eapply shutdown_and_join_alert.
Qed.

Lemma steps_alert s es s' : inv s → alert s → steps s es s' → Forall (λ e, served e = true) es → alert s'.
Proof.
  intros Hi Ha Hsteps. induction Hsteps as [s|s es s1 e s2 Hsteps IH Hstep]; [done|]. rewrite Forall_app, Forall_singleton. intros [Hes He].
  specialize (IH Hi Ha Hes). apply steps_inv in Hsteps; [|done]. destruct Hstep; [by eapply worker_alert|by eapply caller_alert].
Qed.

Definition rank (w : worker) : nat :=
  match w with WServices _ => 3 | WEvaluate _ => 2 | WReceive | WWait _ => 1 | WStop | WEnded _ => 0 end.

(** The steps of the worker that is to take [n]. *)
Lemma worker_approaches s k w e s' n :
  workers s !! k = Some w → 0 < rank w → pending (state s) = Some n → worker_loop k s e s' → served e = true →
  (workers s' !! k = Some (WServices n) ∧ pending (state s') = None) ∨
  (pending (state s') = Some n ∧ ∃ w', workers s' !! k = Some w' ∧ 0 < rank w' < rank w).
Proof.
  intros Hk Hw Hp Hstep He. pose proof (lookup_lt_Some _ _ _ Hk) as Hlt.
  assert (after_receive k (receive (state s)) s = with_worker k (WServices n) (with_state (set_pending None (state s)) s)) as Hrec.
  { unfold after_receive, receive. by rewrite Hp. }
  destruct Hstep as [Hk' Hl|woken timed_out Hk' Hl|n' alive Hk' Hl|Hk' Hl|n' [] Hk']; try done; rewrite Hk in Hk'; simplify_eq.
  - left. rewrite Hrec. cbn. by rewrite list_lookup_insert_eq.
  - left. unfold receive_woken. rewrite (bool_decide_eq_false_2 (pending (state s) = None)) by congruence. rewrite andb_false_r. cbn [andb].
    rewrite Hrec. cbn. by rewrite list_lookup_insert_eq.
  - right. destruct (upgrade_services alive (state s)); [|done]. split; [done|]. eexists. cbn. rewrite list_lookup_insert_eq by done. split; [done|cbn; lia].
  - cbn in Hw. lia.
  - right. split; [done|]. eexists. cbn. rewrite list_lookup_insert_eq by done. split; [done|cbn; lia].
Qed.

(** Those of the callers leave the worker where it is. *)
Lemma caller_keeps s i k w e s' n :
  base s → workers s !! k = Some w → ended w = false → w ≠ WWait false → (∀ k', workers s !! k' ≠ Some (WWait false)) →
  pending (state s) = Some n → caller_step i s e s' →
  shutdown (state s') = true ∨
  (workers s' !! k = Some w ∧ ∃ n', pending (state s') = Some n' ∧ context n' = context n ∧ trigger_reason n' = trigger_reason n).
Proof.
  intros Hb Hk He Hw Hun Hp Hstep. destruct (in_live _ Hb k w Hk He) as [Hlen Hr].
  destruct (shutdown (state s)) eqn:Hs; [by rewrite (in_pending _ Hb Hs) in Hp|].
  destruct Hstep as [l v calls Hc|ctx reason now calls Hc|ctx reason now calls q s' Hc Hl Hn Ho
    |ctx reason now calls q b s' Hc Hl Hn|ctx reason now calls q k' Hc Hl Hn|k' panicked calls b s' Hc|e s' Hsj].
  - right. split; [done|by exists n].
  - right. split; [done|by exists n].
  - right. unfold notify in Hn. rewrite Hs, Hp in Hn. injection Hn as _ <-. inversion Ho as [? k' Hk'|? j calls' Hj|]; subst; [by eapply Hun in Hk'| |];
      (split; [done|]); eexists; (split; [done|done]).
  - apply notify_starts in Hn as (_ & _ & _ & ?). congruence.
  - apply notify_starts in Hn as (_ & _ & _ & ?). congruence.
  - apply (in_join _ Hb), (in_lock _ Hb) in Hc as [? _]. congruence.
  - left. destruct Hsj as [? Hc|? Hc|? ? ? Hc|? Hc|waiting ? Hc]; [done|apply (in_callers _ Hb) in Hc as ?; congruence| | |];
      apply (in_callers _ Hb) in Hc as Hok; (destruct waiting || idtac); by destruct Hok.
Qed.

Lemma alert_ranked s n :
  inv s → alert s → pending (state s) = Some n → locked s = None →
  ∃ k w, workers s !! k = Some w ∧ 0 < rank w ∧ ended w = false ∧ w ≠ WWait false.
Proof.
  intros [Hb Hh] Ha Hp Hl. assert (is_Some (pending (state s))) as Hs by eauto. pose proof (al_running _ Ha Hs Hl) as Hr.
  destruct (in_run _ Hb Hr) as (w & (k & Hlen & Hk) & Hne). exists k, w. pose proof (al_heard _ Ha k Hs) as Hun.
  pose proof (Forall_lookup_1 _ _ _ _ (al_clean _ Ha) Hk) as Hso. split; [done|]. destruct w as [|[]| | | |[]]; cbn in *; try done; split_and!; (lia || done).
Qed.

(** ** After a panic *)

(** The newest worker has panicked, and the flag says that it runs. *)
Record stuck (s : AutosquashQueue) : Prop := {
  st_inv : inv s;
  st_running : worker_running (state s) = true;
  st_newest : newest s (WEnded true);
}.

Lemma stuck_ended s k w : stuck s → workers s !! k = Some w → ended w = true.
Proof.
  intros [[Hb _] _ Hn] Hk. apply not_false_is_true. intros He. eapply newest_live in Hn; [|done..]. by subst.
Qed.

Lemma stuck_kept s e s' :
  stuck s → step s e s' → shutdown (state s') = false →
  stuck s' ∧ workers s' = workers s ∧ (is_Some (pending (state s)) → is_Some (pending (state s'))).
Proof.
  intros Hst Hstep Hs'. pose proof Hst as [Hi Hr Hn]. pose proof (step_inv _ _ _ Hi Hstep) as Hi'. pose proof Hi as [Hb _].
  assert (shutdown (state s) = false) as Hs.
  { destruct (shutdown (state s)) eqn:Hs; [|done]. destruct (step_decreases s e s' Hi Hs Hstep). congruence. }
  enough (workers s' = workers s ∧ worker_running (state s') = true ∧ (is_Some (pending (state s)) → is_Some (pending (state s')))) as (Hw & ? & ?).
  { split; [|done]. split; [done|done|]. unfold newest in *. by rewrite Hw. }
  assert (shutdown (state s') ≠ true) as Hs1 by congruence. clear Hi' Hs'. revert Hs1.
  destruct Hstep as [k Hk|i [l w calls Hc|ctx reason now calls Hc|ctx reason now calls q s1 Hc Hl Hno Ho
    |ctx reason now calls q b s1 Hc Hl Hno|ctx reason now calls q k Hc Hl Hno|k panicked calls b s1 Hc|e1 s1 Hsj]]; intros Hs'; try done.
  - destruct Hk as [Hk|? ? Hk|? ? Hk|Hk|? ? Hk]; by eapply stuck_ended in Hk.
  - apply notify_some in Hno as (_ & _ & Hrq & _ & Hp & _). inversion Ho as [? k Hk| |]; subst; [by eapply (stuck_ended s) in Hk| |]; cbn; rewrite Hrq; done.
  - apply notify_starts in Hno as (_ & _ & _ & ?). congruence.
  - apply notify_starts in Hno as (_ & _ & _ & ?). congruence.
  - apply (in_join _ Hb), (in_lock _ Hb) in Hc as [? _]. congruence.
  - destruct Hsj as [? Hc|? Hc|? ? ? Hc|? Hc|waiting ? Hc]; [by destruct Hs'|apply (in_callers _ Hb) in Hc as ?; congruence| | |];
      apply (in_callers _ Hb) in Hc as Hok; (destruct waiting || idtac); cbn in Hok; destruct Hok; congruence.
Qed.

Lemma stuck_steps s es s' :
  stuck s → steps s es s' → shutdown (state s') = false →
  stuck s' ∧ workers s' = workers s ∧ (is_Some (pending (state s)) → is_Some (pending (state s'))).
Proof.
  intros Hst Hsteps. induction Hsteps as [s|s es s1 e s2 Hsteps IH Hstep]; [done|]. intros Hs2. pose proof (steps_inv _ _ _ (st_inv _ Hst) Hsteps) as Hi1.
  assert (shutdown (state s1) = false) as Hs1.
  { destruct (shutdown (state s1)) eqn:Hs1; [|done]. destruct (step_decreases s1 e s2 Hi1 Hs1 Hstep). congruence. }
  destruct (IH Hst Hs1) as (Hst1 & Hw1 & Hp1). destruct (stuck_kept s1 e s2 Hst1 Hstep Hs2) as (Hst2 & Hw2 & Hp2).
  split; [done|]. split; [congruence|auto].
Qed.

Lemma panic_stuck s k s' : inv s → worker_loop k s Panicked s' → stuck s'.
Proof.
  intros Hi Hstep. pose proof (worker_loop_inv _ _ _ _ Hi Hstep) as Hi'. inversion Hstep as [|? timed_out| | |n panicked Hk He]; subst.
  all: try by repeat match goal with b : bool |- _ => destruct b | H : context [upgrade_services ?a ?q] |- _ => destruct (upgrade_services a q) end.
  destruct panicked; [|done]. destruct (in_live _ (proj1 Hi) k _ Hk eq_refl) as [Hlen Hr]. split; [done|done|].
  exists k. cbn. rewrite length_insert, list_lookup_insert_eq by lia. done.
Qed.

(** ** Theorems *)

(** A first caller configures the queue and notifies it twice, a second one shuts
    it down. *)
Definition demo : AutosquashQueue := started [[Configure 0 0; Notify 1 Startup 10; Notify 2 LayerCommitted 11]; [ShutdownAndJoin]].

(** After the first notification has started a worker. *)
Definition demo_notified : AutosquashQueue :=
  mkSystem (mkQueue (Some (mkNotification 1 Startup 10 0)) false true (Some (0, 0))) None (Some 0) [WReceive]
    [CRun [Notify 2 LayerCommitted 11]; CRun [ShutdownAndJoin]].

(** After the shutdown has begun and the worker has stopped. *)
Definition demo_joining : AutosquashQueue :=
  mkSystem (mkQueue None true false (Some (0, 0))) None None [WEnded false] [CRun [Notify 2 LayerCommitted 11]; CShutJoin 0 []].

(** Before a worker panics. *)
Definition demo_evaluating : AutosquashQueue :=
  mkSystem (mkQueue None false true (Some (0, 0))) None (Some 0) [WEvaluate (mkNotification 1 Startup 10 0)]
    [CRun [Notify 2 LayerCommitted 11]; CRun [ShutdownAndJoin]].

(** After a panic and a second notification. *)
Definition demo_stuck : AutosquashQueue :=
  mkSystem (mkQueue (Some (mkNotification 2 LayerCommitted 11 0)) false true (Some (0, 0))) None (Some 0) [WEnded true]
    [CRun []; CRun [ShutdownAndJoin]].

Lemma nobody_waits s : Forall (λ w, unheard w = false) (workers s) → Forall (λ c, uncalled c = false) (callers s) → notify_one s s.
Proof.
  intros Hw Hc. rewrite Forall_lookup in Hw. rewrite Forall_lookup in Hc. apply wake_nobody.
  - by intros k Hk%Hw.
  - by intros i calls Hi%Hc.
Qed.

Lemma demo_notifies : steps demo [Progress; Progress] demo_notified.
Proof.
  eapply (steps_snoc demo [Progress]).
  - eapply (steps_snoc demo []); [constructor|]. by eapply (step_caller _ _ _ 0), cs_configure.
  - eapply (step_caller _ _ _ 0), (cs_notify_start 0 _ 1 Startup 10 _ _ true (with_caller 0 (CRun [Notify 1 Startup 10; Notify 2 LayerCommitted 11]) demo_notified)); [done|done|done|done|]. apply nobody_waits; by repeat constructor.
Qed.

Lemma demo_shuts_down : steps demo [Progress; Progress; Progress; Progress; Progress] demo_joining.
Proof.
  eapply (steps_snoc demo [_; _; _; _]); [eapply (steps_snoc demo [_; _; _]); [eapply (steps_snoc demo [_; _]); [exact demo_notifies|]|]|].
  - by eapply (step_caller _ _ _ 1), cs_shutdown, sj_begin.
  - by eapply (step_worker _ _ _ 0), wl_receive.
  - by refine (step_caller _ _ _ 1 (cs_shutdown _ _ _ _ (sj_take 1 _ [] _ _))).
Qed.

Lemma demo_evaluates : steps demo [Progress; Progress; Progress; Progress] demo_evaluating.
Proof.
  eapply (steps_snoc demo [_; _; _]); [eapply (steps_snoc demo [_; _]); [exact demo_notifies|]|].
  - by eapply (step_worker _ _ _ 0), wl_receive.
  - by refine (step_worker _ _ _ 0 (wl_services 0 _ (mkNotification 1 Startup 10 0) (λ _, true) _ _)).
Qed.

(** C11: [shutdown_and_join] is final. When a caller returns from it, in any
    interleaving with other callers and with the worker, every worker thread has
    ended, nothing is pending and the queue reports no worker; and this stays so
    whatever the callers do afterwards: no later [notify] starts a worker. *)
Theorem shutdown_and_join_is_final calls es s i e s1 rest es' s2 :
  steps (started calls) es s → shutdown_and_join i s e s1 → callers s1 !! i = Some (CRun rest) → steps s1 es' s2 →
  Forall (λ w, ended w = true) (workers s2) ∧ pending (state s2) = None ∧ worker_threads (state s2) = 0.
Proof.
  intros Hs Hsj Hc Hs'. pose proof (steps_inv _ _ _ (started_inv calls) Hs) as Hi.
  pose proof (quiet_steps _ _ _ (shutdown_returns_quiet _ _ _ _ _ Hi Hsj Hc) Hs') as Hq. split; [by apply quiet_ended|].
  destruct Hq as [[Hb _] Hsh Hr]. split; [by apply (in_pending _ Hb)|]. unfold worker_threads. by rewrite Hr.
Qed.

Lemma shutdown_and_join_is_final_witness :
  Forall (λ w, ended w = true) [WEnded false] ∧ @None Notification = None ∧
  worker_threads (state (with_caller 0 (CRun []) (with_caller 1 (CRun []) demo_joining))) = 0.
Proof.
  apply (shutdown_and_join_is_final _ _ demo_joining 1 Progress (with_caller 1 (CRun []) demo_joining) [] [Progress]
    (with_caller 0 (CRun []) (with_caller 1 (CRun []) demo_joining)) demo_shuts_down).
  - by refine (sj_join 1 demo_joining 0 false [] _ _).
  - done.
  - eapply (steps_snoc _ []); [constructor|]. by eapply (step_caller _ _ _ 0), (cs_notify_off 0 _ 2 LayerCommitted 11 []).
Defined.

(** C12: Shutting down completes. From any reachable state after a shutdown has
    begun there is a bound on the number of steps that are not spurious wake-ups
    or time-outs, over all interleavings, and as long as a caller has not
    returned from all its calls such a step is possible. So every caller of
    [shutdown_and_join] returns, also when the worker panics. *)
Theorem shutdown_completes calls es s :
  steps (started calls) es s → shutdown (state s) = true →
  ∃ bound, ∀ es' s', steps s es' s' →
    length (filter (λ e, useful e = true) es') ≤ bound ∧ (can_step s' ∨ ∀ i c, callers s' !! i = Some c → c = CRun []).
Proof.
  intros Hs Hsh. pose proof (steps_inv _ _ _ (started_inv calls) Hs) as Hi. exists (remaining s). intros es' s' Hs'.
  destruct (steps_decrease s es' s' Hi Hsh Hs') as [_ Hd]. split; [lia|]. pose proof (steps_inv _ _ _ Hi Hs') as Hi'.
  destruct (list_find (λ c, unfinished c = true) (callers s')) as [[i c]|] eqn:Hf.
  - left. apply list_find_Some in Hf as (Hc & Hne & _). eapply unfinished_steps; [done..|]. by intros ->.
  - right. intros i c Hc. apply list_find_None in Hf. eapply Forall_lookup_1 in Hf; [|done]. by destruct c as [[]| | | | | |].
Qed.

Lemma shutdown_completes_witness :
  ∃ bound, ∀ es' s', steps demo_joining es' s' →
    length (filter (λ e, useful e = true) es') ≤ bound ∧ (can_step s' ∨ ∀ i c, callers s' !! i = Some c → c = CRun []).
Proof. by apply (shutdown_completes _ _ demo_joining demo_shuts_down). Defined.

(** C10: No notification is lost. On a run in which threads start, nothing panics
    and the services are there, let a notification [n] be pending and no caller
    hold the mutex for a join. Then a worker is alive that is not waiting and can
    step; each of its steps takes [n] or brings it nearer to taking it, and no
    step of a caller moves the worker or drops or replaces [n], except that a
    shutdown may drop it. In particular a worker that ends after its idle time
    never leaves a notification behind. *)
Theorem no_notification_is_lost calls es s n :
  steps (started calls) es s → Forall (λ e, served e = true) es → pending (state s) = Some n → locked s = None →
  ∃ k w, workers s !! k = Some w ∧ 0 < rank w ∧ (∃ e s', worker_loop k s e s' ∧ useful e = true) ∧
    (∀ e s', worker_loop k s e s' → served e = true →
       (workers s' !! k = Some (WServices n) ∧ pending (state s') = None) ∨
       (pending (state s') = Some n ∧ ∃ w', workers s' !! k = Some w' ∧ 0 < rank w' < rank w)) ∧
    (∀ i e s', caller_step i s e s' →
       shutdown (state s') = true ∨
       (workers s' !! k = Some w ∧ ∃ n', pending (state s') = Some n' ∧ context n' = context n ∧ trigger_reason n' = trigger_reason n)).
Proof.
  intros Hs Hes Hp Hl. pose proof (steps_inv _ _ _ (started_inv calls) Hs) as Hi.
  assert (alert s) as Ha by (eapply steps_alert; [apply started_inv|by apply alert_idle; [constructor|]|done|done]).
  destruct (alert_ranked s n Hi Ha Hp Hl) as (k & w & Hk & Hr & He & Hne). exists k, w. split_and!; [done|done| | |].
  - by eapply live_worker_steps.
  - intros e s' Hw Hse. by eapply worker_approaches.
  - intros i e s' Hc. eapply caller_keeps; [apply Hi|done|done|done| |done|done]. intros k'. by apply (al_heard _ Ha); eauto.
Qed.

Lemma no_notification_is_lost_witness : ∃ k w, workers demo_notified !! k = Some w ∧ 0 < rank w.
Proof.
  destruct (no_notification_is_lost _ _ demo_notified (mkNotification 1 Startup 10 0) demo_notifies) as (k & w & Hk & Hr & _);
    [by repeat constructor|done|done|by exists k, w].
Defined.

(** No deadlock. In every reachable state in which a caller has not returned
    from all its calls, some thread can take a step that is not a spurious wake-up
    or a time-out. So [notify] does not hang on joining the previous worker while
    it holds both mutexes, and no caller waits for a wake-up that nobody sends. *)
Theorem autosquash_never_deadlocks calls es s i c :
  steps (started calls) es s → callers s !! i = Some c → c ≠ CRun [] → ∃ e s', step s e s' ∧ useful e = true.
Proof. intros Hs Hc Hne. eapply unfinished_steps; [by eapply steps_inv, Hs; apply started_inv|done|done]. Qed.

Lemma autosquash_never_deadlocks_witness : ∃ e s', step demo_joining e s' ∧ useful e = true.
Proof. by apply (autosquash_never_deadlocks _ _ demo_joining 1 (CShutJoin 0 []) demo_shuts_down). Defined.

(** A worker that panics is never replaced. After an evaluation has panicked
    no worker is alive or started in any later state before a shutdown, however
    often the queue is notified, and a notification that is pending stays so: the
    flag [worker_running] is still set, which [notify] takes for a worker. *)
Theorem panicked_worker_is_not_replaced calls es s k s1 es' s2 :
  steps (started calls) es s → worker_loop k s Panicked s1 → steps s1 es' s2 → shutdown (state s2) = false →
  workers s2 = workers s1 ∧ Forall (λ w, ended w = true) (workers s2) ∧ worker_threads (state s2) = 1 ∧
  (is_Some (pending (state s1)) → is_Some (pending (state s2))).
Proof.
  intros Hs Hw Hs' Hsh. pose proof (steps_inv _ _ _ (started_inv calls) Hs) as Hi.
  destruct (stuck_steps s1 es' s2 (panic_stuck s k s1 Hi Hw) Hs' Hsh) as (Hst & Hws & Hp). split_and!; [done| | |done].
  - apply Forall_lookup. intros k' w Hk'. by eapply stuck_ended.
  - unfold worker_threads. by rewrite (st_running _ Hst).
Qed.

Lemma panicked_worker_is_not_replaced_witness : Forall (λ w, ended w = true) (workers demo_stuck) ∧ is_Some (pending (state demo_stuck)).
Proof.
  destruct (panicked_worker_is_not_replaced _ _ demo_evaluating 0 (with_worker 0 (WEnded true) demo_evaluating) [Progress] demo_stuck
    demo_evaluates) as (_ & Hw & _).
  - by refine (wl_evaluate 0 demo_evaluating (mkNotification 1 Startup 10 0) true _).
  - eapply (steps_snoc _ []); [constructor|].
    refine (step_caller _ _ _ 0 (cs_notify 0 _ 2 LayerCommitted 11 [] _ (with_caller 0 (CRun [Notify 2 LayerCommitted 11]) demo_stuck) _ _ _ _)); [done..|].
    apply nobody_waits; by repeat constructor.
  - done.
  - split; [done|by eexists].
Defined.
