(* ===== verification/Ring.v ===== *)
(** * The resource ring of a sandbox

    Models [sandbox-manager/src/resource_ring.rs]: resource samples of a sandbox
    are kept in a file of fixed size, a header of 64 bytes in front of 1023
    records of 64 bytes.  A record is written at the position the header names;
    the header is written afterwards.  Header and records carry an FNV-1a
    checksum.  The newest sample of each ring is also kept in memory.

    The file system and its failures are those of [World], except that here the
    calls that read may fail as well: a failing read of a header makes the code
    start the ring anew.  An error message is a constructor that holds the
    arguments of its format string. *)

From S2P Require Import Prelude ByteStr Model FS World.

#[local] Open Scope Z_scope.

(** ** Bytes of fixed-size values *)

Definition byte_val (b : byte) : Z := Z.of_N (Byte.to_N b).
Definition byte_of (z : Z) : byte := default nul (Byte.of_N (Z.to_N (z mod 256))).

(** [to_le_bytes] of an [n]-byte integer and [from_le_bytes]. *)
Fixpoint le_bytes (n : nat) (z : Z) : bytes :=
  match n with O => [] | S n => byte_of z :: le_bytes n (z / 256) end.
Fixpoint le_val (l : bytes) : Z :=
  match l with [] => 0 | b :: l => byte_val b + 256 * le_val l end.

(** [&bytes[o..o + n]] and the same range written; a file is filled up with
    zeros in front of a write behind its end. *)
Definition get (b : bytes) (o n : nat) : bytes := take n (drop o b).
Definition overwrite (b : bytes) (o : nat) (data : bytes) : bytes :=
  take o (b ++ replicate (o - length b) nul) ++ data ++ drop (o + length data) b.

Definition put_u32 (b : bytes) (o : nat) (v : Z) : bytes := overwrite b o (le_bytes 4 v).
Definition put_u64 (b : bytes) (o : nat) (v : Z) : bytes := overwrite b o (le_bytes 8 v).
Definition u32_at (b : bytes) (o : nat) : Z := le_val (get b o 4).
Definition u64_at (b : bytes) (o : nat) : Z := le_val (get b o 8).

(** [v as i64] of a [u64], and [v as u64] of an [i64]. *)
Definition to_i64 (v : Z) : Z := if decide (v < 2 ^ 63) then v else v - 2 ^ 64.
Definition to_u64 (v : Z) : Z := v mod 2 ^ 64.

Definition i64_saturating_sub (a b : Z) : Z := Z.max (- 2 ^ 63) (Z.min (2 ^ 63 - 1) (a - b)).

(** ** Layout *)

Definition RESOURCE_RING_BYTES : Z := 64 * 1024.
Definition RESOURCE_RECORD_BYTES : Z := 64.
Definition MAX_RESOURCE_RESPONSE_RECORDS : nat := 512.
Definition HEADER_BYTES : Z := 64.
Definition FORMAT_VERSION : Z := 1.
Definition MAGIC : bytes := bytes_of "EOSRING" ++ [nul].
Definition CAPACITY : Z := (RESOURCE_RING_BYTES - HEADER_BYTES) / RESOURCE_RECORD_BYTES.

Record SandboxResourceMetrics := mkMetrics {
  cpu_usage_usec : option Z;
  memory_current_bytes : option Z;
  memory_limit_bytes : option Z;
  io_read_bytes : option Z;
  io_write_bytes : option Z;
}.

Record ResourceSample := mkSample {
  sampled_at_unix_ms : Z;
  metrics : SandboxResourceMetrics;
}.

Record Header := mkHeader {
  next : Z;
  count : Z;
  sequence : Z;
}.

#[global] Instance metrics_eq_dec : EqDecision SandboxResourceMetrics.
Proof. solve_decision. Defined.
#[global] Instance sample_eq_dec : EqDecision ResourceSample.
Proof. solve_decision. Defined.

(** FNV-1a *)
Definition checksum (b : bytes) : Z :=
  foldl (λ hash x, (Z.lxor hash (byte_val x) * 0x100000001b3) mod 2 ^ 64) 0xcbf29ce484222325 b.

Definition encode_header (h : Header) : bytes :=
  let b := overwrite (replicate 64 nul) 0 MAGIC in
  let b := put_u32 b 8 FORMAT_VERSION in
  let b := put_u32 b 12 HEADER_BYTES in
  let b := put_u32 b 16 RESOURCE_RECORD_BYTES in
  let b := put_u32 b 20 CAPACITY in
  let b := put_u32 b 24 (next h) in
  let b := put_u32 b 28 (count h) in
  let b := put_u64 b 32 (sequence h) in
  put_u64 b 40 (checksum (get b 0 40)).

(** The loop over the five values: the bytes and the validity mask. *)
Fixpoint put_values (index : nat) (values : list (option Z)) (b : bytes) (validity : Z) : bytes * Z :=
  match values with
  | [] => (b, validity)
  | Some v :: values =>
      put_values (S index) values (put_u64 b (16 + index * 8) v)
        (Z.lor validity (Z.shiftl 1 (Z.of_nat index)))
  | None :: values => put_values (S index) values b validity
  end.

Definition metric_values (m : SandboxResourceMetrics) : list (option Z) :=
  [cpu_usage_usec m; memory_current_bytes m; memory_limit_bytes m; io_read_bytes m; io_write_bytes m].

Definition encode_record (s : ResourceSample) : bytes :=
  let b := put_u64 (replicate 64 nul) 0 (to_u64 (sampled_at_unix_ms s)) in
  let '(b, validity) := put_values 0 (metric_values (metrics s)) b 0 in
  let b := put_u64 b 8 validity in
  put_u64 b 56 (checksum (get b 0 56)).

Definition decode_record (b : bytes) : option ResourceSample :=
  if decide (u64_at b 56 ≠ checksum (get b 0 56)) then None
  else
    let validity := u64_at b 8 in
    let value (index : nat) :=
      if decide (Z.land validity (Z.shiftl 1 (Z.of_nat index)) ≠ 0)
      then Some (u64_at b (16 + index * 8)) else None in
    Some (mkSample (to_i64 (u64_at b 0))
            (mkMetrics (value 0%nat) (value 1%nat) (value 2%nat) (value 3%nat) (value 4%nat))).

(** ** Calls on an open file *)

(** [io::Error], as far as the code makes it. *)
Inductive ring_error :=
| Os (e : errno)
| UnexpectedEof
| WrongLength
| InvalidHeader
| InvalidIndices.

(** A call that reads: it takes an entry of the fault script. *)
Definition reading {A : Type} (g : fs → result A ring_error) : io ring_error A :=
  (do x := fault in match x with Some _ => fail (Os EIO) | None => reads g end)%io.

(** [OpenOptions::new().read(true).open(p)] *)
Definition open_read (p : path) : io ring_error path :=
  reading (λ f, map_err Os
    (let? q := resolve f true p in
     let? n := node_at f q in
     match n with NFile _ _ _ | NDir _ _ => Ok q | _ => Err EIO end)%result).

(** [OpenOptions::new().read(true).write(true).create(true).truncate(false).open(p)] *)
Definition open_create (p : path) : io ring_error path :=
  lift_err Os (syscall (λ f,
    (let? q := resolve f true p in
     match f !! q with
     | None => Ok (q, <[q := NFile [] 0x1a4 ∅]> f)
     | Some (NFile _ _ _) => Ok (q, f)
     | Some (NDir _ _) => Err EISDIR
     | Some _ => Err EIO
     end)%result)).

Definition with_data (f : fs) (q : path) (g : bytes → bytes) : fs :=
  match f !! q with Some (NFile d mode xs) => <[q := NFile (g d) mode xs]> f | _ => f end.

Definition set_len (q : path) (n : nat) : io ring_error () :=
  lift_err Os (syscall (λ f, Ok (tt, with_data f q (λ d, take n (d ++ replicate (n - length d) nul))))).

(** [FileExt::write_all_at]: a failing write has written a prefix. *)
Definition write_all_at (q : path) (data : bytes) (o : nat) : io ring_error () :=
  (do x := fault in
   do f := reads (λ f, Ok f) in
   match x with
   | Some k => run set_fs (with_data f q (λ d, overwrite d o (take k data))); fail (Os EIO)
   | None => set_fs (with_data f q (λ d, overwrite d o data))
   end)%io.

(** [FileExt::read_exact_at] *)
Definition read_exact_at (q : path) (n o : nat) : io ring_error bytes :=
  reading (λ f,
    match f !! q with
    | Some (NFile d _ _) => if decide (o + n ≤ length d)%nat then Ok (get d o n) else Err UnexpectedEof
    | Some (NDir _ _) => Err (Os EISDIR)
    | _ => Err (Os EIO)
    end).

(** [file.metadata()?.len()] *)
Definition file_len (q : path) : io ring_error Z :=
  reading (λ f, map_err Os (let? n := node_at f q in Ok (n_len n))%result).

(** ** Header and file *)

Definition empty_header : Header := mkHeader 0 0 0.

Definition read_header (q : path) : io ring_error Header :=
  (do len := file_len q in
   if decide (len ≠ RESOURCE_RING_BYTES) then fail WrongLength else
   do b := read_exact_at q 64 0 in
   if decide (get b 0 8 ≠ MAGIC) then fail InvalidHeader
   else if decide (u32_at b 8 ≠ FORMAT_VERSION) then fail InvalidHeader
   else if decide (u32_at b 12 ≠ HEADER_BYTES) then fail InvalidHeader
   else if decide (u32_at b 16 ≠ RESOURCE_RECORD_BYTES) then fail InvalidHeader
   else if decide (u32_at b 20 ≠ CAPACITY) then fail InvalidHeader
   else if decide (u64_at b 40 ≠ checksum (get b 0 40)) then fail InvalidHeader
   else
     let h := mkHeader (u32_at b 24) (u32_at b 28) (u64_at b 32) in
     if decide (CAPACITY ≤ next h ∨ CAPACITY < count h) then fail InvalidIndices
     else ret h)%io.

Definition recreate (p : path) : io ring_error path :=
  (run lift_err Os (create_dir_all (parent p));
   do q := lift_err Os (file_create p) in
   run set_len q (Z.to_nat RESOURCE_RING_BYTES);
   run write_all_at q (encode_header empty_header) 0;
   run lift_err Os sync;
   ret q)%io.

Definition open_or_recreate (p : path) : io ring_error (path * Header) :=
  (do q := open_create p in
   do r := attempt (read_header q) in
   match r with
   | Ok h => ret (q, h)
   | Err _ => do q := recreate p in ret (q, empty_header)
   end)%io.

Definition record_offset (index : Z) : nat :=
  Z.to_nat (HEADER_BYTES + index * RESOURCE_RECORD_BYTES).

Definition advance (h : Header) : Header :=
  mkHeader ((next h + 1) mod CAPACITY) (Z.min (Z.min (count h + 1) (2 ^ 32 - 1)) CAPACITY)
    (Z.min (sequence h + 1) (2 ^ 64 - 1)).

(** ** Errors reported to the reader *)

Inductive record_problem :=
| Unreadable (e : ring_error)
| ChecksumMismatch (index : Z)
| HeaderTear
| OutOfOrder.

Inductive ring_problem :=
| NotAvailable
| CorruptHeader (e : ring_error)
| CorruptRecord (e : record_problem)
| CorruptCurrent (index : Z)
| ReadFailed (e : ring_error).

Record ResourceRingRead := mkRead {
  samples : list ResourceSample;
  error : option ring_problem;
}.

(** ** Ring operations *)

Section ring.
Variable root : path.

Definition ring_name (id : bytes) : bytes := id ++ bytes_of ".ring".

Definition ring_path (id : bytes) : path := root ++ [ring_name id].

Definition append_locked (id : bytes) (s : ResourceSample) : io ring_error () :=
  (run lift_err Os (create_dir_all root);
   do qh := open_or_recreate (ring_path id) in
   run write_all_at qh.1 (encode_record s) (record_offset (next qh.2));
   write_all_at qh.1 (encode_header (advance qh.2)) 0)%io.

(** The loop over the logical positions; a failing read ends it. *)
Fixpoint read_records (q : path) (start : Z) (logicals : list Z) (acc : list ResourceSample)
    (corrupt : option record_problem) : io ring_error (list ResourceSample * option record_problem) :=
  match logicals with
  | [] => ret (acc, corrupt)
  | logical :: rest =>
      let index := (start + logical) mod CAPACITY in
      (do r := attempt (read_exact_at q 64 (record_offset index)) in
       match r with
       | Err e => ret (acc, Some (Unreadable e))
       | Ok record =>
           match decode_record record with
           | Some s => read_records q start rest (acc ++ [s]) corrupt
           | None => read_records q start rest acc (Some (ChecksumMismatch index))
           end
       end)%io
  end.

(** [windows(2).any(|pair| pair[0].sampled_at > pair[1].sampled_at)] *)
Fixpoint out_of_order (l : list ResourceSample) : bool :=
  match l with
  | a :: (b :: _) as l => bool_decide (sampled_at_unix_ms b < sampled_at_unix_ms a) || out_of_order l
  | _ => false
  end.

Definition get_or_insert {A} (o : option A) (x : A) : option A :=
  match o with Some a => Some a | None => Some x end.

(** What the record loop found is checked against the order of the timestamps. *)
Definition check_order (full : bool) (found : list ResourceSample * option record_problem)
    : list ResourceSample * option record_problem :=
  let '(l, corrupt) := found in
  let torn := match l with
              | a :: b :: _ => bool_decide (sampled_at_unix_ms b < sampled_at_unix_ms a)
              | _ => false
              end in
  if full && torn then (tail l, get_or_insert corrupt HeaderTear)
  else if out_of_order l then (l, get_or_insert corrupt OutOfOrder)
  else (l, corrupt).

(** The samples of the window, at most [MAX_RESOURCE_RESPONSE_RECORDS]. *)
Definition retain_window (l : list ResourceSample) (window_ms : Z) : list ResourceSample :=
  let newest := match last l with Some s => sampled_at_unix_ms s | None => - 2 ^ 63 end in
  let retain_after := i64_saturating_sub newest window_ms in
  let kept := filter (λ s, retain_after ≤ sampled_at_unix_ms s) l in
  drop (length kept - MAX_RESOURCE_RESPONSE_RECORDS) kept.

Definition is_none {A} (o : option A) : bool := match o with None => true | Some _ => false end.

(** Opening for a read: the open file with its header, or what to report. *)
Definition open_header (id : bytes) : io ring_error (ResourceRingRead + path * Header) :=
  (do r := attempt (open_read (ring_path id)) in
   match r with
   | Err (Os ENOENT) => ret (inl (mkRead [] (Some NotAvailable)))
   | Err e => fail e
   | Ok q =>
       do r := attempt (read_header q) in
       match r with
       | Err e => run recreate (ring_path id); ret (inl (mkRead [] (Some (CorruptHeader e))))
       | Ok h => ret (inr (q, h))
       end
   end)%io.

Definition read_locked (id : bytes) (window_ms : Z) : io ring_error ResourceRingRead :=
  (do r := open_header id in
   match r with
   | inl answer => ret answer
   | inr (q, h) =>
       let start := if decide (count h = CAPACITY) then next h else 0 in
       do found := read_records q start (seqZ 0 (count h)) [] None in
       let '(l, corrupt) := check_order (bool_decide (count h = CAPACITY)) found in
       run (if is_none corrupt then ret () else run recreate (ring_path id); ret ());
       ret (mkRead (retain_window l window_ms) (CorruptRecord <$> corrupt))
   end)%io.

Definition read_latest_locked (id : bytes) : io ring_error ResourceRingRead :=
  (do r := open_header id in
   match r with
   | inl answer => ret answer
   | inr (q, h) =>
       if decide (count h = 0) then ret (mkRead [] None) else
       let index := (next h + CAPACITY - 1) mod CAPACITY in
       do record := read_exact_at q 64 (record_offset index) in
       match decode_record record with
       | None => run recreate (ring_path id); ret (mkRead [] (Some (CorruptCurrent index)))
       | Some s => ret (mkRead [s] None)
       end
   end)%io.

(** ** The store: the newest sample of each ring in memory *)

Record ResourceRingState := mkRings { latest_samples : bytes_map ResourceSample }.

(** An operation under the guard of the store. *)
Definition rio (A : Type) : Type := ResourceRingState → world → A * ResourceRingState * world.

Definition remember (id : bytes) (s : ResourceSample) (st : ResourceRingState) : ResourceRingState :=
  mkRings (<[id := s]> (latest_samples st)).
Definition forget (id : bytes) (st : ResourceRingState) : ResourceRingState :=
  mkRings (delete id (latest_samples st)).

Definition append (id : bytes) (s : ResourceSample) : rio (result () ring_error) := λ st w,
  match append_locked id s w with
  | (Ok _, w) => (Ok (), remember id s st, w)
  | (Err e, w) => (Err e, st, w)
  end.

(** [eligible] is the answer of the closure, which runs under the guard. *)
Definition append_if (id : bytes) (s : ResourceSample) (eligible : bool) : rio (result bool ring_error) :=
  λ st w,
  if negb eligible then (Ok false, st, w) else
  match append_locked id s w with
  | (Ok _, w) => (Ok true, remember id s st, w)
  | (Err e, w) => (Err e, st, w)
  end.

(** Both reads turn an error into an answer and bring the memory up to date. *)
Definition answer (id : bytes) (c : io ring_error ResourceRingRead) : rio ResourceRingRead := λ st w,
  let '(r, w) := c w in
  let read := match r with Ok read => read | Err e => mkRead [] (Some (ReadFailed e)) end in
  let st := match error read with
            | None => match last (samples read) with Some s => remember id s st | None => st end
            | Some _ => forget id st
            end in
  (read, st, w).

Definition read_window (id : bytes) (window_ms : Z) : rio ResourceRingRead :=
  answer id (read_locked id window_ms).

Definition read_latest (id : bytes) : rio ResourceRingRead := λ st w,
  match latest_samples st !! id with
  | Some s => (mkRead [s] None, st, w)
  | None => answer id (read_latest_locked id) st w
  end.

Definition remove (id : bytes) : rio (result () ring_error) := λ st w,
  match remove_file (ring_path id) w with
  | (Ok _, w) | (Err ENOENT, w) => (Ok (), forget id st, w)
  | (Err e, w) => (Err (Os e), st, w)
  end.
End ring.
