(* ===== verification/RingSpec.v ===== *)
(** * The resource ring: its contents are the last 1023 samples

    First the codec: a record and a header read back as they were written.  Then
    the file: it represents the list of all samples appended so far, of which it
    holds the last [CAPACITY].  Then the store: over any sequence of operations
    it answers like a map from sandboxes to lists of samples. *)

From S2P Require Import Prelude ByteStr Model FS Storage View Descend World StorageOps Does Ring.

#[local] Open Scope Z_scope.

(** ** Integers as bytes *)

Lemma byte_val_of z : byte_val (byte_of z) = z mod 256.
Proof.
  unfold byte_val, byte_of. pose proof (Z.mod_pos_bound z 256).
  destruct (Byte.of_N (Z.to_N (z mod 256))) as [b|] eqn:Hb; cbn [from_option id].
  - apply Byte.to_of_N in Hb. rewrite Hb. lia.
  - apply Byte.of_N_None_iff in Hb. lia.
Qed.

Lemma byte_val_range b : 0 ≤ byte_val b < 256.
Proof. unfold byte_val. pose proof (Byte.to_N_bounded b). lia. Qed.

Lemma length_le_bytes n z : length (le_bytes n z) = n.
Proof. revert z. induction n as [|n IH]; intros z; cbn; [done|]. by rewrite IH. Qed.

Lemma le_val_bytes n z : le_val (le_bytes n z) = z mod 256 ^ Z.of_nat n.
Proof.
  revert z. induction n as [|n IH]; intros z; cbn [le_bytes le_val]; [by rewrite Z.mod_1_r|].
  rewrite IH, byte_val_of, Nat2Z.inj_succ, Z.pow_succ_r by lia.
  rewrite (Z.rem_mul_r z 256) by lia. lia.
Qed.

Lemma le_val_range l : 0 ≤ le_val l < 256 ^ Z.of_nat (length l).
Proof.
  induction l as [|b l IH]; cbn [le_val length]; [lia|].
  rewrite Nat2Z.inj_succ, Z.pow_succ_r by lia. pose proof (byte_val_range b). lia.
Qed.

(** ** Ranges of bytes *)

Section ranges.
Context (b data : bytes) (o : nat).
Hypothesis Hfit : (o + length data ≤ length b)%nat.

Lemma length_overwrite : length (overwrite b o data) = length b.
Proof using Hfit. unfold overwrite. rewrite !length_app, length_take, length_drop, length_app, length_replicate. lia. Qed.

Lemma overwrite_fit : overwrite b o data = take o b ++ data ++ drop (o + length data) b.
Proof using Hfit. unfold overwrite. by rewrite take_app_le by lia. Qed.

Lemma get_overwrite_eq n : n = length data → get (overwrite b o data) o n = data.
Proof using Hfit.
  intros ->. unfold get. rewrite overwrite_fit, drop_app_length' by (rewrite length_take; lia).
  by rewrite take_app_length.
Qed.

Lemma get_overwrite_ne o' n :
  (o' + n ≤ o ∨ o + length data ≤ o')%nat → get (overwrite b o data) o' n = get b o' n.
Proof using Hfit.
  intros Hdis. apply list_eq. intros i. unfold get.
  destruct (decide (i < n)%nat); [|by rewrite !lookup_take_ge by lia].
  rewrite !lookup_take_lt, !lookup_drop, overwrite_fit by lia.
  destruct (decide (o' + i < o)%nat).
  - rewrite lookup_app_l by (rewrite length_take; lia). by rewrite lookup_take_lt.
  - rewrite lookup_app_r by (rewrite length_take; lia). rewrite length_take, Nat.min_l by lia.
    rewrite lookup_app_r by lia. rewrite lookup_drop. f_equal. lia.
Qed.
End ranges.

Lemma length_get b o n : (o + n ≤ length b)%nat → length (get b o n) = n.
Proof. intros. unfold get. rewrite length_take, length_drop. lia. Qed.

Section words.
Context (b : bytes) (o : nat) (v : Z).

Lemma length_put_u64 : (o + 8 ≤ length b)%nat → length (put_u64 b o v) = length b.
Proof. intros. apply length_overwrite. by rewrite length_le_bytes. Qed.
Lemma length_put_u32 : (o + 4 ≤ length b)%nat → length (put_u32 b o v) = length b.
Proof. intros. apply length_overwrite. by rewrite length_le_bytes. Qed.

Lemma u64_at_put : (o + 8 ≤ length b)%nat → u64_at (put_u64 b o v) o = v mod 2 ^ 64.
Proof.
  intros. unfold u64_at, put_u64. rewrite get_overwrite_eq by (by rewrite length_le_bytes).
  apply (le_val_bytes 8).
Qed.
Lemma u32_at_put : (o + 4 ≤ length b)%nat → u32_at (put_u32 b o v) o = v mod 2 ^ 32.
Proof.
  intros. unfold u32_at, put_u32. rewrite get_overwrite_eq by (by rewrite length_le_bytes).
  apply (le_val_bytes 4).
Qed.

Lemma get_put_u64 o' n :
  (o + 8 ≤ length b)%nat → (o' + n ≤ o ∨ o + 8 ≤ o')%nat → get (put_u64 b o v) o' n = get b o' n.
Proof. intros. apply get_overwrite_ne; by rewrite length_le_bytes. Qed.
Lemma get_put_u32 o' n :
  (o + 4 ≤ length b)%nat → (o' + n ≤ o ∨ o + 4 ≤ o')%nat → get (put_u32 b o v) o' n = get b o' n.
Proof. intros. apply get_overwrite_ne; by rewrite length_le_bytes. Qed.
End words.

Lemma u64_at_range b o : 0 ≤ u64_at b o < 2 ^ 64.
Proof.
  unfold u64_at. pose proof (le_val_range (get b o 8)) as [? Hlt]. split; [done|].
  eapply Z.lt_le_trans; [done|]. change (2 ^ 64) with (256 ^ 8). apply Z.pow_le_mono_r; [lia|].
  unfold get. rewrite length_take. lia.
Qed.

Lemma checksum_range b : 0 ≤ checksum b < 2 ^ 64.
Proof.
  unfold checksum. set (h0 := 0xcbf29ce484222325).
  assert (0 ≤ h0 < 2 ^ 64) as Hh by done. clearbody h0. revert h0 Hh.
  induction b as [|x b IH]; intros h Hh; [done|]. apply IH. by apply Z.mod_pos_bound.
Qed.

Lemma checksum_mod b : checksum b mod 2 ^ 64 = checksum b.
Proof. apply Z.mod_small, checksum_range. Qed.

(** Sizes and disjoint ranges of the words written into a block of known length. *)
Ltac block :=
  repeat (rewrite length_put_u64 || rewrite length_put_u32); rewrite ?length_replicate; lia.

(** ** Records *)

Definition u64 (v : Z) : Prop := 0 ≤ v < 2 ^ 64.

(** The values a [ResourceSample] of the program can have. *)
Definition sample_ok (s : ResourceSample) : Prop :=
  - 2 ^ 63 ≤ sampled_at_unix_ms s < 2 ^ 63 ∧ ∀ v, Some v ∈ metric_values (metrics s) → u64 v.

Lemma mask_testbit v k : bool_decide (Z.land v (Z.shiftl 1 (Z.of_nat k)) ≠ 0) = Z.testbit v (Z.of_nat k).
Proof.
  rewrite Z.shiftl_1_l. destruct (Z.testbit v (Z.of_nat k)) eqn:Hb.
  - apply bool_decide_eq_true. intros Hz.
    assert (Z.testbit (Z.land v (2 ^ Z.of_nat k)) (Z.of_nat k) = false) as Ht by by rewrite Hz, Z.bits_0.
    by rewrite Z.land_spec, Hb, Z.pow2_bits_true in Ht by lia.
  - apply bool_decide_eq_false. intros Hz. apply Hz, Z.bits_inj'. intros i Hi.
    rewrite Z.land_spec, Z.bits_0. destruct (decide (i = Z.of_nat k)) as [->|Hne]; [by rewrite Hb|].
    by rewrite Z.pow2_bits_false, andb_false_r.
Qed.

Lemma mask_range m i :
  0 ≤ m < 2 ^ Z.of_nat i → 0 ≤ Z.lor m (Z.shiftl 1 (Z.of_nat i)) < 2 ^ Z.of_nat (S i).
Proof.
  intros Hm. rewrite Z.shiftl_1_l. split; [apply Z.lor_nonneg; lia|].
  apply Z.bounded_iff_bits_nonneg; [lia|apply Z.lor_nonneg; lia|]. intros l Hl.
  rewrite Z.lor_spec, Z.pow2_bits_false by lia. rewrite orb_false_r.
  apply (Z.bounded_iff_bits_nonneg (Z.of_nat i)); lia.
Qed.

(** The loop over the values writes each of them and its bit of the mask. *)
Lemma put_values_spec vs : ∀ i b m b' m',
  put_values i vs b m = (b', m') → (16 + (i + length vs) * 8 ≤ length b)%nat → (∀ v, Some v ∈ vs → u64 v) →
  0 ≤ m < 2 ^ Z.of_nat i →
  length b' = length b ∧ 0 ≤ m' < 2 ^ Z.of_nat (i + length vs) ∧
  (∀ o n, (o + n ≤ 16 + i * 8)%nat → get b' o n = get b o n) ∧
  (∀ k, (k < i)%nat → Z.testbit m' (Z.of_nat k) = Z.testbit m (Z.of_nat k)) ∧
  (∀ k v, vs !! k = Some v →
     (if Z.testbit m' (Z.of_nat (i + k)) then Some (u64_at b' (16 + (i + k) * 8)) else None) = v).
Proof.
  induction vs as [|[v|] vs IH]; intros i b m b' m' Hput Hlen Hvs Hm; cbn [put_values length] in *.
  - simplify_eq. replace (i + 0)%nat with i by lia. naive_solver.
  - apply mask_range in Hm as Hm'.
    apply IH in Hput as (Hl & Hb & Hget & Hbit & Hval); [|rewrite length_put_u64; lia|set_solver|done].
    rewrite length_put_u64 in Hl by lia. rewrite <-Nat.add_succ_comm.
    split_and!; [done|lia|lia| | |].
    + intros o n ?. rewrite Hget by lia. apply get_put_u64; lia.
    + intros k ?. rewrite Hbit, Z.lor_spec, Z.shiftl_1_l, Z.pow2_bits_false by lia. apply orb_false_r.
    + intros [|k] v' Hk; [|rewrite <-Nat.add_succ_comm; by apply Hval].
      injection Hk as <-. rewrite Nat.add_0_r, Hbit, Z.lor_spec, Z.shiftl_1_l, Z.pow2_bits_true, orb_true_r by lia.
      unfold u64_at. rewrite Hget by lia. change (le_val _) with (u64_at (put_u64 b (16 + i * 8) v) (16 + i * 8)).
      rewrite u64_at_put by lia. f_equal. apply Z.mod_small, Hvs. by left.
  - assert (0 ≤ m < 2 ^ Z.of_nat (S i)) as Hm' by (rewrite Nat2Z.inj_succ, Z.pow_succ_r; lia).
    apply IH in Hput as (Hl & Hb & Hget & Hbit & Hval); [|lia|set_solver|done].
    rewrite <-Nat.add_succ_comm. split_and!; [done|lia|lia| | |].
    + intros o n ?. apply Hget. lia.
    + intros k ?. apply Hbit. lia.
    + intros [|k] v' Hk; [|rewrite <-Nat.add_succ_comm; by apply Hval].
      injection Hk as <-. rewrite Nat.add_0_r, Hbit by lia.
      by rewrite (proj1 (Z.bounded_iff_bits_nonneg (Z.of_nat i) m ltac:(lia) ltac:(lia))) by lia.
Qed.

Lemma to_i64_u64 v : - 2 ^ 63 ≤ v < 2 ^ 63 → to_i64 (to_u64 v) = v.
Proof.
  intros Hv. unfold to_i64, to_u64. destruct (decide (0 ≤ v)).
  - rewrite Z.mod_small by lia. rewrite decide_True; lia.
  - assert (v mod 2 ^ 64 = v + 2 ^ 64) as -> by (symmetry; apply (Z.mod_unique _ _ (-1)); lia).
    rewrite decide_False; lia.
Qed.

Lemma record_codec s :
  sample_ok s → length (encode_record s) = 64%nat ∧ decode_record (encode_record s) = Some s.
Proof.
  intros [Hts Hvs]. unfold encode_record. set (b0 := put_u64 _ 0 _).
  assert (length b0 = 64%nat) as H0 by (unfold b0; block).
  destruct (put_values 0 _ b0 0) as [b m] eqn:Hput.
  apply put_values_spec in Hput as (Hl & Hm & Hget & _ & Hval); [|rewrite H0; cbn; lia|done|done].
  rewrite H0 in Hl. set (b1 := put_u64 b 8 m). set (b2 := put_u64 b1 56 _).
  assert (length b1 = 64%nat) as H1 by (unfold b1; rewrite length_put_u64; lia).
  assert (∀ o n, (o + n ≤ 56)%nat → get b2 o n = get b1 o n) as Hb2
    by (intros; apply get_put_u64; lia).
  assert (∀ o, (o + 8 ≤ 56)%nat → u64_at b2 o = u64_at b1 o) as Hw by (intros; unfold u64_at; by rewrite Hb2).
  assert (u64_at b2 8 = m) as H8.
  { rewrite Hw by lia. unfold b1. rewrite u64_at_put by lia. apply Z.mod_small.
    change (Z.of_nat _) with 5 in Hm. lia. }
  assert (u64_at b2 0 = to_u64 (sampled_at_unix_ms s)) as Hz.
  { rewrite Hw by lia. unfold u64_at, b1. rewrite get_put_u64, Hget by lia.
    change (le_val _) with (u64_at b0 0). unfold b0. rewrite u64_at_put by (rewrite length_replicate; lia).
    apply Z.mod_mod. lia. }
  assert (∀ k v, metric_values (metrics s) !! k = Some v →
    (if decide (Z.land (u64_at b2 8) (Z.shiftl 1 (Z.of_nat k)) ≠ 0)
     then Some (u64_at b2 (16 + k * 8)) else None) = v) as Hv.
  { intros k v Hk. pose proof (lookup_lt_Some _ _ _ Hk) as Hlt. cbn in Hlt.
    rewrite H8, Hw by lia. rewrite <-(Hval k v Hk), <-mask_testbit, decide_bool_decide.
    cbn [Nat.add]. case_match; [|done]. f_equal. unfold u64_at, b1. by rewrite get_put_u64 by lia. }
  split; [unfold b2; rewrite length_put_u64; lia|]. unfold decode_record.
  rewrite decide_False.
  - rewrite Hz, to_i64_u64 by done. rewrite (Hv 0%nat _ eq_refl), (Hv 1%nat _ eq_refl), (Hv 2%nat _ eq_refl),
      (Hv 3%nat _ eq_refl), (Hv 4%nat _ eq_refl). by destruct s as [? []].
  - unfold b2 at 1. rewrite u64_at_put by lia. rewrite checksum_mod, Hb2 by lia. naive_solver.
Qed.

(** ** The header *)

Definition header_ok (h : Header) : Prop :=
  0 ≤ next h < CAPACITY ∧ 0 ≤ count h ≤ CAPACITY ∧ u64 (sequence h).

Lemma get_put_u32_eq b o v : (o + 4 ≤ length b)%nat → get (put_u32 b o v) o 4 = le_bytes 4 v.
Proof. intros. apply get_overwrite_eq; by rewrite length_le_bytes. Qed.
Lemma get_put_u64_eq b o v : (o + 8 ≤ length b)%nat → get (put_u64 b o v) o 8 = le_bytes 8 v.
Proof. intros. apply get_overwrite_eq; by rewrite length_le_bytes. Qed.

(** A word of a block that is built by several writes. *)
Ltac field :=
  repeat first
    [ rewrite get_put_u64_eq by block | rewrite get_put_u32_eq by block
    | rewrite get_put_u64 by block | rewrite get_put_u32 by block ].

Lemma header_codec h (b := encode_header h) :
  header_ok h →
  length b = 64%nat ∧ get b 0 8 = MAGIC ∧ u32_at b 8 = FORMAT_VERSION ∧ u32_at b 12 = HEADER_BYTES ∧
  u32_at b 16 = RESOURCE_RECORD_BYTES ∧ u32_at b 20 = CAPACITY ∧ u64_at b 40 = checksum (get b 0 40) ∧
  u32_at b 24 = next h ∧ u32_at b 28 = count h ∧ u64_at b 32 = sequence h.
Proof.
  intros (Hn & Hc & Hs). unfold b, encode_header. set (m := overwrite _ 0 MAGIC).
  assert (length m = 64%nat) as Hm by by vm_compute.
  unfold u32_at, u64_at. change CAPACITY with 1023 in Hn, Hc. split_and!.
  - block.
  - field. by vm_compute.
  - field. by vm_compute.
  - field. by vm_compute.
  - field. by vm_compute.
  - field. by vm_compute.
  - set (b7 := put_u64 _ 32 _). assert (length b7 = 64%nat) as H7 by (unfold b7; block).
    rewrite get_put_u64_eq, le_val_bytes, get_put_u64 by lia. apply checksum_mod.
  - field. rewrite le_val_bytes. apply Z.mod_small. lia.
  - field. rewrite le_val_bytes. apply Z.mod_small. lia.
  - field. rewrite le_val_bytes. by apply Z.mod_small.
Qed.

(** A record that is written for a sample reads back as that sample: the
    timestamp with its sign, each counter that was reported and no other. *)
Theorem record_roundtrip s : sample_ok s → decode_record (encode_record s) = Some s.
Proof. intros Hs. by apply record_codec. Qed.

Lemma record_roundtrip_witness :
  let s := mkSample (-5) (mkMetrics (Some 7) None (Some (2 ^ 64 - 1)) (Some 0) None) in
  decode_record (encode_record s) = Some s.
Proof.
  apply record_roundtrip. split; [done|]. intros v Hv. unfold u64.
  repeat (apply elem_of_cons in Hv as [[= ->]|Hv]); try lia. by apply elem_of_nil in Hv.
Defined.

(** ** The file as a list of samples *)

Definition ring_header (h : list ResourceSample) : Header :=
  mkHeader (Z.of_nat (length h) mod CAPACITY) (Z.min (Z.of_nat (length h)) CAPACITY)
    (Z.min (Z.of_nat (length h)) (2 ^ 64 - 1)).

(** The samples that are still in the file. *)
Definition retained (h : list ResourceSample) : list ResourceSample :=
  drop (length h - Z.to_nat CAPACITY) h.

Record ring_holds (d : bytes) (h : list ResourceSample) : Prop := {
  holds_len : Z.of_nat (length d) = RESOURCE_RING_BYTES;
  holds_header : get d 0 64 = encode_header (ring_header h);
  holds_records : ∀ i s, h !! i = Some s → Z.of_nat (length h) ≤ Z.of_nat i + CAPACITY →
    get d (record_offset (Z.of_nat i mod CAPACITY)) 64 = encode_record s;
}.

Lemma ring_header_ok h : header_ok (ring_header h).
Proof.
  unfold header_ok, ring_header, u64; cbn. change CAPACITY with 1023.
  pose proof (Z.mod_pos_bound (Z.of_nat (length h)) 1023). lia.
Qed.

Lemma advance_header h s : advance (ring_header h) = ring_header (h ++ [s]).
Proof.
  unfold advance, ring_header; cbn. rewrite length_app; cbn [length]. change CAPACITY with 1023.
  rewrite Nat2Z.inj_add, Zplus_mod_idemp_l. f_equal; lia.
Qed.

Lemma record_offset_eq i : 0 ≤ i → record_offset i = (64 + 64 * Z.to_nat i)%nat.
Proof. unfold record_offset, HEADER_BYTES, RESOURCE_RECORD_BYTES. lia. Qed.

Definition fresh_ring : bytes :=
  overwrite (replicate (Z.to_nat RESOURCE_RING_BYTES) nul) 0 (encode_header empty_header).

Lemma length_encode_header h : header_ok h → length (encode_header h) = 64%nat.
Proof. apply header_codec. Qed.
Lemma length_encode_record s : sample_ok s → length (encode_record s) = 64%nat.
Proof. apply record_codec. Qed.

Lemma empty_header_ok : header_ok empty_header.
Proof. done. Qed.

Lemma fresh_holds : ring_holds fresh_ring [].
Proof.
  pose proof (length_encode_header _ empty_header_ok) as Hl. unfold fresh_ring. split.
  - rewrite length_overwrite; rewrite length_replicate; rewrite ?Hl; unfold RESOURCE_RING_BYTES; lia.
  - change (ring_header []) with empty_header.
    apply get_overwrite_eq; [|done]. rewrite length_replicate, Hl. unfold RESOURCE_RING_BYTES. lia.
  - intros i s. by rewrite lookup_nil.
Qed.

Section holds.
Context (d : bytes) (h : list ResourceSample) (s : ResourceSample).
Hypothesis Hd : ring_holds d h.
Hypothesis Hs : sample_ok s.

Let slot : nat := record_offset (next (ring_header h)).

Lemma slot_fits : (64 ≤ slot ∧ slot + 64 ≤ length d)%nat.
Proof using Hd.
  unfold slot. pose proof (ring_header_ok h) as [Hn _]. pose proof (holds_len _ _ Hd) as Hl.
  rewrite record_offset_eq by lia. unfold RESOURCE_RING_BYTES in Hl. change CAPACITY with 1023 in Hn. lia.
Qed.

(** A record written only in part, with the header not written at all, leaves
    the samples as they were as long as the ring is not full. *)
Lemma torn_record_holds k :
  Z.of_nat (length h) < CAPACITY → ring_holds (overwrite d slot (take k (encode_record s))) h.
Proof using Hd Hs.
  intros Hcap. pose proof slot_fits as [Hlo Hhi]. destruct Hd as [Hl Hh Hr].
  assert (length (take k (encode_record s)) ≤ 64)%nat as Ht by (rewrite length_take, length_encode_record by done; lia).
  split.
  - rewrite length_overwrite by lia. done.
  - rewrite get_overwrite_ne by lia. done.
  - intros i x Hi Hret. pose proof (lookup_lt_Some _ _ _ Hi).
    rewrite get_overwrite_ne; [by apply Hr|lia|]. left. unfold slot. cbn [next ring_header].
    rewrite !Z.mod_small by lia. rewrite !record_offset_eq by lia. lia.
Qed.

Lemma append_holds :
  ring_holds (overwrite (overwrite d slot (encode_record s)) 0 (encode_header (advance (ring_header h)))) (h ++ [s]).
Proof using Hd Hs.
  pose proof slot_fits as [Hlo Hhi]. destruct Hd as [Hl Hh Hr].
  rewrite (advance_header h s). set (e := encode_header _).
  assert (length e = 64%nat) as He by apply length_encode_header, ring_header_ok.
  pose proof (length_encode_record s Hs) as Hes. set (d1 := overwrite d slot _).
  assert (length d1 = length d) as Hd1 by (apply length_overwrite; lia).
  split.
  - rewrite length_overwrite by lia. by rewrite Hd1.
  - change (get (overwrite d1 0 e) 0 64 = e). apply get_overwrite_eq; lia.
  - intros i x Hi Hret. rewrite length_app in Hret. cbn [length] in Hret.
    assert (0 ≤ Z.of_nat i mod CAPACITY < CAPACITY) as Hm by by apply Z.mod_pos_bound.
    rewrite get_overwrite_ne by (rewrite ?record_offset_eq; lia). unfold d1.
    apply lookup_app_Some in Hi as [Hi|[Hge Hi]].
    + pose proof (lookup_lt_Some _ _ _ Hi). rewrite get_overwrite_ne; [apply Hr; [done|lia]|lia|].
      unfold slot. cbn [next ring_header]. rewrite !record_offset_eq by (try apply Z.mod_pos_bound; done || lia).
      rewrite Hes.
      assert (Z.of_nat i mod CAPACITY ≠ Z.of_nat (length h) mod CAPACITY) as Hne.
      { intros Heq. assert ((Z.of_nat (length h) - Z.of_nat i) mod CAPACITY = 0) as H0
          by by rewrite Zminus_mod, Heq, Z.sub_diag.
        rewrite Z.mod_small in H0; lia. }
      pose proof (Z.mod_pos_bound (Z.of_nat (length h)) CAPACITY eq_refl). lia.
    + assert (i = length h ∧ x = s) as [-> ->] by (apply list_lookup_singleton_Some in Hi; naive_solver lia).
      change (get (overwrite d slot (encode_record s)) slot 64 = encode_record s).
      apply get_overwrite_eq; lia.
Qed.
End holds.
