(* ===== verification/RingStore.v ===== *)
(** * The resource ring: the store answers like a map of sample lists

    The operations of the store on a file system in which every ring file holds
    a list of samples, and an abstract store that keeps the lists themselves.
    The two answer alike over any sequence of operations; a clock that steps back
    empties a ring; a failing append leaves one of three states, unless the header
    cannot be read, which empties the ring as well. *)

From S2P Require Import Prelude ByteStr Model FS Storage View Descend World StorageOps Does Ring RingSpec.

#[local] Open Scope Z_scope.

(** ** Runs in which no call fails *)

Definition runs {A : Type} (P : fs → Prop) (c : io ring_error A) (Q : A → fs → Prop) : Prop :=
  ∀ w, w_faults w = [] → P (w_fs w) → ∃ a w', c w = (Ok a, w') ∧ w_faults w' = [] ∧ Q a (w_fs w').

Lemma runs_does {A} P (c : io ring_error A) Q : does P c Q → runs P c Q.
Proof. intros Hc w Hf Hw. specialize (Hc w Hw). destruct (c w) as [[a|e] w']; [|done]. destruct Hc. exists a, w'. auto. Qed.

Lemma runs_bind {A B} (c : io ring_error A) (k : A → io ring_error B) P Q R :
  runs P c Q → (∀ a, runs (Q a) (k a) R) → runs P (bind c k) R.
Proof.
  intros Hc Hk w Hf Hw. destruct (Hc w Hf Hw) as (a & w1 & H1 & Hf1 & HQ). rewrite (bind_run _ _ _ _ _ H1). by apply Hk.
Qed.

Lemma runs_conseq {A} (c : io ring_error A) P (Q Q' : A → fs → Prop) :
  runs P c Q → (∀ a f, Q a f → Q' a f) → runs P c Q'.
Proof. intros Hc HQ w Hf Hw. destruct (Hc w Hf Hw) as (a & w1 & ? & ? & ?). eauto 10. Qed.

Lemma reading_runs {A} (g : fs → result A ring_error) w : w_faults w = [] → reading g w = (g (w_fs w), w).
Proof. intros Hf. unfold reading, bind, fault, reads. by rewrite Hf. Qed.

(** ** Operations of the store *)

Inductive ring_op :=
| OpAppend (id : bytes) (s : ResourceSample)
| OpAppendIf (id : bytes) (s : ResourceSample) (eligible : bool)
| OpWindow (id : bytes) (window_ms : Z)
| OpLatest (id : bytes)
| OpRemove (id : bytes).

Inductive ring_answer :=
| ADone (r : result () ring_error)
| AIf (r : result bool ring_error)
| ARead (r : ResourceRingRead).

Definition run_op (root : path) (op : ring_op) : rio ring_answer := λ st w,
  match op with
  | OpAppend id s => let '(r, st, w) := append root id s st w in (ADone r, st, w)
  | OpAppendIf id s eligible => let '(r, st, w) := append_if root id s eligible st w in (AIf r, st, w)
  | OpWindow id window_ms => let '(r, st, w) := read_window root id window_ms st w in (ARead r, st, w)
  | OpLatest id => let '(r, st, w) := read_latest root id st w in (ARead r, st, w)
  | OpRemove id => let '(r, st, w) := remove root id st w in (ADone r, st, w)
  end.

(** ** A ring file that holds a list of samples *)

Lemma ring_name_plain id : ring_name id ≠ dotdot.
Proof.
  unfold ring_name. intros Heq%(f_equal last). rewrite last_app in Heq. by vm_compute in Heq.
Qed.

Lemma ring_path_inj root id id' : ring_path root id = ring_path root id' → id = id'.
Proof. unfold ring_path, ring_name. intros Heq. apply app_inj_2 in Heq as [_ [= Heq]]; [|done]. by apply app_inv_tail in Heq. Qed.

Lemma with_data_file f q d m xs g :
  f !! q = Some (NFile d m xs) → with_data f q g = <[q := NFile (g d) m xs]> f.
Proof. unfold with_data. by intros ->. Qed.

Lemma does_write_all_at f q d m xs data o :
  f !! q = Some (NFile d m xs) →
  does (λ g, g = f) (write_all_at q data o) (λ _ g, g = <[q := NFile (overwrite d o data) m xs]> f).
Proof.
  intros Hq w Hw. unfold write_all_at, bind, fault, reads.
  destruct (w_faults w) as [|[k|] xs'] eqn:Hf; cbn; [|done|]; (split; [|done]);
    rewrite Hw; by apply (with_data_file _ _ _ _ _ (λ d, overwrite d o data)).
Qed.

(** A script in which the two reads of a header do not fail. *)
Definition header_read (xs : list (option nat)) : Prop := ∀ k, head xs ≠ Some (Some k) ∧ head (tail xs) ≠ Some (Some k).

Lemma reading_next {A} (g : fs → result A ring_error) w :
  (∀ k, head (w_faults w) ≠ Some (Some k)) →
  reading g w = (g (w_fs w), mkWorld (w_fs w) (w_unique w) (tail (w_faults w))).
Proof.
  intros Hf. unfold reading, bind, fault, reads. destruct w as [f u [|[k|] xs]]; [done| |done]. by destruct (Hf k).
Qed.

Lemma read_header_holds q w d m xs h :
  w_fs w !! q = Some (NFile d m xs) → ring_holds d h → header_read (w_faults w) →
  read_header q w = (Ok (ring_header h), mkWorld (w_fs w) (w_unique w) (tail (tail (w_faults w)))).
Proof.
  intros Hq [Hl Hh _] Hf. destruct (header_codec (ring_header h) (ring_header_ok h))
    as (Hlen & Hmagic & Hv & Hhb & Hrb & Hcap & Hsum & Hn & Hc & Hs).
  set (e := encode_header (ring_header h)) in *. clearbody e.
  unfold read_header, file_len, bind at 1. rewrite reading_next by apply Hf. unfold node_at. rewrite Hq. cbn [result_bind map_err n_len].
  rewrite Hl, decide_False by auto. unfold read_exact_at, bind at 1. rewrite reading_next by apply Hf. cbn [w_fs w_unique w_faults]. rewrite Hq.
  rewrite decide_True by (unfold RESOURCE_RING_BYTES in Hl; lia). rewrite Hh.
  rewrite Hmagic, Hv, Hhb, Hrb, Hcap, Hsum, Hn, Hc, Hs.
  rewrite !decide_False by auto.
  pose proof (ring_header_ok h) as (? & ? & _).
  rewrite decide_False by (cbn [next count]; lia).
  by destruct (ring_header h).
Qed.

Lemma read_header_runs q w d m xs h :
  w_fs w !! q = Some (NFile d m xs) → ring_holds d h → w_faults w = [] → read_header q w = (Ok (ring_header h), w).
Proof.
  intros Hq Hd Hf. rewrite (read_header_holds _ _ d m xs h) by (done || by rewrite Hf). rewrite Hf. by destruct w; simplify_eq/=.
Qed.

Lemma read_header_empty q w m xs :
  w_fs w !! q = Some (NFile [] m xs) → w_faults w = [] → read_header q w = (Err WrongLength, w).
Proof.
  intros Hq Hf. unfold read_header, file_len, bind at 1. rewrite reading_runs by done. unfold node_at. by rewrite Hq.
Qed.

Lemma zero_filled n : take n ([] ++ replicate (n - length (A := byte) []) nul) = replicate n nul.
Proof. cbn [app length]. rewrite Nat.sub_0_r. apply take_ge. by rewrite length_replicate. Qed.

Section ring_file.
Context (root : path) (id : bytes) (f : fs).
Let p : path := ring_path root id.
Hypothesis Hroot : plain_dir f root.

Lemma root_still n : plain_dir (<[p := n]> f) root.
Proof using Hroot.
  apply (plain_dir_outside f _ root (ring_name id)); [|done].
  apply outside_insert; [apply under_self|]. done.
Qed.

Lemma does_recreate :
  (f !! p = None ∨ ∃ d m xs, f !! p = Some (NFile d m xs)) →
  does (λ g, g = f) (recreate p) (λ q g, q = p ∧ ∃ m xs, g = <[p := NFile fresh_ring m xs]> f).
Proof using Hroot.
  intros Hp. unfold recreate. unfold p at 1, ring_path. rewrite parent_snoc.
  eapply does_bind; [apply does_lift_err, does_create_dir_all; exact Hroot|]. intros ?.
  apply does_bind with (Q := λ q g, q = p ∧ ∃ m xs, g = <[p := NFile [] m xs]> f).
  { apply does_lift_err, does_syscall. intros ? ->. unfold p, ring_path in *.
    destruct Hp as [Hn|(d & m & xs & Hn)].
    - rewrite resolve_new by (done || apply ring_name_plain). cbn [result_bind]. rewrite Hn. eauto 10.
    - erewrite resolve_node by (done || apply ring_name_plain). cbn [result_bind]. rewrite Hn. eauto 10. }
  intros q w [-> (m & xs & Hw)]. revert w Hw.
  set (g0 := <[p := NFile [] m xs]> f).
  change (does (λ g, g = g0)
    (run set_len p (Z.to_nat RESOURCE_RING_BYTES); run write_all_at p (encode_header empty_header) 0;
     run lift_err Os sync; ret p)%io
    (λ q g, q = p ∧ ∃ m xs, g = <[p := NFile fresh_ring m xs]> f)).
  set (zeros := replicate (Z.to_nat RESOURCE_RING_BYTES) nul).
  apply does_bind with (Q := λ _ g, g = <[p := NFile zeros m xs]> f).
  { apply does_lift_err, does_syscall. intros ? ->. eexists _, _. split; [done|].
    erewrite with_data_file by apply lookup_insert_eq. unfold g0. rewrite insert_insert_eq.
    by rewrite zero_filled. }
  intros ?. eapply does_bind; [apply does_write_all_at, lookup_insert_eq|]. intros ?.
  rewrite insert_insert_eq.
  apply does_bind with (Q := λ _ g, g = <[p := NFile fresh_ring m xs]> f).
  - apply does_lift_err, does_syscall. intros ? ->. eauto.
  - intros ?. apply does_ret. intros ? ->. eauto.
Qed.

End ring_file.

Section ring_ops.
Context (root : path) (id : bytes) (f : fs).
Let p : path := ring_path root id.
Hypothesis Hroot : plain_dir f root.

Lemma runs_open_new :
  f !! p = None →
  runs (λ g, g = f) (open_or_recreate p)
    (λ qh g, qh = (p, empty_header) ∧ ∃ m xs, g = <[p := NFile fresh_ring m xs]> f).
Proof using Hroot.
  intros Hn. unfold open_or_recreate.
  set (g0 := <[p := NFile [] 0x1a4 ∅]> f).
  apply runs_bind with (Q := λ q g, q = p ∧ g = g0).
  { apply runs_does, does_lift_err, does_syscall. intros ? ->. unfold p, ring_path.
    rewrite resolve_new by (done || apply ring_name_plain). cbn [result_bind].
    change (root ++ [ring_name id]) with p. rewrite Hn. eauto. }
  intros q w Hf [-> Hw]. unfold bind at 1, attempt.
  rewrite (read_header_empty _ _ 0x1a4 ∅) by (done || (rewrite Hw; apply lookup_insert_eq)).
  pose proof (does_recreate root id g0 (root_still root id f Hroot _)) as Hre.
  assert (runs (λ g, g = g0) (do q := recreate p in ret (q, empty_header))%io
    (λ qh g, qh = (p, empty_header) ∧ ∃ m xs, g = <[p := NFile fresh_ring m xs]> f)) as Hk.
  { apply runs_does. eapply does_bind; [apply Hre; right; eexists _, _, _; apply lookup_insert_eq|]. intros q.
    apply does_ret. intros g (-> & m & xs & ->). split; [done|]. exists m, xs. apply insert_insert_eq. }
  by apply Hk.
Qed.

Lemma does_open_create d m xs :
  f !! p = Some (NFile d m xs) → does (λ g, g = f) (open_create p) (λ q g, q = p ∧ g = f).
Proof using Hroot.
  intros Hp. apply does_lift_err, does_syscall. intros ? ->. unfold p, ring_path.
  erewrite resolve_node by (done || apply ring_name_plain). cbn [result_bind].
  change (root ++ [ring_name id]) with p. rewrite Hp. eauto.
Qed.

Lemma runs_open_existing d m xs h :
  f !! p = Some (NFile d m xs) → ring_holds d h →
  runs (λ g, g = f) (open_or_recreate p) (λ qh g, qh = (p, ring_header h) ∧ g = f).
Proof using Hroot.
  intros Hp Hh. unfold open_or_recreate. eapply runs_bind; [by eapply runs_does, does_open_create|].
  intros q w Hf [-> Hw]. unfold bind, attempt. rewrite (read_header_runs _ _ d m xs h) by (done || by rewrite Hw).
  eexists _, _. by split_and!.
Qed.

(** The ring file of [id] holds the samples [h]; no file holds none. *)
Definition holds_samples (g : fs) (h : option (list ResourceSample)) : Prop :=
  match h with
  | None => g !! p = None
  | Some h => ∃ d m xs, g !! p = Some (NFile d m xs) ∧ ring_holds d h
  end.

Lemma runs_open_or_recreate h :
  holds_samples f h →
  runs (λ g, g = f) (open_or_recreate p)
    (λ qh g, qh = (p, ring_header (default [] h)) ∧
       ∃ d m xs, g = <[p := NFile d m xs]> f ∧ ring_holds d (default [] h)).
Proof using Hroot.
  destruct h as [h|]; cbn.
  - intros (d & m & xs & Hp & Hh). eapply runs_conseq; [by eapply runs_open_existing|].
    intros qh g [-> ->]. split; [done|]. exists d, m, xs. split; [|done]. by rewrite insert_id.
  - intros Hn. eapply runs_conseq; [by apply runs_open_new|].
    intros qh g (-> & m & xs & ->). split; [done|]. exists fresh_ring, m, xs. split; [done|apply fresh_holds].
Qed.

(** The two writes of an append. *)
Lemma does_append_writes d m xs h s :
  ring_holds d h → sample_ok s →
  does (λ g, g = <[p := NFile d m xs]> f)
    (run write_all_at p (encode_record s) (record_offset (next (ring_header h)));
     write_all_at p (encode_header (advance (ring_header h))) 0)%io
    (λ _ g, ∃ d m xs, g = <[p := NFile d m xs]> f ∧ ring_holds d (h ++ [s])).
Proof.
  intros Hd Hs. eapply does_bind; [apply does_write_all_at, lookup_insert_eq|]. intros ?. rewrite insert_insert_eq.
  eapply does_conseq; [apply does_write_all_at, lookup_insert_eq|intros g Hg; exact Hg|]. intros ? ? ->.
  rewrite insert_insert_eq. eexists _, m, xs. split; [done|]. by apply append_holds.
Qed.

Lemma runs_append_locked h s :
  holds_samples f h → sample_ok s →
  runs (λ g, g = f) (append_locked root id s)
    (λ _ g, ∃ d m xs, g = <[p := NFile d m xs]> f ∧ ring_holds d (default [] h ++ [s])).
Proof using Hroot.
  intros Hh Hs. unfold append_locked.
  eapply runs_bind; [apply runs_does, does_lift_err, does_create_dir_all; exact Hroot|]. intros ?.
  eapply runs_bind; [by apply (runs_open_or_recreate h)|]. intros qh w Hf [-> (d & m & xs & Hw & Hd)]. cbn [fst snd].
  exact (runs_does _ _ _ (does_append_writes d m xs _ s Hd Hs) w Hf Hw).
Qed.
End ring_ops.

(** ** Reading a ring file that holds a list of samples *)

Definition in_order (h : list ResourceSample) : Prop :=
  Sorted (λ a b, sampled_at_unix_ms a ≤ sampled_at_unix_ms b) h.

Lemma out_of_order_spec l : out_of_order l = false ↔ in_order l.
Proof.
  induction l as [|a [|b l] IH]; [by split; [constructor|]|by split; [repeat constructor|]|].
  cbn [out_of_order] in *. rewrite orb_false_iff, bool_decide_eq_false, IH. split.
  - intros [Hab Hl]. constructor; [done|]. constructor. lia.
  - inversion 1 as [|? ? Hl Hab]; subst. inversion Hab; subst. split; [lia|done].
Qed.

#[global] Instance in_order_dec l : Decision (in_order l).
Proof. refine (cast_if (decide (out_of_order l = false))); by rewrite <-out_of_order_spec. Defined.

(** The first sample is younger than the second. *)
Definition torn_start (l : list ResourceSample) : bool :=
  match l with a :: b :: _ => bool_decide (sampled_at_unix_ms b < sampled_at_unix_ms a) | _ => false end.

Lemma check_order_ok full l : in_order l → check_order full (l, None) = (l, None).
Proof.
  intros Hl. unfold check_order. rewrite (proj2 (out_of_order_spec l) Hl).
  destruct l as [|a [|b l]]; try by rewrite andb_false_r.
  rewrite bool_decide_eq_false_2, andb_false_r; [done|].
  inversion Hl as [|? ? _ Hab]; inversion Hab; lia.
Qed.

Lemma check_order_bad full l :
  ¬ in_order l →
  check_order full (l, None) = if full && torn_start l then (tail l, Some HeaderTear) else (l, Some OutOfOrder).
Proof.
  intros Hl. unfold check_order. fold (torn_start l). destruct (full && torn_start l); [done|].
  destruct (out_of_order l) eqn:Ho; [done|]. by apply out_of_order_spec in Ho.
Qed.

Lemma read_records_holds q w d m xs start ls ss : ∀ acc,
  w_fs w !! q = Some (NFile d m xs) → w_faults w = [] → Z.of_nat (length d) = RESOURCE_RING_BYTES →
  Forall2 (λ l s, get d (record_offset ((start + l) mod CAPACITY)) 64 = encode_record s ∧ sample_ok s) ls ss →
  read_records q start ls acc None w = (Ok (acc ++ ss, None), w).
Proof.
  intros acc Hq Hf Hl Hls. revert acc. induction Hls as [|l s ls ss [Hget Hs] _ IH]; intros acc; cbn [read_records].
  - by rewrite app_nil_r.
  - unfold bind, attempt, read_exact_at. rewrite reading_runs, Hq by done.
    assert (0 ≤ (start + l) mod CAPACITY < CAPACITY) as Hm by by apply Z.mod_pos_bound.
    rewrite decide_True.
    + rewrite Hget. rewrite (proj2 (record_codec s Hs)). rewrite IH. by rewrite <-app_assoc.
    + rewrite record_offset_eq by lia. unfold RESOURCE_RING_BYTES in Hl. change CAPACITY with 1023 in *. lia.
Qed.

(** The positions the reading loop visits are those of the retained samples. *)
Lemma retained_positions d h (hd := ring_header h) :
  ring_holds d h → Forall sample_ok h →
  Forall2 (λ l s, get d (record_offset (((if decide (count hd = CAPACITY) then next hd else 0) + l) mod CAPACITY)) 64
                  = encode_record s ∧ sample_ok s)
    (seqZ 0 (count hd)) (retained h).
Proof.
  intros Hd Hok. apply Forall2_same_length_lookup. unfold hd, ring_header, retained; cbn [next count].
  set (n := Z.of_nat (length h)).
  assert (length (seqZ 0 (Z.min n CAPACITY)) = length (drop (length h - Z.to_nat CAPACITY) h)) as Hlen
    by (rewrite length_seqZ, length_drop; unfold n; change CAPACITY with 1023; lia).
  split; [done|]. intros i l s Hi Hs.
  apply lookup_seqZ in Hi as [-> Hi]. rewrite lookup_drop in Hs.
  split; [|rewrite Forall_lookup in Hok; by eapply Hok].
  rewrite <-(holds_records _ _ Hd _ _ Hs) by (change CAPACITY with 1023; lia). do 2 f_equal.
  case_decide as Hfull; change CAPACITY with 1023 in *.
  - rewrite Zplus_mod_idemp_l. rewrite <-(Z.mod_add (Z.of_nat _) 1) by lia. f_equal. lia.
  - f_equal. lia.
Qed.

Section reading.
Context (root : path) (id : bytes) (w : world).
Hypothesis Hroot : plain_dir (w_fs w) root.
Hypothesis Hnf : w_faults w = [].

Lemma open_header_missing :
  holds_samples root id (w_fs w) None →
  open_header root id w = (Ok (inl (mkRead [] (Some NotAvailable))), w).
Proof using Hroot Hnf.
  cbn [holds_samples]. intros Hn. unfold open_header, bind, attempt, open_read. rewrite reading_runs by done.
  unfold ring_path in *. rewrite resolve_new by (done || apply ring_name_plain). cbn [result_bind].
  unfold node_at. by rewrite Hn.
Qed.

Lemma open_header_holds d m xs h :
  w_fs w !! ring_path root id = Some (NFile d m xs) → ring_holds d h →
  open_header root id w = (Ok (inr (ring_path root id, ring_header h)), w).
Proof using Hroot Hnf.
  intros Hp Hd. unfold open_header, bind, attempt, open_read. rewrite reading_runs by done.
  assert (resolve (w_fs w) true (ring_path root id) = Ok (ring_path root id)) as ->
    by (eapply resolve_node; [done|apply ring_name_plain|exact Hp|done]).
  cbn [result_bind]. unfold node_at. rewrite Hp. cbn [result_bind map_err].
  by rewrite (read_header_runs _ _ d m xs h).
Qed.

(** A window read up to the check of the order. *)
Lemma read_locked_run h win :
  holds_samples root id (w_fs w) (Some h) → Forall sample_ok h →
  read_locked root id win w =
    (let '(l, corrupt) := check_order (bool_decide (count (ring_header h) = CAPACITY)) (retained h, None) in
     run (if is_none corrupt then ret () else run recreate (ring_path root id); ret ());
     ret (mkRead (retain_window l win) (CorruptRecord <$> corrupt)))%io w.
Proof using Hroot Hnf.
  intros (d & m & xs & Hp & Hd) Hok. unfold read_locked.
  rewrite (bind_run _ _ _ _ _ (open_header_holds d m xs h Hp Hd)).
  by rewrite (bind_run _ _ _ _ _ (read_records_holds _ _ d m xs _ _ _ [] Hp Hnf (holds_len _ _ Hd)
    (retained_positions d h Hd Hok))).
Qed.

Lemma read_locked_holds h win :
  holds_samples root id (w_fs w) (Some h) → Forall sample_ok h → in_order (retained h) →
  read_locked root id win w = (Ok (mkRead (retain_window (retained h) win) None), w).
Proof using Hroot Hnf. intros Hh Hok Hord. by rewrite (read_locked_run h win Hh Hok), check_order_ok. Qed.

Lemma read_locked_bad h win :
  holds_samples root id (w_fs w) (Some h) → Forall sample_ok h → ¬ in_order (retained h) →
  let torn := bool_decide (count (ring_header h) = CAPACITY) && torn_start (retained h) in
  ∃ w' m xs, read_locked root id win w =
      (Ok (mkRead (retain_window (if torn then tail (retained h) else retained h) win)
             (Some (CorruptRecord (if torn then HeaderTear else OutOfOrder)))), w') ∧
    w_faults w' = [] ∧ w_fs w' = <[ring_path root id := NFile fresh_ring m xs]> (w_fs w).
Proof using Hroot Hnf.
  intros Hh Hok Hbad torn. rewrite (read_locked_run h win Hh Hok), check_order_bad by done. fold torn.
  destruct Hh as (d & m & xs & Hp & Hd).
  destruct (runs_does _ _ _ (does_recreate root id (w_fs w) Hroot ltac:(right; eauto)) w Hnf eq_refl)
    as (q & w' & Hre & Hf' & -> & m' & xs' & Hw').
  exists w', m', xs'. split; [|done].
  destruct torn; cbn [is_none]; unfold bind; by rewrite Hre.
Qed.

Lemma read_latest_locked_holds h :
  holds_samples root id (w_fs w) (Some h) → Forall sample_ok h →
  read_latest_locked root id w = (Ok (mkRead (option_list (last h)) None), w).
Proof using Hroot Hnf.
  intros (d & m & xs & Hp & Hd) Hok. unfold read_latest_locked.
  rewrite (bind_run _ _ _ _ _ (open_header_holds d m xs h Hp Hd)).
  destruct (last h) as [s|] eqn:Hlast; cbn [option_list].
  - rewrite last_lookup in Hlast.
    assert (sample_ok s) as Hs by (rewrite Forall_lookup in Hok; by eapply Hok).
    pose proof (lookup_lt_Some _ _ _ Hlast) as Hlt.
    rewrite decide_False by (cbn; change CAPACITY with 1023; lia).
    set (index := (next (ring_header h) + CAPACITY - 1) mod CAPACITY).
    assert (index = Z.of_nat (pred (length h)) mod CAPACITY) as Hindex.
    { unfold index. cbn [next ring_header]. change CAPACITY with 1023.
      rewrite <-Z.add_sub_assoc, Zplus_mod_idemp_l, <-(Z.mod_add (Z.of_nat (pred _)) 1) by lia. f_equal. lia. }
    pose proof (Z.mod_pos_bound (Z.of_nat (pred (length h))) CAPACITY eq_refl) as Hm.
    unfold bind, read_exact_at. rewrite reading_runs, Hp, decide_True; [| |done].
    + rewrite Hindex, (holds_records _ _ Hd _ _ Hlast) by (change CAPACITY with 1023; lia).
      by rewrite (proj2 (record_codec s Hs)).
    + rewrite Hindex, record_offset_eq by lia. pose proof (holds_len _ _ Hd) as Hl.
      unfold RESOURCE_RING_BYTES in Hl. change CAPACITY with 1023 in *. lia.
  - apply last_None in Hlast as ->. by rewrite decide_True.
Qed.
End reading.

(** ** The abstract store *)

Definition last_n {A} (n : nat) (l : list A) : list A := drop (length l - n) l.

(** The newest 512 of the samples that are at most [window_ms] older than the
    newest. *)
Definition spec_window (l : list ResourceSample) (window_ms : Z) : list ResourceSample :=
  match last l with
  | None => []
  | Some newest =>
      last_n MAX_RESOURCE_RESPONSE_RECORDS
        (filter (λ s, sampled_at_unix_ms newest - window_ms ≤ sampled_at_unix_ms s) l)
  end.

(** A ring keeps the newest 1023 samples. *)
Definition kept (h : list ResourceSample) : list ResourceSample := last_n (Z.to_nat CAPACITY) h.

Abbreviation rings := (bytes_map (list ResourceSample)).

(** The answer to a window read of samples that are not in the order of their
    timestamps.  When the ring is full and the first two are the wrong way round,
    the first is taken for a record without its header. *)
Definition spec_disorder (h : list ResourceSample) (window_ms : Z) : ResourceRingRead :=
  if bool_decide (Z.to_nat CAPACITY ≤ length h)%nat && torn_start (kept h)
  then mkRead (spec_window (tail (kept h)) window_ms) (Some (CorruptRecord HeaderTear))
  else mkRead (spec_window (kept h) window_ms) (Some (CorruptRecord OutOfOrder)).

Definition spec_op (H : rings) (op : ring_op) : ring_answer * rings :=
  match op with
  | OpAppend id s => (ADone (Ok ()), <[id := default [] (H !! id) ++ [s]]> H)
  | OpAppendIf id s eligible =>
      (AIf (Ok eligible), if eligible then <[id := default [] (H !! id) ++ [s]]> H else H)
  | OpWindow id win =>
      match H !! id with
      | None => (ARead (mkRead [] (Some NotAvailable)), H)
      | Some h =>
          if decide (in_order (kept h)) then (ARead (mkRead (spec_window (kept h) win) None), H)
          else (ARead (spec_disorder h win), <[id := []]> H)
      end
  | OpLatest id =>
      (ARead match H !! id with
             | None => mkRead [] (Some NotAvailable)
             | Some h => mkRead (option_list (last h)) None
             end, H)
  | OpRemove id => (ADone (Ok ()), delete id H)
  end.

(** Samples in the range of their type, and windows that are not negative. *)
Definition op_allowed (op : ring_op) : Prop :=
  match op with
  | OpAppend _ s | OpAppendIf _ s _ => sample_ok s
  | OpWindow _ win => 0 ≤ win
  | _ => True
  end.

Lemma retain_window_spec l win :
  Forall sample_ok l → 0 ≤ win → retain_window l win = spec_window l win.
Proof.
  intros Hok Hwin. unfold retain_window, spec_window. destruct (last l) as [newest|] eqn:Hl.
  - assert (newest ∈ l) as Hn by (apply last_Some in Hl as [h' ->]; set_solver).
    rewrite Forall_forall in Hok. pose proof (proj1 (Hok _ Hn)) as Hr. unfold last_n.
    rewrite (filter_ext_in _ (λ s, sampled_at_unix_ms newest - win ≤ sampled_at_unix_ms s) l); [done|].
    intros s Hs. pose proof (proj1 (Hok _ Hs)). unfold i64_saturating_sub. lia.
  - apply last_None in Hl as ->. done.
Qed.

Lemma last_last_n {A} n (l : list A) : (0 < n)%nat → last (last_n n l) = last l.
Proof.
  intros Hn. unfold last_n. destruct (last l) as [x|] eqn:Hl.
  - apply last_Some in Hl as [l' ->]. rewrite drop_app_le; [apply last_snoc|]. rewrite length_app; cbn; lia.
  - by apply last_None in Hl as ->.
Qed.
Lemma last_filter {A} (P : A → Prop) `{∀ x, Decision (P x)} (l : list A) x :
  last l = Some x → P x → last (filter P l) = Some x.
Proof.
  intros [l' ->]%last_Some Hx. rewrite filter_app, filter_cons_True by done. apply last_snoc.
Qed.

Lemma spec_window_last h win : 0 ≤ win → last (spec_window (kept h) win) = last h.
Proof.
  intros Hwin. rewrite <-(last_last_n (Z.to_nat CAPACITY) h) by (change (Z.to_nat CAPACITY) with 1023%nat; lia). fold (kept h).
  unfold spec_window. destruct (last (kept h)) as [s|] eqn:Hl; [|done].
  rewrite last_last_n by (unfold MAX_RESOURCE_RESPONSE_RECORDS; lia). apply last_filter; [done|lia].
Qed.

Record store_rep (root : path) (st : ResourceRingState) (f : fs) (H : rings) : Prop := {
  rep_root : plain_dir f root;
  rep_files : ∀ id, holds_samples root id f (H !! id);
  rep_history : ∀ id h, H !! id = Some h → Forall sample_ok h;
  rep_latest : ∀ id s, latest_samples st !! id = Some s → last (default [] (H !! id)) = Some s;
}.

Lemma other_ring root id id' n f h :
  id ≠ id' → holds_samples root id' f h → holds_samples root id' (<[ring_path root id := n]> f) h.
Proof.
  intros Hne. unfold holds_samples. assert (ring_path root id ≠ ring_path root id') by by intros ?%ring_path_inj.
  destruct h; by rewrite lookup_insert_ne.
Qed.

Section step.
Context (root : path) (st : ResourceRingState) (w : world) (H : rings).
Hypothesis Hrep : store_rep root st (w_fs w) H.
Hypothesis Hnf : w_faults w = [].

Lemma default_history id : Forall sample_ok (default [] (H !! id)).
Proof using Hrep. destruct (H !! id) eqn:Hh; [by eapply rep_history|by constructor]. Qed.

(** A new list of samples in the file of [id]. *)
Lemma rep_write id d m xs h st' :
  ring_holds d h → Forall sample_ok h →
  (∀ id', id' ≠ id → latest_samples st' !! id' = latest_samples st !! id') →
  (∀ s, latest_samples st' !! id = Some s → last h = Some s) →
  store_rep root st' (<[ring_path root id := NFile d m xs]> (w_fs w)) (<[id := h]> H).
Proof using Hrep.
  intros Hd Hok Hother Hid. destruct Hrep as [Hr Hf Hh Hl]. split.
  - by apply root_still.
  - intros id'. destruct (decide (id = id')) as [<-|Hne].
    + rewrite lookup_insert_eq. exists d, m, xs. by rewrite lookup_insert_eq.
    + rewrite lookup_insert_ne by done. by apply other_ring.
  - intros id' h'. destruct (decide (id = id')) as [<-|Hne].
    + rewrite lookup_insert_eq. by intros [= <-].
    + rewrite lookup_insert_ne by done. apply Hh.
  - intros id' s'. destruct (decide (id = id')) as [<-|Hne].
    + rewrite lookup_insert_eq. apply Hid.
    + rewrite lookup_insert_ne, Hother by done. apply Hl.
Qed.

Lemma append_step id s :
  sample_ok s →
  ∃ w', append_locked root id s w = (Ok (), w') ∧ w_faults w' = [] ∧
    store_rep root (remember id s st) (w_fs w') (<[id := default [] (H !! id) ++ [s]]> H).
Proof using Hrep Hnf.
  intros Hs. destruct (runs_append_locked root id (w_fs w) (rep_root _ _ _ _ Hrep) (H !! id) s (rep_files _ _ _ _ Hrep id) Hs w Hnf eq_refl)
    as ([] & w' & Hrun & Hff & d & m & xs & Hw & Hd).
  exists w'. split; [done|]. split; [done|]. rewrite Hw. apply rep_write.
  - done.
  - apply Forall_app_2; [apply default_history|by constructor].
  - intros id' Hne. unfold remember; cbn [latest_samples]. by rewrite lookup_insert_ne.
  - unfold remember; cbn [latest_samples]. intros s'. rewrite lookup_insert_eq. intros [= <-]. apply last_snoc.
Qed.

(** Updating the memory with the answer of a read keeps the representation. *)
Lemma rep_forget id : store_rep root (forget id st) (w_fs w) H.
Proof using Hrep.
  destruct Hrep as [Hr Hf Hh Hl]. split; try done.
  intros id' s. unfold forget; cbn [latest_samples]. intros [_ Hs]%lookup_delete_Some. by apply Hl.
Qed.

Lemma rep_remember id s : last (default [] (H !! id)) = Some s → store_rep root (remember id s st) (w_fs w) H.
Proof using Hrep.
  intros Hs. destruct Hrep as [Hr Hf Hh Hl]. split; try done.
  intros id' s'. unfold remember; cbn [latest_samples].
  intros [[<- <-]|[_ ?]]%lookup_insert_Some; [done|by apply Hl].
Qed.

Lemma answer_step id c r :
  c w = (Ok r, w) →
  (error r = None → ∀ s, last (samples r) = Some s → last (default [] (H !! id)) = Some s) →
  ∃ st', answer id c st w = (r, st', w) ∧ store_rep root st' (w_fs w) H.
Proof using Hrep.
  intros Hc Hs. unfold answer. rewrite Hc. eexists. split; [done|].
  destruct (error r); [apply rep_forget|]. destruct (last (samples r)) as [s|]; [|done].
  by apply rep_remember, Hs.
Qed.

Lemma window_in_order id win h :
  0 ≤ win → H !! id = Some h → in_order (kept h) →
  ∃ st', answer id (read_locked root id win) st w = (mkRead (spec_window (kept h) win) None, st', w) ∧ store_rep root st' (w_fs w) H.
Proof using Hrep Hnf.
  intros Hwin Hh Hord. pose proof (rep_files _ _ _ _ Hrep id) as Hf. rewrite Hh in Hf. pose proof (rep_history _ _ _ _ Hrep _ _ Hh) as Hok.
  apply answer_step.
  - rewrite (read_locked_holds root id w (rep_root _ _ _ _ Hrep) Hnf h win) by done. by rewrite retain_window_spec by (done || by apply Forall_drop).
  - intros _ s Hs. rewrite Hh. cbn. rewrite <-Hs. symmetry. by apply spec_window_last.
Qed.

Lemma window_disorder id win h :
  0 ≤ win → H !! id = Some h → ¬ in_order (kept h) →
  ∃ w', answer id (read_locked root id win) st w = (spec_disorder h win, forget id st, w') ∧ w_faults w' = [] ∧
    store_rep root (forget id st) (w_fs w') (<[id := []]> H).
Proof using Hrep Hnf.
  intros Hwin Hh Hord. pose proof (rep_files _ _ _ _ Hrep id) as Hf. rewrite Hh in Hf. pose proof (rep_history _ _ _ _ Hrep _ _ Hh) as Hok.
  destruct (read_locked_bad root id w (rep_root _ _ _ _ Hrep) Hnf h win Hf Hok Hord) as (w' & m & xs & Hrun & Hff & Hw).
  exists w'. split; [|split; [done|]].
  - unfold answer. rewrite Hrun. unfold spec_disorder. fold (kept h) in *. change (retained h) with (kept h).
    assert (bool_decide (count (ring_header h) = CAPACITY) = bool_decide (Z.to_nat CAPACITY ≤ length h)%nat) as ->
      by (apply bool_decide_ext; cbn [count ring_header]; change CAPACITY with 1023; lia).
    assert (Forall sample_ok (kept h)) as Hk by by apply Forall_drop.
    assert (Forall sample_ok (tail (kept h))) as Ht by by destruct Hk.
    clear Hrun. destruct (_ && _); cbv beta iota zeta; cbn [error]; rewrite retain_window_spec by done; reflexivity.
  - rewrite Hw. apply rep_write; [apply fresh_holds|constructor| |]; unfold forget; cbn [latest_samples].
    + intros id' Hne. by rewrite lookup_delete_ne.
    + intros s. by rewrite lookup_delete_eq.
Qed.

Lemma window_step id win :
  0 ≤ win → ∃ st' w', run_op root (OpWindow id win) st w = ((spec_op H (OpWindow id win)).1, st', w') ∧ w_faults w' = [] ∧
    store_rep root st' (w_fs w') (spec_op H (OpWindow id win)).2.
Proof using Hrep Hnf.
  intros Hwin. cbn [run_op spec_op]. unfold read_window. destruct (H !! id) as [h|] eqn:Hh.
  - case_decide as Hord.
    + destruct (window_in_order id win h Hwin Hh Hord) as (st' & -> & Hst). eauto.
    + destruct (window_disorder id win h Hwin Hh Hord) as (w' & -> & Hff & Hst). eauto.
  - pose proof (rep_files _ _ _ _ Hrep id) as Hf. rewrite Hh in Hf.
    destruct (answer_step id (read_locked root id win) (mkRead [] (Some NotAvailable))) as (st' & -> & Hst); [|done|eauto].
    unfold read_locked. by rewrite (bind_run _ _ _ _ _ (open_header_missing root id w (rep_root _ _ _ _ Hrep) Hnf Hf)).
Qed.

Lemma latest_step id :
  ∃ st', run_op root (OpLatest id) st w = ((spec_op H (OpLatest id)).1, st', w) ∧
    store_rep root st' (w_fs w) H.
Proof using Hrep Hnf.
  cbn [run_op spec_op fst]. unfold read_latest. pose proof (rep_files _ _ _ _ Hrep id) as Hf.
  pose proof (rep_root _ _ _ _ Hrep) as Hr.
  destruct (latest_samples st !! id) as [s|] eqn:Hl.
  { pose proof (rep_latest _ _ _ _ Hrep _ _ Hl) as Hlast.
    destruct (H !! id) as [h|]; [|done]. cbn in Hlast. rewrite Hlast. eauto. }
  destruct (H !! id) as [h|] eqn:Hh.
  - pose proof (rep_history _ _ _ _ Hrep _ _ Hh) as Hok.
    destruct (answer_step id (read_latest_locked root id) (mkRead (option_list (last h)) None)) as (st' & -> & Hst).
    + by apply (read_latest_locked_holds root id w Hr Hnf).
    + intros _ s. rewrite Hh. cbn. by destruct (last h).
    + eauto.
  - destruct (answer_step id (read_latest_locked root id) (mkRead [] (Some NotAvailable))) as (st' & -> & Hst).
    + unfold read_latest_locked. by rewrite (bind_run _ _ _ _ _ (open_header_missing root id w Hr Hnf Hf)).
    + done.
    + eauto.
Qed.

Lemma remove_step id :
  ∃ w', remove root id st w = (Ok (), forget id st, w') ∧ w_faults w' = [] ∧
    store_rep root (forget id st) (w_fs w') (delete id H).
Proof using Hrep Hnf.
  unfold remove. destruct (remove_file (ring_path root id) w) as [r w'] eqn:Hrm.
  assert (w_faults w' = [] ∧
    (r = Ok () ∧ w_fs w' = delete (ring_path root id) (w_fs w) ∨
     r = Err ENOENT ∧ w_fs w' = w_fs w ∧ w_fs w !! ring_path root id = None)) as [Hff Hcase].
  { pose proof (rep_files _ _ _ _ Hrep id) as Hf. pose proof (rep_root _ _ _ _ Hrep) as Hr.
    assert (resolve (w_fs w) false (ring_path root id) = Ok (ring_path root id)) as Hres
      by (apply resolve_child; [done|apply ring_name_plain]).
    unfold remove_file in Hrm. rewrite syscall_no_fault, Hres in Hrm by done. cbn [result_bind] in Hrm.
    destruct (H !! id) as [h|] eqn:Hh.
    - destruct Hf as (d & m & xs & Hd & _). rewrite Hd in Hrm. injection Hrm as <- <-. auto.
    - cbn in Hf. rewrite Hf in Hrm. injection Hrm as <- <-. auto. }
  exists w'. split; [|split; [done|]].
  { destruct Hcase as [(-> & _)|(-> & _)]; done. }
  assert (∀ q, q ≠ ring_path root id → w_fs w' !! q = w_fs w !! q) as Hother.
  { intros q Hq. destruct Hcase as [(_ & ->)|(_ & -> & _)]; [by rewrite lookup_delete_ne|done]. }
  assert (w_fs w' !! ring_path root id = None) as Hgone.
  { destruct Hcase as [(_ & ->)|(_ & -> & ?)]; [apply lookup_delete_eq|done]. }
  destruct Hrep as [Hr Hf Hh Hl]. split.
  - apply (plain_dir_outside (w_fs w) _ root (ring_name id)); [|done].
    intros q Hq. apply Hother. intros ->. apply Hq, under_self.
  - intros id'. destruct (decide (id = id')) as [<-|Hne]; [by rewrite lookup_delete_eq|].
    rewrite lookup_delete_ne by done. specialize (Hf id'). unfold holds_samples in *.
    assert (ring_path root id' ≠ ring_path root id) by (by intros ?%ring_path_inj; simplify_eq).
    destruct (H !! id'); by rewrite Hother.
  - intros id' h [_ ?]%lookup_delete_Some. by eapply Hh.
  - intros id' s. unfold forget; cbn [latest_samples]. intros [Hne Hs]%lookup_delete_Some.
    rewrite lookup_delete_ne by done. by apply Hl.
Qed.

(** One operation is answered as by the abstract store. *)
Lemma op_step op :
  op_allowed op →
  ∃ st' w', run_op root op st w = ((spec_op H op).1, st', w') ∧ w_faults w' = [] ∧
    store_rep root st' (w_fs w') (spec_op H op).2.
Proof using Hrep Hnf.
  intros Hop. destruct op as [id s|id s [] |id win|id|id].
  - destruct (append_step id s Hop) as (w' & Ha & ? & ?). cbn [run_op]. unfold append. rewrite Ha. eauto.
  - destruct (append_step id s Hop) as (w' & Ha & ? & ?). cbn [run_op]. unfold append_if; cbn [negb].
    rewrite Ha. eauto.
  - cbn. eauto 10.
  - by apply window_step.
  - destruct (latest_step id) as (st' & -> & ?). eauto.
  - destruct (remove_step id) as (w' & Hr & ? & ?). cbn [run_op]. rewrite Hr. cbn. eauto.
Qed.
End step.

(** Sequences of operations. *)
Fixpoint run_ops (root : path) (ops : list ring_op) (st : ResourceRingState) (w : world) : list ring_answer :=
  match ops with
  | [] => []
  | op :: ops => let '(a, st, w) := run_op root op st w in a :: run_ops root ops st w
  end.

Fixpoint spec_ops (H : rings) (ops : list ring_op) : list ring_answer :=
  match ops with [] => [] | op :: ops => (spec_op H op).1 :: spec_ops (spec_op H op).2 ops end.

Lemma ops_refine root ops : ∀ st w H,
  store_rep root st (w_fs w) H → w_faults w = [] → Forall op_allowed ops → run_ops root ops st w = spec_ops H ops.
Proof.
  induction ops as [|op ops IH]; intros st w H Hrep Hnf Hall; [done|].
  apply Forall_cons in Hall as [Hop Hall]. cbn [run_ops spec_ops].
  destruct (op_step root st w H Hrep Hnf op Hop) as (st' & w' & -> & Hnf' & Hrep'). f_equal. by apply IH.
Qed.

(** C22: over any sequence of appends, reads and removals in which no call fails
    and the windows are not negative, the store answers like a map from sandboxes
    to the list of their samples.  The latest read gives the newest sample.  A
    window read looks at the newest 1023: when their timestamps do not go back it
    gives those at most [window_ms] older than the newest, at most 512; when they
    go back it reports corruption and the list becomes empty. *)
Theorem ring_store_refines root f st n ops :
  store_rep root st f ∅ → Forall op_allowed ops →
  run_ops root ops st (mkWorld f n []) = spec_ops ∅ ops.
Proof. intros Hrep. by apply (ops_refine root ops st (mkWorld f n [])). Qed.

Lemma not_in_order_snoc h a s : last h = Some a → sampled_at_unix_ms s < sampled_at_unix_ms a → ¬ in_order (h ++ [s]).
Proof.
  intros [h' ->]%last_Some Hlt Hord. rewrite <-app_assoc in Hord. cbn [app] in Hord.
  induction h' as [|x h' IH]; cbn [app] in Hord; inversion Hord as [|? ? Hs Hhd]; subst; [|by apply IH].
  inversion Hhd. lia.
Qed.

Lemma kept_snoc h s : ∃ h0, kept (h ++ [s]) = h0 ++ [s] ∧ last h0 = last h.
Proof.
  exists (last_n 1022 h). split.
  - unfold kept, last_n. change (Z.to_nat CAPACITY) with 1023%nat. rewrite length_app. cbn [length].
    rewrite drop_app_le by lia. f_equal. f_equal. lia.
  - apply last_last_n. lia.
Qed.

(** A clock that steps back empties the ring.  When a sample is appended that
    is older than the newest one, the next window read reports corruption, and
    after it the ring has no sample, although no call failed. *)
Theorem clock_step_back_empties_ring root st w H id h a s win :
  store_rep root st (w_fs w) H → w_faults w = [] → H !! id = Some h → last h = Some a → sample_ok s →
  sampled_at_unix_ms s < sampled_at_unix_ms a → 0 ≤ win →
  ∃ r, run_ops root [OpAppend id s; OpWindow id win; OpLatest id] st w = [ADone (Ok ()); ARead r; ARead (mkRead [] None)] ∧
    error r ≠ None.
Proof.
  intros Hrep Hnf Hh Ha Hs Hlt Hwin. exists (spec_disorder (h ++ [s]) win). split; [|unfold spec_disorder; by destruct (_ && _)].
  rewrite (ops_refine root _ st w H) by (done || (repeat apply Forall_cons_2; done)). cbn [spec_ops spec_op fst snd]. rewrite Hh. cbn [default].
  rewrite lookup_insert_eq. assert (¬ in_order (kept (h ++ [s]))) as Hno.
  { destruct (kept_snoc h s) as (h0 & -> & Hl). eapply not_in_order_snoc; [by rewrite Hl|done]. }
  rewrite (decide_False (P := in_order _)) by done. cbn [fst snd]. rewrite !lookup_insert_eq. done.
Qed.

(** ** A failing append *)

Lemma header_ends h1 h2 :
  get (encode_header h1) 0 24 = get (encode_header h2) 0 24 ∧
  get (encode_header h1) 48 16 = get (encode_header h2) 48 16.
Proof.
  unfold encode_header. set (m := overwrite _ 0 MAGIC). assert (length m = 64%nat) as Hm by by vm_compute.
  set (b := put_u32 (put_u32 (put_u32 (put_u32 m _ _) _ _) _ _) _ _).
  assert (length b = 64%nat) as Hb by (unfold b; block). clearbody b.
  split; field; done.
Qed.

Lemma get_overwrite_prefix b data n :
  (length data ≤ n ≤ length b)%nat → get (overwrite b 0 data) 0 n = data ++ drop (length data) (get b 0 n).
Proof.
  intros Hn. unfold get. rewrite overwrite_fit by lia. rewrite take_0, !drop_0. cbn [app Nat.add].
  rewrite take_app_ge by lia. f_equal. by rewrite skipn_firstn_comm.
Qed.

(** A header written in part: as before, as after, or a mixture of both. *)
Lemma torn_header old new k :
  header_ok old → header_ok new →
  let b := take k (encode_header new) ++ drop k (encode_header old) in
  b = encode_header old ∨ b = encode_header new ∨ (24 < k < 48)%nat.
Proof.
  intros Hold Hnew b. destruct (header_ends old new) as [Hlo Hhi]. unfold get in Hlo, Hhi. rewrite !drop_0 in Hlo.
  apply length_encode_header in Hold, Hnew.
  rewrite !(take_ge _ 16) in Hhi by (rewrite length_drop; lia).
  destruct (decide (k ≤ 24)%nat); [left|destruct (decide (48 ≤ k)%nat); [right; left|right; right; lia]].
  - unfold b. rewrite <-(take_drop k (encode_header old)) at 2. f_equal.
    rewrite <-(Nat.min_l k 24) by lia. by rewrite <-!take_take, Hlo.
  - unfold b. rewrite <-(take_drop k (encode_header new)) at 2. f_equal.
    replace k with (48 + (k - 48))%nat by lia. by rewrite <-!drop_drop, Hhi.
Qed.

Lemma hoare_write_all_at f q d m xs data o (R Q : fs → Prop) :
  f !! q = Some (NFile d m xs) →
  (∀ k, R (<[q := NFile (overwrite d o (take k data)) m xs]> f)) →
  Q (<[q := NFile (overwrite d o data) m xs]> f) →
  hoare (λ g, g = f) (write_all_at q data o) (λ _, Q) R.
Proof.
  intros Hq HR HQ w r w'. unfold write_all_at, bind, fault, reads, fail, set_fs.
  destruct (w_faults w) as [|[k|] ys]; intros Hrun Hw; simplify_eq/=;
    rewrite (with_data_file _ _ d m xs); auto.
Qed.

Section failed.
Context (root : path) (id : bytes) (s : ResourceSample) (f : fs) (h : list ResourceSample).
Context (d : bytes) (m : Z) (xs : gset bytes).
Let p : path := ring_path root id.
Hypothesis Hp : f !! p = Some (NFile d m xs).
Hypothesis Hd : ring_holds d h.
Hypothesis Hs : sample_ok s.

(** The states a failing append can leave. *)
Definition append_left (d' : bytes) : Prop :=
  ring_holds d' h ∨ ring_holds d' (h ++ [s]) ∨
  ∃ k, (24 < k < 48)%nat ∧
    get d' 0 64 = take k (encode_header (ring_header (h ++ [s]))) ++ drop k (encode_header (ring_header h)).

Lemma torn_header_left k (slot := record_offset (next (ring_header h))) :
  Z.of_nat (length h) < CAPACITY →
  append_left (overwrite (overwrite d slot (encode_record s)) 0 (take k (encode_header (advance (ring_header h))))).
Proof using Hd Hs.
  intros Hcap. pose proof (append_holds d h s Hd Hs) as [Hl Hh Hr].
  pose proof (torn_record_holds d h s Hd Hs 64 Hcap) as [Hl0 Hh0 Hr0].
  pose proof (length_encode_record s Hs) as Hes. rewrite take_ge in Hl0, Hh0, Hr0 by lia.
  fold slot in Hl, Hh, Hr, Hl0, Hh0, Hr0. set (d1 := overwrite d slot (encode_record s)) in *.
  rewrite advance_header with (s := s) in *. set (new := ring_header (h ++ [s])) in *.
  pose proof (length_encode_header new (ring_header_ok _)) as Hnew.
  assert (length (take k (encode_header new)) ≤ 64)%nat as Ht by (rewrite length_take; lia).
  unfold RESOURCE_RING_BYTES in *.
  assert (get (overwrite d1 0 (take k (encode_header new))) 0 64 =
    take k (encode_header new) ++ drop k (encode_header (ring_header h))) as Hget.
  { rewrite get_overwrite_prefix, Hh0 by lia. f_equal. rewrite length_take, Hnew.
    destruct (decide (k ≤ 64)%nat); [by rewrite Nat.min_l|]. rewrite Nat.min_r by lia.
    by rewrite !drop_ge by (rewrite length_encode_header by apply ring_header_ok; lia). }
  assert (Z.of_nat (length (overwrite d1 0 (take k (encode_header new)))) = 64 * 1024) as Hlen
    by (rewrite length_overwrite by lia; lia).
  destruct (torn_header (ring_header h) new k (ring_header_ok _) (ring_header_ok _)) as [Hb|[Hb|Hk]].
  - left. split; [exact Hlen|rewrite Hget; exact Hb|]. intros i x Hi Hret.
    rewrite get_overwrite_ne; [exact (Hr0 i x Hi Hret)|lia|]. right.
    pose proof (Z.mod_pos_bound (Z.of_nat i) CAPACITY eq_refl). rewrite record_offset_eq by lia. lia.
  - right; left. split; [exact Hlen|rewrite Hget; exact Hb|]. intros i x Hi Hret. rewrite <-(Hr i x Hi Hret).
    pose proof (Z.mod_pos_bound (Z.of_nat i) CAPACITY eq_refl).
    assert (64 ≤ record_offset (Z.of_nat i mod CAPACITY))%nat by (rewrite record_offset_eq by lia; lia).
    by rewrite !get_overwrite_ne by lia.
  - right; right. eauto.
Qed.

(** The writes of an append, whichever of them fails. *)
Lemma append_writes_left :
  Z.of_nat (length h) < CAPACITY →
  hoare (λ g, g = f)
    (run write_all_at p (encode_record s) (record_offset (next (ring_header h)));
     write_all_at p (encode_header (advance (ring_header h))) 0)%io
    (λ _ _, True) (λ g, ∃ d', g = <[p := NFile d' m xs]> f ∧ append_left d').
Proof using Hp Hd Hs.
  intros Hcap. set (R := λ g, ∃ d', g = <[p := NFile d' m xs]> f ∧ append_left d').
  set (d1 := overwrite d (record_offset (next (ring_header h))) (encode_record s)).
  apply hoare_bind with (Q := λ _ g, g = <[p := NFile d1 m xs]> f).
  - apply (hoare_write_all_at f p d m xs _ _ R (λ g, g = <[p := NFile d1 m xs]> f)); [exact Hp| |done].
    intros k. eexists. split; [done|]. left. by apply torn_record_holds.
  - intros []. apply (hoare_write_all_at _ p d1 m xs _ _ R (λ _, True)); [apply lookup_insert_eq| |done].
    intros k. rewrite insert_insert_eq. eexists. split; [done|]. by apply torn_header_left.
Qed.
End failed.

(** *** The calls of an append, in order *)

Section append_calls.
Context (root : path) (id : bytes) (s : ResourceSample) (h : list ResourceSample).
Let p : path := ring_path root id.
Hypothesis Hne : root ≠ [].

Lemma mkdir_call w : plain_dir (w_fs w) root →
  lift_err Os (create_dir_all root) w = (Ok (), mkWorld (w_fs w) (w_unique w) (tail (w_faults w))).
Proof using Hne.
  intros Hd. unfold lift_err, create_dir_all. assert (resolve (w_fs w) false root = Ok root) as Hres.
  { unfold resolve. rewrite <-(app_nil_r root) at 1. by rewrite walk_plain. }
  pose proof (plain_dir_at _ _ Hd) as Hat. unfold dir_at in Hat.
  assert (is_dir (w_fs w) root = true) as Hdir.
  { unfold is_dir, metadata, resolve. rewrite <-(app_nil_r root), walk_plain by done. cbn. unfold node_at. by destruct (w_fs w !! root). }
  destruct (length root) as [|n] eqn:Hlen; [by apply nil_length_inv in Hlen|]. cbn [create_dir_all_from]. rewrite decide_False by done.
  unfold bind, attempt, sys_mkdir, syscall, bind, fault, reads, fail. destruct w as [g u [|[k|] ys]]; cbn [w_faults w_fs w_unique tail] in *.
  all: rewrite ?Hres; cbn [result_bind]; rewrite ?decide_False by (by intros Hn; rewrite Hn in Hat); cbn [w_fs]; by rewrite Hdir.
Qed.

Lemma open_call w d m xs : plain_dir (w_fs w) root → w_fs w !! p = Some (NFile d m xs) →
  open_create p w = (match head (w_faults w) with Some (Some _) => Err (Os EIO) | _ => Ok p end,
                     mkWorld (w_fs w) (w_unique w) (tail (w_faults w))).
Proof.
  intros Hd Hp. assert (resolve (w_fs w) true p = Ok p) as Hres by (eapply resolve_node; [done|apply ring_name_plain|exact Hp|done]).
  unfold open_create, lift_err, syscall, bind, fault, reads. destruct w as [g u [|[k|] ys]]; cbn [w_faults w_fs w_unique head tail] in *.
  all: rewrite ?Hres; cbn [result_bind]; rewrite ?Hp; done.
Qed.

(** After the call that opens, two calls read the header. *)
Lemma open_or_recreate_call w d m xs :
  plain_dir (w_fs w) root → w_fs w !! p = Some (NFile d m xs) → ring_holds d h → header_read (tail (w_faults w)) →
  ∃ r w1, open_or_recreate p w = (r, w1) ∧ w_fs w1 = w_fs w ∧
    (r = Err (Os EIO) ∧ (∃ k, head (w_faults w) = Some (Some k)) ∨ r = Ok (p, ring_header h) ∧ w_faults w1 = drop 3 (w_faults w)).
Proof.
  intros Hd Hp Hh Hr. pose proof (open_call w d m xs Hd Hp) as Ho. unfold open_or_recreate.
  assert (tail (tail (tail (w_faults w))) = drop 3 (w_faults w)) as Hdrop by by destruct (w_faults w) as [|? [|? []]].
  destruct (head (w_faults w)) as [[k|]|].
  - eexists _, _. split; [unfold bind; rewrite Ho; reflexivity|]. eauto 10.
  - rewrite (bind_run _ _ _ _ _ Ho). unfold bind, attempt. rewrite (read_header_holds _ _ d m xs h) by done. eexists _, _. auto.
  - rewrite (bind_run _ _ _ _ _ Ho). unfold bind, attempt. rewrite (read_header_holds _ _ d m xs h) by done. eexists _, _. auto.
Qed.

(** So these are the third and the fourth call of an append. *)
Lemma append_locked_calls w d m xs :
  plain_dir (w_fs w) root → w_fs w !! p = Some (NFile d m xs) → ring_holds d h → header_read (drop 2 (w_faults w)) →
  ∃ w1, w_fs w1 = w_fs w ∧
    (append_locked root id s w = (Err (Os EIO), w1) ∧ (∃ k, head (tail (w_faults w)) = Some (Some k)) ∨
     w_faults w1 = drop 4 (w_faults w) ∧ append_locked root id s w =
       (run write_all_at p (encode_record s) (record_offset (next (ring_header h)));
        write_all_at p (encode_header (advance (ring_header h))) 0)%io w1).
Proof using Hne.
  intros Hd Hp Hh Hr. unfold append_locked. rewrite (bind_run _ _ _ _ _ (mkdir_call w Hd)). fold p.
  destruct (open_or_recreate_call (mkWorld (w_fs w) (w_unique w) (tail (w_faults w))) d m xs Hd Hp Hh) as (r & w1 & Ho & Hw1 & Hcase).
  { cbn [w_faults]. by destruct (w_faults w) as [|? []]. }
  exists w1. split; [exact Hw1|]. destruct Hcase as [[-> Hk]|[-> Hf]].
  - left. split; [|exact Hk]. unfold bind. by rewrite Ho.
  - right. split; [rewrite Hf; by destruct (w_faults w)|]. by rewrite (bind_run _ _ _ _ _ Ho).
Qed.

(** A failing read of the header: the ring starts anew. *)
Lemma append_locked_restarts w d m xs a k :
  plain_dir (w_fs w) root → w_fs w !! p = Some (NFile d m xs) → Z.of_nat (length d) = RESOURCE_RING_BYTES → sample_ok s →
  w_faults w = [a; None; Some k] ∨ w_faults w = [a; None; None; Some k] →
  ∃ w', append_locked root id s w = (Ok (), w') ∧ holds_samples root id (w_fs w') (Some [s]).
Proof using Hne.
  intros Hd Hp Hl Hs Hf. unfold append_locked. rewrite (bind_run _ _ _ _ _ (mkdir_call w Hd)). fold p.
  set (w1 := mkWorld _ _ _). assert (∃ w2, open_create p w1 = (Ok p, w2) ∧ w_fs w2 = w_fs w ∧ ∃ e w3, read_header p w2 = (Err e, w3) ∧
    w_fs w3 = w_fs w ∧ w_faults w3 = []) as (w2 & Hopen & Hw2 & e & w3 & Hread & Hw3 & Hf3).
  { rewrite (open_call w1 d m xs Hd Hp). unfold w1. cbn [w_fs w_unique w_faults].
    destruct Hf as [-> | ->]; cbn [head tail]; eexists; (split; [reflexivity|]; split; [done|]).
    - eexists _, _. split; [reflexivity|done].
    - unfold read_header, file_len, bind at 1. rewrite reading_next by done. cbn [w_fs w_unique w_faults tail]. unfold node_at. rewrite Hp.
      cbn [result_bind map_err n_len]. rewrite Hl, decide_False by auto. eexists _, _. split; [reflexivity|done]. }
  destruct (runs_does _ _ _ (does_recreate root id (w_fs w) Hd ltac:(right; eauto)) w3 Hf3 Hw3) as (q & w4 & Hre & Hf4 & -> & m' & xs' & Hw4).
  fold p in Hre, Hw4. assert (open_or_recreate p w1 = (Ok (p, ring_header []), w4)) as Ho.
  { unfold open_or_recreate. rewrite (bind_run _ _ _ _ _ Hopen). unfold bind, attempt. rewrite Hread, Hre. done. }
  rewrite (bind_run _ _ _ _ _ Ho). cbn [fst snd].
  destruct (runs_does _ _ _ (does_append_writes root id (w_fs w) fresh_ring m' xs' [] s fresh_holds Hs) w4 Hf4 Hw4)
    as ([] & w5 & Hrun & _ & d5 & m5 & xs5 & Hw5 & Hd5).
  exists w5. split; [exact Hrun|]. exists d5, m5, xs5. rewrite Hw5, lookup_insert_eq. done.
Qed.
End append_calls.

(** C36: an append to a ring that is not full and in which any call fails but the
    two that read the header, a write possibly halfway, touches only the ring file
    and leaves there the samples of before, or those with the new one, or a header
    that is half written between its indices and its checksum. *)
Theorem failed_append_keeps_samples root id s w h e w' :
  root ≠ [] → plain_dir (w_fs w) root → holds_samples root id (w_fs w) (Some h) → sample_ok s →
  Z.of_nat (length h) < CAPACITY → header_read (drop 2 (w_faults w)) → append_locked root id s w = (Err e, w') →
  ∃ d m xs, w_fs w' = <[ring_path root id := NFile d m xs]> (w_fs w) ∧ append_left s h d.
Proof.
  intros Hne Hroot (d & m & xs & Hp & Hd) Hs Hcap Hr Hrun.
  destruct (append_locked_calls root id s h Hne w d m xs Hroot Hp Hd Hr) as (w1 & Hw1 & [[Hrun1 _]|[_ Hrun1]]); rewrite Hrun in Hrun1.
  - injection Hrun1 as -> ->. exists d, m, xs. rewrite Hw1. split; [by rewrite insert_id|by left].
  - symmetry in Hrun1. destruct (append_writes_left root id s _ h d m xs Hp Hd Hs Hcap _ _ _ Hrun1 Hw1) as (d' & Hw & Hleft). eauto.
Qed.

(** C37: a failing read of the header loses every sample.  When the only failing
    call of an append is the read of the length or of the header of the ring, the
    append succeeds, and the ring holds the new sample alone. *)
Theorem failed_header_read_loses_samples root id s w h a k :
  root ≠ [] → plain_dir (w_fs w) root → holds_samples root id (w_fs w) (Some h) → sample_ok s →
  w_faults w = [a; None; Some k] ∨ w_faults w = [a; None; None; Some k] →
  ∃ w', append_locked root id s w = (Ok (), w') ∧ holds_samples root id (w_fs w') (Some [s]).
Proof.
  intros Hne Hroot (d & m & xs & Hp & Hd) Hs Hf. by eapply append_locked_restarts; [..|apply (holds_len _ _ Hd)| |].
Qed.

(** ** Concrete runs *)

Definition demo_root : path := [bytes_of "rings"].
Definition demo_sample (t : Z) : ResourceSample := mkSample t (mkMetrics (Some 7) None (Some 9) None None).
Definition demo_fs : fs := <[[] := NDir 0x1ed ∅]> (<[demo_root := NDir 0x1ed ∅]> ∅).

Lemma demo_sample_ok t : - 2 ^ 63 ≤ t < 2 ^ 63 → sample_ok (demo_sample t).
Proof.
  intros Ht. split; [done|]. cbn. unfold u64. intros v Hv.
  repeat (apply elem_of_cons in Hv as [[= ->]|Hv]); try lia. by apply elem_of_nil in Hv.
Qed.

Lemma demo_rep : store_rep demo_root (mkRings ∅) demo_fs ∅.
Proof.
  split.
  - by apply plain_check_dir; vm_compute.
  - intros id. rewrite lookup_empty. cbn. unfold demo_fs.
    rewrite !lookup_insert_ne by (unfold ring_path, demo_root; intros [=]). apply lookup_empty.
  - intros id h. by rewrite lookup_empty.
  - intros id s. cbn. by rewrite lookup_empty.
Qed.

Lemma ring_store_refines_witness :
  let ops := [OpWindow (bytes_of "a") 50; OpAppend (bytes_of "a") (demo_sample 0);
              OpAppend (bytes_of "a") (demo_sample 100); OpAppend (bytes_of "a") (demo_sample 120);
              OpWindow (bytes_of "a") 50; OpLatest (bytes_of "a"); OpAppend (bytes_of "a") (demo_sample 90);
              OpWindow (bytes_of "a") 10; OpWindow (bytes_of "a") 50; OpRemove (bytes_of "a"); OpLatest (bytes_of "a")] in
  run_ops demo_root ops (mkRings ∅) (mkWorld demo_fs 0 []) =
  [ARead (mkRead [] (Some NotAvailable)); ADone (Ok ()); ADone (Ok ()); ADone (Ok ());
   ARead (mkRead [demo_sample 100; demo_sample 120] None); ARead (mkRead [demo_sample 120] None); ADone (Ok ());
   ARead (mkRead [demo_sample 100; demo_sample 120; demo_sample 90] (Some (CorruptRecord OutOfOrder))); ARead (mkRead [] None);
   ADone (Ok ()); ARead (mkRead [] (Some NotAvailable))].
Proof.
  intros ops. transitivity (spec_ops ∅ ops); [|vm_compute; reflexivity].
  apply ring_store_refines; [apply demo_rep|].
  unfold ops. repeat apply Forall_cons_2; try apply Forall_nil_2; cbn [op_allowed]; try (apply demo_sample_ok; lia); done.
Defined.

(** A store with one ring that was just created. *)
Definition demo_id : bytes := bytes_of "a".
Definition demo_ring : fs := <[ring_path demo_root demo_id := NFile fresh_ring 0x1a4 ∅]> demo_fs.

Lemma demo_ring_rep : store_rep demo_root (mkRings ∅) demo_ring {[demo_id := []]}.
Proof.
  apply (rep_write demo_root (mkRings ∅) (mkWorld demo_fs 0 []) ∅ demo_rep demo_id fresh_ring 0x1a4 ∅ [] (mkRings ∅) fresh_holds);
    [constructor|done|]. intros s. cbn. by rewrite lookup_empty.
Qed.

Lemma demo_ring_holds : holds_samples demo_root demo_id demo_ring (Some []).
Proof. eexists _, _, _. split; [apply lookup_insert_eq|apply fresh_holds]. Qed.

(** A ring with a sample taken at 100. *)
Lemma demo_ring_sample :
  ∃ w, store_rep demo_root (remember demo_id (demo_sample 100) (mkRings ∅)) (w_fs w) {[demo_id := [demo_sample 100]]} ∧ w_faults w = [].
Proof.
  destruct (append_step demo_root (mkRings ∅) (mkWorld demo_ring 0 []) _ demo_ring_rep eq_refl demo_id (demo_sample 100))
    as (w & _ & Hf & Hrep); [apply demo_sample_ok; lia|].
  exists w. split; [|exact Hf]. rewrite lookup_singleton_eq, insert_singleton_eq in Hrep. exact Hrep.
Qed.

Lemma clock_step_back_empties_ring_witness :
  ∃ w r, run_ops demo_root [OpAppend demo_id (demo_sample 50); OpWindow demo_id 1000; OpLatest demo_id]
      (remember demo_id (demo_sample 100) (mkRings ∅)) w = [ADone (Ok ()); ARead r; ARead (mkRead [] None)] ∧ error r ≠ None.
Proof.
  destruct demo_ring_sample as (w & Hrep & Hf). exists w.
  apply (clock_step_back_empties_ring demo_root _ w _ demo_id [demo_sample 100] (demo_sample 100) (demo_sample 50) 1000 Hrep Hf);
    [apply lookup_singleton_eq|reflexivity|apply demo_sample_ok; lia|reflexivity|lia].
Defined.

(** The record is written to its third byte only. *)
Lemma demo_torn :
  ∃ w', append_locked demo_root demo_id (demo_sample 0) (mkWorld demo_ring 0 [None; None; None; None; Some 3%nat]) = (Err (Os EIO), w').
Proof.
  destruct (append_locked_calls demo_root demo_id (demo_sample 0) [] ltac:(done) (mkWorld demo_ring 0 [None; None; None; None; Some 3%nat])
    fresh_ring 0x1a4 ∅ (rep_root _ _ _ _ demo_ring_rep) (lookup_insert_eq _ _ _) fresh_holds) as (w1 & Hw1 & [[_ [k Hk]]|[Hf Hrun]]); [done..|].
  eexists. rewrite Hrun. unfold write_all_at at 1. unfold bind, fault, reads. rewrite Hf. reflexivity.
Qed.

Lemma failed_append_keeps_samples_witness :
  ∃ e w', append_locked demo_root demo_id (demo_sample 0) (mkWorld demo_ring 0 [None; None; None; None; Some 3%nat]) = (Err e, w') ∧
  ∃ d m xs, w_fs w' = <[ring_path demo_root demo_id := NFile d m xs]> demo_ring ∧ append_left (demo_sample 0) [] d.
Proof.
  assert (header_read (drop 2 [None; None; None; None; Some 3%nat])) as Hr by (intros k; split; discriminate).
  destruct demo_torn as [w' Hw]. exists (Os EIO), w'. split; [exact Hw|].
  apply (failed_append_keeps_samples demo_root demo_id (demo_sample 0) (mkWorld demo_ring 0 [None; None; None; None; Some 3%nat]) [] (Os EIO) w');
   [discriminate|exact (rep_root _ _ _ _ demo_ring_rep)|apply demo_ring_holds|apply demo_sample_ok; lia|reflexivity|exact Hr|exact Hw].
Defined.

Lemma failed_header_read_loses_samples_witness :
  ∃ w w', append_locked demo_root demo_id (demo_sample 120) w = (Ok (), w') ∧
    holds_samples demo_root demo_id (w_fs w) (Some [demo_sample 100]) ∧ holds_samples demo_root demo_id (w_fs w') (Some [demo_sample 120]).
Proof.
  destruct demo_ring_sample as (w & [Hroot Hfiles _ _] & _). specialize (Hfiles demo_id). rewrite lookup_singleton_eq in Hfiles.
  exists (mkWorld (w_fs w) 0 [None; None; Some 0%nat]).
  destruct (failed_header_read_loses_samples demo_root demo_id (demo_sample 120) (mkWorld (w_fs w) 0 [None; None; Some 0%nat]) [demo_sample 100] None 0%nat)
    as (w' & Hrun & Hh); [discriminate|exact Hroot|exact Hfiles|apply demo_sample_ok; lia|left; reflexivity|].
  exists w'. split; [exact Hrun|]. split; [exact Hfiles|exact Hh].
Defined.
