(* ===== verification/ExecRegistry.v ===== *)
(** * The table of namespace executions

    Models [namespace-execution/src/registry.rs]: a table of the executions of
    a daemon, bounded in the number of live ones by admission and in the number
    of finished ones by evicting the oldest.  Every method runs under the
    registry's mutex, so an execution of the program is a sequence of calls.

    The theorems give the invariant that the table, the count of live executions
    and the queue of finished ones agree in every reachable state, and what a
    completion keeps and evicts. *)

From S2P Require Import Prelude ByteStr FS.

Section registry.
Context {V : Type}.

Record Entry := mkEntry {
  value : option V;
  terminal : bool;
}.

Definition reserved : Entry := mkEntry None false.

Record RegistryState := mkRegistry {
  entries : bytes_map Entry;
  active : nat;
  terminal_order : list bytes;
  max_terminal : nat;
}.

(** [max_active] does not change after the registry is made. *)
Variable max_active : nat.

Definition registry_new (retention : nat) : RegistryState := mkRegistry ∅ 0 [] retention.

Definition set_terminal_retention (n : nat) (s : RegistryState) : RegistryState :=
  mkRegistry (entries s) (active s) (terminal_order s) n.

Inductive admission_error :=
| Duplicate (execution_id : bytes)
| Admission (limit : nat).

Definition try_reserve (id : bytes) (s : RegistryState) : result () admission_error * RegistryState :=
  if decide (is_Some (entries s !! id)) then (Err (Duplicate id), s)
  else if decide (max_active ≤ active s) then (Err (Admission max_active), s)
  else (Ok (), mkRegistry (<[id := reserved]> (entries s)) (S (active s)) (terminal_order s) (max_terminal s)).

Definition attach (id : bytes) (v : V) (s : RegistryState) : RegistryState :=
  match entries s !! id with
  | Some e => mkRegistry (<[id := mkEntry (Some v) (terminal e)]> (entries s)) (active s) (terminal_order s) (max_terminal s)
  | None => s
  end.

Definition abort (id : bytes) (s : RegistryState) : RegistryState :=
  match entries s !! id with
  | Some e =>
      if terminal e then s
      else mkRegistry (delete id (entries s)) (active s - 1) (terminal_order s) (max_terminal s)
  | None => s
  end.

(** [while terminal_order.len() > max_terminal { pop_front; remove }] *)
Fixpoint evict (order : list bytes) (es : bytes_map Entry) (n : nat) : list bytes * bytes_map Entry :=
  match order with
  | oldest :: rest => if decide (n < length order) then evict rest (delete oldest es) n else (order, es)
  | [] => ([], es)
  end.

Definition complete (id : bytes) (s : RegistryState) : RegistryState :=
  match entries s !! id with
  | Some e =>
      if terminal e then s
      else
        let es := <[id := mkEntry (value e) true]> (entries s) in
        let '(order, es) := evict (terminal_order s ++ [id]) es (max_terminal s) in
        mkRegistry es (active s - 1) order (max_terminal s)
  | None => s
  end.

Definition with_value {R} (id : bytes) (f : V → R) (s : RegistryState) : option R :=
  f <$> (entries s !! id ≫= value).

Definition is_live (id : bytes) (s : RegistryState) : bool :=
  match entries s !! id with Some e => negb (terminal e) | None => false end.

Definition is_completed (id : bytes) (s : RegistryState) : bool :=
  match entries s !! id with Some e => terminal e | None => false end.

Definition active_count (s : RegistryState) : nat := active s.

(** The order in which a [HashMap] lists its values is not fixed. *)
Definition live_values {R} (f : V → option R) (s : RegistryState) : list R :=
  omap f (omap value (filter (λ e, terminal e = false) (map_to_list (entries s)).*2)).

(** [get(&id).filter(terminal).and_then(value).is_some_and(predicate)] *)
Definition should_remove (p : V → bool) (es : bytes_map Entry) (id : bytes) : bool :=
  match es !! id with
  | Some e => if terminal e then match value e with Some v => p v | None => false end else false
  | None => false
  end.

(** The loop of [remove_terminal_values], run once per queued id: the ids that
    stay are queued again at the end. *)
Fixpoint remove_loop (n : nat) (p : V → bool) (order : list bytes) (es : bytes_map Entry) (removed : list Entry)
    : list bytes * bytes_map Entry * list Entry :=
  match n, order with
  | S n, id :: order =>
      if should_remove p es id then
        remove_loop n p order (delete id es) (match es !! id with Some e => removed ++ [e] | None => removed end)
      else remove_loop n p (order ++ [id]) es removed
  | _, _ => (order, es, removed)
  end.

Definition remove_terminal_values (p : V → bool) (s : RegistryState) : nat * RegistryState :=
  let '(order, es, removed) := remove_loop (length (terminal_order s)) p (terminal_order s) (entries s) [] in
  (length removed, mkRegistry es (active s) order (max_terminal s)).

(** ** The invariant *)

Definition live (s : RegistryState) : bytes_map Entry := filter (λ ie, terminal ie.2 = false) (entries s).

Record registry_ok (s : RegistryState) : Prop := {
  ok_active : active s = size (live s);
  ok_limit : active s ≤ max_active;
  ok_nodup : NoDup (terminal_order s);
  ok_order : ∀ id, id ∈ terminal_order s ↔ ∃ e, entries s !! id = Some e ∧ terminal e = true;
}.

Lemma lookup_live s id e : live s !! id = Some e ↔ entries s !! id = Some e ∧ terminal e = false.
Proof. unfold live. by rewrite map_lookup_filter_Some. Qed.

(** *** Eviction *)

Lemma evict_spec n : ∀ order es,
  NoDup order →
  evict order es n = (drop (length order - n) order,
    filter (λ ie, ie.1 ∉ take (length order - n) order) es).
Proof.
  induction order as [|oldest rest IH]; intros es Hnd.
  - cbn [evict length]. f_equal. symmetry. apply map_filter_id. intros i x _. rewrite take_nil. cbn. apply not_elem_of_nil.
  - cbn [evict]. apply NoDup_cons in Hnd as [Hnew Hnd]. case_decide as Hlen; cbn [length] in *.
    + rewrite IH by done. replace (S (length rest) - n) with (S (length rest - n)) by lia. cbn [drop take]. f_equal.
      apply map_eq. intros i. apply option_eq. intros x.
      rewrite !map_lookup_filter_Some, lookup_delete_Some, elem_of_cons. naive_solver.
    + replace (S (length rest) - n) with 0 by lia. f_equal. symmetry. apply map_filter_id.
      intros i x _. cbn. apply not_elem_of_nil.
Qed.

(** The removing loop keeps the order of what stays. *)
Lemma should_remove_delete p es id id' :
  id ≠ id' → should_remove p (delete id es) id' = should_remove p es id'.
Proof. intros Hne. unfold should_remove. by rewrite lookup_delete_ne. Qed.

Lemma remove_loop_spec p order : ∀ kept es removed,
  NoDup (order ++ kept) →
  remove_loop (length order) p (order ++ kept) es removed =
    (kept ++ filter (λ id, should_remove p es id = false) order,
     filter (λ ie, ¬ (ie.1 ∈ order ∧ should_remove p es ie.1 = true)) es,
     removed ++ omap (λ id, if should_remove p es id then es !! id else None) order).
Proof.
  induction order as [|id order IH]; intros kept es removed Hnd.
  - cbn. rewrite !app_nil_r. f_equal. f_equal. symmetry. apply map_filter_id. intros i x _ [[]%not_elem_of_nil _].
  - cbn [length app remove_loop]. cbn [app] in Hnd. apply NoDup_cons in Hnd as [Hnew Hnd].
    assert (id ∉ order) as Hno by set_solver.
    rewrite filter_cons. csimpl. destruct (should_remove p es id) eqn:Hgo.
    + rewrite decide_False, IH by done.
      assert (∀ x, x ∈ order → should_remove p (delete id es) x = should_remove p es x) as Hsame
        by (intros x Hx; apply should_remove_delete; naive_solver).
      f_equal; [f_equal|].
      * f_equal. apply filter_ext_in. intros x Hx. by rewrite Hsame.
      * apply map_eq. intros i. apply option_eq. intros x.
        rewrite !map_lookup_filter_Some, lookup_delete_Some, elem_of_cons; cbn.
        destruct (decide (i = id)) as [->|Hi]; [naive_solver|]. rewrite should_remove_delete by done. naive_solver.
      * rewrite (omap_ext_in _ (λ x, if should_remove p es x then es !! x else None) order).
        -- destruct (es !! id); [by rewrite <-app_assoc|done].
        -- intros x Hx. rewrite Hsame by done. rewrite lookup_delete_ne by naive_solver. done.
    + assert (NoDup (order ++ kept ++ [id])) as Hnd2.
      { rewrite (assoc_L (++)). apply NoDup_app. split_and!; [done| |apply NoDup_singleton].
        by intros x Hx ->%list_elem_of_singleton. }
      rewrite decide_True, <-app_assoc, IH by done.
      rewrite <-app_assoc. cbn [app]. f_equal. f_equal.
      apply map_filter_ext. intros i x _. cbn. rewrite elem_of_cons. split; intros Hn [Hi Hs]; apply Hn.
      * destruct Hi as [->|Hi]; [congruence|done].
      * auto.
Qed.

(** *** Every operation keeps the invariant *)

Ltac registry_simpl := cbn [snd entries active terminal_order max_terminal live] in *.

Lemma new_ok n : registry_ok (registry_new n).
Proof.
  unfold registry_new. split; registry_simpl; [|lia|constructor|].
  - unfold live. cbn. by rewrite map_filter_empty, map_size_empty.
  - intros id. cbn. rewrite lookup_empty. split; [by intros ?%not_elem_of_nil|naive_solver].
Qed.

Lemma retention_ok n s : registry_ok s → registry_ok (set_terminal_retention n s).
Proof. by intros [? ? ? ?]; split. Qed.

Lemma live_insert_live s id e :
  entries s !! id = None → terminal e = false → size (live (mkRegistry (<[id := e]> (entries s)) (active s) (terminal_order s) (max_terminal s))) = S (size (live s)).
Proof.
  intros Hid He. unfold live; registry_simpl. rewrite map_filter_insert_True by done.
  apply map_size_insert_None. apply map_lookup_filter_None. by left.
Qed.

Lemma live_delete_live s id e n order m :
  entries s !! id = Some e → terminal e = false → live (mkRegistry (delete id (entries s)) n order m) = delete id (live s).
Proof. intros Hid He. unfold live; registry_simpl. by rewrite map_filter_delete. Qed.

Lemma size_delete_live s id e :
  entries s !! id = Some e → terminal e = false → S (size (delete id (live s))) = size (live s).
Proof.
  intros Hid He. assert (live s !! id = Some e) as Hl by by apply lookup_live.
  rewrite map_size_delete_Some by done. assert (size (live s) ≠ 0); [|lia].
  intros Hz%map_size_empty_inv. by rewrite Hz, lookup_empty in Hl.
Qed.

Lemma reserve_ok id s : registry_ok s → registry_ok (try_reserve id s).2.
Proof.
  intros Hok. unfold try_reserve. case_decide as Hin; [done|]. case_decide as Hmax; [done|].
  apply eq_None_not_Some in Hin. destruct Hok as [Ha Hl Hn Ho]. split; registry_simpl.
  - rewrite Ha. symmetry. by apply live_insert_live.
  - lia.
  - done.
  - intros id'. rewrite Ho. destruct (decide (id = id')) as [<-|Hne].
    + rewrite lookup_insert_eq, Hin. naive_solver.
    + by rewrite lookup_insert_ne.
Qed.

Lemma attach_ok id v s : registry_ok s → registry_ok (attach id v s).
Proof.
  intros [Ha Hl Hn Ho]. unfold attach. destruct (entries s !! id) as [e|] eqn:He; [|by split].
  split; registry_simpl; [|done|done|].
  - rewrite Ha. unfold live; registry_simpl. destruct (terminal e) eqn:Ht.
    + rewrite map_filter_insert_False by done. rewrite map_filter_delete, delete_id; [done|].
      apply map_lookup_filter_None. right. intros x Hx. cbn. congruence.
    + rewrite map_filter_insert_True by done. rewrite map_size_insert_Some; [done|].
      exists e. by apply map_lookup_filter_Some.
  - intros id'. rewrite Ho. destruct (decide (id = id')) as [<-|Hne].
    + rewrite lookup_insert_eq, He. naive_solver.
    + by rewrite lookup_insert_ne.
Qed.

Lemma abort_ok id s : registry_ok s → registry_ok (abort id s).
Proof.
  intros [Ha Hl Hn Ho]. unfold abort. destruct (entries s !! id) as [e|] eqn:He; [|by split].
  destruct (terminal e) eqn:Ht; [by split|]. split; registry_simpl; [|lia|done|].
  - rewrite (live_delete_live _ _ e) by done. pose proof (size_delete_live _ _ _ He Ht). lia.
  - intros id'. rewrite Ho. destruct (decide (id = id')) as [<-|Hne].
    + rewrite lookup_delete_eq, He. split; [intros (x & [= <-] & Hx)|intros (x & [=] & _)]; congruence.
    + by rewrite lookup_delete_ne.
Qed.

(** What a completion of a live execution does to the table. *)
Lemma complete_eq id s e (order := terminal_order s ++ [id]) (gone := take (length order - max_terminal s) order) :
  registry_ok s → entries s !! id = Some e → terminal e = false →
  complete id s = mkRegistry (filter (λ ie, ie.1 ∉ gone) (<[id := mkEntry (value e) true]> (entries s)))
    (active s - 1) (drop (length order - max_terminal s) order) (max_terminal s) ∧ NoDup order.
Proof.
  intros [_ _ Hn Ho] He Ht. unfold complete. rewrite He, Ht.
  assert (NoDup order) as Hnd.
  { unfold order. apply NoDup_app. split_and!; [done| |apply NoDup_singleton].
    intros x Hx ->%list_elem_of_singleton. apply Ho in Hx as (x & Hx & ?). congruence. }
  split; [|done]. fold order. by rewrite evict_spec by done.
Qed.

Lemma complete_ok id s : registry_ok s → registry_ok (complete id s).
Proof.
  intros Hok. destruct (entries s !! id) as [e|] eqn:He; [|unfold complete; by rewrite He].
  destruct (terminal e) eqn:Ht; [unfold complete; by rewrite He, Ht|].
  destruct (complete_eq id s e Hok He Ht) as [-> Hnd]. destruct Hok as [Ha Hl Hn Ho].
  set (order := terminal_order s ++ [id]) in *. set (k := length order - max_terminal s).
  assert (NoDup (take k order ++ drop k order)) as Hnd2 by by rewrite take_drop.
  apply NoDup_app in Hnd2 as (Hnt & Hdis & Hndd).
  assert (∀ x, x ∈ take k order → x ∈ order) as Hsub by (intros x; apply subseteq_take).
  split; registry_simpl; [|lia|done|].
  - assert (live (mkRegistry (filter (λ ie, ie.1 ∉ take k order) (<[id := mkEntry (value e) true]> (entries s)))
      (active s - 1) (drop k order) (max_terminal s)) = delete id (live s)) as ->.
    { apply map_eq. intros i. apply option_eq. intros x. rewrite lookup_live, lookup_delete_Some, lookup_live.
      registry_simpl. rewrite map_lookup_filter_Some; cbn.
      destruct (decide (i = id)) as [->|Hi].
      - rewrite lookup_insert_eq. split; [intros [[[= <-] _] [=]]|by intros [[] _]].
      - rewrite lookup_insert_ne by done. split; [by intros [[]]|]. intros (_ & Hx & Htx).
        split_and!; [done| |done]. intros Hin%Hsub.
        apply elem_of_app in Hin as [Hin|Hin%list_elem_of_singleton]; [|done].
        apply Ho in Hin as (y & ? & ?). congruence. }
    pose proof (size_delete_live _ _ _ He Ht). lia.
  - intros i.
    assert (i ∈ order ↔ i ∈ take k order ∨ i ∈ drop k order) as Hsplit by by rewrite <-elem_of_app, take_drop.
    assert (i ∈ order ↔ ∃ x, <[id := mkEntry (value e) true]> (entries s) !! i = Some x ∧ terminal x = true) as Hio.
    { unfold order. rewrite elem_of_app, list_elem_of_singleton, Ho. destruct (decide (i = id)) as [->|Hi].
      - rewrite lookup_insert_eq. split; [eauto|auto].
      - rewrite lookup_insert_ne by done. split; [by intros [|]|auto]. }
    specialize (Hdis i). split.
    + intros Hi. destruct (proj1 Hio ltac:(tauto)) as (x & Hx & Htx). exists x. split; [|done].
      apply map_lookup_filter_Some. split; [done|]. cbn. tauto.
    + intros (x & [Hx Hg]%map_lookup_filter_Some & Htx). cbn in Hg.
      assert (i ∈ order) by (apply Hio; eauto). tauto.
Qed.

Lemma remove_ok p s : registry_ok s → registry_ok (remove_terminal_values p s).2.
Proof.
  intros [Ha Hl Hn Ho]. unfold remove_terminal_values.
  rewrite <-(app_nil_r (terminal_order s)) at 2.
  rewrite remove_loop_spec by by rewrite app_nil_r. cbn [app]. split; registry_simpl; [|done| |].
  - rewrite Ha. f_equal. apply map_eq. intros i. apply option_eq. intros x.
    rewrite !lookup_live. registry_simpl. rewrite map_lookup_filter_Some; cbn. split; [|tauto].
    intros [Hx Hf]. split_and!; [done| |done]. intros [Hi _]. apply Ho in Hi as (y & ? & ?). congruence.
  - by apply NoDup_filter.
  - intros i. rewrite list_elem_of_filter, Ho. split.
    + intros (Hf & x & Hx & Ht). exists x. split; [|done]. apply map_lookup_filter_Some. split; [done|].
      cbn. intros [_ ?]. congruence.
    + intros (x & [Hx Hg]%map_lookup_filter_Some & Ht). cbn in Hg. split; [|by eauto].
      destruct (should_remove p (entries s) i) eqn:Hr; [|done]. exfalso. apply Hg. split; [|done]. apply Ho. eauto.
Qed.

(** ** Sequences of calls *)

Inductive registry_op :=
| OpReserve (id : bytes)
| OpAttach (id : bytes) (v : V)
| OpAbort (id : bytes)
| OpComplete (id : bytes)
| OpRetention (n : nat)
| OpRemove (p : V → bool).

Definition registry_step (s : RegistryState) (op : registry_op) : RegistryState :=
  match op with
  | OpReserve id => (try_reserve id s).2
  | OpAttach id v => attach id v s
  | OpAbort id => abort id s
  | OpComplete id => complete id s
  | OpRetention n => set_terminal_retention n s
  | OpRemove p => (remove_terminal_values p s).2
  end.

Definition registry_run (n : nat) (ops : list registry_op) : RegistryState :=
  foldl registry_step (registry_new n) ops.
End registry.

Arguments registry_op : clear implicits.
Arguments RegistryState : clear implicits.

Lemma registry_run_ok {V : Type} max_active n (ops : list (registry_op V)) :
  registry_ok max_active (registry_run max_active n ops).
Proof.
  unfold registry_run. assert (registry_ok (V := V) max_active (registry_new n)) as Hok by apply new_ok.
  revert Hok. generalize (registry_new (V := V) n). induction ops as [|op ops IH]; intros s Hok; [done|].
  cbn [foldl]. apply IH. destruct op; cbn [registry_step];
    eauto using reserve_ok, attach_ok, abort_ok, complete_ok, retention_ok, remove_ok.
Qed.

(** C35: after any sequence of calls the count of live executions is their number
    in the table and never exceeds [max_active], and the queue of finished
    executions lists exactly the finished entries of the table, each once. *)
Theorem registry_invariant {V : Type} max_active n (ops : list (registry_op V)) (s := registry_run max_active n ops) :
  active_count s = size (live s) ∧ active_count s ≤ max_active ∧ NoDup (terminal_order s) ∧
  ∀ id, id ∈ terminal_order s ↔ is_completed id s = true.
Proof.
  destruct (registry_run_ok max_active n ops) as [Ha Hl Hn Ho]. fold s in Ha, Hl, Hn, Ho.
  split_and!; [done|done|done|]. intros id. rewrite Ho. unfold is_completed.
  destruct (entries s !! id) as [e|]; split; [by intros (x & [= <-] & ?)|eauto|by intros (x & ? & _)|done].
Qed.

(** When a live execution finishes, the table keeps the newest [max_terminal]
    of the finished ones, this one included, and forgets the older ones; nothing
    else changes: every live execution stays. *)
Theorem complete_keeps_newest {V : Type} max_active (s : RegistryState V) id e
    (order := terminal_order s ++ [id]) (s' := complete id s) :
  registry_ok max_active s → entries s !! id = Some e → terminal e = false →
  terminal_order s' = drop (length order - max_terminal s) order ∧
  length (terminal_order s') = min (length order) (max_terminal s) ∧
  ∀ i, entries s' !! i =
    if decide (i ∈ take (length order - max_terminal s) order) then None
    else if decide (i = id) then Some (mkEntry (value e) true) else entries s !! i.
Proof.
  intros Hok He Ht. unfold s'. destruct (complete_eq max_active id s e Hok He Ht) as [-> Hnd].
  fold order. cbn [terminal_order entries]. split_and!; [done|rewrite length_drop; lia|].
  intros i. case_decide as Hg.
  - apply map_lookup_filter_None. right. intros x _. cbn. auto.
  - apply option_eq. intros x. rewrite map_lookup_filter_Some; cbn. case_decide as Hi.
    + subst i. rewrite lookup_insert_eq. tauto.
    + rewrite lookup_insert_ne by done. tauto.
Qed.

Lemma complete_keeps_newest_witness :
  let s := registry_run (V := nat) 4 1
    [OpReserve (bytes_of "a"); OpReserve (bytes_of "b"); OpComplete (bytes_of "a")] in
  terminal_order (complete (bytes_of "b") s) = [bytes_of "b"] ∧
  entries (complete (bytes_of "b") s) !! bytes_of "a" = None.
Proof.
  intros s. destruct (complete_keeps_newest 4 s (bytes_of "b") reserved) as (Ho & _ & He).
  - apply registry_run_ok.
  - by vm_compute.
  - done.
  - split; [rewrite Ho; by vm_compute|]. rewrite (He (bytes_of "a")). by vm_compute.
Defined.
