(* ===== verification/Sessions.v ===== *)
(** * The workspace sessions of a daemon

    Models [operation/src/workspace_session/service]: creating a session,
    admitting and completing its commands, file operations, publishing,
    finalizing and destroying it, the teardown after its namespace holder died,
    and the shutdown, as they run concurrently on many threads.

    A method is a program of atomic actions on the shared state of the service:
    one action per critical section of a mutex, per acquisition or release of a
    session's admission gate, per wait for the end of a teardown, and per call of
    the workspace runtime.  An action that is blocked is not enabled.  What the
    workspace runtime, the layer stack and the kernel answer is given by
    [env], which is read at every call: nothing is assumed about it.

    Left out are telemetry, the texts of diagnostics, poisoned mutexes, and the
    live remount of a session, which replaces its handle. *)

From S2P Require Import Prelude ByteStr FS.

(** ** Data *)

Abbreviation session_id := bytes.
Abbreviation command_id := bytes.

Inductive FinalizePolicy := PublishThenDestroy | NoOp.
Inductive FinalizationState := Active | Finalizing | FinalizeFailed.

#[global] Instance policy_eq_dec : EqDecision FinalizePolicy.
Proof. solve_decision. Defined.
#[global] Instance state_eq_dec : EqDecision FinalizationState.
Proof. solve_decision. Defined.

(** [WorkspaceSessionHandler]; a [WorkspaceHandle] is identified by a number. *)
Record Handler := mkHandler {
  h_id : session_id;
  h_handle : nat;
  h_cgroup : bool;
}.

#[global] Instance handler_eq_dec : EqDecision Handler.
Proof. solve_decision. Defined.

Record WorkspaceSession := mkSession {
  ws_id : session_id;
  ws_handle : nat;
  ws_cgroup : bool;
  finalize_policy : FinalizePolicy;
  active_commands : list command_id;
  finalization_state : FinalizationState;
  holder_quiesced_for_finalization : bool;
  holder_exit_recorded : bool;
  holder_cleanup_terminal : bool;
  holder_cleanup_attempts : nat;
  workspace_destroyed : bool;
  cgroup_cleanup_complete : bool;
}.

Definition session_from_handle (id : session_id) (handle : nat) (cgroup : bool) (policy : FinalizePolicy)
    : WorkspaceSession :=
  mkSession id handle cgroup policy [] Active false false false 0 false (negb cgroup).

Definition session_handler (s : WorkspaceSession) : Handler :=
  mkHandler (ws_id s) (ws_handle s) (ws_cgroup s).

Inductive session_error :=
| Workspace
| DuplicateWorkspaceSessionId
| WorkspaceIdentityMismatch
| NotFound
| ActiveCommands (ids : list command_id)
| HolderExited (cleanup_state : FinalizationState)
| PublishRetained (at_capture : bool)
| PublishedButNotClosed
| FinalizationFailed
| CreateRollbackFailed
| TeardownIncomplete
| WorkloadCgroupSetupFailed (rollback_failed : bool)
| InvalidCommand
| Panicked.

Inductive HolderExitDisposition := Destroyed | RecoveryRequired | RetryableCleanupFailure.

Record HolderDestroyPlan := mkPlan {
  p_policy : FinalizePolicy;
  p_command_ids : list command_id;
  p_newly_observed : bool;
  p_attempt : nat;
}.

Record DestroyFlightTerminal := mkTerminal {
  t_result : result () session_error;
  t_disposition : option HolderExitDisposition;
}.

Record DestroyFlight := mkFlight {
  f_handler : Handler;
  f_plan : option HolderDestroyPlan;
  f_terminal : option DestroyFlightTerminal;
}.

(** ** Answers of the surroundings *)

Inductive HolderFinalization := Quiesced | Exited | Unknown.
Inductive raw_outcome := RawOk | RawFailed | RawPanicked.

Record answers := mkAnswers {
  a_live : nat → bool;                        (* holder_is_live of a handle *)
  a_quiesce : HolderFinalization;             (* quiesce_holder_for_finalization *)
  a_capture : option (bool * bool);           (* captured: no changes, has protected drops *)
  a_publish : option bool;                    (* published: no_op *)
  a_destroy : raw_outcome;                    (* destroy_workspace *)
  a_cgroup : bool;                            (* cleanup_workspace_cgroup *)
  a_preserve : bool;                          (* preserve_recovery_artifact *)
  a_cancel : bool;                            (* cancel_and_join of commands *)
  a_allocate : option session_id;             (* allocate_workspace_session_id *)
  a_create : option session_id;               (* create_workspace: the id of the handle *)
  a_prepare : option bool * bool;             (* prepare_workspace_cgroup: path, or failed rollback *)
  a_path_exists : bool;
  a_launch : bool;                            (* transcript and runner of a command *)
  a_command : command_id;                     (* allocate_id *)
}.

(** What the service asked for, with its success. *)
Inductive event :=
| EvCapture (handle : nat) (ok : bool)
| EvPublish (handle : nat) (ok : bool)
| EvPreserve (handle : nat) (ok : bool)
| EvDestroy (handle : nat) (ok : bool)
| EvCgroup (handle : nat) (ok : bool).

#[global] Instance event_eq_dec : EqDecision event.
Proof. solve_decision. Defined.

(** ** The shared state *)

Record shared := mkShared {
  sessions : bytes_map WorkspaceSession;
  creating_sessions : list session_id;
  gates : bytes_map nat;                      (* the gate of a session *)
  next_gate : nat;
  held : list nat;                            (* gates that are locked *)
  destroy_flights : bytes_map nat;            (* the flight of a session *)
  flights : list DestroyFlight;               (* every flight ever made *)
  clock : nat;                                (* answers read so far *)
  trace : list event;
}.

Definition set_sessions (m : bytes_map WorkspaceSession) (s : shared) : shared :=
  mkShared m (creating_sessions s) (gates s) (next_gate s) (held s) (destroy_flights s) (flights s) (clock s) (trace s).
Definition set_creating (l : list session_id) (s : shared) : shared :=
  mkShared (sessions s) l (gates s) (next_gate s) (held s) (destroy_flights s) (flights s) (clock s) (trace s).
Definition set_gates (m : bytes_map nat) (n : nat) (s : shared) : shared :=
  mkShared (sessions s) (creating_sessions s) m n (held s) (destroy_flights s) (flights s) (clock s) (trace s).
Definition set_held (l : list nat) (s : shared) : shared :=
  mkShared (sessions s) (creating_sessions s) (gates s) (next_gate s) l (destroy_flights s) (flights s) (clock s) (trace s).
Definition set_flights (m : bytes_map nat) (l : list DestroyFlight) (s : shared) : shared :=
  mkShared (sessions s) (creating_sessions s) (gates s) (next_gate s) (held s) m l (clock s) (trace s).
Definition tick (evs : list event) (s : shared) : shared :=
  mkShared (sessions s) (creating_sessions s) (gates s) (next_gate s) (held s) (destroy_flights s) (flights s)
    (S (clock s)) (trace s ++ evs).

(** ** Programs *)

Inductive prog (A : Type) : Type :=
| Ret (a : A)
| Act {X : Set} (f : shared → option (X * shared)) (k : X → prog A).
Arguments Ret {A} a.
Arguments Act {A X} f k.

Fixpoint pbind {A B} (p : prog A) (k : A → prog B) : prog B :=
  match p with Ret a => k a | Act f k0 => Act f (λ x, pbind (k0 x) k) end.

Declare Scope prog_scope.
Delimit Scope prog_scope with prog.
Notation "'let!' x ':=' c 'in' k" := (pbind c (λ x, k))
  (at level 10, x binder, c at level 100, k at level 200) : prog_scope.
Notation "c ';;!' k" := (pbind c (λ _, k)) (at level 100, k at level 200, right associativity) : prog_scope.

(** A critical section, a critical section that computes a value, a blocking one. *)
Definition section {X : Set} (f : shared → X * shared) : prog X := Act (λ s, Some (f s)) Ret.
Definition update (f : shared → shared) : prog () := section (λ s, (tt, f s)).
Definition look {X : Set} (f : shared → X) : prog X := section (λ s, (f s, s)).

Section service.
Variable env : nat → answers.

Definition now (s : shared) : answers := env (clock s).

(** A call of the surroundings. *)
Definition ask {X : Set} (f : answers → X) (evs : answers → list event) : prog X :=
  section (λ s, (f (now s), tick (evs (now s)) s)).

(** *** Gates *)

Definition session_gate (id : session_id) : prog nat :=
  section (λ s, match gates s !! id with
                | Some g => (g, s)
                | None => (next_gate s, set_gates (<[id := next_gate s]> (gates s)) (S (next_gate s)) s)
                end).

Definition lock_gate (g : nat) : prog () :=
  Act (λ s, if decide (g ∈ held s) then None else Some (tt, set_held (g :: held s) s)) Ret.
Definition unlock_gate (g : nat) : prog () :=
  update (λ s, set_held (filter (λ x, x ≠ g) (held s)) s).

Definition drop_session_gate (id : session_id) : prog () :=
  update (λ s, set_gates (delete id (gates s)) (next_gate s) s).

Definition discard_resurrected_gate (id : session_id) (g : nat) : prog () :=
  update (λ s,
    if decide (gates s !! id = Some g ∧ sessions s !! id = None)
    then set_gates (delete id (gates s)) (next_gate s) s else s).

(** *** Flights *)

Definition existing_destroy_flight (id : session_id) : prog (option nat) :=
  look (λ s, destroy_flights s !! id).

Definition flight_has_handler (s : shared) (hd : Handler) (fl : nat) : bool :=
  match flights s !! fl with Some f => bool_decide (f_handler f = hd) | None => false end.

Definition existing_destroy_flight_for_handler (hd : Handler) : prog (option nat) :=
  look (λ s, match destroy_flights s !! h_id hd with
             | Some fl => if flight_has_handler s hd fl then Some fl else None
             | None => None
             end).

(** [wait_while(terminal.is_none())] *)
Definition wait_destroy_terminal (fl : nat) : prog DestroyFlightTerminal :=
  Act (λ s, match flights s !! fl with
            | Some f => match f_terminal f with Some t => Some (t, s) | None => None end
            | None => None
            end) Ret.

Definition wait_destroy_flight (fl : nat) : prog (result () session_error) :=
  (let! t := wait_destroy_terminal fl in Ret (t_result t))%prog.

Definition new_flight (hd : Handler) (plan : option HolderDestroyPlan) (s : shared) : nat * shared :=
  let fl := length (flights s) in
  (fl, set_flights (<[h_id hd := fl]> (destroy_flights s)) (flights s ++ [mkFlight hd plan None]) s).

(** The flight and whether this thread leads it. *)
Definition claim_destroy_flight (hd : Handler) : prog (result (nat * bool) session_error) :=
  section (λ s,
    match destroy_flights s !! h_id hd with
    | Some fl => (if flight_has_handler s hd fl then Ok (fl, false) else Err NotFound, s)
    | None =>
        match sessions s !! h_id hd with
        | None => (Err NotFound, s)
        | Some current =>
            if decide (session_handler current ≠ hd) then (Err NotFound, s)
            else let '(fl, s) := new_flight hd None s in (Ok (fl, true), s)
        end
    end).

Definition mark_holder_exit (x : WorkspaceSession) (attempt : nat) : WorkspaceSession :=
  mkSession (ws_id x) (ws_handle x) (ws_cgroup x) (finalize_policy x) (active_commands x) Finalizing
    (holder_quiesced_for_finalization x) true (holder_cleanup_terminal x) attempt
    (workspace_destroyed x) (cgroup_cleanup_complete x).

Definition claim_holder_destroy_flight (hd : Handler) : prog (result (nat * bool) session_error) :=
  section (λ s,
    match destroy_flights s !! h_id hd with
    | Some fl => (if flight_has_handler s hd fl then Ok (fl, false) else Err NotFound, s)
    | None =>
        match sessions s !! h_id hd with
        | None => (Err NotFound, s)
        | Some x =>
            if decide (session_handler x ≠ hd) then (Err NotFound, s)
            else if a_live (now s) (ws_handle x) then (Err NotFound, tick [] s)
            else
              let attempt := min (holder_cleanup_attempts x + 1) 255 in
              let plan := mkPlan (finalize_policy x) (active_commands x) (negb (holder_exit_recorded x)) attempt in
              let s := tick [] (set_sessions (<[h_id hd := mark_holder_exit x attempt]> (sessions s)) s) in
              let '(fl, s) := new_flight hd (Some plan) s in (Ok (fl, true), s)
        end
    end).

Definition set_terminal (fl : nat) (t : DestroyFlightTerminal) (s : shared) : shared :=
  match flights s !! fl with
  | Some f =>
      match f_terminal f with
      | None => set_flights (destroy_flights s) (<[fl := mkFlight (f_handler f) (f_plan f) (Some t)]> (flights s)) s
      | Some _ => s
      end
  | None => s
  end.

Definition publish_destroy_flight (hd : Handler) (fl : nat) (r : result () session_error)
    (disposition : option HolderExitDisposition) : prog (result () session_error) :=
  (update (set_terminal fl (mkTerminal r disposition));;!
   update (λ s,
     if decide (destroy_flights s !! h_id hd = Some fl ∧ flight_has_handler s hd fl = true)
     then set_flights (delete (h_id hd) (destroy_flights s)) (flights s) s else s);;!
   Ret r)%prog.

(** *** States of a session *)

Definition with_state (st : FinalizationState) (x : WorkspaceSession) : WorkspaceSession :=
  mkSession (ws_id x) (ws_handle x) (ws_cgroup x) (finalize_policy x) (active_commands x) st
    (holder_quiesced_for_finalization x) (holder_exit_recorded x) (holder_cleanup_terminal x)
    (holder_cleanup_attempts x) (workspace_destroyed x) (cgroup_cleanup_complete x).
Definition with_commands (l : list command_id) (x : WorkspaceSession) : WorkspaceSession :=
  mkSession (ws_id x) (ws_handle x) (ws_cgroup x) (finalize_policy x) l (finalization_state x)
    (holder_quiesced_for_finalization x) (holder_exit_recorded x) (holder_cleanup_terminal x)
    (holder_cleanup_attempts x) (workspace_destroyed x) (cgroup_cleanup_complete x).
Definition with_quiesced (x : WorkspaceSession) : WorkspaceSession :=
  mkSession (ws_id x) (ws_handle x) (ws_cgroup x) (finalize_policy x) (active_commands x) (finalization_state x)
    true (holder_exit_recorded x) (holder_cleanup_terminal x)
    (holder_cleanup_attempts x) (workspace_destroyed x) (cgroup_cleanup_complete x).
Definition with_terminal (x : WorkspaceSession) : WorkspaceSession :=
  mkSession (ws_id x) (ws_handle x) (ws_cgroup x) (finalize_policy x) (active_commands x) FinalizeFailed
    (holder_quiesced_for_finalization x) (holder_exit_recorded x) true
    (holder_cleanup_attempts x) (workspace_destroyed x) (cgroup_cleanup_complete x).
Definition with_ledger (destroyed cgroup_done : bool) (x : WorkspaceSession) : WorkspaceSession :=
  mkSession (ws_id x) (ws_handle x) (ws_cgroup x) (finalize_policy x) (active_commands x) (finalization_state x)
    (holder_quiesced_for_finalization x) (holder_exit_recorded x) (holder_cleanup_terminal x)
    (holder_cleanup_attempts x) (workspace_destroyed x || destroyed) cgroup_done.

(** The session of a handler, if it still is of the same generation. *)
Definition session_of (s : shared) (hd : Handler) : option WorkspaceSession :=
  match sessions s !! h_id hd with
  | Some x => if decide (session_handler x = hd) then Some x else None
  | None => None
  end.

Definition put_session (id : session_id) (x : WorkspaceSession) (s : shared) : shared :=
  set_sessions (<[id := x]> (sessions s)) s.

Definition mark_destroy_failed (hd : Handler) : prog () :=
  update (λ s, match session_of s hd with
               | Some x => put_session (h_id hd) (with_state FinalizeFailed x) s
               | None => s
               end).

(** *** The teardown *)

(** The snapshot: what the ledger says is done already. *)
Definition snapshot_for_destroy (hd : Handler) : prog (result (bool * bool) session_error) :=
  section (λ s, match session_of s hd with
                | None => (Err NotFound, s)
                | Some x => (Ok (workspace_destroyed x, cgroup_cleanup_complete x),
                             put_session (h_id hd) (with_state Finalizing x) s)
                end).

Definition destroy_workspace (handle : nat) : prog raw_outcome :=
  ask a_destroy (λ a, [EvDestroy handle (match a_destroy a with RawOk => true | _ => false end)]).

(** The workspace answered: clean the cgroup up, record both results, and remove
    the session when nothing is left.  [commit_workspace_destroy] and
    [release_terminal_commands] answer nothing. *)
Definition settle_destroy (hd : Handler) (workspace_ok cgroup_done : bool) : prog (result () session_error) :=
  (let! cgroup_ok := (if cgroup_done then Ret true
                      else if h_cgroup hd
                      then ask a_cgroup (λ a, [EvCgroup (h_handle hd) (a_cgroup a)])
                      else Ret true) in
   let! recorded := section (λ s,
     match session_of s hd with
     | None => (false, s)
     | Some x => (true, put_session (h_id hd) (with_ledger workspace_ok cgroup_ok x) s)
     end) in
   if negb recorded then Ret (Err NotFound)
   else if negb workspace_ok then Ret (Err (if cgroup_ok then Workspace else TeardownIncomplete))
   else if negb cgroup_ok then Ret (Err TeardownIncomplete)
   else
     let! removed := section (λ s,
       match session_of s hd with
       | None => (false, s)
       | Some _ => (true, set_sessions (delete (h_id hd) (sessions s)) s)
       end) in
     if negb removed then Ret (Err NotFound)
     else drop_session_gate (h_id hd);;! Ret (Ok ()))%prog.

Definition destroy_snapshot (hd : Handler) (destroyed cgroup_done : bool) : prog (result () session_error) :=
  (let! raw := (if destroyed then Ret RawOk else destroy_workspace (h_handle hd)) in
   match raw with
   | RawPanicked => Ret (Err FinalizationFailed)
   | RawOk => settle_destroy hd true cgroup_done
   | RawFailed => settle_destroy hd false cgroup_done
   end)%prog.

Definition execute_destroy_transaction (hd : Handler) : prog (result () session_error) :=
  (let! snapshot := snapshot_for_destroy hd in
   match snapshot with
   | Err e => Ret (Err e)
   | Ok (destroyed, cgroup_done) => destroy_snapshot hd destroyed cgroup_done
   end)%prog.

Definition is_ok {A E} (r : result A E) : bool := match r with Ok _ => true | Err _ => false end.

Definition destroy_claimed_session (hd : Handler) (fl : nat) : prog (result () session_error) :=
  (let! r := execute_destroy_transaction hd in
   (if is_ok r then Ret () else mark_destroy_failed hd);;!
   publish_destroy_flight hd fl r None)%prog.

Definition destroy_session_under_gate (hd : Handler) : prog (result () session_error) :=
  (let! c := claim_destroy_flight hd in
   match c with
   | Err e => Ret (Err e)
   | Ok (fl, false) => Ret (Err FinalizationFailed)
   | Ok (fl, true) => destroy_claimed_session hd fl
   end)%prog.

(** *** After the holder died *)

Definition preserve_holder_recovery_artifact (hd : Handler) : prog bool :=
  ask a_preserve (λ a, [EvPreserve (h_handle hd) (a_preserve a)]).

Definition cancel_and_join_commands (ids : list command_id) : prog bool :=
  match ids with [] => Ret true | _ => ask a_cancel (λ _, []) end.

(** The part that runs under the gate. *)
Definition holder_teardown (hd : Handler) (plan : HolderDestroyPlan) : prog (result HolderExitDisposition session_error) :=
  (let! found := look (λ s, option_map active_commands (session_of s hd)) in
   match found with
   | None => Ret (Err NotFound)
   | Some (_ :: _) => Ret (Err FinalizationFailed)
   | Some [] =>
       let! preserved := (if decide (p_policy plan = PublishThenDestroy)
                          then preserve_holder_recovery_artifact hd else Ret true) in
       if negb preserved then Ret (Err FinalizationFailed)
       else
         let! r := execute_destroy_transaction hd in
         match r with
         | Err e => Ret (Err e)
         | Ok _ => Ret (Ok (if decide (p_policy plan = PublishThenDestroy) then RecoveryRequired else Destroyed))
         end
   end)%prog.

Definition run_holder_destroy (hd : Handler) (plan : HolderDestroyPlan) (fl : nat) : prog (result () session_error) :=
  (let! joined := cancel_and_join_commands (p_command_ids plan) in
   let! execution :=
     (if negb joined then Ret (Err FinalizationFailed)
      else
        let! g := session_gate (h_id hd) in
        lock_gate g;;!
        let! r := holder_teardown hd plan in
        unlock_gate g;;!
        Ret r) in
   match execution with
   | Ok disposition => publish_destroy_flight hd fl (Ok ()) (Some disposition)
   | Err e =>
       mark_destroy_failed hd;;!
       publish_destroy_flight hd fl (Err e) (Some RetryableCleanupFailure)
   end)%prog.

(** Leading a flight claimed by [claim_holder_destroy_flight]. *)
Definition lead_holder_destroy (fl : nat) : prog (result () session_error) :=
  (let! f := look (λ s, flights s !! fl) in
   match f with
   | Some f => match f_plan f with
               | Some plan => run_holder_destroy (f_handler f) plan fl
               | None => Ret (Err Panicked)
               end
   | None => Ret (Err Panicked)
   end)%prog.

(** A dead holder: claim the teardown under the gate, then lead it or wait. *)
Definition lead_or_wait (fl : nat) (leader : bool) : prog (result () session_error) :=
  if leader then lead_holder_destroy fl else wait_destroy_flight fl.

(** [wait_holder_destroy_flight]: the disposition; its [expect] is a panic. *)
Definition wait_holder_destroy_flight (fl : nat) : prog (result HolderExitDisposition session_error) :=
  (let! f := look (λ s, flights s !! fl) in
   match f with
   | Some f =>
       match f_plan f with
       | None => Ret (Err Panicked)
       | Some _ =>
           let! t := wait_destroy_terminal fl in
           Ret (Ok match t_disposition t with
                   | Some d => d
                   | None => if is_ok (t_result t) then Destroyed else RetryableCleanupFailure
                   end)
       end
   | None => Ret (Err Panicked)
   end)%prog.

(** *** Explicit destroys *)

(** What is left to do after the gate is released. *)
Inductive after_gate :=
| Finished (r : result () session_error)
| WaitFor (fl : nat)
| LeadHolder (fl : nat) (leader : bool).

Definition finish_after_gate (a : after_gate) : prog (result () session_error) :=
  match a with
  | Finished r => Ret r
  | WaitFor fl => wait_destroy_flight fl
  | LeadHolder fl leader => lead_or_wait fl leader
  end.

(** [gate.lock()], a body, and the release of the guard. *)
Definition under_gate {A} (id : session_id) (body : nat → prog A) : prog A :=
  (let! g := session_gate id in
   lock_gate g;;!
   let! r := body g in
   unlock_gate g;;!
   Ret r)%prog.

Definition validate_destroy_handler (hd : Handler) : prog (result bool session_error) :=
  section (λ s, match session_of s hd with
                | None => (Err NotFound, s)
                | Some x => (Ok (a_live (now s) (ws_handle x)), tick [] s)
                end).

Definition claim_holder_after (hd : Handler) : prog after_gate :=
  (let! c := claim_holder_destroy_flight hd in
   match c with
   | Err e => Ret (Finished (Err e))
   | Ok (fl, leader) => Ret (LeadHolder fl leader)
   end)%prog.

Definition claim_raw_after (hd : Handler) : prog after_gate :=
  (let! c := claim_destroy_flight hd in
   match c with
   | Err e => Ret (Finished (Err e))
   | Ok (fl, false) => Ret (WaitFor fl)
   | Ok (fl, true) => let! r := destroy_claimed_session hd fl in Ret (Finished r)
   end)%prog.

Definition destroy_session (hd : Handler) : prog (result () session_error) :=
  (let! early := existing_destroy_flight_for_handler hd in
   match early with
   | Some fl => wait_destroy_flight fl
   | None =>
       let! a := under_gate (h_id hd) (λ _,
         let! existing := existing_destroy_flight_for_handler hd in
         match existing with
         | Some fl => Ret (WaitFor fl)
         | None =>
             let! live := validate_destroy_handler hd in
             match live with
             | Err e => Ret (Finished (Err e))
             | Ok false => claim_holder_after hd
             | Ok true => claim_raw_after hd
             end
         end) in
       finish_after_gate a
   end)%prog.

Definition guarded_destroy (id : session_id) : prog (result () session_error) :=
  (let! g := session_gate id in
   let! early := existing_destroy_flight id in
   match early with
   | Some fl => wait_destroy_flight fl
   | None =>
       lock_gate g;;!
       let! existing := existing_destroy_flight id in
       let! a :=
         match existing with
         | Some fl => Ret (WaitFor fl)
         | None =>
             let! found := section (λ s,
               match sessions s !! id with
               | None => (None, s)
               | Some x => (Some (session_handler x, a_live (now s) (ws_handle x), active_commands x), tick [] s)
               end) in
             match found with
             | None => discard_resurrected_gate id g;;! Ret (Finished (Err NotFound))
             | Some (hd, true, (_ :: _) as ids) => Ret (Finished (Err (ActiveCommands ids)))
             | Some (hd, true, []) => claim_raw_after hd
             | Some (hd, false, _) => claim_holder_after hd
             end
         end in
       unlock_gate g;;!
       finish_after_gate a
   end)%prog.

(** *** Finalization *)

Definition HOLDER_FINALIZATION_MAX_ATTEMPTS : nat := 3.

(** At most three attempts; the last answer counts. *)
Fixpoint quiesce_session_holder (attempts : nat) : prog HolderFinalization :=
  match attempts with
  | O => Ret Unknown
  | S rest =>
      (let! r := ask a_quiesce (λ _, []) in
       match r, rest with
       | Unknown, S _ => quiesce_session_holder rest
       | _, _ => Ret r
       end)%prog
  end.

Definition mark_holder_quiesced_for_finalization (hd : Handler) : prog bool :=
  section (λ s, match session_of s hd with
                | Some x =>
                    if decide (finalization_state x = Finalizing)
                    then (true, put_session (h_id hd) (with_quiesced x) s) else (false, s)
                | None => (false, s)
                end).

Definition capture_session_changes (hd : Handler) : prog (option (bool * bool)) :=
  ask a_capture (λ a, [EvCapture (h_handle hd) (match a_capture a with Some _ => true | None => false end)]).

Definition publish_session_changes (hd : Handler) : prog (option bool) :=
  ask a_publish (λ a, [EvPublish (h_handle hd) (match a_publish a with Some _ => true | None => false end)]).

Definition destroy_finalized_session (hd : Handler) : prog bool :=
  (let! r := destroy_session_under_gate hd in
   match r with
   | Ok _ => Ret true
   | Err _ =>
       update (λ s, match sessions s !! h_id hd with
                    | Some x => put_session (h_id hd) (with_state FinalizeFailed x) s
                    | None => s
                    end);;!
       Ret false
   end)%prog.

(** Capture, publish, destroy; the destroy runs whatever came before. *)
Definition finalize_session_snapshot (hd : Handler) : prog () :=
  (let! captured := capture_session_changes hd in
   match captured with
   | Some (true, _) => Ret ()
   | Some (false, _) => publish_session_changes hd;;! Ret ()
   | None => mark_destroy_failed hd;;! preserve_holder_recovery_artifact hd;;! Ret ()
   end;;!
   destroy_finalized_session hd;;!
   Ret ())%prog.

(** *** Commands *)

(** The ledger is a [BTreeSet]. *)
Definition insert_command (c : command_id) (l : list command_id) : list command_id :=
  if decide (c ∈ l) then l else c :: l.

Definition admit_command_locked (g : nat) (id : session_id) (c : command_id) : prog (result Handler session_error) :=
  (let! r := section (λ s,
     match sessions s !! id with
     | None => (inl true, s)
     | Some x =>
         if negb (a_live (now s) (ws_handle x)) then (inr (Err (HolderExited (finalization_state x))), tick [] s)
         else if decide (finalization_state x ≠ Active) then (inr (Err NotFound), tick [] s)
         else (inr (Ok (session_handler x)),
               tick [] (put_session id (with_commands (insert_command c (active_commands x)) x) s))
     end) in
   match r with
   | inl _ => discard_resurrected_gate id g;;! Ret (Err NotFound)
   | inr r => Ret r
   end)%prog.

(** The flight that this completion has to lead after the gate is released. *)
Definition complete_under_gate (id : session_id) (c : command_id) (resurrected : option nat) : prog (option nat) :=
  (let! candidate := section (λ s,
     match sessions s !! id with
     | None => (inl true, s)
     | Some x =>
         if decide (c ∉ active_commands x) then (inl false, s)
         else
           let rest := filter (λ x, x ≠ c) (active_commands x) in
           let x := with_commands rest x in
           if decide (rest ≠ [] ∨ finalize_policy x ≠ PublishThenDestroy ∨ finalization_state x ≠ Active)
           then (inl false, put_session id x s)
           else (inr (session_handler x), put_session id (with_state Finalizing x) s)
     end) in
   match candidate with
   | inl true =>
       match resurrected with
       | Some g => discard_resurrected_gate id g;;! Ret None
       | None => Ret None
       end
   | inl false => Ret None
   | inr hd =>
       let! finalization := quiesce_session_holder HOLDER_FINALIZATION_MAX_ATTEMPTS in
       match finalization with
       | Quiesced =>
           let! marked := mark_holder_quiesced_for_finalization hd in
           (if marked then finalize_session_snapshot hd else mark_destroy_failed hd);;!
           Ret None
       | Exited =>
           let! claimed := claim_holder_destroy_flight hd in
           match claimed with
           | Ok (fl, true) => Ret (Some fl)
           | Ok (_, false) => Ret None
           | Err _ => mark_destroy_failed hd;;! Ret None
           end
       | Unknown => mark_destroy_failed hd;;! Ret None
       end
   end)%prog.

Definition complete_after_gate (fl : option nat) : prog () :=
  match fl with Some fl => (lead_holder_destroy fl;;! Ret ())%prog | None => Ret () end.

(** A token is dropped: the command has ended. *)
Definition complete_activity (id : session_id) (c : command_id) : prog () :=
  (let! post := under_gate id (λ g, complete_under_gate id c (Some g)) in
   complete_after_gate post)%prog.

Definition with_gated_session {R} (id : session_id) (f : Handler → prog R) : prog (result R session_error) :=
  under_gate id (λ g,
    let! r := section (λ s,
      match sessions s !! id with
      | Some x =>
          if negb (a_live (now s) (ws_handle x)) then (inr (Err (HolderExited (finalization_state x))), tick [] s)
          else if decide (finalization_state x = Active) then (inr (Ok (session_handler x)), tick [] s)
          else (inl true, tick [] s)
      | None => (inl true, s)
      end) in
    match r with
    | inl _ => discard_resurrected_gate id g;;! Ret (Err NotFound)
    | inr (Err e) => Ret (Err e)
    | inr (Ok hd) => let! x := f hd in Ret (Ok x)
    end)%prog.

(** A file operation in the namespace of a session. *)
Definition run_file_op (id : session_id) : prog (result bool session_error) :=
  with_gated_session id (λ _, ask a_launch (λ _, [])).

(** *** Publishing a session *)

(** The claim is given back. *)
Definition restore_active (id : session_id) : prog () :=
  update (λ s,
    match sessions s !! id with
    | Some x => if decide (finalization_state x = Finalizing) then put_session id (with_state Active x) s else s
    | None => s
    end).

Definition publish_claimed (id : session_id) (hd : Handler) : prog (result () session_error) :=
  (let! captured := capture_session_changes hd in
   match captured with
   | None => restore_active id;;! Ret (Err (PublishRetained true))
   | Some (_, true) => restore_active id;;! Ret (Err (PublishRetained false))
   | Some (_, false) =>
       let! published := publish_session_changes hd in
       match published with
       | None => restore_active id;;! Ret (Err (PublishRetained false))
       | Some _ =>
           let! destroyed := destroy_session_under_gate hd in
           match destroyed with
           | Ok _ => Ret (Ok ())
           | Err _ =>
               update (λ s,
                 match sessions s !! id with
                 | Some x =>
                     if decide (finalization_state x ≠ Active) then put_session id (with_terminal x) s else s
                 | None => s
                 end);;!
               Ret (Err PublishedButNotClosed)
           end
       end
   end)%prog.

Definition publish_workspace_session (id : session_id) : prog (result () session_error) :=
  under_gate id (λ g,
    let! r := section (λ s,
      match sessions s !! id with
      | None => (inl true, s)
      | Some x =>
          if negb (a_live (now s) (ws_handle x)) then (inr (Err (HolderExited (finalization_state x))), tick [] s)
          else if decide (finalization_state x ≠ Active) then (inr (Err NotFound), tick [] s)
          else if decide (finalize_policy x ≠ NoOp) then (inr (Err NotFound), tick [] s)
          else if decide (active_commands x ≠ []) then (inr (Err (ActiveCommands (active_commands x))), tick [] s)
          else (inr (Ok (session_handler x)), tick [] (put_session id (with_state Finalizing x) s))
      end) in
    match r with
    | inl _ => discard_resurrected_gate id g;;! Ret (Err NotFound)
    | inr (Err e) => Ret (Err e)
    | inr (Ok hd) => publish_claimed id hd
    end)%prog.

Definition destroy_faulty_session (id : session_id) : prog () :=
  under_gate id (λ g,
    let! r := section (λ s,
      match sessions s !! id with
      | None => (inl true, s)
      | Some x => (if a_live (now s) (ws_handle x) then inr (session_handler x) else inl false, tick [] s)
      end) in
    match r with
    | inl true => discard_resurrected_gate id g
    | inl false => Ret ()
    | inr hd => destroy_session_under_gate hd;;! Ret ()
    end)%prog.

(** *** Reconciling dead holders *)

Definition holder_cleanup_is_pending (s : shared) (x : WorkspaceSession) : bool :=
  negb (a_live (now s) (ws_handle x)) && negb (holder_cleanup_terminal x)
  && (negb (holder_quiesced_for_finalization x) || bool_decide (finalization_state x = FinalizeFailed)).

Definition flight_has_plan (s : shared) (fl : nat) : bool :=
  match flights s !! fl with
  | Some f => match f_plan f with Some _ => true | None => false end
  | None => false
  end.

(** One session of the pass; [false] after a panic. *)
Definition reconcile_session (id : session_id) : prog bool :=
  (let! existing := look (λ s, match destroy_flights s !! id with
                               | Some fl => if flight_has_plan s fl then Some fl else None
                               | None => None
                               end) in
   match existing with
   | Some fl => let! r := wait_holder_destroy_flight fl in Ret (is_ok r)
   | None =>
       let! claimed := under_gate id (λ _,
         let! hd := section (λ s,
           match sessions s !! id with
           | None => (None, s)
           | Some x => (if holder_cleanup_is_pending s x then Some (session_handler x) else None, tick [] s)
           end) in
         match hd with
         | None => Ret None
         | Some hd => let! c := claim_holder_destroy_flight hd in
                      Ret (match c with Ok c => Some c | Err _ => None end)
         end) in
       match claimed with
       | None => Ret true
       | Some (fl, leader) =>
           (if leader : bool then lead_holder_destroy fl;;! Ret () else Ret ());;!
           let! r := wait_holder_destroy_flight fl in Ret (is_ok r)
       end
   end)%prog.

Fixpoint reconcile_sessions (ids : list session_id) : prog () :=
  match ids with
  | [] => Ret ()
  | id :: ids => (let! go_on := reconcile_session id in if go_on : bool then reconcile_sessions ids else Ret ())%prog
  end.

Definition reconcile_holder_exits : prog () :=
  (let! ids := section (λ s,
     ((filter (λ ix, holder_cleanup_is_pending s ix.2 = true) (map_to_list (sessions s))).*1, tick [] s)) in
   reconcile_sessions ids)%prog.

(** *** Shutting down *)

Definition SESSION_CONVERGENCE_ATTEMPTS : nat := 8.

Inductive shutdown_next :=
| ShutdownDone (ok : bool)
| ShutdownGone (g : nat)                      (* the gate may have been resurrected *)
| ShutdownWait (fl : nat)                     (* wait, then look again *)
| ShutdownCancel (ids : list command_id)      (* cancel, then look again *)
| ShutdownLead (fl : nat) (leader : bool).

(** The finalization of a session that publishes at its end. *)
Definition shutdown_finalize (id : session_id) (g : nat) (hd : Handler) : prog shutdown_next :=
  (let! claimed := section (λ s,
     match sessions s !! id with
     | None => (None, s)
     | Some x =>
         if decide (session_handler x ≠ hd) then (Some false, s)
         else (Some true, put_session id (with_state Finalizing x) s)
     end) in
   match claimed with
   | None => Ret (ShutdownGone g)
   | Some false => Ret (ShutdownDone false)
   | Some true =>
       let! finalization := quiesce_session_holder HOLDER_FINALIZATION_MAX_ATTEMPTS in
       match finalization with
       | Quiesced =>
           let! marked := mark_holder_quiesced_for_finalization hd in
           if negb marked then mark_destroy_failed hd;;! Ret (ShutdownDone false)
           else
             finalize_session_snapshot hd;;!
             let! retained := look (λ s, match session_of s hd with Some _ => true | None => false end) in
             Ret (ShutdownDone (negb retained))
       | Exited =>
           let! c := claim_holder_destroy_flight hd in
           Ret (match c with Ok (fl, leader) => ShutdownLead fl leader | Err _ => ShutdownDone false end)
       | Unknown => mark_destroy_failed hd;;! Ret (ShutdownDone false)
       end
   end)%prog.

Definition shutdown_under_gate (id : session_id) (g : nat) : prog shutdown_next :=
  (let! existing := existing_destroy_flight id in
   match existing with
   | Some fl => Ret (ShutdownWait fl)
   | None =>
       let! found := section (λ s,
         match sessions s !! id with
         | None => (None, s)
         | Some x => (Some (x, a_live (now s) (ws_handle x)), tick [] s)
         end) in
       match found with
       | None => Ret (ShutdownGone g)
       | Some (x, false) =>
           let! c := claim_holder_destroy_flight (session_handler x) in
           Ret (match c with Ok (fl, leader) => ShutdownLead fl leader | Err _ => ShutdownDone false end)
       | Some (x, true) =>
           if decide (active_commands x ≠ []) then Ret (ShutdownCancel (active_commands x))
           else if decide (finalize_policy x = PublishThenDestroy ∧ finalization_state x = Active)
           then shutdown_finalize id g (session_handler x)
           else
             let! c := claim_destroy_flight (session_handler x) in
             match c with
             | Err _ => Ret (ShutdownDone false)
             | Ok (fl, false) => Ret (ShutdownLead fl false)
             | Ok (fl, true) =>
                 let! r := destroy_claimed_session (session_handler x) fl in Ret (ShutdownDone (is_ok r))
             end
       end
   end)%prog.

Fixpoint shutdown_session (attempts : nat) (id : session_id) : prog bool :=
  match attempts with
  | O => Ret false
  | S attempts =>
      (let! early := existing_destroy_flight id in
       match early with
       | Some fl =>
           let! r := wait_destroy_flight fl in
           if is_ok r then shutdown_session attempts id else Ret false
       | None =>
           let! n := under_gate id (shutdown_under_gate id) in
           match n with
           | ShutdownDone ok => Ret ok
           | ShutdownGone g => discard_resurrected_gate id g;;! Ret true
           | ShutdownWait fl =>
               let! r := wait_destroy_flight fl in
               if is_ok r then shutdown_session attempts id else Ret false
           | ShutdownCancel ids =>
               let! joined := cancel_and_join_commands ids in
               if joined : bool then shutdown_session attempts id else Ret false
           | ShutdownLead fl leader => let! r := lead_or_wait fl leader in Ret (is_ok r)
           end
       end)%prog
  end.

Fixpoint shutdown_each (ids : list session_id) : prog () :=
  match ids with
  | [] => Ret ()
  | id :: ids => (shutdown_session SESSION_CONVERGENCE_ATTEMPTS id;;! shutdown_each ids)%prog
  end.

Definition shutdown_sessions : prog () :=
  (let! ids := look (λ s, merge_sort bytes_le (map_to_list (sessions s)).*1) in shutdown_each ids)%prog.

(** *** Creating a session *)

Definition reserve_workspace_session_id (id : session_id) : prog bool :=
  section (λ s,
    if decide (id ∈ creating_sessions s ∨ is_Some (sessions s !! id) ∨ is_Some (destroy_flights s !! id))
    then (false, s) else (true, set_creating (id :: creating_sessions s) s)).

(** The reservation is dropped. *)
Definition release_reservation (id : session_id) : prog () :=
  update (λ s, set_creating (filter (λ x, x ≠ id) (creating_sessions s)) s).

(** The handle is numbered by the moment of the call. *)
Definition create_workspace : prog (option (session_id * nat)) :=
  section (λ s, (match a_create (now s) with Some id => Some (id, clock s) | None => None end, tick [] s)).

(** [Entry::Vacant(entry) => insert]. *)
Definition insert_vacant (id : session_id) (x : WorkspaceSession) : prog bool :=
  section (λ s, if decide (is_Some (sessions s !! id)) then (false, s) else (true, put_session id x s)).

Definition join_created_session_flight (hd : Handler) (fl : nat) : prog session_error :=
  (let! has_plan := look (λ s, flight_has_plan s fl) in
   if negb has_plan then
     let! r := wait_destroy_flight fl in
     Ret (match r with Ok _ => NotFound | Err e => e end)
   else
     let! d := wait_holder_destroy_flight fl in
     let fallback := match d with Ok RetryableCleanupFailure => FinalizeFailed | _ => Active end in
     let! st := look (λ s, match session_of s hd with Some x => finalization_state x | None => fallback end) in
     Ret (HolderExited st))%prog.

(** What is left to do once the gate is released. *)
Inductive commit_next :=
| CommitDone (r : result () session_error)
| CommitGone
| CommitJoin (fl : nat) (leader : bool).

Definition commit_under_gate (hd : Handler) : prog commit_next :=
  (let! existing := existing_destroy_flight_for_handler hd in
   match existing with
   | Some fl => Ret (CommitJoin fl false)
   | None =>
       let! found := section (λ s,
         match sessions s !! h_id hd with
         | None => (inl true, s)
         | Some x =>
             if decide (session_handler x ≠ hd) then (inl false, s)
             else (inr (finalization_state x, a_live (now s) (ws_handle x)), tick [] s)
         end) in
       match found with
       | inl true => Ret CommitGone
       | inl false => Ret (CommitDone (Err NotFound))
       | inr (Active, true) => Ret (CommitDone (Ok ()))
       | inr (_, true) => Ret (CommitDone (Err FinalizationFailed))
       | inr (Active, false) =>
           let! c := claim_holder_destroy_flight hd in
           Ret (match c with Err e => CommitDone (Err e) | Ok (fl, leader) => CommitJoin fl leader end)
       | inr (st, false) => Ret (CommitDone (Err (HolderExited st)))
       end
   end)%prog.

Definition commit_created_session (hd : Handler) : prog (result () session_error) :=
  (let! early := existing_destroy_flight_for_handler hd in
   match early with
   | Some fl => let! e := join_created_session_flight hd fl in Ret (Err e)
   | None =>
       let! a := under_gate (h_id hd) (λ _, commit_under_gate hd) in
       match a with
       | CommitDone r => Ret r
       | CommitGone =>
           let! live := ask (λ a, a_live a (h_handle hd)) (λ _, []) in
           Ret (Err (if live : bool then NotFound else HolderExited Active))
       | CommitJoin fl leader =>
           (if leader : bool then lead_holder_destroy fl;;! Ret () else Ret ());;!
           let! e := join_created_session_flight hd fl in Ret (Err e)
       end
   end)%prog.

Definition with_destroyed (b : bool) (x : WorkspaceSession) : WorkspaceSession :=
  with_state FinalizeFailed (with_ledger b (cgroup_cleanup_complete x) x).

(** The rollback of a create whose cgroup could not be set up. *)
Definition rollback_create (id : session_id) (handle : nat) (policy : FinalizePolicy) (rollback_failed : bool)
    : prog (result Handler session_error) :=
  (let! raw := destroy_workspace handle in
   match raw with
   | RawPanicked => Ret (Err Panicked)
   | _ =>
       let! retry := (if rollback_failed then ask a_path_exists (λ _, []) else Ret false) in
       let raw_ok := match raw with RawOk => true | _ => false end in
       if negb raw_ok || retry then
         insert_vacant id (with_destroyed raw_ok (session_from_handle id handle retry policy));;!
         Ret (Err TeardownIncomplete)
       else Ret (Err (WorkloadCgroupSetupFailed rollback_failed))
   end)%prog.

Definition insert_created (id : session_id) (handle : nat) (cgroup : bool) (policy : FinalizePolicy)
    : prog (result Handler session_error) :=
  (let hd := mkHandler id handle cgroup in
   let! inserted := insert_vacant id (session_from_handle id handle cgroup policy) in
   if negb inserted then
     let! raw := destroy_workspace handle in
     match raw with
     | RawPanicked => Ret (Err Panicked)
     | RawFailed => Ret (Err CreateRollbackFailed)
     | RawOk =>
         (if cgroup then ask a_cgroup (λ a, [EvCgroup handle (a_cgroup a)]);;! Ret () else Ret ());;!
         Ret (Err DuplicateWorkspaceSessionId)
     end
   else
     let! r := commit_created_session hd in
     Ret (match r with Ok _ => Ok hd | Err e => Err e end))%prog.

Definition create_workspace_session (policy : FinalizePolicy) : prog (result Handler session_error) :=
  (let! allocated := ask a_allocate (λ _, []) in
   match allocated with
   | None => Ret (Err Workspace)
   | Some id =>
       let! reserved := reserve_workspace_session_id id in
       if negb reserved then Ret (Err DuplicateWorkspaceSessionId)
       else
         let! created := create_workspace in
         let! r :=
           match created with
           | None => Ret (Err Workspace)
           | Some (id', handle) =>
               if decide (id' ≠ id) then Ret (Err WorkspaceIdentityMismatch)
               else
                 let! prepared := ask a_prepare (λ _, []) in
                 match prepared with
                 | (Some cgroup, _) => insert_created id handle cgroup policy
                 | (None, rollback_failed) => rollback_create id handle policy rollback_failed
                 end
           end in
         release_reservation id;;!
         Ret r
   end)%prog.

(** *** Running a command *)

(** [cleanup_implicit_session] *)
Definition cleanup_implicit_session (implicit : option Handler) : prog () :=
  match implicit with
  | None => Ret ()
  | Some hd => (destroy_session hd;;! Ret ())%prog
  end.

(** The command runs in the given session, or in one of its own.  The guard of
    the gate lives until the end of the body, also around the clean-up. *)
Definition exec_in (id : session_id) (implicit : option Handler) : prog (result command_id session_error) :=
  (let! c := ask a_command (λ _, []) in
   let! r := under_gate id (λ g,
     let! admitted := admit_command_locked g id c in
     match admitted with
     | Err e => cleanup_implicit_session implicit;;! Ret (Err e, None)
     | Ok _ =>
         let! launched := ask a_launch (λ _, []) in
         if launched : bool then Ret (Ok c, None)
         else let! post := complete_under_gate id c None in Ret (Err Workspace, post)
     end) in
   complete_after_gate r.2;;!
   Ret r.1)%prog.

(** [blank]: the text of the command is only white space. *)
Definition exec_command (blank : bool) (input : option session_id) : prog (result command_id session_error) :=
  if blank then Ret (Err InvalidCommand)
  else match input with
  | Some id => exec_in id None
  | None =>
      (let! created := create_workspace_session PublishThenDestroy in
       match created with
       | Err e => Ret (Err e)
       | Ok hd => exec_in (h_id hd) (Some hd)
       end)%prog
  end.

(** ** Threads *)

Inductive operation :=
| OpCreate (policy : FinalizePolicy)
| OpExec (blank : bool) (input : option session_id)
| OpComplete (id : session_id) (c : command_id)
| OpFileOp (id : session_id)
| OpPublish (id : session_id)
| OpDestroy (hd : Handler)
| OpGuardedDestroy (id : session_id)
| OpDestroyFaulty (id : session_id)
| OpReconcile
| OpShutdown.

Definition run_operation (op : operation) : prog () :=
  match op with
  | OpCreate policy => create_workspace_session policy;;! Ret ()
  | OpExec blank input => exec_command blank input;;! Ret ()
  | OpComplete id c => complete_activity id c
  | OpFileOp id => run_file_op id;;! Ret ()
  | OpPublish id => publish_workspace_session id;;! Ret ()
  | OpDestroy hd => destroy_session hd;;! Ret ()
  | OpGuardedDestroy id => guarded_destroy id;;! Ret ()
  | OpDestroyFaulty id => destroy_faulty_session id
  | OpReconcile => reconcile_holder_exits
  | OpShutdown => shutdown_sessions
  end%prog.
End service.

(** Any thread takes its next action, when it is enabled. *)
Inductive thread_step : shared * list (prog ()) → shared * list (prog ()) → Prop :=
| step_at i s s' threads (X : Set) (f : shared → option (X * shared)) k x :
    threads !! i = Some (Act f k) → f s = Some (x, s') →
    thread_step (s, threads) (s', <[i := k x]> threads).

Definition initial : shared := mkShared ∅ [] ∅ 0 [] ∅ [] 0 [].

Definition started (env : nat → answers) (ops : list operation) : shared * list (prog ()) :=
  (initial, run_operation env <$> ops).

Definition finished (p : prog ()) : Prop := p = Ret ().
