(* ===== verification/SessionsInv.v ===== *)
(** * What the threads of the session service own

    The invariant behind the theorems on [Sessions]: every locked gate, every
    unfinished teardown and every workspace under construction belongs to one
    thread.  [safe] says of a program that each of its actions keeps the
    invariant from what its thread owns, whatever the other threads own, and
    that it blocks only where another thread can go on. *)

From S2P Require Import Prelude ByteStr FS Sessions.

(** ** Ownership *)

(** How far the leader of a flight is: nothing known, an undestroyed workspace
    seen, destroyed but not recorded, destroyed, destroyed and all recorded. *)
Inductive phase := Idle | Snap | Torn | Known | Ready.

Record lead := mkLead { l_flight : nat; l_of : DestroyFlight; l_phase : phase }.
Definition l_handler (l : lead) : Handler := f_handler (l_of l).

(** Locked gates, flights that are led, workspaces that are being created with
    whether they are destroyed again, ended flights, and flights seen. *)
Record own := mkOwn {
  o_gates : list nat;
  o_leads : list lead;
  o_handles : list (nat * bool);
  o_done : list nat;
  o_seen : list nat;
}.

Definition nothing : own := mkOwn [] [] [] [] [].
Definition join (o r : own) : own :=
  mkOwn (o_gates o ++ o_gates r) (o_leads o ++ o_leads r) (o_handles o ++ o_handles r)
    (o_done o ++ o_done r) (o_seen o ++ o_seen r).

Definition destroyed_of (e : event) : option nat :=
  match e with EvDestroy h true => Some h | _ => None end.
(** The workspaces that were destroyed. *)
Definition torn_handles (s : shared) : list nat := omap destroyed_of (trace s).

Definition phase_ok (s : shared) (hd : Handler) (ph : phase) : Prop :=
  match ph with
  | Idle => True
  | Snap => ∃ x, session_of s hd = Some x ∧ workspace_destroyed x = false
  | Torn | Known => h_handle hd ∈ torn_handles s
  | Ready => h_handle hd ∈ torn_handles s
             ∧ ∃ x, session_of s hd = Some x ∧ workspace_destroyed x = true ∧ cgroup_cleanup_complete x = true
  end.

Definition lead_ok (s : shared) (l : lead) : Prop :=
  flights s !! l_flight l = Some (l_of l) ∧ f_terminal (l_of l) = None
  ∧ destroy_flights s !! h_id (l_handler l) = Some (l_flight l)
  ∧ phase_ok s (l_handler l) (l_phase l).

Definition session_ok (s : shared) (o : own) (id : session_id) (x : WorkspaceSession) : Prop :=
  ws_id x = id ∧ ws_handle x < clock s
  ∧ (workspace_destroyed x = true → ws_handle x ∈ torn_handles s)
  ∧ (workspace_destroyed x = false → ws_handle x ∈ torn_handles s →
     ∃ l, l ∈ o_leads o ∧ l_phase l = Torn ∧ l_handler l = session_handler x).

Definition handle_ok (s : shared) (hb : nat * bool) : Prop :=
  hb.1 < clock s ∧ (hb.1 ∈ torn_handles s ↔ hb.2 = true)
  ∧ ∀ id x, sessions s !! id = Some x → ws_handle x ≠ hb.1.

Record Inv (s : shared) (o : own) : Prop := mkInv {
  inv_held : held s ≡ₚ o_gates o;
  inv_held_nodup : NoDup (held s);
  inv_map : ∀ id fl, destroy_flights s !! id = Some fl → fl < length (flights s);
  inv_seen : ∀ fl, fl ∈ o_seen o → fl < length (flights s);
  inv_done : ∀ fl, fl ∈ o_done o → ∃ F, flights s !! fl = Some F ∧ is_Some (f_terminal F);
  inv_leads_nodup : NoDup (l_flight <$> o_leads o);
  inv_lead : ∀ l, l ∈ o_leads o → lead_ok s l;
  inv_pending : ∀ fl F, flights s !! fl = Some F → f_terminal F = None → fl ∈ l_flight <$> o_leads o;
  inv_session : ∀ id x, sessions s !! id = Some x → session_ok s o id x;
  inv_unique : ∀ id id' x x', sessions s !! id = Some x → sessions s !! id' = Some x' →
                 ws_handle x = ws_handle x' → id = id';
  inv_handles_nodup : NoDup (o_handles o).*1;
  inv_handle : ∀ hb, hb ∈ o_handles o → handle_ok s hb;
  inv_torn_nodup : NoDup (torn_handles s);
  inv_torn_old : ∀ h, h ∈ torn_handles s → h < clock s;
}.

(** ** Steps that leave ownership alone *)

(** A session of the same generation; commands are added to active ones only. *)
Definition same_ledger (x x' : WorkspaceSession) : Prop :=
  session_handler x' = session_handler x ∧ workspace_destroyed x' = workspace_destroyed x
  ∧ cgroup_cleanup_complete x' = cgroup_cleanup_complete x
  ∧ ∀ c, c ∈ active_commands x' → c ∈ active_commands x ∨ finalization_state x = Active.

Record quiet (s s' : shared) : Prop := mkQuiet {
  q_sessions : ∀ id, option_Forall2 same_ledger (sessions s !! id) (sessions s' !! id);
  q_held : held s' = held s;
  q_map : destroy_flights s' = destroy_flights s;
  q_flights : flights s' = flights s;
  q_clock : clock s ≤ clock s';
  q_trace : torn_handles s' = torn_handles s;
}.

(** What any action may do to the sessions: one disappears only when its
    workspace and its cgroup are gone, one is never replaced, and commands are
    added to active ones only. *)
Definition step_ok (s s' : shared) : Prop :=
  ∀ id x, sessions s !! id = Some x →
    match sessions s' !! id with
    | None => ws_handle x ∈ torn_handles s ∧ workspace_destroyed x = true ∧ cgroup_cleanup_complete x = true
    | Some x' => session_handler x' = session_handler x
                 ∧ ∀ c, c ∈ active_commands x' → c ∈ active_commands x ∨ finalization_state x = Active
    end.

Lemma session_of_Some (s : shared) (hd : Handler) (x : WorkspaceSession) :
  session_of s hd = Some x ↔ sessions s !! h_id hd = Some x ∧ session_handler x = hd.
Proof.
  unfold session_of. destruct (sessions s !! h_id hd) as [y|]; [|naive_solver].
  case_decide; naive_solver.
Qed.

Lemma quiet_session_of (s s' : shared) (hd : Handler) :
  quiet s s' → option_Forall2 same_ledger (session_of s hd) (session_of s' hd).
Proof.
  intros Hq. pose proof (q_sessions _ _ Hq (h_id hd)) as H. unfold session_of.
  destruct (sessions s !! h_id hd) as [x|], (sessions s' !! h_id hd) as [x'|]; inversion H as [? ? Hl|]; subst;
    [|constructor].
  destruct Hl as (Hh & ?). rewrite Hh. case_decide; by constructor.
Qed.

Lemma quiet_step (s s' : shared) : quiet s s' → step_ok s s'.
Proof.
  intros Hq id x Hx. pose proof (q_sessions _ _ Hq id) as H. rewrite Hx in H.
  inversion H as [? x' Hl|]; subst. destruct Hl as (? & _ & _ & ?). done.
Qed.

Lemma step_same (s s' : shared) : sessions s' = sessions s → step_ok s s'.
Proof. intros Hs id x Hx. rewrite Hs, Hx. auto. Qed.

Lemma quiet_refl (s : shared) : quiet s s.
Proof.
  split; try done. intros id. destruct (sessions s !! id); constructor. repeat split; auto.
Qed.

Lemma quiet_phase (s s' : shared) (hd : Handler) (ph : phase) :
  quiet s s' → phase_ok s hd ph → phase_ok s' hd ph.
Proof.
  intros Hq. pose proof (quiet_session_of _ _ hd Hq) as Hs. unfold phase_ok. rewrite (q_trace _ _ Hq).
  destruct ph; try done.
  - intros (x & Hx & Hd). rewrite Hx in Hs. inversion Hs as [? x' Hl|]; subst.
    destruct Hl as (_ & Hd' & _). exists x'. split; [done|congruence].
  - intros (Ht & x & Hx & Hd & Hc). rewrite Hx in Hs. inversion Hs as [? x' Hl|]; subst.
    destruct Hl as (_ & Hd' & Hc' & _). split; [done|]. exists x'. split_and!; [done|congruence..].
Qed.

Lemma quiet_lookup (s s' : shared) (id : session_id) (x' : WorkspaceSession) :
  quiet s s' → sessions s' !! id = Some x' → ∃ x, sessions s !! id = Some x ∧ same_ledger x x'.
Proof.
  intros Hq Hx. pose proof (q_sessions _ _ Hq id) as H. rewrite Hx in H.
  inversion H as [x ? Hl Ha|]; subst. eauto.
Qed.

Lemma same_ledger_handle (x x' : WorkspaceSession) :
  same_ledger x x' → ws_id x' = ws_id x ∧ ws_handle x' = ws_handle x.
Proof. intros (H & _). by injection H. Qed.

Lemma quiet_inv (s s' : shared) (o : own) : quiet s s' → Inv s o → Inv s' o.
Proof.
  intros Hq HI. destruct HI as [H1 H2 H3 H4 H5 H6 H7 H8 H9 H10 H11 H12 H13 H14].
  pose proof (q_clock _ _ Hq) as Hc.
  split; rewrite ?(q_held _ _ Hq), ?(q_map _ _ Hq), ?(q_flights _ _ Hq), ?(q_trace _ _ Hq); try done.
  - intros l Hl. destruct (H7 l Hl) as (? & ? & ? & ?).
    unfold lead_ok. rewrite (q_map _ _ Hq), (q_flights _ _ Hq). eauto using quiet_phase.
  - intros id x' Hx'. destruct (quiet_lookup _ _ _ _ Hq Hx') as (x & Hx & Hl).
    destruct (same_ledger_handle _ _ Hl) as [Hi Hh]. destruct Hl as (Hhd & Hd & _).
    destruct (H9 _ _ Hx) as (? & ? & ? & ?).
    unfold session_ok. rewrite (q_trace _ _ Hq), Hi, Hh, Hd, Hhd. repeat split; auto. lia.
  - intros id id' x x' Hx Hx'. destruct (quiet_lookup _ _ _ _ Hq Hx) as (y & Hy & Hl).
    destruct (quiet_lookup _ _ _ _ Hq Hx') as (y' & Hy' & Hl').
    destruct (same_ledger_handle _ _ Hl) as [_ ->]. destruct (same_ledger_handle _ _ Hl') as [_ ->]. eauto.
  - intros hb Hhb. destruct (H12 _ Hhb) as (? & ? & Hn). unfold handle_ok. rewrite (q_trace _ _ Hq).
    split_and!; [lia|done|..]. intros id x' Hx'. destruct (quiet_lookup _ _ _ _ Hq Hx') as (x & Hx & Hl).
    destruct (same_ledger_handle _ _ Hl) as [_ ->]. eauto.
  - intros h Hh. specialize (H14 h Hh). lia.
Qed.

(** ** Steps that move ownership *)

Section moves.
Context (s : shared) (gs : list nat) (ls : list lead) (hs : list (nat * bool)) (ds sn : list nat).

Lemma lock_inv (g : nat) :
  g ∉ held s → Inv s (mkOwn gs ls hs ds sn) → Inv (set_held (g :: held s) s) (mkOwn (g :: gs) ls hs ds sn).
Proof.
  intros Hg []. split; try done.
  - simpl in *. by constructor.
  - simpl. by constructor.
Qed.

Lemma unlock_inv (g : nat) :
  Inv s (mkOwn (g :: gs) ls hs ds sn) →
  Inv (set_held (filter (λ x, x ≠ g) (held s)) s) (mkOwn gs ls hs ds sn).
Proof.
  intros [Hh Hn]. split; try done; simpl in *; [|by apply NoDup_filter].
  assert (NoDup (g :: gs)) as [Hg Hn']%NoDup_cons by by rewrite <- Hh.
  rewrite Hh, filter_cons_False by naive_solver. rewrite Forall_filter_id; [done|].
  apply Forall_forall. intros x Hx ->. done.
Qed.

Lemma seen_inv (fl : nat) :
  fl < length (flights s) → Inv s (mkOwn gs ls hs ds sn) → Inv s (mkOwn gs ls hs ds (fl :: sn)).
Proof.
  intros Hfl []. split; try done. intros f [->|?]%elem_of_cons; [done|by apply inv_seen0].
Qed.

(** Dropping what is no obligation. *)
Lemma drop_inv (hs' : list (nat * bool)) (ds' sn' : list nat) :
  hs' ⊆+ hs → ds' ⊆ ds → sn' ⊆ sn → Inv s (mkOwn gs ls hs ds sn) → Inv s (mkOwn gs ls hs' ds' sn').
Proof.
  intros Hh Hd Hs []. split; try done; simpl in *.
  - intros fl Hfl. by apply inv_seen0, Hs.
  - intros fl Hfl. by apply inv_done0, Hd.
  - apply submseteq_Permutation in Hh as [k Hk]. rewrite Hk, fmap_app in inv_handles_nodup0.
    by apply NoDup_app in inv_handles_nodup0 as [? _].
  - intros hb Hhb. apply inv_handle0. by eapply elem_of_submseteq.
Qed.

(** Two leads are of different sessions. *)
Lemma leads_inj (o : own) (l l' : lead) :
  Inv s o → l ∈ o_leads o → l' ∈ o_leads o → h_id (l_handler l) = h_id (l_handler l') → l = l'.
Proof.
  intros HI Hl Hl' Hid. destruct (inv_lead _ _ HI l Hl) as (Hf & _ & Hm & _).
  destruct (inv_lead _ _ HI l' Hl') as (_ & _ & Hm' & _).
  rewrite Hid, Hm' in Hm. injection Hm as Hm.
  apply list_elem_of_lookup in Hl as [i Hi], Hl' as [j Hj].
  assert (i = j) as ->; [|congruence].
  eapply (NoDup_lookup _ _ _ _ (inv_leads_nodup _ _ HI)); rewrite list_lookup_fmap.
  - by rewrite Hi.
  - rewrite Hj. simpl. by rewrite Hm.
Qed.

(** A flight is claimed: it becomes the one of its session. *)
Lemma claim_inv (hd : Handler) (plan : option HolderDestroyPlan) :
  destroy_flights s !! h_id hd = None → Inv s (mkOwn gs ls hs ds sn) →
  Inv (new_flight hd plan s).2
    (mkOwn gs (mkLead (length (flights s)) (mkFlight hd plan None) Idle :: ls) hs ds sn).
Proof.
  intros Hnone []. split; try done; simpl in *.
  - intros id fl. rewrite lookup_insert_Some, length_app. simpl. intros [[_ <-]|[_ H]]; [lia|].
    specialize (inv_map0 _ _ H). lia.
  - intros fl Hfl. rewrite length_app. simpl. specialize (inv_seen0 _ Hfl). lia.
  - intros fl Hfl. destruct (inv_done0 _ Hfl) as (F & HF & ?). exists F.
    split; [|done]. by apply lookup_app_l_Some.
  - constructor; [|done]. intros (l & Hlen & Hl)%list_elem_of_fmap.
    destruct (inv_lead0 _ Hl) as (Hl' & _). apply lookup_lt_Some in Hl'. lia.
  - intros l [->|Hl]%elem_of_cons.
    + unfold lead_ok. simpl. split_and!; try done.
      * by rewrite lookup_app_r, Nat.sub_diag by lia.
      * by rewrite lookup_insert_eq.
    + destruct (inv_lead0 _ Hl) as (? & ? & Hm & ?). unfold lead_ok. simpl. split_and!; try done.
      * by apply lookup_app_l_Some.
      * rewrite lookup_insert_ne; [done|]. intros Heq. congruence.
  - intros fl F [HF|[Hlen HF]]%lookup_app_Some Ht.
    + apply elem_of_cons. right. by eapply inv_pending0.
    + assert (fl = length (flights s)) as ->; [|by left].
      apply list_lookup_singleton_Some in HF. lia.
  - intros id x Hx. destruct (inv_session0 _ _ Hx) as (? & ? & ? & Hl). repeat split; try done.
    intros Hd Ht. destruct (Hl Hd Ht) as (l & ? & ? & ?). exists l. split; [by right|done].
Qed.

(** The leader answers the waiters. *)
Lemma terminal_inv (fl : nat) (F : DestroyFlight) (ph : phase) (t : DestroyFlightTerminal) :
  ph ≠ Torn → Inv s (mkOwn gs (mkLead fl F ph :: ls) hs ds sn) →
  Inv (set_terminal fl t s) (mkOwn gs ls hs (fl :: ds) sn).
Proof.
  intros Hph []. destruct (inv_lead0 (mkLead fl F ph)) as (HF & Ht & Hm & _); [by left|]. simpl in *.
  apply NoDup_cons in inv_leads_nodup0 as [Hfl Hnd]. pose proof (lookup_lt_Some _ _ _ HF) as Hlt.
  unfold set_terminal. rewrite HF, Ht. split; try done; simpl.
  - intros id f Hf. rewrite length_insert. eauto.
  - intros f Hf. rewrite length_insert. eauto.
  - intros f Hf. destruct (decide (f = fl)) as [->|Hne].
    + eexists. by rewrite list_lookup_insert_eq.
    + rewrite list_lookup_insert_ne by done. apply elem_of_cons in Hf as [?|?]; [done|]. by apply inv_done0.
  - intros l Hl. destruct (inv_lead0 l) as (? & ? & ? & ?); [by right|]. unfold lead_ok. simpl.
    rewrite list_lookup_insert_ne; [done|]. intros ->. by apply Hfl, list_elem_of_fmap_2.
  - intros f F' Hf Hnone. destruct (decide (f = fl)) as [->|Hne].
    + rewrite list_lookup_insert_eq in Hf by done. by injection Hf as <-.
    + rewrite list_lookup_insert_ne in Hf by done.
      specialize (inv_pending0 _ _ Hf Hnone). by apply elem_of_cons in inv_pending0 as [|?].
  - intros id x Hx. destruct (inv_session0 _ _ Hx) as (? & ? & ? & Hl). repeat split; try done.
    intros Hd Htn. destruct (Hl Hd Htn) as (l & [->|?]%elem_of_cons & ? & ?); [done|eauto].
Qed.

(** An ended flight leaves the map. *)
Lemma unmap_inv (fl : nat) (id : session_id) :
  destroy_flights s !! id = Some fl → Inv s (mkOwn gs ls hs (fl :: ds) sn) →
  Inv (set_flights (delete id (destroy_flights s)) (flights s) s) (mkOwn gs ls hs ds sn).
Proof.
  intros Hid []. split; try done; simpl in *.
  - intros i f [_ ?]%lookup_delete_Some. eauto.
  - intros f Hf. apply inv_done0. by right.
  - intros l Hl. destruct (inv_lead0 l Hl) as (Hf & Ht & Hm & ?). unfold lead_ok. simpl.
    rewrite lookup_delete_ne; [done|]. intros ->. rewrite Hid in Hm. injection Hm as ->.
    destruct (inv_done0 (l_flight l)) as (F & HF & [t ?]); [by left|]. congruence.
Qed.

(** The leader learns something. *)
Lemma phase_inv (fl : nat) (F : DestroyFlight) (ph ph' : phase) :
  (ph = Torn → session_of s (f_handler F) = None) → phase_ok s (f_handler F) ph' →
  Inv s (mkOwn gs (mkLead fl F ph :: ls) hs ds sn) → Inv s (mkOwn gs (mkLead fl F ph' :: ls) hs ds sn).
Proof.
  intros Hph Hok []. split; try done; simpl in *.
  - intros l [->|Hl]%elem_of_cons; [|apply inv_lead0; by right].
    destruct (inv_lead0 (mkLead fl F ph)) as (? & ? & ? & ?); [by left|]. done.
  - intros id x Hx. destruct (inv_session0 _ _ Hx) as (Hid & ? & ? & Hl). repeat split; try done.
    intros Hd Ht. destruct (Hl Hd Ht) as (l & [->|?]%elem_of_cons & Hp & Hh); [|exists l; split; [by right|done]].
    simpl in *. assert (session_of s (f_handler F) = Some x) as Hs; [|rewrite Hph in Hs; congruence].
    apply session_of_Some. unfold l_handler in Hh. simpl in Hh. rewrite Hh. simpl. by rewrite Hid.
Qed.
End moves.

Lemma torn_tick (s : shared) (evs : list event) :
  torn_handles (tick evs s) = torn_handles s ++ omap destroyed_of evs.
Proof. unfold torn_handles. simpl. apply omap_app. Qed.

Lemma torn_destroyed (s : shared) (h h' : nat) :
  h' ∈ torn_handles (tick [EvDestroy h true] s) ↔ h' ∈ torn_handles s ∨ h' = h.
Proof. rewrite torn_tick. simpl. set_solver. Qed.

Lemma torn_other (s : shared) (h h' : nat) :
  h' ≠ h → h' ∈ torn_handles (tick [EvDestroy h true] s) ↔ h' ∈ torn_handles s.
Proof. intros Hne. rewrite torn_destroyed. split; [by intros [|]|by left]. Qed.

Lemma torn_nodup (s : shared) (h : nat) :
  NoDup (torn_handles s) → h ∉ torn_handles s → NoDup (torn_handles (tick [EvDestroy h true] s)).
Proof.
  intros Hn Hh. rewrite torn_tick. simpl. apply NoDup_app. split_and!; [done|set_solver|apply NoDup_singleton].
Qed.

Lemma session_of_put_ne (s : shared) (hd : Handler) (id : session_id) (x : WorkspaceSession) :
  h_id hd ≠ id → session_of (put_session id x s) hd = session_of s hd.
Proof. intros Hne. unfold session_of. simpl. by rewrite lookup_insert_ne. Qed.

Lemma session_of_delete_ne (s : shared) (hd : Handler) (id : session_id) :
  h_id hd ≠ id → session_of (set_sessions (delete id (sessions s)) s) hd = session_of s hd.
Proof. intros Hne. unfold session_of. simpl. by rewrite lookup_delete_ne. Qed.

(** A phase depends on the session of its handler only. *)
Lemma phase_ok_ext (s s' : shared) (hd : Handler) (ph : phase) :
  session_of s' hd = session_of s hd → torn_handles s' = torn_handles s → phase_ok s hd ph → phase_ok s' hd ph.
Proof. intros Hs Ht. unfold phase_ok. by rewrite Hs, Ht. Qed.

(** The other leads are of other sessions. *)
Lemma other_lead (s : shared) (o : own) (l l' : lead) (ls : list lead) :
  Inv s o → o_leads o = l :: ls → l' ∈ ls → h_id (l_handler l') ≠ h_id (l_handler l).
Proof.
  intros HI Ho Hl' Heq. assert (l' = l) as ->.
  { apply (leads_inj s o); [done|rewrite Ho; by right|rewrite Ho; by left|done]. }
  pose proof (inv_leads_nodup _ _ HI) as Hn. rewrite Ho in Hn. simpl in Hn.
  apply NoDup_cons in Hn as [Hn _]. by apply Hn, list_elem_of_fmap_2.
Qed.

Section teardown.
Context (s : shared) (gs : list nat) (ls : list lead) (hs : list (nat * bool)) (ds sn : list nat).
Context (fl : nat) (F : DestroyFlight).

(** A workspace that its leader saw undestroyed is not destroyed. *)
Lemma snap_untorn :
  Inv s (mkOwn gs (mkLead fl F Snap :: ls) hs ds sn) →
  ∃ x, sessions s !! h_id (f_handler F) = Some x ∧ session_handler x = f_handler F
       ∧ workspace_destroyed x = false ∧ ws_handle x = h_handle (f_handler F)
       ∧ h_handle (f_handler F) ∉ torn_handles s.
Proof.
  intros HI. destruct (inv_lead _ _ HI (mkLead fl F Snap)) as (_ & _ & _ & x & Hx & Hd); [by left|].
  apply session_of_Some in Hx as [Hx Hh]. unfold l_handler in *. simpl in *. exists x.
  assert (ws_handle x = h_handle (f_handler F)) as Hw by by rewrite <- Hh.
  split_and!; try done. intros Ht. destruct (inv_session _ _ HI _ _ Hx) as (_ & _ & _ & Hl).
  rewrite Hw in Hl. destruct (Hl Hd Ht) as (l & Hin & Hp & Hlh). simpl in Hin.
  assert (l = mkLead fl F Snap) as ->; [|done].
  eapply leads_inj; [done|done|by left|]. rewrite Hlh. unfold l_handler. simpl. by rewrite <- Hh.
Qed.

(** The leader destroys the workspace. *)
Lemma raw_inv :
  Inv s (mkOwn gs (mkLead fl F Snap :: ls) hs ds sn) →
  Inv (tick [EvDestroy (h_handle (f_handler F)) true] s) (mkOwn gs (mkLead fl F Torn :: ls) hs ds sn).
Proof.
  intros HI. destruct (snap_untorn HI) as (x & Hx & Hh & Hd & Hw & Hnt).
  destruct HI. simpl in *.
  set (h := h_handle (f_handler F)) in *. split; try done; simpl in *.
  - intros l [->|Hl]%elem_of_cons.
    + destruct (inv_lead0 (mkLead fl F Snap)) as (? & ? & ? & _); [by left|].
      repeat split; try done. simpl. apply torn_destroyed. by right.
    + destruct (inv_lead0 l) as (? & ? & ? & Hp); [by right|]. repeat split; try done.
      destruct (l_phase l); simpl in *; rewrite ?torn_destroyed; try naive_solver.
  - intros id y Hy. destruct (inv_session0 _ _ Hy) as (? & ? & Hds & Hl). unfold session_ok. simpl.
    rewrite torn_destroyed. split_and!; [done|lia|auto|].
    intros Hyd [Ht|Ht].
    + destruct (Hl Hyd Ht) as (l & [->|?]%elem_of_cons & ? & ?); [done|]. exists l. split; [by right|done].
    + assert (id = h_id (f_handler F)) as -> by (eapply inv_unique0; [done..|congruence]).
      rewrite Hx in Hy. injection Hy as <-. eexists. split; [by left|]. done.
  - intros hb Hhb. destruct (inv_handle0 _ Hhb) as (? & ? & Hn). unfold handle_ok.
    rewrite torn_other by (specialize (Hn _ _ Hx); congruence). simpl. split_and!; [lia|done|done].
  - by apply torn_nodup.
  - intros h' [Ht| ->]%torn_destroyed; [specialize (inv_torn_old0 _ Ht); lia|].
    destruct (inv_session0 _ _ Hx) as (_ & Hlt & _). lia.
Qed.

(** What the leader knows after it recorded its results. *)
Definition recorded_phase (workspace_ok cgroup_ok : bool) : phase :=
  if workspace_ok then if cgroup_ok then Ready else Known else Idle.

Lemma record_inv (ph : phase) (x : WorkspaceSession) (workspace_ok cgroup_ok : bool) :
  session_of s (f_handler F) = Some x →
  (if workspace_ok then h_handle (f_handler F) ∈ torn_handles s else ph ≠ Torn) →
  Inv s (mkOwn gs (mkLead fl F ph :: ls) hs ds sn) →
  Inv (put_session (h_id (f_handler F)) (with_ledger workspace_ok cgroup_ok x) s)
    (mkOwn gs (mkLead fl F (recorded_phase workspace_ok cgroup_ok) :: ls) hs ds sn).
Proof.
  intros [Hx Hh]%session_of_Some Hok HI. pose proof (λ l', other_lead _ _ _ l' _ HI eq_refl) as Hother.
  assert (ws_handle x = h_handle (f_handler F)) as Hw by by rewrite <- Hh.
  destruct HI. simpl in *. split; try done; simpl in *.
  - intros l [->|Hl]%elem_of_cons.
    + destruct (inv_lead0 (mkLead fl F ph)) as (? & ? & ? & _); [by left|].
      repeat split; try done. unfold recorded_phase, l_handler. simpl.
      destruct workspace_ok, cgroup_ok; simpl; try done. split; [done|].
      eexists. split; [apply session_of_Some; simpl; by rewrite lookup_insert_eq|]. simpl. by rewrite orb_true_r.
    + destruct (inv_lead0 l) as (? & ? & ? & Hp); [by right|]. repeat split; try done.
      revert Hp. apply phase_ok_ext; [|done]. apply session_of_put_ne. exact (Hother l Hl).
  - intros id y. rewrite lookup_insert_Some. intros [[<- <-]|[Hne Hy]].
    + destruct (inv_session0 _ _ Hx) as (? & ? & Hds & Hl). unfold session_ok. simpl. split_and!; try done.
      * intros [?|Hwo]%orb_prop; [auto|]. destruct workspace_ok; [by rewrite Hw|done].
      * intros [Hd Hwo]%orb_false_elim Ht. destruct workspace_ok; [done|].
        destruct (Hl Hd Ht) as (l & [->|?]%elem_of_cons & ? & ?); [done|]. exists l. split; [by right|done].
    + destruct (inv_session0 _ _ Hy) as (Hi & ? & ? & Hl). split_and!; try done.
      intros Hd Ht. destruct (Hl Hd Ht) as (l & [->|?]%elem_of_cons & ? & Hlh); [|exists l; split; [by right|done]].
      destruct Hne. unfold l_handler in Hlh. simpl in Hlh. rewrite Hlh. exact Hi.
  - assert (∀ id y, <[h_id (f_handler F):=with_ledger workspace_ok cgroup_ok x]> (sessions s) !! id = Some y →
      ∃ y', sessions s !! id = Some y' ∧ ws_handle y' = ws_handle y) as Hold.
    { intros id y. rewrite lookup_insert_Some. intros [[<- <-]|[_ ?]]; eauto. }
    intros id id' y y' (z & Hz & Hzy)%Hold (z' & Hz' & Hzy')%Hold Heq. eapply inv_unique0; [done..|congruence].
  - intros hb Hhb. destruct (inv_handle0 _ Hhb) as (? & ? & Hn). split_and!; try done. simpl.
    intros id y. rewrite lookup_insert_Some. intros [[<- <-]|[_ ?]]; [exact (Hn _ _ Hx)|eauto].
Qed.

(** The leader removes the session. *)
Lemma delete_inv :
  Inv s (mkOwn gs (mkLead fl F Ready :: ls) hs ds sn) →
  Inv (set_sessions (delete (h_id (f_handler F)) (sessions s)) s) (mkOwn gs (mkLead fl F Known :: ls) hs ds sn).
Proof.
  intros HI. pose proof (λ l', other_lead _ _ _ l' _ HI eq_refl) as Hother.
  destruct HI. simpl in *. split; try done; simpl in *.
  - intros l [->|Hl]%elem_of_cons.
    + destruct (inv_lead0 (mkLead fl F Ready)) as (? & ? & ? & [? _]); [by left|]. done.
    + destruct (inv_lead0 l) as (? & ? & ? & Hp); [by right|]. repeat split; try done.
      revert Hp. apply phase_ok_ext; [|done]. apply session_of_delete_ne. exact (Hother l Hl).
  - intros id y [Hne Hy]%lookup_delete_Some. destruct (inv_session0 _ _ Hy) as (Hi & ? & ? & Hl).
    split_and!; try done. intros Hd Ht.
    destruct (Hl Hd Ht) as (l & [->|?]%elem_of_cons & ? & Hlh); [done|exists l; split; [by right|done]].
  - intros id id' y y' [_ ?]%lookup_delete_Some [_ ?]%lookup_delete_Some. eauto.
  - intros hb Hhb. destruct (inv_handle0 _ Hhb) as (? & ? & Hn). split_and!; try done. simpl.
    intros id y [_ ?]%lookup_delete_Some. eauto.
Qed.
End teardown.

Section creating.
Context (s : shared) (gs : list nat) (ls : list lead) (hs : list (nat * bool)) (ds sn : list nat).

Lemma create_inv :
  Inv s (mkOwn gs ls hs ds sn) → Inv (tick [] s) (mkOwn gs ls ((clock s, false) :: hs) ds sn).
Proof.
  intros HI. assert (quiet s (tick [] s)) as Hq.
  { destruct (quiet_refl s). split; try done; simpl; [lia|]. rewrite torn_tick. apply app_nil_r. }
  destruct (quiet_inv _ _ _ Hq HI). destruct HI. split; try done; simpl in *.
  - constructor; [|done]. intros (hb & Heq & Hhb)%list_elem_of_fmap.
    destruct (inv_handle1 _ Hhb) as (? & _). lia.
  - intros hb [->|Hhb]%elem_of_cons; [|by apply inv_handle0]. unfold handle_ok. simpl.
    rewrite torn_tick, app_nil_r. split_and!; [lia| |].
    + split; [|done]. intros Ht%inv_torn_old1. lia.
    + intros id x Hx. destruct (inv_session1 _ _ Hx) as (_ & ? & _). lia.
Qed.

Lemma insert_inv (id : session_id) (x : WorkspaceSession) :
  ws_id x = id → sessions s !! id = None →
  Inv s (mkOwn gs ls ((ws_handle x, workspace_destroyed x) :: hs) ds sn) →
  Inv (put_session id x s) (mkOwn gs ls hs ds sn).
Proof.
  intros Hid Hnone []. apply NoDup_cons in inv_handles_nodup0 as [Hh Hn]. simpl in *.
  destruct (inv_handle0 (ws_handle x, workspace_destroyed x)) as (Hc & Ht & Hfresh); [by left|]. simpl in *.
  split; try done; simpl in *.
  - intros l Hl. destruct (inv_lead0 l Hl) as (? & ? & ? & Hp). repeat split; try done.
    destruct (decide (h_id (l_handler l) = id)) as [He|He].
    + destruct (l_phase l); simpl in *; try done.
      * destruct Hp as (y & [Hy _]%session_of_Some & _). congruence.
      * destruct Hp as (_ & y & [Hy _]%session_of_Some & _). congruence.
    + revert Hp. apply phase_ok_ext; [|done]. by apply session_of_put_ne.
  - intros i y. rewrite lookup_insert_Some. intros [[<- <-]|[_ Hy]]; [|by apply inv_session0].
    split_and!; try done.
    + intros Hd. by apply Ht.
    + intros Hd Htn%Ht. congruence.
  - intros i i' y y'. rewrite !lookup_insert_Some.
    intros [[<- <-]|[? Hy]] [[<- <-]|[? Hy']] Heq; try done.
    + by destruct (Hfresh _ _ Hy').
    + by destruct (Hfresh _ _ Hy).
    + eauto.
  - intros hb Hhb. destruct (inv_handle0 hb) as (? & ? & Hf); [by right|]. split_and!; try done. simpl.
    intros i y. rewrite lookup_insert_Some. intros [[<- <-]|[_ ?]]; [|eauto].
    intros Heq. apply Hh. rewrite Heq. by apply list_elem_of_fmap_2.
Qed.

(** A workspace that could not become a session is destroyed. *)
Lemma raw_create_inv (h : nat) :
  Inv s (mkOwn gs ls ((h, false) :: hs) ds sn) →
  Inv (tick [EvDestroy h true] s) (mkOwn gs ls ((h, true) :: hs) ds sn).
Proof.
  intros []. apply NoDup_cons in inv_handles_nodup0 as [Hh Hn]. simpl in *.
  destruct (inv_handle0 (h, false)) as (Hc & Ht & Hfresh); [by left|]. simpl in *.
  assert (h ∉ torn_handles s) as Hnt by (intros ?%Ht; done).
  split; try done; simpl in *.
  - intros l Hl. destruct (inv_lead0 l Hl) as (? & ? & ? & Hp). repeat split; try done.
    destruct (l_phase l); simpl in *; rewrite ?torn_destroyed; naive_solver.
  - intros i y Hy. destruct (inv_session0 _ _ Hy) as (? & ? & ? & Hl). specialize (Hfresh _ _ Hy).
    unfold session_ok. rewrite torn_other by done. simpl. split_and!; [done|lia|done|done].
  - by constructor.
  - intros hb [->|Hhb]%elem_of_cons; unfold handle_ok.
    + rewrite torn_destroyed. simpl. split_and!; [lia|by split; [|right]|done].
    + destruct (inv_handle0 hb) as (? & ? & Hf); [by right|].
      rewrite torn_other by (intros <-; by apply Hh, list_elem_of_fmap_2). simpl. split_and!; [lia|done|done].
  - by apply torn_nodup.
  - intros h' [Htn| ->]%torn_destroyed; [specialize (inv_torn_old0 _ Htn); lia|lia].
Qed.
End creating.
