(* ===== verification/SessionsSafe.v ===== *)
(** * Every operation of the session service keeps the invariant

    A program logic for [Sessions]: [safe o p Q] says that a thread that owns [o]
    can run [p] next to any others, and ends with a value and an ownership in
    [Q].  With [strict] it must not block while it holds a gate, nor wait for a
    teardown while it leads one. *)

From S2P Require Import Prelude ByteStr FS Sessions SessionsInv.

(** ** What may be forgotten *)

(** Obligations are kept, knowledge may be dropped. *)
Definition below (o' o : own) : Prop :=
  o_gates o' = o_gates o ∧ o_leads o' = o_leads o ∧ o_handles o' ⊆+ o_handles o
  ∧ o_done o' ⊆ o_done o ∧ o_seen o' ⊆ o_seen o.

Lemma below_refl (o : own) : below o o.
Proof. repeat split; done. Qed.

Lemma below_trans (o1 o2 o3 : own) : below o1 o2 → below o2 o3 → below o1 o3.
Proof.
  intros (? & ? & ? & ? & ?) (? & ? & ? & ? & ?). split_and!; [congruence|congruence|by etrans|set_solver|set_solver].
Qed.

Lemma below_inv (s : shared) (o o' r : own) : below o' o → Inv s (join o r) → Inv s (join o' r).
Proof.
  intros (Hg & Hl & Hh & Hd & Hs) HI. unfold join. rewrite Hg, Hl.
  eapply drop_inv; [..|exact HI]; [by apply submseteq_app|set_solver|set_solver].
Qed.

(** ** Quiet steps *)

Lemma quiet_trans (s1 s2 s3 : shared) : quiet s1 s2 → quiet s2 s3 →
  (∀ id, sessions s1 !! id = sessions s2 !! id) → quiet s1 s3.
Proof.
  intros H1 H2 Hs. split; [intros id; rewrite Hs; apply H2|..]; destruct H1, H2; try congruence. lia.
Qed.

Lemma quiet_tick (s s' : shared) (evs : list event) : omap destroyed_of evs = [] → quiet s s' → quiet s (tick evs s').
Proof.
  intros He []. split; try done; simpl; [lia|]. by rewrite torn_tick, He, app_nil_r.
Qed.

Lemma quiet_put (s : shared) (id : session_id) (x x' : WorkspaceSession) :
  sessions s !! id = Some x → same_ledger x x' → quiet s (put_session id x' s).
Proof.
  intros Hx Hl. destruct (quiet_refl s). split; try done. simpl. intros i.
  destruct (decide (i = id)) as [->|Hne]; [|by rewrite lookup_insert_ne].
  rewrite lookup_insert_eq, Hx. by constructor.
Qed.

Lemma quiet_gates (s : shared) (m : bytes_map nat) (n : nat) : quiet s (set_gates m n s).
Proof. by destruct (quiet_refl s). Qed.

Lemma quiet_creating (s : shared) (l : list session_id) : quiet s (set_creating l s).
Proof. by destruct (quiet_refl s). Qed.

Lemma same_ledger_commands (x x' : WorkspaceSession) :
  session_handler x' = session_handler x → workspace_destroyed x' = workspace_destroyed x →
  cgroup_cleanup_complete x' = cgroup_cleanup_complete x →
  active_commands x' ⊆ active_commands x ∨ finalization_state x = Active → same_ledger x x'.
Proof. intros ? ? ? H. repeat split; try done. intros c Hc. destruct H as [H|H]; [left; by apply H|by right]. Qed.
(** ** The logic *)

Section logic.
Variable strict : bool.

(** Another thread can go on: it holds a gate, or leads a teardown. *)
Definition blocked (o : own) (s : shared) : Prop :=
  strict = true → o_gates o = [] ∧
    (held s ≠ [] ∨ (o_leads o = [] ∧ ∃ fl F, flights s !! fl = Some F ∧ f_terminal F = None)).

Fixpoint safe {A} (o : own) (p : prog A) (Q : A → own → Prop) : Prop :=
  match p with
  | Ret a => ∃ o', below o' o ∧ Q a o'
  | Act f k => ∀ s r, Inv s (join o r) →
      match f s with
      | None => blocked o s
      | Some (x, s') => ∃ o', Inv s' (join o' r) ∧ step_ok s s' ∧ safe o' (k x) Q
      end
  end.

(** *** Rules *)

Lemma safe_mono {A} (o o' : own) (p : prog A) (Q : A → own → Prop) : below o' o → safe o' p Q → safe o p Q.
Proof.
  intros Hb. destruct p as [a|X f k]; simpl.
  - intros (o1 & ? & ?). exists o1. split; [by eapply below_trans|done].
  - intros Hs s r HI. specialize (Hs s r (below_inv _ _ _ _ Hb HI)). destruct (f s) as [[x s']|]; [done|].
    destruct Hb as (Hg & Hl & _). unfold blocked in *. by rewrite <- Hg, <- Hl.
Qed.

Lemma safe_ret {A} (o : own) (a : A) (Q : A → own → Prop) : Q a o → safe o (Ret a) Q.
Proof. exists o. split; [apply below_refl|done]. Qed.

Lemma safe_bind {A B} (o : own) (p : prog A) (k : A → prog B) (Q : B → own → Prop) :
  safe o p (λ a o', safe o' (k a) Q) → safe o (pbind p k) Q.
Proof.
  revert o. induction p as [a|X f k' IH]; intros o; simpl.
  - intros (o' & Hb & Hk). by eapply safe_mono.
  - intros Hs s r HI. specialize (Hs s r HI). destruct (f s) as [[x s']|]; [|done].
    destruct Hs as (o' & ? & ? & ?). eauto.
Qed.

Lemma safe_wand {A} (o : own) (p : prog A) (P Q : A → own → Prop) :
  safe o p P → (∀ a o', P a o' → safe o' (Ret a) Q) → safe o p Q.
Proof.
  intros Hp HPQ. revert o Hp. induction p as [a|X f k IH]; intros o; simpl.
  - intros (o' & Hb & HP). destruct (HPQ _ _ HP) as (o'' & ? & ?). exists o''. split; [by eapply below_trans|done].
  - intros Hs s r HI. specialize (Hs s r HI). destruct (f s) as [[x s']|]; [|done].
    destruct Hs as (o' & ? & ? & ?). eauto.
Qed.

Lemma safe_section {X : Set} (o : own) (f : shared → X * shared) (Q : X → own → Prop) :
  (∀ s r, Inv s (join o r) → ∃ o', Inv (f s).2 (join o' r) ∧ step_ok s (f s).2 ∧ Q (f s).1 o') →
  safe o (section f) Q.
Proof.
  intros H s r HI. destruct (H s r HI) as (o' & ? & ? & ?). destruct (f s) as [x s'].
  exists o'. split_and!; [done..|by apply safe_ret].
Qed.

Lemma safe_quiet {X : Set} (o : own) (f : shared → X * shared) (Q : X → own → Prop) :
  (∀ s r, Inv s (join o r) → quiet s (f s).2 ∧ Q (f s).1 o) → safe o (section f) Q.
Proof.
  intros H. apply safe_section. cbv beta. intros s r HI. destruct (H s r HI) as [Hq HQ].
  exists o. split_and!; [by eapply quiet_inv|by apply quiet_step|done].
Qed.

Lemma safe_look {X : Set} (o : own) (f : shared → X) (Q : X → own → Prop) :
  (∀ s r, Inv s (join o r) → Q (f s) o) → safe o (look f) Q.
Proof. intros H. apply safe_quiet. intros s r HI. split; [apply quiet_refl|eauto]. Qed.

End logic.

(** ** Ownership of one thing more *)

Definition gate (g : nat) (o : own) : own :=
  mkOwn (g :: o_gates o) (o_leads o) (o_handles o) (o_done o) (o_seen o).
Definition leading (fl : nat) (F : DestroyFlight) (ph : phase) (o : own) : own :=
  mkOwn (o_gates o) (mkLead fl F ph :: o_leads o) (o_handles o) (o_done o) (o_seen o).
Definition making (h : nat) (b : bool) (o : own) : own :=
  mkOwn (o_gates o) (o_leads o) ((h, b) :: o_handles o) (o_done o) (o_seen o).
Definition ended (fl : nat) (o : own) : own :=
  mkOwn (o_gates o) (o_leads o) (o_handles o) (fl :: o_done o) (o_seen o).
Definition see (fl : nat) (o : own) : own :=
  mkOwn (o_gates o) (o_leads o) (o_handles o) (o_done o) (fl :: o_seen o).

Lemma below_see (fl : nat) (o : own) : below o (see fl o).
Proof. split_and!; try done. simpl. set_solver. Qed.
Lemma below_making (h : nat) (b : bool) (o : own) : below o (making h b o).
Proof. split_and!; try done. simpl. by apply submseteq_cons. Qed.
Lemma below_ended (fl : nat) (o : own) : below o (ended fl o).
Proof. split_and!; try done. simpl. set_solver. Qed.

(** A claim of a dead holder's teardown: led with a plan, or seen. *)
Definition claimed (c : nat * bool) (o o' : own) : Prop :=
  match c with
  | (fl, true) => ∃ F, is_Some (f_plan F) ∧ o' = leading fl F Idle o
  | (fl, false) => o' = see fl o
  end.

Create HintDb quiet.
#[export] Hint Resolve quiet_refl quiet_tick quiet_put quiet_gates quiet_creating same_ledger_commands : quiet.

(** ** Gates and flights *)

Section gates.
Variable strict : bool.
Local Abbreviation safe := (safe strict).

(** Idle: neither a gate nor a flight, so that the thread may wait. *)
Definition may_lock (o : own) : Prop := strict = true → o_gates o = [].
Definition may_wait (o : own) : Prop := strict = true → o_gates o = [] ∧ o_leads o = [].

Lemma safe_session_gate (o : own) (id : session_id) (Q : nat → own → Prop) :
  (∀ g, Q g o) → safe o (session_gate id) Q.
Proof. intros HQ. apply safe_quiet. intros s r _. case_match; simpl; auto with quiet. Qed.

Lemma safe_lock (o : own) (g : nat) (Q : () → own → Prop) :
  may_lock o → Q tt (gate g o) → safe o (lock_gate g) Q.
Proof.
  intros Hm HQ s r HI. simpl. case_decide as Hg.
  - intros Hs. split; [by apply Hm|]. left. intros Hh. rewrite Hh in Hg. by apply not_elem_of_nil in Hg.
  - exists (gate g o). split_and!; [|by apply step_same|by apply safe_ret].
    apply lock_inv; [done|exact HI].
Qed.

Lemma safe_unlock (o : own) (g : nat) (Q : () → own → Prop) : Q tt o → safe (gate g o) (unlock_gate g) Q.
Proof.
  intros HQ. apply safe_section. intros s r HI. exists o. split_and!; [|by apply step_same|done].
  by eapply unlock_inv.
Qed.

Lemma safe_under_gate {A} (o : own) (id : session_id) (body : nat → prog A) (Q : A → own → Prop) :
  may_lock o → (∀ g, safe (gate g o) (body g) (λ a o', ∃ o'', o' = gate g o'' ∧ Q a o'')) →
  safe o (under_gate id body) Q.
Proof.
  intros Hm Hb. apply safe_bind, safe_session_gate. intros g. apply safe_bind, safe_lock; [done|].
  apply safe_bind. eapply safe_wand; [apply Hb|]. intros a o' (o'' & -> & HQ).
  apply safe_ret. apply safe_bind, safe_unlock. by apply safe_ret.
Qed.

Lemma safe_find (o : own) (f : shared → option nat) (Q : option nat → own → Prop) :
  (∀ s fl, f s = Some fl → ∃ id, destroy_flights s !! id = Some fl) →
  Q None o → (∀ fl, Q (Some fl) (see fl o)) → safe o (look f) Q.
Proof.
  intros Hf HN HS. apply safe_section. intros s r HI. simpl. destruct (f s) as [fl|] eqn:Hfl.
  - destruct (Hf _ _ Hfl) as [id Hid]. exists (see fl o). split_and!; [|by apply step_same|done].
    apply seen_inv; [|exact HI]. by eapply inv_map.
  - exists o. split_and!; [done|by apply step_same|done].
Qed.

Lemma safe_existing (o : own) (id : session_id) (Q : option nat → own → Prop) :
  Q None o → (∀ fl, Q (Some fl) (see fl o)) → safe o (existing_destroy_flight id) Q.
Proof. intros. apply safe_find; eauto. Qed.

Lemma safe_existing_for (o : own) (hd : Handler) (Q : option nat → own → Prop) :
  Q None o → (∀ fl, Q (Some fl) (see fl o)) → safe o (existing_destroy_flight_for_handler hd) Q.
Proof.
  intros. apply safe_find; [|done..]. intros s fl. destruct (destroy_flights s !! h_id hd) eqn:?; [|done].
  case_match; naive_solver.
Qed.

Lemma safe_wait_terminal (o : own) (fl : nat) (Q : DestroyFlightTerminal → own → Prop) :
  may_wait o → (∀ t, Q t o) → safe (see fl o) (wait_destroy_terminal fl) Q.
Proof.
  intros Hm HQ s r HI. assert (fl < length (flights s)) as [F HF]%lookup_lt_is_Some_2.
  { eapply inv_seen; [done|]. by left. }
  rewrite HF. destruct (f_terminal F) as [t|] eqn:Ht.
  - exists o. split_and!; [by eapply below_inv; [apply below_see|]|by apply step_same|by apply safe_ret].
  - intros Hs. destruct (Hm Hs) as [Hg Hl]. split; [done|]. right. split; [done|]. eauto.
Qed.

Lemma safe_wait (o : own) (fl : nat) (Q : result () session_error → own → Prop) :
  may_wait o → (∀ r, Q r o) → safe (see fl o) (wait_destroy_flight fl) Q.
Proof. intros Hm HQ. apply safe_bind, safe_wait_terminal; [done|]. intros t. by apply safe_ret. Qed.

Lemma safe_claim (o : own) (hd : Handler) (Q : result (nat * bool) session_error → own → Prop) :
  (∀ e, Q (Err e) o) → (∀ fl, Q (Ok (fl, false)) (see fl o)) →
  (∀ fl, Q (Ok (fl, true)) (leading fl (mkFlight hd None None) Idle o)) →
  safe o (claim_destroy_flight hd) Q.
Proof.
  intros HE HW HL. apply safe_section. cbv beta. intros s r HI.
  destruct (destroy_flights s !! h_id hd) as [fl|] eqn:Hfl; [destruct (flight_has_handler s hd fl)|]; simpl.
  - exists (see fl o). split_and!; [|by apply step_same|done]. apply seen_inv; [by eapply inv_map|exact HI].
  - exists o. split_and!; [done|by apply step_same|done].
  - repeat case_match; simplify_eq/=; try (exists o; split_and!; [done|by apply step_same|done]).
    eexists (leading (length (flights s)) (mkFlight hd None None) Idle o).
    split_and!; [by apply claim_inv|by apply step_same|done].
Qed.

Lemma safe_publish (o : own) (hd : Handler) (fl : nat) (F : DestroyFlight) (ph : phase) (r : result () session_error)
    (d : option HolderExitDisposition) (Q : result () session_error → own → Prop) :
  ph ≠ Torn → Q r (see fl o) → safe (leading fl F ph o) (publish_destroy_flight hd fl r d) Q.
Proof.
  intros Hph HQ. apply safe_bind, safe_section. intros s rest HI. exists (ended fl (see fl o)). split_and!.
  - apply (terminal_inv _ _ _ _ _ _ fl F ph); [done|]. apply seen_inv; [|exact HI].
    destruct (inv_lead _ _ HI (mkLead fl F ph)) as (HF & _); [by left|]. by eapply lookup_lt_Some.
  - apply step_same. unfold set_terminal. by repeat case_match.
  - apply safe_bind, safe_section. clear s rest HI. intros s rest HI. exists (see fl o).
    split_and!; [|apply step_same; by case_decide|by apply safe_ret].
    case_decide as Hd; [|by eapply below_inv; [apply below_ended|]].
    destruct Hd as [Hd _]. by eapply unmap_inv.
Qed.

Lemma safe_put (o : own) (f : shared → option WorkspaceSession) (id : session_id)
    (g : WorkspaceSession → WorkspaceSession) (Q : () → own → Prop) :
  (∀ s x, f s = Some x → sessions s !! id = Some x ∧ same_ledger x (g x)) → Q tt o →
  safe o (update (λ s, match f s with Some x => put_session id (g x) s | None => s end)) Q.
Proof.
  intros Hf HQ. apply safe_quiet. intros s r _. simpl. split; [|done].
  destruct (f s) as [x|] eqn:Hx; [|apply quiet_refl]. destruct (Hf _ _ Hx). by eapply quiet_put.
Qed.

Lemma safe_mark_failed (o : own) (hd : Handler) (Q : () → own → Prop) : Q tt o → safe o (mark_destroy_failed hd) Q.
Proof.
  intros HQ. apply safe_put; [|done]. intros s x [Hx _]%session_of_Some. split; [done|].
  apply same_ledger_commands; auto.
Qed.

Lemma safe_discard (o : own) (id : session_id) (g : nat) (Q : () → own → Prop) :
  Q tt o → safe o (discard_resurrected_gate id g) Q.
Proof. intros HQ. apply safe_quiet. intros s r _. simpl. case_decide; auto with quiet. Qed.

Lemma safe_drop_gate (o : own) (id : session_id) (Q : () → own → Prop) :
  Q tt o → safe o (drop_session_gate id) Q.
Proof. intros HQ. apply safe_quiet. intros s r _. split; [apply quiet_gates|done]. Qed.
Lemma safe_snapshot (o : own) (fl : nat) (F : DestroyFlight) (Q : result (bool * bool) session_error → own → Prop) :
  (∀ e, Q (Err e) (leading fl F Idle o)) →
  (∀ c, Q (Ok (false, c)) (leading fl F Snap o)) → (∀ c, Q (Ok (true, c)) (leading fl F Known o)) →
  safe (leading fl F Idle o) (snapshot_for_destroy (f_handler F)) Q.
Proof.
  intros HE HS HK. apply safe_section. cbv beta. intros s r HI. destruct (session_of s (f_handler F)) as [x|] eqn:Hx; simpl.
  2: { exists (leading fl F Idle o). split_and!; [done|by apply step_same|done]. }
  pose proof Hx as [Hx' Hh]%session_of_Some. simpl.
  assert (quiet s (put_session (h_id (f_handler F)) (with_state Finalizing x) s)) as Hq.
  { eapply quiet_put; [done|]. apply same_ledger_commands; auto. }
  exists (leading fl F (if workspace_destroyed x then Known else Snap) o).
  split_and!; [|by apply quiet_step|by destruct (workspace_destroyed x)].
  eapply quiet_inv; [done|]. apply (phase_inv s _ _ _ _ _ fl F Idle); [done| |exact HI].
  destruct (workspace_destroyed x) eqn:Hd; simpl; [|eauto].
  destruct (inv_session _ _ HI _ _ Hx') as (_ & _ & Ht & _). rewrite <- Hh. by apply Ht.
Qed.
End gates.

(** ** The operations *)

(** Choose the branch of a program without running it. *)
Ltac reduce := cbv beta iota zeta delta [negb].

Section service.
Variable env : nat → answers.
Variable strict : bool.
Local Abbreviation safe := (safe strict).
Local Abbreviation may_lock := (may_lock strict).
Local Abbreviation may_wait := (may_wait strict).

Lemma safe_ask {X : Set} (o : own) (f : answers → X) (evs : answers → list event) (Q : X → own → Prop) :
  (∀ a, omap destroyed_of (evs a) = []) → (∀ a, Q (f a) o) → safe o (ask env f evs) Q.
Proof. intros He HQ. apply safe_quiet. intros s r _. split; [apply quiet_tick; [apply He|apply quiet_refl]|apply HQ]. Qed.


Lemma safe_raw (o : own) (fl : nat) (F : DestroyFlight) (Q : raw_outcome → own → Prop) :
  Q RawOk (leading fl F Torn o) → (∀ r, r ≠ RawOk → Q r (leading fl F Snap o)) →
  safe (leading fl F Snap o) (destroy_workspace env (h_handle (f_handler F))) Q.
Proof.
  intros HO HN. apply safe_section. intros s r HI. unfold now. simpl.
  destruct (a_destroy (env (clock s))) eqn:Ha.
  1: { exists (leading fl F Torn o). split_and!; [by apply raw_inv|by apply step_same|done]. }
  all: exists (leading fl F Snap o); split_and!; [|by apply step_same|by apply HN].
  all: eapply quiet_inv; [|exact HI]; apply quiet_tick; [done|apply quiet_refl].
Qed.

(** The leader knows the result that it records. *)
Definition knows (ph : phase) (workspace_ok : bool) : Prop :=
  if workspace_ok then ph = Torn ∨ ph = Known else ph = Snap.

Lemma safe_record (o : own) (fl : nat) (F : DestroyFlight) (ph : phase) (workspace_ok cgroup_ok : bool)
    (Q : bool → own → Prop) :
  knows ph workspace_ok → (∀ ph', ph' ≠ Torn → Q false (leading fl F ph' o)) →
  Q true (leading fl F (recorded_phase workspace_ok cgroup_ok) o) →
  safe (leading fl F ph o)
    (section (λ s, match session_of s (f_handler F) with
                   | None => (false, s)
                   | Some x => (true, put_session (h_id (f_handler F)) (with_ledger workspace_ok cgroup_ok x) s)
                   end)) Q.
Proof.
  intros Hk HF HT. apply safe_section. cbv beta. intros s r HI.
  destruct (session_of s (f_handler F)) as [x|] eqn:Hx; simpl.
  - exists (leading fl F (recorded_phase workspace_ok cgroup_ok) o). split_and!; [| |done].
    + eapply record_inv; [done| |exact HI]. destruct workspace_ok; [|by rewrite Hk].
      destruct (inv_lead _ _ HI (mkLead fl F ph)) as (_ & _ & _ & Hp); [by left|]. by destruct Hk as [-> | ->].
    + apply session_of_Some in Hx as [Hx _]. intros id y Hy. simpl.
      destruct (decide (id = h_id (f_handler F))) as [->|Hne];
        [rewrite lookup_insert_eq|rewrite lookup_insert_ne, Hy by done; auto].
      rewrite Hx in Hy. injection Hy as <-. auto.
  - exists (leading fl F (if workspace_ok then Known else Snap) o).
    split_and!; [|by apply step_same|apply HF; by destruct workspace_ok].
    eapply phase_inv; [intros _; exact Hx| |exact HI].
    destruct (inv_lead _ _ HI (mkLead fl F ph)) as (_ & _ & _ & Hp); [by left|].
    unfold knows in Hk. destruct workspace_ok; [by destruct Hk as [-> | ->]|by rewrite Hk in Hp].
Qed.

Lemma safe_remove (o : own) (fl : nat) (F : DestroyFlight) (Q : bool → own → Prop) :
  Q false (leading fl F Ready o) → Q true (leading fl F Known o) →
  safe (leading fl F Ready o)
    (section (λ s, match session_of s (f_handler F) with
                   | None => (false, s)
                   | Some _ => (true, set_sessions (delete (h_id (f_handler F)) (sessions s)) s)
                   end)) Q.
Proof.
  intros HF HT. apply safe_section. cbv beta. intros s r HI.
  destruct (session_of s (f_handler F)) as [x|] eqn:Hx; simpl.
  2: { exists (leading fl F Ready o). split_and!; [done|by apply step_same|done]. }
  exists (leading fl F Known o). split_and!; [by apply delete_inv| |done].
  destruct (inv_lead _ _ HI (mkLead fl F Ready)) as (_ & _ & _ & Ht & y & Hy & Hd & Hc); [by left|].
  unfold l_handler in *. simpl in *. pose proof Hy as [Hy' Hh]%session_of_Some.
  intros id z Hz. simpl. destruct (decide (id = h_id (f_handler F))) as [->|Hne].
  - rewrite lookup_delete_eq. rewrite Hy' in Hz. injection Hz as <-. split_and!; try done. by rewrite <- Hh in Ht.
  - rewrite lookup_delete_ne, Hz by done. auto.
Qed.

Lemma safe_settle (o : own) (fl : nat) (F : DestroyFlight) (ph : phase) (workspace_ok cgroup_done : bool)
    (Q : result () session_error → own → Prop) :
  knows ph workspace_ok → (∀ r ph', ph' ≠ Torn → Q r (leading fl F ph' o)) →
  safe (leading fl F ph o) (settle_destroy env (f_handler F) workspace_ok cgroup_done) Q.
Proof.
  intros Hk HQ. apply safe_bind. eapply (safe_wand _ _ _ (λ _ o', o' = leading fl F ph o)).
  { repeat case_match; [by apply safe_ret|by apply safe_ask|by apply safe_ret]. }
  intros cgroup_ok ? ->. apply safe_ret. apply safe_bind, safe_record; [done|..].
  { intros ph' Hph. by apply safe_ret, HQ. }
  unfold recorded_phase. destruct workspace_ok; [|by apply safe_ret, HQ].
  destruct cgroup_ok; [|by apply safe_ret, HQ].
  apply safe_bind, safe_remove; [by apply safe_ret, HQ|]. apply safe_bind, safe_drop_gate. by apply safe_ret, HQ.
Qed.

Lemma safe_transaction (o : own) (fl : nat) (F : DestroyFlight) (Q : result () session_error → own → Prop) :
  (∀ r ph, ph ≠ Torn → Q r (leading fl F ph o)) →
  safe (leading fl F Idle o) (execute_destroy_transaction env (f_handler F)) Q.
Proof.
  intros HQ. apply safe_bind, safe_snapshot; intros c.
  - by apply safe_ret, HQ.
  - apply safe_bind, safe_raw; [by apply safe_settle; [left|]|].
    intros [] ?; [done|by apply safe_settle|by apply safe_ret, HQ].
  - apply safe_bind, safe_ret. by apply safe_settle; [right|].
Qed.

Lemma safe_destroy_claimed (o : own) (fl : nat) (F : DestroyFlight) (Q : result () session_error → own → Prop) :
  (∀ r, Q r o) → safe (leading fl F Idle o) (destroy_claimed_session env (f_handler F) fl) Q.
Proof.
  intros HQ. apply safe_bind, safe_transaction. intros r ph Hph. apply safe_bind.
  eapply (safe_wand _ _ _ (λ _ o', o' = leading fl F ph o)).
  { destruct (is_ok r); [by apply safe_ret|by apply safe_mark_failed]. }
  intros ? ? ->. apply safe_ret. eapply safe_wand; [by apply (safe_publish _ _ _ _ F ph _ _ (λ _, eq (see fl o)))|].
  intros ? ? <-. exists o. split; [apply below_see|done].
Qed.

Lemma safe_destroy_under_gate (o : own) (hd : Handler) (Q : result () session_error → own → Prop) :
  (∀ r, Q r o) → safe o (destroy_session_under_gate env hd) Q.
Proof.
  intros HQ. apply safe_bind, safe_claim.
  - intros e. by apply safe_ret.
  - intros fl. exists o. split; [apply below_see|done].
  - intros fl. by apply (safe_destroy_claimed _ _ (mkFlight hd None None)).
Qed.

(** *** After the holder died *)

Lemma safe_cancel (o : own) (ids : list command_id) (Q : bool → own → Prop) :
  (∀ b, Q b o) → safe o (cancel_and_join_commands env ids) Q.
Proof. intros HQ. destruct ids; [by apply safe_ret|by apply safe_ask]. Qed.

Lemma safe_holder_teardown (o : own) (fl : nat) (F : DestroyFlight) (plan : HolderDestroyPlan)
    (Q : result HolderExitDisposition session_error → own → Prop) :
  (∀ r ph, ph ≠ Torn → Q r (leading fl F ph o)) →
  safe (leading fl F Idle o) (holder_teardown env (f_handler F) plan) Q.
Proof.
  intros HQ. apply safe_bind, safe_look. intros s r _. destruct (option_map _ _) as [[|]|];
    reduce; try by apply safe_ret, HQ.
  apply safe_bind. eapply (safe_wand _ _ _ (λ _ o', o' = leading fl F Idle o)).
  { case_decide; [by apply safe_ask|by apply safe_ret]. }
  intros preserved ? ->. apply safe_ret. destruct preserved; reduce; [|by apply safe_ret, HQ].
  apply safe_bind, safe_transaction. intros [] ph Hph; by apply safe_ret, HQ.
Qed.

Lemma safe_run_holder (o : own) (fl : nat) (F : DestroyFlight) (plan : HolderDestroyPlan)
    (Q : result () session_error → own → Prop) :
  may_lock o → (∀ r, Q r (see fl o)) →
  safe (leading fl F Idle o) (run_holder_destroy env (f_handler F) plan fl) Q.
Proof.
  intros Hm HQ. apply safe_bind, safe_cancel. intros joined. reduce. apply safe_bind.
  eapply (safe_wand _ _ _ (λ _ o', ∃ ph, ph ≠ Torn ∧ o' = leading fl F ph o)).
  - destruct joined; reduce; [|apply safe_ret; by exists Idle].
    apply safe_bind, safe_session_gate. intros g. apply safe_bind, safe_lock; [done|].
    apply safe_bind, (safe_holder_teardown (gate g o)). intros r ph Hph.
    apply safe_bind, (safe_unlock _ (leading fl F ph o)). apply safe_ret. eauto.
  - intros r ? (ph & Hph & ->). apply safe_ret. destruct r; [by apply safe_publish|].
    apply safe_bind, safe_mark_failed. by apply safe_publish.
Qed.

Lemma safe_lead_holder (o : own) (fl : nat) (F : DestroyFlight) (Q : result () session_error → own → Prop) :
  is_Some (f_plan F) → may_lock o → (∀ r, Q r (see fl o)) →
  safe (leading fl F Idle o) (lead_holder_destroy env fl) Q.
Proof.
  intros [plan HF] Hm HQ. apply safe_bind, safe_look. intros s r HI.
  destruct (inv_lead _ _ HI (mkLead fl F Idle)) as (Hl & _); [by left|]. simpl in Hl.
  rewrite Hl, HF. by apply safe_run_holder.
Qed.

Lemma may_wait_lock (o : own) : may_wait o → may_lock o.
Proof. intros H Hs. by destruct (H Hs). Qed.

Lemma safe_lead_or_wait (o o' : own) (fl : nat) (leader : bool) (Q : result () session_error → own → Prop) :
  claimed (fl, leader) o o' → may_wait o → (∀ r, Q r o) → safe o' (lead_or_wait env fl leader) Q.
Proof.
  intros Hc Hm HQ. destruct leader; simpl in Hc; [|rewrite Hc; by apply safe_wait].
  destruct Hc as (F & HF & ->). eapply safe_wand.
  - apply safe_lead_holder; [done|by apply may_wait_lock|]. intros r. exact (eq_refl : (λ _, eq (see fl o)) r _).
  - intros r ? <-. exists o. split; [apply below_see|done].
Qed.

Lemma safe_wait_holder (o : own) (fl : nat) (Q : result HolderExitDisposition session_error → own → Prop) :
  may_wait o → (∀ r, Q r o) → safe (see fl o) (wait_holder_destroy_flight fl) Q.
Proof.
  intros Hm HQ. apply safe_bind, safe_look. intros s r _.
  destruct (flights s !! fl) as [F|]; [|exists o; split; [apply below_see|done]].
  destruct (f_plan F); [|exists o; split; [apply below_see|done]].
  apply safe_bind, safe_wait_terminal; [done|]. intros t. by apply safe_ret.
Qed.

Lemma safe_claim_holder (o : own) (hd : Handler) (Q : result (nat * bool) session_error → own → Prop) :
  (∀ e, Q (Err e) o) → (∀ c o', claimed c o o' → Q (Ok c) o') → safe o (claim_holder_destroy_flight env hd) Q.
Proof.
  intros HE HC. apply safe_section. cbv beta. intros s r HI.
  destruct (destroy_flights s !! h_id hd) as [fl|] eqn:Hfl; [destruct (flight_has_handler s hd fl)|]; simpl.
  - exists (see fl o). split_and!; [|by apply step_same|by apply HC]. apply seen_inv; [by eapply inv_map|exact HI].
  - exists o. split_and!; [done|by apply step_same|done].
  - destruct (sessions s !! h_id hd) as [x|] eqn:Hx; simpl; [|exists o; split_and!; [done|by apply step_same|done]].
    case_decide as Hh; simpl; [exists o; split_and!; [done|by apply step_same|done]|].
    case_match; simpl.
    { exists o. split_and!; [|by apply step_same|done]. eapply quiet_inv; [|done]. auto with quiet. }
    set (x' := mark_holder_exit x _). set (plan := mkPlan _ _ _ _).
    assert (quiet s (tick [] (put_session (h_id hd) x' s))) as Hq.
    { apply quiet_tick; [done|]. eapply quiet_put; [done|]. apply same_ledger_commands; auto. }
    exists (leading (length (flights s)) (mkFlight hd (Some plan) None) Idle o). split_and!.
    + apply (claim_inv (tick [] (put_session (h_id hd) x' s))); [done|]. by eapply quiet_inv.
    + exact (quiet_step _ _ Hq).
    + apply HC. eexists. split; [|done]. by eexists.
Qed.

(** *** Claims that outlive a gate *)

(** The claim, if any, that is left to a thread which owned [o]. *)
Definition left_with (c : option (nat * bool)) (o o' : own) : Prop :=
  match c with None => o' = o | Some c => claimed c o o' end.

Definition after_claim (a : after_gate) : option (nat * bool) :=
  match a with Finished _ => None | WaitFor fl => Some (fl, false) | LeadHolder fl leader => Some (fl, leader) end.

Lemma left_gate (c : option (nat * bool)) (g : nat) (o o' : own) :
  left_with c (gate g o) o' → ∃ o'', o' = gate g o'' ∧ left_with c o o''.
Proof.
  destruct c as [[fl []]|]; simpl.
  - intros (F & HF & ->). exists (leading fl F Idle o). eauto.
  - intros ->. by exists (see fl o).
  - intros ->. by exists o.
Qed.

Lemma safe_gate_claim {A} (claim : A → option (nat * bool)) (o : own) (id : session_id) (body : nat → prog A)
    (Q : A → own → Prop) :
  may_lock o → (∀ g, safe (gate g o) (body g) (λ a, left_with (claim a) (gate g o))) →
  (∀ a o', left_with (claim a) o o' → Q a o') → safe o (under_gate id body) Q.
Proof.
  intros Hm Hb HQ. apply safe_under_gate; [done|]. intros g. eapply safe_wand; [apply Hb|].
  intros a o' Hl. apply safe_ret. apply left_gate in Hl as (o'' & -> & Hl). eauto.
Qed.

Lemma safe_finish (a : after_gate) (o o' : own) (Q : result () session_error → own → Prop) :
  left_with (after_claim a) o o' → may_wait o → (∀ r, Q r o) → safe o' (finish_after_gate env a) Q.
Proof.
  intros Hl Hm HQ. destruct a as [r|fl|fl leader]; simpl in Hl; [rewrite Hl; by apply safe_ret|..].
  - rewrite Hl. by apply safe_wait.
  - by eapply safe_lead_or_wait.
Qed.

Lemma safe_claim_holder_after (o : own) (hd : Handler) :
  safe o (claim_holder_after env hd) (λ a, left_with (after_claim a) o).
Proof.
  apply safe_bind, safe_claim_holder; [intros e; by apply safe_ret|]. intros [fl l] o' Hc. by apply safe_ret.
Qed.

Lemma safe_claim_raw_after (o : own) (hd : Handler) :
  safe o (claim_raw_after env hd) (λ a, left_with (after_claim a) o).
Proof.
  apply safe_bind, safe_claim; [intros e; by apply safe_ret|intros fl; by apply safe_ret|].
  intros fl. apply safe_bind, (safe_destroy_claimed _ _ (mkFlight hd None None)). intros r. by apply safe_ret.
Qed.

Lemma safe_validate (o : own) (hd : Handler) (Q : result bool session_error → own → Prop) :
  (∀ r, Q r o) → safe o (validate_destroy_handler env hd) Q.
Proof. intros HQ. apply safe_quiet. intros s r _. simpl. case_match; simpl; auto with quiet. Qed.

Lemma safe_destroy_session (o : own) (hd : Handler) (Q : result () session_error → own → Prop) :
  may_wait o → (∀ r, Q r o) → safe o (destroy_session env hd) Q.
Proof.
  intros Hm HQ. apply safe_bind, safe_existing_for; [|intros fl; by apply safe_wait].
  apply safe_bind, (safe_gate_claim after_claim); [by apply may_wait_lock| |].
  - intros g. apply safe_bind, safe_existing_for; [|intros fl; by apply safe_ret].
    apply safe_bind, safe_validate. intros [[]|]; [apply safe_claim_raw_after|apply safe_claim_holder_after|].
    by apply safe_ret.
  - intros a o' Hl. by eapply safe_finish.
Qed.

Lemma safe_guarded_destroy (o : own) (id : session_id) (Q : result () session_error → own → Prop) :
  may_wait o → (∀ r, Q r o) → safe o (guarded_destroy env id) Q.
Proof.
  intros Hm HQ. apply safe_bind, safe_session_gate. intros g.
  apply safe_bind, safe_existing; [|intros fl; by apply safe_wait].
  apply safe_bind, safe_lock; [by apply may_wait_lock|]. apply safe_bind.
  eapply (safe_wand _ _ _ (λ e, left_with (option_map (λ fl, (fl, false)) e) (gate g o))).
  { apply safe_existing; [done|]. by intros fl. }
  intros e o' Hl. apply safe_ret. apply safe_bind.
  eapply (safe_wand _ _ _ (λ a, left_with (after_claim a) (gate g o))).
  - destruct e as [fl|]; [by apply safe_ret|]. rewrite Hl. apply safe_bind, safe_quiet. intros s r _.
    destruct (sessions s !! id) as [x|]; (split; [simpl; auto with quiet|]); reduce; simpl fst.
    + destruct (a_live _ _), (active_commands x); try by apply safe_ret.
      * apply safe_claim_raw_after.
      * apply safe_claim_holder_after.
      * apply safe_claim_holder_after.
    + apply safe_bind, safe_discard. by apply safe_ret.
  - intros a ? (o'' & -> & Hl')%left_gate. apply safe_ret.
    apply safe_bind, safe_unlock. by eapply safe_finish.
Qed.

(** *** Finalization and commands *)

Lemma safe_quiesce (o : own) (n : nat) (Q : HolderFinalization → own → Prop) :
  (∀ r, Q r o) → safe o (quiesce_session_holder env n) Q.
Proof.
  intros HQ. induction n as [|n IH]; [by apply safe_ret|].
  apply safe_bind, safe_ask; [done|]. intros a. destruct (a_quiesce a), n; first [exact IH | by apply safe_ret].
Qed.

Lemma safe_mark_quiesced (o : own) (hd : Handler) (Q : bool → own → Prop) :
  (∀ b, Q b o) → safe o (mark_holder_quiesced_for_finalization hd) Q.
Proof.
  intros HQ. apply safe_quiet. intros s r _. cbv beta. split; [|apply HQ].
  destruct (session_of s hd) as [x|] eqn:Hx; [|apply quiet_refl]. apply session_of_Some in Hx as [Hx _].
  case_decide; [|apply quiet_refl]. eapply quiet_put; [done|]. apply same_ledger_commands; auto.
Qed.

Lemma safe_destroy_finalized (o : own) (hd : Handler) (Q : bool → own → Prop) :
  (∀ b, Q b o) → safe o (destroy_finalized_session env hd) Q.
Proof.
  intros HQ. apply safe_bind, safe_destroy_under_gate. intros [|]; [by apply safe_ret|].
  apply safe_bind, (safe_put _ _ (λ s, sessions s !! h_id hd)); [|by apply safe_ret].
  intros s x Hx. split; [done|]. apply same_ledger_commands; auto.
Qed.

Lemma safe_finalize (o : own) (hd : Handler) (Q : () → own → Prop) :
  Q tt o → safe o (finalize_session_snapshot env hd) Q.
Proof.
  intros HQ. apply safe_bind, safe_ask; [done|]. intros a. apply safe_bind.
  eapply (safe_wand _ _ _ (λ _ o', o' = o)).
  - destruct (a_capture a) as [[[] _]|]; [by apply safe_ret|apply safe_bind, safe_ask; [done|]; intros; by apply safe_ret|].
    apply safe_bind, safe_mark_failed, safe_bind, safe_ask; [done|]. intros. by apply safe_ret.
  - intros ? ? ->. apply safe_ret. apply safe_bind, safe_destroy_finalized. intros. by apply safe_ret.
Qed.

Lemma safe_admit (o : own) (g : nat) (id : session_id) (c : command_id) (Q : result Handler session_error → own → Prop) :
  (∀ r, Q r o) → safe o (admit_command_locked env g id c) Q.
Proof.
  intros HQ. apply safe_bind, safe_quiet. intros s r _. cbv beta.
  destruct (sessions s !! id) as [x|] eqn:Hx; simpl fst; simpl snd.
  2: { split; [apply quiet_refl|]. apply safe_bind, safe_discard. by apply safe_ret. }
  destruct (a_live _ _); simpl; [case_decide as Ha|]; (split; [|by apply safe_ret]).
  - simpl. auto with quiet.
  - apply quiet_tick; [done|]. eapply quiet_put; [done|]. apply same_ledger_commands; try done.
    right. by destruct (decide (finalization_state x = Active)).
  - auto with quiet.
Qed.

Lemma safe_complete_candidate (o : own) (id : session_id) (c : command_id) (Q : bool + Handler → own → Prop) :
  (∀ r, Q r o) →
  safe o (section (λ s,
     match sessions s !! id with
     | None => (inl true, s)
     | Some x =>
         if decide (c ∉ active_commands x) then (inl false, s)
         else
           let rest := filter (λ x, x ≠ c) (active_commands x) in
           let x := with_commands rest x in
           if decide (rest ≠ [] ∨ finalize_policy x ≠ PublishThenDestroy ∨ finalization_state x ≠ Active)
           then (inl false, put_session id x s)
           else (inr (session_handler x), put_session id (with_state Finalizing x) s)
     end)) Q.
Proof.
  intros HQ. apply safe_quiet. intros s r _. cbv beta. split; [|apply HQ].
  destruct (sessions s !! id) as [x|] eqn:Hx; [|apply quiet_refl]. cbv zeta.
  repeat case_decide; simpl; try apply quiet_refl.
  all: eapply quiet_put; [done|]; apply same_ledger_commands; try done; left; simpl.
  all: intros d Hd; by apply list_elem_of_filter in Hd as [_ ?].
Qed.

Lemma safe_complete (o : own) (id : session_id) (c : command_id) (g : option nat) :
  safe o (complete_under_gate env id c g) (λ fl, left_with (option_map (λ fl, (fl, true)) fl) o).
Proof.
  apply safe_bind, safe_complete_candidate. intros [[]|hd].
  - destruct g; [apply safe_bind, safe_discard|]; by apply safe_ret.
  - by apply safe_ret.
  - apply safe_bind, safe_quiesce. intros [].
    + apply safe_bind, safe_mark_quiesced. intros marked. apply safe_bind.
      destruct marked; [apply safe_finalize|apply safe_mark_failed]; by apply safe_ret.
    + apply safe_bind, safe_claim_holder; [intros e; apply safe_bind, safe_mark_failed; by apply safe_ret|].
      intros [fl []] o' Hc; [by apply safe_ret|]. exists o. rewrite Hc. split; [apply below_see|done].
    + apply safe_bind, safe_mark_failed. by apply safe_ret.
Qed.

Lemma safe_complete_after (o o' : own) (fl : option nat) (Q : () → own → Prop) :
  left_with (option_map (λ fl, (fl, true)) fl) o o' → may_lock o → Q tt o → safe o' (complete_after_gate env fl) Q.
Proof.
  intros Hl Hm HQ. destruct fl as [fl|]; simpl in Hl; [|rewrite Hl; by apply safe_ret].
  destruct Hl as (F & HF & ->). apply safe_bind, safe_lead_holder; [done..|].
  intros r. exists o. split; [apply below_see|done].
Qed.

Lemma safe_complete_activity (o : own) (id : session_id) (c : command_id) (Q : () → own → Prop) :
  may_lock o → Q tt o → safe o (complete_activity env id c) Q.
Proof.
  intros Hm HQ. apply safe_bind, (safe_gate_claim (option_map (λ fl, (fl, true)))); [done|intros g; apply safe_complete|].
  intros fl o' Hl. by eapply safe_complete_after.
Qed.

(** A body under the gate that leaves nothing behind. *)
Lemma safe_gated {A} (o : own) (id : session_id) (body : nat → prog A) (Q : A → own → Prop) :
  may_lock o → (∀ g, safe (gate g o) (body g) (λ _ o', o' = gate g o)) → (∀ a, Q a o) → safe o (under_gate id body) Q.
Proof.
  intros Hm Hb HQ. apply (safe_gate_claim (λ _, None)); [done|done|]. intros a ? ->. apply HQ.
Qed.

Lemma safe_file_op (o : own) (id : session_id) (Q : result bool session_error → own → Prop) :
  may_lock o → (∀ r, Q r o) → safe o (run_file_op env id) Q.
Proof.
  intros Hm HQ. apply safe_gated; [done| |done]. intros g. apply safe_bind, safe_quiet. intros s r _. cbv beta.
  assert (safe (gate g o) (discard_resurrected_gate id g;;! Ret (Err NotFound))%prog
    (λ (_ : result bool session_error) o', o' = gate g o)) as Hd by (by apply safe_bind, safe_discard, safe_ret).
  destruct (sessions s !! id) as [x|]; [|split; [apply quiet_refl|exact Hd]].
  destruct (a_live _ _); simpl negb; [case_decide|]; (split; [simpl; auto with quiet|]); reduce; simpl fst.
  - apply safe_bind, safe_ask; [done|]. intros a. by apply safe_ret.
  - exact Hd.
  - by apply safe_ret.
Qed.

Lemma safe_update (o : own) (f : shared → shared) (Q : () → own → Prop) :
  (∀ s, quiet s (f s)) → Q tt o → safe o (update f) Q.
Proof. intros Hf HQ. apply safe_quiet. intros s r _. split; [apply Hf|done]. Qed.

Lemma safe_publish_changes (o : own) (id : session_id) (hd : Handler)
    (Q : result () session_error → own → Prop) :
  (∀ r, Q r o) → safe o (publish_claimed env id hd) Q.
Proof.
  intros HQ.
  assert (∀ e, safe o (restore_active id;;! Ret (Err e))%prog Q) as Hrestore.
  { intros e. apply safe_bind, safe_update; [|by apply safe_ret]. intros s. cbv beta.
    case_match eqn:Hx; [|apply quiet_refl]. case_decide; [|apply quiet_refl].
    eapply quiet_put; [exact Hx|]. apply same_ledger_commands; auto. }
  apply safe_bind, safe_ask; [done|]. intros a. destruct (a_capture a) as [[_ []]|]; [apply Hrestore| |apply Hrestore].
  apply safe_bind, safe_ask; [done|]. intros b. destruct (a_publish b); [|apply Hrestore].
  apply safe_bind, safe_destroy_under_gate. intros [|]; [by apply safe_ret|].
  apply safe_bind, safe_update; [|by apply safe_ret]. intros s. cbv beta.
  case_match eqn:Hx; [|apply quiet_refl]. case_decide; [|apply quiet_refl].
  eapply quiet_put; [exact Hx|]. apply same_ledger_commands; auto.
Qed.

Lemma safe_publish_session (o : own) (id : session_id) (Q : result () session_error → own → Prop) :
  may_lock o → (∀ r, Q r o) → safe o (publish_workspace_session env id) Q.
Proof.
  intros Hm HQ. apply safe_gated; [done| |done]. intros g. apply safe_bind, safe_quiet. intros s r _. cbv beta.
  destruct (sessions s !! id) as [x|] eqn:Hx; simpl fst; simpl snd.
  2: { split; [apply quiet_refl|]. by apply safe_bind, safe_discard, safe_ret. }
  destruct (a_live _ _); simpl negb; cbv iota; [|split; [simpl; auto with quiet|by apply safe_ret]].
  repeat (case_decide; [split; [simpl; auto with quiet|by apply safe_ret]|]).
  split; [|by apply safe_publish_changes]. simpl. apply quiet_tick; [done|]. eapply quiet_put; [done|].
  apply same_ledger_commands; auto.
Qed.

Lemma safe_destroy_faulty (o : own) (id : session_id) (Q : () → own → Prop) :
  may_lock o → Q tt o → safe o (destroy_faulty_session env id) Q.
Proof.
  intros Hm HQ. apply safe_gated; [done| |by intros []]. intros g. apply safe_bind, safe_quiet. intros s r _. cbv beta.
  destruct (sessions s !! id) as [x|]; (split; [simpl; auto with quiet|]); reduce; simpl fst.
  - destruct (a_live _ _); [|by apply safe_ret]. apply safe_bind, safe_destroy_under_gate. intros. by apply safe_ret.
  - by apply safe_discard.
Qed.

(** *** Reconciling and shutting down *)

Lemma safe_reconcile_session (o : own) (id : session_id) (Q : bool → own → Prop) :
  may_wait o → (∀ b, Q b o) → safe o (reconcile_session env id) Q.
Proof.
  intros Hm HQ. apply safe_bind, safe_find.
  { intros s fl. destruct (destroy_flights s !! id) eqn:?; [|done]. case_match; naive_solver. }
  2: { intros fl. apply safe_bind, safe_wait_holder; [done|]. intros r. by apply safe_ret. }
  apply safe_bind, (safe_gate_claim (λ c, c)); [by apply may_wait_lock| |].
  - intros g. apply safe_bind, safe_quiet. intros s r _. cbv beta.
    destruct (sessions s !! id) as [x|]; (split; [simpl; auto with quiet|]); reduce; simpl fst; [|by apply safe_ret].
    destruct (holder_cleanup_is_pending _ _ _); [|by apply safe_ret].
    apply safe_bind, safe_claim_holder; [intros e; by apply safe_ret|]. intros c o' Hc. by apply safe_ret.
  - intros [[fl leader]|] o' Hc; simpl in Hc; [|rewrite Hc; by apply safe_ret].
    apply safe_bind. eapply (safe_wand _ _ _ (λ _ o', o' = see fl o)).
    + destruct leader; [|rewrite Hc; by apply safe_ret]. destruct Hc as (F & HF & ->).
      apply safe_bind, safe_lead_holder; [done|by apply may_wait_lock|]. intros r. by apply safe_ret.
    + intros ? ? ->. apply safe_ret. apply safe_bind, safe_wait_holder; [done|]. intros r. by apply safe_ret.
Qed.

Lemma safe_reconcile (o : own) (Q : () → own → Prop) :
  may_wait o → Q tt o → safe o (reconcile_holder_exits env) Q.
Proof.
  intros Hm HQ. apply safe_bind, safe_quiet. intros s r _. split; [simpl; auto with quiet|].
  reduce. simpl fst. generalize ((filter (λ ix, holder_cleanup_is_pending env s ix.2 = true) (map_to_list (sessions s))).*1).
  intros ids. induction ids as [|id ids IH]; [by apply safe_ret|].
  apply safe_bind, safe_reconcile_session; [done|]. intros []; [apply IH|by apply safe_ret].
Qed.

Definition next_claim (n : shutdown_next) : option (nat * bool) :=
  match n with
  | ShutdownDone _ | ShutdownGone _ | ShutdownCancel _ => None
  | ShutdownWait fl => Some (fl, false)
  | ShutdownLead fl leader => Some (fl, leader)
  end.

Lemma safe_claim_next (o : own) (hd : Handler) :
  safe o (let! c := claim_holder_destroy_flight env hd in
          Ret (match c with Ok (fl, leader) => ShutdownLead fl leader | Err _ => ShutdownDone false end))%prog
    (λ n, left_with (next_claim n) o).
Proof.
  apply safe_bind, safe_claim_holder; [intros e; by apply safe_ret|]. intros [fl l] o' Hc. by apply safe_ret.
Qed.

Lemma safe_shutdown_finalize (o : own) (id : session_id) (g : nat) (hd : Handler) :
  safe o (shutdown_finalize env id g hd) (λ n, left_with (next_claim n) o).
Proof.
  apply safe_bind, safe_quiet. intros s r _. cbv beta.
  destruct (sessions s !! id) as [x|] eqn:Hx; simpl fst; simpl snd.
  2: { split; [apply quiet_refl|by apply safe_ret]. }
  case_decide; [split; [apply quiet_refl|by apply safe_ret]|]. split.
  { eapply quiet_put; [done|]. apply same_ledger_commands; auto. }
  apply safe_bind, safe_quiesce. intros [].
  - apply safe_bind, safe_mark_quiesced. intros []; reduce.
    + apply safe_bind, safe_finalize, safe_bind, safe_look. intros ? ? _. by apply safe_ret.
    + by apply safe_bind, safe_mark_failed, safe_ret.
  - apply safe_claim_next.
  - by apply safe_bind, safe_mark_failed, safe_ret.
Qed.

Lemma safe_shutdown_gate (o : own) (id : session_id) (g : nat) :
  safe o (shutdown_under_gate env id g) (λ n, left_with (next_claim n) o).
Proof.
  apply safe_bind, safe_existing; [|intros fl; by apply safe_ret].
  apply safe_bind, safe_quiet. intros s r _. cbv beta.
  destruct (sessions s !! id) as [x|] eqn:Hx; (split; [simpl; auto with quiet|]); reduce; simpl fst.
  2: by apply safe_ret.
  destruct (a_live _ _); [|apply safe_claim_next]. case_decide; [by apply safe_ret|].
  case_decide; [apply safe_shutdown_finalize|].
  apply safe_bind, safe_claim; [intros e; by apply safe_ret|intros fl; by apply safe_ret|].
  intros fl. apply safe_bind, (safe_destroy_claimed _ _ (mkFlight (session_handler x) None None)).
  intros r'. by apply safe_ret.
Qed.

Lemma safe_shutdown_session (o : own) (n : nat) (id : session_id) (Q : bool → own → Prop) :
  may_wait o → (∀ b, Q b o) → safe o (shutdown_session env n id) Q.
Proof.
  intros Hm HQ. induction n as [|n IH]; [by apply safe_ret|].
  assert (∀ fl, safe (see fl o) (let! r := wait_destroy_flight fl in
    if is_ok r then shutdown_session env n id else Ret false)%prog Q) as Hwait.
  { intros fl. apply safe_bind, safe_wait; [done|]. intros []; [apply IH|by apply safe_ret]. }
  apply safe_bind, safe_existing; [|done].
  apply safe_bind, (safe_gate_claim next_claim); [by apply may_wait_lock|intros g; apply safe_shutdown_gate|].
  intros [ok|g|fl|ids|fl leader] o' Hl; simpl in Hl; try rewrite Hl.
  - by apply safe_ret.
  - by apply safe_bind, safe_discard, safe_ret.
  - apply Hwait.
  - apply safe_bind, safe_cancel. intros []; [apply IH|by apply safe_ret].
  - apply safe_bind. eapply safe_lead_or_wait; [exact Hl|done|]. intros r. by apply safe_ret.
Qed.

Lemma safe_shutdown (o : own) (Q : () → own → Prop) : may_wait o → Q tt o → safe o (shutdown_sessions env) Q.
Proof.
  intros Hm HQ. apply safe_bind, safe_look. intros s r _. generalize (merge_sort bytes_le (map_to_list (sessions s)).*1).
  intros ids. induction ids as [|id ids IH]; [by apply safe_ret|].
  apply safe_bind, safe_shutdown_session; [done|]. intros _. apply IH.
Qed.

(** *** Creating a session *)

Lemma safe_destroy_made (o : own) (h : nat) (Q : raw_outcome → own → Prop) :
  (∀ r, Q r (making h (match r with RawOk => true | _ => false end) o)) →
  safe (making h false o) (destroy_workspace env h) Q.
Proof.
  intros HQ. apply safe_section. intros s r HI. unfold now. simpl.
  exists (making h (match a_destroy (env (clock s)) with RawOk => true | _ => false end) o).
  split_and!; [|by apply step_same|apply HQ]. destruct (a_destroy (env (clock s))).
  1: by apply raw_create_inv.
  all: eapply quiet_inv; [|exact HI]; apply quiet_tick; [done|apply quiet_refl].
Qed.

Lemma safe_insert_vacant (o : own) (id : session_id) (x : WorkspaceSession) (Q : bool → own → Prop) :
  ws_id x = id → Q false (making (ws_handle x) (workspace_destroyed x) o) → Q true o →
  safe (making (ws_handle x) (workspace_destroyed x) o) (insert_vacant id x) Q.
Proof.
  intros Hid HF HT. apply safe_section. cbv beta. intros s r HI. case_decide as Hs; simpl.
  - eexists. split_and!; [exact HI|by apply step_same|done].
  - apply eq_None_not_Some in Hs. exists o. split_and!; [by apply insert_inv| |done].
    intros i y Hy. simpl. rewrite lookup_insert_ne, Hy by congruence. auto.
Qed.

Lemma safe_create_workspace (o : own) (Q : option (session_id * nat) → own → Prop) :
  Q None o → (∀ id h, Q (Some (id, h)) (making h false o)) → safe o (create_workspace env) Q.
Proof.
  intros HN HS. apply safe_section. intros s r HI. simpl. unfold now.
  destruct (a_create (env (clock s))) as [id|].
  - exists (making (clock s) false o). split_and!; [by apply create_inv|by apply step_same|done].
  - exists o. split_and!; [eapply quiet_inv; [|done]; auto with quiet|by apply step_same|done].
Qed.

Lemma safe_join_created (o : own) (hd : Handler) (fl : nat) (Q : session_error → own → Prop) :
  may_wait o → (∀ e, Q e o) → safe (see fl o) (join_created_session_flight hd fl) Q.
Proof.
  intros Hm HQ. apply safe_bind, safe_look. intros s r _. destruct (flight_has_plan s fl); reduce.
  - apply safe_bind, safe_wait_holder; [done|]. intros d. apply safe_bind, safe_look. intros ? ? _. by apply safe_ret.
  - apply safe_bind, safe_wait; [done|]. intros d. by apply safe_ret.
Qed.

Definition commit_claim (n : commit_next) : option (nat * bool) :=
  match n with CommitDone _ | CommitGone => None | CommitJoin fl leader => Some (fl, leader) end.

Lemma safe_commit_gate (o : own) (hd : Handler) :
  safe o (commit_under_gate env hd) (λ n, left_with (commit_claim n) o).
Proof.
  apply safe_bind, safe_existing_for; [|intros fl; by apply safe_ret].
  apply safe_bind, safe_quiet. intros s r _. cbv beta.
  destruct (sessions s !! h_id hd) as [x|]; [|split; [apply quiet_refl|by apply safe_ret]].
  case_decide; (split; [simpl; auto with quiet|]); reduce; simpl fst; [by apply safe_ret|].
  destruct (finalization_state x), (a_live _ _); try by apply safe_ret.
  apply safe_bind, safe_claim_holder; [intros e; by apply safe_ret|]. intros [fl l] o' Hc. by apply safe_ret.
Qed.

Lemma safe_commit_created (o : own) (hd : Handler) (Q : result () session_error → own → Prop) :
  may_wait o → (∀ r, Q r o) → safe o (commit_created_session env hd) Q.
Proof.
  intros Hm HQ. apply safe_bind, safe_existing_for.
  2: { intros fl. apply safe_bind, safe_join_created; [done|]. intros e. by apply safe_ret. }
  apply safe_bind, (safe_gate_claim commit_claim); [by apply may_wait_lock|intros g; apply safe_commit_gate|].
  intros [r| |fl leader] o' Hc; simpl in Hc.
  - rewrite Hc. by apply safe_ret.
  - rewrite Hc. apply safe_bind, safe_ask; [done|]. intros a. by apply safe_ret.
  - apply safe_bind. eapply (safe_wand _ _ _ (λ _ o', o' = see fl o)).
    + destruct leader; [|rewrite Hc; by apply safe_ret]. destruct Hc as (F & HF & ->).
      apply safe_bind, safe_lead_holder; [done|by apply may_wait_lock|]. intros r. by apply safe_ret.
    + intros ? ? ->. apply safe_ret. apply safe_bind, safe_join_created; [done|]. intros e. by apply safe_ret.
Qed.

Lemma safe_rollback (o : own) (id : session_id) (h : nat) (policy : FinalizePolicy) (b : bool)
    (Q : result Handler session_error → own → Prop) :
  (∀ r, Q r o) → safe (making h false o) (rollback_create env id h policy b) Q.
Proof.
  intros HQ. apply safe_bind, safe_destroy_made. intros raw.
  assert (∀ r b, safe (making h b o) (Ret r) Q) as Hret by (intros r c; exists o; split; [apply below_making|done]).
  assert (∀ raw_ok : bool, safe (making h raw_ok o)
    (let! retry := (if b then ask env a_path_exists (λ _, []) else Ret false) in
     if negb raw_ok || retry then
       insert_vacant id (with_destroyed raw_ok (session_from_handle id h retry policy));;!
       Ret (Err TeardownIncomplete)
     else Ret (Err (WorkloadCgroupSetupFailed b)))%prog Q) as Hend; [|destruct raw; [apply Hend..|apply Hret]].
  intros raw_ok. apply safe_bind, (safe_wand _ _ _ (λ _ o', o' = making h raw_ok o)).
  { destruct b; [by apply safe_ask|by apply safe_ret]. }
  intros retry ? ->. apply safe_ret. destruct (negb raw_ok || retry); [|apply Hret].
  apply safe_bind, (safe_insert_vacant o id (with_destroyed raw_ok (session_from_handle id h retry policy)));
    [done|apply Hret|by apply safe_ret].
Qed.

Lemma safe_insert_created (o : own) (id : session_id) (h : nat) (cgroup : bool) (policy : FinalizePolicy)
    (Q : result Handler session_error → own → Prop) :
  may_wait o → (∀ r, Q r o) → safe (making h false o) (insert_created env id h cgroup policy) Q.
Proof.
  intros Hm HQ.
  assert (∀ r b, safe (making h b o) (Ret r) Q) as Hret by (intros r c; exists o; split; [apply below_making|done]).
  apply safe_bind, (safe_insert_vacant o id (session_from_handle id h cgroup policy)); [done|..]; reduce.
  - apply safe_bind, (safe_destroy_made _ h). intros []; [|apply Hret..].
    apply safe_bind. eapply (safe_wand _ _ _ (λ _ o', o' = making h true o)).
    { destruct cgroup; [apply safe_bind, safe_ask; [done|]; intros|]; by apply safe_ret. }
    intros ? ? ->. apply safe_ret, Hret.
  - apply safe_bind, safe_commit_created; [done|]. intros r. by apply safe_ret.
Qed.

Lemma safe_release (o : own) (id : session_id) (Q : () → own → Prop) :
  Q tt o → safe o (release_reservation id) Q.
Proof. intros HQ. apply safe_update; [|done]. intros s. apply quiet_creating. Qed.

Lemma safe_create (o : own) (policy : FinalizePolicy) (Q : result Handler session_error → own → Prop) :
  may_wait o → (∀ r, Q r o) → safe o (create_workspace_session env policy) Q.
Proof.
  intros Hm HQ. apply safe_bind, safe_ask; [done|]. intros a. destruct (a_allocate a) as [id|]; [|by apply safe_ret].
  apply safe_bind, safe_quiet. intros s r _. cbv beta.
  case_decide; (split; [simpl; auto with quiet|]); reduce; simpl fst; [by apply safe_ret|].
  apply safe_bind, safe_create_workspace; reduce.
  - apply safe_bind, safe_ret, safe_bind, safe_release. by apply safe_ret.
  - intros id' h. apply safe_bind. eapply (safe_wand _ _ _ (λ _ o', below o o')).
    + case_decide; [apply safe_ret, below_making|].
      apply safe_bind, safe_ask; [done|]. intros b. destruct (a_prepare b) as [[cgroup|] failed].
      * apply safe_insert_created; [done|]. intros _. apply below_refl.
      * apply safe_rollback. intros _. apply below_refl.
    + intros r' o' Hb. apply safe_ret. apply (safe_mono _ _ _ _ _ Hb), safe_bind, safe_release. by apply safe_ret.
Qed.

(** *** Running a command *)

Lemma safe_exec_in (o : own) (id : session_id) (implicit : option Handler)
    (Q : result command_id session_error → own → Prop) :
  may_wait o → implicit = None ∨ strict = false → (∀ r, Q r o) → safe o (exec_in env id implicit) Q.
Proof.
  intros Hm Hi HQ. apply safe_bind, safe_ask; [done|]. intros a.
  apply safe_bind, (safe_gate_claim (λ r, option_map (λ fl, (fl, true)) r.2)); [by apply may_wait_lock| |].
  - intros g. apply safe_bind, safe_admit. intros [hd|e].
    + apply safe_bind, safe_ask; [done|]. intros b. destruct (a_launch b); [by apply safe_ret|].
      apply safe_bind. eapply safe_wand; [apply safe_complete|]. intros post o' Hl. by apply safe_ret, safe_ret.
    + apply safe_bind. destruct implicit as [hd|]; [|by apply safe_ret, safe_ret].
      destruct Hi as [|Hs]; [done|]. apply safe_bind, safe_destroy_session; [|by intros; apply safe_ret, safe_ret].
      intros Hs'. congruence.
  - intros [r post] o' Hl. apply safe_bind. eapply safe_complete_after; [exact Hl|by apply may_wait_lock|].
    by apply safe_ret.
Qed.

(** A command in a session of its own. *)
Definition own_session (op : operation) : bool :=
  match op with OpExec false None => true | _ => false end.

Lemma safe_operation (op : operation) :
  strict = false ∨ own_session op = false → safe nothing (run_operation env op) (λ _ o', o' = nothing).
Proof.
  intros Hop. assert (may_wait nothing) as Hm by done. assert (may_lock nothing) as Hk by done. destruct op.
  - apply safe_bind, safe_create; [done|]. intros. by apply safe_ret.
  - apply safe_bind. destruct blank; [by apply safe_ret, safe_ret|]. destruct input as [id|].
    + apply safe_exec_in; [done|by left|]. intros. by apply safe_ret.
    + apply safe_bind, safe_create; [done|]. intros [hd|]; [|by apply safe_ret, safe_ret].
      apply safe_exec_in; [done|right; by destruct Hop|]. intros. by apply safe_ret.
  - by apply safe_complete_activity.
  - apply safe_bind, safe_file_op; [done|]. intros. by apply safe_ret.
  - apply safe_bind, safe_publish_session; [done|]. intros. by apply safe_ret.
  - apply safe_bind, safe_destroy_session; [done|]. intros. by apply safe_ret.
  - apply safe_bind, safe_guarded_destroy; [done|]. intros. by apply safe_ret.
  - by apply safe_destroy_faulty.
  - by apply safe_reconcile.
  - by apply safe_shutdown.
Qed.
End service.
