(* ===== verification/SessionsThreads.v ===== *)
(** * The session service as a whole

    Any number of operations of [Sessions] run as threads, in any order.  All of
    them end when none runs a command in a session of its own; a workspace is
    destroyed at most once, and a session disappears only after its workspace and
    its cgroup did.  One run shows a command that blocks itself. *)

From S2P Require Import Prelude ByteStr FS Sessions SessionsInv SessionsSafe.

(** ** The threads and what they own *)

Definition total (os : list own) : own := foldr join nothing os.

Lemma inv_perm (s : shared) (o o' : own) :
  o_gates o ≡ₚ o_gates o' → o_leads o ≡ₚ o_leads o' → o_handles o ≡ₚ o_handles o' →
  o_done o ≡ₚ o_done o' → o_seen o ≡ₚ o_seen o' → Inv s o → Inv s o'.
Proof.
  intros Hg Hl Hh Hd Hs []. split; try done.
  - by rewrite <- Hg.
  - intros fl Hfl. apply inv_seen. by rewrite Hs.
  - intros fl Hfl. apply inv_done. by rewrite Hd.
  - by rewrite <- Hl.
  - intros l Hin. apply inv_lead. by rewrite Hl.
  - intros fl F HF Ht. rewrite <- Hl. eauto.
  - intros id x Hx. destruct (inv_session _ _ Hx) as (? & ? & ? & Hex). repeat split; try done.
    intros Hds Ht. destruct (Hex Hds Ht) as (l & Hin & ?). exists l. by rewrite <- Hl.
  - by rewrite <- Hh.
  - intros hb Hb. apply inv_handle. by rewrite Hh.
Qed.

Lemma delete_insert_same {A} (l : list A) (i : nat) (x : A) : delete i (<[i := x]> l) = delete i l.
Proof. revert i. induction l as [|y l IH]; intros [|i]; simpl; [done..|]. f_equal. apply IH. Qed.

(** One thread's part, and the rest. *)
Lemma total_split (s : shared) (os : list own) (i : nat) (o : own) :
  os !! i = Some o → Inv s (total os) ↔ Inv s (join o (total (delete i os))).
Proof.
  intros Hi. assert (∀ {A} (f : own → list A), (∀ o r, f (join o r) = f o ++ f r) →
    f (total os) ≡ₚ f (join o (total (delete i os)))) as Hf.
  { intros A f Hf. revert i Hi. induction os as [|o' os IH]; intros [|i] Hi; [done..|by injection Hi as ->|].
    simpl. rewrite !Hf, (IH _ Hi), !Hf. rewrite !app_assoc. f_equiv. apply Permutation_app_comm. }
  split; apply inv_perm; try apply Hf; try symmetry; try (apply Hf); done.
Qed.

Definition pool (strict : bool) (c : shared * list (prog ())) : Prop :=
  ∃ os, Inv c.1 (total os) ∧ Forall2 (λ o p, safe strict o p (λ _ o', o' = nothing)) os c.2.

Lemma pool_step (strict : bool) (c c' : shared * list (prog ())) :
  pool strict c → thread_step c c' → pool strict c' ∧ step_ok c.1 c'.1.
Proof.
  intros (os & HI & Hos) Hstep. destruct Hstep as [i s s' ts X f k x Hi Hf]. simpl in *.
  destruct (Forall2_lookup_r _ _ _ _ _ Hos Hi) as (o & Ho & Hsafe).
  apply (total_split _ _ _ _ Ho) in HI. specialize (Hsafe s _ HI). rewrite Hf in Hsafe.
  destruct Hsafe as (o' & HI' & Hok & Hk). split; [|done]. exists (<[i := o']> os). simpl. split.
  - apply (total_split _ _ i o'); [apply list_lookup_insert_eq; by eapply lookup_lt_Some|].
    by rewrite delete_insert_same.
  - by apply Forall2_insert.
Qed.

Lemma pool_started (strict : bool) (env : nat → answers) (ops : list operation) :
  strict = false ∨ Forall (λ op, own_session op = false) ops → pool strict (started env ops).
Proof.
  intros Hs. exists (replicate (length ops) nothing). split.
  - assert (total (replicate (length ops) nothing) = nothing) as ->.
    { induction ops as [|op ops IH]; [done|]. simpl. rewrite IH; [done|].
      destruct Hs as [|Hs]; [by left|right]. by inversion Hs. }
    split; simpl; try done; try (intros; by rewrite lookup_empty in * ); try by constructor.
    all: set_solver.
  - simpl. apply Forall2_fmap_r. induction ops as [|op ops IH]; [constructor|]. simpl. constructor.
    + apply safe_operation. destruct Hs as [|Hs]; [by left|right]. by inversion Hs.
    + apply IH. destruct Hs as [|Hs]; [by left|right]. by inversion Hs.
Qed.

Lemma pool_steps (strict : bool) (c c' : shared * list (prog ())) :
  rtc thread_step c c' → pool strict c → pool strict c'.
Proof. induction 1; [done|]. intros Hp. apply IHrtc. by eapply pool_step. Qed.

(** ** Deadlocks *)

Lemma total_empty (os : list own) :
  Forall (λ o, o_gates o = []) os → o_gates (total os) = [] .
Proof. induction 1 as [|o os Ho _ IH]; [done|]. simpl. by rewrite Ho, IH. Qed.

Lemma total_no_leads (os : list own) : Forall (λ o, o_leads o = []) os → o_leads (total os) = [].
Proof. induction 1 as [|o os Ho _ IH]; [done|]. simpl. by rewrite Ho, IH. Qed.

(** A thread that cannot take its next action now. *)
Definition halted (s : shared) (p : prog ()) : Prop :=
  match p with Ret _ => True | Act f _ => f s = None end.

Lemma step_or_halted (s : shared) (ts : list (prog ())) :
  (∃ c, thread_step (s, ts) c) ∨ Forall (halted s) ts.
Proof.
  assert ((∃ i p, ts !! i = Some p ∧ ¬ halted s p) ∨ Forall (halted s) ts) as [(i & p & Hi & Hp)|?]; [|left|by right].
  - induction ts as [|p ts [(i & q & Hi & Hq)|IH]]; [right; constructor|left; by exists (S i), q|].
    destruct p as [a|X f k]; [right; by constructor|]. destruct (f s) as [r|] eqn:Hf; [left|right; by constructor].
    exists 0, (Act f k). simpl. split; [done|congruence].
  - destruct p as [a|X f k]; [by destruct Hp|]. simpl in Hp. destruct (f s) as [[x s']|] eqn:Hf; [|done].
    eexists. by eapply step_at.
Qed.

(** What a halted thread owns, and what it waits for. *)
Lemma halted_owns (s : shared) (o r : own) (p : prog ()) :
  safe true o p (λ _ o', o' = nothing) → Inv s (join o r) → halted s p →
  o_gates o = [] ∧ (held s = [] → o_leads o = [] ∧
    (finished p ∨ ∃ fl F, flights s !! fl = Some F ∧ f_terminal F = None)).
Proof.
  intros Hs HI Hh. destruct p as [[]|X f k].
  - destruct Hs as (o' & (Hg & Hl & _) & ->). split; [done|]. intros _. split; [done|]. by left.
  - specialize (Hs s r HI). simpl in Hh. rewrite Hh in Hs. destruct (Hs eq_refl) as [Hg [Hne|[Hl Hp]]].
    + done.
    + split; [done|]. intros _. split; [done|by right].
Qed.

(** A pool that may only block where another thread can go on is done when it
    cannot go on. *)
Lemma pool_halted (s : shared) (ts : list (prog ())) :
  pool true (s, ts) → Forall (halted s) ts → Forall finished ts.
Proof.
  intros (os & HI & Hos) Hh. simpl in *.
  assert (∀ i o p, os !! i = Some o → ts !! i = Some p → o_gates o = [] ∧ (held s = [] → o_leads o = [] ∧
    (finished p ∨ ∃ fl F, flights s !! fl = Some F ∧ f_terminal F = None))) as Hown.
  { intros i o p Ho Hp. eapply halted_owns; [by eapply (Forall2_lookup_lr _ _ _ _ _ _ Hos)| |].
    - by apply (total_split _ _ _ _ Ho).
    - by apply (Forall_lookup_1 _ _ _ _ Hh Hp). }
  assert (held s = []) as Hheld.
  { apply Permutation_nil_r. rewrite (inv_held _ _ HI). rewrite total_empty; [done|].
    apply Forall_lookup. intros i o Ho. destruct (Forall2_lookup_l _ _ _ _ _ Hos Ho) as (p & Hp & _).
    by destruct (Hown _ _ _ Ho Hp). }
  assert (o_leads (total os) = []) as Hleads.
  { apply total_no_leads, Forall_lookup. intros i o Ho.
    destruct (Forall2_lookup_l _ _ _ _ _ Hos Ho) as (p & Hp & _). destruct (Hown _ _ _ Ho Hp) as [_ Hl].
    by destruct (Hl Hheld). }
  apply Forall_lookup. intros i p Hp. destruct (Forall2_lookup_r _ _ _ _ _ Hos Hp) as (o & Ho & _).
  destruct (Hown _ _ _ Ho Hp) as [_ Hl]. destruct (Hl Hheld) as [_ [|(fl & F & HF & Ht)]]; [done|].
  pose proof (inv_pending _ _ HI _ _ HF Ht) as Hin. rewrite Hleads in Hin. by apply not_elem_of_nil in Hin.
Qed.

(** ** Endless runs *)

(** A thread takes its next action, whatever the state. *)
Definition next (p q : prog ()) : Prop := match p with Ret _ => False | Act f k => ∃ x, q = k x end.
Definition program_step (ts ts' : list (prog ())) : Prop :=
  ∃ i p q, ts !! i = Some p ∧ next p q ∧ ts' = <[i := q]> ts.

Lemma program_sn (ts : list (prog ())) : sn program_step ts.
Proof.
  induction ts as [|p ts IH].
  { constructor. intros ? (i & p & q & Hi & _). done. }
  revert ts IH. induction p as [a|X f k IHp]; intros ts Hts; induction Hts as [ts Hts IHts].
  all: assert (sn program_step ts) by (constructor; exact Hts).
  all: constructor; intros ? (i & p & q & Hi & Hn & ->); destruct i as [|i]; simpl in Hi.
  - injection Hi as <-. done.
  - apply IHts. exists i, p, q. auto.
  - injection Hi as <-. destruct Hn as [x ->]. by apply IHp.
  - apply IHts. exists i, p, q. auto.
Qed.

Lemma threads_sn (c : shared * list (prog ())) : sn thread_step c.
Proof.
  destruct c as [s ts]. pose proof (program_sn ts) as Hsn. revert s.
  induction Hsn as [ts _ IH]. intros s. constructor. intros c' Hc.
  inversion Hc as [i ? s' ? X f k x Hi Hf]; subst. apply IH. exists i, (Act f k), (k x). simpl. eauto.
Qed.

(** C7: any number of operations of the session service, none of which runs a
    command in a session of its own, always come to an end: no schedule runs
    forever, and where no thread can go on all of them have finished.  No
    deadlock is possible between the gates of the sessions and the waits for
    teardowns, whatever the workspace runtime and the kernel answer. *)
Theorem operations_complete (env : nat → answers) (ops : list operation) :
  Forall (λ op, own_session op = false) ops →
  sn thread_step (started env ops) ∧
  ∀ s ts, rtc thread_step (started env ops) (s, ts) → nf thread_step (s, ts) → Forall finished ts.
Proof.
  intros Hops. split; [apply threads_sn|]. intros s ts Hsteps Hnf.
  assert (pool true (s, ts)) as Hp by (eapply pool_steps; [done|]; apply pool_started; by right).
  destruct (step_or_halted s ts) as [Hc|Hh]; [by destruct Hnf|]. by eapply pool_halted.
Qed.

(** C8: a workspace is destroyed at most once, however explicit destroys,
    completions, publishes, the reconciliation of dead holders and a shutdown
    interleave. *)
Theorem workspace_destroyed_once (env : nat → answers) (ops : list operation) (s : shared) (ts : list (prog ())) :
  rtc thread_step (started env ops) (s, ts) → NoDup (torn_handles s).
Proof.
  intros Hsteps. destruct (pool_steps false _ _ Hsteps) as (os & HI & _); [apply pool_started; by left|].
  exact (inv_torn_nodup _ _ HI).
Qed.

(** C9: in any step of any run a session disappears only when its workspace was
    destroyed and its cgroup cleaned up, its handle never changes, and a command
    is added only while it is active. *)
Theorem session_step_safe (env : nat → answers) (ops : list operation) (s s' : shared) (ts ts' : list (prog ()))
    (id : session_id) (x : WorkspaceSession) :
  rtc thread_step (started env ops) (s, ts) → thread_step (s, ts) (s', ts') → sessions s !! id = Some x →
  match sessions s' !! id with
  | None => EvDestroy (ws_handle x) true ∈ trace s ∧ workspace_destroyed x = true ∧ cgroup_cleanup_complete x = true
  | Some x' => session_handler x' = session_handler x
               ∧ ∀ c, c ∈ active_commands x' → c ∈ active_commands x ∨ finalization_state x = Active
  end.
Proof.
  intros Hsteps Hstep Hx. assert (pool false (s, ts)) as Hp by (eapply pool_steps; [done|]; apply pool_started; by left).
  destruct (pool_step _ _ _ Hp Hstep) as [_ Hok]. specialize (Hok id x Hx). simpl in Hok.
  destruct (sessions s' !! id); [done|]. destruct Hok as (Ht & ? & ?). split_and!; try done.
  apply list_elem_of_omap in Ht as (e & He & Heq). by destruct e as [| | |h []|]; simplify_eq/=.
Qed.

(** ** Concrete runs *)

Fixpoint run_thread (n i : nat) (c : shared * list (prog ())) : shared * list (prog ()) :=
  match n with
  | O => c
  | S n =>
      match c.2 !! i with
      | Some (Act f k) =>
          match f c.1 with Some (x, s) => run_thread n i (s, <[i := k x]> c.2) | None => c end
      | _ => c
      end
  end.

Lemma run_thread_steps (n i : nat) (c : shared * list (prog ())) : rtc thread_step c (run_thread n i c).
Proof.
  revert c. induction n as [|n IH]; intros [s ts]; [done|]. simpl.
  destruct (ts !! i) as [[a|X f k]|] eqn:Hi; [done| |done].
  destruct (f s) as [[x s']|] eqn:Hf; [|done]. eapply rtc_l; [by eapply step_at|apply IH].
Qed.

(** One thread is left that cannot go on. *)
Definition stuck (c : shared * list (prog ())) : bool :=
  match c.2 with [Act f _] => match f c.1 with None => true | Some _ => false end | _ => false end.

Lemma stuck_spec (c : shared * list (prog ())) :
  stuck c = true → nf thread_step c ∧ ¬ Forall finished c.2.
Proof.
  destruct c as [s [|[a|X f k] [|]]]; [done..| |done]. unfold stuck. simpl. destruct (f s) eqn:Hf; [done|]. intros _. split.
  - intros [c' Hc]. inversion Hc as [i ? s' ? Y g k' x Hi Hg]; subst.
    destruct i as [|i]; [|by destruct i]. assert (halted s (Act g k')) as Hh; [|by simpl in Hh; congruence].
    apply (inj Some) in Hi. by rewrite <- Hi.
  - intros H. by inversion H.
Qed.

(** Everything succeeds; the holder is alive until the given moment. *)
Definition demo_env (dies : nat) (n : nat) : answers :=
  mkAnswers (λ _, n <? dies) Quiesced (Some (false, false)) (Some false) RawOk true true true
    (Some (bytes_of "a")) (Some (bytes_of "a")) (Some true, false) true true (bytes_of "c").

(** A command in a session of its own can block itself for ever.  When the
    holder dies between the creation of the session and the admission of the
    command, the clean-up locks the gate that the caller still holds. *)
Theorem exec_command_blocks_itself :
  ∃ c, rtc thread_step (started (demo_env 5) [OpExec false None]) c ∧ nf thread_step c ∧ ¬ Forall finished c.2.
Proof.
  exists (run_thread 100 0 (started (demo_env 5) [OpExec false None])).
  split; [apply run_thread_steps|]. apply stuck_spec. vm_compute. reflexivity.
Qed.

(** Everything that the thread does next is possible. *)
Definition can_step (i : nat) (c : shared * list (prog ())) : bool :=
  match c.2 !! i with
  | Some (Act f _) => match f c.1 with Some _ => true | None => false end
  | _ => false
  end.

Lemma run_thread_step (i : nat) (c : shared * list (prog ())) :
  can_step i c = true → thread_step c (run_thread 1 i c).
Proof.
  destruct c as [s ts]. unfold can_step. simpl. destruct (ts !! i) as [[a|X f k]|] eqn:Hi; [done| |done].
  destruct (f s) as [[x s']|] eqn:Hf; [|done]. intros _. by eapply step_at.
Qed.

(** A session is created, and its destruction is about to remove it. *)
Definition demo_ops : list operation :=
  [OpCreate NoOp; OpGuardedDestroy (bytes_of "a"); OpReconcile; OpShutdown].
Definition demo_state : shared * list (prog ()) :=
  run_thread 10 1 (run_thread 100 0 (started (demo_env 100) demo_ops)).

Lemma demo_steps : rtc thread_step (started (demo_env 100) demo_ops) (demo_state.1, demo_state.2).
Proof. rewrite <- surjective_pairing. unfold demo_state. etrans; apply run_thread_steps. Qed.

Lemma operations_complete_witness :
  Forall (λ op, own_session op = false) demo_ops ∧ sn thread_step (started (demo_env 100) demo_ops).
Proof.
  assert (Forall (λ op, own_session op = false) demo_ops) as H by (repeat constructor).
  split; [exact H|exact (proj1 (operations_complete (demo_env 100) demo_ops H))].
Defined.

Lemma workspace_destroyed_once_witness : torn_handles demo_state.1 = [1] ∧ NoDup (torn_handles demo_state.1).
Proof.
  split; [vm_compute; reflexivity|exact (workspace_destroyed_once _ _ _ _ demo_steps)].
Defined.

Lemma session_step_safe_witness :
  ∃ x, sessions demo_state.1 !! bytes_of "a" = Some x ∧ sessions (run_thread 1 1 demo_state).1 !! bytes_of "a" = None
       ∧ EvDestroy (ws_handle x) true ∈ trace demo_state.1.
Proof.
  destruct (sessions demo_state.1 !! bytes_of "a") as [x|] eqn:Hx; [|vm_compute in Hx; discriminate Hx].
  assert (thread_step (demo_state.1, demo_state.2) ((run_thread 1 1 demo_state).1, (run_thread 1 1 demo_state).2)) as Hs.
  { rewrite <- !surjective_pairing. apply run_thread_step. vm_compute. reflexivity. }
  pose proof (session_step_safe _ _ _ _ _ _ _ _ demo_steps Hs Hx) as H.
  assert (sessions (run_thread 1 1 demo_state).1 !! bytes_of "a" = None) as Hn by (vm_compute; reflexivity).
  rewrite Hn in H. exists x. split; [reflexivity|]. split; [exact Hn|]. apply H.
Defined.
